(* ===== verification/_CoqProject ===== *)
-Q . S2P
Prelude.v
JsMap.v
JsText.v
Channels.v
SlidingWindow.v
AuthRateLimiter.v
TokenRateLimiter.v
VerificationRateLimiter.v
RateLimitProvider.v
CompactionCircuit.v
QdrantBreaker.v
BillingBreaker.v
FallbackBreaker.v
PairingStore.v
DedupCache.v
PendingInteractions.v
TurnStore.v
ToolPairing.v
HistoryRepair.v
ApprovalPolicy.v
CallStateMachine.v
BargeInGuard.v
TurnDetector.v
StreamState.v
StreamConsumer.v
StreamResume.v
ThinkTags.v
LineDiff.v
AudioTranscode.v
MessageQueue.v
QueueDrain.v
EventHub.v
EventDelivery.v
IncludeGraph.v
IpcFraming.v
TrustRules.v
ArgParser.v
BashRisk.v
RiskLadder.v
Paths.v
PathPolicy.v
PosixFs.v
WorkspacePolicy.v
FileRisk.v
Checker.v
DirectoryScope.v
ShellApproval.v
UrlSafety.v
WebFetch.v
WorkflowCapabilities.v
WorkflowJournal.v
WorkflowEngine.v
WorkflowResume.v
WorkflowBudget.v
WorkflowRuns.v
WorkflowIsolation.v
Base64.v
AuthTokens.v
DeviceTokens.v
GuardianBinding.v
Identity.v
AdmissionPolicies.v
InboundTrust.v
InboundAcl.v
