(* ===== verification/Prelude.v ===== *)
(** * Verification of the assistant's state machines

    The program is a personal assistant: a daemon ([src/assistant]) that runs
    conversations against language-model providers, a gateway ([src/gateway])
    that faces the network and the messaging channels, and clients, of which the
    web client ([src/clients/web]) is the richest.  Around its I/O the program
    is a collection of in-process state machines that decide what is let
    through, retried, repaired, numbered, replayed or dropped.  This library
    models those machines and proves what they are there for.

    ** Parts and files

    Shared ground
    - this file: notations, tactics ([branches], [zbool]), JavaScript's
      truthiness, [shift] loops, stable sort, [trim], [toISOString] and the lists
      they need;
    - [JsMap]: JavaScript's [Map], an association list in insertion order, with
      the lookup, insertion, deletion, sweep and capacity lemmas every store uses;
    - [JsText]: the string methods the program cuts its input with, and the names
      every plain object inherits;
    - [Channels]: the interfaces and the host capabilities of each,
      [assistant/src/channels/types.ts] and [types/host-capabilities.ts];
    - [SlidingWindow]: the array-of-timestamps limiter two components share, its
      specification as a failure log, and the class [FailureLimiter] its clients
      are proved against.

    Throttles and breakers
    - [AuthRateLimiter] — [gateway/src/auth-rate-limiter.ts] and the guard of
      [gateway/src/http/middleware/rate-limit.ts];
    - [TokenRateLimiter] — [assistant/src/runtime/middleware/rate-limiter.ts];
    - [VerificationRateLimiter] — [assistant/src/runtime/verification-rate-limiter.ts];
    - [RateLimitProvider] — [assistant/src/providers/ratelimit.ts];
    - [CompactionCircuit] — [assistant/src/agent/compaction-circuit.ts];
    - [QdrantBreaker], [BillingBreaker] — the two breakers of
      [assistant/src/persistence/embeddings];
    - [FallbackBreaker] — [assistant/src/providers/fallback-breaker.ts].

    Stores
    - [PairingStore] — [gateway/src/remote-web]: challenges are objects in a heap,
      reached through two maps, as in the code;
    - [DedupCache] — [gateway/src/dedup-cache.ts], the numeric cache and (Module
      [StringDedupCache]) the string one;
    - [PendingInteractions] — [assistant/src/runtime/pending-interactions.ts].

    The conversation queue
    - [MessageQueue] — [assistant/src/daemon/conversation-queue-manager.ts]: the
      queue and its byte budget;
    - [QueueDrain] — [assistant/src/daemon/conversation-process.ts]: what happens
      to the queued messages when a turn ends, over the queue of [MessageQueue].

    The event stream, from the daemon to the client
    - [StreamState] — [assistant/src/runtime/assistant-stream-state.ts]: sequence
      numbers, their reservation on disk across restarts, and the replay ring;
    - [EventHub] — [assistant/src/runtime/assistant-event-hub.ts]: subscribers, and
      the publication that stamps through [StreamState] and calls them;
    - [EventDelivery] — [assistant/src/runtime/routes/events-routes.ts] and
      [ipc/routes/events-ipc-routes.ts]: the route that subscribes a connection to
      [EventHub] and drains the replay of [StreamState] into it;
    - [StreamConsumer] — [clients/web/src/lib/streaming] and
      [domains/chat/streaming/sse-event-consumer.ts]: cursor, frontiers, gap
      detection, heals;
    - [StreamResume]: [StreamState] and [StreamConsumer] together;
    - [TurnStore] — [clients/web/src/domains/chat/turn-store.ts]: the turn state
      machine, both as the store's actions and as the reducer.

    Conversation history
    - [ToolPairing] — [assistant/src/providers/server-tool-pairing.ts] and the
      message model of [providers/types.ts];
    - [HistoryRepair] — [assistant/src/agent/history-repair/history-repair.ts].

    Permissions
    - [TrustRules] — [gateway/src/risk/risk-types.ts] and [trust-rule-cache.ts]:
      the order of risks and the cache of the user's rules;
    - [ArgParser] — [gateway/src/risk/arg-parser.ts];
    - [BashRisk] — [gateway/src/risk/bash-risk-classifier.ts], a client of the two;
    - [RiskLadder]: what the options of a prompt promise, a rule saved from one
      being looked up again by [TrustRules];
    - [ApprovalPolicy] — [assistant/src/permissions/approval-policy.ts], which turns
      the risk into a decision;
    - [Paths]: the POSIX functions of node:path and what they do on absolute paths
      without empty, [.] and [..] pieces;
    - [PathPolicy] — [assistant/src/tools/shared/filesystem/path-policy.ts] and
      [util/fs-symlinks.ts]: where the path a file tool was given leads, and
      whether it may go there, over [realpathSync] and [readlinkSync];
    - [PosixFs]: a tree with symbolic links and the walk of the kernel over it, the
      reference the checks are compared with;
    - [WorkspacePolicy] — [assistant/src/permissions/workspace-policy.ts];
    - [FileRisk] — [gateway/src/risk/file-risk-classifier.ts], its request handler,
      and the request the daemon builds;
    - [DirectoryScope] — [gateway/src/risk/directory-scope.ts] and
      [project-boundary.ts];
    - [Checker] — [classifyRisk] and [check] of
      [assistant/src/permissions/checker.ts], which put classification, policy and
      threshold together;
    - [ShellApproval] — the [bash] case of
      [gateway/src/ipc/risk-classification-handlers.ts]: the lines that run without a
      question because they stay in the workspace, over [BashRisk]; what [Checker]
      makes of the answer; the scopes of [DirectoryScope] for a line;
    - [UrlSafety] — [assistant/src/tools/network/url-safety.ts]: private and local
      hosts by their text, against blocks of numeric addresses;
    - [WebFetch] — [tools/network/web-fetch.ts] and the guards of
      [tools/browser/browser-execution.ts]: where requests go, over [UrlSafety].

    Credentials and admission
    - [Base64], [AuthTokens] — [gateway/src/auth/token-service.ts], [subject.ts],
      [policy.ts], [token-exchange.ts]: tokens written, verified and exchanged;
    - [DeviceTokens] — [auth/guardian-refresh.ts], [guardian-bootstrap.ts] (pairing),
      [http/routes/devices.ts], [auth-token.ts]: the tables of actor and refresh
      tokens, over [AuthTokens];
    - [GuardianBinding] — [auth/guardian-bootstrap.ts] and [guardian-integrity.ts]:
      contacts and channels, who the guardian is, and its recovery from the tables
      of [DeviceTokens];
    - [Identity] — [gateway/src/verification/identity.ts],
      [assistant/src/util/canonicalize-identity.ts], [channels/plugin-inbound.ts];
    - [AdmissionPolicies] — [packages/gateway-client/src/admission-policy-contract.ts],
      the table, the cache and the requests of the channels' floors in the gateway;
    - [InboundTrust] — [gateway/src/risk/trust-verdict-resolver.ts], which reads the
      tables of [GuardianBinding] under the spellings of [Identity], and the daemon's
      [runtime/trust-verdict-consumer.ts];
    - [InboundAcl] — [assistant/src/runtime/routes/inbound-stages/acl-enforcement.ts],
      [admission-policy.ts], the gates of [inbound-message-handler.ts] and, before
      them, [gateway/src/handlers/handle-inbound.ts], with the telephone's
      [calls/call-setup-router.ts]: what becomes of an event under the verdict of
      [InboundTrust] and the floor of [AdmissionPolicies].

    Workflows
    - [WorkflowCapabilities] — [assistant/src/workflows/capabilities.ts]: what a
      script declares and what it is granted;
    - [WorkflowJournal] — [journal-store.ts]: the tables of runs and of journaled
      answers;
    - [WorkflowEngine] — [engine.ts]: the host functions a script calls, the pool
      of leaves, replay and caps, over scripts seen as the calls they make and the
      answers they are given;
    - [WorkflowResume]: crashes and resumptions of one run against a reference run
      that is never interrupted;
    - [WorkflowBudget]: caps, pools and accounting of one run;
    - [WorkflowRuns] — [run-manager.ts]: the daemon's runs over the shared tables;
    - [WorkflowIsolation]: each run among the others is a run of its own.

    Skills, calls, text, transport
    - [IncludeGraph] — [assistant/src/skills/include-graph.ts];
    - [CallStateMachine], [BargeInGuard], [TurnDetector], [AudioTranscode] — the
      call status table, the interruption guard, the turn detector and the audio
      codec of [assistant/src/calls];
    - [ThinkTags] — [assistant/src/util/think-tag-stream.ts] and
      [tts/reasoning-tag-filter.ts];
    - [LineDiff] — [clients/web/src/domains/chat/components/compute-line-diff.ts];
    - [IpcFraming] — [packages/ipc-server-utils/src/ipc-framing.ts].

    ** How the code is modelled

    A class or a module's variables become a [Record]; a method becomes a
    [Definition] that takes the state and returns the new one with the method's
    result, in the order of the source and with its early returns.  Mutation of
    an object reachable from several places is modelled by a heap
    ([PairingStore], [EventHub], the announcement flags of [QueueDrain]);
    callbacks, timers and emitted events are values returned in order.
    [Date.now()], [Math.random()], generated identifiers, hashes and the outcome
    of I/O are arguments.  Times and counters are integers of unbounded width:
    the code keeps them far below 2^53.  Asynchronous calls are split at their
    suspension points and interleaved as events of a history; the theorems
    quantify over all histories.  [QueueDrain] instead runs over a script that
    answers each awaited step and names the messages that arrive meanwhile.

    A table of the gateway is a list of rows in the order of insertion; a query is
    its filter, and a constraint the code relies on is checked where it is broken.
    An operation over tables reads the clock once.  Of code that is not in the
    repository only what is documented is assumed: that the keyed hash of tokens
    is a function of its input, that parsing undoes writing, that a resolver answers
    with addresses.  What another service answers to the gates of [InboundAcl] and to
    [WebFetch] is a [World], which of the disk's accesses succeed a [Disk] or [Reads];
    text is a sequence of bytes, and where the code folds the case of all of
    Unicode only the ASCII letters are folded.

    Loops over arrays are structural.  The loops that are not carry fuel; each
    is proved never to run out of it: the filter of [ThinkTags] takes one more
    than the length of its buffer, since every turn consumes a tag; the walk of
    [LineDiff] the total number of lines; the framing of [AudioTranscode] the
    length of the buffer; the reader of [IpcFraming] twice the buffer; the drains
    of [QueueDrain] the messages that wait or are to arrive
    ([drains_terminate]); the searches of [IncludeGraph] two more than the
    catalogue; the wrappers and subcommands of [BashRisk] the number of
    arguments ([classifySegment_unfold]).  The redraw loop of [PairingStore]
    runs over a list of draws and is proved to end on any list of distinct codes
    longer than the store.  The loop of [WebFetch] counts the redirects that are
    left and the one of [ShellApproval] the wrappers, as the code does.

    ** What is proved

    - Safety of stores under every interleaving: one exchange at a time, none
      without approval, of no other challenge's data and none after consumption; no update processed twice or
      concurrently; one announcement per registered interaction.
    - The queue: every message ends with a turn, a notification to its sender or a
      place in the queue; turns run under the trust of their senders, and with their
      principals unless another request overwrites the slot these are left in
      ([stored_principal_reaches_the_turn]); the client's view of the queue stays true; the drains end; the byte account is exact.
    - Refinement: the trimmed arrays of the limiters answer as the full logs
      would; the guard and the request limiter bound what passes in any window.
    - Breakers: one probe at a time, diversion until the deadline, quiet
      cooldowns, stale observations ignored.
    - The event stream: numbers are never issued twice across restarts; a replay
      is exact; every delivery is one its subscriber accepts, and broadcasts
      arrive in order; a resumed connection gets the replay and then what is
      live, once each and in order; nothing is applied twice or out of order; a
      reconnect without byte pressure replays or reconciles.
    - History repair: the output is well formed for every input, keeps all that
      is not a misplaced result, and is the identity on well-formed input.
    - Turns: every reachable state is coherent; an interrupt is a handoff; the
      reducer and the store agree but for two stated exceptions.
    - Permissions: the risk of a line is the greatest of its segments and is not
      lowered by a wrapper, where its options have no values the classifier does not
      know of, or by an argument; saved options apply again; the policy
      in closed form.
    - Files: the path policies admit exactly the targets they should; what is
      checked is what is opened, up to a trailing link; the classifier, the
      workspace policy and the executor agree on the boundary; a write outside
      the workspace or into a directory the daemon runs code from asks; the
      directory scopes offered hold the call, a shell line's included; a line that
      runs unasked because it stays in the workspace does, path by path.
    - Network: every spelling of a private address is recognized and public ones are
      not; a fetch asks no private address through any redirect, whatever resolver
      and servers answer; a URL goes to a scraper when the fetcher would ask for it;
      a browser's requests rest on a lookup of the last five seconds.
    - Credentials: a token has one spelling; a refresh token works once, its reuse
      ends the family, a pairing is prolonged by a year at most; what an unpaired device held is
      refused for ever; a lost guardian is found again and never replaced unasked.
    - Admission: what passes the gates of the daemon is exactly what the tables of
      the gateway entitle under the floor in force, for messages as for calls; who
      is blocked or denied never passes, who is forged passes as a stranger; a
      denial asks the guardian at most once; floors follow the requests while the disk
      answers; a guardian once bound gets through.
    - Workflows: a run that is crashed and resumed returns what the uninterrupted
      run returns and answered leaves are not run again, while nothing throws or fails
      and no script reads its accounting; runs do not disturb each other; caps and pools hold; rows are truthful; grants are consented.
    - Algorithms: the diff is faithful and minimal; the spoken text does not
      depend on chunking and never holds reasoning; include graphs are accepted
      exactly when complete and acyclic; framing is a round trip that does not
      depend on chunking; the codec's round trip and error bound.
    - Where the code and its comments part, a theorem states what the code does:
      [byte_evicted_events_are_lost], [failed_heal_is_not_retried],
      [thrown_event_is_not_recovered], [stale_guard_reapplies_replays],
      [failed_update_overtaken_is_lost], [repair_is_not_idempotent],
      [one_failure_reopens], [poll_and_handoff_diverge],
      [aborted_batch_drops_its_tails], [failed_start_strands_the_queue],
      [saved_rule_covers_compound_commands], [flag_value_hides_wrapped_command],
      [direct_publication_overtakes], [negotiated_request_not_replayed],
      [addressed_event_not_replayed], [unnamed_tail_is_unfiltered],
      [usage_breaks_replay], [crashes_refund_the_cap],
      [dotted_names_are_out_of_bounds], [linked_parents_escape],
      [dangling_links_read_as_inside], [linked_prefix_hides_sink],
      [saved_directory_options_cover_nothing], [scoped_rules_miss_relative_calls],
      [new_address_takes_a_blocked_row], [guardian_only_lets_strangers_edit],
      [plugins_hear_the_kept_out], [pending_challenge_hides_the_block],
      [floor_hint_misses_the_default_floor], [principalless_binding_is_vouched],
      [failed_reload_forgets_floors], [deleting_the_plugin_floor_widens_it],
      [parent_steps_escape_approval], [hidden_paths_are_approved],
      [approval_ignores_the_risk], [quoted_paths_read_as_inside],
      [unresolved_names_are_navigated], [stored_principal_reaches_the_turn].

    ** What is not modelled

    Network clients, database queries, React components, command-line and
    platform code; the agent loop that calls these machines; the shell parser
    and the tables that feed [BashRisk] (they are arguments of its definitions);
    the PowerShell branch beside it and what scripts handed to a command do; the
    parser of URLs (an argument of [WebFetch]), the headers of a fetch and the text
    made of a page; the floating-point resampler of the audio module.  The sandbox that runs workflow scripts is seen as
    the calls a script makes.

    Of the credentials: the file of the signing key, the checks of the caller's
    address, the mirror of identities into the daemon and the other writers of the
    contacts.  Of admission: routing and the intercepts of verification codes and
    invites (their outcomes are fields of an event), the recording of events, what
    edits, deletions and reactions do once let through, and the stages between the
    gates and the agent loop; an event that passes is [agent_path].

    The rest of the repository is left out because its substance is elsewhere: the
    agent loop, the persistence layer and the routes are sequences of calls to a
    database, a provider or a service, the clients' pages are renderings of what
    they receive, and the native shells are platform code.  Some smaller deciders
    could be modelled as the ones here are and are not: the risk classifiers of
    URLs, schedules and skills, the placeholders of sensitive output, the
    active-call leases, the navigation resolver and the subagent store of the web
    client. *)

From Stdlib Require Export ZArith Lia Ascii String.
From stdpp Require Export base tactics numbers list strings pretty gmap sorting ssreflect.

(** ** Notations *)

Declare Scope litt_scope.
Delimit Scope litt_scope with litt.

(** JavaScript's conditional on an optional value: [a ?? b]. *)
Notation "a 'otherwise' b" := (match a with Some x => x | None => b end)
  (at level 60, right associativity) : litt_scope.

(** ** Automation *)

Create HintDb litt discriminated.

(** Split the goal along the [if]s and [match]es of the code under scrutiny,
    simplifying the equations each branch introduces. *)
Ltac branches :=
  repeat (case_match || case_decide || case_bool_decide); simplify_eq/=.

(** Turn the boolean comparisons of the code into linear arithmetic facts. *)
Ltac zify_bools :=
  repeat match goal with
  | H : (_ <=? _)%Z = true |- _ => apply Z.leb_le in H
  | H : (_ <=? _)%Z = false |- _ => apply Z.leb_gt in H
  | H : (_ <? _)%Z = true |- _ => apply Z.ltb_lt in H
  | H : (_ <? _)%Z = false |- _ => apply Z.ltb_ge in H
  | H : (_ =? _)%Z = true |- _ => apply Z.eqb_eq in H
  | H : (_ =? _)%Z = false |- _ => apply Z.eqb_neq in H
  | H : (_ && _) = true |- _ => apply andb_true_iff in H; destruct H
  | H : (_ || _) = false |- _ => apply orb_false_iff in H; destruct H
  | H : negb _ = true |- _ => apply negb_true_iff in H
  | H : negb _ = false |- _ => apply negb_false_iff in H
  end.

Ltac zbool := zify_bools; try lia.

(** ** JavaScript values *)

(** A string is falsy exactly when it is empty; so is an absent one. *)
Definition truthy (o : option string) : bool :=
  match o with
  | Some EmptyString | None => false
  | Some _ => true
  end.

Lemma truthy_Some o : truthy o = true → ∃ s, o = Some s ∧ s ≠ EmptyString.
Proof. destruct o as [[|a s]|]; naive_solver. Qed.

(** ** Lists *)

(** [while (l.length > 0 && p(l[0])) l.shift();] *)
Fixpoint shift_while {A} (p : A → bool) (l : list A) : list A :=
  match l with
  | [] => []
  | x :: l' => if p x then shift_while p l' else l
  end.

Section shift_while.
Context {A : Type}.
Implicit Types (p : A → bool) (l : list A).

Lemma shift_while_suffix p l :
  ∃ gone, l = gone ++ shift_while p l ∧ Forall (λ x, p x = true) gone.
Proof.
  induction l as [|x l (gone & Hl & Hg)]; simpl; [by exists []|].
  destruct (p x) eqn:Hp; [|by exists []].
  exists (x :: gone). split; [by rw {1}Hl|by constructor].
Qed.

Lemma shift_while_head p l x l' : shift_while p l = x :: l' → p x = false.
Proof. induction l as [|y l IH]; simpl; [done|]. case_match; naive_solver. Qed.

Lemma shift_while_length p l : (length (shift_while p l) ≤ length l)%nat.
Proof. induction l as [|x l IH]; simpl; [done|]. case_match; simpl; lia. Qed.

Lemma shift_while_none p l :
  Forall (λ x, p x = false) l → shift_while p l = l.
Proof. destruct 1 as [|x l Hx]; simpl; [done|by rw Hx]. Qed.

Lemma shift_while_Forall (P : A → Prop) p l :
  Forall P l → Forall P (shift_while p l).
Proof. induction 1; simpl; [done|]. case_match; by try constructor. Qed.
End shift_while.

Lemma filter_keep {A} (P : A → Prop) `{∀ x, Decision (P x)} (l : list A) :
  Forall P l → filter P l = l.
Proof. induction 1; [done|]. rw filter_cons_True //. by f_equal. Qed.

Lemma filter_none {A} (P : A → Prop) `{∀ x, Decision (P x)} (l : list A) :
  Forall (λ x, ¬ P x) l → filter P l = [].
Proof. induction 1; [done|]. by rw filter_cons_False. Qed.

(** Timestamps in recording order. *)
Definition chronological : list Z → Prop := StronglySorted Z.le.

(** On a chronological list, shifting the expired front is a full filter. *)
Lemma shift_while_filter (cutoff : Z) (l : list Z) :
  chronological l →
  shift_while (λ t, (t <=? cutoff)%Z) l = filter (λ t, (cutoff < t)%Z) l.
Proof.
  induction 1 as [|x l Hl IH Hx]; simpl; [done|].
  destruct (Z.leb_spec x cutoff) as [Hle|Hlt].
  - rw IH. symmetry. apply filter_cons_False. lia.
  - rw filter_cons_True //. f_equal. symmetry. apply filter_keep.
    eapply Forall_impl; [exact Hx|simpl; lia].
Qed.

Lemma chronological_shift p l : chronological l → chronological (shift_while p l).
Proof.
  induction 1 as [|x l Hl IH Hx]; simpl; [constructor|].
  case_match; [done|by constructor].
Qed.

Lemma chronological_snoc l t :
  chronological l → Forall (λ x, x ≤ t)%Z l → chronological (l ++ [t]).
Proof.
  induction 1 as [|x l Hl IH Hx]; simpl; intros Ht; [repeat constructor|].
  inversion Ht; subst. constructor; [by apply IH|].
  apply Forall_app; split; [done|]. by constructor.
Qed.

#[export] Hint Resolve chronological_shift chronological_snoc : litt.

(** [array.sort(cmp)]: JavaScript's sort is stable; [le x y] is [cmp(x, y) <= 0]. *)
Fixpoint sort_insert {A} (le : A → A → bool) (x : A) (l : list A) : list A :=
  match l with
  | [] => [x]
  | y :: l' => if le x y then x :: y :: l' else y :: sort_insert le x l'
  end.

Definition stable_sort {A} (le : A → A → bool) (l : list A) : list A :=
  foldr (sort_insert le) [] l.

Lemma sort_insert_perm {A} le (x : A) l : sort_insert le x l ≡ₚ x :: l.
Proof.
  induction l as [|y l IH]; simpl; [done|]. case_match; [done|].
  rw IH. apply Permutation_swap.
Qed.

Lemma stable_sort_perm {A} le (l : list A) : stable_sort le l ≡ₚ l.
Proof. induction l as [|x l IH]; simpl; [done|]. by rw sort_insert_perm IH. Qed.

(** ** Numbers *)

(** [Math.ceil(n / d)] on integers. *)
Definition ceil_div (n d : Z) : Z := - ((- n) / d).

Lemma ceil_div_spec n d :
  (0 < d)%Z → (n ≤ d * ceil_div n d < n + d)%Z.
Proof.
  intros Hd. unfold ceil_div.
  pose proof (Z.div_mod (- n) d). pose proof (Z.mod_pos_bound (- n) d). lia.
Qed.

(** ** Strings *)

(** [s.split(c)[0]] *)
Fixpoint before_char (c : ascii) (s : string) : string :=
  match s with
  | EmptyString => EmptyString
  | String a s' => if decide (a = c) then EmptyString else String a (before_char c s')
  end.

(** The whitespace [String.prototype.trim] removes, on Latin-1 text. *)
Definition is_space (a : ascii) : bool :=
  let n := nat_of_ascii a in
  ((9 <=? n) && (n <=? 13)) || (n =? 32) || (n =? 160).

Fixpoint trim_start (s : string) : string :=
  match s with
  | EmptyString => EmptyString
  | String a s' => if is_space a then trim_start s' else s
  end.

Fixpoint trim_end (s : string) : string :=
  match s with
  | EmptyString => EmptyString
  | String a s' =>
      match trim_end s' with
      | EmptyString => if is_space a then EmptyString else String a EmptyString
      | t => String a t
      end
  end.

Definition js_trim (s : string) : string := trim_end (trim_start s).

(** ** Dates

    [new Date(ms).toISOString()] for the years 0 to 9999. *)

Definition zero_padded (width : nat) (n : Z) : string :=
  let digits := pretty n in
  String.concat EmptyString (replicate (width - String.length digits) "0") +:+ digits.

(** The civil date of a day counted from 1970-01-01. *)
Definition civil_from_days (days : Z) : Z * Z * Z :=
  let z := (days + 719468)%Z in
  let era := (z / 146097)%Z in
  let doe := (z mod 146097)%Z in
  let yoe := ((doe - doe / 1460 + doe / 36524 - doe / 146096) / 365)%Z in
  let doy := (doe - (365 * yoe + yoe / 4 - yoe / 100))%Z in
  let mp := ((5 * doy + 2) / 153)%Z in
  let d := (doy - (153 * mp + 2) / 5 + 1)%Z in
  let m := (if mp <? 10 then mp + 3 else mp - 9)%Z in
  let y := (yoe + era * 400 + (if m <=? 2 then 1 else 0))%Z in
  (y, m, d).

Definition toISOString (ms : Z) : string :=
  let '(y, m, d) := civil_from_days (ms / 86400000)%Z in
  let t := (ms mod 86400000)%Z in
  zero_padded 4 y +:+ "-" +:+ zero_padded 2 m +:+ "-" +:+ zero_padded 2 d +:+ "T" +:+
  zero_padded 2 (t / 3600000)%Z +:+ ":" +:+ zero_padded 2 (t / 60000 mod 60)%Z +:+ ":" +:+
  zero_padded 2 (t / 1000 mod 60)%Z +:+ "." +:+ zero_padded 3 (t mod 1000)%Z +:+ "Z".

Example toISOString_leap : toISOString 1709210096789 = "2024-02-29T12:34:56.789Z".
Proof. by vm_compute. Qed.

(** ASCII case. *)
Definition is_upper (a : ascii) : bool :=
  let n := nat_of_ascii a in (65 <=? n) && (n <=? 90).
Definition is_lower (a : ascii) : bool :=
  let n := nat_of_ascii a in (97 <=? n) && (n <=? 122).
Definition is_digit (a : ascii) : bool :=
  let n := nat_of_ascii a in (48 <=? n) && (n <=? 57).
Definition to_upper (a : ascii) : ascii :=
  if is_lower a then ascii_of_nat (nat_of_ascii a - 32) else a.
Definition to_lower (a : ascii) : ascii :=
  if is_upper a then ascii_of_nat (nat_of_ascii a + 32) else a.

Fixpoint string_map (f : ascii → ascii) (s : string) : string :=
  match s with
  | EmptyString => EmptyString
  | String a s => String (f a) (string_map f s)
  end.

Fixpoint string_filter (p : ascii → bool) (s : string) : string :=
  match s with
  | EmptyString => EmptyString
  | String a s => if p a then String a (string_filter p s) else string_filter p s
  end.

Lemma existsb_elem {A} (f : A → bool) l : existsb f l = true ↔ ∃ x, x ∈ l ∧ f x = true.
Proof.
  rw existsb_exists. split; intros (x & Hx & ?); exists x; (split; [|done]); by apply list_elem_of_In.
Qed.

(** ** Sets of keys

    [new Set(l)]: the elements of [l] without repetition, in order of first
    occurrence. *)
Section js_set.
Context {A : Type} `{EqDecision A}.
Implicit Types (x : A) (l s : list A).

Definition set_add (x : A) (s : list A) : list A := if bool_decide (x ∈ s) then s else s ++ [x].

Definition js_set (l : list A) : list A := foldl (λ s x, set_add x s) [] l.

Lemma elem_of_set_add x y s : y ∈ set_add x s ↔ y = x ∨ y ∈ s.
Proof.
  unfold set_add. case_bool_decide; [|rw elem_of_app list_elem_of_singleton; tauto].
  split; [by right|]. by intros [->|].
Qed.

Lemma elem_of_js_set x l : x ∈ js_set l ↔ x ∈ l.
Proof.
  unfold js_set. assert (∀ s, x ∈ foldl (λ s x, set_add x s) s l ↔ x ∈ s ∨ x ∈ l) as H.
  { induction l as [|y l IH]; intros s; simpl; [rw elem_of_nil; tauto|].
    rw IH elem_of_set_add elem_of_cons. tauto. }
  rw H elem_of_nil. tauto.
Qed.

Lemma NoDup_js_set l : NoDup (js_set l).
Proof.
  unfold js_set. assert (∀ acc, NoDup acc → NoDup (foldl (λ s x, set_add x s) acc l)) as H; [|apply H; constructor].
  induction l as [|x l IH]; intros acc Hacc; [done|]. cbn [foldl]. apply IH. unfold set_add. case_bool_decide; [done|].
  apply NoDup_app. split_and!; [done|by (intros y Hy [->|[]%elem_of_nil]%elem_of_cons)|apply NoDup_singleton].
Qed.

Lemma js_set_nil l : js_set l = [] ↔ l = [].
Proof.
  split; [|by intros ->]. destruct l as [|x l]; [done|]. intros H.
  assert (x ∈ js_set (x :: l)) as Hx by (apply elem_of_js_set; by left).
  rw H in Hx. by apply not_elem_of_nil in Hx.
Qed.
End js_set.
