(* ===== verification/JsMap.v ===== *)
(** * Insertion-ordered maps

    The program keeps most of its state in JavaScript [Map]s and relies on
    their iteration order: "drop the oldest entry" is
    [map.delete(map.keys().next().value)].  A [Map] is therefore modelled as
    the list of its entries in insertion order, under stdpp's lookup, insert
    and delete interfaces; setting a present key keeps its position. *)

From S2P Require Import Prelude.

Record jsmap (K V : Type) := JsMap { entries : list (K * V) }.
Arguments JsMap {_ _} _.
Arguments entries {_ _} _.

Section ops.
Context {K V : Type} `{EqDecision K}.
Implicit Types (k : K) (v : V) (m : jsmap K V) (l : list (K * V)).

Fixpoint assoc_get k l : option V :=
  match l with
  | [] => None
  | (k', v) :: l' => if decide (k = k') then Some v else assoc_get k l'
  end.

Fixpoint assoc_set k v l : list (K * V) :=
  match l with
  | [] => [(k, v)]
  | (k', v') :: l' =>
      if decide (k = k') then (k', v) :: l' else (k', v') :: assoc_set k v l'
  end.

#[global] Instance jsmap_empty : Empty (jsmap K V) := JsMap [].
#[global] Instance jsmap_lookup : Lookup K V (jsmap K V) :=
  λ k m, assoc_get k (entries m).
#[global] Instance jsmap_insert : Insert K V (jsmap K V) :=
  λ k v m, JsMap (assoc_set k v (entries m)).
#[global] Instance jsmap_delete : Delete K (jsmap K V) :=
  λ k m, JsMap (filter (λ e, e.1 ≠ k) (entries m)).
#[global] Instance jsmap_size : Size (jsmap K V) := λ m, length (entries m).

Definition keys m : list K := (entries m).*1.
Definition values m : list V := (entries m).*2.

(** [map.keys().next().value] *)
Definition oldest m : option K := head (keys m).

(** Delete the oldest entry, if any. *)
Definition drop_oldest m : jsmap K V :=
  match oldest m with Some k => delete k m | None => m end.

(** A sweep: [for (const [k, v] of map) { map in place, or delete }]. *)
Definition sweep (f : K → V → option V) m : jsmap K V :=
  JsMap (omap (λ e, pair e.1 <$> f e.1 e.2) (entries m)).

(** Keys are unique. *)
Definition wf m : Prop := NoDup (keys m).

(** Observational equality: the same lookups, whatever the order. *)
#[global] Instance jsmap_equiv : Equiv (jsmap K V) :=
  λ m1 m2, ∀ k, m1 !! k = m2 !! k.
End ops.

Section lookup.
Context {K V : Type} `{EqDecision K}.
Implicit Types (k : K) (v : V) (m : jsmap K V) (l : list (K * V)).

Lemma assoc_get_set_eq k v l : assoc_get k (assoc_set k v l) = Some v.
Proof. induction l as [|[k' v'] l IH]; simpl; repeat (case_decide; simpl); congruence. Qed.

Lemma assoc_get_set_ne k k' v l :
  k ≠ k' → assoc_get k' (assoc_set k v l) = assoc_get k' l.
Proof.
  intros Hk. induction l as [|[k0 v0] l IH]; simpl;
    repeat (case_decide; simpl); congruence.
Qed.

Lemma assoc_get_delete k k' l :
  assoc_get k' (filter (λ e, e.1 ≠ k) l) =
  if decide (k = k') then None else assoc_get k' l.
Proof.
  induction l as [|[k0 v0] l IH]; simpl; [by case_decide|].
  rw filter_cons /=. repeat (case_decide; simpl); naive_solver.
Qed.

Lemma lookup_empty k : (∅ : jsmap K V) !! k = None.
Proof. done. Qed.

Lemma lookup_insert_eq k v m : <[k:=v]> m !! k = Some v.
Proof. apply assoc_get_set_eq. Qed.

Lemma lookup_insert_ne k k' v m : k ≠ k' → <[k:=v]> m !! k' = m !! k'.
Proof. apply assoc_get_set_ne. Qed.

Lemma lookup_insert k k' v m :
  <[k:=v]> m !! k' = if decide (k = k') then Some v else m !! k'.
Proof.
  case_decide; subst; [apply lookup_insert_eq|by apply lookup_insert_ne].
Qed.

Lemma lookup_delete k k' m :
  delete k m !! k' = if decide (k = k') then None else m !! k'.
Proof. apply assoc_get_delete. Qed.

Lemma lookup_delete_eq k m : delete k m !! k = None.
Proof. rw lookup_delete. by case_decide. Qed.

Lemma lookup_delete_ne k k' m : k ≠ k' → delete k m !! k' = m !! k'.
Proof. intros. rw lookup_delete. by case_decide. Qed.

Lemma lookup_Some_key k v m : m !! k = Some v → k ∈ keys m.
Proof.
  destruct m as [l]. unfold lookup, jsmap_lookup, keys; simpl.
  induction l as [|[k' v'] l IH]; simpl; [done|].
  rw elem_of_cons. case_decide; [by left|]. intros. right. auto.
Qed.

Lemma lookup_Some_entry k v m : m !! k = Some v → (k, v) ∈ entries m.
Proof.
  destruct m as [l]. unfold lookup, jsmap_lookup; simpl.
  induction l as [|[k' v'] l IH]; simpl; [done|].
  rw elem_of_cons. case_decide; naive_solver.
Qed.

Lemma lookup_None_key k m : m !! k = None ↔ k ∉ keys m.
Proof.
  destruct m as [l]. unfold lookup, jsmap_lookup, keys; simpl.
  induction l as [|[k' v'] l IH]; simpl; [set_solver|].
  rw not_elem_of_cons. case_decide as Hk; [naive_solver|].
  rw IH. split; [done|by intros []].
Qed.

Lemma entry_lookup k v m : wf m → (k, v) ∈ entries m → m !! k = Some v.
Proof.
  destruct m as [l]. unfold wf, lookup, jsmap_lookup, keys; simpl.
  induction l as [|[k' v'] l IH]; simpl; [set_solver|].
  rw NoDup_cons elem_of_cons. intros [Hnin Hnd] [[= -> ->]|Hin]; [by rw decide_True|].
  rw decide_False; [by apply IH|]. intros ->. apply Hnin.
  by apply (list_elem_of_fmap_2 fst l (k', v)).
Qed.
End lookup.

Section wf.
Context {K V : Type} `{EqDecision K}.
Implicit Types (k : K) (v : V) (m : jsmap K V) (l : list (K * V)).

Lemma keys_insert_Some k v m :
  is_Some (m !! k) → keys (<[k:=v]> m) = keys m.
Proof.
  destruct m as [l]. unfold lookup, jsmap_lookup, keys; simpl.
  induction l as [|[k' v'] l IH]; simpl; [by intros []|].
  case_decide; simpl; intros; f_equal; auto.
Qed.

Lemma entries_insert_None k v m :
  m !! k = None → entries (<[k:=v]> m) = entries m ++ [(k, v)].
Proof.
  destruct m as [l]. unfold lookup, jsmap_lookup; simpl.
  induction l as [|[k' v'] l IH]; simpl; [done|].
  case_decide; simpl; intros; [done|]. f_equal; auto.
Qed.

Lemma keys_insert_None k v m : m !! k = None → keys (<[k:=v]> m) = keys m ++ [k].
Proof. intros Hk. unfold keys. by rw entries_insert_None // fmap_app. Qed.

Lemma wf_empty : wf (∅ : jsmap K V).
Proof. constructor. Qed.

Lemma wf_insert k v m : wf m → wf (<[k:=v]> m).
Proof.
  intros Hwf. unfold wf. destruct (m !! k) eqn:Hk.
  - by rw keys_insert_Some.
  - rw keys_insert_None //. apply NoDup_app; repeat split; [done| |apply NoDup_singleton].
    intros x Hx ->%list_elem_of_singleton. by apply lookup_None_key in Hk.
Qed.

Lemma wf_filter (P : K * V → Prop) `{∀ e, Decision (P e)} l :
  NoDup l.*1 → NoDup (filter P l).*1.
Proof.
  induction l as [|e l IH]; simpl; [done|].
  rw NoDup_cons filter_cons. intros [Hnin Hnd].
  case_decide; [|by apply IH]. simpl. apply NoDup_cons. split; [|by apply IH].
  intros (e' & He & [_ Hin]%list_elem_of_filter)%list_elem_of_fmap.
  apply Hnin. rw He. by apply list_elem_of_fmap_2.
Qed.

Lemma wf_delete k m : wf m → wf (delete k m).
Proof. apply wf_filter. Qed.

Lemma wf_drop_oldest m : wf m → wf (drop_oldest m).
Proof. unfold drop_oldest. case_match; auto using wf_delete. Qed.

Lemma size_empty : size (∅ : jsmap K V) = 0%nat.
Proof. done. Qed.

Lemma size_insert_Some k v m : is_Some (m !! k) → size (<[k:=v]> m) = size m.
Proof.
  intros Hk. pose proof (f_equal length (keys_insert_Some k v m Hk)) as Hl.
  unfold keys in Hl. by rw !length_fmap in Hl.
Qed.

Lemma size_insert_None k v m : m !! k = None → size (<[k:=v]> m) = S (size m).
Proof.
  intros Hk. unfold size, jsmap_size. rw entries_insert_None // length_app /=. lia.
Qed.

Lemma size_insert_le k v m : (size (<[k:=v]> m) ≤ S (size m))%nat.
Proof.
  destruct (m !! k) eqn:Hk; [rw size_insert_Some //; lia|by rw size_insert_None].
Qed.

Lemma size_delete_le k m : (size (delete k m) ≤ size m)%nat.
Proof. apply length_filter. Qed.

Lemma size_delete_lt k m : is_Some (m !! k) → (size (delete k m) < size m)%nat.
Proof.
  intros [v Hv]. apply lookup_Some_entry in Hv. unfold size, jsmap_size. cbn.
  eapply length_filter_lt; [exact Hv|]. by intros H.
Qed.

(** At capacity, dropping the oldest entry always makes room. *)
Lemma size_drop_oldest m : (size (drop_oldest m) ≤ pred (size m))%nat.
Proof.
  destruct m as [[|[k v] l]]; [done|].
  unfold drop_oldest, oldest, keys, size, jsmap_size; simpl.
  rw filter_cons_False /=; [|by intros []]. apply length_filter.
Qed.
End wf.

Section sweep.
Context {K V : Type} `{EqDecision K}.
Implicit Types (k : K) (v : V) (m : jsmap K V) (l : list (K * V)).

Lemma elem_of_sweep f k v m :
  (k, v) ∈ entries (sweep f m) ↔ ∃ v0, (k, v0) ∈ entries m ∧ f k v0 = Some v.
Proof.
  unfold sweep; simpl. rw list_elem_of_omap. split.
  - intros ([k0 v0] & Hin & Hf). simpl in Hf.
    destruct (f k0 v0) eqn:Hf'; simplify_eq/=. eauto.
  - intros (v0 & Hin & Hf). exists (k, v0). by rw /= Hf.
Qed.

Lemma sweep_keys_sub f m k : k ∈ keys (sweep f m) → k ∈ keys m.
Proof.
  unfold keys. intros ([k' v] & -> & Hin)%list_elem_of_fmap.
  apply elem_of_sweep in Hin as (v0 & Hin & _). simpl.
  by apply (list_elem_of_fmap_2 fst _ (k', v0)).
Qed.

Lemma wf_sweep f m : wf m → wf (sweep f m).
Proof.
  destruct m as [l]. unfold wf, sweep, keys; simpl.
  induction l as [|[k v] l IH]; simpl; [done|].
  rw NoDup_cons. intros [Hnin Hnd]. destruct (f k v) as [v'|]; simpl; [|auto].
  apply NoDup_cons. split; [|auto]. intros Hin. apply Hnin.
  apply (sweep_keys_sub f (JsMap l) k). exact Hin.
Qed.

Lemma lookup_sweep f m k : wf m → sweep f m !! k = m !! k ≫= f k.
Proof.
  intros Hwf. destruct (m !! k) as [v|] eqn:Hk; simpl.
  - destruct (f k v) as [v'|] eqn:Hf.
    + apply entry_lookup; [by apply wf_sweep|]. apply elem_of_sweep.
      eauto using lookup_Some_entry.
    + apply lookup_None_key. unfold keys.
      intros ([k' v''] & -> & Hin)%list_elem_of_fmap. simpl in *.
      apply elem_of_sweep in Hin as (v0 & Hin & Hf').
      apply entry_lookup in Hin; [|done]. congruence.
  - apply lookup_None_key. apply lookup_None_key in Hk.
    intros Hin. by apply sweep_keys_sub in Hin.
Qed.

Lemma size_sweep_le f m : (size (sweep f m) ≤ size m)%nat.
Proof.
  destruct m as [l]. unfold size, jsmap_size, sweep; simpl.
  induction l as [|[k v] l IH]; simpl; [done|].
  destruct (f k v); simpl; [by apply le_n_S|by apply le_S].
Qed.

Lemma drop_oldest_keys_sub m k : k ∈ keys (drop_oldest m) → k ∈ keys m.
Proof.
  unfold drop_oldest. case_match; [|done].
  unfold keys. intros ([k' v] & -> & [_ Hin]%list_elem_of_filter)%list_elem_of_fmap.
  by apply (list_elem_of_fmap_2 fst _ (k', v)).
Qed.

Lemma size_keys m : size m = length (keys m).
Proof. unfold size, jsmap_size, keys. by rw length_fmap. Qed.

(** A map whose keys all come from [U] and which misses one of them is
    strictly smaller than [U]. *)
Lemma size_lt_universe (U : list K) m k :
  wf m → (∀ k', k' ∈ keys m → k' ∈ U) → k ∈ U → m !! k = None →
  (size m < length U)%nat.
Proof.
  intros Hwf Hsub HU Hk. rw size_keys.
  assert (length (k :: keys m) ≤ length U)%nat as Hle; [|simpl in Hle; lia].
  apply submseteq_length, NoDup_submseteq.
  - apply NoDup_cons. split; [by apply lookup_None_key|done].
  - intros x [->|Hx]%elem_of_cons; auto.
Qed.

Lemma keys_insert_sub k k' v m : k' ∈ keys (<[k:=v]> m) → k' = k ∨ k' ∈ keys m.
Proof.
  destruct (m !! k) eqn:Hk.
  - rw keys_insert_Some //. by right.
  - rw keys_insert_None // elem_of_app list_elem_of_singleton. tauto.
Qed.

Lemma keys_delete_sub k k' m : k' ∈ keys (delete k m) → k' ∈ keys m.
Proof.
  unfold keys. intros ([k0 v] & -> & [_ Hin]%list_elem_of_filter)%list_elem_of_fmap.
  by apply (list_elem_of_fmap_2 fst _ (k0, v)).
Qed.
End sweep.

#[export] Hint Resolve wf_empty wf_insert wf_delete wf_drop_oldest wf_sweep : litt.

(** Clients reason with the lemmas above; evaluation is unaffected. *)
#[global] Opaque jsmap_lookup jsmap_insert jsmap_delete jsmap_size.
