(* ===== verification/JsText.v ===== *)
(** * Text

    The methods of JavaScript strings the program cuts its input with —
    [startsWith], [indexOf], [slice], [split], [join] — on one-byte text, and
    their laws. *)

From S2P Require Import Prelude.

(** [s.startsWith(p)] *)
Fixpoint starts_with (p s : string) : bool :=
  match p, s with
  | EmptyString, _ => true
  | String a p, String b s => bool_decide (a = b) && starts_with p s
  | _, _ => false
  end.

Lemma starts_with_spec p s : starts_with p s = true ↔ ∃ r, s = String.append p r.
Proof.
  revert s. induction p as [|a p IH]; intros s; simpl.
  { split; intros _; [by exists s|done]. }
  destruct s as [|b s]; [split; [done|by intros [r ?]]|].
  rw andb_true_iff bool_decide_eq_true IH. split.
  - intros [-> [r ->]]. by exists r.
  - intros [r [= -> ->]]. eauto.
Qed.

(** [s.endsWith(p)], and the text before it. *)
Fixpoint before_suffix (p s : string) : option string :=
  if String.eqb s p then Some EmptyString
  else match s with
       | EmptyString => None
       | String a s => String a <$> before_suffix p s
       end.

Definition ends_with (p s : string) : bool := bool_decide (is_Some (before_suffix p s)).

(** [s.includes(c)] for a character. *)
Fixpoint has_char (c : ascii) (s : string) : bool :=
  match s with
  | EmptyString => false
  | String a s => bool_decide (a = c) || has_char c s
  end.

(** [s.slice(s.indexOf(c) + 1)], if [c] occurs. *)
Fixpoint after_char (c : ascii) (s : string) : option string :=
  match s with
  | EmptyString => None
  | String a s => if decide (a = c) then Some s else after_char c s
  end.

(** [s.slice(s.lastIndexOf(c) + 1)], if [c] occurs. *)
Fixpoint after_last (c : ascii) (s : string) : option string :=
  match s with
  | EmptyString => None
  | String a s =>
      match after_last c s with
      | Some r => Some r
      | None => if decide (a = c) then Some s else None
      end
  end.

Definition last_char (s : string) : option ascii :=
  String.get (String.length s - 1) s.

Definition all_chars (p : ascii → bool) (s : string) : bool :=
  forallb p (list_ascii_of_string s).

(** A character in front of the first piece. *)
Definition cons_char (a : ascii) (l : list string) : list string :=
  match l with
  | [] => [String a EmptyString]
  | w :: l => String a w :: l
  end.

(** [s.split(/\s+/)] *)
Fixpoint split_spaces (s : string) : list string :=
  match s with
  | EmptyString => [EmptyString]
  | String a s =>
      if is_space a then
        match s with
        | EmptyString => [EmptyString; EmptyString]
        | String b _ => if is_space b then split_spaces s else EmptyString :: split_spaces s
        end
      else cons_char a (split_spaces s)
  end.

(** [l.join(" ")] *)
Definition join_spaces (l : list string) : string := String.concat " " l.

(** [s.split(c)] *)
Fixpoint split_on (c : ascii) (s : string) : list string :=
  match s with
  | EmptyString => [EmptyString]
  | String a s => if decide (a = c) then EmptyString :: split_on c s else cons_char a (split_on c s)
  end.

Example split_samples :
  split_spaces <$> ["git  push -f"; ""; " a "; "  "]
    = [["git"; "push"; "-f"]; [""%string]; [""%string; "a"; ""%string]; [""%string; ""%string]].
Proof. done. Qed.

(** The properties every object inherits: a lookup of one of these names in a
    literal table finds a function, here named by its key. *)
Definition INHERITED : list string :=
  ["constructor"; "__defineGetter__"; "__defineSetter__"; "hasOwnProperty"; "__lookupGetter__";
   "__lookupSetter__"; "isPrototypeOf"; "propertyIsEnumerable"; "toString"; "valueOf";
   "__proto__"; "toLocaleString"].

(** ** Laws *)

Lemma append_cons x a b : String.append (String x a) b = String x (String.append a b).
Proof. done. Qed.

Lemma append_empty b : String.append EmptyString b = b.
Proof. done. Qed.

Lemma append_assoc a b c : String.append (String.append a b) c = String.append a (String.append b c).
Proof. induction a as [|x a IH]; [done|]. by rw !append_cons IH. Qed.

Lemma append_nil_r a : String.append a EmptyString = a.
Proof. induction a as [|x a IH]; [done|]. by rw append_cons IH. Qed.

Lemma append_inj a b c : String.append a b = String.append a c → b = c.
Proof. induction a as [|x a IH]; [done|]. rw !append_cons. intros [= H]. by apply IH. Qed.

(** A word: not empty, without spaces. *)
Definition word (w : string) : Prop := w ≠ EmptyString ∧ all_chars (negb ∘ is_space) w = true.

Lemma join_cons w ws : ws ≠ [] →
  join_spaces (w :: ws) = String.append w (String " " (join_spaces ws)).
Proof. by destruct ws. Qed.

Lemma join_app ws vs : ws ≠ [] → vs ≠ [] →
  join_spaces (ws ++ vs) = String.append (join_spaces ws) (String " " (join_spaces vs)).
Proof.
  intros Hws Hvs. induction ws as [|w ws IH]; [done|]. destruct ws as [|w' ws].
  - by rw /= join_cons.
  - change ((w :: w' :: ws) ++ vs) with (w :: ((w' :: ws) ++ vs)).
    rw (join_cons w ((w' :: ws) ++ vs)) // (join_cons w (w' :: ws)) // IH // append_assoc. done.
Qed.

Lemma split_nonempty s : split_spaces s ≠ [].
Proof.
  induction s as [|a s IH]; simpl; [done|]. destruct (is_space a).
  - destruct s as [|b s]; [done|]. by destruct (is_space b).
  - by destruct (split_spaces s).
Qed.

Lemma split_space a s : is_space a = true →
  ∃ more, more ≠ [] ∧ split_spaces (String a s) = EmptyString :: more.
Proof.
  revert a. induction s as [|b s IH]; intros a Ha; simpl; rw Ha; [by exists [EmptyString]|].
  destruct (is_space b) eqn:Hb; [specialize (IH b Hb); simpl in IH; by rw Hb in IH|]. eexists. split; [|reflexivity].
  change (cons_char b (split_spaces s) ≠ []). by destruct (split_spaces s).
Qed.

Lemma split_space_word a s : is_space a = true → (∃ b s', s = String b s' ∧ is_space b = false) →
  split_spaces (String a s) = EmptyString :: split_spaces s.
Proof. intros Ha (b & s' & -> & Hb). simpl. by rw Ha Hb. Qed.

Lemma split_word w a s l : all_chars (negb ∘ is_space) w = true →
  split_spaces (String a s) = EmptyString :: l →
  split_spaces (String.append w (String a s)) = w :: l.
Proof.
  intros Hw Hs. induction w as [|b w IH]; [done|].
  unfold all_chars in *. simpl in Hw. apply andb_true_iff in Hw as [Hb Hw].
  apply negb_true_iff in Hb. rw append_cons. cbn [split_spaces]. rw Hb IH //.
Qed.

(** Words in front of a space are the first pieces. *)
Lemma split_words ws rest : Forall word ws → ws ≠ [] →
  ∃ more, more ≠ [] ∧ split_spaces (String.append (join_spaces ws) (String " " rest)) = ws ++ more.
Proof.
  intros Hws. induction Hws as [|w ws [Hne Hw] Hws IH]; [done|]. intros _.
  destruct ws as [|w' ws].
  - destruct (split_space " " rest eq_refl) as (more & Hm & Hs). exists more. split; [done|].
    by apply split_word.
  - destruct IH as (more & Hm & Hs); [done|]. exists more. split; [done|].
    rw join_cons // append_assoc. apply split_word; [done|].
    change (String.append (String " " (join_spaces (w' :: ws))) (String " " rest)) with
      (String " " (String.append (join_spaces (w' :: ws)) (String " " rest))).
    rw split_space_word //; [by rw Hs|].
    apply Forall_cons in Hws as [[Hne' Hw'] _]. destruct w' as [|b w']; [done|].
    unfold all_chars in Hw'. simpl in Hw'. apply andb_true_iff in Hw' as [Hb%negb_true_iff _].
    destruct ws; by eexists _, _.
Qed.

Lemma before_char_append c w s : has_char c w = false →
  before_char c (String.append w (String c s)) = w.
Proof.
  induction w as [|b w IH]; simpl; [by case_decide|]. intros [Hb Hw]%orb_false_iff.
  apply bool_decide_eq_false in Hb. case_decide; [done|]. by rw IH.
Qed.

Lemma has_char_space w : all_chars (negb ∘ is_space) w = true → has_char " " w = false.
Proof.
  unfold all_chars. induction w as [|b w IH]; simpl; [done|]. intros [Hb Hw]%andb_true_iff.
  rw IH // orb_false_r. apply bool_decide_eq_false. intros ->. done.
Qed.

Lemma after_last_None c w : has_char c w = false → after_last c w = None.
Proof.
  induction w as [|b w IH]; simpl; [done|]. intros [Hb Hw]%orb_false_iff.
  apply bool_decide_eq_false in Hb. rw IH //. by case_decide.
Qed.

Lemma append_snoc_inj a b c d :
  String.append a (String c EmptyString) = String.append b (String d EmptyString) → a = b ∧ c = d.
Proof.
  revert b. induction a as [|x a IH]; intros b.
  - rw append_empty. destruct b as [|y b]; [by intros [= ->]|].
    rw append_cons. intros [= _ Hb]. by destruct b.
  - destruct b as [|y b]; rw append_cons ?append_cons ?append_empty; intros [= -> H].
    + by destruct a.
    + by apply IH in H as [-> ->].
Qed.

Lemma string_snoc s : s = EmptyString ∨ ∃ t c, s = String.append t (String c EmptyString).
Proof.
  induction s as [|a s [->|(t & c & ->)]]; [by left| |]; right.
  - by exists EmptyString, a.
  - exists (String a t), c. by rw append_cons.
Qed.

Lemma split_join ws : Forall word ws → ws ≠ [] → split_spaces (join_spaces ws) = ws.
Proof.
  intros Hws. induction Hws as [|w ws [Hne Hw] Hws IH]; [done|]. intros _.
  assert (∀ l, split_spaces EmptyString = l → split_spaces w = [w]) as Hone.
  { intros _ _. clear -Hw. induction w as [|a w IHw]; [done|].
    unfold all_chars in *. simpl in Hw. apply andb_true_iff in Hw as [Ha%negb_true_iff Hw].
    simpl. by rw Ha IHw. }
  destruct ws as [|w' ws]; [by eapply Hone|].
  rw join_cons //. apply split_word; [done|].
  rw split_space_word //; [by rw IH|].
  apply Forall_cons in Hws as [[Hne' Hw'] _]. destruct w' as [|b w']; [done|].
  unfold all_chars in Hw'. simpl in Hw'. apply andb_true_iff in Hw' as [Hb%negb_true_iff _].
  destruct ws; by eexists _, _.
Qed.

Lemma before_suffix_append p s : p ≠ EmptyString → before_suffix p (String.append s p) = Some s.
Proof.
  intros Hp. induction s as [|a s IH].
  - rw append_empty. destruct p; [done|]. simpl. by rw String.eqb_refl Ascii.eqb_refl.
  - rw append_cons. cbn [before_suffix]. rw IH.
    destruct (String.eqb (String a (String.append s p)) p) eqn:He; [|done].
    exfalso. apply String.eqb_eq in He. clear -He. revert He.
    assert (∀ s a, String a (String.append s p) ≠ p) as H; [|apply H].
    intros s' a' He. apply (f_equal String.length) in He. simpl in He.
    assert (∀ x y, String.length (String.append x y) = String.length x + String.length y)%nat as Hlen.
    { intros x y. induction x as [|b x IHx]; [done|]. rw append_cons /=. by rw IHx. }
    rw Hlen in He. lia.
Qed.

Lemma before_char_none c w : has_char c w = false → before_char c w = w.
Proof.
  induction w as [|b w IH]; simpl; [done|]. intros [Hb Hw]%orb_false_iff.
  apply bool_decide_eq_false in Hb. case_decide; [done|]. by rw IH.
Qed.

Lemma before_suffix_some p s x : before_suffix p s = Some x → s = String.append x p.
Proof.
  revert x. induction s as [|a s IH]; intros x; cbn [before_suffix].
  - destruct (String.eqb EmptyString p) eqn:He; [|done]. apply String.eqb_eq in He as <-. by intros [= <-].
  - destruct (String.eqb (String a s) p) eqn:He.
    { apply String.eqb_eq in He as <-. by intros [= <-]. }
    destruct (before_suffix p s) as [y|]; [|done]. intros [= <-]. rw append_cons. f_equal. by apply IH.
Qed.

Lemma all_chars_cons p a s : all_chars p (String a s) = p a && all_chars p s.
Proof. done. Qed.

Lemma all_chars_app p s t : all_chars p (s +:+ t) = all_chars p s && all_chars p t.
Proof. induction s as [|a s IH]; [done|]. rewrite append_cons !all_chars_cons IH. by destruct (p a). Qed.

Lemma all_chars_impl (p q : ascii → bool) s :
  (∀ a, p a = true → q a = true) → all_chars p s = true → all_chars q s = true.
Proof.
  intros Hpq. induction s as [|a s IH]; [done|]. rewrite !all_chars_cons !andb_true_iff. intros [Ha Hs].
  split; [by apply Hpq|by apply IH].
Qed.

Lemma split_on_nonempty c s : split_on c s ≠ [].
Proof. destruct s as [|a s]; [done|]. cbn [split_on]. case_decide; [done|]. by destruct (split_on c s). Qed.

Lemma split_on_plain c w : has_char c w = false → split_on c w = [w].
Proof.
  induction w as [|a w IH]; [done|]. cbn [has_char split_on]. intros [Ha Hw]%orb_false_iff.
  apply bool_decide_eq_false in Ha. rw IH //. by case_decide.
Qed.

Lemma split_on_app c a b : has_char c a = false → split_on c (a +:+ String c b) = a :: split_on c b.
Proof.
  induction a as [|x a IH]; intros Ha.
  - change (EmptyString +:+ String c b) with (String c b). cbn [split_on]. by case_decide.
  - change (String x a +:+ String c b) with (String x (a +:+ String c b)). cbn [has_char] in Ha.
    apply orb_false_iff in Ha as [Hx%bool_decide_eq_false Ha]. cbn [split_on]. rw IH //. by case_decide.
Qed.


(** The pieces put together again, and none of them holds the separator. *)
Fixpoint join_on (c : ascii) (l : list string) : string :=
  match l with
  | [] => EmptyString
  | [w] => w
  | w :: l => w +:+ String c (join_on c l)
  end.

Lemma join_on_cons c w l : l ≠ [] → join_on c (w :: l) = w +:+ String c (join_on c l).
Proof. by destruct l. Qed.

Lemma join_split c s : join_on c (split_on c s) = s ∧ Forall (λ w, has_char c w = false) (split_on c s).
Proof.
  induction s as [|a s [IHj IHf]]; [by repeat constructor|]. cbn [split_on]. pose proof (split_on_nonempty c s) as Hne.
  case_decide as Ha.
  - rw join_on_cons //. split; [by rewrite IHj Ha|by constructor].
  - destruct (split_on c s) as [|w l]; [done|]. apply Forall_cons in IHf as [Hw Hl]. split.
    + rewrite <- IHj. cbn [cons_char]. by destruct l.
    + constructor; [|done]. cbn [has_char]. by rw bool_decide_eq_false_2.
Qed.

Lemma has_char_app c a b : has_char c (a +:+ b) = has_char c a || has_char c b.
Proof. induction a as [|x a IH]; [done|]. change (String x a +:+ b) with (String x (a +:+ b)). cbn [has_char]. by rewrite IH orb_assoc. Qed.

Lemma all_chars_no p c s : all_chars p s = true → p c = false → has_char c s = false.
Proof.
  intros Hs Hc. induction s as [|a s IH]; [done|]. rewrite all_chars_cons andb_true_iff in Hs. destruct Hs as [Ha Hs].
  cbn [has_char]. rewrite (IH Hs) orb_false_r. apply bool_decide_eq_false. intros ->. by rewrite Ha in Hc.
Qed.

Lemma join_on_head c w l : ∃ r, join_on c (w :: l) = w +:+ r.
Proof. destruct l as [|v l]; [exists EmptyString; by rewrite append_nil_r|]. by eexists. Qed.

Lemma all_chars_join p c l : p c = true → Forall (λ w, all_chars p w = true) l → all_chars p (join_on c l) = true.
Proof.
  intros Hc Hl. induction Hl as [|w l Hw Hl IH]; [done|]. destruct l as [|v l]; [done|].
  rewrite join_on_cons // all_chars_app all_chars_cons Hw Hc. done.
Qed.
