(* ===== verification/Channels.v ===== *)
(** * Interfaces and host capabilities

    [assistant/src/channels/types.ts] and [types/host-capabilities.ts]: the
    interface a client speaks for, and which of the host capabilities — shell,
    files, computer use, browser, app control, snapshots — each one provides.
    Interfaces and capabilities are the strings they are on the wire. *)

From S2P Require Import Prelude JsText.

Definition INTERFACE_IDS : list string :=
  ["macos"; "windows"; "linux"; "ios"; "cli"; "telegram"; "phone"; "web"; "whatsapp"; "slack";
   "email"; "chrome-extension"; "a2a"; "discord"; "route"; "plugin"].

(** [parseInterfaceId] of a string, with the table of legacy aliases; the table
    is a plain object, so an inherited name is found in it. *)
Definition parseInterfaceId (value : string) : option string :=
  if bool_decide (value ∈ INTERFACE_IDS) then Some value
  else if bool_decide (value = "vellum") then Some "web"
  else if bool_decide (value ∈ INHERITED) then Some value
  else None.

(** ** Host capabilities *)

Definition HOST_PROXY_CAPABILITIES : list string :=
  ["host_bash"; "host_file"; "host_cu"; "host_cu_window_capture"; "host_cu_sequence";
   "host_cu_annotate"; "host_browser"; "host_app_control"; "host_ui_snapshot"].

Definition DESKTOP_SHARED_CAPABILITIES : list string :=
  filter (λ c, c ∉ ["host_app_control"; "host_cu_window_capture"; "host_cu_sequence";
                    "host_cu_annotate"]%string) HOST_PROXY_CAPABILITIES.

Definition isHostProxyInterfaceId (id : string) : bool :=
  bool_decide (id ∈ ["macos"; "windows"; "linux"]%string).

(** [HOST_PROXY_SUPPORT], behind its [Object.hasOwn]. *)
Definition hostProxyCapabilities (id : string) : list string :=
  if bool_decide (id = "macos") then HOST_PROXY_CAPABILITIES
  else if bool_decide (id = "windows" ∨ id = "linux") then DESKTOP_SHARED_CAPABILITIES
  else if bool_decide (id = "chrome-extension") then ["host_browser"]
  else [].

Definition supportsHostProxy (id : string) (capability : option string) : bool :=
  match capability with
  | Some c =>
      if isHostProxyInterfaceId id then bool_decide (c ∈ hostProxyCapabilities id)
      else bool_decide (c ∈ hostProxyCapabilities id)
  | None => isHostProxyInterfaceId id
  end.

(** What a connection must claim with a header of its own: only the helper of
    macOS answers these, and only a recent one. *)
Definition negotiated (capability : string) : bool :=
  bool_decide (capability ∈ ["host_cu_window_capture"; "host_cu_sequence"; "host_cu_annotate"]%string).

Definition macos_capability (c : string) : bool :=
  negotiated c || bool_decide (c = "host_app_control").

(** Whoever provides app control or a negotiated capability is macOS. *)
Lemma macos_only id c :
  macos_capability c = true → supportsHostProxy id (Some c) = true → id = "macos"%string.
Proof.
  intros Hc H. assert (c ∈ hostProxyCapabilities id) as Hin.
  { unfold supportsHostProxy in H. by destruct (isHostProxyInterfaceId id); apply bool_decide_eq_true in H. }
  unfold hostProxyCapabilities in Hin. case_bool_decide; [done|].
  assert (Forall (λ c, macos_capability c = false) ("host_browser"%string :: DESKTOP_SHARED_CAPABILITIES)) as Hf
    by (by repeat constructor).
  rewrite -> Forall_forall in Hf. enough (macos_capability c = false) by congruence.
  apply Hf. revert Hin. case_bool_decide; [by right|]. case_bool_decide; [|by intros ?%elem_of_nil].
  intros ->%list_elem_of_singleton. by left.
Qed.

Example desktops :
  supportsHostProxy "windows" (Some "host_cu"%string) = true ∧
  supportsHostProxy "windows" (Some "host_cu_sequence"%string) = false ∧
  supportsHostProxy "chrome-extension" (Some "host_browser"%string) = true ∧
  supportsHostProxy "chrome-extension" None = false ∧ supportsHostProxy "ios" None = false.
Proof. done. Qed.
