(* ===== verification/SlidingWindow.v ===== *)
(** * Sliding-window failure limiter

    The algorithm shared by [gateway/src/auth-rate-limiter.ts] and
    [assistant/src/runtime/verification-rate-limiter.ts] (the second is a copy
    of the first with other bounds): failure timestamps per key, trimmed from
    the front, with a hard cap on the number of tracked keys.  The cap is a
    section variable; the two limiters are its instances.  [Date.now()] is an
    argument of every operation. *)

From S2P Require Import Prelude JsMap.
Local Open Scope Z_scope.

Record limiter := Limiter {
  failures : jsmap string (list Z);
  maxFailures : Z;
  windowMs : Z;
}.

Definition with_failures (st : limiter) (m : jsmap string (list Z)) : limiter :=
  Limiter m (maxFailures st) (windowMs st).

(** [timestamps] is the array stored in the map, so trimming it is visible
    through the map: the trimmed array is written back. *)
Definition trim (cutoff : Z) (timestamps : list Z) : list Z :=
  shift_while (λ t, t <=? cutoff) timestamps.

Definition evictStale (now : Z) (st : limiter) : limiter :=
  let cutoff := now - windowMs st in
  with_failures st
    (sweep (λ _ timestamps,
       match trim cutoff timestamps with [] => None | ts => Some ts end)
     (failures st)).

Section capped.
Context (MAX_TRACKED : Z).

Definition make_room (now : Z) (st : limiter) : limiter :=
  if MAX_TRACKED <=? Z.of_nat (size (failures st)) then
    let st1 := evictStale now st in
    if MAX_TRACKED <=? Z.of_nat (size (failures st1))
    then with_failures st1 (drop_oldest (failures st1))
    else st1
  else st.

Definition recordFailure (key : string) (now : Z) (st : limiter) : limiter :=
  match failures st !! key with
  | Some timestamps =>
      with_failures st (<[key := timestamps ++ [now]]> (failures st))
  | None =>
      let st1 := make_room now st in
      with_failures st1 (<[key := [now]]> (failures st1))
  end.
End capped.

Definition isBlocked (key : string) (now : Z) (st : limiter) : limiter * bool :=
  match failures st !! key with
  | None => (st, false)
  | Some timestamps =>
      let timestamps := trim (now - windowMs st) timestamps in
      match timestamps with
      | [] => (with_failures st (delete key (failures st)), false)
      | _ =>
          (with_failures st (<[key := timestamps]> (failures st)),
           maxFailures st <=? Z.of_nat (length timestamps))
      end
  end.

Definition clearKey (key : string) (st : limiter) : limiter :=
  with_failures st (delete key (failures st)).

(** ** The abstract specification

    What a limiter promises, without arrays, trimming or eviction: the full
    log of the failures of every key since it was last cleared.  A key is
    blocked when the log holds enough failures inside the window. *)
Definition failure_log := string → list Z.

Definition log_record (key : string) (now : Z) (log : failure_log) : failure_log :=
  λ k, if decide (k = key) then log k ++ [now] else log k.

Definition log_clear (key : string) (log : failure_log) : failure_log :=
  λ k, if decide (k = key) then [] else log k.

Definition recent (now window : Z) (ts : list Z) : list Z :=
  filter (λ t, now - window < t) ts.

Definition log_blocked (maxF window : Z) (key : string) (now : Z)
    (log : failure_log) : bool :=
  let n := Z.of_nat (length (recent now window (log key))) in
  (0 <? n) && (maxF <=? n).

(** ** Traces of limiter calls *)
Inductive call :=
| RecordFailure (key : string)
| IsBlocked (key : string)
| ClearKey (key : string).

Definition call_key (c : call) : string :=
  match c with RecordFailure k | IsBlocked k | ClearKey k => k end.

(** Run the calls, each at its own time; collect the answers of the queries. *)
Fixpoint run (MAX_TRACKED : Z) (calls : list (Z * call)) (st : limiter) : list bool :=
  match calls with
  | [] => []
  | (now, RecordFailure k) :: cs => run MAX_TRACKED cs (recordFailure MAX_TRACKED k now st)
  | (now, IsBlocked k) :: cs =>
      let '(st', b) := isBlocked k now st in b :: run MAX_TRACKED cs st'
  | (now, ClearKey k) :: cs => run MAX_TRACKED cs (clearKey k st)
  end.

Fixpoint run_log (maxF window : Z) (calls : list (Z * call)) (log : failure_log) : list bool :=
  match calls with
  | [] => []
  | (now, RecordFailure k) :: cs => run_log maxF window cs (log_record k now log)
  | (now, IsBlocked k) :: cs =>
      log_blocked maxF window k now log :: run_log maxF window cs log
  | (now, ClearKey k) :: cs => run_log maxF window cs (log_clear k log)
  end.

(** ** The limiter implements its specification *)

Lemma trim_recent cutoff ts :
  chronological ts → trim cutoff ts = filter (λ t, cutoff < t) ts.
Proof. apply shift_while_filter. Qed.

Lemma recent_app_expired now window gone ts :
  Forall (λ t, t ≤ now - window) gone →
  recent now window (gone ++ ts) = recent now window ts.
Proof.
  intros Hg. unfold recent. rw filter_app filter_none //.
  eapply Forall_impl; [done|simpl; lia].
Qed.

Lemma chronological_app_r l1 l2 : chronological (l1 ++ l2) → chronological l2.
Proof. induction l1; simpl; [done|]. inversion 1; auto. Qed.

(** Arrays that are the log with an expired front cut off. *)
Record tracks (now window : Z) (log stored : failure_log) : Prop := {
  tr_sorted : ∀ k, chronological (log k);
  tr_past : ∀ k, Forall (λ t, t ≤ now) (log k);
  tr_stored : ∀ k, ∃ gone,
    log k = gone ++ stored k ∧ Forall (λ t, t ≤ now - window) gone;
}.

Section tracks.
Context (window : Z).
Implicit Types (log stored : failure_log) (key : string).

Lemma tracks_later now now' log stored :
  now ≤ now' → tracks now window log stored → tracks now' window log stored.
Proof.
  intros Hle [? Hpast Hst]. split; [done|..].
  - intros k. eapply Forall_impl; [apply Hpast|simpl; lia].
  - intros k. destruct (Hst k) as (g & ? & Hg). exists g. split; [done|].
    eapply Forall_impl; [done|simpl; lia].
Qed.

Lemma tracks_trim now log stored key :
  tracks now window log stored →
  trim (now - window) (stored key) = recent now window (log key).
Proof.
  intros [Hs _ Hst]. destruct (Hst key) as (g & Hg & Hold).
  rw Hg recent_app_expired // trim_recent //.
  apply (chronological_app_r g). by rw -Hg.
Qed.

(** Trimming one key's array keeps tracking the same log. *)
Lemma tracks_trimmed now log stored stored' key :
  tracks now window log stored →
  (∀ k, stored' k = if decide (k = key) then trim (now - window) (stored k) else stored k) →
  tracks now window log stored'.
Proof.
  intros [Hs Hp Hst] Heq. split; [done..|]. intros k. rw Heq.
  destruct (Hst k) as (g & Hg & Hold). case_decide; [|by exists g].
  destruct (shift_while_suffix (λ t, t <=? now - window) (stored k)) as (g' & Hts & Hg').
  exists (g ++ g'). rw -app_assoc -Hts. split; [done|].
  apply Forall_app; split; [done|]. eapply Forall_impl; [done|]. simpl; intros; zbool.
Qed.

Lemma tracks_record now log stored stored' key :
  tracks now window log stored →
  (∀ k, stored' k = if decide (k = key) then stored k ++ [now] else stored k) →
  tracks now window (log_record key now log) stored'.
Proof.
  intros [Hs Hp Hst] Heq. split; intros k; unfold log_record.
  - case_decide; auto with litt.
  - case_decide; [|done]. apply Forall_app; split; [done|]. by constructor.
  - rw Heq. destruct (Hst k) as (g & Hg & Hold). exists g. split; [|done].
    case_decide; [|done]. by rw Hg app_assoc.
Qed.

Lemma tracks_clear now log stored stored' key :
  tracks now window log stored →
  (∀ k, stored' k = if decide (k = key) then [] else stored k) →
  tracks now window (log_clear key log) stored'.
Proof.
  intros [Hs Hp Hst] Heq. split; intros k; unfold log_clear.
  - case_decide; [constructor|done].
  - by case_decide.
  - rw Heq. case_decide; [by exists []|done].
Qed.

Lemma tracks_fresh now : tracks now window (λ _, []) (λ _, []).
Proof. split; intros k; [constructor..|]. by exists []. Qed.
End tracks.

Definition stored_times (m : jsmap string (list Z)) : failure_log :=
  λ k, default [] (m !! k).

Record rep (U : list string) (now : Z) (log : failure_log) (st : limiter) : Prop := {
  rep_wf : wf (failures st);
  rep_keys : ∀ k, k ∈ keys (failures st) → k ∈ U;
  rep_tracks : tracks now (windowMs st) log (stored_times (failures st));
}.

Section refinement.
Context (MAX_TRACKED : Z) (U : list string).
Context (Hcap : Z.of_nat (length U) ≤ MAX_TRACKED).

Lemma rep_later now now' log st : now ≤ now' → rep U now log st → rep U now' log st.
Proof. intros Hle [? ? ?]. split; [done..|]. by eapply tracks_later. Qed.

Lemma make_room_id now log st key :
  rep U now log st → key ∈ U → failures st !! key = None →
  make_room MAX_TRACKED now st = st.
Proof.
  intros [Hwf Hk _] HU Hnone. unfold make_room.
  pose proof (size_lt_universe U _ _ Hwf Hk HU Hnone).
  destruct (Z.leb_spec MAX_TRACKED (Z.of_nat (size (failures st)))); [lia|done].
Qed.

Lemma recordFailure_eq now log st key :
  rep U now log st → key ∈ U →
  recordFailure MAX_TRACKED key now st =
  with_failures st (<[key := stored_times (failures st) key ++ [now]]> (failures st)).
Proof.
  intros Hrep HU. unfold recordFailure, stored_times.
  destruct (failures st !! key) eqn:Hk; [done|].
  by rw (make_room_id now log st key).
Qed.

Lemma rep_record now log st key :
  rep U now log st → key ∈ U →
  rep U now (log_record key now log) (recordFailure MAX_TRACKED key now st).
Proof.
  intros Hrep HU. rw (recordFailure_eq _ _ _ _ Hrep HU).
  destruct Hrep as [Hwf Hk Htr]. split; simpl; auto with litt.
  - intros k' [->|?]%keys_insert_sub; auto.
  - eapply tracks_record; [done|]. intros k. unfold stored_times. rw lookup_insert.
    repeat case_decide; by subst.
Qed.

Lemma rep_clear now log st key :
  rep U now log st → rep U now (log_clear key log) (clearKey key st).
Proof.
  intros [Hwf Hk Htr]. split; simpl; auto with litt.
  - intros k' ?%keys_delete_sub; auto.
  - eapply tracks_clear; [done|]. intros k. unfold stored_times. rw lookup_delete.
    repeat case_decide; by subst.
Qed.

Lemma isBlocked_rep now log st key :
  rep U now log st →
  rep U now log (isBlocked key now st).1 ∧
  (isBlocked key now st).2 = log_blocked (maxFailures st) (windowMs st) key now log ∧
  maxFailures (isBlocked key now st).1 = maxFailures st ∧
  windowMs (isBlocked key now st).1 = windowMs st.
Proof.
  intros Hrep. unfold isBlocked, log_blocked.
  pose proof (rep_tracks _ _ _ _ Hrep) as Htr.
  pose proof (tracks_trim _ _ _ _ key Htr) as Hts. rw -Hts.
  unfold stored_times in Hts |- *.
  destruct (failures st !! key) as [ts|] eqn:Hk; simpl; [|by repeat split; apply Hrep].
  destruct Hrep as [Hwf Hks _].
  destruct (trim (now - windowMs st) ts) as [|t ts'] eqn:Hr.
  - repeat split; simpl; auto with litt; try apply Htr.
    { intros k' ?%keys_delete_sub; auto. }
    eapply tracks_trimmed; [done|]. intros k. unfold stored_times. rw lookup_delete.
    repeat case_decide; subst; try done. by rw Hk.
  - repeat split; simpl; auto with litt; try apply Htr.
    { intros k' [->|?]%keys_insert_sub; [|auto]. apply Hks. by eapply lookup_Some_key. }
    eapply tracks_trimmed; [done|]. intros k. unfold stored_times. rw lookup_insert.
    repeat case_decide; subst; try done. by rw Hk.
Qed.

Lemma run_refines calls : ∀ now log st,
  rep U now log st →
  chronological (now :: calls.*1) →
  Forall (λ c, call_key c.2 ∈ U) calls →
  run MAX_TRACKED calls st = run_log (maxFailures st) (windowMs st) calls log.
Proof.
  induction calls as [|[t c] cs IH]; intros now log st Hrep Hsort HU; simpl; [done|].
  inversion Hsort as [|? ? Hsort' Hnow]; inversion HU as [|? ? Hc HU']; subst.
  apply (rep_later now t) in Hrep; [|by inversion Hnow].
  destruct c as [k|k|k]; simpl in *.
  - rw (IH t (log_record k t log)) //; [|by apply rep_record].
    by rw (recordFailure_eq _ _ _ _ Hrep Hc).
  - destruct (isBlocked_rep t log st k Hrep) as (Hrep' & Hb & Hm & Hw).
    destruct (isBlocked k t st) as [st' b]; simpl in *.
    rw (IH t log) // Hb. by rw Hm Hw.
  - by rw (IH t (log_clear k log)); [|apply rep_clear|..].
Qed.
End refinement.

(** ** The cap *)

Lemma recordFailure_size MAX_TRACKED key now st :
  1 ≤ MAX_TRACKED →
  Z.of_nat (size (failures st)) ≤ MAX_TRACKED →
  Z.of_nat (size (failures (recordFailure MAX_TRACKED key now st))) ≤ MAX_TRACKED.
Proof.
  intros Hmax Hsz. unfold recordFailure. destruct (failures st !! key) eqn:Hk; simpl.
  { by rw size_insert_Some. }
  pose proof (size_insert_le key [now] (failures (make_room MAX_TRACKED now st))) as Hins.
  enough (Z.of_nat (size (failures (make_room MAX_TRACKED now st))) < MAX_TRACKED) by lia.
  unfold make_room. destruct (Z.leb_spec MAX_TRACKED (Z.of_nat (size (failures st)))); [|done].
  case_match; zify_bools; [|lia]. simpl.
  pose proof (size_drop_oldest (failures (evictStale now st))).
  pose proof (size_sweep_le (λ _ timestamps,
       match trim (now - windowMs st) timestamps with [] => None | ts => Some ts end)
       (failures st)). unfold evictStale in *. simpl in *. lia.
Qed.

(** ** The interface

    What the limiters promise their clients: operations, a bound on the number
    of distinct keys they track exactly, and a simulation relation to the
    failure log under which every query answers as the specification does. *)
Class FailureLimiter (S : Type) := {
  lim_record : string → Z → S → S;
  lim_blocked : string → Z → S → S * bool;
  lim_clear : string → S → S;
  lim_max : Z;
  lim_window : Z;
  lim_tracked : Z;
  lim_rep : list string → Z → failure_log → S → Prop;
  lim_rep_later U now now' log s :
    now ≤ now' → lim_rep U now log s → lim_rep U now' log s;
  lim_rep_record U now log s key :
    Z.of_nat (length U) ≤ lim_tracked → key ∈ U → lim_rep U now log s →
    lim_rep U now (log_record key now log) (lim_record key now s);
  lim_rep_clear U now log s key :
    lim_rep U now log s → lim_rep U now (log_clear key log) (lim_clear key s);
  lim_rep_blocked U now log s key :
    lim_rep U now log s →
    lim_rep U now log (lim_blocked key now s).1 ∧
    (lim_blocked key now s).2 = log_blocked lim_max lim_window key now log;
}.

(** A limiter instance keeps the budget it was constructed with. *)
Definition instance_rep (maxF window : Z) U now log (st : limiter) : Prop :=
  rep U now log st ∧ maxFailures st = maxF ∧ windowMs st = window.

Section instances.
Context (MAX_TRACKED maxF window : Z).

#[program] Definition sliding_window_limiter : FailureLimiter limiter := {|
  lim_record := recordFailure MAX_TRACKED;
  lim_blocked := isBlocked;
  lim_clear := clearKey;
  lim_max := maxF;
  lim_window := window;
  lim_tracked := MAX_TRACKED;
  lim_rep := instance_rep maxF window;
|}.
Next Obligation. intros * ? [??]. split; [|done]. by eapply rep_later. Qed.
Next Obligation.
  intros U now log s key Hcap HU (Hrep & <- & <-). split; [by apply rep_record|].
  by rw (recordFailure_eq _ U Hcap _ _ _ _ Hrep HU).
Qed.
Next Obligation. intros * [??]. split; [by apply rep_clear|done]. Qed.
Next Obligation.
  intros U now log s key (Hrep & <- & <-).
  destruct (isBlocked_rep U now log s key Hrep) as (? & ? & ? & ?).
  unfold instance_rep. naive_solver.
Qed.

Lemma fresh_rep U now :
  instance_rep maxF window U now (λ _, []) (Limiter ∅ maxF window).
Proof.
  split; [|done]. split; simpl; auto with litt.
  - by intros k ?%elem_of_nil.
  - apply tracks_fresh.
Qed.
End instances.

(** ** Admission bounds

    No window of the given width, wherever it ends, holds more than [max] of
    the recorded times. *)
Definition in_window (w t : Z) (ts : list Z) : list Z :=
  filter (λ x, t - w < x ∧ x ≤ t) ts.

Definition window_bounded (w max : Z) (ts : list Z) : Prop :=
  ∀ t, Z.of_nat (length (in_window w t ts)) ≤ max.

Lemma window_bounded_nil w max : 0 ≤ max → window_bounded w max [].
Proof. by intros ? t. Qed.

Lemma length_filter_imp {A} (P Q : A → Prop) `{∀ x, Decision (P x), ∀ x, Decision (Q x)} l :
  (∀ x, x ∈ l → P x → Q x) → (length (filter P l) ≤ length (filter Q l))%nat.
Proof.
  induction l as [|x l IH]; intros HPQ; simpl; [done|].
  rw !filter_cons. assert (length (filter P l) ≤ length (filter Q l))%nat.
  { apply IH. intros; apply HPQ; [by right|done]. }
  pose proof (HPQ x (list_elem_of_here _ _)).
  repeat case_decide; simpl; try lia; naive_solver.
Qed.

Lemma window_bounded_snoc w max now ts :
  Forall (λ x, x ≤ now) ts →
  window_bounded w max ts →
  Z.of_nat (length (recent now w ts)) < max →
  window_bounded w max (ts ++ [now]).
Proof.
  intros Hpast Hb Hn t. specialize (Hb t). unfold in_window, recent in *.
  rw filter_app filter_cons filter_nil length_app. rw Forall_forall in Hpast.
  assert (now ≤ t → Nat.le (length (filter (λ x, t - w < x ∧ x ≤ t) ts))
                    (length (filter (λ x, now - w < x) ts))).
  { intros Hle. apply length_filter_imp. intros x Hx [??]. lia. }
  case_decide; simpl; lia.
Qed.
