(* ===== verification/AuthRateLimiter.v ===== *)
(** * Gateway authentication throttle

    [gateway/src/auth-rate-limiter.ts] (class [AuthRateLimiter]) as an instance
    of the sliding-window limiter, and the HTTP guard in front of the gateway's
    authenticated routes, [gateway/src/http/middleware/rate-limit.ts], proved
    against the limiter interface only. *)

From S2P Require Import Prelude JsMap SlidingWindow.
Local Open Scope Z_scope.

Definition DEFAULT_MAX_FAILURES : Z := 10.
Definition DEFAULT_WINDOW_MS : Z := 60000.
Definition MAX_TRACKED_IPS : Z := 50000.

Definition newAuthRateLimiter (maxFailures windowMs : Z) : limiter :=
  Limiter ∅ maxFailures windowMs.

Definition recordFailure (ip : string) (now : Z) (st : limiter) : limiter :=
  SlidingWindow.recordFailure MAX_TRACKED_IPS ip now st.

Definition clearIp (ip : string) (st : limiter) : limiter := clearKey ip st.

Definition auth_limiter (maxF window : Z) : FailureLimiter limiter :=
  sliding_window_limiter MAX_TRACKED_IPS maxF window.

(** ** The guard *)

(** The middleware sees the request's path and the client address. *)
Definition isRateLimitedRoute (pathname : string) : bool :=
  bool_decide (pathname = "/integrations/status") ||
  bool_decide (pathname = "/webhooks/oauth/callback") ||
  String.prefix "/v1/" pathname.

Inductive guard_result := Continue | TooManyRequests.

Section guard.
Context {S : Type} {L : FailureLimiter S}.
(** [isLoopbackAddress] of [util/is-loopback-address.ts]: the guard's
    guarantees hold whatever addresses it exempts. *)
Context (isLoopbackAddress : string → bool).

Definition checkAuthRateLimit (pathname clientIp : string) (now : Z) (st : S)
    : S * guard_result :=
  if negb (isRateLimitedRoute pathname) then (st, Continue)
  else if isLoopbackAddress clientIp then (lim_clear clientIp st, Continue)
  else
    let '(st', blocked) := lim_blocked clientIp now st in
    (st', if blocked then TooManyRequests else Continue).

(** A failing login attempt: the guard runs first; when it lets the request
    through, authentication fails and the handler records the failure. *)
Definition failing_attempt (pathname clientIp : string) (now : Z) (st : S)
    : S * guard_result :=
  match checkAuthRateLimit pathname clientIp now st with
  | (st', Continue) => (lim_record clientIp now st', Continue)
  | (st', TooManyRequests) => (st', TooManyRequests)
  end.

(** The times at which a sequence of failing attempts got through. *)
Fixpoint passed (pathname clientIp : string) (times : list Z) (st : S) : list Z :=
  match times with
  | [] => []
  | now :: ts =>
      match failing_attempt pathname clientIp now st with
      | (st', Continue) => now :: passed pathname clientIp ts st'
      | (st', TooManyRequests) => passed pathname clientIp ts st'
      end
  end.
End guard.

(** ** Correctness *)

Section guard_facts.
Context {S : Type} {L : FailureLimiter S} (isLoopbackAddress : string → bool).
Context (U : list string) (Hcap : Z.of_nat (length U) ≤ lim_tracked).
Context (pathname clientIp : string) (HU : clientIp ∈ U).
Context (Hroute : isRateLimitedRoute pathname = true).
Context (Hremote : isLoopbackAddress clientIp = false).

Lemma failing_attempt_rep now log st st' r :
  lim_rep U now log st →
  failing_attempt isLoopbackAddress pathname clientIp now st = (st', r) →
  match r with
  | Continue =>
      lim_rep U now (log_record clientIp now log) st' ∧
      log_blocked lim_max lim_window clientIp now log = false
  | TooManyRequests => lim_rep U now log st'
  end.
Proof using All.
  intros Hrep. unfold failing_attempt, checkAuthRateLimit. rw Hroute Hremote /=.
  destruct (lim_rep_blocked U now log st clientIp Hrep) as [Hrep' Hb].
  destruct (lim_blocked clientIp now st) as [s1 b]; simpl in *.
  destruct b; intros [= <- <-]; [done|]. split; [|by rw -Hb].
  by apply lim_rep_record.
Qed.

Lemma passed_bounded times : ∀ now log st,
  1 ≤ lim_max →
  lim_rep U now log st →
  chronological (now :: times) →
  Forall (λ x, x ≤ now) (log clientIp) →
  window_bounded lim_window lim_max (log clientIp) →
  window_bounded lim_window lim_max
    (log clientIp ++ passed isLoopbackAddress pathname clientIp times st).
Proof using All.
  induction times as [|t ts IH]; intros now log st Hmax Hrep Hsort Hpast Hb; simpl.
  { by rw app_nil_r. }
  inversion Hsort as [|? ? Hsort' Hnow]; subst.
  assert (now ≤ t) as Hle by (by inversion Hnow).
  assert (Forall (λ x, x ≤ t) (log clientIp)) as Hpast'
    by (eapply Forall_impl; [done|simpl; lia]).
  apply (lim_rep_later U now t) in Hrep; [|done].
  destruct (failing_attempt _ _ _ _ _) as [st' r] eqn:Hfa.
  pose proof (failing_attempt_rep _ _ _ _ _ Hrep Hfa) as Hr.
  destruct r; [|by apply (IH t log st')]. destruct Hr as [Hrep' Hnb].
  assert (log_record clientIp t log clientIp = log clientIp ++ [t]) as Hlog
    by (unfold log_record; by case_decide).
  rw cons_middle app_assoc -Hlog.
  apply (IH t); try done; rw Hlog.
  - apply Forall_app; split; [done|]. by constructor.
  - apply window_bounded_snoc; [done..|].
    unfold log_blocked in Hnb. apply andb_false_iff in Hnb as [Hn|Hn]; zify_bools; lia.
Qed.
End guard_facts.

(** The gateway throttle implements its specification: along any
    chronological sequence of [recordFailure], [isBlocked] and [clearIp] calls
    over at most [MAX_TRACKED_IPS] addresses, the trimmed arrays give exactly
    the answers of the full failure log — an address is blocked if and only if
    at least [maxFailures] failures since its last clear are younger than the
    window. *)
Theorem auth_limiter_refines_failure_log
    (U : list string) (start maxF window : Z) (calls : list (Z * call)) :
  Z.of_nat (length U) ≤ MAX_TRACKED_IPS →
  chronological (start :: calls.*1) →
  Forall (λ c, call_key c.2 ∈ U) calls →
  run MAX_TRACKED_IPS calls (newAuthRateLimiter maxF window) =
  run_log maxF window calls (λ _, []).
Proof.
  intros Hcap Hsort HU.
  by apply (run_refines MAX_TRACKED_IPS U Hcap calls start); [apply fresh_rep|..].
Qed.

Definition sample_calls : list (Z * call) :=
  [(0, RecordFailure "10.0.0.1"); (5, RecordFailure "10.0.0.1");
   (6, IsBlocked "10.0.0.1"); (7, RecordFailure "10.0.0.2");
   (101, IsBlocked "10.0.0.1"); (102, ClearKey "10.0.0.2");
   (103, IsBlocked "10.0.0.2")].

Lemma auth_limiter_refines_failure_log_witness :
  run MAX_TRACKED_IPS sample_calls (newAuthRateLimiter 2 100) = [true; false; false] ∧
  run MAX_TRACKED_IPS sample_calls (newAuthRateLimiter 2 100) =
  run_log 2 100 sample_calls (λ _, []).
Proof.
  split; [by vm_compute|].
  apply (auth_limiter_refines_failure_log ["10.0.0.1"; "10.0.0.2"] 0).
  - by vm_compute.
  - unfold sample_calls; simpl. repeat constructor; lia.
  - unfold sample_calls; simpl. repeat constructor.
Defined.

(** Behind the guard, proved for every limiter meeting the interface: a
    remote client whose authentication always fails gets at most [lim_max]
    requests through in any window of [lim_window] milliseconds. *)
Theorem guard_bounds_failing_attempts {S : Type} {L : FailureLimiter S}
    (isLoopbackAddress : string → bool) (U : list string) (start : Z)
    (pathname clientIp : string) (times : list Z) (st : S) :
  1 ≤ lim_max →
  Z.of_nat (length U) ≤ lim_tracked →
  clientIp ∈ U →
  isRateLimitedRoute pathname = true →
  isLoopbackAddress clientIp = false →
  lim_rep U start (λ _, []) st →
  chronological (start :: times) →
  window_bounded lim_window lim_max
    (passed isLoopbackAddress pathname clientIp times st).
Proof.
  intros. by apply (passed_bounded isLoopbackAddress U) with (now := start) (log := λ _, []);
    [..|apply window_bounded_nil; lia].
Qed.

Lemma guard_bounds_failing_attempts_witness :
  passed (L := auth_limiter 2 100) (λ _, false) "/v1/guardian/token" "10.0.0.9"
    [0; 1; 2; 100; 150] (newAuthRateLimiter 2 100) = [0; 1; 100; 150] ∧
  window_bounded 100 2
    (passed (L := auth_limiter 2 100) (λ _, false) "/v1/guardian/token" "10.0.0.9"
       [0; 1; 2; 100; 150] (newAuthRateLimiter 2 100)).
Proof.
  split; [by vm_compute|].
  apply (guard_bounds_failing_attempts (L := auth_limiter 2 100) (λ _, false)
           ["10.0.0.9"] 0 "/v1/guardian/token" "10.0.0.9" [0; 1; 2; 100; 150]).
  - simpl; lia.
  - by vm_compute.
  - by constructor.
  - by vm_compute.
  - done.
  - apply fresh_rep.
  - repeat constructor; lia.
Defined.
