(* ===== verification/TokenRateLimiter.v ===== *)
(** * HTTP request limiter of the assistant runtime

    [assistant/src/runtime/middleware/rate-limiter.ts]: the per-client sliding
    window behind every [/v1/*] endpoint, the response metadata it produces,
    the choice of limiter and the client address it keys on. *)

From S2P Require Import Prelude JsMap SlidingWindow.
Local Open Scope Z_scope.

Definition DEFAULT_WINDOW_MS : Z := 60000.
Definition MAX_TRACKED_TOKENS : Z := 10000.
Definition LOOPBACK_MAX_REQUESTS : Z := 1200.
Definition DEFAULT_IP_MAX_REQUESTS : Z := 20.
Definition DEFAULT_IP_WINDOW_MS : Z := 60000.
Definition MAX_TRACKED_IPS : Z := 50000.

Record RequestEntry := { timestamp : Z; path : string }.

Record TokenRateLimiter := {
  requests : jsmap string (list RequestEntry);
  maxRequests : Z;
  windowMs : Z;
  maxTrackedKeys : Z;
}.

Record RateLimitResult := {
  allowed : bool;
  limit : Z;
  remaining : Z;
  resetAt : Z;
}.

Definition with_requests (st : TokenRateLimiter) m : TokenRateLimiter :=
  {| requests := m; maxRequests := maxRequests st; windowMs := windowMs st;
     maxTrackedKeys := maxTrackedKeys st |}.

Definition setMaxRequests (n : Z) (st : TokenRateLimiter) : TokenRateLimiter :=
  {| requests := requests st; maxRequests := n; windowMs := windowMs st;
     maxTrackedKeys := maxTrackedKeys st |}.

Definition trimEntries (cutoff : Z) (entries : list RequestEntry) : list RequestEntry :=
  shift_while (λ e, timestamp e <=? cutoff) entries.

Definition evictStaleKeys (now : Z) (st : TokenRateLimiter) : TokenRateLimiter :=
  let cutoff := now - windowMs st in
  with_requests st
    (sweep (λ _ entries,
       match trimEntries cutoff entries with [] => None | es => Some es end)
     (requests st)).

(** The bucket of [key], created (and room made for it) on first use. *)
Definition openBucket (key : string) (now : Z) (st : TokenRateLimiter)
    : TokenRateLimiter * list RequestEntry :=
  match requests st !! key with
  | Some entries => (st, entries)
  | None =>
      let st1 :=
        if maxTrackedKeys st <=? Z.of_nat (size (requests st)) then
          let st1 := evictStaleKeys now st in
          if maxTrackedKeys st <=? Z.of_nat (size (requests st1))
          then with_requests st1 (drop_oldest (requests st1))
          else st1
        else st in
      (with_requests st1 (<[key := []]> (requests st1)), [])
  end.

Definition check (key : string) (reqPath : option string) (now : Z)
    (st : TokenRateLimiter) : TokenRateLimiter * RateLimitResult :=
  let max := maxRequests st in
  let '(st, entries) := openBucket key now st in
  let cutoff := now - windowMs st in
  let entries := trimEntries cutoff entries in
  let n := Z.of_nat (length entries) in
  let left := Z.max 0 (max - n) in
  let reset :=
    match entries with
    | e :: _ => ceil_div (timestamp e + windowMs st) 1000
    | [] => ceil_div (now + windowMs st) 1000
    end in
  if max <=? n then
    (with_requests st (<[key := entries]> (requests st)),
     {| allowed := false; limit := max; remaining := 0; resetAt := reset |})
  else
    let entry := {| timestamp := now; path := default "unknown" reqPath |} in
    (with_requests st (<[key := entries ++ [entry]]> (requests st)),
     {| allowed := true; limit := max; remaining := left - 1; resetAt := reset |}).

(** [counts.set(path, (counts.get(path) ?? 0) + 1)] over the live entries. *)
Definition countPaths (cutoff : Z) (entries : list RequestEntry) : jsmap string Z :=
  foldl (λ counts e,
    if cutoff <? timestamp e
    then <[path e := default 0 (counts !! path e) + 1]> counts
    else counts) ∅ entries.

Definition getRecentPathCounts (key : string) (now : Z) (st : TokenRateLimiter)
    : list (string * Z) :=
  match requests st !! key with
  | None | Some [] => []
  | Some es =>
      stable_sort (λ a b, b.2 - a.2 <=? 0)
        (entries (countPaths (now - windowMs st) es))
  end.

(** ** Responses *)

Definition rateLimitHeaders (r : RateLimitResult) : list (string * string) :=
  [("X-RateLimit-Limit", pretty (limit r));
   ("X-RateLimit-Remaining", pretty (remaining r));
   ("X-RateLimit-Reset", pretty (resetAt r))].

Definition retryAfter (r : RateLimitResult) (now : Z) : Z :=
  Z.max 1 (resetAt r - ceil_div now 1000).

(** Status and headers of the 429 (the JSON body is constant). *)
Definition rateLimitResponse (r : RateLimitResult) (now : Z)
    : Z * list (string * string) :=
  (429, rateLimitHeaders r ++ [("Retry-After", pretty (retryAfter r now))]).

(** ** Which limiter, keyed on what *)

Inductive limiter_kind := LoopbackLimiter | ApiLimiter.

Definition isRateLimitExemptEndpoint (endpoint : string) : bool :=
  bool_decide (endpoint ∈ ["events"; "health"; "healthz"; "readyz"]).

Section addresses.
(** The address classifiers of [runtime/middleware/auth.ts]. *)
Context (isLoopbackAddress isPrivateAddress : string → bool).

Definition selectAuthenticatedRateLimiter (clientIp : string) : limiter_kind :=
  if isLoopbackAddress clientIp then LoopbackLimiter else ApiLimiter.

(** [peer] is [server.requestIP(req)?.address]; the two headers are read with
    [req.headers.get]. *)
Definition extractClientIp (peer forwardedFor realIpHeader : option string) : string :=
  let peerIp := default "0.0.0.0" peer in
  if isPrivateAddress peerIp then
    let first :=
      match forwardedFor with
      | Some fwd =>
          if truthy forwardedFor then js_trim (before_char "," fwd) else EmptyString
      | None => EmptyString
      end in
    if truthy (Some first) then first
    else match realIpHeader with
         | Some ip => if truthy realIpHeader then js_trim ip else peerIp
         | None => peerIp
         end
  else peerIp.
End addresses.

(** ** Specification

    The log of the requests that were let through, per key.  A request passes
    when fewer than [max] of them are inside the window; the metadata reports
    what is left of the budget and when the oldest live request expires. *)
Definition admits (max window : Z) (key : string) (now : Z) (log : failure_log) : bool :=
  Z.of_nat (length (recent now window (log key))) <? max.

Definition spec_result (max window : Z) (key : string) (now : Z) (log : failure_log)
    : RateLimitResult :=
  let live := recent now window (log key) in
  let ok := admits max window key now log in
  {| allowed := ok; limit := max;
     remaining := if ok then max - Z.of_nat (length live) - 1 else 0;
     resetAt := ceil_div (default now (head live) + window) 1000 |}.

Definition spec_log (max window : Z) (key : string) (now : Z) (log : failure_log)
    : failure_log :=
  if admits max window key now log then log_record key now log else log.

Definition request : Type := Z * string * option string.

Fixpoint serve (reqs : list request) (st : TokenRateLimiter) : list RateLimitResult :=
  match reqs with
  | [] => []
  | (now, key, p) :: reqs =>
      let '(st', r) := check key p now st in r :: serve reqs st'
  end.

Fixpoint serve_spec (max window : Z) (reqs : list request) (log : failure_log)
    : list RateLimitResult :=
  match reqs with
  | [] => []
  | (now, key, p) :: reqs =>
      spec_result max window key now log ::
      serve_spec max window reqs (spec_log max window key now log)
  end.

(** The times at which requests of [key] passed. *)
Fixpoint served (key : string) (reqs : list request) (rs : list RateLimitResult) : list Z :=
  match reqs, rs with
  | (now, k, _) :: reqs, r :: rs =>
      if allowed r && bool_decide (k = key) then now :: served key reqs rs
      else served key reqs rs
  | _, _ => []
  end.

(** ** Refinement *)

Definition stored_stamps (m : jsmap string (list RequestEntry)) : failure_log :=
  λ k, timestamp <$> default [] (m !! k).

Record bucket_rep (U : list string) (now : Z) (log : failure_log)
    (st : TokenRateLimiter) : Prop := {
  br_wf : wf (requests st);
  br_keys : ∀ k, k ∈ keys (requests st) → k ∈ U;
  br_tracks : tracks now (windowMs st) log (stored_stamps (requests st));
}.

Lemma timestamps_trim cutoff es :
  timestamp <$> trimEntries cutoff es = trim cutoff (timestamp <$> es).
Proof.
  unfold trimEntries, trim. induction es as [|e es IH]; simpl; [done|].
  by destruct (timestamp e <=? cutoff).
Qed.

Section refinement.
Context (U : list string).

Lemma bucket_rep_later now now' log st :
  now ≤ now' → bucket_rep U now log st → bucket_rep U now' log st.
Proof. intros ? [? ? ?]. split; [done..|]. by eapply tracks_later. Qed.

Lemma openBucket_spec now log st key :
  Z.of_nat (length U) ≤ maxTrackedKeys st → key ∈ U → bucket_rep U now log st →
  ∃ m es, openBucket key now st = (with_requests st m, es) ∧
    bucket_rep U now log (with_requests st m) ∧ m !! key = Some es.
Proof.
  intros Hcap HU [Hwf Hk Htr]. unfold openBucket.
  destruct (requests st !! key) as [es|] eqn:Hkey.
  { exists (requests st), es. destruct st; simpl in *. split; [done|]. by split. }
  pose proof (size_lt_universe U _ _ Hwf Hk HU Hkey).
  destruct (Z.leb_spec (maxTrackedKeys st) (Z.of_nat (size (requests st)))); [lia|].
  eexists _, _. split; [done|]. split; [|by rw lookup_insert_eq].
  split; simpl; auto with litt.
  - intros k [->|?]%keys_insert_sub; auto.
  - eapply tracks_trimmed with (key := key); [done|].
    intros k. unfold stored_stamps. rw lookup_insert.
    repeat case_decide; subst; try done. by rw Hkey.
Qed.

Lemma check_spec now log st key p :
  Z.of_nat (length U) ≤ maxTrackedKeys st → key ∈ U → bucket_rep U now log st →
  (check key p now st).2 = spec_result (maxRequests st) (windowMs st) key now log ∧
  ∃ m, (check key p now st).1 = with_requests st m ∧
    bucket_rep U now (spec_log (maxRequests st) (windowMs st) key now log)
      (with_requests st m).
Proof.
  intros Hcap HU Hrep. unfold check.
  destruct (openBucket_spec _ _ _ _ Hcap HU Hrep) as (m & es & -> & [Hwf Hk Htr] & Hes).
  simpl in *. pose proof (tracks_trim _ _ _ _ key Htr) as Hts.
  assert (stored_stamps m key = timestamp <$> es) as Hst by (unfold stored_stamps; by rw Hes).
  rw Hst -timestamps_trim in Hts.
  assert (length (recent now (windowMs st) (log key)) =
          length (trimEntries (now - windowMs st) es)) as Hlen
    by (by rw -Hts length_fmap).
  assert (default now (head (recent now (windowMs st) (log key))) =
          match trimEntries (now - windowMs st) es with
          | e :: _ => timestamp e | [] => now end) as Hhead
    by (rw -Hts; by destruct (trimEntries _ _)).
  assert (key ∈ keys m) by (by eapply lookup_Some_key).
  unfold spec_result, spec_log, admits. rw Hlen Hhead.
  set (es' := trimEntries (now - windowMs st) es) in *.
  destruct (Z.leb_spec (maxRequests st) (Z.of_nat (length es'))) as [Hfull|Hroom].
  - destruct (Z.ltb_spec (Z.of_nat (length es')) (maxRequests st)); [lia|].
    split; [by destruct es'|]. eexists. split; [done|]. split; simpl; auto with litt.
    { intros k [->|?]%keys_insert_sub; auto. }
    eapply tracks_trimmed with (key := key); [done|]. intros k.
    unfold stored_stamps. rw lookup_insert. repeat case_decide; subst; try done.
    by rw Hes /= timestamps_trim.
  - destruct (Z.ltb_spec (Z.of_nat (length es')) (maxRequests st)); [|lia].
    split; [rw /= Z.max_r; [by destruct es'|lia]|].
    eexists. split; [done|]. split; simpl; auto with litt.
    { intros k [->|?]%keys_insert_sub; auto. }
    eapply (tracks_record _ now log (λ k, if decide (k = key)
      then trim (now - windowMs st) (stored_stamps m k) else stored_stamps m k)).
    { by eapply tracks_trimmed with (key := key). }
    intros k. unfold stored_stamps. rw lookup_insert.
    repeat case_decide; subst; try done. by rw Hes /= fmap_app timestamps_trim.
Qed.

Lemma serve_refines reqs : ∀ now log st,
  Z.of_nat (length U) ≤ maxTrackedKeys st →
  bucket_rep U now log st →
  chronological (now :: ((λ r, r.1.1) <$> reqs)) →
  Forall (λ r, r.1.2 ∈ U) reqs →
  serve reqs st = serve_spec (maxRequests st) (windowMs st) reqs log.
Proof.
  induction reqs as [|[[t k] p] reqs IH]; intros now log st Hcap Hrep Hsort HU; simpl; [done|].
  inversion Hsort as [|? ? Hsort' Hnow]; inversion HU as [|? ? Hk HU']; subst; simpl in *.
  apply (bucket_rep_later now t) in Hrep; [|by inversion Hnow].
  destruct (check_spec t log st k p Hcap Hk Hrep) as (Hr & m & Hst & Hrep').
  destruct (check k p t st) as [st' r]; simpl in *; subst.
  f_equal. exact (IH t _ (with_requests st m) Hcap Hrep' Hsort' HU').
Qed.

Lemma served_bounded max window key reqs : ∀ now log,
  0 ≤ max →
  chronological (now :: ((λ r, r.1.1) <$> reqs)) →
  Forall (λ x, x ≤ now) (log key) →
  window_bounded window max (log key) →
  window_bounded window max
    (log key ++ served key reqs (serve_spec max window reqs log)).
Proof.
  induction reqs as [|[[t k] p] reqs IH]; intros now log Hmax Hsort Hpast Hb; simpl.
  { by rw app_nil_r. }
  inversion Hsort as [|? ? Hsort' Hnow]; subst; simpl in *.
  assert (Forall (λ x, x ≤ t) (log key)) as Hpast'.
  { assert (now ≤ t) by (by inversion Hnow). eapply Forall_impl; [done|simpl; lia]. }
  unfold spec_log. destruct (admits max window k t log) eqn:Hadm; simpl;
    [|by apply (IH t)].
  case_bool_decide as Hkey; subst.
  - assert (log_record key t log key = log key ++ [t]) as Hlog
      by (unfold log_record; by case_decide).
    rw cons_middle app_assoc -Hlog.
    apply (IH t); try done; rw Hlog.
    + apply Forall_app; split; [done|]. by constructor.
    + apply window_bounded_snoc; [done..|]. unfold admits in Hadm. zbool.
  - assert (log_record k t log key = log key) as Hlog
      by (unfold log_record; by case_decide).
    rw -Hlog. apply (IH t); by try rw Hlog.
Qed.
End refinement.

Definition newTokenRateLimiter (max window tracked : Z) : TokenRateLimiter :=
  {| requests := ∅; maxRequests := max; windowMs := window; maxTrackedKeys := tracked |}.

Lemma fresh_bucket_rep U now max window tracked :
  bucket_rep U now (λ _, []) (newTokenRateLimiter max window tracked).
Proof.
  split; simpl; auto with litt; [by intros k ?%elem_of_nil|].
  apply tracks_fresh.
Qed.

(** Every answer of the request limiter — admission, remaining budget and
    reset time — along any chronological sequence of requests over at most
    [maxTrackedKeys] keys is the one the specification computes from the log
    of admitted requests: trimming, bucket creation and write-back lose
    nothing, and keys do not interfere. *)
Theorem request_limiter_refines_log (U : list string) (start max window tracked : Z)
    (reqs : list request) :
  Z.of_nat (length U) ≤ tracked →
  chronological (start :: ((λ r, r.1.1) <$> reqs)) →
  Forall (λ r, r.1.2 ∈ U) reqs →
  serve reqs (newTokenRateLimiter max window tracked) =
  serve_spec max window reqs (λ _, []).
Proof.
  intros Hcap Hsort HU.
  exact (serve_refines U reqs start _ (newTokenRateLimiter max window tracked)
           Hcap (fresh_bucket_rep _ _ _ _ _) Hsort HU).
Qed.

Definition sample_requests : list request :=
  [(0, "1.1.1.1", Some "messages"); (10, "1.1.1.1", None); (20, "2.2.2.2", None);
   (30, "1.1.1.1", None); (1001, "1.1.1.1", Some "messages")].

Lemma request_limiter_refines_log_witness :
  allowed <$> serve sample_requests (newTokenRateLimiter 2 1000 10) =
    [true; true; true; false; true] ∧
  serve sample_requests (newTokenRateLimiter 2 1000 10) =
  serve_spec 2 1000 sample_requests (λ _, []).
Proof.
  split; [by vm_compute|].
  apply (request_limiter_refines_log ["1.1.1.1"; "2.2.2.2"] 0).
  - by vm_compute.
  - unfold sample_requests; simpl. repeat constructor; lia.
  - unfold sample_requests; simpl. repeat constructor.
Defined.

(** A client never gets more than [maxRequests] requests through in any
    window of [windowMs] milliseconds, whatever the other clients do. *)
Theorem request_limiter_bounds_window (U : list string) (start max window tracked : Z)
    (key : string) (reqs : list request) :
  0 ≤ max →
  Z.of_nat (length U) ≤ tracked →
  chronological (start :: ((λ r, r.1.1) <$> reqs)) →
  Forall (λ r, r.1.2 ∈ U) reqs →
  window_bounded window max
    (served key reqs (serve reqs (newTokenRateLimiter max window tracked))).
Proof.
  intros Hmax Hcap Hsort HU.
  rw (serve_refines U reqs start _ (newTokenRateLimiter max window tracked)
           Hcap (fresh_bucket_rep _ _ _ _ _) Hsort HU).
  apply (served_bounded max window key reqs start (λ _, [])); try done.
  by apply window_bounded_nil.
Qed.

Lemma request_limiter_bounds_window_witness :
  served "1.1.1.1" sample_requests
    (serve sample_requests (newTokenRateLimiter 2 1000 10)) = [0; 10; 1001] ∧
  window_bounded 1000 2 (served "1.1.1.1" sample_requests
    (serve sample_requests (newTokenRateLimiter 2 1000 10))).
Proof.
  split; [by vm_compute|].
  apply (request_limiter_bounds_window ["1.1.1.1"; "2.2.2.2"] 0); [lia|by vm_compute|..].
  - unfold sample_requests; simpl. repeat constructor; lia.
  - unfold sample_requests; simpl. repeat constructor.
Defined.

(** Forwarding headers cannot be spoofed: a peer outside the private
    ranges is keyed on its own address whatever headers it sends. *)
Theorem client_ip_not_spoofable (isPrivateAddress : string → bool)
    (peer : string) (fwd fwd' real real' : option string) :
  isPrivateAddress peer = false →
  extractClientIp isPrivateAddress (Some peer) fwd real = peer ∧
  extractClientIp isPrivateAddress (Some peer) fwd real =
  extractClientIp isPrivateAddress (Some peer) fwd' real'.
Proof. intros Hp. unfold extractClientIp. simpl. by rw Hp. Qed.

Lemma client_ip_not_spoofable_witness :
  extractClientIp (λ _, false) (Some "203.0.113.7") (Some "127.0.0.1") None = "203.0.113.7" ∧
  extractClientIp (λ _, true) (Some "127.0.0.1") (Some " 198.51.100.4 , 10.0.0.1") None =
    "198.51.100.4".
Proof.
  split; [|by vm_compute].
  exact (proj1 (client_ip_not_spoofable (λ _, false) "203.0.113.7"
           (Some "127.0.0.1") None None None eq_refl)).
Defined.
