(* ===== verification/VerificationRateLimiter.v ===== *)
(** * Guardian-verification throttle

    [assistant/src/runtime/verification-rate-limiter.ts]: the sliding-window
    limiter with the bounds of the verification endpoint, and the memory bound
    both limiters rely on. *)

From S2P Require Import Prelude JsMap SlidingWindow.
Local Open Scope Z_scope.

Definition DEFAULT_MAX_FAILURES : Z := 3.
Definition DEFAULT_WINDOW_MS : Z := 5 * 60000.
Definition MAX_TRACKED_IDENTITIES : Z := 10000.

Definition newVerificationRateLimiter (maxFailures windowMs : Z) : limiter :=
  Limiter ∅ maxFailures windowMs.

Definition recordFailure (identity : string) (now : Z) (st : limiter) : limiter :=
  SlidingWindow.recordFailure MAX_TRACKED_IDENTITIES identity now st.

Definition isBlocked (identity : string) (now : Z) (st : limiter) : limiter * bool :=
  SlidingWindow.isBlocked identity now st.

Definition clearIdentity (identity : string) (st : limiter) : limiter :=
  clearKey identity st.

(** [export const verificationRateLimiter = new VerificationRateLimiter()] *)
Definition verificationRateLimiter : limiter :=
  newVerificationRateLimiter DEFAULT_MAX_FAILURES DEFAULT_WINDOW_MS.

(** One call on the singleton, whoever makes it. *)
Definition step (c : Z * call) (st : limiter) : limiter :=
  match c with
  | (now, RecordFailure k) => recordFailure k now st
  | (now, IsBlocked k) => (isBlocked k now st).1
  | (now, ClearKey k) => clearIdentity k st
  end.

Definition steps (cs : list (Z * call)) (st : limiter) : limiter :=
  foldl (λ st c, step c st) st cs.

Lemma step_size c st :
  Z.of_nat (size (failures st)) ≤ MAX_TRACKED_IDENTITIES →
  Z.of_nat (size (failures (step c st))) ≤ MAX_TRACKED_IDENTITIES.
Proof.
  intros Hsz. destruct c as [now [k|k|k]]; simpl.
  - by apply recordFailure_size.
  - unfold isBlocked, SlidingWindow.isBlocked. destruct (failures st !! k) eqn:Hk; simpl; [|done].
    case_match; simpl.
    + pose proof (size_delete_le k (failures st)). lia.
    + by rw size_insert_Some.
  - pose proof (size_delete_le k (failures st)). lia.
Qed.

(** Memory stays bounded under any input: no sequence of calls, at any
    times and for any identities, makes the throttle track more than
    [MAX_TRACKED_IDENTITIES] of them. *)
Theorem verification_limiter_memory_bounded (cs : list (Z * call)) :
  Z.of_nat (size (failures (steps cs verificationRateLimiter))) ≤ MAX_TRACKED_IDENTITIES.
Proof.
  assert (∀ st, Z.of_nat (size (failures st)) ≤ MAX_TRACKED_IDENTITIES →
    Z.of_nat (size (failures (steps cs st))) ≤ MAX_TRACKED_IDENTITIES) as Hgen.
  { unfold steps. induction cs as [|c cs IH]; intros st Hst; simpl; [done|].
    by apply IH, step_size. }
  by apply Hgen.
Qed.
