(* ===== verification/RateLimitProvider.v ===== *)
(** * Provider request budget

    [assistant/src/providers/ratelimit.ts]: the wrapper that meters outgoing
    model requests.  The timestamp array is shared between wrappers, so the
    expired entries are squeezed out in place; the two-index loop is modelled
    write by write and proved equal to a filter. *)

From S2P Require Import Prelude SlidingWindow.
Local Open Scope Z_scope.

(** One pass of the compaction loop: [n] iterations are left, [read] and
    [write] are the two indices, [oldest] is [oldestInWindow] ([None] is
    [Infinity]). *)
Fixpoint compact_loop (windowStart : Z) (n read write : nat) (oldest : option Z)
    (arr : list Z) : nat * option Z * list Z :=
  match n with
  | O => (write, oldest, arr)
  | S n =>
      let x := default 0 (arr !! read) in
      if windowStart <? x then
        let oldest :=
          match oldest with
          | Some o => if x <? o then Some x else oldest
          | None => Some x
          end in
        compact_loop windowStart n (S read) (S write) oldest (<[write := x]> arr)
      else compact_loop windowStart n (S read) write oldest arr
  end.

(** The whole pass, [this.requestTimestamps.length = write] included. *)
Definition compact (windowStart : Z) (arr : list Z) : option Z * list Z :=
  let '(write, oldest, arr') := compact_loop windowStart (length arr) 0 0 None arr in
  (oldest, take write arr').

Inductive rate_error := RateLimitError (message : string).

Definition retry_after (oldest : option Z) (now : Z) : option Z :=
  (λ o, ceil_div (o + 60000 - now) 1000) <$> oldest.

Definition rate_limit_message (limit : Z) (waitSec : option Z) : string :=
  "Rate limit exceeded: " +:+ pretty limit +:+ " requests/minute. Try again in "
  +:+ match waitSec with Some w => pretty w | None => "Infinity" end +:+ "s.".

(** [enforceRequestRate]: the pruned array and the verdict. *)
Definition enforceRequestRate (limit now : Z) (stamps : list Z)
    : list Z * (unit + rate_error) :=
  if limit <=? 0 then (stamps, inl tt)
  else
    let '(oldest, stamps) := compact (now - 60000) stamps in
    if limit <=? Z.of_nat (length stamps)
    then (stamps, inr (RateLimitError (rate_limit_message limit (retry_after oldest now))))
    else (stamps, inl tt).

Definition recordRequest (limit now : Z) (stamps : list Z) : list Z :=
  if limit <=? 0 then stamps else stamps ++ [now].

(** [sendMessage]: enforce, record (the clock is read again), then hand over to
    the wrapped provider, a parameter. *)
Definition sendMessage {Resp : Type} (inner : unit → Resp) (limit t_enforce t_record : Z)
    (stamps : list Z) : list Z * (Resp + rate_error) :=
  match enforceRequestRate limit t_enforce stamps with
  | (stamps, inr e) => (stamps, inr e)
  | (stamps, inl _) => (recordRequest limit t_record stamps, inl (inner tt))
  end.

(** ** The loop is a filter *)

Definition zmin (o : option Z) (x : Z) : option Z :=
  match o with Some y => Some (Z.min y x) | None => Some x end.

Lemma compact_loop_spec ws n : ∀ kept junk rest oldest,
  n = length rest →
  (∃ junk', compact_loop ws n (length (kept ++ junk)) (length kept) oldest
      (kept ++ junk ++ rest) =
    (length (kept ++ filter (λ t, ws < t) rest),
     foldl zmin oldest (filter (λ t, ws < t) rest),
     kept ++ filter (λ t, ws < t) rest ++ junk')).
Proof.
  induction n as [|n IH]; intros kept junk rest oldest Hn.
  { destruct rest; [|done]. exists junk. simpl. by rw !app_nil_r. }
  destruct rest as [|x rest]; [done|]. injection Hn as Hn. simpl.
  rw app_assoc lookup_app_r // Nat.sub_diag /= filter_cons.
  destruct (Z.ltb_spec ws x) as [Hx|Hx].
  - rw decide_True //. rw -app_assoc.
    assert (∃ junk2, <[length kept := x]> (kept ++ junk ++ x :: rest) =
        (kept ++ [x]) ++ junk2 ++ rest ∧ length junk2 = length junk) as (junk2 & -> & Hl).
    { rw (insert_app_r_alt _ _ (length kept)) // Nat.sub_diag.
      destruct junk as [|j junk]; simpl.
      - exists []. by rw -app_assoc.
      - exists (junk ++ [x]). rw -!app_assoc length_app /=. split; [done|lia]. }
    destruct (IH (kept ++ [x]) junk2 rest (zmin oldest x) Hn) as (junk' & IH').
    exists junk'. rw -!app_assoc /= in IH' |- *. rw -IH'. f_equal.
    + rw !length_app /=. lia.
    + rw length_app /=. lia.
    + unfold zmin. destruct oldest as [o|]; [|done].
      destruct (Z.ltb_spec x o); f_equal; lia.
  - rw decide_False; [|lia].
    destruct (IH kept (junk ++ [x]) rest oldest Hn) as (junk' & IH').
    exists junk'. rw -IH' -!app_assoc /=. f_equal. rw !length_app /=. lia.
Qed.

Lemma compact_spec ws arr :
  compact ws arr =
  (foldl zmin None (filter (λ t, ws < t) arr), filter (λ t, ws < t) arr).
Proof.
  unfold compact.
  destruct (compact_loop_spec ws (length arr) [] [] arr None eq_refl) as (junk & E).
  simpl in E. by rw E take_app_length.
Qed.

Lemma foldl_zmin l : ∀ o,
  match foldl zmin (Some o) l with
  | Some m => m ≤ o ∧ Forall (λ x, m ≤ x) l ∧ (m = o ∨ m ∈ l)
  | None => False
  end.
Proof.
  induction l as [|x l IH]; intros o; simpl.
  { split; [lia|]. split; [constructor|by left]. }
  specialize (IH (Z.min o x)). destruct (foldl zmin _ l) as [m|]; [|done].
  destruct IH as (Hm & Hl & Hin). split; [lia|]. split; [constructor; [lia|done]|].
  destruct Hin as [->|Hin]; [|right; by right].
  destruct (Z.min_spec o x) as [[? ->]|[? ->]]; [by left|right; by left].
Qed.

Lemma oldest_live l :
  l ≠ [] → ∃ m, foldl zmin None l = Some m ∧ m ∈ l ∧ Forall (λ x, m ≤ x) l.
Proof.
  destruct l as [|x l]; [done|]. intros _. simpl. pose proof (foldl_zmin l x) as H.
  destruct (foldl zmin (Some x) l) as [m|]; [|done]. destruct H as (Hm & Hl & Hin).
  exists m. split; [done|]. split; [|by constructor].
  destruct Hin as [->|Hin]; [by left|by right].
Qed.

(** The in-place compaction is correct: after one [enforceRequestRate]
    the shared array holds exactly the timestamps younger than a minute, in
    order, and the call fails iff [limit] of them remain, quoting the wait
    computed from the oldest of them. *)
Theorem enforceRequestRate_spec (limit now : Z) (stamps : list Z) :
  let live := filter (λ t, now - 60000 < t) stamps in
  enforceRequestRate limit now stamps =
  if limit <=? 0 then (stamps, inl tt)
  else
    (live,
     if limit <=? Z.of_nat (length live)
     then inr (RateLimitError (rate_limit_message limit
                (retry_after (foldl zmin None live) now)))
     else inl tt).
Proof. simpl. unfold enforceRequestRate. rw compact_spec. by repeat case_match. Qed.

(** The retry hint is honest: when a request is refused, the wait it is
    told is between one second and a minute, and once that long has passed the
    oldest request has left the window, so with [limit] requests recorded and
    none in between the next one is let through. *)
Theorem retry_hint_sound (limit now later : Z) (stamps : list Z) :
  0 < limit →
  Forall (λ t, t ≤ now) stamps →
  limit = Z.of_nat (length (filter (λ t, now - 60000 < t) stamps)) →
  ∃ wait,
    enforceRequestRate limit now stamps =
      (filter (λ t, now - 60000 < t) stamps,
       inr (RateLimitError (rate_limit_message limit (Some wait)))) ∧
    1 ≤ wait ≤ 60 ∧
    (now + 1000 * wait ≤ later →
     (enforceRequestRate limit later (filter (λ t, now - 60000 < t) stamps)).2 = inl tt).
Proof.
  intros Hlim Hpast Hn. set (live := filter (λ t, now - 60000 < t) stamps) in *.
  assert (live ≠ []) as Hne by (intros Heq; rw Heq /= in Hn; lia).
  destruct (oldest_live live Hne) as (m & Hm & Hin & Hmin).
  assert (now - 60000 < m ∧ m ≤ now) as [Hm1 Hm2].
  { apply list_elem_of_filter in Hin as [? Hin]. rw Forall_forall in Hpast. auto. }
  pose proof (ceil_div_spec (m + 60000 - now) 1000 ltac:(lia)) as Hc.
  exists (ceil_div (m + 60000 - now) 1000). split; [|split; [lia|]].
  - unfold enforceRequestRate. rw compact_spec -/live Hm.
    repeat case_match; zify_bools; try lia; done.
  - intros Hlater. unfold enforceRequestRate. rw compact_spec.
    assert (Nat.lt (length (filter (λ t, later - 60000 < t) live)) (length live)).
    { apply (length_filter_lt _ _ m); [done|lia]. }
    repeat case_match; zify_bools; try lia; done.
Qed.

Lemma retry_hint_sound_witness :
  ∃ wait,
    enforceRequestRate 2 70000 [5000; 20500; 61000] =
      ([20500; 61000], inr (RateLimitError (rate_limit_message 2 (Some wait)))) ∧
    1 ≤ wait ≤ 60 ∧
    (70000 + 1000 * wait ≤ 81000 →
     (enforceRequestRate 2 81000 [20500; 61000]).2 = inl tt).
Proof.
  apply (retry_hint_sound 2 70000 81000 [5000; 20500; 61000]).
  - lia.
  - repeat constructor; lia.
  - by vm_compute.
Defined.
