(* ===== verification/CompactionCircuit.v ===== *)
(** * Compaction circuit breaker

    [assistant/src/agent/compaction-circuit.ts]: three failed summaries in a
    row suspend auto-compaction for an hour. *)

From S2P Require Import Prelude.
Local Open Scope Z_scope.

Definition COMPACTION_CIRCUIT_FAILURE_THRESHOLD : Z := 3.
Definition COMPACTION_CIRCUIT_COOLDOWN_MS : Z := 60 * 60 * 1000.

Record CompactionCircuit := {
  conversationId : string;
  consecutiveCompactionFailures : Z;
  compactionCircuitOpenUntil : option Z;
  lastPostCompactionEstimate : option Z;
}.

Definition newCompactionCircuit (cid : string) : CompactionCircuit :=
  {| conversationId := cid; consecutiveCompactionFailures := 0;
     compactionCircuitOpenUntil := None; lastPostCompactionEstimate := None |}.

Inductive CompactionCircuitEvent :=
| compaction_circuit_open (cid reason : string) (openUntil : Z)
| compaction_circuit_closed (cid : string).

Definition set_breaker (fails : Z) (openUntil : option Z) (st : CompactionCircuit)
    : CompactionCircuit :=
  {| conversationId := conversationId st;
     consecutiveCompactionFailures := fails;
     compactionCircuitOpenUntil := openUntil;
     lastPostCompactionEstimate := lastPostCompactionEstimate st |}.

(** The clock is read twice on the tripping path: [now] for the dormancy test,
    [now'] for the new deadline.  The emitted events are returned. *)
Definition recordOutcome (summaryFailed : bool) (now now' : Z) (st : CompactionCircuit)
    : CompactionCircuit * list CompactionCircuitEvent :=
  if summaryFailed then
    let fails := consecutiveCompactionFailures st + 1 in
    let circuitDormant :=
      match compactionCircuitOpenUntil st with
      | None => true
      | Some u => u <=? now
      end in
    if (COMPACTION_CIRCUIT_FAILURE_THRESHOLD <=? fails) && circuitDormant then
      let openUntil := now' + COMPACTION_CIRCUIT_COOLDOWN_MS in
      (set_breaker fails (Some openUntil) st,
       [compaction_circuit_open (conversationId st) "3_consecutive_failures" openUntil])
    else (set_breaker fails (compactionCircuitOpenUntil st) st, [])
  else
    (set_breaker 0 None st,
     match compactionCircuitOpenUntil st with
     | Some _ => [compaction_circuit_closed (conversationId st)]
     | None => []
     end).

Definition isOpen (now : Z) (st : CompactionCircuit) : bool :=
  match compactionCircuitOpenUntil st with
  | None => false
  | Some openUntil => now <? openUntil
  end.

#[global] Arguments recordOutcome : simpl never.

(** ** Runs: outcomes with the time they are recorded at *)
Definition outcome : Type := Z * bool.

Fixpoint run (os : list outcome) (st : CompactionCircuit)
    : CompactionCircuit * list CompactionCircuitEvent :=
  match os with
  | [] => (st, [])
  | (now, failed) :: os =>
      let '(st1, e1) := recordOutcome failed now now st in
      let '(st2, e2) := run os st1 in
      (st2, e1 ++ e2)
  end.

(** Failures since the last success. *)
Fixpoint failing_tail (n : Z) (os : list outcome) : Z :=
  match os with
  | [] => n
  | (_, failed) :: os => failing_tail (if failed then n + 1 else 0) os
  end.

(** ** The specification

    The breaker's deadline as a function of the outcomes alone: a success
    forgets everything; a failure that is at least the third in a row sets a
    new deadline, unless one is still running. *)
Fixpoint deadline (n : Z) (d : option Z) (os : list outcome) : option Z :=
  match os with
  | [] => d
  | (_, false) :: os => deadline 0 None os
  | (now, true) :: os =>
      let running := match d with Some u => now <? u | None => false end in
      deadline (n + 1)
        (if (3 <=? n + 1) && negb running
         then Some (now + COMPACTION_CIRCUIT_COOLDOWN_MS) else d) os
  end.

Lemma run_deadline os : ∀ st,
  compactionCircuitOpenUntil (run os st).1 =
    deadline (consecutiveCompactionFailures st) (compactionCircuitOpenUntil st) os ∧
  consecutiveCompactionFailures (run os st).1 =
    failing_tail (consecutiveCompactionFailures st) os.
Proof.
  induction os as [|[now failed] os IH]; intros st; simpl; [done|].
  destruct (recordOutcome failed now now st) as [st1 e1] eqn:Hr.
  specialize (IH st1). destruct (run os st1) as [st2 e2]; simpl in *.
  unfold recordOutcome, COMPACTION_CIRCUIT_FAILURE_THRESHOLD in Hr.
  destruct failed; [|injection Hr as <- <-; done].
  destruct (compactionCircuitOpenUntil st) as [u|];
    [rw -(Z.leb_antisym now u)|]; simpl in *;
    case_match; injection Hr as <- <-; done.
Qed.

(** An open event is emitted exactly when a failure is recorded as at least
    the third in a row with no deadline running. *)
Lemma failure_event now st :
  (recordOutcome true now now st).2 ≠ [] ↔
  3 <= consecutiveCompactionFailures st + 1 ∧ isOpen now st = false.
Proof.
  unfold recordOutcome, isOpen, COMPACTION_CIRCUIT_FAILURE_THRESHOLD.
  destruct (compactionCircuitOpenUntil st) as [u|]; simpl;
    case_match; zify_bools; simpl; try (split; [|done]); try naive_solver lia.
Qed.

Lemma reachable_deadline os :
  is_Some (compactionCircuitOpenUntil (run os (newCompactionCircuit "c")).1) →
  3 ≤ consecutiveCompactionFailures (run os (newCompactionCircuit "c")).1.
Proof.
  destruct (run_deadline os (newCompactionCircuit "c")) as [-> ->]. simpl.
  assert (∀ n d, (is_Some d → 3 ≤ n) → is_Some (deadline n d os) → 3 ≤ failing_tail n os)
    as Hgen.
  { induction os as [|[now failed] os IH]; intros n d Hd; simpl; [done|].
    destruct failed; apply IH; [|by intros []].
    destruct (Z.leb_spec 3 (n + 1)); [done|]. simpl. intros ?%Hd. lia. }
  apply Hgen. by intros [].
Qed.

(** One open event per cooldown: once the breaker has opened at [t], no
    number of further failures inside the hour moves its deadline or emits
    another event, and it denies auto-compaction until the deadline. *)
Theorem cooldown_is_quiet (st : CompactionCircuit) (t : Z) (later : list Z) :
  (recordOutcome true t t st).2 ≠ [] →
  Forall (λ t', t' < t + COMPACTION_CIRCUIT_COOLDOWN_MS) later →
  let after := run ((λ t', (t', true)) <$> later) (recordOutcome true t t st).1 in
  after.2 = [] ∧
  (∀ now, isOpen now after.1 = true ↔ now < t + COMPACTION_CIRCUIT_COOLDOWN_MS).
Proof.
  intros Hopen Hlater. simpl.
  assert (compactionCircuitOpenUntil (recordOutcome true t t st).1 =
          Some (t + COMPACTION_CIRCUIT_COOLDOWN_MS)) as Hu.
  { revert Hopen. unfold recordOutcome. by case_match. }
  generalize dependent (recordOutcome true t t st).1. clear Hopen.
  induction Hlater as [|t' later Ht' _ IH]; intros st1 Hu; simpl.
  { split; [done|]. intros now. unfold isOpen. rw Hu. apply Z.ltb_lt. }
  assert (recordOutcome true t' t' st1 =
    (set_breaker (consecutiveCompactionFailures st1 + 1)
       (Some (t + COMPACTION_CIRCUIT_COOLDOWN_MS)) st1, [])) as ->.
  { unfold recordOutcome. rw Hu. destruct (Z.leb_spec (t + COMPACTION_CIRCUIT_COOLDOWN_MS) t');
      [lia|by rw andb_false_r]. }
  specialize (IH (set_breaker (consecutiveCompactionFailures st1 + 1)
       (Some (t + COMPACTION_CIRCUIT_COOLDOWN_MS)) st1) eq_refl).
  by destruct (run _ _).
Qed.

Lemma cooldown_is_quiet_witness :
  let st := (run [(0, true); (1, true)] (newCompactionCircuit "c")).1 in
  (recordOutcome true 2 2 st).2 ≠ [] ∧
  (run [(3, true); (3599999, true)] (recordOutcome true 2 2 st).1).2 = [].
Proof.
  split; [by vm_compute|].
  apply (cooldown_is_quiet (run [(0, true); (1, true)] (newCompactionCircuit "c")).1
    2 [3; 3599999]); [by vm_compute|]. repeat constructor.
Defined.

(** After the cooldown the breaker is one failure away from opening
    again, not three: elapsing does not reset the counter, so on every circuit
    whose deadline has passed a single failure re-opens it. *)
Theorem one_failure_reopens (os : list outcome) (u now : Z) :
  let st := (run os (newCompactionCircuit "c")).1 in
  compactionCircuitOpenUntil st = Some u →
  u ≤ now →
  recordOutcome true now now st =
    (set_breaker (consecutiveCompactionFailures st + 1)
       (Some (now + COMPACTION_CIRCUIT_COOLDOWN_MS)) st,
     [compaction_circuit_open (conversationId st) "3_consecutive_failures"
        (now + COMPACTION_CIRCUIT_COOLDOWN_MS)]).
Proof.
  intros st Hu Hle. pose proof (reachable_deadline os) as Hr. fold st in Hr.
  rw Hu in Hr. specialize (Hr ltac:(done)).
  unfold recordOutcome, COMPACTION_CIRCUIT_FAILURE_THRESHOLD. rw Hu.
  destruct (Z.leb_spec 3 (consecutiveCompactionFailures st + 1)); [|lia].
  by destruct (Z.leb_spec u now); [|lia].
Qed.

Lemma one_failure_reopens_witness :
  let st := (run [(0, true); (1, true); (2, true)] (newCompactionCircuit "c")).1 in
  (recordOutcome true 3600002 3600002 st).2 =
    [compaction_circuit_open "c" "3_consecutive_failures" 7200002].
Proof.
  intros st. unfold st.
  rw (one_failure_reopens [(0, true); (1, true); (2, true)] 3600002 3600002);
    [by vm_compute|by vm_compute|lia].
Defined.
