(* ===== verification/QdrantBreaker.v ===== *)
(** * Vector-store circuit breaker

    [assistant/src/persistence/embeddings/qdrant-circuit-breaker.ts]: five
    consecutive failures open the circuit; after half a minute one probe is
    allowed through.  Calls are asynchronous, so a call is two steps — its
    admission and its completion — that interleave with those of others. *)

From S2P Require Import Prelude.
Local Open Scope Z_scope.

Definition FAILURE_THRESHOLD : Z := 5.
Definition COOLDOWN_MS : Z := 30000.

Inductive BreakerState := closed | opened | half_open.
#[export] Instance BreakerState_eq : EqDecision BreakerState.
Proof. solve_decision. Defined.

Record breaker := Breaker {
  breakerState : BreakerState;
  consecutiveFailures : Z;
  openedAt : Z;
  halfOpenProbeInFlight : bool;
}.

Definition initial : breaker := Breaker closed 0 0 false.

Definition allows (now : Z) (b : breaker) : breaker * bool :=
  match breakerState b with
  | closed => (b, true)
  | opened =>
      if COOLDOWN_MS <=? now - openedAt b
      then (Breaker half_open (consecutiveFailures b) (openedAt b) true, true)
      else (b, false)
  | half_open =>
      if halfOpenProbeInFlight b then (b, false)
      else (Breaker half_open (consecutiveFailures b) (openedAt b) true, true)
  end.

Definition recordSuccess (b : breaker) : breaker := Breaker closed 0 0 false.

Definition recordFailure (now : Z) (b : breaker) : breaker :=
  let fails := consecutiveFailures b + 1 in
  if FAILURE_THRESHOLD <=? fails then Breaker opened fails now false
  else match breakerState b with
       | half_open => Breaker opened fails now false
       | s => Breaker s fails (openedAt b) false
       end.

Inductive call_result (T E : Type) := Returned (r : T) | CircuitOpen | Threw (e : E).
Arguments Returned {_ _} _. Arguments CircuitOpen {_ _}. Arguments Threw {_ _} _.

(** [withQdrantBreaker(fn)] run without interleaving: [fn] is the operation's
    outcome, [t_end] the clock when it settles. *)
Definition withQdrantBreaker {T E} (fn : unit → T + E) (now t_end : Z) (b : breaker)
    : breaker * call_result T E :=
  match allows now b with
  | (b, false) => (b, CircuitOpen)
  | (b, true) =>
      match fn tt with
      | inl r => (recordSuccess b, Returned r)
      | inr e => (recordFailure t_end b, Threw e)
      end
  end.

Definition isQdrantBreakerOpen (b : breaker) : bool :=
  bool_decide (breakerState b ≠ closed).

Definition shouldAllowQdrantProbe (now : Z) (b : breaker) : bool :=
  bool_decide (breakerState b = opened) && (COOLDOWN_MS <=? now - openedAt b).

(** ** Interleaved calls

    [flying] counts the admitted calls that have not settled yet. *)
Record world := World { now : Z; breaker_of : breaker; flying : nat }.

Inductive event := Admitted_call | Rejected_call | Succeeded | Failed_call | Waited.
#[export] Instance event_eq : EqDecision event.
Proof. solve_decision. Defined.

Inductive step : world → event → world → Prop :=
| step_wait t b n t' : t ≤ t' → step (World t b n) Waited (World t' b n)
| step_start t b n b' : allows t b = (b', true) →
    step (World t b n) Admitted_call (World t b' (S n))
| step_reject t b n b' : allows t b = (b', false) →
    step (World t b n) Rejected_call (World t b' n)
| step_success t b n : step (World t b (S n)) Succeeded (World t (recordSuccess b) n)
| step_failure t b n : step (World t b (S n)) Failed_call (World t (recordFailure t b) n).

Inductive trace : world → list event → world → Prop :=
| trace_nil w : trace w [] w
| trace_cons w1 e w2 es w3 : step w1 e w2 → trace w2 es w3 → trace w1 (e :: es) w3.

(** What every reachable breaker satisfies. *)
Record inv (w : world) : Prop := {
  inv_fails : 0 ≤ consecutiveFailures (breaker_of w);
  inv_closed : breakerState (breaker_of w) = closed →
    consecutiveFailures (breaker_of w) < FAILURE_THRESHOLD ∧
    halfOpenProbeInFlight (breaker_of w) = false;
  inv_open : breakerState (breaker_of w) = opened →
    openedAt (breaker_of w) ≤ now w ∧ halfOpenProbeInFlight (breaker_of w) = false;
  inv_half : breakerState (breaker_of w) = half_open →
    halfOpenProbeInFlight (breaker_of w) = true;
}.

Lemma inv_initial t : inv (World t initial 0).
Proof. by split; simpl; try done; intros _; vm_compute. Qed.

Lemma inv_step w e w' : inv w → step w e w' → inv w'.
Proof.
  intros [Hf Hc Ho Hh] Hstep. destruct Hstep as [t b n t'|t b n b' Ha|t b n b' Ha|t b n|t b n]; simpl in *.
  - split; simpl; try done. intros ?%Ho. split; [lia|tauto].
  - unfold allows in Ha. destruct b as [s f o p]; simpl in *.
    destruct s; [| case_match |case_match]; simplify_eq; by split.
  - unfold allows in Ha. destruct b as [s f o p]; simpl in *.
    destruct s; [| case_match |case_match]; simplify_eq; by split.
  - by split.
  - unfold recordFailure. destruct b as [s f o p]; simpl in *. unfold FAILURE_THRESHOLD in *.
    case_match; zify_bools; [split; simpl; try done; lia|].
    destruct s; split; simpl; try done; try lia. intros _. split; [|done]. by apply Ho.
Qed.

Lemma inv_trace w es w' : trace w es w' → inv w → inv w'.
Proof. induction 1; [done|]. eauto using inv_step. Qed.

Lemma step_time w e w' : step w e w' → now w ≤ now w'.
Proof. destruct 1; simpl; lia. Qed.

Lemma trace_time w es w' : trace w es w' → now w ≤ now w'.
Proof. induction 1 as [|w1 e w2 es w3 Hs _ IH]; [lia|]. apply step_time in Hs. lia. Qed.

Lemma half_open_rejects t b b' ok :
  breakerState b = half_open → halfOpenProbeInFlight b = true →
  allows t b = (b', ok) → b' = b ∧ ok = false.
Proof. unfold allows. intros -> ->. by intros [= <- <-]. Qed.

(** While a probe is out and nothing settles, everything is rejected. *)
Lemma half_open_quiet w es w' :
  trace w es w' →
  breakerState (breaker_of w) = half_open → halfOpenProbeInFlight (breaker_of w) = true →
  Succeeded ∉ es → Failed_call ∉ es → Admitted_call ∉ es.
Proof.
  induction 1 as [w|w1 e w2 es w3 Hs _ IH]; intros Hh Hp; [set_solver|].
  rw !not_elem_of_cons. intros [Hs1 Hs2] [Hf1 Hf2].
  destruct Hs as [| t b n b' Ha|t b n b' Ha| |]; simpl in *; try done.
  - split; [done|by apply IH].
  - by destruct (half_open_rejects _ _ _ _ Hh Hp Ha).
  - destruct (half_open_rejects _ _ _ _ Hh Hp Ha) as [-> _]. split; [done|by apply IH].
Qed.

(** One probe at a time: from any reachable world whose circuit is not
    closed, as long as no outstanding call settles, at most one of any number
    of concurrent calls is let through. *)
Theorem at_most_one_probe (w0 w w' : world) (es0 es : list event) :
  inv w0 → trace w0 es0 w → trace w es w' →
  breakerState (breaker_of w) ≠ closed →
  Succeeded ∉ es → Failed_call ∉ es →
  (length (filter (λ e, e = Admitted_call) es) ≤ 1)%nat.
Proof.
  intros Hinv0 Htr0 Htr. apply (inv_trace _ _ _ Htr0) in Hinv0 as Hinv. clear Htr0 Hinv0.
  induction Htr as [w|w1 e w2 es w3 Hs Htr IH]; intros Hnc; [simpl; lia|].
  rw !not_elem_of_cons. intros [Hs1 Hs2] [Hf1 Hf2].
  pose proof (inv_step _ _ _ Hinv Hs) as Hinv2.
  destruct Hs as [t b n t'|t b n b' Ha|t b n b' Ha| |]; cbn [breaker_of now flying] in *; try done.
  - rw filter_cons_False //. by apply IH.
  - rw filter_cons_True //.
    assert (breakerState b' = half_open) as Hh.
    { unfold allows in Ha. destruct (breakerState b); [done|..];
        case_match; by simplify_eq. }
    pose proof (half_open_quiet _ _ _ Htr Hh (inv_half _ Hinv2 Hh) Hs2 Hf2) as Hq.
    rw filter_none; [simpl; lia|]. apply Forall_forall. by intros x Hx ->.
  - rw filter_cons_False //. apply IH; try done. unfold allows in Ha.
    destruct (breakerState b) eqn:Hst; [done|..]; case_match; simplify_eq; congruence.
Qed.

Definition tripped : breaker := Breaker opened 5 0 false.

Lemma at_most_one_probe_witness :
  let w := World 30000 tripped 0 in
  trace w [Admitted_call; Rejected_call; Rejected_call]
    (World 30000 (Breaker half_open 5 0 true) 1) ∧
  (length (filter (λ e, e = Admitted_call) [Admitted_call; Rejected_call; Rejected_call]) ≤ 1)%nat.
Proof.
  assert (trace (World 30000 tripped 0) [Admitted_call; Rejected_call; Rejected_call]
    (World 30000 (Breaker half_open 5 0 true) 1)) as Htr.
  { eapply trace_cons; [by apply step_start|]. eapply trace_cons; [by apply step_reject|].
    eapply trace_cons; [by apply step_reject|]. apply trace_nil. }
  split; [done|].
  apply (at_most_one_probe (World 30000 tripped 0) (World 30000 tripped 0)
    (World 30000 (Breaker half_open 5 0 true) 1) []).
  - by split; simpl; try done; intros _; split.
  - apply trace_nil.
  - done.
  - done.
  - by rw !not_elem_of_cons; repeat split; try apply not_elem_of_nil.
  - by rw !not_elem_of_cons; repeat split; try apply not_elem_of_nil.
Defined.

(** Fail-fast: once open, the circuit lets nothing through for the whole
    cooldown, whatever calls still in flight report as failures meanwhile (a
    late failure only pushes the deadline back); only a late success re-opens
    the way. *)
Theorem open_circuit_fails_fast (w0 w w' : world) (es0 es : list event) :
  inv w0 → trace w0 es0 w → trace w es w' →
  breakerState (breaker_of w) = opened →
  Succeeded ∉ es →
  now w' - openedAt (breaker_of w) < COOLDOWN_MS →
  (Admitted_call ∉ es) ∧ breakerState (breaker_of w') = opened.
Proof.
  intros Hinv0 Htr0 Htr. apply (inv_trace _ _ _ Htr0) in Hinv0 as Hinv. clear Htr0 Hinv0.
  induction Htr as [w|w1 e w2 es w3 Hs Htr IH]; intros Hop; [set_solver|].
  rw !not_elem_of_cons. intros [Hs1 Hs2] Hlt.
  pose proof (inv_step _ _ _ Hinv Hs) as Hinv2. specialize (IH Hinv2).
  pose proof (trace_time _ _ _ Htr) as Htime.
  destruct Hs as [t b n t' Ht|t b n b' Ha|t b n b' Ha| |t b n]; simpl in *; try done.
  - destruct IH; auto.
  - unfold allows in Ha. rw Hop in Ha. case_match; simplify_eq. zify_bools. lia.
  - unfold allows in Ha. rw Hop in Ha. case_match; simplify_eq.
    destruct IH as [??]; try done; lia.
  - destruct (inv_open _ Hinv Hop) as [Hle _]; simpl in *.
    assert (recordFailure t b = Breaker opened (consecutiveFailures b + 1)
      (if FAILURE_THRESHOLD <=? consecutiveFailures b + 1 then t else openedAt b) false) as Hb.
    { unfold recordFailure. rw Hop. by case_match. }
    rw Hb in IH |- *. destruct IH as [??]; simpl; try done. case_match; lia.
Qed.

Lemma open_circuit_fails_fast_witness :
  (Admitted_call ∉ [Waited; Rejected_call; Failed_call]) ∧
  breakerState (recordFailure 29999 tripped) = opened.
Proof.
  apply (open_circuit_fails_fast (World 0 tripped 1) (World 0 tripped 1)
    (World 29999 (recordFailure 29999 tripped) 0) [] [Waited; Rejected_call; Failed_call]).
  - by split; simpl; try done; intros _; split.
  - apply trace_nil.
  - eapply trace_cons; [by apply (step_wait _ _ _ 29999)|].
    eapply trace_cons; [by apply step_reject|].
    eapply trace_cons; [apply step_failure|]. apply trace_nil.
  - done.
  - by rw !not_elem_of_cons; repeat split; try apply not_elem_of_nil.
  - by vm_compute.
Defined.

(** The breaker's flags never disagree: in every world reachable from
    the initial one, the circuit is half-open exactly when a probe is in
    flight and a closed circuit is below the failure threshold.  In
    particular the branch of [allows] that would start a probe from an idle
    half-open state is never taken, and the fifth consecutive failure opens a
    closed circuit. *)
Theorem breaker_flags_agree (t0 : Z) (es : list event) (w : world) :
  trace (World t0 initial 0) es w →
  (breakerState (breaker_of w) = half_open ↔ halfOpenProbeInFlight (breaker_of w) = true) ∧
  (breakerState (breaker_of w) = closed →
   (breakerState (recordFailure (now w) (breaker_of w)) = opened ↔
    consecutiveFailures (breaker_of w) = FAILURE_THRESHOLD - 1)).
Proof.
  intros Htr. destruct (inv_trace _ _ _ Htr (inv_initial t0)) as [Hf Hc Ho Hh].
  split.
  - split; [by apply Hh|]. intros Hp. destruct (breakerState (breaker_of w)); [..|done].
    + destruct (Hc eq_refl). congruence.
    + destruct (Ho eq_refl). congruence.
  - intros Hst. destruct (Hc Hst) as [Hlt _]. unfold recordFailure. rw Hst.
    unfold FAILURE_THRESHOLD in *. case_match; zify_bools; simpl; split; try done; lia.
Qed.

Lemma breaker_flags_agree_witness :
  trace (World 0 initial 0) [Admitted_call; Failed_call]
    (World 0 (Breaker closed 1 0 false) 0) ∧
  (closed = half_open ↔ false = true).
Proof.
  assert (trace (World 0 initial 0) [Admitted_call; Failed_call]
    (World 0 (Breaker closed 1 0 false) 0)) as Htr.
  { eapply trace_cons; [by apply step_start|].
    eapply trace_cons; [apply step_failure|]. apply trace_nil. }
  split; [done|]. apply (breaker_flags_agree 0 _ _ Htr).
Defined.
