(* ===== verification/BillingBreaker.v ===== *)
(** * Embedding billing breaker

    [assistant/src/persistence/embeddings/embedding-billing-breaker.ts]: one
    402 response pauses embedding for five minutes, after which a call is let
    through as a probe. *)

From S2P Require Import Prelude.
Local Open Scope Z_scope.

Definition COOLDOWN_MS : Z := 5 * 60 * 1000.

Inductive BreakerState := closed | opened.

Record billing := Billing { breakerState : BreakerState; openedAt : Z }.

Definition initial : billing := Billing closed 0.

Definition recordBillingBlock (now : Z) (b : billing) : billing := Billing opened now.

Definition recordBillingSuccess (now : Z) (b : billing) : billing :=
  match breakerState b with
  | closed => b
  | opened => if now - openedAt b <? COOLDOWN_MS then b else Billing closed 0
  end.

Definition isEmbeddingBillingBreakerOpen (now : Z) (b : billing) : bool :=
  match breakerState b with
  | closed => false
  | opened => negb (COOLDOWN_MS <=? now - openedAt b)
  end.

Definition shouldAllowBillingProbe (now : Z) (b : billing) : bool :=
  match breakerState b with
  | closed => false
  | opened => COOLDOWN_MS <=? now - openedAt b
  end.

(** ** Status extraction

    What [extractHttpStatus] looks at in an unknown value. *)
Record error_value := {
  is_object : bool;
  status_field : option (option Z);   (** absent / not a number / a number *)
  error_message : option string;      (** for [instanceof Error] *)
}.

Definition digit (a : ascii) : option Z :=
  let n := Z.of_nat (nat_of_ascii a) in
  if (48 <=? n) && (n <=? 57) then Some (n - 48) else None.

(** The regular expression [/\((\d{3})\)/], leftmost match, as a number. *)
Fixpoint paren_status (s : string) : option Z :=
  match s with
  | String p rest =>
      match rest with
      | String a (String b (String c (String q _))) =>
          match (if decide (p = "("%char ∧ q = ")"%char)
                 then Some (digit a, digit b, digit c) else None) with
          | Some (Some x, Some y, Some z) => Some (100 * x + 10 * y + z)
          | _ => paren_status rest
          end
      | _ => None
      end
  | EmptyString => None
  end.

Definition extractHttpStatus (err : error_value) : option Z :=
  if negb (is_object err) then None
  else match status_field err with
       | Some (Some s) => Some s
       | _ => match error_message err with
              | Some msg => paren_status msg
              | None => None
              end
       end.

(** ** Correctness *)

Inductive billing_event := Block (now : Z) | Success (now : Z).

Definition event_time (e : billing_event) : Z :=
  match e with Block t | Success t => t end.

Definition apply_event (b : billing) (e : billing_event) : billing :=
  match e with
  | Block t => recordBillingBlock t b
  | Success t => recordBillingSuccess t b
  end.

Lemma quiet_success t b e :
  breakerState b = opened → openedAt b = t →
  match e with Success t' => t' < t + COOLDOWN_MS | Block _ => False end →
  apply_event b e = b.
Proof.
  destruct e as [t'|t']; [done|]. simpl. intros Hop <- Ht.
  unfold recordBillingSuccess. rw Hop.
  by destruct (Z.ltb_spec (t' - openedAt b) COOLDOWN_MS); [|lia].
Qed.

(** A late in-flight success cannot re-open embedding: after a billing
    block at [t], whatever successes are reported before the cooldown ends,
    embedding stays paused up to it and a probe is allowed from then on —
    never both. *)
Theorem block_holds_through_stale_successes (b : billing) (t now : Z)
    (successes : list Z) :
  Forall (λ t', t' < t + COOLDOWN_MS) successes →
  let b' := foldl apply_event (recordBillingBlock t b) (Success <$> successes) in
  isEmbeddingBillingBreakerOpen now b' = bool_decide (now < t + COOLDOWN_MS) ∧
  shouldAllowBillingProbe now b' = bool_decide (t + COOLDOWN_MS ≤ now).
Proof.
  intros Hs b'.
  assert (b' = Billing opened t) as ->.
  { unfold b', recordBillingBlock. clear b'. induction Hs as [|t' ts Ht _ IH]; simpl; [done|].
    pose proof (quiet_success t (Billing opened t) (Success t') eq_refl eq_refl Ht) as Hq.
    simpl in Hq. by rw Hq. }
  unfold isEmbeddingBillingBreakerOpen, shouldAllowBillingProbe; simpl.
  destruct (Z.leb_spec COOLDOWN_MS (now - t)); repeat case_bool_decide; simpl; try done; lia.
Qed.

Lemma block_holds_through_stale_successes_witness :
  isEmbeddingBillingBreakerOpen 300000
    (foldl apply_event (recordBillingBlock 1 initial) (Success <$> [5; 299999])) = true.
Proof.
  etrans.
  - apply (block_holds_through_stale_successes initial 1 300000 [5; 299999]).
    repeat constructor.
  - by vm_compute.
Defined.
