(* ===== verification/FallbackBreaker.v ===== *)
(** * Fallback-route breaker

    [assistant/src/providers/fallback-breaker.ts]: remembers which primary
    routes are down, keyed by upstream or by upstream and model, and decides
    which single request probes for recovery.  The module-level [breakers] map
    and generation counter are the state; [Math.random()] is the integer draw
    [k] of [k / 2^53], and the jittered cooldown is computed exactly. *)

From S2P Require Import Prelude JsMap.
Local Open Scope Z_scope.
Local Open Scope litt_scope.

Definition FAILURE_WINDOW_MS : Z := 5 * 60000.
Definition FAILURES_TO_TRIP : nat := 2.
Definition BASE_COOLDOWN_MS : Z := 120000.
Definition MAX_COOLDOWN_MS : Z := 10 * 60000.

Record BreakerRoute := Route { upstream : string; model : option string }.

Record BreakerObservation := Observation { obs_key : string; obs_generation : Z }.

Record BreakerState := State {
  failures : list Z;
  openUntil : option Z;
  failedProbes : Z;
  probeInFlight : bool;
  generation : Z;
}.

(** The module's variables. *)
Record module_state := Mod {
  breakers : jsmap string BreakerState;
  nextGeneration : Z;
}.

Definition initial : module_state := Mod ∅ 0.

Definition keyOf (route : BreakerRoute) : string :=
  match model route with
  | None => upstream route
  | Some m => upstream route +:+ " " +:+ m
  end.

Definition coveringKeys (route : BreakerRoute) : list string :=
  match model route with
  | None => [upstream route]
  | Some _ => [upstream route; keyOf route]
  end.

(** The entry the code then mutates in place: writing it back at its key. *)
Definition put (key : string) (st : BreakerState) (s : module_state) : module_state :=
  Mod (<[key := st]> (breakers s)) (nextGeneration s).

Definition stateFor (key : string) (s : module_state) : module_state * BreakerState :=
  match breakers s !! key with
  | Some existing => (s, existing)
  | None =>
      let created := State [] None 0 false (nextGeneration s + 1) in
      (Mod (<[key := created]> (breakers s)) (nextGeneration s + 1), created)
  end.

(** [Math.random() = k / draws] *)
Definition draws : Z := 2 ^ 53.

(** [Math.round(base * (1 + (2 * k / draws - 1) / 5))]: rounding adds a half
    and truncates down. *)
Definition cooldownMs (k probes : Z) : Z :=
  let base := Z.min (BASE_COOLDOWN_MS * 2 ^ probes) MAX_COOLDOWN_MS in
  let num := base * (4 * draws + 2 * k) in
  let den := 5 * draws in
  Z.min ((2 * num + den) / (2 * den)) MAX_COOLDOWN_MS.

Definition trip (k : Z) (st : BreakerState) (now : Z) : BreakerState :=
  State [] (Some (now + cooldownMs k (failedProbes st)))
    (failedProbes st) (probeInFlight st) (generation st).

Definition isOpen (st : option BreakerState) : bool :=
  match st with
  | Some st => bool_decide (openUntil st ≠ None)
  | None => false
  end.

Definition openCovering (route : BreakerRoute) (s : module_state)
    : list (string * BreakerState) :=
  omap (λ key, if isOpen (breakers s !! key) then pair key <$> breakers s !! key else None)
    (coveringKeys route).

(** [now < state.openUntil || state.probeInFlight] on an open entry. *)
Definition diverts (now : Z) (st : BreakerState) : bool :=
  probeInFlight st ||
  match openUntil st with Some u => now <? u | None => false end.

Definition recordPrimaryFailure (k : Z) (route : BreakerRoute) (now : Z) (s : module_state)
    : module_state * BreakerObservation :=
  let key := keyOf route in
  let '(s, st) := stateFor key s in
  if isOpen (Some st) then (s, Observation key (generation st))
  else
    let fs := filter (λ at_, now - at_ < FAILURE_WINDOW_MS) (failures st) ++ [now] in
    let st' := State fs (openUntil st) (failedProbes st) (probeInFlight st) (generation st) in
    let st' := if bool_decide (FAILURES_TO_TRIP ≤ length fs)%nat then trip k st' now else st' in
    (put key st' s, Observation key (generation st)).

(** Whether an observation still names the current entry. *)
Definition current (key : string) (o : BreakerObservation) (st : option BreakerState) : bool :=
  match st with
  | None => false
  | Some st => bool_decide (obs_key o = key) && (obs_generation o =? generation st)
  end.

Definition recordFallbackServed (k : Z) (route : BreakerRoute) (now : Z)
    (observation : option BreakerObservation) (s : module_state) : module_state :=
  let key := keyOf route in
  let '(s, st) :=
    match observation with
    | None => let '(s', st) := stateFor key s in (s', Some st)
    | Some _ => (s, breakers s !! key)
    end in
  let stale := match observation with Some o => negb (current key o st) | None => false end in
  if stale then s
  else match st with
       | None => s
       | Some st => if isOpen (Some st) then s else put key (trip k st now) s
       end.

(** [for (const key of keys) { ...; breakers.delete(key); }] *)
Definition forget (key : string) (s : module_state) : module_state :=
  Mod (delete key (breakers s)) (nextGeneration s).

Definition recordPrimarySuccess (route : BreakerRoute) (s : module_state) : module_state :=
  foldl (λ s key, match breakers s !! key with None => s | Some _ => forget key s end)
    s (coveringKeys route).

Definition shouldSkipPrimary (route : BreakerRoute) (now : Z) (s : module_state) : bool :=
  existsb (λ e, diverts now e.2) (openCovering route s).

Definition with_probe (b : bool) (st : BreakerState) : BreakerState :=
  State (failures st) (openUntil st) (failedProbes st) b (generation st).

Definition tryAcquireRecoveryProbe (route : BreakerRoute) (now : Z) (s : module_state)
    : module_state * bool :=
  let open := openCovering route s in
  match open with
  | [] => (s, false)
  | _ =>
      if existsb (λ e, diverts now e.2) open then (s, false)
      else (foldl (λ s e, put e.1 (with_probe true e.2) s) s open, true)
  end.

Inductive ProbeOutcome :=
| recovered
| failing (failedRoute : option BreakerRoute)
| abandoned.

Definition hand_back (s : module_state) (key : string) : module_state :=
  match breakers s !! key with
  | Some st => if probeInFlight st then put key (with_probe false st) s else s
  | None => s
  end.

(** One turn of the verdict loop: the entry closes and the highest count of
    failed probes is carried along. *)
Definition conclude (acc : module_state * Z) (key : string) : module_state * Z :=
  let '(s, escalation) := acc in
  match breakers s !! key with
  | Some st =>
      if probeInFlight st then (forget key s, Z.max escalation (failedProbes st)) else (s, escalation)
  | None => (s, escalation)
  end.

Definition releaseRecoveryProbe (k : Z) (route : BreakerRoute) (outcome : ProbeOutcome)
    (now : Z) (s : module_state) : module_state :=
  match outcome with
  | abandoned => foldl hand_back s (coveringKeys route)
  | _ =>
      let '(s, escalation) := foldl conclude (s, 0) (coveringKeys route) in
      match (match outcome with failing r => r | _ => None end) with
      | None => s
      | Some r =>
          let key := keyOf r in
          let '(s, st) := stateFor key s in
          let st := State (failures st) (openUntil st)
            (Z.max (failedProbes st) escalation + 1) (probeInFlight st) (generation st) in
          put key (trip k st now) s
      end
  end.

Definition resetFallbackBreaker (s : module_state) : module_state := Mod ∅ (nextGeneration s).

(** ** Histories *)

Inductive event :=
| Failed_primary (k : Z) (route : BreakerRoute) (now : Z)
| Served (k : Z) (route : BreakerRoute) (now : Z) (o : option BreakerObservation)
| Succeeded (route : BreakerRoute)
| Acquire (route : BreakerRoute) (now : Z)
| Release (k : Z) (route : BreakerRoute) (outcome : ProbeOutcome) (now : Z).

Definition apply (s : module_state) (e : event) : module_state :=
  match e with
  | Failed_primary k r now => (recordPrimaryFailure k r now s).1
  | Served k r now o => recordFallbackServed k r now o s
  | Succeeded r => recordPrimarySuccess r s
  | Acquire r now => (tryAcquireRecoveryProbe r now s).1
  | Release k r o now => releaseRecoveryProbe k r o now s
  end.

Definition run (es : list event) (s : module_state) : module_state := foldl apply s es.

(** The events that pass judgement on an entry: a primary success, a probe
    verdict reached by the route, or a failing verdict naming the entry. *)
Definition judges (key : string) (e : event) : Prop :=
  match e with
  | Succeeded r => key ∈ coveringKeys r
  | Release _ r recovered _ => key ∈ coveringKeys r
  | Release _ r (failing f) _ => key ∈ coveringKeys r ∨ keyOf <$> f = Some key
  | _ => False
  end.

(** The events that hand a probe of the entry back without a verdict. *)
Definition abandons (key : string) (e : event) : Prop :=
  match e with
  | Release _ r abandoned _ => key ∈ coveringKeys r
  | _ => False
  end.

(** [st'] is [st], up to the claim on its probe. *)
Definition held (keep_claim : bool) (st st' : BreakerState) : Prop :=
  openUntil st' = openUntil st ∧ failedProbes st' = failedProbes st ∧
  generation st' = generation st ∧
  (keep_claim = true → probeInFlight st = true → probeInFlight st' = true).

Section lemmas.
Implicit Types (key : string) (s : module_state) (st : BreakerState) (now k : Z).

Lemma held_refl b st : held b st st.
Proof. by repeat split. Qed.

Lemma held_trans b st1 st2 st3 : held b st1 st2 → held b st2 st3 → held b st1 st3.
Proof. unfold held. intuition congruence. Qed.

Lemma put_lookup key key' st s :
  breakers (put key st s) !! key' = if decide (key = key') then Some st else breakers s !! key'.
Proof. apply lookup_insert. Qed.

Lemma forget_lookup key key' s :
  breakers (forget key s) !! key' = if decide (key = key') then None else breakers s !! key'.
Proof. apply lookup_delete. Qed.

Lemma stateFor_other key key' s :
  key ≠ key' → breakers (stateFor key s).1 !! key' = breakers s !! key'.
Proof. intros. unfold stateFor. case_match; [done|]. by apply lookup_insert_ne. Qed.

Lemma stateFor_entry key s :
  breakers (stateFor key s).1 !! key = Some (stateFor key s).2.
Proof. unfold stateFor. case_match; [done|]. apply lookup_insert_eq. Qed.

Lemma stateFor_Some key s st : breakers s !! key = Some st → stateFor key s = (s, st).
Proof. unfold stateFor. by intros ->. Qed.

Lemma isOpen_Some st u : openUntil st = Some u → isOpen (Some st) = true.
Proof. simpl. intros ->. by apply bool_decide_eq_true. Qed.

Lemma covering_open_key route s key st :
  key ∈ coveringKeys route → breakers s !! key = Some st → isOpen (Some st) = true →
  (key, st) ∈ openCovering route s.
Proof.
  intros Hk Hl Ho. unfold openCovering. apply list_elem_of_omap. exists key.
  split; [done|]. by rw Hl Ho.
Qed.

Lemma elem_of_openCovering route s key st :
  (key, st) ∈ openCovering route s →
  key ∈ coveringKeys route ∧ breakers s !! key = Some st ∧ is_Some (openUntil st).
Proof.
  unfold openCovering. intros (key' & Hk & Ho)%list_elem_of_omap.
  destruct (breakers s !! key') as [st'|] eqn:Hl; [|done]. simpl in Ho.
  case_bool_decide as Hu; [|done]. simplify_eq. split_and!; [done..|].
  by apply not_eq_None_Some.
Qed.

(** A diverting entry diverts every route it covers, and denies it the probe. *)
Lemma diverted route s key st now :
  key ∈ coveringKeys route → breakers s !! key = Some st → is_Some (openUntil st) →
  diverts now st = true →
  shouldSkipPrimary route now s = true ∧ tryAcquireRecoveryProbe route now s = (s, false).
Proof.
  intros Hk Hl [u Hu] Hd.
  pose proof (covering_open_key _ _ _ _ Hk Hl (isOpen_Some _ _ Hu)) as Hin.
  assert (existsb (λ e, diverts now e.2) (openCovering route s) = true) as He
    by (apply existsb_elem; eexists; split; [exact Hin|exact Hd]).
  split; [done|]. unfold tryAcquireRecoveryProbe. rw He.
  by destruct (openCovering route s).
Qed.
End lemmas.

(** ** What an event leaves alone *)
Section frames.
Implicit Types (key : string) (s : module_state) (st : BreakerState) (now k : Z).

Lemma failure_other k route now s key :
  key ≠ keyOf route →
  breakers (recordPrimaryFailure k route now s).1 !! key = breakers s !! key.
Proof.
  intros Hk. unfold recordPrimaryFailure. pose proof (stateFor_other (keyOf route) key s) as Hs.
  destruct (stateFor (keyOf route) s) as [s' st]. cbn [fst] in Hs.
  destruct (isOpen (Some st)); cbn [fst]; [apply Hs; congruence|].
  rw put_lookup decide_False; [apply Hs; congruence|congruence].
Qed.

Lemma served_other k route now o s key :
  key ≠ keyOf route →
  breakers (recordFallbackServed k route now o s) !! key = breakers s !! key.
Proof.
  intros Hk. unfold recordFallbackServed. destruct o as [o|].
  - case_match; [done|]. case_match; [|done]. case_match; [done|].
    rw put_lookup decide_False //; congruence.
  - pose proof (stateFor_other (keyOf route) key s) as Hs.
    destruct (stateFor (keyOf route) s) as [s' st]. cbn [fst] in Hs. case_match; [apply Hs; congruence|].
    rw put_lookup decide_False; [apply Hs; congruence|congruence].
Qed.

Lemma failure_open k route now s st :
  breakers s !! keyOf route = Some st → isOpen (Some st) = true →
  (recordPrimaryFailure k route now s).1 = s.
Proof.
  intros Hl Ho. unfold recordPrimaryFailure. rw (stateFor_Some _ _ _ Hl). by rw Ho.
Qed.

Lemma served_open k route now o s st :
  breakers s !! keyOf route = Some st → isOpen (Some st) = true →
  recordFallbackServed k route now o s = s.
Proof.
  intros Hl Ho. unfold recordFallbackServed. destruct o as [o|].
  - rw Hl. case_match; [done|]. by rw Ho.
  - rw (stateFor_Some _ _ _ Hl). by rw Ho.
Qed.

Lemma string_app_not_nil (u : string) t : u +:+ String " " t ≠ u.
Proof.
  induction u as [|a u IH]; simpl; [done|]. intros [= He]. by apply IH.
Qed.

Lemma coveringKeys_NoDup route : NoDup (coveringKeys route).
Proof.
  unfold coveringKeys, keyOf. destruct (model route) as [m|]; [|apply NoDup_singleton].
  apply NoDup_cons; split; [|apply NoDup_singleton].
  intros He%list_elem_of_singleton. by destruct (string_app_not_nil (upstream route) m).
Qed.

Lemma openCovering_NoDup route s : NoDup (openCovering route s).*1.
Proof.
  unfold openCovering. pose proof (coveringKeys_NoDup route) as Hnd.
  induction Hnd as [|key l Hnin Hnd IH]; simpl; [constructor|].
  case_match eqn:Ho; [|done]. simpl. destruct (breakers s !! key) eqn:Hl; [|done].
  simpl in *. case_match; simplify_eq/=. apply NoDup_cons; split; [|done].
  intros ([k' st'] & -> & Hin)%list_elem_of_fmap. apply Hnin.
  apply list_elem_of_omap in Hin as (k2 & Hk2 & He). simpl.
  destruct (isOpen _); [|done]. destruct (breakers s !! k2); by simplify_eq/=.
Qed.

Definition raise (s : module_state) (l : list (string * BreakerState)) : module_state :=
  foldl (λ s e, put e.1 (with_probe true e.2) s) s l.

Lemma raise_other l : ∀ s key, key ∉ l.*1 → breakers (raise s l) !! key = breakers s !! key.
Proof.
  induction l as [|[k1 st1] l IH]; intros s key; simpl; [done|].
  rw not_elem_of_cons. intros [Hne Hnin]. rw IH // put_lookup decide_False //; congruence.
Qed.

Lemma raise_in l : ∀ s key st,
  NoDup l.*1 → (key, st) ∈ l → breakers (raise s l) !! key = Some (with_probe true st).
Proof.
  induction l as [|[k1 st1] l IH]; intros s key st; simpl; [set_solver|].
  rw NoDup_cons elem_of_cons. intros [Hnin Hnd] [[= -> ->]|Hin]; [|by apply IH].
  rw raise_other // put_lookup decide_True //.
Qed.

Lemma acquire_spec route now s :
  tryAcquireRecoveryProbe route now s =
  if bool_decide (openCovering route s = []) || existsb (λ e, diverts now e.2) (openCovering route s)
  then (s, false) else (raise s (openCovering route s), true).
Proof. unfold tryAcquireRecoveryProbe. by destruct (openCovering route s). Qed.

Lemma acquire_lookup route now s key st :
  breakers s !! key = Some st →
  ∃ st', breakers (tryAcquireRecoveryProbe route now s).1 !! key = Some st' ∧ held true st st'.
Proof.
  intros Hl. rw acquire_spec. case_match; simpl; [exists st; split; [done|apply held_refl]|].
  destruct (decide (key ∈ (openCovering route s).*1)) as [Hin|Hnin].
  - apply list_elem_of_fmap in Hin as ([k' st'] & -> & Hin).
    rw (raise_in _ s _ _ (openCovering_NoDup _ _) Hin). eexists; split; [done|].
    apply elem_of_openCovering in Hin as (_ & Hl' & _). simpl in Hl. rw Hl in Hl'.
    simplify_eq. by repeat split.
  - rw raise_other //. exists st; split; [done|apply held_refl].
Qed.

Lemma success_other route s key :
  key ∉ coveringKeys route → breakers (recordPrimarySuccess route s) !! key = breakers s !! key.
Proof.
  unfold recordPrimarySuccess. generalize (coveringKeys route) as ks.
  intros ks. revert s. induction ks as [|k1 ks IH]; intros s; simpl; [done|].
  rw not_elem_of_cons. intros [Hne Hnin]. rw IH //. case_match; [|done].
  rw forget_lookup decide_False //; congruence.
Qed.

Lemma hand_back_lookup ks : ∀ s key st,
  breakers s !! key = Some st →
  ∃ st', breakers (foldl hand_back s ks) !! key = Some st' ∧ held false st st' ∧
         (key ∉ ks → st' = st).
Proof.
  induction ks as [|k1 ks IH]; intros s key st Hl; simpl.
  { exists st. split_and!; [done|apply held_refl|done]. }
  assert (∃ st1, breakers (hand_back s k1) !! key = Some st1 ∧ held false st st1 ∧
            (key ≠ k1 → st1 = st)) as (st1 & Hl1 & Hh1 & He1).
  { unfold hand_back. destruct (breakers s !! k1) as [st1|] eqn:Hk1.
    - destruct (probeInFlight st1).
      + rw put_lookup. case_decide; subst.
        * eexists; split_and!; [done| |congruence]. by rw Hl in Hk1; simplify_eq.
        * exists st. split_and!; [done|apply held_refl|done].
      + exists st. split_and!; [done|apply held_refl|done].
    - exists st. split_and!; [done|apply held_refl|done]. }
  destruct (IH _ _ _ Hl1) as (st2 & Hl2 & Hh2 & He2). exists st2.
  split_and!; [done|by eapply held_trans|]. rw not_elem_of_cons. intros [??].
  rw He2 //. by apply He1.
Qed.

Lemma conclude_other ks : ∀ acc key,
  key ∉ ks → breakers (foldl conclude acc ks).1 !! key = breakers acc.1 !! key.
Proof.
  induction ks as [|k1 ks IH]; intros acc key; simpl; [done|].
  rw not_elem_of_cons. intros [Hne Hnin]. rw IH //. unfold conclude. destruct acc as [s e].
  case_match; [|done]. case_match; [|done]. simpl. rw forget_lookup decide_False //; congruence.
Qed.

Lemma release_other k route outcome now s key :
  ¬ judges key (Release k route outcome now) → outcome ≠ abandoned →
  breakers (releaseRecoveryProbe k route outcome now s) !! key = breakers s !! key.
Proof.
  intros Hj Ho. unfold releaseRecoveryProbe.
  assert (key ∉ coveringKeys route) as Hnin by (destruct outcome; simpl in Hj; tauto).
  pose proof (conclude_other _ (s, 0) key Hnin) as Hc.
  destruct (foldl conclude (s, 0) (coveringKeys route)) as [s' esc]; simpl in Hc.
  destruct outcome as [|[r|]|]; [done| |done|done].
  assert (keyOf r ≠ key) as Hne by (simpl in Hj; intros <-; tauto).
  pose proof (stateFor_other (keyOf r) key s' Hne) as Hs.
  destruct (stateFor (keyOf r) s') as [s2 st2]; simpl in *.
  rw put_lookup decide_False // Hs. exact Hc.
Qed.

(** An event that does not judge an open entry holds it; unless the event
    abandons the entry's probe, the claim on the probe holds as well. *)
Lemma apply_held b s e key st :
  breakers s !! key = Some st → isOpen (Some st) = true → ¬ judges key e →
  (b = true → ¬ abandons key e) →
  ∃ st', breakers (apply s e) !! key = Some st' ∧ held b st st'.
Proof.
  intros Hl Ho Hj Ha.
  assert (∀ b' st', held true st st' → held b' st st') as Hw.
  { intros b' st'. unfold held. destruct b'; tauto. }
  destruct e as [k r now|k r now o|r|r now|k r o now]; cbn [apply] in *.
  - exists st. split; [|apply held_refl]. destruct (decide (key = keyOf r)) as [->|].
    + by rw (failure_open _ _ _ _ _ Hl Ho).
    + by rw failure_other.
  - exists st. split; [|apply held_refl]. destruct (decide (key = keyOf r)) as [->|].
    + by rw (served_open _ _ _ _ _ _ Hl Ho).
    + by rw served_other.
  - exists st. split; [|apply held_refl]. by rw success_other.
  - destruct (acquire_lookup r now s key st Hl) as (st' & Hl' & Hh). eauto.
  - destruct o as [|f|].
    + exists st. split; [|apply held_refl]. by rw (release_other k r recovered).
    + exists st. split; [|apply held_refl]. by rw (release_other k r (failing f)).
    + cbn [releaseRecoveryProbe].
      destruct (hand_back_lookup (coveringKeys r) _ _ _ Hl) as (st' & Hl' & Hh & He).
      exists st'. split; [done|]. destruct b; [|done].
      rw He; [apply held_refl|]. simpl in Ha. auto.
Qed.

Lemma run_held b es : ∀ s key st,
  breakers s !! key = Some st → isOpen (Some st) = true →
  Forall (λ e, ¬ judges key e ∧ (b = true → ¬ abandons key e)) es →
  ∃ st', breakers (run es s) !! key = Some st' ∧ held b st st'.
Proof.
  induction es as [|e es IH]; intros s key st Hl Ho Hes; simpl.
  { exists st. split; [done|apply held_refl]. }
  inversion Hes as [|?? [Hj Ha] Hes']; subst.
  destruct (apply_held b s e key st Hl Ho Hj Ha) as (st1 & Hl1 & Hh1).
  assert (isOpen (Some st1) = true) as Ho1 by (simpl in *; destruct Hh1 as [-> _]; done).
  destruct (IH _ _ _ Hl1 Ho1 Hes') as (st2 & Hl2 & Hh2).
  exists st2. split; [done|]. by eapply held_trans.
Qed.
End frames.

(** ** Generations

    Every entry's generation was drawn from the counter, so an entry created
    later has a larger one. *)
Definition drawn (s : module_state) : Prop :=
  ∀ key st, breakers s !! key = Some st → generation st ≤ nextGeneration s.

(** [s'] was reached from [s]: the counter has not gone back, and an entry of
    [s'] is either one of [s] — same key and generation — or a fresh one. *)
Definition later (s s' : module_state) : Prop :=
  nextGeneration s ≤ nextGeneration s' ∧
  ∀ key st', breakers s' !! key = Some st' →
    generation st' ≤ nextGeneration s' ∧
    (nextGeneration s < generation st' ∨
     ∃ st, breakers s !! key = Some st ∧ generation st' = generation st).

Section generations.
Implicit Types (key : string) (s : module_state) (st : BreakerState) (now k : Z).

Lemma later_refl s : drawn s → later s s.
Proof. intros Hd. split; [lia|]. intros key st Hl. split; [by eapply Hd|eauto]. Qed.

Lemma later_drawn s s' : later s s' → drawn s'.
Proof. intros [_ H] key st Hl. by apply H in Hl as [??]. Qed.

Lemma later_trans s1 s2 s3 : later s1 s2 → later s2 s3 → later s1 s3.
Proof.
  intros [Hn1 H1] [Hn2 H2]. split; [lia|]. intros key st Hl.
  destruct (H2 _ _ Hl) as [Hle [Hlt|(st2 & Hl2 & He)]]; split; [done|left; lia|done|].
  destruct (H1 _ _ Hl2) as [_ [Hlt|(st1 & Hl1 & He1)]]; [left; lia|right].
  exists st1. split; [done|lia].
Qed.

Lemma later_put key st s :
  drawn s → (∃ st0, breakers s !! key = Some st0 ∧ generation st = generation st0) →
  later s (put key st s).
Proof.
  intros Hd (st0 & Hl0 & He). split; [simpl; lia|]. intros key' st'. rw put_lookup.
  case_decide; simpl.
  - intros [= <-]. subst. split; [rw He; by eapply Hd|right; eauto].
  - intros Hl. split; [by eapply Hd|right; eauto].
Qed.

Lemma later_forget key s : drawn s → later s (forget key s).
Proof.
  intros Hd. split; [simpl; lia|]. intros key' st'. rw forget_lookup.
  case_decide; [done|]. intros Hl. split; [by eapply Hd|right; eauto].
Qed.

Lemma later_stateFor key s : drawn s → later s (stateFor key s).1.
Proof.
  intros Hd. unfold stateFor. case_match eqn:Hk; [by apply later_refl|].
  split; [simpl; lia|]. intros key' st'. cbn [fst breakers nextGeneration].
  rw lookup_insert. case_decide; [intros [= <-]; simpl; split; [lia|left; lia]|].
  intros Hl. split; [pose proof (Hd _ _ Hl); lia|right; eauto].
Qed.

Lemma later_fold {A B} (f : B → A → B) (proj : B → module_state) (l : list A) :
  (∀ b a, drawn (proj b) → later (proj b) (proj (f b a))) →
  ∀ b, drawn (proj b) → later (proj b) (proj (foldl f b l)).
Proof.
  intros Hf. induction l as [|a l IH]; intros b Hd; simpl; [by apply later_refl|].
  pose proof (Hf b a Hd) as H1. eapply later_trans; [exact H1|].
  apply IH. by eapply later_drawn.
Qed.

Lemma later_stateFor_put key s st0 s' st :
  drawn s → stateFor key s = (s', st0) → generation st = generation st0 →
  later s (put key st s').
Proof.
  intros Hd Hs Hg. pose proof (later_stateFor key s Hd) as H1. rw Hs in H1.
  eapply later_trans; [exact H1|]. apply later_put; [by eapply later_drawn|].
  exists st0. split; [|done]. pose proof (stateFor_entry key s) as He. by rw Hs in He.
Qed.

Lemma raise_generation l : ∀ s, nextGeneration (raise s l) = nextGeneration s.
Proof. unfold raise. induction l as [|e l IH]; intros s; simpl; [done|]. by rw IH. Qed.

Lemma later_raise route s : drawn s → later s (raise s (openCovering route s)).
Proof.
  intros Hd. split; rw raise_generation; [lia|]. intros key st Hl.
  destruct (decide (key ∈ (openCovering route s).*1)) as [Hin|Hnin].
  - apply list_elem_of_fmap in Hin as ([k' st'] & -> & Hin). simpl in Hl.
    rw (raise_in _ s _ _ (openCovering_NoDup _ _) Hin) in Hl.
    injection Hl as <-. apply elem_of_openCovering in Hin as (_ & Hl' & _).
    split; [simpl; by eapply Hd|right; eauto].
  - rw raise_other // in Hl. split; [by eapply Hd|right; eauto].
Qed.

Lemma later_release k route o now s :
  drawn s → later s (releaseRecoveryProbe k route o now s).
Proof.
  intros Hd.
  assert (later s (foldl conclude (s, 0) (coveringKeys route)).1) as Hc.
  { refine (later_fold conclude fst (coveringKeys route) _ (s, 0) Hd).
    intros [s' e] key Hd'; simpl in *. unfold conclude.
    case_match; [|by apply later_refl]. case_match; [|by apply later_refl].
    by apply later_forget. }
  assert (later s (foldl hand_back s (coveringKeys route))) as Hh.
  { refine (later_fold hand_back id (coveringKeys route) _ s Hd).
    intros s' key Hd'; simpl in *. unfold hand_back.
    case_match; [|by apply later_refl]. case_match; [|by apply later_refl].
    apply later_put; eauto. }
  unfold releaseRecoveryProbe. destruct (foldl conclude (s, 0) _) as [s' e]; cbn [fst] in *.
  destruct o as [|[r|]|]; try done.
  destruct (stateFor (keyOf r) s') as [s2 st2] eqn:Hs.
  eapply later_trans; [exact Hc|]. eapply later_stateFor_put; [|exact Hs|done].
  by eapply later_drawn.
Qed.

Lemma apply_later s e : drawn s → later s (apply s e).
Proof.
  intros Hd. destruct e as [k r now|k r now o|r|r now|k r o now]; cbn [apply].
  - unfold recordPrimaryFailure. destruct (stateFor (keyOf r) s) as [s' st] eqn:Hs.
    destruct (isOpen (Some st)); cbn [fst].
    + pose proof (later_stateFor (keyOf r) s Hd) as H1. by rw Hs in H1.
    + eapply later_stateFor_put; [done|exact Hs|]. by case_match.
  - unfold recordFallbackServed. destruct o as [o|].
    + case_match; [by apply later_refl|]. case_match eqn:Hl; [|by apply later_refl].
      case_match; [by apply later_refl|]. apply later_put; eauto.
    + destruct (stateFor (keyOf r) s) as [s' st] eqn:Hs. case_match.
      * pose proof (later_stateFor (keyOf r) s Hd) as H1. by rw Hs in H1.
      * eapply later_stateFor_put; [done|exact Hs|done].
  - refine (later_fold _ id (coveringKeys r) _ s Hd). intros s' key Hd'; simpl in *.
    case_match; [by apply later_forget|by apply later_refl].
  - rw acquire_spec. case_match; [by apply later_refl|by apply later_raise].
  - by apply later_release.
Qed.

Lemma run_later es : ∀ s, drawn s → later s (run es s).
Proof.
  induction es as [|e es IH]; intros s Hd; simpl; [by apply later_refl|].
  pose proof (apply_later s e Hd) as H1. eapply later_trans; [exact H1|].
  apply IH. by eapply later_drawn.
Qed.

Lemma drawn_initial : drawn initial.
Proof. intros key st. by rw lookup_empty. Qed.
End generations.

(** ** Cooldowns *)

Definition base_cooldown (probes : Z) : Z :=
  Z.min (BASE_COOLDOWN_MS * 2 ^ probes) MAX_COOLDOWN_MS.

Lemma base_cooldown_bounds p :
  0 ≤ p → BASE_COOLDOWN_MS ≤ base_cooldown p ≤ MAX_COOLDOWN_MS.
Proof.
  intros Hp. unfold base_cooldown, BASE_COOLDOWN_MS, MAX_COOLDOWN_MS.
  pose proof (Z.pow_le_mono_r 2 0 p). lia.
Qed.

Lemma jitter_bounds k p :
  0 ≤ p → 0 ≤ k < draws →
  4 * base_cooldown p ≤ 5 * cooldownMs k p ≤ 6 * base_cooldown p.
Proof.
  intros Hp Hk. pose proof (base_cooldown_bounds p Hp) as Hb.
  assert (∃ q, base_cooldown p = 5 * q) as [q Hq].
  { unfold base_cooldown, BASE_COOLDOWN_MS, MAX_COOLDOWN_MS. destruct (Z.min_spec (120000 * 2 ^ p) (10 * 60000))
      as [[_ ->]|[_ ->]]; [exists (24000 * 2 ^ p)|exists 120000]; lia. }
  unfold cooldownMs. fold (base_cooldown p). rw Hq in Hb |- *.
  unfold BASE_COOLDOWN_MS, MAX_COOLDOWN_MS in *.
  assert (0 < draws) by done. generalize dependent draws. intros d Hk Hd.
  assert (4 * q ≤ (2 * (5 * q * (4 * d + 2 * k)) + 5 * d) / (2 * (5 * d)) ≤ 6 * q).
  { split; [apply Z.div_le_lower_bound; nia|].
    apply Z.lt_succ_r, Z.div_lt_upper_bound; nia. }
  lia.
Qed.

(** The jittered cooldown is within a fifth of the doubling base — two
    minutes times two per failed probe — and never above ten minutes, for
    every draw and every escalation. *)
Theorem cooldown_bounds (k p : Z) :
  0 ≤ p → 0 ≤ k < draws →
  4 * base_cooldown p ≤ 5 * cooldownMs k p ≤ 6 * base_cooldown p ∧
  96000 ≤ cooldownMs k p ≤ MAX_COOLDOWN_MS.
Proof.
  intros Hp Hk. pose proof (jitter_bounds k p Hp Hk) as Hj.
  pose proof (base_cooldown_bounds p Hp) as Hb. split; [done|]. split.
  - unfold BASE_COOLDOWN_MS in Hb. lia.
  - apply Z.le_min_r.
Qed.

Lemma cooldown_bounds_witness :
  96000 ≤ cooldownMs 0 0 ≤ MAX_COOLDOWN_MS ∧ cooldownMs 0 0 = 96000 ∧
  cooldownMs (draws / 2) 1 = 240000 ∧ cooldownMs (draws - 1) 9 = MAX_COOLDOWN_MS.
Proof.
  split; [apply (cooldown_bounds 0 0); by vm_compute|]. by vm_compute.
Defined.

(** ** Tripping *)

(** Two failures trip, one does not: on a route with no remembered
    entry, the first failure leaves the primary in use; a second one diverts
    the route exactly when it falls inside the failure window, until its
    cooldown ends. *)
Theorem second_failure_trips (s : module_state) (route : BreakerRoute) (k k' t1 t2 now : Z) :
  breakers s !! keyOf route = None →
  (∀ key, key ∈ coveringKeys route → isOpen (breakers s !! key) = false) →
  let s1 := (recordPrimaryFailure k route t1 s).1 in
  let s2 := (recordPrimaryFailure k' route t2 s1).1 in
  shouldSkipPrimary route now s1 = false ∧
  shouldSkipPrimary route now s2 =
    (t2 - t1 <? FAILURE_WINDOW_MS) && (now <? t2 + cooldownMs k' 0).
Proof.
  intros Hn Hcov s1 s2.
  set (st1 := State [t1] None 0 false (nextGeneration s + 1)).
  assert (s1 = put (keyOf route) st1 (Mod (<[keyOf route := State [] None 0 false (nextGeneration s + 1)]> (breakers s)) (nextGeneration s + 1))) as Hs1.
  { unfold s1, recordPrimaryFailure, stateFor. by rw Hn. }
  assert (breakers s1 !! keyOf route = Some st1) as Hl1.
  { by rw Hs1 put_lookup decide_True. }
  set (st2 := if t2 - t1 <? FAILURE_WINDOW_MS
     then State [] (Some (t2 + cooldownMs k' 0)) 0 false (nextGeneration s + 1)
     else State [t2] None 0 false (nextGeneration s + 1)).
  assert (breakers s2 !! keyOf route = Some st2) as Hl2.
  { unfold s2, recordPrimaryFailure. rw (stateFor_Some _ _ _ Hl1). cbn [isOpen st1 openUntil].
    rw bool_decide_eq_false_2; [|by intros H; apply H]. cbn [fst]. rw put_lookup decide_True //.
    f_equal. unfold st2. cbn [failures openUntil failedProbes probeInFlight generation st1].
    destruct (Z.ltb_spec (t2 - t1) FAILURE_WINDOW_MS).
    - by rw filter_cons_True.
    - by rw filter_cons_False; [|lia]. }
  assert (∀ s' st', (∀ key, key ≠ keyOf route → breakers s' !! key = breakers s !! key) →
    breakers s' !! keyOf route = Some st' →
    shouldSkipPrimary route now s' = isOpen (Some st') && diverts now st') as Hskip.
  { intros s' st' Ho Hl. unfold shouldSkipPrimary, openCovering, coveringKeys in *.
    destruct (model route) as [m|] eqn:Hm; simpl.
    - assert (upstream route ≠ keyOf route) as Hne.
      { unfold keyOf. rw Hm. intros He. symmetry in He. by apply string_app_not_nil in He. }
      rw (Ho _ Hne) (Hcov (upstream route)); [|set_solver]. rw Hl.
      destruct (isOpen (Some st')) eqn:Hst; simpl in *; rw ?Hst //=. by rw orb_false_r.
    - assert (keyOf route = upstream route) as Hk by (unfold keyOf; by rw Hm).
      rw -Hk Hl. destruct (isOpen (Some st')) eqn:Hst; simpl in *; rw ?Hst //=. by rw orb_false_r. }
  split.
  - rw (Hskip s1 st1); [done| |done]. intros. by apply failure_other.
  - rw (Hskip s2 st2); [|intros; unfold s2, s1; by rw !failure_other|done].
    unfold st2, diverts. by case_match.
Qed.

Lemma second_failure_trips_witness :
  let r := Route "anthropic" None in
  let s2 := (recordPrimaryFailure 0 r 1000 (recordPrimaryFailure 0 r 0 initial).1).1 in
  shouldSkipPrimary r 96999 s2 = true ∧ shouldSkipPrimary r 97000 s2 = false.
Proof.
  intros r s2. split; unfold s2.
  - rw (proj2 (second_failure_trips initial r 0 0 0 1000 96999 eq_refl
      ltac:(intros key _; by rw lookup_empty))). by vm_compute.
  - rw (proj2 (second_failure_trips initial r 0 0 0 1000 97000 eq_refl
      ltac:(intros key _; by rw lookup_empty))). by vm_compute.
Defined.

(** ** Diversion and probing *)

(** Diverted until the deadline: whatever failures, backup serves, probe
    claims and abandoned probes follow, as long as nothing passes judgement
    on an open entry, every route it covers skips its primary until the
    deadline the trip set — none of them moves it — and is denied a probe
    before. *)
Theorem open_entry_diverts (s : module_state) (es : list event) (key : string)
    (st : BreakerState) (u : Z) (route : BreakerRoute) (now : Z) :
  breakers s !! key = Some st → openUntil st = Some u →
  Forall (λ e, ¬ judges key e) es →
  key ∈ coveringKeys route → now < u →
  shouldSkipPrimary route now (run es s) = true ∧
  tryAcquireRecoveryProbe route now (run es s) = (run es s, false).
Proof.
  intros Hl Hu Hes Hk Hlt.
  destruct (run_held false es s key st Hl (isOpen_Some _ _ Hu)) as (st' & Hl' & Hu' & _).
  { eapply Forall_impl; [exact Hes|]. naive_solver. }
  eapply diverted; [done|done|rw Hu' Hu; done|].
  unfold diverts. rw Hu' Hu. apply orb_true_iff. right. by apply Z.ltb_lt.
Qed.

Lemma open_entry_diverts_witness :
  let s := recordFallbackServed 0 (Route "openai" None) 0 None initial in
  shouldSkipPrimary (Route "openai" (Some "m")) 95999
    (run [Failed_primary 0 (Route "openai" None) 50000;
          Release 0 (Route "openai" None) abandoned 60000] s) = true.
Proof.
  intros s. unfold s.
  apply (open_entry_diverts (recordFallbackServed 0 (Route "openai" None) 0 None initial)
    _ "openai" (State [] (Some 96000) 0 false 1) 96000 (Route "openai" (Some "m")) 95999);
    [by vm_compute|done| |by left|lia].
  repeat constructor; by intros [].
Defined.

(** Exactly one probe: once a request has claimed the recovery probe of
    a route, and until its outcome is reported, no other request obtains one
    for any route sharing an open entry with it — at any time, and whatever
    else happens — and all of them skip the primary. *)
Theorem probe_is_exclusive (s s1 : module_state) (route route' : BreakerRoute)
    (key : string) (st : BreakerState) (now now' : Z) (es : list event) :
  tryAcquireRecoveryProbe route now s = (s1, true) →
  (key, st) ∈ openCovering route s →
  Forall (λ e, ¬ judges key e ∧ ¬ abandons key e) es →
  key ∈ coveringKeys route' →
  shouldSkipPrimary route' now' (run es s1) = true ∧
  tryAcquireRecoveryProbe route' now' (run es s1) = (run es s1, false).
Proof.
  rw acquire_spec. intros Hacq Hin Hes Hk.
  destruct (bool_decide _ || _); [done|]. injection Hacq as <-.
  pose proof (elem_of_openCovering _ _ _ _ Hin) as (_ & _ & [u Hu]).
  pose proof (raise_in _ s _ _ (openCovering_NoDup _ _) Hin) as Hl.
  destruct (run_held true es _ key _ Hl) as (st' & Hl' & Hu' & _ & _ & Hp).
  { apply (isOpen_Some _ u). done. }
  { eapply Forall_impl; [exact Hes|]. naive_solver. }
  eapply diverted; [done|done|rw Hu' /= Hu; done|]. unfold diverts. by rw Hp.
Qed.

Lemma probe_is_exclusive_witness :
  let r := Route "openai" None in
  let s := recordFallbackServed 0 r 0 None initial in
  let s1 := (tryAcquireRecoveryProbe r 96000 s).1 in
  tryAcquireRecoveryProbe r 96000 s = (s1, true) ∧
  tryAcquireRecoveryProbe (Route "openai" (Some "m")) 999999 (run [Acquire r 96000] s1) =
    (run [Acquire r 96000] s1, false).
Proof.
  intros r s s1. split; [by vm_compute|]. unfold s1, s.
  apply (probe_is_exclusive (recordFallbackServed 0 r 0 None initial)
    (tryAcquireRecoveryProbe r 96000 (recordFallbackServed 0 r 0 None initial)).1 r
    (Route "openai" (Some "m")) "openai" (State [] (Some 96000) 0 false 1) 96000 999999);
    [by vm_compute|by vm_compute; left|repeat constructor; by intros []|by left].
Defined.

(** Concluding keeps a running maximum and deletes the probed entry. *)
Lemma conclude_probed ks : ∀ acc key st,
  key ∈ ks → NoDup ks → breakers acc.1 !! key = Some st → probeInFlight st = true →
  breakers (foldl conclude acc ks).1 !! key = None ∧
  failedProbes st ≤ (foldl conclude acc ks).2.
Proof.
  assert (∀ ks acc, acc.2 ≤ (foldl conclude acc ks).2) as Hmono.
  { clear. induction ks as [|k1 ks IH]; intros [s e]; simpl; [lia|].
    etrans; [|apply IH]. simpl. case_match; [|simpl; lia]. case_match; simpl; lia. }
  induction ks as [|k1 ks IH]; intros [s e] key st; [set_solver|].
  rw elem_of_cons NoDup_cons. cbn [foldl fst].
  intros [->|Hin] [Hnin Hnd] Hl Hp.
  - rw conclude_other //. split.
    + simpl. rw Hl Hp. by rw /= forget_lookup decide_True.
    + etrans; [|apply Hmono]. simpl. rw Hl Hp. simpl. lia.
  - apply IH; [done|done| |done]. unfold conclude.
    case_match; [|done]. case_match; [|done]. simpl. rw forget_lookup decide_False //.
    by intros ->.
Qed.

(** A verdict settles the probed entry: recovery closes it; a failure of
    the same scope re-trips it at once, under a fresh generation, with the
    probe released, its count of failed probes strictly larger and a cooldown
    computed from that count; an abandoned probe returns the claim and keeps
    the deadline and the count. *)
Theorem probe_verdict (k : Z) (route : BreakerRoute) (now : Z) (s : module_state)
    (st : BreakerState) :
  breakers s !! keyOf route = Some st → probeInFlight st = true →
  breakers (releaseRecoveryProbe k route recovered now s) !! keyOf route = None ∧
  (∃ p, failedProbes st < p ∧
    breakers (releaseRecoveryProbe k route (failing (Some route)) now s) !! keyOf route =
      Some (State [] (Some (now + cooldownMs k p)) p false (nextGeneration s + 1))) ∧
  (∃ st', breakers (releaseRecoveryProbe k route abandoned now s) !! keyOf route = Some st' ∧
    openUntil st' = openUntil st ∧ failedProbes st' = failedProbes st).
Proof.
  intros Hl Hp.
  assert (keyOf route ∈ coveringKeys route) as Hk.
  { unfold coveringKeys, keyOf. destruct (model route); set_solver. }
  pose proof (conclude_probed (coveringKeys route) (s, 0) (keyOf route) st Hk
    (coveringKeys_NoDup route) Hl Hp) as [Hdel Hesc].
  assert (nextGeneration (foldl conclude (s, 0) (coveringKeys route)).1 = nextGeneration s) as Hgen.
  { generalize (coveringKeys route), 0. intros ks.
    assert (∀ acc, nextGeneration (foldl conclude acc ks).1 = nextGeneration acc.1) as H; [|intros; apply H].
    induction ks as [|k1 ks IH]; intros [s' e]; simpl; [done|]. rw IH.
    simpl. by repeat case_match. }
  split_and!.
  - unfold releaseRecoveryProbe. by destruct (foldl conclude (s, 0) (coveringKeys route)).
  - unfold releaseRecoveryProbe.
    destruct (foldl conclude (s, 0) (coveringKeys route)) as [s' esc]; cbn [fst snd] in *.
    unfold stateFor. rw Hdel. exists (Z.max 0 esc + 1). split; [lia|].
    rw put_lookup decide_True //. by rw Hgen.
  - destruct (hand_back_lookup (coveringKeys route) s _ _ Hl) as (st' & Hl' & (Hu & Hf & _) & _).
    by exists st'.
Qed.

Definition probed_model : module_state :=
  (tryAcquireRecoveryProbe (Route "openai" (Some "m")) 96000
    (recordFallbackServed 0 (Route "openai" (Some "m")) 0 None initial)).1.

Lemma probe_verdict_witness :
  breakers probed_model !! "openai m" = Some (State [] (Some 96000) 0 true 1) ∧
  ∃ p, 0 < p ∧
    breakers (releaseRecoveryProbe 0 (Route "openai" (Some "m"))
      (failing (Some (Route "openai" (Some "m")))) 100000 probed_model) !! "openai m" =
      Some (State [] (Some (100000 + cooldownMs 0 p)) p false 2).
Proof.
  split; [by vm_compute|].
  apply (probe_verdict 0 (Route "openai" (Some "m")) 100000 probed_model
    (State [] (Some 96000) 0 true 1)); by vm_compute.
Defined.

(** ** Stale observations and scopes *)

(** A stale fallback serve is ignored: an observation made on an entry
    that a success or a verdict has closed since never touches the state
    again, even after the same route failed anew. *)
Theorem stale_observation_ignored (es1 es2 es3 : list event) (k k' : Z)
    (route route' : BreakerRoute) (now now' : Z) :
  let failed := recordPrimaryFailure k route now (run es1 initial) in
  let closed := run es2 failed.1 in
  let s := run es3 closed in
  breakers closed !! keyOf route = None →
  recordFallbackServed k' route' now' (Some failed.2) s = s.
Proof.
  intros failed closed s Hnone.
  pose proof (later_drawn _ _ (run_later es1 _ drawn_initial)) as Hd0.
  pose proof (apply_later _ (Failed_primary k route now) Hd0) as Hl1.
  cbn [apply] in Hl1. fold failed in Hl1.
  pose proof (later_drawn _ _ Hl1) as Hd1.
  pose proof (run_later es2 _ Hd1) as Hl2. fold closed in Hl2.
  pose proof (run_later es3 _ (later_drawn _ _ Hl2)) as [_ Hl3]. fold s in Hl3.
  assert (obs_key failed.2 = keyOf route ∧ obs_generation failed.2 ≤ nextGeneration failed.1)
    as [Hkey Hgen].
  { revert Hd1. unfold failed, recordPrimaryFailure.
    pose proof (stateFor_entry (keyOf route) (run es1 initial)) as He.
    destruct (stateFor (keyOf route) (run es1 initial)) as [s' st]. cbn [fst snd] in He.
    destruct (isOpen (Some st)); cbn [fst snd obs_key obs_generation]; intros Hd; split; try done.
    - by eapply Hd.
    - match type of Hd with drawn (put _ ?x _) =>
        assert (generation st = generation x) as -> by (by case_match) end.
      eapply Hd. by rw put_lookup decide_True. }
  destruct Hl2 as [Hn2 _].
  unfold recordFallbackServed. destruct (current (keyOf route') failed.2 _) eqn:Hc; [|done].
  exfalso. unfold current in Hc. destruct (breakers s !! keyOf route') as [st|] eqn:Hs; [|done].
  apply andb_true_iff in Hc as [Hk%bool_decide_eq_true Hg%Z.eqb_eq]. rw Hkey in Hk.
  rw -Hk in Hs. destruct (Hl3 _ _ Hs) as [_ [Hlt|(st0 & Hst0 & _)]]; [lia|].
  congruence.
Qed.

Lemma stale_observation_ignored_witness :
  let r := Route "openai" None in
  let failed := recordPrimaryFailure 0 r 0 initial in
  let s := run [Failed_primary 0 r 2] (run [Succeeded r] failed.1) in
  recordFallbackServed 0 r 3 (Some failed.2) s = s ∧
  recordFallbackServed 0 r 3 None s ≠ s.
Proof.
  split; [|by vm_compute].
  apply (stale_observation_ignored [] [Succeeded (Route "openai" None)]
    [Failed_primary 0 (Route "openai" None) 2] 0 0 (Route "openai" None) (Route "openai" None) 0 3).
  by vm_compute.
Defined.

Fixpoint no_space (s : string) : Prop :=
  match s with EmptyString => True | String a s => a ≠ " "%char ∧ no_space s end.

Lemma keyOf_inj (u u' : string) (m : string) (mo : option string) :
  no_space u → no_space u' →
  keyOf (Route u (Some m)) ∈ coveringKeys (Route u' mo) → u' = u ∧ mo = Some m.
Proof.
  intros Hu Hu'.
  assert (∀ v, no_space v → v ≠ u +:+ String " " m) as Hne.
  { intros v Hv ->. clear Hu. induction u as [|a u IH]; simpl in *; tauto. }
  assert (∀ m', u +:+ String " " m = u' +:+ String " " m' → u' = u ∧ m' = m) as Hinj.
  { intros m'. clear Hne. revert u' Hu'. induction u as [|a u IH]; intros [|b u']; simpl.
    - by intros _ [= ->].
    - intros [Hb _] [= Hb' _]. by destruct Hb.
    - destruct Hu as [Ha _]. intros _ [= Ha' _]. by destruct Ha.
    - intros [_ Hu'] [= -> He]. destruct Hu as [_ Hu]. by destruct (IH Hu u' Hu' He) as [-> ->]. }
  unfold coveringKeys, keyOf. simpl. destruct mo as [m'|].
  - rw elem_of_cons list_elem_of_singleton. intros [He|He]; [by destruct (Hne u' Hu')|].
    by destruct (Hinj _ He) as [-> ->].
  - rw list_elem_of_singleton. intros He. by destruct (Hne u' Hu').
Qed.

Lemma skip_ext route now s s' :
  (∀ key, key ∈ coveringKeys route → breakers s' !! key = breakers s !! key) →
  shouldSkipPrimary route now s' = shouldSkipPrimary route now s.
Proof.
  intros H. unfold shouldSkipPrimary, openCovering.
  generalize (coveringKeys route) H. intros ks Hks. clear H.
  f_equal. induction ks as [|k1 ks IH]; simpl; [done|].
  rw Hks; [|by left]. assert (∀ key, key ∈ ks → breakers s' !! key = breakers s !! key) as Hks'
    by (intros key Hk; apply Hks; by right).
  apply IH in Hks'. case_match; [f_equal|]; exact Hks'.
Qed.

(** A retired model is remembered alone: failures and backup serves
    recorded for one model of an upstream change the routing of no other
    model, of no other upstream and not of the upstream as a whole (upstream
    names contain no space). *)
Theorem model_failures_stay_scoped (u m u' : string) (mo : option string) (k now now' : Z)
    (o : option BreakerObservation) (s : module_state) :
  no_space u → no_space u' → (u', mo) ≠ (u, Some m) →
  let other := Route u' mo in
  shouldSkipPrimary other now' (recordPrimaryFailure k (Route u (Some m)) now s).1 =
    shouldSkipPrimary other now' s ∧
  shouldSkipPrimary other now' (recordFallbackServed k (Route u (Some m)) now o s) =
    shouldSkipPrimary other now' s.
Proof.
  intros Hu Hu' Hne other.
  assert (∀ key, key ∈ coveringKeys other → key ≠ keyOf (Route u (Some m))) as Hk.
  { intros key Hk ->. apply keyOf_inj in Hk as [-> ->]; done. }
  split; apply skip_ext; intros key Hin; [by apply failure_other, Hk|by apply served_other, Hk].
Qed.

Lemma model_failures_stay_scoped_witness :
  let down := recordFallbackServed 0 (Route "openai" (Some "old")) 0 None initial in
  shouldSkipPrimary (Route "openai" (Some "old")) 1 down = true ∧
  shouldSkipPrimary (Route "openai" (Some "new")) 1 down =
    shouldSkipPrimary (Route "openai" (Some "new")) 1 initial.
Proof.
  split; [by vm_compute|].
  apply (model_failures_stay_scoped "openai" "old" "openai" (Some "new") 0 0 1 None initial);
    [by repeat split|by repeat split|done].
Defined.
