(* ===== verification/PairingStore.v ===== *)
(** * Remote-web pairing

    [gateway/src/remote-web/pairing-challenge-store.ts], the device-code
    exchange that pairs a browser with the assistant, with the creation rate
    limit of [pairing-challenge-rate-limit-store.ts] and the sequence in which
    [gateway/src/http/routes/remote-web-pairing-challenge.ts] consults them.

    A challenge is one object reached through two maps, by the hash of its
    user code and by that of its device code, and mutated in place: the store
    is a heap of challenges and two maps into it.  The hash function is a
    parameter; random codes, identifiers and the clock are inputs. *)

From S2P Require Import Prelude JsMap.
Local Open Scope Z_scope.
Local Open Scope litt_scope.

Definition CODE_TTL_MS : Z := 10 * 60 * 1000.
Definition MAX_ACTIVE_CHALLENGES : nat := 200.
Definition USER_CODE_ALPHABET : string := "ABCDEFGHJKLMNPQRSTUVWXYZ23456789".
Definition USER_CODE_LENGTH : nat := 8.
Definition POLL_INTERVAL_SECONDS : Z := 5.

Inductive challenge_status := pending | approved | exchanging | consumed.
#[export] Instance challenge_status_eq : EqDecision challenge_status.
Proof. solve_decision. Defined.

Record challenge := Challenge {
  id : string;
  deviceCodeHash : string;
  userCodeHash : string;
  userCode : string;
  publicBaseUrl : string;
  verificationUri : string;
  status : challenge_status;
  createdAtMs : Z;
  expiresAtMs : Z;
  requesterIp : string;
  requesterUserAgent : option string;
  viaEdgeProxy : bool;
  approvedAtMs : option Z;
  exchangeStartedAtMs : option Z;
  consumedAtMs : option Z;
}.

(** The assignments the operations make to a challenge's mutable fields. *)
Definition update (st : challenge_status) (approvedAt startedAt consumedAt : option Z)
    (c : challenge) : challenge :=
  Challenge (id c) (deviceCodeHash c) (userCodeHash c) (userCode c) (publicBaseUrl c)
    (verificationUri c) st (createdAtMs c) (expiresAtMs c) (requesterIp c)
    (requesterUserAgent c) (viaEdgeProxy c) approvedAt startedAt consumedAt.

Definition loc := nat.

Record store := Store {
  heap : list challenge;
  byUserCodeHash : jsmap string loc;
  byDeviceCodeHash : jsmap string loc;
}.

Definition initial : store := Store [] ∅ ∅.

Record requester := Requester { ip : string; userAgent : option string; viaEdge : bool }.

Record challenge_response := ChallengeResponse {
  r_deviceCode : string;
  r_userCode : string;
  r_verificationUri : string;
  r_expiresAt : string;
  r_expiresInSeconds : Z;
  r_intervalSeconds : Z;
}.

Inductive approve_result :=
| Approve_approved (uri expiresAt : string) | Approve_expired | Approve_invalid.

Inductive deny_result := Denied | Already_approved | Deny_invalid.

Inductive claim_result :=
| Claim_approved (baseUrl uri expiresAt : string)
| Claim_pending (expiresAt : string) (intervalSeconds : Z)
| Claim_expired | Claim_consumed | Claim_invalid.

Record request_summary := RequestSummary {
  q_requestId : string; q_userCode : string; q_publicBaseUrl : string;
  q_requestedAt : string; q_expiresAt : string;
  q_requesterIp : string; q_requesterUserAgent : option string; q_viaEdgeProxy : bool;
}.

(** ** User codes *)

(** [USER_CODE_ALPHABET[randomInt(32)]] for one draw. *)
Definition alphabet_char (draw : nat) : ascii := String.get draw USER_CODE_ALPHABET otherwise "?"%char.

(** Eight draws, displayed as two groups of four. *)
Definition randomUserCode (draws : list nat) : string :=
  let code := string_of_list_ascii (alphabet_char <$> draws) in
  String.substring 0 4 code +:+ "-" +:+ String.substring 4 (String.length code - 4) code.

(** [code.replace(/[^A-Z0-9]/gi, '').toUpperCase()] *)
Definition normalizeUserCode (code : string) : string :=
  string_map to_upper (string_filter (λ a, is_upper a || is_lower a || is_digit a) code).

Section store.
Context (hashSecret : string → string).
Implicit Types (s : store) (c : challenge) (l : loc) (now : Z) (code : string).

Definition code_hash (code : string) : string := hashSecret (normalizeUserCode code).

Definition set_challenge (l : loc) (c : challenge) (s : store) : store :=
  Store (<[l := c]> (heap s)) (byUserCodeHash s) (byDeviceCodeHash s).

Definition deleteChallenge (c : challenge) (s : store) : store :=
  Store (heap s) (delete (userCodeHash c) (byUserCodeHash s))
    (delete (deviceCodeHash c) (byDeviceCodeHash s)).

Definition deref (s : store) (l : loc) : list challenge := from_option (λ c, [c]) [] (heap s !! l).

(** The challenges the user-code map holds, in insertion order. *)
Definition active (s : store) : list challenge :=
  values (byUserCodeHash s) ≫= deref s.

Definition cleanupExpiredChallenges (now : Z) (s : store) : store :=
  foldl (λ s c, if expiresAtMs c <=? now then deleteChallenge c s else s) s (active s).

(** [None]: there is room. *)
Definition checkRemoteWebPairingChallengeCapacity (now : Z) (s : store) : store * option Z :=
  let s := cleanupExpiredChallenges now s in
  if bool_decide (size (byUserCodeHash s) < MAX_ACTIVE_CHALLENGES)%nat then (s, None)
  else
    (* [None] stands for [Number.POSITIVE_INFINITY] *)
    let earliest := foldl (λ e c, Some (match e with Some e => Z.min e (expiresAtMs c)
                                        | None => expiresAtMs c end)) None (active s) in
    match earliest with
    | Some e => (s, Some (Z.max 1 (ceil_div (e - now) 1000)))
    | None => (s, Some 1)
    end.

(** The redraw loop over the codes drawn so far; [None] while it still needs
    another draw. *)
Fixpoint fresh_code (draws : list (list nat)) (s : store) : option string :=
  match draws with
  | [] => None
  | d :: draws =>
      let userCode := randomUserCode d in
      match byUserCodeHash s !! code_hash userCode with
      | None => Some userCode
      | Some _ => fresh_code draws s
      end
  end.

Definition createRemoteWebPairingChallenge (baseUrl : string) (r : requester)
    (deviceCode newId : string) (draws : list (list nat)) (now : Z) (s : store)
    : option (store * challenge_response) :=
  let s := cleanupExpiredChallenges now s in
  userCode ← fresh_code draws s;
  let verificationUri := baseUrl +:+ "/assistant/pair" in
  let expiresAtMs := now + CODE_TTL_MS in
  let c := Challenge newId (hashSecret deviceCode) (code_hash userCode) userCode baseUrl
    verificationUri pending now expiresAtMs (ip r) (userAgent r) (viaEdge r) None None None in
  let l := length (heap s) in
  Some (Store (heap s ++ [c]) (<[code_hash userCode := l]> (byUserCodeHash s))
          (<[hashSecret deviceCode := l]> (byDeviceCodeHash s)),
        ChallengeResponse deviceCode userCode verificationUri (toISOString expiresAtMs)
          (ceil_div CODE_TTL_MS 1000) POLL_INTERVAL_SECONDS).

Definition approveChallenge (now : Z) (l : loc) (c : challenge) (s : store)
    : store * approve_result :=
  if bool_decide (status c = exchanging ∨ status c = consumed) then (s, Approve_invalid)
  else if expiresAtMs c <=? now then (deleteChallenge c s, Approve_expired)
  else (set_challenge l (update approved (Some now) (exchangeStartedAtMs c) (consumedAtMs c) c) s,
        Approve_approved (verificationUri c) (toISOString (expiresAtMs c))).

(** [map.get(hash)], dereferenced. *)
Definition get (m : store → jsmap string loc) (h : string) (s : store) : option (loc * challenge) :=
  l ← m s !! h; c ← heap s !! l; Some (l, c).

Definition approveRemoteWebPairingChallenge (code : string) (now : Z) (s : store)
    : store * approve_result :=
  match get byUserCodeHash (code_hash code) s with
  | None => (s, Approve_invalid)
  | Some (l, c) => approveChallenge now l c s
  end.

Definition findChallengeById (i : string) (s : store) : option (loc * challenge) :=
  head (values (byUserCodeHash s) ≫= λ l,
    match heap s !! l with
    | Some c => if bool_decide (id c = i) then [(l, c)] else []
    | None => []
    end).

Definition summary (c : challenge) : request_summary :=
  RequestSummary (id c) (userCode c) (publicBaseUrl c) (toISOString (createdAtMs c))
    (toISOString (expiresAtMs c)) (requesterIp c) (requesterUserAgent c) (viaEdgeProxy c).

Definition listPendingRemoteWebPairingChallenges (now : Z) (s : store)
    : store * list request_summary :=
  let s := cleanupExpiredChallenges now s in
  (s, summary <$> stable_sort (λ a b, createdAtMs b <=? createdAtMs a)
        (filter (λ c, status c = pending) (active s))).

Definition approveRemoteWebPairingChallengeById (i : string) (now : Z) (s : store)
    : store * approve_result :=
  match findChallengeById i s with
  | None => (s, Approve_invalid)
  | Some (l, c) => approveChallenge now l c s
  end.

Definition denyRemoteWebPairingChallengeById (i : string) (s : store) : store * deny_result :=
  match findChallengeById i s with
  | None => (s, Deny_invalid)
  | Some (_, c) =>
      if bool_decide (status c = pending) then (deleteChallenge c s, Denied)
      else (s, Already_approved)
  end.

Definition claimRemoteWebPairingChallengeExchange (deviceCode : string) (now : Z) (s : store)
    : store * claim_result :=
  match get byDeviceCodeHash (hashSecret deviceCode) s with
  | None => (s, Claim_invalid)
  | Some (l, c) =>
      if expiresAtMs c <=? now then (deleteChallenge c s, Claim_expired)
      else match status c with
           | pending | exchanging =>
               (s, Claim_pending (toISOString (expiresAtMs c)) POLL_INTERVAL_SECONDS)
           | consumed => (s, Claim_consumed)
           | approved =>
               (set_challenge l (update exchanging (approvedAtMs c) (Some now) (consumedAtMs c) c) s,
                Claim_approved (publicBaseUrl c) (verificationUri c) (toISOString (expiresAtMs c)))
           end
  end.

Definition completeRemoteWebPairingChallengeExchange (deviceCode : string) (now : Z) (s : store)
    : store :=
  match get byDeviceCodeHash (hashSecret deviceCode) s with
  | Some (l, c) =>
      if bool_decide (status c = exchanging)
      then set_challenge l (update consumed (approvedAtMs c) (exchangeStartedAtMs c) (Some now) c) s
      else s
  | None => s
  end.

Definition releaseRemoteWebPairingChallengeExchange (deviceCode : string) (s : store) : store :=
  match get byDeviceCodeHash (hashSecret deviceCode) s with
  | Some (l, c) =>
      if bool_decide (status c = exchanging)
      then set_challenge l (update approved (approvedAtMs c) None (consumedAtMs c) c) s
      else s
  | None => s
  end.

(** ** The creation route *)

Definition RATE_LIMIT_MAX_CHALLENGES : nat := 20.
Definition RATE_LIMIT_WINDOW_MS : Z := 60000.

Definition recordRemoteWebPairingChallengeCreation (now : Z) (stamps : list Z)
    : list Z * option Z :=
  let windowStart := now - RATE_LIMIT_WINDOW_MS in
  let stamps := shift_while (λ t, t <=? windowStart) stamps in
  match stamps with
  | oldest :: _ =>
      if bool_decide (RATE_LIMIT_MAX_CHALLENGES ≤ length stamps)%nat
      then (stamps, Some (Z.max 1 (ceil_div (oldest + RATE_LIMIT_WINDOW_MS - now) 1000)))
      else (stamps ++ [now], None)
  | [] => (stamps ++ [now], None)
  end.

Inductive mint_response :=
| Rate_limited (retryAfterSeconds : Z)
| Capacity_limited (retryAfterSeconds : Z)
| Minted (r : challenge_response).

(** The end of [handleCreateRemoteWebPairingChallenge], once the request is
    authenticated and its URL parsed. *)
Definition mint (baseUrl : string) (r : requester) (deviceCode newId : string)
    (draws : list (list nat)) (now : Z) (stamps : list Z) (s : store)
    : option (list Z * store * mint_response) :=
  match recordRemoteWebPairingChallengeCreation now stamps with
  | (stamps, Some retry) => Some (stamps, s, Rate_limited retry)
  | (stamps, None) =>
      match checkRemoteWebPairingChallengeCapacity now s with
      | (s, Some retry) => Some (stamps, s, Capacity_limited retry)
      | (s, None) =>
          '(s, c) ← createRemoteWebPairingChallenge baseUrl r deviceCode newId draws now s;
          Some (stamps, s, Minted c)
      end
  end.

(** ** Histories of operations *)

Inductive op :=
| Create (baseUrl : string) (r : requester) (deviceCode newId : string)
    (draws : list (list nat)) (now : Z)
| Approve (code : string) (now : Z)
| ApproveById (i : string) (now : Z)
| Deny (i : string)
| ListPending (now : Z)
| Capacity (now : Z)
| Claim (deviceCode : string) (now : Z)
| Complete (deviceCode : string) (now : Z)
| Release (deviceCode : string).

Inductive outcome :=
| Created (r : challenge_response) | Approval (r : approve_result) | Denial (r : deny_result)
| Claimed (r : claim_result) | Listed (l : list request_summary) | Limited (r : option Z) | Done.

Definition exec (o : op) (s : store) : option (store * outcome) :=
  match o with
  | Create b r d i draws now =>
      prod_map (λ s, s) Created <$> createRemoteWebPairingChallenge b r d i draws now s
  | Approve code now => Some (prod_map (λ s, s) Approval (approveRemoteWebPairingChallenge code now s))
  | ApproveById i now => Some (prod_map (λ s, s) Approval (approveRemoteWebPairingChallengeById i now s))
  | Deny i => Some (prod_map (λ s, s) Denial (denyRemoteWebPairingChallengeById i s))
  | ListPending now => Some (prod_map (λ s, s) Listed (listPendingRemoteWebPairingChallenges now s))
  | Capacity now => Some (prod_map (λ s, s) Limited (checkRemoteWebPairingChallengeCapacity now s))
  | Claim d now => Some (prod_map (λ s, s) Claimed (claimRemoteWebPairingChallengeExchange d now s))
  | Complete d now => Some (completeRemoteWebPairingChallengeExchange d now s, Done)
  | Release d => Some (releaseRemoteWebPairingChallengeExchange d s, Done)
  end.

(** Device codes and identifiers are 256 and 128 random bits: a new one is
    taken to differ from all earlier ones. *)
Definition fresh (o : op) (s : store) : Prop :=
  match o with
  | Create _ _ d i _ _ =>
      Forall (λ c, deviceCodeHash c ≠ hashSecret d ∧ id c ≠ i) (heap s)
  | _ => True
  end.

Inductive trace : store → list (op * outcome) → store → Prop :=
| trace_nil s : trace s [] s
| trace_step s o r s1 t s2 :
    fresh o s → exec o s = Some (s1, r) → trace s1 t s2 → trace s ((o, r) :: t) s2.
End store.

(** ** Well-formed stores *)

(** The challenge at [l] is reachable through both maps. *)
Definition attached (l : loc) (c : challenge) (s : store) : Prop :=
  heap s !! l = Some c ∧ byUserCodeHash s !! userCodeHash c = Some l ∧
  byDeviceCodeHash s !! deviceCodeHash c = Some l.

Record wf_store (s : store) : Prop := {
  wf_user : ∀ h l, byUserCodeHash s !! h = Some l → ∃ c, attached l c s ∧ userCodeHash c = h;
  wf_device : ∀ h l, byDeviceCodeHash s !! h = Some l → ∃ c, attached l c s ∧ deviceCodeHash c = h;
  wf_user_keys : wf (byUserCodeHash s);
}.

(** The fields that never change. *)
Definition same_identity (c c' : challenge) : Prop :=
  id c' = id c ∧ deviceCodeHash c' = deviceCodeHash c ∧ userCodeHash c' = userCodeHash c ∧
  expiresAtMs c' = expiresAtMs c ∧ publicBaseUrl c' = publicBaseUrl c ∧ verificationUri c' = verificationUri c.

Section lemmas.
Implicit Types (s : store) (c : challenge) (l : loc) (now : Z).

Lemma wf_initial : wf_store initial.
Proof. split; [intros h l; by rw lookup_empty..|apply wf_empty]. Qed.

Lemma attached_inj_user l l' c c' s :
  attached l c s → attached l' c' s → userCodeHash c = userCodeHash c' → l = l' ∧ c = c'.
Proof. intros (H1 & H2 & _) (H1' & H2' & _) He. rw -He H2 in H2'. by simplify_eq. Qed.

Lemma attached_inj_device l l' c c' s :
  attached l c s → attached l' c' s → deviceCodeHash c = deviceCodeHash c' → l = l' ∧ c = c'.
Proof. intros (H1 & _ & H2) (H1' & _ & H2') He. rw -He H2 in H2'. by simplify_eq. Qed.

Lemma get_user h s l c :
  wf_store s → get byUserCodeHash h s = Some (l, c) → attached l c s ∧ userCodeHash c = h.
Proof.
  intros Hwf. unfold get. destruct (byUserCodeHash s !! h) as [l'|] eqn:Hl; [|done]. simpl.
  destruct (wf_user _ Hwf _ _ Hl) as (c' & Ha & Hh). rw (proj1 Ha) /=. by intros [= <- <-].
Qed.

Lemma get_device h s l c :
  wf_store s → get byDeviceCodeHash h s = Some (l, c) → attached l c s ∧ deviceCodeHash c = h.
Proof.
  intros Hwf. unfold get. destruct (byDeviceCodeHash s !! h) as [l'|] eqn:Hl; [|done]. simpl.
  destruct (wf_device _ Hwf _ _ Hl) as (c' & Ha & Hh). rw (proj1 Ha) /=. by intros [= <- <-].
Qed.

Lemma get_attached l c s :
  attached l c s →
  get byUserCodeHash (userCodeHash c) s = Some (l, c) ∧
  get byDeviceCodeHash (deviceCodeHash c) s = Some (l, c).
Proof. intros (Hh & Hu & Hd). unfold get. by rw Hu Hd /= Hh. Qed.

Lemma attached_delete l c l' c' s :
  wf_store s → attached l c s →
  attached l' c' (deleteChallenge c s) ↔ attached l' c' s ∧ l' ≠ l.
Proof.
  intros Hwf Ha. unfold attached at 1. simpl. rw !lookup_delete. split.
  - intros (Hh & Hu & Hd). destruct (decide (userCodeHash c = _)); [done|].
    destruct (decide (deviceCodeHash c = _)); [done|].
    assert (attached l' c' s) as Ha' by done. split; [done|]. intros ->.
    destruct Ha as [Hc _]. rw Hh in Hc. by simplify_eq.
  - intros [Ha' Hne]. pose proof Ha' as (Hh & Hu & Hd). split; [done|].
    destruct (decide (userCodeHash c = _)) as [He|].
    { by destruct (attached_inj_user _ _ _ _ _ Ha Ha' He). }
    destruct (decide (deviceCodeHash c = _)) as [He|]; [|done].
    by destruct (attached_inj_device _ _ _ _ _ Ha Ha' He).
Qed.

Lemma wf_deleteChallenge l c s :
  wf_store s → attached l c s → wf_store (deleteChallenge c s).
Proof.
  intros Hwf Ha. split; [| |apply wf_delete, Hwf]; intros h l'; simpl; rw lookup_delete;
    case_decide as Hne; try done; intros Hl.
  - destruct (wf_user _ Hwf _ _ Hl) as (c' & Ha' & <-). exists c'. split; [|done].
    apply (attached_delete l); [done..|]. split; [done|]. intros ->.
    destruct Ha as [Hc _], Ha' as [Hc' _]. by rw Hc in Hc'; simplify_eq.
  - destruct (wf_device _ Hwf _ _ Hl) as (c' & Ha' & <-). exists c'. split; [|done].
    apply (attached_delete l); [done..|]. split; [done|]. intros ->.
    destruct Ha as [Hc _], Ha' as [Hc' _]. by rw Hc in Hc'; simplify_eq.
Qed.

(** Updating a challenge in place keeps everything reachable. *)
Lemma attached_update l c c' s l2 c2 :
  attached l c s → same_identity c c' → attached l2 c2 s →
  attached l2 (if decide (l2 = l) then c' else c2) (set_challenge l c' s).
Proof.
  intros (Hh & Hu & Hd) (_ & Hd' & Hu' & _) (Hh2 & Hu2 & Hd2). unfold attached. simpl.
  case_decide; subst.
  - rw list_lookup_insert_eq; [by rw Hu' Hd'|by eapply lookup_lt_Some].
  - by rw list_lookup_insert_ne.
Qed.

Lemma wf_set_challenge l c c' s :
  wf_store s → attached l c s → same_identity c c' → wf_store (set_challenge l c' s).
Proof.
  intros Hwf Ha Hs. pose proof Hs as (_ & Hd' & Hu' & _). split; [| |apply Hwf]; intros h l2 Hl; simpl in Hl.
  - destruct (wf_user _ Hwf _ _ Hl) as (c2 & Ha2 & <-).
    eexists; split; [by eapply attached_update|]. case_decide; [subst|done].
    destruct Ha as [Hc _], Ha2 as [Hc2 _]. rw Hc in Hc2; by simplify_eq.
  - destruct (wf_device _ Hwf _ _ Hl) as (c2 & Ha2 & <-).
    eexists; split; [by eapply attached_update|]. case_decide; [subst|done].
    destruct Ha as [Hc _], Ha2 as [Hc2 _]. rw Hc in Hc2; by simplify_eq.
Qed.

(** ** Sweeping expired challenges *)

Lemma elem_of_active c s : wf_store s → c ∈ active s ↔ ∃ l, attached l c s.
Proof.
  intros Hwf. unfold active, values. rw list_elem_of_bind. split.
  - intros (l & Hc & ([h l'] & -> & Hin)%list_elem_of_fmap). simpl in *.
    apply entry_lookup in Hin; [|apply Hwf].
    destruct (wf_user _ Hwf _ _ Hin) as (c' & Ha & _). exists l'.
    unfold deref in Hc. rw (proj1 Ha) /= list_elem_of_singleton in Hc. by subst.
  - intros (l & Ha). exists l. split.
    + unfold deref. by rw (proj1 Ha) /= list_elem_of_singleton.
    + apply list_elem_of_fmap. exists (userCodeHash c, l). split; [done|].
      apply lookup_Some_entry, Ha.
Qed.

Lemma active_hashes s : wf_store s → userCodeHash <$> active s = keys (byUserCodeHash s).
Proof.
  intros Hwf. pose proof (wf_user_keys _ Hwf) as Hk. pose proof (wf_user _ Hwf) as Hu.
  assert (∀ h l, (h, l) ∈ entries (byUserCodeHash s) →
    ∃ c, heap s !! l = Some c ∧ userCodeHash c = h) as He.
  { intros h l Hin. apply entry_lookup in Hin; [|done].
    destruct (Hu _ _ Hin) as (c & Ha & Hh). by exists c; split; [apply Ha|]. }
  clear Hk Hu. unfold active, values, keys. induction (entries (byUserCodeHash s)) as [|[h l] es IH];
    simpl; [done|].
  destruct (He h l) as (c & Hc & Hh); [by left|]. unfold deref at 1. rw Hc /=. f_equal; [done|].
  apply IH. intros ?? Hin. apply He. by right.
Qed.

Lemma active_NoDup s : wf_store s → NoDup (userCodeHash <$> active s).
Proof. intros Hwf. rw active_hashes //. apply Hwf. Qed.

Definition sweep_challenges (now : Z) (cs : list challenge) (s : store) : store :=
  foldl (λ s c, if expiresAtMs c <=? now then deleteChallenge c s else s) s cs.

Lemma sweep_spec now cs : ∀ s,
  wf_store s → NoDup (userCodeHash <$> cs) → (∀ c, c ∈ cs → ∃ l, attached l c s) →
  wf_store (sweep_challenges now cs s) ∧ heap (sweep_challenges now cs s) = heap s ∧
  (∀ l c, attached l c (sweep_challenges now cs s) ↔
          attached l c s ∧ (c ∈ cs → now < expiresAtMs c)).
Proof.
  induction cs as [|c0 cs IH]; intros s Hwf Hnd Hatt; simpl.
  { split_and!; [done..|]. intros l c. split; [intros H|by intros [H _]].
    split; [done|]. by intros ?%not_elem_of_nil. }
  rw fmap_cons NoDup_cons in Hnd. destruct Hnd as [Hnin Hnd].
  destruct (Hatt c0) as (l0 & Ha0); [by left|].
  destruct (Z.leb_spec (expiresAtMs c0) now) as [Hle|Hlt].
  - destruct (IH (deleteChallenge c0 s)) as (Hwf' & Hh' & Hsp);
      [by eapply wf_deleteChallenge|done| |].
    { intros c Hc. destruct (Hatt c) as (l & Ha); [by right|]. exists l.
      apply (attached_delete l0); [done..|]. split; [done|]. intros ->.
      destruct Ha0 as [Hc0 _], Ha as [Hc' _]. rw Hc0 in Hc'. simplify_eq.
      apply Hnin. by apply list_elem_of_fmap_2. }
    split_and!; [done..|]. intros l c. rw Hsp (attached_delete l0) // elem_of_cons.
    split.
    + intros [[Ha Hne] Hc]. split; [done|]. intros [->|Hin]; [|by apply Hc].
      destruct (attached_inj_user _ _ _ _ _ Ha Ha0 eq_refl). done.
    + intros [Ha Hc]. split; [|naive_solver]. split; [done|]. intros ->.
      destruct Ha0 as [Hc0 _], Ha as [Hc' _]. rw Hc0 in Hc'. simplify_eq.
      assert (now < expiresAtMs c) by (apply Hc; by left). lia.
  - destruct (IH s) as (Hwf' & Hh' & Hsp); [done|done|set_solver|].
    split_and!; [done..|]. intros l c. rw Hsp elem_of_cons. naive_solver.
Qed.

(** A sweep keeps exactly the unexpired challenges. *)
Lemma cleanup_spec now s :
  wf_store s →
  wf_store (cleanupExpiredChallenges now s) ∧
  heap (cleanupExpiredChallenges now s) = heap s ∧
  (∀ l c, attached l c (cleanupExpiredChallenges now s) ↔
          attached l c s ∧ now < expiresAtMs c).
Proof.
  intros Hwf. destruct (sweep_spec now (active s) s Hwf (active_NoDup s Hwf)) as (H1 & H2 & H3).
  { intros c. by apply elem_of_active. }
  split_and!; [done..|]. intros l c. unfold cleanupExpiredChallenges.
  fold (sweep_challenges now (active s) s). rw H3. split; intros [Ha Hc]; split; try done; try tauto.
  apply Hc. apply elem_of_active; eauto.
Qed.
End lemmas.

(** ** What an operation may do to a challenge *)
Section steps.
Context (hashSecret : string → string).
Implicit Types (s : store) (c : challenge) (l : loc) (now : Z) (o : op) (r : outcome).

(** The approval of a challenge, by its code or by its identifier. *)
Definition approves o r c : Prop :=
  (∃ uri t, r = Approval (Approve_approved uri t)) ∧
  match o with
  | Approve code _ => code_hash hashSecret code = userCodeHash c
  | ApproveById i _ => i = id c
  | _ => False
  end.

(** The creation of a challenge. *)
Definition creates o c : Prop :=
  ∃ b rq d i ds now, o = Create b rq d i ds now ∧ deviceCodeHash c = hashSecret d ∧ id c = i ∧
    publicBaseUrl c = b ∧ verificationUri c = b +:+ "/assistant/pair" ∧ expiresAtMs c = now + CODE_TTL_MS.

(** A successful claim of a challenge. *)
Definition claims o r c : Prop :=
  (∃ b uri t, r = Claimed (Claim_approved b uri t)) ∧
  match o with Claim d _ => hashSecret d = deviceCodeHash c | _ => False end.

Definition completes o c : Prop :=
  match o with Complete d _ => hashSecret d = deviceCodeHash c | _ => False end.

Definition releases o c : Prop :=
  match o with Release d => hashSecret d = deviceCodeHash c | _ => False end.

(** The edges of the status graph, each with the operation that takes it. *)
Definition edge o r c c' : Prop :=
  status c' = status c
  ∨ (status c' = approved ∧ (status c = pending ∨ status c = approved) ∧ approves o r c)
  ∨ (status c = approved ∧ status c' = exchanging ∧ claims o r c)
  ∨ (status c = exchanging ∧ status c' = consumed ∧ completes o c)
  ∨ (status c = exchanging ∧ status c' = approved ∧ releases o c).

Record step_ok s o r s' : Prop := {
  ok_wf : wf_store s';
  ok_old : ∀ l c, heap s !! l = Some c →
    ∃ c', heap s' !! l = Some c' ∧ same_identity c c' ∧ edge o r c c';
  ok_new : ∀ l c', heap s' !! l = Some c' → heap s !! l = None →
    status c' = pending ∧ creates o c';
  ok_attached : ∀ l c', attached l c' s' → heap s !! l = None ∨ ∃ c, attached l c s;
}.

Lemma same_identity_refl c : same_identity c c.
Proof. by repeat split. Qed.

Lemma step_ok_shrink s s' o r :
  wf_store s' → heap s' = heap s → (∀ l c, attached l c s' → attached l c s) →
  step_ok s o r s'.
Proof.
  intros Hwf Hh Ha. split; [done| | |].
  - intros l c Hc. exists c. rw Hh. split_and!; [done|apply same_identity_refl|by left].
  - intros l c'. rw Hh. congruence.
  - intros l c' Hc. right. eauto.
Qed.

Lemma step_ok_refl s o r : wf_store s → step_ok s o r s.
Proof. intros. by apply step_ok_shrink. Qed.

Lemma step_ok_delete s l c o r :
  wf_store s → attached l c s → step_ok s o r (deleteChallenge c s).
Proof.
  intros Hwf Ha. apply step_ok_shrink; [by eapply wf_deleteChallenge|done|].
  intros l' c'. rw (attached_delete l) //. tauto.
Qed.

Lemma step_ok_cleanup s now o r : wf_store s → step_ok s o r (cleanupExpiredChallenges now s).
Proof.
  intros Hwf. destruct (cleanup_spec now s Hwf) as (H1 & H2 & H3).
  apply step_ok_shrink; [done..|]. intros l c. rw H3. tauto.
Qed.

Lemma step_ok_set s l c c' o r :
  wf_store s → attached l c s → same_identity c c' → edge o r c c' →
  step_ok s o r (set_challenge l c' s).
Proof.
  intros Hwf Ha Hs He. pose proof Ha as (Hl & _ & _). split.
  - by eapply wf_set_challenge.
  - intros l2 c2 Hl2. simpl. destruct (decide (l2 = l)) as [->|].
    + rw list_lookup_insert_eq; [|by eapply lookup_lt_Some]. rw Hl in Hl2; simplify_eq. eauto.
    + rw list_lookup_insert_ne //. exists c2. split_and!; [done|apply same_identity_refl|by left].
  - intros l2 c2 Hl2 Hn. apply lookup_lt_Some in Hl2. simpl in Hl2. rw length_insert in Hl2.
    apply lookup_lt_is_Some in Hl2 as [? Hx]. by rw Hn in Hx.
  - intros l2 c2 (Hh & Hu & Hd). right. simpl in Hu, Hd.
    destruct (wf_user _ Hwf _ _ Hu) as (c3 & Ha3 & _). eauto.
Qed.

Lemma fresh_code_spec draws s code :
  fresh_code hashSecret draws s = Some code →
  byUserCodeHash s !! code_hash hashSecret code = None ∧ ∃ d, d ∈ draws ∧ code = randomUserCode d.
Proof.
  induction draws as [|d draws IH]; simpl; [done|]. case_match eqn:Hd.
  - intros Hc. destruct (IH Hc) as (? & d' & ? & ?). split; [done|]. exists d'. set_solver.
  - intros [= <-]. split; [done|]. exists d. set_solver.
Qed.

Lemma step_ok_create s b rq d i draws now s' resp :
  wf_store s → fresh hashSecret (Create b rq d i draws now) s →
  createRemoteWebPairingChallenge hashSecret b rq d i draws now s = Some (s', resp) →
  step_ok s (Create b rq d i draws now) (Created resp) s'.
Proof.
  intros Hwf Hfresh. unfold createRemoteWebPairingChallenge.
  destruct (cleanup_spec now s Hwf) as (Hwf1 & Hh1 & Ha1).
  generalize dependent (cleanupExpiredChallenges now s). intros s1 Hwf1 Hh1 Ha1.
  destruct (fresh_code hashSecret draws s1) as [code|] eqn:Hcode; [|done]. cbn [mbind option_bind].
  apply fresh_code_spec in Hcode as [Hnone _]. intros [= <- _]. cbn [fresh] in Hfresh.
  set (c0 := Challenge _ _ _ _ _ _ _ _ _ _ _ _ _ _ _).
  assert (∀ l c, attached l c s1 → deviceCodeHash c ≠ hashSecret d) as Hdev.
  { intros l c (Hl & _). rw Hh1 in Hl. rw Forall_forall in Hfresh.
    destruct (Hfresh c) as [? _]; [by eapply list_elem_of_lookup_2|done]. }
  assert (byDeviceCodeHash s1 !! hashSecret d = None) as Hdnone.
  { destruct (byDeviceCodeHash s1 !! hashSecret d) as [l|] eqn:Hl; [|done].
    destruct (wf_device _ Hwf1 _ _ Hl) as (c & Hc & He). by destruct (Hdev _ _ Hc). }
  assert (∀ l c, attached l c (Store (heap s1 ++ [c0])
      (<[code_hash hashSecret code:=length (heap s1)]> (byUserCodeHash s1))
      (<[hashSecret d:=length (heap s1)]> (byDeviceCodeHash s1))) ↔
    attached l c s1 ∨ (l = length (heap s1) ∧ c = c0)) as Hatt.
  { intros l c. unfold attached. simpl. split.
    - intros (Hl & Hu & Hd). apply lookup_app_Some in Hl as [Hl|[Hge Hl]].
      + left. split; [done|]. apply lookup_lt_Some in Hl.
        revert Hu Hd. rw !lookup_insert. repeat case_decide; naive_solver lia.
      + right. apply list_lookup_singleton_Some in Hl as [Hl ->]. split; [lia|done].
    - intros [Ha|[-> ->]].
      + pose proof (Hdev _ _ Ha) as Hne. destruct Ha as (Hl & Hu & Hd). split_and!.
        * by apply lookup_app_l_Some.
        * rw lookup_insert_ne //. intros He. by rw He Hu in Hnone.
        * by rw lookup_insert_ne.
      + split_and!; [by apply list_lookup_middle|by rw lookup_insert_eq..]. }
  split.
  - split; [| |by apply wf_insert, Hwf1]; intros h l; simpl; rw lookup_insert; case_decide; intros Hl.
    + exists c0. simplify_eq. split; [|done]. apply Hatt. by right.
    + destruct (wf_user _ Hwf1 _ _ Hl) as (c & Hc & Hh). exists c. split; [|done]. apply Hatt. by left.
    + exists c0. simplify_eq. split; [|done]. apply Hatt. by right.
    + destruct (wf_device _ Hwf1 _ _ Hl) as (c & Hc & Hh). exists c. split; [|done]. apply Hatt. by left.
  - intros l c Hc. exists c. simpl. rw Hh1. split_and!; [by apply lookup_app_l_Some|apply same_identity_refl|by left].
  - intros l c' Hl Hn. simpl in Hl. rw Hh1 in Hl. apply lookup_app_Some in Hl as [Hl|[Hge Hl]]; [by rw Hn in Hl|].
    apply list_lookup_singleton_Some in Hl as [_ <-]. split; [done|]. by repeat eexists.
  - intros l c' [Ha|[-> ->]]%Hatt; [right; apply Ha1 in Ha as [? _]; eauto|left].
    rw -Hh1. by apply lookup_ge_None.
Qed.
End steps.

Section invariants.
Context (hashSecret : string → string).
Implicit Types (s : store) (c : challenge) (l : loc) (now : Z) (o : op) (r : outcome).

Lemma findChallengeById_spec i s l c :
  wf_store s → findChallengeById i s = Some (l, c) → attached l c s ∧ id c = i.
Proof.
  intros Hwf. unfold findChallengeById. intros Hf%head_Some_elem_of.
  apply list_elem_of_bind in Hf as (l' & Hin & ([h l2] & -> & He)%list_elem_of_fmap). simpl in *.
  apply entry_lookup in He; [|apply Hwf].
  destruct (wf_user _ Hwf _ _ He) as (c' & Ha & _). rw (proj1 Ha) in Hin.
  case_bool_decide as Hid; [|by apply not_elem_of_nil in Hin].
  apply list_elem_of_singleton in Hin as [= -> ->]. done.
Qed.

Lemma approveChallenge_ok s l c now o :
  wf_store s → attached l c s →
  (match o with Approve code _ => code_hash hashSecret code = userCodeHash c
              | ApproveById i _ => i = id c | _ => False end) →
  step_ok hashSecret s o (Approval (approveChallenge now l c s).2) (approveChallenge now l c s).1.
Proof.
  intros Hwf Ha Ho. unfold approveChallenge. case_bool_decide as Hst; [by apply step_ok_refl|].
  destruct (expiresAtMs c <=? now); [by eapply step_ok_delete|].
  eapply step_ok_set; [done|done|by repeat split|]. right; left. split; [done|]. split; [destruct (status c); naive_solver|].
  split; [by repeat eexists|done].
Qed.

Lemma exec_ok s o r s' :
  wf_store s → fresh hashSecret o s → exec hashSecret o s = Some (s', r) →
  step_ok hashSecret s o r s'.
Proof.
  intros Hwf Hfr. destruct o as [b rq d i draws now|code now|i now|i|now|now|d now|d now|d]; cbn [exec].
  - destruct (createRemoteWebPairingChallenge hashSecret b rq d i draws now s) as [[s1 resp]|] eqn:Hc;
      [|done]. intros [= <- <-]. by apply step_ok_create.
  - intros [= <- <-]. unfold approveRemoteWebPairingChallenge.
    destruct (get byUserCodeHash _ s) as [[l c]|] eqn:Hg; [|by apply step_ok_refl].
    destruct (get_user _ _ _ _ Hwf Hg) as [Ha Hh]. by apply approveChallenge_ok.
  - intros [= <- <-]. unfold approveRemoteWebPairingChallengeById.
    destruct (findChallengeById i s) as [[l c]|] eqn:Hg; [|by apply step_ok_refl].
    destruct (findChallengeById_spec _ _ _ _ Hwf Hg) as [Ha <-]. by apply approveChallenge_ok.
  - intros [= <- <-]. unfold denyRemoteWebPairingChallengeById.
    destruct (findChallengeById i s) as [[l c]|] eqn:Hg; [|by apply step_ok_refl].
    destruct (findChallengeById_spec _ _ _ _ Hwf Hg) as [Ha _].
    case_bool_decide; [by eapply step_ok_delete|by apply step_ok_refl].
  - intros [= <- <-]. by apply step_ok_cleanup.
  - intros [= <- <-]. unfold checkRemoteWebPairingChallengeCapacity.
    case_bool_decide; [by apply step_ok_cleanup|]. by case_match; apply step_ok_cleanup.
  - intros [= <- <-]. unfold claimRemoteWebPairingChallengeExchange.
    destruct (get byDeviceCodeHash _ s) as [[l c]|] eqn:Hg; [|by apply step_ok_refl].
    destruct (get_device _ _ _ _ Hwf Hg) as [Ha Hh].
    destruct (expiresAtMs c <=? now); [by eapply step_ok_delete|].
    destruct (status c) eqn:Hst; try by apply step_ok_refl.
    eapply step_ok_set; [done|done|by repeat split|].
    right; right; left. split_and!; [done|done|]. split; [by repeat eexists|done].
  - intros [= <- <-]. unfold completeRemoteWebPairingChallengeExchange.
    destruct (get byDeviceCodeHash _ s) as [[l c]|] eqn:Hg; [|by apply step_ok_refl].
    destruct (get_device _ _ _ _ Hwf Hg) as [Ha Hh].
    case_bool_decide as Hst; [|by apply step_ok_refl].
    eapply step_ok_set; [done|done|by repeat split|]. right; right; right; left. done.
  - intros [= <- <-]. unfold releaseRemoteWebPairingChallengeExchange.
    destruct (get byDeviceCodeHash _ s) as [[l c]|] eqn:Hg; [|by apply step_ok_refl].
    destruct (get_device _ _ _ _ Hwf Hg) as [Ha Hh].
    case_bool_decide as Hst; [|by apply step_ok_refl].
    eapply step_ok_set; [done|done|by repeat split|]. right; right; right; right. done.
Qed.

(** What a successful claim saw. *)
Lemma claim_approved_inv s s' d now b uri t :
  wf_store s →
  claimRemoteWebPairingChallengeExchange hashSecret d now s = (s', Claim_approved b uri t) →
  ∃ l c, attached l c s ∧ deviceCodeHash c = hashSecret d ∧ status c = approved ∧
         now < expiresAtMs c ∧ heap s' !! l = Some (update exchanging (approvedAtMs c) (Some now) (consumedAtMs c) c) ∧
         b = publicBaseUrl c ∧ uri = verificationUri c ∧ t = toISOString (expiresAtMs c).
Proof.
  intros Hwf. unfold claimRemoteWebPairingChallengeExchange.
  destruct (get byDeviceCodeHash _ s) as [[l c]|] eqn:Hg; [|done].
  destruct (get_device _ _ _ _ Hwf Hg) as [Ha Hh].
  destruct (Z.leb_spec (expiresAtMs c) now); [done|].
  destruct (status c) eqn:Hst; try done. intros [= <- <- <- <-].
  exists l, c. split_and!; [done..| |done|done|done]. simpl. apply list_lookup_insert_eq.
  by eapply lookup_lt_Some, Ha.
Qed.

(** Device codes identify challenges, past ones included. *)
Definition unique_devices s : Prop :=
  ∀ l1 l2 c1 c2, heap s !! l1 = Some c1 → heap s !! l2 = Some c2 →
    deviceCodeHash c1 = deviceCodeHash c2 → l1 = l2.

Lemma exec_unique s o r s' :
  wf_store s → fresh hashSecret o s → exec hashSecret o s = Some (s', r) →
  unique_devices s → unique_devices s'.
Proof.
  intros Hwf Hfr He Hu. pose proof (exec_ok _ _ _ _ Hwf Hfr He) as Hok.
  assert (∀ l c', heap s' !! l = Some c' → ∀ c, heap s !! l = Some c → deviceCodeHash c = deviceCodeHash c') as Hsame.
  { intros l c' Hl' c Hl. destruct (ok_old _ _ _ _ _ Hok _ _ Hl) as (c2 & Hl2 & (_ & Hd & _) & _).
    rw Hl' in Hl2. by simplify_eq. }
  assert (∀ l c' l2 c2, heap s' !! l = Some c' → heap s !! l = None → heap s !! l2 = Some c2 →
    deviceCodeHash c' ≠ deviceCodeHash c2) as Hnew.
  { intros l c' l2 c2 Hl' Hn Hl2. destruct (ok_new _ _ _ _ _ Hok _ _ Hl' Hn) as (_ & b & rq & d & i & ds & now & -> & -> & _).
    cbn [fresh] in Hfr. rw Forall_forall in Hfr. intros Heq. destruct (Hfr c2); [|done].
    by eapply list_elem_of_lookup_2. }
  intros l1 l2 c1 c2 Hl1 Hl2 Heq.
  destruct (heap s !! l1) as [d1|] eqn:H1, (heap s !! l2) as [d2|] eqn:H2.
  - apply (Hu l1 l2 d1 d2 H1 H2). by rw (Hsame _ _ Hl1 _ H1) (Hsame _ _ Hl2 _ H2).
  - destruct (Hnew _ _ _ _ Hl2 H2 H1). by rw (Hsame _ _ Hl1 _ H1).
  - destruct (Hnew _ _ _ _ Hl1 H1 H2). by rw (Hsame _ _ Hl2 _ H2).
  - assert (∀ l c', heap s' !! l = Some c' → heap s !! l = None → l = length (heap s)) as Hlen.
    { intros l c' Hl' Hn. destruct (ok_new _ _ _ _ _ Hok _ _ Hl' Hn) as (_ & b & rq & d & i & ds & now & -> & _).
      cbn [exec] in He. unfold createRemoteWebPairingChallenge in He.
      destruct (cleanup_spec now s Hwf) as (_ & Hh & _).
      destruct (fresh_code _ _ _); [|done]. injection He as <- _. simpl in Hl'. rw Hh in Hl'.
      apply lookup_lt_Some in Hl'. rw length_app in Hl'. simpl in Hl'.
      apply lookup_ge_None in Hn. lia. }
    by rw (Hlen _ _ Hl1 H1) (Hlen _ _ Hl2 H2).
Qed.

Lemma trace_inv s t s' :
  trace hashSecret s t s' → wf_store s → unique_devices s → wf_store s' ∧ unique_devices s'.
Proof.
  induction 1 as [s|s o r s1 t s2 Hf He _ IH]; [done|]. intros Hwf Hu.
  apply IH; [by eapply ok_wf, exec_ok|by eapply exec_unique].
Qed.

Lemma unique_initial : unique_devices initial.
Proof. intros l1 l2 c1 c2 Hl. done. Qed.
End invariants.

(** ** Properties *)
Section properties.
Context (hashSecret : string → string).
Implicit Types (s : store) (c : challenge) (l : loc) (now : Z) (o : op) (r : outcome).

(** The challenge of device-code hash [h] lies at [l] with status [st]. *)
Definition holds (st : challenge_status) (l : loc) (h : string) (s : store) : Prop :=
  ∃ c, heap s !! l = Some c ∧ deviceCodeHash c = h ∧ status c = st.

(** Operations that end an exchange of the device code [d]. *)
Definition ends_exchange (d : string) (e : op * outcome) : Prop :=
  match e.1 with
  | Complete d' _ | Release d' => hashSecret d' = hashSecret d
  | _ => False
  end.

Lemma exchanging_stays s t s' l d :
  trace hashSecret s t s' → wf_store s →
  Forall (λ e, ¬ ends_exchange d e) t →
  holds exchanging l (hashSecret d) s → holds exchanging l (hashSecret d) s'.
Proof.
  induction 1 as [s|s o r s1 t s2 Hf He _ IH]; [done|].
  intros Hwf [Hn Hns]%Forall_cons (c & Hl & Hd & Hst).
  pose proof (exec_ok _ _ _ _ _ Hwf Hf He) as Hok.
  apply IH; [by eapply ok_wf|done|].
  destruct (ok_old _ _ _ _ _ Hok _ _ Hl) as (c' & Hl' & (_ & Hd' & _) & Hedge).
  exists c'. split_and!; [done|congruence|].
  unfold ends_exchange in Hn. cbn [fst] in Hn.
  destruct Hedge as [?|[(_ & ? & _)|[(? & _)|[(_ & _ & Hc)|(_ & _ & Hc)]]]];
    try (rw Hst in H); try congruence; try naive_solver congruence.
  - unfold completes in Hc. destruct o; try done. destruct Hn. congruence.
  - unfold releases in Hc. destruct o; try done. destruct Hn. congruence.
Qed.

Lemma consumed_stays s t s' l h :
  trace hashSecret s t s' → wf_store s → holds consumed l h s → holds consumed l h s'.
Proof.
  induction 1 as [s|s o r s1 t s2 Hf He _ IH]; [done|].
  intros Hwf (c & Hl & Hd & Hst).
  pose proof (exec_ok _ _ _ _ _ Hwf Hf He) as Hok.
  apply IH; [by eapply ok_wf|].
  destruct (ok_old _ _ _ _ _ Hok _ _ Hl) as (c' & Hl' & (_ & Hd' & _) & Hedge).
  exists c'. split_and!; [done|congruence|].
  destruct Hedge as [?|[(_ & ? & _)|[(? & _)|[(? & _ & Hc)|(? & _ & Hc)]]]]; naive_solver congruence.
Qed.

(** A claim succeeds only on an approved challenge. *)
Lemma claim_denied s l d st now b uri t :
  wf_store s → unique_devices s → holds st l (hashSecret d) s → st ≠ approved →
  (claimRemoteWebPairingChallengeExchange hashSecret d now s).2 ≠ Claim_approved b uri t.
Proof.
  intros Hwf Hu (c & Hl & Hd & Hst) Hne Hc.
  destruct (claimRemoteWebPairingChallengeExchange hashSecret d now s) as [s' res] eqn:He.
  simpl in Hc. subst res.
  destruct (claim_approved_inv _ _ _ _ _ _ _ _ Hwf He) as (l2 & c2 & (Hl2 & _) & Hd2 & Hst2 & _).
  assert (l = l2) as -> by (eapply Hu; [done|done|congruence]).
  rw Hl in Hl2. simplify_eq.
Qed.

(** C16 — One exchange at a time: after a claim has won the exchange of a
    device code, no later claim of that code wins, whatever operations come in
    between, until the exchange is completed or released. *)
Theorem exchange_is_exclusive (t0 t : list (op * outcome)) (s0 s1 s2 : store)
    (d : string) (now now' : Z) (b uri e b' uri' e' : string) :
  trace hashSecret initial t0 s0 →
  claimRemoteWebPairingChallengeExchange hashSecret d now s0 = (s1, Claim_approved b uri e) →
  trace hashSecret s1 t s2 →
  Forall (λ x, ¬ ends_exchange d x) t →
  (claimRemoteWebPairingChallengeExchange hashSecret d now' s2).2 ≠ Claim_approved b' uri' e'.
Proof.
  intros H0 Hc H1 Hn. destruct (trace_inv _ _ _ _ H0 wf_initial unique_initial) as [Hwf Hu].
  assert (trace hashSecret s0 [(Claim d now, Claimed (Claim_approved b uri e))] s1) as Ht1.
  { eapply trace_step; [done| |apply trace_nil]. simpl. by rw Hc. }
  destruct (trace_inv _ _ _ _ Ht1 Hwf Hu) as [Hwf1 Hu1].
  destruct (trace_inv _ _ _ _ H1 Hwf1 Hu1) as [Hwf2 Hu2].
  destruct (claim_approved_inv _ _ _ _ _ _ _ _ Hwf Hc) as (l & c & Ha & Hd & Hst & _ & Hl & _).
  eapply claim_denied; [done|done|eapply exchanging_stays; [exact H1|done|done|]|done].
  by eexists; split_and!.
Qed.

(** A consumed code is dead: once an exchange has been completed, its
    device code never wins another claim. *)
Theorem consumed_code_is_dead (t0 t : list (op * outcome)) (s0 s2 : store)
    (l : loc) (c : challenge) (d : string) (now now' : Z) (b uri e : string) :
  trace hashSecret initial t0 s0 →
  get byDeviceCodeHash (hashSecret d) s0 = Some (l, c) → status c = exchanging →
  trace hashSecret (completeRemoteWebPairingChallengeExchange hashSecret d now s0) t s2 →
  (claimRemoteWebPairingChallengeExchange hashSecret d now' s2).2 ≠ Claim_approved b uri e.
Proof.
  intros H0 Hg Hst H1. destruct (trace_inv _ _ _ _ H0 wf_initial unique_initial) as [Hwf Hu].
  assert (trace hashSecret s0 [(Complete d now, Done)]
    (completeRemoteWebPairingChallengeExchange hashSecret d now s0)) as Ht1
    by (eapply trace_step; [done|done|apply trace_nil]).
  destruct (trace_inv _ _ _ _ Ht1 Hwf Hu) as [Hwf1 Hu1].
  destruct (trace_inv _ _ _ _ H1 Hwf1 Hu1) as [Hwf2 Hu2].
  destruct (get_device _ _ _ _ Hwf Hg) as [(Hl & _) Hd].
  eapply (claim_denied s2 l d consumed); [done|done| |done].
  eapply consumed_stays; [exact H1|done|].
  unfold completeRemoteWebPairingChallengeExchange. rw Hg bool_decide_eq_true_2 //.
  eexists; split_and!; [apply list_lookup_insert_eq; by eapply lookup_lt_Some|done|done].
Qed.

Lemma same_identity_trans c1 c2 c3 :
  same_identity c1 c2 → same_identity c2 c3 → same_identity c1 c3.
Proof. unfold same_identity. intuition congruence. Qed.

Lemma trace_identity s t s' l c :
  trace hashSecret s t s' → wf_store s → heap s !! l = Some c →
  ∃ c', heap s' !! l = Some c' ∧ same_identity c c'.
Proof.
  intros Ht. revert c. induction Ht as [s|s o r s1 t s2 Hf He _ IH]; intros c Hwf Hl.
  { exists c. split; [done|apply same_identity_refl]. }
  pose proof (exec_ok _ _ _ _ _ Hwf Hf He) as Hok.
  destruct (ok_old _ _ _ _ _ Hok _ _ Hl) as (c1 & Hl1 & Hs1 & _).
  destruct (IH c1 (ok_wf _ _ _ _ _ Hok) Hl1) as (c2 & Hl2 & Hs2).
  exists c2. split; [done|by eapply same_identity_trans].
Qed.

(** A challenge that is no longer pending was approved on the way. *)
Lemma approved_on_the_way s t s' l c' :
  trace hashSecret s t s' → wf_store s →
  heap s' !! l = Some c' → status c' ≠ pending →
  (∃ c, heap s !! l = Some c ∧ status c ≠ pending) ∨
  ∃ o r, (o, r) ∈ t ∧ approves hashSecret o r c'.
Proof.
  induction 1 as [s|s o r s1 t s2 Hf He Ht IH]; intros Hwf Hl Hst; [eauto|].
  pose proof (exec_ok _ _ _ _ _ Hwf Hf He) as Hok.
  destruct (IH (ok_wf _ _ _ _ _ Hok) Hl Hst) as [(c1 & Hl1 & Hst1)|(o' & r' & Hin & Ha)];
    [|right; exists o', r'; split; [by right|done]].
  destruct (heap s !! l) as [c|] eqn:Hc.
  - destruct (decide (status c = pending)) as [Hp|]; [|by left; exists c].
    destruct (ok_old _ _ _ _ _ Hok _ _ Hc) as (c2 & Hl2 & _ & Hedge).
    rw Hl1 in Hl2. simplify_eq. right. exists o, r. split; [by left|].
    destruct (trace_identity s ((o, r) :: t) s2 l c) as (c3 & Hl3 & Hs3);
      [by eapply trace_step|done|done|]. rw Hl in Hl3. simplify_eq.
    destruct Hedge as [?|[(_ & _ & Ha)|[(? & _)|[(? & _)|(? & _)]]]]; try congruence.
    destruct Hs3 as (Hi & _ & Hu & _). destruct Ha as [Hr Ho]. split; [done|].
    destruct o; try done; congruence.
  - by destruct (ok_new _ _ _ _ _ Hok _ _ Hl1 Hc) as [? _].
Qed.

(** Every challenge was created on the way, and is still what it was created as. *)
Lemma created_on_the_way s t s' l c :
  trace hashSecret s t s' → wf_store s → heap s' !! l = Some c →
  is_Some (heap s !! l) ∨ ∃ o r, (o, r) ∈ t ∧ creates hashSecret o c.
Proof.
  intros Ht. induction Ht as [s|s o r s1 t s2 Hf He Ht IH]; intros Hwf Hl; [by left|].
  pose proof (exec_ok _ _ _ _ _ Hwf Hf He) as Hok.
  destruct (IH (ok_wf _ _ _ _ _ Hok) Hl) as [[c1 Hl1]|(o' & r' & ? & ?)]; [|right; exists o', r'; by split; [right|]].
  destruct (heap s !! l) as [c0|] eqn:Hl0; [by left|]. right. exists o, r. split; [by left|].
  destruct (ok_new _ _ _ _ _ Hok _ _ Hl1 Hl0) as (_ & b & rq & d & i & ds & now & -> & H1).
  destruct (trace_identity _ _ _ l c1 Ht (ok_wf _ _ _ _ _ Hok) Hl1) as (c2 & Hl2 & Hs).
  rw Hl in Hl2. injection Hl2 as <-. unfold same_identity in Hs.
  exists b, rq, d, i, ds, now. split; [done|]. intuition congruence.
Qed.

(** C17 — No token without the host's approval. In any history in which the drawn device
    codes are new: whenever a claim wins, its device code is that of a challenge that was
    created earlier in the history and has not expired; what the claim hands out is that
    challenge's base address, its verification address and its expiry; and the host
    approved that challenge earlier in the history, by its user code or by its identifier.
    *)
Theorem claims_need_approval (t : list (op * outcome)) (s s' : store)
    (d : string) (now : Z) (b uri e : string) :
  trace hashSecret initial t s →
  claimRemoteWebPairingChallengeExchange hashSecret d now s = (s', Claim_approved b uri e) →
  ∃ c rq d' i draws t0 resp o r,
    (Create b rq d' i draws t0, resp) ∈ t ∧ hashSecret d' = hashSecret d ∧
    uri = b +:+ "/assistant/pair" ∧ e = toISOString (t0 + CODE_TTL_MS) ∧ now < t0 + CODE_TTL_MS ∧
    c ∈ heap s ∧ id c = i ∧ deviceCodeHash c = hashSecret d ∧
    (o, r) ∈ t ∧ approves hashSecret o r c.
Proof.
  intros Ht Hc. destruct (trace_inv _ _ _ _ Ht wf_initial unique_initial) as [Hwf Hu].
  destruct (claim_approved_inv _ _ _ _ _ _ _ _ Hwf Hc) as (l & c & (Hl & _) & Hd & Hst & Hlt & _ & -> & -> & ->).
  destruct (approved_on_the_way _ _ _ _ _ Ht wf_initial Hl) as [(c0 & Hl0 & _)|(o & r & Hin & Ha)];
    [congruence|done|].
  destruct (created_on_the_way _ _ _ _ _ Ht wf_initial Hl)
    as [[c0 Hl0]|(o0 & r0 & Hin0 & b & rq & d' & i & ds & t0 & -> & Hd' & Hi & Hb & Hv & Hx)]; [done|].
  rw Hb Hv Hx. rw Hx in Hlt. exists c, rq, d', i, ds, t0, r0, o, r.
  split_and!; try done; [congruence|by eapply list_elem_of_lookup_2].
Qed.

Lemma detached_stays s t s' l c :
  trace hashSecret s t s' → wf_store s → heap s !! l = Some c →
  (∀ c, ¬ attached l c s) → ∀ c, ¬ attached l c s'.
Proof.
  intros Ht. revert c. induction Ht as [s|s o r s1 t s2 Hf He _ IH]; intros c Hwf Hl Hn; [done|].
  pose proof (exec_ok _ _ _ _ _ Hwf Hf He) as Hok.
  destruct (ok_old _ _ _ _ _ Hok _ _ Hl) as (c1 & Hl1 & _).
  apply (IH c1); [by eapply ok_wf|done|]. intros c2 Ha.
  destruct (ok_attached _ _ _ _ _ Hok _ _ Ha) as [Hnone|[c3 Ha3]]; [congruence|].
  by destruct (Hn c3).
Qed.

(** A denied request never pairs: once the host has denied a pending
    request, every later poll of its device code is told the code is invalid. *)
Theorem denied_request_never_pairs (t0 t : list (op * outcome)) (s0 s1 s2 : store)
    (i d : string) (l : loc) (c : challenge) (now : Z) :
  trace hashSecret initial t0 s0 →
  findChallengeById i s0 = Some (l, c) → hashSecret d = deviceCodeHash c →
  denyRemoteWebPairingChallengeById i s0 = (s1, Denied) →
  trace hashSecret s1 t s2 →
  claimRemoteWebPairingChallengeExchange hashSecret d now s2 = (s2, Claim_invalid).
Proof.
  intros H0 Hfind Hd Hdeny H1. destruct (trace_inv _ _ _ _ H0 wf_initial unique_initial) as [Hwf Hu].
  destruct (findChallengeById_spec _ _ _ _ Hwf Hfind) as [Ha Hi].
  assert (s1 = deleteChallenge c s0) as ->.
  { unfold denyRemoteWebPairingChallengeById in Hdeny. rw Hfind in Hdeny.
    case_bool_decide; by simplify_eq. }
  assert (trace hashSecret s0 [(Deny i, Denial Denied)] (deleteChallenge c s0)) as Ht1.
  { eapply trace_step; [done| |apply trace_nil]. simpl. by rw Hdeny. }
  destruct (trace_inv _ _ _ _ Ht1 Hwf Hu) as [Hwf1 Hu1].
  destruct (trace_inv _ _ _ _ H1 Hwf1 Hu1) as [Hwf2 Hu2].
  unfold claimRemoteWebPairingChallengeExchange.
  destruct (get byDeviceCodeHash (hashSecret d) s2) as [[l2 c2]|] eqn:Hg; [|done]. exfalso.
  destruct (get_device _ _ _ _ Hwf2 Hg) as [Ha2 Hd2].
  destruct (trace_identity _ _ _ l c H1 Hwf1 (proj1 Ha)) as (c' & Hl' & (_ & Hd' & _)).
  assert (l2 = l) as -> by (eapply Hu2; [apply Ha2|exact Hl'|congruence]).
  eapply (detached_stays _ _ _ l c H1 Hwf1); [apply Ha| |exact Ha2].
  intros c3 [Ha3 Hne]%(attached_delete l c); done.
Qed.
End properties.

(** ** A concrete history: one device, one host *)

(** Build a concrete trace, one operation at a time. *)
Ltac run_trace :=
  repeat (eapply trace_step;
    [by vm_compute; repeat constructor
    |by vm_compute
    |]); apply trace_nil.

Definition demo_draws : list (list nat) := [[0; 1; 2; 3; 24; 25; 30; 31]%nat].
Definition demo_create : op :=
  Create "https://a" (Requester "1.2.3.4" None true) "dev" "req-1" demo_draws 0.
Definition demo_code : string := "ABCD-2389".

Definition exec_all (os : list op) (s : store) : store * list (op * outcome) :=
  foldl (λ '(s, t) o, match exec (λ x, x) o s with
                      | Some (s', r) => (s', t ++ [(o, r)])
                      | None => (s, t)
                      end) (s, []) os.

Definition demo_approved : store * list (op * outcome) :=
  exec_all [demo_create; Claim "dev" 1; Approve "abcd 2389" 2] initial.

Definition demo_claimed : store := (exec_all [Claim "dev" 3] demo_approved.1).1.

Lemma exchange_is_exclusive_witness :
  claimRemoteWebPairingChallengeExchange (λ x, x) "dev" 3 demo_approved.1 =
    (demo_claimed, Claim_approved "https://a" "https://a/assistant/pair" "1970-01-01T00:10:00.000Z") ∧
  (claimRemoteWebPairingChallengeExchange (λ x, x) "dev" 4 demo_claimed).2 ≠
    Claim_approved "https://a" "https://a/assistant/pair" "1970-01-01T00:10:00.000Z".
Proof.
  split; [by vm_compute|].
  eapply (exchange_is_exclusive (λ x, x) demo_approved.2 [] demo_approved.1 demo_claimed demo_claimed
    "dev" 3 4); [|by vm_compute|apply trace_nil|constructor].
  vm_compute. run_trace.
Defined.

Lemma claims_need_approval_witness :
  ∃ c rq d' i draws t0 resp o r,
    (Create "https://a" rq d' i draws t0, resp) ∈ demo_approved.2 ∧ d' = "dev" ∧
    "https://a/assistant/pair" = "https://a" +:+ "/assistant/pair" ∧
    "1970-01-01T00:10:00.000Z" = toISOString (t0 + CODE_TTL_MS) ∧ 3 < t0 + CODE_TTL_MS ∧
    c ∈ heap demo_approved.1 ∧ id c = i ∧ deviceCodeHash c = "dev" ∧
    (o, r) ∈ demo_approved.2 ∧ approves (λ x, x) o r c.
Proof.
  eapply (claims_need_approval (λ x, x) demo_approved.2 demo_approved.1 demo_claimed "dev" 3);
    [|by vm_compute]. vm_compute. run_trace.
Defined.

Definition demo_consumed : store := (exec_all [Complete "dev" 4] demo_claimed).1.

Lemma consumed_code_is_dead_witness :
  (claimRemoteWebPairingChallengeExchange (λ x, x) "dev" 6
    (exec_all [Release "dev"; Approve demo_code 5] demo_consumed).1).2 ≠
    Claim_approved "https://a" "https://a/assistant/pair" "1970-01-01T00:10:00.000Z".
Proof.
  eapply (consumed_code_is_dead (λ x, x)
    (exec_all [demo_create; Approve demo_code 2; Claim "dev" 3] initial).2
    (exec_all [Release "dev"; Approve demo_code 5] demo_consumed).2
    (exec_all [demo_create; Approve demo_code 2; Claim "dev" 3] initial).1
    _ 0%nat _ "dev" 4 6);
    [|by vm_compute|by vm_compute|]; vm_compute; run_trace.
Defined.

Definition demo_pending : store * list (op * outcome) := exec_all [demo_create] initial.
Definition demo_denied : store := (exec_all [Deny "req-1"] demo_pending.1).1.

Lemma denied_request_never_pairs_witness :
  claimRemoteWebPairingChallengeExchange (λ x, x) "dev" 9
    (exec_all [Approve demo_code 5] demo_denied).1 =
  ((exec_all [Approve demo_code 5] demo_denied).1, Claim_invalid).
Proof.
  eapply (denied_request_never_pairs (λ x, x) demo_pending.2
    (exec_all [Approve demo_code 5] demo_denied).2 demo_pending.1 demo_denied _ "req-1" "dev" 0%nat);
    [|by vm_compute|by vm_compute|by vm_compute|]; vm_compute; run_trace.
Defined.

(** ** Capacity and the redraw loop *)
Section capacity.
Context (hashSecret : string → string).
Implicit Types (s : store) (c : challenge) (l : loc) (now : Z).

Lemma active_length s : wf_store s → length (active s) = size (byUserCodeHash s).
Proof. intros Hwf. rw size_keys -active_hashes // length_fmap //. Qed.

Lemma cleanup_size now s : (size (byUserCodeHash (cleanupExpiredChallenges now s)) ≤ size (byUserCodeHash s))%nat.
Proof.
  unfold cleanupExpiredChallenges. generalize (active s). intros cs.
  induction cs as [|c cs IH] in s |- *; simpl; [done|]. etrans; [apply IH|].
  case_match; [apply size_delete_le|done].
Qed.

(** A sweep that expires somebody makes room. *)
Lemma cleanup_size_lt now s c :
  wf_store s → c ∈ active s → expiresAtMs c ≤ now →
  (size (byUserCodeHash (cleanupExpiredChallenges now s)) < size (byUserCodeHash s))%nat.
Proof.
  intros Hwf Hin Hle. destruct (cleanup_spec now s Hwf) as (Hwf' & _ & Ha').
  rw (size_keys (byUserCodeHash s)).
  apply (size_lt_universe _ _ (userCodeHash c)).
  - apply Hwf'.
  - intros h Hh. rw -active_hashes // in Hh.
    apply list_elem_of_fmap in Hh as (c' & -> & Hc'). apply elem_of_active in Hc' as (l' & Hl'); [|done].
    apply Ha' in Hl' as [Hl' _]. eapply lookup_Some_key, Hl'.
  - apply elem_of_active in Hin as (l & Hl); [|done]. eapply lookup_Some_key, Hl.
  - destruct (byUserCodeHash (cleanupExpiredChallenges now s) !! userCodeHash c) as [l'|] eqn:Hl'; [|done].
    destruct (wf_user _ Hwf' _ _ Hl') as (c' & Hc' & He). apply Ha' in Hc' as [Hc' Hlt].
    apply elem_of_active in Hin as (l & Hl); [|done].
    destruct (attached_inj_user _ _ _ _ _ Hc' Hl He) as [_ ->]. lia.
Qed.

Lemma earliest_spec (cs : list challenge) e0 :
  match foldl (λ e c, Some (match e with Some e => Z.min e (expiresAtMs c)
                                    | None => expiresAtMs c end)) e0 cs with
  | Some e => (e0 = Some e ∨ ∃ c, c ∈ cs ∧ expiresAtMs c = e)
  | None => e0 = None ∧ cs = []
  end.
Proof.
  induction cs as [|c cs IH] in e0 |- *; simpl; [by destruct e0; auto|].
  specialize (IH (Some (match e0 with Some e => Z.min e (expiresAtMs c) | None => expiresAtMs c end))).
  case_match; [|by destruct IH].
  destruct IH as [[= <-]|(c' & Hin & <-)]; [|right; exists c'; split; [by right|done]].
  destruct e0 as [e0|]; [|right; exists c; split; [by left|done]].
  destruct (Z.min_spec e0 (expiresAtMs c)) as [[_ ->]|[_ ->]];
    [by left|right; exists c; split; [by left|done]].
Qed.

(** Capacity: the creation route never lets the store exceed two hundred
    challenges, and a caller told to retry after [n] seconds is told so only
    at capacity, with [n] at least one, and finds room after those seconds. *)
Theorem capacity_bounded_and_retry_sound (baseUrl : string) (r : requester) (d i : string)
    (draws : list (list nat)) (now : Z) (stamps stamps' : list Z) (s s' : store)
    (res : mint_response) :
  wf_store s → (size (byUserCodeHash s) ≤ MAX_ACTIVE_CHALLENGES)%nat →
  mint hashSecret baseUrl r d i draws now stamps s = Some (stamps', s', res) →
  (size (byUserCodeHash s') ≤ MAX_ACTIVE_CHALLENGES)%nat ∧
  (∀ n, res = Capacity_limited n →
    1 ≤ n ∧ size (byUserCodeHash s') = MAX_ACTIVE_CHALLENGES ∧
    (checkRemoteWebPairingChallengeCapacity (now + 1000 * n) s').2 = None).
Proof.
  intros Hwf Hmax. unfold mint, checkRemoteWebPairingChallengeCapacity at 1.
  destruct (recordRemoteWebPairingChallengeCreation now stamps) as [st [retry|]].
  { intros [= _ <- <-]. by split. }
  destruct (cleanup_spec now s Hwf) as (Hwf1 & _ & _). pose proof (cleanup_size now s) as Hsz.
  generalize dependent (cleanupExpiredChallenges now s). intros s1 Hwf1 Hsz.
  case_bool_decide as Hroom.
  - unfold createRemoteWebPairingChallenge.
    pose proof (cleanup_size now s1) as Hsz2. generalize dependent (cleanupExpiredChallenges now s1).
    intros s2 Hsz2. destruct (fresh_code _ _ _); [|done]. simpl. intros [= _ <- <-].
    split; [|done]. cbn [byUserCodeHash]. etrans; [apply size_insert_le|unfold loc in *; lia].
  - pose proof (earliest_spec (active s1) None) as He. pose proof (active_length s1 Hwf1) as Hlen.
    case_match eqn:Hfold; [|destruct He as [_ He]; rw He in Hlen; unfold MAX_ACTIVE_CHALLENGES in *; simpl in Hlen; lia].
    intros [= _ <- <-]. split; [lia|]. intros n [= <-].
    destruct He as [?|(c & Hin & He)]; [done|].
    set (n := Z.max 1 _). assert (z ≤ now + 1000 * n) as Hn.
    { pose proof (ceil_div_spec (z - now) 1000). unfold n. lia. }
    split; [lia|]. split; [lia|]. unfold checkRemoteWebPairingChallengeCapacity.
    rw bool_decide_eq_true_2; [done|].
    pose proof (cleanup_size_lt (now + 1000 * n) s1 c Hwf1 Hin). unfold MAX_ACTIVE_CHALLENGES in *. lia.
Qed.

(** The redraw loop ends: among more draws of pairwise distinct codes
    than there are active challenges, one is free; so creation succeeds within
    two hundred and one distinct draws, with a code no active challenge has. *)
Theorem redraw_loop_terminates (baseUrl : string) (r : requester) (d i : string)
    (draws : list (list nat)) (now : Z) (s : store) :
  wf_store s →
  NoDup ((λ dr, code_hash hashSecret (randomUserCode dr)) <$> draws) →
  (size (byUserCodeHash s) < length draws)%nat →
  ∃ s' resp,
    createRemoteWebPairingChallenge hashSecret baseUrl r d i draws now s = Some (s', resp) ∧
    byUserCodeHash (cleanupExpiredChallenges now s) !! code_hash hashSecret (r_userCode resp) = None.
Proof.
  intros Hwf Hnd Hlt. unfold createRemoteWebPairingChallenge.
  pose proof (cleanup_size now s) as Hsz. destruct (cleanup_spec now s Hwf) as (Hwf1 & _ & _).
  generalize dependent (cleanupExpiredChallenges now s). intros s1 Hsz Hwf1.
  assert (∃ code, fresh_code hashSecret draws s1 = Some code) as [code Hcode].
  { destruct (fresh_code hashSecret draws s1) as [code|] eqn:Hf; [by eauto|]. exfalso.
    assert (∀ h, h ∈ ((λ dr, code_hash hashSecret (randomUserCode dr)) <$> draws) →
      h ∈ keys (byUserCodeHash s1)) as Hsub.
    { clear Hnd Hlt Hsz. induction draws as [|dr draws IH]; simpl in *; [set_solver|].
      case_match eqn:Hl; [|done]. intros h [->|Hin]%elem_of_cons; [by eapply lookup_Some_key|by apply IH]. }
    assert (length ((λ dr, code_hash hashSecret (randomUserCode dr)) <$> draws) ≤
      length (keys (byUserCodeHash s1)))%nat as Hle by (by apply submseteq_length, NoDup_submseteq).
    rw length_fmap -size_keys in Hle. lia. }
  rw Hcode. simpl. eexists _, _. split; [done|]. simpl.
  by apply fresh_code_spec in Hcode as [? _].
Qed.
End capacity.

(** Two hundred requests at time 0, the [k]-th with its own codes. *)
Definition nth_draw (k : nat) : list nat :=
  [k mod 32; (k / 32) mod 32; 0; 0; 0; 0; 0; 0]%nat.

Definition nth_create (k : nat) : op :=
  Create "https://a" (Requester "1.2.3.4" None true) (pretty (N.of_nat k)) (pretty (N.of_nat k))
    [nth_draw k] (Z.of_nat k).

Definition full_house : store := (exec_all (nth_create <$> seq 0 200) initial).1.

#[global] Instance fresh_dec o s : Decision (fresh (λ x, x) o s).
Proof. destruct o; simpl; apply _. Defined.

(** Every operation of the history is fresh and executes. *)
Fixpoint runs_fresh (os : list op) (s : store) : bool :=
  match os with
  | [] => true
  | o :: os =>
      bool_decide (fresh (λ x, x) o s) &&
      match exec (λ x, x) o s with Some (s', _) => runs_fresh os s' | None => false end
  end.

Lemma exec_all_wf os : runs_fresh os initial = true → wf_store (exec_all os initial).1.
Proof.
  unfold exec_all. assert (∀ s t, wf_store s → runs_fresh os s = true → wf_store
    (foldl (λ '(s, t) o, match exec (λ x, x) o s with
                      | Some (s', r) => (s', t ++ [(o, r)])
                      | None => (s, t)
                      end) (s, t) os).1) as H; [|intros; apply H; [apply wf_initial|done]].
  induction os as [|o os IH]; intros s t Hwf; simpl; [done|].
  intros [Hf%bool_decide_eq_true He]%andb_true_iff.
  destruct (exec (λ x, x) o s) as [[s1 r]|] eqn:Hex; [|done].
  apply IH; [|done]. by eapply ok_wf, exec_ok.
Qed.

Lemma full_house_wf : wf_store full_house.
Proof. apply exec_all_wf. by vm_compute. Qed.

Lemma capacity_bounded_and_retry_sound_witness :
  (mint (λ x, x) "https://a" (Requester "1.2.3.4" None true) "new" "new" demo_draws 300 [] full_house
    = Some ([300], full_house, Capacity_limited 600)) ∧
  (checkRemoteWebPairingChallengeCapacity (300 + 1000 * 600) full_house).2 = None.
Proof.
  assert (mint (λ x, x) "https://a" (Requester "1.2.3.4" None true) "new" "new" demo_draws 300 [] full_house
    = Some ([300], full_house, Capacity_limited 600)) as Hm by by vm_compute.
  split; [done|].
  apply (capacity_bounded_and_retry_sound (λ x, x) "https://a" (Requester "1.2.3.4" None true) "new" "new"
    demo_draws 300 [] [300] full_house full_house (Capacity_limited 600) full_house_wf); [by vm_compute|done|done].
Defined.

Lemma redraw_loop_terminates_witness :
  ∃ s' resp,
    createRemoteWebPairingChallenge (λ x, x) "https://a" (Requester "1.2.3.4" None true) "dev" "id"
      (nth_draw <$> seq 0 201) 300 full_house = Some (s', resp) ∧
    byUserCodeHash (cleanupExpiredChallenges 300 full_house) !! code_hash (λ x, x) (r_userCode resp) = None.
Proof.
  apply (redraw_loop_terminates (λ x, x) "https://a" (Requester "1.2.3.4" None true) "dev" "id"
    (nth_draw <$> seq 0 201) 300 full_house full_house_wf); [|by vm_compute; lia].
  apply (bool_decide_eq_true_1 _). by vm_compute.
Defined.

(** ** Codes as the host types them *)

Definition is_alnum (a : ascii) : bool := is_upper a || is_lower a || is_digit a.

Lemma alnum_upper a : is_alnum (to_upper a) = is_alnum a.
Proof. by destruct a as [[] [] [] [] [] [] [] []]. Qed.

Lemma upper_idem a : to_upper (to_upper a) = to_upper a.
Proof. by destruct a as [[] [] [] [] [] [] [] []]. Qed.

Lemma upper_lower a : to_upper (to_lower a) = to_upper a.
Proof. by destruct a as [[] [] [] [] [] [] [] []]. Qed.

Lemma alnum_lower a : is_alnum (to_lower a) = is_alnum a.
Proof. by destruct a as [[] [] [] [] [] [] [] []]. Qed.

Lemma normalize_map f code :
  (∀ a, is_alnum (f a) = is_alnum a) → (∀ a, to_upper (f a) = to_upper a) →
  normalizeUserCode (string_map f code) = normalizeUserCode code.
Proof.
  intros Hf Hu. unfold normalizeUserCode. induction code as [|a code IH]; simpl; [done|].
  fold (is_alnum (f a)) (is_alnum a). rw Hf. destruct (is_alnum a); simpl; [|done].
  by rw Hu IH.
Qed.

Lemma normalize_alphabet k code :
  (k < 32)%nat →
  normalizeUserCode (String (alphabet_char k) code) = String (alphabet_char k) (normalizeUserCode code).
Proof. intros Hk. do 32 (destruct k as [|k]; [done|]). lia. Qed.

Lemma normalize_dash code : normalizeUserCode (String "-" code) = normalizeUserCode code.
Proof. done. Qed.

(** What the host types: a displayed code normalizes to its eight
    characters, and lower-casing the typed code or normalizing it once more
    makes no difference to the challenge it names. *)
Theorem displayed_code_normalizes (a b c d e f g h : nat) (typed : string) :
  Forall (λ k, (k < 32)%nat) [a; b; c; d; e; f; g; h] →
  normalizeUserCode (randomUserCode [a; b; c; d; e; f; g; h]) =
    string_of_list_ascii (alphabet_char <$> [a; b; c; d; e; f; g; h]) ∧
  normalizeUserCode (string_map to_lower typed) = normalizeUserCode typed ∧
  normalizeUserCode (normalizeUserCode typed) = normalizeUserCode typed.
Proof.
  rw !Forall_cons. intros (Ha & Hb & Hc & Hd & He & Hf & Hg & Hh & _). split_and!.
  - unfold randomUserCode. simpl.
    by rw !(normalize_alphabet, normalize_dash).
  - apply normalize_map; [apply alnum_lower|apply upper_lower].
  - unfold normalizeUserCode at 2. rw normalize_map; [|apply alnum_upper|apply upper_idem].
    unfold normalizeUserCode. fold is_alnum. f_equal.
    induction typed as [|x typed IH]; simpl; [done|].
    fold (is_alnum x). destruct (is_alnum x) eqn:Hx; simpl; [|done].
    fold (is_alnum x). by rw Hx IH.
Qed.

Lemma displayed_code_normalizes_witness :
  normalizeUserCode "ABCD-2389" = "ABCD2389" ∧ normalizeUserCode "abcd-2389" = "ABCD2389".
Proof.
  pose proof (displayed_code_normalizes 0 1 2 3 24 25 30 31 "ABCD-2389"
    ltac:(repeat constructor; lia)) as (H1 & H2 & _).
  split; [exact H1|]. etrans; [exact H2|exact H1].
Defined.
