(* ===== verification/DedupCache.v ===== *)
(** * Webhook deduplication

    [gateway/src/dedup-cache.ts]: [DedupCache], which remembers Telegram
    update ids with the response they got and a high-water mark, and
    [StringDedupCache], which remembers message ids.  Both are maps with
    expiry and a capacity enforced by dropping the oldest entry; the cleanup
    timer is an event that may sweep at any time. *)

From S2P Require Import Prelude JsMap.
Local Open Scope Z_scope.
Local Open Scope litt_scope.

(** ** Capacity, shared by both caches

    [if (size >= max) evictExpired(); if (size >= max) delete(oldest)] *)
Section capacity.
Context {K V : Type} `{EqDecision K}.
Implicit Types (m : jsmap K V) (k : K) (v : V).

(** [for (const [key, e] of cache) if (now > expiry(e)) cache.delete(key)] *)
Definition evict (expiry : V → Z) (now : Z) (m : jsmap K V) : jsmap K V :=
  sweep (λ _ v, if expiry v <? now then None else Some v) m.

Definition shrink (expiry : V → Z) (now : Z) (max : nat) (m : jsmap K V) : jsmap K V :=
  let m := if bool_decide (max ≤ size m)%nat then evict expiry now m else m in
  if bool_decide (max ≤ size m)%nat then drop_oldest m else m.

Lemma evict_lookup expiry now m k :
  wf m → evict expiry now m !! k = m !! k ≫= λ v, if expiry v <? now then None else Some v.
Proof. intros. unfold evict. by rw lookup_sweep. Qed.

Lemma evict_keeps expiry now m k v :
  wf m → m !! k = Some v → now ≤ expiry v → evict expiry now m !! k = Some v.
Proof. intros Hwf Hk Hle. rw evict_lookup // Hk /=. by destruct (Z.ltb_spec (expiry v) now); [lia|]. Qed.

Lemma wf_evict expiry now m : wf m → wf (evict expiry now m).
Proof. apply wf_sweep. Qed.

Lemma wf_shrink expiry now max m : wf m → wf (shrink expiry now max m).
Proof. intros Hwf. unfold shrink. repeat case_match; auto using wf_evict, wf_drop_oldest. Qed.

Lemma shrink_room expiry now max m k :
  (size m < max)%nat → shrink expiry now max m !! k = m !! k.
Proof. intros Hlt. unfold shrink. rw !(bool_decide_eq_false_2 (max ≤ size m)%nat) //; lia. Qed.

Lemma size_shrink_le expiry now max m : (size (shrink expiry now max m) ≤ size m)%nat.
Proof.
  unfold shrink. pose proof (size_sweep_le (λ (_ : K) v, if expiry v <? now then None else Some v) m) as Hs.
  fold (evict expiry now m) in Hs.
  set (m' := if bool_decide (max ≤ size m)%nat then evict expiry now m else m).
  assert (size m' ≤ size m)%nat by (unfold m'; by case_match).
  case_match; [|done]. pose proof (size_drop_oldest m'). lia.
Qed.

Lemma size_shrink expiry now max m :
  (size m ≤ Nat.max 1 max)%nat → (size (shrink expiry now max m) ≤ pred (Nat.max 1 max))%nat.
Proof.
  intros Hm. unfold shrink.
  pose proof (size_sweep_le (λ (_ : K) v, if expiry v <? now then None else Some v) m) as Hs.
  fold (evict expiry now m) in Hs.
  set (m' := if bool_decide (max ≤ size m)%nat then evict expiry now m else m).
  assert (size m' ≤ size m)%nat by (unfold m'; by case_match).
  case_bool_decide; [pose proof (size_drop_oldest m'); lia|lia].
Qed.

Lemma shrink_lookup_sub expiry now max m k v :
  wf m → shrink expiry now max m !! k = Some v → m !! k = Some v.
Proof.
  intros Hwf. unfold shrink.
  set (m' := if bool_decide (max ≤ size m)%nat then evict expiry now m else m).
  assert (m' !! k = Some v → m !! k = Some v) as Hm'.
  { unfold m'. case_match; [|done]. rw evict_lookup //. destruct (m !! k); simpl; [|done].
    case_match; naive_solver. }
  case_match; [|done]. unfold drop_oldest. case_match; [|done].
  rw lookup_delete. destruct (decide (k0 = k)); [by intros [=]|exact Hm'].
Qed.
End capacity.

(** ** Telegram updates *)

Inductive ReserveResult := Reserved | Duplicate | Already_processed.
#[export] Instance ReserveResult_eq : EqDecision ReserveResult.
Proof. solve_decision. Defined.

Record CacheEntry := Entry {
  body : string;
  status : Z;
  expiresAt : Z;
  processing : bool;
  entry_generation : Z;
}.

Record DedupCache := Dedup {
  cache : jsmap Z CacheEntry;
  ttlMs : Z;
  maxSize : nat;
  highWaterMark : option Z;  (* [None] is [-Infinity] *)
  generation : Z;
  cleanupTimer : option Z;   (* the running timer's interval *)
}.

Definition newDedupCache (ttl : Z) (max : nat) : DedupCache := Dedup ∅ ttl max None 0 None.

Definition with_cache (m : jsmap Z CacheEntry) (c : DedupCache) : DedupCache :=
  Dedup m (ttlMs c) (maxSize c) (highWaterMark c) (generation c) (cleanupTimer c).

Definition get (updateId now : Z) (c : DedupCache) : DedupCache * option (string * Z) :=
  match cache c !! updateId with
  | None => (c, None)
  | Some e =>
      if expiresAt e <? now then (with_cache (delete updateId (cache c)) c, None)
      else (c, if processing e then None else Some (body e, status e))
  end.

(** [updateId <= highWaterMark] *)
Definition at_or_below (updateId : Z) (mark : option Z) : bool :=
  match mark with Some m => updateId <=? m | None => false end.

Definition reserve (updateId now : Z) (c : DedupCache) : DedupCache * ReserveResult :=
  let existing := cache c !! updateId in
  if (match existing with Some e => now <=? expiresAt e | None => false end)
  then (c, Duplicate)
  else
    let c := match existing with Some _ => with_cache (delete updateId (cache c)) c | None => c end in
    if at_or_below updateId (highWaterMark c) then (c, Already_processed)
    else
      let m := shrink expiresAt now (maxSize c) (cache c) in
      (with_cache (<[updateId := Entry EmptyString 0 (now + ttlMs c) true (generation c)]> m) c,
       Reserved).

Definition unreserve (updateId reservedIn : Z) (c : DedupCache) : DedupCache :=
  if negb (reservedIn =? generation c) then c
  else match cache c !! updateId with
       | Some e => if processing e then with_cache (delete updateId (cache c)) c else c
       | None => c
       end.

Definition set (updateId : Z) (b : string) (st reservedIn now : Z) (c : DedupCache) : DedupCache :=
  if negb (reservedIn =? generation c) then c
  else
    let mark := if at_or_below updateId (highWaterMark c) then highWaterMark c else Some updateId in
    let m := shrink expiresAt now (maxSize c) (cache c) in
    Dedup (<[updateId := Entry b st (now + ttlMs c) false (generation c)]> m)
      (ttlMs c) (maxSize c) mark (generation c) (cleanupTimer c).

Definition reset (c : DedupCache) : DedupCache :=
  Dedup ∅ (ttlMs c) (maxSize c) None (generation c + 1) (cleanupTimer c).

Definition evictExpired (now : Z) (c : DedupCache) : DedupCache :=
  with_cache (evict expiresAt now (cache c)) c.

Definition stopCleanup (c : DedupCache) : DedupCache :=
  Dedup (cache c) (ttlMs c) (maxSize c) (highWaterMark c) (generation c) None.

Definition startCleanup (intervalMs : Z) (c : DedupCache) : DedupCache :=
  let c := stopCleanup c in
  Dedup (cache c) (ttlMs c) (maxSize c) (highWaterMark c) (generation c) (Some intervalMs).

(** *** Histories *)
Inductive event :=
| Get (id now : Z) | Reserve (id now : Z) | Unreserve (id gen : Z)
| Set_ (id : Z) (b : string) (st gen now : Z) | Reset | Sweep (now : Z).

Definition apply (c : DedupCache) (e : event) : DedupCache :=
  match e with
  | Get i now => (get i now c).1
  | Reserve i now => (reserve i now c).1
  | Unreserve i g => unreserve i g c
  | Set_ i b st g now => set i b st g now c
  | Reset => reset c
  | Sweep now => evictExpired now c
  end.

Definition run (es : list event) (c : DedupCache) : DedupCache := foldl apply c es.

Section lemmas.
Implicit Types (c : DedupCache) (e : event) (id now : Z).

Lemma cache_apply_wf c e : wf (cache c) → wf (cache (apply c e)).
Proof.
  intros Hwf. destruct e as [i now|i now|i g|i b st g now| |now]; simpl.
  - unfold get. repeat case_match; simpl; auto using wf_delete.
  - unfold reserve. destruct (cache c !! i) eqn:He; repeat case_match; simpl;
      auto 6 using wf_insert, wf_shrink, wf_delete.
  - unfold unreserve. repeat case_match; simpl; auto using wf_delete.
  - unfold set. case_match; simpl; auto using wf_insert, wf_shrink.
  - apply wf_empty.
  - by apply wf_evict.
Qed.

Lemma apply_params c e : maxSize (apply c e) = maxSize c ∧ ttlMs (apply c e) = ttlMs c.
Proof.
  destruct e as [i now|i now|i g|i b st g now| |now]; simpl;
    unfold get, reserve, unreserve, set; repeat case_match; done.
Qed.

Lemma apply_size c e :
  (size (cache c) ≤ Nat.max 1 (maxSize c))%nat →
  (size (cache (apply c e)) ≤ Nat.max 1 (maxSize c))%nat.
Proof.
  intros Hs.
  assert (∀ k (v : CacheEntry) now (m : jsmap Z CacheEntry), (size m ≤ Nat.max 1 (maxSize c))%nat →
    (size (<[k := v]> (shrink expiresAt now (maxSize c) m)) ≤ Nat.max 1 (maxSize c))%nat) as Hins.
  { intros k v now m Hm. etrans; [apply size_insert_le|].
    pose proof (size_shrink expiresAt now _ _ Hm). lia. }
  assert (∀ k, (size (delete k (cache c)) ≤ Nat.max 1 (maxSize c))%nat) as Hdel.
  { intros k. etrans; [apply size_delete_le|done]. }
  destruct e as [i now|i now|i g|i b st g now| |now]; cbn [apply].
  - unfold get. repeat case_match; simpl; auto.
  - unfold reserve. destruct (cache c !! i) eqn:He; repeat case_match; simpl; auto.
  - unfold unreserve. repeat case_match; simpl; auto.
  - unfold set. case_match; simpl; auto.
  - cbn [reset cache]. rw size_empty. lia.
  - etrans; [apply size_sweep_le|done].
Qed.

(** Without a reset the generation stays and the mark never goes back. *)
Lemma apply_mark c e m :
  e ≠ Reset → highWaterMark c = Some m →
  ∃ m', highWaterMark (apply c e) = Some m' ∧ m ≤ m'.
Proof.
  intros He Hm. destruct e as [i now|i now|i g|i b st g now| |now]; simpl; try done;
    unfold get, reserve, unreserve, set; try (repeat case_match; by exists m; split; [|lia]).
  case_match; simpl; [by exists m; split; [|lia]|]. rw Hm /=.
  destruct (Z.leb_spec i m); eexists; split; try done; lia.
Qed.

Lemma run_mark es : ∀ c m,
  Reset ∉ es → highWaterMark c = Some m →
  ∃ m', highWaterMark (run es c) = Some m' ∧ m ≤ m'.
Proof.
  induction es as [|e es IH]; intros c m Hr Hm; simpl; [by exists m; split; [|lia]|].
  rw not_elem_of_cons in Hr. destruct Hr as [Hr1 Hr2].
  destruct (apply_mark c e m) as (m1 & Hm1 & Hle1); [done..|].
  destruct (IH (apply c e) m1 Hr2 Hm1) as (m2 & Hm2 & Hle2). exists m2. split; [done|lia].
Qed.

Lemma apply_generation c e : generation c ≤ generation (apply c e).
Proof.
  destruct e as [i now|i now|i g|i b st g now| |now]; simpl;
    unfold get, reserve, unreserve, set; try (repeat case_match; simpl; lia).
Qed.

Lemma run_generation es : ∀ c, generation c ≤ generation (run es c).
Proof.
  induction es as [|e es IH]; intros c; simpl; [lia|].
  etrans; [apply apply_generation|apply IH].
Qed.

Lemma run_size es : ∀ c,
  (size (cache c) ≤ Nat.max 1 (maxSize c))%nat →
  (size (cache (run es c)) ≤ Nat.max 1 (maxSize c))%nat.
Proof.
  induction es as [|e es IH]; intros c Hs; simpl; [done|].
  destruct (apply_params c e) as [Hm _]. rw -Hm. apply IH. rw Hm. by apply apply_size.
Qed.
End lemmas.

(** The clock readings of an event are at most [x]. *)
Definition by_time (x : Z) (e : event) : Prop :=
  match e with
  | Get _ now | Reserve _ now | Set_ _ _ _ _ now | Sweep now => now ≤ x
  | Unreserve _ _ | Reset => True
  end.

(** Events that end the reservation of [i]. *)
Definition settles (i : Z) (e : event) : Prop :=
  match e with
  | Unreserve i' _ | Set_ i' _ _ _ _ => i' = i
  | Reset => True
  | _ => False
  end.

Section reservations.
Implicit Types (c : DedupCache) (e : event) (id now : Z).

Lemma apply_size_succ c e : (size (cache (apply c e)) ≤ S (size (cache c)))%nat.
Proof.
  assert (∀ k (v : CacheEntry) now (m : jsmap Z CacheEntry), (size m ≤ size (cache c))%nat →
    (size (<[k := v]> (shrink expiresAt now (maxSize c) m)) ≤ S (size (cache c)))%nat) as Hins.
  { intros k v now m Hm. etrans; [apply size_insert_le|].
    pose proof (size_shrink_le expiresAt now (maxSize c) m). lia. }
  assert (∀ k, (size (delete k (cache c)) ≤ size (cache c))%nat) as Hdel by (intros; apply size_delete_le).
  assert (∀ k, (size (delete k (cache c)) ≤ S (size (cache c)))%nat) as Hdel'.
  { intros k. specialize (Hdel k). lia. }
  destruct e as [i now|i now|i g|i b st g now| |now]; cbn [apply].
  - unfold get. repeat case_match; simpl; auto.
  - unfold reserve. destruct (cache c !! i) eqn:He; repeat case_match; simpl; auto.
  - unfold unreserve. repeat case_match; simpl; auto.
  - unfold set. case_match; simpl; auto.
  - cbn [reset cache]. rw size_empty. lia.
  - cbn [evictExpired with_cache cache]. etrans; [apply size_sweep_le|lia].
Qed.

(** While there is room and the entry has not expired, no event but its own
    completion removes it. *)
Lemma apply_keeps c e i en :
  wf (cache c) → cache c !! i = Some en → (size (cache c) < maxSize c)%nat →
  by_time (expiresAt en) e → ¬ settles i e →
  cache (apply c e) !! i = Some en.
Proof.
  intros Hwf Hi Hroom Ht Hs.
  destruct e as [i' now|i' now|i' g|i' b st g now| |now]; cbn [apply by_time settles] in *; [..|tauto|].
  - unfold get. destruct (decide (i' = i)) as [->|Hne].
    + rw Hi. by destruct (Z.ltb_spec (expiresAt en) now); [lia|].
    + repeat case_match; simpl; try done. by rw lookup_delete_ne.
  - unfold reserve. destruct (decide (i' = i)) as [->|Hne].
    + rw Hi. by destruct (Z.leb_spec now (expiresAt en)); [|lia].
    + assert (cache (if cache c !! i' then with_cache (delete i' (cache c)) c else c) !! i = Some en ∧
        (size (cache (if cache c !! i' then with_cache (delete i' (cache c)) c else c)) < maxSize c)%nat) as [Hk Hr].
      { case_match; [|done]. simpl. rw lookup_delete_ne //. split; [done|].
        pose proof (size_delete_le i' (cache c)). lia. }
      destruct (cache c !! i') eqn:He; repeat case_match; simpl in *; try done;
        rw lookup_insert_ne // shrink_room //.
  - unfold unreserve. repeat case_match; simpl; try done. by rw lookup_delete_ne.
  - unfold set. case_match; simpl; [done|]. rw lookup_insert_ne // shrink_room //.
  - by apply evict_keeps.
Qed.

Lemma run_keeps es : ∀ c i en,
  wf (cache c) → cache c !! i = Some en → (size (cache c) + length es ≤ maxSize c)%nat →
  Forall (λ e, by_time (expiresAt en) e ∧ ¬ settles i e) es →
  cache (run es c) !! i = Some en.
Proof.
  induction es as [|e es IH]; intros c i en Hwf Hi Hroom Hes; simpl in *; [done|].
  apply Forall_cons in Hes as [[Ht Hs] Hes].
  pose proof (apply_size_succ c e). destruct (apply_params c e) as [Hm _].
  apply IH; [by apply cache_apply_wf|apply apply_keeps; try done; lia|lia|done].
Qed.
End reservations.

(** No update is processed twice: once an update id has been finalized
    in the cache's generation, no reservation of that id or of a lower one is
    ever granted again — whatever expires, is evicted or fails meanwhile —
    until the bot is rotated. *)
Theorem finalized_updates_stay_rejected (c : DedupCache) (id : Z) (b : string) (st now : Z)
    (es : list event) (id' now' : Z) :
  Reset ∉ es → id' ≤ id →
  (reserve id' now' (run es (set id b st (generation c) now c))).2 ≠ Reserved.
Proof.
  intros Hr Hle. set (c1 := set id b st (generation c) now c).
  assert (∃ m, highWaterMark c1 = Some m ∧ id ≤ m) as (m & Hm & Hid).
  { unfold c1, set. rw Z.eqb_refl /=. unfold at_or_below. destruct (highWaterMark c) as [m0|].
    - destruct (Z.leb_spec id m0); eexists; split; try done; lia.
    - eexists; split; [done|lia]. }
  destruct (run_mark es c1 m Hr Hm) as (m' & Hm' & Hle').
  assert (∀ c', highWaterMark c' = Some m' → at_or_below id' (highWaterMark c') = true) as Hbelow.
  { intros c' ->. apply Z.leb_le. lia. }
  unfold reserve. destruct (cache (run es c1) !! id') as [e|].
  - case_match; [done|]. by rw Hbelow.
  - by rw Hbelow.
Qed.

Lemma finalized_updates_stay_rejected_witness :
  let c := (reserve 7 0 (newDedupCache 300000 10000)).1 in
  (reserve 6 9000000 (run [Sweep 8000000] (set 7 "ok" 200 0 5 c))).2 ≠ Reserved.
Proof.
  intros c. apply (finalized_updates_stay_rejected c 7 "ok" 200 5 [Sweep 8000000] 6 9000000); [|lia].
  by rw list_elem_of_singleton.
Defined.

(** No update is processed concurrently: after an update id has been
    reserved, every retry inside the expiry time is a duplicate until the
    first handler finalizes or releases it — as long as fewer operations than
    the free capacity intervene, so that it cannot be dropped as the oldest. *)
Theorem reservation_is_exclusive (c c1 : DedupCache) (id now now' : Z) (es : list event) :
  wf (cache c) → reserve id now c = (c1, Reserved) →
  (size (cache c1) + length es ≤ maxSize c1)%nat →
  Forall (λ e, by_time (now + ttlMs c) e ∧ ¬ settles id e) es →
  now' ≤ now + ttlMs c →
  reserve id now' (run es c1) = (run es c1, Duplicate).
Proof.
  intros Hwf Hres Hroom Hes Hnow.
  assert (wf (cache c1)) as Hwf1.
  { replace c1 with (apply c (Reserve id now)) by by rw /= Hres. by apply cache_apply_wf. }
  assert (∃ e, cache c1 !! id = Some e ∧ expiresAt e = now + ttlMs c) as (e & Hl & Hexp).
  { revert Hres. unfold reserve. destruct (cache c !! id) eqn:He; repeat case_match; try done;
      intros [= <-]; simpl; rw lookup_insert_eq; by eexists. }
  rw -Hexp in Hes Hnow. pose proof (run_keeps es c1 id e Hwf1 Hl Hroom Hes) as Hk.
  unfold reserve. rw Hk. by destruct (Z.leb_spec now' (expiresAt e)); [|lia].
Qed.

Lemma reservation_is_exclusive_witness :
  let c1 := (reserve 7 0 (newDedupCache 300000 10000)).1 in
  reserve 7 300000 (run [Reserve 8 1; Sweep 299999] c1) = (run [Reserve 8 1; Sweep 299999] c1, Duplicate).
Proof.
  intros c1. unfold c1.
  apply (reservation_is_exclusive (newDedupCache 300000 10000)
    (reserve 7 0 (newDedupCache 300000 10000)).1 7 0 300000 [Reserve 8 1; Sweep 299999]).
  - apply wf_empty.
  - by vm_compute.
  - vm_compute. lia.
  - repeat constructor; simpl; try lia; tauto.
  - simpl. lia.
Defined.

(** A departed bot cannot touch the new bot's cache: work reserved
    before a rotation neither finalizes nor releases anything after it. *)
Theorem stale_generation_is_ignored (c : DedupCache) (es es' : list event)
    (id : Z) (b : string) (st now : Z) :
  let c' := run es' (reset (run es c)) in
  set id b st (generation c) now c' = c' ∧ unreserve id (generation c) c' = c'.
Proof.
  intros c'. assert (generation c < generation c') as Hlt.
  { pose proof (run_generation es c). pose proof (run_generation es' (reset (run es c))) as H'.
    fold c' in H'. simpl in H'. lia. }
  unfold set, unreserve. by destruct (Z.eqb_spec (generation c) (generation c')); [lia|].
Qed.

(** The cache stays within its capacity under any sequence of events. *)
Theorem dedup_cache_bounded (ttl : Z) (max : nat) (es : list event) :
  (1 ≤ max)%nat → (size (cache (run es (newDedupCache ttl max))) ≤ max)%nat.
Proof.
  intros Hmax. pose proof (run_size es (newDedupCache ttl max)) as Hs.
  cbn [newDedupCache cache maxSize] in Hs. rw size_empty in Hs. lia.
Qed.

Lemma dedup_cache_bounded_witness :
  (size (cache (run [Reserve 1 0; Reserve 2 1; Reserve 3 2] (newDedupCache 300000 2))) ≤ 2)%nat.
Proof. apply (dedup_cache_bounded 300000 2). lia. Defined.

(** A failed update can be lost: when a higher update is finalized while
    a lower one is in flight and the lower one then fails and releases its
    reservation, the retry the release was meant to allow is rejected as
    already processed, although it never was. *)
Theorem failed_update_overtaken_is_lost (c : DedupCache) (lo hi t1 t2 t3 : Z)
    (b : string) (st : Z) (c1 : DedupCache) :
  wf (cache c) → lo < hi → reserve lo t1 c = (c1, Reserved) →
  (size (cache c1) < maxSize c1)%nat →
  let overtaken := set hi b st (generation c) t2 c1 in
  let released := unreserve lo (generation c) overtaken in
  cache released !! lo = None ∧ (reserve lo t3 released).2 = Already_processed.
Proof.
  intros Hwf Hlt Hres Hroom overtaken released.
  assert (∃ e, cache c1 !! lo = Some e ∧ processing e = true ∧ generation c1 = generation c)
    as (e & Hl & Hp & Hg).
  { revert Hres. unfold reserve. destruct (cache c !! lo) eqn:He; repeat case_match; try done;
      intros [= <-]; simpl; rw lookup_insert_eq; by eexists. }
  assert (cache overtaken !! lo = Some e) as Ho.
  { unfold overtaken, set. rw Hg Z.eqb_refl /=. rw lookup_insert_ne; [|lia]. by rw shrink_room. }
  assert (generation overtaken = generation c) as Hgo.
  { unfold overtaken, set. by rw Hg Z.eqb_refl. }
  assert (cache released !! lo = None ∧ highWaterMark released = highWaterMark overtaken) as [Hn Hm].
  { unfold released, unreserve. rw Hgo Z.eqb_refl /= Ho Hp. simpl. by rw lookup_delete_eq. }
  split; [done|]. unfold reserve. rw Hn Hm.
  assert (at_or_below lo (highWaterMark overtaken) = true) as ->; [|done].
  unfold overtaken, set. rw Hg Z.eqb_refl /=. unfold at_or_below. destruct (highWaterMark c1) as [m|].
  - destruct (Z.leb_spec hi m); apply Z.leb_le; lia.
  - apply Z.leb_le. lia.
Qed.

Lemma failed_update_overtaken_is_lost_witness :
  let c1 := (reserve 6 0 (newDedupCache 300000 10000)).1 in
  (reserve 6 30 (unreserve 6 0 (set 7 "ok" 200 0 10 c1))).2 = Already_processed.
Proof.
  intros c1.
  apply (failed_update_overtaken_is_lost (newDedupCache 300000 10000) 6 7 0 10 30 "ok" 200 c1).
  - apply wf_empty.
  - lia.
  - by vm_compute.
  - vm_compute. lia.
Defined.

(** ** Message ids *)
Module StringDedupCache.

Record StringDedupCache := Dedup {
  cache : jsmap string Z;        (* key to expiry *)
  processing : list string;      (* a [Set], in insertion order *)
  ttlMs : Z;
  maxSize : nat;
  cleanupTimer : option Z;
}.

Definition newStringDedupCache (ttl : Z) (max : nat) : StringDedupCache := Dedup ∅ [] ttl max None.

Definition with_ (m : jsmap string Z) (p : list string) (c : StringDedupCache) : StringDedupCache :=
  Dedup m p (ttlMs c) (maxSize c) (cleanupTimer c).

Definition has (key : string) (now : Z) (c : StringDedupCache) : StringDedupCache * bool :=
  if bool_decide (key ∈ processing c) then (c, true)
  else match cache c !! key with
       | Some x => if now <=? x then (c, true) else (with_ (delete key (cache c)) (processing c) c, false)
       | None => (c, false)
       end.

Definition reserve (key : string) (now : Z) (c : StringDedupCache) : StringDedupCache * bool :=
  match has key now c with
  | (c, true) => (c, false)
  | (c, false) => (with_ (cache c) (processing c ++ [key]) c, true)
  end.

(** [processing.delete(key)] *)
Definition without (key : string) (p : list string) : list string := filter (λ k, k ≠ key) p.

Definition unreserve (key : string) (c : StringDedupCache) : StringDedupCache :=
  with_ (cache c) (without key (processing c)) c.

Definition mark (key : string) (now : Z) (c : StringDedupCache) : StringDedupCache :=
  let m := shrink (λ x, x) now (maxSize c) (cache c) in
  with_ (<[key := now + ttlMs c]> m) (without key (processing c)) c.

Definition seen (key : string) (now : Z) (c : StringDedupCache) : StringDedupCache * bool :=
  match has key now c with
  | (c, true) => (c, true)
  | (c, false) => (mark key now c, false)
  end.

Definition evictExpired (now : Z) (c : StringDedupCache) : StringDedupCache :=
  with_ (evict (λ x, x) now (cache c)) (processing c) c.

Definition stopCleanup (c : StringDedupCache) : StringDedupCache :=
  Dedup (cache c) (processing c) (ttlMs c) (maxSize c) None.

Definition startCleanup (intervalMs : Z) (c : StringDedupCache) : StringDedupCache :=
  let c := stopCleanup c in
  Dedup (cache c) (processing c) (ttlMs c) (maxSize c) (Some intervalMs).

Inductive event :=
| Has (key : string) (now : Z) | Reserve (key : string) (now : Z) | Unreserve (key : string)
| Mark (key : string) (now : Z) | Seen (key : string) (now : Z) | Sweep (now : Z).

Definition apply (c : StringDedupCache) (e : event) : StringDedupCache :=
  match e with
  | Has k now => (has k now c).1
  | Reserve k now => (reserve k now c).1
  | Unreserve k => unreserve k c
  | Mark k now => mark k now c
  | Seen k now => (seen k now c).1
  | Sweep now => evictExpired now c
  end.

Definition run (es : list event) (c : StringDedupCache) : StringDedupCache := foldl apply c es.

(** Completion events of [key]. *)
Definition settles (key : string) (e : event) : Prop :=
  match e with Unreserve k | Mark k _ => k = key | _ => False end.

Section lemmas.
Implicit Types (c : StringDedupCache) (key : string) (now : Z).

Lemma without_other key k p : k ≠ key → k ∈ p → k ∈ without key p.
Proof. intros Hne Hin. unfold without. by apply list_elem_of_filter. Qed.

Lemma has_processing key now c : processing (has key now c).1 = processing c.
Proof. unfold has. by repeat case_match. Qed.

(** A reservation only ends by being marked or released: [seen] cannot end
    it, because a reserved key has already been seen. *)
Lemma apply_processing c e key :
  ¬ settles key e → key ∈ processing c → key ∈ processing (apply c e).
Proof.
  intros Hs Hin. destruct e as [k now|k now|k|k now|k now|now]; simpl in *; try done.
  - by rw has_processing.
  - unfold reserve. pose proof (has_processing k now c) as Hp.
    destruct (has k now c) as [c' []]; simpl in *; rw Hp; [done|]. apply elem_of_app. by left.
  - apply without_other; [congruence|done].
  - apply without_other; [congruence|done].
  - unfold seen. pose proof (has_processing k now c) as Hp.
    destruct (has k now c) as [c' b] eqn:Hh; simpl in *. destruct b; simpl; rw Hp; [done|].
    apply without_other; [|done]. intros <-. unfold has in Hh.
    by rw bool_decide_eq_true_2 // in Hh.
Qed.

Lemma run_processing es : ∀ c key,
  Forall (λ e, ¬ settles key e) es → key ∈ processing c → key ∈ processing (run es c).
Proof.
  induction es as [|e es IH]; intros c key Hes Hin; simpl; [done|].
  apply Forall_cons in Hes as [He Hes]. apply IH; [done|]. by apply apply_processing.
Qed.

Lemma reserved_has key now c : key ∈ processing c → has key now c = (c, true).
Proof. intros. unfold has. by rw bool_decide_eq_true_2. Qed.
End lemmas.

(** Concurrent deliveries of one message are processed once: after a
    granted reservation, and until it is marked or released, every other
    delivery — a reservation, a membership test or a check-and-mark, at any
    time — sees the key as taken and changes nothing. *)
Theorem string_reservation_is_exclusive (c : StringDedupCache) (key : string) (now now' : Z)
    (es : list event) :
  (reserve key now c).2 = true →
  Forall (λ e, ¬ settles key e) es →
  let c' := run es (reserve key now c).1 in
  reserve key now' c' = (c', false) ∧ has key now' c' = (c', true) ∧ seen key now' c' = (c', true).
Proof.
  intros Hr Hes c'.
  assert (key ∈ processing c') as Hin.
  { apply run_processing; [done|]. revert Hr. unfold reserve. destruct (has key now c) as [c1 []]; [done|].
    intros _. apply elem_of_app. right. by left. }
  unfold reserve, seen. by rw !(reserved_has key now' c' Hin).
Qed.

Lemma string_reservation_is_exclusive_witness :
  let c := (reserve "wamid.1" 0 (newStringDedupCache 86400000 10000)).1 in
  seen "wamid.1" 999999999 (run [Sweep 900000000; Reserve "wamid.2" 1] c) =
    (run [Sweep 900000000; Reserve "wamid.2" 1] c, true).
Proof.
  intros c. apply (string_reservation_is_exclusive (newStringDedupCache 86400000 10000) "wamid.1" 0
    999999999 [Sweep 900000000; Reserve "wamid.2" 1]); [by vm_compute|].
  repeat constructor; simpl; tauto.
Defined.

(** A failed delivery can be retried: releasing a granted reservation
    lets the next delivery through. *)
Theorem released_message_can_retry (c : StringDedupCache) (key : string) (now now' : Z) :
  (reserve key now c).2 = true →
  (reserve key now' (unreserve key (reserve key now c).1)).2 = true.
Proof.
  unfold reserve at 1 3. destruct (has key now c) as [c1 b] eqn:Hh.
  destruct b; [done|]. intros _.
  assert (key ∉ processing c ∧ cache c1 !! key = None) as [Hp Hc].
  { revert Hh. unfold has. case_bool_decide as Hp; [done|]. destruct (cache c !! key) as [x|] eqn:Hx.
    - case_match; [done|]. intros [= <-]. simpl. by rw lookup_delete_eq.
    - by intros [= <-]. }
  assert (key ∉ without key (processing c1 ++ [key])) as Hw.
  { unfold without. rw list_elem_of_filter. tauto. }
  cbn [fst]. unfold reserve, has, unreserve. simpl. rw bool_decide_eq_false_2 // Hc //.
Qed.

Lemma released_message_can_retry_witness :
  let c := newStringDedupCache 86400000 10000 in
  (reserve "m" 5 (unreserve "m" (reserve "m" 0 c).1)).2 = true.
Proof.
  intros c. apply (released_message_can_retry (newStringDedupCache 86400000 10000) "m" 0 5).
  by vm_compute.
Defined.
End StringDedupCache.
