(* ===== verification/PendingInteractions.v ===== *)
(** * Pending interactions

    [assistant/src/runtime/pending-interactions.ts]: the map of confirmation,
    secret, question and host-proxy requests a human or a client still has to
    answer.  Callbacks and timers held by an entry are handles; invoking or
    clearing one is an effect, and operations return their effects in order.
    The descriptive fields nothing here looks at are one payload. *)

From S2P Require Import Prelude JsMap.
Local Open Scope litt_scope.

Inductive InteractionResolutionState := approved | rejected | answered | cancelled | superseded.
#[export] Instance InteractionResolutionState_eq : EqDecision InteractionResolutionState.
Proof. solve_decision. Defined.

Inductive kind :=
| confirmation | secret | question | host_bash | host_file | host_cu | host_browser
| host_app_control | host_transfer | host_ui_snapshot | acp_confirmation.
#[export] Instance kind_eq : EqDecision kind.
Proof. solve_decision. Defined.

Section interactions.
Context {P : Type}.

Record PendingInteraction := Interaction {
  conversationId : option string;
  kind_of : kind;
  rpcResolve : option nat;
  rpcReject : option nat;
  timer : option nat;
  detachAbort : option nat;
  payload : P;
}.

(** The value a secret prompt is settled with: no secret, and why. *)
Inductive secret_reason := reason_superseded | reason_cancelled.

Inductive effect :=
| ClearTimeout (t : nat)
| CallDetachAbort (f : nat)
| Broadcast (requestId cid : string) (k : kind) (st : InteractionResolutionState)
| CallRpcResolve (f : nat) (reason : secret_reason).

Definition registry := jsmap string PendingInteraction.

Implicit Types (m : registry) (i : PendingInteraction) (id cid : string)
  (st : InteractionResolutionState).

Definition register (id : string) (i : PendingInteraction) (m : registry) : registry :=
  <[id := i]> m.

Definition emitResolved (id : string) (i : PendingInteraction) (st : InteractionResolutionState)
    : list effect :=
  match conversationId i with
  | None => []
  | Some cid => [Broadcast id cid (kind_of i) st]
  end.

(** Disarming an entry that leaves the registry. *)
Definition disarm (i : PendingInteraction) : list effect :=
  from_option (λ t, [ClearTimeout t]) [] (timer i) ++
  from_option (λ f, [CallDetachAbort f]) [] (detachAbort i).

Definition resolve (id : string) (st : InteractionResolutionState) (m : registry)
    : registry * option PendingInteraction * list effect :=
  match m !! id with
  | None => (m, None, [])
  | Some i => (delete id m, Some i, disarm i ++ emitResolved id i st)
  end.

Definition getByConversation (cid : string) (m : registry) : list (string * PendingInteraction) :=
  filter (λ e, conversationId e.2 = Some cid) (entries m).

Definition settleSecret (id : string) (st : InteractionResolutionState) (m : registry)
    : registry * list effect :=
  let '(m, i, es) := resolve id st m in
  (m, es ++ match i ≫= rpcResolve with
            | Some f => [CallRpcResolve f (if bool_decide (st = superseded) then reason_superseded
                                           else reason_cancelled)]
            | None => []
            end).

(** The kinds a sweep of a conversation leaves alone. *)
Definition survives_sweep (k : kind) : bool :=
  match k with
  | host_bash | host_file | host_cu | host_browser | host_app_control | host_transfer
  | acp_confirmation | question => true
  | _ => false
  end.

(** The loop over a snapshot of the entries, for the entries [which] selects. *)
Fixpoint sweep_entries (which : PendingInteraction → bool)
    (st : InteractionResolutionState) (snapshot : list (string * PendingInteraction))
    (m : registry) : registry * list effect :=
  match snapshot with
  | [] => (m, [])
  | (id, i) :: rest =>
      if which i then
        let '(m, es) :=
          if bool_decide (kind_of i = secret) then settleSecret id st m
          else let '(m, _, es) := resolve id st m in (m, es) in
        let '(m, es') := sweep_entries which st rest m in
        (m, es ++ es')
      else sweep_entries which st rest m
  end.

Definition removeByConversation (cid : string) (st : InteractionResolutionState) (m : registry)
    : registry * list effect :=
  sweep_entries
    (λ i, bool_decide (conversationId i = Some cid) && negb (survives_sweep (kind_of i)))
    st (entries m) m.

Definition supersedePendingSecrets (cid : string) (st : InteractionResolutionState) (m : registry)
    : registry * list effect :=
  sweep_entries
    (λ i, bool_decide (conversationId i = Some cid) && bool_decide (kind_of i = secret))
    st (entries m) m.

Definition getByKind (k : kind) (m : registry) : list (string * PendingInteraction) :=
  filter (λ e, kind_of e.2 = k) (entries m).

Definition getAll (m : registry) : list (string * PendingInteraction) := entries m.

Definition clear (m : registry) : registry := ∅.

(** ** Sweeps, declaratively *)

(** Everything removing one entry does. *)
Definition farewell (st : InteractionResolutionState) (id : string) (i : PendingInteraction)
    : list effect :=
  disarm i ++ emitResolved id i st ++
  match kind_of i, rpcResolve i with
  | secret, Some f => [CallRpcResolve f (if bool_decide (st = superseded) then reason_superseded
                                         else reason_cancelled)]
  | _, _ => []
  end.

(** The abstract sweep: the selected entries leave, in registration order. *)
Definition sweep_spec (which : PendingInteraction → bool) (st : InteractionResolutionState)
    (m : registry) : registry * list effect :=
  (JsMap (filter (λ e, which e.2 = false) (entries m)),
   filter (λ e, which e.2 = true) (entries m) ≫= λ e, farewell st e.1 e.2).

(** The keys a snapshot's selected entries have. *)
Definition selected (which : PendingInteraction → bool) (l : list (string * PendingInteraction))
    : list string := (filter (λ e, which e.2 = true) l).*1.

Lemma entries_delete id m : entries (delete id m) = filter (λ e, e.1 ≠ id) (entries m).
Proof. done. Qed.

Lemma remove_one st id i m :
  m !! id = Some i →
  (if bool_decide (kind_of i = secret) then settleSecret id st m
   else let '(m, _, es) := resolve id st m in (m, es)) = (delete id m, farewell st id i).
Proof.
  intros Hl. unfold farewell. case_bool_decide as Hk.
  - unfold settleSecret, resolve. rw Hl /= Hk.
    destruct (rpcResolve i); by rw -?app_assoc.
  - unfold resolve. rw Hl. f_equal. destruct (kind_of i); try done; by rw app_nil_r.
Qed.

Lemma sweep_entries_spec which st snapshot : ∀ m,
  NoDup snapshot.*1 → (∀ id i, (id, i) ∈ snapshot → m !! id = Some i) →
  sweep_entries which st snapshot m =
    (JsMap (filter (λ e, e.1 ∉ selected which snapshot) (entries m)),
     filter (λ e, which e.2 = true) snapshot ≫= λ e, farewell st e.1 e.2).
Proof.
  induction snapshot as [|[id i] rest IH]; intros m Hnd Hin; simpl.
  { f_equal. destruct m as [l]. simpl. f_equal. symmetry. apply filter_keep.
    apply Forall_forall. intros e _. apply not_elem_of_nil. }
  apply NoDup_cons in Hnd as [Hnin Hnd].
  destruct (which i) eqn:Hw.
  - rw (remove_one st id i m); [|apply Hin; by left].
    rw IH; [|done|].
    + unfold selected. rw (filter_cons_True _ _ rest) //. cbn [fst snd fmap list_fmap].
      f_equal. f_equal. rw entries_delete list_filter_filter. apply list_filter_iff.
      intros e. rw not_elem_of_cons. tauto.
    + intros id' i' Hin'. rw lookup_delete_ne; [by apply Hin; right|].
      intros ->. apply Hnin. by apply (list_elem_of_fmap_2 fst _ (id', i')).
  - rw IH; [|done|by intros; apply Hin; right].
    unfold selected. rw (filter_cons_False _ _ rest) //; simpl; congruence.
Qed.

(** The imperative sweep is the declarative one. *)
Lemma sweep_refines which st m :
  wf m → sweep_entries which st (entries m) m = sweep_spec which st m.
Proof.
  intros Hwf. rw sweep_entries_spec; [|done|by intros; apply entry_lookup].
  unfold sweep_spec. f_equal. f_equal. unfold selected.
  assert (∀ e, e ∈ entries m → e.1 ∉ (filter (λ e, which e.2 = true) (entries m)).*1 ↔ which e.2 = false) as He.
  { intros e Hin. destruct (which e.2) eqn:Hw; split; try done.
    - intros Hn. destruct Hn. apply list_elem_of_fmap_2. by apply list_elem_of_filter.
    - intros _ ([id' i'] & Hid & [Hw' Hin']%list_elem_of_filter)%list_elem_of_fmap.
      destruct e as [id i]. simpl in *. subst.
      apply entry_lookup in Hin, Hin'; [|done..]. congruence. }
  generalize dependent (filter (λ e, which e.2 = true) (entries m)).*1. intros ks He.
  clear Hwf. induction (entries m) as [|e l IH]; [done|]. rw !filter_cons.
  rw IH; [|intros; apply He; by right].
  destruct (He e ltac:(by left)) as [H1 H2].
  destruct (decide (e.1 ∉ ks)), (decide (which e.2 = false)); try done; tauto.
Qed.
End interactions.
Arguments registry : clear implicits.
Arguments PendingInteraction : clear implicits.
Arguments Interaction {_} _ _ _ _ _ _ _.

(** ** Histories *)
Section histories.
Context {P : Type}.
Implicit Types (m : registry P) (i : PendingInteraction P) (id cid : string)
  (st : InteractionResolutionState).

Inductive op :=
| Register (id : string) (i : PendingInteraction P)
| Resolve (id : string) (st : InteractionResolutionState)
| RemoveByConversation (cid : string) (st : InteractionResolutionState)
| SupersedePendingSecrets (cid : string) (st : InteractionResolutionState).

Definition apply (o : op) (m : registry P) : registry P * list effect :=
  match o with
  | Register id i => (register id i m, [])
  | Resolve id st => let '(m, _, es) := resolve id st m in (m, es)
  | RemoveByConversation cid st => removeByConversation cid st m
  | SupersedePendingSecrets cid st => supersedePendingSecrets cid st m
  end.

Fixpoint run (os : list op) (m : registry P) : registry P * list effect :=
  match os with
  | [] => (m, [])
  | o :: os => let '(m, es) := apply o m in let '(m, es') := run os m in (m, es ++ es')
  end.

(** How often a request is announced, and registered. *)
Definition announces (id : string) (e : effect) : bool :=
  match e with Broadcast id' _ _ _ => bool_decide (id' = id) | _ => false end.

Definition announced (id : string) (es : list effect) : nat :=
  length (filter (λ e, announces id e = true) es).

Definition registers (id : string) (o : op) : bool :=
  match o with Register id' _ => bool_decide (id' = id) | _ => false end.

Definition registered (id : string) (os : list op) : nat :=
  length (filter (λ o, registers id o = true) os).

Definition waiting (id : string) (m : registry P) : nat :=
  if bool_decide (id ∈ keys m) then 1 else 0.

(** The entries of [l] under [id]. *)
Definition occurrences (id : string) (l : list (string * PendingInteraction P)) : nat :=
  length (filter (λ e, e.1 = id) l).

Lemma announced_app id es es' : announced id (es ++ es') = announced id es + announced id es'.
Proof. unfold announced. by rw filter_app length_app. Qed.

Lemma announced_disarm id i : announced id (disarm i) = 0.
Proof. unfold disarm. by destruct (timer i), (detachAbort i). Qed.

Lemma announced_emit id id' i st :
  announced id (emitResolved id' i st) ≤ if decide (id' = id) then 1 else 0.
Proof.
  unfold emitResolved, announced. destruct (conversationId i); [|simpl; case_decide; lia].
  destruct (decide (id' = id)) as [He|He].
  - rw filter_cons_True //. simpl. by apply bool_decide_eq_true.
  - rw filter_cons_False //. simpl. by rw bool_decide_eq_false_2.
Qed.

Lemma announced_farewell id id' i st :
  announced id (farewell st id' i) ≤ if decide (id' = id) then 1 else 0.
Proof.
  unfold farewell. rw (announced_app id (disarm i)) (announced_app id (emitResolved id' i st)).
  rw announced_disarm.
  pose proof (announced_emit id id' i st) as He.
  assert (∀ n, n ≤ (if decide (id' = id) then 1 else 0) → 0 + (n + 0) ≤ if decide (id' = id) then 1 else 0)
    as Hn by (intros; lia).
  destruct (kind_of i); try by apply Hn. destruct (rpcResolve i); by apply Hn.
Qed.

Lemma announced_sweep id st l :
  announced id (l ≫= λ e, farewell st e.1 e.2) ≤ occurrences id l.
Proof.
  unfold occurrences. induction l as [|[id' i] l IH]; [apply Nat.le_0_l|].
  rw bind_cons announced_app filter_cons. cbn [fst snd].
  pose proof (announced_farewell id id' i st). destruct (decide (id' = id)); simpl; lia.
Qed.

Lemma occurrences_split id (p : PendingInteraction P → bool) l :
  occurrences id l =
    occurrences id (filter (λ e, p e.2 = true) l) + occurrences id (filter (λ e, p e.2 = false) l).
Proof.
  unfold occurrences. induction l as [|e l IH]; [done|].
  rw (filter_cons _ e l) !(filter_cons (λ e, p e.2 = _) e l).
  destruct (p e.2); simpl; rw filter_cons; case_decide; simpl; lia.
Qed.

Lemma occurrences_waiting id m : wf m → occurrences id (entries m) = waiting id m.
Proof.
  unfold wf, waiting, occurrences, keys. induction (entries m) as [|e l IH]; [done|].
  rw fmap_cons NoDup_cons filter_cons. intros [Hnin Hnd]. specialize (IH Hnd).
  destruct (decide (e.1 = id)) as [He|He].
  - rw bool_decide_eq_true_2; [|subst; by left]. simpl. rw IH bool_decide_eq_false_2 //; congruence.
  - rw IH (bool_decide_ext (id ∈ e.1 :: l.*1) (id ∈ l.*1)) //. rw elem_of_cons. naive_solver.
Qed.

Lemma waiting_insert id id' i m : wf m →
  waiting id (<[id' := i]> m) ≤ waiting id m + if decide (id' = id) then 1 else 0.
Proof.
  intros Hwf. unfold waiting. case_bool_decide as Hin; [|lia].
  apply keys_insert_sub in Hin as [->|Hin]; [rw decide_True //; lia|].
  rw (bool_decide_eq_true_2 (id ∈ keys m)) //. lia.
Qed.

Lemma registry_apply_wf o m : wf m → wf (apply o m).1.
Proof.
  intros Hwf. destruct o as [id i|id st|cid st|cid st]; simpl.
  - by apply wf_insert.
  - unfold resolve. destruct (m !! id); simpl; auto using wf_delete.
  - unfold removeByConversation. rw sweep_refines //. by apply wf_filter.
  - unfold supersedePendingSecrets. rw sweep_refines //. by apply wf_filter.
Qed.

Lemma sweep_balance id which st m :
  wf m →
  announced id (sweep_spec which st m).2 + waiting id (sweep_spec which st m).1 ≤ waiting id m.
Proof.
  intros Hwf. rw -!occurrences_waiting //; [|by apply wf_filter].
  rw (occurrences_split id which (entries m)). unfold sweep_spec. cbn [fst snd entries].
  pose proof (announced_sweep id st (filter (λ e, which e.2 = true) (entries m))). lia.
Qed.

(** Announcements are paid for by registrations, one operation at a time. *)
Lemma apply_balance id o m :
  wf m →
  announced id (apply o m).2 + waiting id (apply o m).1 ≤ waiting id m + registered id [o].
Proof.
  intros Hwf. destruct o as [id' i|id' st|cid st|cid st]; cbn [apply].
  - pose proof (waiting_insert id id' i m Hwf) as Hw.
    assert (registered id [Register id' i] = if decide (id' = id) then 1 else 0) as ->.
    { unfold registered. destruct (decide (id' = id)) as [He|He].
      - rw filter_cons_True //. simpl. by apply bool_decide_eq_true.
      - rw filter_cons_False //. simpl. by rw bool_decide_eq_false_2. }
    change (announced id (register id' i m, []).2) with 0. exact Hw.
  - unfold resolve. destruct (m !! id') as [i|] eqn:Hl; [|apply Nat.le_add_r]. cbn [fst snd].
    rw (announced_app id (disarm i)) announced_disarm.
    pose proof (announced_emit id id' i st) as He.
    assert (waiting id (delete id' m) + (if decide (id' = id) then 1 else 0) ≤ waiting id m); [|lia].
    unfold waiting. case_decide as Hid.
    + subst. rw (bool_decide_eq_true_2 (id ∈ keys m)); [|by eapply lookup_Some_key].
      rw bool_decide_eq_false_2; [done|]. apply lookup_None_key. by rw lookup_delete_eq.
    + case_bool_decide as Hin; [|lia]. apply keys_delete_sub in Hin.
      rw (bool_decide_eq_true_2 (id ∈ keys m)) //.
  - unfold removeByConversation. rw sweep_refines //. pose proof (sweep_balance id (λ i, bool_decide (conversationId i = Some cid) && negb (survives_sweep (kind_of i))) st m Hwf). lia.
  - unfold supersedePendingSecrets. rw sweep_refines //. pose proof (sweep_balance id (λ i, bool_decide (conversationId i = Some cid) && bool_decide (kind_of i = secret)) st m Hwf). lia.
Qed.

Lemma run_balance id os : ∀ m,
  wf m →
  announced id (run os m).2 + waiting id (run os m).1 ≤ waiting id m + registered id os.
Proof.
  induction os as [|o os IH]; intros m Hwf; simpl; [unfold registered, announced; simpl; lia|].
  pose proof (apply_balance id o m Hwf) as Ho. pose proof (registry_apply_wf o m Hwf) as Hwf'.
  destruct (apply o m) as [m1 es1]. cbn [fst snd] in *.
  specialize (IH m1 Hwf'). destruct (run os m1) as [m2 es2]. cbn [fst snd] in *.
  rw announced_app. unfold registered in *. rw (filter_app _ [o] os) length_app. lia.
Qed.

(** At most one announcement per registration: over any sequence of
    registrations, resolutions and sweeps, the clients are told that a request
    is resolved at most as often as it was registered, and once less while it
    is still waiting. *)
Theorem resolved_at_most_once (id : string) (os : list op) :
  announced id (run os ∅).2 + waiting id (run os ∅).1 ≤ registered id os.
Proof. pose proof (run_balance id os ∅ wf_empty). done. Qed.

(** Sweeping a conversation: exactly the confirmations, secrets and UI
    snapshots of that conversation leave, in registration order; each is
    disarmed and announced, and a secret's parked caller is settled with no
    value.  Everything else — questions, tool executions proxied to a client,
    ACP permissions, other conversations — stays where it was. *)
Theorem sweep_conversation_spec (cid : string) (st : InteractionResolutionState) (m : registry P) :
  wf m →
  let leaves i := bool_decide (conversationId i = Some cid) &&
    bool_decide (kind_of i = confirmation ∨ kind_of i = secret ∨ kind_of i = host_ui_snapshot) in
  removeByConversation cid st m =
    (JsMap (filter (λ e, leaves e.2 = false) (entries m)),
     filter (λ e, leaves e.2 = true) (entries m) ≫= λ e, farewell st e.1 e.2).
Proof.
  intros Hwf leaves. unfold removeByConversation. rw sweep_refines //. unfold sweep_spec.
  assert (∀ i, bool_decide (conversationId i = Some cid) && negb (survives_sweep (kind_of i)) = leaves i) as He.
  { intros i. unfold leaves. f_equal. by destruct (kind_of i). }
  f_equal; [f_equal|f_equal]; apply list_filter_iff; intros e; by rw He.
Qed.

(** No secret prompt is left hanging: superseding a conversation's
    secrets calls back every caller parked on one, saying it was superseded,
    and leaves none of them registered. *)
Theorem superseded_secrets_are_settled (cid : string) (m : registry P) (id : string)
    (i : PendingInteraction P) (f : nat) :
  wf m → m !! id = Some i → conversationId i = Some cid → kind_of i = secret →
  rpcResolve i = Some f →
  let r := supersedePendingSecrets cid superseded m in
  r.1 !! id = None ∧ CallRpcResolve f reason_superseded ∈ r.2 ∧
  (∀ t, timer i = Some t → ClearTimeout t ∈ r.2).
Proof.
  intros Hwf Hl Hc Hk Hf r. unfold r, supersedePendingSecrets. rw sweep_refines //. unfold sweep_spec.
  cbn [fst snd]. pose proof (lookup_Some_entry _ _ _ Hl) as Hin.
  assert (∀ x, x ∈ farewell superseded id i → x ∈
    (filter (λ e : string * PendingInteraction P, bool_decide (conversationId e.2 = Some cid) && bool_decide (kind_of e.2 = secret) = true)
      (entries m) ≫= λ e, farewell superseded e.1 e.2)) as Hfar.
  { intros x Hx. apply list_elem_of_bind. exists (id, i). split; [done|].
    apply list_elem_of_filter. split; [|done]. simpl. by rw !bool_decide_eq_true_2. }
  split_and!.
  - apply lookup_None_key. unfold keys. cbn [entries].
    intros ([id' i'] & -> & [Hw Hin']%list_elem_of_filter)%list_elem_of_fmap. simpl in *.
    apply entry_lookup in Hin'; [|done]. rw Hl in Hin'. simplify_eq.
    by rw !bool_decide_eq_true_2 in Hw.
  - apply Hfar. unfold farewell. rw Hk Hf /=. rw !elem_of_app. right; right. by left.
  - intros t Ht. apply Hfar. unfold farewell, disarm. rw Ht /=. by left.
Qed.
End histories.

Definition demo_secret : PendingInteraction unit :=
  Interaction (Some "c1") secret (Some 7) (Some 8) (Some 1) None tt.
Definition demo_registry : registry unit :=
  <["r2" := Interaction (Some "c1") question None None None (Some 3) tt]>
    (<["r1" := demo_secret]> ∅).

Lemma sweep_conversation_spec_witness :
  removeByConversation "c1" superseded demo_registry =
    (JsMap [("r2", Interaction (Some "c1") question None None None (Some 3) tt)],
     [ClearTimeout 1; Broadcast "r1" "c1" secret superseded; CallRpcResolve 7 reason_superseded]).
Proof.
  rw (sweep_conversation_spec "c1" superseded demo_registry); [by vm_compute|].
  apply wf_insert, wf_insert, wf_empty.
Defined.

Lemma superseded_secrets_are_settled_witness :
  CallRpcResolve 7 reason_superseded ∈ (supersedePendingSecrets "c1" superseded demo_registry).2.
Proof.
  apply (superseded_secrets_are_settled "c1" demo_registry "r1" demo_secret 7);
    [apply wf_insert, wf_insert, wf_empty|by vm_compute..].
Defined.
