(* ===== verification/TurnStore.v ===== *)
(** * The chat client's turn state machine

    [clients/web/src/domains/chat/turn-store.ts]: the sending, thinking and
    streaming lifecycle of one turn, its queue depth and its tool calls.  The
    file holds the machine twice — as the store's actions, which run, and as a
    pure reducer, which the tests drive — and both are translated here. *)

From S2P Require Import Prelude JsMap.
Local Open Scope Z_scope.
Local Open Scope litt_scope.

Inductive TurnPhase := idle | queued | thinking | streaming | awaiting_user_input | errored.
#[export] Instance TurnPhase_eq : EqDecision TurnPhase.
Proof. solve_decision. Defined.

Inductive TerminalReason := complete | error | cancelled | timeout | session_error.
#[export] Instance TerminalReason_eq : EqDecision TerminalReason.
Proof. solve_decision. Defined.

Section turn.
(** Tool activity metadata is stored and cleared, never inspected. *)
Context {M : Type}.

Record TurnState := Turn {
  phase : TurnPhase;
  pendingQueuedCount : Z;
  activeToolCallCount : Z;
  activeTurnId : option string;
  interruptingTurnId : option string;
  lastTerminalReason : option TerminalReason;
  statusText : option string;
  liveWebActivity : jsmap string M;
}.

Definition INITIAL_TURN_STATE : TurnState := Turn idle 0 0 None None None None ∅.

Definition isSending (p : TurnPhase) : bool :=
  match p with
  | queued | thinking | streaming | awaiting_user_input => true
  | _ => false
  end.

(** [phase === "idle" || phase === "errored"] *)
Definition phase_terminal (p : TurnPhase) : bool :=
  match p with idle | errored => true | _ => false end.

Definition isStale (s : TurnState) : bool :=
  phase_terminal (phase s) && negb (truthy (activeTurnId s)).

(** ** Updates: the fields [set] is given, one function per shape *)

Definition set_phase (p : TurnPhase) (s : TurnState) : TurnState :=
  Turn p (pendingQueuedCount s) (activeToolCallCount s) (activeTurnId s)
    (interruptingTurnId s) (lastTerminalReason s) (statusText s) (liveWebActivity s).

Definition set_queued (n : Z) (s : TurnState) : TurnState :=
  Turn (phase s) n (activeToolCallCount s) (activeTurnId s)
    (interruptingTurnId s) (lastTerminalReason s) (statusText s) (liveWebActivity s).

Definition set_tools (n : Z) (s : TurnState) : TurnState :=
  Turn (phase s) (pendingQueuedCount s) n (activeTurnId s)
    (interruptingTurnId s) (lastTerminalReason s) (statusText s) (liveWebActivity s).

Definition set_status (t : option string) (s : TurnState) : TurnState :=
  Turn (phase s) (pendingQueuedCount s) (activeToolCallCount s) (activeTurnId s)
    (interruptingTurnId s) (lastTerminalReason s) t (liveWebActivity s).

Definition set_reason (r : option TerminalReason) (s : TurnState) : TurnState :=
  Turn (phase s) (pendingQueuedCount s) (activeToolCallCount s) (activeTurnId s)
    (interruptingTurnId s) r (statusText s) (liveWebActivity s).

Definition set_turn (t : option string) (s : TurnState) : TurnState :=
  Turn (phase s) (pendingQueuedCount s) (activeToolCallCount s) t
    (interruptingTurnId s) (lastTerminalReason s) (statusText s) (liveWebActivity s).

Definition set_activity (m : jsmap string M) (s : TurnState) : TurnState :=
  Turn (phase s) (pendingQueuedCount s) (activeToolCallCount s) (activeTurnId s)
    (interruptingTurnId s) (lastTerminalReason s) (statusText s) m.

(** The update every terminal transition makes: no turn, no tool call, no
    label, no live activity. *)
Definition finish (p : TurnPhase) (r : TerminalReason) (s : TurnState) : TurnState :=
  Turn p (pendingQueuedCount s) 0 None (interruptingTurnId s) (Some r) None ∅.

Definition phase_after_turn (s : TurnState) : TurnPhase :=
  if 0 <? pendingQueuedCount s then queued else idle.

(** [{ ...s, ...cancelledTurnState(s) }] *)
Definition cancelledTurnState (s : TurnState) : TurnState :=
  if bool_decide (interruptingTurnId s ≠ None ∧ interruptingTurnId s = activeTurnId s)
  then Turn thinking (pendingQueuedCount s) 0 (activeTurnId s) None None None ∅
  else Turn (phase_after_turn s) (pendingQueuedCount s) 0 None None (Some cancelled) None ∅.

(** ** The store's actions *)

Definition requestSend (turnId : option string) (interruptsRunningTurn : option bool)
    (s : TurnState) : TurnState :=
  let activeTurnId := match turnId with Some t => Some t | None => activeTurnId s end in
  Turn thinking (pendingQueuedCount s) 0 activeTurnId
    (if bool_decide (interruptsRunningTurn = Some true) then activeTurnId else None)
    None None (liveWebActivity s).

Definition acceptSend (turnId : string) (s : TurnState) : TurnState :=
  let s' := set_turn (Some turnId) s in
  if phase_terminal (phase s) then set_reason None (set_phase thinking s') else s'.

Definition onTextDelta (s : TurnState) : TurnState :=
  if phase_terminal (phase s) then
    if negb (truthy (activeTurnId s)) then s else set_phase streaming s
  else match phase s with
       | thinking | queued => set_phase streaming s
       | _ => s
       end.

Definition onToolUseStart (s : TurnState) : TurnState :=
  if isStale s then s
  else set_tools (activeToolCallCount s + 1)
         (set_phase (match phase s with
                     | idle | errored | queued => thinking
                     | p => p
                     end) s).

Definition onToolResult (s : TurnState) : TurnState :=
  set_tools (Z.max 0 (activeToolCallCount s - 1)) s.

Definition onToolActivityMetadata (toolUseId : string) (metadata : M) (s : TurnState) : TurnState :=
  if isStale s then s else set_activity (<[toolUseId := metadata]> (liveWebActivity s)) s.

Definition onActivityThinking (text : option string) (canStartFromIdle : option bool)
    (s : TurnState) : TurnState :=
  if isStale s then
    if bool_decide (canStartFromIdle = Some true)
    then set_reason None (set_status text (set_phase thinking s))
    else s
  else match phase s with
       | awaiting_user_input => s
       | _ => set_status text (set_phase thinking s)
       end.

Definition recoverFromAwaitingUserInput (s : TurnState) : TurnState :=
  match phase s with awaiting_user_input => set_phase thinking s | _ => s end.

Definition showSurface (interactive : option bool) (s : TurnState) : TurnState :=
  if isStale s then s
  else if bool_decide (interactive = Some true) then set_phase awaiting_user_input s else s.

Definition updateSurface (s : TurnState) : TurnState := s.

Definition dismissSurface (s : TurnState) : TurnState :=
  if bool_decide (phase s = awaiting_user_input) && (activeToolCallCount s =? 0)
  then set_phase thinking s else s.

Definition completeSurface (s : TurnState) : TurnState :=
  if bool_decide (phase s = awaiting_user_input) && (activeToolCallCount s =? 0)
  then set_phase thinking s else s.

Definition onSecretRequest (s : TurnState) : TurnState :=
  if isStale s then s else set_phase awaiting_user_input s.
Definition onConfirmationRequest (s : TurnState) : TurnState :=
  if isStale s then s else set_phase awaiting_user_input s.
Definition onQuestionRequest (s : TurnState) : TurnState :=
  if isStale s then s else set_phase awaiting_user_input s.
Definition onContactRequest (s : TurnState) : TurnState :=
  if isStale s then s else set_phase awaiting_user_input s.

Definition completeTurn (s : TurnState) : TurnState := finish (phase_after_turn s) complete s.

Definition handoffGeneration (s : TurnState) : TurnState :=
  if isStale s then s else set_status None (set_tools 0 (set_phase thinking s)).

Definition cancelGeneration (s : TurnState) : TurnState := cancelledTurnState s.

Definition onStreamError (s : TurnState) : TurnState := set_queued 0 (finish idle error s).
Definition onSessionError (s : TurnState) : TurnState := set_queued 0 (finish idle session_error s).
Definition onTurnTimeout (s : TurnState) : TurnState := set_queued 0 (finish idle timeout s).

Definition onPollReconciled (turnId : option string) (s : TurnState) : TurnState :=
  if truthy turnId && bool_decide (turnId ≠ activeTurnId s) then s
  else if negb (isSending (phase s)) then s
  else finish idle complete s.

Definition resetTurn (s : TurnState) : TurnState := INITIAL_TURN_STATE.

Definition clearStaleTurn (s : TurnState) : TurnState :=
  if truthy (activeTurnId s) && isSending (phase s) then s else INITIAL_TURN_STATE.

Definition enqueueMessage (s : TurnState) : TurnState := set_queued (pendingQueuedCount s + 1) s.

Definition dequeueMessage (s : TurnState) : TurnState :=
  let nextCount := Z.max 0 (pendingQueuedCount s - 1) in
  if isStale s then set_queued nextCount s else set_queued nextCount (set_phase thinking s).

Definition deleteQueuedMessage (s : TurnState) : TurnState :=
  let nextCount := Z.max 0 (pendingQueuedCount s - 1) in
  if (nextCount =? 0) && bool_decide (phase s = queued)
  then Turn idle 0 (activeToolCallCount s) None (interruptingTurnId s) (Some complete) None ∅
  else set_queued nextCount s.
End turn.
Arguments TurnState : clear implicits.

(** ** Domain events *)

Inductive DomainEvent {M : Type} :=
| USER_SEND_REQUESTED (turnId : option string) (interruptsRunningTurn : option bool)
| USER_SEND_ACCEPTED (turnId : string)
| ASSISTANT_TEXT_DELTA
| TOOL_USE_START
| TOOL_RESULT
| TOOL_ACTIVITY_METADATA (toolUseId : string) (metadata : M)
| ACTIVITY_STATE_THINKING (text : option string) (canStartFromIdle : option bool)
| UI_SURFACE_SHOW (interactive : option bool)
| UI_SURFACE_UPDATE
| UI_SURFACE_DISMISS
| UI_SURFACE_COMPLETE
| SECRET_REQUEST
| CONFIRMATION_REQUEST
| QUESTION_REQUEST
| CONTACT_REQUEST
| MESSAGE_COMPLETE
| GENERATION_HANDOFF
| GENERATION_CANCELLED
| STREAM_ERROR
| SESSION_ERROR
| POLL_RECONCILED (turnId : option string)
| TURN_TIMEOUT
| TURN_RESET
| STALE_TURN_CLEARED
| MESSAGE_QUEUED
| MESSAGE_DEQUEUED
| MESSAGE_QUEUED_DELETED.
Arguments DomainEvent : clear implicits.

(** ** The reducer, a definition per group of cases *)
Section reducer.
Context {M : Type}.
Implicit Types (s : TurnState M) (e : DomainEvent M).

Definition reduce_send s (e : DomainEvent M) : option (TurnState M) :=
  match e with
  | USER_SEND_REQUESTED turnId interrupts =>
      let activeTurnId := match turnId with Some t => Some t | None => activeTurnId s end in
      Some (Turn thinking (pendingQueuedCount s) 0 activeTurnId
              (if bool_decide (interrupts = Some true) then activeTurnId else None)
              None None (liveWebActivity s))
  | USER_SEND_ACCEPTED turnId =>
      let s' := set_turn (Some turnId) s in
      Some (if phase_terminal (phase s) then set_reason None (set_phase thinking s') else s')
  | _ => None
  end.

Definition reduce_stream s (e : DomainEvent M) : option (TurnState M) :=
  match e with
  | ASSISTANT_TEXT_DELTA => Some
      (if phase_terminal (phase s) then
         if negb (truthy (activeTurnId s)) then s else set_phase streaming s
       else if bool_decide (phase s = thinking ∨ phase s = queued) then set_phase streaming s
       else s)
  | TOOL_USE_START => Some
      (if isStale s then s
       else set_tools (activeToolCallCount s + 1)
              (set_phase (if phase_terminal (phase s) then thinking
                          else if bool_decide (phase s = queued) then thinking
                          else phase s) s))
  | TOOL_RESULT => Some (set_tools (Z.max 0 (activeToolCallCount s - 1)) s)
  | TOOL_ACTIVITY_METADATA toolUseId metadata => Some
      (if isStale s then s
       else set_activity (<[toolUseId := metadata]> (liveWebActivity s)) s)
  | ACTIVITY_STATE_THINKING text canStart => Some
      (if isStale s then
         if negb (bool_decide (canStart = Some true)) then s
         else set_reason None (set_status text (set_phase thinking s))
       else if bool_decide (phase s = awaiting_user_input) then s
       else set_status text (set_phase thinking s))
  | UI_SURFACE_SHOW interactive => Some
      (if isStale s then s
       else if negb (bool_decide (interactive = Some true)) then s
       else set_phase awaiting_user_input s)
  | UI_SURFACE_UPDATE => Some s
  | UI_SURFACE_DISMISS | UI_SURFACE_COMPLETE => Some
      (if bool_decide (phase s = awaiting_user_input) && (activeToolCallCount s =? 0)
       then set_phase thinking s else s)
  | _ => None
  end.

Definition reduce_prompts_and_queue s (e : DomainEvent M) : option (TurnState M) :=
  match e with
  | SECRET_REQUEST | CONFIRMATION_REQUEST | QUESTION_REQUEST | CONTACT_REQUEST => Some
      (if isStale s then s else set_phase awaiting_user_input s)
  | MESSAGE_QUEUED => Some (set_queued (pendingQueuedCount s + 1) s)
  | MESSAGE_DEQUEUED => Some
      (if isStale s then set_queued (Z.max 0 (pendingQueuedCount s - 1)) s
       else set_queued (Z.max 0 (pendingQueuedCount s - 1)) (set_phase thinking s))
  | MESSAGE_QUEUED_DELETED =>
      let nextCount := Z.max 0 (pendingQueuedCount s - 1) in Some
      (if (nextCount =? 0) && bool_decide (phase s = queued)
       then Turn idle 0 (activeToolCallCount s) None (interruptingTurnId s) (Some complete) None ∅
       else set_queued nextCount s)
  | _ => None
  end.

Definition reduce_terminal s (e : DomainEvent M) : TurnState M :=
  match e with
  | MESSAGE_COMPLETE =>
      if 0 <? pendingQueuedCount s then finish queued complete s else finish idle complete s
  | GENERATION_HANDOFF => set_status None (set_tools 0 (set_phase thinking s))
  | GENERATION_CANCELLED => cancelledTurnState s
  | STREAM_ERROR => set_queued 0 (finish idle error s)
  | SESSION_ERROR => set_queued 0 (finish idle session_error s)
  | POLL_RECONCILED turnId =>
      if negb (isSending (phase s)) then s
      else if truthy turnId && truthy (activeTurnId s) && bool_decide (turnId ≠ activeTurnId s) then s
      else if 0 <? pendingQueuedCount s then finish queued complete s else finish idle complete s
  | TURN_TIMEOUT => set_queued 0 (finish idle timeout s)
  | TURN_RESET => INITIAL_TURN_STATE
  | STALE_TURN_CLEARED =>
      if truthy (activeTurnId s) && isSending (phase s) then s else INITIAL_TURN_STATE
  | _ => s
  end.

Definition turnReducer s e : TurnState M :=
  match reduce_send s e with
  | Some s' => s'
  | None => match reduce_stream s e with
            | Some s' => s'
            | None => match reduce_prompts_and_queue s e with
                      | Some s' => s'
                      | None => reduce_terminal s e
                      end
            end
  end.

(** The store action that handles each event. *)
Definition dispatch e s : TurnState M :=
  match e with
  | USER_SEND_REQUESTED t i => requestSend t i s
  | USER_SEND_ACCEPTED t => acceptSend t s
  | ASSISTANT_TEXT_DELTA => onTextDelta s
  | TOOL_USE_START => onToolUseStart s
  | TOOL_RESULT => onToolResult s
  | TOOL_ACTIVITY_METADATA i m => onToolActivityMetadata i m s
  | ACTIVITY_STATE_THINKING t c => onActivityThinking t c s
  | UI_SURFACE_SHOW i => showSurface i s
  | UI_SURFACE_UPDATE => updateSurface s
  | UI_SURFACE_DISMISS => dismissSurface s
  | UI_SURFACE_COMPLETE => completeSurface s
  | SECRET_REQUEST => onSecretRequest s
  | CONFIRMATION_REQUEST => onConfirmationRequest s
  | QUESTION_REQUEST => onQuestionRequest s
  | CONTACT_REQUEST => onContactRequest s
  | MESSAGE_COMPLETE => completeTurn s
  | GENERATION_HANDOFF => handoffGeneration s
  | GENERATION_CANCELLED => cancelGeneration s
  | STREAM_ERROR => onStreamError s
  | SESSION_ERROR => onSessionError s
  | POLL_RECONCILED t => onPollReconciled t s
  | TURN_TIMEOUT => onTurnTimeout s
  | TURN_RESET => resetTurn s
  | STALE_TURN_CLEARED => clearStaleTurn s
  | MESSAGE_QUEUED => enqueueMessage s
  | MESSAGE_DEQUEUED => dequeueMessage s
  | MESSAGE_QUEUED_DELETED => deleteQueuedMessage s
  end.
End reducer.

(** ** Reachable states *)
Section properties.
Context {M : Type}.
Implicit Types (s : TurnState M) (e : DomainEvent M).

(** What holds after any sequence of actions: never the errored phase; an idle
    turn has no identity, no tool call, no label and no live activity; a
    queued one runs no tool; counts are not negative. *)
Record sane s : Prop := {
  sane_phase : phase s ≠ errored;
  sane_idle : phase s = idle →
    activeTurnId s = None ∧ activeToolCallCount s = 0 ∧ statusText s = None ∧ liveWebActivity s = ∅;
  sane_queued : phase s = queued → activeToolCallCount s = 0;
  sane_tools : 0 ≤ activeToolCallCount s;
  sane_queue : 0 ≤ pendingQueuedCount s;
}.

Lemma sane_initial : sane INITIAL_TURN_STATE.
Proof. by split. Qed.

Lemma stale_idle s : sane s → isStale s = bool_decide (phase s = idle).
Proof.
  intros [Hp Hi _ _ _]. unfold isStale. destruct (phase s) eqn:Hph; try done.
  by destruct (Hi eq_refl) as (-> & _).
Qed.

(** Setting a phase in which work is going on. *)
Lemma sane_busy p s :
  sane s → p ≠ errored → p ≠ idle → p ≠ queued → sane (set_phase p s).
Proof. intros [Hp Hi Hq Ht Hn] ???. by split. Qed.

Lemma sane_finish p r s : sane s → p ≠ errored → sane (finish p r s).
Proof. intros [Hp Hi Hq Ht Hn] ?. by split. Qed.

Lemma phase_after_turn_ok s : phase_after_turn s ≠ errored.
Proof. unfold phase_after_turn. by case_match. Qed.

Lemma sane_cancelled s : sane s → sane (cancelledTurnState s).
Proof.
  intros Hs. unfold cancelledTurnState. case_bool_decide.
  - destruct Hs. by split.
  - pose proof (phase_after_turn_ok s). destruct Hs. by split.
Qed.

Lemma sane_recover s : sane s → sane (recoverFromAwaitingUserInput s).
Proof. intros Hs. unfold recoverFromAwaitingUserInput. case_match; auto. by apply sane_busy. Qed.

Lemma sane_dispatch e s : sane s → sane (dispatch e s).
Proof.
  intros Hs. pose proof (stale_idle s Hs) as Hstale. pose proof (phase_after_turn_ok s) as Hpa.
  pose proof (sane_cancelled s Hs) as Hcan.
  pose proof Hs as [Hp Hi Hq Ht Hn].
  assert (sane (set_phase awaiting_user_input s)) as Hawait by by apply sane_busy.
  assert (sane (set_phase thinking s)) as Hthink by by apply sane_busy.
  destruct e; simpl; try done;
    unfold requestSend, acceptSend, onTextDelta, onToolUseStart, onToolActivityMetadata,
      onActivityThinking, showSurface, updateSurface, dismissSurface, completeSurface, onSecretRequest,
      onConfirmationRequest, onQuestionRequest, onContactRequest, handoffGeneration,
      onPollReconciled, clearStaleTurn, dequeueMessage, deleteQueuedMessage;
    rw ?Hstale; try (repeat case_match; try done; by apply sane_busy).
  - destruct (phase s) eqn:Hph; simpl; split; simpl; rw ?Hph; try done; auto.
  - destruct (phase s) eqn:Hph; simpl; try done; split; simpl; try done; lia.
  - split; simpl; try done; [intros Hid|intros Hqu|lia].
    + destruct (Hi Hid) as (? & Ht0 & ?). by rw Ht0.
    + by rw (Hq Hqu).
  - case_bool_decide as Hid; [done|]. by split.
  - split; simpl; try done; lia.
  - case_bool_decide as Hid; split; simpl; try done; lia.
  - case_match eqn:Hc; [|split; simpl; try done; lia].
    apply andb_true_iff in Hc as [_ Hqu%bool_decide_eq_true]. by split; simpl; auto.
Qed.

Definition run (es : list (DomainEvent M)) (s : TurnState M) : TurnState M :=
  foldl (λ s e, dispatch e s) s es.

Lemma sane_run es : ∀ s, sane s → sane (run es s).
Proof. induction es as [|e es IH]; intros s Hs; simpl; [done|]. by apply IH, sane_dispatch. Qed.

(** ** Store and reducer *)

(** Where the two machines answer alike. *)
Definition agree e s : bool :=
  match e with
  | GENERATION_HANDOFF => negb (isStale s)
  | POLL_RECONCILED turnId =>
      negb (isSending (phase s)) ||
      (if truthy turnId && bool_decide (turnId ≠ activeTurnId s)
       then truthy (activeTurnId s) else pendingQueuedCount s <=? 0)
  | _ => true
  end.

(** The reducer the tests drive is the machine that runs: on every event
    and state, the store's action and the reducer produce the same next state,
    except for a handoff that reaches a finished turn, and for a poll verdict
    on a busy turn that either names a turn while none is active or finds
    messages queued. *)
Theorem store_agrees_with_reducer e s : agree e s = true → dispatch e s = turnReducer s e.
Proof.
  unfold turnReducer. destruct e; cbn [agree dispatch reduce_send reduce_stream reduce_prompts_and_queue reduce_terminal];
    try done; intros Hag;
    unfold onTextDelta, onToolUseStart, onActivityThinking, showSurface,
      handoffGeneration, completeTurn, phase_after_turn, onPollReconciled, dequeueMessage, deleteQueuedMessage.
  - destruct (phase s); simpl; by repeat case_match.
  - by destruct (phase s).
  - destruct (isStale s); [by destruct (bool_decide _)|]. by destruct (phase s).
  - destruct (isStale s); [done|]. by destruct (bool_decide _).
  - by case_match.
  - by destruct (isStale s).
  - destruct (isSending (phase s)); simpl in *; [|by case_match].
    assert (pendingQueuedCount s ≤ 0 → (0 <? pendingQueuedCount s) = false) as Hq
      by (intros; by apply Z.ltb_ge).
    destruct (truthy turnId); simpl in *; [|rw Hq //; by apply Z.leb_le].
    destruct (bool_decide (turnId ≠ activeTurnId s)); simpl in *; [by rw Hag|].
    rw andb_false_r Hq //. by apply Z.leb_le.
Qed.

(** C36 — Every reachable turn is coherent: after any sequence of events from
    the initial state the machine is never in its errored phase, an idle turn
    carries no identity, tool call, label or live activity, a queued one runs
    no tool, and no counter is negative. *)
Theorem reachable_turn_coherent (es : list (DomainEvent M)) : sane (run es INITIAL_TURN_STATE).
Proof. apply sane_run, sane_initial. Qed.

(** A poll verdict that finds messages queued: the running store goes
    idle, whereas the reducer the tests drive stays queued; and a handoff that
    reaches a finished turn is dropped by the store but revives the turn in
    the reducer. *)
Theorem poll_and_handoff_diverge (s : TurnState M) :
  sane s →
  (isSending (phase s) = true → 0 < pendingQueuedCount s →
   phase (dispatch (POLL_RECONCILED None) s) = idle ∧
   phase (turnReducer s (POLL_RECONCILED None)) = queued) ∧
  (phase s = idle →
   dispatch GENERATION_HANDOFF s = s ∧ phase (turnReducer s GENERATION_HANDOFF) = thinking).
Proof.
  intros Hs. split.
  - intros Hsend Hq. unfold turnReducer. simpl. unfold onPollReconciled. rw Hsend /=.
    by destruct (Z.ltb_spec 0 (pendingQueuedCount s)); [|lia].
  - intros Hi. simpl. unfold handoffGeneration. rw (stale_idle s Hs) Hi //.
Qed.

(** Events a finished turn may still trigger, late. *)
Definition straggler e : bool :=
  match e with
  | ASSISTANT_TEXT_DELTA | TOOL_USE_START | TOOL_RESULT | TOOL_ACTIVITY_METADATA _ _
  | UI_SURFACE_SHOW _ | UI_SURFACE_UPDATE | UI_SURFACE_DISMISS | UI_SURFACE_COMPLETE
  | SECRET_REQUEST | CONFIRMATION_REQUEST | QUESTION_REQUEST | CONTACT_REQUEST
  | GENERATION_HANDOFF | POLL_RECONCILED _ => true
  | ACTIVITY_STATE_THINKING _ canStart => negb (bool_decide (canStart = Some true))
  | _ => false
  end.

Lemma straggler_ignored e s :
  sane s → phase s = idle → straggler e = true → dispatch e s = s.
Proof.
  intros Hs Hi He. pose proof (stale_idle s Hs) as Hst. rw Hi bool_decide_eq_true_2 // in Hst.
  destruct (sane_idle s Hs Hi) as (Hturn & Htools & Htext & Hlive).
  destruct e; simpl in *; try done;
    unfold onTextDelta, onToolUseStart, onToolActivityMetadata, onActivityThinking, showSurface,
      updateSurface, dismissSurface, completeSurface, onSecretRequest, onConfirmationRequest,
      onQuestionRequest, onContactRequest, handoffGeneration, onPollReconciled;
    rw ?Hst ?Hi /= ?Hturn //=.
  - unfold onToolResult. rw Htools. destruct s; simpl in *. by subst.
  - by destruct (bool_decide (canStartFromIdle = Some true)).
  - by case_match.
Qed.

(** Once idle, stragglers change nothing: no late delta, tool event,
    prompt, surface, handoff, poll verdict or thinking signal of a finished
    turn, in any number and order, revives it or touches any field. *)
Theorem idle_turn_ignores_stragglers (es0 es : list (DomainEvent M)) :
  let s := run es0 INITIAL_TURN_STATE in
  phase s = idle → Forall (λ e, straggler e = true) es → run es s = s.
Proof.
  intros s Hi Hes. pose proof (sane_run es0 _ sane_initial) as Hs. fold s in Hs.
  clearbody s. induction Hes as [|e es He _ IH]; simpl; [done|].
  by rw straggler_ignored.
Qed.

(** Events that neither end a turn nor start another. *)
Definition within_turn (t : string) e : Prop :=
  match e with
  | USER_SEND_ACCEPTED t' => t' = t
  | USER_SEND_REQUESTED _ _ | MESSAGE_COMPLETE | GENERATION_CANCELLED | STREAM_ERROR
  | SESSION_ERROR | POLL_RECONCILED _ | TURN_TIMEOUT | TURN_RESET | STALE_TURN_CLEARED
  | MESSAGE_QUEUED_DELETED => False
  | _ => True
  end.

Lemma within_turn_keeps t e s :
  within_turn t e → activeTurnId s = Some t → interruptingTurnId s = Some t →
  activeTurnId (dispatch e s) = Some t ∧ interruptingTurnId (dispatch e s) = Some t.
Proof.
  intros He Ha Hi. destruct e; simpl in *; try done;
    unfold acceptSend, onTextDelta, onToolUseStart, onToolActivityMetadata, onActivityThinking,
      showSurface, updateSurface, dismissSurface, completeSurface, onSecretRequest,
      onConfirmationRequest, onQuestionRequest, onContactRequest, handoffGeneration, dequeueMessage;
    repeat case_match; simpl; by subst.
Qed.

Lemma within_turn_run t es : ∀ s,
  Forall (within_turn t) es → activeTurnId s = Some t → interruptingTurnId s = Some t →
  activeTurnId (run es s) = Some t ∧ interruptingTurnId (run es s) = Some t.
Proof.
  induction es as [|e es IH]; intros s Hes Ha Hi; simpl; [done|].
  apply Forall_cons in Hes as [He Hes].
  destruct (within_turn_keeps t e s He Ha Hi). by apply IH.
Qed.

(** Interrupting keeps the replacement turn: after a send that interrupts
    the running turn, whatever the two turns stream in between, the first
    cancellation to land leaves the new turn in progress under its identity;
    only a second one ends it. *)
Theorem interrupt_cancel_is_a_handoff (s : TurnState M) (t : string) (es : list (DomainEvent M)) :
  Forall (within_turn t) es →
  let s1 := run es (requestSend (Some t) (Some true) s) in
  let s2 := cancelGeneration s1 in
  phase s2 = thinking ∧ activeTurnId s2 = Some t ∧ lastTerminalReason s2 = None ∧
  activeTurnId (cancelGeneration s2) = None ∧
  lastTerminalReason (cancelGeneration s2) = Some cancelled.
Proof.
  intros Hes s1 s2.
  destruct (within_turn_run t es (requestSend (Some t) (Some true) s) Hes) as [Ha Hi]; [done..|].
  fold s1 in Ha, Hi.
  assert (s2 = Turn thinking (pendingQueuedCount s1) 0 (Some t) None None None ∅) as ->.
  { unfold s2, cancelGeneration, cancelledTurnState. rw Ha Hi bool_decide_eq_true_2 //. }
  split_and!; try done; by unfold cancelGeneration, cancelledTurnState; rw bool_decide_eq_false_2 //; intros [].
Qed.

(** The terminal events. *)
Definition ends_turn e s : bool :=
  match e with
  | MESSAGE_COMPLETE | STREAM_ERROR | SESSION_ERROR | TURN_TIMEOUT => true
  | GENERATION_CANCELLED => bool_decide (interruptingTurnId s = None)
  | _ => false
  end.

(** A terminal event clears the turn: whatever the state, completing,
    failing, timing out or cancelling an uninterrupted turn leaves no turn
    identity, tool call, label or live activity behind, records a reason, and
    rests in the idle phase — or in the queued one exactly when the turn ended
    well or was cancelled with messages still queued. *)
Theorem terminal_event_clears_turn e (s : TurnState M) :
  ends_turn e s = true →
  let s' := dispatch e s in
  activeTurnId s' = None ∧ activeToolCallCount s' = 0 ∧ statusText s' = None ∧
  liveWebActivity s' = ∅ ∧ lastTerminalReason s' ≠ None ∧
  phase s' = (if 0 <? pendingQueuedCount s' then queued else idle).
Proof.
  destruct e; simpl; try done.
  unfold cancelGeneration, cancelledTurnState. intros Hi%bool_decide_eq_true.
  rw bool_decide_eq_false_2; [done|]. by intros [? _].
Qed.
End properties.

Definition busy_with_queue : TurnState unit :=
  run [USER_SEND_REQUESTED (Some "t1") None; ASSISTANT_TEXT_DELTA; MESSAGE_QUEUED] INITIAL_TURN_STATE.

Lemma store_agrees_with_reducer_witness :
  dispatch MESSAGE_COMPLETE busy_with_queue = turnReducer busy_with_queue MESSAGE_COMPLETE.
Proof. by apply store_agrees_with_reducer. Defined.

Lemma poll_and_handoff_diverge_witness :
  phase (dispatch (POLL_RECONCILED None) busy_with_queue) = idle ∧
  phase (turnReducer busy_with_queue (POLL_RECONCILED None)) = queued.
Proof.
  apply (poll_and_handoff_diverge busy_with_queue); [|done|done].
  apply sane_run, sane_initial.
Defined.

Lemma idle_turn_ignores_stragglers_witness :
  let s := run [USER_SEND_REQUESTED (Some "t1") None; MESSAGE_COMPLETE] (INITIAL_TURN_STATE (M := unit)) in
  run [ASSISTANT_TEXT_DELTA; TOOL_USE_START; QUESTION_REQUEST] s = s.
Proof.
  apply (idle_turn_ignores_stragglers [USER_SEND_REQUESTED (Some "t1") None; MESSAGE_COMPLETE]);
    [done|by repeat constructor].
Defined.

Lemma interrupt_cancel_is_a_handoff_witness :
  activeTurnId (cancelGeneration (run [TOOL_RESULT; USER_SEND_ACCEPTED "t2"]
    (requestSend (Some "t2") (Some true) busy_with_queue))) = Some "t2".
Proof.
  apply (interrupt_cancel_is_a_handoff busy_with_queue "t2" [TOOL_RESULT; USER_SEND_ACCEPTED "t2"]).
  by repeat constructor.
Defined.

Lemma terminal_event_clears_turn_witness :
  activeTurnId (dispatch STREAM_ERROR busy_with_queue) = None.
Proof. by apply (terminal_event_clears_turn STREAM_ERROR busy_with_queue). Defined.
