(* ===== verification/ToolPairing.v ===== *)
(** * Server-tool pairing

    [assistant/src/providers/server-tool-pairing.ts], and the message data
    model of [assistant/src/providers/types.ts] it shares with history repair.
    Fields no pass here inspects — tool inputs, media, thinking, provider
    metadata — are one payload type. *)

From S2P Require Import Prelude JsMap.
Local Open Scope litt_scope.

Inductive role := user | assistant.
#[export] Instance role_eq : EqDecision role.
Proof. solve_decision. Defined.

Section blocks.
Context {P : Type}.

Record ToolResultContent := ToolResult {
  tool_use_id : string;
  result_content : string;
  is_error : option bool;
  result_rest : option P;   (* [contentBlocks] *)
}.

(** One element of a web-search result array: whether its [type] is
    [web_search_result], and its [title] and [url] where they are strings. *)
Record web_entry := WebEntry { is_result : bool; title : option string; url : option string }.

Inductive web_content :=
| Entries (l : list web_entry)
| Synthetic_web_search_error
| Opaque_content (p : P).

Inductive ContentBlock :=
| Text (text : string) (rest : option P)
| ToolUse (id name : string) (rest : P)
| ToolResultBlock (r : ToolResultContent)
| ServerToolUse (id name : string) (rest : P)
| WebSearchToolResult (id : string) (content : web_content)
| Other (rest : P).       (* thinking, media, UI surfaces *)

Record Message := Msg { role_of : role; content : list ContentBlock }.

Implicit Types (b : ContentBlock) (m : Message) (ms : list Message) (id : string).

Definition isServerToolUseBlock b : option string :=
  match b with ServerToolUse id _ _ => Some id | _ => None end.

Definition isWebSearchToolResultBlock b : option string :=
  match b with WebSearchToolResult id _ => Some id | _ => None end.

Definition isToolResultShapedBlock b : bool :=
  match b with ToolResultBlock _ => true | _ => false end.

Record ServerToolPairing := Pairing {
  resolvedPairIds : list string;
  deferredUseIds : list string;
  crossMessageIds : list string;
}.

(** [if (!map.has(id)) map.set(id, index)] *)
Definition first_set (id : string) (index : nat) (m : jsmap string nat) : jsmap string nat :=
  match m !! id with Some _ => m | None => <[id := index]> m end.

(** The scan's state: first use, first result, last assistant message. *)
Record scan_state := Scan {
  useIndexById : jsmap string nat;
  resultIndexById : jsmap string nat;
  lastAssistantIndex : option nat;
}.

Definition scan_block (index : nat) (st : scan_state) b : scan_state :=
  let uses := match isServerToolUseBlock b with
              | Some id => first_set id index (useIndexById st)
              | None => useIndexById st
              end in
  let results := match isWebSearchToolResultBlock b with
                 | Some id => first_set id index (resultIndexById st)
                 | None => resultIndexById st
                 end in
  Scan uses results (lastAssistantIndex st).

Definition scan_message (index : nat) (st : scan_state) m : scan_state :=
  match role_of m with
  | user => st
  | assistant =>
      foldl (scan_block index) (Scan (useIndexById st) (resultIndexById st) (Some index)) (content m)
  end.

Fixpoint scan_messages (index : nat) (ms : list Message) (st : scan_state) : scan_state :=
  match ms with
  | [] => st
  | m :: ms => scan_messages (S index) ms (scan_message index st m)
  end.

Definition scan ms : scan_state := scan_messages 0 ms (Scan ∅ ∅ None).

(** [resultIndex !== undefined && resultIndex >= useIndex] *)
Definition resolves (st : scan_state) (e : string * nat) : bool :=
  match resultIndexById st !! e.1 with
  | Some resultIndex => bool_decide (e.2 ≤ resultIndex)
  | None => false
  end.

Definition crosses (st : scan_state) (e : string * nat) : bool :=
  match resultIndexById st !! e.1 with
  | Some resultIndex => bool_decide (e.2 < resultIndex)
  | None => false
  end.

Definition resolved_of (st : scan_state) : list string :=
  (filter (λ e, resolves st e = true) (entries (useIndexById st))).*1.

Definition server_use_ids (c : list ContentBlock) : list string := omap isServerToolUseBlock c.

Definition deferred_of ms (last : option nat) (resolved : list string) : list string :=
  match last with
  | None => []
  | Some last =>
      let trailing := drop (S last) ms in
      let trailingAllUser := forallb (λ m, bool_decide (role_of m = user)) trailing in
      let trailingHasToolResult := existsb (λ m, existsb isToolResultShapedBlock (content m)) trailing in
      if trailingAllUser && (bool_decide (length trailing = 0) || trailingHasToolResult)
      then match ms !! last with
           | Some m => js_set (filter (λ id, id ∉ resolved) (server_use_ids (content m)))
           | None => []
           end
      else []
  end.

Definition analyzeServerToolPairing ms : ServerToolPairing :=
  let st := scan ms in
  let resolved := resolved_of st in
  Pairing resolved (deferred_of ms (lastAssistantIndex st) resolved)
    (filter (λ e, crosses st e = true) (entries (useIndexById st))).*1.

(** ** What the pairing means *)

(** The index of the first assistant message with a block [p] accepts. *)
Fixpoint first_index (p : ContentBlock → bool) (i : nat) ms : option nat :=
  match ms with
  | [] => None
  | m :: ms =>
      if bool_decide (role_of m = assistant) && existsb p (content m) then Some i
      else first_index p (S i) ms
  end.

Definition uses (id : string) b : bool := bool_decide (isServerToolUseBlock b = Some id).
Definition answers (id : string) b : bool := bool_decide (isWebSearchToolResultBlock b = Some id).

Lemma first_set_lookup id id' i (m : jsmap string nat) :
  first_set id' i m !! id =
    match m !! id with
    | Some j => Some j
    | None => if decide (id' = id) then Some i else None
    end.
Proof.
  unfold first_set. destruct (m !! id') as [j|] eqn:Hj.
  - case_decide; subst; [by rw Hj|by destruct (m !! id)].
  - rw lookup_insert. case_decide; subst; [by rw Hj|by destruct (m !! id)].
Qed.

Lemma first_set_wf id i (m : jsmap string nat) : wf m → wf (first_set id i m).
Proof. intros. unfold first_set. case_match; auto using wf_insert. Qed.

(** Scanning the blocks of one message. *)
Lemma scan_blocks_spec i c : ∀ st id,
  let st' := foldl (scan_block i) st c in
  useIndexById st' !! id =
    match useIndexById st !! id with
    | Some j => Some j
    | None => if existsb (uses id) c then Some i else None
    end ∧
  resultIndexById st' !! id =
    match resultIndexById st !! id with
    | Some j => Some j
    | None => if existsb (answers id) c then Some i else None
    end ∧
  lastAssistantIndex st' = lastAssistantIndex st.
Proof.
  induction c as [|b c IH]; intros st id; simpl.
  { split_and!; [by destruct (_ !! id)..|done]. }
  destruct (IH (scan_block i st b) id) as (-> & -> & ->). unfold scan_block. simpl.
  split_and!; [| |done].
  - unfold uses at 2. destruct (isServerToolUseBlock b) as [id'|] eqn:Hb.
    + rw first_set_lookup. destruct (useIndexById st !! id); [done|].
      destruct (decide (id' = id)) as [->|Hne].
      * by rw bool_decide_eq_true_2.
      * rw bool_decide_eq_false_2 //. congruence.
    + rw bool_decide_eq_false_2 //.
  - unfold answers at 2. destruct (isWebSearchToolResultBlock b) as [id'|] eqn:Hb.
    + rw first_set_lookup. destruct (resultIndexById st !! id); [done|].
      destruct (decide (id' = id)) as [->|Hne].
      * by rw bool_decide_eq_true_2.
      * rw bool_decide_eq_false_2 //. congruence.
    + rw bool_decide_eq_false_2 //.
Qed.

Lemma scan_messages_spec ms : ∀ i st id,
  useIndexById (scan_messages i ms st) !! id =
    match useIndexById st !! id with Some j => Some j | None => first_index (uses id) i ms end ∧
  resultIndexById (scan_messages i ms st) !! id =
    match resultIndexById st !! id with Some j => Some j | None => first_index (answers id) i ms end.
Proof.
  induction ms as [|m ms IH]; intros i st id; simpl; [by split; destruct (_ !! id)|].
  destruct (IH (S i) (scan_message i st m) id) as [-> ->].
  unfold scan_message. destruct (role_of m); simpl; [done|].
  destruct (scan_blocks_spec i (content m)
    (Scan (useIndexById st) (resultIndexById st) (Some i)) id) as (-> & -> & _). simpl.
  split.
  - destruct (useIndexById st !! id); [done|]. by destruct (existsb (uses id) (content m)).
  - destruct (resultIndexById st !! id); [done|]. by destruct (existsb (answers id) (content m)).
Qed.

Lemma scan_blocks_wf i c : ∀ st, wf (useIndexById st) → wf (useIndexById (foldl (scan_block i) st c)).
Proof.
  induction c as [|b c IH]; intros st Hwf; simpl; [done|]. apply IH. simpl.
  case_match; auto using first_set_wf.
Qed.

Lemma scan_messages_wf ms : ∀ i st,
  wf (useIndexById st) → wf (useIndexById (scan_messages i ms st)).
Proof.
  induction ms as [|m ms IH]; intros i st Hwf; simpl; [done|]. apply IH.
  unfold scan_message. case_match; [done|]. by apply scan_blocks_wf.
Qed.

(** Membership in the ids selected from the use index. *)
Lemma elem_of_selected (p : string * nat → bool) (m : jsmap string nat) id :
  wf m → id ∈ (filter (λ e, p e = true) (entries m)).*1 ↔ ∃ i, m !! id = Some i ∧ p (id, i) = true.
Proof.
  intros Hwf. split.
  - intros ([id' i] & -> & [Hp Hin]%list_elem_of_filter)%list_elem_of_fmap. simpl.
    exists i. split; [by apply entry_lookup|done].
  - intros (i & Hl & Hp). apply list_elem_of_fmap. exists (id, i). split; [done|].
    apply list_elem_of_filter. split; [done|]. by apply lookup_Some_entry.
Qed.

Lemma resolved_spec ms id :
  id ∈ resolvedPairIds (analyzeServerToolPairing ms) ↔
  ∃ i j, first_index (uses id) 0 ms = Some i ∧ first_index (answers id) 0 ms = Some j ∧ i ≤ j.
Proof.
  simpl. unfold resolved_of, scan. rw elem_of_selected; [|by apply scan_messages_wf, wf_empty].
  destruct (scan_messages_spec ms 0 (Scan ∅ ∅ None) id) as [Hu Hr].
  cbn [useIndexById resultIndexById] in Hu, Hr. rw !lookup_empty in Hu, Hr.
  unfold resolves. cbn [fst snd]. rw Hu Hr. split.
  - intros (i & Hi & Hj). destruct (first_index (answers id) 0 ms) as [j|]; [|done].
    apply bool_decide_eq_true in Hj. eauto.
  - intros (i & j & Hi & Hj & Hle). exists i. rw Hj. by split; [|apply bool_decide_eq_true].
Qed.

(** A server-tool pair is resolved exactly when its first use, in an
    assistant message, is no later than its first result in one, and crosses
    messages exactly when it is strictly earlier. *)
Theorem pairing_is_first_use_before_first_result ms id :
  let pairing := analyzeServerToolPairing ms in
  (id ∈ resolvedPairIds pairing ↔
   ∃ i j, first_index (uses id) 0 ms = Some i ∧ first_index (answers id) 0 ms = Some j ∧ i ≤ j) ∧
  (id ∈ crossMessageIds pairing ↔
   ∃ i j, first_index (uses id) 0 ms = Some i ∧ first_index (answers id) 0 ms = Some j ∧ i < j).
Proof.
  split; [apply resolved_spec|].
  simpl. unfold scan. rw elem_of_selected; [|by apply scan_messages_wf, wf_empty].
  destruct (scan_messages_spec ms 0 (Scan ∅ ∅ None) id) as [Hu Hr].
  cbn [useIndexById resultIndexById] in Hu, Hr. rw !lookup_empty in Hu, Hr.
  unfold crosses. cbn [fst snd]. rw Hu Hr. split.
  - intros (i & Hi & Hj). destruct (first_index (answers id) 0 ms) as [j|]; [|done].
    apply bool_decide_eq_true in Hj. eauto.
  - intros (i & j & Hi & Hj & Hle). exists i. rw Hj. by split; [|apply bool_decide_eq_true].
Qed.

Lemma deferred_unresolved ms id :
  id ∈ deferredUseIds (analyzeServerToolPairing ms) →
  id ∉ resolvedPairIds (analyzeServerToolPairing ms).
Proof.
  simpl. unfold deferred_of. case_match; [|by intros ?%not_elem_of_nil].
  case_match; [|by intros ?%not_elem_of_nil].
  case_match; [|by intros ?%not_elem_of_nil].
  rw elem_of_js_set. by intros [? _]%list_elem_of_filter.
Qed.
End blocks.
Arguments ToolResultContent : clear implicits.
Arguments ContentBlock : clear implicits.
Arguments Message : clear implicits.
Arguments web_content : clear implicits.
