(* ===== verification/HistoryRepair.v ===== *)
(** * History repair

    [assistant/src/agent/history-repair/history-repair.ts]: before a history
    goes to a provider, tool results are moved next to the calls they answer,
    missing ones are synthesized, orphans become text and consecutive messages
    of one role are merged. *)

From S2P Require Import Prelude JsMap ToolPairing.
Local Open Scope litt_scope.

Section repair.
Context {P : Type}.
Implicit Types (b : ContentBlock P) (c : list (ContentBlock P)) (m : Message P)
  (ms : list (Message P)) (id : string).

Record RepairStats := Stats {
  assistantToolResultsMigrated : nat;
  missingToolResultsInserted : nat;
  orphanToolResultsDowngraded : nat;
  consecutiveSameRoleMerged : nat;
}.

Definition no_repairs : RepairStats := Stats 0 0 0 0.

Definition add_stats (s t : RepairStats) : RepairStats :=
  Stats (assistantToolResultsMigrated s + assistantToolResultsMigrated t)
    (missingToolResultsInserted s + missingToolResultsInserted t)
    (orphanToolResultsDowngraded s + orphanToolResultsDowngraded t)
    (consecutiveSameRoleMerged s + consecutiveSameRoleMerged t).

Record RepairResult := Repaired {
  messages : list (Message P);
  stats : RepairStats;
  inputToOutputIndex : list (option nat);
}.

Definition SYNTHETIC_RESULT : string :=
  "<synthesized_result>tool result missing from history</synthesized_result>".

Definition newline : string := String (ascii_of_nat 10) EmptyString.

Definition format_entry (idx : nat) (e : web_entry) : string :=
  let title := title e otherwise "(untitled)" in
  let url := url e otherwise EmptyString in
  let line := pretty (N.of_nat idx) +:+ ". " +:+ title in
  if truthy (Some url) then line +:+ newline +:+ "   " +:+ url else line.

(** The numbered entries whose [type] is [web_search_result]. *)
Definition format_entries (l : list web_entry) : list string :=
  imap (λ i e, format_entry (S i) e) (filter (λ e, is_result e = true) l).

Definition formatWebSearchContent (content : web_content P) : string :=
  match content with
  | Entries l =>
      match format_entries l with
      | [] => "results unavailable"
      | lines => String.concat newline lines
      end
  | _ => "results unavailable"
  end.

Definition downgradeToolResult (r : ToolResultContent P) : ContentBlock P :=
  Text ("[orphaned tool_result for " +:+ tool_use_id r +:+ "]: " +:+ result_content r) None.

Definition downgradeWebResult (id : string) (content : web_content P) : ContentBlock P :=
  Text ("[orphaned web_search_tool_result for " +:+ id +:+ "]: " +:+ formatWebSearchContent content) None.

Definition synthetic_result (id : string) : ContentBlock P :=
  ToolResultBlock (ToolResult id SYNTHETIC_RESULT (Some true) None).

Definition recovered_map := jsmap string (ToolResultContent P).

(** The result given to a call: the recovered one, or a synthetic error. *)
Definition result_for (recovered : recovered_map) (id : string) : ContentBlock P :=
  match recovered !! id with
  | Some r => ToolResultBlock r
  | None => synthetic_result id
  end.

(** How many of [ids] have no recovered result. *)
Definition missing (ids : list string) (recovered : recovered_map) : nat :=
  length (filter (λ id, recovered !! id = None) ids).

Definition buildResultMessage (ids : list string) (recovered : recovered_map) : Message P :=
  Msg user (result_for recovered <$> ids).

(** ** The loop's state *)

Record state := State {
  result : list (Message P * option nat);  (* with the input index, [None] for -1 *)
  pending : list string;
  recovered : recovered_map;
  counted : RepairStats;
}.

(** Insert the user message that answers the pending calls. *)
Definition flush_pending (st : state) : state :=
  match pending st with
  | [] => st
  | ids => State (result st ++ [(buildResultMessage ids (recovered st), None)]) [] ∅
             (add_stats (counted st) (Stats 0 (missing ids (recovered st)) 0 0))
  end.

Definition strip_results c : list (ContentBlock P) :=
  filter (λ b, isToolResultShapedBlock b = false) c.

Definition results_of c : list (ToolResultContent P) :=
  omap (λ b, match b with ToolResultBlock r => Some r | _ => None end) c.

Definition recover (rs : list (ToolResultContent P)) : recovered_map :=
  foldl (λ acc r, <[tool_use_id r := r]> acc) ∅ rs.

Definition orphan_use (pairing : ServerToolPairing) b : bool :=
  match b with
  | ServerToolUse id _ _ =>
      bool_decide (id ∉ resolvedPairIds pairing) && bool_decide (id ∉ deferredUseIds pairing)
  | _ => false
  end.

Definition orphan_web_result (pairing : ServerToolPairing) b : bool :=
  match b with
  | WebSearchToolResult id _ => bool_decide (id ∉ resolvedPairIds pairing)
  | _ => false
  end.

(** What one block of an assistant message becomes. *)
Definition repair_server_block (pairing : ServerToolPairing) b : list (ContentBlock P) :=
  match b with
  | WebSearchToolResult id content =>
      if orphan_web_result pairing b then [downgradeWebResult id content] else [b]
  | ServerToolUse id _ _ =>
      if orphan_use pairing b then [b; WebSearchToolResult id Synthetic_web_search_error] else [b]
  | _ => [b]
  end.

Definition repair_server_blocks (pairing : ServerToolPairing) c : list (ContentBlock P) :=
  if existsb (orphan_use pairing) c || existsb (orphan_web_result pairing) c
  then c ≫= repair_server_block pairing else c.

Definition count {A} (p : A → bool) (l : list A) : nat := length (filter (λ x, p x = true) l).

Definition tool_use_ids c : list string :=
  omap (λ b, match b with ToolUse id _ _ => Some id | _ => None end) c.

Definition repair_assistant (pairing : ServerToolPairing) (i : nat) c (st : state) : state :=
  let st := flush_pending st in
  let cleaned := strip_results c in
  State (result st ++ [(Msg assistant (repair_server_blocks pairing cleaned), Some i)])
    (js_set (tool_use_ids cleaned))
    (recover (results_of c))
    (add_stats (counted st)
       (Stats (length (results_of c)) (count (orphan_use pairing) cleaned)
          (count (orphan_web_result pairing) cleaned) 0)).

(** A block of a user message while calls are pending. *)
Definition user_block (ids : list string) b : ContentBlock P :=
  match b with
  | ToolResultBlock r => if bool_decide (tool_use_id r ∈ ids) then b else downgradeToolResult r
  | WebSearchToolResult id content => downgradeWebResult id content
  | _ => b
  end.

Definition downgraded_in_user (ids : list string) b : bool :=
  match b with
  | ToolResultBlock r => negb (bool_decide (tool_use_id r ∈ ids))
  | WebSearchToolResult _ _ => true
  | _ => false
  end.

Definition result_ids c : list string := tool_use_id <$> results_of c.

Definition repair_user (i : nat) c (st : state) : state :=
  match pending st with
  | [] =>
      State (result st ++ [(Msg user (user_block [] <$> c), Some i)]) [] (recovered st)
        (add_stats (counted st) (Stats 0 0 (count (downgraded_in_user []) c) 0))
  | ids =>
      let unmatched := filter (λ id, id ∉ result_ids c) ids in
      State (result st ++ [(Msg user ((user_block ids <$> c) ++ (result_for (recovered st) <$> unmatched)), Some i)])
        [] ∅
        (add_stats (counted st)
           (Stats 0 (missing unmatched (recovered st)) (count (downgraded_in_user ids) c) 0))
  end.

Definition repair_message (pairing : ServerToolPairing) (i : nat) m (st : state) : state :=
  match role_of m with
  | assistant => repair_assistant pairing i (content m) st
  | user => repair_user i (content m) st
  end.

Fixpoint repair_messages (pairing : ServerToolPairing) (i : nat) ms (st : state) : state :=
  match ms with
  | [] => st
  | m :: ms => repair_messages pairing (S i) ms (repair_message pairing i m st)
  end.

(** ** The merge pass; [merged] is kept last message first *)

Definition merge_push (merged : list (Message P)) m : list (Message P) :=
  match merged with
  | prev :: rest =>
      if bool_decide (role_of prev = role_of m)
      then Msg (role_of prev) (content prev ++ content m) :: rest
      else m :: merged
  | [] => [m]
  end.

Definition merges (merged : list (Message P)) m : bool :=
  match merged with prev :: _ => bool_decide (role_of prev = role_of m) | [] => false end.

Fixpoint merge_pass (result : list (Message P * option nat)) (merged : list (Message P))
    (index : list (option nat)) (n : nat) : list (Message P) * list (option nat) * nat :=
  match result with
  | [] => (merged, index, n)
  | (m, source) :: result =>
      let n := if merges merged m then S n else n in
      let merged := merge_push merged m in
      let index := match source with
                   | Some i => <[i := Some (pred (length merged))]> index
                   | None => index
                   end in
      merge_pass result merged index n
  end.

Definition repairHistory ms : RepairResult :=
  let pairing := analyzeServerToolPairing ms in
  let st := flush_pending (repair_messages pairing 0 ms (State [] [] ∅ no_repairs)) in
  let '(merged, index, n) := merge_pass (result st) [] (replicate (length ms) None) 0 in
  Repaired (reverse merged) (add_stats (counted st) (Stats 0 0 0 n)) index.

(** ** Deep repair *)

Definition isEffectivelyEmptyContent c : bool :=
  forallb (λ b, match b with Text t _ => bool_decide (js_trim t = EmptyString) | _ => false end) c.

Definition merge_roles ms : list (Message P) := reverse (foldl merge_push [] ms).

(** [while (last is assistant) merged.pop()] *)
Definition drop_trailing_assistants ms : list (Message P) :=
  reverse (shift_while (λ m, bool_decide (role_of m = assistant)) (reverse ms)).

Definition deepRepairHistory ms (requireUserTerminal : bool) : RepairResult :=
  let cleaned := filter (λ m, isEffectivelyEmptyContent (content m) = false) ms in
  let cleaned := shift_while (λ m, bool_decide (role_of m = assistant)) cleaned in
  let merged := merge_roles cleaned in
  let merged := if requireUserTerminal then drop_trailing_assistants merged else merged in
  let r := repairHistory merged in
  Repaired (messages r) (stats r) [].

End repair.
Arguments RepairResult : clear implicits.
Arguments state : clear implicits.

(** ** Recognizing the rejections deep repair can fix

    Every pattern is a list of literals joined by [.*]; it matches when some
    line of the lower-cased message contains them in order. *)

Fixpoint after_literal (lit s : string) : option string :=
  if String.prefix lit s then Some (String.substring (String.length lit) (String.length s - String.length lit) s)
  else match s with
       | EmptyString => None
       | String _ s => after_literal lit s
       end.

Fixpoint in_order (lits : list string) (s : string) : bool :=
  match lits with
  | [] => true
  | lit :: lits => match after_literal lit s with Some s => in_order lits s | None => false end
  end.

Fixpoint lines_of (acc s : string) : list string :=
  match s with
  | EmptyString => [acc]
  | String a s =>
      if bool_decide (a = ascii_of_nat 10) || bool_decide (a = ascii_of_nat 13)
      then acc :: lines_of EmptyString s
      else lines_of (acc +:+ String a EmptyString) s
  end.

Definition matches (message : string) (lits : list string) : bool :=
  existsb (in_order lits) (lines_of EmptyString (string_map to_lower message)).

Definition ORDERING_ERROR_PATTERNS : list (list string) :=
  [["tool_result"; "not immediately after"; "tool_use"];
   ["tool_use"; "must have"; "tool_result"];
   ["tool_use_id"; "without"; "tool_result"];
   ["tool_result"; "tool_use_id"; "not found"];
   ["messages"; "invalid"; "order"];
   ["no tool call found for function call output"];
   ["tool_call_id"; "not found"]].

Definition WEB_SEARCH_ORDERING_PATTERNS : list (list string) :=
  [["web_search"; "tool_use"; "without"]; ["web_search"; "tool_result"]].

Definition USER_TERMINAL_HISTORY_PATTERNS : list (list string) :=
  [["ending with a model turn"]; ["must end with a user turn"]; ["must end with a user message"]].

Definition isUserTerminalHistoryError (message : string) : bool :=
  existsb (matches message) USER_TERMINAL_HISTORY_PATTERNS.

Definition isRepairableOrderingError (message : string) : bool :=
  existsb (matches message) ORDERING_ERROR_PATTERNS ||
  existsb (matches message) WEB_SEARCH_ORDERING_PATTERNS ||
  isUserTerminalHistoryError message.

Example repairable_error_demo :
  isRepairableOrderingError "messages.2: `tool_use` ids must have `tool_result` blocks" = true ∧
  isRepairableOrderingError "rate limit exceeded" = false.
Proof. by vm_compute. Qed.

(** ** What a provider accepts *)
Section spec.
Context {P : Type}.
Implicit Types (b : ContentBlock P) (c : list (ContentBlock P)) (m : Message P)
  (ms : list (Message P)) (id : string).

Definition web_result_ids c : list string := omap isWebSearchToolResultBlock c.

(** Reading [ms] with the calls [ids] waiting for their results leaves [ids']
    waiting: a user message answers exactly the calls that wait, and carries no
    server result; an assistant message comes when no call waits, carries no
    client result, and its calls wait next. *)
Fixpoint serves (ids : list string) ms (ids' : list string) : Prop :=
  match ms with
  | [] => ids' = ids
  | m :: ms =>
      match role_of m with
      | assistant =>
          ids = [] ∧ results_of (content m) = [] ∧ serves (js_set (tool_use_ids (content m))) ms ids'
      | user =>
          (∀ id, id ∈ ids ↔ id ∈ result_ids (content m)) ∧ web_result_ids (content m) = [] ∧
          serves [] ms ids'
      end
  end.

(** Every call is answered in the very next message, and nothing else is. *)
Definition answered ms : Prop := serves [] ms [].

(** Roles alternate. *)
Fixpoint alternates ms : Prop :=
  match ms with
  | m :: (m' :: _) as ms' => role_of m ≠ role_of m' ∧ alternates ms'
  | _ => True
  end.

Lemma serves_app ms1 : ∀ ids ids1 ids2 ms2,
  serves ids ms1 ids1 → serves ids1 ms2 ids2 → serves ids (ms1 ++ ms2) ids2.
Proof.
  induction ms1 as [|m ms1 IH]; intros ids ids1 ids2 ms2; simpl; [by intros ->|].
  destruct (role_of m).
  - intros (Hid & Hw & Hs) H2. split_and!; eauto.
  - intros (Hid & Hr & Hs) H2. split_and!; eauto.
Qed.

(** ** Blocks *)

Lemma results_of_app c1 c2 : results_of (c1 ++ c2) = results_of c1 ++ results_of c2.
Proof. apply omap_app. Qed.

Lemma tool_use_ids_app c1 c2 : tool_use_ids (c1 ++ c2) = tool_use_ids c1 ++ tool_use_ids c2.
Proof. apply omap_app. Qed.

Lemma web_result_ids_app c1 c2 : web_result_ids (c1 ++ c2) = web_result_ids c1 ++ web_result_ids c2.
Proof. apply omap_app. Qed.

Lemma result_ids_app c1 c2 : result_ids (c1 ++ c2) = result_ids c1 ++ result_ids c2.
Proof. unfold result_ids. by rw results_of_app fmap_app. Qed.

Lemma strip_results_none c : results_of (strip_results c) = [].
Proof.
  unfold strip_results, results_of. induction c as [|b c IH]; [done|]. rw filter_cons.
  destruct b; simpl; try done.
Qed.

Lemma strip_results_id c : results_of c = [] → strip_results c = c.
Proof.
  unfold strip_results, results_of. intros Hc. apply filter_keep. apply Forall_forall.
  intros b Hb. destruct b; simpl; try done. exfalso.
  assert (r ∈ omap (λ b, match b with ToolResultBlock r => Some r | _ => None end) c) as Hr.
  { apply list_elem_of_omap. by eexists. }
  rw Hc in Hr. by apply not_elem_of_nil in Hr.
Qed.

(** The server repair touches neither client calls nor client results. *)
Lemma repair_server_block_ids pairing b :
  tool_use_ids (repair_server_block pairing b) = tool_use_ids [b] ∧
  results_of (repair_server_block pairing b) = results_of [b].
Proof. destruct b; simpl; try done; by repeat case_match. Qed.

Lemma repair_server_blocks_ids pairing c :
  tool_use_ids (repair_server_blocks pairing c) = tool_use_ids c ∧
  results_of (repair_server_blocks pairing c) = results_of c.
Proof.
  unfold repair_server_blocks. case_match; [|done]. clear H.
  induction c as [|b c [IH1 IH2]]; [done|]. rw bind_cons.
  destruct (repair_server_block_ids pairing b) as [H1 H2].
  by rw tool_use_ids_app results_of_app IH1 IH2 H1 H2 -tool_use_ids_app -results_of_app.
Qed.

Lemma result_for_id (recovered : recovered_map) id :
  (∀ i r, recovered !! i = Some r → tool_use_id r = i) →
  result_ids [result_for recovered id] = [id] ∧ web_result_ids [result_for recovered id] = [].
Proof.
  intros Hrec. unfold result_for. destruct (recovered !! id) as [r|] eqn:Hr; [|done].
  split; [|done]. unfold result_ids. simpl. by rw (Hrec _ _ Hr).
Qed.

Lemma results_for_ids (recovered : recovered_map) ids :
  (∀ i r, recovered !! i = Some r → tool_use_id r = i) →
  result_ids (result_for recovered <$> ids) = ids ∧ web_result_ids (result_for recovered <$> ids) = [].
Proof.
  intros Hrec. induction ids as [|id ids [IH1 IH2]]; [done|].
  destruct (result_for_id recovered id Hrec) as [H1 H2].
  rw fmap_cons -(app_nil_l (_ <$> ids)) app_comm_cons result_ids_app web_result_ids_app IH1 IH2 H1 H2.
  done.
Qed.

Lemma user_block_ids ids b :
  result_ids [user_block ids b] = filter (λ id, id ∈ ids) (result_ids [b]) ∧
  web_result_ids [user_block ids b] = [].
Proof.
  destruct b; simpl; try done. case_bool_decide as Hin; simpl.
  - by rw filter_cons_True.
  - by rw filter_cons_False.
Qed.

Lemma user_blocks_ids ids c :
  result_ids (user_block ids <$> c) = filter (λ id, id ∈ ids) (result_ids c) ∧
  web_result_ids (user_block ids <$> c) = [].
Proof.
  induction c as [|b c [IH1 IH2]]; [done|]. destruct (user_block_ids ids b) as [H1 H2].
  rw fmap_cons -(app_nil_l (_ <$> c)) app_comm_cons result_ids_app web_result_ids_app IH1 IH2 H1 H2.
  split; [|done]. by rw -filter_app -result_ids_app.
Qed.

(** ** The loop's invariant *)

Definition recovered_ok (recovered : recovered_map) : Prop :=
  ∀ i (r : ToolResultContent P), recovered !! i = Some r → tool_use_id r = i.

Lemma recover_ok (rs : list (ToolResultContent P)) : recovered_ok (recover rs).
Proof.
  unfold recover. assert (∀ acc, recovered_ok acc →
    recovered_ok (foldl (λ acc r, <[tool_use_id r := r]> acc) acc rs)) as H.
  { induction rs as [|r rs IH]; intros acc Hacc; simpl; [done|]. apply IH.
    intros i r'. rw lookup_insert. case_decide; [by intros [= <-]|apply Hacc]. }
  apply H. intros i r. by rw lookup_empty.
Qed.

Record ok (st : state P) : Prop := {
  ok_serves : serves [] (result st).*1 (pending st);
  ok_recovered : recovered_ok (recovered st);
}.

Lemma ok_flush st : ok st → ok (flush_pending st) ∧ pending (flush_pending st) = [].
Proof.
  intros [Hs Hr]. unfold flush_pending. destruct (pending st) as [|id ids] eqn:Hp; [by split; [split; rw ?Hp|]|].
  split; [|done]. split; [|intros i r; by rw lookup_empty].
  cbn [result pending]. rw fmap_app. eapply serves_app; [exact Hs|].
  destruct (results_for_ids (recovered st) (id :: ids) Hr) as [H1 H2]. unfold buildResultMessage.
  simpl in *. split_and!; [by rw H1|exact H2|done].
Qed.

Lemma ok_repair_message pairing i m st : ok st → ok (repair_message pairing i m st).
Proof.
  intros Hok. unfold repair_message. destruct (role_of m).
  - pose proof Hok as [Hs Hr]. unfold repair_user. destruct (pending st) as [|id ids] eqn:Hp.
    + split; [|done]. cbn [result pending]. rw fmap_app. eapply serves_app; [exact Hs|]. simpl.
      destruct (user_blocks_ids [] (content m)) as [-> ->]. split_and!; [|done..].
      intros id. rw list_elem_of_filter. set_solver.
    + split; [|intros i' r; by rw lookup_empty]. cbn [result pending]. rw fmap_app.
      eapply serves_app; [exact Hs|]. cbn [fmap list_fmap fst serves role_of content].
      rw result_ids_app web_result_ids_app.
      destruct (user_blocks_ids (id :: ids) (content m)) as [-> ->].
      set (un := filter (λ x, x ∉ result_ids (content m)) (id :: ids)). destruct (results_for_ids (recovered st) un Hr) as [-> ->].
      split_and!; [|done..]. intros id'. rw elem_of_app. unfold un. rw !list_elem_of_filter.
      destruct (decide (id' ∈ result_ids (content m))); tauto.
  - destruct (ok_flush st Hok) as [[Hs Hr] Hp]. unfold repair_assistant.
    generalize dependent (flush_pending st). intros st1 Hs Hr Hp. rw Hp in Hs.
    split; [|apply recover_ok]. cbn [result pending]. rw fmap_app. eapply serves_app; [exact Hs|].
    cbn [fmap list_fmap fst serves role_of content].
    destruct (repair_server_blocks_ids pairing (strip_results (content m))) as [-> ->].
    split_and!; [done|apply strip_results_none|done].
Qed.

Lemma ok_repair_messages pairing ms : ∀ i st, ok st → ok (repair_messages pairing i ms st).
Proof. induction ms as [|m ms IH]; intros i st Hok; simpl; [done|]. by apply IH, ok_repair_message. Qed.

Lemma ok_initial : ok (State [] [] ∅ no_repairs).
Proof. split; [done|]. intros i r. by rw lookup_empty. Qed.

(** ** Merging *)

(** The merge pass, from its current last message on. *)
Fixpoint merge_from m ms : list (Message P) :=
  match ms with
  | [] => [m]
  | m' :: ms =>
      if bool_decide (role_of m = role_of m')
      then merge_from (Msg (role_of m) (content m ++ content m')) ms
      else m :: merge_from m' ms
  end.

Definition merge_list ms : list (Message P) :=
  match ms with [] => [] | m :: ms => merge_from m ms end.

Lemma merge_fold ms : ∀ m acc,
  reverse (foldl merge_push (m :: acc) ms) = reverse acc ++ merge_from m ms.
Proof.
  induction ms as [|m' ms IH]; intros m acc; cbn [foldl merge_from]; [by rw reverse_cons|].
  cbn [merge_push]. case_bool_decide; rw IH //. by rw reverse_cons -app_assoc.
Qed.

Lemma merge_roles_list ms : merge_roles ms = merge_list ms.
Proof. unfold merge_roles. destruct ms as [|m ms]; [done|]. apply (merge_fold ms m []). Qed.

Lemma merge_pass_fold (rs : list (Message P * option nat)) : ∀ acc index n,
  (merge_pass rs acc index n).1.1 = foldl merge_push acc rs.*1.
Proof.
  induction rs as [|[m src] rs IH]; intros acc index n; [done|]. cbn [merge_pass fmap list_fmap foldl fst].
  by rw IH.
Qed.

Lemma merge_from_head m ms : ∃ c ms', merge_from m ms = Msg (role_of m) c :: ms'.
Proof.
  revert m. induction ms as [|m' ms IH]; intros m; simpl; [destruct m; by repeat eexists|].
  case_bool_decide; [exact (IH (Msg (role_of m) (content m ++ content m')))|]. destruct m; by repeat eexists.
Qed.

Lemma merge_from_alternates ms : ∀ m, alternates (merge_from m ms).
Proof.
  induction ms as [|m' ms IH]; intros m; simpl; [done|]. case_bool_decide as Hr; [apply IH|].
  specialize (IH m'). destruct (merge_from_head m' ms) as (c & ms' & He). rw He in IH |- *.
  by split.
Qed.

Lemma serves_merge_from ms : ∀ ids m ids',
  serves ids (m :: ms) ids' → serves ids (merge_from m ms) ids'.
Proof.
  induction ms as [|m' ms IH]; intros ids m ids'; cbn [merge_from]; [done|].
  case_bool_decide as Hr.
  - intros Hs. apply IH. cbn [serves role_of content] in *. rw -Hr in Hs. destruct (role_of m).
    + destruct Hs as (Hid & Hw & Hid' & Hw' & Hs). rw result_ids_app web_result_ids_app Hw Hw'.
      split_and!; [|done..]. intros id. rw Hid elem_of_app -Hid'. set_solver.
    + destruct Hs as (-> & Hres & Hids & Hres' & Hs). apply (proj1 (js_set_nil _)) in Hids.
      rw results_of_app tool_use_ids_app Hres Hres' Hids. by split_and!.
  - cbn [serves]. destruct (role_of m).
    + intros (Hid & Hw & Hs). split_and!; [done..|]. by apply IH.
    + intros (Hid & Hw & Hs). split_and!; [done..|]. by apply IH.
Qed.

Lemma repaired_messages ms :
  messages (repairHistory ms) = merge_list
    (result (flush_pending (repair_messages (analyzeServerToolPairing ms) 0 ms (State [] [] ∅ no_repairs)))).*1.
Proof.
  unfold repairHistory. set (st := flush_pending _).
  pose proof (merge_pass_fold (result st) [] (replicate (length ms) None) 0) as Hm.
  destruct (merge_pass _ _ _ _) as [[merged index] n]. cbn [fst messages] in *. rw Hm.
  apply merge_roles_list.
Qed.

Lemma repair_accepted ms :
  answered (messages (repairHistory ms)) ∧ alternates (messages (repairHistory ms)).
Proof.
  rw repaired_messages.
  pose proof (ok_repair_messages (analyzeServerToolPairing ms) ms 0 _ ok_initial) as Hok.
  destruct (ok_flush _ Hok) as [[Hs _] Hp]. rw Hp in Hs.
  set (rs := (result _).*1) in *. unfold answered. destruct rs as [|m rs]; [done|].
  split; [by apply serves_merge_from|apply merge_from_alternates].
Qed.

(** C5 — Repair always produces a history a provider accepts: whatever the
    input, roles alternate, every tool call is answered in the message right
    after it, and no result stands without its call. *)
Theorem repair_output_well_formed ms :
  answered (messages (repairHistory ms)) ∧ alternates (messages (repairHistory ms)).
Proof. apply repair_accepted. Qed.
End spec.

(** ** Well-formed histories are left alone *)
Section identity.
Context {P : Type}.
Implicit Types (b : ContentBlock P) (c : list (ContentBlock P)) (m : Message P)
  (ms : list (Message P)) (id : string).

(** No server-tool block of an assistant message is an orphan. *)
Definition server_tools_paired (pairing : ServerToolPairing) ms : Prop :=
  Forall (λ m, role_of m = assistant →
    existsb (orphan_use pairing) (content m) = false ∧
    existsb (orphan_web_result pairing) (content m) = false) ms.

Lemma count_none {A} (p : A → bool) (l : list A) : existsb p l = false → count p l = 0.
Proof.
  unfold count. induction l as [|x l IH]; [done|]. simpl. intros [Hx Hl]%orb_false_iff.
  rw filter_cons_False; [by apply IH|congruence].
Qed.

Lemma add_no_stats s : add_stats s (Stats 0 0 0 0) = s.
Proof. destruct s. unfold add_stats. simpl. by rw !Nat.add_0_r. Qed.

Lemma user_block_id ids c :
  (∀ id, id ∈ result_ids c → id ∈ ids) → web_result_ids c = [] →
  user_block ids <$> c = c ∧ count (downgraded_in_user ids) c = 0.
Proof.
  intros Hin Hw.
  assert (Forall (λ b, user_block ids b = b ∧ downgraded_in_user ids b = false) c) as Hb.
  { apply Forall_forall. intros b Hb. destruct b; try done.
    - simpl. rw bool_decide_eq_true_2 //. apply Hin. unfold result_ids, results_of.
      apply list_elem_of_fmap. exists r. split; [done|]. apply list_elem_of_omap. by eexists.
    - exfalso. assert (id ∈ web_result_ids c) as Hid; [|rw Hw in Hid; by apply not_elem_of_nil in Hid].
      apply list_elem_of_omap. by eexists. }
  split.
  - clear Hin Hw. induction Hb as [|b c [Hb _] _ IH]; [done|]. rw fmap_cons. by rw Hb IH.
  - apply count_none. clear Hin Hw. induction Hb as [|b c [_ Hb] _ IH]; [done|]. simpl. by rw Hb IH.
Qed.

Definition sourced (i : nat) ms : list (Message P * option nat) := imap (λ k m, (m, Some (i + k))) ms.

Lemma sourced_cons i m ms : sourced i (m :: ms) = (m, Some i) :: sourced (S i) ms.
Proof.
  unfold sourced. simpl. rw Nat.add_0_r. f_equal. apply imap_ext. intros k x _. simpl.
  by rw Nat.add_succ_r.
Qed.

Lemma repair_message_id pairing i m ms st :
  serves (pending st) (m :: ms) [] → server_tools_paired pairing [m] →
  let st' := repair_message pairing i m st in
  result st' = result st ++ [(m, Some i)] ∧ counted st' = counted st ∧ serves (pending st') ms [].
Proof.
  intros Hs [Hp _]%Forall_cons. unfold repair_message. cbn [serves] in Hs. destruct m as [r c]. cbn [role_of content] in *.
  destruct r.
  - destruct Hs as (Hid & Hw & Hs). unfold repair_user. destruct (pending st) as [|id ids].
    + destruct (user_block_id [] c) as [He Hc]; [by intros id ?%Hid|done|].
      cbn [result pending counted]. rw He Hc add_no_stats. done.
    + destruct (user_block_id (id :: ids) c) as [He Hc]; [by intros id' ?%Hid|done|].
      cbn [result pending counted].
      assert (filter (λ x, x ∉ result_ids c) (id :: ids) = []) as ->.
      { apply filter_none. apply Forall_forall. intros x Hx Hn. by apply Hn, Hid. }
      by rw He Hc /= app_nil_r add_no_stats.
  - destruct Hs as (Hpend & Hr & Hs). destruct (Hp eq_refl) as [H1 H2].
    unfold repair_assistant, flush_pending. rw Hpend. cbn [result pending counted].
    rw (strip_results_id c Hr) Hr. unfold repair_server_blocks. rw H1 H2 /=.
    rw !count_none // add_no_stats. done.
Qed.

Lemma repair_messages_id pairing ms : ∀ i st,
  serves (pending st) ms [] → server_tools_paired pairing ms →
  let st' := repair_messages pairing i ms st in
  result st' = result st ++ sourced i ms ∧ counted st' = counted st ∧ pending st' = [].
Proof.
  induction ms as [|m ms IH]; intros i st Hs Hp; simpl.
  { unfold sourced. by rw app_nil_r. }
  apply Forall_cons in Hp as [Hm Hp].
  destruct (repair_message_id pairing i m ms st Hs) as (Hr & Hc & Hs'); [by apply Forall_singleton|].
  destruct (IH (S i) (repair_message pairing i m st) Hs' Hp) as (-> & -> & ->).
  by rw Hr Hc sourced_cons -app_assoc.
Qed.

Lemma merge_pass_id ms : ∀ acc i n,
  length acc = i → alternates (match acc with a :: _ => a :: ms | [] => ms end) →
  merge_pass (sourced i ms) acc ((Some <$> seq 0 i) ++ replicate (length ms) None) n =
    (reverse ms ++ acc, Some <$> seq 0 (i + length ms), n).
Proof.
  induction ms as [|m ms IH]; intros acc i n Hlen Halt.
  { simpl. by rw Nat.add_0_r app_nil_r. }
  rw sourced_cons. cbn [merge_pass length replicate].
  assert (merges acc m = false ∧ merge_push acc m = m :: acc) as [-> ->].
  { destruct acc as [|a acc]; [done|]. destruct Halt as [Hne _]. simpl. by rw bool_decide_eq_false_2. }
  assert (<[i := Some (pred (length (m :: acc)))]> ((Some <$> seq 0 i) ++ None :: replicate (length ms) None)
    = (Some <$> seq 0 (S i)) ++ replicate (length ms) None) as ->.
  { rw (seq_S i 0) fmap_app -app_assoc. rw insert_app_r_alt; rw length_fmap length_seq; [|done].
    by rw Nat.sub_diag /= Hlen. }
  rw IH; [|by rw /= Hlen|by destruct acc as [|a acc]; [|destruct Halt]].
  rw reverse_cons -app_assoc Nat.add_succ_r. done.
Qed.

Lemma repair_identity ms :
  answered ms → alternates ms → server_tools_paired (analyzeServerToolPairing ms) ms →
  repairHistory ms = Repaired ms no_repairs (Some <$> seq 0 (length ms)).
Proof.
  intros Ha Halt Hp. unfold repairHistory.
  destruct (repair_messages_id (analyzeServerToolPairing ms) ms 0 (State [] [] ∅ no_repairs) Ha Hp)
    as (Hr & Hc & Hpend).
  unfold flush_pending. rw Hpend Hr Hc. cbn [result counted app].
  pose proof (merge_pass_id ms [] 0 0 eq_refl Halt) as Hm. cbn [fmap list_fmap seq app] in Hm.
  rw Hm add_no_stats app_nil_r reverse_involutive. done.
Qed.

(** A history a provider would accept is returned as it is: no repair is
    counted and every message maps to itself. *)
Theorem well_formed_history_untouched ms :
  answered ms → alternates ms → server_tools_paired (analyzeServerToolPairing ms) ms →
  repairHistory ms = Repaired ms no_repairs (Some <$> seq 0 (length ms)).
Proof. apply repair_identity. Qed.

End identity.

(** ** Nothing is lost *)
Section carried.
Context {P : Type}.
Implicit Types (b : ContentBlock P) (c : list (ContentBlock P)) (m : Message P)
  (ms : list (Message P)) (id : string) (rs : list (Message P * option nat))
  (st : state P).

(** Blocks that are not results. *)
Definition substance b : Prop :=
  match b with ToolResultBlock _ | WebSearchToolResult _ _ => False | _ => True end.

(** [m'] has the role of [m] and everything of substance it says. *)
Definition carries m m' : Prop :=
  role_of m' = role_of m ∧ ∀ b, b ∈ content m → substance b → b ∈ content m'.

Lemma carries_refl m : carries m m.
Proof. by split. Qed.

Lemma carries_trans m1 m2 m3 : carries m1 m2 → carries m2 m3 → carries m1 m3.
Proof. intros [H1 H2] [H3 H4]. split; [congruence|]. auto. Qed.

Lemma repair_message_carries pairing i m st :
  ∃ filler m', result (repair_message pairing i m st) = result st ++ filler ++ [(m', Some i)] ∧
    omap snd filler = [] ∧ carries m m'.
Proof.
  unfold repair_message. destruct m as [r c]. destruct r; cbn [role_of content].
  - assert (∀ ids rest, carries (Msg user c) (Msg user ((user_block ids <$> c) ++ rest))) as Hu.
    { intros ids rest. split; [done|]. cbn [content]. intros b Hb Hs. apply elem_of_app. left.
      apply list_elem_of_fmap. exists b. split; [|done]. by destruct b. }
    unfold repair_user. destruct (pending st) as [|id ids]; eexists [], _; cbn [result app];
      split_and!; try done; try apply Hu. specialize (Hu [] []). by rw app_nil_r in Hu.
  - unfold repair_assistant. cbn [result].
    assert (carries (Msg assistant c) (Msg assistant (repair_server_blocks pairing (strip_results c)))) as Ha.
    { split; [done|]. cbn [content]. intros b Hb Hs.
      assert (b ∈ strip_results c) as Hb' by (apply list_elem_of_filter; split; [by destruct b|done]).
      unfold repair_server_blocks. case_match; [|done]. apply list_elem_of_bind. exists b. split; [|done].
      destruct b; simpl; try case_match; try by left. done. }
    unfold flush_pending. destruct (pending st) as [|id ids].
    + by eexists [], _.
    + eexists [_], _. cbn [result]. rw -app_assoc. by split_and!.
Qed.

Lemma repair_messages_carries pairing ms : ∀ i st,
  omap snd (result (repair_messages pairing i ms st)) = omap snd (result st) ++ seq i (length ms) ∧
  (∀ e, e ∈ result st → e ∈ result (repair_messages pairing i ms st)) ∧
  (∀ k m, ms !! k = Some m →
    ∃ m', (m', Some (i + k)) ∈ result (repair_messages pairing i ms st) ∧ carries m m').
Proof.
  induction ms as [|m ms IH]; intros i st; cbn [repair_messages length seq].
  { split_and!; [by rw app_nil_r|done|done]. }
  destruct (repair_message_carries pairing i m st) as (filler & m' & Hr & Hf & Hm).
  destruct (IH (S i) (repair_message pairing i m st)) as (Hsrc & Hkeep & Hall).
  rw Hr in Hsrc, Hkeep. split_and!.
  - rw Hsrc !omap_app Hf /= -app_assoc. done.
  - intros e He. apply Hkeep, elem_of_app. by left.
  - intros [|k] m0 Hk; simpl in Hk.
    + simplify_eq. exists m'. rw Nat.add_0_r. split; [|done]. apply Hkeep. rw !elem_of_app.
      right; right. by left.
    + destruct (Hall k m0 Hk) as (m1 & Hin & Hc). exists m1. by rw Nat.add_succ_r.
Qed.

Lemma flush_result st :
  ∃ filler, result (flush_pending st) = result st ++ filler ∧ omap snd filler = @nil nat.
Proof.
  unfold flush_pending. destruct (pending st) as [|id ids]; [exists []; by rw app_nil_r|].
  eexists [_]. by split.
Qed.

Lemma merge_push_spec (acc : list (Message P)) m :
  (∀ k m0, reverse acc !! k = Some m0 → ∃ m1, reverse (merge_push acc m) !! k = Some m1 ∧ carries m0 m1) ∧
  (∃ m1, reverse (merge_push acc m) !! pred (length (merge_push acc m)) = Some m1 ∧ carries m m1).
Proof.
  assert (∀ x (l : list (Message P)), reverse (x :: l) !! length l = Some x) as Hlast.
  { intros x l. rw reverse_cons. apply list_lookup_middle. by rw length_reverse. }
  destruct acc as [|a acc]; cbn [merge_push].
  { split; [done|]. exists m. split; [done|apply carries_refl]. }
  case_bool_decide as Hr; cbn [length pred].
  - set (am := Msg (role_of a) (content a ++ content m)).
    assert (carries a am ∧ carries m am) as [Ha Hm].
    { unfold carries, am. cbn [role_of content]. split; split; try congruence; intros b Hb _; apply elem_of_app; tauto. }
    split; [|exists am; by rw Hlast].
    intros k m0. rw !reverse_cons. intros [Hk|[Hge Hk]]%lookup_app_Some.
    + exists m0. split; [by apply lookup_app_l_Some|apply carries_refl].
    + apply list_lookup_singleton_Some in Hk as [Hz <-]. exists am. split; [|done].
      apply lookup_app_Some. right. by rw Hz.
  - split.
    + intros k m0 Hk. exists m0. split; [|apply carries_refl]. rw (reverse_cons (a :: acc) m).
      by apply lookup_app_l_Some.
    + exists m. split; [|apply carries_refl]. exact (Hlast m (a :: acc)).
Qed.

Lemma merge_pass_spec rs : ∀ acc index n,
  NoDup (omap snd rs) →
  let r := merge_pass rs acc index n in
  (∀ k m, reverse acc !! k = Some m → ∃ m', reverse r.1.1 !! k = Some m' ∧ carries m m') ∧
  (∀ i, i ∉ omap snd rs → r.1.2 !! i = index !! i) ∧
  (∀ m i, (m, Some i) ∈ rs → i < length index →
    ∃ k m', r.1.2 !! i = Some (Some k) ∧ reverse r.1.1 !! k = Some m' ∧ carries m m').
Proof.
  induction rs as [|[m src] rs IH]; intros acc index n Hnd.
  { cbn [merge_pass fst snd]. split_and!; [|done|by intros ?? ?%not_elem_of_nil].
    intros k m Hk. exists m. split; [done|apply carries_refl]. }
  destruct (merge_push_spec acc m) as [Hold (m1 & Hnew & Hcm)].
  cbn [merge_pass]. set (acc' := merge_push acc m) in *.
  set (index' := match src with Some i => <[i:=Some (pred (length acc'))]> index | None => index end).
  set (n' := if merges acc m then S n else n).
  assert (NoDup (omap snd rs)) as Hnd'.
  { destruct src; [by apply NoDup_cons in Hnd as [_ ?]|done]. }
  assert (length index' = length index) as Hlen by (unfold index'; destruct src; [apply length_insert|done]).
  destruct (IH acc' index' n' Hnd') as (Ho & Hi & Hs). split_and!.
  - intros k m0 Hk. destruct (Hold k m0 Hk) as (m2 & Hk2 & Hc2).
    destruct (Ho k m2 Hk2) as (m3 & Hk3 & Hc3). exists m3. split; [done|by eapply carries_trans].
  - intros i Hni. destruct src as [j|]; simpl in Hni.
    + rw not_elem_of_cons in Hni. destruct Hni as [Hne Hni]. rw Hi //. unfold index'.
      by rw list_lookup_insert_ne.
    + by rw Hi.
  - intros m0 i [[= -> <-]|Hin]%elem_of_cons Hlt; [|apply Hs; [done|by rw Hlen]].
    simpl in Hnd. apply NoDup_cons in Hnd as [Hni _].
    destruct (Ho _ _ Hnew) as (m2 & Hk2 & Hc2). exists (pred (length acc')), m2.
    rw Hi //. unfold index'. rw list_lookup_insert_eq //.
    split_and!; [done|done|by eapply carries_trans].
Qed.

(** Repair loses nothing but misplaced results: for every input message,
    the index map names an output message of the same role that contains every
    block of it that is not a tool result. *)
Theorem repair_keeps_substance ms (i : nat) m :
  ms !! i = Some m →
  ∃ k m', inputToOutputIndex (repairHistory ms) !! i = Some (Some k) ∧
    messages (repairHistory ms) !! k = Some m' ∧ carries m m'.
Proof.
  intros Hi. unfold repairHistory. set (pairing := analyzeServerToolPairing ms).
  destruct (repair_messages_carries pairing ms 0 (State [] [] ∅ no_repairs)) as (Hsrc & _ & Hall).
  destruct (Hall i m Hi) as (m1 & Hin & Hc1). clear Hall.
  destruct (flush_result (repair_messages pairing 0 ms (State [] [] ∅ no_repairs))) as (filler & Hf & Hfs).
  set (rs := result (flush_pending _)) in *.
  assert (NoDup (omap snd rs)) as Hnd.
  { rw Hf omap_app Hsrc Hfs app_nil_r. apply NoDup_seq. }
  assert ((m1, Some i) ∈ rs) as Hin' by (rw Hf elem_of_app; by left).
  destruct (merge_pass_spec rs [] (replicate (length ms) None) 0 Hnd) as (_ & _ & Hs).
  destruct (Hs m1 i Hin') as (k & m2 & Hk & Hl & Hc2).
  { rw length_replicate. by eapply lookup_lt_Some. }
  destruct (merge_pass rs [] (replicate (length ms) None) 0) as [[merged index] n].
  exists k, m2. split_and!; [done..|by eapply carries_trans].
Qed.
End carried.

(** ** Deep repair *)
Section deep.
Context {P : Type}.
Implicit Types (b : ContentBlock P) (c : list (ContentBlock P)) (m : Message P)
  (ms : list (Message P)) (st : state P).

Definition first_role ms : option role := role_of <$> head ms.
Definition last_role ms : option role := role_of <$> last ms.

Lemma merge_from_last ms : ∀ m, last_role (merge_from m ms) = last_role (m :: ms).
Proof.
  induction ms as [|m' ms IH]; intros m; [done|]. cbn [merge_from]. case_bool_decide as Hr.
  - rw IH. destruct ms; [by unfold last_role; simpl; rw Hr|done].
  - specialize (IH m'). destruct (merge_from_head m' ms) as (c & ms' & He). rw He in IH |- *.
    exact IH.
Qed.

Lemma merge_list_roles ms :
  first_role (merge_list ms) = first_role ms ∧ last_role (merge_list ms) = last_role ms.
Proof.
  destruct ms as [|m ms]; [done|]. split; [|apply merge_from_last].
  unfold merge_list. by destruct (merge_from_head m ms) as (c & ms' & ->).
Qed.

Lemma last_role_snoc ms m : last_role (ms ++ [m]) = Some (role_of m).
Proof. unfold last_role. by rw last_snoc. Qed.

(** The loop keeps the roles at both ends, if the first is a user's. *)
Lemma repair_messages_first pairing ms : ∀ i st,
  first_role (result st).*1 = Some user →
  first_role (result (repair_messages pairing i ms st)).*1 = Some user.
Proof.
  induction ms as [|m ms IH]; intros i st Hf; [done|]. cbn [repair_messages]. apply IH.
  destruct (repair_message_carries pairing i m st) as (filler & m' & -> & _).
  by destruct (result st).
Qed.

Lemma repair_message_last pairing i m st :
  last_role (result (repair_message pairing i m st)).*1 = Some (role_of m) ∧
  (role_of m = user → pending (repair_message pairing i m st) = []).
Proof.
  split.
  - destruct (repair_message_carries pairing i m st) as (filler & m' & -> & _ & [Hr _]).
    rw !fmap_app app_assoc /= last_role_snoc. by f_equal.
  - intros Hu. unfold repair_message. rw Hu. unfold repair_user. by case_match.
Qed.

Lemma repair_messages_last pairing ms m : ∀ i st,
  last_role (result (repair_messages pairing i (ms ++ [m]) st)).*1 = Some (role_of m) ∧
  (role_of m = user → pending (repair_messages pairing i (ms ++ [m]) st) = []).
Proof.
  induction ms as [|m0 ms IH]; intros i st; cbn [app repair_messages];
    [apply repair_message_last|apply IH].
Qed.

Lemma repair_first ms :
  first_role ms = Some user → first_role (messages (repairHistory ms)) = Some user.
Proof.
  intros Hf. rw repaired_messages. rw (proj1 (merge_list_roles _)).
  generalize (analyzeServerToolPairing ms). intros pairing.
  destruct (flush_result (repair_messages pairing 0 ms (State [] [] ∅ no_repairs))) as (filler & -> & _).
  assert (first_role (result (repair_messages pairing 0 ms (State [] [] ∅ no_repairs))).*1 = Some user) as H.
  { destruct ms as [|m ms]; [done|]. cbn [repair_messages]. apply repair_messages_first.
    unfold first_role in Hf. simpl in Hf. injection Hf as Hu. unfold repair_message. by rw Hu. }
  by destruct (result (repair_messages pairing 0 ms (State [] [] ∅ no_repairs))).
Qed.

Lemma repair_last ms :
  last_role ms = Some user → last_role (messages (repairHistory ms)) = Some user.
Proof.
  intros Hl. rw repaired_messages. rw (proj2 (merge_list_roles _)).
  generalize (analyzeServerToolPairing ms). intros pairing.
  destruct ms as [|m ms _] using rev_ind; [done|]. rw last_role_snoc in Hl. injection Hl as Hu.
  destruct (repair_messages_last pairing ms m 0 (State [] [] ∅ no_repairs)) as [Hr Hp].
  unfold flush_pending. by rw (Hp Hu) Hr Hu.
Qed.

Lemma first_role_shift ms :
  let ms' := shift_while (λ m, bool_decide (role_of m = assistant)) ms in
  ms' = [] ∨ first_role ms' = Some user.
Proof.
  cbn zeta. destruct (shift_while _ ms) as [|m ms'] eqn:He; [by left|]. right.
  apply shift_while_head in He. apply bool_decide_eq_false in He. unfold first_role. simpl.
  by destruct (role_of m).
Qed.

Lemma drop_trailing_shape ms :
  first_role ms = Some user →
  let ms' := drop_trailing_assistants ms in
  first_role ms' = Some user ∧ last_role ms' = Some user.
Proof.
  intros Hf. unfold drop_trailing_assistants.
  destruct (shift_while_suffix (λ m, bool_decide (role_of m = assistant)) (reverse ms)) as (gone & Hr & Hg).
  destruct (first_role_shift (reverse ms)) as [He|He].
  { exfalso. rw He app_nil_r in Hr. rw -Hr in Hg. destruct ms as [|m ms]; [done|]. rw reverse_cons in Hg.
    apply Forall_app in Hg as [_ [Hm _]%Forall_cons]. apply bool_decide_eq_true in Hm.
    unfold first_role in Hf. simpl in Hf. congruence. }
  destruct (shift_while _ (reverse ms)) as [|m ms'] eqn:Hs; [done|]. cbn zeta. split.
  - apply (f_equal reverse) in Hr. rw reverse_involutive reverse_app in Hr. rw Hr in Hf.
    rw reverse_cons in Hf |- *. by destruct (reverse ms').
  - rw reverse_cons last_role_snoc. exact He.
Qed.

(** Deep repair yields a history the strictest provider accepts: it
    alternates, answers every call in the next message, starts with the user
    unless nothing is left, and — where the provider demands it — ends with
    the user. *)
Theorem deep_repair_shape ms (requireUserTerminal : bool) :
  let ms' := messages (deepRepairHistory ms requireUserTerminal) in
  answered ms' ∧ alternates ms' ∧
  (ms' = [] ∨
   first_role ms' = Some user ∧ (requireUserTerminal = true → last_role ms' = Some user)).
Proof.
  unfold deepRepairHistory. cbn [messages].
  set (cleaned := shift_while _ _).
  set (merged := if requireUserTerminal then _ else _).
  destruct (repair_accepted merged) as [Ha Halt].
  split_and!; [done..|].
  assert (cleaned = [] ∨ first_role cleaned = Some user) as [Hc|Hc] by apply first_role_shift.
  - left. unfold merged. rw Hc. by destruct requireUserTerminal.
  - right. assert (first_role (merge_roles cleaned) = Some user) as Hm.
    { rw merge_roles_list. by rw (proj1 (merge_list_roles cleaned)). }
    destruct requireUserTerminal; unfold merged.
    + destruct (drop_trailing_shape _ Hm) as [Hf Hl]. split; [by apply repair_first|].
      intros _. by apply repair_last.
    + split; [by apply repair_first|done].
Qed.
End deep.

(** ** Server tools: a case repair leaves broken *)

Definition search : ContentBlock unit := ServerToolUse "srvtoolu_1" "web_search" tt.

Definition deferred_then_orphan : list (Message unit) :=
  [Msg user [Text "find it" None]; Msg assistant [search];
   Msg user [ToolResultBlock (ToolResult "toolu_9" "stray" None None)]].

(** A deferred search whose turn is followed only by an orphan client
    result is left unanswered: the pairing, judged on the input, takes the
    orphan for evidence of a tool loop and spares the search; the orphan is
    then downgraded to text, so in the output the same analysis calls the
    search an orphan, and a second repair changes the history again. *)
Theorem repair_is_not_idempotent :
  let once := messages (repairHistory deferred_then_orphan) in
  "srvtoolu_1" ∈ deferredUseIds (analyzeServerToolPairing deferred_then_orphan) ∧
  existsb (orphan_use (analyzeServerToolPairing once)) [search] = true ∧
  missingToolResultsInserted (stats (repairHistory once)) = 1.
Proof. split; [vm_compute; by left|]. by vm_compute. Qed.

(** ** A concrete history *)
Definition call : ContentBlock unit := ToolUse "toolu_1" "bash" tt.
Definition demo_history : list (Message unit) :=
  [Msg user [Text "hi" None]; Msg assistant [Text "running" None; call];
   Msg user [ToolResultBlock (ToolResult "toolu_1" "ok" None None)]].

Lemma well_formed_history_untouched_witness :
  repairHistory demo_history = Repaired demo_history no_repairs [Some 0; Some 1; Some 2].
Proof.
  apply (well_formed_history_untouched demo_history).
  - split_and!; try done; intros id; set_solver.
  - done.
  - repeat constructor; done.
Defined.

Lemma deep_repair_shape_witness :
  let ms' := messages (deepRepairHistory deferred_then_orphan true) in
  ms' ≠ [] ∧ (ms' = [] ∨ first_role ms' = Some user ∧ (true = true → last_role ms' = Some user)).
Proof. split; [by vm_compute|]. by apply (deep_repair_shape deferred_then_orphan true). Defined.

Lemma repair_keeps_substance_witness :
  ∃ k m', inputToOutputIndex (repairHistory deferred_then_orphan) !! 1 = Some (Some k) ∧
    messages (repairHistory deferred_then_orphan) !! k = Some m' ∧
    carries (Msg assistant [search]) m'.
Proof. by apply (repair_keeps_substance deferred_then_orphan 1 (Msg assistant [search])). Defined.
