(* ===== verification/ApprovalPolicy.v ===== *)
(** * Tool approval policy

    [assistant/src/permissions/approval-policy.ts]: whether a tool call runs,
    or asks first.  Risk levels and thresholds are strings looked up in the
    code's ordinal tables, with its defaults for unknown ones. *)

From S2P Require Import Prelude.
Local Open Scope Z_scope.
Local Open Scope litt_scope.

Inductive OwnerKind := owner_default | skill | mcp | plugin | workspace.
#[export] Instance OwnerKind_eq : EqDecision OwnerKind.
Proof. solve_decision. Defined.

Record ApprovalContext := Context_ {
  riskLevel : string;
  toolName : string;
  isContainerized : bool;
  isWorkspaceScoped : bool;
  toolOrigin : option OwnerKind;
  isSkillBundled : option bool;
  hasManifestOverride : option bool;
  hasSandboxAutoApprove : option bool;
  autoApproveUpTo : option string;
}.

Definition RISK_ORDINAL (risk : string) : option Z :=
  if bool_decide (risk = "low") then Some 0
  else if bool_decide (risk = "medium") then Some 1
  else if bool_decide (risk = "high") then Some 2 else None.

Definition THRESHOLD_ORDINAL (threshold : string) : option Z :=
  if bool_decide (threshold = "none") then Some (-1) else RISK_ORDINAL threshold.

Definition risk_ordinal (risk : string) : Z := RISK_ORDINAL risk otherwise 2.
Definition threshold_ordinal (threshold : option string) : Z :=
  THRESHOLD_ORDINAL (threshold otherwise "low") otherwise 0.

Definition isRiskWithinThreshold (risk : string) (threshold : option string) : bool :=
  risk_ordinal risk <=? threshold_ordinal threshold.

Inductive decision := allow | prompt | deny.
#[export] Instance decision_eq : EqDecision decision.
Proof. solve_decision. Defined.

Record ApprovalDecision := Decide { decided : decision; reason : string }.

Definition isTrue (o : option bool) : bool := o otherwise false.

(** [context.autoApproveUpTo !== "none" && bash && hasSandboxAutoApprove] *)
Definition sandbox_auto_approve (c : ApprovalContext) : bool :=
  bool_decide (toolName c = "bash") && isTrue (hasSandboxAutoApprove c) &&
  negb (bool_decide (autoApproveUpTo c = Some "none")).

Definition isThirdPartySkill (c : ApprovalContext) : bool :=
  let isExtensionOwned := bool_decide (toolOrigin c = Some skill ∨ toolOrigin c = Some plugin) in
  let isBuiltinOrigin := bool_decide (toolOrigin c = None ∨ toolOrigin c = Some owner_default) in
  (isExtensionOwned && negb (isTrue (isSkillBundled c))) ||
  (isTrue (hasManifestOverride c) && isBuiltinOrigin).

Definition evaluate (c : ApprovalContext) : ApprovalDecision :=
  let within := isRiskWithinThreshold (riskLevel c) (autoApproveUpTo c) in
  if sandbox_auto_approve c
  then Decide allow "Workspace filesystem operation (sandbox auto-approve)"
  else if isThirdPartySkill c then
    if within
    then Decide allow (riskLevel c +:+ " risk: within auto-approve threshold (skill tool)")
    else Decide prompt "Skill tool: requires approval by default"
  else if bool_decide (riskLevel c = "low") && isWorkspaceScoped c && within
  then Decide allow "Workspace-scoped low-risk operation auto-allowed"
  else if bool_decide (riskLevel c = "low") && bool_decide (toolOrigin c = Some skill) &&
          isTrue (isSkillBundled c) && within
  then Decide allow "Bundled skill tool: low risk, auto-allowed"
  else if within
  then Decide allow (riskLevel c +:+ " risk: within auto-approve threshold")
  else Decide prompt (riskLevel c +:+ " risk: above auto-approve threshold").

(** The decision, without its reason. *)
Lemma evaluate_decided c :
  decided (evaluate c) =
    if sandbox_auto_approve c || isRiskWithinThreshold (riskLevel c) (autoApproveUpTo c)
    then allow else prompt.
Proof.
  unfold evaluate. destruct (sandbox_auto_approve c); [done|].
  destruct (isRiskWithinThreshold _ _); repeat (case_match; try done).
  all: by repeat match goal with H : _ && false = true |- _ => rw andb_false_r in H end.
Qed.

(** The whole policy in one line: a call is allowed exactly when its risk
    is at or below the threshold, or when it is an allow-listed sandboxed
    shell command and the user has not asked to approve everything; otherwise
    the user is prompted, and nothing is ever denied outright.  Who owns the
    tool changes the wording, never the decision. *)
Theorem approval_decision_spec (c : ApprovalContext) :
  decided (evaluate c) ≠ deny ∧
  (decided (evaluate c) = allow ↔
   (toolName c = "bash" ∧ hasSandboxAutoApprove c = Some true ∧ autoApproveUpTo c ≠ Some "none") ∨
   risk_ordinal (riskLevel c) ≤ threshold_ordinal (autoApproveUpTo c)).
Proof.
  rw evaluate_decided. split; [by case_match|].
  unfold isRiskWithinThreshold, sandbox_auto_approve.
  assert (isTrue (hasSandboxAutoApprove c) = true ↔ hasSandboxAutoApprove c = Some true) as Hs
    by by destruct (hasSandboxAutoApprove c) as [[]|].
  rw -(Z.leb_le (risk_ordinal _)).
  destruct (risk_ordinal (riskLevel c) <=? threshold_ordinal (autoApproveUpTo c)).
  - rw orb_true_r. split; [by right|done].
  - rw orb_false_r. split.
    + case_match eqn:H; [|done]. intros _. left.
      apply andb_true_iff in H as [[Hb Hsb]%andb_true_iff Hn].
      apply bool_decide_eq_true in Hb. apply negb_true_iff, bool_decide_eq_false in Hn. tauto.
    + intros [(Hb & Hsb & Hn)|]; [|done].
      by rw (bool_decide_eq_true_2 _ Hb) (proj2 Hs Hsb) (bool_decide_eq_false_2 _ Hn).
Qed.

(** Two calls that differ only in risk and threshold. *)
Definition with_risk (risk : string) (threshold : option string) (c : ApprovalContext)
    : ApprovalContext :=
  Context_ risk (toolName c) (isContainerized c) (isWorkspaceScoped c) (toolOrigin c)
    (isSkillBundled c) (hasManifestOverride c) (hasSandboxAutoApprove c) threshold.

Lemma threshold_none t : threshold_ordinal t ≤ -1 → t = Some "none".
Proof.
  unfold threshold_ordinal, THRESHOLD_ORDINAL, RISK_ORDINAL.
  destruct t as [t|]; [|done]. repeat case_bool_decide; subst; try done; lia.
Qed.

(** Monotonicity: what is allowed stays allowed when the risk is lower or
    the threshold more permissive, with unknown risks counted as high and
    unknown thresholds as low. *)
Theorem approval_monotone (c : ApprovalContext) (r r' : string) (t t' : option string) :
  risk_ordinal r' ≤ risk_ordinal r → threshold_ordinal t ≤ threshold_ordinal t' →
  decided (evaluate (with_risk r t c)) = allow → decided (evaluate (with_risk r' t' c)) = allow.
Proof.
  intros Hr Ht.
  assert (∀ r t, decided (evaluate (with_risk r t c)) =
    if sandbox_auto_approve (with_risk r t c) || isRiskWithinThreshold r t then allow else prompt) as He
    by (intros; apply evaluate_decided).
  rw !He. clear He. assert (isRiskWithinThreshold r t = true → isRiskWithinThreshold r' t' = true) as Hw.
  { unfold isRiskWithinThreshold. intros Hle%Z.leb_le. apply Z.leb_le. lia. }
  assert (sandbox_auto_approve (with_risk r t c) = true → sandbox_auto_approve (with_risk r' t' c) = true) as Hs.
  { unfold sandbox_auto_approve. simpl. intros [-> Hn]%andb_true_iff. simpl.
    apply negb_true_iff, bool_decide_eq_false. apply negb_true_iff, bool_decide_eq_false in Hn.
    intros ->. apply Hn, threshold_none. exact Ht. }
  destruct (sandbox_auto_approve (with_risk r t c)); [by rw Hs|].
  destruct (isRiskWithinThreshold r t); [|done]. rw Hw //.
  by destruct (sandbox_auto_approve (with_risk r' t' c)).
Qed.

Lemma approval_monotone_witness :
  let c := Context_ "medium" "file_edit" false true (Some skill) (Some true) None None (Some "medium") in
  decided (evaluate c) = allow ∧ decided (evaluate (with_risk "low" (Some "high") c)) = allow.
Proof.
  intros c. split; [by vm_compute|].
  by apply (approval_monotone c "medium" "low" (Some "medium") (Some "high")).
Defined.
