(* ===== verification/CallStateMachine.v ===== *)
(** * Call status transitions

    [assistant/src/calls/call-state-machine.ts]: the single place that decides
    which status changes a phone call may make. *)

From S2P Require Import Prelude.
Local Open Scope litt_scope.

Inductive CallStatus :=
| initiated | ringing | in_progress | waiting_on_user | completed | failed | cancelled.
#[export] Instance CallStatus_eq : EqDecision CallStatus.
Proof. solve_decision. Defined.

Definition status_name (s : CallStatus) : string :=
  match s with
  | initiated => "initiated" | ringing => "ringing" | in_progress => "in_progress"
  | waiting_on_user => "waiting_on_user" | completed => "completed" | failed => "failed"
  | cancelled => "cancelled"
  end.

Definition ALLOWED_TRANSITIONS (s : CallStatus) : list CallStatus :=
  match s with
  | initiated => [ringing; in_progress; waiting_on_user; completed; failed; cancelled]
  | ringing => [in_progress; waiting_on_user; completed; failed; cancelled]
  | in_progress => [waiting_on_user; completed; failed; cancelled]
  | waiting_on_user => [in_progress; completed; failed; cancelled]
  | completed | failed | cancelled => []
  end.

Definition TERMINAL_STATES : list CallStatus := [completed; failed; cancelled].

Definition isTerminalState (s : CallStatus) : bool := bool_decide (s ∈ TERMINAL_STATES).

Record TransitionResult := Result { valid : bool; reason : option string }.

Definition validateTransition (current next : CallStatus) : TransitionResult :=
  if bool_decide (current = next) then Result true None
  else if isTerminalState current then
    Result false (Some ("Cannot transition from terminal state '" +:+ status_name current +:+ "'"))
  else if negb (bool_decide (next ∈ ALLOWED_TRANSITIONS current)) then
    Result false (Some ("Invalid transition from '" +:+ status_name current +:+ "' to '" +:+
                        status_name next +:+ "'"))
  else Result true None.

(** A call whose status is only ever changed through the validator: a request
    it rejects leaves the call as it is. *)
Definition request (current next : CallStatus) : CallStatus :=
  if valid (validateTransition current next) then next else current.

Definition requests (s : CallStatus) (rs : list CallStatus) : CallStatus := foldl request s rs.

Inductive step : CallStatus → CallStatus → Prop :=
| step_allowed s s' : s' ∈ ALLOWED_TRANSITIONS s → step s s'.

(** How far a call has progressed. *)
Definition rank (s : CallStatus) : nat :=
  match s with
  | initiated => 0 | ringing => 1 | in_progress | waiting_on_user => 2
  | completed | failed | cancelled => 3
  end.

Lemma validate_iff s s' :
  valid (validateTransition s s') = true ↔ s = s' ∨ step s s'.
Proof.
  unfold validateTransition. case_bool_decide as He; [tauto|]. split.
  - case_match eqn:Ht; [done|]. case_match eqn:Ha; [done|]. intros _. right. constructor.
    by apply negb_false_iff, bool_decide_eq_true in Ha.
  - intros [?|Hs]; [done|]. destruct Hs as [s s' Hs].
    assert (isTerminalState s = false) as ->.
    { destruct s; try done; by apply not_elem_of_nil in Hs. }
    by rw bool_decide_eq_true_2.
Qed.

Lemma request_step s r : request s r = s ∨ (request s r = r ∧ step s r).
Proof.
  unfold request. case_match eqn:Hv; [|by left]. apply validate_iff in Hv as [->|Hs]; [by left|by right].
Qed.

Lemma terminal_stuck s r : isTerminalState s = true → request s r = s.
Proof.
  destruct (request_step s r) as [->|[-> Hs]]; [done|]. destruct Hs as [s s' Hs].
  by destruct s; try done; apply not_elem_of_nil in Hs.
Qed.

Lemma step_rank s s' : step s s' → rank s ≤ rank s'.
Proof.
  destruct 1 as [s s' Hs]. destruct s; simpl in Hs; repeat (apply elem_of_cons in Hs as [->|Hs]);
    try (by apply not_elem_of_nil in Hs); simpl; lia.
Qed.

(** A finished call stays finished, and no call goes back: through any
    sequence of requested changes a terminal status is immutable, the rank
    initiated, ringing, live, finished never decreases, and the validator
    accepts exactly the table's edges and self-loops. *)
Theorem call_status_progress (s : CallStatus) (rs : list CallStatus) :
  rank s ≤ rank (requests s rs) ∧
  (isTerminalState s = true → requests s rs = s) ∧
  (∀ s', valid (validateTransition s s') = true ↔ s = s' ∨ step s s').
Proof.
  split_and!; [| |apply validate_iff].
  - unfold requests. induction rs as [|r rs IH] in s |- *; simpl; [done|].
    etrans; [|apply IH]. destruct (request_step s r) as [->|[-> Hs]]; [done|]. by apply step_rank.
  - unfold requests. induction rs as [|r rs IH] in s |- *; simpl; [done|].
    intros Ht. rw (terminal_stuck s r Ht). by apply IH.
Qed.

Lemma call_status_progress_witness :
  requests initiated [ringing; in_progress; initiated; completed; in_progress] = completed ∧
  requests completed [in_progress; failed] = completed.
Proof.
  split; [done|]. by apply (call_status_progress completed [in_progress; failed]).
Defined.
