(* ===== verification/BargeInGuard.v ===== *)
(** * Barge-in guard

    [assistant/src/calls/barge-in-guard.ts]: how much sustained speech it takes
    to interrupt the assistant.  Chunk lengths are in milliseconds. *)

From S2P Require Import Prelude.
Local Open Scope Z_scope.

Definition DEFAULT_BARGE_IN_MIN_SPEECH_MS : Z := 250.
Definition BARGE_IN_GAP_TOLERANCE_MS : Z := 200.
Definition BARGE_IN_MAX_TOLERATED_SILENCE_RATIO : Z := 4.

Inductive classification := speech | silence | echo.
#[export] Instance classification_eq : EqDecision classification.
Proof. solve_decision. Defined.

Inductive guard_step := Pending | Reset_ | Fired.
#[export] Instance guard_step_eq : EqDecision guard_step.
Proof. solve_decision. Defined.

(** The variables the guard closes over. *)
Record guard := Guard {
  speechMs : Z;
  silenceMs : Z;
  toleratedSilenceMs : Z;
  fired : bool;
}.

Definition createBargeInGuard : guard := Guard 0 0 0 false.

Definition reset (g : guard) : guard := Guard 0 0 0 (fired g).

Definition track (minSpeechMs : Z) (c : classification) (chunkMs : Z) (g : guard)
    : guard * guard_step :=
  if fired g then (g, Fired)
  else match c with
       | echo => (reset g, Reset_)
       | silence =>
           let quiet := silenceMs g + chunkMs in
           let tolerated := toleratedSilenceMs g + chunkMs in
           let g := Guard (speechMs g) quiet tolerated (fired g) in
           if (BARGE_IN_GAP_TOLERANCE_MS <? quiet) ||
              (minSpeechMs * BARGE_IN_MAX_TOLERATED_SILENCE_RATIO <? tolerated)
           then (reset g, Reset_) else (g, Pending)
       | speech =>
           let spoken := speechMs g + chunkMs in
           if spoken <? minSpeechMs then (Guard spoken 0 (toleratedSilenceMs g) false, Pending)
           else (Guard spoken 0 (toleratedSilenceMs g) true, Fired)
       end.

(** ** Runs of chunks *)
Definition chunk : Type := classification * Z.

Definition tracks (minSpeechMs : Z) (cs : list chunk) (g : guard) : guard :=
  foldl (λ g c, (track minSpeechMs c.1 c.2 g).1) g cs.

(** Speech and silence in a run, and its trailing silence. *)
Definition total (k : classification) (cs : list chunk) : Z :=
  foldr (λ c acc, (if bool_decide (c.1 = k) then c.2 else 0) + acc) 0 cs.

Definition trailing_silence (cs : list chunk) : Z :=
  foldl (λ acc c, if bool_decide (c.1 = silence) then acc + c.2 else 0) 0 cs.

(** A tolerable run: no echo, and after each of its chunks the silence since
    the last speech and the silence so far are within the limits. *)
Record sustained (minSpeechMs : Z) (cs : list chunk) : Prop := {
  no_echo : Forall (λ c, c.1 ≠ echo) cs;
  gaps_short : ∀ p, p `prefix_of` cs → trailing_silence p ≤ BARGE_IN_GAP_TOLERANCE_MS;
  silence_bounded : ∀ p, p `prefix_of` cs → p ≠ [] → fst <$> last p = Some silence →
    total silence p ≤ minSpeechMs * BARGE_IN_MAX_TOLERATED_SILENCE_RATIO;
}.

Lemma total_snoc k cs c : total k (cs ++ [c]) = total k cs + if bool_decide (c.1 = k) then c.2 else 0.
Proof. unfold total. induction cs as [|c' cs IH]; simpl; [lia|]. rw IH. lia. Qed.

Lemma trailing_snoc cs c :
  trailing_silence (cs ++ [c]) = if bool_decide (c.1 = silence) then trailing_silence cs + c.2 else 0.
Proof. unfold trailing_silence. by rw foldl_app. Qed.

Lemma prefix_snoc_inv {A} (p l : list A) x : p `prefix_of` l ++ [x] → p = l ++ [x] ∨ p `prefix_of` l.
Proof.
  intros [k Hk]. destruct k as [|y k _] using rev_ind; [left; by rw app_nil_r in Hk|].
  right. rw app_assoc in Hk. apply app_inj_tail in Hk as [-> _]. by exists k.
Qed.

Lemma sustained_nil m : sustained m [].
Proof.
  split; [constructor| |].
  - intros p Hp. apply prefix_nil_inv in Hp as ->. done.
  - intros p Hp Hne. by apply prefix_nil_inv in Hp.
Qed.

(** Extending a run by a chunk that keeps it within the limits. *)
Lemma sustained_snoc m cs c :
  sustained m cs → c.1 ≠ echo →
  trailing_silence (cs ++ [c]) ≤ BARGE_IN_GAP_TOLERANCE_MS →
  (c.1 = silence → total silence (cs ++ [c]) ≤ m * BARGE_IN_MAX_TOLERATED_SILENCE_RATIO) →
  sustained m (cs ++ [c]).
Proof.
  intros [He Hg Hb] Hc Ht Hs. split.
  - apply Forall_app. by split; [|constructor].
  - intros p [->|Hp]%prefix_snoc_inv; auto.
  - intros p [->|Hp]%prefix_snoc_inv Hne; [|by apply Hb].
    rw last_snoc /=. by intros [= ?]; apply Hs.
Qed.

(** The guard's counters are those of a suffix of the chunks — the current
    run — and the run is tolerable; it holds enough speech once fired. *)
Definition accounts (m : Z) (cs : list chunk) (g : guard) : Prop :=
  ∃ before run after, cs = before ++ run ++ after ∧ sustained m run ∧
    speechMs g = total speech run ∧
    if fired g
    then m ≤ total speech run ∧ fst <$> last run = Some speech
    else after = [] ∧ silenceMs g = trailing_silence run ∧ toleratedSilenceMs g = total silence run.

Lemma accounts_step m cs g c :
  accounts m cs g → accounts m (cs ++ [c]) (track m c.1 c.2 g).1.
Proof.
  intros (before & run & after & -> & Hsus & Hsp & Hf). destruct c as [k ms]. unfold track.
  destruct (fired g) eqn:Hfired.
  { exists before, run, (after ++ [(k, ms)]). rw Hfired. split_and!; try done; try apply Hf.
    by rw -!app_assoc. }
  destruct Hf as (-> & Hq & Ht). rw app_nil_r. cbn [fst snd].
  assert (∀ g', speechMs g' = 0 → silenceMs g' = 0 → toleratedSilenceMs g' = 0 → fired g' = false →
    accounts m ((before ++ run) ++ [(k, ms)]) g') as Hreset.
  { intros g' H1 H2 H3 H4. exists ((before ++ run) ++ [(k, ms)]), [], []. rw H4 !app_nil_r.
    split_and!; try done. apply sustained_nil. }
  assert ((before ++ run) ++ [(k, ms)] = before ++ (run ++ [(k, ms)]) ++ []) as Hsplit
    by by rw app_nil_r app_assoc.
  destruct k.
  - destruct (Z.ltb_spec (speechMs g + ms) m) as [Hlt|Hge]; cbn [fst];
      exists before, (run ++ [(speech, ms)]), []; cbn [fired speechMs silenceMs toleratedSilenceMs].
    all: split_and!; try done.
    all: try (apply sustained_snoc; [done|done|rw trailing_snoc; done|done]).
    all: rw ?total_snoc ?trailing_snoc /=; try lia. by rw last_snoc.
  - destruct (_ || _) eqn:Hover; cbn [fst]; [by apply Hreset|].
    apply orb_false_iff in Hover as [H1%Z.ltb_ge H2%Z.ltb_ge].
    exists before, (run ++ [(silence, ms)]), []. cbn [fired speechMs silenceMs toleratedSilenceMs].
    split_and!; try done.
    + apply sustained_snoc; [done|done|rw trailing_snoc /=; lia|intros _; rw total_snoc /=; lia].
    + rw total_snoc /=. lia.
    + rw trailing_snoc /=. lia.
    + rw total_snoc /=. lia.
  - by apply Hreset.
Qed.

Lemma accounts_initial m : accounts m [] createBargeInGuard.
Proof. exists [], [], []. split_and!; try done. apply sustained_nil. Qed.

Lemma tracks_snoc m cs c g : tracks m (cs ++ [c]) g = (track m c.1 c.2 (tracks m cs g)).1.
Proof. unfold tracks. by rw foldl_app. Qed.

Lemma accounts_run m cs : accounts m cs (tracks m cs createBargeInGuard).
Proof.
  induction cs as [|c cs IH] using rev_ind; [apply accounts_initial|].
  rw tracks_snoc. by apply accounts_step.
Qed.

(** No interruption without sustained speech: whenever the guard has
    fired, some run of consecutive chunks contains at least the required
    speech, ends in speech, has no echo, no gap beyond the tolerance and no
    more silence than the ratio allows — so sparse blips never add up. *)
Theorem barge_in_needs_sustained_speech (minSpeechMs : Z) (cs : list chunk) :
  fired (tracks minSpeechMs cs createBargeInGuard) = true →
  ∃ before run after, cs = before ++ run ++ after ∧
    sustained minSpeechMs run ∧ minSpeechMs ≤ total speech run ∧ fst <$> last run = Some speech.
Proof.
  intros Hf. destruct (accounts_run minSpeechMs cs) as (before & run & after & H1 & H2 & _ & H3).
  rw Hf in H3. exists before, run, after. tauto.
Qed.

Lemma barge_in_needs_sustained_speech_witness :
  ∃ before run after,
    [(speech, 100); (echo, 50); (speech, 150); (silence, 200); (speech, 100)] = before ++ run ++ after ∧
    sustained 250 run ∧ 250 ≤ total speech run ∧ fst <$> last run = Some speech.
Proof. by apply barge_in_needs_sustained_speech. Defined.

(** Sustained speech interrupts: from any state of an unspent guard,
    uninterrupted speech of the required length fires it, and a spent guard
    answers fired for ever. *)
Theorem sustained_speech_fires (minSpeechMs : Z) (g : guard) (ds : list Z) (later : list chunk) :
  0 ≤ speechMs g → Forall (λ d, 0 ≤ d) ds → ds ≠ [] →
  minSpeechMs ≤ foldr Z.add 0 ds →
  fired (tracks minSpeechMs (((λ d, (speech, d)) <$> ds) ++ later) g) = true.
Proof.
  intros Hg Hds Hne Hsum. unfold tracks. rw foldl_app.
  assert (∀ cs g, fired g = true → fired (foldl (λ g c, (track minSpeechMs c.1 c.2 g).1) g cs) = true) as Hspent.
  { induction cs as [|c cs IH]; intros g' Hf; simpl; [done|]. apply IH. unfold track. by rw Hf. }
  apply Hspent. assert (minSpeechMs ≤ speechMs g + foldr Z.add 0 ds) as Hs by lia. clear Hsum Hg later.
  induction Hds as [|d ds Hd _ IH] in g, Hs, Hne |- *; [done|]. simpl in *.
  unfold track at 2. destruct (fired g) eqn:Hf; [by apply Hspent|].
  destruct (Z.ltb_spec (speechMs g + d) minSpeechMs); [|by apply Hspent].
  apply IH; simpl; [|lia]. intros ->. simpl in *. lia.
Qed.

Lemma sustained_speech_fires_witness :
  fired (tracks 250 [(speech, 100); (speech, 150); (echo, 10)] createBargeInGuard) = true.
Proof.
  apply (sustained_speech_fires 250 createBargeInGuard [100; 150] [(echo, 10)]); try done; repeat constructor.
  all: done.
Defined.
