(* ===== verification/TurnDetector.v ===== *)
(** * Speech turn detector

    [assistant/src/calls/media-turn-detector.ts]: cuts a phone call's audio
    stream into turns with two timers.  A timer is its deadline; its callback
    is an event that happens at or after it, in any order with the chunks.
    Callbacks are returned as notifications. *)

From S2P Require Import Prelude.
Local Open Scope Z_scope.
Local Open Scope litt_scope.

Definition DEFAULT_SILENCE_THRESHOLD_MS : Z := 800.
Definition DEFAULT_MAX_TURN_DURATION_MS : Z := 30000.

Inductive end_reason := by_silence | by_max_duration.
#[export] Instance end_reason_eq : EqDecision end_reason.
Proof. solve_decision. Defined.

Inductive notification :=
| TurnStart
| TurnEnd (reason : end_reason) (durationMs : Z).

Record detector := Detector {
  silenceThresholdMs : Z;
  maxTurnDurationMs : Z;
  active : bool;
  hasSpeechInTurn : bool;
  turnStartedAt : Z;
  silenceTimer : option Z;
  maxDurationTimer : option Z;
  disposed : bool;
}.

Definition newMediaTurnDetector (silence max : option Z) : detector :=
  Detector (silence otherwise DEFAULT_SILENCE_THRESHOLD_MS)
    (max otherwise DEFAULT_MAX_TURN_DURATION_MS) false false 0 None None false.

Definition setSilenceThresholdMs (ms : Z) (d : detector) : detector :=
  Detector ms (maxTurnDurationMs d) (active d) (hasSpeechInTurn d) (turnStartedAt d)
    (silenceTimer d) (maxDurationTimer d) (disposed d).

(** [clearTimeout] of a running timer, then [setTimeout]. *)
Definition resetSilenceTimer (now : Z) (d : detector) : detector :=
  Detector (silenceThresholdMs d) (maxTurnDurationMs d) (active d) (hasSpeechInTurn d)
    (turnStartedAt d) (Some (now + silenceThresholdMs d)) (maxDurationTimer d) (disposed d).

Definition clearTimers (d : detector) : detector :=
  Detector (silenceThresholdMs d) (maxTurnDurationMs d) (active d) (hasSpeechInTurn d)
    (turnStartedAt d) None None (disposed d).

Definition set_active (a : bool) (d : detector) : detector :=
  Detector (silenceThresholdMs d) (maxTurnDurationMs d) a (hasSpeechInTurn d)
    (turnStartedAt d) (silenceTimer d) (maxDurationTimer d) (disposed d).

Definition endTurn (reason : end_reason) (now : Z) (d : detector) : detector * list notification :=
  if negb (active d) then (d, [])
  else
    let durationMs := now - turnStartedAt d in
    let d := clearTimers d in
    (Detector (silenceThresholdMs d) (maxTurnDurationMs d) false false (turnStartedAt d)
       (silenceTimer d) (maxDurationTimer d) (disposed d),
     [TurnEnd reason durationMs]).

(** Idle to active, with the duration cap armed. *)
Definition startTurn (now : Z) (d : detector) : detector :=
  Detector (silenceThresholdMs d) (maxTurnDurationMs d) true true now
    (silenceTimer d) (Some (now + maxTurnDurationMs d)) (disposed d).

Definition onMediaChunk (hasSpeech : bool) (now : Z) (d : detector)
    : detector * list notification :=
  if disposed d then (d, [])
  else if hasSpeech then
    let '(d, ns) := if active d then (d, []) else (startTurn now d, [TurnStart]) in
    (resetSilenceTimer now d, ns)
  else if active d && bool_decide (silenceTimer d = None) then (resetSilenceTimer now d, [])
  else (d, []).

Definition forceEnd (now : Z) (d : detector) : detector * list notification :=
  if negb (active d) || disposed d then (d, []) else endTurn by_silence now d.

Definition dispose (d : detector) : detector :=
  set_active false (clearTimers
    (Detector (silenceThresholdMs d) (maxTurnDurationMs d) (active d) (hasSpeechInTurn d)
       (turnStartedAt d) (silenceTimer d) (maxDurationTimer d) true)).

(** The silence timer's callback. *)
Definition onSilence (now : Z) (d : detector) : detector * list notification :=
  if hasSpeechInTurn d then endTurn by_silence now d
  else (set_active false (clearTimers d), []).

(** The duration timer's callback. *)
Definition onMaxDuration (now : Z) (d : detector) : detector * list notification :=
  endTurn by_max_duration now d.

(** ** Runs *)
Inductive event :=
| Chunk (hasSpeech : bool) | ForceEnd | Dispose | SetThreshold (ms : Z)
| SilenceFires | MaxDurationFires.

(** A timer's callback runs only while the timer is armed and due. *)
Definition due (timer : option Z) (now : Z) : Prop :=
  match timer with Some t => t ≤ now | None => False end.

Inductive step : detector → Z → event → detector → list notification → Prop :=
| step_chunk d now b : step d now (Chunk b) (onMediaChunk b now d).1 (onMediaChunk b now d).2
| step_force d now : step d now ForceEnd (forceEnd now d).1 (forceEnd now d).2
| step_dispose d now : step d now Dispose (dispose d) []
| step_threshold d now ms : step d now (SetThreshold ms) (setSilenceThresholdMs ms d) []
| step_silence d now : due (silenceTimer d) now →
    step d now SilenceFires (onSilence now d).1 (onSilence now d).2
| step_max d now : due (maxDurationTimer d) now →
    step d now MaxDurationFires (onMaxDuration now d).1 (onMaxDuration now d).2.

(** A run: each event with its time, never going back, and what it notifies. *)
Inductive trace : detector → Z → list (Z * event * list notification) → detector → Prop :=
| trace_nil d t : trace d t [] d
| trace_cons d t now e d1 ns es d2 :
    t ≤ now → step d now e d1 ns → trace d1 now es d2 →
    trace d t ((now, e, ns) :: es) d2.

Definition notifications (es : list (Z * event * list notification)) : list notification :=
  es ≫= snd.

(** Starts and ends alternate; [on] says whether a turn is open. *)
Fixpoint alternating (on : bool) (ns : list notification) : Prop :=
  match ns with
  | [] => True
  | TurnStart :: ns => on = false ∧ alternating true ns
  | TurnEnd _ _ :: ns => on = true ∧ alternating false ns
  end.

(** What every reachable detector satisfies at time [t]: an open turn has
    heard speech and has both timers armed, the cap at its start plus the
    maximal duration; no turn, no timer; nothing is open once disposed. *)
Record inv (t : Z) (d : detector) : Prop := {
  inv_active : active d = true →
    hasSpeechInTurn d = true ∧ silenceTimer d ≠ None ∧
    maxDurationTimer d = Some (turnStartedAt d + maxTurnDurationMs d) ∧ turnStartedAt d ≤ t;
  inv_idle : active d = false → silenceTimer d = None ∧ maxDurationTimer d = None;
  inv_disposed : disposed d = true → active d = false;
}.

Lemma inv_new s m t : inv t (newMediaTurnDetector s m).
Proof. by split. Qed.

Lemma inv_later t t' d : inv t d → t ≤ t' → inv t' d.
Proof. intros [Ha Hi Hd] Hle. split; [intros Ht|done..]. destruct (Ha Ht) as (?&?&?&?). split_and!; [done..|lia]. Qed.

(** Ending a turn: the notification, and the state it leaves. *)
Lemma endTurn_spec r now t d :
  inv t d → active d = true →
  inv now (endTurn r now d).1 ∧ active (endTurn r now d).1 = false ∧
  (endTurn r now d).2 = [TurnEnd r (now - turnStartedAt d)].
Proof. intros Hinv Ha. unfold endTurn. rw Ha /=. split_and!; [by split|done..]. Qed.

(** What one event notifies, and what that says about the turn. *)
Definition outcome (now : Z) (d : detector) (ns : list notification) (d' : detector) : Prop :=
  match ns with
  | [] => active d' = active d ∨ disposed d' = true
  | [TurnStart] => active d = false ∧ active d' = true
  | [TurnEnd r dur] => active d = true ∧ active d' = false ∧ dur = now - turnStartedAt d ∧
      (r = by_max_duration → maxTurnDurationMs d ≤ dur)
  | _ => False
  end.

Lemma end_outcome r now t d :
  inv t d → t ≤ now → (r = by_max_duration → due (maxDurationTimer d) now) →
  inv now (endTurn r now d).1 ∧ outcome now d (endTurn r now d).2 (endTurn r now d).1.
Proof.
  intros Hinv Hle Hmax. pose proof (inv_later _ _ _ Hinv Hle) as Hinv'.
  destruct (active d) eqn:Ha; [|unfold endTurn; rw Ha /=; by split; [|left]].
  destruct (endTurn_spec r now t d Hinv Ha) as (H1 & H2 & ->). split; [done|].
  split_and!; [done..|]. intros Hr. specialize (Hmax Hr).
  destruct (inv_active _ _ Hinv Ha) as (_ & _ & Ht & _). rw Ht in Hmax. simpl in Hmax. lia.
Qed.

Lemma step_outcome t d now e d' ns :
  inv t d → t ≤ now → step d now e d' ns →
  inv now d' ∧ outcome now d ns d' ∧ (disposed d = true → ns = [] ∧ disposed d' = true).
Proof.
  intros Hinv Hle Hs. pose proof (inv_later _ _ _ Hinv Hle) as Hnow. pose proof Hnow as [Ha Hi Hd].
  destruct Hs as [d now b|d now|d now|d now ms|d now Hdue|d now Hdue].
  - unfold onMediaChunk. destruct (disposed d) eqn:Hdis; [by split_and!; [|left|]|].
    destruct b.
    + destruct (active d) eqn:Hact; cbn [fst snd].
      * destruct (Ha eq_refl) as (? & ? & ? & ?). split_and!; [|by left|done]. by split; simpl; try congruence.
      * split_and!; [|done|done]. split; simpl; try congruence. intros _. split_and!; [done..|lia].
    + destruct (active d) eqn:Hact; simpl; [|by split_and!; [|left|]].
      destruct (Ha eq_refl) as (? & Hst & ? & ?). rw bool_decide_eq_false_2 //.
      by split_and!; [|left|].
  - unfold forceEnd. destruct (active d) eqn:Hact; simpl; [|by split_and!; [|left|]].
    destruct (disposed d) eqn:Hdis; [by specialize (Hd eq_refl)|].
    destruct (end_outcome by_silence now t d) as [H1 H2]; [done..|]. by split_and!.
  - split_and!; [by split|by right|done].
  - split_and!; [|by left|done]. by split.
  - assert (active d = true) as Hact.
    { destruct (active d) eqn:Hact; [done|]. destruct (Hi eq_refl) as [Hn _]. by rw Hn in Hdue. }
    unfold onSilence. rw (proj1 (Ha Hact)).
    destruct (end_outcome by_silence now t d) as [H1 H2]; [done..|]. split_and!; [done..|].
    intros Hdis. by rw (Hd Hdis) in Hact.
  - unfold onMaxDuration. destruct (end_outcome by_max_duration now t d) as [H1 H2]; [done..|].
    split_and!; [done..|]. intros Hdis. unfold endTurn. by rw (Hd Hdis).
Qed.

Lemma step_cap d now e d' ns : step d now e d' ns → maxTurnDurationMs d' = maxTurnDurationMs d.
Proof.
  destruct 1 as [d now b|d now|d now|d now ms|d now _|d now _]; try done.
  - unfold onMediaChunk. destruct (disposed d); [done|]. destruct b; [by destruct (active d)|].
    by destruct (active d && bool_decide (silenceTimer d = None)).
  - unfold forceEnd, endTurn. by destruct (active d), (disposed d).
  - unfold onSilence, endTurn. by destruct (hasSpeechInTurn d), (active d).
  - unfold onMaxDuration, endTurn. by destruct (active d).
Qed.

Lemma trace_outcome d t es d' :
  trace d t es d' → inv t d →
  (disposed d = true → notifications es = []) ∧
  alternating (active d) (notifications es) ∧
  (∀ now e ns r dur, (now, e, ns) ∈ es → TurnEnd r dur ∈ ns →
     0 ≤ dur ∧ (r = by_max_duration → maxTurnDurationMs d ≤ dur)).
Proof.
  induction 1 as [|d t now e d1 ns es d2 Hle Hs _ IH]; intros Hinv.
  { split_and!; [done..|]. by intros ????? ?%not_elem_of_nil. }
  destruct (step_outcome _ _ _ _ _ _ Hinv Hle Hs) as (Hinv1 & Ho & Hdis).
  destruct (IH Hinv1) as (IHd & IHa & IHe). unfold notifications in *. rw bind_cons. cbn [snd].
  assert (maxTurnDurationMs d1 = maxTurnDurationMs d) as Hm.
  { by eapply step_cap. }
  rw Hm in IHe.
  split_and!.
  - intros H. destruct (Hdis H) as [-> H1]. by apply IHd.
  - destruct ns as [|n [|]]; simpl in Ho; [| |by destruct n].
    + destruct Ho as [<-|Hd1]; [done|]. by rw (IHd Hd1).
    + destruct n as [|r dur]; simpl; [by destruct Ho as [-> <-]|by destruct Ho as (-> & <- & _)].
  - intros now' e' ns' r dur [[= -> -> ->]|Hin]%elem_of_cons Hn; [|by eapply IHe].
    destruct ns as [|n [|]]; simpl in Ho; [by apply not_elem_of_nil in Hn| |by destruct n].
    apply list_elem_of_singleton in Hn as <-. destruct Ho as (Hact & _ & -> & Hmax).
    split; [|done]. destruct (inv_active _ _ Hinv Hact) as (_ & _ & _ & Hst). lia.
Qed.

(** Turns are well bracketed: over any run of a detector, starts and ends
    alternate beginning with a start, a turn is never reported to last a
    negative time, and one ended by the cap has lasted at least the cap. *)
Theorem turns_alternate (silence max : option Z) (t : Z)
    (es : list (Z * event * list notification)) (d : detector) :
  trace (newMediaTurnDetector silence max) t es d →
  alternating false (notifications es) ∧
  (∀ now e ns r dur, (now, e, ns) ∈ es → TurnEnd r dur ∈ ns →
     0 ≤ dur ∧ (r = by_max_duration → max otherwise DEFAULT_MAX_TURN_DURATION_MS ≤ dur)).
Proof.
  intros Htr. by destruct (trace_outcome _ _ _ _ Htr (inv_new silence max t)) as (_ & Ha & He).
Qed.

(** A disposed detector is inert: it never notifies again. *)
Theorem disposed_detector_is_inert (now : Z)
    (es : list (Z * event * list notification)) (d d' : detector) :
  trace (dispose d) now es d' →
  notifications es = [].
Proof.
  intros Htr. destruct (trace_outcome _ _ _ _ Htr) as (Hd & _); [by split|by apply Hd].
Qed.

(** The silence timer, if armed, is not due before [x], and the threshold is
    [s]. *)
Definition quiet_until (x s : Z) (d : detector) : Prop :=
  silenceThresholdMs d = s ∧ match silenceTimer d with Some y => x ≤ y | None => True end.

Lemma quiet_step d now e d' ns x s :
  step d now e d' ns → quiet_until x s d → x ≤ now + s → (∀ ms, e ≠ SetThreshold ms) →
  quiet_until x s d'.
Proof.
  intros Hs [Ht Hq] Hx Hne. destruct Hs as [d now b|d now|d now|d now ms|d now Hdue|d now Hdue]; try by split.
  - unfold onMediaChunk. destruct (disposed d); [by split|]. destruct b.
    + destruct (active d); split; simpl; try done; lia.
    + destruct (active d && bool_decide (silenceTimer d = None)); [|by split].
      split; simpl; [done|lia].
  - unfold forceEnd, endTurn. destruct (active d); simpl; [|by split]. by destruct (disposed d); split.
  - by destruct (Hne ms).
  - unfold onSilence, endTurn. destruct (hasSpeechInTurn d), (active d); by split.
  - unfold onMaxDuration, endTurn. destruct (active d); by split.
Qed.

Lemma quiet_trace d t es d' x s :
  trace d t es d' → quiet_until x s d → x ≤ t + s →
  (∀ now ms ns, (now, SetThreshold ms, ns) ∉ es) →
  ∀ now ns, (now, SilenceFires, ns) ∈ es → x ≤ now.
Proof.
  induction 1 as [|d t now e d1 ns es d2 Hle Hs _ IH]; intros Hq Hx Hne now' ns'; [by intros ?%not_elem_of_nil|].
  intros [[= <- <- <-]|Hin]%elem_of_cons.
  - inversion Hs; subst. destruct Hq as [_ Hq]. unfold due in *. destruct (silenceTimer d); [lia|done].
  - eapply IH; [|lia| |exact Hin].
    + eapply quiet_step; [exact Hs|done|lia|]. intros ms ->. apply (Hne now ms ns). by left.
    + intros n ms m Hm. apply (Hne n ms m). by right.
Qed.

(** Only real pauses end a turn: after a speech chunk at [now], the
    silence timer does not fire for the whole threshold, whatever chunks
    follow, while the threshold is not retuned. *)
Theorem silence_needs_a_full_pause (d d' : detector) (now : Z)
    (es : list (Z * event * list notification)) :
  disposed d = false →
  trace (onMediaChunk true now d).1 now es d' →
  (∀ t ms ns, (t, SetThreshold ms, ns) ∉ es) →
  ∀ t ns, (t, SilenceFires, ns) ∈ es → now + silenceThresholdMs d ≤ t.
Proof.
  intros Hd Htr Hne.
  apply (quiet_trace _ _ _ _ (now + silenceThresholdMs d) (silenceThresholdMs d) Htr); [|lia|done].
  unfold onMediaChunk. rw Hd. destruct (active d); split; simpl; done || lia.
Qed.

Definition demo_events : list (Z * event * list notification) :=
  [(0, Chunk true, [TurnStart]); (20, Chunk false, []); (800, SilenceFires, [TurnEnd by_silence 800])].

Lemma demo_trace :
  trace (newMediaTurnDetector None None) 0 demo_events
    (Detector 800 30000 false false 0 None None false).
Proof.
  eapply trace_cons; [lia|apply step_chunk|].
  eapply trace_cons; [lia|apply step_chunk|].
  eapply trace_cons; [lia|by apply step_silence|]. apply trace_nil.
Qed.

Lemma turns_alternate_witness :
  alternating false [TurnStart; TurnEnd by_silence 800].
Proof. apply (turns_alternate None None 0 demo_events _ demo_trace). Defined.

Lemma disposed_detector_is_inert_witness :
  notifications [(900, Chunk true, [])] = [].
Proof.
  apply (disposed_detector_is_inert 900 [(900, Chunk true, [])]
    (Detector 800 30000 true true 0 (Some 800) (Some 30000) false)
    (dispose (Detector 800 30000 true true 0 (Some 800) (Some 30000) false))).
  eapply trace_cons; [lia|apply (step_chunk (dispose (Detector 800 30000 true true 0 (Some 800) (Some 30000) false)))|]. apply trace_nil.
Defined.

Lemma silence_needs_a_full_pause_witness : 0 + 800 ≤ 800.
Proof.
  apply (silence_needs_a_full_pause (newMediaTurnDetector None None)
    (Detector 800 30000 false false 0 None None false) 0
    [(20, Chunk false, []); (800, SilenceFires, [TurnEnd by_silence 800])] eq_refl) with (ns := [TurnEnd by_silence 800]).
  - eapply trace_cons; [lia|apply step_chunk|].
    eapply trace_cons; [lia|by apply step_silence|]. apply trace_nil.
  - intros t ms ns. rw !not_elem_of_cons. repeat split; try done. apply not_elem_of_nil.
  - right. by left.
Defined.
