(* ===== verification/StreamState.v ===== *)
(** * The event stream: sequence numbers and the replay ring

    [assistant/src/runtime/assistant-stream-state.ts].  One counter numbers
    every conversation-scoped event of the daemon; the newest events stay in a
    ring for reconnecting clients; blocks of numbers are reserved on disk ahead
    of use, so that a restarted daemon does not issue a number twice.

    The process memory and the reservation file make up a [world]; a restart
    replaces the first and keeps the second.  The file is what a reader parses
    from it: the number it holds, or nothing when it is missing or unreadable.
    Whether a write succeeds, the clock and the serialized size of an event
    ([None] when serialization throws) are inputs. *)

From S2P Require Import Prelude.
Local Open Scope Z_scope.

Definition RING_COUNT_LIMIT : Z := 200.
Definition RING_SIZE_LIMIT_BYTES : Z := 256 * 1024.
Definition RING_AGE_LIMIT_MS : Z := 30000.
Definition SEQ_RESERVATION_BLOCK : Z := 1024.

Record EventTargeting := Targeting {
  targetCapability : option string;
  targetClientId : option string;
  targetInterfaceId : option string;
  excludeClientId : option string;
}.

Inductive subscriber_type := client | process.

#[export] Instance subscriber_type_eq_dec : EqDecision subscriber_type.
Proof. solve_decision. Defined.

Record ReplaySubscriber := Subscriber {
  type : subscriber_type;
  clientId : option string;
  interfaceId : option string;
  capabilities : option (list string);
}.

(** An event as it is published; its body is opaque. *)
Record envelope (E : Type) := Envelope { conversationId : option string; body : E }.
Arguments Envelope {E}.
Arguments conversationId {E}.
Arguments body {E}.

Record RingEntry (E : Type) := Entry {
  seq : Z;
  event : envelope E;
  emittedAt : Z;
  sizeBytes : Z;
  targeting : option EventTargeting;
}.
Arguments Entry {E}.
Arguments seq {E}.
Arguments event {E}.
Arguments emittedAt {E}.
Arguments sizeBytes {E}.
Arguments targeting {E}.

Record AssistantStreamState (E : Type) := Stream {
  nextSeq : Z;
  reservedSeqCeiling : Z;
  seqReservationLoaded : bool;
  firstStampedSeq : Z;
  ring : list (RingEntry E);
  totalSizeBytes : Z;
}.
Arguments Stream {E}.
Arguments nextSeq {E}.
Arguments reservedSeqCeiling {E}.
Arguments seqReservationLoaded {E}.
Arguments firstStampedSeq {E}.
Arguments ring {E}.
Arguments totalSizeBytes {E}.

(** The module's memory as a process starts. *)
Definition initial {E} : AssistantStreamState E := Stream 1 0 false 0 [] 0.

Record world (E : Type) := World {
  state : AssistantStreamState E;
  stampingDisabled : bool;
  disk : option Z;
}.
Arguments World {E}.
Arguments state {E}.
Arguments stampingDisabled {E}.
Arguments disk {E}.

Section stream.
Context {E : Type}.
Implicit Types (w : world E) (s : AssistantStreamState E) (e : RingEntry E).

Definition with_state s w : world E := World s (stampingDisabled w) (disk w).

Definition disableStreamSeqStamping w : world E := World (state w) true (disk w).

(** A new daemon process over the same workspace. *)
Definition restart w : world E := World initial false (disk w).

(** ** Reservations *)

Definition readReservedCeiling w : Z :=
  match disk w with
  | Some ceiling => if 0 <? ceiling then ceiling else 0
  | None => 0
  end.

Definition loadSeqReservation w : world E :=
  let s := state w in
  if seqReservationLoaded s then w
  else
    let reserved := readReservedCeiling w in
    with_state (Stream (if nextSeq s <=? reserved then reserved + 1 else nextSeq s) reserved true
      (firstStampedSeq s) (ring s) (totalSizeBytes s)) w.

(** [written] tells whether the file could be replaced. *)
Definition reserveSeqCapacity (written : bool) w : world E :=
  let w := loadSeqReservation w in
  let s := state w in
  if nextSeq s <=? reservedSeqCeiling s then w
  else
    let onDisk := readReservedCeiling w in
    let next := if nextSeq s <=? onDisk then onDisk + 1 else nextSeq s in
    let ceiling := next + SEQ_RESERVATION_BLOCK - 1 in
    World (Stream next ceiling (seqReservationLoaded s) (firstStampedSeq s) (ring s) (totalSizeBytes s))
      (stampingDisabled w) (if written then Some ceiling else disk w).

(** ** The ring *)

(** The loop of [evict] on the ring and the running total. *)
Fixpoint evict_loop (now : Z) (ring : list (RingEntry E)) (total : Z) : list (RingEntry E) * Z :=
  match ring with
  | [] => ([], total)
  | head :: rest =>
      let overCount := RING_COUNT_LIMIT <? Z.of_nat (length ring) in
      let overSize := RING_SIZE_LIMIT_BYTES <? total in
      let overAge := RING_AGE_LIMIT_MS <? now - emittedAt head in
      if negb overCount && negb overSize && negb overAge then (ring, total)
      else evict_loop now rest (total - sizeBytes head)
  end.

Definition evict (now : Z) s : AssistantStreamState E :=
  let '(r, total) := evict_loop now (ring s) (totalSizeBytes s) in
  Stream (nextSeq s) (reservedSeqCeiling s) (seqReservationLoaded s) (firstStampedSeq s) r total.

(** Returns the number [event.seq] is set to, if any. *)
Definition stampAndBuffer (ev : envelope E) (size : option Z) (t : option EventTargeting)
    (now : Z) (written : bool) w : world E * option Z :=
  if stampingDisabled w then (w, None)
  else match conversationId ev, size with
  | None, _ | _, None => (w, None)
  | Some _, Some sizeBytes =>
      let w := reserveSeqCapacity written w in
      let s := state w in
      let n := nextSeq s in
      let first := if firstStampedSeq s =? 0 then n else firstStampedSeq s in
      let s := Stream (n + 1) (reservedSeqCeiling s) (seqReservationLoaded s) first
                 (ring s ++ [Entry n ev now sizeBytes t]) (totalSizeBytes s + sizeBytes) in
      (with_state (evict now s) w, Some n)
  end.

Definition includes (caps : option (list string)) (cap : string) : bool :=
  match caps with Some caps => bool_decide (cap ∈ caps) | None => false end.

(** [subscriber.type !== "client" || subscriber.id !== wanted], negated. *)
Definition is_client (sub : ReplaySubscriber) (id : option string) (wanted : string) : bool :=
  bool_decide (type sub = client) && bool_decide (id = Some wanted).

Definition matchesSubscriber e (sub : ReplaySubscriber) : bool :=
  match targeting e with
  | None => true
  | Some t =>
      if match excludeClientId t with Some x => is_client sub (clientId sub) x | None => false end
      then false
      else if match targetInterfaceId t with
              | Some i => negb (is_client sub (interfaceId sub) i)
              | None => false
              end
      then false
      else match targetClientId t with
      | Some c =>
          is_client sub (clientId sub) c &&
          match targetCapability t with Some cap => includes (capabilities sub) cap | None => true end
      | None =>
          match targetCapability t with
          | Some cap => bool_decide (type sub = client) && includes (capabilities sub) cap
          | None => true
          end
      end
  end.

(** The test of the replay filter. *)
Definition replayed (lastSeenSeq : Z) (sub : option ReplaySubscriber) (cid : option string) e : bool :=
  (lastSeenSeq <? seq e) &&
  match cid with Some c => bool_decide (conversationId (event e) = Some c) | None => true end &&
  match sub with Some sub => matchesSubscriber e sub | None => true end.

Definition getReplayWindow (lastSeenSeq : Z) (sub : option ReplaySubscriber) (cid : option string)
    (now : Z) w : world E * option (list (Z * envelope E)) :=
  let s := evict now (state w) in
  let w := with_state s w in
  (w,
   match ring s with
   | [] => Some []
   | head :: _ =>
       let oldest := seq head in
       let coversRestartGap := (lastSeenSeq <? firstStampedSeq s) && (oldest =? firstStampedSeq s) in
       if (lastSeenSeq <? oldest - 1) && negb coversRestartGap then None
       else Some ((λ e, (seq e, event e)) <$> filter (λ e, replayed lastSeenSeq sub cid e = true) (ring s))
   end).

Definition getCurrentSeq w : world E * Z :=
  if stampingDisabled w then (w, 0)
  else let w := loadSeqReservation w in (w, nextSeq (state w) - 1).

(** [None] stands for a number that is not finite. *)
Definition floorSeqAbove (highestIssuedSeq : option Z) (written : bool) w : world E :=
  if stampingDisabled w then w
  else
    let w := loadSeqReservation w in
    let s := state w in
    match highestIssuedSeq with
    | Some n =>
        if n <? nextSeq s then w
        else reserveSeqCapacity written
               (with_state (Stream (n + 1) (reservedSeqCeiling s) (seqReservationLoaded s)
                  (firstStampedSeq s) (ring s) (totalSizeBytes s)) w)
    | None => w
    end.
End stream.

(** ** Histories of a workspace *)

Inductive op (E : Type) :=
| Stamp (ev : envelope E) (size : option Z) (t : option EventTargeting) (now : Z) (written : bool)
| Replay (lastSeenSeq : Z) (sub : option ReplaySubscriber) (cid : option string) (now : Z)
| Current
| Floor (n : option Z) (written : bool)
| Foreign (ceiling : Z)  (** another process raises the reservation *)
| Disable
| Restart.
Arguments Stamp {E}.
Arguments Replay {E}.
Arguments Current {E}.
Arguments Floor {E}.
Arguments Foreign {E}.
Arguments Disable {E}.
Arguments Restart {E}.

Section histories.
Context {E : Type}.
Implicit Types (w : world E) (s : AssistantStreamState E) (e : RingEntry E)
  (o : op E) (os : list (op E)) (log : list (RingEntry E)).

Definition exec o w : world E * option Z :=
  match o with
  | Stamp ev size t now written => stampAndBuffer ev size t now written w
  | Replay last sub cid now => ((getReplayWindow last sub cid now w).1, None)
  | Current => ((getCurrentSeq w).1, None)
  | Floor n written => (floorSeqAbove n written w, None)
  | Foreign c => (World (state w) (stampingDisabled w) (Some (Z.max c (readReservedCeiling w))), None)
  | Disable => (disableStreamSeqStamping w, None)
  | Restart => (restart w, None)
  end.

(** The numbers issued, in order. *)
Fixpoint issued os w : list Z :=
  match os with
  | [] => []
  | o :: os => option_list (exec o w).2 ++ issued os (exec o w).1
  end.

(** What the running process has stamped so far. *)
Definition record o (n : option Z) log : list (RingEntry E) :=
  match o, n with
  | Stamp ev (Some size) t now _, Some n => log ++ [Entry n ev now size t]
  | Restart, _ => []
  | _, _ => log
  end.

Fixpoint run os w log : world E * list (RingEntry E) :=
  match os with
  | [] => (w, log)
  | o :: os => run os (exec o w).1 (record o (exec o w).2 log)
  end.

Definition writes o : bool :=
  match o with Stamp _ _ _ _ written | Floor _ written => written | _ => true end.

(** ** Numbers *)

(** Every number up to [last] is out of reach: covered by the file, and below
    the counter once the file has been read. *)
Definition spent (last : Z) w : Prop :=
  0 ≤ last ≤ readReservedCeiling w ∧
  (seqReservationLoaded (state w) = true →
   last < nextSeq (state w) ∧ reservedSeqCeiling (state w) ≤ readReservedCeiling w).

#[local] Arguments readReservedCeiling : simpl never.

Lemma readReservedCeiling_disk w :
  0 ≤ readReservedCeiling w ∧ (∀ c, disk w = Some c → c ≤ readReservedCeiling w).
Proof.
  unfold readReservedCeiling. destruct (disk w) as [c|]; [|done].
  destruct (Z.ltb_spec 0 c); split; try lia; intros c' [= <-]; lia.
Qed.

Lemma spent_load last w :
  spent last w →
  spent last (loadSeqReservation w) ∧ last < nextSeq (state (loadSeqReservation w)) ∧
  seqReservationLoaded (state (loadSeqReservation w)) = true.
Proof.
  intros [Hl Hs]. unfold loadSeqReservation.
  destruct (seqReservationLoaded (state w)) eqn:Hld; [by destruct (Hs eq_refl)|].
  unfold spent, with_state, readReservedCeiling in *; simpl in *.
  destruct (Z.leb_spec (nextSeq (state w)) (match disk w with Some c => if 0 <? c then c else 0 | None => 0 end));
    split_and!; try done; lia.
Qed.

Lemma spent_reserve last w :
  spent last w →
  let w' := reserveSeqCapacity true w in
  spent last w' ∧ last < nextSeq (state w') ≤ readReservedCeiling w' ∧
  seqReservationLoaded (state w') = true.
Proof.
  intros Hw. destruct (spent_load last w Hw) as (Hs & Hlt & Hld).
  unfold reserveSeqCapacity. cbv zeta. destruct (loadSeqReservation w) as [s b d]. simpl in *.
  destruct Hs as [[H0 Hl] Hs]. specialize (Hs Hld). simpl in *.
  destruct (Z.leb_spec (nextSeq s) (reservedSeqCeiling s)); [unfold spent; simpl; split_and!; try done; lia|].
  destruct (readReservedCeiling_disk (World s b d)) as [Hr _].
  assert (∀ (s : AssistantStreamState E) c, 0 < c → readReservedCeiling (World s b (Some c)) = c) as Hc.
  { intros ? c Hc. unfold readReservedCeiling. simpl. by destruct (Z.ltb_spec 0 c); [|lia]. }
  unfold spent, SEQ_RESERVATION_BLOCK in *. simpl.
  destruct (Z.leb_spec (nextSeq s) (readReservedCeiling (World s b d)));
    (rw !Hc; try lia; split_and!; try done; lia).
Qed.

Lemma evict_fields now s :
  nextSeq (evict now s) = nextSeq s ∧ reservedSeqCeiling (evict now s) = reservedSeqCeiling s ∧
  seqReservationLoaded (evict now s) = seqReservationLoaded s ∧
  firstStampedSeq (evict now s) = firstStampedSeq s.
Proof. unfold evict. by destruct (evict_loop _ _ _). Qed.

(** Reading the counter and the ring, and the inert operations. *)
Lemma spent_stamp last ev size t now w :
  spent last w →
  let r := stampAndBuffer ev size t now true w in
  match r.2 with Some n => last < n ∧ spent n r.1 | None => spent last r.1 end.
Proof.
  intros Hw. unfold stampAndBuffer. destruct (stampingDisabled w); [done|].
  destruct (conversationId ev); [|done]. destruct size as [size|]; [|done]. simpl.
  destruct (spent_reserve last w Hw) as ([Hl Hs] & Hn & Hld). specialize (Hs Hld).
  set (w' := reserveSeqCapacity true w) in *.
  split; [lia|]. unfold spent, with_state, readReservedCeiling in *. simpl.
  match goal with |- context [evict now ?s] => destruct (evict_fields now s) as (E1 & E2 & _) end.
  rw E1 E2. simpl. split; [lia|]. intros _. lia.
Qed.

Lemma spent_floor last n w : spent last w → spent last (floorSeqAbove n true w).
Proof.
  intros Hw. unfold floorSeqAbove. destruct (stampingDisabled w); [done|].
  destruct (spent_load last w Hw) as (Hs & Hlt & Hld). destruct n as [n|]; [|done].
  destruct (Z.ltb_spec n (nextSeq (state (loadSeqReservation w)))); [done|].
  apply spent_reserve. unfold spent, with_state, readReservedCeiling in *. simpl in *.
  destruct Hs as [H0 Hs]. specialize (Hs Hld). split; [done|]. intros _. lia.
Qed.

Lemma spent_exec o last w :
  writes o = true → spent last w →
  match (exec o w).2 with Some n => last < n ∧ spent n (exec o w).1 | None => spent last (exec o w).1 end.
Proof.
  intros Ho Hw. destruct o as [ev size t now b|c sub cid now| |n b|c| |]; simpl in Ho |- *; subst.
  - by apply spent_stamp.
  - unfold getReplayWindow, spent, with_state, readReservedCeiling in *. simpl in *.
    destruct (evict_fields now (state w)) as (E1 & E2 & E3 & _). by rw E1 E2 E3.
  - unfold getCurrentSeq. destruct (stampingDisabled w); [done|]. by apply spent_load.
  - by apply spent_floor.
  - destruct Hw as [H0 Hs]. pose proof (readReservedCeiling_disk (World (state w) (stampingDisabled w)
      (Some (Z.max c (readReservedCeiling w))))) as [_ Hd]. specialize (Hd _ eq_refl).
    split; [lia|]. intros Hld. specialize (Hs Hld). simpl. lia.
  - done.
  - destruct Hw as [H0 _]. split; [done|]. simpl. done.
Qed.

Lemma issued_above os : ∀ last w,
  Forall (λ o, writes o = true) os → spent last w →
  StronglySorted Z.lt (issued os w) ∧ Forall (λ n, last < n) (issued os w).
Proof.
  induction os as [|o os IH]; intros last w Hos Hw; [by repeat constructor|].
  inversion_clear Hos as [|? ? Ho Hos']. pose proof (spent_exec o last w Ho Hw) as Hstep. simpl.
  destruct (exec o w).2 as [n|]; simpl; [|by apply IH].
  destruct Hstep as [Hn Hs]. destruct (IH n _ Hos' Hs) as [IH1 IH2].
  split; [by constructor|]. constructor; [done|].
  eapply Forall_impl; [exact IH2|]. simpl. lia.
Qed.

(** ** Numbers after a failed reservation *)

Definition above (a : Z) w : Prop :=
  stampingDisabled w = true ∨ (a < nextSeq (state w) ∧ seqReservationLoaded (state w) = true).

Lemma load_loaded w : seqReservationLoaded (state w) = true → loadSeqReservation w = w.
Proof. intros H. unfold loadSeqReservation. by rw H. Qed.

Lemma loaded_load w : seqReservationLoaded (state (loadSeqReservation w)) = true.
Proof. unfold loadSeqReservation. by destruct (seqReservationLoaded (state w)) eqn:E0. Qed.

Lemma reserve_grows b w :
  seqReservationLoaded (state w) = true →
  nextSeq (state w) ≤ nextSeq (state (reserveSeqCapacity b w)) ∧
  seqReservationLoaded (state (reserveSeqCapacity b w)) = true ∧
  stampingDisabled (reserveSeqCapacity b w) = stampingDisabled w.
Proof.
  intros H. unfold reserveSeqCapacity. rw (load_loaded w H).
  destruct (nextSeq (state w) <=? reservedSeqCeiling (state w)); [done|]. simpl.
  destruct (Z.leb_spec (nextSeq (state w)) (readReservedCeiling w)); split_and!; try done; lia.
Qed.

Lemma above_exec o a w :
  o ≠ Restart → above a w →
  match (exec o w).2 with Some n => a < n ∧ above n (exec o w).1 | None => above a (exec o w).1 end.
Proof.
  intros Ho [Hd|[Ha Hld]].
  { destruct o; simpl; try done; try by left.
    - unfold stampAndBuffer. rw Hd. by left.
    - unfold getCurrentSeq. rw Hd. by left.
    - unfold floorSeqAbove. rw Hd. by left. }
  destruct o as [ev size t now b|c sub cid now| |n b|c| |]; simpl; try done.
  - unfold stampAndBuffer. destruct (stampingDisabled w) eqn:Hd; [by left|].
    destruct (conversationId ev); [|by right]. destruct size as [size|]; [|by right]. simpl.
    destruct (reserve_grows b w Hld) as (Hg & Hl & _). split; [lia|]. right. unfold with_state. simpl.
    match goal with |- context [evict now ?s] => destruct (evict_fields now s) as (E1 & _ & E3 & _) end.
    rw E1 E3. simpl. split; [lia|done].
  - right. destruct (evict_fields now (state w)) as (E1 & _ & E3 & _). by rw /= E1 E3.
  - unfold getCurrentSeq. destruct (stampingDisabled w); [by right|]. simpl. rw (load_loaded w Hld). by right.
  - unfold floorSeqAbove. destruct (stampingDisabled w); [by right|]. rw (load_loaded w Hld).
    destruct n as [n|]; [|by right]. destruct (Z.ltb_spec n (nextSeq (state w))); [by right|]. right.
    match goal with |- context [reserveSeqCapacity b ?w0] => destruct (reserve_grows b w0 Hld) as (Hg & Hl & _) end.
    simpl in *. split; [lia|done].
  - by right.
  - by left.
Qed.

Lemma issued_above_floor os : ∀ a w,
  Forall (λ o, o ≠ Restart) os → above a w →
  StronglySorted Z.lt (issued os w) ∧ Forall (λ n, a < n) (issued os w).
Proof.
  induction os as [|o os IH]; intros a w Hos Hw; [by repeat constructor|].
  inversion_clear Hos as [|? ? Ho Hos']. pose proof (above_exec o a w Ho Hw) as Hstep. simpl.
  destruct (exec o w).2 as [n|]; simpl; [|by apply IH].
  destruct Hstep as [Hn Hs]. destruct (IH n _ Hos' Hs) as [IH1 IH2].
  split; [by constructor|]. constructor; [done|].
  eapply Forall_impl; [exact IH2|]. simpl. lia.
Qed.

Lemma above_floor a b w :
  seqReservationLoaded (state w) = false → above a (floorSeqAbove (Some a) b w).
Proof.
  intros _. unfold floorSeqAbove. destruct (stampingDisabled w) eqn:Hd; [by left|].
  pose proof (loaded_load w) as Hld.
  destruct (Z.ltb_spec a (nextSeq (state (loadSeqReservation w)))); [by right|]. right.
  match goal with |- context [reserveSeqCapacity b ?w0] => destruct (reserve_grows b w0 Hld) as (Hg & Hl & _) end.
  simpl in *. split; [lia|done].
Qed.

(** ** The ring *)

Definition bytes log : Z := foldr (λ e n, sizeBytes e + n) 0 log.

Lemma bytes_app log1 log2 : bytes (log1 ++ log2) = bytes log1 + bytes log2.
Proof. unfold bytes. induction log1 as [|e log1 IH]; simpl; [done|]. rw IH. lia. Qed.

Lemma bytes_nonneg log : Forall (λ e, 0 ≤ sizeBytes e) log → 0 ≤ bytes log.
Proof. induction 1; simpl; [done|]. unfold bytes in *. lia. Qed.

(** Why the [i]-th of the stamped entries may be gone at [now]: by its age, by the
    number of the entries after it, or by the bytes of it and them. *)
Definition expendable (now : Z) log (i : nat) e : Prop :=
  RING_AGE_LIMIT_MS < now - emittedAt e ∨
  RING_COUNT_LIMIT ≤ Z.of_nat (length log) - Z.of_nat (S i) ∨
  RING_SIZE_LIMIT_BYTES < bytes (drop i log).

Definition within_bounds (now : Z) (r : list (RingEntry E)) : Prop :=
  Z.of_nat (length r) ≤ RING_COUNT_LIMIT ∧ bytes r ≤ RING_SIZE_LIMIT_BYTES ∧
  match r with e :: _ => now - emittedAt e ≤ RING_AGE_LIMIT_MS | [] => True end.

Lemma expendable_app now log1 log log2 i e :
  Forall (λ e, 0 ≤ sizeBytes e) (log1 ++ log2) →
  expendable now log i e → expendable now (log1 ++ log ++ log2) (length log1 + i) e.
Proof.
  intros [_ H2]%Forall_app. unfold expendable. rw !length_app drop_app_add drop_app bytes_app.
  pose proof (bytes_nonneg _ (Forall_drop _ (i - length log) _ H2)).
  intros [?|[?|?]]; [by left|right; left; lia|right; right; lia].
Qed.

Lemma expendable_cons now e0 log i e :
  0 ≤ sizeBytes e0 → expendable now log i e → expendable now (e0 :: log) (S i) e.
Proof.
  intros H0 Hl. rw -(app_nil_r log) (app_comm_cons _ _ e0) -(app_nil_l (e0 :: log)) -app_assoc.
  apply (expendable_app now [e0] log [] i e); [by repeat constructor|done].
Qed.

Lemma evict_loop_spec now r : ∀ r' total',
  Forall (λ e, 0 ≤ sizeBytes e) r →
  evict_loop now r (bytes r) = (r', total') →
  ∃ gone, r = gone ++ r' ∧ total' = bytes r' ∧ within_bounds now r' ∧
    (∀ i e, gone !! i = Some e → expendable now r i e).
Proof.
  induction r as [|e r IH]; intros r' total' Hr; simpl.
  { intros [= <- <-]. exists []. by split_and!. }
  inversion_clear Hr as [|? ? He Hr']. unfold bytes at 2 3. simpl.
  change (foldr (λ e n, sizeBytes e + n) 0 r) with (bytes r).
  match goal with |- context [negb ?a && negb ?b && negb ?c] =>
    destruct a eqn:Ha, b eqn:Hb, c eqn:Hc end; simpl; intros Hev.
  8: { injection Hev as <- <-. exists []. zify_bools. by split_and!. }
  all: replace (sizeBytes e + bytes r - sizeBytes e) with (bytes r) in Hev by lia.
  all: destruct (IH _ _ Hr' Hev) as (gone & -> & -> & Hw & Hg).
  all: exists (e :: gone); split_and!; [done|done|done|]; zify_bools.
  all: intros [|i] e' Hi; simpl in Hi; [injection Hi as <-|by apply expendable_cons; auto].
  all: unfold expendable; unfold bytes in *; simpl in *.
  all: first [by left; lia | right; left; lia | right; right; lia].
Qed.

(** What the memory of the running process says about all it has stamped. *)
Record logged (now : Z) w log : Prop := {
  logged_ring : ∃ gone, log = gone ++ ring (state w) ∧
    ∀ i e, gone !! i = Some e → expendable now log i e;
  logged_sorted : StronglySorted (λ e e', seq e < seq e') log;
  logged_seq : Forall (λ e, 1 ≤ seq e < nextSeq (state w)) log;
  logged_next : 1 ≤ nextSeq (state w);
  logged_first : firstStampedSeq (state w) = match log with [] => 0 | e :: _ => seq e end;
  logged_bytes : totalSizeBytes (state w) = bytes (ring (state w));
  logged_sizes : Forall (λ e, 0 ≤ sizeBytes e) log;
  logged_times : Forall (λ e, emittedAt e ≤ now) log;
  logged_chrono : StronglySorted (λ e e', emittedAt e ≤ emittedAt e') log;
}.

Lemma logged_frame now w w' log :
  logged now w log →
  ring (state w') = ring (state w) → firstStampedSeq (state w') = firstStampedSeq (state w) →
  totalSizeBytes (state w') = totalSizeBytes (state w) → nextSeq (state w) ≤ nextSeq (state w') →
  logged now w' log.
Proof.
  intros [] Hr Hf Ht Hn. split; rw ?Hr ?Hf ?Ht; try done; [|lia].
  eapply Forall_impl; [exact logged_seq0|]. simpl. lia.
Qed.

Lemma expendable_later now now' log i e :
  now ≤ now' → expendable now log i e → expendable now' log i e.
Proof. unfold expendable. intros Hn [?|?]; [left; lia|by right]. Qed.

Lemma logged_later now now' w log : now ≤ now' → logged now w log → logged now' w log.
Proof.
  intros Hn [(gone & Hlog & Hg)]. split; try done.
  - exists gone. split; [done|]. intros i e Hi. eapply expendable_later; [done|eauto].
  - eapply Forall_impl; [exact logged_times0|]. simpl. lia.
Qed.

Lemma logged_evict now now' w log :
  logged now w log → now ≤ now' → logged now' (with_state (evict now' (state w)) w) log.
Proof.
  intros Hw Hn. destruct (logged_later _ _ _ _ Hn Hw) as [(gone & Hlog & Hg)].
  destruct (evict_fields now' (state w)) as (E1 & _ & _ & E4).
  assert (Forall (λ e, 0 ≤ sizeBytes e) (gone ++ ring (state w))) as Hsz by (by rw -Hlog).
  apply Forall_app in Hsz as [Hsz1 Hsz2].
  destruct (evict_loop now' (ring (state w)) (totalSizeBytes (state w))) as [r total] eqn:Hev.
  assert (ring (evict now' (state w)) = r ∧ totalSizeBytes (evict now' (state w)) = total) as [Er Et].
  { unfold evict. by rw Hev. }
  rw logged_bytes0 in Hev. destruct (evict_loop_spec _ _ _ _ Hsz2 Hev) as (gone' & Hr & -> & _ & Hg').
  split; simpl; rw ?E1 ?E4 ?Er ?Et //.
  exists (gone ++ gone'). rw -app_assoc -Hr. split; [done|].
  intros i e [Hi|[Hle Hi]]%lookup_app_Some; [by apply Hg|].
  rw Hlog. replace i with (length gone + (i - length gone))%nat by lia.
  rw -(app_nil_r (ring (state w))). apply expendable_app; [by rw app_nil_r|by apply Hg'].
Qed.

Lemma sorted_snoc {A} (R : A → A → Prop) l x :
  StronglySorted R l → Forall (λ y, R y x) l → StronglySorted R (l ++ [x]).
Proof.
  induction 1 as [|y l Hl IH Hy]; intros Hx; simpl; [by repeat constructor|].
  inversion_clear Hx. constructor; [auto|]. apply Forall_app. by repeat constructor.
Qed.

Lemma logged_push now now' w log ev size t :
  logged now w log → now ≤ now' → 0 ≤ size →
  let s := state w in
  let n := nextSeq s in
  logged now' (with_state (Stream (n + 1) (reservedSeqCeiling s) (seqReservationLoaded s)
      (if firstStampedSeq s =? 0 then n else firstStampedSeq s)
      (ring s ++ [Entry n ev now' size t]) (totalSizeBytes s + size)) w)
    (log ++ [Entry n ev now' size t]).
Proof.
  intros Hw Hn Hsize. destruct (logged_later _ _ _ _ Hn Hw) as [(gone & Hlog & Hg)].
  assert (Forall (λ e, 0 ≤ sizeBytes e) [Entry (nextSeq (state w)) ev now' size t]) as H1
    by (by repeat constructor).
  split; simpl.
  - exists gone. rw app_assoc -Hlog. split; [done|]. intros i e Hi.
    change (log ++ _) with ([] ++ log ++ [Entry (nextSeq (state w)) ev now' size t]).
    change i with (length (@nil (RingEntry E)) + i)%nat. apply expendable_app; [done|by apply Hg].
  - apply sorted_snoc; [done|]. eapply Forall_impl; [exact logged_seq0|]. simpl. lia.
  - apply Forall_app. split; [eapply Forall_impl; [exact logged_seq0|]; simpl; lia|]. repeat constructor; simpl; lia.
  - lia.
  - rw logged_first0. destruct log as [|e log]; [done|]. simpl.
    inversion_clear logged_seq0. by destruct (Z.eqb_spec (seq e) 0); [lia|].
  - rw bytes_app logged_bytes0. unfold bytes. simpl. lia.
  - by apply Forall_app.
  - apply Forall_app. split; [done|]. by repeat constructor.
  - by apply sorted_snoc.
Qed.

Lemma load_frame w :
  let w' := loadSeqReservation w in
  ring (state w') = ring (state w) ∧ firstStampedSeq (state w') = firstStampedSeq (state w) ∧
  totalSizeBytes (state w') = totalSizeBytes (state w) ∧ nextSeq (state w) ≤ nextSeq (state w').
Proof.
  unfold loadSeqReservation. cbv zeta. destruct (seqReservationLoaded (state w)); [done|]. simpl.
  split_and!; [done..|]. destruct (Z.leb_spec (nextSeq (state w)) (readReservedCeiling w)); lia.
Qed.

Lemma reserve_frame b w :
  let w' := reserveSeqCapacity b w in
  ring (state w') = ring (state w) ∧ firstStampedSeq (state w') = firstStampedSeq (state w) ∧
  totalSizeBytes (state w') = totalSizeBytes (state w) ∧ nextSeq (state w) ≤ nextSeq (state w').
Proof.
  destruct (load_frame w) as (E1 & E2 & E3 & E4). unfold reserveSeqCapacity. cbv zeta.
  destruct (nextSeq _ <=? reservedSeqCeiling _); [done|]. simpl. split_and!; [done..|].
  destruct (Z.leb_spec (nextSeq (state (loadSeqReservation w))) (readReservedCeiling (loadSeqReservation w))); lia.
Qed.

(** ** Chronological histories *)

Definition clock (t : Z) o : Z :=
  match o with Stamp _ _ _ now _ | Replay _ _ _ now => now | _ => t end.

Definition sound (t : Z) o : Prop :=
  t ≤ clock t o ∧ match o with Stamp _ (Some size) _ _ _ => 0 ≤ size | _ => True end.

Fixpoint timely (t : Z) os : Prop :=
  match os with [] => True | o :: os => sound t o ∧ timely (clock t o) os end.

(** The time of the last operation. *)
Definition time (t : Z) os : Z := foldl clock t os.

Lemma logged_exec t o w log :
  sound t o → logged t w log → logged (clock t o) (exec o w).1 (record o (exec o w).2 log).
Proof.
  intros [Ht Hsize] Hw. destruct o as [ev size tg now b|c sub cid now| |n b|c| |]; simpl in *.
  - unfold stampAndBuffer. destruct (stampingDisabled w); [by destruct size; eapply logged_later|].
    destruct (conversationId ev); [|by destruct size; eapply logged_later].
    destruct size as [size|]; [|by eapply logged_later]. simpl.
    destruct (reserve_frame b w) as (E1 & E2 & E3 & E4).
    apply (logged_frame _ _ (reserveSeqCapacity b w)) in Hw; [|done..].
    pose proof (logged_push _ _ _ _ ev size tg Hw Ht Hsize) as Hp.
    by apply (logged_evict _ _ _ _ Hp).
  - by eapply logged_evict.
  - unfold getCurrentSeq. destruct (stampingDisabled w); [done|]. simpl.
    destruct (load_frame w) as (?&?&?&?). by eapply logged_frame.
  - unfold floorSeqAbove. destruct (stampingDisabled w); [done|].
    destruct (load_frame w) as (E1&E2&E3&E4). destruct n as [n|]; [|by eapply logged_frame].
    destruct (Z.ltb_spec n (nextSeq (state (loadSeqReservation w)))); [by eapply logged_frame|].
    match goal with |- logged _ (reserveSeqCapacity b ?w0) _ =>
      destruct (reserve_frame b w0) as (F1&F2&F3&F4) end.
    simpl in *. eapply logged_frame; [exact Hw|by rw F1|by rw F2|by rw F3|lia].
  - by eapply logged_frame.
  - by eapply logged_frame.
  - split; simpl; try done; [by exists []|by constructor..].
Qed.

Lemma logged_run os : ∀ t w log,
  timely t os → logged t w log → logged (time t os) (run os w log).1 (run os w log).2.
Proof.
  induction os as [|o os IH]; intros t w log Hos Hw; [done|]. destruct Hos as [Ho Hos].
  simpl. apply IH; [done|]. by apply logged_exec.
Qed.

Lemma logged_fresh t d : logged t (World (initial (E := E)) false d) [].
Proof. split; simpl; try done; [by exists []|by constructor..]. Qed.

Lemma sorted_suffix {A} (R : A → A → Prop) l1 l2 :
  StronglySorted R (l1 ++ l2) → StronglySorted R l2.
Proof. induction l1 as [|x l1 IH]; simpl; [done|]. inversion_clear 1. auto. Qed.

Lemma sorted_split {A} (R : A → A → Prop) l1 l2 x :
  StronglySorted R (l1 ++ x :: l2) → Forall (λ y, R y x) l1.
Proof.
  induction l1 as [|y l1 IH]; simpl; [constructor|]. inversion_clear 1 as [|? ? Hs Hy].
  apply Forall_app in Hy as [_ Hy]. inversion_clear Hy. constructor; auto.
Qed.

(** The ring at the time of a replay: a suffix of the log, within bounds. *)
Lemma ring_after_evict now now' w log :
  logged now w log → now ≤ now' →
  let r := ring (evict now' (state w)) in
  (∃ gone, log = gone ++ r ∧ ∀ i e, gone !! i = Some e → expendable now' log i e) ∧
  within_bounds now' r ∧ Forall (λ e, now' - emittedAt e ≤ RING_AGE_LIMIT_MS) r.
Proof.
  intros Hw Hn. pose proof (logged_ring _ _ _ (logged_evict _ _ _ _ Hw Hn)) as (gone & Hlog & Hg).
  simpl in *. assert (within_bounds now' (ring (evict now' (state w)))) as Hb.
  { destruct Hw as [(gone' & Hl & _)]. rw Hl in logged_sizes0.
    apply Forall_app in logged_sizes0 as [_ Hsz]. unfold evict.
    destruct (evict_loop now' (ring (state w)) (totalSizeBytes (state w))) as [r total] eqn:Hev.
    rw logged_bytes0 in Hev. by destruct (evict_loop_spec _ _ _ _ Hsz Hev) as (_ & _ & _ & ? & _). }
  split_and!; [by exists gone|apply Hb..|].
  pose proof (logged_chrono _ _ _ Hw) as Hc. rw Hlog in Hc. apply sorted_suffix in Hc.
  destruct Hb as (_ & _ & Hb). destruct (ring (evict now' (state w))) as [|e r]; [done|].
  inversion_clear Hc as [|? ? _ Hall]. constructor; [done|].
  eapply Forall_impl; [exact Hall|]. simpl. lia.
Qed.

Definition small (r : list (RingEntry E)) : Prop :=
  Z.of_nat (length r) ≤ RING_COUNT_LIMIT ∧ bytes r ≤ RING_SIZE_LIMIT_BYTES.

Lemma small_evict t now w log :
  logged t w log → t ≤ now → small (ring (evict now (state w))).
Proof.
  intros Hw Hn. by destruct (ring_after_evict _ _ _ _ Hw Hn) as (_ & (? & ? & _) & _).
Qed.

Lemma small_exec t o w log :
  sound t o → logged t w log → small (ring (state w)) → small (ring (state (exec o w).1)).
Proof.
  intros [Ht Hsize] Hw Hs. destruct o as [ev size tg now b|c sub cid now| |n b|c| |]; simpl in *.
  - unfold stampAndBuffer. destruct (stampingDisabled w); [done|].
    destruct (conversationId ev); [|done]. destruct size as [size|]; [|done]. simpl.
    destruct (reserve_frame b w) as (E1 & E2 & E3 & E4).
    apply (logged_frame _ _ (reserveSeqCapacity b w)) in Hw; [|done..].
    pose proof (logged_push _ _ _ _ ev size tg Hw Ht Hsize) as Hp.
    apply (small_evict _ now _ _ Hp). lia.
  - by eapply small_evict.
  - unfold getCurrentSeq. destruct (stampingDisabled w); [done|]. simpl.
    destruct (load_frame w) as (E1&_). by rw E1.
  - unfold floorSeqAbove. destruct (stampingDisabled w); [done|].
    destruct (load_frame w) as (E1&_). destruct n as [n|]; [|by rw E1].
    destruct (n <? nextSeq (state (loadSeqReservation w))); [by rw E1|].
    match goal with |- context [reserveSeqCapacity b ?w0] => destruct (reserve_frame b w0) as (F1&_) end.
    rw F1 /=. by rw E1.
  - done.
  - done.
  - done.
Qed.

Lemma small_run os : ∀ t w log,
  timely t os → logged t w log → small (ring (state w)) → small (ring (state (run os w log).1)).
Proof.
  induction os as [|o os IH]; intros t w log Hos Hw Hs; [done|]. destruct Hos as [Ho Hos].
  simpl. eapply IH; [done|by apply logged_exec|by eapply small_exec].
Qed.

Lemma replay_window c sub cid now now' w log es :
  logged now w log → now ≤ now' →
  (getReplayWindow c sub cid now' w).2 = Some es →
  es = (λ e, (seq e, event e)) <$> filter (λ e, replayed c sub cid e = true) log ∨
  (es = [] ∧ ∀ i e, log !! i = Some e → expendable now' log i e).
Proof.
  intros Hw Hn. destruct (ring_after_evict _ _ _ _ Hw Hn) as ((gone & Hlog & Hg) & _ & _).
  destruct (evict_fields now' (state w)) as (_ & _ & _ & E4).
  unfold getReplayWindow. simpl. rw E4 (logged_first _ _ _ Hw).
  destruct (ring (evict now' (state w))) as [|head r] eqn:Hr.
  { intros [= <-]. right. split; [done|]. rw app_nil_r in Hlog. subst gone. exact Hg. }
  match goal with |- context [if ?b then _ else _] => destruct b eqn:Hgap end; [done|].
  intros [= <-]. left. f_equal. rw Hlog filter_app. rw (filter_none _ gone); [done|].
  pose proof (logged_sorted _ _ _ Hw) as Hs. rw Hlog in Hs. apply sorted_split in Hs.
  apply andb_false_iff in Hgap as [Hc|Hc].
  - apply Z.ltb_ge in Hc. eapply Forall_impl; [exact Hs|]. simpl. intros e He Hf.
    unfold replayed in Hf. zify_bools. lia.
  - apply negb_false_iff, andb_true_iff in Hc as [_ Hc%Z.eqb_eq].
    destruct gone as [|e gone]; [constructor|]. exfalso. rw Hlog in Hc. simpl in Hc.
    inversion_clear Hs. lia.
Qed.

(** ** Theorems *)

(** C33 — A sequence number is never issued twice: over any history of stamps,
    reads, floors, restarts and foreign writers of the reservation file in
    which this process's reservations reach the disk, the numbers issued are
    strictly increasing — across every restart. *)
Theorem seqs_never_reissued (d : option Z) os :
  Forall (λ o, writes o = true) os →
  StronglySorted Z.lt (issued os (World (initial (E := E)) false d)).
Proof.
  intros Hos. apply (issued_above os 0); [done|].
  destruct (readReservedCeiling_disk (World (initial (E := E)) false d)) as [? _]. split; [lia|done].
Qed.

(** The startup floor repairs a lost reservation: whatever became of the
    reservations of the previous processes, after a restart that floors the
    counter above [a] every number issued by the new process exceeds [a], in
    strictly increasing order, even if none of its own writes succeeds. *)
Theorem floor_repairs_lost_reservations (w : world E) (a : Z) (written : bool) os :
  Forall (λ o, o ≠ Restart) os →
  let numbers := issued os (floorSeqAbove (Some a) written (restart w)) in
  StronglySorted Z.lt numbers ∧ Forall (λ n, a < n) numbers.
Proof. intros Hos. apply issued_above_floor; [done|]. by apply above_floor. Qed.

(** The ring keeps within its bounds: at all times it holds at most two
    hundred entries and a quarter of a megabyte, and what a replay leaves in it
    is no older than thirty seconds. *)
Theorem ring_within_bounds (t : Z) (d : option Z) os (c now : Z) (sub : option ReplaySubscriber)
    (cid : option string) :
  timely t os → time t os ≤ now →
  let w := (run os (World (initial (E := E)) false d) []).1 in
  Z.of_nat (length (ring (state w))) ≤ RING_COUNT_LIMIT ∧
  bytes (ring (state w)) ≤ RING_SIZE_LIMIT_BYTES ∧
  Forall (λ e, now - emittedAt e ≤ RING_AGE_LIMIT_MS)
    (ring (state (getReplayWindow c sub cid now w).1)).
Proof.
  intros Hos Hn. pose proof (logged_run os t _ _ Hos (logged_fresh t d)) as Hw.
  destruct (small_run os t (World initial false d) [] Hos (logged_fresh t d)) as [H1 H2]; [done|].
  split_and!; [done|done|]. by destruct (ring_after_evict _ _ _ _ Hw Hn) as (_ & _ & ?).
Qed.

(** A replay is exact: a window that is returned holds everything the
    running process has stamped above the cursor that concerns the
    subscriber, in order — even across the gap of a restart — unless the ring
    was empty, each entry having aged out or been crowded out. *)
Theorem replay_is_exact (t : Z) (d : option Z) os (c now : Z) (sub : option ReplaySubscriber)
    (cid : option string) (es : list (Z * envelope E)) :
  timely t os → time t os ≤ now →
  let h := run os (World (initial (E := E)) false d) [] in
  (getReplayWindow c sub cid now h.1).2 = Some es →
  es = (λ e, (seq e, event e)) <$> filter (λ e, replayed c sub cid e = true) h.2 ∨
  (es = [] ∧ ∀ i e, h.2 !! i = Some e → expendable now h.2 i e).
Proof.
  intros Hos Hn h. pose proof (logged_run os t _ _ Hos (logged_fresh t d)) as Hw.
  by apply (replay_window _ _ _ _ _ _ _ _ Hw).
Qed.
End histories.

(** ** Witnesses *)

Definition sample_event (cid : string) : envelope nat := Envelope (Some cid) 0%nat.

Definition sample_ops : list (op nat) :=
  [Stamp (sample_event "a") (Some 100) None 1000 true;
   Stamp (sample_event "b") (Some 300000) None 2000 true;
   Stamp (Envelope None 0%nat) (Some 10) None 2500 true;
   Stamp (sample_event "a") (Some 100) None 3000 true;
   Replay 1 None (Some "a") 4000;
   Restart; Floor (Some 7) true;
   Stamp (sample_event "a") (Some 100) (Some (Targeting None (Some "c1") None None)) 5000 true].

Lemma seqs_never_reissued_witness :
  issued sample_ops (World initial false None) = [1; 2; 3; 1025] ∧
  StronglySorted Z.lt (issued sample_ops (World initial false None)).
Proof. split; [by vm_compute|]. apply (seqs_never_reissued None). by repeat constructor. Defined.

Lemma floor_repairs_lost_reservations_witness :
  let w := World (initial (E := nat)) false None in
  let os := [Stamp (sample_event "a") (Some 100) None 1000 false] in
  issued os (floorSeqAbove (Some 41) false (restart w)) = [42] ∧
  Forall (λ n, 41 < n) (issued os (floorSeqAbove (Some 41) false (restart w))).
Proof.
  split; [by vm_compute|]. apply (floor_repairs_lost_reservations (World initial false None) 41 false).
  by repeat constructor.
Defined.

Lemma ring_within_bounds_witness :
  let w := (run sample_ops (World initial false None) []).1 in
  length (ring (state w)) = 1%nat ∧ bytes (ring (state w)) ≤ RING_SIZE_LIMIT_BYTES.
Proof.
  split; [by vm_compute|]. apply (ring_within_bounds 0 None sample_ops 0 5000 None None); by vm_compute.
Defined.

Lemma replay_is_exact_witness :
  let h := run (take 4 sample_ops) (World initial false None) [] in
  (getReplayWindow 2 None None 4000 h.1).2 = Some [(3, sample_event "a")] ∧
  ([(3, sample_event "a")] = (λ e, (seq e, event e)) <$> filter (λ e, replayed 2 None None e = true) h.2 ∨
   ([(3, sample_event "a")] = [] ∧ ∀ i e, h.2 !! i = Some e → expendable 4000 h.2 i e)).
Proof.
  split; [by vm_compute|].
  apply (replay_is_exact 0 None (take 4 sample_ops) 2 4000 None None); by vm_compute.
Defined.
