(* ===== verification/StreamConsumer.v ===== *)
(** * The client end of the event stream

    [clients/web/src/lib/streaming/reconnect-cursor.ts], [local-seq.ts] and
    [cold-anchor.ts], and [domains/chat/streaming/sse-event-consumer.ts]: the
    cursor a reconnect resumes from, the frontier applied per conversation, and
    the consumer that detects gaps, drops replays and dispatches.

    The module variables and the consumer's closure make up one [client].  The
    promise [reconcileActive] returns settles later, in two steps that other
    events may separate: [healed] is its [then], [settled] its [finally] (a
    rejection runs only the second).  The handler's throwing, the clock and the
    conversation on screen are inputs; the stream epoch and the diagnostics are
    left out. *)

From S2P Require Import Prelude JsMap.
From S2P Require StreamState.
Local Open Scope Z_scope.

Definition SSE_REPLAY_RING_COUNT_LIMIT : Z := 200.
Definition SSE_REPLAY_RING_AGE_LIMIT_MS : Z := 30000.

Definition GLOBAL_STREAM_EVENT_TYPE_NAMES : list string :=
  ["conversation_title_updated"; "notification_intent"; "navigate_settings";
   "open_conversation"; "identity_changed"; "avatar_updated"; "sync_changed";
   "disk_pressure_status_changed"; "resource_pressure_status_changed";
   "app_files_changed"; "home_feed_updated"; "relationship_state_updated";
   "contact_request"; "contact_record_request"; "contact_form_closed";
   "subagent_spawned"; "subagent_status_changed"; "subagent_event";
   "acp_session_spawned"; "acp_session_update"; "acp_session_usage";
   "acp_session_model_update"; "acp_session_completed"; "acp_session_error";
   "acp_auth_required"; "background_tool_started"; "background_tool_completed";
   "service_group_update_starting"; "service_group_update_progress";
   "service_group_update_complete"; "memory_recalled"; "memory_status";
   "bookmark.created"; "bookmark.deleted"; "contacts_changed"; "skills_state_changed";
   "host_ui_snapshot_request"; "host_ui_snapshot_cancel"; "host_browser_cancel";
   "assistant_status"; "model_info"; "schedule_conversation_created";
   "heartbeat_alert"; "heartbeat_conversation_created"; "client_settings_update";
   "config_changed"; "sounds_config_updated"; "oauth_connect_result";
   "show_platform_login"; "platform_disconnected"; "notification_conversation_created";
   "watch_retro_completed"; "recording_start"; "recording_stop"; "recording_pause";
   "recording_resume"].

Record AssistantEvent (P : Type) := Event { type : string; payload : P }.
Arguments Event {P}.
Arguments type {P}.
Arguments payload {P}.

Record ConsumableEnvelope (P : Type) := Envelope {
  message : AssistantEvent P;
  conversationId : option string;
  seq : option Z;
}.
Arguments Envelope {P}.
Arguments message {P}.
Arguments conversationId {P}.
Arguments seq {P}.

Record LocalSeqEntry := Local { value : Z; generation : Z }.

Record client := Client {
  reconnectCursor : option Z;
  abandonedGenerationCeiling : option Z;
  seqGeneration : Z;
  localSeqByConversation : jsmap string LocalSeqEntry;
  reconcileInFlight : bool;
  gapFrontier : option Z;
  lastEventAtMs : Z;
}.

Definition initial : client := Client None None 0 ∅ false None 0.

(** ** The cursor *)

Definition with_cursor (c : option Z) (k : client) : client :=
  Client c (abandonedGenerationCeiling k) (seqGeneration k) (localSeqByConversation k)
    (reconcileInFlight k) (gapFrontier k) (lastEventAtMs k).

Definition advanceReconnectCursor (s : Z) (k : client) : client :=
  match reconnectCursor k with
  | Some c => if c <? s then with_cursor (Some s) k else k
  | None => with_cursor (Some s) k
  end.

Definition replaceReconnectCursor (s : Z) (k : client) : client := with_cursor (Some s) k.

Definition recordAbandonedGeneration (ceiling : Z) (k : client) : client :=
  let ceiling' :=
    match abandonedGenerationCeiling k with
    | Some a => if a <? ceiling then ceiling else a
    | None => ceiling
    end in
  Client (reconnectCursor k) (Some ceiling') (seqGeneration k) (localSeqByConversation k)
    (reconcileInFlight k) (gapFrontier k) (lastEventAtMs k).

Definition advanceSeqGeneration (k : client) : client :=
  Client (reconnectCursor k) (abandonedGenerationCeiling k) (seqGeneration k + 1)
    (localSeqByConversation k) (reconcileInFlight k) (gapFrontier k) (lastEventAtMs k).

Definition resetReconnectCursor (k : client) : client :=
  Client None None 0 (localSeqByConversation k) (reconcileInFlight k) (gapFrontier k) (lastEventAtMs k).

(** ** The frontiers *)

Definition with_local (m : jsmap string LocalSeqEntry) (k : client) : client :=
  Client (reconnectCursor k) (abandonedGenerationCeiling k) (seqGeneration k) m
    (reconcileInFlight k) (gapFrontier k) (lastEventAtMs k).

Definition recordLocalSeq (cid : string) (s : option Z) (gen : Z) (k : client) : client :=
  match s with
  | None => k
  | Some s =>
      if match localSeqByConversation k !! cid with Some current => value current <? s | None => true end
      then with_local (<[cid := Local s gen]> (localSeqByConversation k)) k
      else k
  end.

Definition getLocalSeq (cid : string) (k : client) : option Z :=
  value <$> localSeqByConversation k !! cid.

Definition getLocalSeqGeneration (cid : string) (k : client) : option Z :=
  generation <$> localSeqByConversation k !! cid.

Definition resetLocalSeqs (k : client) : client := with_local ∅ k.

Definition clearLocalSeq (cid : string) (k : client) : client :=
  with_local (delete cid (localSeqByConversation k)) k.

(** [true] when the connection is asked to reconnect at the seeded cursor. *)
Definition anchorColdStartReplay (serverSeq : option Z) (k : client) : client * bool :=
  match serverSeq, reconnectCursor k with
  | Some s, None => (advanceReconnectCursor s k, true)
  | _, _ => (k, false)
  end.

(** ** The consumer *)

Section consumer.
Context {P : Type}.
Implicit Types (ev : ConsumableEnvelope P) (k : client).

Definition isConversationScopedStreamEvent (e : AssistantEvent P) : bool :=
  negb (bool_decide (type e ∈ GLOBAL_STREAM_EVENT_TYPE_NAMES)).

Inductive effect :=
| Handle (ev : ConsumableEnvelope P)      (** the handler returned *)
| Threw (ev : ConsumableEnvelope P)       (** the handler threw *)
| Reconcile_after_reset
| Reconcile_gap.

Definition set_gap (inFlight : bool) (frontier : option Z) k : client :=
  Client (reconnectCursor k) (abandonedGenerationCeiling k) (seqGeneration k)
    (localSeqByConversation k) inFlight frontier (lastEventAtMs k).

Definition set_last (now : Z) k : client :=
  Client (reconnectCursor k) (abandonedGenerationCeiling k) (seqGeneration k)
    (localSeqByConversation k) (reconcileInFlight k) (gapFrontier k) now.

Definition replayCouldHaveCovered (s stored idleMs : Z) : bool :=
  (s - stored <? SSE_REPLAY_RING_COUNT_LIMIT) && (idleMs <? SSE_REPLAY_RING_AGE_LIMIT_MS).

(** Stage 1; the last component is [gapDeferred]. *)
Definition detect_gap (s nowMs : Z) k : client * list effect * bool :=
  let '(k, es, deferred) :=
    match reconnectCursor k with
    | None => (k, [], false)
    | Some stored =>
        if s <? stored then
          (resetLocalSeqs (advanceSeqGeneration (recordAbandonedGeneration stored
             (replaceReconnectCursor s k))), [Reconcile_after_reset], true)
        else if stored + 1 <? s then
          if replayCouldHaveCovered s stored (nowMs - lastEventAtMs k) then (k, [], false)
          else if reconcileInFlight k then (set_gap true (Some s) k, [], true)
          else (set_gap true (Some s) k, [Reconcile_gap], true)
        else (k, [], false)
    end in
  (set_last nowMs k, es, deferred).

(** [applyAndAdvance] *)
Definition applyAndAdvance (throws : bool) (cid : string) ev k : client * list effect :=
  if throws then (k, [Threw ev])
  else (recordLocalSeq cid (seq ev) (seqGeneration k) k, [Handle ev]).

Definition frontierFromDeadGeneration (cid : string) (localSeq : Z) k : bool :=
  match getLocalSeqGeneration cid k with Some g => g <? seqGeneration k | None => false end ||
  match abandonedGenerationCeiling k, reconnectCursor k with
  | Some ceiling, Some cursor => (cursor <? ceiling) && (ceiling <=? localSeq)
  | _, _ => false
  end.

(** Stage 2. *)
Definition dispatch (active : option string) (throws : bool) ev k : client * list effect :=
  if negb (isConversationScopedStreamEvent (message ev)) then
    (k, [if throws then Threw ev else Handle ev])
  else match conversationId ev with
  | None => (k, [])
  | Some cid =>
      if negb (bool_decide (active = Some cid)) then (k, [])
      else match seq ev, getLocalSeq cid k with
      | Some s, Some localSeq =>
          if s <=? localSeq then
            if frontierFromDeadGeneration cid localSeq k
            then applyAndAdvance throws cid ev (clearLocalSeq cid k)
            else (k, [])
          else applyAndAdvance throws cid ev k
      | _, _ => applyAndAdvance throws cid ev k
      end
  end.

Definition threw (es : list effect) : bool :=
  existsb (λ e, match e with Threw _ => true | _ => false end) es.

Definition handleSseEvent (active : option string) (throws : bool) (nowMs : Z) ev k
    : client * list effect :=
  let '(k, es, gapDeferred) :=
    match seq ev with Some s => detect_gap s nowMs k | None => (k, [], false) end in
  let '(k, es') := dispatch active throws ev k in
  if threw es' then (k, es ++ es')
  else (match seq ev with
        | Some s => if gapDeferred then k else advanceReconnectCursor s k
        | None => k
        end, es ++ es').

(** [.then(() => { if (gapFrontier != null) advanceReconnectCursor(gapFrontier); })] *)
Definition healed k : client :=
  match gapFrontier k with Some s => advanceReconnectCursor s k | None => k end.

(** [.finally(() => { gapFrontier = null; reconcileInFlight = false; })] *)
Definition settled k : client := set_gap false None k.
End consumer.
Arguments effect : clear implicits.

(** ** Histories *)

Inductive op (P : Type) :=
| Deliver (active : option string) (throws : bool) (now : Z) (ev : ConsumableEnvelope P)
| Snapshot (cid : string) (serverSeq : option Z) (issuedGeneration : Z)
| Anchor (serverSeq : option Z)
| Healed
| Settled.
Arguments Deliver {P}.
Arguments Snapshot {P}.
Arguments Anchor {P}.
Arguments Healed {P}.
Arguments Settled {P}.

Section histories.
Context {P : Type}.
Implicit Types (ev : ConsumableEnvelope P) (k : client) (o : op P) (os : list (op P))
  (es : list (effect P)) (cid : string).

Definition exec o k : client * list (effect P) :=
  match o with
  | Deliver active throws now ev => handleSseEvent active throws now ev k
  | Snapshot cid s g => (recordLocalSeq cid s g k, [])
  | Anchor s => ((anchorColdStartReplay s k).1, [])
  | Healed => (healed k, [])
  | Settled => (settled k, [])
  end.

Fixpoint run os k : client * list (effect P) :=
  match os with
  | [] => (k, [])
  | o :: os =>
      let '(k, es) := exec o k in
      let '(k, es') := run os k in (k, es ++ es')
  end.

(** The numbers applied to a conversation's transcript, in order. *)
Definition applied cid es : list Z :=
  omap (λ e, match e with
             | Handle ev =>
                 if isConversationScopedStreamEvent (message ev) &&
                    bool_decide (conversationId ev = Some cid) then seq ev else None
             | _ => None
             end) es.

Lemma applied_app cid es es' : applied cid (es ++ es') = applied cid es ++ applied cid es'.
Proof. apply omap_app. Qed.

Definition resets es : bool :=
  existsb (λ e, match e with Reconcile_after_reset => true | _ => false end) es.

(** ** No generation reset *)

(** A client that has seen no reset: every recorded frontier is current, so no
    frontier is taken for a dead one. *)
Definition steady k : Prop :=
  seqGeneration k = 0 ∧ abandonedGenerationCeiling k = None ∧
  ∀ cid l, localSeqByConversation k !! cid = Some l → 0 ≤ generation l.

(** Everything applied to [cid] so far is at or below its frontier. *)
Definition frontier_covers cid (log : list Z) k : Prop :=
  log = [] ∨ ∃ l, localSeqByConversation k !! cid = Some l ∧ Forall (λ s, s ≤ value l) log.

Definition ok_op o : Prop :=
  match o with Snapshot _ _ g => 0 ≤ g | _ => True end.

Lemma advance_fields s k :
  let k' := advanceReconnectCursor s k in
  seqGeneration k' = seqGeneration k ∧
  abandonedGenerationCeiling k' = abandonedGenerationCeiling k ∧
  localSeqByConversation k' = localSeqByConversation k.
Proof.
  unfold advanceReconnectCursor. destruct (reconnectCursor k) as [c|]; [|done].
  by destruct (c <? s).
Qed.

Lemma steady_fields k k' :
  seqGeneration k' = seqGeneration k →
  abandonedGenerationCeiling k' = abandonedGenerationCeiling k →
  localSeqByConversation k' = localSeqByConversation k → steady k → steady k'.
Proof. unfold steady. by intros -> -> ->. Qed.

Lemma steady_record cid s g k : 0 ≤ g → steady k → steady (recordLocalSeq cid s g k).
Proof.
  intros Hg (H1 & H2 & H3). unfold recordLocalSeq. destruct s as [s|]; [|done].
  match goal with |- context [if ?b then _ else _] => destruct b end; [|done].
  split_and!; [done|done|]. intros cid' l. simpl.
  destruct (decide (cid = cid')) as [<-|Hne].
  - rw lookup_insert_eq. by intros [= <-].
  - rw lookup_insert_ne //. apply H3.
Qed.

(** The frontier of a conversation only rises. *)
Lemma record_rises cid cid' s g k l :
  localSeqByConversation k !! cid' = Some l →
  ∃ l', localSeqByConversation (recordLocalSeq cid s g k) !! cid' = Some l' ∧ value l ≤ value l'.
Proof.
  intros Hl. unfold recordLocalSeq. destruct s as [s|]; [|by exists l].
  destruct (localSeqByConversation k !! cid) as [c|] eqn:Hc; simpl.
  - destruct (Z.ltb_spec (value c) s); [|by exists l]. simpl.
    destruct (decide (cid = cid')) as [<-|Hne]; [|rw lookup_insert_ne //; by exists l].
    rw lookup_insert_eq. eexists. split; [done|]. simpl. simplify_eq. lia.
  - destruct (decide (cid = cid')) as [<-|Hne]; [congruence|]. rw lookup_insert_ne //. by exists l.
Qed.

Lemma covers_record cid cid' s g log k :
  frontier_covers cid log k → frontier_covers cid log (recordLocalSeq cid' s g k).
Proof.
  intros [->|(l & Hl & Hlog)]; [by left|]. right.
  destruct (record_rises cid' cid s g k l Hl) as (l' & Hl' & Hle). exists l'. split; [done|].
  eapply Forall_impl; [exact Hlog|]. simpl. lia.
Qed.

Lemma record_covers cid s g k :
  ∃ l, localSeqByConversation (recordLocalSeq cid (Some s) g k) !! cid = Some l ∧ s ≤ value l.
Proof.
  unfold recordLocalSeq. destruct (localSeqByConversation k !! cid) as [c|] eqn:Hc; simpl.
  - destruct (Z.ltb_spec (value c) s); [|exists c; split; [done|lia]].
    simpl. rw lookup_insert_eq. by eexists.
  - rw lookup_insert_eq. by eexists.
Qed.

Lemma detect_gap_steady (s now : Z) k :
  let r := detect_gap (P := P) s now k in
  resets r.1.2 = false →
  seqGeneration r.1.1 = seqGeneration k ∧
  abandonedGenerationCeiling r.1.1 = abandonedGenerationCeiling k ∧
  localSeqByConversation r.1.1 = localSeqByConversation k ∧
  ∀ cid, applied cid r.1.2 = [].
Proof.
  unfold detect_gap. destruct (reconnectCursor k) as [c|]; [|done].
  destruct (s <? c); [done|]. destruct (c + 1 <? s); [|done].
  destruct (replayCouldHaveCovered _ _ _); [done|]. by destruct (reconcileInFlight k).
Qed.

Lemma steady_alive cid n k : steady k → frontierFromDeadGeneration cid n k = false.
Proof.
  intros (H1 & H2 & H3). unfold frontierFromDeadGeneration, getLocalSeqGeneration.
  rw H1 H2 orb_false_r. destruct (localSeqByConversation k !! cid) as [l|] eqn:Hl; [|done].
  specialize (H3 _ _ Hl). simpl. lia.
Qed.

Lemma apply_steady throws cid0 ev k cid log :
  steady k → isConversationScopedStreamEvent (message ev) = true → conversationId ev = Some cid0 →
  (∀ s n, seq ev = Some s → getLocalSeq cid0 k = Some n → n < s) →
  frontier_covers cid log k → StronglySorted Z.lt log →
  let r := applyAndAdvance throws cid0 ev k in
  steady r.1 ∧ frontier_covers cid (log ++ applied cid r.2) r.1 ∧
  StronglySorted Z.lt (log ++ applied cid r.2).
Proof.
  intros Hst Hsc Hcid Hnew Hcov Hlog. unfold applyAndAdvance.
  destruct throws; simpl; [by rw app_nil_r|].
  split; [apply steady_record; [by destruct Hst as [->]|done]|].
  rw Hsc Hcid. simpl. destruct (decide (cid0 = cid)) as [<-|Hne].
  2: { rw bool_decide_eq_false_2; [|congruence]. simpl. rw app_nil_r. split; [|done].
       by apply covers_record. }
  rw bool_decide_eq_true_2 //. destruct (seq ev) as [s|] eqn:Hs; [|by rw app_nil_r].
  destruct (record_covers cid0 s (seqGeneration k) k) as (l' & Hl' & Hle).
  assert (Forall (λ x, x < s) log) as Hlt.
  { destruct Hcov as [->|(l & Hl & Hall)]; [done|].
    assert (value l < s) by (apply (Hnew s (value l)); [done|]; unfold getLocalSeq; by rw Hl).
    eapply Forall_impl; [exact Hall|]. simpl. lia. }
  split.
  - right. exists l'. split; [done|]. apply Forall_app. split; [|by repeat constructor].
    eapply Forall_impl; [exact Hlt|]. simpl. lia.
  - by apply StreamState.sorted_snoc.
Qed.

Lemma dispatch_steady active throws ev k cid log :
  steady k → frontier_covers cid log k → StronglySorted Z.lt log →
  let r := dispatch active throws ev k in
  steady r.1 ∧ frontier_covers cid (log ++ applied cid r.2) r.1 ∧
  StronglySorted Z.lt (log ++ applied cid r.2).
Proof.
  intros Hst Hcov Hlog. unfold dispatch.
  destruct (isConversationScopedStreamEvent (message ev)) eqn:Hsc; simpl.
  2: { destruct throws; simpl; rw ?Hsc /= ?app_nil_r; done. }
  destruct (conversationId ev) as [cid0|] eqn:Hcid; [|by rw app_nil_r].
  destruct (bool_decide (active = Some cid0)); simpl; [|by rw app_nil_r].
  destruct (seq ev) as [s|] eqn:Hs; [|apply apply_steady; naive_solver].
  destruct (getLocalSeq cid0 k) as [n|] eqn:Hn; [|apply apply_steady; naive_solver].
  destruct (Z.leb_spec s n); [|apply apply_steady; naive_solver].
  rw steady_alive //. by rw app_nil_r.
Qed.

Lemma resets_app es es' : resets (es ++ es') = resets es || resets es'.
Proof. apply existsb_app. Qed.

Lemma exec_steady o k cid log :
  ok_op o → steady k → frontier_covers cid log k → StronglySorted Z.lt log →
  resets (exec o k).2 = false →
  steady (exec o k).1 ∧ frontier_covers cid (log ++ applied cid (exec o k).2) (exec o k).1 ∧
  StronglySorted Z.lt (log ++ applied cid (exec o k).2).
Proof.
  intros Hok Hst Hcov Hlog. destruct o as [active throws now ev|c s g|s| |]; simpl; rw ?app_nil_r.
  - unfold handleSseEvent. destruct (seq ev) as [s|] eqn:Hs.
    2: { destruct (dispatch active throws ev k) as [k' es] eqn:Hd.
         pose proof (dispatch_steady active throws ev k cid log Hst Hcov Hlog) as H. rw Hd in H.
         destruct (threw es); simpl; intros _; exact H. }
    pose proof (detect_gap_steady s now k) as Hgap.
    destruct (detect_gap s now k) as [[k1 es1] deferred]. simpl in Hgap.
    destruct (dispatch active throws ev k1) as [k2 es2] eqn:Hd.
    intros Hr. assert (resets es1 = false) as Hr1.
    { destruct (threw es2); simpl in Hr; rw resets_app in Hr; by apply orb_false_iff in Hr as [? _]. }
    destruct (Hgap Hr1) as (G1 & G2 & G3 & G4).
    pose proof (dispatch_steady active throws ev k1 cid log) as H. rw Hd in H. simpl in H.
    destruct H as (H1 & H2 & H3); [by eapply steady_fields| |done|].
    { unfold frontier_covers. by rw G3. }
    destruct (advance_fields s k2) as (A1 & A2 & A3).
    destruct (threw es2); simpl; rw applied_app G4 app_nil_l; [done|].
    destruct deferred; [done|]. split_and!; [by eapply steady_fields| |done].
    unfold frontier_covers in *. by rw A3.
  - intros _. split_and!; [by apply steady_record|by apply covers_record|done].
  - intros _. unfold anchorColdStartReplay. destruct s as [s|]; [|done].
    destruct (reconnectCursor k); [done|]. simpl. destruct (advance_fields s k) as (A1 & A2 & A3).
    split_and!; [by eapply steady_fields| |done]. unfold frontier_covers in *. by rw A3.
  - intros _. unfold healed. destruct (gapFrontier k) as [s|]; [|done].
    destruct (advance_fields s k) as (A1 & A2 & A3).
    split_and!; [by eapply steady_fields| |done]. unfold frontier_covers in *. by rw A3.
  - intros _. split_and!; [by eapply steady_fields|done|done].
Qed.

Lemma run_steady os : ∀ k cid log,
  Forall ok_op os → steady k → frontier_covers cid log k → StronglySorted Z.lt log →
  resets (run os k).2 = false →
  StronglySorted Z.lt (log ++ applied cid (run os k).2).
Proof.
  induction os as [|o os IH]; intros k cid log Hos Hst Hcov Hlog; simpl; [by rw app_nil_r|].
  inversion_clear Hos as [|? ? Ho Hos'].
  pose proof (exec_steady o k cid log Ho Hst Hcov Hlog) as Hstep.
  destruct (exec o k) as [k1 es1]. specialize (IH k1 cid (log ++ applied cid es1)).
  destruct (run os k1) as [k2 es2]. simpl in *. rw resets_app applied_app app_assoc.
  intros [Hr1 Hr2]%orb_false_iff. destruct (Hstep Hr1) as (H1 & H2 & H3). by apply IH.
Qed.

(** ** The cursor and the gap *)

Lemma record_cursor cid s g k :
  let k' := recordLocalSeq cid s g k in
  reconnectCursor k' = reconnectCursor k ∧ reconcileInFlight k' = reconcileInFlight k ∧
  lastEventAtMs k' = lastEventAtMs k.
Proof.
  unfold recordLocalSeq. destruct s as [s|]; [|done].
  by match goal with |- context [if ?b then _ else _] => destruct b end.
Qed.

Lemma dispatch_cursor active throws ev k :
  let k' := (dispatch active throws ev k).1 in
  reconnectCursor k' = reconnectCursor k ∧ reconcileInFlight k' = reconcileInFlight k ∧
  lastEventAtMs k' = lastEventAtMs k.
Proof.
  unfold dispatch. destruct (negb _); [done|]. destruct (conversationId ev) as [cid|]; [|done].
  destruct (negb _); [done|]. unfold applyAndAdvance.
  destruct (seq ev) as [s|]; [|by destruct throws].
  destruct (getLocalSeq cid k) as [n|]; [destruct (s <=? n)|]; try (destruct throws; [done|]);
    try apply record_cursor.
  destruct (frontierFromDeadGeneration cid n k); [|done]. destruct throws; [done|].
  by apply (record_cursor cid (Some s) _ (clearLocalSeq cid k)).
Qed.

(** Without a throw the dispatch asks for no reconciliation. *)
Definition reconciles es : bool :=
  existsb (λ e, match e with Reconcile_gap | Reconcile_after_reset => true | _ => false end) es.

Lemma dispatch_quiet active throws ev k :
  reconciles (dispatch active throws ev k).2 = false ∧
  threw (dispatch active false ev k).2 = false.
Proof.
  unfold dispatch. destruct (negb _); [by destruct throws|]. destruct (conversationId ev) as [cid|]; [|done].
  destruct (negb _); [done|]. unfold applyAndAdvance.
  destruct (seq ev) as [s|]; [|by destruct throws].
  destruct (getLocalSeq cid k) as [n|]; [destruct (s <=? n)|]; try by destruct throws.
  by destruct (frontierFromDeadGeneration cid n k); destruct throws.
Qed.

Lemma handle_seq active throws now ev k s :
  seq ev = Some s →
  let r := detect_gap (P := P) s now k in
  let d := dispatch active throws ev r.1.1 in
  handleSseEvent active throws now ev k =
    (if threw d.2 || r.2 then d.1 else advanceReconnectCursor s d.1, r.1.2 ++ d.2).
Proof.
  intros Hs. unfold handleSseEvent. rw Hs. destruct (detect_gap s now k) as [[k1 es1] deferred]. simpl.
  destruct (dispatch active throws ev k1) as [k2 es2]. simpl.
  by destruct (threw es2), deferred.
Qed.

(** A gap the ring could not have covered. *)
Lemma suspicious_gap active throws now ev k c s :
  reconnectCursor k = Some c → seq ev = Some s → c + 1 < s →
  replayCouldHaveCovered s c (now - lastEventAtMs k) = false →
  let r := handleSseEvent active throws now ev k in
  reconnectCursor r.1 = Some c ∧ reconcileInFlight r.1 = true ∧ lastEventAtMs r.1 = now ∧
  (reconcileInFlight k = false → Reconcile_gap ∈ r.2).
Proof.
  intros Hc Hs Hgap Hcov. cbv zeta. rw (handle_seq _ _ _ _ _ _ Hs). unfold detect_gap. rw Hc.
  replace (s <? c) with false by (symmetry; apply Z.ltb_ge; lia).
  replace (c + 1 <? s) with true by (symmetry; apply Z.ltb_lt; lia). rw Hcov.
  destruct (reconcileInFlight k); simpl; rw orb_true_r;
    match goal with |- context [dispatch active throws ev ?k'] =>
      destruct (dispatch_cursor active throws ev k') as (D1 & D2 & D3) end;
    simpl in *; split_and!; try congruence; try done.
  intros _. apply list_elem_of_here.
Qed.

(** A hole the bounds let through. *)
Lemma benign_gap active now ev k c s :
  reconnectCursor k = Some c → seq ev = Some s → c < s →
  s - c < SSE_REPLAY_RING_COUNT_LIMIT → now - lastEventAtMs k < SSE_REPLAY_RING_AGE_LIMIT_MS →
  let r := handleSseEvent active false now ev k in
  reconciles r.2 = false ∧ reconnectCursor r.1 = Some s.
Proof.
  intros Hc Hs Hlt Hd Ha. cbv zeta. rw (handle_seq _ _ _ _ _ _ Hs).
  assert (detect_gap (P := P) s now k = (set_last now k, [], false)) as Hg.
  { unfold detect_gap, replayCouldHaveCovered. rw Hc.
    replace (s <? c) with false by (symmetry; apply Z.ltb_ge; lia).
    destruct (c + 1 <? s); [|done].
    replace (s - c <? SSE_REPLAY_RING_COUNT_LIMIT) with true by (symmetry; apply Z.ltb_lt; lia).
    by replace (now - lastEventAtMs k <? SSE_REPLAY_RING_AGE_LIMIT_MS) with true
      by (symmetry; apply Z.ltb_lt; lia). }
  rw Hg. simpl.
  destruct (dispatch_quiet active false ev (set_last now k)) as [Q1 Q2]. rw Q2 /=.
  destruct (dispatch_cursor active false ev (set_last now k)) as (D1 & _ & _). simpl in D1.
  split; [done|]. unfold advanceReconnectCursor. rw D1 Hc.
  by replace (c <? s) with true by (symmetry; apply Z.ltb_lt; lia).
Qed.

(** ** Theorems *)

(** C37 — Nothing is applied twice or out of order: as long as no generation
    reset is observed, over any history of deliveries, replays, throwing
    handlers, snapshots, anchors and heals, and whatever conversation is on
    screen, the numbers applied to a conversation are strictly increasing. *)
Theorem applied_once_in_order os cid :
  Forall ok_op os →
  resets (run os initial).2 = false →
  StronglySorted Z.lt (applied cid (run os initial).2).
Proof.
  intros Hos Hr. pose proof (run_steady os initial cid [] Hos) as H. simpl in H.
  apply H; [|by left|constructor|done].
  split_and!; [done|done|]. intros c l. simpl. by rw lookup_empty.
Qed.

(** What can follow a large gap without healing it: other deliveries beyond the
    count bound, snapshots, and rejected heals. *)
Definition beyond (c : Z) o : Prop :=
  match o with
  | Deliver _ _ _ ev => ∀ s, seq ev = Some s → c + SSE_REPLAY_RING_COUNT_LIMIT ≤ s
  | Healed => False
  | _ => True
  end.

(** A large gap is retried until it is healed: while the live numbers stay
    two hundred or more above the cursor and no heal succeeds, the cursor does
    not move, and every delivery with no heal in flight starts one. *)
Theorem large_gap_is_retried os k c active throws now ev s :
  reconnectCursor k = Some c → Forall (beyond c) os →
  seq ev = Some s → c + SSE_REPLAY_RING_COUNT_LIMIT ≤ s →
  let k' := (run os k).1 in
  reconnectCursor k' = Some c ∧
  (reconcileInFlight k' = false → Reconcile_gap ∈ (handleSseEvent active throws now ev k').2).
Proof.
  assert (∀ s idle, c + SSE_REPLAY_RING_COUNT_LIMIT ≤ s → replayCouldHaveCovered s c idle = false) as Hcov.
  { intros s' idle Hs'. unfold replayCouldHaveCovered. apply andb_false_iff. left. apply Z.ltb_ge. lia. }
  intros Hc Hos Hs Hle. assert (reconnectCursor (run os k).1 = Some c) as Hk.
  { revert k Hc. induction Hos as [|o os Ho Hos IH]; intros k Hc; simpl; [done|].
    destruct (exec o k) as [k1 es1] eqn:Hx. specialize (IH k1).
    destruct (run os k1) as [k2 es2]. apply IH. clear IH.
    destruct o as [a th t e|cid' s' g|s'| |]; simpl in *; try done.
    - destruct (seq e) as [s'|] eqn:Hs'.
      + specialize (Ho _ eq_refl). unfold SSE_REPLAY_RING_COUNT_LIMIT in Ho.
        pose proof (suspicious_gap a th t e k c s' Hc Hs' ltac:(lia) (Hcov _ _ Ho)) as H.
        rw Hx in H. by destruct H.
      + unfold handleSseEvent in Hx. rw Hs' in Hx. pose proof (dispatch_cursor a th e k) as H.
        destruct (dispatch a th e k) as [k' es']. destruct (threw es'); simplify_eq/=; by destruct H as [-> _].
    - simplify_eq. destruct (record_cursor cid' s' g k) as (-> & _). done.
    - unfold anchorColdStartReplay in Hx. destruct s'; simplify_eq/=; by rw ?Hc.
    - by simplify_eq. }
  cbv zeta. split; [done|]. intros Hf.
  unfold SSE_REPLAY_RING_COUNT_LIMIT in Hle.
  by apply (suspicious_gap active throws now ev (run os k).1 c s Hk Hs ltac:(lia) (Hcov _ _ Hle)).
Qed.

(** A failed heal of an aged gap is not retried: the gap that opened while
    the connection was quiet starts a heal and pins the cursor, but it also
    refreshes the liveness clock; when the heal is rejected, the next live
    event passes for a benign skip, and the cursor moves past the hole. *)
Theorem failed_heal_is_not_retried k c s now1 now2 active1 active2 ev1 ev2 :
  reconnectCursor k = Some c → reconcileInFlight k = false →
  seq ev1 = Some s → seq ev2 = Some (s + 1) →
  c + 1 < s → s + 1 < c + SSE_REPLAY_RING_COUNT_LIMIT →
  lastEventAtMs k + SSE_REPLAY_RING_AGE_LIMIT_MS ≤ now1 →
  now2 < now1 + SSE_REPLAY_RING_AGE_LIMIT_MS →
  let first := handleSseEvent active1 false now1 ev1 k in
  let second := handleSseEvent active2 false now2 ev2 (settled first.1) in
  Reconcile_gap ∈ first.2 ∧ reconnectCursor first.1 = Some c ∧
  reconciles second.2 = false ∧ reconnectCursor second.1 = Some (s + 1).
Proof.
  intros Hc Hf H1 H2 Hgap Hd Hidle Hsoon. cbv zeta.
  assert (replayCouldHaveCovered s c (now1 - lastEventAtMs k) = false) as Hcov.
  { unfold replayCouldHaveCovered. apply andb_false_iff. right. apply Z.ltb_ge. lia. }
  destruct (suspicious_gap active1 false now1 ev1 k c s Hc H1 Hgap Hcov) as (S1 & S2 & S3 & S4).
  split; [by apply S4|]. split; [done|].
  apply (benign_gap active2 now2 ev2 _ c (s + 1)); simpl; [done|done|lia|lia|lia].
Qed.

(** A thrown event is not recovered: the throw leaves the cursor behind,
    but the next event is one of a small gap on a live connection, passes for
    benign, and carries the cursor past the event that was never applied. *)
Theorem thrown_event_is_not_recovered k c now1 now2 cid ev1 ev2 :
  reconnectCursor k = Some c → seq ev1 = Some (c + 1) → seq ev2 = Some (c + 2) →
  isConversationScopedStreamEvent (message ev1) = true → conversationId ev1 = Some cid →
  getLocalSeq cid k = None →
  now2 < now1 + SSE_REPLAY_RING_AGE_LIMIT_MS →
  let first := handleSseEvent (Some cid) true now1 ev1 k in
  let second := handleSseEvent (Some cid) false now2 ev2 first.1 in
  first.2 = [Threw ev1] ∧ reconnectCursor first.1 = Some c ∧
  reconciles second.2 = false ∧ reconnectCursor second.1 = Some (c + 2).
Proof.
  intros Hc H1 H2 Hsc Hcid Hl Hsoon. cbv zeta.
  assert (handleSseEvent (Some cid) true now1 ev1 k = (set_last now1 k, [Threw ev1])) as ->.
  { rw (handle_seq _ _ _ _ _ _ H1). unfold detect_gap. rw Hc.
    replace (c + 1 <? c) with false by (symmetry; apply Z.ltb_ge; lia). rw Z.ltb_irrefl. simpl.
    unfold dispatch. rw Hsc Hcid H1 /= bool_decide_eq_true_2 //=.
    by replace (getLocalSeq cid (set_last now1 k)) with (@None Z). }
  simpl. split_and!; [done|done|..].
  all: apply (benign_gap (Some cid) now2 ev2 (set_last now1 k) c (c + 2)); simpl; try done;
    unfold SSE_REPLAY_RING_COUNT_LIMIT; lia.
Qed.
End histories.

(** ** Concrete histories *)

Definition delta (cid : string) (s : Z) : ConsumableEnvelope nat :=
  Envelope (Event "assistant_text_delta" 0%nat) (Some cid) (Some s).

Definition on (cid : string) (now s : Z) : op nat := Deliver (Some cid) false now (delta cid s).

(** The counter restarts (1000, then 5), the daemon then skips ahead to 1025,
    and the connection drops before the heal of that gap resolves: the daemon
    replays 1025 and 1026 from the pinned cursor. *)
Definition restart_then_replay : list (op nat) :=
  [on "a" 100000 1000; on "a" 101000 5; on "a" 102000 1025; on "a" 103000 1026;
   on "a" 104000 1025; on "a" 105000 1026].

(** The stale-frontier guard can apply an event twice: after a generation
    reset, a frontier that live events carried above the abandoned ceiling
    while a gap pins the cursor below it is taken for a dead one, and events
    replayed to that cursor are dispatched a second time. *)
Theorem stale_guard_reapplies_replays :
  applied "a" (run restart_then_replay initial).2 = [1000; 5; 1025; 1026; 1025; 1026].
Proof. by vm_compute. Qed.

Lemma applied_once_in_order_witness :
  let os := [on "a" 1000 1; on "b" 1100 2; Deliver (Some "a") true 1200 (delta "a" 3);
             on "a" 1300 3; Snapshot "a" (Some 6) 0; on "a" 1400 5; on "a" 60000 9; Healed;
             Settled; on "a" 60100 10; on "a" 60200 10] in
  applied "a" (run os initial).2 = [1; 3; 9; 10] ∧
  StronglySorted Z.lt (applied "a" (run os initial).2).
Proof.
  split; [by vm_compute|]. apply (applied_once_in_order _ "a"); [|by vm_compute].
  by repeat constructor.
Defined.

Lemma large_gap_is_retried_witness :
  let k := Client (Some 10) None 0 ∅ false None 1000 in
  let os := [on "a" 2000 300; Settled; Snapshot "a" (Some 299) 0] in
  reconnectCursor (run os k).1 = Some 10 ∧
  Reconcile_gap ∈ (handleSseEvent (Some "a") false 3000 (delta "a" 301) (run os k).1).2.
Proof.
  pose proof (large_gap_is_retried [on "a" 2000 300; Settled; Snapshot "a" (Some 299) 0]
    (Client (Some 10) None 0 ∅ false None 1000) 10 (Some "a") false 3000 (delta "a" 301) 301) as H.
  destruct H as [H1 H2]; [done| |done|done|].
  - repeat constructor; intros s [= <-]; done.
  - split; [exact H1|]. apply H2. by vm_compute.
Defined.

Lemma failed_heal_is_not_retried_witness :
  let k := Client (Some 10) None 0 ∅ false None 1000 in
  let first := handleSseEvent (Some "a") false 60000 (delta "a" 15) k in
  let second := handleSseEvent (Some "a") false 61000 (delta "a" 16) (settled first.1) in
  Reconcile_gap ∈ first.2 ∧ reconnectCursor first.1 = Some 10 ∧
  reconciles second.2 = false ∧ reconnectCursor second.1 = Some 16.
Proof. by apply (failed_heal_is_not_retried _ 10 15). Defined.

Lemma thrown_event_is_not_recovered_witness :
  let k := Client (Some 10) None 0 ∅ false None 1000 in
  let first := handleSseEvent (Some "a") true 2000 (delta "a" 11) k in
  let second := handleSseEvent (Some "a") false 3000 (delta "a" 12) first.1 in
  first.2 = [Threw (delta "a" 11)] ∧ reconnectCursor first.1 = Some 10 ∧
  reconciles second.2 = false ∧ reconnectCursor second.1 = Some 12.
Proof. by apply (thrown_event_is_not_recovered _ 10 2000 3000 "a"). Defined.
