(* ===== verification/StreamResume.v ===== *)
(** * Resuming the event stream, end to end

    The daemon's replay ring ([StreamState]) and the client's consumer
    ([StreamConsumer]) together: what a reconnecting client learns about the
    events it missed. *)

From S2P Require Import Prelude JsMap.
From S2P Require StreamState StreamConsumer.
Local Open Scope Z_scope.

Section resume.
Context {E P : Type}.
Implicit Types (e : StreamState.RingEntry E) (log : list (StreamState.RingEntry E)) (w : StreamState.world E)
  (k : StreamConsumer.client) (ev : StreamConsumer.ConsumableEnvelope P).

(** Numbers without a jump: no reservation was skipped between two stamps of
    the process. *)
Definition contiguous log : Prop :=
  ∀ i e e', log !! i = Some e → log !! S i = Some e' → StreamState.seq e' = StreamState.seq e + 1.

(** Everything above the cursor, as an unfiltered connection receives it. *)
Definition missed (c : Z) log : list (Z * StreamState.envelope E) :=
  (λ e, (StreamState.seq e, StreamState.event e)) <$> filter (λ e, c < StreamState.seq e) log.

Lemma replayed_all c e :
  StreamState.replayed c None None e = true ↔ c < StreamState.seq e.
Proof. unfold StreamState.replayed. rw !andb_true_r. apply Z.ltb_lt. Qed.

Lemma missed_replayed c log :
  (λ e, (StreamState.seq e, StreamState.event e)) <$>
    filter (λ e, StreamState.replayed c None None e = true) log = missed c log.
Proof. unfold missed. f_equal. apply list_filter_iff. intros e. apply replayed_all. Qed.

Lemma missed_nil c log : Forall (λ e, StreamState.seq e ≤ c) log → missed c log = [].
Proof.
  intros H. unfold missed. rw filter_none //. eapply Forall_impl; [exact H|]. simpl. lia.
Qed.

(** A refused replay: the predecessor of the oldest entry left is gone. *)
Lemma refused_replay t t1 c w log :
  StreamState.logged t w log → t ≤ t1 → contiguous log →
  (StreamState.getReplayWindow c None None t1 w).2 = None →
  ∃ i e, log !! i = Some e ∧ c < StreamState.seq e ∧ StreamState.expendable t1 log i e.
Proof.
  intros Hw Ht Hcon. destruct (StreamState.ring_after_evict _ _ _ _ Hw Ht) as ((gone & Hlog & Hg) & _ & _).
  destruct (StreamState.evict_fields t1 (StreamState.state w)) as (_ & _ & _ & E4).
  unfold StreamState.getReplayWindow. simpl. rw E4 (StreamState.logged_first _ _ _ Hw).
  destruct (StreamState.ring (StreamState.evict t1 (StreamState.state w))) as [|head r]; [done|].
  match goal with |- context [if ?b then _ else _] => destruct b eqn:Hb end; [|done]. intros _.
  apply andb_true_iff in Hb as [Hc%Z.ltb_lt Hn]. apply negb_true_iff in Hn.
  destruct (last gone) as [e|] eqn:Hlast.
  - rw last_lookup in Hlast. exists (pred (length gone)), e.
    assert (0 < length gone)%nat as Hlen.
    { apply lookup_lt_Some in Hlast. lia. }
    assert (log !! pred (length gone) = Some e) as He by (rw Hlog; by apply lookup_app_l_Some).
    assert (log !! S (pred (length gone)) = Some head) as Hh.
    { rw Hlog Nat.succ_pred; [|lia]. by rw lookup_app_r // Nat.sub_diag. }
    specialize (Hcon _ _ _ He Hh). split_and!; [done|lia|by apply Hg].
  - apply last_None in Hlast as ->. simpl in Hlog. rw Hlog Z.eqb_refl andb_true_r in Hn.
    apply Z.ltb_ge in Hn. lia.
Qed.

(** Strictly increasing numbers leave room for everything in between. *)
Lemma sorted_room log : ∀ i e,
  StronglySorted (λ e e', StreamState.seq e < StreamState.seq e') log → log !! i = Some e →
  ∃ e', last log = Some e' ∧
    StreamState.seq e + (Z.of_nat (length log) - Z.of_nat (S i)) ≤ StreamState.seq e'.
Proof.
  induction log as [|x log IH]; intros i e Hs Hi; [done|].
  inversion_clear Hs as [|? ? Hs' Hx]. destruct i as [|i]; simpl in Hi.
  - injection Hi as <-. destruct log as [|y log]; [exists x; simpl; split; [done|lia]|].
    destruct (IH 0%nat y Hs' eq_refl) as (e' & He' & Hle). exists e'. rw last_cons_cons. split; [done|].
    inversion_clear Hx. simpl in *. lia.
  - destruct (IH i e Hs' Hi) as (e' & He' & Hle). exists e'. rw last_cons He'. split; [done|].
    simpl. lia.
Qed.

(** What stands behind an event above the cursor is above it too. *)
Lemma bytes_behind log i e c :
  StronglySorted (λ e e', StreamState.seq e < StreamState.seq e') log →
  Forall (λ e, 0 ≤ StreamState.sizeBytes e) log →
  log !! i = Some e → c < StreamState.seq e →
  StreamState.bytes (drop i log) ≤ StreamState.bytes (filter (λ e, c < StreamState.seq e) log).
Proof.
  intros Hs. revert i. induction Hs as [|x log Hs IH Hx]; intros i Hz Hi Hc; [done|].
  inversion_clear Hz as [|? ? Hx0 Hz']. destruct i as [|i]; simpl in Hi.
  - injection Hi as <-. simpl. rw (filter_keep (λ e, c < StreamState.seq e)) //. constructor; [done|].
    eapply Forall_impl; [exact Hx|]. simpl. lia.
  - specialize (IH _ Hz' Hi Hc). simpl. destruct (decide (c < StreamState.seq x)).
    + rw filter_cons_True //. unfold StreamState.bytes in *. simpl. lia.
    + by rw filter_cons_False.
Qed.

(** An entry the ring could drop without byte pressure opens a gap that the
    client's bounds recognize. *)
Lemma dropped_entry_is_recognized t1 t2 log i e c s k :
  StronglySorted (λ e e', StreamState.seq e < StreamState.seq e') log →
  Forall (λ e, 0 ≤ StreamState.sizeBytes e) log →
  StreamState.bytes (filter (λ e, c < StreamState.seq e) log) ≤ StreamState.RING_SIZE_LIMIT_BYTES →
  log !! i = Some e → c < StreamState.seq e → StreamState.expendable t1 log i e →
  StreamConsumer.lastEventAtMs k ≤ StreamState.emittedAt e → t1 ≤ t2 →
  Forall (λ e, StreamState.seq e < s) log →
  c + 1 < s ∧ StreamConsumer.replayCouldHaveCovered s c (t2 - StreamConsumer.lastEventAtMs k) = false.
Proof.
  intros Hs Hz Hb Hi Hc Hx Hlast Ht Hall. pose proof (bytes_behind _ _ _ _ Hs Hz Hi Hc). pose proof Hall as Hall'. rw Forall_lookup in Hall'.
  pose proof (Hall' _ _ Hi) as Hse. simpl in Hse. split; [lia|].
  unfold StreamConsumer.replayCouldHaveCovered. apply andb_false_iff.
  destruct Hx as [Hx|[Hx|Hx]]; [right|left|lia]; apply Z.ltb_ge.
  - unfold StreamState.RING_AGE_LIMIT_MS, StreamConsumer.SSE_REPLAY_RING_AGE_LIMIT_MS in *. lia.
  - destruct (sorted_room log i e Hs Hi) as (e' & He' & Hle). rw last_lookup in He'.
    specialize (Hall' _ _ He'). simpl in Hall'.
    unfold StreamState.RING_COUNT_LIMIT, StreamConsumer.SSE_REPLAY_RING_COUNT_LIMIT in *. lia.
Qed.

End resume.

(** ** Concrete connections *)

Definition published (size now : Z) : StreamState.op nat :=
  StreamState.Stamp (StreamState.Envelope (Some "a") 0%nat) (Some size) None now true.

Definition live (s : Z) : StreamConsumer.ConsumableEnvelope nat :=
  StreamConsumer.Envelope (StreamConsumer.Event "assistant_text_delta" 0%nat) (Some "a") (Some s).

(** A client that has applied number 1 at 1000. *)
Definition seated : StreamConsumer.client :=
  StreamConsumer.Client (Some 1) None 0 ∅ false None 1000.

Definition large_events : list (StreamState.op nat) :=
  [published 100 900; published 200000 2000; published 200000 2500].

(** An event crowded out by the byte bound is lost in silence: two large
    events published within a second of the client's last delivery overflow
    the ring, the reconnect is refused a replay, and the next live event
    passes for a benign skip — two numbers short, three seconds late — so the
    cursor moves past both events, which are neither replayed nor reloaded. *)
Theorem byte_evicted_events_are_lost :
  let h := StreamState.run large_events (StreamState.World StreamState.initial false None) [] in
  let r := StreamConsumer.handleSseEvent (Some "a") false 4000 (live 4) seated in
  StreamState.seq <$> h.2 = [1; 2; 3] ∧
  (StreamState.getReplayWindow 1 None None 3000 h.1).2 = None ∧
  StreamConsumer.applied "a" r.2 = [4] ∧ StreamConsumer.reconciles r.2 = false ∧
  StreamConsumer.reconnectCursor r.1 = Some 4.
Proof. by vm_compute. Qed.

Definition small_events : list (StreamState.op nat) :=
  [published 100 900; published 100 2000; published 100 2500].

Lemma small_events_contiguous :
  contiguous (StreamState.run small_events (StreamState.World StreamState.initial false None) []).2.
Proof. intros [|[|[|i]]] e e'; vm_compute; intros Hi Hj; by simplify_eq. Qed.

