(* ===== verification/ThinkTags.v ===== *)
(** * Think-tag scanning and the spoken stream

    [assistant/src/util/think-tag-stream.ts] and
    [assistant/src/tts/reasoning-tag-filter.ts].  A text is the list of its
    UTF-16 code units.  Models emit their reasoning between think tags; the
    filter drops it from what is spoken, although tags and reasoning are cut
    anywhere by the stream's deltas. *)

From S2P Require Import Prelude.
Local Open Scope Z_scope.

Definition text : Type := list Z.

(** An ASCII literal. *)
Definition lit (s : string) : text := (λ a, Z.of_nat (nat_of_ascii a)) <$> list_ascii_of_string s.

(** ** Scanning *)

Definition foldedCharCode (caseInsensitive : bool) (code : Z) : Z :=
  if caseInsensitive && (65 <=? code) && (code <=? 90) then code + 32 else code.

Definition tagMatchesAt (haystack : text) (start : nat) (tag : text) (caseInsensitive : bool) : bool :=
  if (length haystack <? start + length tag)%nat then false
  else forallb (λ k, foldedCharCode caseInsensitive (nth (start + k) haystack 0) =? nth k tag 0)
         (seq 0 (length tag)).

(** The inner loop of [indexOfTag]: the first of the longest matching tags. *)
Definition longest_so_far (best : option text) (tag : text) : option text :=
  match best with
  | None => Some tag
  | Some b => if (length b <? length tag)%nat then Some tag else best
  end.

Definition bestTag (haystack : text) (i : nat) (tags : list text) (caseInsensitive : bool)
    : option text :=
  foldl (λ best tag,
    if tagMatchesAt haystack i tag caseInsensitive then longest_so_far best tag else best) None tags.

Fixpoint index_from (haystack : text) (tags : list text) (caseInsensitive : bool) (starts : list nat)
    : option (nat * text) :=
  match starts with
  | [] => None
  | i :: starts =>
      match bestTag haystack i tags caseInsensitive with
      | Some tag => Some (i, tag)
      | None => index_from haystack tags caseInsensitive starts
      end
  end.

Definition indexOfTag (haystack : text) (tags : list text) (caseInsensitive : bool)
    : option (nat * text) :=
  index_from haystack tags caseInsensitive (seq 0 (length haystack)).

Definition partial_at (t : text) (tags : list text) (caseInsensitive : bool) (len : nat) : bool :=
  existsb (λ tag, (len <? length tag)%nat &&
    tagMatchesAt t (length t - len) (take len tag) caseInsensitive) tags.

Fixpoint partial_from (t : text) (tags : list text) (caseInsensitive : bool) (len : nat) : nat :=
  match len with
  | O => O
  | S n => if partial_at t tags caseInsensitive len then len else partial_from t tags caseInsensitive n
  end.

Definition partialTagSuffix (t : text) (tags : list text) (caseInsensitive : bool) : nat :=
  let longest := pred (max_list (length <$> tags)) in
  partial_from t tags caseInsensitive (Nat.min (length t) longest).

(** ** The filter *)

Definition OPEN_TAGS : list text := [lit "<think>"; lit "<thinking>"].
Definition CLOSE_TAGS : list text := [lit "</think>"; lit "</thinking>"].

Record ReasoningTagFilter := Filter { insideReasoning : bool; pending : text }.

Definition createReasoningTagFilter : ReasoningTagFilter := Filter false [].

(** The loop of [push]; every turn but the last consumes a tag. *)
Fixpoint push_loop (fuel : nat) (inside : bool) (pending out : text)
    : option (ReasoningTagFilter * text) :=
  match fuel with
  | O => None
  | S fuel =>
      if inside then
        match indexOfTag pending CLOSE_TAGS true with
        | Some (i, tag) => push_loop fuel false (drop (i + length tag) pending) out
        | None =>
            let partial := partialTagSuffix pending CLOSE_TAGS true in
            Some (Filter true (drop (length pending - partial) pending), out)
        end
      else
        match indexOfTag pending OPEN_TAGS true with
        | Some (i, tag) => push_loop fuel true (drop (i + length tag) pending) (out ++ take i pending)
        | None =>
            let partial := partialTagSuffix pending OPEN_TAGS true in
            let safeLength := (length pending - partial)%nat in
            Some (Filter false (drop safeLength pending), out ++ take safeLength pending)
        end
  end.

Definition push (t : text) (f : ReasoningTagFilter) : option (ReasoningTagFilter * text) :=
  let p := pending f ++ t in push_loop (S (length p)) (insideReasoning f) p [].

Definition flush (f : ReasoningTagFilter) : ReasoningTagFilter * text :=
  (createReasoningTagFilter, if insideReasoning f then [] else pending f).

(** A turn: every delta is pushed, then the filter is flushed. *)
Fixpoint speak (deltas : list text) (f : ReasoningTagFilter) : option text :=
  match deltas with
  | [] => Some (flush f).2
  | d :: ds => '(f, out) ← push d f; rest ← speak ds f; Some (out ++ rest)
  end.

Example speak_demo :
  speak [lit "Hi <thi"; lit "nk>secret</THINK"; lit "ing> there <thin"; lit " air"] createReasoningTagFilter =
  Some (lit "Hi  there <thin air").
Proof. by vm_compute. Qed.

(** ** What the scanner finds *)
Section scanning.
Context (tags : list text) (ci : bool).
Implicit Types (h p q u v t : text).

Lemma tagMatchesAt_spec h i t :
  tagMatchesAt h i t ci = true ↔ (i + length t ≤ length h)%nat ∧ t `prefix_of` drop i (foldedCharCode ci <$> h).
Proof.
  unfold tagMatchesAt. destruct (Nat.ltb_spec (length h) (i + length t)) as [Hl|Hl]; [split; [done|lia]|].
  rw forallb_forall. split.
  - intros Hall. split; [done|]. exists (drop (i + length t) (foldedCharCode ci <$> h)).
    apply list_eq. intros k. rw lookup_drop. destruct (decide (k < length t)%nat) as [Hk|Hk].
    + rw lookup_app_l //. specialize (Hall k). rw in_seq in Hall.
      specialize (Hall ltac:(lia)). apply Z.eqb_eq in Hall.
      destruct (lookup_lt_is_Some_2 h (i + k)) as [x Hx]; [lia|].
      destruct (lookup_lt_is_Some_2 t k Hk) as [y Hy].
      rw list_lookup_fmap Hx Hy. simpl. f_equal.
      by rw (nth_lookup_Some _ _ _ _ Hx) (nth_lookup_Some _ _ _ _ Hy) in Hall.
    + rw lookup_app_r; [|lia]. rw lookup_drop. f_equal. lia.
  - intros [_ [r Hr]] k Hk%in_seq. apply Z.eqb_eq.
    destruct (lookup_lt_is_Some_2 h (i + k)) as [x Hx]; [lia|].
    destruct (lookup_lt_is_Some_2 t k) as [y Hy]; [lia|].
    rw (nth_lookup_Some _ _ _ _ Hx) (nth_lookup_Some _ _ _ _ Hy).
    assert (drop i (foldedCharCode ci <$> h) !! k = Some y) as Hd by (rw Hr; by apply lookup_app_l_Some).
    rw lookup_drop list_lookup_fmap Hx in Hd. by injection Hd.
Qed.

Lemma matches_shift u h i t : tagMatchesAt (u ++ h) (length u + i) t ci = tagMatchesAt h i t ci.
Proof.
  apply eq_true_iff_eq. rw !tagMatchesAt_spec length_app fmap_app.
  rw -(length_fmap (foldedCharCode ci) u) drop_app_add length_fmap. split; intros [H1 H2]; (split; [lia|done]).
Qed.

(** A match that ends inside [p] does not depend on what follows. *)
Lemma matches_app_l p q i t :
  (i + length t ≤ length p)%nat → tagMatchesAt (p ++ q) i t ci = tagMatchesAt p i t ci.
Proof.
  intros Hl. unfold tagMatchesAt. rw length_app.
  destruct (Nat.ltb_spec (length p + length q) (i + length t)); [lia|].
  destruct (Nat.ltb_spec (length p) (i + length t)); [lia|].
  apply eq_true_iff_eq. rw !forallb_forall.
  split; intros Hall k Hk; specialize (Hall k Hk); apply in_seq in Hk;
    [rw -(app_nth1 p q); [done|lia]|rw app_nth1; [done|lia]].
Qed.

Lemma bestTag_None h i : bestTag h i tags ci = None ↔ ∀ t, t ∈ tags → tagMatchesAt h i t ci = false.
Proof.
  unfold bestTag. assert (∀ best,
    foldl (λ best tag, if tagMatchesAt h i tag ci then longest_so_far best tag else best) best tags = None ↔
    best = None ∧ ∀ t, t ∈ tags → tagMatchesAt h i t ci = false) as Hgen; [|rw Hgen; naive_solver].
  induction tags as [|t ts IH]; intros best; simpl.
  { split; [intros ->; split; [done|]; intros t Ht; by apply not_elem_of_nil in Ht|naive_solver]. }
  rw IH. destruct (tagMatchesAt h i t ci) eqn:Ht.
  - split.
    + intros [Hb _]. exfalso. destruct best; simpl in Hb; [by destruct (_ <? _)%nat|done].
    + intros [_ Hall]. specialize (Hall t (list_elem_of_here _ _)). congruence.
  - split; intros [-> Hall]; (split; [done|]).
    + intros t' [->|Ht']%elem_of_cons; [done|by apply Hall].
    + intros t' Ht'. apply Hall. by apply list_elem_of_further.
Qed.

Lemma bestTag_ext h h' i i' :
  (∀ t, t ∈ tags → tagMatchesAt h i t ci = tagMatchesAt h' i' t ci) →
  bestTag h i tags ci = bestTag h' i' tags ci.
Proof.
  unfold bestTag. generalize (None : option text) as best. induction tags as [|t ts IH]; intros best Hall; simpl; [done|].
  rw (Hall t); [|by apply list_elem_of_here]. apply IH. intros t' Ht'. apply Hall. by apply list_elem_of_further.
Qed.

Lemma bestTag_Some h i t :
  bestTag h i tags ci = Some t → t ∈ tags ∧ tagMatchesAt h i t ci = true.
Proof.
  unfold bestTag. assert (∀ best,
    foldl (λ best tag, if tagMatchesAt h i tag ci then longest_so_far best tag else best) best tags = Some t →
    best = Some t ∨ (t ∈ tags ∧ tagMatchesAt h i t ci = true)) as Hgen.
  2: { intros H. by destruct (Hgen None H). }
  induction tags as [|t' ts IH]; intros best; simpl; [by left|].
  intros [Hb|[? ?]]%IH; [|right; split; [by apply list_elem_of_further|done]].
  destruct (tagMatchesAt h i t' ci) eqn:Ht; [|by left].
  destruct best as [b|]; simpl in Hb; [destruct (_ <? _)%nat; [|by left]|]; injection Hb as ->;
    right; (split; [by apply list_elem_of_here|done]).
Qed.

Lemma index_from_spec h starts : ∀ r,
  index_from h tags ci starts = r →
  match r with
  | None => ∀ i, i ∈ starts → bestTag h i tags ci = None
  | Some (i, t) => ∃ l1 l2, starts = l1 ++ i :: l2 ∧ bestTag h i tags ci = Some t ∧
      ∀ j, j ∈ l1 → bestTag h j tags ci = None
  end.
Proof.
  induction starts as [|i starts IH]; intros r; simpl.
  { intros <- i Hi. by apply not_elem_of_nil in Hi. }
  destruct (bestTag h i tags ci) as [t|] eqn:Hb.
  { intros <-. exists [], starts. split_and!; [done|done|]. intros j Hj. by apply not_elem_of_nil in Hj. }
  intros Hr. specialize (IH r Hr). destruct r as [[j t]|].
  - destruct IH as (l1 & l2 & -> & Hj & Hl). exists (i :: l1), l2. split_and!; [done|done|].
    by intros k [->|Hk]%elem_of_cons; auto.
  - by intros k [->|Hk]%elem_of_cons; auto.
Qed.

Lemma indexOfTag_None h :
  indexOfTag h tags ci = None ↔ ∀ i, (i < length h)%nat → bestTag h i tags ci = None.
Proof.
  unfold indexOfTag. split.
  - intros Hr i Hi. apply (index_from_spec _ _ _ Hr). apply elem_of_seq. lia.
  - intros Hall. destruct (index_from h tags ci (seq 0 (length h))) as [[i t]|] eqn:Hr; [|done].
    destruct (index_from_spec _ _ _ Hr) as (l1 & l2 & Hl & Hb & _). exfalso.
    assert (i ∈ seq 0 (length h)) as Hi by (rw Hl; apply elem_of_app; right; apply list_elem_of_here).
    apply elem_of_seq in Hi. rw Hall in Hb; [done|lia].
Qed.

Lemma seq_split_before n i l1 l2 : seq 0 n = l1 ++ i :: l2 → l1 = seq 0 i ∧ (i < n)%nat.
Proof.
  intros Hl. assert (length l1 = i) as Hlen.
  { assert (seq 0 n !! length l1 = Some i) as Hi by (rw Hl; by apply list_lookup_middle).
    apply lookup_seq in Hi. lia. }
  assert (i < n)%nat.
  { apply (f_equal length) in Hl. rw length_seq length_app /= in Hl. lia. }
  split; [|done]. assert (take i (seq 0 n) = l1) as <- by (by rw Hl -Hlen take_app_length).
  rw take_seq. f_equal. lia.
Qed.

Lemma indexOfTag_Some h i t :
  indexOfTag h tags ci = Some (i, t) ↔
  (i < length h)%nat ∧ bestTag h i tags ci = Some t ∧ ∀ j, (j < i)%nat → bestTag h j tags ci = None.
Proof.
  unfold indexOfTag. split.
  - intros Hr. destruct (index_from_spec _ _ _ Hr) as (l1 & l2 & Hl & Hb & Hj).
    destruct (seq_split_before _ _ _ _ Hl) as [-> Hi]. split_and!; [done|done|].
    intros j Hlt. apply Hj, elem_of_seq. lia.
  - intros (Hi & Hb & Hj).
    destruct (index_from h tags ci (seq 0 (length h))) as [[i' t']|] eqn:Hr.
    + destruct (index_from_spec _ _ _ Hr) as (l1 & l2 & Hl & Hb' & Hj').
      destruct (seq_split_before _ _ _ _ Hl) as [-> Hi'].
      destruct (lt_eq_lt_dec i i') as [[Hlt| ->]|Hlt].
      * rw Hj' in Hb; [done|]. apply elem_of_seq. lia.
      * by rw Hb in Hb'; injection Hb' as ->.
      * by rw Hj in Hb'.
    + rw (index_from_spec _ _ _ Hr i) in Hb; [done|]. apply elem_of_seq. lia.
Qed.

(** ** Partial tags *)

Lemma partial_from_spec t n :
  let m := partial_from t tags ci n in
  (m ≤ n)%nat ∧ (m = O ∨ partial_at t tags ci m = true) ∧
  ∀ k, (m < k ≤ n)%nat → partial_at t tags ci k = false.
Proof.
  induction n as [|n (IH1 & IH2 & IH3)]; simpl; [split_and!; [done|by left|lia]|].
  destruct (partial_at t tags ci (S n)) eqn:Hp; [split_and!; [done|by right|lia]|].
  split_and!; [lia|done|]. intros k Hk. destruct (decide (k = S n)) as [->|]; [done|]. apply IH3. lia.
Qed.

Lemma partial_at_spec t n :
  partial_at t tags ci n = true ↔
  ∃ tag, tag ∈ tags ∧ (n < length tag)%nat ∧ tagMatchesAt t (length t - n) (take n tag) ci = true.
Proof.
  unfold partial_at. rw existsb_exists. split.
  - intros (tag & Ht & [Hl Hm]%andb_true_iff). exists tag.
    apply Nat.ltb_lt in Hl. split_and!; [by apply list_elem_of_In|done|done].
  - intros (tag & Ht & Hl & Hm). exists tag. split; [by apply list_elem_of_In|].
    rw Hm andb_true_r. by apply Nat.ltb_lt.
Qed.

Lemma partialTagSuffix_spec t m :
  partialTagSuffix t tags ci = m ↔
  (m ≤ length t)%nat ∧ (m = O ∨ partial_at t tags ci m = true) ∧
  ∀ k, (m < k ≤ length t)%nat → partial_at t tags ci k = false.
Proof.
  assert (let m := partialTagSuffix t tags ci in
    (m ≤ length t)%nat ∧ (m = O ∨ partial_at t tags ci m = true) ∧
    ∀ k, (m < k ≤ length t)%nat → partial_at t tags ci k = false) as (H1 & H2 & H3).
  { unfold partialTagSuffix. cbv zeta.
    destruct (partial_from_spec t (Nat.min (length t) (pred (max_list (length <$> tags))))) as (H1 & H2 & H3).
    split_and!; [lia|done|]. intros k Hk.
    destruct (partial_at t tags ci k) eqn:Hp; [|done].
    rw -Hp. apply H3. split; [lia|]. apply partial_at_spec in Hp as (tag & Ht & Hl & _).
    assert (length tag ≤ max_list (length <$> tags))%nat as Hmax.
    { apply max_list_elem_of_le. by apply list_elem_of_fmap_2. }
    lia. }
  split; [by intros <-|]. intros (M1 & M2 & M3).
  destruct (lt_eq_lt_dec m (partialTagSuffix t tags ci)) as [[Hlt|Heq]|Hlt]; [|done|].
  - destruct H2 as [H2|H2]; [lia|]. rw M3 in H2; [done|lia].
  - destruct M2 as [M2|M2]; [lia|]. rw H3 in M2; [done|lia].
Qed.

Lemma matches_take h j t m : tagMatchesAt h j t ci = true → tagMatchesAt h j (take m t) ci = true.
Proof.
  rw !tagMatchesAt_spec. intros [H1 H2]. rw length_take. split; [lia|].
  etrans; [apply prefix_take|done].
Qed.

Lemma matches_lookup h i t k x :
  tagMatchesAt h i t ci = true → t !! k = Some x → (foldedCharCode ci <$> h) !! (i + k)%nat = Some x.
Proof.
  intros [_ [r Hr]]%tagMatchesAt_spec Hk. rw -lookup_drop Hr. by apply lookup_app_l_Some.
Qed.

Lemma bestTag_shift u h i : bestTag (u ++ h) (length u + i) tags ci = bestTag h i tags ci.
Proof. apply bestTag_ext. intros t _. apply matches_shift. Qed.

Lemma partial_at_shift u h n :
  (n ≤ length h)%nat → partial_at (u ++ h) tags ci n = partial_at h tags ci n.
Proof.
  intros Hn. apply eq_true_iff_eq. rw !partial_at_spec length_app.
  replace (length u + length h - n)%nat with (length u + (length h - n))%nat by lia.
  by setoid_rewrite matches_shift.
Qed.

(** ** Tags that cannot overlap *)

(** Every tag starts with a character it does not contain again, and none is a
    prefix of another. *)
Context (c : Z).
Context (Hhead : ∀ t, t ∈ tags → ∃ rest, t = c :: rest ∧ c ∉ rest).
Context (Hfree : ∀ t t', t ∈ tags → t' ∈ tags → t `prefix_of` t' → t = t').

Lemma bestTag_unique h i t :
  t ∈ tags → tagMatchesAt h i t ci = true → bestTag h i tags ci = Some t.
Proof.
  intros Ht Hm. destruct (bestTag h i tags ci) as [t'|] eqn:Hb.
  - apply bestTag_Some in Hb as [Ht' Hm'].
    apply tagMatchesAt_spec in Hm as [_ Hm], Hm' as [_ Hm']. f_equal.
    destruct (prefix_weak_total _ _ _ Hm Hm') as [Hp|Hp]; [symmetry|]; by apply Hfree.
  - rw bestTag_None in Hb. by rw Hb in Hm.
Qed.

(** A tag found stays found, whatever follows. *)
Lemma index_stable p q i t :
  indexOfTag p tags ci = Some (i, t) → indexOfTag (p ++ q) tags ci = Some (i, t).
Proof.
  rw !indexOfTag_Some. intros (Hi & Hb & Hj). apply bestTag_Some in Hb as [Ht Hm].
  pose proof (proj1 (tagMatchesAt_spec _ _ _) Hm) as [Hl _].
  assert (tagMatchesAt (p ++ q) i t ci = true) as Hm' by (by rw matches_app_l).
  split_and!; [rw length_app; lia|by apply bestTag_unique|].
  intros j Hlt. apply bestTag_None. intros t' Ht'.
  destruct (decide (j + length t' ≤ length p)%nat) as [Hle|Hgt].
  { rw matches_app_l //. specialize (Hj j Hlt). rw bestTag_None in Hj. by apply Hj. }
  destruct (tagMatchesAt (p ++ q) j t' ci) eqn:Hm2; [exfalso|done].
  destruct (lookup_lt_is_Some_2 t' (i - j)) as [x Hx]; [lia|].
  pose proof (matches_lookup _ _ _ _ _ Hm2 Hx) as Hx'.
  replace (j + (i - j))%nat with (i + 0)%nat in Hx' by lia.
  destruct (Hhead t Ht) as (rest & -> & _). destruct (Hhead t' Ht') as (rest' & -> & Hc).
  rw (matches_lookup _ _ _ 0 c Hm') // in Hx'. injection Hx' as <-.
  replace (i - j)%nat with (S (i - j - 1)) in Hx by lia. simpl in Hx.
  by apply Hc, list_elem_of_lookup_2 with (i - j - 1)%nat.
Qed.

Section held_back.
Context (p : text) (Hnone : indexOfTag p tags ci = None).

Notation n := (partialTagSuffix p tags ci).
Notation u := (take (length p - partialTagSuffix p tags ci) p).
Notation v := (drop (length p - partialTagSuffix p tags ci) p).

Lemma held_length : length u = (length p - n)%nat ∧ length v = n.
Proof.
  destruct (proj1 (partialTagSuffix_spec p n) eq_refl) as (H1 & _ & _).
  rw length_take length_drop. lia.
Qed.

Lemma held_app q : p ++ q = u ++ (v ++ q).
Proof. by rw app_assoc take_drop. Qed.

(** Nothing released can be the start of a tag. *)
Lemma no_partial_before q j t :
  (j < length u)%nat → t ∈ tags → (length p - j < length t)%nat →
  tagMatchesAt (p ++ q) j (take (length p - j) t) ci = false.
Proof.
  destruct held_length as [Hu _]. intros Hj Ht Hl. rw Hu in Hj.
  rw matches_app_l; [|rw length_take; lia].
  destruct (proj1 (partialTagSuffix_spec p n) eq_refl) as (_ & _ & H3).
  destruct (tagMatchesAt p j (take (length p - j) t) ci) eqn:Hm; [exfalso|done].
  assert (partial_at p tags ci (length p - j) = true) as Hp.
  { apply partial_at_spec. exists t. split_and!; [done|lia|].
    by replace (length p - (length p - j))%nat with j by lia. }
  rw H3 in Hp; [done|lia].
Qed.

Lemma no_tag_before q j : (j < length u)%nat → bestTag (p ++ q) j tags ci = None.
Proof.
  intros Hj. destruct held_length as [Hu _]. apply bestTag_None. intros t Ht.
  destruct (decide (j + length t ≤ length p)%nat) as [Hle|Hgt].
  { rw matches_app_l //. pose proof (proj1 (indexOfTag_None p) Hnone j ltac:(lia)) as Hb.
    rw bestTag_None in Hb. by apply Hb. }
  destruct (tagMatchesAt (p ++ q) j t ci) eqn:Hm; [|done].
  apply (matches_take _ _ _ (length p - j)) in Hm. rw no_partial_before in Hm; [done|done|done|lia].
Qed.

Lemma index_held q :
  indexOfTag (p ++ q) tags ci =
  match indexOfTag (v ++ q) tags ci with
  | Some (k, t) => Some ((length u + k)%nat, t)
  | None => None
  end.
Proof.
  destruct (indexOfTag (v ++ q) tags ci) as [[k t]|] eqn:Hi.
  - apply indexOfTag_Some in Hi as (Hk & Hb & Hj). apply indexOfTag_Some.
    rw {1 2}held_app bestTag_shift. split_and!; [rw length_app; lia|done|].
    intros j Hlt. destruct (decide (j < length u)%nat) as [?|?]; [by apply no_tag_before|].
    rw held_app. replace j with (length u + (j - length u))%nat by lia. rw bestTag_shift. apply Hj. lia.
  - rw indexOfTag_None in Hi. apply indexOfTag_None. intros j Hlt.
    destruct (decide (j < length u)%nat) as [?|?]; [by apply no_tag_before|].
    rw held_app length_app in Hlt.
    rw held_app. replace j with (length u + (j - length u))%nat by lia. rw bestTag_shift. apply Hi. lia.
Qed.

Lemma partial_held q : partialTagSuffix (p ++ q) tags ci = partialTagSuffix (v ++ q) tags ci.
Proof.
  destruct (proj1 (partialTagSuffix_spec (v ++ q) _) eq_refl) as (H1 & H2 & H3).
  apply partialTagSuffix_spec. rw held_app length_app. split_and!; [lia| |].
  - destruct H2 as [H2|H2]; [by left|right]. by rw partial_at_shift.
  - intros k Hk. destruct (decide (k ≤ length (v ++ q))%nat) as [Hle|Hgt].
    { rw partial_at_shift //. apply H3. lia. }
    destruct (partial_at (u ++ v ++ q) tags ci k) eqn:Hp; [exfalso|done].
    apply partial_at_spec in Hp as (t & Ht & Hl & Hm). rw -held_app in Hm.
    set (j := (length (p ++ q) - k)%nat) in Hm.
    assert (length (p ++ q) = length u + length (v ++ q))%nat as Hlen by (by rw held_app length_app).
    destruct held_length as [Hu Hv]. rw !length_app in Hlen Hgt. rw length_app in Hk.
    assert (j < length u)%nat as Hj by (unfold j; rw length_app; lia).
    apply (matches_take _ _ _ (length p - j)) in Hm. rw take_take Nat.min_l in Hm;
      [|unfold j; rw length_app; lia].
    rw no_partial_before in Hm; [done|done|done|]. unfold j. rw length_app. lia.
Qed.
End held_back.
End scanning.

(** ** The filter's tags *)

Definition tags_of (inside : bool) : list text := if inside then CLOSE_TAGS else OPEN_TAGS.

(** The code of [<]. *)
Definition angle : Z := 60.

Lemma tags_head inside t : t ∈ tags_of inside → ∃ rest, t = angle :: rest ∧ angle ∉ rest.
Proof.
  destruct inside; (intros [->|[->|Ht]%elem_of_cons]%elem_of_cons; [| |by apply not_elem_of_nil in Ht]);
    (eexists; split; [vm_compute; reflexivity|]); by apply (bool_decide_unpack _); vm_compute.
Qed.

Lemma tags_free inside t t' :
  t ∈ tags_of inside → t' ∈ tags_of inside → t `prefix_of` t' → t = t'.
Proof.
  intros Ht Ht' Hp. assert (Forall (λ t, Forall (λ t', t `prefix_of` t' → t = t') (tags_of inside)) (tags_of inside)) as Hall.
  { apply (bool_decide_unpack _). destruct inside; by vm_compute. }
  rw Forall_forall in Hall. specialize (Hall t Ht). rw Forall_forall in Hall. by apply Hall.
Qed.

Lemma tags_nonempty inside t : t ∈ tags_of inside → (0 < length t)%nat.
Proof. intros Ht. destruct (tags_head inside t Ht) as (rest & -> & _). simpl. lia. Qed.

(** ** The loop as a relation *)

Inductive scans : bool → text → ReasoningTagFilter → text → Prop :=
| scans_tag inside p i t f out :
    indexOfTag p (tags_of inside) true = Some (i, t) →
    scans (negb inside) (drop (i + length t) p) f out →
    scans inside p f ((if inside then [] else take i p) ++ out)
| scans_end inside p :
    indexOfTag p (tags_of inside) true = None →
    let safe := (length p - partialTagSuffix p (tags_of inside) true)%nat in
    scans inside p (Filter inside (drop safe p)) (if inside then [] else take safe p).

Lemma push_loop_scans inside p f out :
  scans inside p f out →
  ∀ fuel acc, (length p < fuel)%nat → push_loop fuel inside p acc = Some (f, acc ++ out).
Proof.
  induction 1 as [inside p i t f out Hi Hs IH|inside p Hi safe]; intros [|fuel] acc Hl; try lia; simpl.
  - apply indexOfTag_Some in Hi as Hi'. destruct Hi' as (Hlt & Hb & _).
    apply bestTag_Some in Hb as [Ht _]. apply tags_nonempty in Ht.
    assert (length (drop (i + length t) p) < fuel)%nat as Hl' by (rw length_drop; lia).
    destruct inside; simpl in Hi |- *; rw Hi; rw (IH fuel _ Hl'); by rw ?app_assoc.
  - destruct inside; simpl in Hi |- *; rw Hi; by rw ?app_nil_r.
Qed.

Lemma scans_total n : ∀ inside p, (length p < n)%nat → ∃ f out, scans inside p f out.
Proof.
  induction n as [|n IH]; intros inside p Hl; [lia|].
  destruct (indexOfTag p (tags_of inside) true) as [[i t]|] eqn:Hi.
  - apply indexOfTag_Some in Hi as Hi'. destruct Hi' as (Hlt & Hb & _).
    apply bestTag_Some in Hb as [Ht _]. apply tags_nonempty in Ht.
    destruct (IH (negb inside) (drop (i + length t) p)) as (f & out & Hs); [rw length_drop; lia|].
    eexists _, _. by eapply scans_tag.
  - eexists _, _. by apply scans_end.
Qed.

Lemma scans_any inside p : ∃ f out, scans inside p f out.
Proof. apply (scans_total (S (length p))). lia. Qed.

Lemma push_scans d f f' out :
  scans (insideReasoning f) (pending f ++ d) f' out → push d f = Some (f', out).
Proof. intros Hs. unfold push. by rw (push_loop_scans _ _ _ _ Hs); [|lia]. Qed.

(** Scanning in two steps is scanning at once. *)
Lemma scans_app inside p f1 o1 q f2 o2 :
  scans inside p f1 o1 → scans (insideReasoning f1) (pending f1 ++ q) f2 o2 →
  scans inside (p ++ q) f2 (o1 ++ o2).
Proof.
  induction 1 as [inside p i t f out Hi Hs IH|inside p Hi safe]; intros H2.
  - apply indexOfTag_Some in Hi as Hi'. destruct Hi' as (Hlt & Hb & _).
    apply bestTag_Some in Hb as [_ [Hl _]%tagMatchesAt_spec].
    rw -app_assoc. replace (if inside then [] else take i p) with (if inside then [] else take i (p ++ q))
      by (destruct inside; [done|rw take_app_le //; lia]).
    eapply scans_tag; [by apply (index_stable _ _ angle (tags_head inside) (tags_free inside))|].
    rw drop_app_le //. by apply IH.
  - simpl in H2. destruct (held_length (tags_of inside) true p) as [Hu Hv].
    pose proof (index_held (tags_of inside) true p Hi q) as Hix.
    pose proof (partial_held (tags_of inside) true p q) as Hpa.
    pose proof (held_app (tags_of inside) true p q) as Happ.
    fold safe in Hix, Hpa, Happ, Hu, Hv.
    set (u := take safe p) in *. set (v := drop safe p) in *.
    inversion H2 as [? ? k t ? out Hk Hs|? ? Hk safe']; subst; clear H2; rw Hk in Hix.
    + pose proof (scans_tag inside (p ++ q) (length u + k) t f2 out Hix) as Ht.
      rw {1 3}Happ -Nat.add_assoc drop_app_add take_app_add in Ht. specialize (Ht Hs).
      destruct inside; [exact Ht|]. by rw app_assoc.
    + assert (length (p ++ q) = length u + length (v ++ q))%nat as Hlen by (by rw Happ length_app).
      destruct (proj1 (partialTagSuffix_spec (tags_of inside) true (v ++ q) _) eq_refl) as (Hle & _).
      assert (length (p ++ q) - partialTagSuffix (p ++ q) (tags_of inside) true =
              length u + (length (v ++ q) - partialTagSuffix (v ++ q) (tags_of inside) true))%nat as Hsafe.
      { rw Hpa Hlen. lia. }
      pose proof (scans_end inside (p ++ q) Hix) as He. cbv zeta in He. rw Hsafe in He.
      rw {2 3}Happ in He. rw drop_app_add take_app_add in He.
      destruct inside; exact He.
Qed.

(** A filter between two deltas holds back what it must. *)
Definition settled (f : ReasoningTagFilter) : Prop := scans (insideReasoning f) (pending f) f [].

Lemma scans_settled inside p f out : scans inside p f out → settled f.
Proof.
  induction 1 as [|inside p Hi safe]; [done|].
  pose proof (index_held (tags_of inside) true p Hi []) as Hix.
  pose proof (partial_held (tags_of inside) true p []) as Hpa.
  destruct (held_length (tags_of inside) true p) as [_ Hv].
  fold safe in Hix, Hpa, Hv. rw !app_nil_r in Hix, Hpa.
  assert (indexOfTag (drop safe p) (tags_of inside) true = None) as Hn.
  { rw Hi in Hix. by destruct (indexOfTag (drop safe p) _ _) as [[??]|]. }
  unfold settled. simpl. pose proof (scans_end inside (drop safe p) Hn) as He. cbv zeta in He.
  rw -Hpa Hv Nat.sub_diag drop_0 take_0 in He. by destruct inside.
Qed.

Lemma speak_concat deltas : ∀ f, settled f → speak deltas f = speak [concat deltas] f.
Proof.
  induction deltas as [|d ds IH]; intros f Hf.
  - simpl. rw (push_scans [] f f []); [|by rw app_nil_r]. done.
  - destruct (scans_any (insideReasoning f) (pending f ++ d)) as (f1 & o1 & H1).
    simpl. rw (push_scans _ _ _ _ H1). simpl.
    rw IH; [|by eapply scans_settled].
    destruct (scans_any (insideReasoning f1) (pending f1 ++ concat ds)) as (f2 & o2 & H2).
    simpl. rw (push_scans _ _ _ _ H2). simpl.
    rw (push_scans (d ++ concat ds) f f2 (o1 ++ o2)); [|rw app_assoc; by eapply scans_app].
    by rw /= -app_assoc.
Qed.

Lemma settled_initial : settled createReasoningTagFilter.
Proof. by apply (scans_end false []). Qed.

Lemma speak_one t f out :
  scans false t f out → speak [t] createReasoningTagFilter = Some (out ++ (flush f).2).
Proof.
  intros Hs. simpl. by rw (push_scans t createReasoningTagFilter f out).
Qed.

(** ** Theorems *)

(** C34 — What is spoken does not depend on how the stream was cut: every turn
    is filtered without running out of steps, and any sequence of deltas gives
    the text that the whole message would give in one piece — although tags
    and reasoning may be split anywhere. *)
Theorem filter_ignores_chunking (deltas : list text) :
  ∃ out, speak deltas createReasoningTagFilter = Some out ∧
    speak [concat deltas] createReasoningTagFilter = Some out.
Proof.
  destruct (scans_any false (concat deltas)) as (f & out & Hs). exists (out ++ (flush f).2).
  by rw (speak_concat _ _ settled_initial) (speak_one _ _ _ Hs).
Qed.

(** Reasoning is never spoken: when [o] is the first opening tag of a
    message and [c] the first closing tag after it, in any mix of upper and
    lower case and however the message is cut into deltas, the text before
    [o] is spoken verbatim, nothing between the two is, and what follows [c]
    is filtered on its own; without a closing tag nothing after [o] is spoken. *)
Theorem reasoning_is_never_spoken (deltas : list text) (a o r c b t t' : text) :
  indexOfTag (a ++ o) OPEN_TAGS true = Some (length a, t) → length o = length t →
  (concat deltas = a ++ o ++ r → indexOfTag r CLOSE_TAGS true = None →
   speak deltas createReasoningTagFilter = Some a) ∧
  (concat deltas = a ++ o ++ r ++ c ++ b →
   indexOfTag (r ++ c) CLOSE_TAGS true = Some (length r, t') → length c = length t' →
   ∃ rest, speak [b] createReasoningTagFilter = Some rest ∧
     speak deltas createReasoningTagFilter = Some (a ++ rest)).
Proof.
  intros Ho Hlo.
  assert (∀ x f out, scans true x f out → scans false (a ++ o ++ x) f (a ++ out)) as Hopen.
  { intros x f out Hs. rw (app_assoc a o x).
    pose proof (scans_tag false ((a ++ o) ++ x) (length a) t f out
      (index_stable OPEN_TAGS true angle (tags_head false) (tags_free false) (a ++ o) x _ _ Ho)) as H.
    rw -Hlo -length_app drop_app_length -app_assoc take_app_length in H. rw -app_assoc. by apply H. }
  split.
  - intros Hc Hr. pose proof (Hopen r _ _ (scans_end true r Hr)) as Hs. rw app_nil_r -Hc in Hs.
    rw (speak_concat _ _ settled_initial) (speak_one _ _ _ Hs). by rw /= app_nil_r.
  - intros Hc Hr Hlc. destruct (scans_any false b) as (f & out & Hs).
    exists (out ++ (flush f).2). split; [by apply speak_one|].
    pose proof (scans_tag true ((r ++ c) ++ b) (length r) t' f out
      (index_stable CLOSE_TAGS true angle (tags_head true) (tags_free true) (r ++ c) b _ _ Hr)) as H.
    rw -Hlc -length_app drop_app_length /= in H. specialize (Hopen _ _ _ (H Hs)).
    rw -(app_assoc r) -Hc in Hopen.
    by rw (speak_concat _ _ settled_initial) (speak_one _ _ _ Hopen) app_assoc.
Qed.

(** A message without an opening tag is spoken verbatim, up to the last
    character. *)
Theorem untagged_text_is_spoken (deltas : list text) :
  indexOfTag (concat deltas) OPEN_TAGS true = None →
  speak deltas createReasoningTagFilter = Some (concat deltas).
Proof.
  intros Hn. pose proof (scans_end false (concat deltas) Hn) as Hs.
  rw (speak_concat _ _ settled_initial) (speak_one _ _ _ Hs). by rw /= take_drop.
Qed.

Lemma reasoning_is_never_spoken_witness :
  let deltas := [lit "Well <TH"; lit "ink>2 < 3, so</thi"; lit "nkin"; lit "g>yes"] in
  speak deltas createReasoningTagFilter = Some (lit "Well yes") ∧
  ∃ rest, speak [lit "yes"] createReasoningTagFilter = Some rest ∧
    speak deltas createReasoningTagFilter = Some (lit "Well " ++ rest).
Proof.
  split; [by vm_compute|].
  apply (reasoning_is_never_spoken _ (lit "Well ") (lit "<THink>") (lit "2 < 3, so") (lit "</thinking>")
    (lit "yes") (lit "<think>") (lit "</thinking>")); by vm_compute.
Defined.

Lemma untagged_text_is_spoken_witness :
  speak [lit "a <thin"; lit " line"] createReasoningTagFilter = Some (lit "a <thin line").
Proof. apply (untagged_text_is_spoken [lit "a <thin"; lit " line"]). by vm_compute. Defined.
