(* ===== verification/LineDiff.v ===== *)
(** * Line diff of the file view

    [clients/web/src/domains/chat/components/compute-line-diff.ts]: a table of
    longest-common-subsequence lengths of suffixes, and a walk through it that
    classifies every line as added, removed or unchanged. *)

From S2P Require Import Prelude.

Inductive DiffRow :=
| Add (text : string) (newNo : nat)
| Del (text : string) (oldNo : nat)
| Ctx (text : string) (oldNo newNo : nat)
| Too_large (text : string).

Definition MAX_DIFF_LINES : nat := 2000.

Definition newline : ascii := ascii_of_nat 10.

(** [s.split("\n")]; [acc] is the segment read so far. *)
Fixpoint split_newlines (acc s : string) : list string :=
  match s with
  | EmptyString => [acc]
  | String a s =>
      if bool_decide (a = newline) then acc :: split_newlines EmptyString s
      else split_newlines (acc +:+ String a EmptyString) s
  end.

(** [text.endsWith("\n")] *)
Fixpoint ends_with_newline (s : string) : bool :=
  match s with
  | EmptyString => false
  | String a EmptyString => bool_decide (a = newline)
  | String _ s => ends_with_newline s
  end.

Definition splitLines (text : string) : list string :=
  if bool_decide (text = EmptyString) then []
  else
    let lines := split_newlines EmptyString text in
    if ends_with_newline text then take (pred (length lines)) lines else lines.

(** One turn of the outer loop: the row of line [a] from the row [below] it,
    written from right to left. *)
Fixpoint next_row (a : string) (newLines : list string) (below : list nat) : list nat :=
  match newLines with
  | [] => [0%nat]
  | b :: newLines =>
      let row := next_row a newLines (tail below) in
      (if bool_decide (a = b) then S (nth 0 (tail below) 0%nat)
       else Nat.max (nth 0 below 0%nat) (nth 0 row 0%nat)) :: row
  end.

Fixpoint table (oldLines newLines : list string) : list (list nat) :=
  match oldLines with
  | [] => [replicate (S (length newLines)) 0%nat]
  | a :: oldLines =>
      let rows := table oldLines newLines in
      next_row a newLines (nth 0 rows []) :: rows
  end.

Definition entry (dp : list (list nat)) (i j : nat) : nat := nth j (nth i dp []) 0%nat.

(** The walk.  [olds] and [news] are the lines from [i] and [j] on; [None] when
    the fuel runs out. *)
Fixpoint walk (fuel : nat) (dp : list (list nat)) (i j : nat) (olds news : list string)
    : option (list DiffRow) :=
  match olds, news with
  | a :: olds', b :: news' =>
      match fuel with
      | O => None
      | S fuel =>
          if bool_decide (a = b) then
            (Ctx a (i + 1) (j + 1) ::.) <$> walk fuel dp (i + 1) (j + 1) olds' news'
          else if (entry dp i (j + 1) <=? entry dp (i + 1) j)%nat then
            (Del a (i + 1) ::.) <$> walk fuel dp (i + 1) j olds' news
          else (Add b (j + 1) ::.) <$> walk fuel dp i (j + 1) olds news'
      end
  | _, _ =>
      Some (imap (λ k a, Del a (i + k + 1)) olds ++ imap (λ k b, Add b (j + k + 1)) news)
  end.

Definition lcsDiff (oldLines newLines : list string) : option (list DiffRow) :=
  walk (length oldLines + length newLines) (table oldLines newLines) 0 0 oldLines newLines.

(** [MAX_DIFF_LINES.toLocaleString()] in the default locale. *)
Definition too_large : DiffRow := Too_large "Diff too large to render (over 2,000 lines)".

Definition computeLineDiff (oldText newText : string) : option (list DiffRow) :=
  let oldLines := splitLines oldText in
  let newLines := splitLines newText in
  if (MAX_DIFF_LINES <? length oldLines)%nat || (MAX_DIFF_LINES <? length newLines)%nat
  then Some [too_large]
  else match oldLines, newLines with
       | [], _ => Some (imap (λ k b, Add b (k + 1)) newLines)
       | _, [] => Some (imap (λ k a, Del a (k + 1)) oldLines)
       | _, _ => lcsDiff oldLines newLines
       end.

Example lcsDiff_demo :
  lcsDiff ["a"; "b"; "c"] ["b"; "x"; "c"] =
  Some [Del "a" 1; Ctx "b" 2 1; Add "x" 2; Ctx "c" 3 3].
Proof. by vm_compute. Qed.

(** ** The longest common subsequence *)

Fixpoint lcs (l1 : list string) : list string → nat :=
  match l1 with
  | [] => λ _, 0%nat
  | a :: l1' =>
      fix inner l2 :=
        match l2 with
        | [] => 0%nat
        | b :: l2' =>
            if bool_decide (a = b) then S (lcs l1' l2') else Nat.max (lcs l1' l2) (inner l2')
        end
  end.

Lemma lcs_nil_r l1 : lcs l1 [] = 0%nat.
Proof. by destruct l1. Qed.

Lemma lcs_cons a l1 b l2 :
  lcs (a :: l1) (b :: l2) =
  if bool_decide (a = b) then S (lcs l1 l2) else Nat.max (lcs l1 (b :: l2)) (lcs (a :: l1) l2).
Proof. done. Qed.

(** It is the length of a longest one. *)
Lemma lcs_maximal l1 : ∀ l2 s, s `sublist_of` l1 → s `sublist_of` l2 → (length s ≤ lcs l1 l2)%nat.
Proof.
  induction l1 as [|a l1 IH1]; intros l2 s H1 H2.
  { by apply sublist_nil_r in H1 as ->. }
  induction l2 as [|b l2 IH2] in s, H1, H2 |- *.
  { apply sublist_nil_r in H2 as ->. simpl. lia. }
  rw lcs_cons. case_bool_decide as Hab.
  - subst b. destruct s as [|x s]; [simpl; lia|]. apply le_n_S, IH1.
    + apply sublist_cons_r in H1 as [H1|(l & Hl & H1)]; [by eapply sublist_cons_l in H1 as (? & ? & -> & ?); apply sublist_inserts_l, sublist_cons|].
      by simplify_eq.
    + apply sublist_cons_r in H2 as [H2|(l & Hl & H2)]; [by eapply sublist_cons_l in H2 as (? & ? & -> & ?); apply sublist_inserts_l, sublist_cons|].
      by simplify_eq.
  - apply sublist_cons_r in H1 as H1'. destruct H1' as [H1'|(s' & -> & H1')].
    + specialize (IH1 (b :: l2) s H1' H2). lia.
    + apply sublist_cons_r in H2 as [H2|(? & [= ? ?] & _)]; [|done].
      specialize (IH2 (a :: s') H1 H2). lia.
Qed.

(** ** The table *)

(** The row of the suffix [l1]. *)
Fixpoint lcs_row (l1 l2 : list string) : list nat :=
  lcs l1 l2 :: match l2 with [] => [] | _ :: l2' => lcs_row l1 l2' end.

Lemma lcs_row_nth l1 l2 : ∀ j, (j ≤ length l2)%nat → nth j (lcs_row l1 l2) 0%nat = lcs l1 (drop j l2).
Proof.
  induction l2 as [|b l2 IH]; intros [|j] Hj; try done; [simpl in Hj; lia|].
  simpl. apply IH. simpl in Hj. lia.
Qed.

Lemma lcs_row_nil l2 : lcs_row [] l2 = replicate (S (length l2)) 0%nat.
Proof. induction l2 as [|b l2 IH]; [done|]. simpl. by rw IH. Qed.

Lemma next_row_spec a l1 l2 : next_row a l2 (lcs_row l1 l2) = lcs_row (a :: l1) l2.
Proof.
  induction l2 as [|b l2 IH]; [done|]. simpl next_row. rw IH.
  change (lcs_row (a :: l1) (b :: l2)) with (lcs (a :: l1) (b :: l2) :: lcs_row (a :: l1) l2).
  rw lcs_cons. f_equal. by destruct l2; case_bool_decide.
Qed.

Lemma table_nth l1 l2 : ∀ i, (i ≤ length l1)%nat → nth i (table l1 l2) [] = lcs_row (drop i l1) l2.
Proof.
  induction l1 as [|a l1 IH]; intros i Hi.
  { destruct i; [by rw lcs_row_nil|simpl in Hi; lia]. }
  destruct i as [|i]; simpl.
  - rw (IH 0%nat); [|lia]. rw drop_0. apply next_row_spec.
  - apply IH. simpl in Hi. lia.
Qed.

(** [dp[i][j]] is the length for the suffixes from [i] and [j] on. *)
Lemma entry_spec l1 l2 i j :
  (i ≤ length l1)%nat → (j ≤ length l2)%nat → entry (table l1 l2) i j = lcs (drop i l1) (drop j l2).
Proof. intros Hi Hj. unfold entry. by rw table_nth // lcs_row_nth. Qed.

(** ** The walk *)

(** What a row contributes to either side. *)
Definition old_line (r : DiffRow) : option (nat * string) :=
  match r with Del t n | Ctx t n _ => Some (n, t) | _ => None end.
Definition new_line (r : DiffRow) : option (nat * string) :=
  match r with Add t n | Ctx t _ n => Some (n, t) | _ => None end.
Definition is_ctx (r : DiffRow) : bool := match r with Ctx _ _ _ => true | _ => false end.

(** The lines with their numbers, counted from [i]. *)
Definition numbered (i : nat) (l : list string) : list (nat * string) :=
  imap (λ k t, ((i + k + 1)%nat, t)) l.

Lemma numbered_cons i a l : numbered i (a :: l) = ((i + 1)%nat, a) :: numbered (i + 1) l.
Proof.
  unfold numbered. rw imap_cons Nat.add_0_r. f_equal. apply imap_ext. intros k t _. simpl. f_equal. lia.
Qed.

(** The final rows, once one side is exhausted. *)
Lemma rest_rows i j olds news :
  let rows := imap (λ k a, Del a (i + k + 1)) olds ++ imap (λ k b, Add b (j + k + 1)) news in
  omap old_line rows = numbered i olds ∧ omap new_line rows = numbered j news ∧
  filter (λ r, is_ctx r = true) rows = [].
Proof.
  cbv zeta. rw !omap_app filter_app.
  assert (∀ i l, omap old_line (imap (λ k a, Del a (i + k + 1)) l) = numbered i l ∧
    omap new_line (imap (λ k a, Del a (i + k + 1)) l) = [] ∧
    filter (λ r, is_ctx r = true) (imap (λ k a, Del a (i + k + 1)) l) = []) as Hdel.
  { intros i' l. revert i'. induction l as [|a l IH]; intros i'; [done|].
    rw imap_cons numbered_cons Nat.add_0_r.
    rw (imap_ext _ (λ k a, Del a (i' + 1 + k + 1)) l); [|intros k t _; simpl; f_equal; lia].
    rw filter_cons /=.
    destruct (IH (i' + 1)%nat) as (I1 & I2 & I3).
    split_and!; [first [exact I1|by f_equal]|first [exact I2|by f_equal]|exact I3]. }
  assert (∀ j l, omap old_line (imap (λ k b, Add b (j + k + 1)) l) = [] ∧
    omap new_line (imap (λ k b, Add b (j + k + 1)) l) = numbered j l ∧
    filter (λ r, is_ctx r = true) (imap (λ k b, Add b (j + k + 1)) l) = []) as Hadd.
  { intros j' l. revert j'. induction l as [|a l IH]; intros j'; [done|].
    rw imap_cons numbered_cons Nat.add_0_r.
    rw (imap_ext _ (λ k a, Add a (j' + 1 + k + 1)) l); [|intros k t _; simpl; f_equal; lia].
    rw filter_cons /=.
    destruct (IH (j' + 1)%nat) as (I1 & I2 & I3).
    split_and!; [first [exact I1|by f_equal]|first [exact I2|by f_equal]|exact I3]. }
  destruct (Hdel i olds) as (-> & -> & ->), (Hadd j news) as (-> & -> & ->). by rw app_nil_r.
Qed.

Definition faithful (i j : nat) (olds news : list string) (rows : list DiffRow) : Prop :=
  omap old_line rows = numbered i olds ∧ omap new_line rows = numbered j news ∧
  length (filter (λ r, is_ctx r = true) rows) = lcs olds news.

Lemma faithful_ctx i j a olds news rows :
  faithful (i + 1) (j + 1) olds news rows →
  faithful i j (a :: olds) (a :: news) (Ctx a (i + 1) (j + 1) :: rows).
Proof.
  unfold faithful. rw !numbered_cons lcs_cons bool_decide_eq_true_2 // filter_cons_True //.
  intros (<- & <- & <-). by split_and!.
Qed.

Lemma faithful_del i j a olds news rows :
  lcs (a :: olds) news = lcs olds news →
  faithful (i + 1) j olds news rows → faithful i j (a :: olds) news (Del a (i + 1) :: rows).
Proof.
  unfold faithful. rw !numbered_cons. intros ->. rw filter_cons_False //.
  intros (<- & <- & <-). by split_and!.
Qed.

Lemma faithful_add i j b olds news rows :
  lcs olds (b :: news) = lcs olds news →
  faithful i (j + 1) olds news rows → faithful i j olds (b :: news) (Add b (j + 1) :: rows).
Proof.
  unfold faithful. rw !numbered_cons. intros ->. rw filter_cons_False //.
  intros (<- & <- & <-). by split_and!.
Qed.

Lemma faithful_rest i j olds news :
  olds = [] ∨ news = [] →
  faithful i j olds news
    (imap (λ k a, Del a (i + k + 1)) olds ++ imap (λ k b, Add b (j + k + 1)) news).
Proof.
  intros Hnil. destruct (rest_rows i j olds news) as (H1 & H2 & H3).
  split; [exact H1|]. split; [exact H2|]. rw H3. destruct Hnil as [-> | ->]; [done|by rw lcs_nil_r].
Qed.

Lemma drop_next {A} (l : list A) i a rest : drop i l = a :: rest → drop (i + 1) l = rest.
Proof. intros H. by rw -drop_drop H. Qed.

Lemma drop_cons_lt {A} (l : list A) i a rest : drop i l = a :: rest → (i < length l)%nat.
Proof. intros H. apply (f_equal length) in H. rw length_drop /= in H. lia. Qed.

Lemma walk_spec l1 l2 fuel : ∀ i j olds news,
  drop i l1 = olds → drop j l2 = news → (length olds + length news ≤ fuel)%nat →
  ∃ rows, walk fuel (table l1 l2) i j olds news = Some rows ∧ faithful i j olds news rows.
Proof.
  induction fuel as [|fuel IH]; intros i j [|a olds] [|b news] H1 H2 Hf;
    try (simpl in Hf; lia);
    try (eexists; split; [reflexivity|]; by apply faithful_rest; auto).
  pose proof (drop_cons_lt _ _ _ _ H1). pose proof (drop_cons_lt _ _ _ _ H2).
  simpl in Hf. simpl walk. destruct (decide (a = b)) as [<-|Hab].
  - rw bool_decide_eq_true_2 //.
    destruct (IH (i + 1)%nat (j + 1)%nat olds news) as (rows & -> & Hr);
      [by eapply drop_next..|lia|]. eexists. split; [reflexivity|]. by apply faithful_ctx.
  - rw bool_decide_eq_false_2 //. rw !entry_spec; [|lia..].
    rw (drop_next _ _ _ _ H1) (drop_next _ _ _ _ H2) H1 H2.
    pose proof (lcs_cons a olds b news) as Hl. rw bool_decide_eq_false_2 // in Hl.
    destruct (Nat.leb_spec (lcs (a :: olds) news) (lcs olds (b :: news))).
    + destruct (IH (i + 1)%nat j olds (b :: news)) as (rows & -> & Hr);
        [by eapply drop_next|done|simpl; lia|]. eexists. split; [reflexivity|]. apply faithful_del; [lia|done].
    + destruct (IH i (j + 1)%nat (a :: olds) news) as (rows & -> & Hr);
        [done|by eapply drop_next|simpl; lia|]. eexists. split; [reflexivity|]. apply faithful_add; [lia|done].
Qed.

(** ** Theorem *)

(** C39 — The diff is correct and smallest: for texts of up to two thousand lines, as
    [splitLines] gives them (a final newline is not told apart), the walk ends, the
    removed and unchanged rows are exactly the old lines under their numbers, the added
    and unchanged rows exactly the new ones, and no two texts share a longer common
    subsequence of lines than the rows marked unchanged, so no smaller diff exists. *)
Theorem diff_is_faithful_and_minimal (oldText newText : string) :
  (length (splitLines oldText) ≤ MAX_DIFF_LINES)%nat →
  (length (splitLines newText) ≤ MAX_DIFF_LINES)%nat →
  ∃ rows, computeLineDiff oldText newText = Some rows ∧
    omap old_line rows = numbered 0 (splitLines oldText) ∧
    omap new_line rows = numbered 0 (splitLines newText) ∧
    ∀ s, s `sublist_of` splitLines oldText → s `sublist_of` splitLines newText →
      (length s ≤ length (filter (λ r, is_ctx r = true) rows))%nat.
Proof.
  intros H1 H2. unfold computeLineDiff. cbv zeta.
  destruct (Nat.ltb_spec MAX_DIFF_LINES (length (splitLines oldText))); [lia|].
  destruct (Nat.ltb_spec MAX_DIFF_LINES (length (splitLines newText))); [lia|]. simpl.
  set (l1 := splitLines oldText). set (l2 := splitLines newText).
  destruct (walk_spec l1 l2 (length l1 + length l2) 0 0 l1 l2) as (rows & Hw & Hold & Hnew & Hctx); [done..|].
  assert (∀ s, s `sublist_of` l1 → s `sublist_of` l2 →
    (length s ≤ length (filter (λ r, is_ctx r = true) rows))%nat) as Hmax.
  { intros s. rw Hctx. apply lcs_maximal. }
  exists rows. split_and!; [|done..]. rw -Hw. unfold lcsDiff.
  destruct l1 as [|a l1]; [by destruct l2|]. destruct l2 as [|b l2]; [|done].
  simpl. by rw app_nil_r.
Qed.

Lemma diff_is_faithful_and_minimal_witness :
  let old := "a" +:+ String newline ("b" +:+ String newline EmptyString) in
  let new := "b" +:+ String newline "c" in
  computeLineDiff old new = Some [Del "a" 1; Ctx "b" 2 1; Add "c" 2] ∧
  ∃ rows, computeLineDiff old new = Some rows ∧
    omap old_line rows = numbered 0 (splitLines old) ∧
    omap new_line rows = numbered 0 (splitLines new) ∧
    ∀ s, s `sublist_of` splitLines old → s `sublist_of` splitLines new →
      (length s ≤ length (filter (λ r, is_ctx r = true) rows))%nat.
Proof.
  split; [by vm_compute|]. apply diff_is_faithful_and_minimal; vm_compute; lia.
Defined.
