(* ===== verification/AudioTranscode.v ===== *)
(** * Telephone audio: mu-law and framing

    [assistant/src/calls/media-stream-audio-transcode.ts].  Bytes and samples
    are integers; a buffer is a list of bytes.  Base64 is Node's and a
    parameter.  [resamplePcm16] interpolates in floating point and is left
    out. *)

From S2P Require Import Prelude.
Local Open Scope Z_scope.

Definition MULAW_FRAME_SIZE : nat := 160.
Definition MULAW_BIAS : Z := 132.
Definition MULAW_CLIP : Z := 32635.
Definition MULAW_SEG_TABLE : list Z := [0; 0; 1; 1; 2; 2; 2; 2; 3; 3; 3; 3; 3; 3; 3; 3].

Definition seg (i : Z) : Z := nth (Z.to_nat i) MULAW_SEG_TABLE 0.

Definition segmentSearch (val : Z) : Z :=
  let shifted := Z.shiftr val 7 in
  if 16 <=? shifted then
    let shifted := Z.shiftr shifted 4 in
    if 16 <=? shifted then 7 else seg shifted + 4
  else seg shifted.

Definition linearToMulaw (sample : Z) : Z :=
  let sign := Z.land (Z.shiftr sample 8) 128 in
  let sample := if negb (sign =? 0) then - sample else sample in
  let sample := if MULAW_CLIP <? sample then MULAW_CLIP else sample in
  let sample := sample + MULAW_BIAS in
  let exponent := segmentSearch sample in
  let mantissa := Z.land (Z.shiftr sample (exponent + 3)) 15 in
  Z.land (Z.lnot (Z.lor (Z.lor sign (Z.shiftl exponent 4)) mantissa)) 255.

Definition mulawToLinear (mulawByte : Z) : Z :=
  let b := Z.land (Z.lnot mulawByte) 255 in
  let sign := Z.land b 128 in
  let exponent := Z.land (Z.shiftr b 4) 7 in
  let mantissa := Z.land b 15 in
  let magnitude := Z.shiftl (Z.shiftl mantissa 3 + MULAW_BIAS) exponent - MULAW_BIAS in
  if negb (sign =? 0) then - magnitude else magnitude.

(** [getInt16(i, true)] and [writeInt16LE]. *)
Definition int16_le (lo hi : Z) : Z :=
  let n := lo + 256 * hi in if 32768 <=? n then n - 65536 else n.

Definition bytes_le (n : Z) : list Z := [n mod 256; n / 256 mod 256].

(** An odd last byte is dropped: [Math.floor(pcm.length / 2)] samples. *)
Fixpoint pcm16ToMulaw (pcm : list Z) : list Z :=
  match pcm with
  | lo :: hi :: pcm => linearToMulaw (int16_le lo hi) :: pcm16ToMulaw pcm
  | _ => []
  end.

Definition mulawToPcm16 (mulaw : list Z) : list Z := mulaw ≫= λ b, bytes_le (mulawToLinear b).

(** [while (offset < mulawBuffer.length)]; [None] when the fuel runs out. *)
Fixpoint frames_from (fuel : nat) (offset : nat) (buffer : list Z) : option (list (list Z)) :=
  if (offset <? length buffer)%nat then
    match fuel with
    | O => None
    | S fuel =>
        let stop := Nat.min (offset + MULAW_FRAME_SIZE) (length buffer) in
        (take (stop - offset) (drop offset buffer) ::.) <$> frames_from fuel stop buffer
    end
  else Some [].

Definition chunkMulawToBase64Frames (toBase64 : list Z → string) (buffer : list Z)
    : option (list string) :=
  map toBase64 <$> frames_from (length buffer) 0 buffer.

(** ** Byte-level facts, by exhaustion *)

Definition all_bytes : list Z := Z.of_nat <$> seq 0 256.

(** The samples from [start], [n] of them. *)
Fixpoint check_from (P : Z → bool) (start : Z) (n : nat) : bool :=
  match n with O => true | S n => P start && check_from P (start + 1) n end.

Lemma check_from_sound P start n :
  check_from P start n = true → ∀ z, start ≤ z < start + Z.of_nat n → P z = true.
Proof.
  revert start. induction n as [|n IH]; intros start; simpl; [lia|].
  intros [H1 H2]%andb_true_iff z Hz. destruct (Z.eq_dec z start) as [->|]; [done|].
  apply (IH (start + 1) H2). lia.
Qed.

Definition byte_ok (b : Z) : bool :=
  (-32124 <=? mulawToLinear b) && (mulawToLinear b <=? 32124) &&
  (linearToMulaw (mulawToLinear b) =? (if b =? 127 then 255 else b)) &&
  (int16_le (mulawToLinear b mod 256) (mulawToLinear b / 256 mod 256) =? mulawToLinear b).

Lemma byte_facts b : 0 ≤ b < 256 → byte_ok b = true.
Proof. apply (check_from_sound byte_ok 0 256). by vm_compute. Qed.

Definition quantized (s : Z) : Z := mulawToLinear (linearToMulaw s).

Definition sample_ok (s : Z) : bool :=
  let m := Z.min (Z.abs s) MULAW_CLIP in
  let e := linearToMulaw s in
  let q := mulawToLinear e in
  (0 <=? e) && (e <? 256) && (32 * Z.abs (q - Z.sgn s * m) <=? m + 132) &&
  (q <=? quantized (Z.min (s + 1) 32767)).

Definition least_sample : Z := -32768.

Lemma sample_facts s : least_sample ≤ s < - least_sample → sample_ok s = true.
Proof. apply (check_from_sound sample_ok least_sample (256 * 256)). by vm_compute. Qed.

(** ** Framing *)

Lemma frames_from_spec buffer fuel : ∀ offset,
  (length buffer ≤ offset + fuel)%nat →
  ∃ frames, frames_from fuel offset buffer = Some frames ∧ concat frames = drop offset buffer ∧
    Forall (λ f, 0 < length f ≤ MULAW_FRAME_SIZE)%nat frames ∧
    ∀ i f, frames !! i = Some f → (S i < length frames)%nat → length f = MULAW_FRAME_SIZE.
Proof.
  induction fuel as [|fuel IH]; intros offset Hf; simpl;
    (destruct (Nat.ltb_spec offset (length buffer)) as [Hlt|Hge];
     [|exists []; rw drop_ge //]); [lia|].
  set (stop := Nat.min (offset + MULAW_FRAME_SIZE) (length buffer)).
  assert (offset < stop ≤ offset + MULAW_FRAME_SIZE ∧ stop ≤ length buffer)%nat as [Hstop Hle]
    by (unfold stop, MULAW_FRAME_SIZE; lia).
  destruct (IH stop) as (frames & -> & Hc & Hall & Hfull); [lia|].
  assert (length (take (stop - offset) (drop offset buffer)) = stop - offset)%nat as Hlen
    by (rw length_take length_drop; lia).
  eexists. split; [reflexivity|]. split_and!.
  - simpl. rw Hc. replace (drop stop buffer) with (drop (stop - offset) (drop offset buffer));
      [by rw take_drop|]. rw drop_drop. f_equal. lia.
  - constructor; [|done]. rw Hlen. lia.
  - intros [|i] f Hi Hl; simpl in Hi, Hl; [|apply (Hfull i f Hi); lia].
    injection Hi as <-. rw Hlen. destruct frames as [|f' frames]; [simpl in Hl; lia|].
    inversion_clear Hall as [|? ? Hf' _]. apply (f_equal length) in Hc. rw length_drop /= length_app in Hc.
    unfold stop in *. lia.
Qed.

(** ** Theorems *)

Definition bytes (l : list Z) : Prop := Forall (λ b, 0 ≤ b < 256) l.

(** The telephone codec loses only what it must: every 16-bit sample is
    encoded in a byte, decoding never leaves the 16-bit range, the decoded
    value is off by at most a thirty-second of the (clipped) magnitude plus
    four, and louder samples never decode to smaller values. *)
Theorem mulaw_quantization (s : Z) :
  -32768 ≤ s < 32768 →
  0 ≤ linearToMulaw s < 256 ∧ -32124 ≤ quantized s ≤ 32124 ∧
  32 * Z.abs (quantized s - Z.sgn s * Z.min (Z.abs s) MULAW_CLIP) ≤ Z.min (Z.abs s) MULAW_CLIP + 132 ∧
  (s < 32767 → quantized s ≤ quantized (s + 1)).
Proof.
  intros Hs. pose proof (sample_facts s Hs) as H. unfold sample_ok in H. cbv zeta in H.
  fold (quantized s) in H. zify_bools. assert (0 ≤ linearToMulaw s < 256) as He by lia.
  pose proof (byte_facts _ He) as Hb. unfold byte_ok in Hb. fold (quantized s) in Hb. zify_bools.
  split_and!; try lia. intros Hlt. by replace (s + 1) with (Z.min (s + 1) 32767) by lia.
Qed.

(** Audio survives the round trip: decoding received mu-law bytes to
    16-bit little-endian samples and encoding them again gives the bytes back,
    except that negative zero (0x7f) becomes positive zero (0xff). *)
Theorem mulaw_round_trip (mulaw : list Z) :
  bytes mulaw →
  length (mulawToPcm16 mulaw) = (2 * length mulaw)%nat ∧ bytes (mulawToPcm16 mulaw) ∧
  pcm16ToMulaw (mulawToPcm16 mulaw) = (λ b, if b =? 127 then 255 else b) <$> mulaw.
Proof.
  unfold bytes. induction 1 as [|b l Hb Hl (IH1 & IH2 & IH3)]; [done|].
  pose proof (byte_facts b Hb) as H. unfold byte_ok in H. zify_bools.
  unfold mulawToPcm16 in *. rw bind_cons. simpl. split_and!; [lia| |].
  - repeat constructor; try done; by apply Z.mod_pos_bound.
  - by rw IH3; f_equal; match goal with H : int16_le _ _ = _ |- _ => rw H end.
Qed.

(** Framing is exact: the loop ends, the frames concatenate to the buffer
    byte for byte, none is empty or longer than twenty milliseconds, and all
    but the last are full. *)
Theorem framing_is_exact (toBase64 : list Z → string) (buffer : list Z) :
  ∃ frames, chunkMulawToBase64Frames toBase64 buffer = Some (toBase64 <$> frames) ∧
    concat frames = buffer ∧
    Forall (λ f, 0 < length f ≤ MULAW_FRAME_SIZE)%nat frames ∧
    ∀ i f, frames !! i = Some f → (S i < length frames)%nat → length f = MULAW_FRAME_SIZE.
Proof.
  destruct (frames_from_spec buffer (length buffer) 0) as (frames & Hf & Hc & Hr); [lia|].
  exists frames. unfold chunkMulawToBase64Frames. rw Hf. by rw drop_0 in Hc.
Qed.

Lemma mulaw_quantization_witness :
  quantized 1000 = 988 ∧
  32 * Z.abs (quantized 1000 - Z.sgn 1000 * Z.min (Z.abs 1000) MULAW_CLIP) ≤
    Z.min (Z.abs 1000) MULAW_CLIP + 132.
Proof. split; [by vm_compute|]. by apply mulaw_quantization. Defined.

Lemma mulaw_round_trip_witness :
  pcm16ToMulaw (mulawToPcm16 [0; 127; 200; 255]) = [0; 255; 200; 255].
Proof. apply (mulaw_round_trip [0; 127; 200; 255]). by repeat constructor. Defined.
