(* ===== verification/MessageQueue.v ===== *)
(** * The message queue of a conversation

    [assistant/src/daemon/conversation-queue-manager.ts]: while an agent loop
    is in flight, incoming messages wait in a [MessageQueue] whose total
    estimated size is bounded.  Queued messages are objects that several parts
    of the daemon hold; [object] is the address of one, so that the mutable
    flag [dequeueAnnounced] can live in a store of its own ([QueueDrain]). *)

From S2P Require Import Prelude.
From stdpp Require Import list_numbers.
Local Open Scope Z_scope.

Record UserMessageAttachment := {
  data : string;
  extractedText : option string;
}.

(** The trust of the sender, [daemon/trust-context-types.ts]. *)
Record TrustContext := {
  sourceChannel : string;
  trustClass : string;
  guardianChatId : option string;
  guardianExternalUserId : option string;
  guardianPrincipalId : option string;
  requesterIdentifier : option string;
  requesterDisplayName : option string;
  requesterSenderDisplayName : option string;
  requesterMemberDisplayName : option string;
  requesterTimezone : option string;
  requesterTimezoneLabel : option string;
  requesterTimezoneOffsetSeconds : option Z;
  requesterExternalUserId : option string;
  requesterChatId : option string;
  sourceMessageId : option string;
  sourceThreadId : option string;
  conversationType : option string;
  requesterContactId : option string;
  memberStatus : option string;
  memberPolicy : option string;
  requesterInteractionCount : option Z;
}.

#[export] Instance TrustContext_eq_dec : EqDecision TrustContext.
Proof. solve_decision. Defined.

(** The metadata a queued message carries, as far as the queue reads it. *)
Record message_metadata := {
  hidden : bool;
  subagentNotification : bool;      (* present *)
  acpNotification : bool;           (* present *)
  backgroundEventSource : bool;     (* a string *)
  metaUserMessageInterface : option string;
  metaAssistantMessageInterface : option string;
}.

Record ConversationTransportMetadata := {
  clientOs : option string;
  visibleAppId : option string;
  transportJsonLength : Z;          (* JSON.stringify(transport).length *)
}.

Record TurnInterfaceContext := {
  userMessageInterface : string;
  assistantMessageInterface : string;
}.

Record QueuedMessage := {
  object : nat;
  content : string;
  attachments : list UserMessageAttachment;
  requestId : string;
  onEvent : nat;                    (* the sink *)
  activeSurfaceId : option string;
  currentPage : option string;
  metadata : option message_metadata;
  turnInterfaceContext : option TurnInterfaceContext;
  isInteractive : option bool;
  sourceActorPrincipalId : option string;
  trustContext : option TrustContext;
  transport : option ConversationTransportMetadata;
  cronRunId : option string;
  clientMessageId : option string;
}.

Definition js_length (s : string) : Z := Z.of_nat (String.length s).

(** The loop over the attachments. *)
Definition add_attachment (bytes : Z) (a : UserMessageAttachment) : Z :=
  let bytes := bytes + js_length (data a) * 2 in
  if truthy (extractedText a)
  then bytes + js_length (default EmptyString (extractedText a)) * 2 else bytes.

Definition estimateItemBytes (item : QueuedMessage) : Z :=
  let bytes := js_length (content item) * 2 in
  let bytes := foldl add_attachment bytes (attachments item) in
  let bytes := match transport item with
               | Some t => bytes + transportJsonLength t * 2
               | None => bytes
               end in
  let bytes := if truthy (sourceActorPrincipalId item)
               then bytes + js_length (default EmptyString (sourceActorPrincipalId item)) * 2
               else bytes in
  bytes + 512.

Definition DEFAULT_MAX_QUEUE_BYTES : Z := 50 * 1024 * 1024.

Record MessageQueue := {
  items : list QueuedMessage;
  currentBytes : Z;
  maxBytes : Z;
}.

Definition newMessageQueue (max : Z) : MessageQueue :=
  {| items := []; currentBytes := 0; maxBytes := max |}.

Definition with_items (l : list QueuedMessage) (bytes : Z) (q : MessageQueue) : MessageQueue :=
  {| items := l; currentBytes := bytes; maxBytes := maxBytes q |}.

Definition push (item : QueuedMessage) (q : MessageQueue) : MessageQueue * bool :=
  let itemBytes := estimateItemBytes item in
  if (maxBytes q <? currentBytes q + itemBytes) && (0 <? length (items q))%nat then (q, false)
  else (with_items (items q ++ [item]) (currentBytes q + itemBytes) q, true).

Definition shift (q : MessageQueue) : MessageQueue * option QueuedMessage :=
  match items q with
  | [] => (q, None)
  | item :: rest => (with_items rest (currentBytes q - estimateItemBytes item) q, Some item)
  end.

Definition unshift (item : QueuedMessage) (q : MessageQueue) : MessageQueue :=
  with_items (item :: items q) (currentBytes q + estimateItemBytes item) q.

Definition peek (index : nat) (q : MessageQueue) : option QueuedMessage := items q !! index.

(** [splice(0, n)], then the bytes of each popped item in turn. *)
Definition shiftN (count : Z) (q : MessageQueue) : MessageQueue * list QueuedMessage :=
  let n := Z.to_nat (Z.min (Z.max 0 count) (Z.of_nat (length (items q)))) in
  if (n =? 0)%nat then (q, [])
  else
    let removed := take n (items q) in
    (with_items (drop n (items q))
       (foldl (λ bytes item, bytes - estimateItemBytes item) (currentBytes q) removed) q, removed).

Definition clear (q : MessageQueue) : MessageQueue := with_items [] 0 q.

(** [items.findIndex((m) => m.requestId === requestId)] *)
Definition find_request (r : string) (q : MessageQueue) : option (nat * QueuedMessage) :=
  list_find (λ m, requestId m = r) (items q).

Definition promoteToHead (r : string) (q : MessageQueue) : MessageQueue * option QueuedMessage :=
  match find_request r q with
  | None => (q, None)
  | Some (idx, promoted) =>
      if (idx =? 0)%nat then (q, Some promoted)
      else (with_items (promoted :: delete idx (items q)) (currentBytes q) q, Some promoted)
  end.

Definition findByRequestId (r : string) (q : MessageQueue) : option QueuedMessage :=
  snd <$> find_request r q.

Definition removeByRequestId (r : string) (q : MessageQueue) : MessageQueue * option QueuedMessage :=
  match find_request r q with
  | None => (q, None)
  | Some (idx, removed) =>
      (with_items (delete idx (items q)) (currentBytes q - estimateItemBytes removed) q,
       Some removed)
  end.

(** ** Accounting *)

Fixpoint bytes_of (l : list QueuedMessage) : Z :=
  match l with
  | [] => 0
  | item :: l => estimateItemBytes item + bytes_of l
  end.

Lemma bytes_of_app l k : bytes_of (l ++ k) = bytes_of l + bytes_of k.
Proof. induction l; simpl; lia. Qed.

Lemma bytes_of_perm l k : l ≡ₚ k → bytes_of l = bytes_of k.
Proof. induction 1; simpl; lia. Qed.

Lemma foldl_minus l b :
  foldl (λ bytes item, bytes - estimateItemBytes item) b l = b - bytes_of l.
Proof. revert b. induction l as [|x l IH]; intros b; simpl; [lia|]. rw IH. lia. Qed.

(** The transport's JSON text has a length. *)
Definition sized (item : QueuedMessage) : Prop :=
  match transport item with Some t => 0 ≤ transportJsonLength t | None => True end.

Lemma estimate_positive item : sized item → 512 ≤ estimateItemBytes item.
Proof.
  intros Hs. unfold sized, estimateItemBytes in *.
  assert (∀ l b, b ≤ foldl add_attachment b l) as Hfold.
  { induction l as [|a l IH]; intros b; simpl; [lia|]. specialize (IH (add_attachment b a)).
    assert (b ≤ add_attachment b a); [|lia].
    unfold add_attachment, js_length. destruct (truthy _); lia. }
  pose proof (Hfold (attachments item) (js_length (content item) * 2)).
  unfold js_length in *. destruct (transport item), (truthy (sourceActorPrincipalId item)); lia.
Qed.

Lemma bytes_of_nonneg l : Forall sized l → 0 ≤ bytes_of l.
Proof.
  induction 1 as [|m l Hm _ IH]; simpl; [done|]. pose proof (estimate_positive m Hm). lia.
Qed.

(** The queue's counter is the size of what it holds. *)
Definition accounted (q : MessageQueue) : Prop := currentBytes q = bytes_of (items q).

(** The operations of the queue. *)
Inductive operation :=
  | Push (item : QueuedMessage)
  | Shift
  | Unshift (item : QueuedMessage)
  | ShiftN (count : Z)
  | Clear
  | PromoteToHead (r : string)
  | RemoveByRequestId (r : string).

(** The queue after an operation, and what leaves it. *)
Definition run (o : operation) (q : MessageQueue) : MessageQueue * list QueuedMessage :=
  match o with
  | Push item => ((push item q).1, [])
  | Shift => let '(q', m) := shift q in (q', option_list m)
  | Unshift item => (unshift item q, [])
  | ShiftN count => shiftN count q
  | Clear => (clear q, items q)
  | PromoteToHead r => ((promoteToHead r q).1, [])
  | RemoveByRequestId r => let '(q', m) := removeByRequestId r q in (q', option_list m)
  end.

(** What an operation brings in. *)
Definition brought (o : operation) (q : MessageQueue) : list QueuedMessage :=
  match o with
  | Push item => if (push item q).2 then [item] else []
  | Unshift item => [item]
  | _ => []
  end.

Lemma find_request_Some r q i m :
  find_request r q = Some (i, m) → items q ≡ₚ m :: delete i (items q).
Proof.
  intros (Hl & _)%list_find_Some. by apply delete_Permutation.
Qed.

(** Nothing is lost or invented by an operation. *)
Lemma run_conserves o q :
  items q ++ brought o q ≡ₚ (run o q).2 ++ items (run o q).1.
Proof.
  destruct o as [item| |item|count| |r|r]; simpl; rw ?app_nil_r //.
  - unfold push. by destruct (_ && _); rw /= ?app_nil_r.
  - unfold shift. by destruct (items q) eqn:Hq; rw /= ?Hq.
  - by rw Permutation_app_comm.
  - unfold shiftN. destruct (_ =? 0)%nat; simpl; [done|]. by rw take_drop.
  - unfold promoteToHead. destruct (find_request r q) as [[i m]|] eqn:Hf; [|done].
    destruct (i =? 0)%nat; simpl; [done|]. by apply find_request_Some in Hf.
  - unfold removeByRequestId. destruct (find_request r q) as [[i m]|] eqn:Hf; simpl; [|done].
    by apply find_request_Some in Hf.
Qed.

Lemma run_accounted o q : accounted q → accounted (run o q).1.
Proof.
  unfold accounted. intros Ha.
  destruct o as [item| |item|count| |r|r]; simpl.
  - unfold push. destruct (_ && _); simpl; [done|]. rw bytes_of_app Ha /=. lia.
  - unfold shift. destruct (items q) eqn:Hq; simpl; [by rw Hq|]. rw Ha /=. lia.
  - rw Ha. lia.
  - unfold shiftN. destruct (_ =? 0)%nat; simpl; [done|]. rw foldl_minus Ha.
    rw -{1}(take_drop (Z.to_nat (Z.min (Z.max 0 count) (Z.of_nat (length (items q))))) (items q)).
    rw bytes_of_app. lia.
  - done.
  - unfold promoteToHead. destruct (find_request r q) as [[i m]|] eqn:Hf; simpl; [|done].
    destruct (i =? 0)%nat; simpl; [done|]. apply find_request_Some, bytes_of_perm in Hf. by rw Ha Hf.
  - unfold removeByRequestId. destruct (find_request r q) as [[i m]|] eqn:Hf; simpl; [|done].
    apply find_request_Some, bytes_of_perm in Hf. rw Ha Hf /=. lia.
Qed.

(** Runs of the queue, with all that came in and all that went out. *)
Fixpoint runs (os : list operation) (q : MessageQueue)
    : MessageQueue * list QueuedMessage * list QueuedMessage :=
  match os with
  | [] => (q, [], [])
  | o :: os =>
      let '(q', came, left_) := runs os (run o q).1 in
      (q', brought o q ++ came, (run o q).2 ++ left_)
  end.

(** The queue keeps its books: after any operations the messages that came
    in are those that left and those that wait, the byte counter is exactly
    the size of those that wait, and it never goes below zero. *)
Theorem queue_keeps_books (os : list operation) max :
  let '(q, came, left_) := runs os (newMessageQueue max) in
  came ≡ₚ left_ ++ items q ∧ currentBytes q = bytes_of (items q) ∧
  (Forall sized came → 0 ≤ currentBytes q).
Proof.
  assert (∀ q0, accounted q0 → let '(q, came, left_) := runs os q0 in
    items q0 ++ came ≡ₚ left_ ++ items q ∧ accounted q) as Hgen.
  { induction os as [|o os IH]; intros q0 Ha; simpl; [by rw app_nil_r|].
    specialize (IH _ (run_accounted o q0 Ha)). destruct (runs os _) as [[q came] left_].
    destruct IH as [Hp Hacc]. split; [|done].
    rw app_assoc run_conserves -!app_assoc. by rw Hp. }
  specialize (Hgen (newMessageQueue max) eq_refl).
  destruct (runs os _) as [[q came] left_]. destruct Hgen as [Hp Ha]. simpl in Hp.
  split; [done|]. split; [done|]. intros Hs. rw Ha.
  rw Hp in Hs. apply Forall_app in Hs as [_ Hs]. by apply bytes_of_nonneg.
Qed.

(** Only a requeue may go over the budget. *)
Definition admits (o : operation) : Prop :=
  match o with
  | Unshift _ => False
  | Push item => sized item
  | _ => True
  end.

Definition within_budget (q : MessageQueue) : Prop :=
  accounted q ∧ 0 ≤ maxBytes q ∧ Forall sized (items q) ∧
  (currentBytes q ≤ maxBytes q ∨ (length (items q) ≤ 1)%nat).

Lemma run_maxBytes o q : maxBytes (run o q).1 = maxBytes q.
Proof.
  destruct o; simpl; unfold push, shift, shiftN, promoteToHead, removeByRequestId;
    by repeat case_match; simplify_eq/=.
Qed.

(** What only takes out, or reorders, stays within the budget. *)
Lemma shrinking_within_budget o q :
  brought o q = [] → within_budget q → within_budget (run o q).1.
Proof.
  intros Hb (Ha & Hm & Hs & Hin). pose proof (run_conserves o q) as Hc. rw Hb app_nil_r in Hc.
  pose proof (run_accounted o q Ha) as Ha'. pose proof (run_maxBytes o q) as Hm'.
  rw Hc in Hs. apply Forall_app in Hs as [Hs1 Hs2].
  split; [done|]. split; [lia|]. split; [done|].
  pose proof (bytes_of_perm _ _ Hc) as Hbytes. rw bytes_of_app in Hbytes.
  pose proof (bytes_of_nonneg _ Hs1). apply Permutation_length in Hc. rw length_app in Hc.
  unfold accounted in *. lia.
Qed.

Lemma run_within_budget o q : admits o → within_budget q → within_budget (run o q).1.
Proof.
  intros Ho Hq. destruct o as [item| |item|count| |r|r]; try by apply shrinking_within_budget.
  - destruct (push item q).2 eqn:Hp; [|apply shrinking_within_budget; by rw /= ?Hp].
    pose proof (run_accounted (Push item) q (proj1 Hq)) as Ha'.
    destruct Hq as (Ha & Hm & Hs & Hin). revert Ha' Hp. simpl in *. unfold push.
    destruct (_ && _) eqn:Hfull; [done|]. simpl. intros Ha' _. split; [done|]. split; [done|].
    split; [by apply Forall_app; split; [|constructor]|]. simpl.
    apply andb_false_iff in Hfull as [Hfull|Hfull].
    + apply Z.ltb_ge in Hfull. by left.
    + apply Nat.ltb_ge in Hfull. right. rw length_app /=. lia.
Qed.

(** The byte budget holds: as long as nothing is put back at the front,
    the queue never holds more than its budget, except a single message that
    found it empty; and a message is refused only if it would not have fit
    beside others. *)
Theorem byte_budget_holds (os : list operation) max :
  0 ≤ max → Forall admits os →
  let q := (runs os (newMessageQueue max)).1.1 in
  (currentBytes q ≤ max ∨ (length (items q) ≤ 1)%nat) ∧
  ∀ item, (push item q).2 = false → max < currentBytes q + estimateItemBytes item ∧ items q ≠ [].
Proof.
  intros Hmax Hos q.
  assert (∀ q0, within_budget q0 → within_budget (runs os q0).1.1 ∧
    maxBytes (runs os q0).1.1 = maxBytes q0) as Hgen.
  { clear q. induction Hos as [|o os Ho _ IH]; intros q0 Hq0; simpl; [done|].
    destruct (IH _ (run_within_budget o q0 Ho Hq0)) as [Hw Hm].
    destruct (runs os _) as [[q1 came] left_]. simpl in *. split; [done|].
    by rw Hm run_maxBytes. }
  destruct (Hgen (newMessageQueue max)) as [(Ha & Hm & Hs & Hin) Hmx].
  { split; [done|]. split; [done|]. split; [constructor|by left]. }
  simpl in Hmx. fold q in Hin, Hmx. rw Hmx in Hin. split; [done|].
  intros item. unfold push. destruct (_ && _) eqn:Hfull; [|done]. intros _.
  apply andb_true_iff in Hfull as [Hf1 Hf2]. apply Z.ltb_lt in Hf1. apply Nat.ltb_lt in Hf2.
  split; [lia|]. destruct (items q); simpl in *; [lia|done].
Qed.

(** ** Order *)

(** Messages leave in the order they came, but for the one a steer
    promotes: popping takes the longest-waiting messages, in order, and a
    promotion moves the named message to the front and keeps all the others in
    their order. *)
Theorem queue_is_fifo q count r :
  (shiftN count q).2 ++ items (shiftN count q).1 = items q ∧
  Z.of_nat (length (shiftN count q).2) = Z.min (Z.max 0 count) (Z.of_nat (length (items q))) ∧
  match promoteToHead r q with
  | (q', Some m) => requestId m = r ∧ ∃ before_ after_, items q = before_ ++ m :: after_ ∧
      items q' = m :: before_ ++ after_ ∧ Forall (λ x, requestId x ≠ r) before_
  | (q', None) => q' = q ∧ Forall (λ x, requestId x ≠ r) (items q)
  end.
Proof.
  split; [|split].
  - unfold shiftN. destruct (_ =? 0)%nat; simpl; [done|]. by rw take_drop.
  - unfold shiftN. destruct (_ =? 0)%nat eqn:Hz; simpl.
    + apply Nat.eqb_eq in Hz. lia.
    + rw length_take. lia.
  - unfold promoteToHead, find_request.
    destruct (list_find _ _) as [[i m]|] eqn:Hf.
    + apply list_find_Some in Hf as (Hl & Hr & Hfirst).
      pose proof (take_drop_middle _ _ _ Hl) as Hmid.
      assert (Forall (λ x, requestId x ≠ r) (take i (items q))) as Hbefore.
      { apply Forall_lookup. intros j x Hj. pose proof (lookup_lt_Some _ _ _ Hj) as Hlt.
        rw length_take in Hlt. rw lookup_take_lt in Hj; [|lia]. apply (Hfirst j x Hj). lia. }
      destruct (i =? 0)%nat eqn:Hi.
      * apply Nat.eqb_eq in Hi as ->. split; [done|]. exists [], (drop 1 (items q)).
        simpl in Hmid. by rw Hmid.
      * split; [done|]. exists (take i (items q)), (drop (S i) (items q)).
        split; [by rw Hmid|]. split; [|done]. simpl. by rw delete_take_drop.
    + split; [done|]. by apply list_find_None in Hf.
Qed.

(** Three messages, to evaluate on. *)
Definition sample_message (n : nat) (r text : string) : QueuedMessage := {|
  object := n; content := text; attachments := []; requestId := r; onEvent := n;
  activeSurfaceId := None; currentPage := None; metadata := None; turnInterfaceContext := None;
  isInteractive := None; sourceActorPrincipalId := None; trustContext := None;
  transport := None; cronRunId := None; clientMessageId := None |}.

Lemma byte_budget_holds_witness :
  let q := (runs [Push (sample_message 1 "a" "0123456789"); Push (sample_message 2 "b" "b");
    PromoteToHead "b"; Push (sample_message 3 "c" "c")] (newMessageQueue 1100)).1.1 in
  (currentBytes q ≤ 1100 ∨ (length (items q) ≤ 1)%nat) ∧
  ∀ item, (push item q).2 = false → 1100 < currentBytes q + estimateItemBytes item ∧ items q ≠ [].
Proof. apply byte_budget_holds; [lia|repeat constructor]. Defined.
