(* ===== verification/QueueDrain.v ===== *)
(** * Draining the message queue

    [assistant/src/daemon/conversation-process.ts], from
    [buildPassthroughBatch] to [drainBatch]: when a turn ends, the messages that
    waited are taken out of the queue — alone, or as a batch that shares one
    turn — announced, persisted and run, or put back where they were.

    The steps that leave the process (context application, slash commands, the
    database) are answered by a script: one [answer] for each drain and each
    message, with the messages that arrive while it is awaited.  An exception
    carries the mark of [restoredDrainErrors], that some dispatch on its way up
    has put its messages back.  [drainQueue] calls itself behind a message that
    was dropped or answered on the spot; it carries fuel, and the messages that
    wait or are to arrive are enough ([drains_terminate]).

    The principal a turn acts for is not handed to the agent loop but left in a slot
    of the conversation, [currentTurnSourceActorPrincipalId], which any request may
    store into while a step is awaited: [others] is what they store, and [overwrite]
    lets them. *)

From S2P Require Import Prelude JsText Channels MessageQueue.

(** ** Slash commands, [daemon/conversation-slash.ts] *)

Inductive slash_kind := passthrough | compact | clean | unknown.

#[export] Instance slash_kind_eq_dec : EqDecision slash_kind.
Proof. solve_decision. Defined.

Definition DEPRECATED_MODEL_SHORTCUTS : list string :=
  ["opus"; "sonnet"; "haiku"; "grok-beta"; "grok-multi"].

(** [s.startsWith(p)]: what follows the prefix. *)
Fixpoint after_prefix (p s : string) : option string :=
  match p, s with
  | EmptyString, _ => Some s
  | String a p, String b s => if decide (a = b) then after_prefix p s else None
  | _, _ => None
  end.

(** [parseModelCommand(trimmed) != null] *)
Definition isModelCommand (trimmed : string) : bool :=
  bool_decide (trimmed = "/model") || bool_decide (is_Some (after_prefix "/model " trimmed)).

(** [/^\/([a-z0-9-]+)(\s|$)/i] on what follows the slash: the greedy group, if
    it is not empty and a space or the end follows. *)
Fixpoint shortcut_name (s : string) : option string :=
  match s with
  | EmptyString => Some EmptyString
  | String a s =>
      if is_space a then Some EmptyString
      else if is_upper a || is_lower a || is_digit a || bool_decide (a = "-"%char)
      then String (to_lower a) <$> shortcut_name s
      else None
  end.

Definition isDeprecatedShortcut (trimmed : string) : bool :=
  match after_prefix "/" trimmed with
  | Some rest =>
      match shortcut_name rest with
      | Some EmptyString | None => false
      | Some name => bool_decide (name ∈ DEPRECATED_MODEL_SHORTCUTS)
      end
  | None => false
  end.

Definition is_line_terminator (a : ascii) : bool :=
  let n := nat_of_ascii a in (n =? 10) || (n =? 13).

(** [/^\/name(?:\s+(.+?))?\s*$/i] on trimmed text: alone, or followed by spaces
    and an argument without a line break. *)
Definition parseArglessCommand (name trimmed : string) (alone : slash_kind) : option slash_kind :=
  match after_prefix name (string_map to_lower trimmed) with
  | None => None
  | Some EmptyString => Some alone
  | Some (String a rest) =>
      if is_space a && negb (bool_decide (string_filter is_line_terminator (trim_start rest) ≠ EmptyString))
      then Some unknown else None
  end.

Definition classifySlash (content : string) : slash_kind :=
  let trimmed := js_trim content in
  if isModelCommand trimmed then unknown
  else if isDeprecatedShortcut trimmed then unknown
  else if bool_decide (trimmed = "/models") then unknown
  else match parseArglessCommand "/compact" trimmed compact with
  | Some k => k
  | None =>
      match parseArglessCommand "/clean" trimmed clean with
      | Some k => k
      | None =>
          if bool_decide (trimmed = "/context") then unknown
          else if bool_decide (trimmed = "/status") then unknown
          else if bool_decide (trimmed = "/commands") then unknown
          else passthrough
      end
  end.

Example classify_samples :
  classifySlash <$> ["hello"; " /compact "; "/COMPACT now"; "/compacted"; "/Opus is great"; "/opus."; "/model x"; "/modelx"]
    = [passthrough; compact; unknown; passthrough; unknown; passthrough; unknown; passthrough].
Proof. by vm_compute. Qed.

(** ** Predicates on messages *)

(** [isEchoSuppressedUserMessage], which is [isSuppressedQueuedMessage]. *)
Definition isEchoSuppressedUserMessage (md : option message_metadata) : bool :=
  match md with
  | Some md => hidden md || subagentNotification md || acpNotification md || backgroundEventSource md
  | None => false
  end.

Definition isSuppressedQueuedMessage := isEchoSuppressedUserMessage.

Definition isHiddenMessageMetadata (md : option message_metadata) : bool :=
  match md with Some md => hidden md | None => false end.

Definition sameTrustIdentity (a b : option TrustContext) : bool :=
  match a, b with
  | None, None => true
  | Some a, Some b =>
      bool_decide (trustClass a = trustClass b) &&
      bool_decide (sourceChannel a = sourceChannel b) &&
      bool_decide (requesterExternalUserId a = requesterExternalUserId b) &&
      bool_decide (requesterChatId a = requesterChatId b) &&
      bool_decide (requesterIdentifier a = requesterIdentifier b) &&
      bool_decide (requesterContactId a = requesterContactId b) &&
      bool_decide (guardianExternalUserId a = guardianExternalUserId b) &&
      bool_decide (guardianPrincipalId a = guardianPrincipalId b)
  | _, _ => false
  end.

(** Who acts, with which privilege: what [sameTrustIdentity] compares. *)
Definition trust_identity (t : TrustContext) :=
  (trustClass t, sourceChannel t, requesterExternalUserId t, requesterChatId t,
   requesterIdentifier t, requesterContactId t, guardianExternalUserId t, guardianPrincipalId t).

Lemma sameTrustIdentity_spec a b :
  sameTrustIdentity a b = true ↔ trust_identity <$> a = trust_identity <$> b.
Proof.
  destruct a as [a|], b as [b|]; simpl; try done.
  rw !andb_true_iff !bool_decide_eq_true. unfold trust_identity.
  split; [intuition congruence|]. intros [=]. tauto.
Qed.

Definition resolveQueuedTurnInterfaceContext (queued : QueuedMessage)
    (fallback : option TurnInterfaceContext) : option TurnInterfaceContext :=
  match turnInterfaceContext queued with
  | Some ctx => Some ctx
  | None =>
      match metadata queued with
      | Some md =>
          match metaUserMessageInterface md ≫= parseInterfaceId,
                metaAssistantMessageInterface md ≫= parseInterfaceId with
          | Some u, Some a => Some {| userMessageInterface := u; assistantMessageInterface := a |}
          | _, _ => fallback
          end
      | None => fallback
      end
  end.

(** ** The conversation *)

Inductive persist_outcome := Persisted | Deduplicated | Busy | PersistFailed.

(** What the environment answers to one drain or one message. *)
Record answer := {
  arrivals : list QueuedMessage;     (* pushed while the step waits *)
  repairFails : bool;                (* a repair row is due and does not persist *)
  lockHeld : bool;                   (* another turn holds the processing lock *)
  setupThrows : bool;                (* applying the message's context throws *)
  slashThrows : bool;                (* resolveSlash throws *)
  handlerFails : bool;               (* the slash exchange fails *)
  persistence : persist_outcome;
  lateThrow : bool;                  (* a step between the persist and the turn throws *)
  abortSignaled : bool;              (* the turn was aborted meanwhile *)
}.

Definition calm : answer := {|
  arrivals := []; repairFails := false; lockHeld := false; setupThrows := false;
  slashThrows := false; handlerFails := false; persistence := Persisted; lateThrow := false;
  abortSignaled := false |}.

(** A turn handed to the agent loop. *)
Record turn := {
  turnMessages : list QueuedMessage;
  turnSinks : list nat;
  turnTrust : option TrustContext;
  slotPrincipal : option string;     (* not passed on: what the slot holds when the loop is entered *)
  turnCronRunId : option string;
  turnInteractive : option bool;
  turnHidden : bool;
}.

(** What happens, in order: the events clients get, and what becomes of a
    message. *)
Inductive event :=
  | MessageDequeued (m : QueuedMessage)
  | MessageRequeued (m : QueuedMessage) (position : nat)
  | UserMessageEcho (m : QueuedMessage)
  | ErrorEvent (m : QueuedMessage)
  | QueueDrainFailed (m : QueuedMessage)
  | SlashAnswered (m : QueuedMessage)
  | RowPersisted (m : QueuedMessage)
  | RowDeduplicated (m : QueuedMessage)
  | Refused (m : QueuedMessage)
  | TurnStarted (t : turn).

Record Conversation := {
  queue : MessageQueue;
  dequeueAnnounced : gset nat;       (* the objects whose flag is set *)
  processing : bool;                 (* this drain's own turn holds the lock *)
  pendingSteerRepair : bool;
  pendingInterruptRepair : bool;
  turnInterface : option TurnInterfaceContext;
  surfaceActionRequestIds : gset string;
  restingTrust : option TrustContext;
  currentTurnSourceActorPrincipalId : option string;   (* one slot, written by whoever starts a turn *)
  log : list event;
  script : list answer;
}.

Definition with_queue q c : Conversation := {|
  queue := q; dequeueAnnounced := dequeueAnnounced c; processing := processing c;
  pendingSteerRepair := pendingSteerRepair c; pendingInterruptRepair := pendingInterruptRepair c;
  turnInterface := turnInterface c; surfaceActionRequestIds := surfaceActionRequestIds c;
  restingTrust := restingTrust c;
  currentTurnSourceActorPrincipalId := currentTurnSourceActorPrincipalId c; log := log c; script := script c |}.

Definition with_announced a c : Conversation := {|
  queue := queue c; dequeueAnnounced := a; processing := processing c;
  pendingSteerRepair := pendingSteerRepair c; pendingInterruptRepair := pendingInterruptRepair c;
  turnInterface := turnInterface c; surfaceActionRequestIds := surfaceActionRequestIds c;
  restingTrust := restingTrust c;
  currentTurnSourceActorPrincipalId := currentTurnSourceActorPrincipalId c; log := log c; script := script c |}.

Definition with_processing b c : Conversation := {|
  queue := queue c; dequeueAnnounced := dequeueAnnounced c; processing := b;
  pendingSteerRepair := pendingSteerRepair c; pendingInterruptRepair := pendingInterruptRepair c;
  turnInterface := turnInterface c; surfaceActionRequestIds := surfaceActionRequestIds c;
  restingTrust := restingTrust c;
  currentTurnSourceActorPrincipalId := currentTurnSourceActorPrincipalId c; log := log c; script := script c |}.

Definition with_repairs steer interrupt c : Conversation := {|
  queue := queue c; dequeueAnnounced := dequeueAnnounced c; processing := processing c;
  pendingSteerRepair := steer; pendingInterruptRepair := interrupt;
  turnInterface := turnInterface c; surfaceActionRequestIds := surfaceActionRequestIds c;
  restingTrust := restingTrust c;
  currentTurnSourceActorPrincipalId := currentTurnSourceActorPrincipalId c; log := log c; script := script c |}.

Definition with_interface i c : Conversation := {|
  queue := queue c; dequeueAnnounced := dequeueAnnounced c; processing := processing c;
  pendingSteerRepair := pendingSteerRepair c; pendingInterruptRepair := pendingInterruptRepair c;
  turnInterface := i; surfaceActionRequestIds := surfaceActionRequestIds c;
  restingTrust := restingTrust c;
  currentTurnSourceActorPrincipalId := currentTurnSourceActorPrincipalId c; log := log c; script := script c |}.

Definition with_script s c : Conversation := {|
  queue := queue c; dequeueAnnounced := dequeueAnnounced c; processing := processing c;
  pendingSteerRepair := pendingSteerRepair c; pendingInterruptRepair := pendingInterruptRepair c;
  turnInterface := turnInterface c; surfaceActionRequestIds := surfaceActionRequestIds c;
  restingTrust := restingTrust c;
  currentTurnSourceActorPrincipalId := currentTurnSourceActorPrincipalId c; log := log c; script := s |}.

Definition emit (e : event) c : Conversation := {|
  queue := queue c; dequeueAnnounced := dequeueAnnounced c; processing := processing c;
  pendingSteerRepair := pendingSteerRepair c; pendingInterruptRepair := pendingInterruptRepair c;
  turnInterface := turnInterface c; surfaceActionRequestIds := surfaceActionRequestIds c;
  restingTrust := restingTrust c;
  currentTurnSourceActorPrincipalId := currentTurnSourceActorPrincipalId c; log := log c ++ [e]; script := script c |}.

Definition with_principal p c : Conversation := {|
  queue := queue c; dequeueAnnounced := dequeueAnnounced c; processing := processing c;
  pendingSteerRepair := pendingSteerRepair c; pendingInterruptRepair := pendingInterruptRepair c;
  turnInterface := turnInterface c; surfaceActionRequestIds := surfaceActionRequestIds c;
  restingTrust := restingTrust c;
  currentTurnSourceActorPrincipalId := p; log := log c; script := script c |}.

(** A sender's message reaches the queue of a busy conversation, or is refused. *)
Definition arrive (c : Conversation) (m : QueuedMessage) : Conversation :=
  let '(q, accepted) := push m (queue c) in
  if accepted then with_queue q c else emit (Refused m) c.

(** The next answer of the environment, with the arrivals it brings. *)
Definition await (c : Conversation) : answer * Conversation :=
  match script c with
  | [] => (calm, c)
  | a :: s => (a, foldl arrive (with_script s c) (arrivals a))
  end.

Inductive outcome := Done | Raised (restored : bool) | Exhausted.

(** ** Batches *)

Section drain.
(** [resolveVerificationSessionIntent(content).kind === "direct_setup"] *)
Variable directSetup : string → bool.

(** What other requests of the daemon leave in the slot of the principal while a step of
    the drain waits; they need not hold the lock to store into it. *)
Variable others : Conversation → option string → option string.

Definition overwrite (c : Conversation) : Conversation :=
  with_principal (others c (currentTurnSourceActorPrincipalId c)) c.

(** What keeps a message on the single-message path. *)
Definition drains_alone (c : Conversation) (m : QueuedMessage) : bool :=
  negb (bool_decide (classifySlash (content m) = passthrough)) ||
  directSetup (content m) ||
  bool_decide (is_Some (activeSurfaceId m)) ||
  bool_decide (requestId m ∈ surfaceActionRequestIds c).

(** The checks of a candidate against the head, in the order of the loop. *)
Definition joins (c : Conversation) (head candidate : QueuedMessage) : bool :=
  let interface m :=
    userMessageInterface <$> resolveQueuedTurnInterfaceContext m (turnInterface c) in
  bool_decide (interface candidate = interface head) &&
  bool_decide ((transport candidate ≫= clientOs) = (transport head ≫= clientOs)) &&
  bool_decide ((transport candidate ≫= visibleAppId) = (transport head ≫= visibleAppId)) &&
  bool_decide (sourceActorPrincipalId candidate = sourceActorPrincipalId head) &&
  sameTrustIdentity (trustContext candidate) (trustContext head) &&
  bool_decide (cronRunId candidate = cronRunId head) &&
  negb (drains_alone c candidate).

(** The loop over [peek(i)], from the second message on. *)
Fixpoint run_length (c : Conversation) (head : QueuedMessage) (rest : list QueuedMessage) : nat :=
  match rest with
  | [] => 0
  | candidate :: rest => if joins c head candidate then S (run_length c head rest) else 0
  end.

Definition buildPassthroughBatch (c : Conversation) : Conversation * list QueuedMessage :=
  match peek 0 (queue c) with
  | None => (c, [])
  | Some head =>
      if drains_alone c head then (c, [])
      else
        let matched := 1 + run_length c head (drop 1 (items (queue c))) in
        let '(q, batch) := shiftN (Z.of_nat matched) (queue c) in
        (with_queue q c, batch)
  end.

(** ** Announcing and putting back *)

Definition announceDequeue (m : QueuedMessage) (c : Conversation) : Conversation :=
  if isSuppressedQueuedMessage (metadata m) then c
  else emit (MessageDequeued m) (with_announced ({[object m]} ∪ dequeueAnnounced c) c).

(** The loop over the snapshot. *)
Fixpoint visible_position (r : string) (position : nat) (l : list QueuedMessage) : option nat :=
  match l with
  | [] => None
  | item :: l =>
      if isSuppressedQueuedMessage (metadata item) then visible_position r position l
      else if bool_decide (requestId item = r) then Some (S position)
      else visible_position r (S position) l
  end.

Definition visibleQueuePosition (c : Conversation) (r : string) : option nat :=
  visible_position r 0 (items (queue c)).

(** One message of the second loop of [requeueDrainedMessages]. *)
Definition correct_announcement (c : Conversation) (m : QueuedMessage) : Conversation :=
  if bool_decide (object m ∈ dequeueAnnounced c) then
    let c := with_announced (dequeueAnnounced c ∖ {[object m]}) c in
    if isSuppressedQueuedMessage (metadata m) then c
    else match visibleQueuePosition c (requestId m) with
         | None => c
         | Some position => emit (MessageRequeued m position) c
         end
  else c.

Definition requeueDrainedMessages (messages : list QueuedMessage) (steered : bool)
    (c : Conversation) : Conversation :=
  let c := with_queue (foldr unshift (queue c) messages) c in
  let c := if steered then with_repairs true (pendingInterruptRepair c) c else c in
  foldl correct_announcement c messages.

(** The context of the turn, taken from one message. *)
Definition applyTurnContext (m : QueuedMessage) (c : Conversation) : Conversation :=
  with_principal (sourceActorPrincipalId m)
    match resolveQueuedTurnInterfaceContext m (turnInterface c) with
    | Some ctx => with_interface (Some ctx) c
    | None => c
    end.

Definition turnTrustContext (m : QueuedMessage) (c : Conversation) : option TrustContext :=
  match trustContext m with
  | Some t => Some t
  | None => restingTrust c
  end.

Definition echo (m : QueuedMessage) (c : Conversation) : Conversation :=
  if isEchoSuppressedUserMessage (metadata m) then c else emit (UserMessageEcho m) c.

(** ** One message *)

Section steps.
(** The recursive call of [drainQueue]. *)
Variable drainQueue_rec : Conversation → Conversation * outcome.

(** The turn of a message on its own. *)
Definition single_turn (next : QueuedMessage) (trust : option TrustContext) (c : Conversation) : turn := {|
  turnMessages := [next];
  turnSinks := [onEvent next];
  turnTrust := trust;
  slotPrincipal := currentTurnSourceActorPrincipalId c;
  turnCronRunId := if truthy (cronRunId next) then cronRunId next else None;
  turnInteractive := isInteractive next;
  turnHidden := isHiddenMessageMetadata (metadata next) |}.

(** From the persist on. *)
Definition run_single (next : QueuedMessage) (steered : bool) (trust : option TrustContext)
    (a : answer) (c : Conversation) : Conversation * outcome :=
  match persistence a with
  | Busy => (requeueDrainedMessages [next] steered c, Done)
  | PersistFailed => drainQueue_rec (emit (ErrorEvent next) c)
  | Deduplicated => drainQueue_rec (emit (RowDeduplicated next) c)
  | Persisted =>
      let c := emit (RowPersisted next) (with_processing true c) in
      let c := echo next c in
      if lateThrow a then (c, Raised false)
      else (emit (TurnStarted (single_turn next trust c)) c, Done)
  end.

Definition drainSingleMessage (next : QueuedMessage) (steered : bool) (c : Conversation)
    : Conversation * outcome :=
  let '(a, c) := await c in
  if processing c || lockHeld a then (requeueDrainedMessages [next] steered c, Done)
  else
    let c := announceDequeue next c in
    if setupThrows a then (c, Raised false)
    else
      let c := applyTurnContext next c in
      let trust := turnTrustContext next c in
      let c := overwrite c in
      if slashThrows a then (c, Raised false)
      else if negb (bool_decide (classifySlash (content next) = passthrough)) then
        drainQueue_rec (emit (if handlerFails a then ErrorEvent next else SlashAnswered next) c)
      else run_single next steered trust a c.

(** ** A batch *)

(** The tails of a batch, behind a head that was persisted: what was persisted,
    or nothing when an exception leaves the loop. *)
Fixpoint persist_tails (tails : list QueuedMessage) (successful : list QueuedMessage)
    (c : Conversation) : Conversation * option (list QueuedMessage) :=
  match tails with
  | [] => (c, Some successful)
  | m :: tails =>
      let '(a, c) := await c in
      let c := overwrite (announceDequeue m c) in
      if slashThrows a then (c, None)
      else if negb (bool_decide (classifySlash (content m) = passthrough)) then
        persist_tails tails successful (emit (ErrorEvent m) c)
      else match persistence a with
      | Deduplicated => persist_tails tails successful (emit (RowDeduplicated m) c)
      | Busy | PersistFailed => persist_tails tails successful (emit (ErrorEvent m) c)
      | Persisted =>
          let c := echo m (emit (RowPersisted m) c) in
          if lateThrow a then (c, None)
          else if abortSignaled a then (c, Some (successful ++ [m]))
          else persist_tails tails (successful ++ [m]) c
      end
  end.

(** The end of [drainBatch]: the turn of what was persisted. *)
Definition batch_turn (head : QueuedMessage) (trust : option TrustContext)
    (successful : list QueuedMessage) (c : Conversation) : turn := {|
  turnMessages := successful;
  turnSinks := js_set (onEvent <$> successful);
  turnTrust := trust;
  slotPrincipal := currentTurnSourceActorPrincipalId c;
  turnCronRunId := if truthy (cronRunId head) then cronRunId head else None;
  turnInteractive := last successful ≫= isInteractive;
  turnHidden := forallb (λ m, isHiddenMessageMetadata (metadata m)) successful |}.

Fixpoint drainBatch (batch : list QueuedMessage) (c : Conversation) : Conversation * outcome :=
  match batch with
  | [] => (c, Done)
  | head :: tails =>
      let '(a, c) := await c in
      if processing c || lockHeld a then (requeueDrainedMessages batch false c, Done)
      else if setupThrows a then (c, Raised false)
      else
        let c := applyTurnContext head c in
        let trust := turnTrustContext head c in
        let c := overwrite (announceDequeue head c) in
        (* the rest of the batch, without its head *)
        let drain_remaining c :=
          match tails with
          | [] => drainQueue_rec c
          | [m] => drainSingleMessage m false c
          | _ => drainBatch tails c
          end in
        if slashThrows a then (c, Raised false)
        else if negb (bool_decide (classifySlash (content head) = passthrough)) then
          drain_remaining (with_processing false (emit (ErrorEvent head) c))
        else match persistence a with
        | Deduplicated => drain_remaining (emit (RowDeduplicated head) c)
        | Busy => (requeueDrainedMessages batch false c, Done)
        | PersistFailed => drain_remaining (emit (ErrorEvent head) c)
        | Persisted =>
            let c := emit (RowPersisted head) (with_processing true c) in
            let c := echo head c in
            if lateThrow a then (c, Raised false)
            else
              let '(c, successful) :=
                if abortSignaled a then (c, Some [head]) else persist_tails tails [head] c in
              match successful with
              | Some successful => (emit (TurnStarted (batch_turn head trust successful c)) c, Done)
              | None => (c, Raised false)
              end
        end
  end.

(** ** Dispatch and drain *)

Definition dispatchDrainWithRestore (messages : list QueuedMessage) (steered : bool)
    (dispatch : Conversation → Conversation * outcome) (c : Conversation)
    : Conversation * outcome :=
  match dispatch c with
  | (c, Raised false) => (requeueDrainedMessages messages steered c, Raised true)
  | r => r
  end.

(** [repairInterruptedToolUseBlocks(conversation, { requireDurable })], as far
    as its flags go; [true] when it throws. *)
Definition repairInterruptedToolUseBlocks (requireDurable : bool) (a : answer)
    (c : Conversation) : Conversation * bool :=
  if negb (pendingSteerRepair c) && negb (pendingInterruptRepair c) then (c, false)
  else if repairFails a && requireDurable then
    (with_repairs (pendingSteerRepair c) true c, true)
  else (with_repairs false false c, false).

Definition drain_step (c : Conversation) : Conversation * outcome :=
  let steered := pendingSteerRepair c in
  let '(a, c) := await c in
  let '(c, threw) := repairInterruptedToolUseBlocks (pendingInterruptRepair c) a c in
  if threw then (c, Raised false)
  else if steered then
    match shift (queue c) with
    | (_, None) => (c, Done)
    | (q, Some next) =>
        dispatchDrainWithRestore [next] true (drainSingleMessage next true) (with_queue q c)
    end
  else
    match buildPassthroughBatch c with
    | (c, []) =>
        match shift (queue c) with
        | (_, None) => (c, Done)
        | (q, Some next) =>
            dispatchDrainWithRestore [next] false (drainSingleMessage next false) (with_queue q c)
        end
    | (c, [m]) => dispatchDrainWithRestore [m] false (drainSingleMessage m false) c
    | (c, batch) => dispatchDrainWithRestore batch false (drainBatch batch) c
    end.
End steps.

Fixpoint drainQueue (fuel : nat) (c : Conversation) : Conversation * outcome :=
  match fuel with
  | O => (c, Exhausted)
  | S fuel => drain_step (drainQueue fuel) c
  end.

(** The messages that wait or are still to arrive. *)
Definition incoming (c : Conversation) : list QueuedMessage :=
  items (queue c) ++ concat (arrivals <$> script c).

Definition drainQueue_ (c : Conversation) : Conversation * outcome :=
  drainQueue (S (length (incoming c))) c.

Definition notify_stranded (c : Conversation) : Conversation :=
  foldl (λ c m, if isSuppressedQueuedMessage (metadata m) then c else emit (QueueDrainFailed m) c)
    c (items (queue c)).

(** It never rejects; [Exhausted] stays visible. *)
Definition kickQueueDrain (c : Conversation) : Conversation * outcome :=
  match drainQueue_ c with
  | (c, Raised _) =>
      match drainQueue_ c with
      | (c, Raised _) => (notify_stranded c, Done)
      | r => r
      end
  | r => r
  end.
End drain.

(** ** What a drain keeps

    The invariant is stated over the messages in hand, [K], and those that wait
    or are to arrive: a dispatch is [quiet] while it only announces, persists
    and reports, and [finished] when the messages in hand are accounted for. *)

Section kept.
(** What other requests store, as above. *)
Variable others : Conversation → option string → option string.

(** What clients believe to have left the queue. *)
Definition client_view (l : list event) : gset nat :=
  foldl (λ s e, match e with
                | MessageDequeued m => {[object m]} ∪ s
                | MessageRequeued m _ => s ∖ {[object m]}
                | _ => s
                end) ∅ l.

(** The message's fate is in the event. *)
Definition settles (m : QueuedMessage) (e : event) : Prop :=
  match e with
  | RowPersisted x | RowDeduplicated x | SlashAnswered x | ErrorEvent x | Refused x => x = m
  | _ => False
  end.

(** A turn that runs every message under its own sender's identity. *)
Definition turn_ok (t : turn) : Prop := ∀ m, m ∈ turnMessages t →
  ((∀ c p, others c p = p) → sourceActorPrincipalId m = slotPrincipal t) ∧
  (is_Some (trustContext m) → trust_identity <$> trustContext m = trust_identity <$> turnTrust t) ∧
  classifySlash (content m) = passthrough ∧
  ∀ m', m' ∈ turnMessages t →
    trust_identity <$> trustContext m' = trust_identity <$> trustContext m ∧ cronRunId m' = cronRunId m.

Definition good_event (e : event) : Prop :=
  match e with TurnStarted t => turn_ok t | _ => True end.

Definition objects (l : list QueuedMessage) : list nat := object <$> l.

Definition visible (m : QueuedMessage) : Prop := isSuppressedQueuedMessage (metadata m) = false.

(** The flags agree with the clients, and nothing in hand or to come is flagged. *)
Definition tidy (K : list QueuedMessage) (c : Conversation) : Prop :=
  dequeueAnnounced c = client_view (log c) ∧ NoDup (objects (K ++ incoming c)) ∧
  ∀ m, m ∈ K ++ incoming c → object m ∉ dequeueAnnounced c.

Definition unaborted (c : Conversation) : Prop :=
  Forall (λ a, abortSignaled a = false) (script c).

(** [A] is what was announced meanwhile. *)
Record quiet (A : list QueuedMessage) (c c' : Conversation) : Prop := {
  q_incoming : incoming c' `sublist_of` incoming c;
  q_log : ∃ new, log c' = log c ++ new ∧ Forall good_event new ∧
    ∀ m, m ∈ incoming c → m ∈ incoming c' ∨ Exists (settles m) new;
  q_unaborted : unaborted c → unaborted c';
  q_tidy : tidy A c → dequeueAnnounced c' = client_view (log c') ∧
    ∀ o, o ∈ dequeueAnnounced c' → o ∈ dequeueAnnounced c ∨ ∃ m, m ∈ A ∧ visible m ∧ o = object m;
}.

Record finished (K : list QueuedMessage) (c c' : Conversation) : Prop := {
  f_incoming : incoming c' `sublist_of` K ++ incoming c;
  f_log : ∃ new, log c' = log c ++ new ∧ Forall good_event new ∧
    (unaborted c → ∀ m, m ∈ K ++ incoming c → m ∈ incoming c' ∨ Exists (settles m) new);
  f_unaborted : unaborted c → unaborted c';
  f_tidy : tidy K c → tidy [] c';
}.

Definition fine (K : list QueuedMessage) (c : Conversation) (r : Conversation * outcome) : Prop :=
  match r.2 with
  | Exhausted => False
  | Raised false => quiet K c r.1
  | _ => finished K c r.1
  end.

Lemma quiet_refl A c : quiet A c c.
Proof.
  split; [done| |done|].
  - exists []. rw app_nil_r. split; [done|]. split; [constructor|by left].
  - intros (Hv & _). split; [done|by left].
Qed.

Lemma tidy_sub K K' c c' :
  tidy K c → K' ++ incoming c' `sublist_of` K ++ incoming c →
  dequeueAnnounced c' = client_view (log c') →
  (∀ m, m ∈ K' ++ incoming c' → object m ∉ dequeueAnnounced c') → tidy K' c'.
Proof.
  intros (_ & Hn & _) Hs Hv Hc. split; [done|]. split; [|done].
  eapply sublist_NoDup; [exact Hn|]. by apply fmap_sublist.
Qed.

Lemma tidy_weaken A K c : A `sublist_of` K → tidy K c → tidy A c.
Proof.
  intros Hs (Hv & Hn & Hc). eapply tidy_sub; [by split| |done|].
  - by apply sublist_app.
  - intros m Hm. apply Hc. eapply elem_of_sublist; [exact Hm|by apply sublist_app].
Qed.

Lemma objects_inj l m m' : NoDup (objects l) → m ∈ l → m' ∈ l → object m = object m' → m = m'.
Proof.
  unfold objects. induction l as [|x l IH]; simpl; [by intros _ ?%not_elem_of_nil|].
  intros [Hx Hn]%NoDup_cons Hm Hm' Ho.
  apply elem_of_cons in Hm as [->|Hm], Hm' as [->|Hm']; [done| | |by apply IH].
  - destruct Hx. rw Ho. by apply list_elem_of_fmap_2.
  - destruct Hx. rw -Ho. by apply list_elem_of_fmap_2.
Qed.

(** What stays in hand was not announced. *)
Lemma quiet_tidy A K c c' : quiet A c c' → tidy (A ++ K) c → tidy K c'.
Proof.
  intros Hq Ht. pose proof (tidy_weaken A (A ++ K) c ltac:(by apply sublist_inserts_r) Ht) as HtA.
  destruct (q_tidy _ _ _ Hq HtA) as [Hv Ha]. pose proof (q_incoming _ _ _ Hq) as Hs.
  assert (K ++ incoming c' `sublist_of` K ++ incoming c) as Hs' by (by apply sublist_app).
  destruct Ht as (Hv0 & Hn & Hc). rw -app_assoc in Hn Hc.
  eapply (tidy_sub (A ++ K) K c); [by rw /tidy -!app_assoc|rw -app_assoc; by apply sublist_inserts_l|done|].
  intros m Hm Hin. pose proof (elem_of_sublist _ _ _ Hm Hs') as Hm'.
  apply Ha in Hin as [Hin|(x & Hx & _ & Ho)].
  - eapply Hc; [|exact Hin]. apply elem_of_app. by right.
  - unfold objects in Hn. rw fmap_app in Hn. apply NoDup_app in Hn as (_ & Hd & _).
    eapply (Hd (object x)); [by apply list_elem_of_fmap_2|]. rw -Ho. by apply list_elem_of_fmap_2.
Qed.

Lemma quiet_trans A B c1 c2 c3 : quiet A c1 c2 → quiet B c2 c3 → quiet (A ++ B) c1 c3.
Proof.
  intros H1 H2. split.
  - etransitivity; [apply H2|apply H1].
  - destruct (q_log _ _ _ H1) as (n1 & Hl1 & Hg1 & Hc1), (q_log _ _ _ H2) as (n2 & Hl2 & Hg2 & Hc2).
    exists (n1 ++ n2). rw Hl2 Hl1 app_assoc. split; [done|]. split; [by apply Forall_app|].
    intros m Hm. rw Exists_app. destruct (Hc1 m Hm) as [Hm1|]; [|tauto].
    destruct (Hc2 m Hm1); tauto.
  - intros Hu. by apply (q_unaborted _ _ _ H2), (q_unaborted _ _ _ H1).
  - intros Ht. destruct (q_tidy _ _ _ H2 (quiet_tidy A B _ _ H1 Ht)) as [Hv Ha2].
    assert (tidy A c1) as HtA by (eapply tidy_weaken; [|exact Ht]; by apply sublist_inserts_r).
    destruct (q_tidy _ _ _ H1 HtA) as [_ Ha1]. split; [done|].
    intros o [Ho|(m & Hm & ?)]%Ha2; [|right; exists m; set_solver].
    apply Ha1 in Ho as [Ho|(m & Hm & ?)]; [by left|right; exists m; set_solver].
Qed.

Lemma quiet_weaken A K c c' : quiet A c c' → A `sublist_of` K → quiet K c c'.
Proof.
  intros [Hi Hl Hu Ht] Hs. split; [done..|]. intros Hk.
  destruct (Ht (tidy_weaken _ _ _ Hs Hk)) as [Hv Ha]. split; [done|].
  intros o [Ho|(m & Hm & ?)]%Ha; [by left|right]. exists m. split; [|done].
  by eapply elem_of_sublist.
Qed.

(** Everything held or to come stays as it was. *)
Definition untouched (c c' : Conversation) : Prop :=
  incoming c' = incoming c ∧ log c' = log c ∧ script c' = script c ∧
  dequeueAnnounced c' = dequeueAnnounced c.

Lemma quiet_untouched c c' : untouched c c' → quiet [] c c'.
Proof.
  intros (Hi & Hl & Hs & Ha). split; [by rw Hi| | |].
  - exists []. rw Hl app_nil_r Hi. split; [done|]. split; [constructor|by left].
  - unfold unaborted. by rw Hs.
  - intros (Hv & _). rw Ha Hl. split; [done|by left].
Qed.

Definition queue_event (e : event) : Prop :=
  match e with MessageDequeued _ | MessageRequeued _ _ => True | _ => False end.

Lemma client_view_snoc l e : ¬ queue_event e → client_view (l ++ [e]) = client_view l.
Proof. intros He. unfold client_view. rw foldl_app. by destruct e. Qed.

Lemma quiet_emit e c : good_event e → ¬ queue_event e → quiet [] c (emit e c).
Proof.
  intros Hg He. split; [done| |done|].
  - exists [e]. split; [done|]. split; [by constructor|by left].
  - intros (Hv & _). simpl. rw client_view_snoc //. split; [done|by left].
Qed.

Lemma quiet_announce m c : quiet [m] c (announceDequeue m c).
Proof.
  unfold announceDequeue. destruct (isSuppressedQueuedMessage (metadata m)) eqn:Hm.
  { eapply quiet_weaken; [apply (quiet_refl [])|apply sublist_nil_l]. }
  split; [done| |done|].
  - exists [MessageDequeued m]. split; [done|]. split; [by repeat constructor|by left].
  - intros (Hv & _). simpl. unfold client_view. rw foldl_app /=. fold (client_view (log c)).
    rw Hv. split; [done|]. intros o [->%elem_of_singleton|Ho]%elem_of_union; [|by left].
    right. exists m. split; [by left|done].
Qed.

(** ** Arrivals *)

Lemma arrive_spec c m :
  items (queue (arrive c m)) `sublist_of` items (queue c) ++ [m] ∧
  items (queue c) `sublist_of` items (queue (arrive c m)) ∧
  (log (arrive c m) = log c ∧ m ∈ items (queue (arrive c m)) ∨
   log (arrive c m) = log c ++ [Refused m]) ∧
  script (arrive c m) = script c ∧ dequeueAnnounced (arrive c m) = dequeueAnnounced c.
Proof.
  unfold arrive, push. destruct (_ && _); simpl.
  - split; [by apply sublist_inserts_r|]. split; [done|]. split; [by right|done].
  - split; [done|]. split; [by apply sublist_inserts_r|]. split; [left; set_solver|done].
Qed.

Lemma arrives_spec l c :
  items (queue (foldl arrive c l)) `sublist_of` items (queue c) ++ l ∧
  script (foldl arrive c l) = script c ∧
  dequeueAnnounced (foldl arrive c l) = dequeueAnnounced c ∧
  client_view (log (foldl arrive c l)) = client_view (log c) ∧
  ∃ new, log (foldl arrive c l) = log c ++ new ∧ Forall good_event new ∧
    ∀ m, m ∈ items (queue c) ++ l → m ∈ items (queue (foldl arrive c l)) ∨ Exists (settles m) new.
Proof.
  revert c. induction l as [|m l IH]; intros c; simpl.
  { rw app_nil_r. repeat split; [done..|]. exists []. rw app_nil_r.
    split; [done|]. split; [constructor|by left]. }
  destruct (arrive_spec c m) as (Hs & Hs' & Hlog & Hscr & Hann).
  destruct (IH (arrive c m)) as (Hi & Hscr2 & Hann2 & Hv & new & Hl & Hg & Hc).
  rw Hscr2 Hann2 Hv Hscr Hann. split.
  { etransitivity; [exact Hi|]. rw (cons_middle m). rw app_assoc. by apply sublist_app. }
  split; [done|]. split; [done|]. destruct Hlog as [[Hlog Hin]|Hlog]; rw Hlog.
  - split; [done|]. exists new. rw Hl Hlog. split; [done|]. split; [done|].
    intros x Hx. apply Hc. rw elem_of_app elem_of_cons in Hx. rw elem_of_app.
    destruct Hx as [Hx|[->|Hx]]; [left; by eapply elem_of_sublist|by left|by right].
  - split; [apply client_view_snoc; by intros ?|]. exists (Refused m :: new). rw Hl Hlog -app_assoc.
    split; [done|]. split; [by constructor|]. intros x Hx.
    rw elem_of_app elem_of_cons in Hx. destruct Hx as [Hx|[->|Hx]].
    + destruct (Hc x) as [|He]; [|by left|right; by right].
      rw elem_of_app. left. by eapply elem_of_sublist.
    + right. by left.
    + destruct (Hc x) as [|He]; [by rw elem_of_app; right|by left|right; by right].
Qed.

Lemma quiet_await c : quiet [] c (await c).2.
Proof.
  unfold await. destruct (script c) as [|a s] eqn:Hs; [apply quiet_refl|].
  destruct (arrives_spec (arrivals a) (with_script s c)) as (Hi & Hscr & Hann & Hv & new & Hl & Hg & Hc).
  simpl in *. unfold incoming in *. split.
  - unfold incoming. rw Hscr Hs /= app_assoc. by apply sublist_app.
  - exists new. split; [done|]. split; [done|]. intros m Hm. unfold incoming in *.
    rw Hs /= app_assoc elem_of_app in Hm. rw Hscr elem_of_app.
    destruct Hm as [Hm|Hm]; [|by left; right]. destruct (Hc m Hm); [by left; left|by right].
  - unfold unaborted. rw Hscr Hs. by intros [_ Hu]%Forall_cons.
  - intros (Hview & _). rw Hann Hv. split; [done|by left].
Qed.

(** ** Putting back *)

Lemma visible_position_Some m l n :
  m ∈ l → visible m → is_Some (visible_position (requestId m) n l).
Proof.
  unfold visible. revert n. induction l as [|x l IH]; intros n; [by intros ?%not_elem_of_nil|].
  intros [<-|Hm]%elem_of_cons Hv; simpl; [rw Hv bool_decide_true //; eauto|].
  repeat case_match; eauto.
Qed.

Lemma correct_announcement_spec c m :
  queue (correct_announcement c m) = queue c ∧ script (correct_announcement c m) = script c ∧
  (∃ new, log (correct_announcement c m) = log c ++ new ∧ Forall good_event new) ∧
  ((object m ∈ dequeueAnnounced c → visible m) → m ∈ items (queue c) →
   dequeueAnnounced c = client_view (log c) →
   dequeueAnnounced (correct_announcement c m) = client_view (log (correct_announcement c m)) ∧
   dequeueAnnounced (correct_announcement c m) = dequeueAnnounced c ∖ {[object m]}).
Proof.
  unfold correct_announcement. case_bool_decide as Hin.
  - destruct (isSuppressedQueuedMessage (metadata m)) eqn:Hm.
    { split; [done|]. split; [done|]. split; [exists []; by rw app_nil_r|].
      intros Hvis. specialize (Hvis Hin). unfold visible in Hvis. congruence. }
    destruct (visibleQueuePosition _ (requestId m)) as [n|] eqn:Hpos; simpl.
    + split; [done|]. split; [done|]. split; [exists [MessageRequeued m n]; by repeat constructor|].
      intros _ _ Hv. split; [|done]. unfold client_view. rw foldl_app /=. by rw Hv.
    + split; [done|]. split; [done|]. split; [exists []; by rw app_nil_r|].
      intros _ Hq. destruct (visible_position_Some m (items (queue c)) 0 Hq Hm) as [n Hn].
      unfold visibleQueuePosition in Hpos. simpl in Hpos. congruence.
  - split; [done|]. split; [done|]. split; [exists []; by rw app_nil_r|].
    intros _ _ Hv. split; [done|]. set_solver.
Qed.

Lemma corrections_spec l c :
  let c' := foldl correct_announcement c l in
  queue c' = queue c ∧ script c' = script c ∧
  (∃ new, log c' = log c ++ new ∧ Forall good_event new) ∧
  ((∀ m, m ∈ l → object m ∈ dequeueAnnounced c → visible m) →
   (∀ m, m ∈ l → m ∈ items (queue c)) → dequeueAnnounced c = client_view (log c) →
   dequeueAnnounced c' = client_view (log c') ∧
   ∀ o, o ∈ dequeueAnnounced c' → o ∈ dequeueAnnounced c ∧ ∀ m, m ∈ l → o ≠ object m).
Proof.
  revert c. induction l as [|m l IH]; intros c; simpl.
  { split; [done|]. split; [done|]. split; [exists []; by rw app_nil_r|].
    intros _ _ Hv. split; [done|]. intros o Ho. split; [done|]. by intros ? ?%not_elem_of_nil. }
  destruct (correct_announcement_spec c m) as (Hq & Hs & (n1 & Hl1 & Hg1) & Hc).
  destruct (IH (correct_announcement c m)) as (Hq2 & Hs2 & (n2 & Hl2 & Hg2) & Hc2).
  split; [by rw Hq2|]. split; [by rw Hs2|]. split.
  { exists (n1 ++ n2). rw Hl2 Hl1 app_assoc. split; [done|by apply Forall_app]. }
  intros Hvis Hin Hv. destruct Hc as [Hv1 Ha1]; [apply Hvis; by left|apply Hin; by left|done|].
  destruct Hc2 as [Hv2 Ha2]; [|rw Hq; intros; apply Hin; by right|done|].
  { intros x Hx Ho. apply Hvis; [by right|]. rw Ha1 in Ho. set_solver. }
  split; [done|]. intros o [Ho Hne]%Ha2. rw Ha1 in Ho. split; [set_solver|].
  intros x [->|Hx]%elem_of_cons; [set_solver|by apply Hne].
Qed.

Lemma foldr_unshift l q : items (foldr unshift q l) = l ++ items q.
Proof. induction l as [|m l IH]; simpl; [done|]. by rw IH. Qed.

Lemma finished_requeue A K steered c c1 :
  quiet A c c1 → A `sublist_of` K → finished K c (requeueDrainedMessages K steered c1).
Proof.
  intros Hq Hsub. unfold requeueDrainedMessages.
  set (c2 := if steered then _ else _).
  assert (queue c2 = foldr unshift (queue c1) K ∧ script c2 = script c1 ∧ log c2 = log c1 ∧
    dequeueAnnounced c2 = dequeueAnnounced c1) as (Hq2 & Hs2 & Hl2 & Ha2) by (by unfold c2; case_match).
  destruct (corrections_spec K c2) as (Hq3 & Hs3 & (n3 & Hl3 & Hg3) & Ht3).
  assert (incoming (foldl correct_announcement c2 K) = K ++ incoming c1) as Hinc.
  { unfold incoming. by rw Hq3 Hs3 Hq2 Hs2 foldr_unshift app_assoc. }
  destruct (q_log _ _ _ Hq) as (n1 & Hl1 & Hg1 & Hc1). pose proof (q_incoming _ _ _ Hq) as Hi.
  split.
  - rw Hinc. by apply sublist_app.
  - exists (n1 ++ n3). rw Hl3 Hl2 Hl1 app_assoc. split; [done|]. split; [by apply Forall_app|].
    intros _ m Hm. rw Hinc Exists_app. apply elem_of_app in Hm as [Hm|Hm].
    + left. apply elem_of_app. by left.
    + destruct (Hc1 m Hm) as [Hm1|]; [|tauto]. left. apply elem_of_app. by right.
  - unfold unaborted. rw Hs3 Hs2. apply (q_unaborted _ _ _ Hq).
  - intros Ht. pose proof (q_tidy _ _ _ Hq (tidy_weaken _ _ _ Hsub Ht)) as [Hv Ha].
    destruct Ht as (Hv0 & Hn & Hcl). rw Hq2 Ha2 Hl2 in Ht3.
    destruct Ht3 as [Hv3 Ha3]; [| |done|].
    { intros m Hm Ho. apply Ha in Ho as [Ho|(x & Hx & Hvis & Ho)].
      - exfalso. eapply (Hcl m); [|exact Ho]. apply elem_of_app. by left.
      - assert (m = x) as ->; [|done]. apply (objects_inj (K ++ incoming c)); [done|apply elem_of_app; by left| |done].
        apply elem_of_app. left. by eapply elem_of_sublist. }
    { intros m Hm. rw foldr_unshift. apply elem_of_app. by left. }
    apply (tidy_sub K [] c); [by split|rw /= Hinc; by apply sublist_app|done|].
    intros m Hm [Ho Hne]%Ha3. rw /= Hinc in Hm. apply elem_of_app in Hm as [Hm|Hm]; [by eapply Hne|].
    apply Ha in Ho as [Ho|(x & Hx & _ & Ho)].
    + eapply (Hcl m); [|exact Ho]. apply elem_of_app. right. by eapply elem_of_sublist.
    + apply (Hne x); [by eapply elem_of_sublist|done].
Qed.

(** ** Composing *)

(** [m]'s fate was logged on the way. *)
Definition settled_since (c c' : Conversation) (m : QueuedMessage) : Prop :=
  ∀ new, log c' = log c ++ new → Exists (settles m) new.

Lemma finished_trans A K' K c c1 c2 :
  quiet A c c1 → finished K' c1 c2 → A ++ K' `sublist_of` K →
  (∀ m, m ∈ K → m ∈ K' ∨ settled_since c c1 m) → finished K c c2.
Proof.
  intros Hq Hf Hsub Hset.
  assert (K' `sublist_of` K) as HK by (by etransitivity; [apply (sublist_inserts_l A)|]).
  destruct (q_log _ _ _ Hq) as (n1 & Hl1 & Hg1 & Hc1), (f_log _ _ _ Hf) as (n2 & Hl2 & Hg2 & Hc2).
  split.
  - etransitivity; [apply Hf|]. apply sublist_app; [done|apply Hq].
  - exists (n1 ++ n2). rw Hl2 Hl1 app_assoc. split; [done|]. split; [by apply Forall_app|].
    intros Hu m Hm. specialize (Hc2 (q_unaborted _ _ _ Hq Hu)). rw Exists_app.
    assert (m ∈ K' ++ incoming c1 ∨ Exists (settles m) n1) as [Hm1|]; [|destruct (Hc2 m Hm1); tauto|tauto].
    apply elem_of_app in Hm as [Hm|Hm].
    + destruct (Hset m Hm) as [|Hs]; [left; apply elem_of_app; by left|right]. by apply Hs.
    + destruct (Hc1 m Hm); [left; apply elem_of_app; by right|by right].
  - intros Hu. by apply (f_unaborted _ _ _ Hf), (q_unaborted _ _ _ Hq).
  - intros Ht. apply (f_tidy _ _ _ Hf), (quiet_tidy A K' _ _ Hq), (tidy_weaken _ K); done.
Qed.

Lemma fine_trans A K' K c c1 r :
  quiet A c c1 → fine K' c1 r → A ++ K' `sublist_of` K →
  (∀ m, m ∈ K → m ∈ K' ∨ settled_since c c1 m) → fine K c r.
Proof.
  intros Hq Hf Hsub Hset. unfold fine in *. destruct r.2 as [|[]|]; simpl in *; try done.
  - by eapply finished_trans.
  - by eapply finished_trans.
  - eapply quiet_weaken; [by eapply quiet_trans|done].
Qed.

(** The end of a dispatch: a turn starts, everything in hand being settled. *)
Lemma finished_turn A K c c1 t :
  quiet A c c1 → A `sublist_of` K → turn_ok t →
  (unaborted c → ∀ m, m ∈ K → settled_since c c1 m) →
  finished K c (emit (TurnStarted t) c1).
Proof.
  intros Hq Hsub Hok Hset. pose proof (quiet_emit (TurnStarted t) c1 Hok ltac:(by intros ?)) as He.
  pose proof (quiet_trans _ _ _ _ _ Hq He) as [Hi (new & Hl & Hg & Hc) Hu Ht]. rw app_nil_r in Ht.
  split; [by apply sublist_inserts_l| |done|].
  - exists new. split; [done|]. split; [done|]. intros Hun m [Hm|Hm]%elem_of_app; [|by apply Hc].
    right. specialize (Hset Hun m Hm). destruct (q_log _ _ _ Hq) as (n1 & Hl1 & _).
    simpl in Hl. rw Hl1 -app_assoc in Hl. apply app_inv_head in Hl as <-.
    apply Exists_app. left. by apply Hset.
  - intros HK. assert (tidy A c) as HtA by (by eapply tidy_weaken).
    eapply (quiet_tidy A [] c); [by eapply quiet_weaken; [eapply quiet_trans; [exact Hq|exact He]|by rw app_nil_r]|].
    by rw app_nil_r.
Qed.

Lemma quiet_then A c c1 c2 : quiet A c c1 → quiet [] c1 c2 → quiet A c c2.
Proof. intros H1 H2. rw -(app_nil_r A). by eapply quiet_trans. Qed.

Lemma quiet_first A c c1 c2 : quiet [] c c1 → quiet A c1 c2 → quiet A c c2.
Proof. intros H1 H2. by eapply (quiet_trans []). Qed.

Definition extends (c c' : Conversation) : Prop := ∃ new, log c' = log c ++ new.

Lemma quiet_extends A c c' : quiet A c c' → extends c c'.
Proof. intros [_ (new & Hl & _) _ _]. by exists new. Qed.

Ltac extended := eapply quiet_extends; eassumption.

Lemma settled_emit m e c c1 : extends c c1 → settles m e → settled_since c (emit e c1) m.
Proof.
  intros [n Hn] He new Hl. simpl in Hl. rw Hn -app_assoc in Hl.
  apply app_inv_head in Hl as <-. apply Exists_app. right. by left.
Qed.

Lemma settled_later m c c1 c2 :
  settled_since c c1 m → extends c c1 → extends c1 c2 → settled_since c c2 m.
Proof.
  intros Hs [n1 H1] [n2 H2] new Hl. rw H2 H1 -app_assoc in Hl. apply app_inv_head in Hl as <-.
  apply Exists_app. left. by apply Hs.
Qed.

Lemma settled_earlier m c c1 c2 :
  extends c c1 → extends c1 c2 → settled_since c1 c2 m → settled_since c c2 m.
Proof.
  intros [n1 H1] [n2 H2] Hs new Hl. rw H2 H1 -app_assoc in Hl. apply app_inv_head in Hl as <-.
  apply Exists_app. right. by apply Hs.
Qed.

Lemma await_unaborted c : unaborted c → abortSignaled (await c).1 = false.
Proof. unfold unaborted, await. by destruct 1. Qed.

Lemma quiet_echo m c : quiet [] c (echo m c).
Proof. unfold echo. case_match; [apply quiet_refl|by apply quiet_emit; [|intros ?]]. Qed.

Lemma quiet_context m c : quiet [] c (applyTurnContext m c).
Proof. unfold applyTurnContext. case_match; by apply quiet_untouched. Qed.

Lemma quiet_overwrite c : quiet [] c (overwrite others c).
Proof. by apply quiet_untouched. Qed.

(** The slot names [p], as long as nobody else stores into it. *)
Definition slot_names (p : option string) (c : Conversation) : Prop :=
  (∀ c p, others c p = p) → currentTurnSourceActorPrincipalId c = p.

Lemma slot_overwrite p c : slot_names p c → slot_names p (overwrite others c).
Proof. intros Hc Ho. cbn. by rw Ho Hc. Qed.

Lemma slot_echo p m c : slot_names p c → slot_names p (echo m c).
Proof. unfold echo. by case_match. Qed.

Lemma slot_announce p m c : slot_names p c → slot_names p (announceDequeue m c).
Proof. unfold announceDequeue. by case_match. Qed.

Lemma slot_await p c : slot_names p c → slot_names p (await c).2.
Proof.
  unfold await. destruct (script c) as [|a s]; [done|]. cbn [snd]. generalize (arrivals a). intros l Hc.
  assert (slot_names p (with_script s c)) as Hs by done. revert Hs. generalize (with_script s c). clear Hc.
  induction l as [|m l IH]; intros c0 Hc0; [done|]. apply IH. unfold arrive. by destruct (push m (queue c0)) as [q []].
Qed.

Lemma quiet_processing b c : quiet [] c (with_processing b c).
Proof. by apply quiet_untouched. Qed.

Section safety.
Variable directSetup : string → bool.
Variable drainQueue_rec : Conversation → Conversation * outcome.
Variable bound : nat.
Hypothesis rec_fine : ∀ c, length (incoming c) < bound → fine [] c (drainQueue_rec c).

Lemma incoming_bound A c c' :
  quiet A c c' → length (incoming c) < bound → length (incoming c') < bound.
Proof. intros Hq Hb. pose proof (sublist_length _ _ (q_incoming _ _ _ Hq)). lia. Qed.

(** Dropping the message in hand and draining on. *)
Lemma fine_drop m e c c1 :
  quiet [m] c c1 → length (incoming c) < bound → settles m e →
  fine [m] c (drainQueue_rec (emit e c1)).
Proof.
  intros Hq Hb He.
  assert (quiet [m] c (emit e c1)) as Hq1.
  { apply (quiet_then _ _ c1); [done|]. apply quiet_emit; destruct e; simpl in *; tauto. }
  eapply (fine_trans [m] []); [exact Hq1| |done|].
  - by apply rec_fine, (incoming_bound [m] c).
  - intros x ->%list_elem_of_singleton. right. apply settled_emit; [extended|done].
Qed.

Lemma single_turn_ok m c c' :
  classifySlash (content m) = passthrough → slot_names (sourceActorPrincipalId m) c' →
  turn_ok (single_turn m (turnTrustContext m c) c').
Proof.
  intros Hp Hslot x. simpl. intros ->%list_elem_of_singleton. split; [intros Ho; by rw Hslot|]. split.
  - intros [t Ht]. unfold turnTrustContext. by rw Ht.
  - split; [done|]. by intros m' ->%list_elem_of_singleton.
Qed.

Lemma single_fine next steered c :
  length (incoming c) < bound → fine [next] c (drainSingleMessage others drainQueue_rec next steered c).
Proof.
  intros Hb. unfold drainSingleMessage, run_single. pose proof (quiet_await c) as Hq0.
  destruct (await c) as [a ca]. simpl in Hq0.
  destruct (processing ca || lockHeld a).
  { by apply (finished_requeue []); [|apply sublist_nil_l]. }
  pose proof (quiet_first _ _ _ _ Hq0 (quiet_announce next ca)) as Hq1. cbv zeta.
  destruct (setupThrows a); [done|].
  pose proof (quiet_then _ _ _ _ (quiet_then _ _ _ _ Hq1 (quiet_context next _)) (quiet_overwrite _)) as Hq2.
  assert (slot_names (sourceActorPrincipalId next) (overwrite others (applyTurnContext next (announceDequeue next ca)))) as Hslot
    by by apply slot_overwrite.
  set (c2 := overwrite others (applyTurnContext next _)) in *.
  destruct (slashThrows a); [done|].
  case_bool_decide as Hpass; simpl; [|apply (fine_drop next); [done..|by destruct (handlerFails a)]].
  destruct (persistence a).
  - pose proof (quiet_then _ _ _ _ Hq2 (quiet_processing true c2)) as Hq3.
    pose proof (quiet_then _ _ _ _ Hq3 (quiet_emit (RowPersisted next) _ I ltac:(by intros ?))) as Hq4.
    pose proof (quiet_then _ _ _ _ Hq4 (quiet_echo next _)) as Hq5.
    destruct (lateThrow a); [exact Hq5|].
    eapply finished_turn; [exact Hq5|done|by apply single_turn_ok, slot_echo|].
    intros _ x ->%list_elem_of_singleton.
    apply (settled_later _ _ (emit (RowPersisted next) (with_processing true c2)));
      [apply settled_emit; [extended|done]|extended|].
    eapply quiet_extends, quiet_echo.
  - by apply (fine_drop next).
  - by eapply finished_requeue.
  - by apply (fine_drop next).
Qed.

(** The messages of a batch share their sender's identity and their firing. *)
Definition alike (batch : list QueuedMessage) : Prop := ∀ m m', m ∈ batch → m' ∈ batch →
  sourceActorPrincipalId m = sourceActorPrincipalId m' ∧
  trust_identity <$> trustContext m = trust_identity <$> trustContext m' ∧ cronRunId m = cronRunId m'.

Definition all_passthrough (l : list QueuedMessage) : Prop :=
  Forall (λ m, classifySlash (content m) = passthrough) l.

Lemma alike_sub l l' : (∀ m, m ∈ l' → m ∈ l) → alike l → alike l'.
Proof. intros Hs Ha m m' Hm Hm'. apply Ha; auto. Qed.

Lemma persist_tails_spec tails successful c :
  let r := persist_tails others tails successful c in
  quiet tails c r.1 ∧ (∀ p, slot_names p c → slot_names p r.1) ∧
  ∀ successful', r.2 = Some successful' →
    (∀ m, m ∈ successful' → m ∈ successful ∨ (m ∈ tails ∧ classifySlash (content m) = passthrough)) ∧
    (unaborted c → ∀ m, m ∈ tails → settled_since c r.1 m).
Proof.
  revert successful c. induction tails as [|m tails IH]; intros successful c; simpl.
  { split; [apply quiet_refl|]. split; [done|]. intros s' [= <-]. split; [by left|]. by intros _ ? ?%not_elem_of_nil. }
  pose proof (quiet_await c) as Hq0. pose proof (await_unaborted c) as Hun. pose proof (λ p, slot_await p c) as Hslot.
  destruct (await c) as [a ca]. simpl in Hq0, Hun, Hslot.
  pose proof (quiet_then _ _ _ _ (quiet_first _ _ _ _ Hq0 (quiet_announce m ca)) (quiet_overwrite _)) as Hq1.
  assert (∀ p, slot_names p c → slot_names p (overwrite others (announceDequeue m ca))) as Hslot1
    by (intros p Hp; by apply slot_overwrite, slot_announce, Hslot).
  set (c1 := overwrite others (announceDequeue m ca)) in *. cbv zeta.
  (* the loop goes on, [m] being settled *)
  assert (∀ s' e, settles m e → good_event e → ¬ queue_event e → ∀ c2, quiet [] (emit e c1) c2 →
    (∀ p, slot_names p c1 → slot_names p c2) →
    (∀ x, x ∈ s' → x ∈ successful ∨ x = m ∧ classifySlash (content m) = passthrough) →
    let r := persist_tails others tails s' c2 in
    quiet (m :: tails) c r.1 ∧ (∀ p, slot_names p c → slot_names p r.1) ∧
    ∀ successful', r.2 = Some successful' →
      (∀ x, x ∈ successful' → x ∈ successful ∨
        (x ∈ m :: tails ∧ classifySlash (content x) = passthrough)) ∧
      (unaborted c → ∀ x, x ∈ m :: tails → settled_since c r.1 x)) as Hgo.
  { intros s' e He Hg Hn c2 Hq2 Hsl2 Hs'. specialize (IH s' c2). cbv zeta in IH.
    pose proof (quiet_then _ _ _ _ (quiet_then _ _ _ _ Hq1 (quiet_emit e c1 Hg Hn)) Hq2) as Hq.
    destruct (persist_tails others tails s' c2) as [c3 r]. simpl in *. destruct IH as (Hq3 & Hsl3 & IH).
    split; [by apply (quiet_trans [m] tails _ c2)|]. split; [intros p Hp; by apply Hsl3, Hsl2, Hslot1|].
    intros s'' ->. destruct (IH s'' eq_refl) as [Hin Hset]. split.
    - intros x Hx. destruct (Hin x Hx) as [Hx'|[Hx' Hp]]; [|right; split; [by right|done]].
      destruct (Hs' x Hx') as [?|[-> ?]]; [by left|right; split; [by left|done]].
    - intros Hu x [->|Hx]%elem_of_cons.
      + apply (settled_later _ _ (emit e c1)); [apply settled_emit; [extended|exact He]| |].
        * eapply quiet_extends, quiet_then; [exact Hq1|by apply quiet_emit].
        * eapply quiet_extends, quiet_trans; [exact Hq2|exact Hq3].
      + eapply settled_earlier; [extended|extended|].
        apply Hset; [|done]. by apply (q_unaborted _ _ _ Hq). }
  destruct (slashThrows a); simpl.
  { split; [|by split]. eapply quiet_weaken; [exact Hq1|]. by apply sublist_skip, sublist_nil_l. }
  case_bool_decide as Hpass; simpl; [|apply (Hgo successful (ErrorEvent m)); [done|done|by intros ?|apply quiet_refl|done|by left]].
  destruct (persistence a);
    try (apply (Hgo successful (ErrorEvent m)); [done|done|by intros ?|apply quiet_refl|done|by left]).
  - pose proof (quiet_then _ _ _ _ (quiet_then _ _ _ _ Hq1
      (quiet_emit (RowPersisted m) c1 I ltac:(by intros ?))) (quiet_echo m _)) as Hq2.
    assert (quiet (m :: tails) c (echo m (emit (RowPersisted m) c1))) as Hq2'.
    { eapply quiet_weaken; [exact Hq2|]. by apply sublist_skip, sublist_nil_l. }
    assert (∀ p, slot_names p c → slot_names p (echo m (emit (RowPersisted m) c1))) as Hsl2
      by (intros p Hp; by apply slot_echo, Hslot1).
    destruct (lateThrow a); [by split|].
    destruct (abortSignaled a) eqn:Hab; simpl.
    + split; [done|]. split; [done|]. intros s' [= <-]. split; [|intros Hu; by specialize (Hun Hu)].
      intros x [Hx|Hx%list_elem_of_singleton]%elem_of_app; [by left|subst x; right]. split; [by left|done].
    + apply (Hgo (successful ++ [m]) (RowPersisted m)); [done|done|by intros ?|apply quiet_echo|intros p Hp; by apply slot_echo|].
      intros x [Hx|Hx%list_elem_of_singleton]%elem_of_app; [by left|by right].
  - apply (Hgo successful (RowDeduplicated m)); [done|done|by intros ?|apply quiet_refl|done|by left].
Qed.

Lemma batch_turn_ok head tails trust successful c :
  alike (head :: tails) → classifySlash (content head) = passthrough →
  (is_Some (trustContext head) → trust = trustContext head) →
  (∀ m, m ∈ successful → m ∈ [head] ∨ (m ∈ tails ∧ classifySlash (content m) = passthrough)) →
  slot_names (sourceActorPrincipalId head) c → turn_ok (batch_turn head trust successful c).
Proof.
  intros Ha Hp Ht Hin Hslot m Hm. simpl in *.
  assert (∀ x, x ∈ successful → x ∈ head :: tails) as Hsub.
  { intros x [Hx%list_elem_of_singleton|[Hx _]]%Hin; [subst x; by left|by right]. }
  destruct (Ha m head (Hsub m Hm) ltac:(by left)) as (Hpr & Htr & _).
  split; [intros Ho; by rw Hpr Hslot|]. split.
  { intros Hs. rw Ht //. by rw -(fmap_is_Some trust_identity) -Htr fmap_is_Some. }
  split; [destruct (Hin m Hm) as [Hx%list_elem_of_singleton|[_ ?]]; [by subst m|done]|].
  intros m' Hm'. destruct (Ha m' m (Hsub m' Hm') (Hsub m Hm)) as (_ & ? & ?). done.
Qed.

(** The end of a batch whose head was persisted. *)
Lemma batch_end_fine head tails trust c c1 (ab : bool) :
  alike (head :: tails) → classifySlash (content head) = passthrough →
  (is_Some (trustContext head) → trust = trustContext head) →
  quiet [head] c c1 → settled_since c c1 head → (unaborted c → ab = false) → slot_names (sourceActorPrincipalId head) c1 →
  fine (head :: tails) c
    (let '(c2, successful) := if ab then (c1, Some [head]) else persist_tails others tails [head] c1 in
     match successful with
     | Some successful => (emit (TurnStarted (batch_turn head trust successful c2)) c2, Done)
     | None => (c2, Raised false)
     end).
Proof.
  intros Ha Hp Ht Hq Hset Hab Hslot. destruct ab.
  - eapply finished_turn; [exact Hq|by apply sublist_skip, sublist_nil_l| |by intros Hu; specialize (Hab Hu)].
    eapply batch_turn_ok; [done..| |done]. by left.
  - pose proof (persist_tails_spec tails [head] c1) as Hp1.
    destruct (persist_tails others tails [head] c1) as [c2 r]. simpl in Hp1. destruct Hp1 as (Hq1 & Hsl1 & Hs1).
    pose proof (quiet_trans [head] tails _ _ _ Hq Hq1) as Hq2.
    destruct r as [s'|]; [|exact Hq2]. destruct (Hs1 s' eq_refl) as [Hin Htails].
    eapply finished_turn; [exact Hq2|done|eapply batch_turn_ok; [done..|by apply Hsl1]|].
    pose proof (quiet_extends _ _ _ Hq) as He. pose proof (quiet_extends _ _ _ Hq1) as He1.
    intros Hu m [->|Hm]%elem_of_cons; [by apply (settled_later _ _ c1)|].
    apply (settled_earlier _ _ c1); [done..|]. apply Htails; [|done].
    by apply (q_unaborted _ _ _ Hq).
Qed.

Lemma batch_fine batch c :
  alike batch → length (incoming c) < bound → fine batch c (drainBatch others drainQueue_rec batch c).
Proof.
  revert c. induction batch as [|head tails IH]; intros c Ha Hb; simpl.
  { destruct c. exact (finished_requeue [] [] false _ _ (quiet_refl _ _) (sublist_nil_l _)). }
  pose proof (quiet_await c) as Hq0. pose proof (await_unaborted c) as Hun.
  destruct (await c) as [a ca]. simpl in Hq0, Hun.
  destruct (processing ca || lockHeld a).
  { by apply (finished_requeue []); [|apply sublist_nil_l]. }
  destruct (setupThrows a); [by eapply quiet_weaken; [exact Hq0|apply sublist_nil_l]|].
  pose proof (quiet_then _ _ _ _ (quiet_first _ _ _ _ (quiet_then _ _ _ _ Hq0 (quiet_context head ca))
    (quiet_announce head _)) (quiet_overwrite _)) as Hq1. cbv zeta.
  assert (slot_names (sourceActorPrincipalId head) (overwrite others (announceDequeue head (applyTurnContext head ca)))) as Hslot
    by by apply slot_overwrite, slot_announce.
  set (c1 := overwrite others (announceDequeue head _)) in *.
  assert (alike tails) as Hat by (eapply alike_sub; [|exact Ha]; by right).
  (* the rest of the batch, the head being settled *)
  assert (∀ c2, quiet [head] c c2 → settled_since c c2 head →
    fine (head :: tails) c match tails with
      | [] => drainQueue_rec c2
      | [m] => drainSingleMessage others drainQueue_rec m false c2
      | _ => drainBatch others drainQueue_rec tails c2
      end) as Hrem.
  { intros c2 Hq2 Hs. pose proof (incoming_bound _ _ _ Hq2 Hb) as Hb2.
    eapply (fine_trans [head] tails); [exact Hq2| |done|].
    - destruct tails as [|m [|m2 tails]]; [by apply rec_fine|by apply single_fine|by apply IH].
    - intros m [->|Hm]%elem_of_cons; [by right|by left]. }
  assert (∀ e c2, settles head e → good_event e → ¬ queue_event e → quiet [head] c c2 →
    quiet [head] c (emit e c2) ∧ settled_since c (emit e c2) head) as Hsettle.
  { intros e c2 He Hg Hn Hq2. split; [eapply quiet_then; [exact Hq2|by apply quiet_emit]|].
    apply settled_emit; [extended|done]. }
  pose proof (λ b, quiet_then _ _ _ _ Hq1 (quiet_processing b c1)) as Hqp.
  destruct (slashThrows a).
  { eapply quiet_weaken; [exact Hq1|]. by apply sublist_skip, sublist_nil_l. }
  case_bool_decide as Hpass; simpl.
  2:{ destruct (Hsettle (ErrorEvent head) (with_processing false c1)) as [? ?];
        [done|done|by intros ?|apply Hqp|]. by apply Hrem. }
  destruct (persistence a).
  - destruct (Hsettle (RowPersisted head) (with_processing true c1)) as [Hq2 Hs2];
      [done|done|by intros ?|apply Hqp|].
    pose proof (quiet_then _ _ _ _ Hq2 (quiet_echo head _)) as Hq3.
    destruct (lateThrow a).
    { eapply quiet_weaken; [exact Hq3|]. by apply sublist_skip, sublist_nil_l. }
    apply batch_end_fine; [done..| |exact Hq3| |done|by apply slot_echo].
    + intros [t Ht]. unfold turnTrustContext. by rw Ht.
    + eapply settled_later; [exact Hs2|extended|]. eapply quiet_extends, quiet_echo.
  - destruct (Hsettle (RowDeduplicated head) c1) as [? ?]; [done|done|by intros ?|done|].
    by apply Hrem.
  - eapply finished_requeue; [exact Hq1|]. by apply sublist_skip, sublist_nil_l.
  - destruct (Hsettle (ErrorEvent head) c1) as [? ?]; [done|done|by intros ?|done|].
    by apply Hrem.
Qed.

(** ** Dispatch *)

Lemma dispatch_fine K steered d c :
  fine K c (d c) →
  finished K c (dispatchDrainWithRestore K steered d c).1 ∧
  (dispatchDrainWithRestore K steered d c).2 ≠ Raised false ∧
  (dispatchDrainWithRestore K steered d c).2 ≠ Exhausted.
Proof.
  unfold fine, dispatchDrainWithRestore. destruct (d c) as [c1 [|[]|]]; simpl; [done|done| |done].
  intros Hq. split; [by eapply finished_requeue|done].
Qed.

(** Taking the messages in hand from the head of the queue. *)
Lemma finished_pop K c q c2 :
  items (queue c) = K ++ items q → finished K (with_queue q c) c2 → finished [] c c2.
Proof.
  intros Hi [Hs Hl Hu Ht].
  assert (K ++ incoming (with_queue q c) = incoming c) as He.
  { unfold incoming. simpl. by rw Hi app_assoc. }
  rw He in Hs. rw He in Hl. split; [done|done|done|]. intros Hc. apply Ht.
  unfold tidy in *. by rw He.
Qed.

Lemma dispatch_popped K steered d c q :
  items (queue c) = K ++ items q → fine K (with_queue q c) (d (with_queue q c)) →
  fine [] c (dispatchDrainWithRestore K steered d (with_queue q c)).
Proof.
  intros Hi Hf. destruct (dispatch_fine K steered d _ Hf) as (H1 & H2 & H3).
  pose proof (finished_pop _ _ _ _ Hi H1) as Hp. unfold fine.
  by destruct (dispatchDrainWithRestore _ _ _ _).2 as [|[]|].
Qed.

Lemma repair_quiet durable a c : quiet [] c (repairInterruptedToolUseBlocks durable a c).1.
Proof. apply quiet_untouched. unfold repairInterruptedToolUseBlocks. by repeat case_match. Qed.

(** ** The batch *)

Lemma queue_fields n q : 0 < n ≤ length (items q) →
  (shiftN (Z.of_nat n) q).2 = take n (items q) ∧ items (shiftN (Z.of_nat n) q).1 = drop n (items q).
Proof.
  intros Hn. unfold shiftN.
  assert (Z.to_nat (Z.min (Z.max 0 (Z.of_nat n)) (Z.of_nat (length (items q)))) = n) as -> by lia.
  rw (proj2 (Nat.eqb_neq n 0)) //. lia.
Qed.

Lemma joins_spec c head m :
  joins directSetup c head m = true →
  classifySlash (content m) = passthrough ∧ sourceActorPrincipalId m = sourceActorPrincipalId head ∧
  trust_identity <$> trustContext m = trust_identity <$> trustContext head ∧ cronRunId m = cronRunId head.
Proof.
  unfold joins, drains_alone.
  rw !andb_true_iff !bool_decide_eq_true sameTrustIdentity_spec negb_true_iff.
  rw !orb_false_iff negb_false_iff bool_decide_eq_true. tauto.
Qed.

Lemma run_length_spec c head l :
  let n := run_length directSetup c head l in
  n ≤ length l ∧ Forall (λ m, joins directSetup c head m = true) (take n l) ∧
  (∀ m, l !! n = Some m → joins directSetup c head m = false).
Proof.
  induction l as [|x l IH]; simpl; [done|]. destruct (joins directSetup c head x) eqn:Hj; simpl.
  - destruct IH as (Hn & Hf & Hl). split; [lia|]. split; [by constructor|done].
  - split; [lia|]. split; [constructor|]. by intros m [= <-].
Qed.

(** What [buildPassthroughBatch] takes: the whole joining run behind a head
    that need not drain alone. *)
Lemma batch_spec c :
  let '(c', batch) := buildPassthroughBatch directSetup c in
  c' = with_queue (queue c') c ∧ items (queue c) = batch ++ items (queue c') ∧
  match batch with
  | [] => c' = c ∧ ∀ m, items (queue c) !! 0 = Some m → drains_alone directSetup c m = true
  | head :: tails => drains_alone directSetup c head = false ∧
      Forall (λ m, joins directSetup c head m = true) tails ∧
      (∀ m, items (queue c') !! 0 = Some m → joins directSetup c head m = false)
  end.
Proof.
  unfold buildPassthroughBatch, peek.
  destruct (items (queue c)) as [|head rest] eqn:Hq; simpl; [by destruct c|].
  destruct (drains_alone directSetup c head) eqn:Ha.
  { split; [by destruct c|]. do 2 (split; [done|]). by intros m [= <-]. }
  rw drop_0. destruct (run_length_spec c head rest) as (Hn & Hf & Hl).
  set (n := run_length directSetup c head rest) in *.
  destruct (queue_fields (S n) (queue c) ltac:(rewrite Hq /=; lia)) as [He Hi].
  destruct (shiftN (Z.of_nat (S n)) (queue c)) as [q batch]. simpl in *.
  rw Hq in He Hi. simpl in *. subst batch.
  split; [done|]. split; [by rw Hi /= take_drop|]. split; [done|]. split; [done|].
  intros m. rw Hi. rw lookup_drop Nat.add_0_r. apply Hl.
Qed.

Lemma joined_alike c head tails :
  Forall (λ m, joins directSetup c head m = true) tails → alike (head :: tails).
Proof.
  intros Hf. assert (∀ m, m ∈ head :: tails → sourceActorPrincipalId m = sourceActorPrincipalId head ∧
    trust_identity <$> trustContext m = trust_identity <$> trustContext head ∧
    cronRunId m = cronRunId head) as Hh.
  { intros m [->|Hm]%elem_of_cons; [done|]. rw Forall_forall in Hf. by apply (joins_spec c), Hf. }
  intros m m' Hm Hm'. destruct (Hh m Hm) as (-> & -> & ->), (Hh m' Hm') as (-> & -> & ->). done.
Qed.

Lemma popped_bound K c q : items (queue c) = K ++ items q → K ≠ [] →
  length (incoming c) < S bound → length (incoming (with_queue q c)) < bound.
Proof.
  unfold incoming. simpl. intros -> HK. rw !length_app. destruct K; simpl; [done|lia].
Qed.

Lemma shift_spec q : match shift q with
  | (q', Some m) => items q = [m] ++ items q'
  | (q', None) => q' = q ∧ items q = []
  end.
Proof. unfold shift. by destruct (items q). Qed.

Lemma drain_one_fine steered c :
  length (incoming c) < S bound →
  fine [] c match shift (queue c) with
    | (_, None) => (c, Done)
    | (q, Some next) =>
        dispatchDrainWithRestore [next] steered (drainSingleMessage others drainQueue_rec next steered)
          (with_queue q c)
    end.
Proof.
  intros Hb. pose proof (shift_spec (queue c)) as Hs. destruct (shift (queue c)) as [q [next|]].
  - apply dispatch_popped; [done|]. by apply single_fine, (popped_bound [next]).
  - destruct c. exact (finished_requeue [] [] false _ _ (quiet_refl _ _) (sublist_nil_l _)).
Qed.

Lemma drain_step_fine c :
  length (incoming c) < S bound → fine [] c (drain_step directSetup others drainQueue_rec c).
Proof.
  intros Hb. unfold drain_step. pose proof (quiet_await c) as Hq0.
  destruct (await c) as [a ca]. simpl in Hq0.
  pose proof (quiet_then _ _ _ _ Hq0 (repair_quiet (pendingInterruptRepair ca) a ca)) as Hq1.
  destruct (repairInterruptedToolUseBlocks _ a ca) as [c1 threw]. simpl in Hq1.
  destruct threw; [done|].
  assert (length (incoming c1) < S bound) as Hb1.
  { pose proof (sublist_length _ _ (q_incoming _ _ _ Hq1)). lia. }
  eapply (fine_trans [] []); [exact Hq1| |done|by left].
  destruct (pendingSteerRepair c); [by apply drain_one_fine|].
  pose proof (batch_spec c1) as Hbat. destruct (buildPassthroughBatch directSetup c1) as [c2 batch].
  destruct Hbat as (Hc2 & Hi & Hbat). destruct batch as [|head tails].
  { destruct Hbat as [-> _]. by apply drain_one_fine. }
  destruct Hbat as (_ & Hf & _). rw Hc2.
  destruct tails as [|m tails]; (apply dispatch_popped; [done|]).
  - by apply single_fine, (popped_bound [head]).
  - apply batch_fine; [by eapply joined_alike|]. by apply (popped_bound (head :: m :: tails)).
Qed.
End safety.

Lemma drainQueue_fine directSetup fuel c :
  length (incoming c) < fuel → fine [] c (drainQueue directSetup others fuel c).
Proof.
  revert c. induction fuel as [|fuel IH]; intros c Hb; simpl; [lia|].
  by apply (drain_step_fine directSetup _ fuel).
Qed.

Lemma quiet_finished c c' : quiet [] c c' → finished [] c c'.
Proof.
  intros Hq. split; [apply Hq| |apply Hq|].
  - destruct (q_log _ _ _ Hq) as (new & Hl & Hg & Hc). exists new. by split; [|split].
  - apply (quiet_tidy [] []), Hq.
Qed.

Lemma finished_compose c1 c2 c3 : finished [] c1 c2 → finished [] c2 c3 → finished [] c1 c3.
Proof.
  intros H1 H2. split.
  - etransitivity; [apply H2|apply H1].
  - destruct (f_log _ _ _ H1) as (n1 & Hl1 & Hg1 & Hc1), (f_log _ _ _ H2) as (n2 & Hl2 & Hg2 & Hc2).
    exists (n1 ++ n2). rw Hl2 Hl1 app_assoc. split; [done|]. split; [by apply Forall_app|].
    intros Hu m Hm. rw Exists_app. destruct (Hc1 Hu m Hm) as [Hm1|]; [|tauto].
    destruct (Hc2 (f_unaborted _ _ _ H1 Hu) m Hm1); tauto.
  - intros Hu. by apply (f_unaborted _ _ _ H2), (f_unaborted _ _ _ H1).
  - intros Ht. by apply (f_tidy _ _ _ H2), (f_tidy _ _ _ H1).
Qed.

Lemma notify_quiet c : quiet [] c (notify_stranded c).
Proof.
  unfold notify_stranded. generalize (items (queue c)) as l. intros l. revert c.
  induction l as [|m l IH]; intros c; simpl; [apply quiet_refl|].
  eapply quiet_first; [|apply IH]. case_match; [apply quiet_refl|by apply quiet_emit; [|intros ?]].
Qed.

Lemma drainQueue__finished directSetup c :
  finished [] c (drainQueue_ directSetup others c).1 ∧ (drainQueue_ directSetup others c).2 ≠ Exhausted.
Proof.
  pose proof (drainQueue_fine directSetup (S (length (incoming c))) c ltac:(lia)) as Hf.
  unfold fine, drainQueue_ in *. destruct (drainQueue _ _ _ _).2 as [|[]|]; [done|done| |done].
  split; [by apply quiet_finished|done].
Qed.

Lemma kick_finished directSetup c :
  finished [] c (kickQueueDrain directSetup others c).1 ∧ (kickQueueDrain directSetup others c).2 = Done.
Proof.
  unfold kickQueueDrain. destruct (drainQueue__finished directSetup c) as [H1 He1].
  destruct (drainQueue_ directSetup others c) as [c1 [|b|]]; simpl in *; [done| |done].
  destruct (drainQueue__finished directSetup c1) as [H2 He2].
  destruct (drainQueue_ directSetup others c1) as [c2 [|b2|]]; simpl in *; [|split; [|done]|done].
  - split; [by eapply finished_compose|done].
  - eapply finished_compose; [exact H1|]. eapply finished_compose; [exact H2|].
    apply quiet_finished, notify_quiet.
Qed.

(** ** The theorems *)

(** A drain terminates whatever it meets: with one unit of fuel more than
    the messages that wait or arrive while it runs, the recursion of [drainQueue]
    through dropped messages, slash commands and shrinking batches never runs
    out, and [kickQueueDrain] never rejects. *)
Theorem drains_terminate directSetup c fuel :
  (length (incoming c) < fuel → (drainQueue directSetup others fuel c).2 ≠ Exhausted) ∧
  (kickQueueDrain directSetup others c).2 = Done.
Proof.
  split; [|apply kick_finished]. intros Hb.
  pose proof (drainQueue_fine directSetup fuel c Hb) as Hf. unfold fine in Hf.
  by destruct (drainQueue directSetup others fuel c).2 as [|[]|].
Qed.

(** C1 — No message is lost, duplicated, invented or overtaken: whatever
    throws, is refused or is put back on the way, the messages that wait after a
    drain are a subsequence of those that waited or arrived, and each of the
    others is persisted, deduplicated, answered, reported to its sender as an
    error or refused — unless the turn is aborted while its batch is persisted
    ([aborted_batch_drops_its_tails]). *)
Theorem no_message_is_lost directSetup c :
  let c' := (kickQueueDrain directSetup others c).1 in
  incoming c' `sublist_of` incoming c ∧
  ∃ new, log c' = log c ++ new ∧
    (unaborted c → ∀ m, m ∈ incoming c → m ∈ incoming c' ∨ Exists (settles m) new).
Proof.
  destruct (kick_finished directSetup c) as [[Hi (new & Hl & _ & Hc) _ _] _].
  split; [done|]. by exists new.
Qed.

(** Clients are never left wrong about the queue: if the dequeue flags of
    the queued messages agree with the events clients were sent and no waiting
    message was announced, both hold after a drain, on every path: a message
    that went back to the queue after its announcement was announced back. *)
Theorem queue_view_stays_true directSetup c :
  let c' := (kickQueueDrain directSetup others c).1 in
  dequeueAnnounced c = client_view (log c) → NoDup (objects (incoming c)) →
  (∀ m, m ∈ incoming c → object m ∉ client_view (log c)) →
  dequeueAnnounced c' = client_view (log c') ∧
  ∀ m, m ∈ incoming c' → object m ∉ client_view (log c').
Proof.
  intros c' Hv Hn Hc. destruct (kick_finished directSetup c) as [[_ _ _ Ht] _].
  destruct Ht as (Hv' & _ & Hc'); [by split; [|split; [|rewrite Hv]]|].
  split; [done|]. intros m Hm. unfold c' in *. rw -Hv'. by apply Hc'.
Qed.

(** C15 — A turn never runs a message under another sender's trust: every turn a
    drain starts carries, for each of its messages that has a trust context, the
    message's class, channel and sender fields; its messages share those fields
    and their scheduled firing, and none of them is a slash command.  The
    principal is not passed to the turn but left in a slot of the conversation:
    what the slot holds when the loop is entered is the principal of each of the
    turn's messages, provided no other request stores into the slot while the
    drain waits ([stored_principal_reaches_the_turn] is what happens otherwise). *)
Theorem turns_run_as_their_senders directSetup c :
  ∃ new, log (kickQueueDrain directSetup others c).1 = log c ++ new ∧
    ∀ t, TurnStarted t ∈ new → turn_ok t.
Proof.
  destruct (kick_finished directSetup c) as [[_ (new & Hl & Hg & _) _ _] _].
  exists new. split; [done|]. intros t Ht. rw Forall_forall in Hg. exact (Hg _ Ht).
Qed.

(** [buildPassthroughBatch] takes exactly the longest run: nothing when the
    head must drain alone, otherwise the head and every message behind it up to
    the first that does not join it, leaving the rest of the queue in order. *)
Theorem batch_is_the_longest_run directSetup c :
  let '(c', batch) := buildPassthroughBatch directSetup c in
  items (queue c) = batch ++ items (queue c') ∧
  match batch with
  | [] => ∀ m, items (queue c) !! 0 = Some m → drains_alone directSetup c m = true
  | head :: tails => drains_alone directSetup c head = false ∧ all_passthrough tails ∧
      alike (head :: tails) ∧ (∀ m, m ∈ tails → joins directSetup c head m = true) ∧
      (∀ m, items (queue c') !! 0 = Some m → joins directSetup c head m = false)
  end.
Proof.
  pose proof (batch_spec directSetup c) as Hb. destruct (buildPassthroughBatch directSetup c) as [c' batch].
  destruct Hb as (_ & Hi & Hb). split; [done|]. destruct batch as [|head tails]; [apply Hb|].
  destruct Hb as (Ha & Hf & Hn). split; [done|]. split.
  { eapply Forall_impl; [exact Hf|]. intros m Hm. by apply (joins_spec directSetup c head). }
  split; [by eapply joined_alike|]. split; [|done]. by rw Forall_forall in Hf.
Qed.

(** ** What a drain does not keep *)

(** Whom an event is about. *)
Definition subjects (e : event) : list QueuedMessage :=
  match e with
  | MessageDequeued m | MessageRequeued m _ | UserMessageEcho m | ErrorEvent m | QueueDrainFailed m
  | SlashAnswered m | RowPersisted m | RowDeduplicated m | Refused m => [m]
  | TurnStarted t => turnMessages t
  end.

(** An answer that lets the drain pass up to the persist. *)
Definition passes (c : Conversation) (a : answer) : Prop :=
  processing c = false ∧ lockHeld a = false ∧ setupThrows a = false ∧ slashThrows a = false ∧
  arrivals a = [].

Lemma await_quiet_answer c a s : script c = a :: s → arrivals a = [] → await c = (a, with_script s c).
Proof. intros Hs Ha. unfold await. by rw Hs Ha. Qed.

Lemma announce_only m c : ∃ new, log (announceDequeue m c) = log c ++ new ∧
  Forall (λ e, subjects e = [m]) new ∧ queue (announceDequeue m c) = queue c.
Proof.
  unfold announceDequeue. case_match; [exists []; by rw app_nil_r|].
  exists [MessageDequeued m]. by repeat constructor.
Qed.

Lemma announced_only m c : let c' := overwrite others (announceDequeue m c) in
  ∃ new, log c' = log c ++ new ∧ Forall (λ e, subjects e = [m]) new ∧ queue c' = queue c.
Proof. exact (announce_only m c). Qed.

Lemma echo_only m c : ∃ new, log (echo m c) = log c ++ new ∧
  Forall (λ e, subjects e = [m]) new ∧ queue (echo m c) = queue c.
Proof.
  unfold echo. case_match; [exists []; by rw app_nil_r|].
  exists [UserMessageEcho m]. by repeat constructor.
Qed.

Lemma context_only m c : log (applyTurnContext m c) = log c ∧ queue (applyTurnContext m c) = queue c ∧
  script (applyTurnContext m c) = script c ∧ processing (applyTurnContext m c) = processing c.
Proof. unfold applyTurnContext. by case_match. Qed.

(** A batch whose turn is aborted while its head is persisted drops its
    other messages: the loop stops, the turn of the head starts, and no event
    mentions them, although they have left the queue. *)
Theorem aborted_batch_drops_its_tails (rec : Conversation → Conversation * outcome) head tails a s c :
  script c = a :: s → passes c a → persistence a = Persisted → lateThrow a = false →
  abortSignaled a = true → classifySlash (content head) = passthrough →
  let '(c', r) := drainBatch others rec (head :: tails) c in
  r = Done ∧ items (queue c') = items (queue c) ∧
  ∃ new, log c' = log c ++ new ∧ Forall (λ e, subjects e = [head]) new.
Proof.
  intros Hs (Hp & Hlock & Hset & Hsl & Harr) Hper Hlate Hab Hpass. simpl.
  rw (await_quiet_answer c a s) //= Hp Hlock Hset Hsl Hpass /= Hper Hlate Hab.
  destruct (context_only head (with_script s c)) as (Hl0 & Hq0 & _).
  set (c0 := applyTurnContext head _) in *.
  destruct (announced_only head c0) as (n1 & Hl1 & Hf1 & Hq1). set (c1 := overwrite others (announceDequeue head c0)) in *.
  destruct (echo_only head (emit (RowPersisted head) (with_processing true c1))) as (n2 & Hl2 & Hf2 & Hq2).
  simpl in *. split; [done|]. split; [by rw Hq2 Hq1 Hq0|].
  rw Hl2 Hl1 Hl0 -!app_assoc. eexists. split; [reflexivity|].
  rw !Forall_app. split; [done|]. split; [by repeat constructor|]. split; [done|by repeat constructor].
Qed.

Lemma requeue_items ms steered c :
  items (queue (requeueDrainedMessages ms steered c)) = ms ++ items (queue c) ∧
  extends c (requeueDrainedMessages ms steered c) ∧
  processing (requeueDrainedMessages ms steered c) = processing c.
Proof.
  unfold requeueDrainedMessages.
  set (c2 := if steered then _ else _).
  assert (queue c2 = foldr unshift (queue c) ms ∧ log c2 = log c ∧ processing c2 = processing c)
    as (Hq & Hl & Hp) by (by unfold c2; case_match).
  destruct (corrections_spec ms c2) as (Hq2 & _ & (new & Hl2 & _) & _).
  split; [by rw Hq2 Hq foldr_unshift|]. split; [exists new; by rw Hl2 Hl|].
  clearbody c2. rw -Hp. clear. revert c2. induction ms as [|m ms IH]; intros c; simpl; [done|].
  rw IH. unfold correct_announcement. by repeat case_match.
Qed.

(** What the steps up to the persist leave alone. *)
Lemma steps_only m c : let c' := overwrite others (announceDequeue m (applyTurnContext m c)) in
  script c' = script c ∧ processing c' = processing c ∧ queue c' = queue c ∧ extends c c'.
Proof.
  unfold announceDequeue, applyTurnContext.
  repeat case_match; simpl; (repeat split; [done..|]); (by exists []; rw app_nil_r) || by eexists.
Qed.

(** A message whose sender was told that it failed can run after all: when
    the head of a batch fails to persist and the dispatch of the message behind
    it throws, the exception carries no mark, and the restore puts the failed
    head back in the queue too. *)
Theorem failed_head_is_resurrected (rec : Conversation → Conversation * outcome)
    head tail_ a1 a2 s c :
  script c = a1 :: a2 :: s → passes c a1 → persistence a1 = PersistFailed →
  arrivals a2 = [] → lockHeld a2 = false → setupThrows a2 = true →
  classifySlash (content head) = passthrough →
  let '(c', r) := dispatchDrainWithRestore [head; tail_] false (drainBatch others rec [head; tail_]) c in
  r = Raised true ∧ items (queue c') = head :: tail_ :: items (queue c) ∧
  ∃ new, log c' = log c ++ new ∧ ErrorEvent head ∈ new.
Proof.
  intros Hs (Hp & Hlock & Hset & Hsl & Harr) Hper Harr2 Hlock2 Hset2 Hpass.
  unfold dispatchDrainWithRestore. simpl.
  rw (await_quiet_answer c a1 (a2 :: s)) //= Hp Hlock Hset Hsl Hpass /= Hper.
  destruct (steps_only head (with_script (a2 :: s) c)) as (Hs1 & Hp1 & Hq1 & n1 & Hl1).
  set (c1 := overwrite others (announceDequeue head _)) in *. simpl in *.
  unfold drainSingleMessage. rw (await_quiet_answer (emit (ErrorEvent head) c1) a2 s) //=.
  rw Hp1 Hp Hlock2 Hset2 /=.
  set (c2 := announceDequeue tail_ _).
  destruct (requeue_items [head; tail_] false c2) as (Hi & [n3 Hl3] & _).
  destruct (announce_only tail_ (with_script s (emit (ErrorEvent head) c1))) as (n2 & Hl2 & _ & Hq2).
  split; [done|]. split; [by rw Hi /c2 Hq2 /= Hq1|].
  rw Hl3 /c2 Hl2 /= Hl1 -!app_assoc. eexists. split; [reflexivity|]. set_solver.
Qed.

Lemma requeue_only ms steered c : ∃ new, log (requeueDrainedMessages ms steered c) = log c ++ new ∧
  Forall (λ e, ∃ m n, e = MessageRequeued m n) new.
Proof.
  unfold requeueDrainedMessages. set (c2 := if steered then _ else _).
  assert (log c2 = log c) as <- by (by unfold c2; case_match).
  clearbody c2. clear. revert c2. induction ms as [|m ms IH]; intros c; simpl; [exists []; by rw app_nil_r|].
  destruct (IH (correct_announcement c m)) as (n2 & -> & Hf2).
  assert (∃ n1, log (correct_announcement c m) = log c ++ n1 ∧
    Forall (λ e, ∃ m n, e = MessageRequeued m n) n1) as (n1 & -> & Hf1).
  { unfold correct_announcement.
    repeat case_match; simpl; try (by exists []; rw app_nil_r).
    eexists. split; [reflexivity|]. repeat constructor; eauto. }
  exists (n1 ++ n2). rw app_assoc. split; [done|by apply Forall_app].
Qed.

(** A drain of a queue of one message, nothing being due for repair. *)
Lemma drain_step_single directSetup rec c m a c0 :
  await c = (a, c0) → items (queue c0) = [m] → pendingSteerRepair c = false →
  pendingSteerRepair c0 = false → pendingInterruptRepair c0 = false →
  ∃ q, items q = [] ∧ drain_step directSetup others rec c =
    dispatchDrainWithRestore [m] false (drainSingleMessage others rec m false) (with_queue q c0).
Proof.
  intros Ha Hi Hst Hst0 Hin0. unfold drain_step. rw Ha Hst.
  unfold repairInterruptedToolUseBlocks. rw Hst0 Hin0 /=.
  pose proof (batch_spec directSetup c0) as Hb.
  destruct (buildPassthroughBatch _ _) as [c' batch]. destruct Hb as (Hc' & Hi' & Hb).
  rw Hi in Hi'. destruct batch as [|x [|y batch]]; simpl in *; [| |by destruct batch].
  - destruct Hb as [-> _]. unfold shift. rw Hi. eexists. split; [|reflexivity]. done.
  - injection Hi' as <- Hi'. exists (queue c'). by rw -Hc' -Hi'.
Qed.

(** What a restore without a steer leaves alone. *)
Lemma requeue_fields ms c : let c' := requeueDrainedMessages ms false c in
  script c' = script c ∧ processing c' = processing c ∧
  pendingSteerRepair c' = pendingSteerRepair c ∧ pendingInterruptRepair c' = pendingInterruptRepair c.
Proof.
  unfold requeueDrainedMessages. generalize (foldr unshift (queue c) ms) as q. intros q.
  change (script c) with (script (with_queue q c)). change (processing c) with (processing (with_queue q c)).
  change (pendingSteerRepair c) with (pendingSteerRepair (with_queue q c)).
  change (pendingInterruptRepair c) with (pendingInterruptRepair (with_queue q c)).
  generalize (with_queue q c) as c2. clear. induction ms as [|m ms IH]; intros c; simpl; [done|].
  destruct (IH (correct_announcement c m)) as (-> & -> & -> & ->).
  unfold correct_announcement. by repeat case_match.
Qed.

(** A message that is persisted and whose turn then fails to start. *)
Lemma failed_start rec m a s c :
  script c = a :: s → passes c a → persistence a = Persisted → lateThrow a = true →
  classifySlash (content m) = passthrough →
  let '(c', r) := drainSingleMessage others rec m false c in
  r = Raised false ∧ queue c' = queue c ∧ script c' = s ∧ processing c' = true ∧
  pendingSteerRepair c' = pendingSteerRepair c ∧ pendingInterruptRepair c' = pendingInterruptRepair c ∧
  ∃ new, log c' = log c ++ new ∧ RowPersisted m ∈ new ∧
    Forall (λ e, match e with TurnStarted _ | QueueDrainFailed _ => False | _ => True end) new.
Proof.
  intros Hs (Hp & Hlock & Hset & Hsl & Ha) Hper Hlate Hpass. unfold drainSingleMessage, run_single.
  rw (await_quiet_answer c a s) //= Hp Hlock Hset Hsl Hpass /= Hper Hlate.
  unfold applyTurnContext, echo, announceDequeue.
  repeat case_match; simpl; (repeat split; [done..|]); rw -?app_assoc;
    (eexists; split; [reflexivity|split; [set_solver|by repeat constructor]]).
Qed.

(** A turn that fails to start after its message was persisted strands it:
    the restore queues the message again but nothing releases the processing
    lock, so the retry of [kickQueueDrain] finds the lock held and returns as if
    another turn would drain the queue; no turn runs and no sender is told. *)
Theorem failed_start_strands_the_queue directSetup c m a1 a2 :
  items (queue c) = [m] → pendingSteerRepair c = false → pendingInterruptRepair c = false →
  script c = [a1; a2] → arrivals a1 = [] → passes c a2 → persistence a2 = Persisted →
  lateThrow a2 = true → classifySlash (content m) = passthrough →
  let '(c', r) := kickQueueDrain directSetup others c in
  r = Done ∧ items (queue c') = [m] ∧ processing c' = true ∧
  ∃ new, log c' = log c ++ new ∧ RowPersisted m ∈ new ∧
    ∀ e, e ∈ new → match e with TurnStarted _ | QueueDrainFailed _ => False | _ => True end.
Proof.
  intros Hi Hst Hin Hs Ha1 Hpass Hper Hlate Hsl. unfold kickQueueDrain, drainQueue_. simpl.
  destruct (drain_step_single directSetup (drainQueue directSetup others (length (incoming c))) c m a1
    (with_script [a2] c)) as (q & Hq & ->); [by apply await_quiet_answer|done..|].
  set (rec := drainQueue directSetup others (length (incoming c))).
  set (c0 := with_queue q (with_script [a2] c)).
  pose proof (failed_start rec m a2 [] c0 eq_refl Hpass Hper Hlate Hsl) as H1.
  unfold dispatchDrainWithRestore at 1. destruct (drainSingleMessage others rec m false c0) as [c1 r1].
  destruct H1 as (-> & Hq1 & Hs1 & Hp1 & Hst1 & Hin1 & n1 & Hl1 & Hrow & Hf1).
  destruct (requeue_fields [m] c1) as (Hs2 & Hp2 & Hst2 & Hin2).
  destruct (requeue_items [m] false c1) as (Hi2 & _ & _), (requeue_only [m] false c1) as (n2 & Hl2 & Hf2).
  set (c2 := requeueDrainedMessages [m] false c1) in *.
  assert (await c2 = (calm, c2)) as Haw by (unfold await; by rw Hs2 Hs1).
  destruct (drain_step_single directSetup (drainQueue directSetup others (length (incoming c2))) c2 m calm c2)
    as (q2 & Hq2 & ->); [done| |by rw ?Hst2 ?Hst1 ?Hin2 ?Hin1..|].
  { by rw Hi2 Hq1 /= Hq. }
  unfold dispatchDrainWithRestore, drainSingleMessage.
  assert (await (with_queue q2 c2) = (calm, with_queue q2 c2)) as -> by (unfold await; by rw /= Hs2 Hs1).
  simpl. rw Hp2 Hp1 /=.
  destruct (requeue_items [m] false (with_queue q2 c2)) as (Hi3 & _ & Hp3).
  destruct (requeue_only [m] false (with_queue q2 c2)) as (n3 & Hl3 & Hf3). simpl in *.
  split; [done|]. split; [by rw Hi3 Hq2|]. split; [by rw Hp3 Hp2|].
  exists (n1 ++ n2 ++ n3). rw Hl3 Hl2 Hl1 -!app_assoc. split; [done|]. split; [set_solver|].
  rw Forall_forall in Hf1. rw Forall_forall in Hf2. rw Forall_forall in Hf3.
  intros e. rw !elem_of_app.
  intros [He|[He|He]]; [by apply Hf1|..]; [apply Hf2 in He|apply Hf3 in He]; by destruct He as (? & ? & ->).
Qed.

(** The principal of a turn is not passed to the loop, as its trust is: whatever another
    request stores into the conversation's slot while the drain waits is what the
    turn of the drained message finds there. *)
Theorem stored_principal_reaches_the_turn (rec : Conversation → Conversation * outcome) m p a s c :
  script c = a :: s → passes c a → persistence a = Persisted → lateThrow a = false →
  classifySlash (content m) = passthrough → (∀ c q, others c q = p) →
  ∃ t, last (log (drainSingleMessage others rec m false c).1) = Some (TurnStarted t) ∧
    turnMessages t = [m] ∧ turnTrust t = turnTrustContext m c ∧ slotPrincipal t = p.
Proof.
  intros Hs (Hp & Hlock & Hset & Hsl & Ha) Hper Hlate Hpass Ho. unfold drainSingleMessage, run_single.
  rw (await_quiet_answer c a s) //= Hp Hlock Hset Hsl Hpass /= Hper Hlate. cbn [fst].
  unfold applyTurnContext, echo, announceDequeue, turnTrustContext.
  repeat case_match; simpl; (eexists; split; [by apply last_snoc|]); by rw /= ?Ho.
Qed.

End kept.

(** ** Samples and witnesses *)

Definition sample_queue (l : list QueuedMessage) : Conversation := {|
  queue := with_items l (bytes_of l) (newMessageQueue DEFAULT_MAX_QUEUE_BYTES);
  dequeueAnnounced := ∅; processing := false; pendingSteerRepair := false;
  pendingInterruptRepair := false; turnInterface := None; surfaceActionRequestIds := ∅;
  restingTrust := None; currentTurnSourceActorPrincipalId := None; log := []; script := [] |}.

Definition answered (p : persist_outcome) (setup late aborted : bool) : answer := {|
  arrivals := []; repairFails := false; lockHeld := false; setupThrows := setup;
  slashThrows := false; handlerFails := false; persistence := p; lateThrow := late;
  abortSignaled := aborted |}.

(** No other request stores into the slot. *)
Definition undisturbed (c : Conversation) (p : option string) : option string := p.

Definition hello := sample_message 0 "r0" "hello".
Definition compact_now := sample_message 1 "r1" "/compact".
Definition again := sample_message 2 "r2" "again".
Definition more := sample_message 3 "r3" "more".

(** A slash command is answered, then the two messages behind it share a turn. *)
Example drain_sample :
  let '(c, r) := kickQueueDrain (λ _, false) undisturbed (sample_queue [compact_now; again; more]) in
  r = Done ∧ items (queue c) = [] ∧
  log c = [MessageDequeued compact_now; SlashAnswered compact_now;
    MessageDequeued again; RowPersisted again; UserMessageEcho again;
    MessageDequeued more; RowPersisted more; UserMessageEcho more;
    TurnStarted (batch_turn again None [again; more] c)].
Proof. by vm_compute. Qed.

Lemma queue_view_stays_true_witness :
  let c := sample_queue [hello; again] in
  let c' := (kickQueueDrain (λ _, false) undisturbed (with_script [calm; answered Persisted true false false] c)).1 in
  dequeueAnnounced c' = client_view (log c') ∧
  ∀ m, m ∈ incoming c' → object m ∉ client_view (log c').
Proof.
  intros c. apply (queue_view_stays_true undisturbed); [done| |].
  - by apply (bool_decide_unpack _).
  - intros m _. simpl. set_solver.
Defined.

Lemma aborted_batch_drops_its_tails_witness :
  let c := with_script [answered Persisted false false true] (sample_queue []) in
  let '(c', r) := drainBatch undisturbed (λ c, (c, Done)) [hello; again] c in
  r = Done ∧ items (queue c') = [] ∧ ∃ new, log c' = [] ++ new ∧ Forall (λ e, subjects e = [hello]) new.
Proof.
  exact (aborted_batch_drops_its_tails undisturbed (λ c, (c, Done)) hello [again]
    (answered Persisted false false true) []
    (with_script [answered Persisted false false true] (sample_queue []))
    eq_refl ltac:(by vm_compute) eq_refl eq_refl eq_refl eq_refl).
Defined.

Lemma failed_head_is_resurrected_witness :
  let s := [answered PersistFailed false false false; answered Persisted true false false] in
  let '(c', r) := dispatchDrainWithRestore [hello; again] false
    (drainBatch undisturbed (λ c, (c, Done)) [hello; again]) (with_script s (sample_queue [])) in
  r = Raised true ∧ items (queue c') = [hello; again] ∧
  ∃ new, log c' = [] ++ new ∧ ErrorEvent hello ∈ new.
Proof.
  exact (failed_head_is_resurrected undisturbed (λ c, (c, Done)) hello again
    (answered PersistFailed false false false) (answered Persisted true false false) []
    (with_script [answered PersistFailed false false false; answered Persisted true false false]
       (sample_queue []))
    eq_refl ltac:(by vm_compute) eq_refl eq_refl eq_refl eq_refl eq_refl).
Defined.

Lemma failed_start_strands_the_queue_witness :
  let '(c', r) := kickQueueDrain (λ _, false) undisturbed
    (with_script [calm; answered Persisted false true false] (sample_queue [hello])) in
  r = Done ∧ items (queue c') = [hello] ∧ processing c' = true ∧
  ∃ new, log c' = [] ++ new ∧ RowPersisted hello ∈ new ∧
    ∀ e, e ∈ new → match e with TurnStarted _ | QueueDrainFailed _ => False | _ => True end.
Proof.
  exact (failed_start_strands_the_queue undisturbed (λ _, false)
    (with_script [calm; answered Persisted false true false] (sample_queue [hello])) hello
    calm (answered Persisted false true false)
    eq_refl eq_refl eq_refl eq_refl eq_refl ltac:(by vm_compute) eq_refl eq_refl eq_refl).
Defined.
