(* ===== verification/EventHub.v ===== *)
(** * The event hub

    [assistant/src/runtime/assistant-event-hub.ts] with the two presence
    policies that read it ([runtime/desktop-presence.ts],
    [runtime/web-presence.ts]).

    Subscribers are objects: the hub's set, the handles it returns and the
    snapshot a publication works through all refer to the same one, so the model
    keeps them in a heap, named by the counter that also makes their connection
    id.  The set keeps insertion order.  [onEvict] callbacks are returned as the
    list of subscribers they are called for; their exceptions are swallowed by
    the code.  [publish] suspends at every callback: a publication in flight is
    a [fanout], and whatever the other operations do between two callbacks is
    interleaved with it.  Broadcasts go through a promise chain, one at a time;
    [publish] is also called directly, by the route workers and plugins use. *)

From S2P Require Import Prelude JsText Channels StreamState.
Local Open Scope litt_scope.

(** ** Subscribers *)

Record ClientPresence := { desktop_state : string; reportedAt : Z }.

Record ClientWebPresence := {
  visible : bool; focusedConversationId : option string; web_reportedAt : Z }.

Record ClientFields := {
  client_id : string;
  interface_id : string;
  client_capabilities : list string;
  machineName : option string;
  actorPrincipalId : option string;
  presence : option ClientPresence;
  webPresence : option ClientWebPresence;
}.

Inductive entry_type := ClientEntry (c : ClientFields) | ProcessEntry.

Record SubscriberEntry := {
  who : entry_type;
  filter_conversation : option string;
  active : bool;
  connectedAt : Z;
  lastActiveAt : Z;
  connectionId : string;
}.

Record AssistantEventHub := {
  subscribers : list nat;
  entries : gmap nat SubscriberEntry;
  maxSubscribers : option nat;  (** [None] for [Infinity] *)
  connectionCounter : nat;
}.

Definition new_hub (max : option nat) : AssistantEventHub :=
  {| subscribers := []; entries := ∅; maxSubscribers := max; connectionCounter := 0 |}.

Definition with_entries (f : gmap nat SubscriberEntry → gmap nat SubscriberEntry)
    (h : AssistantEventHub) : AssistantEventHub :=
  {| subscribers := subscribers h; entries := f (entries h); maxSubscribers := maxSubscribers h;
     connectionCounter := connectionCounter h |}.

Definition deactivate (e : SubscriberEntry) : SubscriberEntry :=
  {| who := who e; filter_conversation := filter_conversation e; active := false;
     connectedAt := connectedAt e; lastActiveAt := lastActiveAt e; connectionId := connectionId e |}.

(** [entry.active = false; this.subscribers.delete(entry)] *)
Definition drop_entry (h : AssistantEventHub) (id : nat) : AssistantEventHub :=
  {| subscribers := filter (λ i, i ≠ id) (subscribers h);
     entries := alter deactivate id (entries h);
     maxSubscribers := maxSubscribers h; connectionCounter := connectionCounter h |}.

Definition client_of (h : AssistantEventHub) (id : nat) : option ClientFields :=
  match entries h !! id with
  | Some e => match who e with ClientEntry c => Some c | ProcessEntry => None end
  | None => None
  end.

Definition is_client_id (h : AssistantEventHub) (clientId : string) (id : nat) : bool :=
  match client_of h id with Some c => bool_decide (client_id c = clientId) | None => false end.

Definition named (h : AssistantEventHub) (clientId : string) : list nat :=
  filter (λ id, is_client_id h clientId id = true) (subscribers h).

(** ** Subscribing and leaving *)

Definition at_capacity (h : AssistantEventHub) : bool :=
  match maxSubscribers h with Some m => (m <=? length (subscribers h))%nat | None => false end.

Definition hasCapacity (h : AssistantEventHub) : bool := negb (at_capacity h).

Definition conn_name (n : nat) : string := String.append "conn-" (pretty n).

Definition add_entry (w : entry_type) (conversation : option string) (now : Z)
    (h : AssistantEventHub) : AssistantEventHub :=
  let id := S (connectionCounter h) in
  {| subscribers := subscribers h ++ [id];
     entries := <[id := {| who := w; filter_conversation := conversation; active := true;
       connectedAt := now; lastActiveAt := now; connectionId := conn_name id |}]> (entries h);
     maxSubscribers := maxSubscribers h; connectionCounter := id |}.

(** The hub afterwards, the subscribers whose [onEvict] was called, in order,
    and the new subscription, absent when the call throws. *)
Definition subscribe (w : entry_type) (conversation : option string) (now : Z)
    (h : AssistantEventHub) : AssistantEventHub * list nat * option nat :=
  let stale := match w with ClientEntry c => named h (client_id c) | ProcessEntry => [] end in
  let h := foldl drop_entry h stale in
  if at_capacity h then
    match subscribers h with
    | [] => (h, stale, None)
    | oldest :: _ =>
        let h := add_entry w conversation now (drop_entry h oldest) in
        (h, stale ++ [oldest], Some (connectionCounter h))
    end
  else
    let h := add_entry w conversation now h in
    (h, stale, Some (connectionCounter h)).

Definition is_active (h : AssistantEventHub) (id : nat) : bool :=
  match entries h !! id with Some e => active e | None => false end.

(** [dispose] of the handle. *)
Definition dispose (id : nat) (h : AssistantEventHub) : AssistantEventHub :=
  if is_active h id then drop_entry h id else h.

Definition disposeClient (clientId : string) (h : AssistantEventHub) : AssistantEventHub * list nat :=
  let targets := named h clientId in
  (foldl drop_entry h targets, targets).

(** ** Clients *)

Definition activeClientEntries (clientId : string) (h : AssistantEventHub) : list nat :=
  filter (λ id, is_active h id && is_client_id h clientId id = true) (subscribers h).

Definition getClientById (clientId : string) (h : AssistantEventHub) : option ClientFields :=
  match activeClientEntries clientId h with id :: _ => client_of h id | [] => None end.

Definition getActorPrincipalIdForClient (clientId : string) (h : AssistantEventHub) : option string :=
  getClientById clientId h ≫= actorPrincipalId.

Definition on_client (f : ClientFields → ClientFields) (e : SubscriberEntry) : SubscriberEntry :=
  {| who := match who e with ClientEntry c => ClientEntry (f c) | ProcessEntry => ProcessEntry end;
     filter_conversation := filter_conversation e; active := active e;
     connectedAt := connectedAt e; lastActiveAt := lastActiveAt e; connectionId := connectionId e |}.

Definition update_all (f : SubscriberEntry → SubscriberEntry) (ids : list nat)
    (h : AssistantEventHub) : AssistantEventHub :=
  foldl (λ h id, with_entries (alter f id) h) h ids.

Definition touch (now : Z) (e : SubscriberEntry) : SubscriberEntry :=
  {| who := who e; filter_conversation := filter_conversation e; active := active e;
     connectedAt := connectedAt e; lastActiveAt := now; connectionId := connectionId e |}.

Definition touchClient (clientId : string) (now : Z) (h : AssistantEventHub) : AssistantEventHub :=
  update_all (touch now) (activeClientEntries clientId h) h.

Definition with_presence (p : ClientPresence) (c : ClientFields) : ClientFields :=
  {| client_id := client_id c; interface_id := interface_id c;
     client_capabilities := client_capabilities c; machineName := machineName c;
     actorPrincipalId := actorPrincipalId c; presence := Some p; webPresence := webPresence c |}.

Definition with_web_presence (p : ClientWebPresence) (c : ClientFields) : ClientFields :=
  {| client_id := client_id c; interface_id := interface_id c;
     client_capabilities := client_capabilities c; machineName := machineName c;
     actorPrincipalId := actorPrincipalId c; presence := presence c; webPresence := Some p |}.

Definition with_principal (p : string) (c : ClientFields) : ClientFields :=
  {| client_id := client_id c; interface_id := interface_id c;
     client_capabilities := client_capabilities c; machineName := machineName c;
     actorPrincipalId := Some p; presence := presence c; webPresence := webPresence c |}.

Definition setClientPresence (clientId state : string) (now : Z) (h : AssistantEventHub)
    : AssistantEventHub * bool :=
  let ids := activeClientEntries clientId h in
  (update_all (on_client (with_presence {| desktop_state := state; reportedAt := now |})) ids h,
   bool_decide (ids ≠ [])).

Definition setClientWebPresence (clientId : string) (seen : bool) (focused : option string) (now : Z)
    (h : AssistantEventHub) : AssistantEventHub * bool :=
  let ids := activeClientEntries clientId h in
  (update_all (on_client (with_web_presence
     {| visible := seen; focusedConversationId := focused; web_reportedAt := now |})) ids h,
   bool_decide (ids ≠ [])).

(** The first subscriber with the connection id decides. *)
Definition by_connection (connection : string) (h : AssistantEventHub) : option nat :=
  head (filter (λ id, match entries h !! id with
                      | Some e => bool_decide (connectionId e = connection)
                      | None => false
                      end = true) (subscribers h)).

Definition lacks_principal (h : AssistantEventHub) (id : nat) : bool :=
  is_active h id &&
  match client_of h id with Some c => bool_decide (actorPrincipalId c = None) | None => false end.

Definition needsActorPrincipalHeal (connection : string) (h : AssistantEventHub) : bool :=
  match by_connection connection h with Some id => lacks_principal h id | None => false end.

Definition fillClientActorPrincipalId (connection principal : string) (h : AssistantEventHub)
    : AssistantEventHub :=
  match by_connection connection h with
  | Some id =>
      if lacks_principal h id then with_entries (alter (on_client (with_principal principal)) id) h
      else h
  | None => h
  end.

(** ** Queries *)

(** The active clients with their last activity, most recent first. *)
Definition clientEntries (h : AssistantEventHub) : list (ClientFields * Z) :=
  stable_sort (λ a b, (b.2 <=? a.2)%Z)
    (omap (λ id, match entries h !! id with
                 | Some e =>
                     match active e, who e with
                     | true, ClientEntry c => Some (c, lastActiveAt e)
                     | _, _ => None
                     end
                 | None => None
                 end) (subscribers h)).

Definition listClients := clientEntries.

Definition listClientsByCapability (capability : string) (h : AssistantEventHub)
    : list (ClientFields * Z) :=
  filter (λ c, bool_decide (capability ∈ client_capabilities c.1) = true) (clientEntries h).

Definition getMostRecentClientByCapability (capability : string) (h : AssistantEventHub)
    : option (ClientFields * Z) := head (listClientsByCapability capability h).

Definition listClientsByInterface (interfaceId : string) (h : AssistantEventHub)
    : list (ClientFields * Z) :=
  filter (λ c, bool_decide (interface_id c.1 = interfaceId) = true) (clientEntries h).

Definition PRESENCE_STALE_AFTER_MS : Z := 90000.
Definition WEB_PRESENCE_STALE_AFTER_MS : Z := 180000.

Definition of_actor (actor : option string) (c : ClientFields) : bool :=
  match actor with Some a => bool_decide (actorPrincipalId c = Some a) | None => true end.

Definition isDesktopAttended (actor : option string) (now : Z) (h : AssistantEventHub) : bool :=
  existsb (λ interface, existsb (λ client, of_actor actor client.1 &&
    match presence client.1 with
    | Some p => bool_decide (desktop_state p = "active") &&
                (now - reportedAt p <=? PRESENCE_STALE_AFTER_MS)%Z
    | None => false
    end) (listClientsByInterface interface h)) ["macos"; "windows"]%string.

Definition isWebConversationFocused (conversation : string) (actor : option string) (now : Z)
    (h : AssistantEventHub) : bool :=
  existsb (λ client, of_actor actor client.1 &&
    match webPresence client.1 with
    | Some report =>
        negb ((WEB_PRESENCE_STALE_AFTER_MS <? now - web_reportedAt report) ||
              (WEB_PRESENCE_STALE_AFTER_MS <? now - client.2))%Z &&
        visible report && bool_decide (focusedConversationId report = Some conversation)
    | None => false
    end) (listClientsByInterface "web" h).

(** ** Publishing *)

(** The rules of [publish] for one subscriber, an event of conversation [cid]
    and the options it is published with. *)
Definition accepts (cid : option string) (options : option EventTargeting) (e : SubscriberEntry) : bool :=
  let capability := options ≫= targetCapability in
  let capable := match capability with
    | Some cap => match who e with
                  | ClientEntry c => bool_decide (cap ∈ client_capabilities c)
                  | ProcessEntry => false
                  end
    | None => true
    end in
  let excluded := match options ≫= excludeClientId, who e with
    | Some x, ClientEntry c => bool_decide (client_id c = x)
    | _, _ => false
    end in
  let off_interface := match options ≫= targetInterfaceId with
    | Some i => match who e with
                | ClientEntry c => negb (bool_decide (interface_id c = i))
                | ProcessEntry => true
                end
    | None => false
    end in
  if excluded then false
  else if off_interface then false
  else match options ≫= targetClientId with
  | Some target =>
      match who e with
      | ClientEntry c => bool_decide (client_id c = target) && capable
      | ProcessEntry => false
      end
  | None =>
      match cid, filter_conversation e with
      | Some c, Some f => bool_decide (f = c)
      | _, _ => true
      end && capable
  end.

Definition hasSubscribersForEvent (cid : option string) (h : AssistantEventHub) : bool :=
  existsb (λ id, match entries h !! id with
    | Some e => active e && match cid, filter_conversation e with
                            | Some c, Some f => bool_decide (f = c)
                            | _, _ => true
                            end
    | None => false
    end) (subscribers h).

Section publications.
Context {E : Type}.

Record publication := Pub {
  pub_event : envelope E;
  pub_seq : option Z;
  pub_options : option EventTargeting;
}.

Definition receives (h : AssistantEventHub) (p : publication) (id : nat) : bool :=
  match entries h !! id with
  | Some e => active e && accepts (conversationId (pub_event p)) (pub_options p) e
  | None => false
  end.

(** The loop over the snapshot, up to the next callback it awaits. *)
Fixpoint advance (h : AssistantEventHub) (p : publication) (snapshot : list nat)
    : option (nat * list nat) :=
  match snapshot with
  | [] => None
  | id :: rest => if receives h p id then Some (id, rest) else advance h p rest
  end.

(** A publication in flight: what is left of its snapshot, and the errors so far. *)
Record fanout := Fanout { fan_pub : publication; remaining : list nat; failures : nat }.

Inductive output :=
| Delivered (chained : bool) (id : nat) (p : publication)
| Settled (p : publication) (failures : nat)  (** rejects when there are any *)
| Forwarded (p : publication)                 (** another process than the daemon *)
| Evicted (id : nat).

Record bus := Bus {
  hub : AssistantEventHub;
  hubChain : list publication;    (** broadcasts not yet started *)
  current : option fanout;        (** the one the chain is running *)
  direct : list fanout;           (** publications outside the chain *)
}.

Definition set_hub (h : AssistantEventHub) (b : bus) : bus :=
  {| hub := h; hubChain := hubChain b; current := current b; direct := direct b |}.

Definition continue_fanout (chained : bool) (h : AssistantEventHub) (p : publication)
    (snapshot : list nat) (failed : nat) : option fanout * list output :=
  match advance h p snapshot with
  | Some (id, rest) => (Some (Fanout p rest failed), [Delivered chained id p])
  | None => (None, [Settled p failed])
  end.

Definition publish (chained : bool) (h : AssistantEventHub) (p : publication)
    : option fanout * list output :=
  continue_fanout chained h p (subscribers h) 0.

(** The awaited callback returned, or threw. *)
Definition resume (chained threw : bool) (h : AssistantEventHub) (f : fanout)
    : option fanout * list output :=
  continue_fanout chained h (fan_pub f) (remaining f) (if threw then S (failures f) else failures f).

Inductive hub_op :=
| Subscribe (w : entry_type) (conversation : option string) (now : Z)
| Dispose (id : nat)
| DisposeClient (clientId : string)
| Touch (clientId : string) (now : Z)
| SetPresence (clientId state : string) (now : Z)
| SetWebPresence (clientId : string) (seen : bool) (focused : option string) (now : Z)
| FillPrincipal (connection principal : string).

Definition hub_exec (o : hub_op) (h : AssistantEventHub) : AssistantEventHub * list output :=
  match o with
  | Subscribe w conversation now =>
      let '(h, evicted, _) := subscribe w conversation now h in (h, Evicted <$> evicted)
  | Dispose id => (dispose id h, [])
  | DisposeClient c => let '(h, evicted) := disposeClient c h in (h, Evicted <$> evicted)
  | Touch c now => (touchClient c now h, [])
  | SetPresence c s now => ((setClientPresence c s now h).1, [])
  | SetWebPresence c seen focused now => ((setClientWebPresence c seen focused now h).1, [])
  | FillPrincipal c p => (fillClientActorPrincipalId c p h, [])
  end.

Inductive bus_op :=
| OnHub (o : hub_op)
| Broadcast (p : publication)           (** appended to the chain *)
| NextInChain                           (** the chain starts its next publication *)
| ResumeChained (threw : bool)
| Publish (main : bool) (p : publication)
| ResumeDirect (k : nat) (threw : bool).

Definition bus_exec (o : bus_op) (b : bus) : bus * list output :=
  match o with
  | OnHub o => let '(h, out) := hub_exec o (hub b) in (set_hub h b, out)
  | Broadcast p => (Bus (hub b) (hubChain b ++ [p]) (current b) (direct b), [])
  | NextInChain =>
      match current b, hubChain b with
      | None, p :: rest =>
          let '(f, out) := publish true (hub b) p in (Bus (hub b) rest f (direct b), out)
      | _, _ => (b, [])
      end
  | ResumeChained threw =>
      match current b with
      | Some f =>
          let '(f, out) := resume true threw (hub b) f in
          (Bus (hub b) (hubChain b) f (direct b), out)
      | None => (b, [])
      end
  | Publish main p =>
      if main then
        let '(f, out) := publish false (hub b) p in
        (Bus (hub b) (hubChain b) (current b) (direct b ++ option_list f), out)
      else (b, [Forwarded p])
  | ResumeDirect k threw =>
      match direct b !! k with
      | Some f =>
          let '(f', out) := resume false threw (hub b) f in
          (Bus (hub b) (hubChain b) (current b)
             (take k (direct b) ++ option_list f' ++ drop (S k) (direct b)), out)
      | None => (b, [])
      end
  end.

Fixpoint bus_run (os : list bus_op) (b : bus) : bus * list output :=
  match os with
  | [] => (b, [])
  | o :: os =>
      let '(b, out) := bus_exec o b in
      let '(b, out') := bus_run os b in (b, out ++ out')
  end.

(** What a subscriber was handed, in order. *)
Definition received (chained : bool) (id : nat) (out : list output) : list publication :=
  omap (λ o, match o with
             | Delivered ch i p => if bool_decide (ch = chained ∧ i = id) then Some p else None
             | _ => None
             end) out.

(** What was sent over a history. *)
Definition broadcasts (os : list bus_op) : list publication :=
  omap (λ o, match o with Broadcast p => Some p | _ => None end) os.

Definition published (os : list bus_op) : list publication :=
  omap (λ o, match o with Publish true p => Some p | _ => None end) os.
End publications.
Arguments publication : clear implicits.
Arguments fanout : clear implicits.
Arguments output : clear implicits.
Arguments bus : clear implicits.
Arguments bus_op : clear implicits.

(** ** The hub's invariant *)

Record sane (h : AssistantEventHub) : Prop := {
  sane_order : StronglySorted lt (subscribers h);
  sane_active : ∀ id, id ∈ subscribers h ↔ is_active h id = true;
  sane_counter : ∀ id e, entries h !! id = Some e → id ≤ connectionCounter h;
  sane_names : ∀ id e, entries h !! id = Some e → connectionId e = conn_name id;
  sane_clients : ∀ i j c d, i ∈ subscribers h → j ∈ subscribers h →
    client_of h i = Some c → client_of h j = Some d → client_id c = client_id d → i = j;
  sane_size : ∀ m, maxSubscribers h = Some m → length (subscribers h) ≤ m;
}.

(** What never changes of a subscriber: who it is and what it listens to. *)
Definition profile (e : SubscriberEntry)
    : option (string * string * list string) * option string * string :=
  (match who e with
   | ClientEntry c => Some (client_id c, interface_id c, client_capabilities c)
   | ProcessEntry => None
   end, filter_conversation e, connectionId e).

Lemma accepts_profile cid options e e' :
  profile e = profile e' → accepts cid options e = accepts cid options e'.
Proof.
  unfold profile, accepts. destruct (who e) as [c|], (who e') as [c'|]; intros [=]; simplify_eq/=; try done.
  all: by repeat match goal with H : _ = _ |- _ => rw H; clear H end.
Qed.

(** Subscribers persist, keep their profile and never come back to life. *)
Definition evolves (h h' : AssistantEventHub) : Prop :=
  connectionCounter h ≤ connectionCounter h' ∧
  ∀ id e, entries h !! id = Some e →
    ∃ e', entries h' !! id = Some e' ∧ profile e' = profile e ∧ (active e' = true → active e = true).

#[export] Instance evolves_preorder : PreOrder evolves.
Proof.
  split; [by split; eauto|]. intros h h' h'' [Hc H] [Hc' H']. split; [lia|].
  intros id e (e' & He' & Hp & Ha)%H. destruct (H' _ _ He') as (e'' & He'' & Hp' & Ha').
  exists e''. split_and!; [done|congruence|auto].
Qed.

Lemma profile_on_client f e :
  (∀ c, client_id (f c) = client_id c ∧ interface_id (f c) = interface_id c ∧
        client_capabilities (f c) = client_capabilities c) →
  profile (on_client f e) = profile e.
Proof.
  intros Hf. unfold profile. simpl. destruct (who e) as [c|]; [|done]. by destruct (Hf c) as (-> & -> & ->).
Qed.

(** An update that keeps the profile and the life of a subscriber. *)
Definition gentle (f : SubscriberEntry → SubscriberEntry) : Prop :=
  ∀ e, profile (f e) = profile e ∧ active (f e) = active e.

Lemma gentle_touch now : gentle (touch now).
Proof. done. Qed.

Lemma gentle_client f :
  (∀ c, client_id (f c) = client_id c ∧ interface_id (f c) = interface_id c ∧
        client_capabilities (f c) = client_capabilities c) → gentle (on_client f).
Proof. intros Hf e. split; [by apply profile_on_client|done]. Qed.

(** The same hub, but for what is gentle. *)
Definition alike (h h' : AssistantEventHub) : Prop :=
  subscribers h' = subscribers h ∧ maxSubscribers h' = maxSubscribers h ∧
  connectionCounter h' = connectionCounter h ∧
  ∀ id, (λ e, (profile e, active e)) <$> entries h' !! id = (λ e, (profile e, active e)) <$> entries h !! id.

#[export] Instance alike_preorder : PreOrder alike.
Proof.
  split; [done|]. intros h h' h'' (H1&H2&H3&H4) (G1&G2&G3&G4).
  split_and!; congruence.
Qed.

Lemma alike_alter f id h : gentle f → alike h (with_entries (alter f id) h).
Proof.
  intros Hf. split_and!; [done..|]. intros j. simpl. destruct (decide (id = j)) as [<-|Hj].
  - rw lookup_alter_eq. destruct (entries h !! id) as [e|]; [|done].
    change (Some (profile (f e), active (f e)) = Some (profile e, active e)). by destruct (Hf e) as [-> ->].
  - by rw lookup_alter_ne.
Qed.

Lemma alike_update f ids h : gentle f → alike h (update_all f ids h).
Proof.
  intros Hf. revert h. induction ids as [|id ids IH]; intros h; [done|].
  simpl. etrans; [by apply alike_alter|apply IH].
Qed.

Lemma alike_lookup h h' id e' : alike h h' → entries h' !! id = Some e' →
  ∃ e, entries h !! id = Some e ∧ profile e' = profile e ∧ active e' = active e.
Proof.
  intros (_ & _ & _ & H) He. specialize (H id). rw He in H.
  destruct (entries h !! id) as [e|]; [|done]. exists e.
  assert (Some (profile e', active e') = Some (profile e, active e)) as [= Hp Ha] by exact H.
  unfold profile. split_and!; [done|by f_equal; [f_equal|]|done].
Qed.

Lemma alike_sym h h' : alike h h' → alike h' h.
Proof. intros (H1&H2&H3&H4). by split_and!. Qed.

Lemma alike_evolves h h' : alike h h' → evolves h h'.
Proof.
  intros Ha. split; [by destruct Ha as (_ & _ & -> & _)|]. intros id e He.
  destruct (alike_lookup h' h id e (alike_sym _ _ Ha) He) as (e' & He' & Hp & Hact).
  exists e'. split_and!; [done..|congruence].
Qed.

Lemma alike_active h h' id : alike h h' → is_active h' id = is_active h id.
Proof.
  intros (_ & _ & _ & H). specialize (H id). unfold is_active.
  by destruct (entries h' !! id), (entries h !! id); simplify_eq/=.
Qed.

Lemma alike_client h h' id c' : alike h h' → client_of h' id = Some c' →
  ∃ c, client_of h id = Some c ∧ client_id c' = client_id c.
Proof.
  intros Ha. unfold client_of. destruct (entries h' !! id) as [e'|] eqn:He'; [|done].
  destruct (alike_lookup _ _ _ _ Ha He') as (e & -> & Hp & _). unfold profile in Hp.
  destruct (who e') as [c''|]; [|done]. intros [= ->]. destruct (who e) as [c|]; [|done].
  exists c. split; [done|]. by injection Hp.
Qed.

Lemma sane_alike h h' : alike h h' → sane h → sane h'.
Proof.
  intros Ha [H1 H2 H3 H4 H5 H6]. pose proof Ha as (E1 & E2 & E3 & _). split.
  - by rw E1.
  - intros id. rw E1 (alike_active _ _ _ Ha). apply H2.
  - intros id e' He'. destruct (alike_lookup _ _ _ _ Ha He') as (e & He & _). rw E3. by eapply H3.
  - intros id e' He'. destruct (alike_lookup _ _ _ _ Ha He') as (e & He & Hp & _).
    injection Hp as _ _ ->. by apply H4.
  - intros i j c d Hi Hj Hc Hd Heq. rewrite E1 in Hi Hj.
    destruct (alike_client _ _ _ _ Ha Hc) as (c0 & Hc0 & ?).
    destruct (alike_client _ _ _ _ Ha Hd) as (d0 & Hd0 & ?).
    apply (H5 i j c0 d0); congruence.
  - rw E1 E2. apply H6.
Qed.

(** *** Leaving *)

Lemma is_active_drop h i id : is_active (drop_entry h i) id = is_active h id && bool_decide (id ≠ i).
Proof.
  unfold is_active, drop_entry. simpl. destruct (decide (i = id)) as [->|Hne].
  - rw lookup_alter_eq. rw (bool_decide_false (id ≠ id)); [|by intros []].
    destruct (entries h !! id) as [e|]; simpl; by rw ?andb_false_r.
  - rw lookup_alter_ne //. rw bool_decide_true; [by rw andb_true_r|congruence].
Qed.

Lemma client_of_drop h i id : client_of (drop_entry h i) id = client_of h id.
Proof.
  unfold client_of, drop_entry. simpl. destruct (decide (i = id)) as [->|Hne].
  - rw lookup_alter_eq. by destruct (entries h !! id).
  - by rw lookup_alter_ne.
Qed.

Lemma sorted_filter (P : nat → Prop) `{∀ x, Decision (P x)} l :
  StronglySorted lt l → StronglySorted lt (filter P l).
Proof.
  induction 1 as [|x l Hl IH Hx]; [constructor|]. rw filter_cons. case_decide; [|done].
  constructor; [done|]. apply Forall_forall. intros y [_ Hy]%list_elem_of_filter.
  rewrite -> Forall_forall in Hx. auto.
Qed.

Lemma drop_lookup h i id e' : entries (drop_entry h i) !! id = Some e' →
  ∃ e, entries h !! id = Some e ∧ profile e' = profile e ∧ (active e' = true → active e = true).
Proof.
  unfold drop_entry. simpl. destruct (decide (i = id)) as [->|Hne].
  - rw lookup_alter_eq. destruct (entries h !! id) as [e|]; [|done]. intros [= <-]. by exists e.
  - rw lookup_alter_ne //. intros He. by exists e'.
Qed.

Lemma evolves_drop h i : evolves h (drop_entry h i).
Proof.
  split; [done|]. intros id e He. unfold drop_entry. simpl. destruct (decide (i = id)) as [->|Hne].
  - rw lookup_alter_eq He. by exists (deactivate e).
  - rw lookup_alter_ne //. by exists e.
Qed.

Lemma sane_drop h i : sane h → sane (drop_entry h i).
Proof.
  intros [H1 H2 H3 H4 H5 H6]. split.
  - by apply sorted_filter.
  - intros id. simpl. rw list_elem_of_filter is_active_drop andb_true_iff bool_decide_eq_true H2. tauto.
  - intros id e' (e & He & _)%drop_lookup. by eapply H3.
  - intros id e' (e & He & [= _ _ ->] & _)%drop_lookup. by apply H4.
  - intros j k c d. simpl. rw !list_elem_of_filter !client_of_drop. intros [_ Hj] [_ Hk]. by apply H5.
  - intros m Hm. etrans; [|by apply H6]. simpl. by apply length_filter.
Qed.

Lemma subscribers_drops h ids :
  subscribers (foldl drop_entry h ids) = filter (λ i, i ∉ ids) (subscribers h).
Proof.
  revert h. induction ids as [|i ids IH]; intros h; simpl.
  - symmetry. apply filter_keep, Forall_forall. intros j _. apply not_elem_of_nil.
  - rw IH. simpl. rw list_filter_filter. apply list_filter_iff. intros j. rw not_elem_of_cons. tauto.
Qed.

Lemma drops_keep h ids :
  maxSubscribers (foldl drop_entry h ids) = maxSubscribers h ∧
  connectionCounter (foldl drop_entry h ids) = connectionCounter h ∧
  (∀ id, client_of (foldl drop_entry h ids) id = client_of h id).
Proof.
  revert h. induction ids as [|i ids IH]; intros h; [done|]. simpl. destruct (IH (drop_entry h i)) as (-> & -> & Hc).
  split_and!; [done|done|]. intros id. by rw Hc client_of_drop.
Qed.

Lemma sane_drops h ids : sane h → sane (foldl drop_entry h ids).
Proof. revert h. induction ids as [|i ids IH]; intros h Hh; [done|]. by apply IH, sane_drop. Qed.

Lemma evolves_drops h ids : evolves h (foldl drop_entry h ids).
Proof.
  revert h. induction ids as [|i ids IH]; intros h; [done|]. simpl. etrans; [apply evolves_drop|apply IH].
Qed.

Lemma active_drops h ids id :
  is_active (foldl drop_entry h ids) id = is_active h id && bool_decide (id ∉ ids).
Proof.
  revert h. induction ids as [|i ids IH]; intros h; simpl.
  - by rw andb_true_r.
  - rw IH is_active_drop -andb_assoc. f_equal. apply Bool.eq_true_iff_eq.
    rw andb_true_iff !bool_decide_eq_true not_elem_of_cons. tauto.
Qed.

(** *** Joining *)

Definition fresh_entry (w : entry_type) (conversation : option string) (now : Z) (id : nat)
    : SubscriberEntry :=
  {| who := w; filter_conversation := conversation; active := true;
     connectedAt := now; lastActiveAt := now; connectionId := conn_name id |}.

Lemma add_lookup w f now h id e :
  entries (add_entry w f now h) !! id = Some e →
  id = S (connectionCounter h) ∧ e = fresh_entry w f now (S (connectionCounter h)) ∨
  id ≠ S (connectionCounter h) ∧ entries h !! id = Some e.
Proof. unfold add_entry. simpl. intros [[<- <-]|[Hne He]]%lookup_insert_Some; [by left|right; split; [congruence|done]]. Qed.

Lemma evolves_add w f now h : sane h → evolves h (add_entry w f now h).
Proof.
  intros Hh. split; [simpl; lia|]. intros id e He. exists e. split; [|done]. simpl.
  rw lookup_insert_ne //. pose proof (sane_counter _ Hh _ _ He). lia.
Qed.

Lemma fresh_unlisted h : sane h → S (connectionCounter h) ∉ subscribers h.
Proof.
  intros Hh Hin. apply (sane_active _ Hh) in Hin. unfold is_active in Hin.
  destruct (entries h !! S (connectionCounter h)) as [e|] eqn:He; [|done].
  pose proof (sane_counter _ Hh _ _ He). lia.
Qed.

Lemma listed_known h i : sane h → i ∈ subscribers h → i ≤ connectionCounter h.
Proof.
  intros Hh Hi%(sane_active _ Hh). unfold is_active in Hi.
  destruct (entries h !! i) as [e|] eqn:He; [|done]. by eapply sane_counter.
Qed.

Lemma sane_add w f now h :
  sane h → at_capacity h = false →
  (∀ c i d, w = ClientEntry c → i ∈ subscribers h → client_of h i = Some d → client_id d ≠ client_id c) →
  sane (add_entry w f now h).
Proof.
  intros Hh Hcap Hnew. pose proof (fresh_unlisted h Hh) as Hfresh. split.
  - simpl. apply sorted_snoc; [by apply sane_order|]. apply Forall_forall. intros i Hi.
    pose proof (listed_known h i Hh Hi). lia.
  - intros id. simpl. rw elem_of_app list_elem_of_singleton (sane_active _ Hh). unfold is_active. simpl.
    destruct (decide (S (connectionCounter h) = id)) as [<-|Hne].
    + rw lookup_insert_eq. simpl. tauto.
    + rw lookup_insert_ne //. split; [by intros [?|?]; [|congruence]|by left].
  - intros id e [[-> _]|[_ He]]%add_lookup; simpl; [lia|]. pose proof (sane_counter _ Hh _ _ He). lia.
  - intros id e [[-> ->]|[_ He]]%add_lookup; [done|]. by apply (sane_names _ Hh).
  - assert (∀ i, i ∈ subscribers h → client_of (add_entry w f now h) i = client_of h i) as Hold.
    { intros i Hi. unfold client_of. simpl. rw lookup_insert_ne //. intros He. by rewrite He in Hfresh. }
    assert (client_of (add_entry w f now h) (S (connectionCounter h)) =
      match w with ClientEntry c => Some c | ProcessEntry => None end) as Hself.
    { unfold client_of. simpl. by rw lookup_insert_eq. }
    intros i j c d. simpl. rw !elem_of_app !list_elem_of_singleton.
    intros [Hi|Ei] [Hj|Ej] Hc Hd Heq; rewrite ?Ei ?Ej in Hc, Hd |- *.
    + rewrite (Hold i Hi) in Hc. rewrite (Hold j Hj) in Hd. by eapply (sane_clients _ Hh).
    + rewrite (Hold i Hi) in Hc. rewrite Hself in Hd. destruct w as [c'|]; [|done]. simplify_eq.
      by destruct (Hnew d i c eq_refl Hi Hc).
    + rewrite (Hold j Hj) in Hd. rewrite Hself in Hc. destruct w as [c'|]; [|done]. simplify_eq.
      by destruct (Hnew c j d eq_refl Hj Hd).
    + done.
  - intros m Hm. simpl in *. rw length_app /=. unfold at_capacity in Hcap. rewrite Hm in Hcap.
    apply Nat.leb_gt in Hcap. lia.
Qed.

Lemma named_drops h ids clientId :
  named (foldl drop_entry h ids) clientId = filter (λ i, i ∉ ids) (named h clientId).
Proof.
  unfold named. rw subscribers_drops !list_filter_filter. apply list_filter_iff. intros i.
  unfold is_client_id. destruct (drops_keep h ids) as (_ & _ & ->). tauto.
Qed.

(** No client keeps its name once its stale entries are gone. *)
Lemma stale_gone h c i d :
  let h' := foldl drop_entry h (named h (client_id c)) in
  i ∈ subscribers h' → client_of h' i = Some d → client_id d ≠ client_id c.
Proof.
  cbv zeta. rw subscribers_drops. intros [Hn Hi]%list_elem_of_filter Hd Heq. apply Hn.
  unfold named. apply list_elem_of_filter. split; [|done]. unfold is_client_id.
  destruct (drops_keep h (named h (client_id c))) as (_ & _ & Hk). rewrite Hk in Hd. rw Hd.
  by apply bool_decide_eq_true.
Qed.

Lemma drop_oldest_room h oldest rest :
  sane h → subscribers h = oldest :: rest → at_capacity (drop_entry h oldest) = false.
Proof.
  intros Hh Hs. unfold at_capacity. simpl. destruct (maxSubscribers h) as [m|] eqn:Hm; [|done].
  apply Nat.leb_gt. pose proof (sane_size _ Hh m Hm) as Hl. pose proof (sane_order _ Hh) as Ho.
  rewrite Hs in Hl, Ho. rw Hs filter_cons_False; [|by intros []]. simpl in Hl.
  pose proof (length_filter (λ i, i ≠ oldest) rest). lia.
Qed.

Lemma subscribe_spec w f now h :
  sane h →
  let '(h', _, id) := subscribe w f now h in
  sane h' ∧ evolves h h' ∧
  match id with
  | Some id => id = connectionCounter h' ∧ entries h' !! id = Some (fresh_entry w f now id) ∧
      connectionCounter h < id
  | None => maxSubscribers h = Some 0
  end.
Proof.
  intros Hh. unfold subscribe.
  set (stale := match w with ClientEntry c => named h (client_id c) | ProcessEntry => [] end).
  set (h1 := foldl drop_entry h stale).
  assert (sane h1) as Hh1 by (by apply sane_drops).
  assert (evolves h h1) as Hev by apply evolves_drops.
  assert (∀ c i d, w = ClientEntry c → i ∈ subscribers h1 → client_of h1 i = Some d →
    client_id d ≠ client_id c) as Hnew.
  { intros c i d ->. apply stale_gone. }
  destruct (drops_keep h stale) as (Hmax & Hcnt & _). fold h1 in Hmax, Hcnt.
  destruct (at_capacity h1) eqn:Hcap.
  - destruct (subscribers h1) as [|oldest rest] eqn:Hs.
    + split_and!; [done|done|]. unfold at_capacity in Hcap. rewrite Hs Hmax in Hcap.
      destruct (maxSubscribers h) as [[|m]|]; done.
    + assert (sane (add_entry w f now (drop_entry h1 oldest))) as Hs'.
      { apply sane_add; [by apply sane_drop|by eapply drop_oldest_room|].
        intros c i d Hw. simpl. rw list_elem_of_filter client_of_drop. rw Hs. intros [_ Hi]. by apply Hnew. }
      split_and!; [done| |done| |simpl; lia].
      * etrans; [exact Hev|]. etrans; [apply evolves_drop|]. by apply evolves_add, sane_drop.
      * simpl. by rw lookup_insert_eq.
  - assert (sane (add_entry w f now h1)) as Hs' by (by apply sane_add).
    split_and!; [done| |done| |simpl; lia].
    + etrans; [exact Hev|]. by apply evolves_add.
    + simpl. by rw lookup_insert_eq.
Qed.

Section histories.
Context {E : Type}.
Implicit Types (p : publication E) (f : fanout E) (b : bus E) (o : bus_op E) (os : list (bus_op E))
  (out : list (output E)).

Lemma hub_exec_spec (o : hub_op) h :
  sane h → sane (hub_exec (E := E) o h).1 ∧ evolves h (hub_exec (E := E) o h).1 ∧
    ∀ ch id, received ch id (hub_exec (E := E) o h).2 = [].
Proof.
  intros Hh. assert (∀ ids ch id, received (E := E) ch id (Evicted <$> ids) = []) as Hev.
  { intros ids ch id. by induction ids. }
  assert (∀ h', alike h h' → sane h' ∧ evolves h h') as Halike.
  { intros h' Ha. split; [by eapply sane_alike|by apply alike_evolves]. }
  destruct o as [w f now|i|c|c now|c s now|c seen fo now|c p]; simpl.
  - pose proof (subscribe_spec w f now h Hh) as Hs.
    destruct (subscribe w f now h) as [[h' ev] id]. destruct Hs as (Hs & He & _).
    split_and!; [done|done|intros; apply Hev].
  - unfold dispose. destruct (is_active h i); [|by split_and!].
    split_and!; [by apply sane_drop|apply evolves_drop|done].
  - split_and!; [by apply sane_drops|apply evolves_drops|intros; apply Hev].
  - assert (alike h (touchClient c now h)) as [? ?]%Halike by (by apply alike_update). done.
  - assert (alike h (setClientPresence c s now h).1) as [? ?]%Halike; [|done].
    by apply alike_update, gentle_client.
  - assert (alike h (setClientWebPresence c seen fo now h).1) as [? ?]%Halike; [|done].
    by apply alike_update, gentle_client.
  - unfold fillClientActorPrincipalId. destruct (by_connection c h) as [i|]; [|by split_and!].
    destruct (lacks_principal h i); [|by split_and!].
    assert (alike h (with_entries (alter (on_client (with_principal p)) i) h)) as [? ?]%Halike; [|done].
    by apply alike_alter, gentle_client.
Qed.

(** ** Fan-out *)

(** What [p] owes to [id] when [snapshot] is still to be worked through. *)
Definition slot (id : nat) (snapshot : list nat) p : list (publication E) :=
  if bool_decide (id ∈ snapshot) then [p] else [].

Definition owed_by (id : nat) (f : option (fanout E)) : list (publication E) :=
  match f with Some f => slot id (remaining f) (fan_pub f) | None => [] end.

(** The broadcasts [id] may still receive, and the other publications. *)
Definition owed (id : nat) b : list (publication E) := owed_by id (current b) ++ hubChain b.

Definition owed_directly (id : nat) b : list (publication E) := direct b ≫= (λ f, owed_by id (Some f)).

Definition wants (e : SubscriberEntry) p : Prop :=
  accepts (conversationId (pub_event p)) (pub_options p) e = true.

#[export] Instance wants_dec e p : Decision (wants e p).
Proof. unfold wants. apply _. Defined.

Record bus_sane b : Prop := {
  bus_hub : sane (hub b);
  bus_current : ∀ f, current b = Some f → NoDup (remaining f);
  bus_direct : ∀ f, f ∈ direct b → NoDup (remaining f);
}.

Lemma receives_active h p id e :
  entries h !! id = Some e → active e = true → receives h p id = true ↔ wants e p.
Proof. unfold receives, wants. by intros -> ->. Qed.

Lemma received_app ch id out out' : received ch id (out ++ out') = received ch id out ++ received ch id out'.
Proof. apply omap_app. Qed.

Lemma advance_suffix h p l i rest : advance h p l = Some (i, rest) → ∃ skipped, l = skipped ++ i :: rest.
Proof.
  induction l as [|j l IH]; simpl; [done|]. destruct (receives h p j).
  - intros [= -> ->]. by exists [].
  - intros (sk & ->)%IH. by exists (j :: sk).
Qed.

Lemma advance_active h p l id e :
  NoDup l → entries h !! id = Some e → active e = true →
  match advance h p l with
  | Some (i, rest) =>
      (if decide (i = id) then [p] else []) ++ filter (wants e) (slot id rest p) =
      filter (wants e) (slot id l p)
  | None => filter (wants e) (slot id l p) = []
  end.
Proof.
  intros Hl He Ha. assert (∀ l', id ∉ l' → slot id l' p = []) as Hout.
  { intros l' Hl'. unfold slot. by rw bool_decide_false. }
  induction Hl as [|j l Hj Hl IH]; [done|]. simpl.
  destruct (decide (j = id)) as [->|Hne].
  - assert (slot id (id :: l) p = [p]) as -> by (unfold slot; rw bool_decide_true //; by left).
    destruct (receives h p id) eqn:Hr.
    + pose proof (proj1 (receives_active h p id e He Ha) Hr) as Hw.
      rw decide_True // Hout // filter_cons_True //.
    + assert (¬ wants e p) as Hw.
      { intros Hw. apply (receives_active h p id e He Ha) in Hw. congruence. }
      rw filter_cons_False //. rewrite Hout // in IH.
  - assert (slot id (j :: l) p = slot id l p) as Hs.
    { unfold slot. case_bool_decide as H1; case_bool_decide as H2; try done; set_solver. }
    rw Hs. destruct (receives h p j); [by rw decide_False|done].
Qed.

Lemma continue_sane ch h p l failed f out :
  NoDup l → continue_fanout ch h p l failed = (Some f, out) → NoDup (remaining f).
Proof.
  intros Hl. unfold continue_fanout. destruct (advance h p l) as [[i rest]|] eqn:Ha; [|done].
  intros [= <- _]. apply advance_suffix in Ha as (sk & ->). simpl.
  by apply NoDup_app in Hl as (_ & _ & [_ ?]%NoDup_cons).
Qed.

Lemma continue_spec ch h p l failed id e :
  NoDup l → entries h !! id = Some e → active e = true →
  let s := continue_fanout ch h p l failed in
  received ch id s.2 ++ filter (wants e) (owed_by id s.1) = filter (wants e) (slot id l p) ∧
  received (negb ch) id s.2 = [].
Proof.
  intros Hl He Ha. pose proof (advance_active h p l id e Hl He Ha) as Hadv. cbv zeta.
  unfold continue_fanout. destruct (advance h p l) as [[i rest]|]; simpl; [|by rw Hadv].
  destruct (decide (i = id)) as [->|Hne].
  - rewrite bool_decide_true // bool_decide_false; [|by intros [? _]; destruct ch]. by split.
  - rewrite !bool_decide_false; [|by intros [? ?]..]. by split.
Qed.

Lemma sane_hub_nodup h : sane h → NoDup (subscribers h).
Proof.
  intros Hh. pose proof (sane_order _ Hh) as Ho. induction Ho as [|x l Hl IH Hx]; constructor; [|done].
  intros Hin. rewrite -> Forall_forall in Hx. specialize (Hx _ Hin). lia.
Qed.

Lemma publish_sane ch h p : sane h → ∀ f, (publish ch h p).1 = Some f → NoDup (remaining f).
Proof.
  intros Hh f Hf. apply (continue_sane ch h p _ 0 f (publish ch h p).2 (sane_hub_nodup h Hh)).
  rw -Hf. apply surjective_pairing.
Qed.

Lemma resume_sane ch threw h f : NoDup (remaining f) →
  ∀ f', (resume ch threw h f).1 = Some f' → NoDup (remaining f').
Proof.
  intros Hn f' Hf. eapply (continue_sane ch h (fan_pub f) _ _ f' (resume ch threw h f).2 Hn).
  rw -Hf. apply surjective_pairing.
Qed.

Lemma publish_spec ch h p id e :
  sane h → entries h !! id = Some e → active e = true →
  let s := publish ch h p in
  received ch id s.2 ++ filter (wants e) (owed_by id s.1) = filter (wants e) [p] ∧
  received (negb ch) id s.2 = [].
Proof.
  intros Hh He Ha.
  pose proof (sane_hub_nodup h Hh) as Hnd.
  assert (id ∈ subscribers h) as Hin by (apply (sane_active _ Hh); unfold is_active; by rw He).
  destruct (continue_spec ch h p (subscribers h) 0 id e Hnd He Ha) as [H1 H2].
  split; [|done]. unfold publish. rw H1. unfold slot. by rw bool_decide_true.
Qed.

Lemma is_active_lookup h id e : entries h !! id = Some e → is_active h id = true → active e = true.
Proof. unfold is_active. by intros ->. Qed.

Lemma owed_option id (f : option (fanout E)) :
  (option_list f ≫= λ f, owed_by id (Some f)) = owed_by id f.
Proof. destruct f as [f|]; [|done]. simpl. apply app_nil_r. Qed.

Lemma elem_of_option_list {A} (o : option A) x : x ∈ option_list o ↔ o = Some x.
Proof.
  destruct o as [y|]; simpl; [rw list_elem_of_singleton|rw elem_of_nil]; naive_solver.
Qed.

Lemma bus_exec_sane o b :
  bus_sane b → bus_sane (bus_exec o b).1 ∧ evolves (hub b) (hub (bus_exec o b).1).
Proof.
  intros Hb. pose proof Hb as [Hh Hc Hd]. destruct o as [o|p| |threw|main p|k threw]; simpl.
  - destruct (hub_exec_spec o (hub b) Hh) as (Hs & Hev & _).
    destruct (hub_exec o (hub b)) as [h out]. split; [by split|done].
  - split; [by split|done].
  - destruct (current b) as [f|] eqn:Hcur; [done|]. destruct (hubChain b) as [|p rest]; [done|].
    pose proof (publish_sane true (hub b) p Hh) as Hn.
    destruct (publish true (hub b) p) as [f out]. split; [by split|done].
  - destruct (current b) as [f|] eqn:Hcur; [|done].
    pose proof (resume_sane true threw (hub b) f (Hc f eq_refl)) as Hn.
    destruct (resume true threw (hub b) f) as [f' out]. split; [by split|done].
  - destruct main; [|done]. pose proof (publish_sane false (hub b) p Hh) as Hn.
    destruct (publish false (hub b) p) as [f out]. split; [|done]. split; [done..|].
    intros g. simpl. rw elem_of_app elem_of_option_list. naive_solver.
  - destruct (direct b !! k) as [f|] eqn:Hk; [|done]. apply list_elem_of_lookup_2 in Hk.
    pose proof (resume_sane false threw (hub b) f (Hd f Hk)) as Hn.
    destruct (resume false threw (hub b) f) as [f' out]. split; [|done]. split; [done..|].
    intros g. simpl. rw !elem_of_app elem_of_option_list. intros [Hg|[Hg|Hg]]; [|by apply Hn|].
    + apply Hd. by eapply subseteq_take.
    + apply Hd. by eapply elem_of_sublist, sublist_drop.
Qed.

(** One operation pays a subscriber that stays what it owes it. *)
Lemma bus_exec_pays o b id e :
  bus_sane b → entries (hub b) !! id = Some e →
  let s := bus_exec o b in
  is_active (hub s.1) id = true →
  received true id s.2 ++ filter (wants e) (owed id s.1) =
    filter (wants e) (owed id b ++ broadcasts [o]) ∧
  received false id s.2 ++ filter (wants e) (owed_directly id s.1) ≡ₚ
    filter (wants e) (owed_directly id b ++ published [o]).
Proof.
  intros [Hh Hc Hd] He. cbv zeta.
  assert (filter (wants e) (owed id b) = filter (wants e) (owed id b ++ []) ∧
    filter (wants e) (owed_directly id b) ≡ₚ filter (wants e) (owed_directly id b ++ [])) as Hsame.
  { by rw !app_nil_r. }
  destruct o as [o|p| |threw|main p|k threw]; simpl.
  - destruct (hub_exec_spec o (hub b) Hh) as (_ & _ & Hr).
    destruct (hub_exec o (hub b)) as [h out]. simpl in *. by rw !Hr.
  - intros _. unfold owed, owed_directly. simpl. rw !app_nil_r -app_assoc. by split.
  - destruct (current b) as [f|] eqn:Hcur; [done|]. destruct (hubChain b) as [|p rest] eqn:Hch; [done|].
    pose proof (λ Ha, publish_spec true (hub b) p id e Hh He (is_active_lookup _ _ _ He Ha)) as Hp.
    destruct (publish true (hub b) p) as [f out]. simpl in *.
    intros Ha. destruct (Hp Ha) as (H1 & ->). unfold owed, owed_directly. simpl.
    rw Hcur Hch !app_nil_r /= filter_app app_assoc H1 -filter_app. by split.
  - destruct (current b) as [f|] eqn:Hcur; [|done].
    pose proof (λ Ha, continue_spec true (hub b) (fan_pub f) (remaining f)
      (if threw then S (failures f) else failures f) id e (Hc f eq_refl) He (is_active_lookup _ _ _ He Ha)) as Hp.
    unfold resume. destruct (continue_fanout _ _ _ _ _) as [f' out]. simpl in *.
    intros Ha. destruct (Hp Ha) as (H1 & ->). unfold owed, owed_directly. simpl.
    rw Hcur !app_nil_r /= !filter_app app_assoc H1. by split.
  - destruct main; [|done].
    pose proof (λ Ha, publish_spec false (hub b) p id e Hh He (is_active_lookup _ _ _ He Ha)) as Hp.
    destruct (publish false (hub b) p) as [f out]. simpl in *.
    intros Ha. destruct (Hp Ha) as (H1 & ->). unfold owed, owed_directly. simpl.
    rw !app_nil_r bind_app owed_option !filter_app -H1. split; [done|]. solve_Permutation.
  - destruct (direct b !! k) as [f|] eqn:Hk; [|done].
    assert (f ∈ direct b) as Hf by (by eapply list_elem_of_lookup_2).
    pose proof (λ Ha, continue_spec false (hub b) (fan_pub f) (remaining f)
      (if threw then S (failures f) else failures f) id e (Hd f Hf) He (is_active_lookup _ _ _ He Ha)) as Hp.
    unfold resume. destruct (continue_fanout _ _ _ _ _) as [f' out]. simpl in *.
    intros Ha. destruct (Hp Ha) as (H1 & ->). unfold owed, owed_directly. simpl.
    rw !app_nil_r !bind_app owed_option !filter_app. split; [done|].
    rw -{3}(take_drop_middle _ _ _ Hk) bind_app bind_cons !filter_app /= -H1. solve_Permutation.
Qed.

Lemma advance_receives h p l i rest : advance h p l = Some (i, rest) → receives h p i = true.
Proof.
  induction l as [|j l IH]; simpl; [done|]. destruct (receives h p j) eqn:Hr; [|done]. by intros [= <- _].
Qed.

Lemma continue_delivers ch h p l failed ch' i p' :
  Delivered ch' i p' ∈ (continue_fanout ch h p l failed).2 → receives h p' i = true.
Proof.
  unfold continue_fanout. destruct (advance h p l) as [[j rest]|] eqn:Ha; simpl.
  - intros [= -> -> ->]%list_elem_of_singleton. by eapply advance_receives.
  - by intros [=]%list_elem_of_singleton.
Qed.

Lemma exec_delivers o b ch i p :
  Delivered ch i p ∈ (bus_exec o b).2 → receives (hub b) p i = true.
Proof.
  assert (∀ ids, Delivered ch i p ∈ (Evicted <$> ids : list (output E)) → receives (hub b) p i = true) as Hev.
  { intros ids (j & [=] & _)%list_elem_of_fmap. }
  destruct o as [o|q| |threw|main q|k threw]; simpl.
  - destruct o as [w f now|j|c|c now|c s now|c seen fo now|c q]; simpl; try by intros ?%elem_of_nil.
    + destruct (subscribe w f now (hub b)) as [[h ev] id]. apply Hev.
    + apply Hev.
  - by intros ?%elem_of_nil.
  - destruct (current b), (hubChain b) as [|q rest]; simpl; try by intros ?%elem_of_nil.
    pose proof (continue_delivers true (hub b) q (subscribers (hub b)) 0 ch i p) as Hc.
    unfold publish. by destruct (continue_fanout _ _ _ _ _).
  - destruct (current b) as [f|]; [|by intros ?%elem_of_nil].
    pose proof (continue_delivers true (hub b) (fan_pub f) (remaining f)
      (if threw then S (failures f) else failures f) ch i p) as Hc.
    unfold resume. by destruct (continue_fanout _ _ _ _ _).
  - destruct main; [|by intros [=]%list_elem_of_singleton].
    pose proof (continue_delivers false (hub b) q (subscribers (hub b)) 0 ch i p) as Hc.
    unfold publish. by destruct (continue_fanout _ _ _ _ _).
  - destruct (direct b !! k) as [f|]; [|by intros ?%elem_of_nil].
    pose proof (continue_delivers false (hub b) (fan_pub f) (remaining f)
      (if threw then S (failures f) else failures f) ch i p) as Hc.
    unfold resume. by destruct (continue_fanout _ _ _ _ _).
Qed.

Lemma wants_evolved e e' p : profile e' = profile e → wants e' p ↔ wants e p.
Proof. intros Hp. unfold wants. by rw (accepts_profile _ _ e' e Hp). Qed.

Lemma filter_evolved e e' (l : list (publication E)) :
  profile e' = profile e → filter (wants e') l = filter (wants e) l.
Proof. intros Hp. apply list_filter_iff. intros p. by apply wants_evolved. Qed.

(** What holds of a subscriber that is there at the start of a history. *)
Lemma bus_run_spec os : ∀ b id e,
  bus_sane b → entries (hub b) !! id = Some e →
  let s := bus_run os b in
  bus_sane s.1 ∧ evolves (hub b) (hub s.1) ∧
  (is_active (hub s.1) id = true →
    received true id s.2 ++ filter (wants e) (owed id s.1) =
      filter (wants e) (owed id b ++ broadcasts os) ∧
    received false id s.2 ++ filter (wants e) (owed_directly id s.1) ≡ₚ
      filter (wants e) (owed_directly id b ++ published os)) ∧
  (∀ ch p, Delivered ch id p ∈ s.2 → active e = true ∧ wants e p).
Proof.
  induction os as [|o os IH]; intros b id e Hb He; simpl.
  { split_and!; [done|done| |by intros ? ? ?%elem_of_nil]. intros _. by rw !app_nil_r. }
  destruct (bus_exec_sane o b Hb) as [Hb1 Hev1]. pose proof (bus_exec_pays o b id e Hb He) as Heq1.
  pose proof (λ ch p, exec_delivers o b ch id p) as Hdel.
  destruct (bus_exec o b) as [b1 out1]. simpl in *.
  destruct Hev1 as [Hcnt1 Hev1']. destruct (Hev1' id e He) as (e1 & He1 & Hp1 & Ha1).
  specialize (IH b1 id e1 Hb1 He1).
  destruct (bus_run os b1) as [b2 out2]. simpl in *. destruct IH as (Hb2 & Hev2 & Heq2 & Hdel2).
  split_and!; [done|by etrans; [split; [exact Hcnt1|exact Hev1']|] | |].
  - intros Ha2. destruct (Heq2 Ha2) as [H1 H2].
    assert (is_active (hub b1) id = true) as Hact.
    { unfold is_active in *. rw He1. destruct Hev2 as [_ Hev2].
      destruct (Hev2 id e1 He1) as (e2 & He2 & _ & Ha). rewrite He2 in Ha2. auto. }
    destruct (Heq1 Hact) as [G1 G2].
    rewrite !(filter_evolved e e1 _ Hp1) in H1, H2. rw !received_app. split.
    + rw -app_assoc H1 filter_app app_assoc G1 -filter_app -app_assoc. by destruct o as [| | | |[|] |].
    + rw -app_assoc H2 filter_app app_assoc G2 -filter_app -app_assoc.
      by destruct o as [| | | |[|] |].
  - intros ch p [Hin|Hin]%elem_of_app.
    + specialize (Hdel ch p Hin). unfold receives in Hdel. rewrite He in Hdel.
      apply andb_true_iff in Hdel as [? ?]. done.
    + destruct (Hdel2 ch p Hin) as [? ?]. split; [auto|]. by apply (wants_evolved e e1).
Qed.

Lemma sane_new max : sane (new_hub max).
Proof.
  split; simpl.
  - constructor.
  - intros id. rw elem_of_nil. unfold is_active. simpl. by rw lookup_empty.
  - intros id e He. by rewrite lookup_empty in He.
  - intros id e He. by rewrite lookup_empty in He.
  - by intros i j c d ?%elem_of_nil.
  - intros m _. lia.
Qed.

Definition new_bus (max : option nat) : bus E := Bus (new_hub max) [] None [].

Lemma bus_sane_new max : bus_sane (new_bus max).
Proof. split; [apply sane_new|done|]. by intros f ?%elem_of_nil. Qed.

Lemma bus_run_sane os : ∀ b, bus_sane b → bus_sane (bus_run os b).1.
Proof.
  induction os as [|o os IH]; intros b Hb; [done|]. simpl. destruct (bus_exec_sane o b Hb) as [Hb1 _].
  destruct (bus_exec o b) as [b1 out1]. specialize (IH b1 Hb1). by destruct (bus_run os b1).
Qed.

(** ** Theorems *)

(** Over any history of the hub, connections in order of arrival, unique
    names, at most one subscription per client and never more than the cap:
    the subscribers of the set are exactly the live ones. *)
Theorem hub_stays_sane max os : sane (hub (bus_run os (new_bus max)).1).
Proof. apply bus_hub, bus_run_sane, bus_sane_new. Qed.

(** Every broadcast arrives once and in order: whatever joins, leaves,
    fails or is published aside while the chain runs, a subscriber that is there
    at some point and still is at the end has been handed exactly the broadcasts
    it accepts — those the chain still owed it and those sent since — in the
    order they were sent, but for what the chain still owes it; publications
    outside the chain arrive once each as well, in no particular order. *)
Theorem broadcasts_arrive_in_order max before os id e :
  let b := (bus_run before (new_bus max)).1 in
  let '(b', out) := bus_run os b in
  entries (hub b) !! id = Some e → is_active (hub b') id = true →
  received true id out ++ filter (wants e) (owed id b') =
    filter (wants e) (owed id b ++ broadcasts os) ∧
  received false id out ++ filter (wants e) (owed_directly id b') ≡ₚ
    filter (wants e) (owed_directly id b ++ published os).
Proof.
  cbv zeta. pose proof (bus_run_sane before _ (bus_sane_new max)) as Hb.
  destruct (bus_run os _) as [b' out] eqn:Hrun. intros He Ha.
  destruct (bus_run_spec os _ id e Hb He) as (_ & _ & H & _). rewrite Hrun in H. by apply H.
Qed.

(** Nothing is delivered to a subscriber that has left or that does not
    accept it: in particular no client is sent its own echo, and no host
    request reaches a connection that did not claim the capability. *)
Theorem deliveries_are_accepted max before os id e :
  let b := (bus_run before (new_bus max)).1 in
  entries (hub b) !! id = Some e →
  ∀ ch p, Delivered ch id p ∈ (bus_run os b).2 →
    active e = true ∧ wants e p ∧
    (∀ c x, who e = ClientEntry c → pub_options p ≫= excludeClientId = Some x → client_id c ≠ x) ∧
    (∀ cap, pub_options p ≫= targetCapability = Some cap →
       ∃ c, who e = ClientEntry c ∧ cap ∈ client_capabilities c).
Proof.
  intros b He ch p Hin. pose proof (bus_run_sane before _ (bus_sane_new max)) as Hb.
  destruct (bus_run_spec os b id e Hb He) as (_ & _ & _ & H). destruct (H ch p Hin) as [Ha Hw].
  split_and!; [done|done| |].
  - intros c x Hc Hx Heq. unfold wants, accepts in Hw. rewrite Hx Hc /= in Hw. by case_bool_decide.
  - intros cap Hcap. unfold wants, accepts in Hw. rewrite Hcap in Hw.
    destruct (who e) as [c|].
    + exists c. split; [done|]. apply dec_stable. intros Hn.
      rewrite (bool_decide_false _ Hn) !andb_false_r in Hw. by repeat case_match; simplify_eq; rewrite ?andb_false_r in Hw.
    + rewrite !andb_false_r in Hw. by repeat case_match; simplify_eq; rewrite ?andb_false_r in Hw.
Qed.
End histories.

(** ** Broadcasting a message *)

(** What [broadcastMessage] reads of a message. *)
Record AssistantEvent := {
  msg_type : string;
  toolName : string;
  captures_window : bool;  (** its input has [capture_window_id] *)
  originClientId : option string;
  msg_conversation : option string;
}.

Definition HOST_PREFIX_TO_CAPABILITY : list (string * string) :=
  [("host_bash", "host_bash"); ("host_file", "host_file"); ("host_transfer", "host_file");
   ("host_cu", "host_cu"); ("host_browser", "host_browser");
   ("host_app_control", "host_app_control"); ("host_ui_snapshot", "host_ui_snapshot")]%string.

(** No message type is the name of a member of [Object.prototype]. *)
Definition capabilityForMessageType (type : string) : option string :=
  let stem := before_suffix "_request" type otherwise
              before_suffix "_cancel" type otherwise type in
  snd <$> find (λ kv, bool_decide (kv.1 = stem)) HOST_PREFIX_TO_CAPABILITY.

Definition hostCuRequestCapability (m : AssistantEvent) : string :=
  if captures_window m then "host_cu_window_capture"
  else if bool_decide (toolName m = "computer_use_sequence") then "host_cu_sequence"
  else "host_cu".

Definition publish_options (targetClient targetInterface : option string) (m : AssistantEvent)
    : option EventTargeting :=
  let capability := if bool_decide (msg_type m = "host_cu_request") then Some (hostCuRequestCapability m)
                    else capabilityForMessageType (msg_type m) in
  let exclude := if bool_decide (msg_type m = "sync_changed") && truthy (originClientId m)
                 then originClientId m else None in
  match capability, targetClient, targetInterface, exclude with
  | None, None, None, None => None
  | _, _, _, _ => Some (Targeting capability targetClient targetInterface exclude)
  end.

(** A host request is addressed to clients with the capability, and nothing
    else is restricted by one. *)
Lemma host_requests_are_targeted tc ti m :
  publish_options tc ti m ≫= targetCapability =
  if bool_decide (msg_type m = "host_cu_request") then Some (hostCuRequestCapability m)
  else capabilityForMessageType (msg_type m).
Proof. unfold publish_options. by repeat case_match. Qed.

Example capabilities :
  capabilityForMessageType "host_transfer_request" = Some "host_file"%string ∧
  capabilityForMessageType "host_cu_cancel" = Some "host_cu"%string ∧
  capabilityForMessageType "host_bash_result" = None ∧ capabilityForMessageType "message_delta" = None.
Proof. done. Qed.

(** ** Samples *)

Definition sample_client (name interface : string) : entry_type :=
  ClientEntry {| client_id := name; interface_id := interface; client_capabilities := ["host_bash"%string];
    machineName := None; actorPrincipalId := None; presence := None; webPresence := None |}.

Definition sample_pub (n : Z) (t : option EventTargeting) : publication Z :=
  Pub (Envelope (Some "a"%string) n) (Some n) t.

(** A slow plugin holds the chain while a worker's event is published past it. *)
Definition overtaking : list (bus_op Z) :=
  [OnHub (Subscribe ProcessEntry None 0); OnHub (Subscribe (sample_client "c" "web") None 1);
   Broadcast (sample_pub 1 None); NextInChain;
   Publish true (sample_pub 2 None); ResumeDirect 0 false;
   ResumeChained false; ResumeChained true].

Lemma broadcasts_arrive_in_order_witness :
  let b := (bus_run (take 2 overtaking) (new_bus None)).1 in
  let s := bus_run (drop 2 overtaking) b in
  let e := fresh_entry (sample_client "c" "web") None 1 2 in
  received true 2 s.2 = [sample_pub 1 None] ∧ received false 2 s.2 = [sample_pub 2 None] ∧
  received true 2 s.2 ++ filter (wants e) (owed 2 s.1) =
    filter (wants e) (owed 2 b ++ broadcasts (drop 2 overtaking)).
Proof.
  intros b s e. pose proof (broadcasts_arrive_in_order None (take 2 overtaking) (drop 2 overtaking) 2 e) as H.
  split_and!; [by vm_compute..|]. change (bus_run (take 2 overtaking) (new_bus None)).1 with b in H.
  cbv zeta in H. fold s in H. rewrite (surjective_pairing s) in H. by apply H; vm_compute.
Defined.

Lemma deliveries_are_accepted_witness :
  let b := (bus_run (take 2 overtaking) (new_bus None)).1 in
  Delivered false 2 (sample_pub 2 None) ∈ (bus_run (drop 2 overtaking) b).2 ∧
  wants (fresh_entry (sample_client "c" "web") None 1 2) (sample_pub 2 None).
Proof.
  assert (Delivered false 2 (sample_pub 2 None) ∈
    (bus_run (drop 2 overtaking) (bus_run (take 2 overtaking) (new_bus None)).1).2) as Hin.
  { vm_compute. by repeat constructor. }
  split; [exact Hin|].
  by destruct (deliveries_are_accepted None (take 2 overtaking) (drop 2 overtaking) 2
    (fresh_entry (sample_client "c" "web") None 1 2) eq_refl false (sample_pub 2 None) Hin) as (_ & ? & _).
Defined.

(** A publication outside the chain overtakes one the chain has started: the
    worker's event 2 reaches the client before event 1, stamped earlier. *)
Example direct_publication_overtakes :
  omap (λ o, match o with Delivered _ 2 p => Some (pub_seq p) | _ => None end)
    (bus_run overtaking (new_bus None)).2 = [Some 2%Z; Some 1%Z].
Proof. by vm_compute. Qed.
