(* ===== verification/EventDelivery.v ===== *)
(** * Event connections

    [assistant/src/runtime/routes/events-routes.ts]: the handler that opens a
    server-sent-events connection on the hub, replays what the client missed and
    goes live, and its request/response twin that returns the tail of the ring.

    A connection is the subscription in the hub together with the stream it
    writes to: the frames written, how many of them the consumer has not read,
    and the watermark of the replay.  [Number] of the cursor parameter, the
    conversation lookups and the resolution of the actor are inputs.  Everything
    up to the first heartbeat is one synchronous step, as in the code. *)

From S2P Require Import Prelude JsText Channels StreamState EventHub.
Local Open Scope litt_scope.

(** ** The request *)

Definition ALL_CAPABILITIES : list string :=
  ["host_bash"; "host_file"; "host_cu"; "host_app_control"; "host_browser"; "host_ui_snapshot"].

(** The three headers by which a helper claims a negotiated capability. *)
Record cu_claims := { claims_window_capture : bool; claims_sequence : bool; claims_annotate : bool }.

(** The [lastSeenSeq] parameter: absent, blank, or what [Number] makes of it
    ([None] when that is not an integer). *)
Inductive cursor_param := NoCursor | BlankCursor | CursorValue (n : option Z).

Record subscribe_request := {
  rawConversationId : option string;
  rawConversationKey : option string;
  rawLastSeenSeq : cursor_param;
  rawClientId : option string;
  rawInterfaceId : option string;
  rawMachineName : option string;
  rawActorPrincipalId : option string;
  claims : cu_claims;
}.

Inductive subscribe_error := BadRequest | NotFound | ServiceUnavailable.

(** [s?.trim() || null] *)
Definition trimmed (s : option string) : option string :=
  match js_trim <$> s with Some EmptyString | None => None | Some t => Some t end.

Definition blank (s : option string) : bool :=
  match s with Some s => bool_decide (js_trim s = EmptyString) | None => false end.

Definition base_capabilities (interface : string) : list string :=
  filter (λ cap, supportsHostProxy interface (Some cap) = true) ALL_CAPABILITIES.

Definition live_capabilities (interface : string) (claims : cu_claims) : list string :=
  let mac := bool_decide (interface = "macos") in
  base_capabilities interface ++
  (if mac && claims_window_capture claims then ["host_cu_window_capture"%string] else []) ++
  (if mac && claims_sequence claims then ["host_cu_sequence"%string] else []) ++
  (if mac && claims_annotate claims then ["host_cu_annotate"%string] else []).

Definition parse_cursor (c : cursor_param) : option Z + subscribe_error :=
  match c with
  | NoCursor => inl None
  | BlankCursor | CursorValue None => inr BadRequest
  | CursorValue (Some n) => if (n <? 0)%Z then inr BadRequest else inl (Some n)
  end.

(** Client and interface, when the headers name them. *)
Definition parse_identity (r : subscribe_request) : option (string * string) + subscribe_error :=
  match trimmed (rawClientId r) with
  | None => inl None
  | Some name =>
      match (js_trim <$> rawInterfaceId r) ≫= parseInterfaceId with
      | Some interface => inl (Some (name, interface))
      | None => inr BadRequest
      end
  end.

(** [getConversation] and [getOrCreateConversation] *)
Definition parse_scope (find_conversation : string → option string)
    (conversation_of_key : string → string) (r : subscribe_request) : option string + subscribe_error :=
  match rawConversationId r, rawConversationKey r with
  | Some id, _ =>
      match find_conversation id with Some c => inl (Some c) | None => inr NotFound end
  | None, Some key => inl (Some (conversation_of_key key))
  | None, None => inl None
  end.

(** The subscriber of the hub and the one of the replay. *)
Definition live_subscriber (resolve_actor : option string → option string) (r : subscribe_request)
    (identity : option (string * string)) : entry_type :=
  match identity with
  | Some (name, interface) =>
      ClientEntry {| client_id := name; interface_id := interface;
        client_capabilities := live_capabilities interface (claims r);
        machineName := trimmed (rawMachineName r);
        actorPrincipalId := resolve_actor (trimmed (rawActorPrincipalId r));
        presence := None; webPresence := None |}
  | None => ProcessEntry
  end.

Definition replay_subscriber (identity : option (string * string)) : ReplaySubscriber :=
  match identity with
  | Some (c, i) => Subscriber client (Some c) (Some i) (Some (base_capabilities i))
  | None => Subscriber process None None None
  end.

Section connections.
Context {E : Type}.

(** ** Connections *)

Inductive frame := EventFrame (seq : option Z) (ev : envelope E) | Heartbeat.

Record connection := Conn {
  conn_entry : nat;             (** its subscription *)
  conn_open : bool;
  highWaterReplaySeq : Z;
  unread : nat;                 (** chunks the consumer has not taken *)
  frames : list frame;          (** everything written, in order *)
}.

Definition STREAM_HIGH_WATER : nat := 16.

(** [controller.desiredSize <= 0]; the size of a closed stream is 0. *)
Definition saturated (c : connection) : bool := negb (conn_open c) || (STREAM_HIGH_WATER <=? unread c)%nat.

Definition enqueue (f : frame) (c : connection) : connection :=
  if conn_open c then
    Conn (conn_entry c) true (highWaterReplaySeq c) (S (unread c)) (frames c ++ [f])
  else c.

Definition close (c : connection) : connection :=
  Conn (conn_entry c) false (highWaterReplaySeq c) (unread c) (frames c).

(** The consumer takes a chunk. *)
Definition read (c : connection) : connection :=
  Conn (conn_entry c) (conn_open c) (highWaterReplaySeq c) (pred (unread c)) (frames c).

(** The hub's callback; the flag tells whether the subscription is disposed. *)
Definition callback (p : publication E) (c : connection) : connection * bool :=
  let stale := match pub_seq p with
    | Some s => (0 <=? highWaterReplaySeq c)%Z && (s <=? highWaterReplaySeq c)%Z
    | None => false
    end in
  if stale then (c, false)
  else if saturated c then (close c, true)
  else (enqueue (EventFrame (pub_seq p) (pub_event p)) c, false).

Definition heartbeat_tick (c : connection) : connection * bool :=
  if saturated c then (close c, true) else (enqueue Heartbeat c, false).

(** The synchronous replay drain of [start]. *)
Definition drain (window : list (Z * envelope E)) (c : connection) : connection :=
  foldl (λ c e, let c := enqueue (EventFrame (Some e.1) e.2) c in
    Conn (conn_entry c) (conn_open c) (Z.max (highWaterReplaySeq c) e.1) (unread c) (frames c)) c window.

Definition start (w : world E) (lastSeenSeq : option Z) (identity : option (string * string))
    (scope : option string) (now : Z) (aborted : bool) (c : connection) : world E * connection * bool :=
  if aborted then (w, close c, true)
  else
    let '(w, c) :=
      match lastSeenSeq with
      | Some last =>
          let '(w, window) := getReplayWindow last (Some (replay_subscriber identity)) scope now w in
          (w, match window with Some window => drain window c | None => c end)
      | None => (w, c)
      end in
    (w, enqueue Heartbeat c, false).

Definition handleSubscribeAssistantEvents (find_conversation : string → option string)
    (conversation_of_key : string → string) (resolve_actor : option string → option string)
    (r : subscribe_request) (now : Z) (aborted : bool) (w : world E) (h : AssistantEventHub)
    : world E * AssistantEventHub * list nat * (connection + subscribe_error) :=
  if blank (rawConversationId r) || blank (rawConversationKey r) then (w, h, [], inr BadRequest)
  else match parse_cursor (rawLastSeenSeq r) with
  | inr e => (w, h, [], inr e)
  | inl lastSeenSeq =>
  match parse_identity r with
  | inr e => (w, h, [], inr e)
  | inl identity =>
  match parse_scope find_conversation conversation_of_key r with
  | inr e => (w, h, [], inr e)
  | inl scope =>
  let '(h, evicted, sub) := subscribe (live_subscriber resolve_actor r identity) scope now h in
  match sub with
  | None => (w, h, evicted, inr ServiceUnavailable)
  | Some id =>
      let '(w, c, gone) := start w lastSeenSeq identity scope now aborted (Conn id true (-1) 0 []) in
      (w, (if gone then dispose id h else h), evicted, inl c)
  end end end end.

(** ** The tail by request *)

Record tail := { tail_events : list (Z * envelope E); complete : bool; frontier : option Z }.

(** [toSeq] as its parameter: absent or blank, or what [Number] makes of it. *)
Definition handleEventsTail (conversation : option string) (fromSeq toSeq : cursor_param)
    (clientId interface : option string) (now : Z) (w : world E) : world E * (tail + subscribe_error) :=
  match trimmed conversation, parse_cursor fromSeq with
  | Some conversation, inl (Some from) =>
      match (match toSeq with
             | NoCursor | BlankCursor => inl None
             | CursorValue (Some n) => if (n <? from)%Z then inr BadRequest else inl (Some n)
             | CursorValue None => inr BadRequest
             end) with
      | inr e => (w, inr e)
      | inl upTo =>
          let sub := match trimmed clientId, (js_trim <$> interface) ≫= parseInterfaceId with
            | Some c, Some i => Some (replay_subscriber (Some (c, i)))
            | _, _ => None
            end in
          let '(w, window) := getReplayWindow from sub (Some conversation) now w in
          (w, inl match window with
              | None => {| tail_events := []; complete := false; frontier := None |}
              | Some window =>
                  let bounded := match upTo with
                    | Some n => filter (λ e, (e.1 <=? n)%Z = true) window
                    | None => window
                    end in
                  {| tail_events := bounded; complete := true;
                     frontier := Some (default from (fst <$> last bounded)) |}
              end)
      end
  | _, _ => (w, inr BadRequest)
  end.
End connections.
Arguments frame : clear implicits.
Arguments connection : clear implicits.

(** ** Replay against live delivery *)

Section mirror.
Context {E : Type} (resolve_actor : option string → option string) (r : subscribe_request)
  (identity : option (string * string)) (scope : option string).
Implicit Types (g : RingEntry E).

Definition as_pub g : publication E := Pub (event g) (Some (seq g)) (targeting g).

(** The subscription as the hub sees it. *)
Definition listener (now : Z) (id : nat) : SubscriberEntry :=
  fresh_entry (live_subscriber resolve_actor r identity) scope now id.

Definition in_scope g : bool :=
  match scope with Some c => bool_decide (conversationId (event g) = Some c) | None => true end.

(** The event asks for no capability that only a header can claim. *)
Definition plain g : bool :=
  match targeting g ≫= targetCapability with Some cap => negb (negotiated cap) | None => true end.

Lemma base_of_live i cl cap :
  bool_decide (cap ∈ base_capabilities i) =
  bool_decide (cap ∈ live_capabilities i cl) && negb (negotiated cap).
Proof.
  destruct (negotiated cap) eqn:Hn; simpl; rw ?andb_false_r ?andb_true_r.
  - apply bool_decide_eq_false. unfold base_capabilities. intros [_ Hin]%list_elem_of_filter.
    revert Hn. apply not_true_iff_false. revert cap Hin. rw -Forall_forall.
    by repeat constructor.
  - apply bool_decide_ext. unfold live_capabilities. rw !elem_of_app. split; [by left|].
    intros [?|H]; [done|]. exfalso.
    assert (cap ∈ ["host_cu_window_capture"; "host_cu_sequence"; "host_cu_annotate"]%string) as Hc.
    { destruct H as [H|[H|H]]; (destruct (_ && _); [|by apply elem_of_nil in H]);
      apply list_elem_of_singleton in H as ->; set_solver. }
    unfold negotiated in Hn. by rewrite bool_decide_true in Hn.
Qed.

(** A replay is the live delivery, but for events out of the subscription's
    conversation and events that ask for a capability claimed by a header. *)
Lemma replay_mirror now id g :
  in_scope g && matchesSubscriber g (replay_subscriber identity) =
  accepts (conversationId (event g)) (targeting g) (listener now id) && in_scope g && plain g.
Proof.
  unfold in_scope, plain, accepts, matchesSubscriber, listener, live_subscriber, is_client.
  assert (∀ a b : string, bool_decide (Some a = Some b) = bool_decide (b = a)) as Hs.
  { intros a b. apply bool_decide_ext. naive_solver. }
  destruct (targeting g) as [[cap tc ti ex]|]; simpl.
  2: { destruct (conversationId (event g)), identity as [[name i]|], scope as [f|];
         rw /= ?Hs ?andb_true_r ?andb_diag //. }
  destruct identity as [[name i]|]; simpl.
  - destruct ex as [ex|], ti as [ti|], tc as [tc|], cap as [cap|], scope as [f|], (conversationId (event g));
      rw ?(base_of_live i (claims r)) ?Hs ?(bool_decide_ext (name = ex) (ex = name))
         ?(bool_decide_ext (name = tc) (tc = name)) ?(bool_decide_ext (i = ti) (ti = i)) /= ?andb_false_r //.
    all: repeat match goal with |- context [bool_decide ?P] => destruct (bool_decide P) end.
    all: repeat match goal with |- context [negotiated ?P] => destruct (negotiated P) end.
    all: done.
  - destruct ex as [ex|], ti as [ti|], tc as [tc|], cap as [cap|], scope as [f|], (conversationId (event g));
      rw /= ?Hs ?andb_false_r //.
    all: repeat match goal with |- context [bool_decide ?P] => destruct (bool_decide P) end; done.
Qed.
End mirror.

(** ** The daemon with one connection under watch *)

Section system.
Context {E : Type}.
Implicit Types (p : publication E) (b : bus E) (c : connection E) (w : world E).

Record system := Sys {
  sys_world : world E;
  sys_bus : bus E;
  sys_conn : connection E;
  sys_log : list (RingEntry E);   (** everything this process has stamped *)
}.

Inductive sys_op :=
| Emit (ev : envelope E) (size : option Z) (t : option EventTargeting) (now : Z) (written : bool)
| Forward (ev : envelope E) (size : option Z) (t : option EventTargeting) (now : Z) (written : bool)
| OnBus (o : bus_op E)
| OnStream (o : op E)
| Read
| Tick (now : Z)
| Abort.   (** the request is aborted or the stream cancelled *)

(** The hub hands what it delivers to the callback at once. *)
Definition hand_over (bc : bus E * connection E) (o : output E) : bus E * connection E :=
  let '(b, c) := bc in
  match o with
  | Delivered _ i p =>
      if bool_decide (i = conn_entry c) then
        let '(c, gone) := callback p c in
        (if gone then set_hub (dispose i (hub b)) b else b, c)
      else (b, c)
  | Evicted i => (b, if bool_decide (i = conn_entry c) then close c else c)
  | _ => (b, c)
  end.

Definition on_bus (o : bus_op E) (s : system) : system :=
  let '(b, out) := bus_exec o (sys_bus s) in
  let '(b, c) := foldl hand_over (b, sys_conn s) out in
  Sys (sys_world s) b c (sys_log s).

Definition stamp (ev : envelope E) (size : option Z) (t : option EventTargeting) (now : Z)
    (written : bool) (s : system) : system * option Z :=
  let '(w, n) := stampAndBuffer ev size t now written (sys_world s) in
  (Sys w (sys_bus s) (sys_conn s) (record (Stamp ev size t now written) n (sys_log s)), n).

(** [broadcastMessage], its options computed. *)
Definition broadcastMessage (ev : envelope E) (size : option Z) (t : option EventTargeting) (now : Z)
    (written : bool) (s : system) : system :=
  let '(s, n) := stamp ev size t now written s in on_bus (Broadcast (Pub ev n t)) s.

(** An event forwarded by another process ([ipc/routes/events-ipc-routes.ts]). *)
Definition handleEventsPublish (ev : envelope E) (size : option Z) (t : option EventTargeting) (now : Z)
    (written : bool) (s : system) : system :=
  let '(s, n) := stamp ev size t now written s in on_bus (Publish true (Pub ev n t)) s.

Definition sys_exec (o : sys_op) (s : system) : system :=
  match o with
  | Emit ev size t now written => broadcastMessage ev size t now written s
  | Forward ev size t now written => handleEventsPublish ev size t now written s
  | OnBus o => on_bus o s
  | OnStream o =>
      let '(w, n) := exec o (sys_world s) in
      Sys w (sys_bus s) (sys_conn s) (record o n (sys_log s))
  | Read => Sys (sys_world s) (sys_bus s) (read (sys_conn s)) (sys_log s)
  | Abort =>
      let h := hub (sys_bus s) in
      Sys (sys_world s) (set_hub (dispose (conn_entry (sys_conn s)) h) (sys_bus s))
        (close (sys_conn s)) (sys_log s)
  | Tick now =>
      let '(c, gone) := heartbeat_tick (sys_conn s) in
      let h := hub (sys_bus s) in
      let h := if gone then dispose (conn_entry c) h
               else match client_of h (conn_entry c) with
                    | Some who => touchClient (client_id who) now h
                    | None => h
                    end in
      Sys (sys_world s) (set_hub h (sys_bus s)) c (sys_log s)
  end.

Definition sys_run (os : list sys_op) (s : system) : system := foldl (λ s o, sys_exec o s) s os.

(** No event forwarded by another process, no other stamp, no restart; what
    plugins publish is not stamped. *)
Definition orderly (o : sys_op) : Prop :=
  match o with
  | Emit _ _ _ _ _ | Read | Tick _ | Abort => True
  | Forward _ _ _ _ _ => False
  | OnBus (Broadcast _) => False
  | OnBus (Publish _ p) => pub_seq p = None
  | OnBus _ => True
  | OnStream o => match o with Stamp _ _ _ _ _ | Restart => False | _ => True end
  end.

Definition sys_sound (t : Z) (o : sys_op) : Z * Prop :=
  match o with
  | Emit ev size tg now b => (now, sound t (Stamp ev size tg now b))
  | OnStream o => (clock t o, sound t o)
  | _ => (t, True)
  end.

Fixpoint sys_timely (t : Z) (os : list sys_op) : Prop :=
  match os with
  | [] => True
  | o :: os => (sys_sound t o).2 ∧ sys_timely (sys_sound t o).1 os
  end.

Definition sys_time (t : Z) (os : list sys_op) : Z := foldl (λ t o, (sys_sound t o).1) t os.

(** The numbered events a list of publications holds, and those written. *)
Definition numbered (l : list (publication E)) : list (Z * envelope E) :=
  omap (λ p, (λ n, (n, pub_event p)) <$> pub_seq p) l.

Definition written_events (l : list (frame E)) : list (Z * envelope E) :=
  omap (λ f, match f with EventFrame (Some n) ev => Some (n, ev) | _ => None end) l.

(** What the watermark lets through. *)
Definition fresh (high : Z) (x : Z * envelope E) : bool := negb ((0 <=? high)%Z && (x.1 <=? high)%Z).

(** *** The callback *)

(** [stale] in the callback. *)
Definition stale_at (high : Z) p : bool :=
  match pub_seq p with Some s => (0 <=? high)%Z && (s <=? high)%Z | None => false end.

Lemma fresh_numbered high p :
  filter (λ x, fresh high x = true) (numbered [p]) = if stale_at high p then [] else numbered [p].
Proof.
  unfold numbered, stale_at. destruct p as [ev [n|] t]; [|done].
  change (filter (λ x, fresh high x = true) [(n, ev)] = if (0 <=? high)%Z && (n <=? high)%Z then [] else [(n, ev)]).
  rw filter_cons. unfold fresh. simpl.
  by destruct ((0 <=? high)%Z && (n <=? high)%Z).
Qed.

Lemma callback_spec p c :
  let s := callback p c in
  conn_entry s.1 = conn_entry c ∧ highWaterReplaySeq s.1 = highWaterReplaySeq c ∧
  (if conn_open s.1 then
     conn_open c = true ∧ s.2 = false ∧
     written_events (frames s.1) =
       written_events (frames c) ++ filter (λ x, fresh (highWaterReplaySeq c) x = true) (numbered [p])
   else written_events (frames s.1) = written_events (frames c)).
Proof.
  unfold callback. cbv zeta. rw fresh_numbered. fold (stale_at (highWaterReplaySeq c) p).
  destruct (stale_at (highWaterReplaySeq c) p).
  - simpl. split_and!; [done..|]. rw app_nil_r. by destruct (conn_open c).
  - unfold saturated, enqueue, close. destruct (STREAM_HIGH_WATER <=? unread c)%nat;
      destruct (conn_open c) eqn:Ho; simpl; split_and!; try done.
    unfold written_events. rw omap_app. simpl. unfold numbered. simpl. by destruct (pub_seq p).
Qed.

Lemma hub_output (o : hub_op) h : ∃ ids, (hub_exec (E := E) o h).2 = Evicted <$> ids.
Proof.
  destruct o as [w f now|i|c|c now|c st now|c seen fo now|c p]; simpl; try by exists [].
  - destruct (subscribe w f now h) as [[h' ev] id]. by exists ev.
  - by eexists.
Qed.

Lemma exec_output o b :
  (∃ ids, (bus_exec o b).2 = Evicted <$> ids) ∨
  (∀ ch i p, Delivered ch i p ∉ (bus_exec o b).2) ∧ (∀ i, Evicted i ∉ (bus_exec o b).2) ∨
  (∃ ch i p, (bus_exec o b).2 = [Delivered ch i p]).
Proof.
  assert (∀ ch h p l failed,
    let out := (continue_fanout (E := E) ch h p l failed).2 in
    (∀ ch i p, Delivered ch i p ∉ out) ∧ (∀ i, Evicted i ∉ out) ∨ ∃ ch i p, out = [Delivered ch i p]) as Hc.
  { intros ch h p l failed. unfold continue_fanout. destruct (advance h p l) as [[i rest]|]; simpl.
    - right. by eexists _, _, _.
    - left. split; intros; rw list_elem_of_singleton; done. }
  assert ((∀ ch i p, Delivered (E := E) ch i p ∉ []) ∧ (∀ i, Evicted (E := E) i ∉ [])) as Hnil.
  { split; intros; apply not_elem_of_nil. }
  destruct o as [o|p| |threw|main p|k threw]; simpl.
  - left. destruct (hub_output o (hub b)) as [ids Hids]. exists ids.
    by destruct (hub_exec o (hub b)).
  - by right; left.
  - right. destruct (current b), (hubChain b) as [|q rest]; try by left.
    unfold publish. specialize (Hc true (hub b) q (subscribers (hub b)) 0).
    by destruct (continue_fanout _ _ _ _ _).
  - right. destruct (current b) as [f|]; [|by left].
    specialize (Hc true (hub b) (fan_pub f) (remaining f) (if threw then S (failures f) else failures f)).
    unfold resume. by destruct (continue_fanout _ _ _ _ _).
  - right. destruct main.
    + unfold publish. specialize (Hc false (hub b) p (subscribers (hub b)) 0).
      by destruct (continue_fanout _ _ _ _ _).
    + left. split; intros; rw list_elem_of_singleton; done.
  - right. destruct (direct b !! k) as [f|]; [|by left].
    specialize (Hc false (hub b) (fan_pub f) (remaining f) (if threw then S (failures f) else failures f)).
    unfold resume. by destruct (continue_fanout _ _ _ _ _).
Qed.

(** *** What the connection has written *)

(** The numbered events of [l] the connection will write. *)
Definition live (high : Z) (e : SubscriberEntry) (l : list (publication E)) : list (Z * envelope E) :=
  filter (λ x, fresh high x = true) (numbered (filter (wants e) l)).

Lemma live_app high e l l' : live high e (l ++ l') = live high e l ++ live high e l'.
Proof. unfold live, numbered. by rw filter_app omap_app filter_app. Qed.

Definition connected (s : system) : bool :=
  conn_open (sys_conn s) && is_active (hub (sys_bus s)) (conn_entry (sys_conn s)).

(** [W0] was replayed, [base] are the broadcasts owed since. *)
Record streaming (id : nat) (e : SubscriberEntry) (high : Z) (W0 : list (Z * envelope E))
    (base : list (publication E)) (s : system) : Prop := {
  st_entry : conn_entry (sys_conn s) = id;
  st_high : highWaterReplaySeq (sys_conn s) = high;
  st_bus : bus_sane (sys_bus s);
  st_known : ∃ e', entries (hub (sys_bus s)) !! id = Some e' ∧ profile e' = profile e;
  st_direct : ∀ f, f ∈ direct (sys_bus s) → pub_seq (fan_pub f) = None;
  st_written : ∃ L, written_events (frames (sys_conn s)) = W0 ++ L ∧
    if connected s then L ++ live high e (owed id (sys_bus s)) = live high e base
    else L `prefix_of` live high e base;
}.

(** A step writes [G] and may end the connection, but does not revive it. *)
Lemma streaming_step id e high W0 base bc G s s' :
  streaming id e high W0 base s →
  conn_entry (sys_conn s') = id → highWaterReplaySeq (sys_conn s') = high →
  bus_sane (sys_bus s') → evolves (hub (sys_bus s)) (hub (sys_bus s')) →
  (∀ f, f ∈ direct (sys_bus s') → pub_seq (fan_pub f) = None) →
  written_events (frames (sys_conn s')) = written_events (frames (sys_conn s)) ++ G →
  (if connected s' then connected s = true ∧
     G ++ live high e (owed id (sys_bus s')) = live high e (owed id (sys_bus s) ++ bc)
   else G = []) →
  streaming id e high W0 (base ++ bc) s'.
Proof.
  intros [H1 H2 H3 (e' & He' & Hp) H5 (L & HL & HW)] E1 E2 E3 [_ E4] E5 E6 E7. split; try done.
  - destruct (E4 id e' He') as (e'' & He'' & Hp' & _). exists e''. split; [done|congruence].
  - exists (L ++ G). rw E6 HL -app_assoc. split; [done|]. rw live_app.
    destruct (connected s').
    + destruct E7 as [Hc E7]. rewrite Hc in HW. by rw -app_assoc E7 live_app app_assoc HW.
    + rw E7 app_nil_r. destruct (connected s).
      * rw -HW -app_assoc. by apply prefix_app_r.
      * by apply prefix_app_r.
Qed.

Definition unnumbered (o : bus_op E) : Prop :=
  match o with Publish _ p => pub_seq p = None | _ => True end.

Lemma continue_pub ch h p l failed f : (continue_fanout (E := E) ch h p l failed).1 = Some f → fan_pub f = p.
Proof. unfold continue_fanout. destruct (advance h p l) as [[i rest]|]; by intros [= <-]. Qed.

Lemma exec_direct o b :
  unnumbered o → (∀ f, f ∈ direct b → pub_seq (fan_pub f) = None) →
  (∀ f, f ∈ direct (bus_exec o b).1 → pub_seq (fan_pub f) = None) ∧
  (∀ i p, Delivered false i p ∈ (bus_exec o b).2 → pub_seq p = None).
Proof.
  intros Ho Hd.
  assert (∀ h p l failed, pub_seq p = None →
    (∀ f, (continue_fanout (E := E) false h p l failed).1 = Some f → pub_seq (fan_pub f) = None) ∧
    (∀ i q, Delivered false i q ∈ (continue_fanout false h p l failed).2 → pub_seq q = None)) as Hc.
  { intros h p l failed Hp. split; [by intros f ->%continue_pub|]. intros i q. unfold continue_fanout.
    destruct (advance h p l) as [[j rest]|]; simpl; intros Hin%list_elem_of_singleton; congruence. }
  assert (∀ h p l failed i q, Delivered false i q ∉ (continue_fanout (E := E) true h p l failed).2) as Ht.
  { intros h p l failed i q. unfold continue_fanout.
    destruct (advance h p l) as [[j rest]|]; simpl; by intros Hin%list_elem_of_singleton. }
  assert (∀ i q, Delivered (E := E) false i q ∈ [] → pub_seq q = None) as Hnil by (intros ? ? ?%elem_of_nil; done).
  destruct o as [o|p| |threw|main p|k threw]; simpl.
  - destruct (hub_output o (hub b)) as [ids Hids]. destruct (hub_exec o (hub b)) as [h out].
    simpl in *. subst out. split; [done|]. by intros i q (? & [=] & _)%list_elem_of_fmap.
  - by split.
  - destruct (current b), (hubChain b) as [|p rest]; try by split.
    specialize (Ht (hub b) p (subscribers (hub b)) 0). unfold publish.
    destruct (continue_fanout _ _ _ _ _). split; [done|]. intros i q Hin. by apply Ht in Hin.
  - destruct (current b) as [f|]; [|by split].
    specialize (Ht (hub b) (fan_pub f) (remaining f) (if threw then S (failures f) else failures f)). unfold resume.
    destruct (continue_fanout _ _ _ _ _). split; [done|]. intros i q Hin. by apply Ht in Hin.
  - destruct main; [|split; [done|]; by intros i q ?%list_elem_of_singleton].
    destruct (Hc (hub b) p (subscribers (hub b)) 0 Ho) as [H1 H2]. unfold publish.
    destruct (continue_fanout _ _ _ _ _) as [f out]. simpl in *. split; [|done].
    intros g. rw elem_of_app elem_of_option_list. intros [?|?]; [by apply Hd|by apply H1].
  - destruct (direct b !! k) as [f|] eqn:Hk; [|by split]. apply list_elem_of_lookup_2 in Hk.
    destruct (Hc (hub b) (fan_pub f) (remaining f) (if threw then S (failures f) else failures f) (Hd f Hk)) as [H1 H2].
    unfold resume. destruct (continue_fanout _ _ _ _ _) as [f' out]. simpl in *. split; [|done].
    intros g. rw !elem_of_app elem_of_option_list. intros [Hg|[Hg|Hg]]; [|by apply H1|].
    + apply Hd. by eapply subseteq_take.
    + apply Hd. by eapply elem_of_sublist, sublist_drop.
Qed.

Lemma hand_over_evicted ids b c :
  ∃ c', foldl hand_over (b, c) (Evicted <$> ids) = (b, c') ∧ (c' = c ∨ c' = close c).
Proof.
  revert c. induction ids as [|i ids IH]; intros c; simpl; [by exists c; eauto|].
  case_bool_decide; [|apply IH]. destruct (IH (close c)) as (c' & Hc' & Hcl). exists c'. split; [exact Hc'|].
  right. by destruct Hcl as [-> | ->].
Qed.

Lemma hand_over_quiet out b c :
  (∀ ch i p, Delivered ch i p ∉ out) → (∀ i, Evicted i ∉ out) → foldl hand_over (b, c) out = (b, c).
Proof.
  induction out as [|o out IH]; intros Hd He; [done|]. simpl.
  destruct o as [ch i p|p n|p|i]; simpl.
  - by destruct (Hd ch i p); left.
  - apply IH; intros; set_solver.
  - apply IH; intros; set_solver.
  - by destruct (He i); left.
Qed.

Lemma received_quiet ch id out :
  (∀ ch i p, Delivered (E := E) ch i p ∉ out) → received ch id out = [].
Proof.
  induction out as [|o out IH]; intros Hd; [done|]. change (o :: out) with ([o] ++ out).
  rw received_app IH; [|intros; set_solver]. rw app_nil_r. destruct o as [c i p|p n|p|i]; try done. by destruct (Hd c i p); left.
Qed.

Lemma evicted_quiet ids ch i p : Delivered (E := E) ch i p ∉ (Evicted <$> ids : list (output E)).
Proof. by intros (? & [=] & _)%list_elem_of_fmap. Qed.

(** A bus operation that hands the connection nothing. *)
Lemma streaming_silent o id e high W0 base s b1 c' :
  streaming id e high W0 base s → b1 = (bus_exec o (sys_bus s)).1 → unnumbered o →
  received true id (bus_exec o (sys_bus s)).2 = [] →
  c' = sys_conn s ∨ c' = close (sys_conn s) →
  streaming id e high W0 (base ++ broadcasts [o]) (Sys (sys_world s) b1 c' (sys_log s)).
Proof.
  intros Hs -> Ho Hr Hc. pose proof Hs as [H1 H2 H3 (e' & He' & Hp) H5 _].
  destruct (bus_exec_sane o _ H3) as [Hb1 Hev]. pose proof (bus_exec_pays o _ id e' H3 He') as Hpay.
  destruct (exec_direct o _ Ho H5) as [Hd1 _]. cbv zeta in Hpay.
  apply (streaming_step _ _ _ _ _ _ [] _ _ Hs); simpl; try done.
  - by destruct Hc as [-> | ->].
  - by destruct Hc as [-> | ->].
  - rw app_nil_r. by destruct Hc as [-> | ->].
  - unfold connected. simpl. destruct Hc as [-> | ->]; [|done]. rw H1.
    destruct (conn_open (sys_conn s)); [|done]. simpl.
    destruct (is_active _ id) eqn:Ha; [|done]. split.
    + unfold is_active in *. rw He'. destruct Hev as [_ Hev].
      destruct (Hev id e' He') as (e1 & He1 & _ & Ha1). rewrite He1 in Ha. by apply Ha1.
    + destruct (Hpay eq_refl) as [Hp1 _]. rewrite Hr /= !(filter_evolved e e' _ Hp) in Hp1.
      unfold live. by rw Hp1.
Qed.

Lemma exec_hub o b b1 out ch i p :
  bus_exec o b = (b1, out) → Delivered ch i p ∈ out → hub b1 = hub b.
Proof.
  destruct o as [o|q| |threw|main q|k threw]; simpl.
  - destruct (hub_output o (hub b)) as [ids Hids]. destruct (hub_exec o (hub b)) as [h out'].
    simpl in Hids. subst out'. intros [= _ <-] Hin. by apply evicted_quiet in Hin.
  - by intros [= <- _].
  - destruct (current b), (hubChain b) as [|q rest]; try by intros [= <- _].
    destruct (publish true (hub b) q). by intros [= <- _].
  - destruct (current b) as [f|]; [|by intros [= <- _]].
    destruct (resume true threw (hub b) f). by intros [= <- _].
  - destruct main; [|by intros [= <- _]]. destruct (publish false (hub b) q). by intros [= <- _].
  - destruct (direct b !! k) as [f|]; [|by intros [= <- _]].
    destruct (resume false threw (hub b) f). by intros [= <- _].
Qed.

Lemma streaming_on_bus o id e high W0 base s :
  streaming id e high W0 base s → unnumbered o →
  streaming id e high W0 (base ++ broadcasts [o]) (on_bus o s).
Proof.
  intros Hs Ho. unfold on_bus.
  pose proof (exec_output o (sys_bus s)) as Hout.
  pose proof (λ b1 c', streaming_silent o id e high W0 base s b1 c' Hs) as Hsilent.
  pose proof Hs as [H1 H2 H3 (e' & He' & Hp) H5 _].
  destruct (bus_exec_sane o _ H3) as [Hb1 Hev]. pose proof (bus_exec_pays o _ id e' H3 He') as Hpay.
  destruct (exec_direct o _ Ho H5) as [Hd1 Hd2].
  pose proof (exec_delivers o (sys_bus s)) as Hdel.
  destruct (bus_exec o (sys_bus s)) as [b1 out] eqn:Hx. simpl in *.
  destruct Hout as [[ids ->]|[[Hq1 Hq2]|(ch & i & p & ->)]].
  - destruct (hand_over_evicted ids b1 (sys_conn s)) as (c' & -> & Hc').
    apply Hsilent; [done|done| |done]. apply received_quiet. intros. apply evicted_quiet.
  - rw hand_over_quiet //. apply Hsilent; [done|done| |by left]. by apply received_quiet.
  - simpl. rw H1. case_bool_decide as Hi.
    2: { apply Hsilent; [done|done| |by left]. unfold received. simpl. rw bool_decide_false //. by intros []. }
    subst i. specialize (Hdel ch id p ltac:(by left)). unfold receives in Hdel. rewrite He' in Hdel.
    apply andb_true_iff in Hdel as [Hact Hacc].
    assert (is_active (hub b1) id = true) as Hact1.
    { rw (exec_hub o (sys_bus s) b1 _ ch id p Hx ltac:(by left)). unfold is_active. by rw He'. }
    destruct (Hpay Hact1) as [Hp1 _]. rewrite !(filter_evolved e e' _ Hp) in Hp1.
    pose proof (callback_spec p (sys_conn s)) as (C1 & C2 & C3). cbv zeta in *.
    destruct (callback p (sys_conn s)) as [c gone]. simpl in *.
    set (b2 := if gone then set_hub (dispose id (hub b1)) b1 else b1).
    apply (streaming_step _ _ _ _ _ _
      (if conn_open c then filter (λ x, fresh high x = true) (numbered [p]) else []) _ _ Hs); simpl.
    + congruence.
    + congruence.
    + subst b2. destruct gone; [|done]. split; [|by apply (bus_current _ Hb1)|by apply (bus_direct _ Hb1)].
      simpl. unfold dispose. destruct (is_active (hub b1) id); [|by apply bus_hub]. by apply sane_drop, bus_hub.
    + subst b2. destruct gone; [|done]. etrans; [exact Hev|]. simpl. unfold dispose.
      destruct (is_active (hub b1) id); [apply evolves_drop|done].
    + subst b2. by destruct gone.
    + destruct (conn_open c); [|by rw app_nil_r]. destruct C3 as (_ & _ & C3). by rw C3 H2.
    + unfold connected. simpl. rw C1 H1. destruct (conn_open c); [|done]. destruct C3 as (Hopen & -> & _).
      subst b2. simpl. rw Hact1 Hopen /=. unfold is_active. rw He' Hact. split; [done|].
      unfold live. rw -Hp1. destruct ch; unfold received; simpl.
      * rw bool_decide_true //. simpl. unfold numbered. by rw -(filter_app _ (numbered [p])) -omap_app.
      * unfold numbered at 1. simpl.
        by rw (Hd2 id p ltac:(by left)).
Qed.

(** *** Histories *)

Definition emitted (o : sys_op) (s : system) : list (publication E) :=
  match o with
  | Emit ev size t now written => [Pub ev (stamp ev size t now written s).2 t]
  | OnBus o => broadcasts [o]
  | _ => []
  end.

Fixpoint all_emitted (os : list sys_op) (s : system) : list (publication E) :=
  match os with [] => [] | o :: os => emitted o s ++ all_emitted os (sys_exec o s) end.

Lemma streaming_frame id e high W0 base s w log :
  streaming id e high W0 base s → streaming id e high W0 base (Sys w (sys_bus s) (sys_conn s) log).
Proof. intros []. by split. Qed.

(** The connection ends or keeps what it had written; the bus is the same but
    for the hub. *)
Lemma streaming_local id e high W0 base s c' h :
  streaming id e high W0 base s → sane h → evolves (hub (sys_bus s)) h →
  conn_entry c' = id → highWaterReplaySeq c' = high →
  written_events (frames c') = written_events (frames (sys_conn s)) →
  (conn_open c' = true → conn_open (sys_conn s) = true) →
  streaming id e high W0 base (Sys (sys_world s) (set_hub h (sys_bus s)) c' (sys_log s)).
Proof.
  intros Hs Hh Hev H1 H2 H3 H4. pose proof Hs as [E1 E2 [B1 B2 B3] (e' & He' & _) E5 _].
  rw -(app_nil_r base).
  apply (streaming_step _ _ _ _ _ _ [] _ _ Hs); simpl; try done.
  - by rw app_nil_r.
  - unfold connected. simpl. rw H1 E1. destruct (conn_open c'); [|done]. rw H4 //. simpl.
    destruct (is_active h id) eqn:Ha; [|done]. rw app_nil_r. split; [|done].
    unfold is_active in *. rw He'. destruct Hev as [_ Hev].
    destruct (Hev id e' He') as (e1 & He1 & _ & Ha1). rewrite He1 in Ha. by apply Ha1.
Qed.

(** What the connection does to the hub on its own account. *)
Lemma dispose_fine h id : sane h → sane (dispose id h) ∧ evolves h (dispose id h).
Proof.
  intros Hh. unfold dispose. destruct (is_active h id); [|done]. split; [by apply sane_drop|apply evolves_drop].
Qed.

Lemma touch_fine h name now : sane h → sane (touchClient name now h) ∧ evolves h (touchClient name now h).
Proof.
  intros Hh. assert (alike h (touchClient name now h)) as Ha by (by apply alike_update).
  split; [by eapply sane_alike|by apply alike_evolves].
Qed.

Lemma tick_fine h (gone : bool) id now : sane h →
  let h' := if gone then dispose id h
            else match client_of h id with Some who => touchClient (client_id who) now h | None => h end in
  sane h' ∧ evolves h h'.
Proof.
  intros Hh. destruct gone; [by apply dispose_fine|]. destruct (client_of h id); [by apply touch_fine|done].
Qed.

Lemma written_heartbeat c : written_events (frames (enqueue Heartbeat c)) = written_events (frames c).
Proof.
  unfold enqueue. destruct (conn_open c); [|done]. unfold written_events. simpl. by rw omap_app /= app_nil_r.
Qed.

Lemma sys_exec_streaming o id e high W0 base s :
  orderly o → streaming id e high W0 base s →
  streaming id e high W0 (base ++ emitted o s) (sys_exec o s).
Proof.
  intros Ho Hs. pose proof Hs as [H1 H2 _ _ _ _].
  destruct o as [ev size t now wr|ev size t now wr|o|o| |now|]; simpl.
  - unfold broadcastMessage. destruct (stamp ev size t now wr s) as [s' n] eqn:Hst. simpl.
    apply (streaming_on_bus (Broadcast (Pub ev n t)) _ _ _ _ _ s'); [|done].
    unfold stamp in Hst. destruct (stampAndBuffer ev size t now wr (sys_world s)) as [w n'].
    injection Hst as <- <-. by apply streaming_frame.
  - done.
  - apply streaming_on_bus; [done|]. by destruct o.
  - rw app_nil_r. destruct (exec o (sys_world s)) as [w n]. by apply streaming_frame.
  - rw app_nil_r. destruct s as [w b c log]. simpl in *.
    assert (b = set_hub (hub b) b) as Hb by (by destruct b). rw {1}Hb.
    apply (streaming_local _ _ _ _ _ (Sys w b c log) (read c) (hub b) Hs); try done. by apply (st_bus _ _ _ _ _ _ Hs).
  - rw app_nil_r. pose proof (bus_hub _ (st_bus _ _ _ _ _ _ Hs)) as Hh.
    destruct (heartbeat_tick (sys_conn s)) as [c gone] eqn:Hc.
    destruct (tick_fine (hub (sys_bus s)) gone (conn_entry c) now Hh) as [? ?].
    unfold heartbeat_tick in Hc. destruct (saturated (sys_conn s)); injection Hc as <- <-.
    + by apply streaming_local.
    + apply streaming_local; try done.
      * unfold enqueue. by destruct (conn_open _).
      * unfold enqueue. by destruct (conn_open _).
      * apply written_heartbeat.
      * unfold enqueue. destruct (conn_open (sys_conn s)) eqn:Hopen; simpl; congruence.
  - rw app_nil_r. destruct (dispose_fine (hub (sys_bus s)) (conn_entry (sys_conn s)) (bus_hub _ (st_bus _ _ _ _ _ _ Hs))) as [? ?].
    by apply streaming_local.
Qed.

Lemma sys_run_streaming os : ∀ id e high W0 base s,
  Forall orderly os → streaming id e high W0 base s →
  streaming id e high W0 (base ++ all_emitted os s) (sys_run os s).
Proof.
  induction os as [|o os IH]; intros id e high W0 base s Hos Hs; simpl; [by rw app_nil_r|].
  inversion_clear Hos. rw app_assoc. apply IH; [done|]. by apply sys_exec_streaming.
Qed.

(** What was stamped is what was emitted with a number. *)
Definition has_number p : bool := bool_decide (is_Some (pub_seq p)).

Lemma sys_log_emitted o s :
  orderly o → sys_log (sys_exec o s) = sys_log s ∧ filter (λ p, has_number p = true) (emitted o s) = [] ∨
  ∃ g, sys_log (sys_exec o s) = sys_log s ++ [g] ∧ emitted o s = [as_pub g].
Proof.
  intros Ho. assert (∀ o s, sys_log (on_bus o s) = sys_log s) as Hbus.
  { clear. intros o s. unfold on_bus. destruct (bus_exec o (sys_bus s)) as [b out].
    by destruct (foldl hand_over (b, sys_conn s) out). }
  destruct o as [ev size t now wr|ev size t now wr|o|o| |now|]; simpl; try by left.
  - unfold broadcastMessage, stamp.
    destruct (stampAndBuffer ev size t now wr (sys_world s)) as [w n] eqn:Hst. rw Hbus. simpl.
    destruct n as [n|]; [|left; split; [by destruct size|done]]. right.
    destruct size as [size|]; [by eexists|]. exfalso. revert Hst. unfold stampAndBuffer.
    destruct (stampingDisabled (sys_world s)); [by intros [=]|].
    by destruct (conversationId ev).
  - left. rw Hbus. by destruct o.
  - left. destruct (exec o (sys_world s)) as [w n] eqn:Hx. simpl. by destruct o.
  - left. by destruct (heartbeat_tick (sys_conn s)).
Qed.

(** *** The daemon before the connection *)

Definition idle (d : option Z) (max : option nat) : system :=
  Sys (World initial false d) (new_bus max) (Conn 0 false (-1) 0 []) [].

(** The chain holds the newest of what was stamped. *)
Record reached (t : Z) (s : system) : Prop := {
  re_logged : logged t (sys_world s) (sys_log s);
  re_bus : bus_sane (sys_bus s);
  re_direct : ∀ f, f ∈ direct (sys_bus s) → pub_seq (fan_pub f) = None;
  re_snapshot : ∀ f i, current (sys_bus s) = Some f → i ∈ remaining f →
    i ≤ connectionCounter (hub (sys_bus s));
  re_chain : ∃ gone, as_pub <$> sys_log s =
    gone ++ filter (λ p, has_number p = true) (hubChain (sys_bus s));
}.

Lemma bus_exec_chain o b :
  hubChain (bus_exec o b).1 = hubChain b ++ broadcasts [o] ∨
  broadcasts [o] = [] ∧ ∃ p, hubChain b = p :: hubChain (bus_exec o b).1.
Proof.
  destruct o as [o|p| |threw|main p|k threw]; simpl; rw ?app_nil_r.
  - left. by destruct (hub_exec o (hub b)).
  - by left.
  - destruct (current b); [by left|]. destruct (hubChain b) as [|p rest] eqn:Hc; [by left|].
    right. destruct (publish true (hub b) p). split; [done|]. by exists p.
  - left. destruct (current b) as [f|]; [|done]. by destruct (resume true threw (hub b) f).
  - left. destruct main; [|done]. by destruct (publish false (hub b) p).
  - left. destruct (direct b !! k) as [f|]; [|done]. by destruct (resume false threw (hub b) f).
Qed.

Lemma continue_snapshot ch h p l failed f i :
  (continue_fanout (E := E) ch h p l failed).1 = Some f → i ∈ remaining f → i ∈ l.
Proof.
  unfold continue_fanout. destruct (advance h p l) as [[j rest]|] eqn:Ha; [|done].
  intros [= <-]. apply advance_suffix in Ha as (sk & ->). simpl. set_solver.
Qed.

Lemma bus_exec_snapshot o b f i :
  sane (hub b) → (∀ f i, current b = Some f → i ∈ remaining f → i ≤ connectionCounter (hub b)) →
  current (bus_exec o b).1 = Some f → i ∈ remaining f → i ≤ connectionCounter (hub b).
Proof.
  intros Hh Hb. destruct o as [o|p| |threw|main p|k threw]; simpl.
  - destruct (hub_exec o (hub b)). apply Hb.
  - apply Hb.
  - destruct (current b) as [g|] eqn:Hg; [simpl; rw Hg; apply Hb|].
    destruct (hubChain b) as [|p rest]; [simpl; by rw Hg|].
    pose proof (continue_snapshot true (hub b) p (subscribers (hub b)) 0) as Hs. unfold publish.
    destruct (continue_fanout _ _ _ _ _) as [g out]. simpl in *. intros Hf Hi.
    eapply listed_known; [done|by eapply Hs].
  - destruct (current b) as [g|] eqn:Hg; [|simpl; by rw Hg].
    pose proof (continue_snapshot true (hub b) (fan_pub g) (remaining g)
      (if threw then S (failures g) else failures g)) as Hs. unfold resume.
    destruct (continue_fanout _ _ _ _ _) as [g' out]. simpl in *. intros Hf Hi.
    eapply Hb; [done|by eapply Hs].
  - destruct main; [|apply Hb]. destruct (publish false (hub b) p). apply Hb.
  - destruct (direct b !! k) as [g|]; [|apply Hb]. destruct (resume false threw (hub b) g). apply Hb.
Qed.

(** Callbacks touch the bus by disposing of subscriptions only. *)
Lemma hand_over_bus out : ∀ b c, bus_sane b →
  let b' := (foldl hand_over (b, c) out).1 in
  bus_sane b' ∧ evolves (hub b) (hub b') ∧ current b' = current b ∧ direct b' = direct b ∧
  hubChain b' = hubChain b.
Proof.
  induction out as [|o out IH]; intros b c Hb; simpl; [done|].
  destruct o as [ch i p|p n|p|i]; simpl; try by apply IH.
  case_bool_decide; [|by apply IH]. destruct (callback p c) as [c' [|]]; [|by apply IH].
  set (b1 := set_hub (dispose i (hub b)) b).
  assert (bus_sane b1 ∧ evolves (hub b) (hub b1)) as [Hb1 Hev].
  { destruct Hb as [B1 B2 B3]. unfold b1. simpl. unfold dispose. destruct (is_active (hub b) i).
    - split; [|apply evolves_drop]. split; [by apply sane_drop|done..].
    - split; [|done]. by split. }
  destruct (IH b1 c' Hb1) as (G1 & G2 & G3 & G4 & G5).
  split_and!; [done|by etrans|by rw G3|by rw G4|by rw G5].
Qed.

Lemma on_bus_fields o s : bus_sane (sys_bus s) →
  let s' := on_bus o s in
  let b' := (bus_exec o (sys_bus s)).1 in
  sys_world s' = sys_world s ∧ sys_log s' = sys_log s ∧ bus_sane (sys_bus s') ∧
  evolves (hub (sys_bus s)) (hub (sys_bus s')) ∧ current (sys_bus s') = current b' ∧
  direct (sys_bus s') = direct b' ∧ hubChain (sys_bus s') = hubChain b'.
Proof.
  intros Hb. destruct (bus_exec_sane o _ Hb) as [Hb1 Hev]. unfold on_bus.
  destruct (bus_exec o (sys_bus s)) as [b out]. simpl in *.
  pose proof (hand_over_bus out b (sys_conn s) Hb1) as (G1 & G2 & G3 & G4 & G5).
  destruct (foldl hand_over (b, sys_conn s) out) as [b2 c2]. simpl in *.
  split_and!; try done. by etrans.
Qed.

Lemma reached_on_bus t o s :
  logged t (sys_world s) (sys_log s) → bus_sane (sys_bus s) → unnumbered o →
  (∀ f, f ∈ direct (sys_bus s) → pub_seq (fan_pub f) = None) →
  (∀ f i, current (sys_bus s) = Some f → i ∈ remaining f → i ≤ connectionCounter (hub (sys_bus s))) →
  (∃ gone, as_pub <$> sys_log s =
    gone ++ filter (λ p, has_number p = true) (hubChain (sys_bus s) ++ broadcasts [o])) →
  reached t (on_bus o s).
Proof.
  intros H1 H2 Ho H3 H4 (gone & H5). destruct (on_bus_fields o s H2) as (F1 & F2 & F3 & F4 & F5 & F6 & F7).
  split; rw ?F1 ?F2 ?F5 ?F6 ?F7 //.
  - by apply (exec_direct o _ Ho H3).
  - intros f i Hf Hi. destruct F4 as [F4 _]. etrans; [|exact F4]. eapply bus_exec_snapshot; eauto. by apply bus_hub.
  - destruct (bus_exec_chain o (sys_bus s)) as [-> | (Hbc & p & Hp)]; [by exists gone|].
    rewrite Hbc Hp app_nil_r in H5. rw H5. rw filter_cons.
    destruct (decide (has_number p = true)); [|by exists gone].
    exists (gone ++ [p]). by rw -app_assoc.
Qed.

Lemma sys_exec_reached t o s :
  orderly o → (sys_sound t o).2 → reached t s → reached (sys_sound t o).1 (sys_exec o s).
Proof.
  intros Ho Hsound [H1 H2 H3 H4 (gone & H5)].
  assert (∀ c' h, sane h → evolves (hub (sys_bus s)) h →
    reached t (Sys (sys_world s) (set_hub h (sys_bus s)) c' (sys_log s))) as Hlocal.
  { intros c' h Hh [Hcnt _]. split; simpl; try done; [|intros f i Hf Hi; specialize (H4 f i Hf Hi); lia|by exists gone].
    split; [done|apply H2|apply H2]. }
  destruct o as [ev size tg now wr|ev size tg now wr|o|o| |now|]; simpl.
  - simpl in Hsound. pose proof (logged_exec _ _ _ _ Hsound H1) as Hl. simpl in Hl.
    unfold broadcastMessage, stamp.
    destruct (stampAndBuffer ev size tg now wr (sys_world s)) as [w n] eqn:Hst. simpl in *.
    apply reached_on_bus; simpl; try done. exists gone.
    rw filter_app app_assoc -H5. clear -Hst.
    destruct n as [n|].
    + destruct size as [size|]; [by rw fmap_app|]. exfalso. revert Hst. unfold stampAndBuffer.
      destruct (stampingDisabled (sys_world s)); [by intros [=]|]. by destruct (conversationId ev).
    + assert (filter (λ p, has_number p = true) [Pub ev None tg] = []) as -> by done.
      rw app_nil_r. by destruct size.
  - done.
  - apply reached_on_bus; try done; [by destruct o|]. exists gone. destruct o; simpl; try done; by rw app_nil_r.
  - pose proof (logged_exec _ _ _ _ Hsound H1) as Hl. destruct (exec o (sys_world s)) as [w n].
    split; simpl in *; try done. exists gone. by destruct o.
  - split; simpl; try done. by exists gone.
  - destruct (heartbeat_tick (sys_conn s)) as [c flag].
    apply Hlocal; by apply tick_fine, bus_hub.
  - apply Hlocal; by apply dispose_fine, bus_hub.
Qed.

Lemma sys_run_reached os : ∀ t s,
  Forall orderly os → sys_timely t os → reached t s → reached (sys_time t os) (sys_run os s).
Proof.
  induction os as [|o os IH]; intros t s Hos Ht Hs; [done|]. simpl in *. inversion_clear Hos.
  destruct Ht as [Ho Ht]. apply IH; [done|done|]. by apply sys_exec_reached.
Qed.

Lemma reached_idle t d max : reached t (idle d max).
Proof.
  split; simpl; try done; [apply logged_fresh|apply bus_sane_new|by intros f ?%elem_of_nil|by exists []].
Qed.

(** *** Connecting *)

Section connect.
Context (find_conversation : string → option string) (conversation_of_key : string → string)
  (resolve_actor : option string → option string).

(** The request opens the connection under watch. *)
Definition connect (r : subscribe_request) (now : Z) (aborted : bool) (s : system)
    : option system :=
  let '(w, h, _, res) := handleSubscribeAssistantEvents find_conversation conversation_of_key
    resolve_actor r now aborted (sys_world s) (hub (sys_bus s)) in
  match res with
  | inl c => Some (Sys w (set_hub h (sys_bus s)) c (sys_log s))
  | inr _ => None
  end.

Lemma drain_spec window : ∀ c, conn_open c = true →
  let c' := drain window c in
  conn_entry c' = conn_entry c ∧ conn_open c' = true ∧
  highWaterReplaySeq c' = foldl (λ m e, Z.max m e.1) (highWaterReplaySeq c) window ∧
  written_events (frames c') = written_events (frames c) ++ window.
Proof.
  induction window as [|e window IH]; intros c Hc; simpl; [by rw app_nil_r|].
  unfold enqueue. rw Hc. simpl.
  match goal with |- context [drain window ?c0] => destruct (IH c0) as (-> & -> & -> & ->) end; [done|].
  simpl. split_and!; [done..|]. unfold written_events. rw omap_app -app_assoc /=. by destruct e.
Qed.

(** The connection as it goes live. *)
Lemma connect_spec r cursor identity scope now s s1 t :
  reached t s → parse_cursor (rawLastSeenSeq r) = inl (Some cursor) → parse_identity r = inl identity →
  parse_scope find_conversation conversation_of_key r = inl scope →
  connect r now false s = Some s1 → (t <= now)%Z →
  let window := default [] (getReplayWindow cursor (Some (replay_subscriber identity)) scope now (sys_world s)).2 in
  let id := conn_entry (sys_conn s1) in
  sys_log s1 = sys_log s ∧
  streaming id (listener resolve_actor r identity scope now id) (foldl (λ m e, Z.max m e.1) (-1)%Z window)
    window (hubChain (sys_bus s)) s1 ∧ reached now s1.
Proof.
  intros Hs Hc Hi Hscope. unfold connect, handleSubscribeAssistantEvents.
  destruct (blank _ || blank _); [done|]. rw Hc Hi Hscope.
  pose proof (subscribe_spec (live_subscriber resolve_actor r identity) scope now _ (bus_hub _ (re_bus _ _ Hs))) as Hsub.
  destruct (subscribe _ scope now (hub (sys_bus s))) as [[h evicted] [id|]]; [|done].
  destruct Hsub as (Hh & Hev & -> & Hentry & Hnew). unfold start.
  destruct (getReplayWindow cursor _ scope now (sys_world s)) as [w window] eqn:Hw. simpl.
  intros [= <-] Hnow. simpl.
  assert (∃ c', c' = match window with Some window => drain window (Conn (connectionCounter h) true (-1) 0 [])
      | None => Conn (connectionCounter h) true (-1) 0 [] end ∧
    conn_entry c' = connectionCounter h ∧ conn_open c' = true ∧
    highWaterReplaySeq c' = foldl (λ m e, Z.max m e.1) (-1)%Z (default [] window) ∧
    written_events (frames c') = default [] window) as (c' & <- & E1 & E2 & E3 & E4).
  { eexists. split; [done|]. destruct window as [window|]; [|done].
    by destruct (drain_spec window (Conn (connectionCounter h) true (-1) 0 [])) as (-> & -> & -> & ->). }
  assert (conn_entry (enqueue Heartbeat c') = connectionCounter h) as F1 by (unfold enqueue; by rw E2).
  assert (conn_open (enqueue Heartbeat c') = true) as F2 by (unfold enqueue; by rw E2).
  assert (is_active h (connectionCounter h) = true) as F3 by (unfold is_active; by rw Hentry).
  assert (connected (Sys w (set_hub h (sys_bus s)) (enqueue Heartbeat c') (sys_log s)) = true) as Hconn.
  { unfold connected. simpl. by rw F1 F2 F3. }
  split_and!; [done| |].
  2: { destruct (re_bus _ _ Hs) as [B1 B2 B3]. destruct Hev as [Hcnt _]. split; simpl.
       - injection Hw as <- _. apply (logged_evict _ _ _ _ (re_logged _ _ Hs) Hnow).
       - by split.
       - apply (re_direct _ _ Hs).
       - intros f i Hf Hin. pose proof (re_snapshot _ _ Hs f i Hf Hin). lia.
       - apply (re_chain _ _ Hs). }
  rw F1. split; simpl; try done.
  - rw -E3. unfold enqueue. by rw E2.
  - destruct (re_bus _ _ Hs) as [B1 B2 B3]. by split.
  - by exists (listener resolve_actor r identity scope now (connectionCounter h)).
  - apply (re_direct _ _ Hs).
  - exists []. rw written_heartbeat E4 app_nil_r Hconn. split; [done|]. simpl. unfold owed. simpl.
    destruct (current (sys_bus s)) as [f|] eqn:Hf; [|done].
    assert (owed_by (connectionCounter h) (Some f) = []) as ->; [|done].
    unfold owed_by, slot. rw bool_decide_false //. intros Hin. pose proof (re_snapshot _ _ Hs f _ Hf Hin). lia.
Qed.

(** ** Theorems *)

Lemma numbered_entry_cons p l : numbered (p :: l) = numbered [p] ++ numbered l.
Proof. change (p :: l) with ([p] ++ l). unfold numbered. apply omap_app. Qed.

Lemma numbered_none p : has_number p ≠ true → numbered [p] = [].
Proof.
  unfold has_number, numbered. destruct p as [ev [n|] t]; [|done]. intros Hn. by destruct Hn.
Qed.

Lemma numbered_has (P : publication E → Prop) `{∀ p, Decision (P p)} l :
  numbered (filter P l) = numbered (filter P (filter (λ p, has_number p = true) l)).
Proof.
  induction l as [|p l IH]; [done|]. rw !filter_cons. destruct (decide (has_number p = true)) as [Hn|Hn].
  - rw filter_cons. destruct (decide (P p)); [|done]. rw (numbered_entry_cons p (filter P l)) IH -numbered_entry_cons //.
  - destruct (decide (P p)); [|done]. by rw numbered_entry_cons numbered_none // -IH.
Qed.

Definition pair_of (g : RingEntry E) : Z * envelope E := (seq g, event g).

Lemma numbered_as_pub (P : publication E → Prop) `{∀ p, Decision (P p)} (l : list (RingEntry E)) :
  numbered (filter P (as_pub <$> l)) = pair_of <$> filter (λ g, P (as_pub g)) l.
Proof.
  induction l as [|g l IH]; [done|]. rw fmap_cons !filter_cons. destruct (decide (P (as_pub g))); [|done].
  by rw numbered_entry_cons IH.
Qed.

(** The log after a history: what was emitted with a number. *)
Lemma sys_run_log os : ∀ s, Forall orderly os →
  ∃ since, sys_log (sys_run os s) = sys_log s ++ since ∧
    filter (λ p, has_number p = true) (all_emitted os s) = as_pub <$> since.
Proof.
  induction os as [|o os IH]; intros s Hos; simpl; [by exists []; rw app_nil_r|].
  inversion_clear Hos as [|? ? Ho Hos']. destruct (IH (sys_exec o s) Hos') as (since & H1 & H2).
  rw filter_app H2 H1. destruct (sys_log_emitted o s Ho) as [[-> ->]|(g & -> & ->)].
  - by exists since.
  - exists (g :: since). by rw -app_assoc.
Qed.

Lemma max_above (l : list (Z * envelope E)) (m : Z) :
  (m <= foldl (λ m e, Z.max m e.1) m l)%Z ∧
  (∀ x, x ∈ l → (x.1 <= foldl (λ m e, Z.max m e.1) m l)%Z).
Proof.
  revert m. induction l as [|y l IH]; intros m; simpl; [split; [lia|by intros x ?%elem_of_nil]|].
  destruct (IH (Z.max m y.1)) as [H1 H2]. split; [lia|].
  intros x [->|Hx]%elem_of_cons; [lia|by apply H2].
Qed.

Lemma max_below (l : list (Z * envelope E)) (m b : Z) :
  (m < b)%Z → (∀ x, x ∈ l → x.1 < b)%Z → (foldl (λ m e, Z.max m e.1) m l < b)%Z.
Proof.
  revert m. induction l as [|y l IH]; intros m Hm Hl; simpl; [done|].
  apply IH; [|intros x Hx; apply Hl; by right]. specialize (Hl y ltac:(by left)). lia.
Qed.

(** The split of what a resumed connection writes: the replay, then the live
    events the watermark lets through. *)
Lemma resumed_writes e high W0 (P Q since : list (RingEntry E)) (keep : RingEntry E → Prop)
    `{∀ g, Decision (keep g)} :
  StronglySorted (λ g g', seq g < seq g')%Z (P ++ Q ++ since) → Forall (λ g, 1 <= seq g)%Z (P ++ Q ++ since) →
  W0 = pair_of <$> filter keep (P ++ Q) → high = foldl (λ m e, Z.max m e.1) (-1)%Z W0 →
  (∀ g, g ∈ Q → wants e (as_pub g) → keep g) →
  W0 ++ filter (λ x, fresh high x = true)
      (pair_of <$> filter (λ g, wants e (as_pub g)) (Q ++ since)) =
    pair_of <$> filter keep (P ++ Q) ++ filter (λ g, wants e (as_pub g)) since.
Proof.
  intros Hsort Hpos HW Hhigh Hq. rw fmap_app -HW. f_equal. rw (filter_app _ Q since) fmap_app filter_app.
  destruct (max_above W0 (-1)%Z) as [_ Habove]. rewrite -Hhigh in Habove.
  rw (filter_none _ (pair_of <$> filter _ Q)); [rw (filter_keep _ (pair_of <$> filter _ since)); [done|]|].
  - apply Forall_forall. intros x (g & -> & [_ Hg]%list_elem_of_filter)%list_elem_of_fmap.
    assert (1 <= seq g)%Z as H1.
    { rewrite -> Forall_forall in Hpos. apply Hpos. rw !elem_of_app. by right; right. }
    assert (high < seq g)%Z as Hlt.
    { rw Hhigh. apply max_below; [lia|]. rw HW.
      intros x (g' & -> & [_ Hg']%list_elem_of_filter)%list_elem_of_fmap. simpl.
      rewrite app_assoc in Hsort. apply list_elem_of_split in Hg as (l1 & l2 & ->).
      rewrite app_assoc in Hsort. apply sorted_split in Hsort. rewrite -> Forall_forall in Hsort.
      apply Hsort. rw elem_of_app. by left. }
    unfold fresh. simpl. destruct (Z.leb_spec (seq g) high); [lia|]. by rw andb_false_r.
  - apply Forall_forall. intros x (g & -> & [Hw Hg]%list_elem_of_filter)%list_elem_of_fmap.
    assert (pair_of g ∈ W0) as Hin.
    { rw HW. apply list_elem_of_fmap. exists g. split; [done|]. apply list_elem_of_filter. split; [by apply Hq|].
      rw elem_of_app. by right. }
    assert (1 <= seq g)%Z as H1.
    { rewrite -> Forall_forall in Hpos. apply Hpos. rw !elem_of_app. by right; left. }
    specialize (Habove _ Hin). unfold fresh. simpl in *.
    destruct (Z.leb_spec 0 high); [|lia]. destruct (Z.leb_spec (seq g) high); [done|lia].
Qed.

(** C7 — A resumed connection misses nothing and repeats nothing. A client reconnects with
    a well-formed request and a cursor, and the daemon does not refuse the replay window.
    The numbered events then written to the connection are, in order and once each, those
    stamped before it above the cursor and those stamped since, as far as the subscription
    accepts them; or else everything stamped before it was due to leave the ring.
    Provided: the clock does not run backwards; every operation before and after goes
    through the broadcast chain (nothing numbered is published or stamped past it, and the
    process does not restart); what the chain still holds at the reconnect is above the
    cursor; each event above the cursor that the subscription accepts is of its
    conversation and asks for no capability that a header claims; and at the end the
    connection is open and the chain drained. *)
Theorem resumed_stream_is_exact t d max before after r cursor identity scope now s1 :
  let s0 := sys_run before (idle d max) in
  let s2 := sys_run after s1 in
  let e := listener resolve_actor r identity scope now (conn_entry (sys_conn s1)) in
  Forall orderly before → Forall orderly after → sys_timely t before →
  (sys_time t before <= now)%Z → sys_timely now after →
  parse_cursor (rawLastSeenSeq r) = inl (Some cursor) → parse_identity r = inl identity →
  parse_scope find_conversation conversation_of_key r = inl scope →
  connect r now false s0 = Some s1 →
  (getReplayWindow cursor (Some (replay_subscriber identity)) scope now (sys_world s0)).2 ≠ None →
  (∀ p n, p ∈ hubChain (sys_bus s0) → pub_seq p = Some n → (cursor < n)%Z) →
  (∀ g, g ∈ sys_log s0 → (cursor < seq g)%Z → wants e (as_pub g) → in_scope scope g = true ∧ plain g = true) →
  connected s2 = true → current (sys_bus s2) = None → hubChain (sys_bus s2) = [] →
  ∃ since, sys_log s2 = sys_log s0 ++ since ∧
    (written_events (frames (sys_conn s2)) = pair_of <$>
       filter (λ g, (cursor < seq g)%Z ∧ wants e (as_pub g)) (sys_log s0) ++
       filter (λ g, wants e (as_pub g)) since ∨
     ∀ i g, sys_log s0 !! i = Some g → expendable now (sys_log s0) i g).
Proof.
  intros s0 s2 e Hbefore Hafter Htime Hnow Htime' Hcur Hid Hscope Hconn Hwin Hqueue Hplain Hopen Hcurrent Hchain.
  pose proof (sys_run_reached before t _ Hbefore Htime (reached_idle t d max)) as Hre. fold s0 in Hre.
  destruct (getReplayWindow cursor _ scope now (sys_world s0)) as [w [es|]] eqn:Hes; [|done]. clear Hwin.
  pose proof (connect_spec r cursor identity scope now s0 s1 _ Hre Hcur Hid Hscope Hconn Hnow) as Hspec.
  cbv zeta in Hspec. rewrite Hes in Hspec. destruct Hspec as (Hlog & Hstream & Hre1). fold e in Hstream.
  change (default [] (w, Some es).2) with es in Hstream.
  destruct (sys_run_log after s1 Hafter) as (since & Hlog2 & Hem). fold s2 in Hlog2. rewrite Hlog in Hlog2.
  exists since. split; [done|].
  pose proof (sys_run_streaming after _ _ _ _ _ _ Hafter Hstream) as [_ _ _ _ _ (L & HW & HL)]. fold s2 in HW, HL.
  rewrite Hopen /owed Hcurrent Hchain /= app_nil_r in HL.
  pose proof (replay_window cursor (Some (replay_subscriber identity)) scope _ now _ _ es (re_logged _ _ Hre) Hnow) as Hr.
  rewrite Hes in Hr. destruct (Hr eq_refl) as [Hrep|[_ Hexp]]; [left|by right].
  assert (∀ g, g ∈ sys_log s0 → replayed cursor (Some (replay_subscriber identity)) scope g = true ↔
    (cursor < seq g)%Z ∧ wants e (as_pub g)) as Hkeep.
  { intros g Hg. unfold replayed. rw -andb_assoc andb_true_iff Z.ltb_lt.
    pose proof (replay_mirror resolve_actor r identity scope now (conn_entry (sys_conn s1)) g) as Hm.
    unfold in_scope in Hm at 1. rw Hm !andb_true_iff. fold e. unfold wants. split; [tauto|].
    intros [Hlt Hw]. destruct (Hplain g Hg Hlt Hw). tauto. }
  destruct (re_chain _ _ Hre) as (gone & Hgone).
  apply fmap_app_inv in Hgone as (P & Q & _ & HQ & HPQ).
  assert (L = filter (λ x, fresh (foldl (λ m e, Z.max m e.1) (-1)%Z es) x = true)
    (pair_of <$> filter (λ g, wants e (as_pub g)) (Q ++ since))) as ->.
  { rw HL. unfold live. rw numbered_has filter_app HQ Hem -fmap_app numbered_as_pub. done. }
  pose proof (re_logged _ _ (sys_run_reached after now s1 Hafter Htime' Hre1)) as Hl. fold s2 in Hl.
  pose proof (logged_sorted _ _ _ Hl) as Hsort. pose proof (logged_seq _ _ _ Hl) as Hseq.
  rewrite Hlog2 HPQ -app_assoc in Hsort, Hseq. rw HW.
  assert (es = pair_of <$> filter (λ g, (cursor < seq g)%Z ∧ wants e (as_pub g)) (sys_log s0)) as Hes'.
  { rw Hrep. f_equal. clear -Hkeep. induction (sys_log s0) as [|g l IH]; [done|].
    pose proof (Hkeep g ltac:(by left)) as Hg. rw !filter_cons. specialize (IH (λ g' H, Hkeep g' (list_elem_of_further _ _ _ H))).
    destruct (decide (replayed _ _ _ g = true)), (decide (_ ∧ _)); [by f_equal|tauto|tauto|done]. }
  rw HPQ. apply (resumed_writes e _ es P Q since); [done| |by rw -HPQ|done|].
  - eapply Forall_impl; [exact Hseq|]. simpl. lia.
  - intros g Hg Hw. split; [|done]. apply (Hqueue (as_pub g)); [|done].
    assert (as_pub g ∈ as_pub <$> Q) as Hin by (by apply list_elem_of_fmap_2).
    rewrite -HQ in Hin. by apply list_elem_of_filter in Hin as [_ ?].
Qed.

(** A replay hands a connection the events of the ring above its cursor
    that the hub would deliver to it, leaving out those of another conversation
    than the one it is scoped to and those that ask for a capability claimed by a
    header: nothing leaks, and what is left out is exactly that. *)
Theorem replay_is_what_would_be_delivered r cursor identity scope now id w es :
  (getReplayWindow cursor (Some (replay_subscriber identity)) scope now w).2 = Some es →
  es = pair_of <$> filter (λ g, (cursor < seq g)%Z ∧
      wants (listener resolve_actor r identity scope now id) (as_pub g) ∧
      in_scope scope g = true ∧ plain g = true) (ring (evict now (state w))).
Proof.
  intros Hw. assert (∀ g : RingEntry E, replayed cursor (Some (replay_subscriber identity)) scope g = true ↔
    (cursor < seq g)%Z ∧ wants (listener resolve_actor r identity scope now id) (as_pub g) ∧
      in_scope scope g = true ∧ plain g = true) as Hkeep.
  { intros g. unfold replayed. rw -andb_assoc andb_true_iff Z.ltb_lt.
    pose proof (replay_mirror resolve_actor r identity scope now id g) as Hm.
    unfold in_scope in Hm at 1. rw Hm !andb_true_iff. unfold wants. tauto. }
  unfold getReplayWindow in Hw. simpl in Hw.
  destruct (ring (evict now (state w))) as [|g l]; [by injection Hw as <-|].
  destruct (_ && _); [done|]. injection Hw as <-. f_equal. by apply list_filter_iff.
Qed.
End connect.

(** The tail is not filtered for a caller that does not name itself: it is
    handed every event of the conversation above the cursor that is still in the
    ring, whichever client it was addressed to. *)
Theorem unnamed_tail_is_unfiltered conversation cid from clientId interface now w (w' : world E) tl :
  trimmed conversation = Some cid → (0 <= from)%Z → trimmed clientId = None →
  handleEventsTail conversation (CursorValue (Some from)) NoCursor clientId interface now w = (w', inl tl) →
  complete tl = true →
  ∀ g, g ∈ ring (evict now (state w)) → (from < seq g)%Z → conversationId (event g) = Some cid →
    pair_of g ∈ tail_events tl.
Proof.
  intros Hc Hfrom Hid. unfold handleEventsTail. rw Hc Hid. simpl.
  destruct (Z.ltb_spec from 0); [lia|].
  intros [= <- <-]. destruct (ring (evict now (state w))) as [|g0 l] eqn:Hring.
  { intros _ g ?%elem_of_nil. done. }
  destruct (_ && _); [done|]. simpl. intros _ g Hg Hlt Hconv.
  apply list_elem_of_fmap. exists g. split; [done|]. apply list_elem_of_filter. split; [|done].
  unfold replayed. rw Hconv !andb_true_iff bool_decide_eq_true. split; [|done]. split; [lia|done].
Qed.
End system.

(** ** Samples *)

Definition sample_request (scope : option string) (c : cursor_param) (mac : bool) : subscribe_request := {|
  rawConversationId := scope; rawConversationKey := None; rawLastSeenSeq := c;
  rawClientId := Some "me"%string; rawInterfaceId := Some (if mac then "macos" else "web")%string;
  rawMachineName := None; rawActorPrincipalId := None;
  claims := {| claims_window_capture := false; claims_sequence := mac; claims_annotate := false |} |}.

Definition ev (cid : string) (n : nat) : envelope nat := Envelope (Some cid) n.

(** Three events, of which the chain has delivered two. *)
Definition sample_before : list (@sys_op nat) :=
  [Emit (ev "a" 1) (Some 100%Z) None 1000 true; OnBus NextInChain;
   Emit (ev "b" 2) (Some 100%Z) None 1100 true; OnBus NextInChain;
   Emit (ev "a" 3) (Some 100%Z) None 1200 true].

Definition sample_after : list (@sys_op nat) :=
  [OnBus NextInChain; OnBus (ResumeChained false); Read;
   Emit (ev "a" 4) (Some 100%Z) None 1300 true; Tick 1350; OnBus NextInChain; OnBus (ResumeChained false)].

Definition sample_connected : option (@system nat) :=
  connect Some id id (sample_request None (CursorValue (Some 1%Z)) false) 1250 false
    (sys_run sample_before (idle None None)).

Definition sample_live : @system nat := default (idle None None) sample_connected.

(** Event 3 is in the ring and still in the chain: it is written once. *)
Lemma resumed_stream_is_exact_witness :
  let s0 := sys_run sample_before (idle None None) in
  let s2 := sys_run sample_after sample_live in
  sample_connected = Some sample_live ∧
  written_events (frames (sys_conn s2)) = [(2%Z, ev "b" 2); (3%Z, ev "a" 3); (4%Z, ev "a" 4)] ∧
  ∃ since, sys_log s2 = sys_log s0 ++ since ∧
    (written_events (frames (sys_conn s2)) = pair_of <$>
       filter (λ g, (1 < seq g)%Z ∧ wants (listener id (sample_request None (CursorValue (Some 1%Z)) false)
         (Some ("me", "web")%string) None 1250 1) (as_pub g)) (sys_log s0) ++
       filter (λ g, wants (listener id (sample_request None (CursorValue (Some 1%Z)) false)
         (Some ("me", "web")%string) None 1250 1) (as_pub g)) since ∨
     ∀ i g, sys_log s0 !! i = Some g → expendable 1250 (sys_log s0) i g).
Proof.
  intros s0 s2. split; [by vm_compute|]. split; [by vm_compute|].
  apply (resumed_stream_is_exact Some id id 0 None None sample_before sample_after
    (sample_request None (CursorValue (Some 1%Z)) false) 1 (Some ("me", "web")%string) None 1250 sample_live);
    try by vm_compute.
  - by repeat constructor.
  - by repeat constructor.
  - assert (Forall (λ p, ∀ n, pub_seq p = Some n → (1 < n)%Z) (hubChain (sys_bus s0))) as Hf.
    { vm_compute. repeat constructor. by intros n [= <-]. }
    rewrite -> Forall_forall in Hf. eauto.
  - assert (Forall (λ g, in_scope None g = true ∧ plain g = true) (sys_log s0)) as Hf.
    { vm_compute. by repeat constructor. }
    rewrite -> Forall_forall in Hf. auto.
Defined.

Lemma replay_is_what_would_be_delivered_witness :
  let w := sys_world (sys_run sample_before (idle None None)) in
  let e := listener id (sample_request None NoCursor true) (Some ("me", "macos")%string) None 1250 1 in
  [(2%Z, ev "b" 2); (3%Z, ev "a" 3)] =
    pair_of <$> filter (λ g, (1 < seq g)%Z ∧ wants e (as_pub g) ∧ in_scope None g = true ∧ plain g = true)
      (ring (evict 1250 (state w))).
Proof.
  intros w e. apply (replay_is_what_would_be_delivered id (sample_request None NoCursor true) 1
    (Some ("me", "macos")%string) None 1250 1). by vm_compute.
Defined.

(** A request for a batched action, and an event for one client of another
    conversation: both would be delivered, neither is replayed. *)
Definition sequence_request : RingEntry nat :=
  Entry 5 (ev "a" 5) 1000 100 (Some (Targeting (Some "host_cu_sequence"%string) None None None)).

Definition addressed_event : RingEntry nat :=
  Entry 6 (ev "b" 6) 1000 100 (Some (Targeting None (Some "me"%string) None None)).

Example negotiated_request_not_replayed :
  let r := sample_request None NoCursor true in
  let identity := Some ("me", "macos")%string in
  bool_decide (wants (listener id r identity None 0 1) (as_pub sequence_request)) = true ∧
  matchesSubscriber sequence_request (replay_subscriber identity) = false.
Proof. by vm_compute. Qed.

Example addressed_event_not_replayed :
  let r := sample_request (Some "a"%string) NoCursor false in
  let identity := Some ("me", "web")%string in
  bool_decide (wants (listener id r identity (Some "a"%string) 0 1) (as_pub addressed_event)) = true ∧
  replayed 0 (Some (replay_subscriber identity)) (Some "a"%string) addressed_event = false.
Proof. by vm_compute. Qed.

(** An event addressed to one client, in the tail of a caller without a name. *)
Definition leaking : world nat :=
  (stampAndBuffer (ev "b" 6) (Some 100%Z) (Some (Targeting None (Some "other"%string) None None)) 1000 true
    (World initial false None)).1.

Lemma unnamed_tail_is_unfiltered_witness :
  ∃ w' tl, handleEventsTail (Some "b"%string) (CursorValue (Some 0%Z)) NoCursor None None 1000 leaking = (w', inl tl) ∧
    pair_of (Entry 1 (ev "b" 6) 1000 100 (Some (Targeting None (Some "other"%string) None None))) ∈ tail_events tl.
Proof.
  destruct (handleEventsTail (Some "b"%string) (CursorValue (Some 0%Z)) NoCursor None None 1000 leaking)
    as [w' [tl|]] eqn:H; [|by vm_compute in H].
  exists w', tl. split; [done|].
  apply (unnamed_tail_is_unfiltered (Some "b"%string) "b" 0 None None 1000 leaking w'); try done.
  - vm_compute in H. by injection H as _ <-.
  - vm_compute. by left.
Defined.
