(* ===== verification/IncludeGraph.v ===== *)
(** * Include graphs of skills

    [assistant/src/skills/include-graph.ts]: a skill names the skills it
    includes, and three depth-first traversals over that graph decide whether a
    skill can be loaded ([validateIncludes], [validateIncludeCycles]), what to
    load with it ([traverseIncludes]) and what is missing
    ([collectAllMissing]).

    The recursive functions carry fuel.  Two more than the number of skills in
    the catalog is enough, whatever the graph: every nested call colours a skill
    that was not coloured before. *)

From S2P Require Import Prelude.

Record SkillSummary := {
  id : string;
  includes : option (list string);
}.

(** [Map<string, SkillSummary>], used only through [get] and [has]. *)
Notation CatalogIndex := (gmap string SkillSummary).

Definition indexCatalogById (catalog : list SkillSummary) : CatalogIndex :=
  foldl (λ index skill, <[id skill := skill]> index) ∅ catalog.

(** [skill?.includes], empty when there is nothing to iterate over. *)
Definition included (idx : CatalogIndex) (i : string) : list string :=
  match idx !! i with
  | Some skill => default [] (includes skill)
  | None => []
  end.

Definition has (idx : CatalogIndex) (i : string) : bool := bool_decide (is_Some (idx !! i)).

Definition getImmediateChildren (parentId : string) (idx : CatalogIndex) : list SkillSummary :=
  omap (λ childId, idx !! childId) (included idx parentId).

(** ** Validation *)

Inductive validation_error :=
  | missing (missingChildId parentId : string) (path : list string)
  | cycle (cyclePath : list string).

Inductive IncludeValidationResult :=
  | valid (visited : list string)
  | invalid (e : validation_error).

Inductive colour := visiting | done_.

Record search := {
  visited : list string;
  state : gmap string colour;     (* absent: unseen *)
  ancestry : list string;
}.

(** [ancestry.indexOf(x)], then [ancestry.slice]: the part from the first [x]. *)
Fixpoint from_first (x : string) (l : list string) : list string :=
  match l with
  | [] => []
  | y :: l' => if decide (y = x) then l else from_first x l'
  end.

Definition enter (i : string) (s : search) : search := {|
  visited := visited s ++ [i];
  state := <[i := visiting]> (state s);
  ancestry := ancestry s ++ [i];
|}.

(** [ancestry.pop()] and the state [done]. *)
Definition leave (i : string) (s : search) : search := {|
  visited := visited s;
  state := <[i := done_]> (state s);
  ancestry := take (length (ancestry s) - 1) (ancestry s);
|}.

Section validate.
Variable failOnMissing : bool.
Variable catalogIndex : CatalogIndex.

(** [for (const childId of skill.includes)], [dfs] being the recursive call. *)
Fixpoint children_loop (dfs : string → search → option (search * option validation_error))
    (i : string) (children : list string) (s : search)
    : option (search * option validation_error) :=
  match children with
  | [] => Some (s, None)
  | childId :: rest =>
      if negb (has catalogIndex childId) then
        if failOnMissing then Some (s, Some (missing childId i (ancestry s)))
        else children_loop dfs i rest s
      else
        '(s, childError) ← dfs childId s;
        match childError with
        | Some e => Some (s, Some e)
        | None => children_loop dfs i rest s
        end
  end.

Fixpoint dfs (fuel : nat) (i : string) (s : search)
    : option (search * option validation_error) :=
  match fuel with
  | O => None
  | S fuel =>
      match state s !! i with
      | Some done_ => Some (s, None)
      | Some visiting => Some (s, Some (cycle (from_first i (ancestry s) ++ [i])))
      | None =>
          '(s, e) ← children_loop (dfs fuel) i (included catalogIndex i) (enter i s);
          match e with
          | Some e => Some (s, Some e)
          | None => Some (leave i s, None)
          end
      end
  end.

Definition validateIncludeGraph (rootId : string) : option IncludeValidationResult :=
  '(s, e) ← dfs (2 + size catalogIndex) rootId {| visited := []; state := ∅; ancestry := [] |};
  Some match e with
       | Some e => invalid e
       | None => valid (visited s)
       end.
End validate.

Definition validateIncludes (rootId : string) (idx : CatalogIndex) :=
  validateIncludeGraph true idx rootId.

Definition validateIncludeCycles (rootId : string) (idx : CatalogIndex) :=
  validateIncludeGraph false idx rootId.

(** ** Traversal *)

Section traverse.
Variable catalogIndex : CatalogIndex.

(** The state of [traverseIncludes]: [visited] and [seen]. *)
Fixpoint traverse_children (dfs : string → list string * gset string → option (list string * gset string))
    (children : list string) (t : list string * gset string)
    : option (list string * gset string) :=
  match children with
  | [] => Some t
  | childId :: rest =>
      if bool_decide (childId ∈ t.2) then traverse_children dfs rest t
      else if negb (has catalogIndex childId) then traverse_children dfs rest t
      else t ← dfs childId t; traverse_children dfs rest t
  end.

Fixpoint traverse_dfs (fuel : nat) (i : string) (t : list string * gset string)
    : option (list string * gset string) :=
  match fuel with
  | O => None
  | S fuel =>
      if bool_decide (i ∈ t.2) then Some t
      else traverse_children (traverse_dfs fuel) (included catalogIndex i)
             (t.1 ++ [i], {[i]} ∪ t.2)
  end.

Definition traverseIncludes (rootId : string) : option (list string) :=
  fst <$> traverse_dfs (2 + size catalogIndex) rootId ([], ∅).

(** The state of [collectAllMissing]: [missing] and [visited]. *)
Fixpoint missing_children (dfs : string → list string * gset string → option (list string * gset string))
    (children : list string) (t : list string * gset string)
    : option (list string * gset string) :=
  match children with
  | [] => Some t
  | childId :: rest =>
      if negb (has catalogIndex childId) then
        missing_children dfs rest (set_add childId t.1, t.2)
      else if negb (bool_decide (childId ∈ t.2)) then
        t ← dfs childId t; missing_children dfs rest t
      else missing_children dfs rest t
  end.

Fixpoint missing_dfs (fuel : nat) (i : string) (t : list string * gset string)
    : option (list string * gset string) :=
  match fuel with
  | O => None
  | S fuel =>
      if bool_decide (i ∈ t.2) then Some t
      else missing_children (missing_dfs fuel) (included catalogIndex i) (t.1, {[i]} ∪ t.2)
  end.

Definition collectAllMissing (rootId : string) : option (list string) :=
  fst <$> missing_dfs (2 + size catalogIndex) rootId ([], ∅).
End traverse.

(** ** The graph *)

Section graph.
Variable idx : CatalogIndex.
Implicit Types (x y p c : string).

(** [p] includes [c], and [c] is in the catalog. *)
Definition edge p c : Prop := c ∈ included idx p ∧ is_Some (idx !! c).

(** Consecutive elements are edges. *)
Fixpoint walk (l : list string) : Prop :=
  match l with
  | x :: (y :: _) as l' => edge x y ∧ walk l'
  | _ => True
  end.

Lemma walk_snoc l x y : walk (l ++ [x]) → edge x y → walk (l ++ [x; y]).
Proof.
  induction l as [|a l IH]; [done|]. destruct l as [|b l]; simpl in *; naive_solver.
Qed.

Lemma walk_suffix l k : walk (l ++ k) → walk k.
Proof. induction l as [|a l IH]; [done|]. simpl. destruct (l ++ k); naive_solver. Qed.

Lemma walk_reach l x y : walk (x :: l) → last (x :: l) = Some y → rtc edge x y.
Proof.
  revert x. induction l as [|a l IH]; intros x Hw Hl; [by simplify_eq/=|].
  destruct Hw as [He Hw]. eapply rtc_l; [exact He|]. by apply IH.
Qed.

Lemma from_first_spec x l :
  x ∈ l → ∃ l1 l2, l = l1 ++ x :: l2 ∧ from_first x l = x :: l2.
Proof.
  induction l as [|y l IH]; [by intros ?%not_elem_of_nil|]. simpl. intros Hx.
  destruct (decide (y = x)) as [->|Hne]; [by exists [], l|].
  destruct IH as (l1 & l2 & -> & ->); [set_solver|]. by exists (y :: l1), l2.
Qed.

Lemma has_spec x : has idx x = true ↔ is_Some (idx !! x).
Proof. apply bool_decide_eq_true. Qed.

(** The skills a traversal from [root] may call itself on, and how many of them
    a set does not hold yet: the fuel it still needs. *)
Definition universe (root : string) : gset string := {[root]} ∪ dom idx.

Definition unseen (root : string) (seen : gset string) : nat := size (universe root ∖ seen).

Lemma unseen_start root : unseen root ∅ < 2 + size idx.
Proof.
  unfold unseen, universe. rw difference_empty_L.
  pose proof (size_union_alt ({[root]} : gset string) (dom idx)) as Hs.
  rw size_singleton in Hs. pose proof (subseteq_size (dom idx ∖ {[root]}) (dom idx)) as Hd.
  pose proof (size_dom (D := gset string) idx) as Hdom. specialize (Hd ltac:(set_solver)). lia.
Qed.

Lemma unseen_enter root seen x :
  x ∈ universe root → x ∉ seen → unseen root ({[x]} ∪ seen) < unseen root seen.
Proof. intros Hx Hn. apply subset_size. set_solver. Qed.

Lemma unseen_mono root seen seen' : seen ⊆ seen' → unseen root seen' ≤ unseen root seen.
Proof. intros Hs. apply subseteq_size. set_solver. Qed.

(** ** Validation is right *)

Section validation.
Variable failOnMissing : bool.
Variable root : string.

Definition seen_of (s : search) : gset string := dom (state s).

(** The invariant of the search. *)
Record searching (s : search) : Prop := {
  on_path : ∀ x, state s !! x = Some visiting ↔ x ∈ ancestry s;
  path_walks : walk (ancestry s);
  path_starts : ∀ x l, ancestry s = x :: l → x = root;
  done_closed : ∀ x y, state s !! x = Some done_ → edge x y → state s !! y = Some done_;
  done_acyclic : ∀ x, state s !! x = Some done_ → ¬ tc edge x x;
  done_complete : failOnMissing = true →
    ∀ x c, state s !! x = Some done_ → c ∈ included idx x → is_Some (idx !! c);
  visited_nodup : NoDup (visited s);
  visited_seen : ∀ x, x ∈ visited s ↔ x ∈ seen_of s;
  seen_reachable : ∀ x, x ∈ seen_of s → rtc edge root x;
}.

(** The search may call itself on [i]. *)
Definition called (i : string) (s : search) : Prop :=
  walk (ancestry s ++ [i]) ∧ (∀ x l, ancestry s ++ [i] = x :: l → x = root) ∧
  i ∈ universe root.

(** What an error says of the graph. *)
Definition genuine (e : validation_error) : Prop :=
  match e with
  | missing c p path =>
      walk path ∧ head path = Some root ∧ last path = Some p ∧
      c ∈ included idx p ∧ idx !! c = None ∧ failOnMissing = true
  | cycle path =>
      ∃ x l, path = x :: l ++ [x] ∧ walk path ∧ rtc edge root x
  end.

(** How the search moves on when it finds nothing wrong. *)
Definition advances (s s' : search) : Prop :=
  searching s' ∧ ancestry s' = ancestry s ∧ seen_of s ⊆ seen_of s' ∧
  (∀ x, state s !! x = Some done_ → state s' !! x = Some done_).

Lemma advances_refl s : searching s → advances s s.
Proof. intros Hs. split; [done|]. split; [done|]. split; [done|auto]. Qed.

Lemma advances_trans s1 s2 s3 : advances s1 s2 → advances s2 s3 → advances s1 s3.
Proof.
  intros (_ & Ha & Hs & Hd) (H3 & Ha3 & Hs3 & Hd3).
  split; [done|]. split; [congruence|]. split; [set_solver|auto].
Qed.

Lemma reach_path i s : called i s → rtc edge root i.
Proof.
  intros (Hw & Hh & _). destruct (ancestry s ++ [i]) as [|x l] eqn:Heq.
  { by destruct (ancestry s). }
  rw -(Hh x l) //. apply (walk_reach l x); [done|]. by rw -Heq last_snoc.
Qed.

Lemma called_child i c s s' :
  called i s → advances (enter i s) s' → edge i c → called c s'.
Proof.
  intros (Hw & Hh & Hu) (_ & Ha & _) He. unfold called. rw Ha /=.
  split; [rw -app_assoc; by apply walk_snoc|]. split; [|unfold universe].
  - intros x l Heq. destruct (ancestry s ++ [i]) as [|z k] eqn:Hz; [by destruct (ancestry s)|].
    simplify_eq/=. by apply (Hh x k).
  - destruct He as [_ [sk Hsk]]. apply elem_of_union_r, elem_of_dom. eauto.
Qed.

Lemma searching_enter i s :
  searching s → called i s → state s !! i = None → searching (enter i s).
Proof.
  intros [Hp Hw Hh Hc Ha Hm Hn Hv Hr] Hcall Hi.
  pose proof (reach_path _ _ Hcall) as Hreach. destruct Hcall as (Hw' & Hh' & _).
  split; simpl; [|done|done|..].
  - intros x. rw lookup_insert_Some elem_of_app list_elem_of_singleton Hp.
    destruct (decide (i = x)) as [->|]; [|naive_solver]. split; [by right|by left].
  - intros x y Hx He. rw lookup_insert_Some in Hx. destruct Hx as [[_ [=]]|[Hne Hx]].
    pose proof (Hc _ _ Hx He). rw lookup_insert_ne //. congruence.
  - intros x Hx. rw lookup_insert_Some in Hx. destruct Hx as [[_ [=]]|[Hne Hx]]. by apply Ha.
  - intros Hf x c Hx. rw lookup_insert_Some in Hx. destruct Hx as [[_ [=]]|[Hne Hx]]. by apply Hm.
  - apply NoDup_app. split; [done|]. split; [|apply NoDup_singleton].
    intros x Hx ->%list_elem_of_singleton. apply Hv in Hx. unfold seen_of in Hx.
    apply elem_of_dom in Hx as [? ?]. congruence.
  - intros x. unfold seen_of. rw /= dom_insert elem_of_app list_elem_of_singleton Hv.
    unfold seen_of. set_solver.
  - intros x. unfold seen_of. rw /= dom_insert. intros [->%elem_of_singleton|Hx]%elem_of_union; auto.
Qed.

Lemma done_tc s x y :
  searching s → state s !! x = Some done_ → tc edge x y → state s !! y = Some done_.
Proof.
  intros Hs Hx Ht. induction Ht as [x y He|x y z He _ IH]; [by eapply done_closed|].
  apply IH. by eapply done_closed.
Qed.

Lemma searching_leave i s s' :
  searching s → state s !! i = None → called i s → advances (enter i s) s' →
  (∀ c, edge i c → state s' !! c = Some done_) →
  (failOnMissing = true → ∀ c, c ∈ included idx i → is_Some (idx !! c)) →
  advances s (leave i s').
Proof.
  intros Hs Hi Hcall (Hs' & Hanc & Hseen & Hdone) Hch Hmiss. simpl in *.
  assert (ancestry (leave i s') = ancestry s) as Hback.
  { simpl. rw Hanc length_app /= Nat.add_sub. by rw take_app_length. }
  assert (i ∉ ancestry s) as Hni by (rw -(on_path s Hs) Hi; done).
  assert (state s' !! i = Some visiting) as Hvis.
  { apply (on_path s' Hs'). rw Hanc. set_solver. }
  assert (seen_of (leave i s') = seen_of s') as Hsame.
  { unfold seen_of. rw /= dom_insert_L. apply subseteq_union_1_L.
    apply singleton_subseteq_l, elem_of_dom. eauto. }
  split; [split|split; [done|split]].
  - intros x. rw Hback /= lookup_insert_Some (on_path s' Hs') Hanc elem_of_app list_elem_of_singleton.
    destruct (decide (i = x)) as [->|]; naive_solver.
  - rw Hback. by apply path_walks.
  - rw Hback. by apply path_starts.
  - intros x y Hx He. simpl in *. rw lookup_insert_Some. destruct (decide (i = y)) as [->|Hy]; [by left|right].
    split; [done|]. apply lookup_insert_Some in Hx as [[<- _]|[_ Hx]]; [by apply Hch|].
    by eapply (done_closed s').
  - intros x. rw /= lookup_insert_Some. intros [[<- _]|[_ Hx]] Ht; [|by eapply (done_acyclic s')].
    assert (∃ c, edge i c ∧ (c = i ∨ tc edge c i)) as (c & He & Hc).
    { inversion Ht; subst; eauto. }
    assert (state s' !! i = Some done_); [|congruence].
    destruct Hc as [<-|Hc]; [by apply Hch|]. apply (done_tc s' c); auto.
  - intros Hf x c. rw /= lookup_insert_Some. intros [[<- _]|[_ Hx]] Hc; [by apply Hmiss|].
    by eapply (done_complete s').
  - apply Hs'.
  - intros x. rw Hsame. apply Hs'.
  - intros x. rw Hsame. apply Hs'.
  - rw Hsame. unfold seen_of in *. simpl in *. rw dom_insert_L in Hseen. set_solver.
  - intros x Hx. rw /= lookup_insert_ne; [|intros ->; congruence].
    apply Hdone. rw lookup_insert_ne //. congruence.
Qed.

Lemma advances_enter_unseen i s s' fuel :
  called i s → state s !! i = None → advances (enter i s) s' →
  unseen root (seen_of s) < S fuel → unseen root (seen_of s') < fuel.
Proof.
  intros (_ & _ & Hu) Hi (_ & _ & Hs & _) Hf.
  assert (i ∉ seen_of s) as Hn by (unfold seen_of; by apply not_elem_of_dom).
  pose proof (unseen_enter root _ _ Hu Hn).
  pose proof (unseen_mono root ({[i]} ∪ seen_of s) (seen_of s')) as Hm.
  unfold seen_of in *. simpl in *. rw dom_insert_L in Hs. specialize (Hm Hs). lia.
Qed.

(** What a call of [dfs] comes to. *)
Definition settles (i : string) (s : search)
    (r : option (search * option validation_error)) : Prop :=
  match r with
  | Some (s', None) => advances s s' ∧ state s' !! i = Some done_
  | Some (_, Some e) => genuine e
  | None => False
  end.

Lemma children_loop_spec fuel i s children s1 :
  (∀ c s, searching s → called c s → unseen root (seen_of s) < fuel →
    settles c s (dfs failOnMissing idx fuel c s)) →
  searching s → state s !! i = None → called i s → unseen root (seen_of s) < S fuel →
  (∀ c, c ∈ children → c ∈ included idx i) → advances (enter i s) s1 →
  match children_loop failOnMissing idx (dfs failOnMissing idx fuel) i children s1 with
  | Some (s', None) => advances s1 s' ∧
      (∀ c, c ∈ children → is_Some (idx !! c) → state s' !! c = Some done_) ∧
      (failOnMissing = true → ∀ c, c ∈ children → is_Some (idx !! c))
  | Some (_, Some e) => genuine e
  | None => False
  end.
Proof.
  intros Hrec Hs Hi Hcall Hfuel. revert s1.
  induction children as [|c children IH]; intros s1 Hin Hadv; simpl.
  { split; [by apply advances_refl, Hadv|]. split; [by intros ? ?%not_elem_of_nil|by intros _ ? ?%not_elem_of_nil]. }
  assert (c ∈ included idx i) as Hc by (apply Hin; by left).
  destruct (has idx c) eqn:Hhas; simpl.
  - apply has_spec in Hhas.
    pose proof (called_child i c s s1 Hcall Hadv (conj Hc Hhas)) as Hcc.
    pose proof (Hrec c s1 (proj1 Hadv) Hcc
      (advances_enter_unseen _ _ _ _ Hcall Hi Hadv Hfuel)) as Hset.
    destruct (dfs failOnMissing idx fuel c s1) as [[s2 [e|]]|]; simpl in *; [done| |done].
    destruct Hset as [Hadv2 Hdone].
    specialize (IH s2 ltac:(set_solver) (advances_trans _ _ _ Hadv Hadv2)).
    destruct (children_loop _ _ _ _ _ s2) as [[s3 [e|]]|] eqn:Hl; [done| |done].
    destruct IH as (Ha & Hd & Hm).
    split; [by eapply advances_trans|]. split; [|intros Hf x [->|Hx]%elem_of_cons; [done|auto]].
    intros x [->|Hx]%elem_of_cons Hsome; [|by apply Hd].
    by apply Ha.
  - assert (idx !! c = None) as Hnone.
    { destruct (idx !! c) eqn:Hl; [|done]. assert (has idx c = true) by (apply has_spec; by rw Hl). congruence. }
    destruct failOnMissing eqn:Hf.
    + destruct Hcall as (Hw & Hh & _), Hadv as (_ & Ha & _). simpl in *. rw Ha.
      split; [done|]. split; [|by rw last_snoc].
      destruct (ancestry s ++ [i]) as [|x l] eqn:Heq; [by destruct (ancestry s)|].
      simpl. f_equal. by eapply Hh.
    + specialize (IH s1 ltac:(set_solver) Hadv).
      destruct (children_loop _ _ _ _ _ s1) as [[s3 [e|]]|]; [done| |done].
      destruct IH as (Ha & Hd & Hm). split; [done|]. split; [|done].
      intros x [->|Hx]%elem_of_cons Hsome; [|by apply Hd]. rw Hnone in Hsome. by destruct Hsome.
Qed.

Lemma dfs_spec fuel i s :
  searching s → called i s → unseen root (seen_of s) < fuel →
  settles i s (dfs failOnMissing idx fuel i s).
Proof.
  revert i s. induction fuel as [|fuel IH]; intros i s Hs Hcall Hfuel; [lia|]. simpl.
  destruct (state s !! i) as [[]|] eqn:Hi; simpl.
  - apply (on_path s Hs) in Hi. destruct (from_first_spec _ _ Hi) as (l1 & l2 & Heq & ->).
    exists i, l2. split; [done|]. split; [|by apply (reach_path i s)].
    destruct Hcall as [Hw _]. rw Heq -app_assoc in Hw. by apply walk_suffix in Hw.
  - split; [by apply advances_refl|done].
  - pose proof (children_loop_spec fuel i s (included idx i) (enter i s) IH Hs Hi Hcall Hfuel
      (λ c Hc, Hc) (advances_refl _ (searching_enter _ _ Hs Hcall Hi))) as Hl.
    destruct (children_loop _ _ _ _ _ _) as [[s' [e|]]|]; [done| |done].
    destruct Hl as (Hadv & Hd & Hm). simpl. split; [|by rw lookup_insert_eq].
    apply searching_leave; [done..| |done]. intros c [Hc Hin]. by apply Hd.
Qed.

Definition start : search := {| visited := []; state := ∅; ancestry := [] |}.

Lemma searching_start : searching start.
Proof.
  split; simpl; try done; intros; rw ?lookup_empty ?elem_of_nil; try done.
  constructor.
Qed.

Lemma validate_spec :
  match validateIncludeGraph failOnMissing idx root with
  | Some (valid v) => NoDup v ∧ (∀ x, x ∈ v ↔ rtc edge root x) ∧
      (∀ x, rtc edge root x → ¬ tc edge x x) ∧
      (failOnMissing = true → ∀ p c, rtc edge root p → c ∈ included idx p → is_Some (idx !! c))
  | Some (invalid e) => genuine e
  | None => False
  end.
Proof.
  assert (called root start) as Hcall.
  { split; [done|]. split; [by intros x l [= ->]|unfold universe; set_solver]. }
  pose proof (dfs_spec (2 + size idx) root start searching_start Hcall (unseen_start root)) as Hd.
  unfold validateIncludeGraph. fold start. change (seen_of start) with (dom (∅ : gmap string colour)) in Hd.
  destruct (dfs failOnMissing idx _ root start) as [[s' [e|]]|]; simpl; [done| |done].
  destruct Hd as [(Hs' & Hanc & _) Hdone].
  assert (∀ x, rtc edge root x → state s' !! x = Some done_) as Hall.
  { intros x [<-|Hx]%rtc_tc; [done|by eapply done_tc]. }
  split; [apply Hs'|]. split; [|split; [intros x Hx; by eapply done_acyclic, Hall|]].
  - intros x. rw (visited_seen s' Hs'). split; [by apply seen_reachable|].
    intros Hx%Hall. apply elem_of_dom. eauto.
  - intros Hf p c Hp Hc. exact (done_complete s' Hs' Hf p c (Hall p Hp) Hc).
Qed.
End validation.

(** Validation is exact: for every root and catalog the search ends with a
    verdict; it accepts just when no skill reachable from the root includes one
    that is not in the catalog and no include chain runs in a circle, and then
    it lists every reachable skill once; otherwise it reports either a chain
    from the root to a skill with an include that is really missing, or a
    circle of includes that is reachable from the root. *)
Theorem validateIncludes_exact root :
  match validateIncludes root idx with
  | Some (valid v) => NoDup v ∧ (∀ x, x ∈ v ↔ rtc edge root x) ∧
      (∀ p c, rtc edge root p → c ∈ included idx p → is_Some (idx !! c)) ∧
      (∀ x, rtc edge root x → ¬ tc edge x x)
  | Some (invalid (missing c p path)) =>
      walk path ∧ head path = Some root ∧ last path = Some p ∧
      c ∈ included idx p ∧ idx !! c = None
  | Some (invalid (cycle path)) =>
      ∃ x l, path = x :: l ++ [x] ∧ walk path ∧ rtc edge root x
  | None => False
  end.
Proof.
  pose proof (validate_spec true root) as Hv. unfold validateIncludes.
  destruct (validateIncludeGraph _ _ _) as [[v|[c p path|path]]|]; [| | |done].
  - destruct Hv as (? & ? & ? & Hm). repeat split; naive_solver.
  - simpl in Hv. naive_solver.
  - exact Hv.
Qed.

(** Cycle checking is exact: missing includes are passed over, and the
    search accepts just when no include chain from the root runs in a circle. *)
Theorem validateIncludeCycles_exact root :
  match validateIncludeCycles root idx with
  | Some (valid v) => NoDup v ∧ (∀ x, x ∈ v ↔ rtc edge root x) ∧
      (∀ x, rtc edge root x → ¬ tc edge x x)
  | Some (invalid (cycle path)) => ∃ x l, path = x :: l ++ [x] ∧ walk path ∧ rtc edge root x
  | _ => False
  end.
Proof.
  pose proof (validate_spec false root) as Hv. unfold validateIncludeCycles.
  destruct (validateIncludeGraph _ _ _) as [[v|[c p path|path]]|]; simpl in *; naive_solver.
Qed.

(** ** Traversal is right *)

(** What one call on [i] adds to the set of skills seen. *)
Definition grows (i : string) (seen seen' : gset string) : Prop :=
  seen ⊆ seen' ∧
  ∀ x, x ∈ seen' → x ∉ seen → rtc edge i x ∧ ∀ y, edge x y → y ∈ seen'.

Lemma grows_refl i seen : grows i seen seen.
Proof. by split. Qed.

Lemma grows_trans i s1 s2 s3 : grows i s1 s2 → grows i s2 s3 → grows i s1 s3.
Proof.
  intros [H12 G12] [H23 G23]. split; [set_solver|]. intros x Hx Hn.
  destruct (decide (x ∈ s2)) as [H2|H2]; [|by apply G23].
  destruct (G12 x H2 Hn) as [Hr He]. split; [done|]. intros y Hy. apply H23; auto.
Qed.

Lemma grows_child i c s1 s2 : edge i c → grows c s1 s2 → grows i s1 s2.
Proof.
  intros He [H12 G]. split; [done|]. intros x Hx Hn. destruct (G x Hx Hn) as [Hr Hc].
  split; [by eapply rtc_l|done].
Qed.

Lemma grows_enter i seen seen' :
  grows i ({[i]} ∪ seen) seen' → (∀ c, edge i c → c ∈ seen') → grows i seen seen'.
Proof.
  intros [Hs G] Hc. split; [set_solver|]. intros x Hx Hn.
  destruct (decide (x = i)) as [->|Hne]; [by split|]. apply G; set_solver.
Qed.

(** A run from nothing seen covers what is reachable. *)
Lemma grows_covers i seen : i ∈ seen → grows i ∅ seen → ∀ x, x ∈ seen ↔ rtc edge i x.
Proof.
  intros Hi [_ G] x. split; [intros Hx; by apply G|].
  intros Hr. assert (∀ a b, rtc edge a b → a ∈ seen → b ∈ seen) as Hcl; [|by eapply Hcl].
  induction 1 as [|a b c He _ IH]; [done|]. intros Ha. apply IH. by apply (G a).
Qed.

Definition listed (t : list string * gset string) : Prop :=
  NoDup t.1 ∧ ∀ x, x ∈ t.1 ↔ x ∈ t.2.

Lemma universe_child root i c : edge i c → c ∈ universe root.
Proof. intros [_ [sk Hc]]. apply elem_of_union_r, elem_of_dom. eauto. Qed.

Lemma listed_enter i t : listed t → i ∉ t.2 → listed (t.1 ++ [i], {[i]} ∪ t.2).
Proof.
  intros [Hn Hl] Hi. split; simpl.
  - apply NoDup_app. split; [done|]. split; [|apply NoDup_singleton].
    intros x Hx ->%list_elem_of_singleton. by apply Hi, Hl.
  - intros x. rw elem_of_app list_elem_of_singleton Hl. set_solver.
Qed.

(** The loop over the children, given what the recursive calls do. *)
Lemma traverse_children_spec root fuel i (t : list string * gset string) :
  (∀ c t, c ∈ universe root → unseen root t.2 < fuel → listed t →
    ∃ t', traverse_dfs idx fuel c t = Some t' ∧ listed t' ∧ c ∈ t'.2 ∧ grows c t.2 t'.2) →
  unseen root ({[i]} ∪ t.2) < fuel →
  ∀ cs t1, (∀ c, c ∈ cs → c ∈ included idx i) → listed t1 →
    {[i]} ∪ t.2 ⊆ t1.2 →
    ∃ t', traverse_children idx (traverse_dfs idx fuel) cs t1 = Some t' ∧ listed t' ∧
      grows i t1.2 t'.2 ∧ ∀ c, c ∈ cs → is_Some (idx !! c) → c ∈ t'.2.
Proof.
  intros IH Hlt.
  induction cs as [|c cs IHc]; intros t1 Hin Hl1 Hsub; simpl.
  { exists t1. split_and!; [done..|apply grows_refl|by intros ? ?%not_elem_of_nil]. }
  case_bool_decide as Hc.
  - destruct (IHc t1) as (t' & -> & Hl' & G & Hall); [set_solver|done..|].
    exists t'. split_and!; [done..|]. intros x [->|Hx]%elem_of_cons Hs; [|auto].
    by apply (proj1 G).
  - destruct (has idx c) eqn:Hhas; simpl.
    + apply has_spec in Hhas. assert (edge i c) as He by (split; [apply Hin; by left|done]).
      destruct (IH c t1) as (t2 & -> & Hl2 & Hc2 & G2);
        [by eapply universe_child|pose proof (unseen_mono root _ _ Hsub); lia|done|]. simpl.
      destruct (IHc t2) as (t' & -> & Hl' & G & Hall);
        [set_solver|done|destruct G2; set_solver|].
      exists t'. split_and!; [done..| |].
      * eapply grows_trans; [by eapply grows_child|done].
      * intros x [->|Hx]%elem_of_cons Hs; [|auto]. by apply (proj1 G).
    + destruct (IHc t1) as (t' & -> & Hl' & G & Hall); [set_solver|done..|].
      exists t'. split_and!; [done..|]. intros x [->|Hx]%elem_of_cons Hs; [|auto].
      apply has_spec in Hs. congruence.
Qed.

Lemma traverse_dfs_spec root fuel i t :
  i ∈ universe root → unseen root t.2 < fuel → listed t →
  ∃ t', traverse_dfs idx fuel i t = Some t' ∧ listed t' ∧ i ∈ t'.2 ∧ grows i t.2 t'.2.
Proof.
  revert i t. induction fuel as [|fuel IH]; intros i t Hi Hfuel Hl; [lia|]. simpl.
  case_bool_decide as Hseen; [by exists t; split_and!; [..|apply grows_refl]|].
  pose proof (unseen_enter root _ _ Hi Hseen) as Hlt.
  pose proof (traverse_children_spec root fuel i t IH ltac:(lia)) as Hch.
  destruct (Hch (included idx i) (t.1 ++ [i], {[i]} ∪ t.2)) as (t' & -> & Hl' & G & Hall);
    [done|by apply listed_enter|done|].
  exists t'. split_and!; [done..|destruct G; set_solver|].
  apply grows_enter; [done|]. intros c [Hc Hs]. auto.
Qed.

Lemma missing_children_spec root fuel i (t : list string * gset string) :
  (∀ c t, c ∈ universe root → unseen root t.2 < fuel →
    ∃ t', missing_dfs idx fuel c t = Some t' ∧ c ∈ t'.2 ∧ grows c t.2 t'.2 ∧
      ∀ m, m ∈ t'.1 ↔ m ∈ t.1 ∨
        ∃ x, x ∈ t'.2 ∧ x ∉ t.2 ∧ m ∈ included idx x ∧ idx !! m = None) →
  unseen root ({[i]} ∪ t.2) < fuel →
  ∀ cs t1, (∀ c, c ∈ cs → c ∈ included idx i) → {[i]} ∪ t.2 ⊆ t1.2 →
    ∃ t', missing_children idx (missing_dfs idx fuel) cs t1 = Some t' ∧
      grows i t1.2 t'.2 ∧ (∀ c, c ∈ cs → is_Some (idx !! c) → c ∈ t'.2) ∧
      ∀ m, m ∈ t'.1 ↔ m ∈ t1.1 ∨ (m ∈ cs ∧ idx !! m = None) ∨
        ∃ x, x ∈ t'.2 ∧ x ∉ t1.2 ∧ m ∈ included idx x ∧ idx !! m = None.
Proof.
  intros IH Hlt.
  induction cs as [|c cs IHc]; intros t1 Hin Hsub; simpl.
  { exists t1. split_and!; [done|apply grows_refl|by intros ? ?%not_elem_of_nil|].
    intros m. rw elem_of_nil. naive_solver. }
  destruct (has idx c) eqn:Hhas; simpl.
  - apply has_spec in Hhas. assert (edge i c) as He by (split; [apply Hin; by left|done]).
    assert (∃ t2, (if negb (bool_decide (c ∈ t1.2)) then missing_dfs idx fuel c t1 else Some t1)
        = Some t2 ∧ c ∈ t2.2 ∧ grows i t1.2 t2.2 ∧ ∀ m, m ∈ t2.1 ↔ m ∈ t1.1 ∨
          ∃ x, x ∈ t2.2 ∧ x ∉ t1.2 ∧ m ∈ included idx x ∧ idx !! m = None)
      as (t2 & Ht2 & Hc2 & G2 & Hm2).
    { case_bool_decide as Hc; simpl.
      { exists t1. split_and!; [done..|apply grows_refl|naive_solver]. }
      destruct (IH c t1) as (t2 & Ht2 & Hc2 & G2 & Hm2);
        [by eapply universe_child|pose proof (unseen_mono root _ _ Hsub); lia|].
      exists t2. split_and!; [done..|by eapply grows_child|done]. }
    destruct (IHc t2) as (t' & Ht' & G & Hall & Hm); [set_solver|destruct G2; set_solver|].
    exists t'. split_and!; [|by eapply grows_trans| |].
    + case_bool_decide; simpl in *; [by simplify_eq|]. by rw Ht2.
    + intros x [->|Hx]%elem_of_cons Hs; [|auto]. by apply (proj1 G).
    + intros m. rw Hm Hm2 elem_of_cons. destruct G as [Hs _], G2 as [Hs2 _].
      split; [intros [[?|(x & ?)]|[?|(x & ?)]]; naive_solver set_solver|].
      intros [?|[[[->|?] Hnone]|(x & Hx & Hn & ?)]]; [naive_solver| |naive_solver|].
      * destruct Hhas as [? ?]. congruence.
      * destruct (decide (x ∈ t2.2)); naive_solver.
  - destruct (IHc (set_add c t1.1, t1.2)) as (t' & -> & G & Hall & Hm); [set_solver|done|].
    assert (idx !! c = None) as Hnone.
    { destruct (idx !! c) eqn:Hl; [|done].
      assert (has idx c = true) by (apply has_spec; by rw Hl). congruence. }
    exists t'. split_and!; [done..| |].
    + intros x [->|Hx]%elem_of_cons Hs; [|auto]. rw Hnone in Hs. by destruct Hs.
    + intros m. rw Hm elem_of_set_add elem_of_cons. naive_solver.
Qed.

Lemma missing_dfs_spec root fuel i t :
  i ∈ universe root → unseen root t.2 < fuel →
  ∃ t', missing_dfs idx fuel i t = Some t' ∧ i ∈ t'.2 ∧ grows i t.2 t'.2 ∧
    ∀ m, m ∈ t'.1 ↔ m ∈ t.1 ∨
      ∃ x, x ∈ t'.2 ∧ x ∉ t.2 ∧ m ∈ included idx x ∧ idx !! m = None.
Proof.
  revert i t. induction fuel as [|fuel IH]; intros i t Hi Hfuel; [lia|]. simpl.
  case_bool_decide as Hseen; [exists t; split_and!; [done..|apply grows_refl|naive_solver]|].
  pose proof (unseen_enter root _ _ Hi Hseen) as Hlt.
  pose proof (missing_children_spec root fuel i t IH ltac:(lia)) as Hch.
  destruct (Hch (included idx i) (t.1, {[i]} ∪ t.2)) as (t' & -> & G & Hall & Hm); [done..|].
  exists t'. split_and!; [done|destruct G; set_solver|apply grows_enter; [done|]|].
  { intros c [Hc Hs]. auto. }
  intros m. rw Hm /=. destruct G as [Hsub _]. simpl in Hsub. split.
  - intros [?|[[Hin Hnone]|(x & Hx & Hn & ?)]]; [by left| |].
    + right. exists i. split_and!; [set_solver|done..].
    + right. exists x. split_and!; [done|set_solver|naive_solver..].
  - intros [?|(x & Hx & Hn & Hin & Hnone)]; [by left|].
    destruct (decide (x = i)) as [->|Hne]; [naive_solver|].
    right. right. exists x. split_and!; [done|set_solver|done..].
Qed.

Lemma root_universe root : root ∈ universe root.
Proof. unfold universe. set_solver. Qed.

(** The two collecting traversals end and are exact: [traverseIncludes]
    lists the skills reachable from the root, each once, and
    [collectAllMissing] holds the includes of reachable skills that are not in
    the catalog, never the root. *)
Theorem traversal_is_exact root :
  (∃ v, traverseIncludes idx root = Some v ∧ NoDup v ∧ ∀ x, x ∈ v ↔ rtc edge root x) ∧
  (∃ m, collectAllMissing idx root = Some m ∧ root ∉ m ∧
    ∀ c, c ∈ m ↔ ∃ p, rtc edge root p ∧ c ∈ included idx p ∧ idx !! c = None).
Proof.
  unfold traverseIncludes, collectAllMissing. split.
  - destruct (traverse_dfs_spec root (2 + size idx) root ([], ∅)) as (t & -> & [Hn Hl] & Hr & G);
      [apply root_universe|apply unseen_start|by split; [constructor|set_solver]|].
    exists t.1. split_and!; [done..|]. intros x. rw Hl. by apply grows_covers.
  - destruct (missing_dfs_spec root (2 + size idx) root ([], ∅)) as (t & -> & Hr & G & Hm);
      [apply root_universe|apply unseen_start|].
    pose proof (grows_covers _ _ Hr G) as Hcov.
    assert (∀ c, c ∈ t.1 ↔ ∃ p, rtc edge root p ∧ c ∈ included idx p ∧ idx !! c = None) as Hex.
    { intros c. rw Hm /= elem_of_nil. split.
      - intros [[]|(x & Hx & _ & ?)]. exists x. by rw -Hcov.
      - intros (p & Hp & ?). right. exists p. rw Hcov. split_and!; [done|set_solver|naive_solver..]. }
    exists t.1. split; [done|]. split; [|done].
    intros (p & Hp & Hin & Hnone)%Hex.
    assert (included idx root = []) as Hempty by (unfold included; by rw Hnone).
    apply rtc_inv in Hp as [<-|(q & [Hq _] & _)]; [rw Hempty in Hin|rw Hempty in Hq];
      by apply not_elem_of_nil in Hin || apply not_elem_of_nil in Hq.
Qed.

(** ** The searches agree *)

Definition same_run (s : search) (t : list string * gset string) : Prop :=
  visited s = t.1 ∧ dom (state s) = t.2.

Lemma children_agree failOnMissing fuel i children s s' t :
  (∀ i s s' t, dfs failOnMissing idx fuel i s = Some (s', None) → same_run s t →
    ∃ t', traverse_dfs idx fuel i t = Some t' ∧ same_run s' t' ∧ t.2 ⊆ t'.2) →
  children_loop failOnMissing idx (dfs failOnMissing idx fuel) i children s = Some (s', None) →
  same_run s t →
  ∃ t', traverse_children idx (traverse_dfs idx fuel) children t = Some t' ∧ same_run s' t' ∧ t.2 ⊆ t'.2.
Proof.
  intros IH. revert s t. induction children as [|c children IHc]; intros s t Hl Hs; simpl in *.
  { simplify_eq. eauto. }
  destruct (has idx c) eqn:Hhas; simpl in *.
  - destruct (dfs _ _ _ _ _) as [[s1 [e|]]|] eqn:Hd in Hl; [done| |done]. simpl in Hl.
    destruct (IH _ _ _ _ Hd Hs) as (t1 & Ht1 & Hs1 & Hsub).
    destruct (IHc _ _ Hl Hs1) as (t' & Ht' & Hs' & Hsub').
    exists t'. split; [|split; [done|set_solver]].
    case_bool_decide as Hin; [|by rw Ht1].
    destruct fuel; [done|]. simpl in Ht1. rw bool_decide_true // in Ht1. by simplify_eq.
  - destruct failOnMissing; [done|]. case_bool_decide; by eapply IHc.
Qed.

Lemma searches_agree failOnMissing fuel i s s' t :
  dfs failOnMissing idx fuel i s = Some (s', None) → same_run s t →
  ∃ t', traverse_dfs idx fuel i t = Some t' ∧ same_run s' t' ∧ t.2 ⊆ t'.2.
Proof.
  revert i s s' t. induction fuel as [|fuel IH]; intros i s s' t Hd [Hv Hs]; [done|]. simpl in *.
  destruct (state s !! i) as [[]|] eqn:Hi; [done| |].
  - simplify_eq. rw bool_decide_true; [|rw -Hs; apply elem_of_dom; eauto]. by exists t.
  - rw bool_decide_false; [|rw -Hs; by apply not_elem_of_dom].
    destruct (children_loop _ _ _ _ _ _) as [[s1 [e|]]|] eqn:Hl; [done| |done]. simplify_eq/=.
    destruct (children_agree _ _ _ _ _ _ (t.1 ++ [i], {[i]} ∪ t.2) IH Hl) as (t' & -> & [Hv' Hs'] & Hsub).
    { split; simpl; [by rw Hv|by rw dom_insert_L Hs]. }
    simpl in Hsub. exists t'. split; [done|]. split; [|set_solver]. split; [done|].
    simpl. rw dom_insert_L Hs'. set_solver.
Qed.

(** What is accepted is what is loaded: when either validation accepts a
    root, its list is the one [traverseIncludes] computes, in the same order,
    and a root accepted by [validateIncludes] has nothing missing. *)
Theorem accepted_is_loaded root v :
  (validateIncludeCycles root idx = Some (valid v) → traverseIncludes idx root = Some v) ∧
  (validateIncludes root idx = Some (valid v) →
    traverseIncludes idx root = Some v ∧ collectAllMissing idx root = Some []).
Proof.
  assert (∀ b, validateIncludeGraph b idx root = Some (valid v) → traverseIncludes idx root = Some v)
    as Hagree.
  { intros b Hv. unfold validateIncludeGraph in Hv.
    destruct (dfs _ _ _ _ _) as [[s [e|]]|] eqn:Hd; [done| |done].
    destruct (searches_agree _ _ _ _ _ ([], ∅) Hd) as (t & Ht & [Hvis _] & _); [done|].
    injection Hv as <-. rw Hvis.
    unfold traverseIncludes. by rw Ht. }
  split; [apply Hagree|]. intros Hv. split; [by eapply Hagree|].
  pose proof (validate_spec true root) as Hspec. unfold validateIncludes in Hv. rw Hv in Hspec.
  destruct Hspec as (_ & _ & _ & Hall).
  destruct (missing_dfs_spec root (2 + size idx) root ([], ∅)) as (t & Ht & Hr & G & Hm);
    [apply root_universe|apply unseen_start|].
  unfold collectAllMissing. rw Ht /=. f_equal. apply elem_of_nil_inv. intros c Hc.
  apply Hm in Hc as [Hc|(x & Hx & _ & Hin & Hnone)]; [by apply not_elem_of_nil in Hc|].
  apply (grows_covers _ _ Hr G) in Hx.
  destruct (Hall eq_refl x c Hx Hin) as [sk Hsk]. congruence.
Qed.
End graph.

(** A catalog with a missing include and a circle. *)
Definition sample_catalog : CatalogIndex := indexCatalogById [
  {| id := "a"; includes := Some ["b"; "c"] |};
  {| id := "b"; includes := Some ["c"; "gone"] |};
  {| id := "c"; includes := None |};
  {| id := "x"; includes := Some ["y"] |};
  {| id := "y"; includes := Some ["x"; "a"] |} ].

Example cycle_is_found : validateIncludes "x" sample_catalog = Some (invalid (cycle ["x"; "y"; "x"])).
Proof. by vm_compute. Qed.

Example missing_is_found :
  validateIncludes "a" sample_catalog = Some (invalid (missing "gone" "b" ["a"; "b"])) ∧
  collectAllMissing sample_catalog "x" = Some ["gone"].
Proof. by vm_compute. Qed.

Lemma accepted_is_loaded_witness :
  validateIncludeCycles "a" sample_catalog = Some (valid ["a"; "b"; "c"]) ∧
  traverseIncludes sample_catalog "a" = Some ["a"; "b"; "c"].
Proof.
  split; [vm_compute; reflexivity|].
  refine (proj1 (accepted_is_loaded sample_catalog "a" _) _). vm_compute. reflexivity.
Defined.
