(* ===== verification/IpcFraming.v ===== *)
(** * IPC framing

    [packages/ipc-server-utils/src/ipc-framing.ts]: the writers of
    length-prefixed frames and the incremental reader [IpcFrameReader], a state
    machine over the bytes a socket delivers in arbitrary pieces.

    Envelopes are abstract: the class [JsonRuntime] says what the framing uses
    of [JSON.stringify], [JSON.parse] and the decoding of text, and what the
    platform documents of them.  The callbacks are events, in the order they
    are called; an exception that leaves [push] is the result [threw].  The
    loop of [drain] carries fuel and is proved to need no more than twice the
    buffer. *)

From S2P Require Import Prelude.
Local Open Scope Z_scope.

(** What the framing uses of the JavaScript runtime on a value of type [E]. *)
Class JsonRuntime (E : Type) := {
  JSON_stringify : E → list Z;              (* Buffer.from(JSON.stringify(e)) *)
  JSON_parse : list Z → option E;           (* None: SyntaxError *)
  is_null : E → bool;                       (* property access on it throws *)
  header : E → string → option string;      (* e.headers?.[name] *)
  blank_line : list Z → bool;               (* toString().trim() is empty *)
}.

(** What the platform documents: JSON text reads back as the value it was
    written from, and the text of an object begins with a brace, holds no line
    feed and is not blank. *)
Class JsonLaws (E : Type) `{JsonRuntime E} := {
  parse_stringify : ∀ e, is_null e = false → JSON_parse (JSON_stringify e) = Some e;
  stringify_brace : ∀ e, is_null e = false → ∃ b rest, JSON_stringify e = 0x7b :: b :: rest;
  stringify_bytes : ∀ e, Forall (λ b, 0 ≤ b < 256) (JSON_stringify e);
  stringify_one_line : ∀ e, 0x0a ∉ JSON_stringify e;
  stringify_not_blank : ∀ e, is_null e = false → blank_line (JSON_stringify e) = false;
  blank_nothing : blank_line [] = true;
}.

(** ** Numbers of four bytes *)

(** [Buffer.alloc(4).writeUInt32BE(n, 0)]; out of range it throws. *)
Definition writeUInt32BE (n : Z) : option (list Z) :=
  if (0 <=? n) && (n <? 2 ^ 32) then
    Some [n / 2 ^ 24; n / 2 ^ 16 mod 256; n / 2 ^ 8 mod 256; n mod 256]
  else None.

(** [buffer.readUInt32BE(0)] of a buffer of at least four bytes. *)
Definition readUInt32BE (b : list Z) : Z :=
  match b with
  | b0 :: b1 :: b2 :: b3 :: _ => b0 * 2 ^ 24 + b1 * 2 ^ 16 + b2 * 2 ^ 8 + b3
  | _ => 0
  end.

Lemma read_write_UInt32BE n bs rest :
  writeUInt32BE n = Some bs → readUInt32BE (bs ++ rest) = n.
Proof.
  unfold writeUInt32BE. case_match eqn:Hn; [|done]. intros [= <-]. cbn.
  zify_bools. pose proof (Z.div_mod n 256). pose proof (Z.div_mod (n / 256) 256).
  pose proof (Z.div_mod (n / 256 / 256) 256).
  change (2 ^ 24) with (256 * 256 * 256). change (2 ^ 16) with (256 * 256).
  change (2 ^ 8) with 256. rw -!Z.div_div; lia.
Qed.

Lemma writeUInt32BE_length n bs : writeUInt32BE n = Some bs → length bs = 4%nat.
Proof. unfold writeUInt32BE. case_match; naive_solver. Qed.

Section framing.
Context {E : Type} `{JsonRuntime E}.
Implicit Types b bs : list Z.

(** ** Writing *)

Definition writeFrame (data : list Z) : option (list Z) :=
  header ← writeUInt32BE (Z.of_nat (length data)); Some (header ++ data).

Definition writeMessage (e : E) (binary : option (list Z)) : option (list Z) :=
  json ← writeFrame (JSON_stringify e);
  match binary with
  | Some data => frame ← writeFrame data; Some (json ++ frame)
  | None => Some json
  end.

Definition writeLegacyMessage (e : E) : list Z := JSON_stringify e ++ [0x0a].

Definition writeStreamChunk (chunk : list Z) : option (list Z) := writeFrame chunk.

Definition writeStreamEnd : list Z := [0; 0; 0; 0].

(** ** Reading *)

Inductive reader_state :=
  | detect | read_length | read_payload | read_binary
  | read_stream_chunk_length | read_stream_chunk.

(** The callbacks, as events. *)
Inductive event :=
  | onMessage (e : E) (binary : option (list Z))
  | onError
  | onStreamStart (e : E)
  | onStreamChunk (chunk : list Z)
  | onStreamEnd.

Record IpcFrameReader := {
  buffer : list Z;
  state : reader_state;
  pendingLength : nat;
  pendingEnvelope : option E;
  expectBinary : bool;
  isLegacy : bool;
  streamCallbacks : bool;    (* whether stream callbacks were given *)
}.

Definition new_reader (callbacks : bool) : IpcFrameReader := {|
  buffer := []; state := detect; pendingLength := 0; pendingEnvelope := None;
  expectBinary := false; isLegacy := false; streamCallbacks := callbacks
|}.

Implicit Types r : IpcFrameReader.

Definition set_buffer b r : IpcFrameReader := {|
  buffer := b; state := state r; pendingLength := pendingLength r;
  pendingEnvelope := pendingEnvelope r; expectBinary := expectBinary r;
  isLegacy := isLegacy r; streamCallbacks := streamCallbacks r |}.

Definition set_state s r : IpcFrameReader := {|
  buffer := buffer r; state := s; pendingLength := pendingLength r;
  pendingEnvelope := pendingEnvelope r; expectBinary := expectBinary r;
  isLegacy := isLegacy r; streamCallbacks := streamCallbacks r |}.

Definition set_pending n r : IpcFrameReader := {|
  buffer := buffer r; state := state r; pendingLength := n;
  pendingEnvelope := pendingEnvelope r; expectBinary := expectBinary r;
  isLegacy := isLegacy r; streamCallbacks := streamCallbacks r |}.

Definition set_envelope (e : option E) r : IpcFrameReader := {|
  buffer := buffer r; state := state r; pendingLength := pendingLength r;
  pendingEnvelope := e; expectBinary := expectBinary r;
  isLegacy := isLegacy r; streamCallbacks := streamCallbacks r |}.

Definition set_expect x r : IpcFrameReader := {|
  buffer := buffer r; state := state r; pendingLength := pendingLength r;
  pendingEnvelope := pendingEnvelope r; expectBinary := x;
  isLegacy := isLegacy r; streamCallbacks := streamCallbacks r |}.

Definition set_legacy r : IpcFrameReader := {|
  buffer := buffer r; state := state r; pendingLength := pendingLength r;
  pendingEnvelope := pendingEnvelope r; expectBinary := expectBinary r;
  isLegacy := true; streamCallbacks := streamCallbacks r |}.

(** How one turn of the loop of [drain] ends: it returns, goes round again, or
    an exception leaves it. *)
Inductive outcome :=
  | Returns (r : IpcFrameReader) (evs : list event)
  | Continues (r : IpcFrameReader) (evs : list event)
  | Throws (r : IpcFrameReader) (evs : list event).

(** Stream callbacks are optional: [this.streamCallbacks?.on...]. *)
Definition stream_event r (ev : event) : list event :=
  if streamCallbacks r then [ev] else [].

(** [this.buffer.subarray(0, n)] and the buffer from [n] on. *)
Definition front (n : nat) r : list Z := take n (buffer r).
Definition advance (n : nat) r : IpcFrameReader := set_buffer (drop n (buffer r)) r.

(** The index of the first [0x0a]. *)
Definition index_of_newline b : option nat := fst <$> list_find (λ x, x = 0x0a) b.

(** The loop of [drainLegacy]; every line is at least one byte of the buffer. *)
Fixpoint legacy_loop (fuel : nat) (b : list Z) : option (list Z * list event) :=
  match fuel with
  | O => None
  | S fuel =>
      match index_of_newline b with
      | None => Some (b, [])
      | Some i =>
          let line := take i b in
          let rest := drop (S i) b in
          let evs :=
            if blank_line line then []
            else match JSON_parse line with
                 | Some e => [onMessage e None]
                 | None => [onError]
                 end in
          '(b', evs') ← legacy_loop fuel rest; Some (b', evs ++ evs')
      end
  end.

Definition drainLegacy r : outcome :=
  match legacy_loop (S (length (buffer r))) (buffer r) with
  | Some (b, evs) => Returns (set_buffer b r) evs
  | None => Throws r []     (* out of fuel; see [legacy_loop_total] *)
  end.

(** The block [if (this.state === "read-payload")], entered with the state
    [read_payload]. *)
Definition payload_block r : outcome :=
  if (length (buffer r) <? pendingLength r)%nat then Returns r []
  else
    let payload := front (pendingLength r) r in
    let r := advance (pendingLength r) r in
    match JSON_parse payload with
    | None => Continues (set_state detect r) [onError]
    | Some envelope =>
        if is_null envelope then Throws r []
        else if bool_decide (header envelope "transfer-encoding" = Some "chunked") then
          Continues (set_state read_stream_chunk_length (set_envelope (Some envelope) r))
            (stream_event r (onStreamStart envelope))
        else match header envelope "content-length" with
        | Some _ =>
            Continues (set_state read_length (set_expect true
              (set_envelope (Some envelope) r))) []
        | None =>
            Continues (set_state detect (set_expect false r)) [onMessage envelope None]
        end
    end.

(** The block [if (this.state === "read-binary")]. *)
Definition binary_block r : outcome :=
  if (length (buffer r) <? pendingLength r)%nat then Returns r []
  else
    let binary := front (pendingLength r) r in
    let r := advance (pendingLength r) r in
    Continues (set_state detect (set_expect false (set_envelope None r)))
      match pendingEnvelope r with
      | Some e => [onMessage e (Some binary)]
      | None => []
      end.

(** The block [if (this.state === "read-stream-chunk")]. *)
Definition chunk_block r : outcome :=
  if (length (buffer r) <? pendingLength r)%nat then Returns r []
  else
    let chunk := front (pendingLength r) r in
    let r := advance (pendingLength r) r in
    Continues (set_state read_stream_chunk_length r) (stream_event r (onStreamChunk chunk)).

(** The block [if (this.state === "read-stream-chunk-length")], which falls
    through to the next. *)
Definition chunk_length_block r : outcome :=
  if (length (buffer r) <? 4)%nat then Returns r []
  else
    let r := set_pending (Z.to_nat (readUInt32BE (buffer r))) r in
    let r := advance 4 r in
    if (pendingLength r =? 0)%nat then
      Continues (set_state detect (set_envelope None r)) (stream_event r onStreamEnd)
    else chunk_block (set_state read_stream_chunk r).

(** The block [if (this.state === "read-length")], which falls through to
    [read_payload] or, past it, to [read_binary]. *)
Definition length_block r : outcome :=
  if (length (buffer r) <? 4)%nat then Returns r []
  else
    let r := set_pending (Z.to_nat (readUInt32BE (buffer r))) r in
    let r := advance 4 r in
    if expectBinary r then binary_block (set_state read_binary r)
    else payload_block (set_state read_payload r).

(** One turn of [while (true)]. *)
Definition turn r : outcome :=
  match state r with
  | detect =>
      match buffer r with
      | [] => Returns r []
      | b0 :: _ =>
          if b0 =? 0x7b then drainLegacy (set_legacy r)
          else length_block (set_state read_length r)
      end
  | read_length => length_block r
  | read_payload => payload_block r
  | read_binary => binary_block r
  | read_stream_chunk_length => chunk_length_block r
  | read_stream_chunk => chunk_block r
  end.

(** The result of a call of [push]. *)
Record pushed := {
  reader : IpcFrameReader;
  events : list event;
  threw : bool;
}.

Definition before (evs : list event) (p : pushed) : pushed :=
  {| reader := reader p; events := evs ++ events p; threw := threw p |}.

Fixpoint drain_loop (fuel : nat) r : option pushed :=
  match fuel with
  | O => None
  | S fuel =>
      match turn r with
      | Returns r evs => Some {| reader := r; events := evs; threw := false |}
      | Throws r evs => Some {| reader := r; events := evs; threw := true |}
      | Continues r evs => before evs <$> drain_loop fuel r
      end
  end.

(** Twice the buffer and two: see [drain_total]. *)
Definition drain r : option pushed := drain_loop (2 + 2 * length (buffer r)) r.

Definition push r (chunk : list Z) : option pushed :=
  drain (set_buffer (buffer r ++ chunk) r).

(** A connection: the pieces the socket delivers, in order; a piece that makes
    the reader throw ends it. *)
Fixpoint push_all r (chunks : list (list Z)) : option pushed :=
  match chunks with
  | [] => Some {| reader := r; events := []; threw := false |}
  | c :: chunks =>
      p ← push r c;
      if threw p then Some p else before (events p) <$> push_all (reader p) chunks
  end.

(** ** The loops end *)

Lemma index_of_newline_Some b i :
  index_of_newline b = Some i →
  ∃ rest, b = take i b ++ 0x0a :: rest ∧ drop (S i) b = rest ∧ 0x0a ∉ take i b.
Proof.
  unfold index_of_newline. rw fmap_Some. intros ([j x] & Hf & ->). simpl.
  apply list_find_Some in Hf as (Hl & -> & Hfirst).
  exists (drop (S j) b). rw {1}(take_drop_middle _ _ _ Hl) //.
  split; [done|]. split; [done|]. intros Hin.
  apply list_elem_of_lookup in Hin as [k Hk].
  assert (k < j)%nat as Hlt.
  { apply lookup_lt_Some in Hk. rw length_take in Hk. lia. }
  rw lookup_take_lt in Hk; [|done]. by eapply Hfirst.
Qed.

Lemma legacy_loop_S fuel b :
  legacy_loop (S fuel) b =
    match index_of_newline b with
    | None => Some (b, [])
    | Some i =>
        let line := take i b in
        let evs :=
          if blank_line line then []
          else match JSON_parse line with
               | Some e => [onMessage e None]
               | None => [onError]
               end in
        '(b', evs') ← legacy_loop fuel (drop (S i) b); Some (b', evs ++ evs')
    end.
Proof. done. Qed.

Lemma legacy_loop_total fuel b :
  (length b < fuel)%nat → is_Some (legacy_loop fuel b).
Proof.
  revert b. induction fuel as [|fuel IH]; intros b Hlen; [lia|]. rw legacy_loop_S.
  destruct (index_of_newline b) as [i|] eqn:Hi; [|eauto].
  apply index_of_newline_Some in Hi as (rest & Hb & -> & _).
  destruct (IH rest) as [[b' evs'] ->]; [|eauto].
  apply (f_equal length) in Hb. rw length_app /= in Hb. lia.
Qed.

Lemma drainLegacy_returns r : ∃ b evs, drainLegacy r = Returns (set_buffer b r) evs.
Proof.
  unfold drainLegacy.
  destruct (legacy_loop_total (S (length (buffer r))) (buffer r)) as [[b evs] ->]; [lia|eauto].
Qed.

(** The measure of the loop of [drain]: a turn that goes round again either
    consumed a length or leaves a state that waits for a payload. *)
Definition waiting (s : reader_state) : nat :=
  match s with
  | read_payload | read_binary | read_stream_chunk => 1
  | _ => 0
  end.

Definition work r : nat := 2 * length (buffer r) + waiting (state r).

Ltac open_turn :=
  unfold turn, length_block, chunk_length_block, payload_block, binary_block,
    chunk_block, front, advance, drainLegacy in *; simpl in *.

Lemma turn_decreases r r' evs : turn r = Continues r' evs → (work r' < work r)%nat.
Proof.
  unfold work. open_turn.
  intros Ht. destruct (state r) eqn:Hs; repeat case_match; simplify_eq/=;
    rw ?length_drop; repeat match goal with
    | H : (_ <? _)%nat = false |- _ => apply Nat.ltb_ge in H
    end; simpl in *; lia.
Qed.

Lemma drain_loop_fuel n m r :
  (work r < n)%nat → (work r < m)%nat → drain_loop n r = drain_loop m r.
Proof.
  revert m r. induction n as [|n IH]; intros m r Hn Hm; [lia|].
  destruct m as [|m]; [lia|]. simpl.
  destruct (turn r) as [| r' evs |] eqn:Ht; [done| |done].
  apply turn_decreases in Ht. rw (IH m r'); [done|lia|lia].
Qed.

Lemma work_bound r : (work r < 2 + 2 * length (buffer r))%nat.
Proof. unfold work, waiting. case_match; lia. Qed.

Lemma drain_loop_S n r :
  drain_loop (S n) r = match turn r with
                       | Returns r evs => Some {| reader := r; events := evs; threw := false |}
                       | Throws r evs => Some {| reader := r; events := evs; threw := true |}
                       | Continues r evs => before evs <$> drain_loop n r
                       end.
Proof. done. Qed.

(** [drain] is the loop of the code. *)
Lemma drain_unfold r :
  drain r = match turn r with
            | Returns r evs => Some {| reader := r; events := evs; threw := false |}
            | Throws r evs => Some {| reader := r; events := evs; threw := true |}
            | Continues r evs => before evs <$> drain r
            end.
Proof.
  unfold drain at 1. rw drain_loop_S. destruct (turn r) as [|r' evs|] eqn:Ht; [done| |done].
  f_equal. apply drain_loop_fuel; [|apply work_bound].
  apply turn_decreases in Ht. pose proof (work_bound r). lia.
Qed.

Lemma drain_ind (P : IpcFrameReader → Prop) :
  (∀ r, (∀ r' evs, turn r = Continues r' evs → P r') → P r) → ∀ r, P r.
Proof.
  intros Hstep r. remember (work r) as n eqn:Hn. revert r Hn.
  induction n as [n IH] using lt_wf_ind. intros r ->. apply Hstep.
  intros r' evs Ht%turn_decreases. by eapply IH.
Qed.

(** Reading terminates: whatever the reader's state and whatever bytes
    arrive, the loop of [push] ends within its fuel, which is linear in the
    bytes buffered, and so does a whole connection. *)
Theorem reading_terminates r (chunks : list (list Z)) :
  is_Some (push_all r chunks).
Proof.
  assert (∀ r, is_Some (drain r)) as Hd.
  { apply drain_ind. intros r' IH. rw drain_unfold.
    destruct (turn r') as [|r1 evs|] eqn:Ht; [eauto| |eauto].
    destruct (IH _ _ eq_refl) as [p ->]. eauto. }
  revert r. induction chunks as [|c chunks IH]; intros r; simpl; [eauto|].
  destruct (Hd (set_buffer (buffer r ++ c) r)) as [p Hp].
  unfold push. rw Hp /=. case_match; [eauto|].
  destruct (IH (reader p)) as [q ->]. eauto.
Qed.

(** ** Chunking does not matter *)

Definition extend (c : list Z) r : IpcFrameReader := set_buffer (buffer r ++ c) r.

Lemma extend_extend c1 c2 r : extend c2 (extend c1 r) = extend (c1 ++ c2) r.
Proof. unfold extend, set_buffer. simpl. by rw -app_assoc. Qed.

Lemma extend_nil r : extend [] r = r.
Proof. destruct r. unfold extend, set_buffer. simpl. by rw app_nil_r. Qed.

Lemma readUInt32BE_app b c : (4 ≤ length b)%nat → readUInt32BE (b ++ c) = readUInt32BE b.
Proof. destruct b as [|? [|? [|? [|? ?]]]]; simpl; try lia; done. Qed.

Lemma front_extend n c r : (n ≤ length (buffer r))%nat → front n (extend c r) = front n r.
Proof. intros. unfold front, extend. simpl. by rw take_app_le. Qed.

Lemma advance_extend n c r :
  (n ≤ length (buffer r))%nat → advance n (extend c r) = extend c (advance n r).
Proof. intros. unfold advance, extend, set_buffer. simpl. by rw drop_app_le. Qed.

(** A piece of the loop that works the same with more bytes behind it, and
    that, when it returns, returns where the longer run continues. *)
Definition extensible (block : IpcFrameReader → outcome) : Prop := ∀ r c,
  match block r with
  | Continues r' evs => block (extend c r) = Continues (extend c r') evs
  | Throws r' evs => block (extend c r) = Throws (extend c r') evs
  | Returns r' evs => r' = r ∧ evs = []
  end.

Ltac enough_bytes :=
  match goal with
  | |- context [(length (buffer ?r) <? ?n)%nat] =>
      destruct (Nat.ltb_spec (length (buffer r)) n) as [?|Hlong]; [by split|];
      repeat match goal with
      | |- context [(length (buffer (extend ?c ?r)) <? ?m)%nat] =>
          rw (proj2 (Nat.ltb_ge (length (buffer (extend c r))) m));
          [|simpl; rw length_app; lia]
      end
  end.

Lemma payload_extensible : extensible payload_block.
Proof.
  intros r c. unfold payload_block. enough_bytes. simpl.
  rw front_extend // advance_extend //.
  destruct (JSON_parse _) as [e|]; [|done]. destruct (is_null e); [done|].
  destruct (bool_decide _); [done|]. by destruct (header e _).
Qed.

Lemma binary_extensible : extensible binary_block.
Proof.
  intros r c. unfold binary_block. enough_bytes. simpl.
  rw front_extend // advance_extend //.
Qed.

Lemma chunk_extensible : extensible chunk_block.
Proof.
  intros r c. unfold chunk_block. enough_bytes. simpl.
  rw front_extend // advance_extend //.
Qed.

#[local] Arguments payload_block : simpl never.
#[local] Arguments binary_block : simpl never.
#[local] Arguments chunk_block : simpl never.
#[local] Arguments length_block : simpl never.
#[local] Arguments chunk_length_block : simpl never.
#[local] Arguments legacy_loop : simpl never.

(** The blocks that read a length hand over to the next one. *)
Definition lengths_extensible (block : IpcFrameReader → outcome) (own : reader_state) : Prop :=
  ∀ r c, state r = own →
  match block r with
  | Continues r' evs => block (extend c r) = Continues (extend c r') evs
  | Throws r' evs => block (extend c r) = Throws (extend c r') evs
  | Returns r' evs => evs = [] ∧ block (extend c r) = turn (extend c r')
  end.

Lemma length_extensible : lengths_extensible length_block read_length.
Proof.
  intros r c Hs. unfold length_block.
  destruct (Nat.ltb_spec (length (buffer r)) 4) as [?|Hlong].
  { split; [done|]. unfold turn. simpl. by rw Hs. }
  rw (proj2 (Nat.ltb_ge (length (buffer (extend c r))) 4)); [|simpl; rw length_app; lia].
  rw /= readUInt32BE_app //.
  set (r1 := advance 4 (set_pending _ r)).
  assert (advance 4 (set_pending (Z.to_nat (readUInt32BE (buffer r))) (extend c r)) =
          extend c r1) as -> by (by apply (advance_extend 4 c (set_pending _ r))).
  destruct (expectBinary r).
  - pose proof (binary_extensible (set_state read_binary r1) c) as Hb.
    destruct (binary_block _) in Hb |- *; [|done|done]. by destruct Hb as [-> ->].
  - pose proof (payload_extensible (set_state read_payload r1) c) as Hb.
    destruct (payload_block _) in Hb |- *; [|done|done]. by destruct Hb as [-> ->].
Qed.

Lemma chunk_length_extensible : lengths_extensible chunk_length_block read_stream_chunk_length.
Proof.
  intros r c Hs. unfold chunk_length_block.
  destruct (Nat.ltb_spec (length (buffer r)) 4) as [?|Hlong].
  { split; [done|]. unfold turn. simpl. by rw Hs. }
  rw (proj2 (Nat.ltb_ge (length (buffer (extend c r))) 4)); [|simpl; rw length_app; lia].
  rw /= readUInt32BE_app //.
  set (r1 := advance 4 (set_pending _ r)).
  assert (advance 4 (set_pending (Z.to_nat (readUInt32BE (buffer r))) (extend c r)) =
          extend c r1) as -> by (by apply (advance_extend 4 c (set_pending _ r))).
  destruct (_ =? 0)%nat; [done|].
  pose proof (chunk_extensible (set_state read_stream_chunk r1) c) as Hb.
  destruct (chunk_block _) in Hb |- *; [|done|done]. by destruct Hb as [-> ->].
Qed.

Ltac go_to block Hs :=
  match goal with
  | |- context [turn (extend ?c ?r)] =>
      assert (turn (extend c r) = block (extend c r)) as Hgo
        by (by unfold turn; rw /= Hs)
  end.

Lemma turn_extend r c :
  match turn r with
  | Continues r' evs => turn (extend c r) = Continues (extend c r') evs
  | Throws r' evs => turn (extend c r) = Throws (extend c r') evs
  | Returns r' evs => isLegacy r' = false → evs = [] ∧ turn (extend c r) = turn (extend c r')
  end.
Proof.
  unfold turn at 1. destruct (state r) eqn:Hs.
  - destruct (buffer r) as [|b0 b] eqn:Hb; [done|].
    destruct (b0 =? 0x7b) eqn:Hb0.
    + destruct (drainLegacy_returns (set_legacy r)) as (b' & evs & ->). done.
    + assert (∀ c, turn (extend c r) = length_block (extend c (set_state read_length r))) as Hgo.
      { intros c'. unfold turn. simpl. rw Hs Hb /= Hb0. done. }
      pose proof (length_extensible (set_state read_length r) c eq_refl) as Hl.
      destruct (length_block _) in Hl |- *; rw Hgo; [by intros _|done|done].
  - pose proof (length_extensible r c Hs) as Hl. go_to length_block Hs.
    destruct (length_block r); rw Hgo; [by intros _|done|done].
  - pose proof (payload_extensible r c) as Hl. go_to payload_block Hs.
    destruct (payload_block r); [|by rw Hgo|by rw Hgo]. by destruct Hl as [-> ->].
  - pose proof (binary_extensible r c) as Hl. go_to binary_block Hs.
    destruct (binary_block r); [|by rw Hgo|by rw Hgo]. by destruct Hl as [-> ->].
  - pose proof (chunk_length_extensible r c Hs) as Hl. go_to chunk_length_block Hs.
    destruct (chunk_length_block r); rw Hgo; [by intros _|done|done].
  - pose proof (chunk_extensible r c) as Hl. go_to chunk_block Hs.
    destruct (chunk_block r); [|by rw Hgo|by rw Hgo]. by destruct Hl as [-> ->].
Qed.

Definition outcome_reader (o : outcome) : IpcFrameReader :=
  match o with Returns r _ | Continues r _ | Throws r _ => r end.

(** Only a first byte [{] makes a connection legacy. *)
Definition starts_legacy r : bool :=
  match state r, buffer r with
  | detect, b0 :: _ => b0 =? 0x7b
  | _, _ => false
  end.

Lemma blocks_keep_legacy r :
  isLegacy (outcome_reader (payload_block r)) = isLegacy r ∧
  isLegacy (outcome_reader (binary_block r)) = isLegacy r ∧
  isLegacy (outcome_reader (chunk_block r)) = isLegacy r ∧
  isLegacy (outcome_reader (length_block r)) = isLegacy r ∧
  isLegacy (outcome_reader (chunk_length_block r)) = isLegacy r.
Proof.
  unfold length_block, chunk_length_block, payload_block, binary_block, chunk_block.
  split_and!; by repeat case_match.
Qed.

Lemma turn_legacy r : isLegacy (outcome_reader (turn r)) = isLegacy r || starts_legacy r.
Proof.
  unfold turn, starts_legacy.
  destruct (blocks_keep_legacy r) as (Hp & Hb & Hc & Hl & Hcl).
  destruct (state r); rw ?Hp ?Hb ?Hc ?Hl ?Hcl ?orb_false_r //.
  destruct (buffer r) as [|b0 b]; [by rw orb_false_r|]. destruct (b0 =? 0x7b).
  - destruct (drainLegacy_returns (set_legacy r)) as (? & ? & ->). by rw orb_true_r.
  - rw orb_false_r. by destruct (blocks_keep_legacy (set_state read_length r)) as (_ & _ & _ & -> & _).
Qed.

Lemma drain_keeps_legacy r p : drain r = Some p → isLegacy r = true → isLegacy (reader p) = true.
Proof.
  revert p. induction r as [r IH] using drain_ind. intros p Hp Hr.
  rw drain_unfold in Hp. pose proof (turn_legacy r) as Ht. rw Hr /= in Ht.
  destruct (turn r) as [r1 evs|r1 evs|r1 evs] eqn:Hturn; simplify_eq/=; [done| |done].
  apply fmap_Some in Hp as (q & Hq & ->). exact (IH _ _ eq_refl _ Hq Ht).
Qed.

Lemma before_nil (o : option pushed) : before [] <$> o = o.
Proof. by destruct o as [[]|]. Qed.

Lemma before_app (a b : list event) (o : option pushed) :
  before a <$> (before b <$> o) = before (a ++ b) <$> o.
Proof. destruct o as [q|]; [|done]. unfold before. by rw /= app_assoc. Qed.

(** Draining a buffer, then what arrives behind it, is draining both. *)
Lemma drain_extend r c p :
  drain r = Some p → isLegacy (reader p) = false → threw p = false →
  drain (extend c r) = before (events p) <$> drain (extend c (reader p)).
Proof.
  revert p. induction r as [r IH] using drain_ind. intros p Hp Hleg Hthrew.
  rw drain_unfold in Hp. pose proof (turn_extend r c) as Ht.
  destruct (turn r) as [r1 evs|r1 evs|r1 evs] eqn:Hturn; simplify_eq/=.
  - destruct Ht as [-> Ht]; [done|]. by rw before_nil drain_unfold Ht -drain_unfold.
  - apply fmap_Some in Hp as (q & Hq & ->). rw drain_unfold Ht.
    by rw (IH _ _ eq_refl _ Hq) // before_app.
Qed.

Lemma drain_quiet r p :
  drain r = Some p → isLegacy (reader p) = false → threw p = false →
  drain (reader p) = Some {| reader := reader p; events := []; threw := false |}.
Proof.
  intros Hp Hleg Hthrew. pose proof (drain_extend r [] p Hp Hleg Hthrew) as He.
  rw !extend_nil Hp in He. destruct (drain (reader p)) as [[r2 evs2 t2]|]; [|done].
  destruct p as [r1 evs t1]. unfold before in He. simpl in *. simplify_eq.
  assert (evs2 = []) as ->; [|done]. apply (app_inv_head evs). by rw app_nil_r.
Qed.

Lemma turn_extend_legacy r c :
  isLegacy (outcome_reader (turn r)) = true →
  isLegacy (outcome_reader (turn (extend c r))) = true.
Proof.
  rw !turn_legacy. intros [Hl|Hl]%orb_true_iff; apply orb_true_iff; [by left|right].
  unfold starts_legacy in *. simpl. destruct (state r); try done. by destruct (buffer r).
Qed.

Lemma drain_extend_legacy r c p p' :
  drain r = Some p → isLegacy (reader p) = true →
  drain (extend c r) = Some p' → isLegacy (reader p') = true.
Proof.
  revert p p'. induction r as [r IH] using drain_ind. intros p p' Hp Hleg Hp'.
  rw drain_unfold in Hp. pose proof (turn_extend r c) as Ht.
  pose proof (turn_extend_legacy r c) as Hl.
  destruct (turn r) as [r1 evs|r1 evs|r1 evs] eqn:Hturn.
  - simplify_eq/=. specialize (Hl Hleg). rw drain_unfold in Hp'.
    destruct (turn (extend c r)) as [r2 evs2|r2 evs2|r2 evs2]; simplify_eq/=; [done| |done].
    apply fmap_Some in Hp' as (q' & Hq' & ->). exact (drain_keeps_legacy _ _ Hq' Hl).
  - apply fmap_Some in Hp as (q & Hq & ->). rw drain_unfold Ht in Hp'.
    apply fmap_Some in Hp' as (q' & Hq' & ->). exact (IH _ _ eq_refl _ _ Hq Hleg Hq').
  - rw drain_unfold Ht in Hp'. by simplify_eq/=.
Qed.

Lemma drain_extend_throws r c p p' :
  drain r = Some p → threw p = true → drain (extend c r) = Some p' → threw p' = true.
Proof.
  revert p p'. induction r as [r IH] using drain_ind. intros p p' Hp Hthrew Hp'.
  rw drain_unfold in Hp. pose proof (turn_extend r c) as Ht.
  destruct (turn r) as [r1 evs|r1 evs|r1 evs] eqn:Hturn; [by simplify_eq/=| |].
  - apply fmap_Some in Hp as (q & Hq & ->). rw drain_unfold Ht in Hp'.
    apply fmap_Some in Hp' as (q' & Hq' & ->). exact (IH _ _ eq_refl _ _ Hq Hthrew Hq').
  - rw drain_unfold Ht in Hp'. by simplify_eq/=.
Qed.

(** A reader that has nothing to do until more bytes come. *)
Definition settled r : Prop := drain r = Some {| reader := r; events := []; threw := false |}.

Lemma push_pieces r (chunks : list (list Z)) p :
  settled r → push r (concat chunks) = Some p →
  isLegacy (reader p) = false → threw p = false →
  push_all r chunks = Some p.
Proof.
  revert r p. induction chunks as [|c chunks IH]; intros r p Hset Hp Hleg Hthrew; simpl in *.
  { unfold push in Hp. change (set_buffer _ r) with (extend [] r) in Hp.
    rw extend_nil Hset in Hp. by simplify_eq. }
  unfold push in *. change (set_buffer (buffer r ++ c) r) with (extend c r).
  change (set_buffer _ r) with (extend (c ++ concat chunks) r) in Hp.
  rw -extend_extend in Hp.
  destruct (reading_terminates r [c]) as [q Hq]. simpl in Hq.
  destruct (push r c) as [q1|] eqn:Hq1; [|done]. clear q Hq.
  unfold push in Hq1. change (set_buffer (buffer r ++ c) r) with (extend c r) in Hq1.
  rw Hq1 /=.
  destruct (threw q1) eqn:Hthrew1.
  { by rw (drain_extend_throws _ _ _ _ Hq1 Hthrew1 Hp) in Hthrew. }
  destruct (isLegacy (reader q1)) eqn:Hleg1.
  { by rw (drain_extend_legacy _ _ _ _ Hq1 Hleg1 Hp) in Hleg. }
  rw (drain_extend _ _ _ Hq1) // in Hp.
  apply fmap_Some in Hp as (p2 & Hp2 & ->).
  rw (IH (reader q1) p2) //. exact (drain_quiet _ _ Hq1 Hleg1 Hthrew1).
Qed.

(** Chunking is irrelevant: however a byte stream is cut into pieces, the
    reader calls the same callbacks in the same order and ends in the same
    state as if it had arrived at once, provided the connection is a framed one
    (no message start is taken for a legacy line) and nothing throws. *)
Theorem framed_chunking_irrelevant r (chunks : list (list Z)) p :
  settled r → push r (concat chunks) = Some p →
  isLegacy (reader p) = false → threw p = false →
  push_all r chunks = Some p.
Proof.
  apply push_pieces.
Qed.

(** ** The reader's invariant

    A binary frame is read only with the envelope that announced it at hand:
    [this.pendingEnvelope!] is never null. *)
Definition well_formed r : Prop :=
  match state r with
  | read_binary => expectBinary r = true ∧ is_Some (pendingEnvelope r)
  | read_length => expectBinary r = true → is_Some (pendingEnvelope r)
  | _ => expectBinary r = false
  end.

Lemma blocks_well_formed r :
  (state r = read_payload → well_formed r → well_formed (outcome_reader (payload_block r))) ∧
  (state r = read_binary → well_formed r → well_formed (outcome_reader (binary_block r))) ∧
  (state r = read_stream_chunk → well_formed r → well_formed (outcome_reader (chunk_block r))).
Proof.
  unfold well_formed, payload_block, binary_block, chunk_block.
  split_and!; intros Hs; rw Hs; intros Hwf; repeat case_match; simplify_eq/=; eauto; congruence.
Qed.

Lemma turn_well_formed r : well_formed r → well_formed (outcome_reader (turn r)).
Proof.
  assert (∀ r, state r = read_length → well_formed r →
    well_formed (outcome_reader (length_block r))) as Hlen.
  { intros r' Hs Hwf. unfold length_block. case_match; [done|].
    unfold well_formed in Hwf. rw Hs in Hwf. destruct (expectBinary _) eqn:Hx; simpl in Hx.
    - apply blocks_well_formed; [done|]. unfold well_formed. simpl. eauto.
    - by apply blocks_well_formed. }
  intros Hwf. unfold turn. destruct (state r) eqn:Hs; try by apply blocks_well_formed.
  - assert (expectBinary r = false) as Hx by (unfold well_formed in Hwf; by rw Hs in Hwf).
    destruct (buffer r) as [|b0 b]; [done|]. destruct (b0 =? 0x7b).
    + destruct (drainLegacy_returns (set_legacy r)) as (b' & evs & ->).
      unfold well_formed. by rw /= Hs.
    + apply Hlen; [done|]. unfold well_formed. by rw /= Hx.
  - by apply Hlen.
  - unfold chunk_length_block. case_match; [done|].
    assert (expectBinary r = false) as Hx by (unfold well_formed in Hwf; by rw Hs in Hwf).
    case_match; [done|]. by apply blocks_well_formed.
Qed.

(** In whatever state the bytes leave it, the reader has an envelope at
    hand when a binary frame is due, and expects none otherwise. *)
Theorem reader_stays_well_formed r (chunks : list (list Z)) p :
  well_formed r → push_all r chunks = Some p → well_formed (reader p).
Proof.
  assert (∀ r, well_formed r → ∀ p, drain r = Some p → well_formed (reader p)) as Hd.
  { induction r0 as [r0 IH] using drain_ind. intros Hwf q Hq. rw drain_unfold in Hq.
    pose proof (turn_well_formed r0 Hwf) as Ht.
    destruct (turn r0) as [r1 evs|r1 evs|r1 evs]; simplify_eq/=; [done| |done].
    apply fmap_Some in Hq as (q' & Hq' & ->). exact (IH _ _ eq_refl Ht _ Hq'). }
  revert r p. induction chunks as [|c chunks IH]; intros r p Hwf Hp; simpl in Hp; [by simplify_eq|].
  apply bind_Some in Hp as (q & Hq & Hp). apply Hd in Hq; [|done].
  destruct (threw q); [by simplify_eq|]. apply fmap_Some in Hp as (q' & Hq' & ->).
  exact (IH _ _ Hq Hq').
Qed.

(** ** What is written is what is read *)

(** A complete message of a sender: the calls of the writers it makes. *)
Inductive outgoing :=
  | Plain (e : E)
  | Binary (e : E) (data : list Z)
  | Stream (e : E) (chunks : list (list Z)).

Fixpoint write_chunks (chunks : list (list Z)) : option (list Z) :=
  match chunks with
  | [] => Some writeStreamEnd
  | c :: chunks =>
      frame ← writeStreamChunk c; rest ← write_chunks chunks; Some (frame ++ rest)
  end.

Definition write_out (o : outgoing) : option (list Z) :=
  match o with
  | Plain e => writeMessage e None
  | Binary e data => writeMessage e (Some data)
  | Stream e chunks =>
      start ← writeMessage e None; rest ← write_chunks chunks; Some (start ++ rest)
  end.

Fixpoint write_all (os : list outgoing) : option (list Z) :=
  match os with
  | [] => Some []
  | o :: os => bytes ← write_out o; rest ← write_all os; Some (bytes ++ rest)
  end.

(** The contract of the writers: the headers announce what follows, a chunk is
    not empty, and the envelope is not of the sizes (1.9 GB) whose length
    begins with the byte of a brace. *)
Definition announced (o : outgoing) : Prop :=
  let starts e := is_null e = false ∧ Z.of_nat (length (JSON_stringify e)) / 2 ^ 24 ≠ 0x7b in
  match o with
  | Plain e => starts e ∧ header e "transfer-encoding" ≠ Some "chunked" ∧
      header e "content-length" = None
  | Binary e data => starts e ∧ header e "transfer-encoding" ≠ Some "chunked" ∧
      is_Some (header e "content-length")
  | Stream e chunks => starts e ∧ header e "transfer-encoding" = Some "chunked" ∧
      Forall (λ c, c ≠ []) chunks
  end.

(** What the receiver's callbacks are to see. *)
Definition delivered (o : outgoing) : list event :=
  match o with
  | Plain e => [onMessage e None]
  | Binary e data => [onMessage e (Some data)]
  | Stream e chunks => onStreamStart e :: (onStreamChunk <$> chunks) ++ [onStreamEnd]
  end.

Definition idle r : Prop :=
  state r = detect ∧ expectBinary r = false ∧ isLegacy r = false ∧ streamCallbacks r = true.

Lemma writeFrame_Some data frame :
  writeFrame data = Some frame →
  ∃ h0 h1 h2 h3, frame = [h0; h1; h2; h3] ++ data ∧
    h0 = Z.of_nat (length data) / 2 ^ 24 ∧
    ∀ rest, Z.to_nat (readUInt32BE ([h0; h1; h2; h3] ++ rest)) = length data.
Proof.
  unfold writeFrame. intros (h & Hh & [= <-])%bind_Some.
  pose proof (λ rest, read_write_UInt32BE _ _ rest Hh) as Hr.
  unfold writeUInt32BE in Hh. case_match; simplify_eq.
  do 4 eexists. split; [done|]. split; [done|]. intros rest. rw Hr. lia.
Qed.

(** The reader with the frame's length behind it. *)
Definition past_length (s : reader_state) (data rest : list Z) r : IpcFrameReader :=
  set_state s (set_buffer (data ++ rest) (set_pending (length data) r)).

Lemma length_block_frame r data frame rest :
  writeFrame data = Some frame → buffer r = frame ++ rest →
  length_block r =
    if expectBinary r then binary_block (past_length read_binary data rest r)
    else payload_block (past_length read_payload data rest r).
Proof.
  intros (h0 & h1 & h2 & h3 & -> & _ & Hr)%writeFrame_Some Hb.
  unfold length_block, advance. rw /= !Hb /=.
  by rw (Hr (data ++ rest)).
Qed.

Lemma take_drop_length {A} (l k : list A) : take (length l) (l ++ k) = l ∧ drop (length l) (l ++ k) = k.
Proof. by rw take_app_length drop_app_length. Qed.

Lemma enough_data (data rest : list Z) : (length (data ++ rest) <? length data)%nat = false.
Proof. apply Nat.ltb_ge. rw length_app. lia. Qed.

Lemma payload_block_frame s data rest r :
  payload_block (past_length s data rest r) =
    let r' := set_state s (set_buffer rest (set_pending (length data) r)) in
    match JSON_parse data with
    | None => Continues (set_state detect r') [onError]
    | Some envelope =>
        if is_null envelope then Throws r' []
        else if bool_decide (header envelope "transfer-encoding" = Some "chunked") then
          Continues (set_state read_stream_chunk_length (set_envelope (Some envelope) r'))
            (stream_event r' (onStreamStart envelope))
        else match header envelope "content-length" with
        | Some _ =>
            Continues (set_state read_length (set_expect true
              (set_envelope (Some envelope) r'))) []
        | None =>
            Continues (set_state detect (set_expect false r')) [onMessage envelope None]
        end
    end.
Proof.
  unfold payload_block, front, advance. rw /= enough_data.
  by destruct (take_drop_length data rest) as [-> ->].
Qed.

Lemma binary_block_frame s data rest r :
  binary_block (past_length s data rest r) =
    Continues (set_state detect (set_expect false (set_envelope None
        (set_buffer rest (set_pending (length data) r)))))
      match pendingEnvelope r with Some e => [onMessage e (Some data)] | None => [] end.
Proof.
  unfold binary_block, front, advance. rw /= enough_data.
  by destruct (take_drop_length data rest) as [-> ->].
Qed.

Lemma chunk_length_block_frame r data frame rest :
  writeFrame data = Some frame → data ≠ [] → buffer r = frame ++ rest →
  chunk_length_block r =
    Continues (set_state read_stream_chunk_length
        (set_buffer rest (set_pending (length data) r)))
      (stream_event r (onStreamChunk data)).
Proof.
  intros (h0 & h1 & h2 & h3 & -> & _ & Hr)%writeFrame_Some Hne Hb.
  unfold chunk_length_block, advance. rw /= !Hb /= (Hr (data ++ rest)).
  destruct (Nat.eqb_spec (length data) 0) as [Hz|_]; [by apply nil_length_inv in Hz|].
  unfold chunk_block, front, advance. rw /= !drop_0 enough_data.
  by destruct (take_drop_length data rest) as [-> ->].
Qed.

(** Reading the chunks of a stream, up to the terminator. *)
Lemma deliver_chunks chunks frames rest r :
  Forall (λ c, c ≠ []) chunks → write_chunks chunks = Some frames →
  state r = read_stream_chunk_length → expectBinary r = false →
  isLegacy r = false → streamCallbacks r = true →
  buffer r = frames ++ rest →
  ∃ r', idle r' ∧ buffer r' = rest ∧
    drain r = before ((onStreamChunk <$> chunks) ++ [onStreamEnd]) <$> drain r'.
Proof.
  intros Hne. revert frames r.
  induction Hne as [|c chunks Hc _ IH]; intros frames r Hw Hs Hx Hl Hcb Hb; simpl in *.
  - simplify_eq. eexists. rw drain_unfold. unfold turn, chunk_length_block, advance. rw Hs Hb /=.
    unfold stream_event. rw /= Hcb Hb. split; [|split; [|reflexivity]]; by repeat split.
  - apply bind_Some in Hw as (frame & Hf & (frames' & Hw & [= <-])%bind_Some).
    rw -app_assoc in Hb.
    set (r1 := set_state read_stream_chunk_length
      (set_buffer (frames' ++ rest) (set_pending (length c) r))).
    destruct (IH frames' r1) as (r' & Hidle & Hrest & Hd); [done..|].
    exists r'. split; [done|]. split; [done|].
    rw drain_unfold. unfold turn. rw Hs.
    rw (chunk_length_block_frame _ _ _ _ Hf Hc Hb). fold r1.
    rw Hd before_app. unfold stream_event. by rw Hcb.
Qed.

Context `{!JsonLaws E}.

Lemma deliver o bytes rest r :
  announced o → write_out o = Some bytes → idle r → buffer r = bytes ++ rest →
  ∃ r', idle r' ∧ buffer r' = rest ∧ drain r = before (delivered o) <$> drain r'.
Proof.
  intros Ho Hw (Hs & Hx & Hl & Hcb) Hb.
  assert (∀ e more frame, is_null e = false →
    Z.of_nat (length (JSON_stringify e)) / 2 ^ 24 ≠ 0x7b →
    writeFrame (JSON_stringify e) = Some frame → buffer r = frame ++ more →
    turn r = payload_block (past_length read_payload (JSON_stringify e) more
      (set_state read_length r))) as Hstart.
  { intros e more frame He Hlen Hf Hbuf. unfold turn.
    pose proof Hf as (h0 & h1 & h2 & h3 & -> & Hh0 & _)%writeFrame_Some.
    rw Hs {1}Hbuf /=. destruct (Z.eqb_spec h0 0x7b) as [|_]; [congruence|].
    rw (length_block_frame _ _ _ more Hf) //. by rw /= Hx. }
  destruct o as [e|e data|e chunks]; simpl in *.
  - destruct Ho as ([He Hlen] & Hte & Hcl).
    apply bind_Some in Hw as (frame & Hf & [= <-]).
    rw drain_unfold (Hstart e rest frame) // payload_block_frame parse_stringify // /= He.
    rw bool_decide_false // Hcl. eexists. split; [|split; [|reflexivity]]; by repeat split.
  - destruct Ho as ([He Hlen] & Hte & [n Hcl]).
    apply bind_Some in Hw as (frame & Hf & (frame2 & Hf2 & [= <-])%bind_Some).
    rw -app_assoc in Hb.
    rw drain_unfold (Hstart e (frame2 ++ rest) frame) // payload_block_frame parse_stringify // /= He.
    rw bool_decide_false // Hcl before_nil.
    rw drain_unfold. unfold turn. rw /= (length_block_frame _ data frame2 rest) // /=.
    rw binary_block_frame /=. eexists. split; [|split; [|reflexivity]]; by repeat split.
  - destruct Ho as ([He Hlen] & Hte & Hne).
    apply bind_Some in Hw as (start & (frame & Hf & [= <-])%bind_Some & (frames & Hfs & [= <-])%bind_Some).
    rw -app_assoc in Hb.
    rw drain_unfold (Hstart e (frames ++ rest) frame) // payload_block_frame parse_stringify // /= He.
    rw bool_decide_true //.
    match goal with |- context [_ <$> drain ?x] =>
      destruct (deliver_chunks chunks frames rest x) as (r' & Hidle & Hrest & Hd); [done..|]
    end.
    exists r'. split; [done|]. split; [done|]. rw Hd before_app.
    unfold stream_event. by rw /= Hcb.
Qed.

(** C35 — Framing is a round trip for messages whose headers announce their bodies: plain
    envelopes without a body header, envelopes with a content length and a binary frame,
    and chunked streams without an empty chunk, none of an envelope so large (1.9 GB) that
    its length begins with the byte of a brace. A sequence of them, written one after the
    other and delivered in any pieces whatsoever, reaches the callbacks of a fresh reader
    exactly as sent, in order, and leaves the reader idle with nothing buffered. *)
Theorem framing_round_trip (os : list outgoing) bytes (pieces : list (list Z)) :
  Forall announced os → write_all os = Some bytes → concat pieces = bytes →
  ∃ r', push_all (new_reader true) pieces =
      Some {| reader := r'; events := concat (delivered <$> os); threw := false |} ∧
    idle r' ∧ buffer r' = [].
Proof.
  intros Hos Hw Hp.
  assert (∀ r, idle r → buffer r = bytes → ∃ r', idle r' ∧ buffer r' = [] ∧
    drain r = Some {| reader := r'; events := concat (delivered <$> os); threw := false |})
    as Hdrain.
  { clear Hp. revert bytes Hw. induction Hos as [|o os Ho _ IH]; intros bytes Hw r Hr Hb; simpl in *.
    - injection Hw as <-. exists r. split; [done|]. split; [done|].
      rw drain_unfold. unfold turn. destruct Hr as (-> & _). by rw Hb.
    - apply bind_Some in Hw as (b1 & Hw1 & (b2 & Hw2 & [= <-])%bind_Some).
      destruct (deliver o b1 b2 r) as (r1 & Hr1 & Hb1 & Hd); [done..|].
      destruct (IH _ Hw2 r1) as (r2 & Hr2 & Hb2 & Hd2); [done..|].
      exists r2. split; [done|]. split; [done|]. by rw Hd Hd2. }
  destruct (Hdrain (set_buffer bytes (new_reader true))) as (r' & Hr & Hb & Hd); [done..|].
  exists r'. split; [|done]. apply push_pieces; [done| |by apply Hr|done].
  unfold push. by rw Hp.
Qed.

(** ** Streams end at an empty chunk *)

(** A chunk of no bytes written in a stream is its terminator: the receiver
    sees the stream end there, and takes the frames of the chunks behind it for
    messages of their own. *)
Theorem empty_chunk_ends_the_stream e before_it behind bytes rest r :
  announced (Stream e before_it) → 
  write_out (Stream e (before_it ++ [] :: behind)) = Some bytes →
  idle r → buffer r = bytes ++ rest →
  ∃ tail r', write_chunks behind = Some tail ∧ idle r' ∧ buffer r' = tail ++ rest ∧
    drain r = before (delivered (Stream e before_it)) <$> drain r'.
Proof.
  intros Ho Hw Hr Hb.
  assert (∃ b1 tail, write_out (Stream e before_it) = Some b1 ∧
    write_chunks behind = Some tail ∧ bytes = b1 ++ tail) as (b1 & tail & Hw1 & Ht & ->).
  { simpl in *. apply bind_Some in Hw as (start & -> & (frames & Hfs & [= <-])%bind_Some).
    clear Ho Hr Hb. revert frames Hfs.
    induction before_it as [|c cs IH]; intros frames Hfs; simpl in *.
    - apply bind_Some in Hfs as (tail & Ht & [= <-]).
      exists (start ++ writeStreamEnd), tail. by rw -!app_assoc.
    - apply bind_Some in Hfs as (fr & -> & (frames' & Hfs & [= <-])%bind_Some). simpl.
      destruct (IH _ Hfs) as (b1 & tail & Hb1 & Ht & Heq).
      apply bind_Some in Hb1 as (f1 & -> & [= <-]). simpl.
      exists (start ++ fr ++ f1), tail. split; [done|]. split; [done|].
      rw -app_assoc in Heq. apply app_inv_head in Heq as ->. by rw -!app_assoc. }
  rw -app_assoc in Hb. destruct (deliver _ _ _ r Ho Hw1 Hr Hb) as (r' & Hr' & Hb' & Hd).
  exists tail, r'. done.
Qed.

(** ** Legacy connections *)

Lemma index_of_newline_line b rest :
  0x0a ∉ b → index_of_newline (b ++ 0x0a :: rest) = Some (length b).
Proof.
  intros Hb. unfold index_of_newline.
  assert (list_find (λ x, x = 0x0a) (b ++ 0x0a :: rest) = Some (length b, 0x0a)) as ->; [|done].
  apply list_find_Some. split; [by rw lookup_app_r // Nat.sub_diag|]. split; [done|].
  intros j y Hj Hlt ->. apply Hb. rw lookup_app_l // in Hj. by eapply list_elem_of_lookup_2.
Qed.

Lemma legacy_loop_line fuel b rest :
  0x0a ∉ b →
  legacy_loop (S fuel) (b ++ 0x0a :: rest) =
    let evs := if blank_line b then []
               else match JSON_parse b with
                    | Some e => [onMessage e None] | None => [onError] end in
    '(b', evs') ← legacy_loop fuel rest; Some (b', evs ++ evs').
Proof.
  intros Hb. rw legacy_loop_S. rw index_of_newline_line // take_app_length.
  assert (drop (S (length b)) (b ++ 0x0a :: rest) = rest) as ->; [|done].
  by rw -Nat.add_1_r -drop_drop drop_app_length.
Qed.

Definition legacy_text (es : list E) : list Z := concat (writeLegacyMessage <$> es).

Lemma legacy_text_cons e es : legacy_text (e :: es) = JSON_stringify e ++ 0x0a :: legacy_text es.
Proof. unfold legacy_text, writeLegacyMessage. by rw fmap_cons /= -app_assoc. Qed.

Lemma legacy_loop_messages fuel es :
  Forall (λ e, is_null e = false) es → (length (legacy_text es) < fuel)%nat →
  legacy_loop fuel (legacy_text es) = Some ([], (λ e, onMessage e None) <$> es).
Proof.
  intros Hes. revert fuel. induction Hes as [|e es He _ IH]; intros fuel Hf.
  - by destruct fuel; [simpl in Hf; lia|].
  - rw legacy_text_cons in Hf |- *. rw length_app /= in Hf. destruct fuel as [|fuel]; [lia|].
    rw legacy_loop_line; [|apply stringify_one_line].
    cbv zeta. rw stringify_not_blank // parse_stringify // IH; [done|lia].
Qed.

(** A piece that begins with a brace is a run of lines. *)
Lemma drain_legacy r rest b evs :
  state r = detect → buffer r = 0x7b :: rest →
  legacy_loop (S (length (buffer r))) (buffer r) = Some (b, evs) →
  drain r = Some {| reader := set_buffer b (set_legacy r); events := evs; threw := false |}.
Proof.
  intros Hs Hb Hl. rw drain_unfold. unfold turn. rw Hs {1}Hb.
  change (0x7b =? 0x7b) with true. cbv iota. unfold drainLegacy.
  change (buffer (set_legacy r)) with (buffer r). by rw Hl.
Qed.

Lemma legacy_message_brace e rest :
  is_null e = false → ∃ rest', JSON_stringify e ++ rest = 0x7b :: rest'.
Proof. intros He. destruct (stringify_brace e He) as (b & r & ->). simpl. eauto. Qed.

Lemma push_legacy es r :
  es ≠ [] → Forall (λ e, is_null e = false) es → state r = detect → buffer r = [] →
  push r (legacy_text es) =
    Some {| reader := set_legacy r; events := (λ e, onMessage e None) <$> es; threw := false |}.
Proof.
  intros Hne Hes Hs Hb. unfold push. rw Hb app_nil_l.
  assert (∃ rest, legacy_text es = 0x7b :: rest) as [rest Hrest].
  { destruct Hes as [|e es He _]; [done|]. rw legacy_text_cons. by apply legacy_message_brace. }
  rw (drain_legacy _ rest [] ((λ e, onMessage e None) <$> es)) //.
  - do 2 f_equal. destruct r. unfold set_buffer, set_legacy. simpl in *. by rw Hb.
  - apply legacy_loop_messages; [done|simpl; lia].
Qed.

(** A first byte of a line feed and a second of a brace make a length of more
    than the buffer will ever hold. *)
Lemma length_of_blank_line (b : Z) (rest : list Z) :
  0 ≤ b < 256 → Forall (λ x, 0 ≤ x < 256) rest →
  175833088 ≤ Z.of_nat (Z.to_nat (readUInt32BE (0x0a :: 0x7b :: b :: rest ++ [0x0a]))).
Proof.
  intros Hb Hrest. assert (∃ c more, rest ++ [0x0a] = c :: more ∧ 0 ≤ c) as (c & more & -> & Hc).
  { destruct Hrest as [|c rest Hc _]; simpl; do 2 eexists; (split; [done|lia]). }
  simpl. lia.
Qed.

(** The legacy mode of a connection is not kept: a line-delimited
    connection whose pieces each begin with a brace is read like the lines
    themselves, and so is a blank line inside a piece, but a piece that begins
    with the blank line is read as a frame; the reader then waits for more than
    a hundred and seventy million bytes and delivers nothing. *)
Theorem legacy_mode_is_not_kept cb e1 e2 :
  is_null e1 = false → is_null e2 = false →
  Z.of_nat (length (JSON_stringify e2)) < 175833088 →
  (∃ r, push (new_reader cb) (writeLegacyMessage e1 ++ [0x0a] ++ writeLegacyMessage e2) =
    Some {| reader := r; events := [onMessage e1 None; onMessage e2 None]; threw := false |} ∧
    isLegacy r = true) ∧
  (∃ r, push_all (new_reader cb) [writeLegacyMessage e1; [0x0a] ++ writeLegacyMessage e2] =
    Some {| reader := r; events := [onMessage e1 None]; threw := false |} ∧
    isLegacy r = true ∧ state r = read_payload ∧ 175833088 ≤ Z.of_nat (pendingLength r)).
Proof.
  intros He1 He2 Hlen.
  assert (∀ e, writeLegacyMessage e = legacy_text [e]) as Ht
    by (intros e; unfold legacy_text; by rw /= app_nil_r).
  split.
  - destruct (legacy_message_brace e1 (0x0a :: 0x0a :: writeLegacyMessage e2) He1) as [rest Hb].
    exists (set_legacy (new_reader cb)). split; [|done]. unfold push.
    rw (drain_legacy _ rest [] [onMessage e1 None; onMessage e2 None]) //.
    { unfold writeLegacyMessage at 1. by rw -app_assoc. }
    unfold writeLegacyMessage at 2. rw /= -app_assoc /= legacy_loop_line; [|apply stringify_one_line].
    cbv zeta. rw stringify_not_blank // parse_stringify //.
    rw !length_app Nat.add_comm /=.
    rw (legacy_loop_line _ []); [|by apply not_elem_of_nil].
    change (JSON_stringify e2 ++ [0x0a]) with (writeLegacyMessage e2).
    cbv zeta. rw blank_nothing Ht legacy_loop_messages; [done|by repeat constructor|lia].
  - rw {1}Ht. cbn [push_all]. rw push_legacy //; [|by repeat constructor].
    cbn [mbind option_bind threw reader events].
    destruct (stringify_brace e2 He2) as (b & rest & Hb2).
    pose proof (stringify_bytes e2) as Hbytes. rw Hb2 in Hbytes.
    apply Forall_cons in Hbytes as [_ [Hb Hrest]%Forall_cons].
    pose proof (length_of_blank_line b rest Hb Hrest) as Hlong.
    unfold writeLegacyMessage. rw Hb2 in Hlen |- *. simpl in Hlen.
    set (n := Z.to_nat (readUInt32BE (0x0a :: 0x7b :: b :: rest ++ [0x0a]))) in *.
    set (r1 := set_buffer (0x0a :: (0x7b :: b :: rest) ++ [0x0a]) (set_legacy (new_reader cb))).
    set (r2 := advance 4 (set_pending n (set_state read_length r1))).
    exists (set_state read_payload r2). split; [|done].
    unfold push. rw drain_unfold. change (set_buffer _ _) with r1.
    assert (turn r1 = Returns (set_state read_payload r2) []) as ->; [|done].
    unfold turn. change (state r1) with detect. change (buffer r1) with (0x0a :: 0x7b :: b :: rest ++ [0x0a]).
    change (0x0a =? 0x7b) with false. cbv iota. unfold length_block.
    change (buffer (set_state read_length r1)) with (0x0a :: 0x7b :: b :: rest ++ [0x0a]).
    rw (proj2 (Nat.ltb_ge _ 4)); [|simpl; rw length_app /=; lia].
    fold n r2. change (expectBinary r2) with false. cbv iota.
    unfold payload_block. change (pendingLength (set_state read_payload r2)) with n.
    rw (proj2 (Nat.ltb_lt _ n)) //. simpl. rw length_drop length_app /=. lia.
Qed.

(** A connection of lines is a round trip too, as long as every piece
    holds whole lines. *)
Theorem legacy_round_trip cb (pieces : list (list E)) :
  Forall (λ es, es ≠ [] ∧ Forall (λ e, is_null e = false) es) pieces →
  ∃ r', push_all (new_reader cb) (legacy_text <$> pieces) =
    Some {| reader := r'; events := (λ e, onMessage e None) <$> concat pieces; threw := false |} ∧
    buffer r' = [].
Proof.
  intros Hp.
  assert (∀ r, state r = detect → buffer r = [] → ∃ r', push_all r (legacy_text <$> pieces) =
    Some {| reader := r'; events := (λ e, onMessage e None) <$> concat pieces; threw := false |} ∧
    buffer r' = []) as Hgo; [|by apply Hgo].
  induction Hp as [|es pieces [Hne Hes] _ IH]; intros r Hs Hb; [by exists r|].
  rw fmap_cons. cbn [push_all]. rw push_legacy //. cbn [mbind option_bind threw reader events].
  destruct (IH (set_legacy r)) as (r' & -> & Hr'); [done..|].
  exists r'. split; [|done]. unfold before. by rw /= fmap_app.
Qed.

Lemma legacy_loop_no_line fuel b : 0x0a ∉ b → legacy_loop (S fuel) b = Some (b, []).
Proof.
  intros Hb. rw legacy_loop_S. destruct (index_of_newline b) as [i|] eqn:Hi; [|done].
  apply index_of_newline_Some in Hi as (rest & Heq & _). destruct Hb. rw Heq. set_solver.
Qed.

(** A frame that holds the JSON text [null] takes the reader out of step:
    the exception leaves [push] after the payload was consumed and before the
    state was reset, so that the length of the next frame is read as a payload
    and its JSON text as the beginning of a legacy line that never ends. *)
Theorem null_frame_desynchronizes v text frame e h json r :
  JSON_parse text = Some v → is_null v = true → length text = 4%nat →
  writeFrame text = Some frame → idle r → buffer r = [] →
  is_null e = false → length h = 4%nat → JSON_parse h = None →
  writeMessage e None = Some (h ++ json) →
  ∃ r1 r2, push r frame = Some {| reader := r1; events := []; threw := true |} ∧
    push r1 (h ++ json) = Some {| reader := r2; events := [onError]; threw := false |} ∧
    isLegacy r2 = true ∧ buffer r2 = JSON_stringify e.
Proof.
  intros Hv Hnull Htext Hf (Hs & Hx & Hl & Hcb) Hb He Hh Hparse Hw.
  assert (json = JSON_stringify e) as ->.
  { simpl in Hw. apply bind_Some in Hw as (fr & (h0 & h1 & h2 & h3 & -> & _)%writeFrame_Some & Hw).
    by destruct h as [|? [|? [|? [|? [|]]]]]; simplify_eq/=. }
  pose proof Hf as (h0 & h1 & h2 & h3 & Heq & Hh0 & _)%writeFrame_Some.
  rw Htext in Hh0. change (Z.of_nat 4 / 2 ^ 24) with 0 in Hh0.
  set (r0 := set_buffer frame r).
  set (r1 := set_state read_payload (set_buffer [] (set_pending (length text) (set_state read_length r0)))).
  set (r2 := set_state detect (set_buffer (JSON_stringify e) r1)).
  exists r1, (set_legacy r2). split.
  - unfold push. rw Hb app_nil_l drain_unfold. fold r0.
    assert (turn r0 = Throws r1 []) as ->; [|done].
    assert (buffer r0 = frame ++ []) as Hb0 by (by rw app_nil_r).
    unfold turn. change (state r0) with (state r). rw Hs. rw {1}Hb0 Heq /= Hh0.
    change (0 =? 0x7b) with false. cbv iota.
    rw (length_block_frame _ text frame []) //. rw /= Hx payload_block_frame Hv. cbv zeta.
    by rw Hnull.
  - unfold push. change (set_buffer _ r1) with (set_buffer (h ++ JSON_stringify e) r1).
    rw drain_unfold.
    assert (turn (set_buffer (h ++ JSON_stringify e) r1) = Continues r2 [onError]) as ->.
    { change (turn _) with (payload_block (set_buffer (h ++ JSON_stringify e) r1)).
      unfold payload_block, front, advance.
      change (pendingLength _) with (length text). rw Htext -Hh /= enough_data.
      by destruct (take_drop_length h (JSON_stringify e)) as [-> ->]; rw Hparse. }
    destruct (legacy_message_brace e [] He) as [rest Hrest]. rw app_nil_r in Hrest.
    rw (drain_legacy r2 rest (JSON_stringify e) []) //.
    apply legacy_loop_no_line, stringify_one_line.
Qed.
End framing.

(** ** A small runtime

    Five values and their texts, to evaluate the reader on. *)
Inductive sample := Null | Brief | Sized | Chunked.

Definition sample_text (e : sample) : list Z :=
  match e with
  | Null => [110; 117; 108; 108]
  | Brief => [0x7b; 0x7d]
  | Sized => [0x7b; 49; 0x7d]
  | Chunked => [0x7b; 50; 0x7d]
  end.

#[export] Instance sample_runtime : JsonRuntime sample := {|
  JSON_stringify := sample_text;
  JSON_parse b :=
    if bool_decide (b = sample_text Null) then Some Null
    else if bool_decide (b = sample_text Brief) then Some Brief
    else if bool_decide (b = sample_text Sized) then Some Sized
    else if bool_decide (b = sample_text Chunked) then Some Chunked
    else None;
  is_null e := match e with Null => true | _ => false end;
  header e name :=
    match e with
    | Sized => if bool_decide (name = "content-length") then Some "3" else None
    | Chunked => if bool_decide (name = "transfer-encoding") then Some "chunked" else None
    | _ => None
    end;
  blank_line b := forallb (λ x, x =? 32) b;
|}.

#[export] Instance sample_laws : JsonLaws sample.
Proof.
  split.
  - intros [] He; try discriminate; vm_compute; reflexivity.
  - intros [] He; try discriminate; simpl; do 2 eexists; reflexivity.
  - intros []; simpl; repeat constructor; lia.
  - intros []; simpl; set_solver.
  - intros [] He; try discriminate; reflexivity.
  - done.
Qed.

Definition sample_sent : list (outgoing (E := sample)) :=
  [Plain Brief; Binary Sized [1; 2; 3]; Stream Chunked [[7]; [0x7b; 8]]; Plain Brief].

Lemma sample_announced : Forall announced sample_sent.
Proof. repeat constructor; by try (eexists; reflexivity). Qed.

Lemma framing_round_trip_witness :
  ∃ r', push_all (new_reader true)
      [[0; 0; 0]; [2; 0x7b; 0x7d; 0; 0; 0; 3; 0x7b; 49]; [0x7d; 0; 0; 0; 3; 1; 2; 3; 0; 0; 0; 3; 0x7b; 50; 0x7d; 0; 0];
       [0; 1; 7; 0; 0; 0; 2; 0x7b]; [8; 0; 0; 0; 0; 0; 0; 0; 2; 0x7b; 0x7d]] =
    Some {| reader := r'; threw := false;
      events := [onMessage Brief None; onMessage Sized (Some [1; 2; 3]); onStreamStart Chunked;
        onStreamChunk [7]; onStreamChunk [0x7b; 8]; onStreamEnd; onMessage Brief None] |} ∧
    idle r' ∧ buffer r' = [].
Proof.
  eapply (framing_round_trip sample_sent);
    [exact sample_announced|vm_compute; reflexivity|reflexivity].
Defined.

Lemma framed_chunking_irrelevant_witness :
  push_all (E := sample) (new_reader true) [[0; 0]; [0; 1]; [9; 0; 0]] =
    Some {| reader := set_state read_length (set_pending 1 (set_buffer [0; 0] (new_reader true)));
            events := [onError]; threw := false |}.
Proof.
  apply framed_chunking_irrelevant; [reflexivity|vm_compute; reflexivity|reflexivity|reflexivity].
Defined.

Lemma empty_chunk_ends_the_stream_witness :
  let bytes := [0; 0; 0; 3; 0x7b; 50; 0x7d; 0; 0; 0; 1; 7; 0; 0; 0; 0; 0; 0; 0; 1; 8; 0; 0; 0; 0] in
  ∃ tail r', write_chunks [[8]] = Some tail ∧ idle r' ∧ buffer r' = tail ++ [] ∧
    drain (set_buffer bytes (new_reader true)) =
      before [onStreamStart Chunked; onStreamChunk [7]; onStreamEnd] <$> drain r'.
Proof.
  intros bytes. apply (empty_chunk_ends_the_stream Chunked [[7]] [[8]] bytes []).
  - split_and!; [reflexivity|vm_compute; discriminate|reflexivity|repeat constructor; discriminate].
  - vm_compute. reflexivity.
  - repeat split.
  - vm_compute. reflexivity.
Defined.

Lemma legacy_mode_is_not_kept_witness :
  (∃ r, push (new_reader true) (writeLegacyMessage Brief ++ [0x0a] ++ writeLegacyMessage Brief) =
    Some {| reader := r; events := [onMessage Brief None; onMessage Brief None]; threw := false |} ∧
    isLegacy r = true) ∧
  (∃ r, push_all (new_reader true) [writeLegacyMessage Brief; [0x0a] ++ writeLegacyMessage Brief] =
    Some {| reader := r; events := [onMessage Brief None]; threw := false |} ∧
    isLegacy r = true ∧ state r = read_payload ∧ 175833088 ≤ Z.of_nat (pendingLength r)).
Proof. apply (legacy_mode_is_not_kept true Brief Brief); [reflexivity|reflexivity|vm_compute; reflexivity]. Defined.

Lemma legacy_round_trip_witness :
  ∃ r', push_all (new_reader false) (legacy_text <$> [[Brief; Sized]; [Brief]]) =
    Some {| reader := r'; events := (λ e, onMessage e None) <$> [Brief; Sized; Brief]; threw := false |} ∧
    buffer r' = [].
Proof.
  apply (legacy_round_trip false [[Brief; Sized]; [Brief]]).
  repeat constructor; discriminate.
Defined.

Lemma null_frame_desynchronizes_witness :
  ∃ r1 r2, push (new_reader true) [0; 0; 0; 4; 110; 117; 108; 108] =
      Some {| reader := r1; events := []; threw := true |} ∧
    push r1 ([0; 0; 0; 2] ++ [0x7b; 0x7d]) = Some {| reader := r2; events := [onError]; threw := false |} ∧
    isLegacy r2 = true ∧ buffer r2 = JSON_stringify Brief.
Proof.
  apply (null_frame_desynchronizes Null (sample_text Null) [0; 0; 0; 4; 110; 117; 108; 108]
    Brief [0; 0; 0; 2] [0x7b; 0x7d] (new_reader true));
    [reflexivity|reflexivity|reflexivity|reflexivity|repeat split|reflexivity..].
Defined.

Lemma reader_stays_well_formed_witness :
  well_formed (E := sample) (set_buffer [0] (set_envelope (Some Sized) (set_expect true
    (set_state read_length (set_pending 3 (new_reader true)))))).
Proof.
  apply (reader_stays_well_formed (new_reader true) [[0; 0; 0; 3; 0x7b; 49]; [0x7d; 0]]
    {| reader := set_buffer [0] (set_envelope (Some Sized) (set_expect true
         (set_state read_length (set_pending 3 (new_reader true)))));
       events := []; threw := false |}); [reflexivity|vm_compute; reflexivity].
Defined.
