(* ===== verification/TrustRules.v ===== *)
(** * Risk levels and the cache of trust rules

    [gateway/src/risk/risk-types.ts] and [gateway/src/risk/trust-rule-cache.ts]:
    the order on risk levels, and the lookup of the rule that sets the risk of a
    command — the literal text, the text without the path of its program, then
    ever shorter word prefixes, each also behind [action:]. *)

From S2P Require Import Prelude JsMap JsText.

(** ** Risk levels *)

Inductive Risk := low | medium | high | unknown.

#[export] Instance Risk_eq_dec : EqDecision Risk.
Proof. solve_decision. Defined.

Inductive RiskLevel := Low | Medium | High.

Local Open Scope litt_scope.
Local Open Scope Z_scope.

Definition riskOrd (r : Risk) : Z :=
  match r with low => 0 | medium => 1 | unknown => 2 | high => 3 end.

(** [riskOrd(a) >= riskOrd(b)] and [riskOrd(a) > riskOrd(b)] on values that may
    be [undefined]: such a comparison is false. *)
Definition ord_ge (a b : option Risk) : bool :=
  match a, b with Some a, Some b => riskOrd b <=? riskOrd a | _, _ => false end.

Definition ord_gt (a b : option Risk) : bool :=
  match a, b with Some a, Some b => riskOrd b <? riskOrd a | _, _ => false end.

Definition maxRisk (a b : option Risk) : option Risk := if ord_ge a b then a else b.

Definition escalateOne (r : Risk) : Risk :=
  match r with low => medium | medium => high | high => high | unknown => unknown end.

Definition riskToRiskLevel (r : Risk) : RiskLevel :=
  match r with low => Low | medium => Medium | high => High | unknown => Medium end.

(** [r] is at least [s]. *)
Definition at_least (r s : option Risk) : Prop := ord_ge r s = true.

Lemma at_least_spec r s : at_least (Some r) (Some s) ↔ riskOrd s <= riskOrd r.
Proof. apply Z.leb_le. Qed.

Lemma at_least_refl r : at_least (Some r) (Some r).
Proof. by apply at_least_spec. Qed.

Lemma at_least_trans r s t : at_least r s → at_least s t → at_least r t.
Proof.
  destruct r as [r|], s as [s|], t as [t|]; try done. rw !at_least_spec. lia.
Qed.

Lemma at_least_low r : at_least (Some r) (Some low).
Proof. by destruct r. Qed.

Lemma at_least_high r : at_least (Some r) (Some high) → r = high.
Proof. by destruct r. Qed.

Lemma riskOrd_inj r s : riskOrd r = riskOrd s → r = s.
Proof. by destruct r, s. Qed.

Lemma maxRisk_spec r s :
  ∃ t, maxRisk (Some r) (Some s) = Some t ∧ (t = r ∨ t = s) ∧
    at_least (Some t) (Some r) ∧ at_least (Some t) (Some s).
Proof. destruct r, s; eexists; (split; [reflexivity|]); (split; [auto|done]). Qed.

Lemma escalateOne_spec r : at_least (Some (escalateOne r)) (Some r).
Proof. by destruct r. Qed.

(** ** Rules *)

Inductive rule_origin := default_ | user_defined.

#[export] Instance rule_origin_eq_dec : EqDecision rule_origin.
Proof. solve_decision. Defined.

Record TrustRule := {
  rule_tool : string;
  pattern : string;
  rule_risk : Risk;
  description : string;
  origin : rule_origin;
  userModified : bool;
  deleted : bool;
  scope : option string;
}.

(** [isScopeMatch(scope, cwd)] *)
Definition with_slash (dir : string) : string :=
  if ends_with "/" dir then dir else String.append dir "/".

Definition isScopeMatch (scope cwd : option string) : bool :=
  match scope, cwd with
  | Some scope, Some cwd =>
      if bool_decide (scope = EmptyString) || bool_decide (scope = "everywhere"%string) then true
      else if bool_decide (cwd = EmptyString) then true
      else
        let dir := match before_suffix "/*" scope with Some dir => dir | None => scope end in
        bool_decide (with_slash cwd = with_slash dir) || starts_with (with_slash dir) (with_slash cwd)
  | _, _ => true
  end.

(** The cache: per tool, the rules by pattern. *)
Notation ToolRules := (jsmap string TrustRule).
Notation TrustRuleCache := (jsmap string ToolRules).

(** [this.store.listActive()] *)
Definition listActive (rows : list TrustRule) : list TrustRule :=
  filter (λ r, deleted r = false) rows.

Definition add_rule (rules : TrustRuleCache) (r : TrustRule) : TrustRuleCache :=
  <[rule_tool r := <[pattern r := r]> (rules !! rule_tool r otherwise ∅)]> rules.

Definition refresh (rows : list TrustRule) : TrustRuleCache :=
  foldl add_rule ∅ (listActive rows).

(** ** Lookup *)

Definition isUserRule (r : option TrustRule) : bool :=
  match r with
  | Some r => userModified r || bool_decide (origin r = user_defined)
  | None => false
  end.

(** [rule && scopeMatches(rule) ? rule : undefined] *)
Definition in_scope (cwd : option string) (r : option TrustRule) : option TrustRule :=
  match r with
  | Some r => if isScopeMatch (scope r) cwd then Some r else None
  | None => None
  end.

Definition lookup_key (toolMap : ToolRules) (cwd : option string) (key : string) : option TrustRule :=
  let litOk := in_scope cwd (toolMap !! key) in
  let actOk := in_scope cwd (toolMap !! String.append "action:" key) in
  if isUserRule litOk then litOk
  else if isUserRule actOk then actOk
  else match litOk with Some r => Some r | None => actOk end.

(** [command.slice(command.indexOf(c))], or nothing. *)
Fixpoint from_char (c : ascii) (s : string) : string :=
  match s with
  | EmptyString => EmptyString
  | String a s' => if decide (a = c) then s else from_char c s'
  end.

Definition stripPath (command : string) : string :=
  match after_last "/" (before_char " " command) with
  | Some binary => String.append binary (from_char " " command)
  | None => command
  end.

(** The first result of a search. *)
Fixpoint first_some {A B} (f : A → option B) (l : list A) : option B :=
  match l with
  | [] => None
  | a :: l => match f a with Some b => Some b | None => first_some f l end
  end.

(** The proper word prefixes, longest first. *)
Definition word_prefixes (command : string) : list string :=
  let parts := split_spaces command in
  (λ i, join_spaces (take i parts)) <$> reverse (seq 1 (length parts - 1)).

Definition findBaseRisk (rules : TrustRuleCache) (tool command : string) (cwd : option string)
    : option TrustRule :=
  match rules !! tool with
  | None => None
  | Some toolMap =>
      match lookup_key toolMap cwd command with
      | Some r => Some r
      | None =>
          let stripped := stripPath command in
          match (if bool_decide (stripped ≠ command) then lookup_key toolMap cwd stripped else None) with
          | Some r => Some r
          | None => first_some (lookup_key toolMap cwd) (word_prefixes stripped)
          end
      end
  end.

Definition findToolOverride (rules : TrustRuleCache) (tool pat : string) (cwd : option string)
    : option TrustRule :=
  match rules !! tool with
  | None => None
  | Some toolMap =>
      first_some (λ key, in_scope cwd (toolMap !! key))
        [pat; String.append tool (String.append ":" pat)]
  end.

Definition getAllForTool (rules : TrustRuleCache) (tool : string) : list TrustRule :=
  match rules !! tool with None => [] | Some toolMap => values toolMap end.

Definition sample_rule (pat : string) (r : Risk) (o : rule_origin) (sc : option string) : TrustRule := {|
  rule_tool := "bash"; pattern := pat; rule_risk := r; description := "sample";
  origin := o; userModified := false; deleted := false; scope := sc |}.

Example lookup_samples :
  let rules := refresh [sample_rule "git" medium default_ None; sample_rule "action:git push" low user_defined None;
    sample_rule "rm" high default_ None; sample_rule "action:rm" low user_defined (Some "/tmp/*")] in
  (λ c, rule_risk <$> findBaseRisk rules "bash" c (Some "/tmp/a")) <$>
    ["git"; "git push -f"; "/usr/bin/git  push"; "git stash"; "rm x"; "ls"]
  = [Some medium; Some low; Some medium; Some medium; Some low; None] ∧
  rule_risk <$> findBaseRisk rules "bash" "rm x" (Some "/tmpa") = Some high.
Proof. by vm_compute. Qed.

(** ** What a lookup finds *)

Lemma first_some_Some {A B} (f : A → option B) l b :
  first_some f l = Some b → ∃ a, a ∈ l ∧ f a = Some b.
Proof.
  induction l as [|a l IH]; simpl; [done|]. destruct (f a) eqn:Hf.
  - intros [= <-]. exists a. split; [by left|done].
  - intros (x & Hx & ?)%IH. exists x. split; [by right|done].
Qed.

Lemma first_some_hit {A B} (f : A → option B) l a : first_some f l = None → a ∈ l → f a = None.
Proof.
  induction l as [|x l IH]; simpl; [by intros _ ?%not_elem_of_nil|].
  destruct (f x) eqn:Hf; [done|]. intros Hl [->|Ha]%elem_of_cons; [done|by apply IH].
Qed.

Lemma first_some_app {A B} (f : A → option B) l k :
  first_some f (l ++ k) = match first_some f l with Some b => Some b | None => first_some f k end.
Proof. induction l as [|a l IH]; simpl; [done|]. by destruct (f a). Qed.

Lemma first_some_None {A B} (f : A → option B) l :
  (∀ a, a ∈ l → f a = None) → first_some f l = None.
Proof.
  induction l as [|a l IH]; simpl; [done|]. intros Hf. rw Hf; [|by left].
  apply IH. intros x Hx. apply Hf. by right.
Qed.

Lemma in_scope_Some cwd o r : in_scope cwd o = Some r → o = Some r ∧ isScopeMatch (scope r) cwd = true.
Proof. unfold in_scope. destruct o as [x|]; [|done]. case_match; [|done]. by intros [= <-]. Qed.

Lemma lookup_key_Some m cwd key r : lookup_key m cwd key = Some r →
  isScopeMatch (scope r) cwd = true ∧ (m !! key = Some r ∨ m !! String.append "action:" key = Some r).
Proof.
  unfold lookup_key. intros Hr.
  assert (in_scope cwd (m !! key) = Some r ∨ in_scope cwd (m !! String.append "action:" key) = Some r)
    as [Hs|Hs]; [by repeat case_match; auto| |]; apply in_scope_Some in Hs; tauto.
Qed.

(** The rules the cache holds: the active rows, under their tool and pattern. *)
Definition held (rows : list TrustRule) (rules : TrustRuleCache) : Prop :=
  ∀ t m p r, rules !! t = Some m → m !! p = Some r →
    r ∈ rows ∧ deleted r = false ∧ rule_tool r = t ∧ pattern r = p.

Lemma held_add rows rules r :
  held rows rules → r ∈ rows → deleted r = false → held rows (add_rule rules r).
Proof.
  intros Hh Hr Hd t m p x. unfold add_rule. rw lookup_insert. case_decide as Ht.
  - intros [= <-]. rw lookup_insert. case_decide as Hp; [by intros [= <-]|].
    destruct (rules !! rule_tool r) as [m'|] eqn:Hm; [|by rw lookup_empty].
    intros Hx. rw -Ht. by eapply Hh.
  - apply Hh.
Qed.

Lemma held_refresh rows : held rows (refresh rows).
Proof.
  unfold refresh, listActive.
  assert (∀ l rules, (∀ r, r ∈ l → r ∈ rows ∧ deleted r = false) → held rows rules →
    held rows (foldl add_rule rules l)) as H.
  { induction l as [|r l IH]; intros rules Hl Hh; simpl; [done|].
    apply IH; [intros x Hx; apply Hl; by right|].
    destruct (Hl r ltac:(by left)). by apply held_add. }
  apply H; [|by intros t m p r; rewrite lookup_empty].
  intros r [Hd Hr]%list_elem_of_filter. done.
Qed.

(** The keys a command is looked up by. *)
Definition candidates (command : string) : list string :=
  command :: stripPath command :: word_prefixes (stripPath command).

Lemma found_key rules tool command cwd r :
  findBaseRisk rules tool command cwd = Some r →
  ∃ m key, rules !! tool = Some m ∧ key ∈ candidates command ∧ lookup_key m cwd key = Some r.
Proof.
  unfold findBaseRisk. destruct (rules !! tool) as [m|]; [|done]. intros Hr. exists m. unfold candidates.
  destruct (lookup_key m cwd command) eqn:H1.
  { simplify_eq. exists command. split; [done|]. split; [by left|done]. }
  case_bool_decide; [destruct (lookup_key m cwd (stripPath command)) eqn:H2|].
  - simplify_eq. exists (stripPath command). split; [done|]. split; [by right; left|done].
  - apply first_some_Some in Hr as (a & Ha & ?). exists a. split; [done|]. split; [by right; right|done].
  - apply first_some_Some in Hr as (a & Ha & ?). exists a. split; [done|]. split; [by right; right|done].
Qed.

Lemma found_rule_in rows tool command cwd r :
  findBaseRisk (refresh rows) tool command cwd = Some r → r ∈ rows.
Proof.
  intros (m & key & Hm & _ & [_ [Hl|Hl]]%lookup_key_Some)%found_key;
    by apply (held_refresh rows _ _ _ _ Hm) in Hl as (? & _).
Qed.

(** A rule that is found applies: it is one of the active rows of the tool,
    the working directory lies in its scope, and its pattern is the command, the
    command without the path of its program or a word prefix of it, alone or
    behind [action:]. *)
Theorem found_rule_applies rows tool command cwd r :
  findBaseRisk (refresh rows) tool command cwd = Some r →
  r ∈ rows ∧ deleted r = false ∧ rule_tool r = tool ∧ isScopeMatch (scope r) cwd = true ∧
  ∃ key, key ∈ candidates command ∧ (pattern r = key ∨ pattern r = String.append "action:" key).
Proof.
  intros (m & key & Hm & Hk & Hl)%found_key.
  apply lookup_key_Some in Hl as [Hs Hl].
  destruct Hl as [Hl|Hl]; apply (held_refresh rows _ _ _ _ Hm) in Hl as (? & ? & ? & Hp);
    repeat (split; [done|]); exists key; auto.
Qed.

(** The prefixes from [n] words on come first. *)
Lemma word_prefixes_split command ws more :
  split_spaces command = ws ++ more → ws ≠ [] → more ≠ [] →
  ∃ longer shorter, word_prefixes command = longer ++ join_spaces ws :: shorter ∧
    ∀ key, key ∈ longer → ∃ vs, vs ≠ [] ∧ key = join_spaces (ws ++ vs).
Proof.
  intros Hs Hws Hmore. unfold word_prefixes. rw Hs length_app.
  set (n := length ws). set (k := length more).
  assert (n ≠ 0%nat ∧ k ≠ 0%nat) as [Hn Hk] by (unfold n, k; by destruct ws, more).
  assert (seq 1 (n + k - 1) = seq 1 (n - 1) ++ n :: seq (S n) (k - 1)) as ->.
  { replace (n + k - 1)%nat with ((n - 1) + S (k - 1))%nat by lia.
    rw seq_app. f_equal. replace (1 + (n - 1))%nat with n by lia. done. }
  rw reverse_app reverse_cons -app_assoc fmap_app.
  eexists _, _. split.
  { f_equal. rw fmap_app /=. f_equal. by rw take_app_length. }
  intros key (i & -> & Hi)%list_elem_of_fmap. apply elem_of_reverse, elem_of_seq in Hi.
  exists (take (i - n) more). split.
  - destruct more as [|w more]; [done|]. destruct (i - n)%nat eqn:He; [unfold n in *; lia|done].
  - rw take_app. f_equal. f_equal. apply take_ge. unfold n in *. lia.
Qed.

(** What follows the words of a rule does not matter: the rule found under some
    words is found for every command that goes on behind them, unless a rule
    continues them. *)
Lemma found_for_continuations rules tool m cwd ws rest r :
  rules !! tool = Some m → Forall word ws → ws ≠ [] → has_char "/" (join_spaces (take 1 ws)) = false →
  lookup_key m cwd (join_spaces ws) = Some r →
  (∀ more, lookup_key m cwd (String.append (join_spaces ws) (String " " more)) = None) →
  findBaseRisk rules tool (String.append (join_spaces ws) (String " " rest)) cwd = Some r.
Proof.
  intros Hm Hws Hne Hslash Hl Hnone. unfold findBaseRisk. rw Hm Hnone.
  set (command := String.append (join_spaces ws) (String " " rest)).
  assert (stripPath command = command) as ->.
  { unfold stripPath. destruct ws as [|w ws]; [done|].
    assert (∃ s, command = String.append w (String " " s)) as [s ->].
    { unfold command. destruct ws as [|w' ws]; [by eexists|].
      rw join_cons // append_assoc. by eexists. }
    apply Forall_cons in Hws as [[_ Hw] _].
    rw before_char_append; [|by apply has_char_space]. by rw after_last_None. }
  rw bool_decide_false; [|by intros []].
  destruct (split_words ws rest Hws Hne) as (more & Hmore & Hs). fold command in Hs.
  destruct (word_prefixes_split _ _ _ Hs Hne Hmore) as (longer & shorter & -> & Hlonger).
  rw first_some_app first_some_None /= ?Hl //.
  intros key (vs & Hvs & ->)%Hlonger. rw join_app //.
Qed.

(** At one key a rule the user wrote wins, in either dialect. *)
Lemma user_rule_wins m cwd key r :
  (m !! key = Some r ∨ m !! String.append "action:" key = Some r) →
  isUserRule (Some r) = true → isScopeMatch (scope r) cwd = true →
  ∃ r', lookup_key m cwd key = Some r' ∧ isUserRule (Some r') = true.
Proof.
  intros Hr Hu Hs. unfold lookup_key.
  destruct (isUserRule (in_scope cwd (m !! key))) eqn:H1.
  { destruct (in_scope cwd (m !! key)); [by eexists|done]. }
  assert (in_scope cwd (Some r) = Some r) as Hin by (unfold in_scope; by rw Hs).
  destruct Hr as [Hr|Hr]; rw Hr Hin in H1 *; [congruence|]. rw Hu. by eexists.
Qed.

(** The scope of a rule is a directory subtree: a rule saved for a
    directory applies in that directory and below it, and not in a sibling
    whose name merely begins with its name. *)
Theorem scope_is_subtree dir cwd :
  dir ≠ EmptyString → cwd ≠ EmptyString →
  ends_with "/" dir = false → ends_with "/" cwd = false → before_suffix "/*" dir = None →
  dir ≠ "everywhere"%string →
  isScopeMatch (Some dir) (Some cwd) = true ↔
    cwd = dir ∨ ∃ rest, cwd = String.append dir (String "/" rest).
Proof.
  intros Hd Hc Hed Hec Hs He. unfold isScopeMatch, with_slash. rw Hs Hed Hec.
  assert (bool_decide (dir = EmptyString) = false ∧ bool_decide (cwd = EmptyString) = false ∧
    bool_decide (dir = "everywhere"%string) = false) as (-> & -> & ->) by (by rewrite !bool_decide_eq_false).
  simpl. rw orb_true_iff bool_decide_eq_true starts_with_spec. split.
  - intros [H|[r H]]; [left; by apply append_snoc_inj in H as [-> _]|].
    destruct (string_snoc r) as [->|(t & c & ->)].
    + left. rw append_nil_r in H. by apply append_snoc_inj in H as [-> _].
    + right. exists t. rw -append_assoc in H. apply append_snoc_inj in H as [-> _].
      by rw append_assoc.
  - intros [->|[rest ->]]; [by left|right]. exists (String.append rest "/").
    by rw !append_assoc.
Qed.

Lemma scope_is_subtree_witness :
  isScopeMatch (Some "/tmp/a") (Some "/tmp/a/b") = true ↔
    "/tmp/a/b"%string = "/tmp/a" ∨ ∃ rest, "/tmp/a/b"%string = String.append "/tmp/a" (String "/" rest).
Proof. by apply scope_is_subtree. Defined.

Lemma found_rule_applies_witness :
  let r := sample_rule "action:git push" low user_defined None in
  r ∈ [r] ∧ deleted r = false ∧ rule_tool r = "bash"%string ∧ isScopeMatch (scope r) None = true ∧
  ∃ key, key ∈ candidates "git push -f" ∧ (pattern r = key ∨ pattern r = String.append "action:" key).
Proof. by apply found_rule_applies. Defined.
