(* ===== verification/ArgParser.v ===== *)
(** * Command arguments

    [gateway/src/risk/arg-parser.ts]: the tokens of a command are read, by the
    schema of the command, as flags, flag values, positionals and paths. *)

From S2P Require Import Prelude JsMap JsText.

Local Open Scope litt_scope.

(** The types of [risk-types.ts]. *)
Inductive positional_role := path | pattern_ | script | value_ | command_.

#[export] Instance positional_role_eq_dec : EqDecision positional_role.
Proof. solve_decision. Defined.

Record PositionalDesc := { role : positional_role; rest_desc : bool }.

Inductive positionals_def := paths | none | descs (l : list PositionalDesc).

Record ArgSchema := {
  valueFlags : list string;
  positionalsDef : option positionals_def;
  pathFlags : list string;                  (* the keys *)
  respectsDoubleDash : option bool;
}.

(** [{}] *)
Definition empty_schema : ArgSchema := {|
  valueFlags := []; positionalsDef := None; pathFlags := []; respectsDoubleDash := None |}.

(** [string | true] *)
Inductive flag_value := present | given (v : string).

Record ParsedArgs := {
  flags : jsmap string flag_value;
  positionals : list string;
  pathArgs : list string;
  sawDoubleDash : bool;
}.

Definition nothing_parsed : ParsedArgs := {|
  flags := ∅; positionals := []; pathArgs := []; sawDoubleDash := false |}.

(** The last [rest: true] descriptor. *)
Definition rest_descriptor (l : list PositionalDesc) : option PositionalDesc :=
  last (filter (λ d, rest_desc d = true) l).

(** [addIfPath(token, index, positionalsDef, pathArgs)] *)
Definition addIfPath (token : string) (index : nat) (def : option positionals_def)
    (pathArgs : list string) : list string :=
  match def with
  | None | Some paths => pathArgs ++ [token]
  | Some none => pathArgs
  | Some (descs l) =>
      let desc := if (index <? length l)%nat then l !! index else rest_descriptor l in
      match desc with
      | Some d => if decide (role d = path) then pathArgs ++ [token] else pathArgs
      | None => pathArgs ++ [token]
      end
  end.

Definition add_positional (schema : ArgSchema) (token : string) (p : ParsedArgs) : ParsedArgs := {|
  flags := flags p;
  positionals := positionals p ++ [token];
  pathArgs := addIfPath token (length (positionals p)) (positionalsDef schema) (pathArgs p);
  sawDoubleDash := sawDoubleDash p |}.

Definition add_flag (schema : ArgSchema) (name : string) (v : flag_value) (p : ParsedArgs) : ParsedArgs := {|
  flags := <[name := v]> (flags p);
  positionals := positionals p;
  pathArgs := match v with
              | given s => if bool_decide (name ∈ pathFlags schema) then pathArgs p ++ [s] else pathArgs p
              | present => pathArgs p
              end;
  sawDoubleDash := sawDoubleDash p |}.

Definition see_double_dash (p : ParsedArgs) : ParsedArgs := {|
  flags := flags p; positionals := positionals p; pathArgs := pathArgs p; sawDoubleDash := true |}.

Definition is_flag (token : string) : bool := starts_with "-" token.

Definition ends_flags (schema : ArgSchema) (token : string) : bool :=
  bool_decide (token = "--"%string) && bool_decide (respectsDoubleDash schema ≠ Some false).

Definition takes_value (schema : ArgSchema) (token : string) : bool :=
  is_flag token && bool_decide (token ∈ valueFlags schema).

(** [--flag=value] with a value-consuming flag. *)
Definition inline_value (schema : ArgSchema) (token : string) : option (string * string) :=
  if is_flag token then
    v ← after_char "=" token;
    let name := before_char "=" token in
    if bool_decide (name ∈ valueFlags schema) then Some (name, v) else None
  else None.

(** The loop. *)
Fixpoint parse_loop (schema : ArgSchema) (args : list string) (p : ParsedArgs) : ParsedArgs :=
  match args with
  | [] => p
  | token :: args =>
      if sawDoubleDash p then parse_loop schema args (add_positional schema token p)
      else if ends_flags schema token then parse_loop schema args (see_double_dash p)
      else if takes_value schema token then
        match args with
        | v :: args => parse_loop schema args (add_flag schema token (given v) p)
        | [] => parse_loop schema args (add_flag schema token present p)
        end
      else match inline_value schema token with
      | Some (name, v) => parse_loop schema args (add_flag schema name (given v) p)
      | None =>
          if is_flag token then parse_loop schema args (add_flag schema token present p)
          else parse_loop schema args (add_positional schema token p)
      end
  end.

Definition parseArgs (args : list string) (schema : ArgSchema) : ParsedArgs :=
  parse_loop schema args nothing_parsed.

Definition sample_schema : ArgSchema := {|
  valueFlags := ["-t"; "--target-directory"]; positionalsDef := None;
  pathFlags := ["-t"; "--target-directory"]; respectsDoubleDash := None |}.

Example parse_sample :
  let p := parseArgs ["-v"; "-t"; "/a"; "x"; "--target-directory=/b"; "-t/c"; "--"; "-y"] sample_schema in
  entries (flags p) = [("-v", present); ("-t", given "/a"); ("--target-directory", given "/b"); ("-t/c", present)]%string ∧
  positionals p = ["x"; "-y"]%string ∧ pathArgs p = ["/a"; "x"; "/b"; "-y"]%string.
Proof. by vm_compute. Qed.

(** ** Reading and interpreting

    A reference: the tokens are first read as items, each token once, and the
    items are then interpreted one by one. *)

Inductive item :=
  | Positional (token : string)
  | Terminator
  | Valued (name value : string)       (* two tokens *)
  | Inline (name value : string)       (* [name=value] *)
  | Flag (name : string).

Definition written (i : item) : list string :=
  match i with
  | Positional t | Flag t => [t]
  | Terminator => ["--"%string]
  | Valued n v => [n; v]
  | Inline n v => [String.append n (String "=" v)]
  end.

Fixpoint read (schema : ArgSchema) (ended : bool) (args : list string) : list item :=
  match args with
  | [] => []
  | token :: args =>
      if ended then Positional token :: read schema ended args
      else if ends_flags schema token then Terminator :: read schema true args
      else if takes_value schema token then
        match args with
        | v :: args => Valued token v :: read schema ended args
        | [] => [Flag token]
        end
      else match inline_value schema token with
      | Some (name, v) => Inline name v :: read schema ended args
      | None => (if is_flag token then Flag token else Positional token) :: read schema ended args
      end
  end.

Definition interpret (schema : ArgSchema) (p : ParsedArgs) (i : item) : ParsedArgs :=
  match i with
  | Positional t => add_positional schema t p
  | Terminator => see_double_dash p
  | Valued n v | Inline n v => add_flag schema n (given v) p
  | Flag n => add_flag schema n present p
  end.

Definition item_positional (i : item) : option string :=
  match i with Positional t => Some t | _ => None end.

(** [token = name=value] *)
Lemma inline_value_Some schema token name v :
  inline_value schema token = Some (name, v) →
  token = String.append name (String "=" v) ∧ name ∈ valueFlags schema.
Proof.
  unfold inline_value. case_match; [|done]. intros (w & Hw & Hn)%bind_Some.
  case_bool_decide; [|done]. simplify_eq. split; [|done]. clear -Hw.
  revert Hw. induction token as [|a token IH]; simpl; [done|].
  case_decide as Ha; [by intros [= ->]; rewrite append_empty Ha|].
  intros Hw. rw append_cons. f_equal. by apply IH.
Qed.

(** Two tokens at a time. *)
Lemma args_ind (P : list string → Prop) :
  P [] → (∀ t, P [t]) → (∀ t v args, P args → P (v :: args) → P (t :: v :: args)) → ∀ args, P args.
Proof.
  intros H0 H1 H2 args. assert (P args ∧ ∀ t, P (t :: args)) as [? _]; [|done].
  induction args as [|a args [IH IH']]; [auto|]. split; [apply IH'|]. intros t. by apply H2.
Qed.

Lemma parse_loop_cons schema t args p :
  parse_loop schema (t :: args) p =
  if sawDoubleDash p then parse_loop schema args (add_positional schema t p)
  else if ends_flags schema t then parse_loop schema args (see_double_dash p)
  else if takes_value schema t then
    match args with
    | v :: args => parse_loop schema args (add_flag schema t (given v) p)
    | [] => parse_loop schema args (add_flag schema t present p)
    end
  else match inline_value schema t with
  | Some (name, v) => parse_loop schema args (add_flag schema name (given v) p)
  | None => parse_loop schema args
      (if is_flag t then add_flag schema t present p else add_positional schema t p)
  end.
Proof. simpl. by repeat case_match. Qed.

Lemma read_cons schema ended t args :
  read schema ended (t :: args) =
  if ended then Positional t :: read schema ended args
  else if ends_flags schema t then Terminator :: read schema true args
  else if takes_value schema t then
    match args with
    | v :: args => Valued t v :: read schema ended args
    | [] => [Flag t]
    end
  else match inline_value schema t with
  | Some (name, v) => Inline name v :: read schema ended args
  | None => (if is_flag t then Flag t else Positional t) :: read schema ended args
  end.
Proof. done. Qed.

Lemma parse_loop_read schema args p :
  parse_loop schema args p = foldl (interpret schema) p (read schema (sawDoubleDash p) args).
Proof.
  revert p. induction args as [|t|t v args IH IH'] using args_ind; intros p; [done| |].
  - simpl. by repeat case_match.
  - rw parse_loop_cons read_cons. destruct (sawDoubleDash p) eqn:Hd; [by rw IH' /= Hd|].
    destruct (ends_flags schema t); [by rw IH'|].
    destruct (takes_value schema t); [by rw IH /= Hd|].
    destruct (inline_value schema t) as [[n w]|]; [by rw IH' /= Hd|].
    destruct (is_flag t); by rw IH' /= Hd.
Qed.

Lemma read_written schema ended args : concat (written <$> read schema ended args) = args.
Proof.
  assert (∀ i l, concat (written <$> i :: l) = written i ++ concat (written <$> l)) as Hc by done.
  revert ended. induction args as [|t|t v args IH IH'] using args_ind; intros ended; [done| |].
  all: rw read_cons; destruct ended; [by rw Hc ?IH'|].
  all: destruct (ends_flags schema t) eqn:He; [unfold ends_flags in He;
    apply andb_true_iff in He as [->%bool_decide_eq_true _]; by rw Hc ?IH'|].
  all: destruct (takes_value schema t); [by rw Hc ?IH|].
  all: destruct (inline_value schema t) as [[n w]|] eqn:Hi;
    [apply inline_value_Some in Hi as [-> _]; by rw Hc ?IH'|].
  all: destruct (is_flag t); by rw Hc ?IH'.
Qed.

Lemma fold_positionals schema l p :
  positionals (foldl (interpret schema) p l) = positionals p ++ omap item_positional l.
Proof.
  revert p. induction l as [|i l IH]; intros p; simpl; [by rw app_nil_r|].
  rw IH. destruct i; simpl; by rw -?app_assoc.
Qed.

(** What of an item is a path when no positional role is declared. *)
Definition item_paths (schema : ArgSchema) (i : item) : list string :=
  match i with
  | Positional t => [t]
  | Valued n v | Inline n v => if bool_decide (n ∈ pathFlags schema) then [v] else []
  | _ => []
  end.

Lemma fold_paths schema l p :
  positionalsDef schema = None ∨ positionalsDef schema = Some paths →
  pathArgs (foldl (interpret schema) p l) = pathArgs p ++ concat (item_paths schema <$> l).
Proof.
  intros Hd. revert p. induction l as [|i l IH]; intros p; simpl; [by rw app_nil_r|].
  rw IH app_assoc. f_equal. destruct i; simpl; try by rw app_nil_r.
  - by destruct Hd as [-> | ->].
  - by case_bool_decide; rw ?app_nil_r.
  - by case_bool_decide; rw ?app_nil_r.
Qed.

(** [parseArgs] reads every token exactly once: it interprets the items of
    a reading of the arguments that gives the arguments back when written out,
    its positionals are the positional items in order, and unless the schema
    declares roles its paths are the positionals and the values of path flags,
    none left out. *)
Theorem every_token_is_read_once args schema :
  let items := read schema false args in
  concat (written <$> items) = args ∧
  parseArgs args schema = foldl (interpret schema) nothing_parsed items ∧
  positionals (parseArgs args schema) = omap item_positional items ∧
  ((positionalsDef schema = None ∨ positionalsDef schema = Some paths) →
   pathArgs (parseArgs args schema) = concat (item_paths schema <$> items)).
Proof.
  intros items. assert (parseArgs args schema = foldl (interpret schema) nothing_parsed items) as Heq
    by apply parse_loop_read.
  rw Heq. split; [apply read_written|]. split; [done|]. split; [apply fold_positionals|].
  apply (fold_paths schema items nothing_parsed).
Qed.
