(* ===== verification/RiskLadder.v ===== *)
(** * The ladder of saved patterns

    What the options of a permission prompt promise: they are distinct, the
    first is the exact command, and a rule saved from one of them is found again
    for the command it was offered for — when the command takes no flag values
    and its program is named without a path; otherwise rungs are offered that
    never match. *)

From S2P Require Import Prelude JsMap JsText TrustRules ArgParser BashRisk.

Local Open Scope litt_scope.

(** ** Collecting *)

(** [addOption] and the loop over the allowlist keep the first element of a key. *)
Lemma distinct_from {A} (key : A → string) (l acc : list A) : NoDup (key <$> acc) →
  ∃ more, foldl (λ acc o, if bool_decide (key o ∈ key <$> acc) then acc else acc ++ [o]) acc l = acc ++ more ∧
    (∀ o, o ∈ more → o ∈ l) ∧ NoDup (key <$> acc ++ more).
Proof.
  revert acc. induction l as [|o l IH]; intros acc Hn; simpl.
  { exists []. rw app_nil_r. split; [done|]. split; [by intros ? ?%not_elem_of_nil|done]. }
  case_bool_decide as Ho.
  - destruct (IH acc Hn) as (more & -> & Hin & Hnd). exists more. split; [done|].
    split; [|done]. intros x Hx. right. by apply Hin.
  - destruct (IH (acc ++ [o])) as (more & -> & Hin & Hnd).
    { rw fmap_app. apply NoDup_app. split; [done|]. split; [|by apply NoDup_singleton].
      by intros x Hx ->%list_elem_of_singleton. }
    exists (o :: more). rw -app_assoc in Hnd *. split; [done|]. split; [|done].
    intros x [->|Hx]%elem_of_cons; [by left|right; by apply Hin].
Qed.

Lemma collect_cons o l : ∃ more, collect_options (o :: l) = o :: more ∧
  (∀ x, x ∈ more → x ∈ l) ∧ NoDup (scope_pattern <$> o :: more).
Proof. apply (distinct_from scope_pattern l [o]). by apply NoDup_singleton. Qed.

Lemma allowlist_spec options :
  (∀ o, o ∈ scopeOptionsToAllowlistOptions options → o ∈ imap allowlist_option options) ∧
  NoDup (option_pattern <$> scopeOptionsToAllowlistOptions options).
Proof.
  destruct (distinct_from option_pattern (imap allowlist_option options) []) as (more & He & Hin & Hn);
    [by apply NoDup_nil|].
  unfold scopeOptionsToAllowlistOptions. unfold add_allowlist. by rw He.
Qed.

(** ** One rung *)

(** Words a label is made of. *)
Definition plain (w : string) : Prop := word w ∧ w ≠ "*"%string.

Lemma star_word : word "*".
Proof. done. Qed.

(** What is saved for a label: its words, without flags. *)
Lemma action_of_label words : Forall plain words →
  labelToActionPattern (star words) =
    String.append "action:" (join_spaces (List.filter (λ w, negb (is_flag w)) words)).
Proof.
  intros Hw. unfold labelToActionPattern, star. rw split_join.
  2:{ apply Forall_app. split; [|by repeat constructor]. eapply Forall_impl; [exact Hw|by intros w []]. }
  2:{ by destruct words. }
  f_equal. f_equal. rw List.filter_app /= app_nil_r.
  induction Hw as [|w words [_ Hs] _ IH]; [done|]. simpl. rw IH. by rw bool_decide_false // andb_true_r.
Qed.

Definition unflagged (l : list string) : list string := List.filter (λ a, negb (is_flag a)) l.

Lemma unflagged_flags l : unflagged (List.filter is_flag l) = [].
Proof.
  unfold unflagged. induction l as [|a l IH]; simpl; [done|].
  destruct (is_flag a) eqn:Ha; simpl; [by rw Ha|done].
Qed.

Lemma unflagged_id l : (∀ x, x ∈ l → is_flag x = false) → unflagged l = l.
Proof.
  unfold unflagged. induction l as [|a l IH]; simpl; [done|]. intros H.
  rw H; [|by left]. simpl. f_equal. apply IH. intros x Hx. apply H. by right.
Qed.

Lemma elem_of_List_filter {A} (f : A → bool) l x : x ∈ List.filter f l ↔ x ∈ l ∧ f x = true.
Proof. rw !list_elem_of_In. apply filter_In. Qed.

Section rung.
Variable registry : Registry.
Variable seg : CommandSegment.
Hypothesis no_schema : own_spec registry (program seg) ≫= argSchema = None.
Hypothesis words_plain : Forall plain (program seg :: args seg).
Hypothesis program_name : is_flag (program seg) = false.

Notation ps := (unflagged (args seg)).
Notation fs := (List.filter is_flag (args seg)).

Lemma ps_unflagged x : x ∈ ps → is_flag x = false ∧ x ∈ args seg.
Proof. intros [Hx Hf]%elem_of_List_filter. split; [by apply negb_true_iff|done]. Qed.

Lemma plain_sub l : (∀ x, x ∈ l → x ∈ program seg :: args seg) → Forall plain l.
Proof.
  intros Hl. apply Forall_forall. intros x Hx. pose proof words_plain as Hw.
  rw Forall_forall in Hw. by apply Hw, Hl.
Qed.

(** The shape of every rung behind the first. *)
Definition rung (o : ScopeOption) : Prop :=
  ∃ words pre, label o = star words ∧ Forall plain words ∧
    unflagged words = program seg :: pre ∧ pre `prefix_of` ps.

Lemma rung_of sub_ flags_ kept o :
  label o = star (program seg :: sub_ ++ flags_ ++ kept) →
  (∀ x, x ∈ flags_ → x ∈ fs) → sub_ ++ kept `prefix_of` ps → rung o.
Proof.
  intros Hl Hf Hp. exists (program seg :: sub_ ++ flags_ ++ kept), (sub_ ++ kept).
  assert (∀ x, x ∈ sub_ ++ kept → is_flag x = false ∧ x ∈ args seg) as Hin.
  { intros x Hx. apply ps_unflagged. by eapply elem_of_prefix. }
  assert (∀ x, x ∈ flags_ → is_flag x = true ∧ x ∈ args seg) as Hflags.
  { intros x Hx%Hf. by apply elem_of_List_filter in Hx as [? ?]. }
  split; [done|]. split; [|split; [|done]].
  - apply plain_sub. intros x. rw elem_of_cons !elem_of_app.
    intros [->|[Hx|[Hx|Hx]]]; [by left| | |]; right.
    + apply Hin. rw elem_of_app. by left.
    + by apply Hflags.
    + apply Hin. rw elem_of_app. by right.
  - unfold unflagged in *. simpl. rw program_name /=. f_equal. rw !List.filter_app.
    fold (unflagged sub_) (unflagged flags_) (unflagged kept).
    rw (unflagged_id sub_); [|intros x Hx; apply Hin; rewrite elem_of_app; by left].
    rw (unflagged_id kept); [|intros x Hx; apply Hin; rewrite elem_of_app; by right].
    assert (unflagged flags_ = []) as ->; [|done].
    clear -Hflags. unfold unflagged. induction flags_ as [|a l IH]; simpl; [done|].
    destruct (Hflags a) as [-> _]; [by left|]. simpl. apply IH. intros x Hx. apply Hflags. by right.
Qed.

Lemma segment_rungs o : o ∈ drop 1 (segment_options registry seg) → rung o.
Proof.
  unfold segment_options, flags_and_positionals. rw no_schema /=. fold ps.
  destruct (match own_spec registry (program seg) with Some spec => complexSyntax spec | None => false end).
  { intros ->%list_elem_of_singleton. apply (rung_of [] [] []); [done|by intros ? ?%not_elem_of_nil|apply prefix_nil]. }
  set (sub_ := match ps with [] => [] | _ => _ end).
  assert (sub_ = [] ∨ ∃ p rest, ps = p :: rest ∧ sub_ = [p]) as Hsub.
  { unfold sub_. destruct ps as [|p rest]; [by left|].
    destruct (own_spec _ _) as [spec|]; [|by left]. case_bool_decide; [right; by eexists _, _|by left]. }
  clearbody sub_.
  assert (sub_ `prefix_of` ps) as Hpre.
  { destruct Hsub as [->|(p & rest & -> & ->)]; [apply prefix_nil|]. by apply prefix_cons, prefix_nil. }
  set (wild := match sub_ with [] => ps | _ => _ end).
  assert (∀ n, sub_ ++ take n wild `prefix_of` ps) as Hwild.
  { intros n. unfold wild. destruct Hsub as [->|(p & rest & -> & ->)]; simpl.
    - apply prefix_take.
    - rw drop_0. apply prefix_cons, prefix_take. }
  clearbody wild. rw !elem_of_app. intros [Ho|[Ho|[Ho|Ho]]].
  - apply list_elem_of_fmap in Ho as (kept & -> & Hk).
    apply list_elem_of_fmap in Hk as (n & -> & _).
    eapply (rung_of sub_ fs); [done|done|]. apply Hwild.
  - destruct fs; [by apply not_elem_of_nil in Ho|]. apply list_elem_of_singleton in Ho as ->.
    apply (rung_of sub_ [] []); [by rw /= app_nil_r|by intros ? ?%not_elem_of_nil|by rw app_nil_r].
  - destruct sub_; [by apply not_elem_of_nil in Ho|]. apply list_elem_of_singleton in Ho as ->.
    eapply (rung_of (_ :: _) [] []); [by rw /= app_nil_r|by intros ? ?%not_elem_of_nil|by rw app_nil_r].
  - apply list_elem_of_singleton in Ho as ->.
    apply (rung_of [] [] []); [done|by intros ? ?%not_elem_of_nil|apply prefix_nil].
Qed.
End rung.

Lemma join_star words : words ≠ [] → star words = String.append (join_spaces words) " *".
Proof. intros Hw. unfold star. by rw join_app. Qed.

Lemma join_has_space w w' ws : has_char " " (join_spaces (w :: w' :: ws)) = true.
Proof.
  rw join_cons //. induction w as [|a w IH]; [done|]. rw append_cons /=. by rw IH orb_true_r.
Qed.

Lemma rung_pattern seg o i : rung seg o →
  ∃ pre, pre `prefix_of` unflagged (args seg) ∧
    option_pattern (allowlist_option (S i) o) = String.append "action:" (join_spaces (program seg :: pre)).
Proof.
  intros (words & pre & Hl & Hplain & Hun & Hp). exists pre. split; [done|].
  assert (words ≠ []) as Hne by (by intros ->).
  assert (labelToActionPattern (label o) = String.append "action:" (join_spaces (program seg :: pre))) as Hact.
  { rw Hl action_of_label //. unfold unflagged in Hun. by rw Hun. }
  simpl. rw Hl join_star // before_suffix_append //.
  destruct (has_char " " (join_spaces words)) eqn:Hsp; simpl.
  - by rw -join_star // -Hl.
  - destruct words as [|w [|w' words]]; [done| |by rw join_has_space in Hsp].
    unfold unflagged in Hun. simpl in Hun. destruct (negb (is_flag w)); [|done]. by injection Hun as -> <-.
Qed.

(** ** A saved rule *)

(** A global rule the user saves with some pattern. *)
Definition saved (tool : tool_name) (pat : string) (r : TrustRule) : Prop :=
  rule_tool r = tool_key tool ∧ pattern r = pat ∧ origin r = user_defined ∧ deleted r = false ∧ scope r = None.

Lemma lookup_saved tool pat r cwd key : saved tool pat r →
  pat = key ∨ pat = String.append "action:" key →
  ∃ m, refresh [r] !! tool_key tool = Some m ∧ is_Some (lookup_key m cwd key).
Proof.
  intros (Ht & Hp & Ho & Hd & Hs) Hkey.
  assert (refresh [r] = <[rule_tool r := <[pattern r := r]> ∅]> ∅) as ->.
  { unfold refresh, listActive. rw filter_cons. by case_decide. }
  rw Ht lookup_insert_eq Hp. eexists. split; [reflexivity|].
  destruct (user_rule_wins (<[pat:=r]> ∅) cwd key r) as (r' & -> & _); [|by rewrite /= Ho orb_true_r|by rewrite Hs|done].
  destruct Hkey as [<- | <-]; [left|right]; apply lookup_insert_eq.
Qed.

Lemma find_candidate rules tool m cwd command key :
  rules !! tool = Some m → key ∈ candidates command → is_Some (lookup_key m cwd key) →
  is_Some (findBaseRisk rules tool command cwd).
Proof.
  unfold findBaseRisk, candidates. intros -> Hk Hl.
  destruct (lookup_key m cwd command) as [r|] eqn:H1; [done|].
  apply elem_of_cons in Hk as [->|Hk]; [by rewrite H1 in Hl; destruct Hl|].
  case_bool_decide as Hs.
  - destruct (lookup_key m cwd (stripPath command)) as [r|] eqn:H2; [done|].
    apply elem_of_cons in Hk as [->|Hk]; [by rewrite H2 in Hl; destruct Hl|].
    destruct (first_some _ _) eqn:H3; [done|]. exfalso.
    destruct Hl as [r Hr]. eapply first_some_hit in H3; [|exact Hk]. by rewrite Hr in H3.
  - rw Hs in Hk.
    apply elem_of_cons in Hk as [->|Hk]; [by rewrite H1 in Hl; destruct Hl|]. rw Hs.
    destruct (first_some _ _) eqn:H3; [done|]. exfalso.
    destruct Hl as [r Hr]. eapply first_some_hit in H3; [|exact Hk]. by rewrite Hr in H3.
Qed.

Lemma found_saved tool pat r cwd command key :
  saved tool pat r → pat = key ∨ pat = String.append "action:" key → key ∈ candidates command →
  findBaseRisk (refresh [r]) (tool_key tool) command cwd = Some r.
Proof.
  intros Hs Hkey Hc. destruct (lookup_saved tool pat r cwd key Hs Hkey) as (m & Hm & Hl).
  destruct (find_candidate _ _ _ _ _ _ Hm Hc Hl) as [r' Hr']. rw Hr'. f_equal.
  apply (found_rule_in [r]) in Hr'. by apply list_elem_of_singleton in Hr'.
Qed.

Lemma strip_words w ws : word w → has_char "/" w = false →
  stripPath (join_spaces (w :: ws)) = join_spaces (w :: ws).
Proof.
  intros [_ Hw] Hs. unfold stripPath. pose proof (has_char_space w Hw) as Hsp.
  assert (before_char " " (join_spaces (w :: ws)) = w) as ->; [|by rw after_last_None].
  destruct ws as [|w' ws]; [by apply before_char_none|]. by rw join_cons // before_char_append.
Qed.

Lemma prefix_candidate w pre l : word w → has_char "/" w = false → Forall word l → pre `prefix_of` l →
  join_spaces (w :: pre) ∈ candidates (with_words w l).
Proof.
  intros Hw Hs Hl [more ->].
  assert (with_words w (pre ++ more) = join_spaces (w :: pre ++ more)) as ->.
  { destruct (pre ++ more) eqn:He; [done|]. symmetry. by apply join_cons. }
  unfold candidates. rw strip_words //.
  destruct more as [|x more]; [rw app_nil_r; by left|]. right; right.
  destruct (word_prefixes_split (join_spaces (w :: pre ++ x :: more)) (w :: pre) (x :: more))
    as (longer & shorter & -> & _); [|done|done|rw elem_of_app; right; by left].
  rw app_comm_cons split_join //. by constructor.
Qed.

(** The options of a prompt keep their promise: for a command whose program
    is named without a path and takes no flag values, a rule saved from any
    option answers for the same command when it is classified again — the exact
    one as the user's own rule, the others as its base risk. *)
Theorem saved_options_apply registry spec seg parsed tool cwd o r :
  own_spec registry (program seg) = Some spec → argSchema spec = None →
  Forall plain (program seg :: args seg) → is_flag (program seg) = false →
  has_char "/" (program seg) = false → command seg = join_spaces (program seg :: args seg) →
  segments parsed = [seg] →
  o ∈ scopeOptionsToAllowlistOptions (generateScopeOptions parsed registry) →
  saved tool (option_pattern o) r →
  user_defined_rule (Some (refresh [r])) tool cwd (command seg) = Some r ∨
  base_rule (Some (refresh [r])) tool cwd (program seg) spec (args seg) = Some r.
Proof.
  intros Hspec Hschema Hplain Hprog Hslash Hcmd Hsegs Ho Hr.
  apply (proj1 (allowlist_spec _)) in Ho. unfold generateScopeOptions in Ho. rw Hsegs in Ho.
  assert (segment_options registry seg = option_exact (command seg) :: drop 1 (segment_options registry seg)) as Hopts
    by done.
  destruct (collect_cons (option_exact (command seg)) (drop 1 (segment_options registry seg)))
    as (more & Hc & Hin & _). rw -Hopts in Hc. rw Hc in Ho.
  apply elem_of_lookup_imap in Ho as (i & so & -> & Hi).
  unfold user_defined_rule, base_rule, find_rule. simpl mbind.
  destruct i as [|i]; [left|right].
  - injection Hi as <-. simpl in Hr.
    rw (found_saved tool (command seg) r cwd (command seg) (command seg) Hr) //; [|by left|by left].
    destruct Hr as (_ & _ & Hor & _). simpl. by rw decide_True.
  - change (more !! i = Some so) in Hi. apply list_elem_of_lookup_2, Hin in Hi.
    apply segment_rungs in Hi; [|by rewrite Hspec /= Hschema|done|done].
    destruct (rung_pattern seg so i Hi) as (pre & Hpre & Hpat). rw Hpat in Hr. rw Hschema.
    assert (Forall word (unflagged (args seg))) as Hws.
    { apply Forall_forall. intros x [Hx _]%elem_of_List_filter. rw Forall_forall in Hplain.
      apply Hplain. by right. }
    apply Forall_cons in Hplain as [[Hpw _] _].
    assert (findBaseRisk (refresh [r]) (tool_key tool) (with_words (program seg) (unflagged (args seg))) cwd = Some r)
      as Hfound.
    { eapply found_saved; [exact Hr|by right|by apply prefix_candidate]. }
    unfold unflagged in Hfound. by rw Hfound.
Qed.

(** ** Options that never apply *)

(** [command-registry/commands/cp.ts] *)
Definition cp_spec : CommandRiskSpec := {|
  baseRisk := Some medium; subcommands := None;
  argRules := [{| rule_id := "cp:system"; rule_flags := [];
    valuePattern := Some "^/(?:usr|bin|sbin|lib|boot|dev|proc|sys)\b"; arg_risk := high;
    arg_reason := "Copies to system path" |}];
  isWrapper := false; nonExecFlags := []; complexSyntax := false; spec_reason := None; spec_sandboxAutoApprove := true; spec_filesystemOp := true;
  argSchema := Some {| valueFlags := ["-t"; "--target-directory"]; positionalsDef := None;
    pathFlags := ["-t"; "--target-directory"]; respectsDoubleDash := None |} |}.

Definition offered (registry : Registry) (seg : CommandSegment) : list string :=
  option_pattern <$> scopeOptionsToAllowlistOptions
    (generateScopeOptions (sample_parse [seg] (command seg)) registry).

Lemma never_found tool pat r cwd line : saved tool pat r →
  (∀ key, key ∈ candidates line → pat ≠ key ∧ pat ≠ String.append "action:" key) →
  findBaseRisk (refresh [r]) (tool_key tool) line cwd = None.
Proof.
  intros (Ht & Hp & _) Hc. destruct (findBaseRisk _ _ _ _) as [x|] eqn:Hf; [|done]. exfalso.
  apply found_key in Hf as (m & key & Hm & Hk & Hl). apply lookup_key_Some in Hl as [_ Hl].
  destruct (Hc key Hk) as [H1 H2].
  destruct Hl as [Hl|Hl]; apply (held_refresh [r] _ _ _ _ Hm) in Hl as (Hr%list_elem_of_singleton & _ & _ & Hpat);
    subst; congruence.
Qed.

(** Some options of the prompt never apply: what a flag value leaves in the
    words of an option, or the path of the program, is not among the keys the
    classifier looks a command up by, so that a rule saved from such an option
    is never found for the command it was offered for. *)
Theorem some_options_never_apply :
  let cp_seg := sample_segment "cp" ["-t"; "/dest"; "a"; "b"] in
  let ls_seg := sample_segment "/usr/bin/ls" ["x"] in
  "action:cp /dest a"%string ∈ offered [("cp", cp_spec)]%string cp_seg ∧
  "action:/usr/bin/ls"%string ∈ offered [("ls", leaf low None)]%string ls_seg ∧
  ∀ tool cwd r,
    (saved tool "action:cp /dest a" r →
      user_defined_rule (Some (refresh [r])) tool cwd (command cp_seg) = None ∧
      base_rule (Some (refresh [r])) tool cwd "cp" cp_spec (args cp_seg) = None) ∧
    (saved tool "action:/usr/bin/ls" r →
      user_defined_rule (Some (refresh [r])) tool cwd (command ls_seg) = None ∧
      base_rule (Some (refresh [r])) tool cwd "ls" (leaf low None) (args ls_seg) = None).
Proof.
  intros cp_seg ls_seg. split; [apply (bool_decide_unpack _); by vm_compute|].
  split; [apply (bool_decide_unpack _); by vm_compute|].
  assert (∀ pat line, forallb (λ key, negb (String.eqb pat key) && negb (String.eqb pat (String.append "action:" key)))
    (candidates line) = true → ∀ tool cwd r, saved tool pat r →
    findBaseRisk (refresh [r]) (tool_key tool) line cwd = None) as H.
  { intros pat line Hb tool cwd r Hr. eapply never_found; [exact Hr|]. intros key Hk.
    rw forallb_forall in Hb. apply list_elem_of_In, Hb, andb_true_iff in Hk as [H1 H2].
    apply negb_true_iff, String.eqb_neq in H1, H2. done. }
  intros tool cwd r. unfold user_defined_rule, base_rule, find_rule. simpl mbind.
  split; intros Hr; (split; [by rw (H _ _ _ tool cwd r Hr)|]).
  - assert (find_cp : findBaseRisk (refresh [r]) (tool_key tool) "cp a b" cwd = None) by (eapply H; [|exact Hr]; reflexivity).
    assert (find_cp' : findBaseRisk (refresh [r]) (tool_key tool) "cp" cwd = None) by (eapply H; [|exact Hr]; reflexivity).
    change (match findBaseRisk (refresh [r]) (tool_key tool) "cp a b" cwd with
      | Some r => Some r
      | None => findBaseRisk (refresh [r]) (tool_key tool) "cp" cwd end = None). by rw find_cp.
  - assert (find_ls : findBaseRisk (refresh [r]) (tool_key tool) "ls x" cwd = None) by (eapply H; [|exact Hr]; reflexivity).
    assert (find_ls' : findBaseRisk (refresh [r]) (tool_key tool) "ls" cwd = None) by (eapply H; [|exact Hr]; reflexivity).
    change (match findBaseRisk (refresh [r]) (tool_key tool) "ls x" cwd with
      | Some r => Some r
      | None => findBaseRisk (refresh [r]) (tool_key tool) "ls" cwd end = None). by rw find_ls.
Qed.

Lemma saved_options_apply_witness :
  let seg := sample_segment "ls" ["-l"; "a"; "b"] in
  let r := sample_rule "action:ls a" low user_defined None in
  let rules := Some (refresh [r]) in
  user_defined_rule rules bash None (command seg) = Some r ∨
  base_rule rules bash None "ls" (leaf low None) (args seg) = Some r.
Proof.
  apply (saved_options_apply [("ls"%string, leaf low None)] (leaf low None)
    (sample_segment "ls" ["-l"; "a"; "b"])
    (sample_parse [sample_segment "ls" ["-l"; "a"; "b"]] "ls -l a b") bash None
    {| option_label := "ls -l a *"; option_description := "Commands matching this pattern";
       option_pattern := "action:ls a" |}
    (sample_rule "action:ls a" low user_defined None)); try reflexivity.
  - by repeat constructor.
  - apply list_elem_of_In. vm_compute. tauto.
  - by repeat split.
Defined.
