(* ===== verification/Paths.v ===== *)
(** * POSIX paths

    The functions of [node:path] the program cuts its paths with — [resolve],
    [normalize], [join], [relative], [dirname], [basename], [isAbsolute] — on
    one-byte text, and containment of canonical paths. *)

From S2P Require Import Prelude JsText.

Definition slash : ascii := "/".

(** [path.split("/")] *)
Fixpoint parts (s : string) : list string :=
  match s with
  | EmptyString => [EmptyString]
  | String a s => if decide (a = slash) then EmptyString :: parts s else cons_char a (parts s)
  end.

(** [l.join("/")] *)
Definition join_parts (l : list string) : string := String.concat "/" l.

Definition isAbsolute (path : string) : bool := starts_with "/" path.

(** [normalizeString(path, allowAboveRoot)]: the pieces left, last first. *)
Definition push_part (above : bool) (stack : list string) (p : string) : list string :=
  if bool_decide (p = EmptyString) || bool_decide (p = "."%string) then stack
  else if bool_decide (p = ".."%string) then
    match stack with
    | q :: rest => if bool_decide (q = ".."%string) then p :: stack else rest
    | [] => if above then [p] else []
    end
  else p :: stack.

Definition normalizeString (above : bool) (path : string) : list string :=
  reverse (foldl (push_part above) [] (parts path)).

Definition of_segs (l : list string) : string := String slash (join_parts l).

(** The pieces of an absolute path. *)
Definition segs (path : string) : list string := normalizeString false path.

(** [resolve(...paths)] *)
Fixpoint resolve_from (cwd acc : string) (rest : list string) : string :=
  match rest with
  | [] => String.append cwd (String slash acc)
  | p :: rest =>
      if bool_decide (p = EmptyString) then resolve_from cwd acc rest
      else
        let acc := String.append p (String slash acc) in
        if isAbsolute p then acc else resolve_from cwd acc rest
  end.

Definition resolve (cwd : string) (paths : list string) : string :=
  of_segs (segs (resolve_from cwd EmptyString (reverse paths))).

(** [normalize(path)] *)
Definition normalize (path : string) : string :=
  if bool_decide (path = EmptyString) then "."%string
  else
    let l := normalizeString (negb (isAbsolute path)) path in
    let trailing := bool_decide (last (parts path) = Some EmptyString) in
    if isAbsolute path
    then if bool_decide (l = []) then "/"%string
         else String.append (of_segs l) (if trailing then "/" else EmptyString)
    else if bool_decide (l = []) then if trailing then "./"%string else "."%string
    else String.append (join_parts l) (if trailing then "/" else EmptyString).

(** [join(...paths)] *)
Definition join (paths : list string) : string :=
  match filter (λ p, p ≠ EmptyString) paths with
  | [] => "."%string
  | l => normalize (join_parts l)
  end.

(** The pieces without those of trailing slashes. *)
Fixpoint drop_empty (l : list string) : list string :=
  match l with
  | x :: l' => if bool_decide (x = EmptyString) then drop_empty l' else l
  | [] => []
  end.

(** [basename(path)] *)
Definition basename (path : string) : string :=
  match drop_empty (reverse (parts path)) with x :: _ => x | [] => EmptyString end.

(** [dirname(path)] *)
Definition dirname (path : string) : string :=
  if bool_decide (path = EmptyString) then "."%string
  else match drop_empty (reverse (parts path)) with
  | [] => "/"%string
  | _ :: rest =>
      let d := join_parts (reverse rest) in
      if bool_decide (d = EmptyString) then if isAbsolute path then "/"%string else "."%string
      else if bool_decide (d = "/"%string) then "//"%string else d
  end.

(** [relative(from, to)] *)
Fixpoint relative_segs (from to : list string) : list string :=
  match from, to with
  | a :: from', b :: to' =>
      if bool_decide (a = b) then relative_segs from' to' else ((λ _, ".."%string) <$> from) ++ to
  | _, _ => ((λ _, ".."%string) <$> from) ++ to
  end.

Definition relative (cwd from to : string) : string :=
  join_parts (relative_segs (segs (resolve cwd [from])) (segs (resolve cwd [to]))).

Example path_samples :
  ((resolve "/home/a" <$> [["/w"; "x//y/../z/."]; ["b"; ""]; ["../../../q"]; ["/w"; "/etc/passwd"]; []]) =
     ["/w/x/z"; "/home/a/b"; "/q"; "/etc/passwd"; "/home/a"])%string ∧
  (normalize <$> ["/a/./b/../c/"; "../x/../../y"; "./"; ""; "//"; "a//b"] = ["/a/c/"; "../../y"; "./"; "."; "/"; "a/b"])%string ∧
  (join <$> [["/a"; "b"; "../c"]; [""; ""]; ["a/"; ""; "/b"]] = ["/a/c"; "."; "a/b"])%string ∧
  (dirname <$> ["/a/b/"; "a"; "/a"; "/"; "a//b"; "//a"; ""] = ["/a"; "."; "/"; "/"; "a/"; "//"; "."])%string ∧
  (basename <$> ["/a/b/"; "a"; "/"; ""; "/a//b//"] = ["b"; "a"; ""; ""; "b"])%string ∧
  (relative "/" "/a/b" <$> ["/a/b"; "/a/b/c"; "/a"; "/a/bc"; "/x"] = [""; "c"; ".."; "../bc"; "../../x"])%string.
Proof. by vm_compute. Qed.

(** ** Splitting and joining *)

Lemma parts_nonempty s : parts s ≠ [].
Proof. induction s as [|a s IH]; simpl; [done|]. case_decide; [done|]. by destruct (parts s). Qed.

Lemma parts_app a b : parts (String.append a (String slash b)) = parts a ++ parts b.
Proof.
  induction a as [|x a IH]; [done|]. rw append_cons /=. rw IH. case_decide; [done|].
  by pose proof (parts_nonempty a); destruct (parts a).
Qed.

Lemma parts_plain w : has_char slash w = false → parts w = [w].
Proof.
  induction w as [|a w IH]; simpl; [done|]. intros [Ha Hw]%orb_false_iff.
  apply bool_decide_eq_false in Ha. case_decide; [done|]. by rw IH.
Qed.

Lemma parts_are_plain s : Forall (λ w, has_char slash w = false) (parts s).
Proof.
  induction s as [|a s IH]; simpl; [by constructor|]. case_decide as Ha; [by constructor|].
  destruct (parts s); simpl; inversion IH; constructor; simpl; try done.
  - by rw bool_decide_false.
  - by rw bool_decide_false.
Qed.

Lemma join_parts_cons w l : l ≠ [] → join_parts (w :: l) = String.append w (String slash (join_parts l)).
Proof. by destruct l. Qed.

Lemma join_parts_snoc l w : l ≠ [] → join_parts (l ++ [w]) = String.append (join_parts l) (String slash w).
Proof.
  induction l as [|x l IH]; [done|]. intros _. destruct l as [|y l]; [done|].
  change ((x :: y :: l) ++ [w]) with (x :: ((y :: l) ++ [w])).
  rw join_parts_cons // IH // (join_parts_cons x (y :: l)) // append_assoc. done.
Qed.

Lemma join_parts_split s : join_parts (parts s) = s.
Proof.
  induction s as [|a s IH]; [done|]. simpl. case_decide as Ha.
  - rw join_parts_cons; [|apply parts_nonempty]. by rw IH Ha.
  - pose proof (parts_nonempty s). destruct (parts s) as [|w l]; [done|]. simpl.
    rw -IH. destruct l as [|v l]; [done|]. rw (join_parts_cons w) // join_parts_cons //.
Qed.

Lemma parts_join l : l ≠ [] → Forall (λ w, has_char slash w = false) l → parts (join_parts l) = l.
Proof.
  intros Hl Hp. induction Hp as [|w l Hw Hp IH]; [done|]. destruct l as [|v l].
  - by apply parts_plain.
  - rw join_parts_cons // parts_app IH // parts_plain //.
Qed.

Lemma parts_inj a b : parts a = parts b → a = b.
Proof. intros H. by rw -(join_parts_split a) H join_parts_split. Qed.

(** ** Canonical paths *)

(** A piece that names an entry of a directory. *)
Definition clean (w : string) : bool :=
  bool_decide (w ≠ EmptyString) && bool_decide (w ≠ "."%string) && bool_decide (w ≠ ".."%string) &&
  negb (has_char slash w).

Lemma clean_spec w : clean w = true ↔
  w ≠ EmptyString ∧ w ≠ "."%string ∧ w ≠ ".."%string ∧ has_char slash w = false.
Proof. unfold clean. rw !andb_true_iff !bool_decide_eq_true negb_true_iff. tauto. Qed.

Notation cleans := (Forall (λ w, clean w = true)).

Lemma cleans_plain l : cleans l → Forall (λ w, has_char slash w = false) l.
Proof. intros Hl. eapply Forall_impl; [exact Hl|]. by intros w (_ & _ & _ & ?)%clean_spec. Qed.

Definition canonical (path : string) : Prop := of_segs (segs path) = path.

#[export] Instance canonical_dec path : Decision (canonical path).
Proof. unfold canonical. apply _. Defined.

Lemma push_clean stack w : cleans stack → has_char slash w = false → cleans (push_part false stack w).
Proof.
  intros Hs Hw. unfold push_part.
  case_bool_decide as H1; [done|]. case_bool_decide as H2; [done|]. simpl. case_bool_decide as H3.
  - destruct Hs as [|q l Hq Hl]; [done|]. case_bool_decide; [|done].
    by apply clean_spec in Hq as (_ & _ & ? & _).
  - constructor; [|done]. by apply clean_spec.
Qed.

Lemma pushes_clean l stack : cleans stack → Forall (λ w, has_char slash w = false) l →
  cleans (foldl (push_part false) stack l).
Proof.
  revert stack. induction l as [|w l IH]; intros stack Hs Hl; [done|]. inversion Hl; subst.
  apply IH; [|done]. by apply push_clean.
Qed.

Lemma segs_clean path : cleans (segs path).
Proof. apply Forall_reverse, pushes_clean; [by constructor|apply parts_are_plain]. Qed.

Lemma push_own stack w : clean w = true → push_part false stack w = w :: stack.
Proof.
  intros (H1 & H2 & H3 & _)%clean_spec. unfold push_part.
  by rw (bool_decide_false _ H1) (bool_decide_false _ H2) (bool_decide_false _ H3).
Qed.

Lemma pushes_own l stack : cleans l → foldl (push_part false) stack l = reverse l ++ stack.
Proof.
  intros Hl. revert stack. induction Hl as [|w l Hw Hl IH]; intros stack; [done|].
  simpl. rw push_own // IH reverse_cons -app_assoc. done.
Qed.

Lemma segs_slash path : segs (String slash path) = segs path.
Proof. done. Qed.

Lemma segs_of_segs l : cleans l → segs (of_segs l) = l.
Proof.
  intros Hl. unfold of_segs. rw segs_slash. unfold segs, normalizeString.
  destruct l as [|w l]; [done|].
  rw parts_join; [|done|by apply cleans_plain]. rw pushes_own // app_nil_r reverse_involutive. done.
Qed.

Lemma canonical_of_segs l : cleans l → canonical (of_segs l).
Proof. intros Hl. unfold canonical. by rw segs_of_segs. Qed.

Lemma canonical_segs path : canonical (of_segs (segs path)).
Proof. apply canonical_of_segs, segs_clean. Qed.

Lemma segs_inj p q : canonical p → canonical q → segs p = segs q → p = q.
Proof. unfold canonical. congruence. Qed.

Lemma resolve_canonical cwd l : canonical (resolve cwd l).
Proof. apply canonical_segs. Qed.

Lemma canonical_absolute p : canonical p → isAbsolute p = true.
Proof. by intros <-. Qed.

Lemma canonical_nonempty p : canonical p → p ≠ EmptyString.
Proof. by intros <-. Qed.

Lemma segs_trailing path : segs (String.append path "/") = segs path.
Proof.
  unfold segs, normalizeString. rw (parts_app path EmptyString) foldl_app. done.
Qed.

Lemma resolve_absolute cwd p : canonical p → resolve cwd [p] = p.
Proof.
  intros Hp. unfold resolve. rw reverse_singleton. simpl.
  rw bool_decide_false; [|by apply canonical_nonempty]. rw canonical_absolute //.
  rw (segs_trailing p). done.
Qed.

(** [resolve(dir, path)] *)
Lemma resolve_two_absolute cwd d p : isAbsolute p = true → resolve cwd [d; p] = of_segs (segs p).
Proof.
  intros Hp. unfold resolve. change (reverse [d; p]) with [p; d]. simpl.
  rw bool_decide_false; [|by intros ->]. rw Hp (segs_trailing p). done.
Qed.

Lemma resolve_two_relative cwd d p : canonical d → isAbsolute p = false →
  resolve cwd [d; p] = of_segs (reverse (foldl (push_part false) (reverse (segs d)) (parts p))).
Proof.
  intros Hd Hp. unfold resolve. change (reverse [d; p]) with [p; d]. simpl.
  assert (∀ acc, segs (String.append d (String slash acc)) =
    reverse (foldl (push_part false) (reverse (segs d)) (parts acc))) as Hsegs.
  { intros acc. unfold segs at 1, normalizeString. rw parts_app foldl_app. do 2 f_equal.
    unfold segs, normalizeString. by rw reverse_involutive. }
  case_bool_decide as He.
  - subst. rw bool_decide_false; [|by apply canonical_nonempty]. rw canonical_absolute //. by rw Hsegs.
  - rw Hp. rw bool_decide_false; [|by apply canonical_nonempty]. rw canonical_absolute // Hsegs.
    rw (parts_app p EmptyString) foldl_app. done.
Qed.

(** ** Containment *)

Definition root : string := "/".

Lemma segs_root : segs root = [].
Proof. done. Qed.

Lemma segs_nil p : canonical p → segs p = [] ↔ p = root.
Proof. intros Hp. split; [|by intros ->]. intros Hs. by rw -Hp Hs. Qed.

Lemma parts_canonical p : canonical p → p ≠ root → parts p = EmptyString :: segs p.
Proof.
  intros Hp Hr. rw -{1}Hp. unfold of_segs. simpl. f_equal. apply parts_join.
  - by rw segs_nil.
  - apply cleans_plain, segs_clean.
Qed.

Lemma of_segs_app l k : l ≠ [] → k ≠ [] → of_segs (l ++ k) = String.append (of_segs l) (String slash (join_parts k)).
Proof.
  intros Hl Hk. unfold of_segs. rw append_cons. f_equal.
  induction l as [|w l IH]; [done|]. destruct l as [|v l].
  - simpl. by rw join_parts_cons.
  - change ((w :: v :: l) ++ k) with (w :: ((v :: l) ++ k)).
    rw join_parts_cons // IH // (join_parts_cons w (v :: l)) // append_assoc. done.
Qed.

(** [p] is [d] or below it. *)
Definition within (d p : string) : Prop := segs d `prefix_of` segs p.

#[export] Instance within_dec d p : Decision (within d p).
Proof. unfold within. apply _. Defined.

Lemma within_refl d : within d d.
Proof. by exists []; rw app_nil_r. Qed.

Lemma within_trans a b c : within a b → within b c → within a c.
Proof. intros [k Hk] [j Hj]. exists (k ++ j). by rw Hj Hk app_assoc. Qed.

Lemma within_root p : within root p.
Proof. by exists (segs p). Qed.

(** [p.startsWith(d + "/")] *)
Lemma starts_with_dir d p : canonical d → canonical p → d ≠ root →
  starts_with (String.append d "/") p = true ↔ ∃ w rest, segs p = segs d ++ w :: rest.
Proof.
  intros Hd Hp Hr. rw starts_with_spec. split.
  - intros [r Hpr]. rw append_assoc in Hpr. change (String.append "/" r) with (String slash r) in Hpr.
    assert (p ≠ root) as Hpn.
    { intros ->. rw -Hd in Hpr. unfold of_segs in Hpr. rw append_cons in Hpr. injection Hpr as Hpr.
      by destruct (join_parts (segs d)). }
    pose proof (f_equal parts Hpr) as Hparts. rw parts_app (parts_canonical p) // (parts_canonical d) // in Hparts.
    injection Hparts as ->. pose proof (parts_nonempty r). destruct (parts r) as [|w l]; [done|].
    by exists w, l.
  - intros (w & rest & Hs). exists (join_parts (w :: rest)).
    rw append_assoc -{1}Hp Hs of_segs_app //; [|by rw segs_nil]. by rw Hd.
Qed.

Lemma within_spec d p : canonical d → canonical p → d ≠ root →
  within d p ↔ p = d ∨ starts_with (String.append d "/") p = true.
Proof.
  intros Hd Hp Hr. rw (starts_with_dir d p) //. split.
  - intros [k Hk]. destruct k as [|w rest]; [left|by right; exists w, rest].
    rw app_nil_r in Hk. by apply segs_inj.
  - intros [->|(w & rest & Hs)]; [by apply within_refl|by exists (w :: rest)].
Qed.

(** ** The parent and the last piece *)

Lemma segs_snoc_canonical p : canonical p → p ≠ root → ∃ l w, segs p = l ++ [w] ∧ cleans l ∧ clean w = true.
Proof.
  intros Hp Hr. destruct (segs p) as [|w l _] eqn:Hs using rev_ind; [by apply segs_nil in Hs|].
  exists l, w. split; [done|]. pose proof (segs_clean p) as Hc. rw Hs in Hc.
  apply Forall_app in Hc as [? Hw]. by inversion Hw.
Qed.

Lemma reverse_parts p l w : canonical p → segs p = l ++ [w] → clean w = true →
  drop_empty (reverse (parts p)) = w :: reverse (EmptyString :: l).
Proof.
  intros Hp Hs (Hw & _)%clean_spec. rw parts_canonical //.
  - rw Hs (app_comm_cons l [w] EmptyString) reverse_app /=. by rw bool_decide_false.
  - intros ->. rw segs_root in Hs. by destruct l.
Qed.

Lemma basename_snoc p l w : canonical p → segs p = l ++ [w] → basename p = w.
Proof.
  intros Hp Hs. unfold basename. erewrite reverse_parts; [done..|].
  pose proof (segs_clean p) as Hc. rw Hs in Hc. apply Forall_app in Hc as [_ Hw]. by inversion Hw.
Qed.

Lemma join_parts_empty l : cleans l → join_parts (EmptyString :: l) = if decide (l = []) then EmptyString else of_segs l.
Proof. intros _. case_decide as Hl; [by subst|]. by rw join_parts_cons. Qed.

Lemma of_segs_not_root l : cleans l → l ≠ [] → of_segs l ≠ root.
Proof. intros Hc Hl He. apply (f_equal segs) in He. by rw segs_of_segs in He. Qed.

Lemma dirname_snoc p l w : canonical p → segs p = l ++ [w] → dirname p = of_segs l.
Proof.
  intros Hp Hs. pose proof (segs_clean p) as Hc. rw Hs in Hc. apply Forall_app in Hc as [Hl Hw].
  inversion Hw. unfold dirname. rw bool_decide_false; [|by apply canonical_nonempty].
  erewrite reverse_parts; [|done..]. rw reverse_involutive join_parts_empty //. case_decide as Hn.
  - subst. rw bool_decide_true //. by rw canonical_absolute.
  - rw bool_decide_false // bool_decide_false //. by apply of_segs_not_root.
Qed.

Lemma dirname_root : dirname root = root.
Proof. done. Qed.

Lemma dirname_canonical p : canonical p → canonical (dirname p).
Proof.
  intros Hp. destruct (decide (p = root)) as [->|Hr]; [by vm_compute|].
  destruct (segs_snoc_canonical p Hp Hr) as (l & w & Hs & Hl & _).
  rw (dirname_snoc p l w) //. by apply canonical_of_segs.
Qed.

(** [join(dir, ...pieces)] *)
Lemma dirname_fixed p : canonical p → p = dirname p → p = root.
Proof.
  intros Hp Hd. destruct (decide (p = root)) as [|Hr]; [done|].
  destruct (segs_snoc_canonical p Hp Hr) as (l & w & Hs & Hl & _).
  rw (dirname_snoc p l w) // in Hd. apply (f_equal segs) in Hd. rw segs_of_segs // Hs in Hd.
  apply (f_equal length) in Hd. rw length_app /= in Hd. lia.
Qed.

Lemma last_clean l : cleans l → l ≠ [] → last l ≠ Some EmptyString.
Proof.
  intros Hl Hn He. apply last_Some_elem_of in He. apply (proj1 (Forall_forall _ _) Hl) in He. done.
Qed.

Lemma normalize_absolute p : isAbsolute p = true → p ≠ EmptyString →
  last (parts p) ≠ Some EmptyString ∨ segs p = [] → normalize p = of_segs (segs p).
Proof.
  intros Ha Hn Ht. unfold normalize. rw bool_decide_false // Ha. simpl. fold (segs p).
  case_bool_decide as Hs; [by rw Hs|]. destruct Ht as [Ht|?]; [|done].
  by rw bool_decide_false // append_nil_r.
Qed.

Lemma join_clean d l : canonical d → cleans l → join (d :: l) = of_segs (segs d ++ l).
Proof.
  intros Hd Hl. unfold join.
  assert (filter (λ p, p ≠ EmptyString) (d :: l) = d :: l) as ->.
  { apply filter_keep. constructor; [by apply canonical_nonempty|].
    eapply Forall_impl; [exact Hl|]. by intros w (? & _)%clean_spec. }
  destruct l as [|w l].
  { rw app_nil_r Hd. change (join_parts [d]) with d.
    rw normalize_absolute //; [by apply canonical_absolute|by apply canonical_nonempty|].
    destruct (decide (d = root)) as [->|Hr]; [by right|left].
    rw parts_canonical // last_cons. pose proof (last_clean (segs d) (segs_clean d)) as Hlast.
    destruct (last (segs d)) eqn:He; [|by apply last_None, segs_nil in He].
    intros [= ->]. apply Hlast; [|done]. by rw segs_nil. }
  assert (parts (join_parts (d :: w :: l)) = parts d ++ w :: l) as Hparts.
  { rw join_parts_cons // parts_app parts_join //. by apply cleans_plain. }
  assert (segs (join_parts (d :: w :: l)) = segs d ++ w :: l) as Hsegs.
  { unfold segs, normalizeString. rw Hparts foldl_app pushes_own // reverse_app reverse_involutive. done. }
  rw normalize_absolute ?Hsegs //.
  - by rw join_parts_cons // -Hd.
  - rw join_parts_cons // -Hd /of_segs append_cons. done.
  - left. rw Hparts last_app. destruct (last (w :: l)) eqn:He; [|by apply last_None in He].
    rw -He. by apply last_clean.
Qed.

Lemma join_canonical d l : canonical d → cleans l → canonical (join (d :: l)).
Proof.
  intros Hd Hl. rw join_clean //. apply canonical_of_segs, Forall_app_2; [apply segs_clean|done].
Qed.

(** ** Relative paths *)

Lemma relative_segs_within l k : relative_segs l (l ++ k) = k.
Proof. induction l as [|a l IH]; [done|]. simpl. by rw bool_decide_true. Qed.

Lemma relative_segs_outside l k : ¬ l `prefix_of` k →
  ∃ r, relative_segs l k = ".."%string :: r.
Proof.
  revert k. induction l as [|a l IH]; intros k Hp.
  { destruct Hp. by exists k. }
  destruct k as [|b k]; simpl; [by eexists|]. case_bool_decide as Hab; [|by eexists].
  apply IH. intros [j ->]. apply Hp. exists j. by rw Hab.
Qed.

Lemma starts_with_piece p w r : has_char slash p = false →
  starts_with p (String.append w (String slash r)) = starts_with p w.
Proof.
  revert w. induction p as [|a p IH]; intros w; [done|]. simpl. intros [Ha Hp]%orb_false_iff.
  apply bool_decide_eq_false in Ha. destruct w as [|b w]; rewrite ?append_empty ?append_cons.
  - by rw bool_decide_false.
  - by rw IH.
Qed.

Lemma starts_with_join p w l : has_char slash p = false → starts_with p (join_parts (w :: l)) = starts_with p w.
Proof. intros Hp. destruct l; [done|]. rw join_parts_cons //. by apply starts_with_piece. Qed.

Lemma clean_not_absolute w : clean w = true → isAbsolute w = false.
Proof.
  intros (Hn & _ & _ & Hw)%clean_spec. destruct w as [|a w]; [done|]. simpl in Hw.
  apply orb_false_iff in Hw as [Ha _]. apply bool_decide_eq_false in Ha.
  unfold isAbsolute. simpl. by rw bool_decide_false.
Qed.

Lemma join_not_absolute l : cleans l → isAbsolute (join_parts l) = false.
Proof.
  intros Hl. destruct l as [|w l]; [done|]. inversion Hl. destruct l as [|v l].
  { by apply clean_not_absolute. }
  rw join_parts_cons //. pose proof (clean_not_absolute w) as Ha.
  destruct w as [|a w]; [done|]. unfold isAbsolute in *. rw append_cons. simpl in *. by apply Ha.
Qed.

Lemma resolve_below cwd d l : canonical d → cleans l → resolve cwd [d; join_parts l] = of_segs (segs d ++ l).
Proof.
  intros Hd Hl. rw resolve_two_relative //; [|by apply join_not_absolute]. f_equal.
  destruct l as [|w l]; [by rw app_nil_r reverse_involutive|].
  rw parts_join //; [|by apply cleans_plain]. rw pushes_own // reverse_app !reverse_involutive. done.
Qed.

(** What the relative path tells of containment. *)
Lemma relative_within cwd b t : canonical b → canonical t → within b t → ∃ l,
  segs t = segs b ++ l ∧ cleans l ∧ relative cwd b t = join_parts l ∧ resolve cwd [b; relative cwd b t] = t.
Proof.
  intros Hb Ht [l Hl]. exists l.
  assert (cleans l) as Hc by (pose proof (segs_clean t) as Hc; rw Hl in Hc; by apply Forall_app in Hc as [? ?]).
  assert (relative cwd b t = join_parts l) as Hr.
  { unfold relative. by rw !resolve_absolute // Hl relative_segs_within. }
  split_and!; [done..|]. rw Hr resolve_below // -Hl. done.
Qed.

Lemma relative_outside cwd b t : canonical b → canonical t → ¬ within b t →
  starts_with ".." (relative cwd b t) = true.
Proof.
  intros Hb Ht [r Hr]%relative_segs_outside. unfold relative. rw !resolve_absolute // Hr.
  by rw starts_with_join.
Qed.
