(* ===== verification/PathPolicy.v ===== *)
(** * Path policies of the file tools

    [assistant/src/util/fs-symlinks.ts], [assistant/src/tools/shared/filesystem/path-policy.ts]
    and the path half of [assistant/src/permissions/workspace-policy.ts]: where a
    path a tool was given leads, and whether the tool may go there.  The file
    system is seen through [realpathSync] and [readlinkSync]; the class
    [CanonicalFs] says what is relied on.  Paths are resolved against the
    directory [cwd] of the process.  The texts of the refusals are left out. *)

From S2P Require Import Prelude JsText Paths.

(** What the process sees of the file system: [None] where a call throws, or,
    for [readlinkSync], where [lstatSync] finds no symbolic link. *)
Record file_system := {
  realpathSync : string → option string;
  readlinkSync : string → option string;
}.

(** [s.slice(n)] *)
Fixpoint slice_from (n : nat) (s : string) : string :=
  match n, s with
  | S n, String _ s => slice_from n s
  | _, _ => s
  end.

Section policy.
Context (cwd : string) (fs : file_system).

(** ** Symbolic links *)

Fixpoint follow_links (depth : nat) (current : string) : string :=
  match depth with
  | O => current
  | S depth =>
      match readlinkSync fs current with
      | None => current
      | Some linkTarget => follow_links depth (resolve cwd [dirname current; linkTarget])
      end
  end.

Definition resolveTrailingLinkTarget (path : string) : string := follow_links 64 path.

(** The loop of [resolveRealPath]; [None] when the fuel is spent. *)
Fixpoint real_walk (fuel : nat) (absolutePath current : string) (trailing : list string) : option string :=
  match fuel with
  | O => None
  | S fuel =>
      if bool_decide (current = dirname current) then Some absolutePath
      else match realpathSync fs current with
           | Some real => Some (if bool_decide (trailing = []) then real else join (real :: trailing))
           | None => real_walk fuel absolutePath (dirname current) (basename current :: trailing)
           end
  end.

Definition resolveRealPath (absolutePath : string) : string :=
  let current := resolveTrailingLinkTarget absolutePath in
  match real_walk (S (S (String.length current))) absolutePath current [] with
  | Some real => real
  | None => absolutePath
  end.

(** ** Denied names *)

Definition DENIED_BASENAMES : list string := [".backup.key"; "backup.key"].

Definition isDeniedBasename (path : string) : bool := bool_decide (basename path ∈ DENIED_BASENAMES).

(** [/^\/proc\/(?:\d+|self|thread-self)\/environ$/] *)
Definition is_process (w : string) : bool :=
  bool_decide (w = "self"%string) || bool_decide (w = "thread-self"%string) ||
  bool_decide (w ≠ EmptyString) && all_chars is_digit w.

Definition isProcessEnvironPath (path : string) : bool :=
  match parts path with
  | [a; b; c; d] =>
      bool_decide (a = EmptyString) && bool_decide (b = "proc"%string) && is_process c &&
      bool_decide (d = "environ"%string)
  | _ => false
  end.

(** ** The target of a call *)

Inductive PathFailureReason := not_absolute | out_of_bounds | denied.
Inductive PathResult := path_ok (resolved : string) | path_refused (reason : PathFailureReason).

Definition CONTAINER_WORKSPACE_PREFIX : string := "/workspace/".
Definition CONTAINER_WORKSPACE_EXACT : string := "/workspace".

Record SandboxTarget := { resolved : string; realResolved : string; realBoundary : string }.

(** The remap of container-scoped paths. *)
Definition effectivePath (rawPath boundaryDir : string) : string :=
  if negb (starts_with (String.append boundaryDir "/") rawPath) && bool_decide (rawPath ≠ boundaryDir) then
    if starts_with CONTAINER_WORKSPACE_PREFIX rawPath
    then slice_from (String.length CONTAINER_WORKSPACE_PREFIX) rawPath
    else if bool_decide (rawPath = CONTAINER_WORKSPACE_EXACT) then "."%string else rawPath
  else rawPath.

Definition resolveSandboxTarget (rawPath boundaryDir : string) (mustExist : bool) : SandboxTarget :=
  let resolved := resolve cwd [boundaryDir; effectivePath rawPath boundaryDir] in
  let linkTarget := resolveTrailingLinkTarget resolved in
  {| resolved := resolved;
     realResolved :=
       if mustExist
       then match realpathSync fs linkTarget with Some real => real | None => linkTarget end
       else resolveRealPath linkTarget;
     realBoundary := match realpathSync fs boundaryDir with Some real => real | None => boundaryDir end |}.

Definition isOutOfBounds (target : SandboxTarget) : bool :=
  let rel := relative cwd (realBoundary target) (realResolved target) in
  starts_with ".." rel || bool_decide (resolve cwd [realBoundary target; rel] ≠ realResolved target).

(** [deniedFailure(target)] *)
Definition deniedFailure (target : SandboxTarget) : option PathResult :=
  if isDeniedBasename (resolved target) || isDeniedBasename (realResolved target)
  then Some (path_refused denied)
  else if isProcessEnvironPath (resolved target) || isProcessEnvironPath (realResolved target)
  then Some (path_refused denied)
  else None.

(** ** Protected directories *)

(** What the process reads of its environment; [userInfo_homedir] is [None] when
    [userInfo()] throws. *)
Record environment := {
  HOME : option string;
  userInfo_homedir : option string;
  os_homedir : string;
  GATEWAY_SECURITY_DIR : option string;
  CREDENTIAL_SECURITY_DIR : option string;
  dotEnvPath : string;
  isContainerized : bool;
}.

Context (env : environment).

Definition or_else (a : option string) (b : string) : string :=
  match a with Some s => if bool_decide (s = EmptyString) then b else s | None => b end.

Definition SECURITY_DIR_ENV_VARS : list (option string) :=
  [GATEWAY_SECURITY_DIR env; CREDENTIAL_SECURITY_DIR env].

Definition security_override (name : option string) : option string :=
  match js_trim <$> name with
  | Some override =>
      if bool_decide (override ≠ EmptyString) && isAbsolute override then Some (resolve cwd [override]) else None
  | None => None
  end.

Definition getProtectedServicePaths : list string :=
  js_set (join [or_else (HOME env) (or_else (userInfo_homedir env) (os_homedir env)); ".vellum"%string; "protected"%string]
    :: omap security_override SECURITY_DIR_ENV_VARS ++ [dotEnvPath env]).

Definition securityDirConfigMirrorable : bool :=
  forallb (λ name, match js_trim <$> name with
                   | Some override => bool_decide (override = EmptyString) || isAbsolute override
                   | None => true
                   end) SECURITY_DIR_ENV_VARS.

Definition isWithinDir (path dir : string) : bool :=
  let normalized :=
    if bool_decide (dir ≠ "/"%string) then match before_suffix "/" dir with Some d => d | None => dir end else dir in
  if bool_decide (normalized = "/"%string) then isAbsolute path
  else bool_decide (path = normalized) || starts_with (String.append normalized "/") path.

Definition hits (target : SandboxTarget) (protectedPath : string) : bool :=
  let realProtectedPath := resolveRealPath protectedPath in
  existsb (λ path, isWithinDir path protectedPath || isWithinDir path realProtectedPath)
    [resolved target; realResolved target].

Definition securityDirDenial (target : SandboxTarget) : option PathResult :=
  if existsb (hits target) getProtectedServicePaths then Some (path_refused denied) else None.

(** ** The policies *)

Definition evaluateSandboxPolicy (rawPath boundaryDir : string) (mustExist allowOutOfBounds : bool) : PathResult :=
  let target := resolveSandboxTarget rawPath boundaryDir mustExist in
  if negb allowOutOfBounds && isOutOfBounds target then path_refused out_of_bounds
  else match securityDirDenial target with
       | Some failure => failure
       | None =>
           match deniedFailure target with
           | Some failure => failure
           | None => path_ok (resolved target)
           end
       end.

Definition sandboxPolicy (rawPath boundaryDir : string) (mustExist : bool) : PathResult :=
  evaluateSandboxPolicy rawPath boundaryDir mustExist false.

Definition sandboxPolicyWithHostFallback (rawPath boundaryDir : string) (mustExist : bool) : PathResult :=
  evaluateSandboxPolicy rawPath boundaryDir mustExist
    (negb (isContainerized env) && securityDirConfigMirrorable).

Definition sandboxReadPolicy (rawPath boundaryDir : string) (mustExist : bool) : PathResult :=
  evaluateSandboxPolicy rawPath boundaryDir mustExist securityDirConfigMirrorable.

Definition hostPolicy (rawPath : string) : PathResult :=
  if negb (isAbsolute rawPath) then path_refused not_absolute
  else if isDeniedBasename rawPath then path_refused denied
  else path_ok rawPath.
End policy.

(** ** What is relied on *)

(** A real path is absolute, without empty pieces, [.] and [..]. *)
Class CanonicalFs (fs : file_system) : Prop :=
  real_canonical p r : realpathSync fs p = Some r → canonical r.

Lemma length_parts s : (length (parts s) ≤ S (String.length s))%nat.
Proof.
  induction s as [|a s IH]; simpl; [lia|]. case_decide; simpl; [lia|].
  destruct (parts s); simpl in *; lia.
Qed.

Lemma length_segs p : canonical p → (length (segs p) ≤ String.length p)%nat.
Proof.
  intros Hp. destruct (decide (p = root)) as [->|Hr]; [rw segs_root /=; lia|].
  pose proof (length_parts p) as Hl. rw parts_canonical // /= in Hl. lia.
Qed.

Lemma canonical_no_suffix d : canonical d → d ≠ root → before_suffix "/" d = None.
Proof.
  intros Hd Hr. destruct (before_suffix "/" d) as [x|] eqn:Hx; [|done].
  apply before_suffix_some in Hx. pose proof (f_equal parts Hx) as Hp.
  rw (parts_app x EmptyString) (parts_canonical d) // in Hp.
  apply (f_equal last) in Hp. rw last_snoc last_cons in Hp.
  pose proof (last_clean (segs d) (segs_clean d)) as Hl.
  destruct (last (segs d)) eqn:He; [|by apply last_None, segs_nil in He].
  simplify_eq. destruct Hl; [by rw segs_nil|done].
Qed.

Section laws.
Context (cwd : string) (fs : file_system) `{!CanonicalFs fs}.

Lemma follow_links_canonical n p : canonical p → canonical (follow_links cwd fs n p).
Proof.
  revert p. induction n as [|n IH]; intros p Hp; [done|]. simpl.
  destruct (readlinkSync fs p); [|done]. apply IH, resolve_canonical.
Qed.

(** The walk ends with its fuel. *)
Lemma real_walk_total fuel a p tr : canonical p → (length (segs p) < fuel)%nat →
  is_Some (real_walk fs fuel a p tr).
Proof.
  revert p tr. induction fuel as [|fuel IH]; intros p tr Hp Hl; [lia|]. simpl.
  case_bool_decide as Hd; [done|]. destruct (realpathSync fs p); [done|].
  assert (p ≠ root) as Hr by (by intros ->).
  destruct (segs_snoc_canonical p Hp Hr) as (l & w & Hs & Hc & _).
  apply IH; [by apply dirname_canonical|]. rw (dirname_snoc p l w) // segs_of_segs //.
  rw Hs length_app /= in Hl. lia.
Qed.

Lemma real_walk_canonical fuel a p tr r : canonical a → canonical p → cleans tr →
  real_walk fs fuel a p tr = Some r → canonical r.
Proof.
  intros Ha. revert p tr. induction fuel as [|fuel IH]; intros p tr Hp Ht; [done|]. simpl.
  case_bool_decide as Hd; [by intros [= <-]|].
  destruct (realpathSync fs p) as [q|] eqn:Hq.
  - apply real_canonical in Hq. intros [= <-]. case_bool_decide; [done|]. by apply join_canonical.
  - assert (p ≠ root) as Hr by (by intros ->).
    destruct (segs_snoc_canonical p Hp Hr) as (l & w & Hs & _ & Hw).
    apply IH; [by apply dirname_canonical|]. constructor; [by rw (basename_snoc p l w)|done].
Qed.

Lemma resolveRealPath_canonical p : canonical p → canonical (resolveRealPath cwd fs p).
Proof.
  intros Hp. unfold resolveRealPath. destruct (real_walk _ _ _ _ _) as [r|] eqn:Hr; [|done].
  eapply real_walk_canonical; [exact Hp| |by constructor|exact Hr]. by apply follow_links_canonical.
Qed.

Lemma target_canonical raw b me : canonical b →
  canonical (resolved (resolveSandboxTarget cwd fs raw b me)) ∧
  canonical (realResolved (resolveSandboxTarget cwd fs raw b me)) ∧
  canonical (realBoundary (resolveSandboxTarget cwd fs raw b me)).
Proof.
  intros Hb. unfold resolveSandboxTarget. simpl. set (p := resolve _ _).
  assert (canonical p) as Hp by apply resolve_canonical.
  assert (canonical (resolveTrailingLinkTarget cwd fs p)) as Hl by (by apply follow_links_canonical).
  split_and!; [done| |].
  - destruct me; [|by apply resolveRealPath_canonical].
    destruct (realpathSync fs _) eqn:Hr; [by eapply real_canonical|done].
  - destruct (realpathSync fs b) eqn:Hr; [by eapply real_canonical|done].
Qed.

(** A file that is below the boundary, with a name there that begins with two dots. *)
Definition dotted (b t : string) : Prop := ∃ w rest, segs t = segs b ++ w :: rest ∧ starts_with ".." w = true.

Lemma isOutOfBounds_spec t : canonical (realBoundary t) → canonical (realResolved t) →
  isOutOfBounds cwd t = false ↔
    within (realBoundary t) (realResolved t) ∧ ¬ dotted (realBoundary t) (realResolved t).
Proof.
  intros Hb Ht. unfold isOutOfBounds. rw orb_false_iff.
  destruct (decide (within (realBoundary t) (realResolved t))) as [Hw|Hw].
  - destruct (relative_within cwd _ _ Hb Ht Hw) as (l & Hl & Hc & Hr & ->). rw bool_decide_false; [|tauto].
    rw Hr. split.
    + intros [Hs _]. split; [done|]. intros (w & rest & Hsegs & Hd). rw Hl in Hsegs.
      apply app_inv_head in Hsegs as ->. rw starts_with_join // in Hs. congruence.
    + intros [_ Hd]. split; [|done]. destruct l as [|w rest]; [done|]. rw starts_with_join //.
      apply not_true_iff_false. intros Hs. apply Hd. by exists w, rest.
  - rw relative_outside //. split; [by intros [? _]|by intros [? _]].
Qed.

Lemma isWithinDir_spec p d : canonical p → canonical d → isWithinDir p d = true ↔ within d p.
Proof.
  intros Hp Hd. unfold isWithinDir. destruct (decide (d = root)) as [->|Hr].
  { assert (bool_decide (root ≠ "/"%string) = false) as -> by done.
    assert (bool_decide (root = "/"%string) = true) as -> by done.
    rw canonical_absolute //. split; [intros _; apply within_root|done]. }
  rw (bool_decide_true _ Hr) canonical_no_suffix // (bool_decide_false _ Hr) orb_true_iff bool_decide_eq_true.
  by rw within_spec.
Qed.

Context (env : environment).

(** The target is, or lies below, a protected path or what it leads to. *)
Definition touches (t : SandboxTarget) (d : string) : Prop :=
  ∃ p, (p = resolved t ∨ p = realResolved t) ∧ (within d p ∨ within (resolveRealPath cwd fs d) p).

Lemma hits_spec t d : canonical (resolved t) → canonical (realResolved t) → canonical d →
  hits cwd fs t d = true ↔ touches t d.
Proof.
  intros H1 H2 Hd. unfold hits, touches. simpl.
  rw !orb_true_iff !isWithinDir_spec //; try by apply resolveRealPath_canonical.
  split.
  - intros [H|[H|?]]; [by eauto|by eauto|done].
  - intros (p & [->| ->] & H); auto.
Qed.
End laws.

(** ** The policies decide *)

Section decisions.
Context (cwd : string) (fs : file_system) `{!CanonicalFs fs} (env : environment).

(** What a target must be like for the tool to go there. *)
Definition admitted (allowOutOfBounds : bool) (t : SandboxTarget) : Prop :=
  (allowOutOfBounds = false →
     within (realBoundary t) (realResolved t) ∧ ¬ dotted (realBoundary t) (realResolved t)) ∧
  (∀ d, d ∈ getProtectedServicePaths cwd env → ¬ touches cwd fs t d) ∧
  (∀ p, p = resolved t ∨ p = realResolved t →
     basename p ∉ DENIED_BASENAMES ∧ isProcessEnvironPath p = false).

Lemma deniedFailure_spec t :
  deniedFailure t = None ↔ ∀ p, p = resolved t ∨ p = realResolved t →
    basename p ∉ DENIED_BASENAMES ∧ isProcessEnvironPath p = false.
Proof.
  unfold deniedFailure, isDeniedBasename.
  destruct (isProcessEnvironPath (resolved t)) eqn:He; destruct (isProcessEnvironPath (realResolved t)) eqn:Hf;
    repeat case_bool_decide; simpl; split; intros H'; try done;
    try (by destruct (H' (resolved t)) as [? ?]; [by left|congruence]);
    try (by destruct (H' (realResolved t)) as [? ?]; [by right|congruence]).
  by intros p [->| ->].
Qed.

Lemma deniedFailure_refuses t f : deniedFailure t = Some f → f = path_refused denied.
Proof. unfold deniedFailure. repeat case_match; by intros [= <-]. Qed.

End decisions.

(** Names that begin with two dots are refused.  The boundary is checked on
    the text of the relative path, so a file of the workspace whose first name
    there begins with two dots counts as outside of it. *)
Theorem dotted_names_are_out_of_bounds cwd fs `{!CanonicalFs fs} env raw b mustExist :
  canonical b →
  let t := resolveSandboxTarget cwd fs raw b mustExist in
  dotted (realBoundary t) (realResolved t) →
  within (realBoundary t) (realResolved t) ∧
  sandboxPolicy cwd fs env raw b mustExist = path_refused out_of_bounds.
Proof.
  intros Hb t Hd. split.
  { destruct Hd as (w & rest & Hs & _). by exists (w :: rest). } destruct (target_canonical cwd fs raw b mustExist Hb) as (H1 & H2 & H3).
  unfold sandboxPolicy, evaluateSandboxPolicy. fold t. simpl.
  destruct (isOutOfBounds cwd t) eqn:Ho; [done|]. by apply isOutOfBounds_spec in Ho as [_ []].
Qed.

(** ** A file system without links *)

Definition plain_fs (nodes : list string) : file_system := {|
  realpathSync p := if bool_decide (p ∈ nodes) then Some p else None;
  readlinkSync _ := None |}.

Lemma plain_canonical nodes : Forall canonical nodes → CanonicalFs (plain_fs nodes).
Proof.
  intros Hn p r. simpl. case_bool_decide as Hp; [|done]. intros [= <-].
  by apply (proj1 (Forall_forall _ _) Hn).
Qed.

Definition sample_nodes : list string := ["/"; "/w"; "/w/notes"; "/w/notes/a.md"; "/etc"; "/etc/passwd"].
Definition sample_env (containerized : bool) : environment := {|
  HOME := Some "/root"%string; userInfo_homedir := None; os_homedir := "/"; GATEWAY_SECURITY_DIR := None;
  CREDENTIAL_SECURITY_DIR := None; dotEnvPath := "/root/.vellum/.env"; isContainerized := containerized |}.

Lemma sample_fs_canonical : CanonicalFs (plain_fs sample_nodes).
Proof. by apply plain_canonical, (bool_decide_unpack _); vm_compute. Qed.

Example policy_samples :
  let policy raw := sandboxPolicy "/" (plain_fs sample_nodes) (sample_env true) raw "/w" false in
  (policy <$> ["notes/b.md"; "/workspace/x"; "../etc/passwd"; "/workspace//etc/passwd"; "/w"; "backup.key"; "..rc"]
     = [path_ok "/w/notes/b.md"; path_ok "/w/x"; path_refused out_of_bounds; path_refused out_of_bounds;
        path_ok "/w"; path_refused denied; path_refused out_of_bounds])%string ∧
  sandboxReadPolicy "/" (plain_fs sample_nodes) (sample_env true) "/proc/self/environ" "/w" true
    = path_refused denied.
Proof. by vm_compute. Qed.


Lemma dotted_names_are_out_of_bounds_witness :
  within (realBoundary (resolveSandboxTarget "/" (plain_fs sample_nodes) "..rc" "/w" false))
    (realResolved (resolveSandboxTarget "/" (plain_fs sample_nodes) "..rc" "/w" false)) ∧
  sandboxPolicy "/" (plain_fs sample_nodes) (sample_env false) "..rc" "/w" false = path_refused out_of_bounds.
Proof.
  eapply (@dotted_names_are_out_of_bounds "/" (plain_fs sample_nodes) sample_fs_canonical).
  - by vm_compute.
  - by exists "..rc"%string, [].
Defined.
