(* ===== verification/PosixFs.v ===== *)
(** * A POSIX file system

    Directories, files and symbolic links, and how the kernel walks a path over
    them (path_resolution(7)): what [realpathSync], [readlinkSync] and an [open]
    that creates the file see.  The reference the checks of [PathPolicy] are
    compared with. *)

From S2P Require Import Prelude JsText Paths PathPolicy.

Inductive node := Dir | File | Link (target : string).

(** The nodes below the root. *)
Notation tree := (gmap (list string) node).

(** Walk the pieces [todo] from the directory [cur].  With [create] the last piece
    may be missing.  A link's target is walked in its place. *)
Fixpoint walk (fuel : nat) (create : bool) (t : tree) (cur todo : list string) : option (list string) :=
  match fuel with
  | O => None
  | S fuel =>
      match todo with
      | [] => Some cur
      | w :: todo =>
          if bool_decide (w = EmptyString) || bool_decide (w = "."%string) then walk fuel create t cur todo
          else if bool_decide (w = ".."%string) then walk fuel create t (removelast cur) todo
          else match t !! (cur ++ [w]) with
               | Some Dir => walk fuel create t (cur ++ [w]) todo
               | Some File => if bool_decide (todo = []) then Some (cur ++ [w]) else None
               | Some (Link target) =>
                   walk fuel create t (if isAbsolute target then [] else cur) (parts target ++ todo)
               | None => if create && bool_decide (todo = []) then Some (cur ++ [w]) else None
               end
      end
  end.

(** More steps than any path of the examples takes. *)
Definition limit : nat := 400.

Definition kernel_real (t : tree) (p : string) : option string := of_segs <$> walk limit false t [] (parts p).

(** The file that [open] with [O_CREAT] reaches. *)
Definition opened (t : tree) (p : string) : option string := of_segs <$> walk limit true t [] (parts p).

Definition kernel_readlink (t : tree) (p : string) : option string :=
  match walk limit false t [] (parts (dirname p)) with
  | Some d => match t !! (d ++ [basename p]) with Some (Link target) => Some target | _ => None end
  | None => None
  end.

Definition posix_fs (t : tree) : file_system :=
  {| realpathSync := kernel_real t; readlinkSync := kernel_readlink t |}.

(** ** Laws of the walk *)

Lemma removelast_cleans l : cleans l → cleans (removelast l).
Proof.
  intros Hl. destruct l as [|x l _] using rev_ind; [done|]. rw removelast_last. by apply Forall_app in Hl as [? _].
Qed.

Lemma walk_clean fuel create t cur todo r : cleans cur → Forall (λ w, has_char slash w = false) todo →
  walk fuel create t cur todo = Some r → cleans r.
Proof.
  revert cur todo. induction fuel as [|fuel IH]; intros cur todo Hc Ht; [done|]. simpl.
  destruct Ht as [|w todo Hw Ht]; [by intros [= <-]|].
  case_bool_decide as H1; [by apply IH|]. case_bool_decide as H2; [by apply IH|]. simpl.
  case_bool_decide as H3; [by apply IH; [apply removelast_cleans|]|].
  assert (cleans (cur ++ [w])) as Hcw.
  { apply Forall_app_2; [done|]. constructor; [|done]. by apply clean_spec. }
  destruct (t !! (cur ++ [w])) as [[| |target]|].
  - by apply IH.
  - case_bool_decide; [|done]. by intros [= <-].
  - apply IH; [by destruct (isAbsolute target)|]. apply Forall_app_2; [apply parts_are_plain|done].
  - destruct (create && _); [|done]. by intros [= <-].
Qed.

Lemma real_is_canonical fuel t p r : of_segs <$> walk fuel false t [] (parts p) = Some r → canonical r.
Proof.
  intros (l & Hl & ->)%fmap_Some. apply canonical_of_segs.
  eapply walk_clean; [by constructor|apply parts_are_plain|exact Hl].
Qed.

#[export] Instance posix_canonical t : CanonicalFs (posix_fs t).
Proof. exact (real_is_canonical limit t). Qed.

Lemma walk_more fuel fuel' create t cur todo r : (fuel ≤ fuel')%nat →
  walk fuel create t cur todo = Some r → walk fuel' create t cur todo = Some r.
Proof.
  revert fuel' cur todo. induction fuel as [|fuel IH]; intros fuel' cur todo Hle; [done|].
  destruct fuel' as [|fuel']; [lia|]. simpl.
  destruct todo as [|w todo]; [done|]. case_match; [apply IH; lia|]. case_match; [apply IH; lia|].
  destruct (t !! (cur ++ [w])) as [[| |target]|]; [apply IH; lia|done|apply IH; lia|done].
Qed.

(** The directory part of a path is walked first. *)
Lemma walk_app fuel create t cur l k r : k ≠ [] → walk fuel create t cur (l ++ k) = Some r →
  ∃ d fuel', (fuel' ≤ fuel)%nat ∧ walk fuel false t cur l = Some d ∧ walk fuel' create t d k = Some r.
Proof.
  intros Hk. revert cur l. induction fuel as [|fuel IH]; intros cur l; [done|].
  destruct l as [|w l].
  { intros Hw. by exists cur, (S fuel). }
  assert (∀ cur l, walk fuel create t cur (l ++ k) = Some r →
    ∃ d fuel', (fuel' ≤ S fuel)%nat ∧ walk fuel false t cur l = Some d ∧ walk fuel' create t d k = Some r) as IH'.
  { intros c j Hc. destruct (IH c j Hc) as (d & f & ? & ? & ?). exists d, f. split_and!; [lia|done..]. }
  simpl. case_match; [apply IH'|]. case_match; [apply IH'|].
  destruct (t !! (cur ++ [w])) as [[| |target]|]; [apply IH'| | |].
  - rw bool_decide_false; [done|]. by destruct l.
  - rw app_assoc. apply IH'.
  - rw (bool_decide_false (l ++ k = [])); [|by destruct l]. by rw andb_false_r.
Qed.

(** The last piece of a walk that opens a file. *)
Lemma walk_last fuel t d w r : clean w = true → walk fuel true t d [w] = Some r →
  (∀ target, t !! (d ++ [w]) ≠ Some (Link target)) →
  r = d ++ [w] ∧ match t !! (d ++ [w]) with
                 | Some _ => walk (S (S O)) false t d [w] = Some r
                 | None => walk (S (S O)) false t d [w] = None
                 end.
Proof.
  intros (H1 & H2 & H3 & _)%clean_spec Hw Hl. destruct fuel as [|fuel]; [done|]. revert Hw. simpl.
  rw (bool_decide_false _ H1) (bool_decide_false _ H2) (bool_decide_false _ H3). simpl.
  destruct (t !! (d ++ [w])) as [[| |target]|].
  - destruct fuel; [done|]. by intros [= <-].
  - by intros [= <-].
  - by destruct (Hl target).
  - by intros [= <-].
Qed.

(** Creating a file is the only thing [create] adds. *)
Lemma walk_create fuel t cur todo r : walk fuel true t cur todo = Some r →
  walk fuel false t cur todo = Some r ∨ walk fuel false t cur todo = None ∧ t !! r = None.
Proof.
  revert cur todo. induction fuel as [|fuel IH]; intros cur todo; [done|]. simpl.
  destruct todo as [|w todo]; [by left|]. case_match; [apply IH|]. case_match; [apply IH|].
  destruct (t !! (cur ++ [w])) as [[| |target]|] eqn:Ht; [apply IH|by left|apply IH|].
  simpl. destruct (bool_decide (todo = [])); [|done]. intros [= <-]. by right.
Qed.

(** The pieces of the directory of a path. *)
Lemma walk_parent fuel t p l w d : canonical p → segs p = l ++ [w] →
  walk (S (S (S fuel))) false t [] (EmptyString :: l) = Some d → walk (S (S (S fuel))) false t [] (parts (dirname p)) = Some d.
Proof.
  intros Hp Hs Hd. rw (dirname_snoc p l w) //. destruct (decide (l = [])) as [->|Hl].
  - by simpl in Hd; simplify_eq.
  - assert (cleans l) as Hc by (pose proof (segs_clean p) as H; rw Hs in H; by apply Forall_app in H as [? _]).
    rw parts_canonical; [|by apply canonical_of_segs|by apply of_segs_not_root]. by rw segs_of_segs.
Qed.

Lemma limit_steps : ∃ n, limit = S (S (S n)).
Proof. by exists 397%nat. Qed.
#[local] Opaque limit.

Section opening.
Context (cwd : string) (t : tree).

(** Where an [open] that may create leads, seen from the parts of the path. *)
Lemma opened_parts fuel p l w r : canonical p → segs p = l ++ [w] →
  walk (S (S (S fuel))) true t [] (parts p) = Some r →
  ∃ d fuel', walk (S (S (S fuel))) false t [] (parts (dirname p)) = Some d ∧ cleans d ∧
    walk fuel' true t d [w] = Some r.
Proof.
  intros Hp Hs. assert (p ≠ root) as Hr by (intros ->; by destruct l).
  rw parts_canonical // Hs. change (EmptyString :: l ++ [w]) with ((EmptyString :: l) ++ [w]).
  intros (d & f & _ & Hd & Hw)%walk_app; [|done].
  apply (walk_parent fuel t p l w d) in Hd; [|done..]. exists d, f. split_and!; [done| |done].
  eapply walk_clean; [by constructor|apply parts_are_plain|exact Hd].
Qed.

(** [resolveRealPath] sees what [open] reaches, when the last piece is no link. *)
Lemma resolveRealPath_opened p r : canonical p → kernel_readlink t p = None → opened t p = Some r →
  resolveRealPath cwd (posix_fs t) p = r.
Proof.
  intros Hp Hl (q & Hq & ->)%fmap_Some. unfold resolveRealPath.
  assert (resolveTrailingLinkTarget cwd (posix_fs t) p = p) as ->.
  { unfold resolveTrailingLinkTarget. cbn [follow_links]. change (readlinkSync (posix_fs t) p) with (kernel_readlink t p).
    by rw Hl. }
  destruct limit_steps as [n Hn]. destruct (decide (p = root)) as [->|Hr].
  { rw Hn in Hq. simpl in Hq. case_match; simplify_eq; by destruct n; simplify_eq/=. }
  destruct (segs_snoc_canonical p Hp Hr) as (l & w & Hs & Hcl & Hw).
  pose proof Hq as Hq'. rw Hn in Hq'. destruct (opened_parts n p l w q Hp Hs Hq') as (d & f & Hd & Hcd & Hlast).
  unfold kernel_readlink in Hl. rw Hn Hd (basename_snoc p l w) // in Hl.
  destruct (walk_last f t d w q Hw Hlast) as [-> _].
  { intros target Ht. by rw Ht in Hl. }
  assert (p ≠ dirname p) as Hpd by (by intros ?%dirname_fixed).
  cbn [real_walk]. rw (bool_decide_false _ Hpd).
  assert (∀ x r, walk limit false t [] (parts x) = r → realpathSync (posix_fs t) x = of_segs <$> r) as Hreal.
  { by intros x r <-. }
  destruct (walk_create _ _ _ _ _ Hq) as [He|[He _]]; rw (Hreal _ _ He).
  { by rw bool_decide_true. }
  cbn [fmap option_fmap option_map real_walk]. rw (basename_snoc p l w) //.
  rw -Hn in Hd. rw (Hreal _ _ Hd).
  case_bool_decide as Hdd.
  - apply dirname_fixed in Hdd; [|by apply dirname_canonical]. rw Hdd Hn in Hd. injection Hd as <-.
    rw (dirname_snoc p l w) // in Hdd. destruct (decide (l = [])) as [->|Hll].
    + simpl in Hs. simpl. rw -Hs. by symmetry.
    + by destruct (of_segs_not_root l).
  - cbn [fmap option_fmap option_map real_walk]. rw bool_decide_false; [|done]. rw join_clean; [|by apply canonical_of_segs|by repeat constructor].
    by rw segs_of_segs.
Qed.
End opening.

(** C23 — The checks see the file that is opened.  When the last name of the lexical
    target is no symbolic link and the boundary exists, the path a write is
    checked at is the one an [open] that creates the file reaches, links in the
    directories above it included; so a write the sandbox policy admits lands in
    the real boundary and in no protected directory. *)
Theorem checks_see_what_is_opened cwd t env raw b r :
  canonical b → Forall canonical (getProtectedServicePaths cwd env) →
  let target := resolveSandboxTarget cwd (posix_fs t) raw b false in
  kernel_readlink t (resolved target) = None →
  opened t (resolved target) = Some r →
  realResolved target = r ∧
  (sandboxPolicy cwd (posix_fs t) env raw b false = path_ok (resolved target) →
     within (realBoundary target) r ∧
     ∀ d, d ∈ getProtectedServicePaths cwd env → ¬ within (resolveRealPath cwd (posix_fs t) d) r).
Proof.
  intros Hb Hpaths target Hl Ho.
  destruct (target_canonical cwd (posix_fs t) raw b false Hb) as (Hc & Hcr & Hcb).
  assert (realResolved target = r) as Hr.
  { rw -(resolveRealPath_opened cwd t _ _ Hc Hl Ho). unfold target, resolveSandboxTarget. cbn [realResolved resolved].
    f_equal. unfold resolveTrailingLinkTarget. cbn [follow_links].
    change (readlinkSync (posix_fs t)) with (kernel_readlink t). by rw (Hl : kernel_readlink t (resolve _ _) = None). }
  split; [done|]. intros Hok. unfold sandboxPolicy, evaluateSandboxPolicy in Hok. fold target in Hok. simpl in Hok.
  destruct (isOutOfBounds cwd target) eqn:Hout; [done|].
  apply isOutOfBounds_spec in Hout as [Hin _]; [|done..]. rw -Hr. split; [done|].
  intros d Hd Hw. destruct (securityDirDenial cwd (posix_fs t) env target) as [f|] eqn:Hden.
  { revert Hden. unfold securityDirDenial. case_match; [|done]. intros [= <-]. done. }
  revert Hden. unfold securityDirDenial.
  enough (existsb (hits cwd (posix_fs t) target) (getProtectedServicePaths cwd env) = true) as -> by done.
  apply existsb_elem. exists d. split; [done|]. apply hits_spec; [apply _|exact Hc|exact Hcr| |].
  - by apply (proj1 (Forall_forall _ _) Hpaths).
  - exists (realResolved target). split; [by right|by right].
Qed.

(** ** A workspace with links *)

Notation at_ p n := (segs p%string, n).

(** [/w/out] leads to [/data/deep], where [l] leads to [../secret]. *)
Definition linked : tree := list_to_map [
  at_ "/w" Dir; at_ "/w/out" (Link "/data/deep"); at_ "/w/in" (Link "notes"); at_ "/w/notes" Dir;
  at_ "/w/secret" File; at_ "/data" Dir; at_ "/data/deep" Dir; at_ "/data/deep/l" (Link "../secret")].

Example walk_samples :
  (opened linked <$> ["/w/out/x"; "/w/in/a.md"; "/w/notes/../in/a.md"; "/w/missing/x"; "/w/secret/x"; "/"]
     = [Some "/data/deep/x"; Some "/w/notes/a.md"; Some "/w/notes/a.md"; None; None; Some "/"])%string ∧
  (resolveRealPath "/" (posix_fs linked) <$> ["/w/out/x"; "/w/in/a.md"; "/w/missing/x"; "/w/out"]
     = ["/data/deep/x"; "/w/notes/a.md"; "/w/missing/x"; "/data/deep"])%string.
Proof. by vm_compute. Qed.

Lemma checks_see_what_is_opened_witness :
  within "/w" "/w/notes/a.md" ∧
  sandboxPolicy "/" (posix_fs linked) (sample_env true) "in/a.md" "/w" false = path_ok "/w/in/a.md".
Proof.
  assert (sandboxPolicy "/" (posix_fs linked) (sample_env true) "in/a.md" "/w" false = path_ok "/w/in/a.md") as Hok
    by by vm_compute.
  split; [|exact Hok].
  refine (proj1 (proj2 (@checks_see_what_is_opened "/" linked (sample_env true) "in/a.md" "/w" "/w/notes/a.md"
    _ _ _ _) _)).
  - by vm_compute.
  - by apply (bool_decide_unpack _); vm_compute.
  - by vm_compute.
  - by vm_compute.
  - exact Hok.
Defined.

(** A relative link in a linked directory escapes the checks.  The target of
    a trailing link is resolved against the text of the path it stands at, not
    against the directory that text leads to: a write through a link that
    stands behind a directory link is admitted as one to [/w/secret], and
    reaches [/data/secret], outside of the boundary. *)
Theorem linked_parents_escape :
  sandboxPolicy "/" (posix_fs linked) (sample_env true) "out/l" "/w" false = path_ok "/w/out/l" ∧
  realResolved (resolveSandboxTarget "/" (posix_fs linked) "out/l" "/w" false) = "/w/secret"%string ∧
  opened linked "/w/out/l" = Some "/data/secret"%string ∧ ¬ within "/w" "/data/secret".
Proof.
  split_and!; [by vm_compute..|]. apply (bool_decide_unpack (¬ within "/w" "/data/secret")). by vm_compute.
Qed.
