(* ===== verification/WorkspacePolicy.v ===== *)
(** * Workspace policy

    [assistant/src/permissions/workspace-policy.ts]: whether the target of a tool
    call lies in the workspace, and whether it is one of the places there the
    daemon runs code from or takes its instructions from.  The directory
    getters are those of [assistant/src/util/platform.ts]. *)

From S2P Require Import Prelude JsText TrustRules Paths PathPolicy PosixFs.

(** The string fields of a tool input; [None] where the field is no string. *)
Record ToolInput := { input_path : option string; input_file_path : option string }.

Section workspace.
Context (cwd : string) (fs : file_system) (getWorkspaceDir : string) (getIsContainerized : bool).

(** ** Directories *)

Definition getDataDir : string := join [getWorkspaceDir; "data"%string].
Definition getMonitoringDataDir : string := join [getDataDir; "monitoring"%string].
Definition getWorkspaceSkillsDir : string := join [getWorkspaceDir; "skills"%string].
Definition getWorkspaceHooksDir : string := join [getWorkspaceDir; "hooks"%string].
Definition getWorkspacePluginsDir : string := join [getWorkspaceDir; "plugins"%string].
Definition getWorkspaceToolsDir : string := join [getWorkspaceDir; "tools"%string].
Definition getWorkspaceRoutesDir : string := join [getWorkspaceDir; "routes"%string].
Definition getWorkspaceWorkflowsDir : string := join [getWorkspaceDir; "workflows"%string].
Definition getDeprecatedDir : string := join [getWorkspaceDir; "deprecated"%string].
Definition getWorkspaceSystemPromptDir : string := join [getWorkspaceDir; "prompts"%string; "system"%string].

(** ** Canonical forms *)

(** [`${dir}/${name}`] *)
Definition below (dir name : string) : string := String.append dir (String slash name).

Fixpoint canonicalize_walk (fuel : nat) (abs : string) : option string :=
  match fuel with
  | O => None
  | S fuel =>
      match realpathSync fs abs with
      | Some real => Some real
      | None =>
          if bool_decide (dirname abs = abs) then Some (normalize abs)
          else (λ parent, below parent (basename abs)) <$> canonicalize_walk fuel (dirname abs)
      end
  end.

Definition canonicalizeExisting (abs : string) : string :=
  match canonicalize_walk (S (S (String.length abs))) abs with Some real => real | None => abs end.

Definition canonicalize (p : string) : string :=
  canonicalizeExisting (resolveTrailingLinkTarget cwd fs (resolve cwd [p])).

Definition canonicalizeAddressedName (p : string) : string :=
  let abs := resolve cwd [p] in below (canonicalizeExisting (dirname abs)) (basename abs).

Definition isAtOrUnderCanonicalDir (canonicalPath canonicalDir : string) : bool :=
  bool_decide (canonicalPath = canonicalDir) || starts_with (with_slash canonicalDir) canonicalPath.

Definition isPathWithinWorkspaceRoot (filePath workspaceRoot : string) : bool :=
  if bool_decide (filePath = EmptyString) || bool_decide (workspaceRoot = EmptyString) then false
  else isAtOrUnderCanonicalDir (canonicalize filePath) (canonicalize workspaceRoot).

(** ** Invocations *)

Definition PATH_SCOPED_TOOLS : list string := ["file_read"; "file_write"; "file_edit"].
Definition WORKSPACE_WRITE_TOOLS : list string := ["file_write"; "file_edit"].
Definition NETWORK_TOOLS : list string := ["web_search"; "web_fetch"; "network_request"].
Definition HOST_TOOLS : list string :=
  ["host_file_read"; "host_file_write"; "host_file_edit"; "host_file_transfer"; "host_bash";
   "computer_use_run_applescript"].
Definition ALWAYS_SCOPED_TOOLS : list string := ["skill_load"; "recall"; "ui_update"; "ui_dismiss"].

Definition isWorkspaceWriteTool (toolName : string) : bool := bool_decide (toolName ∈ WORKSPACE_WRITE_TOOLS).

Definition resolveSandboxBase (rawPath workingDir : string) : string :=
  resolve cwd [workingDir; effectivePath rawPath workingDir].

Definition resolvePathScopedTarget (toolInput : ToolInput) (workspaceRoot : string) : string :=
  let rawPath := match input_path toolInput with
                 | Some p => p
                 | None => match input_file_path toolInput with Some p => p | None => EmptyString end
                 end in
  if bool_decide (rawPath = EmptyString) then EmptyString else resolveSandboxBase rawPath workspaceRoot.

Definition isOutOfWorkspaceFileInvocation (toolName : string) (toolInput : ToolInput) (workspaceRoot : string)
    : bool :=
  if getIsContainerized then false
  else if negb (bool_decide (toolName ∈ PATH_SCOPED_TOOLS)) then false
  else
    let filePath := resolvePathScopedTarget toolInput workspaceRoot in
    bool_decide (filePath ≠ EmptyString) && negb (isPathWithinWorkspaceRoot filePath workspaceRoot).

Definition executableSinkDirs : list string :=
  [getWorkspaceHooksDir; getWorkspacePluginsDir; getWorkspaceSkillsDir; getWorkspaceToolsDir;
   getWorkspaceRoutesDir; getWorkspaceWorkflowsDir; getMonitoringDataDir].

Definition PROMPT_SURFACE_FILES : list string :=
  ["IDENTITY.md"; "SOUL.md"; "VOICE.md"; "BOOTSTRAP.md"; "HEARTBEAT.md"; "NOW.md"].
Definition PROMPT_SURFACE_DIRS : list string := ["users"; "channels"].

Definition writesUnder (target addressed dir : string) : bool :=
  let canonicalDir := canonicalize dir in
  isAtOrUnderCanonicalDir target canonicalDir || isAtOrUnderCanonicalDir addressed canonicalDir.

Definition isControlPlaneWorkspaceWrite (toolName : string) (toolInput : ToolInput) (workspaceRoot : string)
    : bool :=
  if negb (isWorkspaceWriteTool toolName) then false
  else
    let filePath := resolvePathScopedTarget toolInput workspaceRoot in
    if bool_decide (filePath = EmptyString) then false
    else
      let target := canonicalize filePath in
      let addressed := canonicalizeAddressedName filePath in
      let root := canonicalize workspaceRoot in
      existsb (writesUnder target addressed) executableSinkDirs ||
      existsb (λ file, let canonicalFile := canonicalize (below root file) in
                       bool_decide (target = canonicalFile) || bool_decide (addressed = canonicalFile))
        PROMPT_SURFACE_FILES ||
      existsb (λ dir, writesUnder target addressed (below root dir)) PROMPT_SURFACE_DIRS ||
      writesUnder target addressed getWorkspaceSystemPromptDir.

Definition isWorkspaceScopedInvocation (toolName : string) (toolInput : ToolInput) (workspaceRoot : string) : bool :=
  if bool_decide (toolName ∈ ALWAYS_SCOPED_TOOLS) then true
  else if bool_decide (toolName ∈ NETWORK_TOOLS) then false
  else if bool_decide (toolName ∈ HOST_TOOLS) then false
  else if bool_decide (toolName ∈ PATH_SCOPED_TOOLS) then
    let filePath := resolvePathScopedTarget toolInput workspaceRoot in
    bool_decide (filePath ≠ EmptyString) && isPathWithinWorkspaceRoot filePath workspaceRoot
  else if bool_decide (toolName = "bash"%string) then getIsContainerized
  else false.
End workspace.

(** ** Both canonical forms *)

(** The nearest existing ancestor of a path below the root, with what is below it. *)
Fixpoint anchor (fs : file_system) (rl rest : list string) : option (string * list string) :=
  match rl with
  | [] => None
  | w :: above =>
      match realpathSync fs (of_segs (reverse rl)) with
      | Some real => Some (real, rest)
      | None => anchor fs above (w :: rest)
      end
  end.

Definition anchored (cwd : string) (fs : file_system) (p : string) : Prop :=
  ∃ real rest, anchor fs (reverse (segs (resolveTrailingLinkTarget cwd fs p))) [] = Some (real, rest) ∧ real ≠ root.

Lemma below_of_segs l w : l ≠ [] → below (of_segs l) w = of_segs (l ++ [w]).
Proof. intros Hl. unfold below, of_segs. rw join_parts_snoc // append_cons. Qed.

Lemma belows_clean r rest : canonical r → r ≠ root → foldl below r rest = of_segs (segs r ++ rest).
Proof.
  intros Hr Hn. induction rest as [|w rest IH] using rev_ind; [by rw app_nil_r Hr|].
  rw foldl_app /= IH below_of_segs; [by rw app_assoc|]. intros [Hs _]%app_eq_nil. by apply segs_nil in Hs.
Qed.

(** The slash of the root is kept. *)
Lemma belows_slash w l : foldl below (below root w) l = String slash (of_segs (w :: l)).
Proof.
  induction l as [|x l IH] using rev_ind; [done|]. rw foldl_app /= IH.
  change (w :: l ++ [x]) with ((w :: l) ++ [x]). by rw -below_of_segs.
Qed.

Section canonical.
Context (cwd : string) (fs : file_system) `{!CanonicalFs fs}.

Lemma real_walk_anchor fuel a p tr : canonical p → (length (segs p) < fuel)%nat →
  real_walk fs fuel a p tr =
    Some (match anchor fs (reverse (segs p)) tr with
          | Some (real, rest) => if bool_decide (rest = []) then real else join (real :: rest)
          | None => a
          end).
Proof.
  revert p tr. induction fuel as [|fuel IH]; intros p tr Hp Hl; [lia|]. cbn [real_walk].
  destruct (decide (p = root)) as [->|Hr]; [by rw bool_decide_true|].
  rw bool_decide_false; [|by intros ?%dirname_fixed].
  destruct (segs_snoc_canonical p Hp Hr) as (l & w & Hs & Hc & _).
  rw Hs reverse_snoc. cbn [anchor]. rw -(reverse_snoc l w) reverse_involutive -Hs (Hp : of_segs (segs p) = p).
  destruct (realpathSync fs p); [done|]. rw (basename_snoc p l w) // (dirname_snoc p l w) // IH.
  - by rw segs_of_segs.
  - by apply canonical_of_segs.
  - rw segs_of_segs //. rw Hs length_app /= in Hl. lia.
Qed.

Lemma canonicalize_walk_anchor fuel p tr : canonical p → (length (segs p) < fuel)%nat →
  (λ x, foldl below x tr) <$> canonicalize_walk fs fuel p =
    Some (match anchor fs (reverse (segs p)) tr with
          | Some (real, rest) => foldl below real rest
          | None => foldl below (match realpathSync fs root with Some real => real | None => root end) (segs p ++ tr)
          end).
Proof.
  revert p tr. induction fuel as [|fuel IH]; intros p tr Hp Hl; [lia|]. cbn [canonicalize_walk].
  destruct (decide (p = root)) as [->|Hr].
  { rw segs_root. by destruct (realpathSync fs root). }
  destruct (segs_snoc_canonical p Hp Hr) as (l & w & Hs & Hc & _).
  rw Hs reverse_snoc. cbn [anchor]. rw -(reverse_snoc l w) reverse_involutive -Hs (Hp : of_segs (segs p) = p).
  destruct (realpathSync fs p); [done|]. rw bool_decide_false; [|by intros He; apply Hr, dirname_fixed].
  rw (basename_snoc p l w) // (dirname_snoc p l w) //.
  specialize (IH (of_segs l) (w :: tr)). rw segs_of_segs // in IH.
  rw Hs -app_assoc /= -IH; [by destruct (canonicalize_walk fs fuel (of_segs l))|by apply canonical_of_segs|].
  rw Hs length_app /= in Hl. lia.
Qed.

Lemma anchor_clean rl rest real out : cleans rl → cleans rest → anchor fs rl rest = Some (real, out) →
  canonical real ∧ cleans out.
Proof.
  intros Hl. revert rest. induction Hl as [|w rl Hw Hl IH]; intros rest Hr; [done|]. cbn [anchor].
  destruct (realpathSync fs _) as [r|] eqn:Hq.
  - intros [= <- <-]. split; [by eapply real_canonical|done].
  - apply IH. by constructor.
Qed.

Lemma canonicalizeExisting_anchor p : canonical p →
  canonicalizeExisting fs p =
    match anchor fs (reverse (segs p)) [] with
    | Some (real, rest) => foldl below real rest
    | None => foldl below (match realpathSync fs root with Some real => real | None => root end) (segs p)
    end.
Proof.
  intros Hp. pose proof (length_segs p Hp) as Hl. unfold canonicalizeExisting.
  pose proof (canonicalize_walk_anchor (S (S (String.length p))) p [] Hp ltac:(lia)) as H.
  destruct (canonicalize_walk _ _ _) as [x|]; [|done]. cbn in H. injection H as ->. by rw app_nil_r.
Qed.

Lemma resolveRealPath_anchor p : canonical p →
  resolveRealPath cwd fs p =
    match anchor fs (reverse (segs (resolveTrailingLinkTarget cwd fs p))) [] with
    | Some (real, rest) => if bool_decide (rest = []) then real else join (real :: rest)
    | None => p
    end.
Proof.
  intros Hp. set (q := resolveTrailingLinkTarget cwd fs p).
  assert (canonical q) as Hq by (by apply follow_links_canonical).
  unfold resolveRealPath. fold q. rw real_walk_anchor //. pose proof (length_segs q Hq). lia.
Qed.

Lemma isAtOrUnderCanonicalDir_spec p d : canonical p → canonical d →
  isAtOrUnderCanonicalDir p d = true ↔ within d p.
Proof.
  intros Hp Hd. rw -(isWithinDir_spec p d Hp Hd). unfold isAtOrUnderCanonicalDir, isWithinDir, with_slash, ends_with.
  destruct (decide (d = root)) as [->|Hr].
  { rw canonical_absolute //. unfold isAbsolute. change (before_suffix "/" root) with (Some EmptyString).
    assert (starts_with root p = true) as Hs by exact (canonical_absolute p Hp).
    split; [done|]. intros _. apply orb_true_iff. by right. }
  rw canonical_no_suffix // (bool_decide_true (d ≠ "/"%string)) // (bool_decide_false (d = "/"%string)) //.
Qed.

(** Both canonical forms of a path agree when some directory on the way exists. *)
Lemma canonical_forms p : canonical p → anchored cwd fs p → canonicalize cwd fs p = resolveRealPath cwd fs p.
Proof.
  intros Hp (real & rest & Ha & Hr). rw resolveRealPath_anchor // Ha. unfold canonicalize.
  rw resolve_absolute //. assert (canonical (resolveTrailingLinkTarget cwd fs p)) as Hq by (by apply follow_links_canonical).
  rw canonicalizeExisting_anchor // Ha. destruct (anchor_clean _ _ _ _ ltac:(apply Forall_reverse, segs_clean) ltac:(by constructor) Ha) as [Hc Ho].
  rw belows_clean //. case_bool_decide as He.
  - by rw He app_nil_r Hc.
  - by rw join_clean.
Qed.
End canonical.

(** The daemon's two ways to canonicalize a path agree.  [resolveRealPath],
    by which the executor and the risk classifier see a target, and
    [canonicalize], by which the workspace policy does, give the same text
    whenever the target of the link chain has an existing directory below the
    root above it.  When it has none, [resolveRealPath] gives back the path it
    was asked for, unresolved, while [canonicalize] follows the chain. *)
Theorem canonical_forms_agree cwd fs `{!CanonicalFs fs} p : canonical p →
  let target := resolveTrailingLinkTarget cwd fs p in
  match anchor fs (reverse (segs target)) [] with
  | Some (real, rest) => real ≠ root →
      resolveRealPath cwd fs p = of_segs (segs real ++ rest) ∧ canonicalize cwd fs p = of_segs (segs real ++ rest)
  | None => realpathSync fs root = Some root →
      resolveRealPath cwd fs p = p ∧
      canonicalize cwd fs p = if bool_decide (target = root) then root else String slash target
  end.
Proof.
  intros Hp target. assert (canonical target) as Hq by (by apply follow_links_canonical).
  destruct (anchor fs (reverse (segs target)) []) as [[real rest]|] eqn:Ha.
  - intros Hr. rw canonical_forms //; [|by exists real, rest]. rw resolveRealPath_anchor // Ha.
    destruct (anchor_clean fs _ _ _ _ ltac:(apply Forall_reverse, segs_clean) ltac:(by constructor) Ha) as [Hc Ho].
    case_bool_decide as He; [by rw He app_nil_r Hc|by rw join_clean].
  - intros Hr. rw resolveRealPath_anchor // Ha. split; [done|]. unfold canonicalize.
    rw resolve_absolute //. fold target. rw canonicalizeExisting_anchor // Ha Hr.
    destruct (decide (target = root)) as [He|Hne].
    + by rw bool_decide_true // He segs_root.
    + rw bool_decide_false //. rw -{2}Hq. pose proof (proj1 (segs_nil target Hq)) as Hn.
      destruct (segs target) as [|w l] eqn:Hs; [by destruct Hne, Hn|].
      rw /= belows_slash. by rw -Hs.
Qed.

Lemma canonical_forms_agree_witness :
  resolveRealPath "/" (posix_fs linked) "/w/in/b/c" = "/w/notes/b/c"%string ∧
  canonicalize "/" (posix_fs linked) "/w/in/b/c" = "/w/notes/b/c"%string.
Proof.
  pose proof (canonical_forms_agree "/" (posix_fs linked) "/w/in/b/c" ltac:(by vm_compute)) as H. cbv zeta in H.
  assert (anchor (posix_fs linked) (reverse (segs (resolveTrailingLinkTarget "/" (posix_fs linked) "/w/in/b/c"))) []
    = Some ("/w/notes", ["b"; "c"])%string) as He by by vm_compute.
  rewrite He in H. exact (H ltac:(done)).
Defined.

(** An existing directory that is no link is its real path. *)
Lemma canonicalize_real cwd fs d real : canonical d → readlinkSync fs d = None → realpathSync fs d = Some real →
  canonicalize cwd fs d = real.
Proof.
  intros Hd Hl Hr. unfold canonicalize. rw resolve_absolute //. unfold resolveTrailingLinkTarget. cbn [follow_links].
  rw Hl. unfold canonicalizeExisting. cbn [canonicalize_walk]. by rw Hr.
Qed.

Example workspace_samples :
  let fs := posix_fs linked in
  let call p := {| input_path := Some p; input_file_path := None |} in
  ((λ p, isOutOfWorkspaceFileInvocation "/" fs false "file_read" (call p) "/w") <$>
     ["in/a.md"; "/workspace/a.md"; "out/x"; "../data"; "/workspace"; ""]
   = [false; false; true; true; false; false])%string ∧
  ((λ p, isControlPlaneWorkspaceWrite "/" fs "/w" "file_write" (call p) "/w") <$>
     ["hooks/a.ts"; "in/../tools/x"; "SOUL.md"; "users/a.md"; "prompts/system/x.md"; "notes/a.md"; "hooksy/a"]
   = [true; true; true; true; true; false; false])%string.
Proof. by vm_compute. Qed.
