(* ===== verification/FileRisk.v ===== *)
(** * The risk of a file tool call

    [gateway/src/risk/file-risk-classifier.ts], the file case of
    [gateway/src/ipc/risk-classification-handlers.ts], and what the daemon sends
    it ([resolveFileToolPaths], [buildFileContext] of
    [assistant/src/permissions/checker.ts], [getSkillRoots] of
    [assistant/src/skills/path-classifier.ts]). *)

From S2P Require Import Prelude JsText JsMap TrustRules BashRisk ApprovalPolicy Paths PathPolicy PosixFs WorkspacePolicy.
Local Open Scope string_scope.
Local Open Scope litt_scope.

(** The seven file tools. *)
Inductive FileTool :=
  file_read | file_write | file_edit | host_file_read | host_file_write | host_file_edit | host_file_transfer.

#[export] Instance FileTool_eq_dec : EqDecision FileTool.
Proof. solve_decision. Defined.

Definition file_tool_name (t : FileTool) : string :=
  match t with
  | file_read => "file_read" | file_write => "file_write" | file_edit => "file_edit"
  | host_file_read => "host_file_read" | host_file_write => "host_file_write"
  | host_file_edit => "host_file_edit" | host_file_transfer => "host_file_transfer"
  end.

Record FileClassificationContext := {
  protectedDir : string;
  deprecatedDir : string;
  hooksDir : string;
  pluginsDir : string;
  toolsDir : string;
  routesDir : string;
  workflowsDir : string;
  monitoringDir : string;
  skillSourceDirs : list string;
}.

Record FileClassifierInput := {
  tool : FileTool;
  filePath : string;
  workingDir : string;
  resolvedPath : option string;
  resolvedWorkingDir : option string;
  containerized : option bool;
  transferSandboxDestPath : option string;
  transferSandboxWorkingDir : option string;
  resolvedTransferDestPath : option string;
}.

Record FileAssessment := {
  file_risk : Risk;
  file_reason : string;
  file_match : match_type;
  file_options : list AllowlistOption;
}.

Inductive verb := Writes | Transfers.
Definition verb_text (v : verb) : string := match v with Writes => "Writes" | Transfers => "Transfers" end.

Section classifier.
(** The gateway's process: its working directory and its home. *)
Context (cwd home : string).

(** ** Paths and directories *)

Definition resolveSandboxPath (rawPath workingDir : string) : string :=
  resolve cwd [workingDir; effectivePath rawPath workingDir].

Definition isPathWithinRoot (filePath root : string) : bool :=
  if bool_decide (filePath = EmptyString) || bool_decide (root = EmptyString) then false
  else
    let normalizedPath := resolve cwd [filePath] in
    bool_decide (normalizedPath = (before_suffix "/" root otherwise root)) ||
    starts_with (with_slash root) normalizedPath.

Definition isOutsideSandboxBoundary (input : FileClassifierInput) : bool :=
  if (containerized input otherwise false) || bool_decide (filePath input = EmptyString) then false
  else if truthy (resolvedPath input) && truthy (resolvedWorkingDir input) then
    negb (isPathWithinRoot (resolvedPath input otherwise EmptyString) (resolvedWorkingDir input otherwise EmptyString))
  else negb (isPathWithinRoot (resolveSandboxPath (filePath input) (workingDir input)) (workingDir input)).

Definition ACTOR_TOKEN_SIGNING_KEY : string := "actor-token-signing-key".

Definition isActorTokenSigningKeyPath (resolvedPath workingDir : string) (context : FileClassificationContext) : bool :=
  bool_decide (resolvedPath ∈ [
    join [home; ".vellum"; "protected"; ACTOR_TOKEN_SIGNING_KEY];
    join [protectedDir context; ACTOR_TOKEN_SIGNING_KEY];
    join [deprecatedDir context; ACTOR_TOKEN_SIGNING_KEY];
    resolve cwd [workingDir; "deprecated"; ACTOR_TOKEN_SIGNING_KEY]]).

(** The path is the directory, or lies below it. *)
Definition is_dir_path (resolvedPath dir : string) : bool :=
  let normalizedDir := with_slash dir in
  bool_decide (resolvedPath = (before_suffix "/" normalizedDir otherwise normalizedDir)) ||
  starts_with normalizedDir resolvedPath.

Definition isHooksPath (resolvedPath : string) (context : FileClassificationContext) : bool :=
  is_dir_path resolvedPath (hooksDir context).
Definition isPluginsPath (resolvedPath : string) (context : FileClassificationContext) : bool :=
  is_dir_path resolvedPath (pluginsDir context).
Definition isToolsPath (resolvedPath : string) (context : FileClassificationContext) : bool :=
  is_dir_path resolvedPath (toolsDir context).
Definition isRoutesPath (resolvedPath : string) (context : FileClassificationContext) : bool :=
  is_dir_path resolvedPath (routesDir context).
Definition isWorkflowsPath (resolvedPath : string) (context : FileClassificationContext) : bool :=
  is_dir_path resolvedPath (workflowsDir context).
Definition isMonitoringPath (resolvedPath : string) (context : FileClassificationContext) : bool :=
  is_dir_path resolvedPath (monitoringDir context).
Definition isSkillSourcePath (resolvedPath : string) (context : FileClassificationContext) : bool :=
  existsb (λ dir, starts_with (with_slash dir) resolvedPath) (skillSourceDirs context).

(** ** What can be saved *)

Definition FILE_TOOL_DISPLAY_NAMES (t : FileTool) : string :=
  match t with
  | file_read => "file reads" | file_write => "file writes" | file_edit => "file edits"
  | host_file_read => "host file reads" | host_file_write => "host file writes"
  | host_file_edit => "host file edits" | host_file_transfer => "host file transfers"
  end.

Definition friendlyBasename (filePath : string) : string :=
  let name := last (parts filePath) otherwise EmptyString in
  if bool_decide (name = EmptyString) then filePath else name.

Definition named (t : FileTool) (what : string) : string := file_tool_name t +:+ ":" +:+ what.

Fixpoint directory_options (levels : nat) (t : FileTool) (dir : string) : list AllowlistOption :=
  match levels with
  | O => []
  | S levels =>
      if bool_decide (dir ∈ [EmptyString; "/"; "."]) then []
      else
        {| option_label := dir +:+ "/**";
           option_description := "Anything in " +:+ friendlyBasename dir +:+ "/";
           option_pattern := named t (dir +:+ "/**") |}
        :: (if bool_decide (dir = home) then []
            else if bool_decide (dirname dir = dir) then []
            else directory_options levels t (dirname dir))
  end.

Definition maxLevels : nat := 3.

Definition buildFileAllowlistOptions (t : FileTool) (filePath : string) : list AllowlistOption :=
  {| option_label := filePath; option_description := "This file only"; option_pattern := named t filePath |}
  :: directory_options maxLevels t (dirname filePath) ++
  [{| option_label := named t "*"; option_description := "All " +:+ FILE_TOOL_DISPLAY_NAMES t;
      option_pattern := named t "*" |}].

(** ** Sinks *)

Definition assess (risk : Risk) (reason : string) (options : list AllowlistOption) : FileAssessment := {|
  file_risk := risk; file_reason := reason; file_match := registry_match; file_options := options |}.

Definition classifyCodeInjectionSink (resolvedPath : string) (context : FileClassificationContext) (v : verb)
    (options : list AllowlistOption) : option FileAssessment :=
  let high target := Some (assess high (verb_text v +:+ " to " +:+ target) options) in
  if isSkillSourcePath resolvedPath context then high "skill source code"
  else if isHooksPath resolvedPath context then high "hooks directory"
  else if isPluginsPath resolvedPath context then high "plugins directory"
  else if isToolsPath resolvedPath context then high "tools directory"
  else if isRoutesPath resolvedPath context then high "routes directory"
  else if isWorkflowsPath resolvedPath context then high "workflows directory"
  else if isMonitoringPath resolvedPath context then high "monitoring directory"
  else None.

Definition classifyCodeInjectionSinkEither (lexicalPath realPath : string) (context : FileClassificationContext)
    (v : verb) (options : list AllowlistOption) : option FileAssessment :=
  match classifyCodeInjectionSink lexicalPath context v options with
  | Some sink => Some sink
  | None =>
      if bool_decide (realPath = lexicalPath) then None
      else classifyCodeInjectionSink realPath context v options
  end.

(** ** The classifier *)

(** The classification before any rule of the user: the [switch] of [classify]. *)
Definition classify_read (input : FileClassifierInput) (context : FileClassificationContext)
    (options : list AllowlistOption) : FileAssessment :=
  let lexicalPath := resolveSandboxPath (filePath input) (workingDir input) in
  let realPath := resolvedPath input otherwise lexicalPath in
  let given := bool_decide (filePath input ≠ EmptyString) in
  if given && (isActorTokenSigningKeyPath lexicalPath (workingDir input) context ||
               isActorTokenSigningKeyPath realPath (workingDir input) context)
  then assess high "Reads actor token signing key" options
  else if given && (isMonitoringPath lexicalPath context || isMonitoringPath realPath context)
  then assess high "Reads monitoring directory (snapshot data)" options
  else if isOutsideSandboxBoundary input then assess medium "File read outside the workspace" options
  else assess low "File read (default)" options.

Definition classify_write (input : FileClassifierInput) (context : FileClassificationContext)
    (options : list AllowlistOption) : FileAssessment :=
  let lexicalPath := resolveSandboxPath (filePath input) (workingDir input) in
  let realPath := resolvedPath input otherwise lexicalPath in
  let word := if bool_decide (tool input = file_write) then "write" else "edit" in
  match (if bool_decide (filePath input = EmptyString) then None
         else classifyCodeInjectionSinkEither lexicalPath realPath context Writes options) with
  | Some sink => sink
  | None =>
      if isOutsideSandboxBoundary input
      then assess medium ("File " +:+ word +:+ " outside the workspace") options
      else assess low ("File " +:+ word +:+ " (default)") options
  end.

Definition transfer_sink (input : FileClassifierInput) (context : FileClassificationContext)
    (options : list AllowlistOption) : option FileAssessment :=
  if truthy (transferSandboxDestPath input) then
    let lexicalDest := resolveSandboxPath (transferSandboxDestPath input otherwise EmptyString)
                         (transferSandboxWorkingDir input otherwise cwd) in
    let realDest := resolvedTransferDestPath input otherwise lexicalDest in
    classifyCodeInjectionSinkEither lexicalDest realDest context Transfers options
  else None.

Definition classify_host_write (input : FileClassifierInput) (context : FileClassificationContext)
    (options : list AllowlistOption) : FileAssessment :=
  let actionVerb := if bool_decide (tool input = host_file_transfer) then Transfers else Writes in
  let defaultLabel :=
    match tool input with host_file_write => "write" | host_file_edit => "edit" | _ => "transfer" end in
  match transfer_sink input context options with
  | Some destSink => destSink
  | None =>
      let lexicalPath := resolve cwd [filePath input] in
      let realPath := resolvedPath input otherwise lexicalPath in
      match (if bool_decide (filePath input = EmptyString) then None
             else classifyCodeInjectionSinkEither lexicalPath realPath context actionVerb options) with
      | Some sink => sink
      | None => assess medium ("Host file " +:+ defaultLabel +:+ " (default)") options
      end
  end.

Definition classify_file_tool (input : FileClassifierInput) (context : FileClassificationContext) : FileAssessment :=
  let options :=
    if bool_decide (filePath input = EmptyString) then []
    else buildFileAllowlistOptions (tool input) (filePath input) in
  match tool input with
  | file_read => classify_read input context options
  | file_write | file_edit => classify_write input context options
  | host_file_read => assess medium "Host file read (default)" options
  | host_file_write | host_file_edit | host_file_transfer => classify_host_write input context options
  end.

Definition applyUserRuleOverride (a : FileAssessment) (rule : TrustRule) : FileAssessment := {|
  file_risk := rule_risk rule; file_reason := description rule; file_match := user_rule;
  file_options := file_options a |}.

(** [classify(input, context)]; the cache is [None] when it was never initialized. *)
Definition classify (cache : option TrustRuleCache) (input : FileClassifierInput)
    (context : FileClassificationContext) : FileAssessment :=
  let assessment := classify_file_tool input context in
  match cache with
  | None => assessment
  | Some rules =>
      match findToolOverride rules (file_tool_name (tool input)) (filePath input) (Some (dirname (filePath input))) with
      | Some override => if isUserRule (Some override) then applyUserRuleOverride assessment override else assessment
      | None => assessment
      end
  end.

(** ** The request *)

Definition SENTINEL : string := "/__vellum_no_context__".

(** The context the handler builds when the request carries none. *)
Definition no_context : FileClassificationContext := {|
  protectedDir := SENTINEL; deprecatedDir := SENTINEL; hooksDir := SENTINEL; pluginsDir := SENTINEL;
  toolsDir := SENTINEL; routesDir := SENTINEL; workflowsDir := SENTINEL; monitoringDir := SENTINEL;
  skillSourceDirs := [] |}.

Record file_params := {
  p_tool : FileTool;
  p_path : option string;
  p_resolvedPath : option string;
  p_resolvedWorkingDir : option string;
  p_workingDir : option string;
  p_isContainerized : option bool;
  p_fileContext : option FileClassificationContext;
  p_transferSandboxDestPath : option string;
  p_transferSandboxWorkingDir : option string;
  p_resolvedTransferDestPath : option string;
}.

(** The file case of the request handler, up to the directory scopes. *)
Definition classifier_input (params : file_params) : FileClassifierInput := {|
  tool := p_tool params; filePath := p_path params otherwise EmptyString;
  workingDir := p_workingDir params otherwise cwd; resolvedPath := p_resolvedPath params;
  resolvedWorkingDir := p_resolvedWorkingDir params; containerized := p_isContainerized params;
  transferSandboxDestPath := p_transferSandboxDestPath params;
  transferSandboxWorkingDir := p_transferSandboxWorkingDir params;
  resolvedTransferDestPath := p_resolvedTransferDestPath params |}.

Definition handle_file_tool (cache : option TrustRuleCache) (params : file_params) : FileAssessment :=
  classify cache (classifier_input params) (p_fileContext params otherwise no_context).

(** [resolvedPaths] of the answer. *)
Definition resolved_paths (params : file_params) : option (list string) :=
  let path := p_path params otherwise EmptyString in
  if bool_decide (path = EmptyString) then None
  else Some [if bool_decide (path = "~") then home
             else if starts_with "~/" path then join [home; slice_from 2 path]
             else if isAbsolute path then resolve cwd [path]
             else resolve cwd [p_workingDir params otherwise cwd; path]].
End classifier.

(** ** The daemon's side *)

(** The string fields of a tool input that name files. *)
Record FileToolInput := {
  named_by : ToolInput;
  direction : option string;
  source_path : option string;
  dest_path : option string;
}.

Record FileToolResolution := {
  r_filePath : string;
  effectiveWorkingDir : string;
  isHostTool : bool;
  r_resolvedPath : option string;
  r_resolvedWorkingDir : option string;
  r_transferSandboxDestPath : option string;
  r_transferSandboxWorkingDir : option string;
  r_resolvedTransferDestPath : option string;
}.

(** [getStringField(input, ...keys)] *)
Definition getStringField (values : list (option string)) : string :=
  head (omap id values) otherwise EmptyString.

Section daemon.
Context (cwd : string) (fs : file_system) (getWorkspaceDir : string) (getIsContainerized : bool).
Context (vellumRoot getBundledSkillsDir : string) (extraDirs : list string).

(** *** Skill roots *)

Definition existsSync (p : string) : bool := bool_decide (is_Some (realpathSync fs p)).

(** The walk of [normalizeDirPath] to the nearest existing ancestor; [tail] is the
    text below it. *)
Fixpoint dir_walk (fuel : nat) (absPath current tail : string) : string :=
  match fuel with
  | O => with_slash (normalize absPath)
  | S fuel =>
      if bool_decide (current = dirname current) then with_slash (normalize absPath)
      else match realpathSync fs current with
           | Some realBase => with_slash (normalize (realBase +:+ tail))
           | None => dir_walk fuel absPath (dirname current) (String slash (basename current) +:+ tail)
           end
  end.

Definition normalizeDirPath (dirPath : string) : string :=
  match realpathSync fs dirPath with
  | Some resolved => with_slash (normalize resolved)
  | None =>
      let absPath := resolve cwd [dirPath] in dir_walk (S (S (String.length absPath))) absPath absPath EmptyString
  end.

Definition getManagedSkillsRoot : string := normalizeDirPath (getWorkspaceSkillsDir getWorkspaceDir).
Definition getBundledSkillsRoot : string := normalizeDirPath getBundledSkillsDir.
Definition getSkillRoots : list string :=
  [getManagedSkillsRoot; getBundledSkillsRoot] ++ (normalizeDirPath <$> extraDirs).

Definition buildFileContext : FileClassificationContext :=
  let real := resolveRealPath cwd fs in {|
  protectedDir := real (join [vellumRoot; "protected"]);
  deprecatedDir := real (getDeprecatedDir getWorkspaceDir);
  hooksDir := real (getWorkspaceHooksDir getWorkspaceDir);
  pluginsDir := real (getWorkspacePluginsDir getWorkspaceDir);
  toolsDir := real (getWorkspaceToolsDir getWorkspaceDir);
  routesDir := real (getWorkspaceRoutesDir getWorkspaceDir);
  workflowsDir := real (getWorkspaceWorkflowsDir getWorkspaceDir);
  monitoringDir := real (getMonitoringDataDir getWorkspaceDir);
  skillSourceDirs := real <$> getSkillRoots |}.

(** *** Paths *)

Definition resolveClassificationPath (filePath workingDir : string) (isHostTool : bool) : option string :=
  if bool_decide (filePath = EmptyString) then None
  else Some (resolveRealPath cwd fs
               (if isHostTool then resolve cwd [filePath] else resolveSandboxBase cwd filePath workingDir)).

Definition is_host_tool (t : FileTool) : bool := starts_with "host_" (file_tool_name t).

Definition resolveFileToolPaths (t : FileTool) (input : FileToolInput) (workingDir : option string)
    : FileToolResolution :=
  let isHostTool := is_host_tool t in
  let to_sandbox := bool_decide (t = host_file_transfer) && bool_decide (getStringField [direction input] = "to_sandbox") in
  let filePath :=
    if bool_decide (t = host_file_transfer) then
      if to_sandbox then getStringField [source_path input] else getStringField [dest_path input]
    else getStringField [input_path (named_by input); input_file_path (named_by input)] in
  let destPath := if to_sandbox then Some (getStringField [dest_path input]) else None in
  let destDir := if to_sandbox then Some (workingDir otherwise cwd) else None in
  let effectiveWorkingDir := if isHostTool then "/" else workingDir otherwise cwd in {|
  r_filePath := filePath;
  effectiveWorkingDir := effectiveWorkingDir;
  isHostTool := isHostTool;
  r_resolvedPath := resolveClassificationPath filePath effectiveWorkingDir isHostTool;
  r_resolvedWorkingDir := if isHostTool then None else Some (resolveRealPath cwd fs effectiveWorkingDir);
  r_transferSandboxDestPath := destPath;
  r_transferSandboxWorkingDir := destDir;
  r_resolvedTransferDestPath :=
    match destPath with
    | Some dest => resolveClassificationPath dest (destDir otherwise cwd) false
    | None => None
    end |}.

(** The file case of [buildClassifyRiskParams]. *)
Definition file_risk_params (t : FileTool) (input : FileToolInput) (workingDir : option string) : file_params :=
  let r := resolveFileToolPaths t input workingDir in {|
  p_tool := t;
  p_path := Some (r_filePath r);
  p_resolvedPath := r_resolvedPath r;
  p_resolvedWorkingDir := r_resolvedWorkingDir r;
  p_workingDir := Some (effectiveWorkingDir r);
  p_isContainerized := Some getIsContainerized;
  p_fileContext := Some buildFileContext;
  p_transferSandboxDestPath := r_transferSandboxDestPath r;
  p_transferSandboxWorkingDir := r_transferSandboxWorkingDir r;
  p_resolvedTransferDestPath := r_resolvedTransferDestPath r |}.

(** The classification of a file tool call: the request, and the gateway's answer. *)
Definition classify_file_call (gcwd home : string) (cache : option TrustRuleCache) (t : FileTool)
    (input : FileToolInput) (workingDir : option string) : FileAssessment :=
  handle_file_tool gcwd home cache (file_risk_params t input workingDir).
End daemon.

(** ** Samples *)

Definition call_of (p : string) : FileToolInput := {|
  named_by := {| input_path := Some p; input_file_path := None |};
  direction := None; source_path := None; dest_path := None |}.

(** A call on the file system [t], in the workspace [wd]. *)
Definition risk_in (t : tree) (wd : string) (f : FileTool) (p : string) : Risk :=
  file_risk (classify_file_call "/" (posix_fs t) wd false "/root/.vellum" "/app/skills" [] "/" "/root" None f (call_of p)
    (Some wd)).

Example file_risk_samples :
  (risk_in linked "/w" file_write <$> ["notes/a.md"; "hooks/a.ts"; "/workspace/skills/x/s.md"; "out/x"; "in/../tools/t.ts"; ""]
     = [low; high; high; medium; high; low]) ∧
  (risk_in linked "/w" file_read <$> ["notes/a.md"; "hooks/a.ts"; "data/monitoring/s.json"; "/etc/passwd"; "/w"]
     = [low; low; high; medium; low]) ∧
  (risk_in linked "/w" host_file_read <$> ["/etc/passwd"] = [medium]) ∧
  (option_pattern <$> buildFileAllowlistOptions "/root" file_edit "/w/notes/a.md"
     = ["file_edit:/w/notes/a.md"; "file_edit:/w/notes/**"; "file_edit:/w/**"; "file_edit:*"]).
Proof. by vm_compute. Qed.

(** ** Directories and sinks *)

Lemma is_dir_path_spec p d : canonical p → canonical d → is_dir_path p d = true ↔ within d p.
Proof.
  intros Hp Hd. rw -(isAtOrUnderCanonicalDir_spec p d Hp Hd). unfold is_dir_path, isAtOrUnderCanonicalDir.
  destruct (decide (d = root)) as [->|Hr].
  { assert (starts_with (with_slash root) p = true) as -> by exact (canonical_absolute p Hp). by rw !orb_true_r. }
  assert (with_slash d = d +:+ "/") as ->.
  { unfold with_slash, ends_with. by rw canonical_no_suffix // bool_decide_false. }
  by rw before_suffix_append.
Qed.

Lemma isPathWithinRoot_spec cwd p d : canonical p → canonical d → isPathWithinRoot cwd p d = true ↔ within d p.
Proof.
  intros Hp Hd. rw -(isAtOrUnderCanonicalDir_spec p d Hp Hd). unfold isPathWithinRoot.
  rw (bool_decide_false _ (canonical_nonempty p Hp)) (bool_decide_false _ (canonical_nonempty d Hd)) /=.
  rw resolve_absolute //. unfold isAtOrUnderCanonicalDir. destruct (decide (d = root)) as [->|Hr].
  { assert (starts_with (with_slash root) p = true) as -> by exact (canonical_absolute p Hp). by rw !orb_true_r. }
  by rw canonical_no_suffix.
Qed.

(** The directories whose files the daemon runs, or trusts. *)
Definition sink_dirs (c : FileClassificationContext) : list string :=
  [hooksDir c; pluginsDir c; toolsDir c; routesDir c; workflowsDir c; monitoringDir c].

Lemma sink_is_high p c v o a : classifyCodeInjectionSink p c v o = Some a → file_risk a = high.
Proof. unfold classifyCodeInjectionSink. repeat case_match; by intros [= <-]. Qed.

Lemma sink_spec p c v o : canonical p → Forall canonical (sink_dirs c) →
  is_Some (classifyCodeInjectionSink p c v o) ↔
    isSkillSourcePath p c = true ∨ ∃ d, d ∈ sink_dirs c ∧ within d p.
Proof.
  intros Hp Hd. transitivity (isSkillSourcePath p c = true ∨ existsb (is_dir_path p) (sink_dirs c) = true).
  - unfold classifyCodeInjectionSink, sink_dirs, isHooksPath, isPluginsPath, isToolsPath, isRoutesPath,
      isWorkflowsPath, isMonitoringPath. simpl.
    destruct (isSkillSourcePath p c); [by split; eauto|].
    repeat (destruct (is_dir_path p _); [by split; eauto|]). simpl. split; [by intros [? ?]|by intros []].
  - rw existsb_elem. pose proof (proj1 (Forall_forall _ _) Hd) as Hc.
    split; (intros [?|(d & Hin & Hw)]; [by left|right; exists d; split; [done|]]).
    + by apply is_dir_path_spec in Hw; [|done|apply Hc].
    + by apply is_dir_path_spec; [|apply Hc|].
Qed.

Lemma either_high lex real c v o a : classifyCodeInjectionSinkEither lex real c v o = Some a → file_risk a = high.
Proof.
  unfold classifyCodeInjectionSinkEither. destruct (classifyCodeInjectionSink lex c v o) as [b|] eqn:Hb.
  - intros [= <-]. by eapply sink_is_high.
  - case_match; [done|]. apply sink_is_high.
Qed.

Lemma either_spec lex real c v o : is_Some (classifyCodeInjectionSinkEither lex real c v o) ↔
  is_Some (classifyCodeInjectionSink lex c v o) ∨ is_Some (classifyCodeInjectionSink real c v o).
Proof.
  unfold classifyCodeInjectionSinkEither. destruct (classifyCodeInjectionSink lex c v o) eqn:Hl; [by split; eauto|].
  case_bool_decide as He; [subst; rw Hl|]; split; eauto; by intros [[]|].
Qed.

(** ** The boundary of the workspace *)

Section agreement.
Context (cwd gcwd home : string) (fs : file_system) `{!CanonicalFs fs}.
Context (workspace vellumRoot bundled : string) (extra : list string).

Definition request (boxed : bool) (t : FileTool) (input : FileToolInput) (wd : string) : FileClassifierInput :=
  classifier_input gcwd (file_risk_params cwd fs workspace boxed vellumRoot bundled extra t input (Some wd)).

(** The path a sandbox file tool is called with. *)
Definition raw_path (input : FileToolInput) : string :=
  getStringField [input_path (named_by input); input_file_path (named_by input)].

Definition sandbox_tool (t : FileTool) : Prop := t = file_read ∨ t = file_write ∨ t = file_edit.

Lemma resolveRealPath_real d real : d ≠ root → canonical d → readlinkSync fs d = None → realpathSync fs d = Some real →
  resolveRealPath cwd fs d = real.
Proof.
  intros Hd Hc Hl Hr. unfold resolveRealPath, resolveTrailingLinkTarget. cbn [follow_links]. rw Hl.
  cbn [real_walk]. rw bool_decide_false; [|by intros ?%dirname_fixed]. by rw Hr.
Qed.

Lemma request_paths boxed t input wd : sandbox_tool t → raw_path input ≠ EmptyString →
  let r := request boxed t input wd in
  filePath r = raw_path input ∧ workingDir r = wd ∧ tool r = t ∧
  resolvedPath r = Some (resolveRealPath cwd fs (resolveSandboxBase cwd (raw_path input) wd)) ∧
  resolvedWorkingDir r = Some (resolveRealPath cwd fs wd) ∧
  containerized r = Some boxed.
Proof.
  intros Ht Hp. destruct Ht as [->|[->| ->]]; simpl; unfold resolveClassificationPath; rw bool_decide_false //.
Qed.

(** A workspace that exists, below the root and by no link of its own. *)
Definition stands_at (wd real : string) : Prop :=
  canonical wd ∧ wd ≠ root ∧ readlinkSync fs wd = None ∧ realpathSync fs wd = Some real ∧ real ≠ root.

Lemma outside_spec t input wd real : sandbox_tool t → raw_path input ≠ EmptyString → stands_at wd real →
  isOutsideSandboxBoundary gcwd (request false t input wd) = false ↔
    within real (resolveRealPath cwd fs (resolveSandboxBase cwd (raw_path input) wd)).
Proof.
  intros Ht Hp (Hc & Hr & Hl & Hreal & Hn). destruct (request_paths false t input wd Ht Hp) as (H1 & _ & _ & H2 & H3 & H4).
  assert (canonical (resolveRealPath cwd fs (resolveSandboxBase cwd (raw_path input) wd))) as Hcp
    by (apply resolveRealPath_canonical; [apply _|apply resolve_canonical]).
  unfold isOutsideSandboxBoundary. rw H1 H2 H3 H4 (resolveRealPath_real wd real) // bool_decide_false //.
  assert (canonical real) as Hcr by by eapply real_canonical.
  assert (∀ p, canonical p → truthy (Some p) = true) as Htr.
  { intros q Hq. apply canonical_nonempty in Hq. by destruct q. }
  rw !Htr // negb_false_iff. by apply isPathWithinRoot_spec.
Qed.

Lemma scoped_target input wd : raw_path input ≠ EmptyString →
  resolvePathScopedTarget cwd (named_by input) wd = resolveSandboxBase cwd (raw_path input) wd.
Proof.
  intros Hp. unfold resolvePathScopedTarget.
  assert ((match input_path (named_by input) with
           | Some p => p
           | None => match input_file_path (named_by input) with Some p => p | None => EmptyString end
           end) = raw_path input) as ->.
  { unfold raw_path, getStringField. by destruct (input_path _), (input_file_path _). }
  by rw bool_decide_false.
Qed.

Lemma policy_spec t input wd real : sandbox_tool t → raw_path input ≠ EmptyString → stands_at wd real →
  anchored cwd fs (resolveSandboxBase cwd (raw_path input) wd) →
  isOutOfWorkspaceFileInvocation cwd fs false (file_tool_name t) (named_by input) wd = false ↔
    within real (resolveRealPath cwd fs (resolveSandboxBase cwd (raw_path input) wd)).
Proof.
  intros Ht Hraw (Hc & Hr & Hl & Hreal & Hn) Ha. set (p := resolveSandboxBase cwd (raw_path input) wd).
  assert (canonical p) as Hp by apply resolve_canonical.
  unfold isOutOfWorkspaceFileInvocation. rw scoped_target //.
  assert (bool_decide (file_tool_name t ∈ PATH_SCOPED_TOOLS) = true) as -> by by destruct Ht as [->|[->| ->]].
  rw (bool_decide_true _ (canonical_nonempty p Hp)) /=. unfold isPathWithinWorkspaceRoot.
  rw (bool_decide_false _ (canonical_nonempty p Hp)) (bool_decide_false _ (canonical_nonempty wd Hc)) /=.
  rw (canonicalize_real cwd fs wd real) // canonical_forms // negb_false_iff.
  apply isAtOrUnderCanonicalDir_spec; [by apply resolveRealPath_canonical|by eapply real_canonical].
Qed.

(** The executor asks for the end of the link chain twice. *)
Lemma executor_target raw wd :
  let p := resolveSandboxBase cwd raw wd in
  anchored cwd fs p → readlinkSync fs (resolveTrailingLinkTarget cwd fs p) = None →
  realResolved (resolveSandboxTarget cwd fs raw wd false) = resolveRealPath cwd fs p.
Proof.
  intros p (real & rest & Ha & _) Hend. assert (canonical p) as Hp by apply resolve_canonical.
  unfold resolveSandboxTarget. cbn [realResolved]. change (resolve cwd [wd; effectivePath raw wd]) with p.
  set (q := resolveTrailingLinkTarget cwd fs p) in *. assert (canonical q) as Hq by by apply follow_links_canonical.
  rw !resolveRealPath_anchor //. fold q. rw Ha. unfold resolveTrailingLinkTarget at 1. cbn [follow_links]. by rw Hend Ha.
Qed.
End agreement.


(** [/w/l] leads to [/evil], which does not exist. *)
Definition dangling : tree := list_to_map [at_ "/w" Dir; at_ "/w/l" (Link "/evil"); at_ "/w/notes" Dir].

Lemma dangling_stands : stands_at (posix_fs dangling) "/w" "/w".
Proof. split_and!; [by vm_compute|done|by vm_compute|by vm_compute|done]. Defined.

Lemma linked_stands : stands_at (posix_fs linked) "/w" "/w".
Proof. split_and!; [by vm_compute|done|by vm_compute|by vm_compute|done]. Defined.


(** A dangling link to the root of the file system reads as itself.  When
    nothing between the root and the end of a link chain exists,
    [resolveRealPath] drops the chain and gives back the link's own path: the
    classifier takes a write through it for one inside the workspace and
    classifies it low, while the workspace policy sees the escape, and the
    executor of a host that is not containerized lets the write create the
    file outside. *)
Theorem dangling_links_read_as_inside :
  let fs := posix_fs dangling in
  resolveRealPath "/" fs "/w/l" = "/w/l" ∧
  file_risk (classify_file_call "/" fs "/w" false "/root/.vellum" "/app/skills" [] "/" "/root" None file_write
    (call_of "l") (Some "/w")) = low ∧
  isOutOfWorkspaceFileInvocation "/" fs false "file_write" (named_by (call_of "l")) "/w" = true ∧
  sandboxPolicyWithHostFallback "/" fs (sample_env false) "l" "/w" false = path_ok "/w/l" ∧
  opened dangling "/w/l" = Some "/evil".
Proof. by vm_compute. Qed.

(** [/w] is reached by the link [/v]; [/w/hooks/h.ts] leads to [/w/notes/h.ts]. *)
Definition prefixed : tree := list_to_map [
  at_ "/w" Dir; at_ "/w/hooks" Dir; at_ "/w/notes" Dir; at_ "/w/notes/h.ts" File;
  at_ "/w/hooks/h.ts" (Link "../notes/h.ts"); at_ "/v" (Link "/w")].

(** A linked workspace prefix hides a sink.  The sink directories are sent to
    the classifier by their real paths only, and the lexical path of the target
    is compared with these.  In a workspace that is named through a link, a
    write to a name inside the hooks directory that leads elsewhere matches
    neither by its text nor by where it leads: it is classified low, although
    the comment on the check says that a path lexically inside a sink escalates,
    and although the same write in the same workspace by its real name is
    high; the workspace policy does see it. *)
Theorem linked_prefix_hides_sink :
  let fs := posix_fs prefixed in
  let risk wd := file_risk (classify_file_call "/" fs wd false "/root/.vellum" "/app/skills" [] "/" "/root" None file_write
                   (call_of "hooks/h.ts") (Some wd)) in
  risk "/w" = high ∧ risk "/v" = low ∧
  isControlPlaneWorkspaceWrite "/" fs "/v" "file_write" (named_by (call_of "hooks/h.ts")) "/v" = true.
Proof. by vm_compute. Qed.

(** ** Saved options *)

Lemma directory_options_star home levels t dir o : o ∈ directory_options home levels t dir →
  ∃ d, option_pattern o = named t d ∧ has_char "*" d = true.
Proof.
  revert dir. induction levels as [|levels IH]; intros dir; [by intros ?%elem_of_nil|]. cbn [directory_options].
  case_match; [by intros ?%elem_of_nil|]. intros [->|H']%elem_of_cons.
  { exists (dir +:+ "/**"). split; [done|]. rw has_char_app. by apply orb_true_r. }
  case_match; [by apply elem_of_nil in H'|]. case_match; [by apply elem_of_nil in H'|]. by eapply IH.
Qed.

Lemma options_star home t p o : o ∈ buildFileAllowlistOptions home t p →
  option_pattern o = named t p ∨ ∃ d, option_pattern o = named t d ∧ has_char "*" d = true.
Proof.
  unfold buildFileAllowlistOptions. intros [->|[Ho|Ho]%elem_of_app]%elem_of_cons; [by left|right|right].
  - by eapply directory_options_star.
  - apply elem_of_cons in Ho as [->|Ho]; [|by apply elem_of_nil in Ho]. by exists "*".
Qed.

(** A saved directory option covers no file.  The patterns offered for a file
    call are the file, up to three directories above it and the whole tool; a
    rule saved with any of them is looked up by the text of the later call's
    path alone, so it applies to a path without an asterisk only when the path
    is the very one it was saved for. *)
Theorem saved_directory_options_cover_nothing home t p o row q cwd r :
  o ∈ buildFileAllowlistOptions home t p →
  rule_tool row = file_tool_name t → pattern row = option_pattern o → has_char "*" q = false →
  findToolOverride (refresh [row]) (file_tool_name t) q cwd = Some r →
  option_pattern o = named t p ∧ (q = p ∨ q = named t p).
Proof.
  intros Ho Ht Hp Hq Hf. apply options_star in Ho.
  assert (q = option_pattern o ∨ named t q = option_pattern o) as Hkey.
  { revert Hf. unfold findToolOverride, refresh, listActive. rw filter_cons filter_nil. case_decide; [|done].
    cbn [foldl]. unfold add_rule. rw Ht lookup_insert_eq Hp lookup_empty. simpl. unfold first_some.
    destruct (decide (q = option_pattern o)) as [|Hne]; [by left|].
    destruct (decide (named t q = option_pattern o)) as [|Hne']; [by right|].
    rw lookup_insert_ne //. change (file_tool_name t +:+ ":" +:+ q) with (named t q). by rw lookup_insert_ne. }
  assert (∀ d, named t q = named t d → q = d) as Hinj.
  { intros d H. by apply append_inj, append_inj in H. }
  assert (∀ d, q = named t d → has_char "*" d = true → False) as Hstar.
  { intros d H Hd. rw H in Hq. unfold named in Hq. by rw !has_char_app Hd !orb_true_r in Hq. }
  destruct Ho as [Ho|(d & Ho & Hd)]; rw Ho in Hkey.
  - split; [done|]. destruct Hkey as [->|H]; [by right|left; by apply Hinj].
  - exfalso. destruct Hkey as [H|H]; [by eapply Hstar|]. apply Hinj in H. congruence.
Qed.

Definition saved_row (pat : string) : TrustRule := {|
  rule_tool := "file_write"; pattern := pat; rule_risk := low; description := "Allowed by me"; origin := user_defined;
  userModified := false; deleted := false; scope := None |}.

Lemma saved_directory_options_cover_nothing_witness :
  option_pattern {| option_label := "/w/a"; option_description := "This file only"; option_pattern := named file_write "/w/a" |}
    = named file_write "/w/a" ∧ ("/w/a" = "/w/a" ∨ "/w/a" = named file_write "/w/a").
Proof.
  eapply (saved_directory_options_cover_nothing "/root" file_write "/w/a"
    {| option_label := "/w/a"; option_description := "This file only"; option_pattern := named file_write "/w/a" |}
    (saved_row "file_write:/w/a") "/w/a" None (saved_row "file_write:/w/a")).
  - left.
  - done.
  - done.
  - done.
  - by vm_compute.
Defined.

Example saved_directory_is_dead :
  findToolOverride (refresh [saved_row "file_write:/w/**"; saved_row "file_write:*"]) "file_write" "/w/a" (Some "/w") = None.
Proof. by vm_compute. Qed.

(** ** Writes *)

Lemma write_risk_sink gcwd input c o lex real :
  lex = resolveSandboxPath gcwd (filePath input) (workingDir input) → resolvedPath input = Some real →
  filePath input ≠ EmptyString →
  is_Some (classifyCodeInjectionSink lex c Writes o) ∨ is_Some (classifyCodeInjectionSink real c Writes o) →
  file_risk (classify_write gcwd input c o) = high.
Proof.
  intros -> Hr Hp Hs. unfold classify_write. rw Hr (bool_decide_false _ Hp).
  apply either_spec in Hs as [a Ha]. rw Ha. by eapply either_high.
Qed.

Lemma write_risk_outside gcwd input c o : isOutsideSandboxBoundary gcwd input = true →
  file_risk (classify_write gcwd input c o) = medium ∨ file_risk (classify_write gcwd input c o) = high.
Proof.
  intros Hout. unfold classify_write. rw Hout. case_match eqn:Hs; [right|by left].
  case_bool_decide; [done|]. by eapply either_high.
Qed.

(** No rule of the user answers the call. *)
Definition no_override (cache : option TrustRuleCache) (t : FileTool) (p : string) : Prop :=
  ∀ rules, cache = Some rules → isUserRule (findToolOverride rules (file_tool_name t) p (Some (dirname p))) = false.

Lemma classify_plain gcwd home cache input c : no_override cache (tool input) (filePath input) →
  classify gcwd home cache input c = classify_file_tool gcwd home input c.
Proof.
  intros Hn. unfold classify. destruct cache as [rules|]; [|done]. specialize (Hn rules eq_refl).
  destruct (findToolOverride _ _ _ _); [|done]. by rw Hn.
Qed.

Lemma context_canonical cwd fs `{!CanonicalFs fs} workspace vellumRoot bundled extra : canonical workspace →
  Forall canonical (sink_dirs (buildFileContext cwd fs workspace vellumRoot bundled extra)).
Proof.
  intros Hw. assert (∀ w, clean w = true → canonical (join [workspace; w])) as Hj.
  { intros w Hcl. apply join_canonical; [done|by repeat constructor]. }
  repeat constructor; (apply resolveRealPath_canonical; [apply _|]); try by apply Hj.
  unfold getMonitoringDataDir. apply join_canonical; [by apply Hj|by repeat constructor].
Qed.

(** A write of the sandbox, on a POSIX file system. *)
Section writes.
Context (cwd gcwd home : string) (t : tree) (workspace vellumRoot bundled : string) (extra : list string).
Context (cache : option TrustRuleCache) (f : FileTool) (input : FileToolInput) (wd real r : string).
Context (Hf : f = file_write ∨ f = file_edit) (Hraw : raw_path input ≠ EmptyString) (Hwd : stands_at (posix_fs t) wd real).
Context (Hws : canonical workspace) (Hover : no_override cache f (raw_path input)).
Notation p := (resolveSandboxBase cwd (raw_path input) wd).
Context (Hlink : kernel_readlink t p = None) (Hopen : opened t p = Some r).

Definition write_assessment (boxed : bool) : FileAssessment :=
  classify_file_call cwd (posix_fs t) workspace boxed vellumRoot bundled extra gcwd home cache f input (Some wd).

Lemma write_classified boxed : ∃ o,
  write_assessment boxed = classify_write gcwd (request cwd gcwd (posix_fs t) workspace vellumRoot bundled extra boxed f input wd)
    (buildFileContext cwd (posix_fs t) workspace vellumRoot bundled extra) o.
Proof.
  assert (sandbox_tool f) as Hs by by (right; destruct Hf; [left|right]).
  destruct (request_paths cwd gcwd (posix_fs t) workspace vellumRoot bundled extra boxed f input wd Hs Hraw)
    as (H1 & _ & H2 & _).
  unfold write_assessment, classify_file_call, handle_file_tool. rw classify_plain.
  - unfold classify_file_tool. fold (request cwd gcwd (posix_fs t) workspace vellumRoot bundled extra boxed f input wd).
    rw H2. eexists. by destruct Hf as [->| ->].
  - fold (request cwd gcwd (posix_fs t) workspace vellumRoot bundled extra boxed f input wd). by rw H1 H2.
Qed.

Lemma sink_write_high boxed d :
  d ∈ sink_dirs (buildFileContext cwd (posix_fs t) workspace vellumRoot bundled extra) → within d r →
  file_risk (write_assessment boxed) = high.
Proof.
  intros Hd Hw. assert (sandbox_tool f) as Hs by by (right; destruct Hf; [left|right]).
  destruct (request_paths cwd gcwd (posix_fs t) workspace vellumRoot bundled extra boxed f input wd Hs Hraw)
    as (H1 & _ & _ & H2 & _).
  assert (canonical p) as Hp by apply resolve_canonical.
  pose proof (resolveRealPath_opened cwd t p r Hp Hlink Hopen) as Hr. rw Hr in H2.
  destruct (write_classified boxed) as [o ->]. eapply write_risk_sink; [done|exact H2|by rw H1|right].
  apply sink_spec; [|apply context_canonical; [apply _|done]|right; by exists d].
  rw -Hr. apply resolveRealPath_canonical; [apply _|done].
Qed.

Lemma outside_write_not_low : ¬ within real r →
  file_risk (write_assessment false) = medium ∨ file_risk (write_assessment false) = high.
Proof.
  intros Hw. assert (sandbox_tool f) as Hs by by (right; destruct Hf; [left|right]).
  assert (canonical p) as Hp by apply resolve_canonical.
  pose proof (resolveRealPath_opened cwd t p r Hp Hlink Hopen) as Hr.
  destruct (write_classified false) as [o ->]. apply write_risk_outside. apply not_false_iff_true.
  rw (outside_spec cwd gcwd (posix_fs t) workspace vellumRoot bundled extra f input wd real) //. by rw Hr.
Qed.
End writes.
