(* ===== verification/Checker.v ===== *)
(** * The permission check of a tool call

    [classifyRisk] and [check] of [assistant/src/permissions/checker.ts]: the
    gateway's classification of the call, and the decision whether it runs, from
    that and the user's threshold.  The texts of the reasons are left out. *)

From S2P Require Import Prelude JsText JsMap TrustRules ApprovalPolicy Paths PathPolicy PosixFs WorkspacePolicy FileRisk.
Local Open Scope string_scope.
Local Open Scope litt_scope.

(** What the check uses of the gateway's answer. *)
Record gateway_result := {
  result_risk : string;
  sandboxAutoApprove : option bool;
  sandboxPathArgs : option (list string);
}.

Record classification := { level : string; auto_approve : option bool }.

Definition risk_text (r : Risk) : string :=
  match r with low => "low" | medium => "medium" | high => "high" | unknown => "unknown" end.

Definition riskStringToLevel (risk : string) : string :=
  if bool_decide (risk ∈ ["low"; "medium"; "high"]) then risk else "medium".

Record PolicyContext := {
  procToSkillsActive : option bool;
  requestOrigin : option string;
  trustClass : option string;
  sourceChannel : option string;
}.

Definition MEMORY_RETROSPECTIVE_ORIGIN : string := "memory_retrospective".
Definition SKILL_MANAGEMENT_SKILL_ID : string := "skill-management".

(** The string fields a skill call names its skill by. *)
Record SkillInput := { input_skill : option string; input_skill_id : option string }.

(** Who owns the tool, as the approval policy reads it. *)
Record ownership := { owner_kind : option OwnerKind; bundled : option bool; manifest : bool }.

Section check.
Context (cwd : string) (fs : file_system) (getWorkspaceDir : string) (getIsContainerized : bool).

Definition applyBashSymlinkEscapeCheck (result : classification) (paths : option (list string)) : classification :=
  if negb (auto_approve result otherwise false) || bool_decide ((paths otherwise []) = []) then result
  else if existsb (λ p, negb (isPathWithinWorkspaceRoot cwd fs p getWorkspaceDir)) (paths otherwise [])
  then {| level := level result; auto_approve := Some false |}
  else result.

(** [classifyRisk] after the call to the gateway; [None] where it throws. *)
Definition classifyRisk (gatewayResult : option gateway_result) : option classification :=
  match gatewayResult with
  | None => None
  | Some g =>
      Some (applyBashSymlinkEscapeCheck
              {| level := riskStringToLevel (result_risk g); auto_approve := sandboxAutoApprove g |}
              (sandboxPathArgs g))
  end.

Definition isRetrospectiveSkillAuthoringGrant (toolName : string) (input : SkillInput)
    (policyContext : option PolicyContext) : bool :=
  match policyContext with
  | None => false
  | Some c =>
      if negb (bool_decide (procToSkillsActive c = Some true)) ||
         negb (bool_decide (requestOrigin c = Some MEMORY_RETROSPECTIVE_ORIGIN)) ||
         negb (bool_decide (trustClass c = Some "guardian")) ||
         negb (bool_decide (sourceChannel c = Some "vellum"))
      then false
      else if bool_decide (toolName = "scaffold_managed_skill") then true
      else if bool_decide (toolName = "find_similar_skills") then true
      else if bool_decide (toolName = "skill_load")
      then bool_decide (js_trim (getStringField [input_skill input; input_skill_id input]) = SKILL_MANAGEMENT_SKILL_ID)
      else false
  end.

Definition approvalContext (toolName : string) (path_input : ToolInput) (workingDir : string) (c : classification)
    (owner : ownership) (threshold : string) : ApprovalContext :=
  Context_ (level c) toolName getIsContainerized
    (if bool_decide (level c = "low")
     then isWorkspaceScopedInvocation cwd fs getIsContainerized toolName path_input workingDir else false)
    (owner_kind owner) (bundled owner) (Some (manifest owner)) (Some (auto_approve c otherwise false)) (Some threshold).

(** The decision of [check]: [threshold] is the cached one, [fresh] the one read
    again before the user is asked, [None] when that read failed.  [None] where
    the classification throws. *)
Definition check (toolName : string) (path_input : ToolInput) (skill_input : SkillInput) (workingDir : string)
    (policyContext : option PolicyContext) (gatewayResult : option gateway_result) (owner : ownership)
    (threshold : string) (fresh : option string) : option decision :=
  if isRetrospectiveSkillAuthoringGrant toolName skill_input policyContext then Some allow
  else
    match classifyRisk gatewayResult with
    | None => None
    | Some c =>
        let decide_at up_to := decided (evaluate (approvalContext toolName path_input workingDir c owner up_to)) in
        let approvalDecision := decide_at threshold in
        if bool_decide (approvalDecision = prompt) then
          match fresh with
          | Some freshThreshold =>
              if bool_decide (freshThreshold ≠ threshold) then Some (decide_at freshThreshold)
              else Some approvalDecision
          | None => Some approvalDecision
          end
        else Some approvalDecision
    end.
End check.

(** ** What is decided *)

Section decisions.
Context (cwd : string) (fs : file_system) (workspace : string) (boxed : bool).

(** What a threshold lets through. *)
Definition allowed_at (toolName : string) (c : classification) (up_to : string) : bool :=
  bool_decide (toolName = "bash") && (auto_approve c otherwise false) && negb (bool_decide (up_to = "none")) ||
  isRiskWithinThreshold (level c) (Some up_to).

Lemma decided_at toolName path_input wd c owner up_to :
  decided (evaluate (approvalContext cwd fs boxed toolName path_input wd c owner up_to)) =
    if allowed_at toolName c up_to then allow else prompt.
Proof.
  rw evaluate_decided. unfold sandbox_auto_approve, allowed_at. cbn -[isRiskWithinThreshold bool_decide].
  assert (bool_decide (Some up_to = Some "none") = bool_decide (up_to = "none")) as ->; [|done].
  apply bool_decide_ext. split; [by intros [=]|by intros ->].
Qed.

(** The decision is the approval policy's, at either threshold that was read. *)
Lemma check_decided toolName path_input skill_input wd pc c owner threshold fresh g :
  isRetrospectiveSkillAuthoringGrant toolName skill_input pc = false →
  classifyRisk cwd fs workspace (Some g) = Some c →
  check cwd fs workspace boxed toolName path_input skill_input wd pc (Some g) owner threshold fresh =
    Some (if allowed_at toolName c threshold || allowed_at toolName c (fresh otherwise threshold) then allow else prompt).
Proof.
  intros Hg Hc. unfold check. rw Hg Hc !decided_at.
  destruct (allowed_at toolName c threshold) eqn:Ha; [done|]. cbn [orb]. rw bool_decide_true //.
  destruct fresh as [f|]; [|by rw Ha]. rw decided_at. case_bool_decide as Hf; [done|]. by rw Hf Ha.
Qed.
End decisions.

(** The answer to a file call. *)
Definition file_result (a : FileAssessment) : gateway_result := {|
  result_risk := risk_text (file_risk a); sandboxAutoApprove := None; sandboxPathArgs := None |}.

Lemma file_not_granted f input pc : isRetrospectiveSkillAuthoringGrant (file_tool_name f) input pc = false.
Proof. destruct pc as [c|]; [|done]. simpl. case_match; [done|]. by destruct f. Qed.

Lemma file_check cwd fs workspace boxed f path_input skill_input wd pc a owner threshold fresh :
  file_risk a ≠ unknown →
  let up_to := Z.max (threshold_ordinal (Some threshold)) (threshold_ordinal (Some (fresh otherwise threshold))) in
  check cwd fs workspace boxed (file_tool_name f) path_input skill_input wd pc (Some (file_result a)) owner threshold fresh =
    Some (if (risk_ordinal (risk_text (file_risk a)) <=? up_to)%Z then allow else prompt).
Proof.
  intros Hu up_to. rw (check_decided cwd fs workspace boxed _ _ _ _ _ _ _ _ _ _ (file_not_granted f skill_input pc) eq_refl).
  f_equal. assert (∀ u, allowed_at (file_tool_name f) {| level := riskStringToLevel (risk_text (file_risk a)); auto_approve := None |} u
    = (risk_ordinal (risk_text (file_risk a)) <=? threshold_ordinal (Some u))%Z) as Hat.
  { intros u. unfold allowed_at. rw andb_false_r /=. unfold isRiskWithinThreshold. by destruct (file_risk a). }
  unfold applyBashSymlinkEscapeCheck. cbn -[allowed_at]. rw !Hat.
  subst up_to. destruct (Z.leb_spec (risk_ordinal (risk_text (file_risk a)))
    (Z.max (threshold_ordinal (Some threshold)) (threshold_ordinal (Some (fresh otherwise threshold))))) as [Hle|Hlt].
  - enough ((_ <=? _)%Z || (_ <=? _)%Z = true) as -> by done. zbool.
  - enough ((_ <=? _)%Z || (_ <=? _)%Z = false) as -> by done. zbool.
Qed.

(** C18 — No file is written outside the workspace, or into a directory the daemon runs
    code from, on the strength of a low threshold. Take a write or edit call on a POSIX
    file system, in a workspace that exists below the root and by no link of its own, to a
    path whose last name is no link, and let no rule of the user answer the call; let [r]
    be the file an [open] of the path creates or overwrites, through all links in the
    directories above it. On a host that is not containerized, if [r] lies outside the
    workspace's real directory, the check of the call prompts at every threshold up to
    low. On any host, if [r] is one of the sink directories or lies below one, it prompts
    at every threshold up to medium. The threshold may change between the two reads. *)
Theorem escapes_ask cwd gcwd home t workspace vellumRoot bundled extra cache f input wd real r boxed
    path_input skill_input pc owner threshold fresh :
  f = file_write ∨ f = file_edit → raw_path input ≠ EmptyString → stands_at (posix_fs t) wd real →
  canonical workspace → no_override cache f (raw_path input) →
  let p := resolveSandboxBase cwd (raw_path input) wd in
  kernel_readlink t p = None → opened t p = Some r →
  let a := write_assessment cwd gcwd home t workspace vellumRoot bundled extra cache f input wd boxed in
  let up_to := Z.max (threshold_ordinal (Some threshold)) (threshold_ordinal (Some (fresh otherwise threshold))) in
  let asked := check cwd (posix_fs t) workspace boxed (file_tool_name f) path_input skill_input wd pc
                 (Some (file_result a)) owner threshold fresh = Some prompt in
  (boxed = false → ¬ within real r → (up_to ≤ 0)%Z → asked) ∧
  (∀ d, d ∈ sink_dirs (buildFileContext cwd (posix_fs t) workspace vellumRoot bundled extra) → within d r →
     (up_to ≤ 1)%Z → asked).
Proof.
  intros Hf Hraw Hwd Hws Hover p Hl Ho a up_to asked. split.
  - intros -> Hw Hup. subst asked a. pose proof (outside_write_not_low cwd gcwd home t workspace vellumRoot bundled extra cache f input wd real r
      Hf Hraw Hwd Hover Hl Ho Hw) as Hrisk. rw file_check; [|by destruct Hrisk as [->| ->]].
    fold up_to. clearbody up_to. rw (proj2 (Z.leb_gt _ _)); [done|].
    destruct Hrisk as [-> | ->]; [change (risk_ordinal (risk_text medium)) with 1%Z|change (risk_ordinal (risk_text high)) with 2%Z]; lia.
  - intros d Hd Hw Hup. subst asked a. pose proof (sink_write_high cwd gcwd home t workspace vellumRoot bundled extra cache f input wd r
      Hf Hraw Hws Hover Hl Ho boxed d Hd Hw) as Hrisk. rw file_check; [|by rw Hrisk].
    rw Hrisk. fold up_to. clearbody up_to. rw (proj2 (Z.leb_gt _ _)); [done|].
    change (risk_ordinal (risk_text high)) with 2%Z. lia.
Qed.

Lemma escapes_ask_witness :
  check "/" (posix_fs linked) "/w" false "file_write" {| input_path := Some "out/x"; input_file_path := None |}
    {| input_skill := None; input_skill_id := None |} "/w" None
    (Some (file_result (write_assessment "/" "/" "/root" linked "/w" "/root/.vellum" "/app/skills" [] None file_write
       (call_of "out/x") "/w" false)))
    {| owner_kind := None; bundled := None; manifest := false |} "low" (Some "none") = Some prompt.
Proof.
  refine (proj1 (escapes_ask "/" "/" "/root" linked "/w" "/root/.vellum" "/app/skills" [] None file_write (call_of "out/x") "/w"
    "/w" "/data/deep/x" false {| input_path := Some "out/x"; input_file_path := None |}
    {| input_skill := None; input_skill_id := None |} None {| owner_kind := None; bundled := None; manifest := false |}
    "low" (Some "none") _ _ _ _ _ _ _) eq_refl _ _).
  - by left.
  - done.
  - exact linked_stands.
  - by vm_compute.
  - done.
  - by vm_compute.
  - by vm_compute.
  - apply (bool_decide_unpack (¬ within "/w" "/data/deep/x")). by vm_compute.
  - by vm_compute.
Defined.

Lemma escape_revokes cwd fs workspace c paths :
  existsb (λ p, negb (isPathWithinWorkspaceRoot cwd fs p workspace)) (paths otherwise []) = true →
  (auto_approve (applyBashSymlinkEscapeCheck cwd fs workspace c paths) otherwise false) = false ∧
  level (applyBashSymlinkEscapeCheck cwd fs workspace c paths) = level c.
Proof.
  intros He. unfold applyBashSymlinkEscapeCheck. rw He.
  destruct (auto_approve c otherwise false) eqn:Ha; [|by rw /= Ha].
  rw bool_decide_false; [done|]. by intros Hn; rewrite Hn in He.
Qed.

(** A shell command that leaves the workspace is not approved for its paths.
    A shell command the gateway marked for automatic approval runs without a
    question only when every path argument the gateway listed lies, with its
    links followed, in the workspace, or when its risk is within the threshold
    anyway. *)
Theorem escaping_commands_ask cwd fs workspace boxed path_input skill_input wd pc g owner threshold fresh :
  check cwd fs workspace boxed "bash" path_input skill_input wd pc (Some g) owner threshold fresh = Some allow →
  (∀ ps q, sandboxPathArgs g = Some ps → q ∈ ps → isPathWithinWorkspaceRoot cwd fs q workspace = true) ∨
  (risk_ordinal (riskStringToLevel (result_risk g)) ≤
     Z.max (threshold_ordinal (Some threshold)) (threshold_ordinal (Some (fresh otherwise threshold))))%Z.
Proof.
  assert (isRetrospectiveSkillAuthoringGrant "bash" skill_input pc = false) as Hg
    by by (destruct pc as [c|]; [simpl; case_match|]).
  set (c := {| level := riskStringToLevel (result_risk g); auto_approve := sandboxAutoApprove g |}).
  rw (check_decided cwd fs workspace boxed _ path_input _ wd pc
    (applyBashSymlinkEscapeCheck cwd fs workspace c (sandboxPathArgs g)) owner threshold fresh g Hg eq_refl).
  intros Hc. destruct (existsb (λ p, negb (isPathWithinWorkspaceRoot cwd fs p workspace)) (sandboxPathArgs g otherwise [])) eqn:He.
  - right. destruct (escape_revokes cwd fs workspace c _ He) as [Ha Hl]. unfold allowed_at in Hc. rw Ha Hl !andb_false_r /= in Hc.
    unfold isRiskWithinThreshold in Hc. case_match eqn:Ho; [|done]. apply orb_true_iff in Ho. zbool.
  - left. intros ps q Hps Hq. rw Hps in He. apply negb_false_iff, not_true_iff_false. intros Hout.
    apply not_true_iff_false in He. apply He, existsb_elem. by exists q.
Qed.

Lemma escaping_commands_ask_witness :
  let g := {| result_risk := "medium"; sandboxAutoApprove := Some true; sandboxPathArgs := Some ["/w/in/a.md"] |} in
  (∀ ps q, sandboxPathArgs g = Some ps → q ∈ ps → isPathWithinWorkspaceRoot "/" (posix_fs linked) q "/w" = true) ∨
  (risk_ordinal (riskStringToLevel (result_risk g)) ≤ Z.max (threshold_ordinal (Some "low")) (threshold_ordinal (Some "low")))%Z.
Proof.
  cbv zeta. apply (escaping_commands_ask "/" (posix_fs linked) "/w" false {| input_path := None; input_file_path := None |}
    {| input_skill := None; input_skill_id := None |} "/w" None
    {| result_risk := "medium"; sandboxAutoApprove := Some true; sandboxPathArgs := Some ["/w/in/a.md"] |}
    {| owner_kind := None; bundled := None; manifest := false |} "low" None).
  by vm_compute.
Defined.

Example escape_sample :
  check "/" (posix_fs linked) "/w" false "bash" {| input_path := None; input_file_path := None |}
    {| input_skill := None; input_skill_id := None |} "/w" None
    (Some {| result_risk := "medium"; sandboxAutoApprove := Some true; sandboxPathArgs := Some ["/w/notes/a"; "/w/out/x"] |})
    {| owner_kind := None; bundled := None; manifest := false |} "low" None = Some prompt.
Proof. by vm_compute. Qed.
