(* ===== verification/DirectoryScope.v ===== *)
(** * Directory scopes

    [gateway/src/risk/directory-scope.ts] and [gateway/src/risk/project-boundary.ts]:
    the directories a rule can be restricted to when it is saved from a call,
    narrowest first, and how a saved scope meets the later call. *)

From S2P Require Import Prelude JsText JsMap TrustRules BashRisk Paths PathPolicy WorkspacePolicy FileRisk.
Local Open Scope string_scope.
Local Open Scope litt_scope.

Record DirectoryScopeOption := { offered_scope : string; offered_label : string }.

#[export] Instance DirectoryScopeOption_eq_dec : EqDecision DirectoryScopeOption.
Proof. solve_decision. Defined.

Section scopes.
(** The gateway's directory and home, and what it sees of the file system:
    [existsSync], and whether [statSync] succeeds on a directory. *)
Context (cwd home : string) (existsSync isDirectory : string → bool).

(** ** The project a directory belongs to *)

Definition PROJECT_MARKERS : list string :=
  [".git"; "package.json"; "Cargo.toml"; "go.mod"; "pyproject.toml"; "Makefile"].

Definition has_marker (dir : string) : bool := existsb (λ marker, existsSync (below dir marker)) PROJECT_MARKERS.

(** The loop of [findProjectBoundary]; [None] when the fuel is spent. *)
Fixpoint boundary_walk (fuel : nat) (stopAt : option string) (current previous : string) : option (option string) :=
  match fuel with
  | O => None
  | S fuel =>
      if bool_decide (current = previous) then Some None
      else if has_marker current then Some (Some current)
      else if truthy stopAt && bool_decide (Some current = stopAt) then Some None
      else boundary_walk fuel stopAt (dirname current) current
  end.

Definition findProjectBoundary (startDir : string) (stopAt : option string) : option string :=
  boundary_walk (S (S (S (String.length startDir)))) stopAt startDir EmptyString otherwise None.

(** ** The common ancestor *)

Definition resolvePath (path workingDir : string) : string :=
  if bool_decide (path = "~") then home
  else if starts_with "~/" path then resolve cwd [home; slice_from 2 path]
  else if isAbsolute path then resolve cwd [path]
  else resolve cwd [workingDir; path].

(** The pieces all [splits] begin with. *)
Fixpoint common_parts (first : list string) (rest : list (list string)) : list string :=
  match first with
  | [] => []
  | segment :: first =>
      if forallb (λ s, bool_decide (head s = Some segment)) rest then segment :: common_parts first (tail <$> rest) else []
  end.

Definition commonAncestor (paths : list string) : string :=
  match js_set paths with
  | [] => "/"
  | [only] => if isDirectory only then only else dirname only
  | first :: rest =>
      let common := common_parts (parts first) (parts <$> rest) in
      if bool_decide (common = []) then "/"
      else if bool_decide (common = [EmptyString]) then "/"
      else let joined := join_parts common in if bool_decide (joined = EmptyString) then "/" else joined
  end.

Definition isWithin (candidate root : string) : bool :=
  bool_decide (candidate = root) || starts_with (with_slash root) candidate.

(** ** The ladder *)

(** The directory the ladder starts from. *)
Definition scope_ancestor (pathArgs : list string) (workingDir : string) : string :=
  match pathArgs with
  | [] => workingDir
  | _ => commonAncestor ((λ p, resolvePath p workingDir) <$> pathArgs)
  end.

Definition scope_option (dir : string) : DirectoryScopeOption := {|
  offered_scope := below dir "*"; offered_label := "In " +:+ basename dir +:+ "/" |}.

Definition push (options : list DirectoryScopeOption) (o : DirectoryScopeOption) : list DirectoryScopeOption :=
  if existsb (λ seen, bool_decide (offered_scope seen = offered_scope o)) options then options else (options ++ [o])%list.

Definition in_workspace (ancestor : string) (workspaceRoot : option string) : bool :=
  match workspaceRoot with None => true | Some root => isWithin ancestor root end.

Definition skipExact (ancestor : string) (workspaceRoot : option string) : bool :=
  bool_decide (ancestor = "/") || bool_decide (ancestor = home) || isWithin home ancestor ||
  negb (in_workspace ancestor workspaceRoot).

Definition generateDirectoryScopeOptions (pathArgs : list string) (workingDir : string) (workspaceRoot : option string)
    : list DirectoryScopeOption :=
  let ancestor := scope_ancestor pathArgs workingDir in
  let options := if skipExact ancestor workspaceRoot then [] else push [] (scope_option ancestor) in
  let options :=
    if in_workspace ancestor workspaceRoot then
      match findProjectBoundary ancestor workspaceRoot with
      | Some boundary =>
          if bool_decide (boundary ≠ ancestor) && bool_decide (Some boundary ≠ workspaceRoot)
          then push options (scope_option boundary) else options
      | None => options
      end
    else options in
  push options {| offered_scope := "everywhere"; offered_label := "Everywhere" |}.
End scopes.

Example scope_samples :
  let marked p := bool_decide (p ∈ ["/w/app/package.json"; "/w/.git"]) in
  let dirs p := bool_decide (p ∈ ["/w"; "/w/app"; "/w/app/src"]) in
  let scopes args root := offered_scope <$> generateDirectoryScopeOptions "/" "/root" marked dirs args "/w/app/src" root in
  (scopes ["a.ts"] None = ["/w/app/src/*"; "/w/app/*"; "everywhere"]) ∧
  (scopes ["a.ts"; "../b/c.ts"] (Some "/w") = ["/w/app/*"; "everywhere"]) ∧
  (scopes ["/etc/passwd"] (Some "/w") = ["everywhere"]) ∧
  (scopes ["~/x"] None = ["everywhere"]) ∧
  (scopes [] (Some "/w/app") = ["/w/app/src/*"; "everywhere"]) ∧
  (scopes ["/w/x/y"] None = ["/w/x/*"; "/w/*"; "everywhere"]).
Proof. by vm_compute. Qed.

(** ** The common ancestor is the deepest *)

Lemma common_parts_prefix first rest l : l ∈ first :: rest → common_parts first rest `prefix_of` l.
Proof.
  revert rest l. induction first as [|x first IH]; intros rest l Hl; cbn [common_parts]; [by apply prefix_nil|].
  destruct (forallb _ rest) eqn:Hall; [|by apply prefix_nil].
  apply elem_of_cons in Hl as [->|Hl]; [by apply prefix_cons, IH; left|].
  assert (head l = Some x) as Hx.
  { rewrite forallb_forall in Hall. specialize (Hall l ltac:(by apply list_elem_of_In)). by apply bool_decide_eq_true in Hall. }
  destruct l as [|y l]; [done|]. injection Hx as ->. apply prefix_cons, IH. right. apply list_elem_of_fmap. by exists (x :: l).
Qed.

Lemma common_parts_deepest k first rest : (∀ l, l ∈ first :: rest → k `prefix_of` l) →
  k `prefix_of` common_parts first rest.
Proof.
  revert first rest. induction k as [|x k IH]; intros first rest Hk; [by apply prefix_nil|].
  destruct (Hk first ltac:(by left)) as [m ->]. cbn [common_parts app].
  assert (forallb (λ s, bool_decide (head s = Some x)) rest = true) as ->.
  { apply forallb_forall. intros s Hs%list_elem_of_In. apply bool_decide_eq_true.
    destruct (Hk s ltac:(by right)) as [n ->]. done. }
  apply prefix_cons, IH. intros l [->|Hl]%elem_of_cons; [by exists m|].
  apply list_elem_of_fmap in Hl as (s & -> & Hs). destruct (Hk s ltac:(by right)) as [n ->]. by exists n.
Qed.

Lemma prefix_parts k p : canonical p → EmptyString :: k `prefix_of` parts p →
  cleans k → k `prefix_of` segs p.
Proof.
  intros Hp Hk Hc. destruct (decide (p = root)) as [->|Hr].
  - destruct Hk as [m Hm]. destruct k as [|w k]; [by apply prefix_nil|]. injection Hm as <- _.
    by apply Forall_cons in Hc as [? _].
  - rw parts_canonical // in Hk. by apply prefix_cons_inv_2 in Hk.
Qed.

Lemma parts_prefix k p : canonical p → k `prefix_of` segs p → EmptyString :: k `prefix_of` parts p.
Proof.
  intros Hp Hk. destruct (decide (p = root)) as [->|Hr].
  - rw segs_root in Hk. apply prefix_nil_inv in Hk as ->. by exists [EmptyString].
  - rw parts_canonical //. by apply prefix_cons.
Qed.

Section ancestor.
Context (isDirectory : string → bool).

(** Of several paths, the ancestor is the deepest directory that holds them all. *)
Lemma common_ancestor_deepest paths : Forall canonical paths → (2 ≤ length (js_set paths))%nat →
  let d := commonAncestor isDirectory paths in
  canonical d ∧ (∀ p, p ∈ paths → within d p) ∧ (∀ e, (∀ p, p ∈ paths → within e p) → within e d).
Proof.
  intros Hpaths Hlen. pose proof (NoDup_js_set paths) as Hnd. unfold commonAncestor.
  assert (∀ p, p ∈ js_set paths ↔ p ∈ paths) as Hin by (intros; apply elem_of_js_set).
  assert (∀ p, p ∈ js_set paths → canonical p) as Hcan.
  { intros p Hp. apply (proj1 (Forall_forall _ _) Hpaths). by apply Hin. }
  destruct (js_set paths) as [|first [|second rest]]; [simpl in Hlen; lia..|].
  set (common := common_parts (parts first) (parts <$> second :: rest)).
  assert (∀ p, p ∈ first :: second :: rest → common `prefix_of` parts p) as Hpre.
  { intros p Hp. apply common_parts_prefix. apply elem_of_cons in Hp as [->|Hp]; [by left|right].
    apply list_elem_of_fmap. by exists p. }
  assert (∀ k, (∀ p, p ∈ first :: second :: rest → k `prefix_of` parts p) → k `prefix_of` common) as Hdeep.
  { intros k Hk. apply common_parts_deepest. intros l [->|Hl]%elem_of_cons; [apply Hk; by left|].
    apply list_elem_of_fmap in Hl as (q & -> & Hq). apply Hk. by right. }
  assert (∃ q, q ∈ first :: second :: rest ∧ q ≠ root) as (q & Hq & Hqr).
  { destruct (decide (first = root)) as [->|]; [|exists first; split; [by left|done]].
    exists second. split; [by right; left|]. intros ->. apply NoDup_cons in Hnd as [[] _]. by left. }
  destruct (Hdeep [EmptyString]) as [k Hk].
  { intros p Hp. by apply (parts_prefix []); [apply Hcan|apply prefix_nil]. }
  cbn [app] in Hk. assert (cleans k) as Hck.
  { pose proof (Hpre q Hq) as Hqp. rw Hk (parts_canonical q) // in Hqp; [|by apply Hcan].
    apply prefix_cons_inv_2 in Hqp as [m Hm]. pose proof (segs_clean q) as Hsc. rw Hm in Hsc. by apply Forall_app in Hsc as [? _]. }
  rewrite bool_decide_false; [|by rw Hk].
  assert ((if bool_decide (common = [EmptyString]) then "/"
           else if bool_decide (join_parts common = EmptyString) then "/" else join_parts common) = of_segs k) as ->.
  { rw Hk. destruct (decide (k = [])) as [->|Hne]; [done|]. rw bool_decide_false; [|by intros [=]].
    rw join_parts_empty // decide_False //. }
  split_and!.
  - by apply canonical_of_segs.
  - intros p Hp%Hin. unfold within. rw segs_of_segs //. apply prefix_parts; [by apply Hcan| |done]. rw -Hk. by apply Hpre.
  - intros e He. unfold within. rw segs_of_segs //. assert (EmptyString :: segs e `prefix_of` common) as H.
    { apply Hdeep. intros p Hp. apply parts_prefix; [by apply Hcan|]. by apply He, Hin. }
    rw Hk in H. by apply prefix_cons_inv_2 in H.
Qed.
End ancestor.

(** ** The nearest project *)

Lemma within_antisym a b : canonical a → canonical b → within a b → within b a → a = b.
Proof. intros Ha Hb H1 H2. apply segs_inj; [done..|]. by apply (anti_symm prefix). Qed.

Lemma within_parent l w : cleans (l ++ [w]) → within (of_segs l) (of_segs (l ++ [w])).
Proof.
  intros Hl. apply Forall_app in Hl as Hl'. destruct Hl' as [Hc _]. unfold within. rw !segs_of_segs //. by exists [w].
Qed.

Lemma within_snoc e l w : cleans (l ++ [w]) → canonical e → within e (of_segs (l ++ [w])) →
  e = of_segs (l ++ [w]) ∨ within e (of_segs l).
Proof.
  intros Hl He [m Hm]. rw segs_of_segs // in Hm. apply Forall_app in Hl as [Hc _].
  destruct m as [|x m _] using rev_ind.
  - left. by rw app_nil_r in Hm; rewrite Hm.
  - right. rw app_assoc in Hm. apply app_inj_tail in Hm as [-> _]. unfold within. rw segs_of_segs //. by exists m.
Qed.

Section boundary.
Context (existsSync : string → bool) (stopAt : option string).

(** The nearest marked directory, from the pieces of a path in reverse. *)
Fixpoint nearest (rl : list string) : option string :=
  let dir := of_segs (reverse rl) in
  if has_marker existsSync dir then Some dir
  else if truthy stopAt && bool_decide (Some dir = stopAt) then None
  else match rl with [] => None | _ :: above => nearest above end.

Lemma boundary_walk_nearest fuel p previous : canonical p → p ≠ previous → (length (segs p) + 1 < fuel)%nat →
  boundary_walk existsSync fuel stopAt p previous = Some (nearest (reverse (segs p))).
Proof.
  revert p previous. induction fuel as [|fuel IH]; intros p previous Hp Hne Hl; [lia|]. cbn [boundary_walk].
  rewrite bool_decide_false; [|done]. destruct (decide (p = root)) as [->|Hr].
  { rw segs_root dirname_root. destruct fuel as [|fuel]; [rw segs_root /= in Hl; lia|].
    change (nearest (reverse [])) with (if has_marker existsSync root then Some root
      else if truthy stopAt && bool_decide (Some root = stopAt) then None else None).
    destruct (has_marker existsSync root); [done|]. by destruct (truthy stopAt && bool_decide (Some root = stopAt)). }
  destruct (segs_snoc_canonical p Hp Hr) as (l & w & Hs & Hc & _).
  rw Hs reverse_snoc. cbn [nearest]. rw -(reverse_snoc l w) reverse_involutive -Hs (Hp : of_segs (segs p) = p).
  case_match; [done|]. case_match; [done|]. rw (dirname_snoc p l w) // IH.
  - by rw segs_of_segs.
  - by apply canonical_of_segs.
  - intros He. apply Hr, dirname_fixed; [done|]. by rw (dirname_snoc p l w).
  - rw segs_of_segs //. rw Hs length_app /= in Hl. lia.
Qed.

Lemma nearest_spec l b : cleans l → nearest (reverse l) = Some b →
  canonical b ∧ within b (of_segs l) ∧ has_marker existsSync b = true ∧
  (∀ e, canonical e → within e (of_segs l) → within b e → e ≠ b → has_marker existsSync e = false ∧ Some e ≠ stopAt).
Proof.
  induction l as [|w l IH] using rev_ind; intros Hl.
  - change (nearest (reverse [])) with (if has_marker existsSync root then Some root
      else if truthy stopAt && bool_decide (Some root = stopAt) then None else None).
    change (of_segs []) with root. destruct (has_marker existsSync root) eqn:Hm.
    + intros [= <-]. split_and!; [done|apply within_refl|done|]. intros e He Hw _ [].
      apply within_antisym; [done|done|exact Hw|apply within_root].
    + by destruct (truthy stopAt && bool_decide (Some root = stopAt)).
  - rw reverse_snoc. cbn [nearest]. rw -(reverse_snoc l w) reverse_involutive.
    apply Forall_app in Hl as Hl'. destruct Hl' as [Hcl _]. specialize (IH Hcl).
    destruct (has_marker existsSync (of_segs (l ++ [w]))) eqn:Hm.
    + intros [= <-]. split_and!; [by apply canonical_of_segs|apply within_refl|done|].
      intros e He Hw Hw' Hne. destruct Hne. by apply within_antisym; [|apply canonical_of_segs|..].
    + case_match eqn:Hstop; [done|]. intros Hn. destruct (IH Hn) as (H1 & H2 & H3 & H4). split_and!; [done| |done|].
      * eapply within_trans; [exact H2|]. by apply within_parent.
      * intros e He Hw Hb Hne. destruct (within_snoc e l w Hl He Hw) as [->|Hw']; [|by apply H4].
        split; [done|]. intros Hst. rw Hst bool_decide_true // andb_true_r in Hstop.
        pose proof (canonical_nonempty _ He) as Hn'. rw -Hst in Hstop. by destruct (of_segs (l ++ [w])).
Qed.
End boundary.

(** ** Scopes and later calls *)

Lemma below_star d : below d "*" = d +:+ "/*".
Proof. done. Qed.

Lemma canonical_slash d : canonical d → d ≠ root → with_slash d = d +:+ "/".
Proof.
  intros Hd Hr. unfold with_slash, ends_with. by rw canonical_no_suffix // bool_decide_false.
Qed.

Lemma join_parts_head a w l : ∃ s, join_parts (String a w :: l) = String a s.
Proof. destruct l as [|x l]; [by exists w|]. rw join_parts_cons // append_cons. by eexists. Qed.

Lemma canonical_cons d : canonical d → d ≠ root → ∃ b s, d = String slash (String b s).
Proof.
  intros Hd Hr. pose proof (segs_clean d) as Hc. pose proof (proj1 (segs_nil d Hd)) as Hn.
  rw -Hd. destruct (segs d) as [|w l]; [by destruct Hr, Hn|]. apply Forall_cons in Hc as [Hw _].
  apply clean_spec in Hw as (Hw & _). destruct w as [|b w]; [done|]. destruct (join_parts_head b w l) as [s Hs].
  exists b, s. unfold of_segs. by rw Hs.
Qed.

Lemma starts_with_slashes d c : starts_with (d +:+ "/") (c +:+ "/") = true ↔ c = d ∨ starts_with (d +:+ "/") c = true.
Proof.
  rw !starts_with_spec. split.
  - intros [r H]. destruct (string_snoc r) as [->|(t & a & ->)].
    + left. rw append_nil_r in H. by apply append_snoc_inj in H as [-> _].
    + right. exists t. rw -append_assoc in H. by apply append_snoc_inj in H as [-> _].
  - intros [->|[r ->]]; [exists EmptyString; by rw append_nil_r|exists (r +:+ "/")]. by rw append_assoc.
Qed.

(** A directory scope holds the calls made at or below the directory. *)
Lemma scope_match_spec d c : canonical d → canonical c →
  isScopeMatch (Some (below d "*")) (Some c) = true ↔ within d c.
Proof.
  intros Hd Hc. pose proof (canonical_absolute d Hd) as Habs. rw below_star. unfold isScopeMatch.
  rw (bool_decide_false _ (canonical_nonempty c Hc)).
  assert (bool_decide (d +:+ "/*" = EmptyString) = false ∧ bool_decide (d +:+ "/*" = "everywhere") = false) as [-> ->].
  { destruct d as [|a d]; [done|]. rw append_cons !bool_decide_eq_false. split; [done|]. intros [= -> _]. done. }
  cbn [orb]. rw before_suffix_append //. destruct (decide (d = root)) as [->|Hr].
  { split; [intros _; apply within_root|intros _]. apply orb_true_iff. right.
    unfold with_slash at 2. case_match; [exact (canonical_absolute c Hc)|].
    destruct c as [|a c]; [done|]. pose proof (canonical_absolute _ Hc) as Ha. exact Ha. }
  rw within_spec // (canonical_slash d) //. destruct (decide (c = root)) as [->|Hcr].
  - destruct (canonical_cons d Hd Hr) as (b & s & ->). change (with_slash root) with "/". rw !append_cons.
    rw bool_decide_false; [|done]. rw !orb_false_l. cbn [starts_with]. by rw andb_false_r /=; split; [|intros []].
  - rw (canonical_slash c) //. rw orb_true_iff bool_decide_eq_true starts_with_slashes. split; [intros [H|H]; [|done]|by right].
    left. by apply append_snoc_inj in H as [-> _].
Qed.

(** The directory of a relative path is relative. *)
Lemma parts_head_relative q : isAbsolute q = false → q ≠ EmptyString → ∃ a w l, parts q = String a w :: l ∧ a ≠ slash.
Proof.
  destruct q as [|a q]; [done|]. intros Ha _. unfold isAbsolute in Ha. cbn [starts_with] in Ha.
  assert (a ≠ slash) as Hne by (intros ->; by destruct q).
  cbn [parts]. rw decide_False //. destruct (parts q) as [|w l] eqn:Hq; [by apply parts_nonempty in Hq|]. by exists a, w, l.
Qed.

Lemma drop_empty_suffix l : drop_empty l `suffix_of` l.
Proof.
  induction l as [|x l IH]; [done|]. cbn [drop_empty]. case_match; [by apply suffix_cons_r|done].
Qed.

Lemma dirname_relative q : isAbsolute q = false → ∃ a s, dirname q = String a s ∧ a ≠ slash.
Proof.
  intros Hq. unfold dirname. case_bool_decide as He; [by exists "."%char, EmptyString|].
  destruct (parts_head_relative q Hq He) as (a & w & l & Hp & Ha). rw Hp Hq.
  pose proof (drop_empty_suffix (reverse (String a w :: l))) as [k Hk].
  assert (drop_empty (reverse (String a w :: l)) ≠ []) as Hd.
  { rw reverse_cons. assert (∀ m, drop_empty (m ++ [String a w])%list ≠ []) as H; [|apply H].
    induction m as [|y m IH]; [done|]. cbn [drop_empty app]. by case_match. }
  destruct (drop_empty (reverse (String a w :: l))) as [|x rest]; [done|].
  destruct rest as [|y rest] using rev_ind; [by exists "."%char, EmptyString|].
  rewrite (app_comm_cons rest [y] x) app_assoc in Hk. apply (f_equal reverse) in Hk.
  rw reverse_involutive reverse_snoc in Hk. injection Hk as <- _. rw reverse_snoc.
  destruct (join_parts_head a w (reverse rest)) as [s Hs]. rw Hs. exists a, s. split; [|done].
  rw bool_decide_false // bool_decide_false //. by intros [= ->].
Qed.

Lemma relative_scope_miss d q : canonical d → isAbsolute q = false → isScopeMatch (Some (below d "*")) (Some (dirname q)) = false.
Proof.
  intros Hd Hq. destruct (dirname_relative q Hq) as (a & s & -> & Ha). rw below_star. unfold isScopeMatch.
  assert (∃ e, d = String slash e) as [e ->].
  { destruct (decide (d = root)) as [->|Hr]; [by exists EmptyString|].
    destruct (canonical_cons d Hd Hr) as (b & e & ->). by exists (String b e). }
  assert (bool_decide (String slash e +:+ "/*" = EmptyString) = false ∧
    bool_decide (String slash e +:+ "/*" = "everywhere") = false) as [-> ->].
  { rw append_cons. by rewrite !bool_decide_eq_false. }
  rw (bool_decide_false (String a s = EmptyString)) //. cbn [orb]. rw before_suffix_append //.
  assert (∀ b x, ∃ y, with_slash (String b x) = String b y) as Hw.
  { intros b x. unfold with_slash. case_match; [by exists x|]. rw append_cons. by eexists. }
  destruct (Hw slash e) as [y ->], (Hw a s) as [z ->]. rw bool_decide_false; [|by intros [=]]. cbn [orb starts_with].
  by rw bool_decide_false.
Qed.

Section ladder.
Context (cwd home : string) (existsSync isDirectory : string → bool).
Context (Hhome : canonical home).

Lemma resolvePath_canonical p wd : canonical (resolvePath cwd home p wd).
Proof. unfold resolvePath. repeat (case_match; [first [done|apply resolve_canonical]|]). apply resolve_canonical. Qed.

Lemma findProjectBoundary_spec start stopAt b : canonical start → findProjectBoundary existsSync start stopAt = Some b →
  canonical b ∧ within b start ∧ has_marker existsSync b = true ∧
  (∀ e, canonical e → within e start → within b e → e ≠ b → has_marker existsSync e = false ∧ Some e ≠ stopAt).
Proof.
  intros Hs. unfold findProjectBoundary. rw boundary_walk_nearest //.
  - intros Hn. pose proof (nearest_spec existsSync stopAt (segs start) b (segs_clean start) Hn) as H.
    by rw (Hs : of_segs (segs start) = start) in H.
  - by apply canonical_nonempty.
  - pose proof (length_segs start Hs). lia.
Qed.

(** The files a call names, or its working directory. *)
Definition targets (pathArgs : list string) (wd : string) : list string :=
  match pathArgs with [] => [wd] | _ => (λ p, resolvePath cwd home p wd) <$> pathArgs end.

Lemma scope_ancestor_spec pathArgs wd : canonical wd →
  let d := scope_ancestor cwd home isDirectory pathArgs wd in
  canonical d ∧ ∀ p, p ∈ targets pathArgs wd → within d p.
Proof.
  intros Hwd. unfold scope_ancestor, targets. destruct pathArgs as [|a args].
  { split; [done|]. intros p [->|[]%elem_of_nil]%elem_of_cons. apply within_refl. }
  set (ps := (λ p, resolvePath cwd home p wd) <$> a :: args).
  assert (Forall canonical ps) as Hps.
  { apply Forall_fmap, Forall_forall. intros p _. apply resolvePath_canonical. }
  destruct (decide (2 ≤ length (js_set ps))%nat) as [Hl|Hl].
  { destruct (common_ancestor_deepest isDirectory ps Hps Hl) as (? & ? & _). done. }
  assert (∀ p, p ∈ js_set ps ↔ p ∈ ps) as Hin by (intros; apply elem_of_js_set).
  unfold commonAncestor. destruct (js_set ps) as [|only [|? ?]]; [|clear Hl|simpl in Hl; lia].
  { exfalso. assert (resolvePath cwd home a wd ∈ @nil string) as []%elem_of_nil. apply Hin. by left. }
  assert (canonical only) as Ho by (apply (proj1 (Forall_forall _ _) Hps), Hin; by left).
  split; [case_match; [done|by apply dirname_canonical]|].
  intros p Hp%Hin. apply elem_of_cons in Hp as [->|[]%elem_of_nil]. case_match; [apply within_refl|].
  destruct (decide (only = root)) as [->|Hr]; [rw dirname_root; apply within_refl|].
  destruct (segs_snoc_canonical only Ho Hr) as (l & w & Hs & Hl & Hw). rw (dirname_snoc only l w) //.
  replace only with (of_segs (l ++ [w])%list) by (by rw -Hs Ho). apply within_parent. apply Forall_app_2; [done|by repeat constructor].
Qed.

(** The directories of the ladder. *)
Lemma ladder_spec pathArgs wd workspaceRoot o :
  o ∈ generateDirectoryScopeOptions cwd home existsSync isDirectory pathArgs wd workspaceRoot →
  let ancestor := scope_ancestor cwd home isDirectory pathArgs wd in
  offered_scope o = "everywhere" ∨
  (offered_scope o = below ancestor "*" ∧ skipExact home ancestor workspaceRoot = false) ∨
  ∃ b, findProjectBoundary existsSync ancestor workspaceRoot = Some b ∧ offered_scope o = below b "*".
Proof.
  intros Ho ancestor. unfold generateDirectoryScopeOptions in Ho. fold ancestor in Ho.
  assert (∀ os x y, x ∈ push os y → x ∈ os ∨ x = y) as Hpush.
  { intros os x y. unfold push. destruct (existsb _ os); [by left|].
    intros [|[->|[]%elem_of_nil]%elem_of_cons]%elem_of_app; auto. }
  apply Hpush in Ho as [Ho| ->]; [|by left]. right.
  assert (∀ x, x ∈ (if skipExact home ancestor workspaceRoot then [] else push [] (scope_option ancestor)) →
    offered_scope x = below ancestor "*" ∧ skipExact home ancestor workspaceRoot = false) as Hfirst.
  { intros x. destruct (skipExact home ancestor workspaceRoot) eqn:He; [by intros []%elem_of_nil|]. by intros [[]%elem_of_nil| ->]%Hpush. }
  destruct (in_workspace ancestor workspaceRoot); [|left; by apply Hfirst].
  destruct (findProjectBoundary existsSync ancestor workspaceRoot) as [b|]; [|left; by apply Hfirst].
  destruct (_ && _) in Ho; [|left; by apply Hfirst]. apply Hpush in Ho as [Ho| ->]; [left; by apply Hfirst|right]. by exists b.
Qed.
End ladder.

(** Every scope that is offered holds the call it is offered for.  Apart from
    the last rung, which holds everywhere, a rung names a directory that all
    files of the call lie in (the working directory, when it names none), and
    the scope saved from it matches exactly the directories at or below that
    one.  The narrowest rung is the deepest such directory, and never the root
    or a directory the home lies in; the other is the nearest directory at or
    above that with a project marker. *)
Theorem offered_scopes_hold_the_call cwd home existsSync isDirectory pathArgs wd workspaceRoot o :
  canonical home → canonical wd →
  o ∈ generateDirectoryScopeOptions cwd home existsSync isDirectory pathArgs wd workspaceRoot →
  let ancestor := scope_ancestor cwd home isDirectory pathArgs wd in
  offered_scope o = "everywhere" ∨
  ∃ d, offered_scope o = below d "*" ∧ (∀ p, p ∈ targets cwd home pathArgs wd → within d p) ∧
    (∀ c, canonical c → isScopeMatch (Some (offered_scope o)) (Some c) = true ↔ within d c) ∧
    (d = ancestor ∧ d ≠ root ∧ ¬ within d home ∨
     within d ancestor ∧ has_marker existsSync d = true ∧
       ∀ e, canonical e → within e ancestor → within d e → e ≠ d → has_marker existsSync e = false).
Proof.
  intros Hh Hwd Ho ancestor. destruct (scope_ancestor_spec cwd home isDirectory Hh pathArgs wd Hwd) as [Hc Hin].
  fold ancestor in Hc, Hin. apply ladder_spec in Ho as [->|[[-> Hskip]|(b & Hb & ->)]]; [by left|right..].
  - fold ancestor in Hskip |- *. exists ancestor. split_and!; [done|done|intros c Hcc; by apply scope_match_spec|left].
    unfold skipExact in Hskip. apply orb_false_iff in Hskip as [Hskip _]. apply orb_false_iff in Hskip as [Hskip Hw].
    apply orb_false_iff in Hskip as [Hr%bool_decide_eq_false _]. split_and!; [done|done|].
    intros Hin'. apply not_true_iff_false in Hw. apply Hw. unfold isWithin. rw canonical_slash //.
    apply within_spec in Hin'; [|done..]. apply orb_true_iff. by rw bool_decide_eq_true.
  - fold ancestor in Hb. apply findProjectBoundary_spec in Hb as (Hcb & Hwb & Hm & Hn); [|done].
    exists b. split_and!; [done| |intros c Hcc; by apply scope_match_spec|right].
    + intros p Hp. eapply within_trans; [exact Hwb|by apply Hin].
    + split_and!; [done|done|]. intros e He Hwe Hbe Hne. by apply Hn.
Qed.

Lemma found_row row t q c r : findToolOverride (refresh [row]) t q c = Some r → r = row ∧ isScopeMatch (scope row) c = true.
Proof.
  unfold findToolOverride. destruct (refresh [row] !! t) as [m|] eqn:Hm; [|done].
  assert (∀ key x, in_scope c (m !! key) = Some x → x = row ∧ isScopeMatch (scope row) c = true) as Hk.
  { intros key x. destruct (m !! key) as [y|] eqn:Hy; [|done]. unfold in_scope. destruct (isScopeMatch (scope y) c) eqn:Hs; [|done].
    intros [= <-]. pose proof (held_refresh [row]) as Hh. destruct (Hh t m key y Hm Hy) as [Hin _].
    by apply elem_of_cons in Hin as [->|[]%elem_of_nil]. }
  cbn [first_some]. destruct (in_scope c (m !! q)) as [x|] eqn:H1; [intros [= <-]; by eapply Hk|].
  destruct (in_scope c (m !! (t +:+ ":" +:+ q))) as [x|] eqn:H2; intros [= <-]. by eapply Hk.
Qed.

(** A scoped rule never meets a relative call.  The scopes offered for a file
    call are absolute directories, and a later call is matched against them by
    the directory of its path as it was written: a rule saved with such a scope
    answers no call whose path is relative, not even the one it was saved from,
    although it answers the same file named by its absolute path. *)
Theorem scoped_rules_miss_relative_calls cwd home existsSync isDirectory q wd workspaceRoot o :
  canonical home → canonical wd → isAbsolute q = false →
  o ∈ generateDirectoryScopeOptions cwd home existsSync isDirectory [q] wd workspaceRoot → offered_scope o ≠ "everywhere" →
  (∀ row t, scope row = Some (offered_scope o) → findToolOverride (refresh [row]) t q (Some (dirname q)) = None) ∧
  (isDirectory (resolvePath cwd home q wd) = false →
     isScopeMatch (Some (offered_scope o)) (Some (dirname (resolvePath cwd home q wd))) = true).
Proof.
  intros Hh Hwd Hq Ho Hne. destruct (scope_ancestor_spec cwd home isDirectory Hh [q] wd Hwd) as [Hc _].
  assert (∃ d, canonical d ∧ offered_scope o = below d "*" ∧ within d (scope_ancestor cwd home isDirectory [q] wd))
    as (d & Hd & -> & Hw).
  { apply ladder_spec in Ho as [Ho|[[-> _]|(b & Hb & ->)]]; [done| |].
    { eexists. split_and!; [exact Hc|done|apply within_refl]. }
    apply findProjectBoundary_spec in Hb as (? & ? & _); [|done]. by exists b. }
  split.
  - intros row t Hs. destruct (findToolOverride _ _ _ _) as [r|] eqn:Hf; [|done].
    apply found_row in Hf as [_ Hm]. rw Hs relative_scope_miss // in Hm.
  - intros Hdir. pose proof (resolvePath_canonical cwd home Hh q wd) as Hp.
    apply scope_match_spec; [done|by apply dirname_canonical|].
    assert (scope_ancestor cwd home isDirectory [q] wd =
      if isDirectory (resolvePath cwd home q wd) then resolvePath cwd home q wd else dirname (resolvePath cwd home q wd)) as He by done.
    by rw He Hdir in Hw.
Qed.

Definition sample_scopes (q : string) : list DirectoryScopeOption :=
  generateDirectoryScopeOptions "/" "/root" (λ p, bool_decide (p = "/w/.git")) (λ _, false) [q] "/w/app" None.

Lemma offered_scopes_hold_the_call_witness :
  below "/w" "*" = "everywhere" ∨ ∃ d, below "/w" "*" = below d "*" ∧ within d "/w/app/a.ts".
Proof.
  destruct (offered_scopes_hold_the_call "/" "/root" (λ p, bool_decide (p = "/w/.git")) (λ _, false) ["a.ts"] "/w/app" None
    (scope_option "/w")) as [H|(d & H & Hin & _)].
  - by vm_compute.
  - by vm_compute.
  - change (scope_option "/w" ∈ sample_scopes "a.ts"). right. left.
  - by left.
  - right. exists d. split; [exact H|]. apply Hin. left.
Defined.

Lemma scoped_rules_miss_relative_calls_witness :
  findToolOverride (refresh [{| rule_tool := "file_write"; pattern := "file_write:a.ts"; rule_risk := low; description := "";
    origin := user_defined; userModified := false; deleted := false; scope := Some "/w/*" |}]) "file_write" "a.ts"
    (Some (dirname "a.ts")) = None.
Proof.
  apply (proj1 (scoped_rules_miss_relative_calls "/" "/root" (λ p, bool_decide (p = "/w/.git")) (λ _, false) "a.ts" "/w/app" None
    (scope_option "/w") ltac:(by vm_compute) ltac:(by vm_compute) eq_refl
    ltac:(change (scope_option "/w" ∈ sample_scopes "a.ts"); right; left) ltac:(done))).
  done.
Defined.
