(* ===== verification/ShellApproval.v ===== *)
(** * The approval of shell commands in the workspace

    The [bash] case of [gateway/src/ipc/risk-classification-handlers.ts]: which command
    lines are approved without a question because all they touch lies in the
    workspace ([computeSandboxAutoApprove]), which directories a rule saved from a line
    may be scoped to, and the cap on proxied sessions; with the parse cache of
    [gateway/src/risk/shell-identity.ts].  The line is parsed by an argument, as in
    [BashRisk]; the daemon's second look at the paths is [Checker].

    The action keys of the answer, which nothing reads, are left out. *)

From S2P Require Import Prelude JsMap JsText TrustRules ArgParser BashRisk ApprovalPolicy Paths PathPolicy PosixFs WorkspacePolicy FileRisk Checker DirectoryScope.
Local Open Scope string_scope.
Local Open Scope litt_scope.

(** ** The parse cache ([cachedParse]) *)

Definition PARSE_CACHE_MAX : nat := 256.

Definition cachedParse (parse : string → ParsedCommand) (line : string) (cache : jsmap string ParsedCommand)
    : jsmap string ParsedCommand * ParsedCommand :=
  match cache !! line with
  | Some cached => (<[line := cached]> (delete line cache), cached)
  | None =>
      let result := parse line in
      let cache := if (PARSE_CACHE_MAX <=? size cache)%nat then drop_oldest cache else cache in
      (<[line := result]> cache, result)
  end.

Section handler.
(** The gateway's directory and home, and what it sees of the file system. *)
Context (cwd home : string) (existsSync isDirectory : string → bool).
Context (registry : Registry).

(** [lookupSpec]: the spec of a program by its bare name. *)
Definition lookupSpec (program : string) : option CommandRiskSpec :=
  own_spec registry (last (parts program) otherwise program).

(** ** Approval *)

(** A path argument, made absolute; [None] for [~user]. *)
Definition expand (workingDir p : string) : option string :=
  if bool_decide (p = "~") || starts_with "~/" p then
    Some (if bool_decide (p = "~") then home else join [home; slice_from 2 p])
  else if starts_with "~" p then None
  else Some (if starts_with "/" p then p else resolve cwd [workingDir; p]).

(** [pathArgs.every(...)], with the paths collected on the way. *)
Fixpoint every_path (workingDir workspaceRoot : string) (ps collected : list string) : bool * list string :=
  match ps with
  | [] => (true, collected)
  | p :: ps =>
      match expand workingDir p with
      | None => (false, collected)
      | Some resolved =>
          let collected := (collected ++ [resolved])%list in
          if isPathWithinRoot cwd resolved workspaceRoot then every_path workingDir workspaceRoot ps collected
          else (false, collected)
      end
  end.

Definition segment_paths (spec : CommandRiskSpec) (args : list string) : list string :=
  pathArgs (parseArgs args (schema_of spec)).

(** [segments.every(...)] *)
Fixpoint every_segment (workingDir workspaceRoot : string) (boxed : bool) (segs : list CommandSegment) (collected : list string)
    : bool * list string :=
  match segs with
  | [] => (true, collected)
  | seg :: segs =>
      match lookupSpec (program seg) with
      | None => (false, collected)
      | Some spec =>
          if negb (spec_sandboxAutoApprove spec) then (false, collected)
          else if boxed then every_segment workingDir workspaceRoot boxed segs collected
          else match segment_paths spec (args seg) with
               | [] => every_segment workingDir workspaceRoot boxed segs collected
               | ps =>
                   let '(fine, collected) := every_path workingDir workspaceRoot ps collected in
                   if fine then every_segment workingDir workspaceRoot boxed segs collected else (false, collected)
               end
      end
  end.

Definition computeSandboxAutoApprove (parsed : ParsedCommand) (workingDir workspaceRoot : string) (boxed : bool)
    : bool * list string :=
  match segments parsed with
  | [] => (false, [])
  | segs =>
      if hasOpaqueConstructs parsed then (false, [])
      else match dangerousPatterns parsed with
           | _ :: _ => (false, [])
           | [] => every_segment workingDir workspaceRoot boxed segs []
           end
  end.

(** ** Scopes *)

Definition MAX_WRAPPER_DEPTH : nat := 10.

(** The command a line of wrappers runs. *)
Fixpoint innermost (depth : nat) (program : string) (args : list string) : string * list string :=
  match depth with
  | O => (program, args)
  | S depth =>
      match lookupSpec program with
      | Some spec =>
          if negb (isWrapper spec) || is_non_exec spec args then (program, args)
          else match getWrappedProgramWithArgs program args with
               | Some (program, args) => innermost depth program args
               | None => (program, args)
               end
      | None => (program, args)
      end
  end.

(** The loop over the segments: [fsPathArgs] is a [Set]. *)
Record ScopeWalk := { isComplexSyntax : bool; hasFilesystemOp : bool; fsPathArgs : list string; trackedCwd : string }.

Definition absolute_in (dir p : string) : string :=
  if bool_decide (p = "~") then home
  else if starts_with "~/" p then join [home; slice_from 2 p]
  else if isAbsolute p then resolve cwd [p]
  else resolve cwd [dir; p].

(** What a [cd] makes of the directory. *)
Definition cd_to (dir : string) (args : list string) : string :=
  match List.filter (λ a, negb (is_flag a)) args with
  | [target] => if bool_decide (target = "-") then dir else absolute_in dir target
  | _ => dir
  end.

Definition scope_step (w : ScopeWalk) (seg : CommandSegment) : ScopeWalk :=
  let '(program, args) := innermost MAX_WRAPPER_DEPTH (program seg) (args seg) in
  let spec := lookupSpec program in
  let fsOp := match spec with Some spec => spec_filesystemOp spec | None => false end in
  let here :=
    match spec with
    | Some spec =>
        if fsOp then match segment_paths spec args with
                     | [] => [trackedCwd w]
                     | ps => absolute_in (trackedCwd w) <$> ps
                     end
        else []
    | None => []
    end in
  {| isComplexSyntax := isComplexSyntax w || match spec with Some spec => complexSyntax spec | None => false end;
     hasFilesystemOp := hasFilesystemOp w || fsOp;
     fsPathArgs := foldl (λ s p, set_add p s) (fsPathArgs w) here;
     trackedCwd := if bool_decide (program = "cd") then cd_to (trackedCwd w) args else trackedCwd w |}.

Definition scope_walk (parsed : ParsedCommand) (workingDir : string) : ScopeWalk :=
  foldl scope_step {| isComplexSyntax := false; hasFilesystemOp := false; fsPathArgs := []; trackedCwd := workingDir |}
    (segments parsed).

(** ** The answer *)

Record bash_params := {
  p_command : option string;
  p_workingDir : option string;
  p_containerized : option bool;
  p_workspaceRoot : option string;
  p_networkMode : option string;
  p_credentialRefCount : option nat;
}.

Record bash_answer := {
  answer_risk : option Risk;
  answer_reason : string;
  answer_options : list AllowlistOption;
  answer_approve : bool;
  answer_pathArgs : option (list string);
  answer_complex : bool;
  answer_scopes : option (list DirectoryScopeOption);
  answer_resolved : option (list string);
  answer_match : match_type;
}.

(** The risk of a proxied session. *)
Definition proxied_risk (tool : tool_name) (params : bash_params) (a : RiskAssessment) : option Risk * string :=
  if bool_decide (tool = bash) && bool_decide (p_networkMode params = Some "proxied") then
    if (0 <? (p_credentialRefCount params otherwise 0%nat))%nat
    then (Some high, "Proxied credential session — shell has access to injected credentials")
    else if bool_decide (BashRisk.riskLevel a = Some high) then (Some medium, assessment_reason a)
    else (BashRisk.riskLevel a, assessment_reason a)
  else (BashRisk.riskLevel a, assessment_reason a).

Definition handle_bash (test : string → string → bool) (parse : string → ParsedCommand) (rules : option TrustRuleCache)
    (tool : tool_name) (params : bash_params) : bash_answer :=
  let line := p_command params otherwise EmptyString in
  let workingDir := p_workingDir params otherwise cwd in
  let boxed := p_containerized params otherwise false in
  let a := BashRisk.classify test parse registry rules line tool (Some workingDir) in
  let '(approved, collected) :=
    if bool_decide (tool = bash)
    then computeSandboxAutoApprove (parse line) workingDir (p_workspaceRoot params otherwise workingDir) boxed
    else (false, []) in
  let w := scope_walk (parse line) workingDir in
  let '(risk, reason) := proxied_risk tool params a in
  {| answer_risk := risk; answer_reason := reason; answer_options := BashRisk.allowlistOptions a; answer_approve := approved;
     answer_pathArgs := if negb boxed && bool_decide (collected ≠ []) then Some collected else None;
     answer_complex := isComplexSyntax w;
     answer_scopes := if hasFilesystemOp w
                      then Some (generateDirectoryScopeOptions cwd home existsSync isDirectory (fsPathArgs w) workingDir (p_workspaceRoot params))
                      else None;
     answer_resolved := if hasFilesystemOp w && bool_decide (fsPathArgs w ≠ []) then Some (fsPathArgs w) else None;
     answer_match := BashRisk.assessment_match a |}.
End handler.

(** What the daemon reads of it. *)
Definition bash_result (a : bash_answer) : gateway_result := {|
  result_risk := match answer_risk a with Some r => risk_text r | None => "undefined" end;
  sandboxAutoApprove := Some (answer_approve a);
  sandboxPathArgs := answer_pathArgs a |}.

(** ** The parse cache *)

Definition cache_sound (parse : string → ParsedCommand) (cache : jsmap string ParsedCommand) : Prop :=
  wf cache ∧ (size cache ≤ PARSE_CACHE_MAX)%nat ∧ ∀ line p, cache !! line = Some p → p = parse line.

(** The cache answers as the parser does, and stays within its bound. *)
Theorem cache_is_transparent parse line cache : cache_sound parse cache →
  (cachedParse parse line cache).2 = parse line ∧ cache_sound parse (cachedParse parse line cache).1.
Proof.
  intros (Hwf & Hsize & Hall). unfold cachedParse. destruct (cache !! line) as [p|] eqn:Hl; cbn [fst snd].
  - rw (Hall _ _ Hl). split; [done|]. split_and!; [eauto with litt| |].
    + rw size_insert_None; [|apply lookup_delete_eq]. pose proof (size_delete_lt line cache (mk_is_Some _ _ Hl)). lia.
    + intros l q. rw lookup_insert. case_decide as Hk; [intros [= <-]; by rw Hk|]. rw lookup_delete_ne //. apply Hall.
  - split; [done|]. set (kept := if (PARSE_CACHE_MAX <=? size cache)%nat then drop_oldest cache else cache).
    assert (wf kept ∧ (size kept < PARSE_CACHE_MAX)%nat ∧ ∀ l q, kept !! l = Some q → q = parse l) as (Hw & Hs & Hk).
    { unfold kept. destruct (Nat.leb_spec PARSE_CACHE_MAX (size cache)) as [Hfull|]; [|done].
      pose proof (size_drop_oldest cache). unfold PARSE_CACHE_MAX in *. split_and!; [eauto with litt|lia|].
      intros l q. unfold drop_oldest. destruct (oldest cache); [|apply Hall]. rw lookup_delete. case_decide; [done|apply Hall]. }
    split_and!; [eauto with litt| |].
    + pose proof (size_insert_le line (parse line) kept). lia.
    + intros l q. rw lookup_insert. case_decide as Heq; [intros [= <-]; by rw Heq|apply Hk].
Qed.

(** ** What the shell opens *)

(** The text a shell that stands in [workingDir] opens for a path argument, if it takes
    the argument as it is written: without quotes, expansions and patterns. *)
Definition shell_path (home workingDir p : string) : string :=
  if bool_decide (p = "~") then home
  else if starts_with "~/" p then home +:+ "/" +:+ slice_from 2 p
  else if starts_with "/" p then p else workingDir +:+ "/" +:+ p.

Lemma resolve_one cwd p : isAbsolute p = true → resolve cwd [p] = of_segs (segs p).
Proof.
  intros Hp. unfold resolve. rw reverse_singleton. simpl. rw bool_decide_false; [|by intros ->].
  rw Hp (segs_trailing p). done.
Qed.

Lemma segs_normalize p : isAbsolute p = true → isAbsolute (normalize p) = true ∧ segs (normalize p) = segs p.
Proof.
  intros Hp. unfold normalize. rw Hp. rw bool_decide_false; [|by intros ->]. cbn [negb]. fold (segs p).
  case_bool_decide as Hs; [by rw Hs|]. split; [done|].
  assert (segs (of_segs (segs p)) = segs p) as He by apply segs_of_segs, segs_clean.
  case_bool_decide; [by rw segs_trailing|by rw append_nil_r].
Qed.

Lemma resolve_two cwd d p : isAbsolute d = true → isAbsolute p = false →
  resolve cwd [d; p] = of_segs (segs (d +:+ "/" +:+ p)).
Proof.
  intros Hd Hp. assert (d ≠ EmptyString) as Hn by by intros ->. unfold resolve. change (reverse [d; p]) with [p; d].
  cbn [resolve_from]. rw (bool_decide_false _ Hn) Hd. case_bool_decide as He; [by rw He|]. rw Hp.
  change (p +:+ String slash EmptyString) with (p +:+ "/"). f_equal.
  change (d +:+ String slash (p +:+ "/")) with (d +:+ ("/" +:+ p) +:+ "/"). by rw -append_assoc segs_trailing.
Qed.

Lemma absolute_under d p : isAbsolute d = true → isAbsolute (d +:+ p) = true.
Proof. by destruct d as [|a d]. Qed.

Lemma join_under home s : isAbsolute home = true → isAbsolute (join [home; s]) = true ∧ segs (join [home; s]) = segs (home +:+ "/" +:+ s).
Proof.
  intros Ha. unfold join. rw filter_cons_True; [|by intros ->]. destruct (decide (s = EmptyString)) as [->|Hs].
  - rw filter_cons_False; [|tauto]. rw filter_nil. change (join_parts [home]) with home.
    destruct (segs_normalize home Ha) as [? ->]. split; [done|]. by rw (segs_trailing home).
  - rw filter_cons_True //. rw filter_nil. change (join_parts [home; s]) with (home +:+ "/" +:+ s).
    apply segs_normalize. by apply absolute_under.
Qed.

(** What is checked is, up to empty, [.] and [..] pieces, what is opened. *)
Lemma expand_spec cwd home wd p q : isAbsolute home = true → isAbsolute wd = true → expand cwd home wd p = Some q →
  isAbsolute q = true ∧ isAbsolute (shell_path home wd p) = true ∧ segs q = segs (shell_path home wd p).
Proof.
  intros Hh Hwd. unfold expand, shell_path. case_bool_decide as Htilde; cbn [orb]; [by intros [= <-]|].
  destruct (starts_with "~/" p).
  { intros [= <-]. destruct (join_under home (slice_from 2 p) Hh) as [? ?]. split_and!; [done|by apply absolute_under|done]. }
  destruct (starts_with "~" p); [done|]. destruct (starts_with "/" p) eqn:Hp; intros [= <-]; [done|].
  split_and!; [done|by apply absolute_under|]. rw resolve_two // segs_of_segs //. apply segs_clean.
Qed.

Lemma absolute_in_spec cwd home dir p : isAbsolute home = true → isAbsolute dir = true →
  isAbsolute (absolute_in cwd home dir p) = true ∧ segs (absolute_in cwd home dir p) = segs (shell_path home dir p).
Proof.
  intros Hh Hd. unfold absolute_in, shell_path. case_bool_decide; [done|]. destruct (starts_with "~/" p); [by apply join_under|].
  fold (isAbsolute p). destruct (isAbsolute p) eqn:Hp; split; try done.
  - rw resolve_one // segs_of_segs //. apply segs_clean.
  - rw resolve_two // segs_of_segs //. apply segs_clean.
Qed.

(** ** Skipping pieces *)

#[local] Opaque limit.

(** The pieces that name nothing: empty ones and [.]. *)
Definition names (w : string) : bool := negb (bool_decide (w = EmptyString) || bool_decide (w = ".")).

(** Some pieces that name nothing are left out. *)
Inductive drops : list string → list string → Prop :=
  | drops_nil : drops [] []
  | drops_keep w l k : drops l k → drops (w :: l) (w :: k)
  | drops_skip w l k : names w = false → drops l k → drops (w :: l) k.

Lemma drops_refl l : drops l l.
Proof. induction l; by constructor. Qed.

Lemma drops_app a l k : drops l k → drops (a ++ l)%list (a ++ k)%list.
Proof. intros H. induction a; [done|]. by constructor. Qed.

Lemma drops_nil_l k : drops [] k → k = [].
Proof. by inversion 1. Qed.

Lemma drops_filter l : drops l (List.filter names l).
Proof. induction l as [|w l IH]; [constructor|]. cbn. destruct (names w) eqn:Hw; by constructor. Qed.

Lemma walk_drops fuel create t cur l k r : drops l k → walk fuel create t cur l = Some r → walk fuel create t cur k = Some r.
Proof.
  revert cur l k. induction fuel as [|fuel IH]; intros cur l k Hd; [done|]. destruct Hd as [|w l k Hd|w l k Hw Hd]; [done| |].
  - cbn [walk]. case_match; [by apply IH|]. case_match; [by apply IH|].
    destruct (t !! (cur ++ [w])%list) as [[| |target]|]; [by apply IH| |by apply IH, drops_app|].
    + destruct (bool_decide (l = [])) eqn:Hl; [|done]. apply bool_decide_eq_true in Hl as ->. by rw (bool_decide_true _ (drops_nil_l _ Hd)).
    + destruct create; [|done]. cbn [andb]. destruct (bool_decide (l = [])) eqn:Hl; [|done]. apply bool_decide_eq_true in Hl as ->. by rw (bool_decide_true _ (drops_nil_l _ Hd)).
  - unfold names in Hw. apply negb_false_iff in Hw. intros H. cbn [walk] in H. rw Hw in H.
    apply (walk_more fuel); [lia|]. by eapply IH.
Qed.

(** Without [..] the pieces of a path are its parts that name something. *)
Definition plain_steps (s : string) : Prop := ".." ∉ parts s.

Lemma segs_plain s : plain_steps s → segs s = List.filter names (parts s).
Proof.
  unfold plain_steps, segs, normalizeString. generalize (parts s). intros l Hl.
  assert (∀ stack, foldl (push_part false) stack l = (reverse (List.filter names l) ++ stack)%list) as H; [|by rw H app_nil_r reverse_involutive].
  induction l as [|w l IH]; intros stack; [done|]. apply not_elem_of_cons in Hl as [Hw Hl]. cbn [foldl List.filter].
  rw IH //. unfold push_part, names. rw (bool_decide_false (w = "..")) //.
  destruct (bool_decide (w = EmptyString) || bool_decide (w = ".")); [done|]. by rw reverse_cons -app_assoc.
Qed.

(** The shell reaches what the canonical path leads to. *)
Lemma opened_plain t s r : isAbsolute s = true → plain_steps s → opened t s = Some r → opened t (of_segs (segs s)) = Some r.
Proof.
  intros Ha Hs (l & Hl & ->)%fmap_Some. unfold opened.
  assert (∃ ps, parts s = EmptyString :: ps) as [ps Hps].
  { destruct s as [|a s]; [done|]. apply andb_true_iff in Ha as [<-%bool_decide_eq_true _]. by exists (parts s). }
  destruct limit_steps as [n Hn]. pose proof (drops_filter ps) as Hd. rw segs_plain // Hps. cbn [List.filter names].
  apply (drops_keep EmptyString) in Hd. rw Hps in Hl. apply (walk_drops _ _ _ _ _ _ _ Hd) in Hl.
  pose proof (segs_clean s) as Hc. rw segs_plain // Hps in Hc. cbn in Hc.
  change (List.filter names (EmptyString :: ps)) with (List.filter names ps).
  destruct (decide (List.filter names ps = [])) as [He|He].
  - rw He in Hl |- *. rw Hn in Hl |- *. cbn in Hl. by injection Hl as <-.
  - rw parts_canonical; [|by apply canonical_of_segs|by apply of_segs_not_root]. rw segs_of_segs //. by rw Hl.
Qed.

(** ** The daemon's second look *)

Lemma double_slash_outside d x : canonical d → d ≠ root → x = root ∨ (∃ y, x = String slash (String slash y)) →
  isAtOrUnderCanonicalDir x d = false.
Proof.
  intros Hd Hr Hx. pose proof (parts_canonical d Hd Hr) as Hp. pose proof (segs_clean d) as Hc.
  destruct (segs_snoc_canonical d Hd Hr) as (l & w & Hs & _). revert Hp Hc Hs. generalize (segs d). intros sd Hp Hc ->.
  assert (∃ a e, d = String slash (String a e) ∧ a ≠ slash) as (a & e & -> & Ha).
  { destruct d as [|b d]; [done|]. destruct (decide (b = slash)) as [->|Hb].
    2:{ cbn [parts] in Hp. rw decide_False // in Hp. by destruct (parts d). }
    change (parts (String slash d)) with (EmptyString :: parts d) in Hp. injection Hp as Hp.
    destruct d as [|a e]; [by destruct l as [|? []]|]. exists a, e. split; [done|]. intros ->.
    change (parts (String slash e)) with (EmptyString :: parts e) in Hp. rw -Hp in Hc. by apply Forall_cons in Hc as [(? & _)%clean_spec _]. }
  unfold isAtOrUnderCanonicalDir. apply orb_false_iff. split; [apply bool_decide_eq_false; destruct Hx as [->|[y ->]]; congruence|].
  assert (∃ e', with_slash (String slash (String a e)) = String slash (String a e')) as [e' ->].
  { unfold with_slash. case_match; by eexists. }
  destruct Hx as [->|[y ->]]; [done|]. cbn [starts_with]. by rw (bool_decide_false _ Ha) andb_false_r.
Qed.

(** A file the shell opens behind the daemon's second look lies in the workspace. *)
Lemma within_workspace_opened cwd t workspace real q p r :
  stands_at (posix_fs t) workspace real → isAbsolute q = true → segs q = segs p → isAbsolute p = true →
  plain_steps p → kernel_readlink t (of_segs (segs p)) = None → opened t p = Some r →
  isPathWithinWorkspaceRoot cwd (posix_fs t) q workspace = true → within real r.
Proof.
  intros (Hw & Hr & Hl & Hreal & Hn) Hq Hs Hp Hplain Hlink Ho Hin.
  apply opened_plain in Ho; [|done|done]. set (c := of_segs (segs p)) in *.
  assert (canonical c) as Hc by apply canonical_segs. assert (canonical real) as Hcr by by eapply real_canonical.
  unfold isPathWithinWorkspaceRoot in Hin. rw (bool_decide_false (q = EmptyString)) in Hin; [|by intros ->].
  rw bool_decide_false in Hin; [|by apply canonical_nonempty]. cbn [orb] in Hin.
  rw (canonicalize_real cwd (posix_fs t) workspace real) // in Hin.
  assert (canonicalize cwd (posix_fs t) q = canonicalize cwd (posix_fs t) c) as Hqc.
  { unfold canonicalize. by rw resolve_one // Hs resolve_absolute. }
  rw Hqc in Hin. pose proof (resolveRealPath_opened cwd t c r Hc Hlink Ho) as Hreal'.
  destruct (anchor (posix_fs t) (reverse (segs (resolveTrailingLinkTarget cwd (posix_fs t) c))) []) as [[a rest]|] eqn:Ha.
  - destruct (decide (a = root)) as [->|Hroot].
    + assert (canonicalize cwd (posix_fs t) c = foldl below root rest) as He.
      { unfold canonicalize. rw resolve_absolute // canonicalizeExisting_anchor ?Ha //. by apply follow_links_canonical. }
      rw He double_slash_outside // in Hin. destruct rest as [|w rest]; [by left|right]. cbn [foldl]. rw belows_slash. by eexists.
    + assert (canonicalize cwd (posix_fs t) c = r) as He.
      { rw -Hreal'. apply canonical_forms; [apply _|done|by exists a, rest]. }
      rw He in Hin.
      apply isAtOrUnderCanonicalDir_spec in Hin; [done| |done]. rw -Hreal'. apply resolveRealPath_canonical; [apply _|done].
  - pose proof (canonical_forms_agree cwd (posix_fs t) c Hc) as H. cbv zeta in H. rw Ha in H.
    destruct H as [_ H]; [destruct limit_steps as [n Hn']; unfold posix_fs, kernel_real; cbn; by rw Hn'|].
    rw H double_slash_outside // in Hin. case_bool_decide; [by left|right].
    assert (isAbsolute (resolveTrailingLinkTarget cwd (posix_fs t) c) = true) as Hx by by apply canonical_absolute, follow_links_canonical.
    destruct (resolveTrailingLinkTarget cwd (posix_fs t) c) as [|b y]; [done|].
    apply andb_true_iff in Hx as [<-%bool_decide_eq_true _]. by eexists.
Qed.

(** ** Approved lines *)

Section approval.
Context (cwd home : string) (registry : Registry).

(** A path argument that was looked at. *)
Definition looked_at (workingDir workspaceRoot : string) (collected : list string) (p : string) : Prop :=
  ∃ q, expand cwd home workingDir p = Some q ∧ isPathWithinRoot cwd q workspaceRoot = true ∧ q ∈ collected.

Lemma every_path_spec wd ws ps c c' : every_path cwd home wd ws ps c = (true, c') →
  c `prefix_of` c' ∧ ∀ p, p ∈ ps → looked_at wd ws c' p.
Proof.
  revert c. induction ps as [|p ps IH]; intros c; cbn [every_path].
  { intros [= <-]. split; [done|]. by intros p ?%not_elem_of_nil. }
  destruct (expand cwd home wd p) as [q|] eqn:He; [|done]. destruct (isPathWithinRoot cwd q ws) eqn:Hin; [|done].
  intros [Hpre Hps]%IH. split; [by eapply prefix_app_l|]. intros x [->|Hx]%elem_of_cons; [|by apply Hps].
  exists q. split_and!; [done|done|]. destruct Hpre as [k ->]. apply elem_of_app. left. apply elem_of_app. right. by left.
Qed.

(** What an approved segment is. *)
Definition approved_segment (wd ws : string) (boxed : bool) (collected : list string) (seg : CommandSegment) : Prop :=
  ∃ spec, lookupSpec registry (program seg) = Some spec ∧ spec_sandboxAutoApprove spec = true ∧
    (boxed = false → ∀ p, p ∈ segment_paths spec (args seg) → looked_at wd ws collected p).

Lemma every_segment_spec wd ws boxed segs c c' : every_segment cwd home registry wd ws boxed segs c = (true, c') →
  c `prefix_of` c' ∧ ∀ seg, seg ∈ segs → approved_segment wd ws boxed c' seg.
Proof.
  assert (∀ c c' p, c `prefix_of` c' → looked_at wd ws c p → looked_at wd ws c' p) as Hmono.
  { intros d d' p [k ->] (q & ? & ? & ?). exists q. split_and!; [done|done|]. apply elem_of_app. by left. }
  revert c. induction segs as [|seg segs IH]; intros c; cbn [every_segment].
  { intros [= <-]. split; [done|]. by intros s ?%not_elem_of_nil. }
  destruct (lookupSpec registry (program seg)) as [spec|] eqn:Hs; [|done].
  destruct (spec_sandboxAutoApprove spec) eqn:Ha; [|done]. cbn [negb].
  assert (∀ d, c `prefix_of` d → (boxed = false → ∀ p, p ∈ segment_paths spec (args seg) → looked_at wd ws d p) →
    every_segment cwd home registry wd ws boxed segs d = (true, c') →
    c `prefix_of` c' ∧ ∀ s, s ∈ seg :: segs → approved_segment wd ws boxed c' s) as Hstep.
  { intros d Hd Hp [Hpre Hall]%IH. split; [by etrans|]. intros s [->|Hin]%elem_of_cons; [|by apply Hall].
    exists spec. split_and!; [done|done|]. intros Hb p Hin. eapply Hmono; [exact Hpre|by apply Hp]. }
  destruct boxed; [by apply Hstep|]. destruct (segment_paths spec (args seg)) as [|p0 ps] eqn:Hps.
  { apply Hstep; [done|]. by intros _ p ?%not_elem_of_nil. }
  destruct (every_path cwd home wd ws (p0 :: ps) c) as [[] d] eqn:He; [|done].
  apply every_path_spec in He as [Hpre Hall]. apply Hstep; [done|]. by intros _.
Qed.

Lemma approval_spec parsed wd ws boxed c : computeSandboxAutoApprove cwd home registry parsed wd ws boxed = (true, c) →
  segments parsed ≠ [] ∧ hasOpaqueConstructs parsed = false ∧ dangerousPatterns parsed = [] ∧
  ∀ seg, seg ∈ segments parsed → approved_segment wd ws boxed c seg.
Proof.
  unfold computeSandboxAutoApprove. destruct (segments parsed) as [|s segs]; [done|].
  destruct (hasOpaqueConstructs parsed); [done|]. destruct (dangerousPatterns parsed); [|done].
  intros [_ H]%every_segment_spec. done.
Qed.
End approval.

Lemma bash_not_granted skill_input pc : isRetrospectiveSkillAuthoringGrant "bash" skill_input pc = false.
Proof. destruct pc as [c|]; [|done]. simpl. by case_match. Qed.

(** A line above the threshold is allowed for its approval alone, which the daemon's
    look at the paths upheld. *)
Lemma allowed_for_approval cwd fs workspace boxed path_input skill_input wd pc g owner threshold fresh :
  check cwd fs workspace boxed "bash" path_input skill_input wd pc (Some g) owner threshold fresh = Some allow →
  (Z.max (threshold_ordinal (Some threshold)) (threshold_ordinal (Some (fresh otherwise threshold))) <
     risk_ordinal (riskStringToLevel (result_risk g)))%Z →
  sandboxAutoApprove g = Some true ∧
  ∀ ps q, sandboxPathArgs g = Some ps → q ∈ ps → isPathWithinWorkspaceRoot cwd fs q workspace = true.
Proof.
  set (c := {| level := riskStringToLevel (result_risk g); auto_approve := sandboxAutoApprove g |}).
  rw (check_decided cwd fs workspace boxed _ path_input _ wd pc
    (applyBashSymlinkEscapeCheck cwd fs workspace c (sandboxPathArgs g)) owner threshold fresh g (bash_not_granted _ _) eq_refl).
  intros Hc Hrisk. set (paths := sandboxPathArgs g) in *.
  assert (level (applyBashSymlinkEscapeCheck cwd fs workspace c paths) = level c) as Hl.
  { unfold applyBashSymlinkEscapeCheck. by repeat case_match. }
  assert ((auto_approve (applyBashSymlinkEscapeCheck cwd fs workspace c paths) otherwise false) = true) as Ha.
  { destruct (auto_approve (applyBashSymlinkEscapeCheck cwd fs workspace c paths) otherwise false) eqn:Hf; [done|].
    exfalso. unfold allowed_at in Hc. rw Hf Hl !andb_false_r /= in Hc.
    unfold isRiskWithinThreshold in Hc. case_match eqn:Ho; [|done]. apply orb_true_iff in Ho. cbn in Ho, Hrisk. zbool. }
  destruct (existsb (λ p, negb (isPathWithinWorkspaceRoot cwd fs p workspace)) (paths otherwise [])) eqn:He.
  { destruct (escape_revokes cwd fs workspace c _ He) as [Hf _]. by rw Hf in Ha. }
  split.
  - assert (auto_approve (applyBashSymlinkEscapeCheck cwd fs workspace c paths) = auto_approve c) as Hb.
    { unfold applyBashSymlinkEscapeCheck. rw He. set (b := _ || _). by destruct b. }
    rw Hb in Ha. cbn in Ha. by destruct (sandboxAutoApprove g) as [[]|].
  - intros ps q Hps Hq. fold paths in Hps. rw Hps in He. apply negb_false_iff, not_true_iff_false. intros Hout.
    apply not_true_iff_false in He. apply He, existsb_elem. by exists q.
Qed.

Lemma canonical_has_plain_steps d : canonical d → plain_steps d.
Proof.
  intros Hd Hin. destruct (decide (d = root)) as [->|Hr].
  { by apply elem_of_cons in Hin as [?|[?|?%not_elem_of_nil]%elem_of_cons]. }
  rw parts_canonical // in Hin. apply elem_of_cons in Hin as [?|Hin]; [done|].
  pose proof (segs_clean d) as Hc. apply (proj1 (Forall_forall _ _) Hc) in Hin. by apply clean_spec in Hin as (_ & _ & ? & _).
Qed.

Lemma plain_under d p : canonical d → plain_steps p → plain_steps (d +:+ "/" +:+ p).
Proof.
  intros Hd Hp. unfold plain_steps. change (d +:+ "/" +:+ p) with (String.append d (String slash p)).
  rw parts_app. intros [Hin|Hin]%elem_of_app; [|by apply Hp]. by apply (canonical_has_plain_steps d).
Qed.

Lemma plain_shell_path home wd p : canonical home → canonical wd → plain_steps p → plain_steps (shell_path home wd p).
Proof.
  intros Hh Hw Hp. unfold shell_path. case_bool_decide; [by apply canonical_has_plain_steps|].
  destruct (starts_with "~/" p) eqn:Ht.
  { apply starts_with_spec in Ht as [s ->]. apply plain_under; [done|]. unfold plain_steps in *.
    change (parts ("~/" +:+ s)) with ("~" :: parts s) in Hp. by apply not_elem_of_cons in Hp as [_ ?]. }
  destruct (starts_with "/" p); [done|]. by apply plain_under.
Qed.

(** C19 — A command that runs unasked stays in the workspace. Take a line whose risk is
    above the threshold, at both readings of it, on a host that is not containerized and
    with a workspace that exists below the root and by no link of its own, and let the
    check allow it: by the gateway's approval of the line and the daemon's look at the
    paths. Then no segment is opaque or dangerous and each program is one the registry
    marks. Moreover take a path argument of a segment, alone or behind a path flag, that
    the shell passes on as it is written (no quotes, expansions or patterns), has no [..]
    and is no link at its last name: the file opened for it, from the working directory or
    the home and through all links on the way, lies in the workspace's real directory. *)
Theorem approved_commands_stay gcwd home existsSync isDirectory registry test parse rules params cwd t workspace real wd
    path_input skill_input pc owner threshold fresh :
  canonical home → canonical wd → p_workingDir params = Some wd → p_workspaceRoot params = Some workspace →
  p_containerized params ≠ Some true → stands_at (posix_fs t) workspace real →
  let line := p_command params otherwise EmptyString in
  let answer := bash_result (handle_bash gcwd home existsSync isDirectory registry test parse rules bash params) in
  check cwd (posix_fs t) workspace false "bash" path_input skill_input wd pc (Some answer) owner threshold fresh = Some allow →
  (Z.max (threshold_ordinal (Some threshold)) (threshold_ordinal (Some (fresh otherwise threshold))) <
     risk_ordinal (riskStringToLevel (result_risk answer)))%Z →
  hasOpaqueConstructs (parse line) = false ∧ dangerousPatterns (parse line) = [] ∧
  ∀ seg, seg ∈ segments (parse line) → ∃ spec, lookupSpec registry (program seg) = Some spec ∧ spec_sandboxAutoApprove spec = true ∧
    ∀ p r, p ∈ segment_paths spec (args seg) → plain_steps p → let s := shell_path home wd p in
      kernel_readlink t (of_segs (segs s)) = None → opened t s = Some r →
      isPathWithinRoot gcwd s workspace = true ∧ within real r.
Proof.
  intros Hh Hwd Hpw Hpr Hbox Hws line answer Hcheck Hrisk.
  destruct (allowed_for_approval _ _ _ _ _ _ _ _ _ _ _ _ Hcheck Hrisk) as [Happ Hpaths].
  assert ((p_containerized params otherwise false) = false) as Hb by by destruct (p_containerized params) as [[]|].
  revert Happ Hpaths. unfold answer, handle_bash. fold line. rw Hpw Hpr Hb. cbn [bool_decide].
  destruct (computeSandboxAutoApprove gcwd home registry (parse line) wd workspace false) as [ok c] eqn:Hc.
  rw bool_decide_true //. destruct (proxied_risk _ _ _) as [risk reason]. cbn. intros [= ->] Hpaths.
  apply approval_spec in Hc as (_ & Ho & Hd & Hall). split_and!; [done|done|].
  intros seg Hseg. destruct (Hall seg Hseg) as (spec & Hspec & Happ & Hp). exists spec. split_and!; [done|done|].
  intros p r Hin Hplain Hlink Hopen. set (s := shell_path home wd p) in *. destruct (Hp eq_refl p Hin) as (q & He & Hroot & Hq).
  destruct (expand_spec gcwd home wd p q (canonical_absolute _ Hh) (canonical_absolute _ Hwd) He) as (Hqa & Hsa & Hsegs).
  split.
  - revert Hroot. unfold isPathWithinRoot. rw !resolve_one // Hsegs. fold s.
    rw (bool_decide_false (q = EmptyString)); [|by intros ->]. rw (bool_decide_false (s = EmptyString)) //.
    intros Hs. fold s in Hsa. by rw Hs in Hsa.
  - eapply (within_workspace_opened cwd t workspace real q s); try done; [by apply plain_shell_path|].
    eapply Hpaths; [|exact Hq]. rw (bool_decide_true (c ≠ [])) //. intros ->. by apply not_elem_of_nil in Hq.
Qed.

(** ** The scopes offered with a line *)

Section scopes.
Context (cwd home : string) (registry : Registry).
Hypothesis home_absolute : isAbsolute home = true.

Notation step := (scope_step cwd home registry).

Definition start_walk (wd : string) : ScopeWalk :=
  {| isComplexSyntax := false; hasFilesystemOp := false; fsPathArgs := []; trackedCwd := wd |}.

(** The directory the walk holds a segment to run in. *)
Definition dir_before (wd : string) (pre : list CommandSegment) : string := trackedCwd (foldl step (start_walk wd) pre).

(** The files a segment names, as the shell opens them from [dir]; the directory, when it names none. *)
Definition touched (dir : string) (seg : CommandSegment) : list string :=
  let '(program, args) := innermost registry MAX_WRAPPER_DEPTH (program seg) (args seg) in
  match lookupSpec registry program with
  | Some spec =>
      if spec_filesystemOp spec then
        match segment_paths spec args with [] => [dir] | ps => shell_path home dir <$> ps end
      else []
  | None => []
  end.

Lemma step_absolute w seg : isAbsolute (trackedCwd w) = true → isAbsolute (trackedCwd (step w seg)) = true.
Proof.
  intros Hw. unfold scope_step. destruct (innermost _ _ _ _) as [p a]. cbn [trackedCwd]. case_bool_decide; [|done].
  unfold cd_to. destruct (List.filter _ a) as [|x []]; [done| |done]. case_bool_decide; [done|]. by apply absolute_in_spec.
Qed.

Lemma foldl_set_add (l s : list string) x : x ∈ foldl (λ s p, set_add p s) s l ↔ x ∈ s ∨ x ∈ l.
Proof.
  revert s. induction l as [|y l IH]; intros s; cbn [foldl]; [rw elem_of_nil; tauto|].
  rw IH elem_of_set_add elem_of_cons. tauto.
Qed.

Lemma step_paths w seg s : isAbsolute (trackedCwd w) = true →
  (∀ q, q ∈ fsPathArgs w → q ∈ fsPathArgs (step w seg)) ∧
  (s ∈ touched (trackedCwd w) seg → ∃ q, q ∈ fsPathArgs (step w seg) ∧ isAbsolute q = true ∧ segs q = segs s).
Proof.
  intros Hw. unfold scope_step, touched. destruct (innermost _ _ _ _) as [p a]. cbn [fsPathArgs].
  split; [intros q Hq; apply foldl_set_add; by left|]. destruct (lookupSpec registry p) as [spec|]; [|by intros ?%not_elem_of_nil].
  destruct (spec_filesystemOp spec); [|by intros ?%not_elem_of_nil]. destruct (segment_paths spec a) as [|x ps].
  - intros ->%list_elem_of_singleton. exists (trackedCwd w). split; [apply foldl_set_add; right; by left|done].
  - intros (y & -> & Hy)%list_elem_of_fmap. destruct (absolute_in_spec cwd home (trackedCwd w) y home_absolute Hw) as [Ha Hs].
    eexists. split; [apply foldl_set_add; right; by apply list_elem_of_fmap_2, Hy|done].
Qed.

Lemma walk_paths segs_ w : isAbsolute (trackedCwd w) = true →
  isAbsolute (trackedCwd (foldl step w segs_)) = true ∧ ∀ q, q ∈ fsPathArgs w → q ∈ fsPathArgs (foldl step w segs_).
Proof.
  revert w. induction segs_ as [|seg l IH]; intros w Hw; [done|]. cbn [foldl].
  destruct (IH (step w seg) (step_absolute w seg Hw)) as [Ha Hq]. split; [done|]. intros q Hin. by apply Hq, step_paths.
Qed.

Lemma touched_in_walk parsed wd pre seg post s : isAbsolute wd = true → segments parsed = (pre ++ seg :: post)%list →
  s ∈ touched (dir_before wd pre) seg →
  ∃ q, q ∈ fsPathArgs (scope_walk cwd home registry parsed wd) ∧ isAbsolute q = true ∧ segs q = segs s.
Proof.
  intros Hwd Hsegs Hs. unfold scope_walk. rw Hsegs foldl_app. cbn [foldl]. fold (start_walk wd).
  destruct (walk_paths pre (start_walk wd) Hwd) as [Ha _].
  destruct (step_paths (foldl step (start_walk wd) pre) seg s Ha) as [_ Hq]. destruct (Hq Hs) as (q & Hin & ?).
  exists q. split; [|done]. by apply walk_paths; [apply step_absolute|].
Qed.
End scopes.

(** The directories a rule can be scoped to hold every file the line touches, each
    taken from the directory its segment runs in, wrappers and changes of directory
    included; the rung is saved as that directory's subtree. *)
Theorem line_scopes_hold_the_line cwd home existsSync isDirectory registry test parse rules tool params wd options o pre seg post s :
  canonical home → canonical wd → p_workingDir params = Some wd →
  answer_scopes (handle_bash cwd home existsSync isDirectory registry test parse rules tool params) = Some options → o ∈ options →
  segments (parse (p_command params otherwise EmptyString)) = (pre ++ seg :: post)%list →
  s ∈ touched home registry (dir_before cwd home registry wd pre) seg →
  offered_scope o = "everywhere" ∨
  ∃ d, offered_scope o = below d "*" ∧ within d (of_segs (segs s)) ∧
    ∀ c, canonical c → isScopeMatch (Some (offered_scope o)) (Some c) = true ↔ within d c.
Proof.
  intros Hh Hwd Hp Hopts Ho Hsegs Hs. set (parsed := parse (p_command params otherwise EmptyString)) in *.
  destruct (touched_in_walk cwd home registry (canonical_absolute _ Hh) parsed wd pre seg post s
    (canonical_absolute _ Hwd) Hsegs Hs) as (q & Hq & Ha & Hqs).
  assert (options = generateDirectoryScopeOptions cwd home existsSync isDirectory (fsPathArgs (scope_walk cwd home registry parsed wd)) wd
    (p_workspaceRoot params)) as He.
  { revert Hopts. unfold handle_bash. rw Hp. fold parsed. destruct (if bool_decide (tool = bash) then _ else _).
    destruct (proxied_risk _ _ _). cbn. destruct (hasFilesystemOp _); [by intros [= <-]|done]. }
  rw He in Ho. apply offered_scopes_hold_the_call in Ho as [->|(d & -> & Hd & Hm & _)]; [by left|right|done|done].
  exists d. split_and!; [done| |done]. rw -Hqs -(resolve_one cwd q) //. apply Hd.
  assert (resolve cwd [q] = resolvePath cwd home q wd) as ->.
  { unfold resolvePath. rw Ha. rw bool_decide_false; [|by intros ->].
    assert (starts_with "~/" q = false) as -> by by (destruct q as [|a q]; [|apply andb_true_iff in Ha as [<-%bool_decide_eq_true _]]).
    done. }
  unfold targets. destruct (fsPathArgs _) as [|x l]; [by apply elem_of_nil in Hq|].
  by apply (list_elem_of_fmap_2 (λ p, resolvePath cwd home p wd)).
Qed.

(** ** A registry *)

Definition command_spec (r : Risk) (complex : bool) (rules : list ArgRule) (schema : ArgSchema) : CommandRiskSpec := {|
  baseRisk := Some r; subcommands := None; argRules := rules; isWrapper := false; nonExecFlags := [];
  complexSyntax := complex; spec_reason := None; spec_sandboxAutoApprove := true; spec_filesystemOp := true;
  argSchema := Some schema |}.

Definition flag_rule (id : string) (flags_ : list string) (pattern : option string) (r : Risk) (why : string) : ArgRule := {|
  rule_id := id; rule_flags := flags_; valuePattern := pattern; arg_risk := r; arg_reason := why |}.

Definition flags_with_paths (flags pathFlags_ : list string) : ArgSchema := {|
  valueFlags := flags; positionalsDef := None; pathFlags := pathFlags_; respectsDoubleDash := None |}.

Definition tee_spec : CommandRiskSpec := command_spec medium false [] empty_schema.

Definition grep_spec : CommandRiskSpec := command_spec low false [] {|
  valueFlags := []; positionalsDef := Some (descs [{| role := pattern_; rest_desc := false |}; {| role := path; rest_desc := true |}]);
  pathFlags := []; respectsDoubleDash := None |}.

Definition sort_spec : CommandRiskSpec := command_spec low false
  [flag_rule "sort:output" ["-o"; "--output"] None medium "Writes sorted output to file";
   flag_rule "sort:output-sensitive" ["-o"; "--output"]
     (Some "(?:^|/)(?:\.ssh|\.gnupg|\.aws|\.config|\.env)\b") high "Writes sorted output to sensitive path"]
  (flags_with_paths ["-o"; "--output"] ["-o"; "--output"]).

Definition tar_spec : CommandRiskSpec := command_spec medium true
  [flag_rule "tar:to-command" ["--to-command"] None high "Executes arbitrary command during extraction";
   flag_rule "tar:checkpoint-action" ["--checkpoint-action"] None high "Executes action at checkpoints";
   flag_rule "tar:use-compress-program" ["-I"; "--use-compress-program"] None high "Executes arbitrary compression program"]
  (flags_with_paths ["-C"; "--directory"; "-f"; "--file"; "-I"; "--use-compress-program"; "--to-command"; "--checkpoint-action"]
                    ["-C"; "--directory"; "-f"; "--file"]).

(** Entries of [command-registry/commands]. *)
Definition shell_registry : Registry := [("tee", tee_spec); ("grep", grep_spec); ("sort", sort_spec); ("tar", tar_spec)].

Definition line_params (line : string) : bash_params := {|
  p_command := Some line; p_workingDir := Some "/w"; p_containerized := Some false; p_workspaceRoot := Some "/w";
  p_networkMode := None; p_credentialRefCount := None |}.

Definition answer_to (line : string) (segs : list CommandSegment) : gateway_result :=
  bash_result (handle_bash "/" "/root" (λ _, false) (λ _, false) shell_registry (λ _ _, false) (sample_parse segs) None bash
    (line_params line)).

Definition decision_on (line : string) (segs : list CommandSegment) : option decision :=
  check "/" (posix_fs linked) "/w" false "bash" {| input_path := None; input_file_path := None |}
    {| input_skill := None; input_skill_id := None |} "/w" None (Some (answer_to line segs))
    {| owner_kind := None; bundled := None; manifest := false |} "low" None.

Example decision_samples :
  decision_on "tee in/a.md" [sample_segment "tee" ["in/a.md"]] = Some allow ∧
  decision_on "tee out/x" [sample_segment "tee" ["out/x"]] = Some prompt ∧
  decision_on "tee ../x" [sample_segment "tee" ["../x"]] = Some prompt ∧
  decision_on "tee ~/x" [sample_segment "tee" ["~/x"]] = Some prompt ∧
  decision_on "sort -o /etc/x a" [sample_segment "sort" ["-o"; "/etc/x"; "a"]] = Some prompt.
Proof. by vm_compute. Qed.

Lemma approved_commands_stay_witness :
  isPathWithinRoot "/" "/w/in/a.md" "/w" = true ∧ within "/w" "/w/notes/a.md".
Proof.
  destruct (approved_commands_stay "/" "/root" (λ _, false) (λ _, false) shell_registry (λ _ _, false)
    (sample_parse [sample_segment "tee" ["in/a.md"]]) None (line_params "tee in/a.md") "/" linked "/w" "/w" "/w"
    {| input_path := None; input_file_path := None |} {| input_skill := None; input_skill_id := None |} None
    {| owner_kind := None; bundled := None; manifest := false |} "low" None) as (_ & _ & H).
  - by vm_compute.
  - by vm_compute.
  - done.
  - done.
  - done.
  - exact linked_stands.
  - by vm_compute.
  - by vm_compute.
  - destruct (H (sample_segment "tee" ["in/a.md"]) ltac:(by left)) as (spec & Hs & _ & Hp).
    assert (spec = tee_spec) as -> by by (vm_compute in Hs; injection Hs as <-).
    apply (Hp "in/a.md" "/w/notes/a.md").
    + vm_compute. by left.
    + apply (bool_decide_unpack (".." ∉ parts "in/a.md")). by vm_compute.
    + by vm_compute.
    + by vm_compute.
Defined.

(** ** What the approval misses *)

Lemma paths_but_flags schema args p q : positionals p = positionals q → pathArgs p = pathArgs q → sawDoubleDash p = sawDoubleDash q →
  pathArgs (parse_loop schema args p) = pathArgs (parse_loop schema args q).
Proof.
  intros H1 H2 H3. rw !parse_loop_read H3. generalize (read schema (sawDoubleDash q) args). intros items.
  revert p q H1 H2 H3. induction items as [|i items IH]; intros p q H1 H2 H3; [done|]. cbn [foldl].
  apply IH; destruct i; cbn; rewrite ?H1 ?H2 ?H3; done.
Qed.

(** A flag that is written together with its value passes for a flag of its own, so
    the value is no path. *)
Theorem glued_values_are_no_paths schema token args :
  is_flag token = true → token ≠ "--" → token ∉ valueFlags schema → has_char "=" token = false →
  pathArgs (parseArgs (token :: args) schema) = pathArgs (parseArgs args schema).
Proof.
  intros Hf Hd Hv He. unfold parseArgs. rw parse_loop_cons. cbn [sawDoubleDash nothing_parsed].
  unfold ends_flags, takes_value, inline_value. rw (bool_decide_false _ Hd) Hf (bool_decide_false _ Hv) /=.
  assert (after_char "=" token = None) as ->.
  { clear -He. induction token as [|a s IH]; [done|]. cbn [has_char] in He. apply orb_false_iff in He as [Ha He].
    cbn [after_char]. rw decide_False; [by apply IH|]. by apply bool_decide_eq_false in Ha. }
  cbn. by apply paths_but_flags.
Qed.

(** A name that leads through a link and back up is looked at by its text: [out]
    leads out of the workspace, and what stands above its target is written to
    without a question. *)
Theorem parent_steps_escape_approval :
  let segs_ := [sample_segment "tee" ["out/../secret"]] in
  decision_on "tee out/../secret" segs_ = Some allow ∧
  sandboxPathArgs (answer_to "tee out/../secret" segs_) = Some ["/w/secret"] ∧
  opened linked (shell_path "/root" "/w" "out/../secret") = Some "/data/secret" ∧ ¬ within "/w" "/data/secret".
Proof.
  split_and!; [by vm_compute..|]. apply (bool_decide_unpack (¬ within "/w" "/data/secret")). by vm_compute.
Qed.

(** [tar -C /etc] asks and [tar -C/etc] does not; a pattern given by a flag leaves the
    file in the pattern's place, where no path is looked for. *)
Theorem hidden_paths_are_approved :
  let spelled := [sample_segment "tar" ["-x"; "-f"; "a.tar"; "-C"; "/etc"]] in
  let glued := [sample_segment "tar" ["-x"; "-f"; "a.tar"; "-C/etc"]] in
  let search := [sample_segment "grep" ["--regexp=root"; "/etc/shadow"]] in
  decision_on "tar -x -f a.tar -C /etc" spelled = Some prompt ∧ decision_on "tar -x -f a.tar -C/etc" glued = Some allow ∧
  result_risk (answer_to "tar -x -f a.tar -C/etc" glued) = "medium" ∧
  sandboxAutoApprove (answer_to "grep --regexp=root /etc/shadow" search) = Some true ∧
  sandboxPathArgs (answer_to "grep --regexp=root /etc/shadow" search) = None.
Proof. by vm_compute. Qed.

(** The risk of a line does not hold its approval back: [tar] with a command to run for
    every file is classified high for running arbitrary commands and runs unasked,
    for all its paths lie in the workspace. *)
Theorem approval_ignores_the_risk :
  let segs_ := [sample_segment "tar" ["-x"; "-f"; "a.tar"; "--to-command=sh"]] in
  result_risk (answer_to "tar -x -f a.tar --to-command=sh" segs_) = "high" ∧
  decision_on "tar -x -f a.tar --to-command=sh" segs_ = Some allow.
Proof. by vm_compute. Qed.

(** A word in double quotes, as the parser hands it on: [child.text] keeps the quotes. *)
Definition quoted (w : string) : string := String "034" (w +:+ String "034" EmptyString).

(** A quoted path and one that begins with a variable are looked at by their source
    text, which begins with no slash: they read as names in the working directory, and
    writing to them is approved wherever they lead. *)
Theorem quoted_paths_read_as_inside :
  sandboxPathArgs (answer_to "tee x" [sample_segment "tee" [quoted "/etc/x"]]) = Some ["/w/" +:+ quoted "/etc/x"] ∧
  decision_on "tee x" [sample_segment "tee" [quoted "/etc/x"]] = Some allow ∧
  decision_on "tee $HOME/x" [sample_segment "tee" ["$HOME/x"]] = Some allow ∧
  decision_on "tee /etc/x" [sample_segment "tee" ["/etc/x"]] = Some prompt.
Proof. by vm_compute. Qed.
