(* ===== verification/UrlSafety.v ===== *)
(** * Private addresses

    The predicates of [assistant/src/tools/network/url-safety.ts] that tell the
    addresses of the local and private networks by their text, and the resolution
    of a host to the addresses a request may go to.

    The reference is numeric: an IPv4 address is a 32-bit number and a block of
    addresses its leading bits; an IPv6 address is eight groups of 16 bits, written
    as parsers of URLs and resolvers write it. *)

From S2P Require Import Prelude JsText.
Local Open Scope string_scope.
Local Open Scope litt_scope.

(** ** Numbers in text *)

Definition is_hex (a : ascii) : bool :=
  is_digit a || (let n := nat_of_ascii a in (97 <=? n) && (n <=? 102))%nat.

(** The value of a decimal or lower-case hexadecimal digit. *)
Definition digit_value (a : ascii) : Z :=
  Z.of_nat (if is_digit a then nat_of_ascii a - 48 else nat_of_ascii a - 87)%nat.

Definition value_in (base : Z) (s : string) : Z :=
  foldl (λ v a, (v * base + digit_value a)%Z) 0%Z (list_ascii_of_string s).

(** [Number(part)] for digits; what else it reads is not asked of it. *)
Definition Number (s : string) : option Z :=
  if bool_decide (s ≠ EmptyString) && all_chars is_digit s then Some (value_in 10 s) else None.

(** ** IPv4 *)

(** [/^\d{1,3}$/] *)
Definition short_number (part : string) : bool :=
  all_chars is_digit part && (1 <=? String.length part)%nat && (String.length part <=? 3)%nat.

Definition isIPv4 (hostname : string) : bool :=
  let parts := split_on "." hostname in
  (List.length parts =? 4)%nat &&
  forallb (λ part, short_number part &&
    match Number part with Some value => negb ((value <? 0)%Z || (255 <? value)%Z) | None => false end) parts.

Definition private_pair (a b : Z) : bool :=
  if (a =? 0)%Z then true
  else if (a =? 10)%Z then true
  else if (a =? 127)%Z then true
  else if (a =? 169)%Z && (b =? 254)%Z then true
  else if (a =? 172)%Z && (16 <=? b)%Z && (b <=? 31)%Z then true
  else if (a =? 192)%Z && (b =? 168)%Z then true
  else if (a =? 198)%Z && ((b =? 18)%Z || (b =? 19)%Z) then true
  else if (a =? 100)%Z && (64 <=? b)%Z && (b <=? 127)%Z then true
  else if (224 <=? a)%Z then true
  else false.

(** Asked of what [isIPv4] accepts. *)
Definition isPrivateIPv4 (hostname : string) : bool :=
  match Number <$> split_on "." hostname with
  | Some a :: Some b :: _ => private_pair a b
  | _ => false
  end.

(** ** IPv6 *)

Definition unwrapBracketedHostname (hostname : string) : string :=
  match hostname with
  | String "[" rest => match before_suffix "]" rest with Some inner => inner | None => hostname end
  | _ => hostname
  end.

Definition normalized (hostname : string) : string :=
  string_map to_lower (before_char "%" (unwrapBracketedHostname hostname)).

(** [s.slice(p.length)], if [s] begins with [p]. *)
Fixpoint strip (p s : string) : option string :=
  match p, s with
  | EmptyString, _ => Some s
  | String a p, String b s => if bool_decide (a = b) then strip p s else None
  | _, _ => None
  end.

(** [^(?:(?:(?:0:){5}|::)ffff:|(?:(?:0:){6}|::))] in front of the group, in the order
    the alternatives are tried. *)
Definition EMBEDDING_PREFIXES : list string :=
  ["0:0:0:0:0:ffff:"; "::ffff:"; "0:0:0:0:0:0:"; "::"].

Definition first_match {A} (f : string → option A) (text : string) : option A :=
  head (omap (λ p, strip p text ≫= f) EMBEDDING_PREFIXES).

(** [(\d{1,3}(?:\.\d{1,3}){3})$] *)
Definition dotted (rest : string) : option string :=
  let parts := split_on "." rest in
  if (List.length parts =? 4)%nat && forallb short_number parts then Some rest else None.

(** [[0-9a-f]{1,4}] *)
Definition hex_group (w : string) : bool :=
  all_chars is_hex w && (1 <=? String.length w)%nat && (String.length w <=? 4)%nat.

(** [([0-9a-f]{1,4}):([0-9a-f]{1,4})$] *)
Definition two_groups (rest : string) : option (string * string) :=
  match split_on ":" rest with
  | [hi; lo] => if hex_group hi && hex_group lo then Some (hi, lo) else None
  | _ => None
  end.

Definition quad_text (a b c d : Z) : string :=
  pretty a +:+ "." +:+ pretty b +:+ "." +:+ pretty c +:+ "." +:+ pretty d.

Definition octet (n k : Z) : Z := Z.land (Z.shiftr n k) 255.

Definition extractEmbeddedIPv4FromIPv6 (hostname : string) : option string :=
  let text := normalized hostname in
  match first_match dotted text with
  | Some quad => if isIPv4 quad then Some quad else None
  | None =>
      match first_match two_groups text with
      | None => None
      | Some (h, l) =>
          let hi := value_in 16 h in
          let lo := value_in 16 l in
          Some (quad_text (octet hi 8) (octet hi 0) (octet lo 8) (octet lo 0))
      end
  end.

Definition hex_or_colon (a : ascii) : bool :=
  is_digit a || (let n := nat_of_ascii a in ((97 <=? n) && (n <=? 102)) || ((65 <=? n) && (n <=? 70)))%nat ||
  bool_decide (a = ":"%char).

Definition isIPv6 (hostname : string) : bool :=
  if bool_decide (is_Some (extractEmbeddedIPv4FromIPv6 hostname)) then true
  else let unwrapped := unwrapBracketedHostname hostname in
       if negb (has_char ":" unwrapped) then false
       else let stripped := before_char "%" unwrapped in
            bool_decide (stripped ≠ EmptyString) && all_chars hex_or_colon stripped.

Definition PRIVATE_PREFIXES : list string :=
  ["fc"; "fd"; "ff"; "fe8"; "fe9"; "fea"; "feb"; "fec"; "fed"; "fee"; "fef"].

Definition isPrivateIPv6 (hostname : string) : bool :=
  let text := normalized hostname in
  if bool_decide (text = "::") || bool_decide (text = "::1") then true
  else if existsb (λ p, starts_with p text) PRIVATE_PREFIXES then true
  else match extractEmbeddedIPv4FromIPv6 hostname with
       | Some quad => isPrivateIPv4 quad
       | None => false
       end.

(** ** Hosts *)

Definition isPrivateOrLocalHost (hostname : string) : bool :=
  let host := string_map to_lower (unwrapBracketedHostname hostname) in
  if bool_decide (host ∈ ["localhost"; "localhost.localdomain"; "0.0.0.0"]) ||
     ends_with ".localhost" host || ends_with ".local" host then true
  else if bool_decide (host = "metadata.google.internal") then true
  else if isIPv4 host then isPrivateIPv4 host
  else if isIPv6 host then isPrivateIPv6 host
  else false.

Record Resolution := { addresses : list string; blockedAddress : option string }.

(** [resolveRequestAddress]; [resolveHost] is the resolver at the time of the call. *)
Definition resolveRequestAddress (hostname : string) (resolveHost : string → list string) (allowPrivateNetwork : bool)
    : Resolution :=
  let normalizedHost := unwrapBracketedHostname hostname in
  if isIPv4 normalizedHost || isIPv6 normalizedHost then
    if negb allowPrivateNetwork && isPrivateOrLocalHost normalizedHost
    then {| addresses := []; blockedAddress := Some normalizedHost |}
    else {| addresses := [normalizedHost]; blockedAddress := None |}
  else
    let found := js_set (unwrapBracketedHostname <$> resolveHost normalizedHost) in
    match found with
    | [] => {| addresses := []; blockedAddress := None |}
    | _ =>
        match (if allowPrivateNetwork then None else List.find isPrivateOrLocalHost found) with
        | Some address => {| addresses := []; blockedAddress := Some address |}
        | None => {| addresses := found; blockedAddress := None |}
        end
    end.

(** ** The addresses themselves *)

(** A block of the addresses of [width] bits: those that share the first [len] bits
    of [base]. *)
Definition in_block (width ip : Z) (block : Z * Z) : bool :=
  (Z.shiftr ip (width - block.2) =? Z.shiftr block.1 (width - block.2))%Z.

Definition addr4 (a b c d : Z) : Z := (a * 2^24 + b * 2^16 + c * 2^8 + d)%Z.

(** This network, private use (RFC 1918), loopback, link-local, benchmarking, shared
    address space, multicast and what is reserved above it. *)
Definition private_blocks4 : list (Z * Z) := [
  (addr4 0 0 0 0, 8%Z); (addr4 10 0 0 0, 8%Z); (addr4 127 0 0 0, 8%Z); (addr4 169 254 0 0, 16%Z); (addr4 172 16 0 0, 12%Z);
  (addr4 192 168 0 0, 16%Z); (addr4 198 18 0 0, 15%Z); (addr4 100 64 0 0, 10%Z); (addr4 224 0 0 0, 3%Z)].

Definition private4 (ip : Z) : bool := existsb (in_block 32 ip) private_blocks4.

(** The group of 16 bits that starts at bit [k]. *)
Definition group (ip k : Z) : Z := Z.land (Z.shiftr ip k) (Z.ones 16).

Definition groups (ip : Z) : list Z := group ip <$> [112; 96; 80; 64; 48; 32; 16; 0]%Z.

Definition hex_digit (n : Z) : ascii := ascii_of_nat (Z.to_nat ((if n <? 10 then n + 48 else n + 87)%Z)).

(** A group in hexadecimal, without leading zeros. *)
Definition hex16 (n : Z) : string :=
  let d k := hex_digit (Z.land (Z.shiftr n k) 15) in
  let tail3 := String (d 0%Z) EmptyString in
  if (n <? 16)%Z then tail3
  else if (n <? 256)%Z then String (d 4%Z) tail3
  else if (n <? 4096)%Z then String (d 8%Z) (String (d 4%Z) tail3)
  else String (d 12%Z) (String (d 8%Z) (String (d 4%Z) tail3)).

Fixpoint leading_zeros (l : list Z) : nat :=
  match l with
  | 0%Z :: l => S (leading_zeros l)
  | _ => O
  end.

(** The first of the longest runs of zero groups: where it starts and its length. *)
Fixpoint zero_run (i : nat) (l : list Z) : nat * nat :=
  match l with
  | [] => (i, O)
  | _ :: rest =>
      let '(s, n) := zero_run (S i) rest in
      if (n <=? leading_zeros l)%nat then (i, leading_zeros l) else (s, n)
  end.

(** The text of eight groups: a run of two zero groups or more is left out (RFC 5952,
    and the serializer of URLs). *)
Definition groups_text (g : list Z) : string :=
  let words := hex16 <$> g in
  let '(s, n) := zero_run 0 g in
  if (n <? 2)%nat then join_on ":" words
  else join_on ":" (take s words) +:+ "::" +:+ join_on ":" (drop (s + n) words).

Definition quad_of (ip : Z) : string := quad_text (octet ip 24) (octet ip 16) (octet ip 8) (octet ip 0).

(** An address embeds an IPv4 address in its last 32 bits; those of 16 bits are left
    to the loopback. *)
Definition mapped (ip : Z) : bool := (Z.shiftr ip 32 =? 65535)%Z.
Definition compatible (ip : Z) : bool := (Z.shiftr ip 32 =? 0)%Z && (65536 <=? ip)%Z.

(** How an address is written: as groups, or with the embedded address dotted. *)
Definition spellings (ip : Z) : list string :=
  groups_text (groups ip) ::
  if mapped ip then ["::ffff:" +:+ quad_of ip] else if compatible ip then ["::" +:+ quad_of ip] else [].

Definition addr6 (g0 : Z) : Z := Z.shiftl g0 112.

(** The unspecified address and the loopback, unique local, multicast, link- and
    site-local addresses. *)
Definition private_blocks6 : list (Z * Z) :=
  [(0, 127)%Z; (addr6 64512, 7%Z); (addr6 65280, 8%Z); (addr6 65152, 9%Z)].

Definition private6 (ip : Z) : bool :=
  existsb (in_block 128 ip) private_blocks6 || ((mapped ip || compatible ip) && private4 (Z.land ip (Z.ones 32))).

Definition a_loopback : Z := 1.
Definition a_mapped : Z := (65535 * 2^32 + addr4 127 0 0 1)%Z.
Definition a_public : Z := (Z.shiftl 8193 112 + Z.shiftl 3512 96 + 1)%Z.

Example spelling_samples :
  spellings a_loopback = ["::1"] ∧ spellings a_mapped = ["::ffff:7f00:1"; "::ffff:127.0.0.1"] ∧
  spellings a_public = ["2001:db8::1"] ∧ spellings (Z.shiftl 65152 112 + 5) = ["fe80::5"] ∧
  spellings (addr4 10 0 0 0) = ["::a00:0"; "::10.0.0.0"] ∧
  isPrivateOrLocalHost <$> ["[::ffff:7f00:1]"; "10.1.2.3"; "Printer.LOCAL"; "2001:db8::1"; "172.32.0.1"; "fe80::5%en0"; "0:0:0:0:0:ffff:10.0.0.1"]
    = [true; true; true; false; false; true; true] ∧
  isIPv6 "64:ff9b::127.0.0.1" = false.
Proof. by vm_compute. Qed.

(** ** IPv4: the texts of quads *)

Definition is_octet (n : Z) : Prop := (0 <= n <= 255)%Z.

Lemma octet_text n : is_octet n →
  short_number (pretty n) = true ∧ Number (pretty n) = Some n ∧ all_chars is_digit (pretty n) = true ∧ has_char "." (pretty n) = false.
Proof.
  intros Hn. revert n Hn.
  assert (forallb (λ n, bool_decide (short_number (pretty n) = true ∧ Number (pretty n) = Some n ∧
    all_chars is_digit (pretty n) = true ∧ has_char "." (pretty n) = false)) (seqZ 0 256) = true) as Hall by by vm_compute.
  rewrite forallb_forall in Hall. intros n Hn. apply (bool_decide_unpack _), Is_true_true, Hall.
  apply list_elem_of_In, elem_of_seqZ. unfold is_octet in Hn. lia.
Qed.

Section quad.
Context (a b c d : Z) (Ha : is_octet a) (Hb : is_octet b) (Hc : is_octet c) (Hd : is_octet d).

Lemma split_quad : split_on "." (quad_text a b c d) = pretty <$> [a; b; c; d].
Proof.
  unfold quad_text. change ("." +:+ ?s) with (String "." s).
  destruct (octet_text a Ha) as (_ & _ & _ & H1), (octet_text b Hb) as (_ & _ & _ & H2),
    (octet_text c Hc) as (_ & _ & _ & H3), (octet_text d Hd) as (_ & _ & _ & H4).
  by rewrite !split_on_app // split_on_plain.
Qed.

Lemma quad_isIPv4 : isIPv4 (quad_text a b c d) = true.
Proof.
  unfold isIPv4. rewrite split_quad. cbn [fmap list_fmap List.length forallb Nat.eqb andb].
  assert (∀ n, is_octet n → (short_number (pretty n) &&
    match Number (pretty n) with Some value => negb ((value <? 0)%Z || (255 <? value)%Z) | None => false end) = true) as H.
  { intros n Hn. destruct (octet_text n Hn) as (-> & -> & _). unfold is_octet in Hn. cbn [andb]. zbool. }
  by rewrite !H.
Qed.

Lemma quad_private : isPrivateIPv4 (quad_text a b c d) = private_pair a b.
Proof.
  unfold isPrivateIPv4. rewrite split_quad. cbn [fmap list_fmap].
  destruct (octet_text a Ha) as (_ & -> & _), (octet_text b Hb) as (_ & -> & _). done.
Qed.

(** The leading bits of the number, by the octets. *)
Lemma addr4_bits :
  Z.shiftr (addr4 a b c d) 24 = a ∧ Z.shiftr (addr4 a b c d) 16 = (a * 256 + b)%Z ∧
  Z.shiftr (addr4 a b c d) 20 = (a * 16 + b / 16)%Z ∧ Z.shiftr (addr4 a b c d) 17 = (a * 128 + b / 2)%Z ∧
  Z.shiftr (addr4 a b c d) 22 = (a * 4 + b / 64)%Z ∧ Z.shiftr (addr4 a b c d) 29 = (a / 32)%Z.
Proof.
  unfold addr4, is_octet in *. rewrite !Z.shiftr_div_pow2; [|lia..]. cbn.
  split_and!; Z.to_euclidean_division_equations; lia.
Qed.

Lemma private_pair_blocks : private_pair a b = private4 (addr4 a b c d).
Proof.
  destruct addr4_bits as (H24 & H16 & H20 & H17 & H22 & H29).
  unfold private4, private_blocks4, in_block. cbn [existsb fst snd]. cbn -[addr4 Z.shiftr].
  rewrite H24 H16 H20 H17 H22 H29. clear H24 H16 H20 H17 H22 H29. unfold private_pair, is_octet in *.
  repeat match goal with |- context [if ?x then true else ?y] => change (if x then true else y) with (x || y) end.
  apply eq_true_iff_eq. rewrite !orb_true_iff !andb_true_iff !orb_true_iff !Z.eqb_eq !Z.leb_le.
  repeat match goal with |- context [Z.shiftr (addr4 ?x ?y 0 0) ?k] =>
    let v := eval vm_compute in (Z.shiftr (addr4 x y 0 0) k) in change (Z.shiftr (addr4 x y 0 0) k) with v end.
  Z.to_euclidean_division_equations. lia.
Qed.
End quad.

(** ** IPv6: the texts of groups *)

(** The characters addresses are written with. *)
Definition address_char (a : ascii) : bool := is_hex a || bool_decide (a = ":"%char) || bool_decide (a = "."%char).

Lemma hex_digit_text d : (0 <= d < 16)%Z → is_hex (hex_digit d) = true ∧ digit_value (hex_digit d) = d.
Proof.
  revert d. assert (forallb (λ d, bool_decide (is_hex (hex_digit d) = true ∧ digit_value (hex_digit d) = d)) (seqZ 0 16) = true)
    as Hall by by vm_compute.
  rewrite forallb_forall in Hall. intros d Hd. apply (bool_decide_unpack _), Is_true_true, Hall.
  apply list_elem_of_In, elem_of_seqZ. lia.
Qed.

Lemma nibble n k : (0 <= k)%Z → Z.land (Z.shiftr n k) 15 = ((n / 2 ^ k) mod 16)%Z.
Proof. intros. rewrite (Z.land_ones _ 4) //. by rewrite Z.shiftr_div_pow2. Qed.

Lemma hex16_text n : (0 <= n < 65536)%Z →
  hex_group (hex16 n) = true ∧ value_in 16 (hex16 n) = n ∧ has_char ":" (hex16 n) = false.
Proof.
  intros Hn. unfold hex16. rewrite !nibble; [|lia..]. cbn [Z.pow Z.pow_pos Pos.iter].
  assert (∀ k, ∃ a, a = hex_digit (n / k mod 16) ∧ is_hex a = true ∧ digit_value a = (n / k mod 16)%Z ∧ bool_decide (a = ":"%char) = false) as Hd.
  { intros k. destruct (hex_digit_text (n / k mod 16)) as [H1 H2]; [apply Z.mod_pos_bound; lia|].
    eexists. split_and!; [done|done|done|]. apply bool_decide_eq_false. intros He. by rewrite He in H1. }
  destruct (Hd 1%Z) as (a & Ea & Ha & Va & Ca), (Hd 16%Z) as (b & Eb & Hb & Vb & Cb),
    (Hd 256%Z) as (c & Ec & Hc & Vc & Cc), (Hd 4096%Z) as (e & Ee & He & Ve & Ce).
  cbn. rewrite -Ea -Eb -Ec -Ee. unfold hex_group, value_in.
  repeat case_match; cbn; rewrite ?Ha ?Hb ?Hc ?He ?Ca ?Cb ?Cc ?Ce ?Va ?Vb ?Vc ?Ve; split_and!; try done;
    zify_bools; Z.to_euclidean_division_equations; lia.
Qed.

Lemma zero_run_start i l : (i ≤ (zero_run i l).1)%nat.
Proof.
  revert i. induction l as [|x l IH]; intros i; [done|]. cbn [zero_run]. specialize (IH (S i)).
  destruct (zero_run (S i) l) as [s n]. case_match; cbn in *; lia.
Qed.

(** A first group other than zero is written first. *)
Lemma groups_text_head g l : g ≠ 0%Z → ∃ r, groups_text (g :: l) = hex16 g +:+ r.
Proof.
  intros Hg. unfold groups_text. cbn [zero_run fmap list_fmap].
  assert (leading_zeros (g :: l) = O) as -> by by destruct g.
  pose proof (zero_run_start 1 l) as Hs. destruct (zero_run 1 l) as [s n]. cbn [fst] in Hs.
  destruct (n <=? 0)%nat eqn:Hn; cbn [Nat.ltb Nat.leb]; [apply join_on_head|].
  case_match; [apply join_on_head|]. destruct s as [|s]; [lia|]. cbn [take].
  destruct (join_on_head ":" (hex16 g) (take s (hex16 <$> l))) as [r ->].
  eexists. by rewrite append_assoc.
Qed.

Definition hex_colon (a : ascii) : bool := is_hex a || bool_decide (a = ":"%char).

Lemma groups_text_chars l : Forall (λ n, 0 <= n < 65536)%Z l → all_chars hex_colon (groups_text l) = true.
Proof.
  intros Hl. unfold groups_text.
  assert (Forall (λ w, all_chars hex_colon w = true) (hex16 <$> l)) as Hw.
  { apply Forall_fmap. eapply Forall_impl; [exact Hl|]. intros n Hn. destruct (hex16_text n Hn) as (H & _).
    unfold hex_group in H. rewrite !andb_true_iff in H. destruct H as [[H _] _]. cbn.
    revert H. apply all_chars_impl. intros a Ha. unfold hex_colon. by rewrite Ha. }
  destruct (zero_run 0 l) as [s n]. case_match; [by apply all_chars_join|].
  rewrite !all_chars_app. apply andb_true_iff; split; [|apply andb_true_iff; split; [done|]];
    (apply all_chars_join; [done|]); [by apply Forall_take|by apply Forall_drop].
Qed.

Lemma groups_text_colon a b l : has_char ":" (groups_text (a :: b :: l)) = true.
Proof.
  unfold groups_text. destruct (zero_run 0 _) as [s n]. case_match.
  - cbn [fmap list_fmap]. rewrite join_on_cons // has_char_app. cbn [has_char]. by rewrite bool_decide_eq_true_2 // orb_true_r.
  - by rewrite !has_char_app orb_true_r.
Qed.

(** ** Texts of addresses as hosts *)

Definition unbracketed (s : string) : Prop := ∀ r, s ≠ String "[" r.

Lemma unwrap_plain s : unbracketed s → unwrapBracketedHostname s = s.
Proof.
  intros Hs. destruct s as [|a s]; [done|]. unfold unwrapBracketedHostname.
  destruct a as [[] [] [] [] [] [] [] []]; try done. by destruct (Hs s).
Qed.

Lemma unwrap_brackets s : unwrapBracketedHostname (String "[" (s +:+ "]")) = s.
Proof. unfold unwrapBracketedHostname. by rewrite before_suffix_append. Qed.

Lemma address_unbracketed s r : all_chars address_char s = true → unbracketed (s +:+ String "%" r).
Proof. destruct s as [|a s]; [by intros _ r'|]. rewrite all_chars_cons andb_true_iff. intros [Ha _] r' [= -> _]. done. Qed.

Lemma address_plain s : all_chars address_char s = true → unbracketed s.
Proof. intros Hs r ->. by rewrite all_chars_cons in Hs. Qed.

Lemma address_lower s : all_chars address_char s = true → string_map to_lower s = s.
Proof.
  induction s as [|a s IH]; [done|]. rewrite all_chars_cons andb_true_iff. intros [Ha Hs]. cbn [string_map]. rewrite IH //. f_equal.
  clear -Ha. destruct a as [[] [] [] [] [] [] [] []]; by vm_compute in Ha |- *.
Qed.

Lemma string_map_app f a b : string_map f (a +:+ b) = string_map f a +:+ string_map f b.
Proof. induction a as [|x a IH]; [done|]. change (String x a +:+ b) with (String x (a +:+ b)). cbn [string_map]. by rewrite IH. Qed.

(** A host that is the text of an address, as it stands, between brackets or with the
    zone of an interface. *)
Inductive written (s : string) : string → Prop :=
  | written_plain : written s s
  | written_brackets : written s (String "[" (s +:+ "]"))
  | written_zone z : written s (s +:+ String "%" z).

(** What the predicates look at is the text itself. *)
Lemma written_host s h : all_chars address_char s = true → written s h →
  let host := string_map to_lower (unwrapBracketedHostname h) in
  (host = s ∨ ∃ z, host = s +:+ String "%" z) ∧ before_char "%" host = s ∧ normalized host = s ∧ unwrapBracketedHostname host = host.
Proof.
  intros Hs Hw host. assert (host = s ∨ ∃ z, host = s +:+ String "%" z) as Hh.
  { subst host. destruct Hw as [| |z].
    - left. rewrite unwrap_plain; [by apply address_lower|by apply address_plain].
    - left. rewrite unwrap_brackets. by apply address_lower.
    - right. exists (string_map to_lower z). rewrite unwrap_plain; [|by apply address_unbracketed].
      rewrite string_map_app (address_lower s) //. }
  clearbody host. assert (has_char "%" s = false) as Hp by by eapply all_chars_no.
  assert (unwrapBracketedHostname host = host) as Hu.
  { apply unwrap_plain. destruct Hh as [->|[z ->]]; [by apply address_plain|by apply address_unbracketed]. }
  assert (before_char "%" host = s) as Hb.
  { destruct Hh as [->|[z ->]]; [by apply before_char_none|by apply before_char_append]. }
  split_and!; [done|done| |done]. unfold normalized. rewrite Hu Hb. by apply address_lower.
Qed.

(** ** Embedded addresses *)

Lemma strip_app p r : strip p (p +:+ r) = Some r.
Proof. induction p as [|a p IH]; [done|]. change (String a p +:+ r) with (String a (p +:+ r)). cbn [strip]. by rewrite bool_decide_eq_true_2. Qed.

Lemma strip_some p s r : strip p s = Some r → s = p +:+ r.
Proof.
  revert s. induction p as [|a p IH]; intros s; cbn [strip]; [by intros [= ->]|].
  destruct s as [|b s]; [done|]. case_bool_decide as Hab; [|done]. intros Hr. rewrite Hab. by rewrite (IH s Hr).
Qed.

Lemma first_match_cases {A} (f : string → option A) t :
  first_match f t = foldr (λ p o, match strip p t ≫= f with Some x => Some x | None => o end) None EMBEDDING_PREFIXES.
Proof. unfold first_match. cbn [omap list_omap foldr EMBEDDING_PREFIXES]. by repeat destruct (_ ≫= f). Qed.

Lemma no_dots_no_quad t : has_char "." t = false → first_match dotted t = None.
Proof.
  intros Ht. rewrite first_match_cases.
  assert (∀ p, strip p t ≫= dotted = None) as H.
  { intros p. destruct (strip p t) as [r|] eqn:Hr; [|done]. cbn. apply strip_some in Hr.
    rewrite Hr has_char_app orb_false_iff in Ht. destruct Ht as [_ Ht]. unfold dotted. by rewrite split_on_plain. }
  cbn [foldr EMBEDDING_PREFIXES]. by rewrite !H.
Qed.

Lemma two_groups_text hi lo : (0 <= hi < 65536)%Z → (0 <= lo < 65536)%Z →
  two_groups (hex16 hi +:+ String ":" (hex16 lo)) = Some (hex16 hi, hex16 lo).
Proof.
  intros Hh Hl. destruct (hex16_text hi Hh) as (H1 & _ & H2), (hex16_text lo Hl) as (H3 & _ & H4).
  unfold two_groups. by rewrite split_on_app // split_on_plain // H1 H3.
Qed.

Lemma hex_match p hi lo : p = "::ffff:" ∨ p = "::" → (0 <= hi < 65536)%Z → (0 <= lo < 65536)%Z →
  first_match two_groups (p +:+ hex16 hi +:+ String ":" (hex16 lo)) = Some (hex16 hi, hex16 lo).
Proof.
  intros Hp Hh Hl. pose proof (two_groups_text hi lo Hh Hl) as Ht. set (r := hex16 hi +:+ String ":" (hex16 lo)) in *.
  rewrite first_match_cases. destruct Hp as [-> | ->]; cbn [foldr EMBEDDING_PREFIXES].
  - rewrite (strip_app "::ffff:"). by replace (strip "0:0:0:0:0:ffff:" ("::ffff:" +:+ r)) with (@None string) by reflexivity; cbn; rewrite Ht.
  - replace (strip "0:0:0:0:0:ffff:" ("::" +:+ r)) with (@None string) by reflexivity.
    replace (strip "0:0:0:0:0:0:" ("::" +:+ r)) with (@None string) by reflexivity.
    replace (strip "::ffff:" ("::" +:+ r)) with (strip "ffff:" r) by reflexivity. rewrite (strip_app "::").
    cbn [option_bind mbind]. destruct (strip "ffff:" r) as [rest|] eqn:Hs; cbn [option_bind mbind]; [|by rewrite Ht].
    assert (two_groups rest = None) as ->; [|by rewrite Ht]. apply strip_some in Hs.
    assert (split_on ":" r = "ffff" :: split_on ":" rest) as He by (rewrite Hs; by apply (split_on_app ":" "ffff")).
    unfold r in He. destruct (hex16_text hi Hh) as (_ & _ & H2), (hex16_text lo Hl) as (_ & _ & H4).
    rewrite split_on_app // (split_on_plain _ (hex16 lo)) // in He. injection He as _ He. unfold two_groups. by rewrite -He.
Qed.

Lemma octet_value n k : (0 <= k)%Z → octet n k = ((n / 2 ^ k) mod 256)%Z ∧ is_octet (octet n k).
Proof.
  intros Hk. unfold octet, is_octet. rewrite (Z.land_ones _ 8) // Z.shiftr_div_pow2 //.
  change (2 ^ 8)%Z with 256%Z. split; [done|].
  pose proof (Z.mod_pos_bound (n / 2 ^ k) 256 ltac:(lia)). lia.
Qed.

Lemma group_value ip k : (0 <= k)%Z → group ip k = ((ip / 2 ^ k) mod 65536)%Z ∧ (0 <= group ip k < 65536)%Z.
Proof.
  intros Hk. unfold group. rewrite Z.land_ones // Z.shiftr_div_pow2 //. split; [done|]. by apply Z.mod_pos_bound.
Qed.

Lemma quad_chars ip : all_chars (λ a, is_digit a || bool_decide (a = "."%char)) (quad_of ip) = true.
Proof.
  unfold quad_of, quad_text.
  assert (∀ k, (0 <= k)%Z → all_chars (λ a, is_digit a || bool_decide (a = "."%char)) (pretty (octet ip k)) = true) as H.
  { intros k Hk. destruct (octet_text (octet ip k)) as (_ & _ & Hd & _); [by apply octet_value|].
    revert Hd. apply all_chars_impl. by intros a ->. }
  rewrite !all_chars_app !H; [done|lia..].
Qed.

Lemma dotted_match p q : p = "::ffff:" ∨ p = "::" → dotted q = Some q →
  all_chars (λ a, is_digit a || bool_decide (a = "."%char)) q = true → first_match dotted (p +:+ q) = Some q.
Proof.
  intros Hp Hq Hc. rewrite first_match_cases. destruct Hp as [-> | ->]; cbn [foldr EMBEDDING_PREFIXES].
  - rewrite (strip_app "::ffff:"). replace (strip "0:0:0:0:0:ffff:" ("::ffff:" +:+ q)) with (@None string) by reflexivity.
    cbn. by rewrite Hq.
  - replace (strip "0:0:0:0:0:ffff:" ("::" +:+ q)) with (@None string) by reflexivity.
    replace (strip "0:0:0:0:0:0:" ("::" +:+ q)) with (@None string) by reflexivity.
    replace (strip "::ffff:" ("::" +:+ q)) with (strip "ffff:" q) by reflexivity.
    assert (strip "ffff:" q = None) as ->; [|by rewrite (strip_app "::") /= Hq].
    destruct (strip "ffff:" q) as [r|] eqn:Hr; [|done]. apply strip_some in Hr. by rewrite Hr in Hc.
Qed.

Lemma quad_match p ip : p = "::ffff:" ∨ p = "::" → first_match dotted (p +:+ quad_of ip) = Some (quad_of ip).
Proof.
  intros Hp. apply dotted_match; [done| |apply quad_chars].
  unfold dotted, quad_of. rewrite split_quad; [|by apply octet_value..]. cbn [fmap list_fmap List.length Nat.eqb andb forallb].
  assert (∀ k, (0 <= k)%Z → short_number (pretty (octet ip k)) = true) as H.
  { intros k Hk. by destruct (octet_text (octet ip k)) as (-> & _); [apply octet_value|]. }
  rewrite !H; [reflexivity|lia..].
Qed.

(** The embedded quad is the last 32 bits of the address. *)
Lemma embedded_octets hi lo ip : (0 <= ip)%Z → hi = group ip 16 → lo = group ip 0 →
  quad_text (octet hi 8) (octet hi 0) (octet lo 8) (octet lo 0) = quad_of ip.
Proof.
  intros Hip -> ->. unfold quad_of. destruct (group_value ip 16) as [-> _], (group_value ip 0) as [-> _]; [lia..|].
  assert (∀ n k, (0 <= k)%Z → octet n k = ((n / 2 ^ k) mod 256)%Z) as Ho by (intros; by apply octet_value).
  rewrite !Ho; [|lia..]. cbn. f_equal; Z.to_euclidean_division_equations; lia.
Qed.

Lemma low_bits ip : (0 <= ip)%Z →
  Z.land ip (Z.ones 32) = addr4 (octet ip 24) (octet ip 16) (octet ip 8) (octet ip 0).
Proof.
  intros Hip. rewrite Z.land_ones //. unfold addr4.
  assert (∀ n k, (0 <= k)%Z → octet n k = ((n / 2 ^ k) mod 256)%Z) as Ho by (intros; by apply octet_value).
  rewrite !Ho; [|lia..]. cbn. Z.to_euclidean_division_equations; lia.
Qed.

Lemma quad_private_low ip : (0 <= ip)%Z → isIPv4 (quad_of ip) = true ∧ isPrivateIPv4 (quad_of ip) = private4 (Z.land ip (Z.ones 32)).
Proof.
  intros Hip. unfold quad_of. rewrite low_bits // quad_isIPv4 ?quad_private; [|by apply octet_value..].
  split; [done|]. apply private_pair_blocks; by apply octet_value.
Qed.

(** ** Private addresses are caught *)

Lemma colon_no_IPv4 h : has_char ":" h = true → isIPv4 h = false.
Proof.
  intros Hc. destruct (isIPv4 h) eqn:Hi; [|done]. exfalso. unfold isIPv4 in Hi.
  apply andb_true_iff in Hi as [_ Hf]. destruct (join_split "." h) as [Hj _].
  assert (all_chars (λ a, is_digit a || bool_decide (a = "."%char)) h = true) as Ha.
  { rewrite -Hj. apply all_chars_join; [done|]. apply Forall_forall. intros w Hw. rewrite forallb_forall in Hf.
    specialize (Hf w (proj1 (list_elem_of_In _ _) Hw)). apply andb_true_iff in Hf as [Hs _]. unfold short_number in Hs.
    rewrite !andb_true_iff in Hs. destruct Hs as [[Hs _] _]. revert Hs. apply all_chars_impl. by intros a ->. }
  by rewrite (all_chars_no _ ":" h Ha) in Hc.
Qed.

Lemma mapped_groups ip : (0 <= ip)%Z → mapped ip = true →
  groups ip = [0; 0; 0; 0; 0; 65535; group ip 16; group ip 0]%Z.
Proof.
  intros Hip Hm. unfold mapped in Hm. apply Z.eqb_eq in Hm. rewrite Z.shiftr_div_pow2 // in Hm.
  assert (∀ k, (0 <= k)%Z → group ip k = ((ip / 2 ^ k) mod 65536)%Z) as Hg by (intros; by apply group_value).
  unfold groups. cbn [fmap list_fmap]. repeat f_equal; rewrite Hg //; cbn in *; Z.to_euclidean_division_equations; lia.
Qed.

Lemma compatible_groups ip : (0 <= ip)%Z → compatible ip = true →
  groups ip = [0; 0; 0; 0; 0; 0; group ip 16; group ip 0]%Z ∧ group ip 16 ≠ 0%Z.
Proof.
  intros Hip Hm. unfold compatible in Hm. apply andb_true_iff in Hm as [Hm%Z.eqb_eq Hl%Z.leb_le].
  rewrite Z.shiftr_div_pow2 // in Hm.
  assert (∀ k, (0 <= k)%Z → group ip k = ((ip / 2 ^ k) mod 65536)%Z) as Hg by (intros; by apply group_value). split.
  - unfold groups. cbn [fmap list_fmap]. repeat f_equal; rewrite Hg //; cbn in *; Z.to_euclidean_division_equations; lia.
  - rewrite Hg //; cbn in *; Z.to_euclidean_division_equations; lia.
Qed.

Lemma mapped_text hi lo :
  groups_text [0; 0; 0; 0; 0; 65535; hi; lo]%Z = "::ffff:" +:+ hex16 hi +:+ String ":" (hex16 lo).
Proof. destruct hi, lo; reflexivity. Qed.

Lemma compatible_text hi lo : hi ≠ 0%Z →
  groups_text [0; 0; 0; 0; 0; 0; hi; lo]%Z = "::" +:+ hex16 hi +:+ String ":" (hex16 lo).
Proof. intros. destruct hi, lo; try done; reflexivity. Qed.

(** What is embedded is found in every spelling. *)
Lemma embedded_found ip s h : (0 <= ip)%Z → mapped ip || compatible ip = true → s ∈ spellings ip → normalized h = s →
  extractEmbeddedIPv4FromIPv6 h = Some (quad_of ip).
Proof.
  intros Hip He Hs Hn. unfold extractEmbeddedIPv4FromIPv6. rewrite Hn.
  assert ((∃ p, (p = "::ffff:" ∨ p = "::") ∧ s = p +:+ quad_of ip) ∨
          ∃ p, (p = "::ffff:" ∨ p = "::") ∧ s = p +:+ hex16 (group ip 16) +:+ String ":" (hex16 (group ip 0))) as [(p & Hp & ->)|(p & Hp & ->)].
  { unfold spellings in Hs. apply elem_of_cons in Hs as [->|Hs].
    - right. destruct (mapped ip) eqn:Hm; [exists "::ffff:"; rewrite mapped_groups // mapped_text; auto|].
      exists "::". destruct (compatible_groups ip Hip He) as [-> Hh]. rewrite compatible_text //; auto.
    - left. destruct (mapped ip); [|destruct (compatible ip); [|done]]; apply list_elem_of_singleton in Hs as ->; eauto. }
  - rewrite quad_match //. destruct (quad_private_low ip Hip) as [-> _]. done.
  - destruct (group_value ip 16) as [_ Hh], (group_value ip 0) as [_ Hl]; [lia..|].
    destruct (hex16_text _ Hh) as (_ & Vh & _), (hex16_text _ Hl) as (_ & Vl & _).
    rewrite no_dots_no_quad.
    + rewrite hex_match // Vh Vl. f_equal. by apply embedded_octets.
    + assert (∀ n, (0 <= n < 65536)%Z → has_char "." (hex16 n) = false) as Hd.
      { intros n Hn'. destruct (hex16_text n Hn') as (H & _). unfold hex_group in H. rewrite !andb_true_iff in H.
        destruct H as [[H _] _]. by apply (all_chars_no is_hex). }
      rewrite !has_char_app Hd //. cbn [has_char]. rewrite Hd //. destruct Hp as [-> | ->]; done.
Qed.

Lemma groups_bounded ip : Forall (λ n, 0 <= n < 65536)%Z (groups ip).
Proof. unfold groups. repeat constructor; by apply group_value. Qed.

Lemma spelling_text ip s : s ∈ spellings ip → all_chars address_char s = true ∧ has_char ":" s = true.
Proof.
  intros [->|Hs]%elem_of_cons.
  - split; [|apply groups_text_colon]. eapply all_chars_impl; [|apply groups_text_chars, groups_bounded].
    intros a Ha. unfold hex_colon in Ha. unfold address_char. apply orb_true_iff. by left.
  - assert (∃ p, (p = "::ffff:" ∨ p = "::") ∧ s = p +:+ quad_of ip) as (p & Hp & ->).
    { destruct (mapped ip); [|destruct (compatible ip); [|by apply elem_of_nil in Hs]];
        apply list_elem_of_singleton in Hs as ->; eauto. }
    rewrite all_chars_app has_char_app. split; [|by destruct Hp as [-> | ->]].
    apply andb_true_iff; split; [by destruct Hp as [-> | ->]|]. eapply all_chars_impl; [|apply quad_chars].
    cbn beta. intros a [Ha|Ha]%orb_true_iff; unfold address_char, is_hex; rewrite Ha ?orb_true_r //.
Qed.

(** Every spelling of an address is recognized as one. *)
Lemma spelling_isIPv6 ip s h : (0 <= ip)%Z → s ∈ spellings ip → normalized h = s → unwrapBracketedHostname h = h →
  before_char "%" h = s → has_char ":" h = true → isIPv6 h = true.
Proof.
  intros Hip Hs Hn Hu Hb Hc. unfold isIPv6. case_bool_decide as He; [done|]. rewrite Hu Hc Hb. cbn [negb].
  destruct (mapped ip || compatible ip) eqn:Hm; [by destruct He; rewrite (embedded_found ip s)|].
  assert (s = groups_text (groups ip)) as ->.
  { apply orb_false_iff in Hm as [H1 H2]. unfold spellings in Hs. rewrite H1 H2 in Hs. by apply list_elem_of_singleton in Hs. }
  apply andb_true_iff. split.
  - apply bool_decide_eq_true. intros H0. pose proof (groups_text_colon (group ip 112) (group ip 96)
      (group ip <$> [80; 64; 48; 32; 16; 0]%Z)) as H1. change (has_char ":" (groups_text (groups ip)) = true) in H1. by rewrite H0 in H1.
  - eapply all_chars_impl; [|apply groups_text_chars, groups_bounded]. intros a Ha. unfold hex_colon, is_hex in Ha. unfold hex_or_colon.
    destruct (is_digit a); [done|]. cbn [orb] in *. destruct (_ && _)%nat eqn:Hh; [done|].
    cbn [orb] in Ha. by rewrite Ha orb_true_r.
Qed.

(** The leading bits of a private block show in the first characters. *)
Lemma lead_private g r : (64512 <= g < 65024 ∨ 65152 <= g < 65536)%Z →
  existsb (λ p, starts_with p (hex16 g +:+ r)) PRIVATE_PREFIXES = true.
Proof.
  intros Hg. assert (forallb (λ g, existsb (λ p, starts_with p (hex16 g)) PRIVATE_PREFIXES)
    (seqZ 64512 512 ++ seqZ 65152 384) = true) as Hall by by vm_compute.
  rewrite forallb_forall in Hall. specialize (Hall g). apply existsb_elem in Hall as (p & Hp & Hs).
  - apply existsb_elem. exists p. split; [done|]. apply starts_with_spec in Hs as [q ->]. apply starts_with_spec.
    exists (q +:+ r). by rewrite append_assoc.
  - apply list_elem_of_In, elem_of_app. rewrite !elem_of_seqZ. lia.
Qed.

Lemma private_blocks6_text ip : (0 <= ip < 2 ^ 128)%Z → existsb (in_block 128 ip) private_blocks6 = true →
  ip = 0%Z ∨ ip = 1%Z ∨ (64512 <= group ip 112 < 65024 ∨ 65152 <= group ip 112 < 65536)%Z.
Proof.
  intros Hip Hp. destruct (group_value ip 112) as [Hg _]; [lia|]. rewrite Hg.
  unfold private_blocks6, in_block in Hp. cbn [existsb fst snd] in Hp. rewrite !orb_true_iff !Z.eqb_eq in Hp.
  rewrite !(Z.shiftr_div_pow2 ip) // in Hp.
  repeat match type of Hp with context [Z.shiftr ?x ?k] =>
    let v := eval vm_compute in (Z.shiftr x k) in change (Z.shiftr x k) with v in Hp end.
  cbn in *. Z.to_euclidean_division_equations. lia.
Qed.

(** Every spelling of a private address, in brackets or with a zone as well, is held
    for private. *)
Theorem private_addresses_are_caught ip s h : (0 <= ip < 2 ^ 128)%Z → private6 ip = true → s ∈ spellings ip → written s h →
  isPrivateOrLocalHost h = true.
Proof.
  intros Hip Hp Hs Hw. destruct (spelling_text ip s Hs) as [Hc Hcolon].
  unfold isPrivateOrLocalHost. destruct (written_host s h Hc Hw) as (Hh & Hb & Hn & Hu).
  set (host := string_map to_lower (unwrapBracketedHostname h)) in *.
  assert (has_char ":" host = true) as Hhc.
  { destruct Hh as [->|[z ->]]; [done|by rewrite has_char_app Hcolon]. }
  case_match; [done|]. case_match; [done|]. rewrite colon_no_IPv4 // (spelling_isIPv6 ip s) //; [|lia].
  unfold isPrivateIPv6. rewrite Hn. destruct (mapped ip || compatible ip) eqn:Hm.
  - case_match; [done|]. case_match; [done|]. rewrite (embedded_found ip s) //; [|lia].
    destruct (quad_private_low ip) as [_ ->]; [lia|]. unfold private6 in Hp. rewrite Hm in Hp. cbn [andb] in Hp.
    destruct (private4 _) eqn:H4; [done|]. rewrite orb_false_r in Hp.
    apply private_blocks6_text in Hp; [|done]. exfalso. revert Hm Hp. unfold mapped, compatible.
    destruct (group_value ip 112) as [-> _]; [lia|]. rewrite Z.shiftr_div_pow2 //.
    rewrite orb_true_iff andb_true_iff !Z.eqb_eq Z.leb_le. cbn. intros. Z.to_euclidean_division_equations. lia.
  - unfold private6 in Hp. rewrite Hm orb_false_r in Hp.
    assert (s = groups_text (groups ip)) as ->.
    { apply orb_false_iff in Hm as [H1 H2]. unfold spellings in Hs. rewrite H1 H2 in Hs. by apply list_elem_of_singleton in Hs. }
    apply private_blocks6_text in Hp as [-> | [-> | Hg]]; [done|done| |done].
    assert (group ip 112 ≠ 0%Z) as Hne by lia. unfold groups. cbn [fmap list_fmap].
    destruct (groups_text_head (group ip 112) (group ip <$> [96; 80; 64; 48; 32; 16; 0]%Z) Hne) as [r Hr].
    cbn [fmap list_fmap] in Hr. rewrite Hr lead_private //. by case_match.
Qed.

(** ** Public addresses pass *)

(** An address is none of the local names. *)
Lemma address_no_name s : all_chars address_char s = true →
  isPrivateOrLocalHost s = if bool_decide (s = "0.0.0.0") then true
                           else if isIPv4 s then isPrivateIPv4 s else if isIPv6 s then isPrivateIPv6 s else false.
Proof.
  intros Hs. unfold isPrivateOrLocalHost. rewrite unwrap_plain ?address_lower //; [|by apply address_plain].
  assert (∀ p, p ∈ ["localhost"; "localhost.localdomain"; ".localhost"; ".local"; "metadata.google.internal"] →
    ∀ r, s ≠ r +:+ p) as Hl.
  { intros p Hp r ->. rewrite all_chars_app in Hs. apply andb_true_iff in Hs as [_ Hs].
    apply (all_chars_no _ "l") in Hs; [|done]. by repeat (apply elem_of_cons in Hp as [->|Hp]; [done|]); apply elem_of_nil in Hp. }
  assert (∀ p, p ∈ [".localhost"; ".local"] → ends_with p s = false) as He.
  { intros p Hp. apply bool_decide_eq_false. intros [r Hr]. apply before_suffix_some in Hr.
    apply (Hl p) in Hr; [done|]. set_solver. }
  rewrite !He; [|set_solver..]. rewrite !orb_false_r.
  rewrite (bool_decide_eq_false_2 (s = "metadata.google.internal")); [|by apply (Hl "metadata.google.internal" ltac:(set_solver) EmptyString)].
  assert (bool_decide (s ∈ ["localhost"; "localhost.localdomain"; "0.0.0.0"]) = bool_decide (s = "0.0.0.0")) as ->; [|done].
  apply bool_decide_ext. rewrite !elem_of_cons elem_of_nil.
  pose proof (Hl "localhost" ltac:(set_solver) EmptyString). pose proof (Hl "localhost.localdomain" ltac:(set_solver) EmptyString).
  naive_solver.
Qed.

(** The text of a quad is judged as its number is: by the blocks. *)
Theorem quads_are_judged_exactly a b c d : is_octet a → is_octet b → is_octet c → is_octet d →
  isPrivateOrLocalHost (quad_text a b c d) = private4 (addr4 a b c d).
Proof.
  intros Ha Hb Hc Hd. rewrite address_no_name.
  - rewrite quad_isIPv4 // quad_private // (private_pair_blocks a b c d) //. case_bool_decide as Hz; [|done].
    pose proof (split_quad a b c d Ha Hb Hc Hd) as Hs. rewrite Hz in Hs.
    injection Hs as H1 H2 H3 H4. apply (f_equal Number) in H1. destruct (octet_text a Ha) as (_ & Hn & _).
    rewrite -H1 in Hn. injection Hn as <-. rewrite -(private_pair_blocks 0 b c d) //.
  - unfold quad_text.
    assert (∀ n, is_octet n → all_chars address_char (pretty n) = true) as H.
    { intros n Hn. destruct (octet_text n Hn) as (_ & _ & Ht & _). revert Ht. apply all_chars_impl.
      intros x Hx. unfold address_char, is_hex. by rewrite Hx. }
    by rewrite !all_chars_app !H.
Qed.

Lemma lead_public g : (8192 <= g < 16384)%Z →
  ∃ a r, hex16 g = String a r ∧ (a = "2" ∨ a = "3")%char.
Proof.
  intros Hg. assert (forallb (λ g, match hex16 g with String a _ => bool_decide (a = "2" ∨ a = "3")%char | _ => false end)
    (seqZ 8192 8192) = true) as Hall by by vm_compute.
  rewrite forallb_forall in Hall. specialize (Hall g ltac:(apply list_elem_of_In, elem_of_seqZ; lia)).
  destruct (hex16 g) as [|a r]; [done|]. exists a, r. split; [done|]. by apply bool_decide_eq_true in Hall.
Qed.

(** The addresses handed out to the public network, 2000::/3, pass in every
    spelling. *)
Theorem global_addresses_pass ip s : (0 <= ip < 2 ^ 128)%Z → in_block 128 ip (addr6 8192, 3%Z) = true → s ∈ spellings ip →
  isPrivateOrLocalHost s = false ∧ isPrivateOrLocalHost (String "[" (s +:+ "]")) = false.
Proof.
  intros Hip Hb Hs. destruct (spelling_text ip s Hs) as [Hc Hcolon].
  assert (8192 <= group ip 112 < 16384 ∧ mapped ip = false ∧ compatible ip = false)%Z as (Hg & Hm & Hcp).
  { unfold in_block in Hb. cbn [fst snd] in Hb. apply Z.eqb_eq in Hb. rewrite (Z.shiftr_div_pow2 ip) // in Hb.
    replace (Z.shiftr (addr6 8192) (128 - 3)) with 1%Z in Hb by by vm_compute. cbn in Hb.
    destruct (group_value ip 112) as [-> _]; [lia|]. unfold mapped, compatible. rewrite !Z.shiftr_div_pow2 //.
    rewrite andb_false_iff !Z.eqb_neq. cbn. split_and!; [..|left]; Z.to_euclidean_division_equations; lia. }
  assert (isPrivateOrLocalHost s = false) as Hp.
  { unfold spellings in Hs. rewrite Hm Hcp in Hs. apply list_elem_of_singleton in Hs.
    assert (∃ a r, s = String a r ∧ (a = "2" ∨ a = "3")%char) as (a & r & Hsa & Ha).
    { destruct (lead_public _ Hg) as (a & r & Hr & Ha).
      destruct (groups_text_head (group ip 112) (group ip <$> [96; 80; 64; 48; 32; 16; 0]%Z) ltac:(lia)) as [q Hq].
      exists a, (r +:+ q). split; [|done]. rewrite Hs. change (groups ip) with (group ip 112 :: (group ip <$> [96; 80; 64; 48; 32; 16; 0]%Z)).
      by rewrite Hq Hr. }
    rewrite address_no_name // bool_decide_eq_false_2; [|by intros ->]. rewrite colon_no_IPv4 //.
    case_match; [|done]. unfold isPrivateIPv6, extractEmbeddedIPv4FromIPv6.
    assert (normalized s = s) as ->.
    { unfold normalized. rewrite unwrap_plain; [|by apply address_plain]. rewrite before_char_none ?address_lower //.
      by eapply all_chars_no. }
    clear -Hsa Ha. rewrite Hsa !first_match_cases. destruct Ha as [-> | ->]; reflexivity. }
  split; [done|]. revert Hp. unfold isPrivateOrLocalHost. cbv zeta. rewrite (unwrap_brackets s) (unwrap_plain s) //. by apply address_plain.
Qed.

(** ** Resolution *)

(** Of a host, one address or more are returned only when none of them is private,
    unless the caller asked for the private network; each is the host itself, when it
    is an address, or one of its resolver's answers. *)
Lemma resolution_spec hostname resolve allow : let r := resolveRequestAddress hostname resolve allow in
  (∀ s, s ∈ addresses r → (allow = false → isPrivateOrLocalHost s = false) ∧
     (s = unwrapBracketedHostname hostname ∧ isIPv4 s || isIPv6 s = true ∨
      ∃ x, x ∈ resolve (unwrapBracketedHostname hostname) ∧ s = unwrapBracketedHostname x)) ∧
  (∀ s, blockedAddress r = Some s → allow = false ∧ isPrivateOrLocalHost s = true ∧ addresses r = []).
Proof.
  cbn. unfold resolveRequestAddress. set (host := unwrapBracketedHostname hostname).
  destruct (isIPv4 host || isIPv6 host) eqn:Hlit.
  - destruct (negb allow && isPrivateOrLocalHost host) eqn:Hp; cbn.
    + apply andb_true_iff in Hp as [Ha%negb_true_iff Hp]. split; [by intros s ?%elem_of_nil|by intros s [= <-]].
    + split; [|done]. intros s ->%list_elem_of_singleton. split; [intros ->; by cbn in Hp|left; by split].
  - set (found := js_set _). assert (∀ s, s ∈ found → ∃ x, x ∈ resolve host ∧ s = unwrapBracketedHostname x) as Hf.
    { intros s Hs. unfold found in Hs. rewrite elem_of_js_set in Hs. apply list_elem_of_fmap in Hs as (x & -> & Hx). eauto. }
    destruct found as [|f fs] eqn:Hfound; [cbn; split; [by intros s ?%elem_of_nil|done]|]. rewrite -Hfound in Hf |- *.
    destruct allow.
    + cbn. split; [|done]. intros s Hs. split; [done|]. right. by apply Hf.
    + destruct (List.find isPrivateOrLocalHost found) as [x|] eqn:Hx; cbn.
      * split; [by intros s ?%elem_of_nil|]. intros s [= <-]. by apply find_some in Hx as [_ Hx].
      * split; [|done]. intros s Hs. split; [|right; by apply Hf]. intros _.
        by apply (find_none _ _ Hx), list_elem_of_In.
Qed.

(** ** What a socket is given *)

(** A text that no private address is written with, as it stands or with a zone. *)
Definition public_text (d : string) : Prop :=
  (∀ a b c d', is_octet a → is_octet b → is_octet c → is_octet d' → d = quad_text a b c d' → private4 (addr4 a b c d') = false) ∧
  (∀ ip s, (0 <= ip < 2 ^ 128)%Z → s ∈ spellings ip → d = s ∨ (∃ z, d = s +:+ String "%" z) → private6 ip = false).

Lemma not_private_public s : isPrivateOrLocalHost s = false → public_text (unwrapBracketedHostname s).
Proof.
  intros Hs. assert (∀ d, unwrapBracketedHostname s = d → unbracketed d → isPrivateOrLocalHost d = false) as Hd.
  { intros d Hu Hp. revert Hs. unfold isPrivateOrLocalHost. cbv zeta. by rewrite Hu (unwrap_plain d). }
  split.
  - intros a b c d Ha Hb Hc Hd' He. rewrite -quads_are_judged_exactly //. apply Hd; [done|].
    intros r Hr. pose proof (quad_isIPv4 a b c d Ha Hb Hc Hd') as Hq. rewrite Hr in Hq. revert Hq. unfold isIPv4.
    change (split_on "." (String "[" r)) with (cons_char "[" (split_on "." r)). destruct (split_on "." r) as [|w l]; cbn [cons_char forallb List.length]; [done|].
    by rewrite andb_false_r.
  - intros ip t Hip Ht Hw. destruct (private6 ip) eqn:Hp; [|done]. destruct (spelling_text ip t Ht) as [Hc _].
    assert (∀ h, written t h → isPrivateOrLocalHost h = true) as H by (intros h; by apply (private_addresses_are_caught ip)).
    destruct Hw as [Hw|[z Hw]].
    + specialize (H t (written_plain t)). rewrite (Hd t Hw) in H; [done|by apply address_plain].
    + specialize (H _ (written_zone t z)). rewrite (Hd _ Hw) in H; [done|by apply address_unbracketed].
Qed.
