(* ===== verification/WebFetch.v ===== *)
(** * Fetching pages

    [executeWebFetch] of [assistant/src/tools/network/web-fetch.ts]: the addresses a
    page is asked from, through redirects; the gate in front of hosted scrapers
    ([canRouteToHostedScraper]); and the guard of the requests a local browser makes,
    [executeBrowserNavigate] of [tools/browser/browser-execution.ts].  Hosts are
    judged and resolved by [UrlSafety].

    The parser of URLs is an argument, [new URL(text, base)]; what the resolver and
    the servers answer is a [World], which may answer otherwise every time.  The
    text made of the page is not modelled. *)

From S2P Require Import Prelude JsMap JsText UrlSafety.
Local Open Scope string_scope.
Local Open Scope litt_scope.

(** ** URLs *)

Record Url := { href : string; protocol : string; url_host : string }.

Definition is_web (u : Url) : bool := bool_decide (protocol u = "http:") || bool_decide (protocol u = "https:").

Fixpoint drop_digits (s : string) : string :=
  match s with
  | String a r => if is_digit a then drop_digits r else s
  | EmptyString => s
  end.

(** [\d+(?:[/?#]|$)] *)
Definition port_follows (s : string) : bool :=
  match s with
  | String a r =>
      is_digit a && match drop_digits r with
                    | EmptyString => true
                    | String b _ => bool_decide (b ∈ ["/"; "?"; "#"]%char)
                    end
  | EmptyString => false
  end.

Definition bracketed_char (a : ascii) : bool :=
  hex_or_colon a || bool_decide (a = "."%char) || bool_decide (a = "%"%char).

Definition host_char (a : ascii) : bool :=
  negb (is_space a || bool_decide (a ∈ ["/"; "?"; "#"; "@"; ":"]%char)).

Definition looksLikeHostPortShorthand (value : string) : bool :=
  match value with
  | String "[" rest =>
      let inner := before_char "]" rest in
      bool_decide (inner ≠ EmptyString) && all_chars bracketed_char inner &&
      match after_char "]" rest with Some (String ":" r) => port_follows r | _ => false end
  | _ => false
  end ||
  (bool_decide (before_char ":" value ≠ EmptyString) && all_chars host_char (before_char ":" value) &&
   match after_char ":" value with Some r => port_follows r | None => false end).

Definition looksLikePathOnlyInput (value : string) : bool :=
  existsb (λ p, starts_with p value) ["/"; "./"; "../"; "?"; "#"].

(** [/^[a-zA-Z][a-zA-Z0-9+.-]*:/] *)
Definition has_scheme (value : string) : bool :=
  has_char ":" value &&
  match before_char ":" value with
  | String a r => (is_upper a || is_lower a) &&
      all_chars (λ b, is_upper b || is_lower b || is_digit b || bool_decide (b ∈ ["+"; "."; "-"]%char)) r
  | EmptyString => false
  end.

Section fetch.
(** [new URL(text, base)]; [None] when it throws. *)
Context (new_URL : string → option Url → option Url).

Definition parseUrl (input : option string) : option Url :=
  match input with
  | None => None
  | Some input =>
      let value := js_trim input in
      if bool_decide (value = EmptyString) then None
      else if looksLikeHostPortShorthand value then new_URL ("https://" +:+ value) None
      else match new_URL value None with
           | Some u => Some u
           | None => if looksLikePathOnlyInput value then None
                     else if has_scheme value then None
                     else new_URL ("https://" +:+ value) None
           end
  end.

(** ** The world *)

(** How one request ends: the signal fires, it fails, or a server answers with a
    status and a [Location]. *)
Inductive Attempt := aborts | fails | answers (status : Z) (location : option string).

(** The answers to the n-th lookup and to the n-th request, and whether the signal
    fires while the n-th lookup is awaited. *)
Record World := {
  lookup_host : nat → string → list string;
  aborted : nat → bool;
  serve : nat → Url → option string → Attempt;
}.

Context (w : World).

(** A request as it is given to the executor. *)
Record Request := { req_redirects : nat; req_url : Url; req_address : option string }.

(** The address the socket is opened to; [None] when the request is left to [fetch],
    which resolves the name itself. *)
Definition dialled (r : Request) : option string :=
  match req_address r with
  | Some a => if bool_decide (a = EmptyString) then None else Some (unwrapBracketedHostname a)
  | None => None
  end.

(** ** The fetcher *)

Definition MAX_REDIRECTS : nat := 10.

Inductive Why :=
  | invalid_url | unsupported_protocol | private_target | private_address (address : string) | unresolved
  | no_response | too_many_redirects | invalid_location | redirect_protocol | redirect_private
  | redirect_private_address (address : string) | redirect_unresolved | cancelled | failed.

Inductive Outcome :=
  | refused (why : Why) (redirectCount : nat)
  | page (url : Url) (status : Z) (redirectCount : nat)
  | threw.

Inductive Tried := nothing_tried | thrown (abort : bool) | got (status : Z) (location : option string).

(** The addresses are tried in order until one answers. *)
Fixpoint try_addresses (count : nat) (url : Url) (addressesToTry : list (option string)) (sent : list Request)
    : list Request * Tried :=
  match addressesToTry with
  | [] => (sent, nothing_tried)
  | address :: rest =>
      let sent' := (sent ++ [{| req_redirects := count; req_url := url; req_address := address |}])%list in
      match serve w (List.length sent) url address with
      | answers status location => (sent', got status location)
      | aborts => (sent', thrown true)
      | fails => match rest with
                 | [] => (sent', thrown false)
                 | _ => try_addresses count url rest sent'
                 end
      end
  end.

Definition isRedirect (status : Z) (location : option string) : bool :=
  (300 <=? status)%Z && (status <? 400)%Z && truthy location.

(** The loop; [more] counts the redirects that may still be followed, [lookups] those
    made. *)
Fixpoint follow (allowPrivateNetwork : bool) (more : nat) (currentUrl : Url) (resolved : option (list string))
    (lookups : nat) (sent : list Request) : list Request * Outcome :=
  let redirectCount := MAX_REDIRECTS - more in
  let addressesToTry := match resolved with Some (a :: l) => Some <$> (a :: l) | _ => [None] end in
  let '(sent, tried) := try_addresses redirectCount currentUrl addressesToTry sent in
  match tried with
  | nothing_tried => (sent, refused no_response redirectCount)
  | thrown abort => (sent, refused (if abort then cancelled else failed) redirectCount)
  | got status location =>
      if negb (isRedirect status location) then (sent, page currentUrl status redirectCount)
      else match more with
           | O => (sent, refused too_many_redirects redirectCount)
           | S more =>
               match new_URL (location otherwise EmptyString) (Some currentUrl) with
               | None => (sent, refused invalid_location redirectCount)
               | Some nextUrl =>
                   if negb (is_web nextUrl) then (sent, refused redirect_protocol redirectCount)
                   else if allowPrivateNetwork then follow allowPrivateNetwork more nextUrl None lookups sent
                   else if isPrivateOrLocalHost (url_host nextUrl) then (sent, refused redirect_private redirectCount)
                   else if aborted w lookups then (sent, refused cancelled redirectCount)
                   else let resolution := resolveRequestAddress (url_host nextUrl) (lookup_host w lookups) false in
                        match blockedAddress resolution with
                        | Some a => (sent, refused (redirect_private_address a) redirectCount)
                        | None =>
                            match addresses resolution with
                            | [] => (sent, refused redirect_unresolved redirectCount)
                            | l => follow allowPrivateNetwork more nextUrl (Some l) (S lookups) sent
                            end
                        end
               end
           end
  end.

Definition executeWebFetch (input : option string) (allowPrivateNetwork : bool) : list Request * Outcome :=
  match parseUrl input with
  | None => ([], refused invalid_url 0)
  | Some parsedUrl =>
      if negb (is_web parsedUrl) then ([], refused unsupported_protocol 0)
      else if negb allowPrivateNetwork && isPrivateOrLocalHost (url_host parsedUrl) then ([], refused private_target 0)
      else match new_URL (href parsedUrl) None with
           | None => ([], threw)
           | Some currentUrl =>
               if allowPrivateNetwork then follow allowPrivateNetwork MAX_REDIRECTS currentUrl None 0 []
               else if aborted w 0 then ([], refused cancelled 0)
               else let resolution := resolveRequestAddress (url_host currentUrl) (lookup_host w 0) false in
                    match blockedAddress resolution with
                    | Some a => ([], refused (private_address a) 0)
                    | None =>
                        match addresses resolution with
                        | [] => ([], refused unresolved 0)
                        | l => follow allowPrivateNetwork MAX_REDIRECTS currentUrl (Some l) 1 []
                        end
                    end
           end
  end.

(** ** The gate of the hosted scrapers *)

Definition canRouteToHostedScraper (input : option string) (allow_private_network : bool) : bool :=
  if allow_private_network then false
  else match parseUrl input with
       | None => false
       | Some parsed =>
           if negb (is_web parsed) then false
           else if isPrivateOrLocalHost (url_host parsed) then false
           else let resolution := resolveRequestAddress (url_host parsed) (lookup_host w 0) false in
                negb (bool_decide (is_Some (blockedAddress resolution))) && bool_decide (addresses resolution ≠ [])
       end.
End fetch.

(** ** The guard of a browser's requests *)

Section browser.
Context (new_URL : string → option Url → option Url).

(** What [executeBrowserNavigate] checks before it opens a session: [None] when it goes
    on. *)
Definition before_navigation (input : option string) (allowPrivateNetwork : bool) (resolveHost : string → list string)
    : option Why :=
  match parseUrl new_URL input with
  | None => Some invalid_url
  | Some parsedUrl =>
      if negb (is_web parsedUrl) then Some unsupported_protocol
      else if negb allowPrivateNetwork && isPrivateOrLocalHost (url_host parsedUrl) then Some private_target
      else if allowPrivateNetwork then None
      else private_address <$> blockedAddress (resolveRequestAddress (url_host parsedUrl) resolveHost allowPrivateNetwork)
  end.

(** Whether the page it ended on is left again. *)
Definition after_navigation (finalUrl : string) (allowPrivateNetwork : bool) (resolveHost : string → list string) : bool :=
  if allowPrivateNetwork then false
  else match parseUrl new_URL (Some finalUrl) with
       | None => false
       | Some finalParsed =>
           isPrivateOrLocalHost (url_host finalParsed) ||
           bool_decide (is_Some (blockedAddress (resolveRequestAddress (url_host finalParsed) resolveHost false)))
       end.
End browser.

Definition DNS_CACHE_TTL_MS : Z := 5000.

Record Cached := { resolution : Resolution; cachedAt : Z }.

(** The handler's cache and the requests whose lookup it awaits, with the time they
    came. *)
Record Routes := { dnsCache : jsmap string Cached; waiting : jsmap nat (string * Z) }.

Inductive Verdict := continues | blocked.

(** A request arrives, with its host unless its URL does not parse; or the lookup of
    one that waits is answered. *)
Inductive RouteEvent :=
  | arrives (id : nat) (now : Z) (host : option string)
  | resolves (id : nat) (resolveHost : string → list string).

Definition route_verdict (r : Resolution) : Verdict :=
  match blockedAddress r with Some _ => blocked | None => continues end.

(** [routeHandler], split where it awaits. *)
Definition route_step (s : Routes) (e : RouteEvent) : Routes * option (nat * Verdict) :=
  match e with
  | arrives id now None => (s, Some (id, continues))
  | arrives id now (Some host) =>
      if isPrivateOrLocalHost host then (s, Some (id, blocked))
      else
        let '(cache, cached) :=
          match dnsCache s !! host with
          | Some c => if (DNS_CACHE_TTL_MS <? now - cachedAt c)%Z then (delete host (dnsCache s), None) else (dnsCache s, Some c)
          | None => (dnsCache s, None)
          end in
        match cached with
        | Some c => ({| dnsCache := cache; waiting := waiting s |}, Some (id, route_verdict (resolution c)))
        | None => ({| dnsCache := cache; waiting := <[id := (host, now)]> (waiting s) |}, None)
        end
  | resolves id resolveHost =>
      match waiting s !! id with
      | None => (s, None)
      | Some (host, now) =>
          let res := resolveRequestAddress host resolveHost false in
          let cache := match blockedAddress res with
                       | Some _ => dnsCache s
                       | None => <[host := {| resolution := res; cachedAt := now |}]> (dnsCache s)
                       end in
          ({| dnsCache := cache; waiting := delete id (waiting s) |}, Some (id, route_verdict res))
      end
  end.

Definition no_routes : Routes := {| dnsCache := ∅; waiting := ∅ |}.

(** The handler after the events of a navigation. *)
Definition routes_after (events : list RouteEvent) : Routes := foldl (λ s e, (route_step s e).1) no_routes events.

(** ** What is asked, and where *)

Section fetched.
Context (new_URL : string → option Url → option Url) (w : World).

(** An address the resolution of the request's host let through. *)
Definition guarded (r : Request) : Prop :=
  (req_redirects r ≤ MAX_REDIRECTS)%nat ∧ is_web (req_url r) = true ∧ isPrivateOrLocalHost (url_host (req_url r)) = false ∧
  ∃ s n, req_address r = Some s ∧ s ∈ addresses (resolveRequestAddress (url_host (req_url r)) (lookup_host w n) false).

Lemma try_spec count url addrs sent sent' t : try_addresses w count url addrs sent = (sent', t) →
  ∃ new, sent' = (sent ++ new)%list ∧ (addrs ≠ [] → new ≠ []) ∧
    Forall (λ r, req_redirects r = count ∧ req_url r = url ∧ req_address r ∈ addrs) new.
Proof.
  revert sent. induction addrs as [|a addrs IH]; intros sent; cbn [try_addresses].
  { intros [= <- _]. exists []. by rewrite app_nil_r. }
  set (r := {| req_redirects := count; req_url := url; req_address := a |}).
  assert (∀ t', (sent ++ [r], t')%list = (sent', t) → ∃ new, sent' = (sent ++ new)%list ∧ (a :: addrs ≠ [] → new ≠ []) ∧
    Forall (λ r, req_redirects r = count ∧ req_url r = url ∧ req_address r ∈ a :: addrs) new) as Hone.
  { intros t' [= <- _]. exists [r]. split_and!; [done|done|]. apply Forall_singleton. by repeat constructor. }
  destruct (serve w _ url a) as [| |status location]; [apply Hone| |apply Hone].
  destruct addrs as [|b addrs]; [apply Hone|]. intros (new & -> & _ & Hf)%IH. exists (r :: new).
  split_and!; [by rewrite -app_assoc|done|]. constructor; [by repeat constructor|].
  eapply Forall_impl; [exact Hf|]. intros x (? & ? & ?). split_and!; [done|done|by right].
Qed.

(** The answer that was got came to the last request. *)
Lemma try_got count url addrs sent sent' status location :
  try_addresses w count url addrs sent = (sent', got status location) →
  ∃ pre address, sent' = (pre ++ [{| req_redirects := count; req_url := url; req_address := address |}])%list ∧
    serve w (List.length pre) url address = answers status location.
Proof.
  revert sent. induction addrs as [|a addrs IH]; intros sent; cbn [try_addresses]; [done|].
  destruct (serve w (List.length sent) url a) as [| |st loc] eqn:Hs.
  - done.
  - destruct addrs; [done|]. apply IH.
  - intros [= <- -> ->]. by exists sent, a.
Qed.

Lemma follow_guarded more url resolved lookups sent n :
  (more ≤ MAX_REDIRECTS)%nat → is_web url = true → isPrivateOrLocalHost (url_host url) = false →
  resolved ≠ [] → (∀ s, s ∈ resolved → s ∈ addresses (resolveRequestAddress (url_host url) (lookup_host w n) false)) →
  Forall guarded sent → Forall guarded (follow new_URL w false more url (Some resolved) lookups sent).1.
Proof.
  revert url resolved lookups sent n. induction more as [|more IH]; intros url resolved lookups sent n Hl Hw Hp Hne Hr Hsent;
    cbn [follow]; (destruct resolved as [|a l]; [done|]);
    destruct (try_addresses w _ url _ sent) as [sent' t] eqn:Ht;
    (assert (Forall guarded sent') as Hs';
     [apply try_spec in Ht as (new & -> & _ & Hf); apply Forall_app; split; [done|];
      eapply Forall_impl; [exact Hf|]; intros r (Hc & Hu & Ha); unfold guarded; rewrite Hc Hu;
      split_and!; [lia|done|done|]; apply list_elem_of_fmap in Ha as (s & Hs & ?); exists s, n; split; [done|by apply Hr]|]);
    destruct t as [|abort|status location]; try done; (destruct (negb (isRedirect status location)); [done|]); [done|].
  destruct (new_URL _ _) as [next|]; [|done].
  destruct (is_web next) eqn:Hwn; [|done]. cbn [negb].
  destruct (isPrivateOrLocalHost (url_host next)) eqn:Hpn; [done|].
  destruct (aborted w lookups); [done|].
  destruct (blockedAddress _); [done|]. destruct (addresses (resolveRequestAddress (url_host next) _ false)) as [|b k] eqn:Ha; [done|].
  apply (IH next _ _ _ lookups); try done; [lia|]. intros s Hs. by rewrite Ha.
Qed.

(** The text of a URL parses to that URL. *)
Definition reparses : Prop := ∀ text base u, new_URL text base = Some u → new_URL (href u) None = Some u.

Lemma parseUrl_reparses input u : reparses → parseUrl new_URL input = Some u → new_URL (href u) None = Some u.
Proof.
  intros Hr. unfold parseUrl. destruct input as [input|]; [|done]. repeat case_match; try done; intros H'; try (by eapply Hr).
  simplify_eq. by eapply Hr.
Qed.

Lemma fetch_guarded input : reparses → Forall guarded (executeWebFetch new_URL w input false).1.
Proof.
  intros Hr. unfold executeWebFetch. destruct (parseUrl new_URL input) as [u|] eqn:Hu; [|by constructor].
  destruct (is_web u) eqn:Hw; [|by constructor]. cbn [negb andb].
  destruct (isPrivateOrLocalHost (url_host u)) eqn:Hp; [by constructor|]. rewrite (parseUrl_reparses input u) //.
  destruct (aborted w 0); [by constructor|]. destruct (blockedAddress _); [by constructor|].
  destruct (addresses (resolveRequestAddress (url_host u) _ false)) as [|a l] eqn:Ha; [by constructor|].
  apply (follow_guarded _ u (a :: l) _ _ 0%nat); try done. intros s Hs. by rewrite Ha.
Qed.

(** The resolver answers with addresses, which are not empty and have no brackets. *)
Definition answers_addresses : Prop := ∀ n host x, x ∈ lookup_host w n host → x ≠ EmptyString ∧ unbracketed x.

(** C20 — Without the permission for the private network, every request of a fetch, the
    first and those that follow redirects, is for an http or https URL whose host is no
    private name, and is sent to an address that was fixed when the host was resolved:
    the host itself or an answer of the resolver for it.  No private address, IPv4 or
    IPv6, mapped or compatible ones included, is written that way, so none is ever
    asked, whatever the resolver and the servers answer and however often they change
    their answers; and at most ten redirects are followed. *)
Theorem fetches_stay_public input r : reparses → answers_addresses → r ∈ (executeWebFetch new_URL w input false).1 →
  ∃ d, dialled r = Some d ∧ public_text d ∧
    (d = unwrapBracketedHostname (unwrapBracketedHostname (url_host (req_url r))) ∨
     ∃ n, d ∈ lookup_host w n (unwrapBracketedHostname (url_host (req_url r)))) ∧
    is_web (req_url r) = true ∧ isPrivateOrLocalHost (url_host (req_url r)) = false ∧ (req_redirects r ≤ MAX_REDIRECTS)%nat.
Proof.
  intros Hre Ha Hin. pose proof (fetch_guarded input Hre) as Hg. rewrite Forall_forall in Hg.
  destruct (Hg r Hin) as (Hc & Hw & Hp & s & n & Hs & Hres).
  destruct (resolution_spec (url_host (req_url r)) (lookup_host w n) false) as [Hspec _].
  destruct (Hspec s Hres) as (Hpub & Hfrom). specialize (Hpub eq_refl).
  assert (s ≠ EmptyString) as Hne.
  { destruct Hfrom as [(-> & Hl)|(x & Hx & ->)]; [by intros He; rewrite He in Hl|].
    destruct (Ha _ _ _ Hx) as [Hxe Hxb]. by rewrite unwrap_plain. }
  exists (unwrapBracketedHostname s). split_and!; try done.
  - unfold dialled. by rewrite Hs bool_decide_eq_false_2.
  - by apply not_private_public.
  - destruct Hfrom as [(-> & _)|(x & Hx & ->)]; [by left|]. right. exists n.
    destruct (Ha _ _ _ Hx) as [_ Hxb]. by rewrite !(unwrap_plain x).
Qed.

Lemma follow_page allow more url resolved lookups sent sent' u status n : (more ≤ MAX_REDIRECTS)%nat →
  follow new_URL w allow more url resolved lookups sent = (sent', page u status n) →
  (n ≤ MAX_REDIRECTS)%nat ∧ ∃ pre address location,
    sent' = (pre ++ [{| req_redirects := n; req_url := u; req_address := address |}])%list ∧
    serve w (List.length pre) u address = answers status location ∧ isRedirect status location = false.
Proof.
  revert url resolved lookups sent. induction more as [|more IH]; intros url resolved lookups sent Hl; cbn [follow];
    destruct (try_addresses w _ url _ sent) as [sent1 t] eqn:Ht; destruct t as [|abort|st location]; try done;
    (destruct (isRedirect st location) eqn:Hr; cbn [negb];
     [|intros [= <- <- <- <-]; split; [unfold MAX_REDIRECTS; lia|]; apply try_got in Ht as (pre & a & -> & Hs); by eexists _, _, _]); [done|].
  destruct (new_URL _ _) as [next|]; [|done]. destruct (negb (is_web next)); [done|].
  destruct allow; [apply IH; lia|]. destruct (isPrivateOrLocalHost _); [done|]. destruct (aborted w lookups); [done|].
  destruct (blockedAddress _); [done|]. destruct (addresses _) as [|b k]; [done|]. apply IH. lia.
Qed.

(** The page is the answer to the last request, which was no redirect and came after at
    most ten. *)
Theorem page_is_the_last_answer input allow sent u status n :
  executeWebFetch new_URL w input allow = (sent, page u status n) →
  (n ≤ MAX_REDIRECTS)%nat ∧ ∃ pre address location,
    sent = (pre ++ [{| req_redirects := n; req_url := u; req_address := address |}])%list ∧
    serve w (List.length pre) u address = answers status location ∧ isRedirect status location = false.
Proof.
  unfold executeWebFetch. destruct (parseUrl new_URL input) as [v|]; [|done]. destruct (negb (is_web v)); [done|].
  destruct (negb allow && isPrivateOrLocalHost (url_host v)); [done|]. destruct (new_URL (href v) None) as [c|]; [|done].
  destruct allow; [by apply follow_page|]. destruct (aborted w 0); [done|]. destruct (blockedAddress _); [done|].
  destruct (addresses _) as [|b k]; [done|]. by apply follow_page.
Qed.

Lemma follow_sends allow more url resolved lookups sent :
  (follow new_URL w allow more url resolved lookups sent).1 ≠ [].
Proof.
  assert (∀ count addrs s t, addrs ≠ [] → try_addresses w count url addrs sent = (s, t) → s ≠ []) as Htry.
  { intros count addrs s t Hne (new & -> & Hnew & _)%try_spec [_ H]%app_eq_nil. by destruct (Hnew Hne). }
  assert (∀ more url resolved lookups sent, sent ≠ [] → (follow new_URL w allow more url resolved lookups sent).1 ≠ []) as Hkeep.
  { clear. intros more. induction more as [|more IH]; intros url resolved lookups sent Hs; cbn [follow];
      destruct (try_addresses w _ url _ sent) as [s t] eqn:Ht;
      (assert (s ≠ []) as Hne by (apply try_spec in Ht as (new & -> & _); by intros [? _]%app_eq_nil));
      destruct t as [|abort|st location]; try done; (destruct (negb (isRedirect st location)); [done|]); [done|].
    destruct (new_URL _ _) as [next|]; [|done]. destruct (negb (is_web next)); [done|]. destruct allow; [by apply IH|].
    destruct (isPrivateOrLocalHost _); [done|]. destruct (aborted w lookups); [done|].
    destruct (blockedAddress _); [done|]. destruct (addresses _) as [|b k]; [done|]. by apply IH. }
  destruct more as [|more]; cbn [follow];
    destruct (try_addresses w _ url _ sent) as [s t] eqn:Ht;
    (assert (s ≠ []) as Hne by (apply Htry in Ht; [done|by destruct resolved as [[|]|]]));
    destruct t as [|abort|st location]; try done; (destruct (negb (isRedirect st location)); [done|]); [done|].
  destruct (new_URL _ _) as [next|]; [|done]. destruct (negb (is_web next)); [done|]. destruct allow; [by apply Hkeep|].
  destruct (isPrivateOrLocalHost _); [done|]. destruct (aborted w lookups); [done|].
  destruct (blockedAddress _); [done|]. destruct (addresses _) as [|b k]; [done|]. by apply Hkeep.
Qed.

(** A URL goes to a hosted scraper exactly when the fetcher itself would have asked for
    it, at the same answers of the resolver. *)
Theorem scraper_gate_is_the_fetchers input allow : reparses → aborted w 0 = false →
  canRouteToHostedScraper new_URL w input allow = true ↔ allow = false ∧ (executeWebFetch new_URL w input allow).1 ≠ [].
Proof.
  intros Hr Hab. unfold canRouteToHostedScraper, executeWebFetch. destruct allow; [naive_solver|].
  destruct (parseUrl new_URL input) as [u|] eqn:Hu; [|naive_solver]. destruct (negb (is_web u)); [naive_solver|].
  cbn [negb andb]. destruct (isPrivateOrLocalHost (url_host u)); [naive_solver|]. rewrite (parseUrl_reparses input u) // Hab.
  destruct (blockedAddress _); [naive_solver|]. rewrite bool_decide_eq_false_2; [|by intros [? ?]]. cbn [negb andb].
  destruct (addresses _) as [|a l]; [naive_solver|]. split; [|done]. intros _. split; [done|]. apply follow_sends.
Qed.
End fetched.

(** ** What a browser may ask *)

(** The host was looked up for a request that came at [t]. *)
Definition looked_up (events : list RouteEvent) (host : string) (t : Z) (res : Resolution) : Prop :=
  ∃ id answers, arrives id t (Some host) ∈ events ∧ resolves id answers ∈ events ∧ res = resolveRequestAddress host answers false.

Definition routes_inv (events : list RouteEvent) (s : Routes) : Prop :=
  (∀ host c, dnsCache s !! host = Some c → blockedAddress (resolution c) = None ∧ looked_up events host (cachedAt c) (resolution c)) ∧
  (∀ id host t, waiting s !! id = Some (host, t) → arrives id t (Some host) ∈ events ∧ isPrivateOrLocalHost host = false).

Lemma looked_up_snoc events e host t res : looked_up events host t res → looked_up (events ++ [e]) host t res.
Proof. intros (id & answers & ? & ? & ?). exists id, answers. split_and!; [by apply elem_of_app; left..|done]. Qed.

Lemma route_step_inv events s e : routes_inv events s → routes_inv (events ++ [e]) (route_step s e).1.
Proof.
  intros [Hcache Hwait].
  assert (routes_inv (events ++ [e]) s) as [Hcache' Hwait'].
  { split; [intros host c Hc|intros id host t Hw].
    - destruct (Hcache host c Hc) as [? ?]. split; [done|by apply looked_up_snoc].
    - destruct (Hwait id host t Hw) as [? ?]. split; [apply elem_of_app; by left|done]. }
  assert (∀ host c, delete host (dnsCache s) !! c = None ∨ delete host (dnsCache s) !! c = dnsCache s !! c) as Hdel.
  { intros host c. rewrite lookup_delete. case_decide; auto. }
  destruct e as [id now [host|]|id answers]; cbn [route_step]; [|done|].
  - destruct (isPrivateOrLocalHost host) eqn:Hp; [done|].
    destruct (match dnsCache s !! host with Some _ => _ | None => _ end) as [cache cached] eqn:Hm.
    assert (∀ h c, cache !! h = Some c → dnsCache s !! h = Some c) as Hsub.
    { intros h c. destruct (dnsCache s !! host) as [c0|]; [case_match|]; simplify_eq; try done.
      by destruct (Hdel host h) as [-> | ->]. }
    destruct cached as [c|]; cbn [fst]; (split; cbn [dnsCache waiting]; [intros h c' Hc; by apply Hcache', Hsub|]); [done|].
    intros i h t. rewrite lookup_insert. case_decide as Hi; [|apply Hwait']. intros [= <- <-]. subst i.
    split; [apply elem_of_app; right; by left|done].
  - destruct (waiting s !! id) as [[host t]|] eqn:Hw; [|done]. destruct (Hwait' _ _ _ Hw) as [Hin Hp].
    split; cbn [fst dnsCache waiting].
    + intros h c. destruct (blockedAddress _) eqn:Hb; [apply Hcache'|]. rewrite lookup_insert.
      case_decide as Hh; [|apply Hcache']. intros [= <-]. subst h. cbn [resolution cachedAt]. split; [done|].
      exists id, answers. split_and!; [done|apply elem_of_app; right; by left|done].
    + intros i h t'. rewrite lookup_delete. case_decide; [done|apply Hwait'].
Qed.

Lemma routes_after_inv events : routes_inv events (routes_after events).
Proof.
  induction events as [|e events IH] using rev_ind; [split; [intros ? ?|intros ? ? ?]; by rewrite lookup_empty|].
  unfold routes_after. rewrite foldl_app. by apply route_step_inv.
Qed.

(** What a lookup that blocked nothing says of its answers. *)
Lemma unblocked_answers host answers : blockedAddress (resolveRequestAddress host answers false) = None →
  isIPv4 (unwrapBracketedHostname host) || isIPv6 (unwrapBracketedHostname host) = true ∨
  ∀ x, x ∈ answers (unwrapBracketedHostname host) → isPrivateOrLocalHost (unwrapBracketedHostname x) = false.
Proof.
  unfold resolveRequestAddress. destruct (_ || _); [by left|]. intros Hb. right. intros x Hx.
  assert (unwrapBracketedHostname x ∈ js_set (unwrapBracketedHostname <$> answers (unwrapBracketedHostname host))) as Hin.
  { apply elem_of_js_set. by apply list_elem_of_fmap_2. }
  destruct (js_set _) as [|f fs]; [by apply elem_of_nil in Hin|].
  destruct (List.find isPrivateOrLocalHost (f :: fs)) eqn:Hf; [done|]. by apply (find_none _ _ Hf), list_elem_of_In.
Qed.

(** However requests and lookups interleave, a request of the page is let through
    only if its URL does not parse, or its host is no private name and was looked up for
    a request that came at most five seconds before it, with no private address among
    the answers. *)
Theorem routed_requests_were_public pre e id : (route_step (routes_after pre) e).2 = Some (id, continues) →
  (∃ now, e = arrives id now None) ∨
  ∃ host now t id' answers, arrives id now (Some host) ∈ (pre ++ [e])%list ∧ isPrivateOrLocalHost host = false ∧
    arrives id' t (Some host) ∈ (pre ++ [e])%list ∧ resolves id' answers ∈ (pre ++ [e])%list ∧ (now - t <= DNS_CACHE_TTL_MS)%Z ∧
    (isIPv4 (unwrapBracketedHostname host) || isIPv6 (unwrapBracketedHostname host) = true ∨
     ∀ x, x ∈ answers (unwrapBracketedHostname host) → isPrivateOrLocalHost (unwrapBracketedHostname x) = false).
Proof.
  destruct (routes_after_inv pre) as [Hcache Hwait]. destruct e as [i now [host|]|i answers]; cbn [route_step].
  - destruct (isPrivateOrLocalHost host) eqn:Hp; [done|].
    destruct (dnsCache (routes_after pre) !! host) as [c|] eqn:Hc; [|done].
    destruct (DNS_CACHE_TTL_MS <? now - cachedAt c)%Z eqn:Ht; [done|]. apply Z.ltb_ge in Ht. cbn [snd]. intros [= -> _]. right.
    destruct (Hcache host c Hc) as (Hb & id' & answers & Ha & Hr & He). exists host, now, (cachedAt c), id', answers.
    split_and!; [apply elem_of_app; right; by left|done|apply elem_of_app; by left..|done|]. apply unblocked_answers. by rewrite -He.
  - intros [= ->]. left. by exists now.
  - destruct (waiting (routes_after pre) !! i) as [[host t]|] eqn:Hw; [|done]. cbn [snd]. intros [= -> Hv]. right.
    destruct (Hwait _ _ _ Hw) as [Ha Hp]. exists host, t, t, id, answers.
    split_and!; [apply elem_of_app; by left|done|apply elem_of_app; by left|apply elem_of_app; right; by left| |].
    + unfold DNS_CACHE_TTL_MS. lia.
    + apply unblocked_answers. unfold route_verdict in Hv. by destruct (blockedAddress _).
Qed.

(** A name the resolver has no answer for is refused by the fetcher and not by the
    browser: the navigation goes on, and so does every request to it. *)
Theorem unresolved_names_are_navigated new_URL w input u :
  reparses new_URL → parseUrl new_URL input = Some u → is_web u = true → isPrivateOrLocalHost (url_host u) = false →
  isIPv4 (unwrapBracketedHostname (url_host u)) || isIPv6 (unwrapBracketedHostname (url_host u)) = false →
  aborted w 0 = false → lookup_host w 0 = (λ _, []) →
  executeWebFetch new_URL w input false = ([], refused unresolved 0) ∧
  before_navigation new_URL input false (λ _, []) = None ∧
  ∀ id now, (route_step (route_step no_routes (arrives id now (Some (url_host u)))).1 (resolves id (λ _, []))).2 = Some (id, continues).
Proof.
  intros Hr Hu Hw Hp Hl Ha Hn.
  assert (resolveRequestAddress (url_host u) (λ _, []) false = {| addresses := []; blockedAddress := None |}) as He.
  { unfold resolveRequestAddress. by rewrite Hl. }
  split_and!.
  - unfold executeWebFetch. rewrite Hu Hw Hp /=. by rewrite (parseUrl_reparses new_URL input u) // Ha Hn He.
  - unfold before_navigation. by rewrite Hu Hw Hp He.
  - intros id now. cbn [route_step]. rewrite Hp. cbn [no_routes dnsCache waiting]. rewrite lookup_empty. cbn [fst waiting].
    rewrite lookup_insert decide_True // He. done.
Qed.

(** ** A fetch *)

Definition site (text scheme host : string) : Url := {| href := text; protocol := scheme; url_host := host |}.

Definition known_sites : list Url :=
  [site "https://pub.example/" "https:" "pub.example"; site "http://[::1]/" "http:" "[::1]"; site "ftp://pub.example/" "ftp:" "pub.example"].

(** A parser that knows three URLs. *)
Definition sample_URL (text : string) (base : option Url) : option Url :=
  List.find (λ u, bool_decide (href u = text)) known_sites.

(** The first address fails, the second redirects to [location]. *)
Definition sample_world (location : option string) : World := {|
  lookup_host _ host := if bool_decide (host = "pub.example") then ["93.184.216.34"; "2606:2800:21f::1"] else [];
  aborted _ := false;
  serve n _ _ := if (n =? 0)%nat then fails else if (n =? 1)%nat then answers 302 location else answers 200 None |}.

Definition fetched (location : option string) : list (option string) * Outcome :=
  let '(sent, o) := executeWebFetch sample_URL (sample_world location) (Some " https://pub.example/") false in (dialled <$> sent, o).

Example fetch_samples :
  fetched (Some "http://[::1]/") = ([Some "93.184.216.34"; Some "2606:2800:21f::1"], refused redirect_private 0) ∧
  fetched (Some "ftp://pub.example/") = ([Some "93.184.216.34"; Some "2606:2800:21f::1"], refused redirect_protocol 0) ∧
  fetched (Some "https://pub.example/") =
    ([Some "93.184.216.34"; Some "2606:2800:21f::1"; Some "93.184.216.34"], page (site "https://pub.example/" "https:" "pub.example") 200 1) ∧
  looksLikeHostPortShorthand <$> ["localhost:3000"; "[::1]:80/x"; "http://a"; "a:b"; "user@h:80"] = [true; true; false; false; false].
Proof. by vm_compute. Qed.

Lemma sample_reparses : reparses sample_URL.
Proof.
  intros text base u [Hin _]%find_some. cbn in Hin. by destruct Hin as [<-|[<-|[<-|[]]]].
Qed.

Lemma sample_answers location : answers_addresses (sample_world location).
Proof.
  intros n host x. cbn. case_bool_decide; [|by intros ?%elem_of_nil]. rewrite !elem_of_cons elem_of_nil.
  intros [->|[->|[]]]; by split.
Qed.

Lemma fetches_stay_public_witness :
  dialled {| req_redirects := 0; req_url := site "https://pub.example/" "https:" "pub.example"; req_address := Some "2606:2800:21f::1" |}
    = Some "2606:2800:21f::1" ∧ public_text "2606:2800:21f::1".
Proof.
  destruct (fetches_stay_public sample_URL (sample_world None) (Some "https://pub.example/")
    {| req_redirects := 0; req_url := site "https://pub.example/" "https:" "pub.example"; req_address := Some "2606:2800:21f::1" |})
    as (d & Hd & Hp & _).
  - exact sample_reparses.
  - exact (sample_answers None).
  - vm_compute. right. by left.
  - vm_compute in Hd. injection Hd as <-. by split.
Defined.

Definition browsing : list RouteEvent :=
  [arrives 0 100 (Some "pub.example"); arrives 1 150 (Some "printer.local"); resolves 0 (λ _, ["93.184.216.34"])].

Example browsing_sample :
  (route_step (routes_after browsing) (arrives 2 5100 (Some "pub.example"))).2 = Some (2%nat, continues) ∧
  (route_step (routes_after browsing) (arrives 2 5101 (Some "pub.example"))).2 = None ∧
  (route_step (routes_after browsing) (arrives 2 200 (Some "printer.local"))).2 = Some (2%nat, blocked) ∧
  (route_step (routes_after browsing) (arrives 2 200 (Some "other.example"))).2 = None.
Proof. by vm_compute. Qed.
