(* ===== verification/WorkflowCapabilities.v ===== *)
(** * The capabilities of workflow runs

    [assistant/src/workflows/capabilities.ts], with the two predicates on tools
    it asks ([tools/side-effects.ts], [tools/execution-target.ts]): a run
    declares once which tools and host functions its leaves may use.  The
    contents of the tool registry are an argument. *)

From S2P Require Import Prelude JsMap JsText.

Definition SIDE_EFFECT_TOOLS : list string :=
  ["file_write"; "file_edit"; "host_file_write"; "host_file_edit"; "bash"; "host_bash"; "web_fetch";
   "document_create"; "document_update"; "document_delete"; "schedule_create"; "schedule_update";
   "schedule_delete"].

Definition isSideEffectTool (toolName : string) : bool := bool_decide (toolName ∈ SIDE_EFFECT_TOOLS).

Inductive ExecutionTarget := host | sandbox.

#[export] Instance ExecutionTarget_eq_dec : EqDecision ExecutionTarget.
Proof. solve_decision. Defined.

Record Tool := {
  tool_name : string;
  tool_executionTarget : option ExecutionTarget;
  tool_builtin : bool;               (* the implementation that ships *)
}.

Definition resolveExecutionTarget (t : Tool) : ExecutionTarget :=
  match tool_executionTarget t with
  | Some target => target
  | None =>
      if starts_with "host_" (tool_name t) || starts_with "computer_use_" (tool_name t) then host
      else sandbox
  end.

(** The tool registry: [getTool], [getToolOwner(name)?.kind] and
    [getCoreToolOverride]. *)
Record registry := {
  getTool : string → option Tool;
  owner_kind : string → option string;
  getCoreToolOverride : string → option Tool;
}.

(** ** Manifests *)

Definition WORKFLOW_READONLY_BASELINE : list string := ["file_read"; "file_list"; "recall"; "web_search"].
Definition WORKFLOW_FORBIDDEN_TOOLS : list string := ["subagent_spawn"; "run_workflow"; "manage_workflows"].

Record CapabilityManifest := {
  manifest_tools : list string;
  manifest_hostFunctions : list string;
  manifest_persona : bool;
}.

(** The blob in the column of a run: an entry of [tools] is a name, an object
    with or without a string [name], or something else; a field that is no array
    is [None]. *)
Inductive stored_tool := StoredName (name : string) | StoredTool (name : option string) | StoredOther.

Record stored_manifest := {
  stored_tools : option (list stored_tool);
  stored_hostFunctions : option (list (option string));
  stored_persona : bool;             (* obj.persona === true *)
}.

Definition stored_tool_name (t : stored_tool) : option string :=
  match t with StoredName n => Some n | StoredTool n => n | StoredOther => None end.

(** [normalizeCapabilityManifest(stored)]; [None] is no object. *)
Definition normalizeCapabilityManifest (stored : option stored_manifest) : CapabilityManifest :=
  match stored with
  | None => {| manifest_tools := []; manifest_hostFunctions := []; manifest_persona := false |}
  | Some obj => {|
      manifest_tools := match stored_tools obj with Some l => omap stored_tool_name l | None => [] end;
      manifest_hostFunctions := match stored_hostFunctions obj with Some l => omap id l | None => [] end;
      manifest_persona := stored_persona obj |}
  end.

(** What [start] writes for a declared manifest. *)
Definition stored_of (m : CapabilityManifest) : stored_manifest := {|
  stored_tools := Some (StoredName <$> manifest_tools m);
  stored_hostFunctions := Some (Some <$> manifest_hostFunctions m);
  stored_persona := manifest_persona m |}.

Definition manifestGrantsSideEffects (raw : option stored_manifest) : bool :=
  let m := normalizeCapabilityManifest raw in
  bool_decide (manifest_tools m ≠ []) || bool_decide (manifest_hostFunctions m ≠ []).

Definition callerOwnsWorkflowRun (run_conversation : option string) (caller_trust : string)
    (caller_conversation : string) : bool :=
  bool_decide (caller_trust = "guardian"%string) ||
  bool_decide (run_conversation = Some caller_conversation).

(** ** Resolution *)

Inductive resolution_error := unknown_tool | forbidden_tool | host_tool.

Record ResolvedCapabilities := {
  tools : list Tool;
  hostFunctions : list string;
  persona : bool;
}.

Section resolution.
Context (r : registry).

Definition resolveBaselineTool (name : string) : option Tool :=
  match owner_kind r name with
  | Some kind => if bool_decide (kind ≠ "default"%string) then getCoreToolOverride r name else getTool r name
  | None => getTool r name
  end.

(** The loop over the baseline, then the loop over the declared tools. *)
Definition add_baseline (resolved : jsmap string Tool) (name : string) : jsmap string Tool :=
  if bool_decide (name ∈ WORKFLOW_FORBIDDEN_TOOLS) then resolved
  else if isSideEffectTool name then resolved
  else match resolveBaselineTool name with
       | Some t => <[name := t]> resolved
       | None => resolved
       end.

Fixpoint add_declared (resolved : jsmap string Tool) (names : list string)
    : jsmap string Tool + resolution_error * string :=
  match names with
  | [] => inl resolved
  | name :: names =>
      match getTool r name with
      | None => inr (unknown_tool, name)
      | Some t =>
          if bool_decide (resolveExecutionTarget t = host) then inr (host_tool, name)
          else add_declared (<[name := t]> resolved) names
      end
  end.

Definition resolveCapabilities (m : CapabilityManifest)
    : ResolvedCapabilities + resolution_error * string :=
  match List.find (λ name, bool_decide (name ∈ WORKFLOW_FORBIDDEN_TOOLS)) (manifest_tools m) with
  | Some name => inr (forbidden_tool, name)
  | None =>
      match add_declared (foldl add_baseline ∅ WORKFLOW_READONLY_BASELINE) (manifest_tools m) with
      | inr e => inr e
      | inl resolved => inl {| tools := values resolved;
          hostFunctions := manifest_hostFunctions m; persona := manifest_persona m |}
      end
  end.

(** Where a granted tool comes from. *)
Definition from_baseline (name : string) (t : Tool) : Prop :=
  name ∈ WORKFLOW_READONLY_BASELINE ∧ isSideEffectTool name = false ∧
  name ∉ WORKFLOW_FORBIDDEN_TOOLS ∧ resolveBaselineTool name = Some t.

Definition from_manifest (m : CapabilityManifest) (name : string) (t : Tool) : Prop :=
  name ∈ manifest_tools m ∧ name ∉ WORKFLOW_FORBIDDEN_TOOLS ∧ getTool r name = Some t ∧
  resolveExecutionTarget t = sandbox.

Definition each_from (P : string → Tool → Prop) (resolved : jsmap string Tool) : Prop :=
  wf resolved ∧ ∀ name t, resolved !! name = Some t → P name t.

Lemma each_from_insert (P : string → Tool → Prop) resolved name t :
  each_from P resolved → P name t → each_from P (<[name := t]> resolved).
Proof.
  intros [Hw Hp] Ht. split; [by apply wf_insert|]. intros n u. rw lookup_insert.
  case_decide; [|apply Hp]. subst. by intros [= <-].
Qed.

Lemma baseline_each l resolved : (∀ n, n ∈ l → n ∈ WORKFLOW_READONLY_BASELINE) →
  each_from from_baseline resolved → each_from from_baseline (foldl add_baseline resolved l).
Proof.
  revert resolved. induction l as [|n l IH]; intros resolved Hl Hr; [done|]. simpl.
  apply IH; [intros x Hx; apply Hl; by right|]. unfold add_baseline.
  case_bool_decide as Hf; [done|]. destruct (isSideEffectTool n) eqn:Hs; [done|].
  destruct (resolveBaselineTool n) as [t|] eqn:Ht; [|done].
  apply each_from_insert; [done|]. split; [apply Hl; by left|done].
Qed.

Lemma declared_each (P : string → Tool → Prop) names resolved res : each_from P resolved →
  (∀ n t, n ∈ names → getTool r n = Some t → resolveExecutionTarget t = sandbox → P n t) →
  add_declared resolved names = inl res → each_from P res.
Proof.
  revert resolved. induction names as [|n names IH]; intros resolved Hr Hp; simpl.
  { by intros [= <-]. }
  destruct (getTool r n) as [t|] eqn:Ht; [|done]. case_bool_decide as Hh; [done|].
  apply IH; [|intros x u Hx; apply Hp; by right]. apply each_from_insert; [done|].
  apply Hp; [by left|done|]. by destruct (resolveExecutionTarget t).
Qed.

Lemma find_none (P : string → bool) l : List.find P l = None → ∀ x, x ∈ l → P x = false.
Proof.
  induction l as [|y l IH]; simpl; [by intros _ x ?%not_elem_of_nil|].
  destruct (P y) eqn:Hy; [done|]. intros Hf x [->|Hx]%elem_of_cons; [done|by apply IH].
Qed.

Lemma resolved_from m caps t : resolveCapabilities m = inl caps → t ∈ tools caps →
  ∃ name, from_baseline name t ∨ from_manifest m name t.
Proof.
  unfold resolveCapabilities. destruct (List.find _ _) eqn:Hfind; [done|].
  destruct (add_declared _ _) as [res|] eqn:Hd; [|done]. intros [= <-] Ht. simpl in Ht.
  assert (each_from (λ n t, from_baseline n t ∨ from_manifest m n t) res) as [Hw Hp].
  { eapply declared_each; [| |exact Hd].
    - destruct (baseline_each WORKFLOW_READONLY_BASELINE ∅) as [Hw Hb]; [done| |].
      + split; [apply wf_empty|]. intros n u. by rw lookup_empty.
      + split; [done|]. intros n u Hu. left. by apply Hb.
    - intros n u Hn Hu Hs. right. split; [done|]. split; [|done].
      apply (find_none _ _ Hfind) in Hn. by apply bool_decide_eq_false in Hn. }
  unfold values in Ht. apply list_elem_of_fmap in Ht as ([n u] & -> & Hin).
  exists n. apply Hp. by apply entry_lookup.
Qed.

(** The registry keeps what ships apart from what replaces it. *)
Definition registry_honest : Prop :=
  (∀ n t, getTool r n = Some t →
     owner_kind r n = None ∨ owner_kind r n = Some "default"%string → tool_builtin t = true) ∧
  (∀ n t, getCoreToolOverride r n = Some t → tool_builtin t = true).

(** Nothing is granted without consent.  Every tool of a run is one of
    the read-only baseline, has no side effects and is the implementation that
    ships, whatever the workspace registered under its name; or the manifest
    names it, and then it is neither forbidden nor a tool of the host.  A manifest
    that needs no approval at the launch grants only the first kind. *)
Theorem grants_are_consented raw caps t : registry_honest →
  resolveCapabilities (normalizeCapabilityManifest raw) = inl caps → t ∈ tools caps →
  ∃ name, name ∉ WORKFLOW_FORBIDDEN_TOOLS ∧
    (name ∈ WORKFLOW_READONLY_BASELINE ∧ isSideEffectTool name = false ∧ tool_builtin t = true ∨
     manifestGrantsSideEffects raw = true ∧ getTool r name = Some t ∧
       resolveExecutionTarget t = sandbox ∧
       name ∈ manifest_tools (normalizeCapabilityManifest raw)).
Proof.
  intros [Hlive Hcore] Hr [name [(Hb & Hs & Hf & Ht)|(Hm & Hf & Ht & Hx)]]%(resolved_from _ _ _ Hr);
    exists name; (split; [done|]); [left|right].
  - do 2 (split; [done|]). unfold resolveBaselineTool in Ht.
    destruct (owner_kind r name) as [k|] eqn:Hk; [|by apply (Hlive name); auto].
    case_bool_decide as Hd; [by eapply Hcore|]. apply (Hlive name); [done|]. right.
    congruence.
  - split; [|done]. unfold manifestGrantsSideEffects. apply orb_true_iff. left.
    apply bool_decide_eq_true. by intros Hn; rw Hn in Hm; apply not_elem_of_nil in Hm.
Qed.

(** The manifest that [start] stored is the one [resume] resolves. *)
Lemma stored_manifest_round_trip m : normalizeCapabilityManifest (Some (stored_of m)) = m.
Proof.
  destruct m as [t h p]. unfold normalizeCapabilityManifest, stored_of. simpl. f_equal.
  - induction t as [|x t IH]; [done|]. cbn. by f_equal.
  - induction h as [|x h IH]; [done|]. cbn. by f_equal.
Qed.
End resolution.

(** ** A registry *)

Definition sample_registry : registry := {|
  getTool n :=
    if bool_decide (n = "file_read"%string)
    then Some {| tool_name := "file_read"; tool_executionTarget := None; tool_builtin := false |}
    else if bool_decide (n = "bash"%string)
    then Some {| tool_name := "bash"; tool_executionTarget := None; tool_builtin := true |}
    else if bool_decide (n = "host_bash"%string)
    then Some {| tool_name := "host_bash"; tool_executionTarget := None; tool_builtin := true |}
    else None;
  owner_kind n := if bool_decide (n = "file_read"%string) then Some "workspace"%string
                  else Some "default"%string;
  getCoreToolOverride n :=
    if bool_decide (n = "file_read"%string)
    then Some {| tool_name := "file_read"; tool_executionTarget := None; tool_builtin := true |} else None |}.

Definition declares (l : list string) : CapabilityManifest :=
  {| manifest_tools := l; manifest_hostFunctions := []; manifest_persona := false |}.

Example resolution_samples :
  (λ l, match resolveCapabilities sample_registry (declares l) with
        | inl c => inl ((λ t, (tool_name t, tool_builtin t)) <$> tools c) | inr e => inr e end) <$>
    [[]; ["bash"]; ["bash"; "file_read"]; ["host_bash"]; ["run_workflow"]; ["nope"]]%string
  = [inl [("file_read", true)]; inl [("file_read", true); ("bash", true)];
     inl [("file_read", false); ("bash", true)]; inr (host_tool, "host_bash");
     inr (forbidden_tool, "run_workflow"); inr (unknown_tool, "nope")]%string.
Proof. by vm_compute. Qed.

Definition shipped_read : Tool :=
  {| tool_name := "file_read"; tool_executionTarget := None; tool_builtin := true |}.

Lemma grants_are_consented_witness :
  ∃ name, name ∉ WORKFLOW_FORBIDDEN_TOOLS ∧
    (name ∈ WORKFLOW_READONLY_BASELINE ∧ isSideEffectTool name = false ∧ tool_builtin shipped_read = true ∨
     manifestGrantsSideEffects None = true ∧ getTool sample_registry name = Some shipped_read ∧
       resolveExecutionTarget shipped_read = sandbox ∧
       name ∈ manifest_tools (normalizeCapabilityManifest None)).
Proof.
  eapply (grants_are_consented sample_registry None).
  - split; intros n t; simpl; unfold sample_registry; simpl; repeat case_bool_decide; intros; simplify_eq/=;
      naive_solver.
  - vm_compute. reflexivity.
  - simpl. by left.
Defined.
