(* ===== verification/WorkflowJournal.v ===== *)
(** * The journal of workflow runs

    [assistant/src/workflows/journal-store.ts]: the two tables a workflow run
    leaves behind, its row and one entry for each call the script made.  A JSON
    column is the value a reader parses from it; values are abstract, the class
    [JsonValue] says what the engine builds and takes apart.  The listings, which
    only read, are left out. *)

From S2P Require Import Prelude WorkflowCapabilities.
Local Open Scope Z_scope.

(** The values that cross the boundary of the sandbox. *)
Class JsonValue (V : Type) := {
  null_value : V;
  source_value : string → V;            (* { source } *)
  source_of : V → option string;        (* v.source, if it is a string *)
  error_value : string → V;             (* { error } *)
  source_round_trip : ∀ s, source_of (source_value s) = Some s;
}.

Inductive WorkflowRunStatus := running | completed | failed | aborted | cap_exceeded | interrupted.

#[export] Instance WorkflowRunStatus_eq_dec : EqDecision WorkflowRunStatus.
Proof. solve_decision. Defined.

Inductive WorkflowJournalKind := agent_entry | workflow_entry.

Section journal_store.
Context {V : Type} {T : Type}.

Record WorkflowRun := {
  run_name : option string;
  scriptSource : string;
  run_args : V;
  run_capabilities : option stored_manifest;
  run_status : WorkflowRunStatus;
  run_conversationId : option string;
  run_trust : option T;
  run_agentsSpawned : Z;
  run_inputTokens : Z;
  run_outputTokens : Z;
  run_result : option V;
  run_error : option string;
  createdAt : Z;
  updatedAt : Z;
  finishedAt : option Z;
}.

Record WorkflowJournalEntry := {
  callHash : string;
  kind : WorkflowJournalKind;
  result : V;
  entry_status : string;
  entry_tokens : option (Z * Z);
  entry_createdAt : Z;
}.

(** The database: rows by run, entries by run and sequence number. *)
Record tables := {
  workflow_runs : gmap string WorkflowRun;
  workflow_journal : gmap (string * nat) WorkflowJournalEntry;
}.

Definition with_run (runId : string) (r : WorkflowRun) (d : tables) : tables :=
  {| workflow_runs := <[runId := r]> (workflow_runs d); workflow_journal := workflow_journal d |}.

(** ** Runs *)

Record CreateRunInput := {
  input_name : option string;
  input_scriptSource : string;
  input_args : V;
  input_capabilities : option stored_manifest;
  input_status : WorkflowRunStatus;
  input_conversationId : option string;
  input_trust : option T;
}.

Definition new_run (now : Z) (i : CreateRunInput) : WorkflowRun := {|
  run_name := input_name i; scriptSource := input_scriptSource i; run_args := input_args i;
  run_capabilities := input_capabilities i; run_status := input_status i;
  run_conversationId := input_conversationId i; run_trust := input_trust i;
  run_agentsSpawned := 0; run_inputTokens := 0; run_outputTokens := 0;
  run_result := None; run_error := None; createdAt := now; updatedAt := now; finishedAt := None |}.

(** [INSERT INTO workflow_runs]; [None] when the id is taken. *)
Definition createRun (now : Z) (runId : string) (i : CreateRunInput) (d : tables) : option tables :=
  match workflow_runs d !! runId with
  | Some _ => None
  | None => Some (with_run runId (new_run now i) d)
  end.

Record UpdateRunInput := {
  set_status : option WorkflowRunStatus;
  set_counters : option (Z * Z * Z);    (* agentsSpawned, inputTokens, outputTokens *)
}.

Definition patched (now : Z) (i : UpdateRunInput) (r : WorkflowRun) : WorkflowRun := {|
  run_name := run_name r; scriptSource := scriptSource r; run_args := run_args r;
  run_capabilities := run_capabilities r;
  run_status := match set_status i with Some s => s | None => run_status r end;
  run_conversationId := run_conversationId r; run_trust := run_trust r;
  run_agentsSpawned := match set_counters i with Some (a, _, _) => a | None => run_agentsSpawned r end;
  run_inputTokens := match set_counters i with Some (_, n, _) => n | None => run_inputTokens r end;
  run_outputTokens := match set_counters i with Some (_, _, n) => n | None => run_outputTokens r end;
  run_result := run_result r; run_error := run_error r;
  createdAt := createdAt r; updatedAt := now; finishedAt := finishedAt r |}.

Definition on_run (runId : string) (f : WorkflowRun → WorkflowRun) (d : tables) : tables :=
  {| workflow_runs := alter f runId (workflow_runs d); workflow_journal := workflow_journal d |}.

Definition updateRun (now : Z) (runId : string) (i : UpdateRunInput) (d : tables) : tables :=
  on_run runId (patched now i) d.

Definition ended (now : Z) (s : WorkflowRunStatus) (v : option V) (e : option string)
    (r : WorkflowRun) : WorkflowRun := {|
  run_name := run_name r; scriptSource := scriptSource r; run_args := run_args r;
  run_capabilities := run_capabilities r; run_status := s;
  run_conversationId := run_conversationId r; run_trust := run_trust r;
  run_agentsSpawned := run_agentsSpawned r; run_inputTokens := run_inputTokens r;
  run_outputTokens := run_outputTokens r; run_result := v; run_error := e;
  createdAt := createdAt r; updatedAt := now; finishedAt := Some now |}.

Definition finishRun (now : Z) (runId : string) (s : WorkflowRunStatus) (v : option V)
    (e : option string) (d : tables) : tables :=
  on_run runId (ended now s v e) d.

(** ** Entries *)

Record AppendJournalEntryInput := {
  append_callHash : string;
  append_kind : WorkflowJournalKind;
  append_result : V;
  append_status : string;
  append_tokens : option (Z * Z);
}.

(** The upsert: on conflict everything but [created_at] is rewritten. *)
Definition appendJournalEntry (now : Z) (runId : string) (seq : nat) (i : AppendJournalEntryInput)
    (d : tables) : tables :=
  let created := match workflow_journal d !! (runId, seq) with
                 | Some e => entry_createdAt e | None => now end in
  {| workflow_runs := workflow_runs d;
     workflow_journal := <[(runId, seq) := {|
       callHash := append_callHash i; kind := append_kind i; result := append_result i;
       entry_status := append_status i; entry_tokens := append_tokens i;
       entry_createdAt := created |}]> (workflow_journal d) |}.

Definition getRun (runId : string) (d : tables) : option WorkflowRun := workflow_runs d !! runId.

Definition getJournalEntry (runId : string) (seq : nat) (d : tables) : option WorkflowJournalEntry :=
  workflow_journal d !! (runId, seq).

(** ** Reconciliation and retention *)

Definition interrupt (now : Z) (r : WorkflowRun) : WorkflowRun :=
  if bool_decide (run_status r = running)
  then patched now {| set_status := Some interrupted; set_counters := None |} r else r.

Definition markRunningAsInterrupted (now : Z) (d : tables) : tables :=
  {| workflow_runs := interrupt now <$> workflow_runs d; workflow_journal := workflow_journal d |}.

Definition TERMINAL_RUN_STATUSES : list WorkflowRunStatus := [completed; failed; aborted; cap_exceeded].

(** The rows [pruneRuns] deletes. *)
Definition prunable (now retentionDays : Z) (r : WorkflowRun) : bool :=
  bool_decide (run_status r ∈ TERMINAL_RUN_STATUSES) &&
  (createdAt r <? now - retentionDays * 24 * 60 * 60 * 1000).

Definition pruneRuns (now retentionDays : Z) (d : tables) : tables :=
  let doomed (runId : string) :=
    match workflow_runs d !! runId with Some r => prunable now retentionDays r | None => false end in
  {| workflow_runs := filter (λ '(runId, r), prunable now retentionDays r = false) (workflow_runs d);
     workflow_journal := filter (λ '((runId, _), _), doomed runId = false) (workflow_journal d) |}.

(** ** Lookups *)

Lemma getRun_on runId i f d :
  getRun i (on_run runId f d) = if decide (runId = i) then f <$> getRun i d else getRun i d.
Proof.
  unfold getRun, on_run. simpl. case_decide as Hi.
  - subst. apply lookup_alter_eq.
  - by apply lookup_alter_ne.
Qed.

Lemma getRun_same runId f d : getRun runId (on_run runId f d) = f <$> getRun runId d.
Proof. rw getRun_on. by case_decide. Qed.

Lemma getJournalEntry_append now runId seq i j n d :
  getJournalEntry j n (appendJournalEntry now runId seq i d) =
    if decide ((runId, seq) = (j, n)) then
      Some {| callHash := append_callHash i; kind := append_kind i; result := append_result i;
        entry_status := append_status i; entry_tokens := append_tokens i;
        entry_createdAt := match getJournalEntry runId seq d with Some e => entry_createdAt e | None => now end |}
    else getJournalEntry j n d.
Proof.
  unfold getJournalEntry, appendJournalEntry. simpl. case_decide as Hi.
  - simplify_eq. by rw lookup_insert_eq.
  - by rw lookup_insert_ne.
Qed.

(** A run that may still be resumed keeps its row and its journal. *)
Lemma prune_keeps_live now days runId r d :
  getRun runId d = Some r → run_status r ∉ TERMINAL_RUN_STATUSES →
  getRun runId (pruneRuns now days d) = Some r ∧
  ∀ n, getJournalEntry runId n (pruneRuns now days d) = getJournalEntry runId n d.
Proof.
  unfold getRun, getJournalEntry, pruneRuns. simpl. intros Hr Hs.
  assert (prunable now days r = false) as Hp by (unfold prunable; by rw bool_decide_false).
  split.
  - by apply map_lookup_filter_Some.
  - intros n. destruct (workflow_journal d !! (runId, n)) eqn:He.
    + apply map_lookup_filter_Some. split; [done|]. by rw Hr.
    + apply map_lookup_filter_None. by left.
Qed.
End journal_store.

Arguments WorkflowRun : clear implicits.
Arguments WorkflowJournalEntry : clear implicits.
Arguments tables : clear implicits.
Arguments CreateRunInput : clear implicits.
Arguments AppendJournalEntryInput : clear implicits.
