(* ===== verification/WorkflowEngine.v ===== *)
(** * The workflow engine

    [assistant/src/workflows/engine.ts]: a workflow script runs in a sandbox and
    calls the host — [agent], [parallel], [workflow], ... — which fans out to leaf
    agents, journals their answers and replays them when the run is resumed after
    a crash.

    The sandbox is a deterministic machine: [observe] says what a script does
    next, and a host call carries what becomes of the script for each response,
    so a suspended script is its state at the call.  The leaf runner, the library
    of saved workflows, the clock and crashes are events; [parallel] is a pool of
    workers that take tasks and settle in any order the events choose; the exception
    of a task that is refused reaches its worker by an event of its own.  [hash] is
    [callHashOf] and [workflowCallHashOf].  The events observed — launches,
    replays, responses — are returned in order. *)

From S2P Require Import Prelude WorkflowJournal.
Local Open Scope Z_scope.
Local Open Scope litt_scope.

(** ** What scripts and the host exchange *)

Section calls.
Context {V : Type}.

Record LeafCallOptions := {
  schema : option V;
  label : option string;
  profile : option string;
  persona : option bool;
  phase_opt : option string;
}.

Inductive exn :=
  | WorkflowScriptError (message : string)
  | CapExceededSignal
  | AbortedSignal
  | WorkflowPersonaNotDeclaredError
  | WorkflowNotFoundError (name : string)
  | WorkflowNestingDepthError.

(** An element of the argument of [parallel]. *)
Inductive spec_arg :=
  | SpecArg (prompt : string) (opts : LeafCallOptions)
  | PromptArg (prompt : string)
  | OtherArg.

Inductive call :=
  | agent (prompt : string) (opts : LeafCallOptions)
  | leaf (prompt : string) (opts : LeafCallOptions)
  | parallel (specs : option (list spec_arg))       (* None: not an array *)
  | workflow (name : string) (args : option V)
  | phase (title : string)
  | log (message : string)
  | usage
  | unbound (name : string).                        (* declared, not bound *)

Inductive response :=
  | Returned (v : V)
  | Results (l : list (option V))                   (* None: null *)
  | Spec (prompt : string) (opts : LeafCallOptions)
  | UsageSnapshot (agentsSpawned inputTokens outputTokens : Z)
  | Undefined
  | Threw (e : exn).

(** What [callHashOf] and [workflowCallHashOf] digest. *)
Inductive hashed := HashLeaf (prompt : string) (opts : LeafCallOptions) | HashWorkflow (name : string).

Definition no_opts : LeafCallOptions :=
  {| schema := None; label := None; profile := None; persona := None; phase_opt := None |}.

(** [withLabelPrefix(labelPrefix, leafOpts)] *)
Definition withLabelPrefix (labelPrefix : string) (o : LeafCallOptions) : LeafCallOptions :=
  if bool_decide (labelPrefix = EmptyString) then o
  else {| schema := schema o;
          label := Some (if truthy (label o)
                         then String.append labelPrefix (String.append "/" (label o otherwise EmptyString))
                         else labelPrefix);
          profile := profile o; persona := persona o; phase_opt := phase_opt o |}.

(** [toSpecArray] followed by the prefixing of the bare prompts, or the message
    of the exception. *)
Fixpoint to_specs (labelPrefix : string) (i : nat) (l : list spec_arg)
    : list (string * LeafCallOptions) + string :=
  match l with
  | [] => inl []
  | a :: l =>
      match a with
      | OtherArg => inr (String.append "parallel(specs)[" (String.append (pretty i)
                           "] must be a leaf(...) spec or a prompt string."))
      | SpecArg p o =>
          match to_specs labelPrefix (S i) l with inl l => inl ((p, o) :: l) | inr e => inr e end
      | PromptArg p =>
          match to_specs labelPrefix (S i) l with
          | inl l => inl ((p, withLabelPrefix labelPrefix no_opts) :: l)
          | inr e => inr e
          end
      end
  end.

Definition toSpecArray (labelPrefix : string) (specs : option (list spec_arg))
    : list (string * LeafCallOptions) + string :=
  match specs with
  | None => inr "parallel(specs) requires an array of leaf specs."%string
  | Some l => to_specs labelPrefix 0 l
  end.

Definition quoted (s : string) : string := String "034" (String.append s (String "034" EmptyString)).

(** What [agent] throws when its leaf failed. *)
Definition leaf_failure (o : LeafCallOptions) : exn :=
  WorkflowScriptError (String.append "Workflow agent leaf"
    (String.append (if truthy (label o)
                    then String " " (quoted (match label o with Some l => l | None => EmptyString end))
                    else EmptyString) " failed.")).

Definition unbound_message (name : string) : exn :=
  WorkflowScriptError (String.append "Host function " (String.append (quoted name)
    " is declared but not bound in this engine build.")).

(** ** Leaves and fan-outs *)

Record task := { t_seq : nat; t_prompt : string; t_opts : LeafCallOptions }.

Definition task_hash (t : task) : hashed := HashLeaf (t_prompt t) (t_opts t).

(** [specs.map((spec) => ({ spec, seq: nextSeq++ }))] *)
Fixpoint assign (nextSeq : nat) (l : list (string * LeafCallOptions)) : list task :=
  match l with
  | [] => []
  | (p, o) :: l => {| t_seq := nextSeq; t_prompt := p; t_opts := o |} :: assign (S nextSeq) l
  end.

(** The closure of [runWithConcurrency]: a hole of [results] is [None], a leaf
    that failed is [Some None].  [thrown] are the exceptions of tasks that were
    refused before their first suspension, each on its way to the [catch] of the
    worker that awaits it: until the first arrives the others pull on. *)
Record fanout := {
  tasks : list task;
  results : list (option (option V));
  cursor : nat;
  in_flight : list nat;
  thrown : list exn;
  firstError : option exn;
}.

Inductive pending := OneLeaf (t : task) | Fanout (f : fanout).
End calls.

Arguments LeafCallOptions : clear implicits.
Arguments spec_arg : clear implicits.
Arguments call : clear implicits.
Arguments response : clear implicits.
Arguments hashed : clear implicits.
Arguments task : clear implicits.
Arguments fanout : clear implicits.
Arguments pending : clear implicits.

(** What a script does next. *)
Inductive observation (V vm : Type) :=
  | Return (v : V)
  | Throw (message : string)
  | Call (c : call V) (k : response V → vm)
  | Spin.                              (* no host call ever again *)
Arguments Return {V vm}.
Arguments Throw {V vm}.
Arguments Call {V vm}.
Arguments Spin {V vm}.

(** What can be seen of a run from outside. *)
Inductive obs (V : Type) :=
  | Launched (t : task V)
  | Refused (t : task V) (e : exn)
  | Answered (t : task V) (v : V)
  | LeafFailed (t : task V)
  | Replayed (t : task V) (v : V)
  | Responded (r : response V)
  | Progress (title : bool) (text : string)
  | Snapshotted (seq : nat) (name source : string)
  | Unwound
  | Finished (s : WorkflowRunStatus) (v : option V).
Arguments Launched {V}.
Arguments Refused {V}.
Arguments Answered {V}.
Arguments LeafFailed {V}.
Arguments Replayed {V}.
Arguments Responded {V}.
Arguments Progress {V}.
Arguments Snapshotted {V}.
Arguments Unwound {V}.
Arguments Finished {V}.

Section engine.
Context {V T vm : Type} `{!JsonValue V}.

(** The sandbox, [createWorkflowSandbox(...).run(fullScript, args)]. *)
Context (load : string → V → vm) (observe : vm → observation V vm).
Context (hash : hashed V → string).

(** The run: its id, its configuration and its grants. *)
Context (runId : string) (maxAgentsPerRun maxConcurrentLeaves : Z) (capabilities_persona : bool).

Local Notation tables := (tables V T).
Local Notation task := (task V).
Local Notation fanout := (fanout V).

(** A script in its sandbox, with the prefix its host functions carry. *)
Record frame := { labelPrefix : string; script : vm }.

(** The closure of [executeWorkflow]: the script that runs, the one suspended
    under it if it is a child, and the run-scoped accounting. *)
Record execution := {
  current : frame;
  suspended : list frame;
  waiting : option (pending V);
  nextSeq : nat;
  agentsSpawned : Z;
  inputTokens : Z;
  outputTokens : Z;
  capExceeded : bool;
  signal_aborted : bool;
}.

Definition set_waiting (w : option (pending V)) (m : execution) : execution := {|
  current := current m; suspended := suspended m; waiting := w; nextSeq := nextSeq m;
  agentsSpawned := agentsSpawned m; inputTokens := inputTokens m; outputTokens := outputTokens m;
  capExceeded := capExceeded m; signal_aborted := signal_aborted m |}.

Definition set_frames (f : frame) (l : list frame) (m : execution) : execution := {|
  current := f; suspended := l; waiting := None; nextSeq := nextSeq m;
  agentsSpawned := agentsSpawned m; inputTokens := inputTokens m; outputTokens := outputTokens m;
  capExceeded := capExceeded m; signal_aborted := signal_aborted m |}.

Definition bump (n : nat) (m : execution) : execution := {|
  current := current m; suspended := suspended m; waiting := waiting m; nextSeq := nextSeq m + n;
  agentsSpawned := agentsSpawned m; inputTokens := inputTokens m; outputTokens := outputTokens m;
  capExceeded := capExceeded m; signal_aborted := signal_aborted m |}.

Definition spawn (m : execution) : execution := {|
  current := current m; suspended := suspended m; waiting := waiting m; nextSeq := nextSeq m;
  agentsSpawned := agentsSpawned m + 1; inputTokens := inputTokens m; outputTokens := outputTokens m;
  capExceeded := capExceeded m; signal_aborted := signal_aborted m |}.

Definition trip_cap (m : execution) : execution := {|
  current := current m; suspended := suspended m; waiting := waiting m; nextSeq := nextSeq m;
  agentsSpawned := agentsSpawned m; inputTokens := inputTokens m; outputTokens := outputTokens m;
  capExceeded := true; signal_aborted := signal_aborted m |}.

Definition spend (i o : Z) (m : execution) : execution := {|
  current := current m; suspended := suspended m; waiting := waiting m; nextSeq := nextSeq m;
  agentsSpawned := agentsSpawned m; inputTokens := inputTokens m + i; outputTokens := outputTokens m + o;
  capExceeded := capExceeded m; signal_aborted := signal_aborted m |}.

Definition abort (m : execution) : execution := {|
  current := current m; suspended := suspended m; waiting := waiting m; nextSeq := nextSeq m;
  agentsSpawned := agentsSpawned m; inputTokens := inputTokens m; outputTokens := outputTokens m;
  capExceeded := capExceeded m; signal_aborted := true |}.

(** The script goes on from its call. *)
Definition resumed (s : vm) (r : response V) : vm :=
  match observe s with Call _ k => k r | _ => s end.

Definition respond (r : response V) (m : execution) : execution :=
  set_frames {| labelPrefix := labelPrefix (current m); script := resumed (script (current m)) r |}
    (suspended m) m.

Definition flushCounters (now : Z) (m : execution) (d : tables) : tables :=
  updateRun now runId {| set_status := None;
    set_counters := Some (agentsSpawned m, inputTokens m, outputTokens m) |} d.

(** ** One leaf: [runLeafAtSeq] *)

Inductive begun := Replay (v : V) | Refuse (e : exn) | Launch.

(** From the persona check to the call of the leaf runner. *)
Definition launch (m : execution) (t : task) : execution * begun :=
  if bool_decide (persona (t_opts t) = Some true) && negb capabilities_persona
  then (m, Refuse WorkflowPersonaNotDeclaredError)
  else if maxAgentsPerRun <=? agentsSpawned m then (trip_cap m, Refuse CapExceededSignal)
  else (spawn m, Launch).

(** The part that runs before the first suspension. *)
Definition begin_leaf (d : tables) (m : execution) (t : task) : execution * begun :=
  if signal_aborted m then (m, Refuse AbortedSignal)
  else match getJournalEntry runId (t_seq t) d with
       | Some cached =>
           if bool_decide (callHash cached = hash (task_hash t)) &&
              bool_decide (entry_status cached = "completed"%string)
           then (m, Replay (result cached))
           else launch m t
       | None => launch m t
       end.

(** The leaf runner answered. *)
Definition leaf_completed (now : Z) (d : tables) (m : execution) (t : task) (v : V) (i o : Z)
    : tables * execution :=
  let m := spend i o m in
  let d := flushCounters now m d in
  (appendJournalEntry now runId (t_seq t) {|
     append_callHash := hash (task_hash t); append_kind := agent_entry; append_result := v;
     append_status := "completed"; append_tokens := Some (i, o) |} d, m).

(** The leaf runner rejected: an abort unwinds the run, a failure is journaled. *)
Definition leaf_rejected (now : Z) (d : tables) (m : execution) (t : task) (message : string)
    (isAbortError : bool) : tables * option exn :=
  if signal_aborted m || isAbortError then (d, Some AbortedSignal)
  else (appendJournalEntry now runId (t_seq t) {|
     append_callHash := hash (task_hash t); append_kind := agent_entry;
     append_result := error_value message; append_status := "failed"; append_tokens := None |} d, None).

(** ** The worker pool: [runWithConcurrency] *)

Definition width (f : fanout) : Z :=
  Z.max 1 (Z.min maxConcurrentLeaves
    (if bool_decide (tasks f = []) then 1 else Z.of_nat (length (tasks f)))).

Definition put_result (i : nat) (r : option V) (f : fanout) : fanout :=
  {| tasks := tasks f; results := <[i := Some r]> (results f); cursor := cursor f;
     in_flight := in_flight f; thrown := thrown f; firstError := firstError f |}.

Definition settle_leaf (i : nat) (f : fanout) : fanout :=
  {| tasks := tasks f; results := results f; cursor := cursor f;
     in_flight := filter (λ j, j ≠ i) (in_flight f); thrown := thrown f; firstError := firstError f |}.

(** The first error wins. *)
Definition fail_with (e : exn) (f : fanout) : fanout :=
  {| tasks := tasks f; results := results f; cursor := cursor f; in_flight := in_flight f;
     thrown := thrown f; firstError := match firstError f with Some e' => Some e' | None => Some e end |}.

Definition throw_later (e : exn) (f : fanout) : fanout :=
  {| tasks := tasks f; results := results f; cursor := cursor f; in_flight := in_flight f;
     thrown := thrown f ++ [e]; firstError := firstError f |}.

(** A worker that is free pulls the next index and runs the task up to its
    suspension; [None] when no worker is free or nothing is to be pulled.  A
    refusal rejects the promise that the worker awaits; [failed] is set only
    when the worker goes on. *)
Definition pull (d : tables) (m : execution) (f : fanout) : option (execution * fanout * list (obs V)) :=
  match firstError f, tasks f !! cursor f with
  | None, Some t =>
      if Z.of_nat (length (in_flight f) + length (thrown f)) <? width f then
        let f := {| tasks := tasks f; results := results f; cursor := S (cursor f);
                    in_flight := in_flight f; thrown := thrown f; firstError := firstError f |} in
        match begin_leaf d m t with
        | (m, Replay v) => Some (m, put_result (pred (cursor f)) (Some v) f, [Replayed t v])
        | (m, Refuse e) => Some (m, throw_later e f, [Refused t e])
        | (m, Launch) =>
            Some (m, {| tasks := tasks f; results := results f; cursor := cursor f;
                        in_flight := in_flight f ++ [pred (cursor f)]; thrown := thrown f;
                        firstError := firstError f |},
                  [Launched t])
        end
      else None
  | _, _ => None
  end.

(** The worker of the first refusal goes on, in its [catch]. *)
Definition catch (f : fanout) : option (fanout * list (obs V)) :=
  match thrown f with
  | [] => None
  | e :: rest =>
      Some (fail_with e {| tasks := tasks f; results := results f; cursor := cursor f; in_flight := in_flight f;
                           thrown := rest; firstError := firstError f |},
            if bool_decide (is_Some (firstError f)) then [] else [Unwound])
  end.

(** Every worker has returned. *)
Definition drained (f : fanout) : bool :=
  bool_decide (in_flight f = []) && bool_decide (thrown f = []) &&
  (bool_decide (is_Some (firstError f)) || (length (tasks f) <=? cursor f)%nat).

Definition fan_response (f : fanout) : response V :=
  match firstError f with
  | Some e => Threw e
  | None => Results ((λ r : option (option V), match r with Some r => r | None => None end) <$> results f)
  end.

(** ** The host functions *)

(** [agent(prompt, opts)] *)
Definition hostAgent (d : tables) (m : execution) (p : string) (o : LeafCallOptions V)
    : execution * list (obs V) :=
  let t := {| t_seq := nextSeq m; t_prompt := p; t_opts := withLabelPrefix (labelPrefix (current m)) o |} in
  match begin_leaf d (bump 1 m) t with
  | (m, Replay v) => (respond (Returned v) m, [Replayed t v; Responded (Returned v)])
  | (m, Refuse e) => (respond (Threw e) m, [Responded (Threw e)])
  | (m, Launch) => (set_waiting (Some (OneLeaf t)) m, [Launched t])
  end.

(** [parallel(specs)], up to the launch of the workers. *)
Definition hostParallel (m : execution) (specs : option (list (spec_arg V))) : execution * list (obs V) :=
  match toSpecArray (labelPrefix (current m)) specs with
  | inr message =>
      let e := WorkflowScriptError message in
      (respond (Threw e) m, [Responded (Threw e)])
  | inl specs =>
      let assigned := assign (nextSeq m) specs in
      (set_waiting (Some (Fanout {| tasks := assigned; results := replicate (length assigned) None;
         cursor := 0; in_flight := []; thrown := []; firstError := None |})) (bump (length assigned) m), [])
  end.

(** The child starts in a sandbox of its own. *)
Definition enter (name source : string) (args : option V) (m : execution) : execution :=
  set_frames {| labelPrefix := name; script := load source (args otherwise null_value) |}
    (current m :: suspended m) m.

(** [workflow(name, args)]; [lib] is the library of saved workflows at this moment. *)
Definition hostWorkflow (now : Z) (lib : string → option string) (d : tables) (m : execution)
    (name : string) (args : option V) : tables * execution * list (obs V) :=
  let threw e m := (d, respond (Threw e) m, [Responded (Threw e)]) in
  if bool_decide (suspended m ≠ []) then threw WorkflowNestingDepthError m
  else if signal_aborted m then threw AbortedSignal m
  else
    let seq := nextSeq m in
    let m := bump 1 m in
    let h := hash (HashWorkflow name) in
    let fresh :=
      match lib name with
      | None => threw (WorkflowNotFoundError name) m
      | Some source =>
          (appendJournalEntry now runId seq {| append_callHash := h; append_kind := workflow_entry;
             append_result := source_value source; append_status := "completed";
             append_tokens := None |} d, enter name source args m, [Snapshotted seq name source])
      end in
    match getJournalEntry runId seq d with
    | Some cached =>
        if bool_decide (callHash cached = h) && bool_decide (entry_status cached = "completed"%string) then
          match source_of (result cached) with
          | Some source => (d, enter name source args m, [])
          | None => fresh
          end
        else fresh
    | None => fresh
    end.

Definition answer (d : tables) (m : execution) (r : response V) : tables * execution * list (obs V) :=
  (d, respond r m, [Responded r]).

Definition host_call (now : Z) (lib : string → option string) (d : tables) (m : execution) (c : call V)
    : tables * execution * list (obs V) :=
  match c with
  | agent p o => (d, (hostAgent d m p o).1, (hostAgent d m p o).2)
  | leaf p o => answer d m (Spec p (withLabelPrefix (labelPrefix (current m)) o))
  | parallel specs => (d, (hostParallel m specs).1, (hostParallel m specs).2)
  | workflow name args => hostWorkflow now lib d m name args
  | phase t => (d, respond Undefined m, [Progress true t; Responded Undefined])
  | log t => (d, respond Undefined m, [Progress false t; Responded Undefined])
  | usage => answer d m (UsageSnapshot (agentsSpawned m) (inputTokens m) (outputTokens m))
  | unbound name => answer d m (Threw (unbound_message name))
  end.

(** ** The end of a run *)

(** The status, from the outcome of the top-level script: the host-side flags
    are trusted over it. *)
Definition final_status (m : execution) (returned : bool) : WorkflowRunStatus :=
  if capExceeded m then cap_exceeded
  else if signal_aborted m then aborted
  else if returned then completed else failed.

Definition finish (now : Z) (d : tables) (m : execution) (v : option V) : tables * list (obs V) :=
  let s := final_status m (bool_decide (is_Some v)) in
  let value := if bool_decide (s = completed) then v else None in
  let error := match s with
               | failed => Some "Workflow script error"%string
               | cap_exceeded => Some (String.append "Agent cap of " (String.append (pretty maxAgentsPerRun) " exceeded"))
               | _ => None
               end in
  (finishRun now runId s value error (flushCounters now m d), [Finished s value]).

(** [executeWorkflow] up to the start of the script: the row is created or
    re-opened, and the counters are seeded from it. *)
Definition open_execution (source : string) (args : V) (r : option (WorkflowRun V T)) : execution := {|
  current := {| labelPrefix := EmptyString; script := load source args |};
  suspended := []; waiting := None; nextSeq := 0;
  agentsSpawned := match r with Some r => run_agentsSpawned r | None => 0 end;
  inputTokens := match r with Some r => run_inputTokens r | None => 0 end;
  outputTokens := match r with Some r => run_outputTokens r | None => 0 end;
  capExceeded := false; signal_aborted := false |}.

Definition executeWorkflow (now : Z) (i : CreateRunInput V T) (d : tables) : tables * execution :=
  (match getRun runId d with
   | None => createRun now runId i d otherwise d
   | Some _ => updateRun now runId {| set_status := Some running; set_counters := None |} d
   end,
   open_execution (input_scriptSource i) (input_args i) (getRun runId d)).

(** ** Steps of a run *)

Inductive event :=
  | Proceed (lib : string → option string)       (* the script runs to its next call or its end *)
  | Interrupt                                    (* the sandbox stops it *)
  | Pull                                         (* a free worker of the pool goes on *)
  | Catch                                        (* a worker whose task was refused goes on *)
  | Settle                                       (* the pool is drained *)
  | LeafReturns (i : nat) (v : V) (inputs outputs : Z)
  | LeafRejects (i : nat) (message : string) (isAbortError : bool)
  | Abort.

(** The end of the script that runs: of the run, or of a child. *)
Definition leave (now : Z) (d : tables) (m : execution) (v : V + string)
    : tables * option execution * list (obs V) :=
  match suspended m with
  | [] =>
      let '(d, os) := finish now d m (match v with inl v => Some v | inr _ => None end) in
      (d, None, os)
  | parent :: rest =>
      let r := match v with inl v => Returned v | inr e => Threw (WorkflowScriptError e) end in
      (d, Some (respond r (set_frames parent rest m)), [Responded r])
  end.

Definition proceed (now : Z) (lib : string → option string) (d : tables) (m : execution)
    : option (tables * option execution * list (obs V)) :=
  match waiting m with
  | Some _ => None
  | None =>
      match observe (script (current m)) with
      | Return v => Some (leave now d m (inl v))
      | Throw e => Some (leave now d m (inr e))
      | Call c _ => let '(d, m, os) := host_call now lib d m c in Some (d, Some m, os)
      | Spin => None
      end
  end.

(** A leaf of the pool settles with [r], or with an exception. *)
Definition fan_settles (d : tables) (m : execution) (f : fanout) (i : nat) (r : option V + exn)
    (os : list (obs V)) : tables * option execution * list (obs V) :=
  let f := settle_leaf i f in
  match r with
  | inl r => (d, Some (set_waiting (Some (Fanout (put_result i r f))) m), os)
  | inr e => (d, Some (set_waiting (Some (Fanout (fail_with e f))) m),
              os ++ (if bool_decide (is_Some (firstError f)) then [] else [Unwound]))
  end.

Definition leaf_returns (now : Z) (d : tables) (m : execution) (i : nat) (v : V) (inputs outputs : Z)
    : option (tables * option execution * list (obs V)) :=
  match waiting m with
  | Some (OneLeaf t) =>
      let '(d, m) := leaf_completed now d m t v inputs outputs in
      Some (d, Some (respond (Returned v) m), [Answered t v; Responded (Returned v)])
  | Some (Fanout f) =>
      match tasks f !! i with
      | Some t =>
          if bool_decide (i ∈ in_flight f) then
            let '(d, m) := leaf_completed now d m t v inputs outputs in
            Some (fan_settles d m f i (inl (Some v)) [Answered t v])
          else None
      | None => None
      end
  | None => None
  end.

Definition leaf_rejects (now : Z) (d : tables) (m : execution) (i : nat) (message : string)
    (isAbortError : bool) : option (tables * option execution * list (obs V)) :=
  match waiting m with
  | Some (OneLeaf t) =>
      let '(d, e) := leaf_rejected now d m t message isAbortError in
      let x := e otherwise leaf_failure (t_opts t) in
      Some (d, Some (respond (Threw x) m),
            (if bool_decide (is_Some e) then [] else [LeafFailed t]) ++ [Responded (Threw x)])
  | Some (Fanout f) =>
      match tasks f !! i with
      | Some t =>
          if bool_decide (i ∈ in_flight f) then
            match leaf_rejected now d m t message isAbortError with
            | (d, Some e) => Some (fan_settles d m f i (inr e) [])
            | (d, None) => Some (fan_settles d m f i (inl None) [LeafFailed t])
            end
          else None
      | None => None
      end
  | None => None
  end.

Definition exec_step (now : Z) (e : event) (d : tables) (m : execution)
    : option (tables * option execution * list (obs V)) :=
  match e with
  | Proceed lib => proceed now lib d m
  | Interrupt =>
      match waiting m with
      | Some _ => None
      | None => Some (leave now d m (inr "interrupted"%string))
      end
  | Pull =>
      match waiting m with
      | Some (Fanout f) =>
          '(m, f, os) ← pull d m f;
          Some (d, Some (set_waiting (Some (Fanout f)) m), os)
      | _ => None
      end
  | Catch =>
      match waiting m with
      | Some (Fanout f) =>
          '(f, os) ← catch f;
          Some (d, Some (set_waiting (Some (Fanout f)) m), os)
      | _ => None
      end
  | Settle =>
      match waiting m with
      | Some (Fanout f) =>
          if drained f
          then Some (d, Some (respond (fan_response f) m), [Responded (fan_response f)])
          else None
      | _ => None
      end
  | LeafReturns i v inputs outputs => leaf_returns now d m i v inputs outputs
  | LeafRejects i message isAbortError => leaf_rejects now d m i message isAbortError
  | Abort => Some (d, Some (abort m), [])
  end.
End engine.

(** ** A sandbox for examples *)

Module Sample.
Inductive value := VNull | VText (s : string) | VSource (s : string) | VError (s : string).

#[global] Instance value_json : JsonValue value := {|
  null_value := VNull; source_value := VSource;
  source_of v := match v with VSource s => Some s | _ => None end;
  error_value := VError; source_round_trip s := eq_refl |}.

Definition hash (h : hashed value) : string :=
  match h with
  | HashLeaf p o => String.append "leaf " p
  | HashWorkflow n => String.append "workflow " n
  end.

Definition prompts (l : list string) : call value := parallel (Some (PromptArg <$> l)).

(** The script of [review]: one leaf, then two at once, then the child [child],
    whose only leaf is told what the two said. *)
Inductive vm :=
  | Begin | Fan (first : string) | Child (said : list (option value)) | Done (v : value)
  | ChildBegin (v : value) | Broken.

Definition text (v : value) : string := match v with VText s => s | _ => EmptyString end.

Definition observe (s : vm) : observation value vm :=
  match s with
  | Begin => Call (agent "plan" no_opts) (λ r, match r with Returned v => Fan (text v) | _ => Broken end)
  | Fan p => Call (prompts [p; "tests"%string])
               (λ r, match r with Results l => Child l | _ => Broken end)
  | Child l =>
      Call (workflow "child" (match l with Some v :: _ => Some v | _ => None end))
        (λ r, match r with Returned v => Done v | _ => Broken end)
  | ChildBegin v => Call (agent (text v) no_opts) (λ r, match r with Returned v => Done v | _ => Broken end)
  | Done v => Return v
  | Broken => Throw "broken"
  end.

Definition load (source : string) (args : value) : vm :=
  if bool_decide (source = "review"%string) then Begin else ChildBegin args.

Definition input : CreateRunInput value unit := {|
  input_name := None; input_scriptSource := "review"; input_args := VNull; input_capabilities := None;
  input_status := running; input_conversationId := None; input_trust := None |}.

Definition lib (name : string) : option string :=
  if bool_decide (name = "child"%string) then Some "child v1"%string else None.
End Sample.
