(* ===== verification/WorkflowResume.v ===== *)
(** * Crashing and resuming workflow runs

    What the journal of [WorkflowEngine] is for: histories of one run in which the
    process dies and the run is executed again any number of times.  The
    reference is an uninterrupted run without journal, hashes, worker pool or
    accounting, in which every leaf just has its answer. *)

From S2P Require Import Prelude WorkflowJournal WorkflowEngine.
Local Open Scope Z_scope.

Section resume.
Context {V T vm : Type} `{!JsonValue V}.
Context (load : string → V → vm) (observe : vm → observation V vm).
Context (hash : hashed V → string).
Context (runId : string) (maxAgentsPerRun maxConcurrentLeaves : Z) (capabilities_persona : bool).
Context (input : CreateRunInput V T).

Local Notation tables := (tables V T).
Local Notation task := (task V).
Local Notation fanout := (fanout V).
Local Notation execution := (@execution V vm).
Local Notation frame := (@frame vm).
Local Notation resumed := (resumed observe).
Local Notation begin_leaf := (begin_leaf (T := T) (vm := vm) hash runId maxAgentsPerRun capabilities_persona).
Local Notation pull := (pull (T := T) (vm := vm) hash runId maxAgentsPerRun maxConcurrentLeaves capabilities_persona).
Local Notation exec_step :=
  (exec_step (T := T) load observe hash runId maxAgentsPerRun maxConcurrentLeaves capabilities_persona).

(** ** Histories *)

Record world := { db : tables; process : option execution }.

Inductive world_event :=
  | Execute                    (* [executeWorkflow] is called, for the first time or again *)
  | Step (e : @event V)
  | Crash                      (* the process dies *)
  | Reconcile.                 (* [markRunningAsInterrupted], at startup *)

Definition world_step (now : Z) (e : world_event) (w : world) : option (world * list (obs V)) :=
  match e, process w with
  | Execute, None =>
      let '(d, m) := executeWorkflow load runId now input (db w) in
      Some ({| db := d; process := Some m |}, [])
  | Step e, Some m =>
      '(d, m, os) ← exec_step now e (db w) m;
      Some ({| db := d; process := m |}, os)
  | Crash, _ => Some ({| db := db w; process := None |}, [])
  | Reconcile, None => Some ({| db := markRunningAsInterrupted now (db w); process := None |}, [])
  | _, _ => None
  end.

Fixpoint history (w : world) (h : list (Z * world_event)) : option (world * list (obs V)) :=
  match h with
  | [] => Some (w, [])
  | (now, e) :: h =>
      '(w, os) ← world_step now e w;
      '(w, os') ← history w h;
      Some (w, os ++ os')
  end.

(** Nothing of the run is in the database yet. *)
Definition fresh (w : world) : Prop :=
  process w = None ∧ getRun runId (db w) = None ∧ ∀ n, getJournalEntry runId n (db w) = None.

(** ** The uninterrupted run *)

(** Where a script stands between two host calls. *)
Record position := { at_current : frame; at_suspended : list frame; at_seq : nat }.

Definition start : position := {|
  at_current := {| labelPrefix := EmptyString; script := load (input_scriptSource input) (input_args input) |};
  at_suspended := []; at_seq := 0 |}.

Definition advance (r : response V) (n : nat) (p : position) : position := {|
  at_current := {| labelPrefix := labelPrefix (at_current p);
                   script := resumed (script (at_current p)) r |};
  at_suspended := at_suspended p; at_seq := at_seq p + n |}.

Definition next (p : position) : observation V vm := observe (script (at_current p)).

Inductive ref_step (answer : task → V → Prop) (saved : nat → string → string → Prop)
    : position → position → Prop :=
  | ref_agent p s o k v :
      next p = Call (agent s o) k →
      answer {| t_seq := at_seq p; t_prompt := s;
                t_opts := withLabelPrefix (labelPrefix (at_current p)) o |} v →
      ref_step answer saved p (advance (Returned v) 1 p)
  | ref_leaf p s o k :
      next p = Call (leaf s o) k →
      ref_step answer saved p (advance (Spec s (withLabelPrefix (labelPrefix (at_current p)) o)) 0 p)
  | ref_parallel p specs k l vs :
      next p = Call (parallel specs) k →
      toSpecArray (labelPrefix (at_current p)) specs = inl l →
      Forall2 answer (assign (at_seq p) l) vs →
      ref_step answer saved p (advance (Results (Some <$> vs)) (length l) p)
  | ref_workflow p name args k source :
      next p = Call (workflow name args) k → at_suspended p = [] → saved (at_seq p) name source →
      ref_step answer saved p {|
        at_current := {| labelPrefix := name;
                         script := load source (match args with Some v => v | None => null_value end) |};
        at_suspended := [at_current p]; at_seq := at_seq p + 1 |}
  | ref_return p v parent rest :
      next p = Return v → at_suspended p = parent :: rest →
      ref_step answer saved p (advance (Returned v) 0
        {| at_current := parent; at_suspended := rest; at_seq := at_seq p |})
  | ref_phase p t k :
      next p = Call (phase t) k → ref_step answer saved p (advance Undefined 0 p)
  | ref_log p t k :
      next p = Call (log t) k → ref_step answer saved p (advance Undefined 0 p).

(** The uninterrupted run returns [v]. *)
Definition returns (answer : task → V → Prop) (saved : nat → string → string → Prop) (v : V) : Prop :=
  ∃ p, rtc (ref_step answer saved) start p ∧ next p = Return v ∧ at_suspended p = [].

(** What the leaves and the library said during a history. *)
Definition answered (os : list (obs V)) (t : task) (v : V) : Prop := Answered t v ∈ os.
Definition saved_as (os : list (obs V)) (n : nat) (name source : string) : Prop :=
  Snapshotted n name source ∈ os.

(** No host call threw and no leaf was refused or failed. *)
Definition smooth (os : list (obs V)) : Prop :=
  Forall (λ o, match o with Responded (Threw _) | LeafFailed _ | Refused _ _ | Unwound => False | _ => True end) os.

(** ** Calls and their sequence numbers *)

Definition tasks_at (p : position) : list task :=
  match next p with
  | Call (agent s o) _ =>
      [{| t_seq := at_seq p; t_prompt := s; t_opts := withLabelPrefix (labelPrefix (at_current p)) o |}]
  | Call (parallel specs) _ =>
      match toSpecArray (labelPrefix (at_current p)) specs with
      | inl l => assign (at_seq p) l
      | inr _ => []
      end
  | _ => []
  end.

(** How many numbers the call at [p] draws. *)
Definition seqs_at (p : position) : nat :=
  match next p with Call (workflow _ _) _ => 1 | _ => length (tasks_at p) end.

Lemma length_assign n (l : list (string * LeafCallOptions V)) : length (assign n l) = length l.
Proof. revert n. induction l as [|[p o] l IH]; intros n; simpl; [done|]. by rw IH. Qed.

Lemma lookup_assign n (l : list (string * LeafCallOptions V)) i t :
  assign n l !! i = Some t → t_seq t = (n + i)%nat.
Proof.
  revert n i. induction l as [|[p o] l IH]; intros n [|i]; simpl; try done.
  - intros [= <-]. simpl. lia.
  - intros ->%IH. lia.
Qed.

Lemma tasks_at_seq p i t : tasks_at p !! i = Some t → t_seq t = (at_seq p + i)%nat.
Proof.
  unfold tasks_at. case_match; try done. case_match; try done.
  - destruct i; [|done]. intros [= <-]. simpl. lia.
  - case_match; [|done]. apply lookup_assign.
Qed.

Lemma tasks_at_range p t : t ∈ tasks_at p → (at_seq p ≤ t_seq t < at_seq p + seqs_at p)%nat.
Proof.
  intros [i Hi]%list_elem_of_lookup. pose proof (tasks_at_seq _ _ _ Hi) as ->.
  apply lookup_lt_Some in Hi. revert Hi. unfold seqs_at, tasks_at.
  case_match; simpl; try lia. case_match; simpl; lia.
Qed.

Lemma ref_step_seq A S p q : ref_step A S p q → at_seq q = (at_seq p + seqs_at p)%nat.
Proof.
  unfold seqs_at, tasks_at. destruct 1 as [? ? ? ? ? Hn|? ? ? ? Hn|? ? ? ? ? Hn Hl|? ? ? ? ? Hn|? ? ? ? Hn|? ? ? Hn|? ? ? Hn];
    rw Hn; simpl; rewrite ?Hl ?length_assign; done || lia.
Qed.

Lemma rtc_seq A S p q : rtc (ref_step A S) p q → (at_seq p ≤ at_seq q)%nat.
Proof. induction 1 as [|p q r ->%ref_step_seq _ IH]; lia. Qed.

Lemma ref_step_mono (A A' : task → V → Prop) (S S' : nat → string → string → Prop) p q :
  (∀ t v, A t v → A' t v) → (∀ n x y, S n x y → S' n x y) → ref_step A S p q → ref_step A' S' p q.
Proof.
  intros HA HS. destruct 1; try by econstructor; eauto.
  eapply ref_parallel; eauto. by eapply Forall2_impl.
Qed.

(** With one answer to each call the reference is deterministic. *)
Section determinism.
Context (A : task → V → Prop) (S : nat → string → string → Prop).
Context (A_fun : ∀ t v v', A t v → A t v' → v = v').
Context (S_fun : ∀ n x y x' y', S n x y → S n x' y' → y = y').

Lemma Forall2_fun l vs vs' : Forall2 A l vs → Forall2 A l vs' → vs = vs'.
Proof.
  intros Hl. revert vs'. induction Hl as [|t v l vs Hv _ IH]; intros vs' H'; inversion H'; [done|].
  subst. f_equal; eauto.
Qed.

Lemma ref_step_det p q q' : ref_step A S p q → ref_step A S p q' → q = q'.
Proof.
  destruct 1 as [? ? ? ? ? Hn|? ? ? ? Hn|? ? ? ? ? Hn Hl|? ? ? ? ? Hn|? ? ? ? Hn|? ? ? Hn|? ? ? Hn];
    destruct 1 as [? ? ? ? ? Hm|? ? ? ? Hm|? ? ? ? ? Hm Hk|? ? ? ? ? Hm|? ? ? ? Hm|? ? ? Hm|? ? ? Hm];
    rw Hn in Hm; simplify_eq; try done.
  - f_equal. f_equal. eauto.
  - rw Hl in Hk. simplify_eq. f_equal. do 2 f_equal. by eapply Forall2_fun.
  - repeat f_equal; eauto.
  - congruence.
Qed.

Lemma rtc_same p q n : rtc (ref_step A S) p q →
  (at_seq p ≤ n < at_seq p + seqs_at p)%nat → (at_seq q ≤ n < at_seq q + seqs_at q)%nat → p = q.
Proof.
  intros Hr Hp Hq. inversion Hr as [|? z ? Hs Hz]; subst; [done|].
  apply rtc_seq in Hz. rw (ref_step_seq _ _ _ _ Hs) in Hz. lia.
Qed.

Lemma same_position p0 p q n :
  rtc (ref_step A S) p0 p → rtc (ref_step A S) p0 q →
  (at_seq p ≤ n < at_seq p + seqs_at p)%nat → (at_seq q ≤ n < at_seq q + seqs_at q)%nat → p = q.
Proof.
  intros Hp. revert q. induction Hp as [p|p p' r Hs Hp IH]; intros q Hq Hnp Hnq.
  { by eapply rtc_same. }
  inversion Hq as [|? q' ? Hs' Hq']; subst.
  - symmetry. eapply rtc_same; eauto. by eapply rtc_l.
  - rw (ref_step_det _ _ _ Hs' Hs) in Hq'. by apply IH.
Qed.
End determinism.

(** ** The invariant of a history *)

Notation reach os := (rtc (ref_step (answered os) (saved_as os)) start).

(** Where an entry of the journal comes from. *)
Definition journaled (os : list (obs V)) (p : position) (n : nat) (e : WorkflowJournalEntry V) : Prop :=
  (∃ t, t ∈ tasks_at p ∧ t_seq t = n ∧ callHash e = hash (task_hash t) ∧ answered os t (result e)) ∨
  (∃ name args k source, next p = Call (workflow name args) k ∧ at_suspended p = [] ∧ at_seq p = n ∧
     callHash e = hash (HashWorkflow name) ∧ result e = source_value source ∧ saved_as os n name source).

(** The state of the worker pool, task by task. *)
Definition fan_sound (os : list (obs V)) (d : tables) (f : fanout) : Prop :=
  (firstError f = None ∧ thrown f = []) ∧ length (WorkflowEngine.results f) = length (tasks f) ∧
  (∀ i, i ∈ in_flight f → (i < cursor f)%nat) ∧
  ∀ i t, tasks f !! i = Some t → (i < cursor f)%nat →
    if decide (i ∈ in_flight f) then getJournalEntry runId (t_seq t) d = None
    else ∃ v, WorkflowEngine.results f !! i = Some (Some (Some v)) ∧ answered os t v.

Definition op_sound (os : list (obs V)) (d : tables) (p : position) (op : pending V) : Prop :=
  match op with
  | OneLeaf t =>
      (∃ s o k, next p = Call (agent s o) k) ∧ tasks_at p = [t] ∧ getJournalEntry runId (t_seq t) d = None
  | Fanout f =>
      ∃ specs k, next p = Call (parallel specs) k ∧ tasks f = tasks_at p ∧
        (∃ l, toSpecArray (labelPrefix (at_current p)) specs = inl l) ∧ fan_sound os d f
  end.

Definition pos (m : execution) : position :=
  {| at_current := current m; at_suspended := suspended m; at_seq := nextSeq m |}.

Definition exec_sound (os : list (obs V)) (d : tables) (m : execution) : Prop :=
  match waiting m with
  | None => reach os (pos m)
  | Some op => ∃ p, reach os p ∧ at_current p = current m ∧ at_suspended p = suspended m ∧
      nextSeq m = (at_seq p + seqs_at p)%nat ∧ op_sound os d p op
  end.

Record sound (w : world) (os : list (obs V)) : Prop := {
  snd_entry n e : getJournalEntry runId n (db w) = Some e →
    entry_status e = "completed"%string ∧ ∃ p, reach os p ∧ journaled os p n e;
  snd_answer t v : answered os t v → ∃ e,
    getJournalEntry runId (t_seq t) (db w) = Some e ∧ result e = v ∧ kind e = agent_entry;
  snd_saved n name s : saved_as os n name s → ∃ e,
    getJournalEntry runId n (db w) = Some e ∧ result e = source_value s ∧ kind e = workflow_entry;
  snd_exec m : process w = Some m → exec_sound os (db w) m;
}.

Lemma answered_fun w os t v v' : sound w os → answered os t v → answered os t v' → v = v'.
Proof. intros Hs (e & He & <- & _)%(snd_answer _ _ Hs) (e' & He' & <- & _)%(snd_answer _ _ Hs). congruence. Qed.

Lemma source_value_inj s s' : source_value (V := V) s = source_value s' → s = s'.
Proof. intros Hs. apply (f_equal source_of) in Hs. rewrite !source_round_trip in Hs. congruence. Qed.

Lemma saved_fun w os n x s x' s' : sound w os → saved_as os n x s → saved_as os n x' s' → s = s'.
Proof.
  intros Hs (e & He & Hr & _)%(snd_saved _ _ Hs) (e' & He' & Hr' & _)%(snd_saved _ _ Hs).
  apply source_value_inj. congruence.
Qed.

Lemma one_position w os p q n : sound w os → reach os p → reach os q →
  (at_seq p ≤ n < at_seq p + seqs_at p)%nat → (at_seq q ≤ n < at_seq q + seqs_at q)%nat → p = q.
Proof.
  intros Hs. apply same_position.
  - intros t v v'. by eapply answered_fun.
  - intros m x y x' y'. by eapply saved_fun.
Qed.

Lemma tasks_unique p t t' : t ∈ tasks_at p → t' ∈ tasks_at p → t_seq t = t_seq t' → t = t'.
Proof.
  intros [i Hi]%list_elem_of_lookup [j Hj]%list_elem_of_lookup He.
  rw (tasks_at_seq _ _ _ Hi) (tasks_at_seq _ _ _ Hj) in He.
  assert (i = j) as -> by lia. congruence.
Qed.

(** The entry a task finds is the answer to this very task. *)
Lemma entry_of_task w os p t e : sound w os → reach os p → t ∈ tasks_at p →
  getJournalEntry runId (t_seq t) (db w) = Some e →
  callHash e = hash (task_hash t) ∧ entry_status e = "completed"%string ∧ answered os t (result e).
Proof.
  intros Hs Hp Ht He. destruct (snd_entry _ _ Hs _ _ He) as (Hc & q & Hq & Hj).
  pose proof (tasks_at_range _ _ Ht) as Hrange.
  destruct Hj as [(t' & Ht' & Hn & Hh & Ha)|(name & args & k & s & Hn & _ & Hseq & _)].
  - assert (p = q) as <-.
    { eapply one_position; eauto. rw -Hn. by apply tasks_at_range. }
    by rw (tasks_unique _ _ _ Ht Ht' (eq_sym Hn)).
  - assert (p = q) as <-.
    { eapply one_position; eauto. rw -Hseq. unfold seqs_at. rw Hn. lia. }
    unfold tasks_at in Ht. rw Hn in Ht. by apply not_elem_of_nil in Ht.
Qed.

Lemma begin_leaf_sound w os p t m m' b : sound w os → reach os p → t ∈ tasks_at p →
  begin_leaf (db w) m t = (m', b) →
  match b with
  | Replay v => m' = m ∧ answered os t v
  | Launch => m' = spawn m ∧ getJournalEntry runId (t_seq t) (db w) = None
  | Refuse _ => True
  end.
Proof.
  intros Hs Hp Ht. unfold WorkflowEngine.begin_leaf, launch.
  destruct (signal_aborted m); [by intros [= <- <-]|].
  destruct (getJournalEntry runId (t_seq t) (db w)) as [e|] eqn:He.
  - destruct (entry_of_task _ _ _ _ _ Hs Hp Ht He) as (Hh & Hc & Ha).
    rw (bool_decide_true _ Hh) (bool_decide_true _ Hc) /=. by intros [= <- <-].
  - intros Hl. split_and?; repeat case_match; by simplify_eq.
Qed.

(** ** Preservation *)

Lemma answered_app os os' t v : answered (os ++ os') t v ↔ answered os t v ∨ answered os' t v.
Proof. apply elem_of_app. Qed.
Lemma saved_app os os' n x s : saved_as (os ++ os') n x s ↔ saved_as os n x s ∨ saved_as os' n x s.
Proof. apply elem_of_app. Qed.

Lemma reach_mono os os' p : reach os p → reach (os ++ os') p.
Proof.
  induction 1 as [|p q r Hs _ IH]; [done|]. eapply rtc_l; [|exact IH].
  eapply ref_step_mono; [..|exact Hs]; intros; [by apply answered_app; left|by apply saved_app; left].
Qed.

Lemma journaled_mono os os' p n e : journaled os p n e → journaled (os ++ os') p n e.
Proof.
  intros [(t & ? & ? & ? & ?)|(x & a & k & s & ? & ? & ? & ? & ? & ?)].
  - left. exists t. rw answered_app. by auto.
  - right. exists x, a, k, s. rw saved_app. by auto 10.
Qed.

(** Observations that touch neither answers nor snapshots. *)
Definition quiet (os : list (obs V)) : Prop :=
  Forall (λ o, match o with Answered _ _ | Snapshotted _ _ _ => False | _ => True end) os.

Lemma quiet_answered os t v : quiet os → ¬ answered os t v.
Proof. intros Hq Ha. by apply (proj1 (Forall_forall _ _) Hq) in Ha. Qed.
Lemma quiet_saved os n x s : quiet os → ¬ saved_as os n x s.
Proof. intros Hq Ha. by apply (proj1 (Forall_forall _ _) Hq) in Ha. Qed.

Lemma sound_keep w os d m os' : sound w os →
  (∀ n, getJournalEntry runId n d = getJournalEntry runId n (db w)) → quiet os' →
  (∀ m', m = Some m' → exec_sound (os ++ os') d m') →
  sound {| db := d; process := m |} (os ++ os').
Proof.
  intros Hs Hd Hq Hm. split; simpl.
  - intros n e. rw Hd. intros (? & p & ? & ?)%(snd_entry _ _ Hs). split; [done|].
    exists p. split; [by apply reach_mono|by apply journaled_mono].
  - intros t v [Ha|Ha%quiet_answered]%answered_app; [|done..]. rw Hd. by apply (snd_answer _ _ Hs).
  - intros n x s [Ha|Ha%quiet_saved]%saved_app; [|done..]. rw Hd. by apply (snd_saved _ _ Hs n x s).
  - exact Hm.
Qed.

(** A number that had no entry gets one. *)
Lemma sound_write w os d m os' n e : sound w os →
  (∀ i, getJournalEntry runId i d = if decide (i = n) then Some e else getJournalEntry runId i (db w)) →
  getJournalEntry runId n (db w) = None → entry_status e = "completed"%string →
  (∀ t v, answered os' t v → t_seq t = n ∧ result e = v ∧ kind e = agent_entry) →
  (∀ i x s, saved_as os' i x s → i = n ∧ result e = source_value s ∧ kind e = workflow_entry) →
  (∃ p, reach os p ∧ journaled (os ++ os') p n e) →
  (∀ m', m = Some m' → exec_sound (os ++ os') d m') →
  sound {| db := d; process := m |} (os ++ os').
Proof.
  intros Hs Hd Hn Hc Ha Hv (p & Hp & Hj) Hm. split; simpl.
  - intros i e'. rw Hd. case_decide as Hi.
    + intros [= <-]. subst. split; [done|]. exists p. split; [by apply reach_mono|done].
    + intros (? & q & ? & ?)%(snd_entry _ _ Hs). split; [done|].
      exists q. split; [by apply reach_mono|by apply journaled_mono].
  - intros t v [Hv'|Hv']%answered_app; rw Hd.
    + destruct (snd_answer _ _ Hs _ _ Hv') as (e' & He' & Hr). case_decide; [congruence|by exists e'].
    + apply Ha in Hv' as (-> & ? & ?). rw decide_True //. by exists e.
  - intros i x s [Hv'|Hv']%saved_app; rw Hd.
    + destruct (snd_saved _ _ Hs _ _ _ Hv') as (e' & He' & Hr). case_decide; [congruence|by exists e'].
    + apply Hv in Hv' as (-> & ? & ?). rw decide_True //. by exists e.
  - exact Hm.
Qed.

Lemma pos_respond r k p m : at_current p = current m → at_suspended p = suspended m →
  nextSeq m = (at_seq p + k)%nat → pos (respond observe r m) = advance r k p.
Proof. intros Hc Hp Hn. unfold pos, respond, advance. simpl. by rw Hc Hp Hn. Qed.

(** The response to a call takes the script to its next position. *)
Lemma reach_respond os d r k p m : at_current p = current m → at_suspended p = suspended m →
  nextSeq m = (at_seq p + k)%nat → reach os p →
  ref_step (answered os) (saved_as os) p (advance r k p) → exec_sound os d (respond observe r m).
Proof.
  intros Hc Hp Hn Hr Hs. unfold exec_sound. simpl. rw (pos_respond r k p) //. by eapply rtc_r.
Qed.

(** No task is launched that has an entry. *)
Definition unjournaled (d : tables) (os : list (obs V)) : Prop :=
  ∀ t, Launched t ∈ os → getJournalEntry runId (t_seq t) d = None.

Lemma unjournaled_none d os : Forall (λ o, match o with Launched _ => False | _ => True end) os →
  unjournaled d os.
Proof. intros Hq t Ht. by apply (proj1 (Forall_forall _ _) Hq) in Ht. Qed.

Definition preserved (w : world) (os : list (obs V)) (r : tables * option execution * list (obs V)) : Prop :=
  let '(d, m, os') := r in
  smooth os' → sound {| db := d; process := m |} (os ++ os') ∧ unjournaled (db w) os'.

Ltac calm := by repeat constructor.

Section steps.
(** The script never looks at its own accounting. *)
Context (no_usage : ∀ s k, observe s ≠ Call usage k).
Context (w : world) (os : list (obs V)) (m : execution).
Context (Hs : sound w os) (Hm : process w = Some m).

Lemma answer_preserved r p k : reach os p →
  at_current p = current m → at_suspended p = suspended m → nextSeq m = (at_seq p + k)%nat →
  ∀ os', quiet os' → Forall (λ o, match o with Launched _ => False | _ => True end) os' →
  ref_step (answered os) (saved_as os) p (advance r k p) →
  preserved w os (db w, Some (respond observe r m), os').
Proof.
  intros Hp Hc Hu Hn os' Hq Hl Hr _. split; [|by apply unjournaled_none].
  apply (sound_keep w); [done|done|done|]. intros m' [= <-].
  eapply (reach_respond _ _ _ k p); [done..|by apply reach_mono|].
  eapply ref_step_mono; [..|exact Hr]; intros; [by apply answered_app; left|by apply saved_app; left].
Qed.

Context (Hw : waiting m = None).

Lemma at_rest : reach os (pos m).
Proof. pose proof (snd_exec _ _ Hs m Hm) as He. unfold exec_sound in He. by rw Hw in He. Qed.

Lemma agent_preserved p o k : observe (script (current m)) = Call (agent p o) k →
  let '(m', os') :=
    hostAgent observe hash runId maxAgentsPerRun capabilities_persona (db w) m p o in
  preserved w os (db w, Some m', os').
Proof.
  intros Hc. pose proof at_rest as Hr. unfold hostAgent.
  set (t := {| t_seq := nextSeq m |}).
  assert (tasks_at (pos m) = [t]) as Ht by (unfold tasks_at, next; simpl; by rw Hc).
  assert (seqs_at (pos m) = 1%nat) as Hk by (unfold seqs_at, next; simpl; by rw Hc Ht).
  destruct (begin_leaf (db w) (bump 1 m) t) as [m' b] eqn:Hb.
  eapply (begin_leaf_sound w os) in Hb; [|done|exact Hr|rw Ht; by left].
  destruct b as [v|e|].
  - destruct Hb as [-> Ha]. intros _. split; [|by apply unjournaled_none; calm].
    apply (sound_keep w); [done|done|calm|]. intros m' [= <-].
    eapply (reach_respond _ _ _ 1 (pos m)); [done|done|simpl; lia|by apply reach_mono|].
    eapply ref_agent; [exact Hc|]. by apply answered_app; left.
  - intros Hsm. by inversion Hsm.
  - destruct Hb as [-> He]. intros _. split.
    + apply (sound_keep w); [done|done|calm|]. intros m' [= <-]. exists (pos m).
      split; [by apply reach_mono|]. do 2 (split; [done|]). split; [simpl; lia|].
      split; [by eauto|]. done.
    + intros t' [[= ->]|?%not_elem_of_nil]%elem_of_cons; done.
Qed.

Lemma parallel_preserved specs k : observe (script (current m)) = Call (parallel specs) k →
  let '(m', os') := hostParallel observe m specs in preserved w os (db w, Some m', os').
Proof.
  intros Hc. pose proof at_rest as Hr. unfold hostParallel.
  destruct (toSpecArray (labelPrefix (current m)) specs) as [l|e] eqn:Hl;
    [|by intros Hsm; inversion Hsm].
  intros _. split; [|by apply unjournaled_none; calm].
  apply (sound_keep w); [done|done|calm|]. intros m' [= <-]. exists (pos m).
  assert (tasks_at (pos m) = assign (nextSeq m) l) as Ht by (unfold tasks_at, next; simpl; by rw Hc Hl).
  split; [by apply reach_mono|]. do 2 (split; [done|]).
  split; [unfold seqs_at, next; simpl; by rw Hc Ht|].
  exists specs, k. split; [exact Hc|]. split; [by rw Ht|]. split; [by exists l|].
  split; [done|]. simpl. split; [by rw length_replicate|]. split; [by intros i ?%not_elem_of_nil|lia].
Qed.

(** The child's script, at the number after its snapshot's. *)
Lemma enter_preserved d n name args k source os' :
  observe (script (current m)) = Call (workflow name args) k → suspended m = [] → n = nextSeq m →
  saved_as (os ++ os') n name source →
  exec_sound (os ++ os') d (enter load name source args (bump 1 m)).
Proof.
  intros Hc Hu -> Hsv. unfold exec_sound. simpl. eapply rtc_r; [apply reach_mono, at_rest|].
  pose proof (ref_workflow (answered (os ++ os')) (saved_as (os ++ os')) (pos m) name args k source
    Hc Hu Hsv) as Hstep.
  unfold pos in *. simpl in *. by rw Hu in Hstep *.
Qed.

Lemma workflow_preserved now lib name args k :
  observe (script (current m)) = Call (workflow name args) k →
  preserved w os (let '(d, m, os') :=
    hostWorkflow load observe hash runId now lib (db w) m name args in (d, Some m, os')).
Proof.
  intros Hc. unfold hostWorkflow. case_bool_decide as Hu; [by intros Hsm; inversion Hsm|].
  destruct (signal_aborted m); [by intros Hsm; inversion Hsm|].
  assert (next (pos m) = Call (workflow name args) k) as Hn by exact Hc.
  assert (seqs_at (pos m) = 1%nat) as Hk by (unfold seqs_at; by rw Hn).
  destruct (getJournalEntry runId (nextSeq m) (db w)) as [e|] eqn:He.
  - destruct (snd_entry _ _ Hs _ _ He) as (Hcm & q & Hq & Hj).
    assert (pos m = q ∧ ∃ name' args' k' s, next q = Call (workflow name' args') k' ∧
      callHash e = hash (HashWorkflow name') ∧ result e = source_value s ∧
      saved_as os (nextSeq m) name' s) as (<- & name' & args' & k' & s & Hq' & Hh & Hr & Hsv).
    { destruct Hj as [(t & Ht & Hseq & _)|(name' & args' & k' & s & Hq' & _ & Hseq & ? & ? & ?)].
      - pose proof (tasks_at_range _ _ Ht). assert (pos m = q) as <-.
        { eapply (one_position w os _ _ (nextSeq m)); [done|exact at_rest|done| |lia]. simpl. rw Hk. lia. }
        unfold tasks_at in Ht. rw Hn in Ht. by apply not_elem_of_nil in Ht.
      - split; [|by eauto 10].
        eapply (one_position w os _ _ (nextSeq m)); [done|exact at_rest|done|simpl; rw Hk; lia|].
        unfold seqs_at. rw Hq' Hseq. lia. }
    rw Hn in Hq'. simplify_eq. rw (bool_decide_true _ Hh) (bool_decide_true _ Hcm) Hr source_round_trip /=.
    intros _. split; [|by apply unjournaled_none; calm].
    apply (sound_keep w); [done|done|calm|]. intros m' [= <-].
    eapply enter_preserved; [exact Hc|done|done|]. by apply saved_app; left.
  - destruct (lib name) as [source|]; [|by intros Hsm; inversion Hsm].
    intros _. split; [|by apply unjournaled_none; calm].
    eapply (sound_write w _ _ _ _ (nextSeq m)); [done| |done|..].
    + intros i. rw getJournalEntry_append He. repeat case_decide; simplify_eq; done.
    + done.
    + intros t v [?|?%not_elem_of_nil]%elem_of_cons; done.
    + intros i x s [[= -> -> ->]|?%not_elem_of_nil]%elem_of_cons; done.
    + exists (pos m). split; [exact at_rest|]. right. exists name, args, k, source.
      do 5 (split; [done|]). apply saved_app. right. by left.
    + intros m' [= <-]. eapply enter_preserved; [exact Hc|done|done|]. apply saved_app. right. by left.
Qed.

Lemma proceed_preserved now lib r :
  proceed load observe hash runId maxAgentsPerRun capabilities_persona now lib (db w) m = Some r →
  preserved w os r.
Proof.
  unfold proceed. rw Hw. pose proof at_rest as Hr.
  destruct (observe (script (current m))) as [v|e|c k|] eqn:Hc; [| | |done].
  - intros [= <-]. unfold leave. destruct (suspended m) as [|parent rest] eqn:Hu.
    + intros _. simpl. split; [|by apply unjournaled_none; calm].
      apply (sound_keep w); [done|done|calm|done].
    + set (m' := set_frames parent rest m).
      intros _. split; [|by apply unjournaled_none; calm].
      apply (sound_keep w); [done|done|calm|]. intros ? [= <-].
      unfold exec_sound. simpl. eapply rtc_r; [by apply reach_mono|].
      rw (pos_respond (Returned v) 0
        {| at_current := parent; at_suspended := rest; at_seq := nextSeq m |} m'); [|done|done|simpl; lia].
      by eapply (ref_return _ _ (pos m)).
  - intros [= <-]. unfold leave. destruct (suspended m) as [|parent rest] eqn:Hu.
    + intros _. simpl. split; [|by apply unjournaled_none; calm].
      apply (sound_keep w); [done|done|calm|done].
    + by intros Hsm; inversion Hsm.
  - destruct c as [p o|p o|specs|name args|t|t| |name]; simpl.
    + pose proof (agent_preserved p o k Hc) as Ha. destruct (hostAgent _ _ _ _ _ _ _ _ _). by intros [= <-].
    + intros [= <-]. eapply (answer_preserved _ (pos m) 0); [done..|simpl; lia|calm|calm|]. by eapply ref_leaf.
    + pose proof (parallel_preserved specs k Hc) as Ha. destruct (hostParallel _ _ _). by intros [= <-].
    + pose proof (workflow_preserved now lib name args k Hc) as Ha.
      destruct (hostWorkflow _ _ _ _ _ _ _ _ _ _) as [[? ?] ?]. by intros [= <-].
    + intros [= <-]. eapply (answer_preserved _ (pos m) 0); [done..|simpl; lia|calm|calm|]. by eapply ref_phase.
    + intros [= <-]. eapply (answer_preserved _ (pos m) 0); [done..|simpl; lia|calm|calm|]. by eapply ref_log.
    + by destruct (no_usage (script (current m)) k).
    + intros [= <-] Hsm. by inversion Hsm.
Qed.
End steps.

(** ** The worker pool *)

Lemma fan_sound_mono os os' d f : fan_sound os d f → fan_sound (os ++ os') d f.
Proof.
  intros (He & Hl & Hf & Hr). split; [done|]. split; [done|]. split; [done|].
  intros i t Ht Hi. specialize (Hr i t Ht Hi). case_decide; [done|].
  destruct Hr as (v & ? & ?). exists v. rw answered_app. by auto.
Qed.

Lemma fan_replay os d f t v : tasks f !! cursor f = Some t → answered os t v → fan_sound os d f →
  fan_sound os d (put_result (cursor f) (Some v)
    {| tasks := tasks f; results := WorkflowEngine.results f; cursor := S (cursor f);
       in_flight := in_flight f; thrown := thrown f; firstError := firstError f |}).
Proof.
  intros Ht Hv (He & Hl & Hf & Hr). split; [done|]. split; [simpl; by rw length_insert|].
  split; [intros i Hi%Hf; simpl; lia|]. simpl. intros i t' Ht' Hi.
  destruct (decide (i = cursor f)) as [->|Hne].
  - rw decide_False; [|intros Hx%Hf; lia]. exists v. split; [|congruence].
    apply list_lookup_insert_eq. rw Hl. by eapply lookup_lt_Some.
  - specialize (Hr i t' Ht' ltac:(lia)). case_decide; [done|]. by rw list_lookup_insert_ne.
Qed.

Lemma fan_launch os d f t : tasks f !! cursor f = Some t → getJournalEntry runId (t_seq t) d = None →
  fan_sound os d f →
  fan_sound os d {| tasks := tasks f; results := WorkflowEngine.results f; cursor := S (cursor f);
    in_flight := in_flight f ++ [cursor f]; thrown := thrown f; firstError := firstError f |}.
Proof.
  intros Ht Hn (He & Hl & Hf & Hr). split; [done|]. split; [done|]. simpl. split.
  { intros i [Hi%Hf| ->%list_elem_of_singleton]%elem_of_app; lia. }
  intros i t' Ht' Hi. destruct (decide (i = cursor f)) as [->|Hne].
  - rw decide_True; [congruence|]. apply elem_of_app. right. by left.
  - specialize (Hr i t' Ht' ltac:(lia)). destruct (decide (i ∈ in_flight f)) as [Hin|Hin].
    + rw decide_True //. apply elem_of_app. by left.
    + rw decide_False //. intros [?|?%list_elem_of_singleton]%elem_of_app; done.
Qed.

Lemma fan_answer os d d' f i t v : tasks f !! i = Some t → i ∈ in_flight f →
  (∀ j t', tasks f !! j = Some t' → j ≠ i →
    getJournalEntry runId (t_seq t') d' = getJournalEntry runId (t_seq t') d) →
  fan_sound os d f → answered os t v →
  fan_sound os d' (put_result i (Some v) (settle_leaf i f)).
Proof.
  intros Ht Hin Hd (He & Hl & Hf & Hr) Hv. split; [done|]. split; [simpl; by rw length_insert|].
  simpl. split. { intros j [_ Hj%Hf]%list_elem_of_filter. done. }
  intros j t' Ht' Hj. destruct (decide (j = i)) as [->|Hne].
  - rw decide_False; [|by intros [? _]%list_elem_of_filter]. exists v. split; [|congruence].
    apply list_lookup_insert_eq. rw Hl. by eapply lookup_lt_Some.
  - specialize (Hr j t' Ht' Hj). rw list_lookup_insert_ne // (Hd j t') //.
    destruct (decide (j ∈ in_flight f)) as [Hjn|Hjn].
    + rw decide_True //. by apply list_elem_of_filter.
    + rw decide_False //. by intros [_ ?]%list_elem_of_filter.
Qed.

(** When the pool is drained every task has its answer. *)
Lemma drained_answers os d f : fan_sound os d f → drained f = true →
  ∃ vs, fan_response f = Results (Some <$> vs) ∧ Forall2 (answered os) (tasks f) vs.
Proof.
  intros ([He _] & Hl & _ & Hr) Hd. unfold drained, fan_response in *. rw He in Hd *. simpl in Hd.
  apply andb_true_iff in Hd as [[Hn%bool_decide_eq_true _]%andb_true_iff Hc%Nat.leb_le]. rw Hn in Hr. clear Hn He.
  assert (∀ i t, tasks f !! i = Some t →
    ∃ v, WorkflowEngine.results f !! i = Some (Some (Some v)) ∧ answered os t v) as Hall.
  { intros i t Ht. apply (Hr i t Ht). apply lookup_lt_Some in Ht. lia. }
  clear Hr Hc. revert Hl Hall. generalize (WorkflowEngine.results f) as rs.
  induction (tasks f) as [|t ts IH]; intros [|r rs] Hl Hall; try done.
  { exists []. by split. }
  destruct (Hall 0%nat t eq_refl) as (v & [= ->] & Hv).
  destruct (IH rs) as (vs & [= Hvs] & Hall2); [simpl in Hl; lia|by intros i; apply (Hall (S i))|].
  exists (v :: vs). split; [|by constructor]. cbn. do 2 f_equal. exact Hvs.
Qed.

Section pool_steps.
Context (w : world) (os : list (obs V)) (m : execution).
Context (Hs : sound w os) (Hm : process w = Some m).

Lemma pending_at op : waiting m = Some op → ∃ p, reach os p ∧ at_current p = current m ∧
  at_suspended p = suspended m ∧ nextSeq m = (at_seq p + seqs_at p)%nat ∧ op_sound os (db w) p op.
Proof. intros Hw. pose proof (snd_exec _ _ Hs m Hm) as He. unfold exec_sound in He. by rw Hw in He. Qed.

(** The pool goes on under the same script. *)
Lemma pool_goes_on d m' f f' p os' : waiting m = Some (Fanout f) → reach os p →
  at_current p = current m → at_suspended p = suspended m → nextSeq m = (at_seq p + seqs_at p)%nat →
  op_sound os (db w) p (Fanout f) →
  current m' = current m → suspended m' = suspended m → nextSeq m' = nextSeq m →
  tasks f' = tasks f → fan_sound (os ++ os') d f' →
  exec_sound (os ++ os') d (set_waiting (Some (Fanout f')) m').
Proof.
  intros Hw Hp Hc Hu Hn (specs & k & Hnx & Ht & Hl & _) Hc' Hu' Hn' Ht' Hf. exists p.
  split; [by apply reach_mono|]. simpl. rw Hc' Hu' Hn'. do 3 (split; [done|]).
  exists specs, k. split; [done|]. split; [by rw Ht'|]. by split.
Qed.

Lemma pull_preserved now f r : waiting m = Some (Fanout f) →
  exec_step now Pull (db w) m = Some r → preserved w os r.
Proof.
  intros Hw. simpl. rw Hw. destruct (pending_at _ Hw) as (p & Hp & Hc & Hu & Hn & Hop).
  destruct (WorkflowEngine.pull _ _ _ _ _ _ _ _) as [[[m' f'] os']|] eqn:Hpull; [|done]. intros [= <-].
  unfold WorkflowEngine.pull in Hpull. destruct (Hop) as (specs & k & Hnx & Ht & Hl & Hf).
  destruct (Hf) as ([He _] & _). rw He in Hpull.
  destruct (tasks f !! cursor f) as [t|] eqn:Htask; [|done].
  destruct (_ <? _); [|done]. simpl in Hpull.
  destruct (begin_leaf (db w) m t) as [m'' b] eqn:Hb.
  assert (t ∈ tasks_at p) as Hin by (rw -Ht; by eapply list_elem_of_lookup_2).
  pose proof (begin_leaf_sound w os p t _ _ _ Hs Hp Hin Hb) as Hbs.
  destruct b as [v|e|]; [| |]; simplify_eq/=.
  - destruct Hbs as [-> Ha]. intros _. split; [|by apply unjournaled_none; calm].
    apply (sound_keep w); [done|done|calm|]. intros ? [= <-].
    eapply pool_goes_on; [done..|]. apply fan_sound_mono. rw -He. by eapply fan_replay.
  - intros Hsm. by inversion Hsm.
  - destruct Hbs as [-> Hno]. intros _. split.
    + apply (sound_keep w); [done|done|calm|]. intros ? [= <-].
      eapply pool_goes_on; [done..|]. apply fan_sound_mono. rw -He. by eapply fan_launch.
    + by intros t' [[= ->]|?%not_elem_of_nil]%elem_of_cons.
Qed.

(** Nothing was thrown, so there is nothing to catch. *)
Lemma catch_preserved now f r : waiting m = Some (Fanout f) →
  exec_step now Catch (db w) m = Some r → preserved w os r.
Proof.
  intros Hw. simpl. rw Hw. destruct (pending_at _ Hw) as (p & _ & _ & _ & _ & specs & k & _ & _ & _ & [_ Hx] & _).
  unfold catch. by rw Hx.
Qed.

Lemma settle_preserved now f r : waiting m = Some (Fanout f) →
  exec_step now Settle (db w) m = Some r → preserved w os r.
Proof.
  intros Hw. simpl. rw Hw. destruct (pending_at _ Hw) as (p & Hp & Hc & Hu & Hn & Hop).
  destruct (drained f) eqn:Hd; [|done]. intros [= <-].
  destruct Hop as (specs & k & Hnx & Ht & [l Hl] & Hf).
  destruct (drained_answers _ _ _ Hf Hd) as (vs & -> & Hvs).
  assert (tasks_at p = assign (at_seq p) l) as Htl by (unfold tasks_at; by rw Hnx Hl).
  eapply (answer_preserved _ _ _ Hs _ p (length l)); [done..| |calm|calm|].
  - rw Hn. f_equal. unfold seqs_at. by rw Hnx Htl length_assign.
  - eapply ref_parallel; [exact Hnx|exact Hl|]. by rw -Htl -Ht.
Qed.

Lemma returns_preserved now i v x y r :
  exec_step now (LeafReturns i v x y) (db w) m = Some r → preserved w os r.
Proof.
  simpl. unfold leaf_returns. destruct (waiting m) as [[t|f]|] eqn:Hw; [| |done];
    destruct (pending_at _ Hw) as (p & Hp & Hc & Hu & Hn & Hop); simpl.
  - intros [= <-] _. destruct Hop as ((s & o & k & Hnx) & Ht & Hno).
    split; [|by apply unjournaled_none; calm].
    eapply (sound_write w _ _ _ _ (t_seq t)); [done| |done|..].
    + intros j. rw getJournalEntry_append. repeat case_decide; simplify_eq; done.
    + done.
    + intros t' v' [[= -> ->]|[?|?%not_elem_of_nil]%elem_of_cons]%elem_of_cons; done.
    + by intros ? ? ? [?|[?|?%not_elem_of_nil]%elem_of_cons]%elem_of_cons.
    + exists p. split; [done|]. left. exists t. rw Ht. split; [by left|]. do 2 (split; [done|]).
      apply answered_app. right. by left.
    + intros ? [= <-]. eapply (reach_respond _ _ _ 1 p); [done|done| |by apply reach_mono|].
      * simpl. rw Hn. f_equal. unfold seqs_at. by rw Hnx Ht.
      * eapply ref_agent; [exact Hnx|]. unfold tasks_at in Ht. rw Hnx in Ht. injection Ht as ->.
        apply answered_app. right. by left.
  - destruct (tasks f !! i) as [t|] eqn:Ht; [|done]. case_bool_decide as Hi; [|done]. intros [= <-] _.
    split; [|by apply unjournaled_none; calm].
    destruct (Hop) as (specs & k & Hnx & Hts & Hl & Hf).
    assert (getJournalEntry runId (t_seq t) (db w) = None) as Hno.
    { destruct Hf as (_ & _ & Hlt & Hr). specialize (Hr i t Ht (Hlt i Hi)). by rw decide_True in Hr. }
    eapply (sound_write w _ _ _ _ (t_seq t)); [done| |done|..].
    + intros j. rw getJournalEntry_append. repeat case_decide; simplify_eq; done.
    + done.
    + intros t' v' [[= -> ->]|?%not_elem_of_nil]%elem_of_cons; done.
    + by intros ? ? ? [?|?%not_elem_of_nil]%elem_of_cons.
    + exists p. split; [done|]. left. exists t. rw -Hts.
      split; [by eapply list_elem_of_lookup_2|]. do 2 (split; [done|]).
      apply answered_app. right. by left.
    + intros ? [= <-]. eapply (pool_goes_on _ (spend x y m) f); [done..|].
      eapply (fan_answer _ (db w)); [done|done| |by apply fan_sound_mono|apply answered_app; right; by left].
      intros j t' Ht' Hne. rw getJournalEntry_append decide_False; [done|].
      rewrite Hts in Ht Ht'. intros [= He]. apply tasks_at_seq in Ht, Ht'. lia.
Qed.

Lemma rejects_preserved now i e b r :
  exec_step now (LeafRejects i e b) (db w) m = Some r → preserved w os r.
Proof.
  simpl. unfold leaf_rejects, leaf_rejected. destruct (waiting m) as [[t|f]|] eqn:Hw; [| |done].
  - destruct (_ || b); simpl; intros [= <-] Hsm; by inversion Hsm.
  - destruct (pending_at _ Hw) as (p & _ & _ & _ & _ & specs & k & _ & _ & _ & [He _] & _).
    destruct (tasks f !! i); [|done]. case_bool_decide; [|done].
    destruct (_ || b); simpl; intros [= <-] Hsm; [|by inversion Hsm].
    rw He in Hsm. by inversion Hsm.
Qed.
End pool_steps.

(** ** Histories keep the invariant *)

Lemma exec_sound_mono os os' d m : exec_sound os d m → exec_sound (os ++ os') d m.
Proof.
  unfold exec_sound. destruct (waiting m) as [op|]; [|apply reach_mono].
  intros (p & Hp & ? & ? & ? & Hop). exists p. split; [by apply reach_mono|]. do 3 (split; [done|]).
  destruct op as [t|f]; [done|]. destruct Hop as (specs & k & ? & ? & ? & ?).
  exists specs, k. do 3 (split; [done|]). by apply fan_sound_mono.
Qed.

(** The script never looks at its own accounting. *)
Context (no_usage : ∀ s k, observe s ≠ Call usage k).

Lemma exec_step_preserved w os m now e r : sound w os → process w = Some m →
  exec_step now e (db w) m = Some r → preserved w os r.
Proof.
  intros Hs Hm Hr. destruct e as [lib| | | | |i v x y|i e b|].
  - simpl in Hr. destruct (waiting m) eqn:Hw.
    + unfold proceed in Hr. by rw Hw in Hr.
    + by eapply (proceed_preserved no_usage w os m Hs Hm Hw).
  - simpl in Hr. destruct (waiting m); [done|]. injection Hr as <-. unfold leave.
    destruct (suspended m); [|by intros Hsm; inversion Hsm].
    intros _. split; [|by apply unjournaled_none; calm]. by apply (sound_keep w); [done|done|calm|].
  - simpl in Hr. destruct (waiting m) as [[t|f]|] eqn:Hw; [done| |done].
    eapply (pull_preserved w os m Hs Hm now f); [done|]. simpl. by rw Hw.
  - simpl in Hr. destruct (waiting m) as [[t|f]|] eqn:Hw; [done| |done].
    eapply (catch_preserved w os m Hs Hm now f); [done|]. simpl. by rw Hw.
  - simpl in Hr. destruct (waiting m) as [[t|f]|] eqn:Hw; [done| |done].
    eapply (settle_preserved w os m Hs Hm now f); [done|]. simpl. by rw Hw.
  - by eapply (returns_preserved w os m Hs Hm).
  - by eapply (rejects_preserved w os m Hs Hm).
  - injection Hr as <-. intros _. split; [|by apply unjournaled_none; calm].
    apply (sound_keep w); [done|done|calm|]. intros ? [= <-].
    apply exec_sound_mono. by apply (snd_exec _ _ Hs m).
Qed.

Lemma world_step_sound w os now e w' os' : sound w os →
  world_step now e w = Some (w', os') → smooth os' → sound w' (os ++ os') ∧ unjournaled (db w) os'.
Proof.
  intros Hs. unfold world_step. destruct e as [|e| |]; destruct (process w) as [m|] eqn:Hm; try done.
  - destruct (executeWorkflow _ _ _ _ _) as [d m] eqn:Hx. intros [= <- <-] _.
    unfold executeWorkflow in Hx. injection Hx as <- <-.
    split; [|by apply unjournaled_none; calm]. apply (sound_keep w); [done| |calm|].
    + intros n. unfold createRun, getRun. destruct (workflow_runs (db w) !! runId) eqn:Hg; [done|]. done.
    + intros ? [= <-]. by apply rtc_refl.
  - destruct (exec_step now e (db w) m) as [[[d m'] os'']|] eqn:He; [|done]. intros [= <- <-] Hsm.
    by apply (exec_step_preserved _ _ _ _ _ _ Hs Hm He).
  - intros [= <- <-] _. split; [|by apply unjournaled_none; calm]. by apply (sound_keep w); [done|done|calm|].
  - intros [= <- <-] _. split; [|by apply unjournaled_none; calm]. by apply (sound_keep w); [done|done|calm|].
  - intros [= <- <-] _. split; [|by apply unjournaled_none; calm]. by apply (sound_keep w); [done|done|calm|].
Qed.

Lemma smooth_app os os' : smooth (os ++ os') ↔ smooth os ∧ smooth os'.
Proof. apply Forall_app. Qed.

Lemma history_cons w now e h w' os : history w ((now, e) :: h) = Some (w', os) ↔
  ∃ w1 os1 os2, world_step now e w = Some (w1, os1) ∧ history w1 h = Some (w', os2) ∧ os = os1 ++ os2.
Proof.
  simpl. split.
  - destruct (world_step now e w) as [[w1 os1]|]; [|done]. simpl.
    destruct (history w1 h) as [[w2 os2]|] eqn:Hh; [|done]. intros [= <- <-]. by exists w1, os1, os2.
  - by intros (w1 & os1 & os2 & -> & Hh & ->); simpl; rewrite Hh.
Qed.

Lemma history_app w h k : history w (h ++ k) =
  match history w h with
  | Some (w1, os1) => match history w1 k with Some (w2, os2) => Some (w2, os1 ++ os2) | None => None end
  | None => None
  end.
Proof.
  revert w. induction h as [|[now e] h IH]; intros w; simpl.
  { by destruct (history w k) as [[? ?]|]. }
  destruct (world_step now e w) as [[w1 os1]|]; [|done]. simpl. rw IH.
  destruct (history w1 h) as [[w2 os2]|]; [|done]. simpl.
  destruct (history w2 k) as [[w3 os3]|]; [|done]. simpl. by rw app_assoc.
Qed.

Lemma history_sound w os h w' os' : sound w os → history w h = Some (w', os') → smooth os' →
  sound w' (os ++ os').
Proof.
  revert w os os'. induction h as [|[now e] h IH]; intros w os os' Hs.
  { intros [= <- <-] _. by rw app_nil_r. }
  intros (w1 & os1 & os2 & Hw & Hh & ->)%history_cons [H1 H2]%smooth_app.
  destruct (world_step_sound _ _ _ _ _ _ Hs Hw H1) as [Hs1 _]. rw app_assoc. by eapply IH.
Qed.

Lemma fresh_sound w : fresh w → sound w [].
Proof.
  intros (Hp & _ & Hj). split.
  - intros n e. by rw Hj.
  - by intros t v ?%not_elem_of_nil.
  - by intros n x s ?%not_elem_of_nil.
  - intros m. by rw Hp.
Qed.

Lemma launches_are_new w os h w' os' : sound w os → history w h = Some (w', os') → smooth os' →
  ∀ t t' v, answered os t v → Launched t' ∈ os' → t_seq t' ≠ t_seq t.
Proof.
  revert w os os'. induction h as [|[now e] h IH]; intros w os os' Hs.
  { intros [= <- <-] _ t t' v _ []%not_elem_of_nil. }
  intros (w1 & os1 & os2 & Hw & Hh & ->)%history_cons [H1 H2]%smooth_app t t' v Ha [Hl|Hl]%elem_of_app;
    destruct (world_step_sound _ _ _ _ _ _ Hs Hw H1) as [Hs1 Hu].
  - intros Heq. destruct (snd_answer _ _ Hs _ _ Ha) as (e' & He' & _). apply Hu in Hl. congruence.
  - apply (IH w1 (os ++ os1) _ Hs1 Hh H2 t t' v); [|done]. by apply answered_app; left.
Qed.

(** C4 — A leaf that answered is not run again. However often the process crashes,
    whenever the run is resumed and however its worker pool is scheduled, the leaf runner
    is not called again at a sequence number it has answered, provided that no host call
    threw, that no leaf was refused or failed and that the script does not read its own
    accounting ([usage]). *)
Theorem answered_leaves_are_not_rerun w h1 w1 os1 h2 w2 os2 :
  fresh w → history w h1 = Some (w1, os1) → history w1 h2 = Some (w2, os2) →
  smooth os1 → smooth os2 →
  ∀ t v t', Answered t v ∈ os1 → Launched t' ∈ os2 → t_seq t' ≠ t_seq t.
Proof.
  intros Hf H1 H2 S1 S2 t v t' Ha Hl.
  eapply (launches_are_new w1 os1 h2 w2 os2); [|done..].
  exact (history_sound _ [] _ _ _ (fresh_sound _ Hf) H1 S1).
Qed.

Lemma finish_completed now (d : tables) (m : execution) v d' os u : finish runId maxAgentsPerRun now d m v = (d', os) →
  Finished completed u ∈ os → u = v ∧ is_Some v.
Proof.
  unfold finish, final_status. intros [= <- <-] [[= Hst Hu]|?%not_elem_of_nil]%elem_of_cons; [|done].
  by destruct (capExceeded m), (signal_aborted m), v.
Qed.

Definition unfinished (os : list (obs V)) : Prop :=
  Forall (λ o, match o with Finished _ _ => False | _ => True end) os.

Lemma unfinished_not os s v : unfinished os → Finished s v ∉ os.
Proof. intros Hu Hv. by apply (proj1 (Forall_forall _ _) Hu) in Hv. Qed.

Lemma host_call_unfinished now lib d m c d' m' os :
  host_call (T := T) load observe hash runId maxAgentsPerRun capabilities_persona now lib d m c
    = (d', m', os) → unfinished os.
Proof.
  destruct c as [p o|p o|specs|name args|t|t| |name]; simpl; unfold WorkflowEngine.answer;
    try by intros [= <- <- <-]; repeat constructor.
  - unfold hostAgent. destruct (WorkflowEngine.begin_leaf _ _ _ _ _ _ _) as [? []];
      intros [= <- <- <-]; by repeat constructor.
  - unfold hostParallel. destruct (toSpecArray _ _); intros [= <- <- <-]; by repeat constructor.
  - unfold hostWorkflow. repeat case_match; intros [= <- <- <-]; by repeat constructor.
Qed.

(** Only the end of a top-level script ends the run. *)
Lemma step_unfinished now e d m d' m' os : exec_step now e d m = Some (d', m', os) →
  unfinished os ∨ waiting m = None ∧ suspended m = [] ∧
    ((∃ v, observe (script (current m)) = Return v ∧
        (d', os) = finish runId maxAgentsPerRun now d m (Some v)) ∨
     (d', os) = finish runId maxAgentsPerRun now d m None).
Proof.
  destruct e as [lib| | | | |i v x y|i e b|]; simpl.
  - unfold proceed. destruct (waiting m); [done|].
    destruct (observe (script (current m))) as [v|e|c k|] eqn:Hc; [..|done].
    1, 2: unfold leave; destruct (suspended m); intros [= <- <- <-]; [|left; by repeat constructor].
    + right. do 2 (split; [done|]). left. by exists v.
    + right. do 2 (split; [done|]). by right.
    + destruct (host_call _ _ _ _ _ _ _ _ _ _ _) as [[? ?] ?] eqn:Hh. intros [= <- <- <-].
      left. by apply host_call_unfinished in Hh.
  - destruct (waiting m); [done|]. unfold leave. destruct (suspended m); intros [= <- <- <-].
    + right. do 2 (split; [done|]). by right.
    + left. by repeat constructor.
  - destruct (waiting m) as [[]|]; [done| |done].
    destruct (WorkflowEngine.pull _ _ _ _ _ _ _ _) as [[[? ?] ?]|] eqn:Hp; [|done].
    intros [= <- <- <-]. left. unfold WorkflowEngine.pull in Hp.
    repeat case_match; simplify_eq/=; by repeat constructor.
  - destruct (waiting m) as [[]|]; [done| |done]. unfold catch. destruct (thrown f); [done|]. cbn [mbind option_bind].
    intros [= <- <- <-]. left. destruct (bool_decide _); by repeat constructor.
  - destruct (waiting m) as [[]|]; [done| |done]. case_match; [|done].
    intros [= <- <- <-]. left. by repeat constructor.
  - unfold leaf_returns. destruct (waiting m) as [[]|]; simpl; [| |done].
    + intros [= <- <- <-]. left. by repeat constructor.
    + repeat case_match; try done; intros [= <- <- <-]. left. by repeat constructor.
  - unfold leaf_rejects, leaf_rejected, fan_settles. destruct (waiting m) as [[]|]; simpl; [| |done].
    + destruct (_ || b); simpl; intros [= <- <- <-]; left; by repeat constructor.
    + repeat case_match; try done; simplify_eq/=; intros [= <- <- <-]; left; by repeat constructor.
  - intros [= <- <- <-]. left. by repeat constructor.
Qed.

Lemma step_finished w os now e w' os' v : sound w os → world_step now e w = Some (w', os') →
  Finished completed v ∈ os' → ∃ x, v = Some x ∧ returns (answered os) (saved_as os) x.
Proof.
  intros Hs. unfold world_step. destruct e as [|e| |]; destruct (process w) as [m|] eqn:Hm; try done;
    try by intros [= <- <-] ?%not_elem_of_nil.
  destruct (exec_step now e (db w) m) as [[[d m'] os'']|] eqn:He; [|done]. intros [= <- <-] Hv.
  apply step_unfinished in He as [Hu|(Hw & Hp & [(x & Hx & He)|He])].
  - by apply (unfinished_not _ completed v) in Hu.
  - symmetry in He. destruct (finish_completed _ _ _ _ _ _ _ He Hv) as [-> _].
    exists x. split; [done|]. exists (pos m). split; [|by split].
    pose proof (snd_exec _ _ Hs m Hm) as Hr. unfold exec_sound in Hr. by rw Hw in Hr.
  - symmetry in He. by destruct (finish_completed _ _ _ _ _ _ _ He Hv) as [-> [? ?]].
Qed.

Lemma returns_mono os os' v :
  returns (answered os) (saved_as os) v → returns (answered (os ++ os')) (saved_as (os ++ os')) v.
Proof. intros (p & Hp & ?). exists p. split; [by apply reach_mono|done]. Qed.

Lemma history_finished w os h w' os' v : sound w os → history w h = Some (w', os') → smooth os' →
  Finished completed v ∈ os' →
  ∃ x, v = Some x ∧ returns (answered (os ++ os')) (saved_as (os ++ os')) x.
Proof.
  revert w os os'. induction h as [|[now e] h IH]; intros w os os' Hs.
  { intros [= <- <-] _ []%not_elem_of_nil. }
  intros (w1 & os1 & os2 & Hw & Hh & ->)%history_cons [H1 H2]%smooth_app [Hv|Hv]%elem_of_app.
  - destruct (step_finished _ _ _ _ _ _ _ Hs Hw Hv) as (x & -> & Hx). exists x. split; [done|].
    by apply returns_mono.
  - destruct (world_step_sound _ _ _ _ _ _ Hs Hw H1) as [Hs1 _]. rw app_assoc. by eapply IH.
Qed.

(** Resuming is transparent.  A run that completes after any number of
    crashes and resumptions returns what the script returns in one uninterrupted
    run in which every leaf gives the answer it gave and every saved workflow is
    the one that was read — provided that no host call threw, no leaf failed and
    the script does not read its own accounting. *)
Theorem resuming_is_transparent w h w' os v :
  fresh w → history w h = Some (w', os) → smooth os → Finished completed v ∈ os →
  ∃ x, v = Some x ∧ returns (answered os) (saved_as os) x.
Proof. intros Hf. exact (history_finished w [] h w' os v (fresh_sound _ Hf)). Qed.
End resume.

(** ** A run that crashes twice *)

Module Crashes.
Import Sample.

Definition hist := history load observe hash "run" 10 2 false input.
Definition nothing : @world value unit vm :=
  {| db := {| workflow_runs := ∅; workflow_journal := ∅ |}; process := None |}.
Definition steps (l : list (@event value)) : list (Z * @world_event value) := (λ e, (0, Step e)) <$> l.
Definition restart : list (Z * @world_event value) := [(0, Crash); (0, Reconcile); (0, Execute)].

(** The process dies while the first task of the pool runs, and again inside the
    child, whose source has changed in the library by then. *)
Definition before : list (Z * @world_event value) :=
  (0, Execute) :: steps [Proceed lib; LeafReturns 0 (VText "code") 5 5; Proceed lib; Pull; Pull;
    LeafReturns 1 (VText "fine") 3 3] ++ restart.

Definition after : list (Z * @world_event value) :=
  steps [Proceed lib; Proceed lib; Pull; Pull; LeafReturns 0 (VText "good") 1 1; Settle; Proceed lib;
    Proceed lib] ++ restart ++
  steps [Proceed (λ _, None); Proceed (λ _, None); Pull; Pull; Settle; Proceed (λ _, None);
    Proceed (λ _, None); LeafReturns 0 (VText "ship it") 1 1; Proceed (λ _, None); Proceed (λ _, None)].

Definition then_ (w : @world value unit vm) h := match hist w h with Some (w, _) => w | None => w end.
Definition seen (w : @world value unit vm) h := match hist w h with Some (_, os) => os | None => [] end.

Lemma ran w h : match hist w h with Some _ => true | None => false end = true →
  hist w h = Some (then_ w h, seen w h).
Proof. unfold then_, seen. by destruct (hist w h) as [[? ?]|]. Qed.

Example run_sample :
  last (seen nothing (before ++ after)) = Some (Finished completed (Some (VText "ship it"))) ∧
  (omap (λ o, match o with Launched t => Some (t_seq t, t_prompt t) | _ => None end)
    (seen nothing (before ++ after))) =
    [(0%nat, "plan"%string); (1%nat, "code"%string); (2%nat, "tests"%string); (1%nat, "code"%string);
     (4%nat, "good"%string); (4%nat, "good"%string)].
Proof. by vm_compute. Qed.

Lemma no_usage s k : observe s ≠ Call usage k.
Proof. by destruct s. Qed.

Lemma nothing_fresh : fresh "run" nothing.
Proof. by split; [|split]. Qed.
End Crashes.

Lemma answered_leaves_are_not_rerun_witness :
  t_seq {| t_seq := 1; t_prompt := "code"; t_opts := @no_opts Sample.value |} ≠
  t_seq {| t_seq := 0; t_prompt := "plan"; t_opts := @no_opts Sample.value |}.
Proof.
  eapply (answered_leaves_are_not_rerun Sample.load Sample.observe Sample.hash "run" 10 2 false
    Sample.input Crashes.no_usage Crashes.nothing Crashes.before
    (Crashes.then_ Crashes.nothing Crashes.before) (Crashes.seen Crashes.nothing Crashes.before) Crashes.after
    (Crashes.then_ (Crashes.then_ Crashes.nothing Crashes.before) Crashes.after)
    (Crashes.seen (Crashes.then_ Crashes.nothing Crashes.before) Crashes.after)).
  - exact Crashes.nothing_fresh.
  - by apply Crashes.ran; vm_compute.
  - by apply Crashes.ran; vm_compute.
  - vm_compute. repeat constructor.
  - vm_compute. repeat constructor.
  - apply (list_elem_of_lookup_2 _ 1). by vm_compute.
  - apply (list_elem_of_lookup_2 _ 2). by vm_compute.
Defined.

Lemma resuming_is_transparent_witness : ∃ x, Some (Sample.VText "ship it") = Some x ∧
  let os := Crashes.seen Crashes.nothing (Crashes.before ++ Crashes.after) in
  returns Sample.load Sample.observe Sample.input (answered os) (saved_as os) x.
Proof.
  eapply (resuming_is_transparent Sample.load Sample.observe Sample.hash "run" 10 2 false
    Sample.input Crashes.no_usage Crashes.nothing (Crashes.before ++ Crashes.after)
    (Crashes.then_ Crashes.nothing (Crashes.before ++ Crashes.after))
    (Crashes.seen Crashes.nothing (Crashes.before ++ Crashes.after))).
  - exact Crashes.nothing_fresh.
  - by apply Crashes.ran; vm_compute.
  - vm_compute. repeat constructor.
  - vm_compute. repeat constructor.
Defined.
