(* ===== verification/WorkflowBudget.v ===== *)
(** * What bounds a workflow run

    Properties of the histories of [WorkflowResume] that hold whatever fails: a
    replay is an answer, the agent cap bounds the answers of a run but not its
    launches once the process crashes, and the worker pool of [parallel] drains.
    And what [usage] does to a replay. *)

From S2P Require Import Prelude WorkflowJournal WorkflowEngine WorkflowResume.
Local Open Scope Z_scope.

Section budget.
Context {V T vm : Type} `{!JsonValue V}.
Context (load : string → V → vm) (observe : vm → observation V vm).
Context (hash : hashed V → string).
Context (runId : string) (maxAgentsPerRun maxConcurrentLeaves : Z) (capabilities_persona : bool).
Context (input : CreateRunInput V T).

Local Notation tables := (tables V T).
Local Notation task := (task V).
Local Notation fanout := (fanout V).
Local Notation execution := (@execution V vm).
Local Notation world := (@world V T vm).
Local Notation begin_leaf := (begin_leaf (T := T) (vm := vm) hash runId maxAgentsPerRun capabilities_persona).
Local Notation pull := (pull (T := T) (vm := vm) hash runId maxAgentsPerRun maxConcurrentLeaves capabilities_persona).
Local Notation exec_step :=
  (exec_step (T := T) load observe hash runId maxAgentsPerRun maxConcurrentLeaves capabilities_persona).
Local Notation world_step :=
  (world_step load observe hash runId maxAgentsPerRun maxConcurrentLeaves capabilities_persona input).
Local Notation history :=
  (history load observe hash runId maxAgentsPerRun maxConcurrentLeaves capabilities_persona input).

(** ** What a step does to the journal *)

(** A step leaves the journal alone, or writes one entry: an answer, a failure
    or a snapshot. *)
Inductive journal_step (d d' : tables) (os : list (obs V)) : Prop :=
  | js_same : (∀ n, getJournalEntry runId n d' = getJournalEntry runId n d) →
      quiet os → journal_step d d' os
  | js_write now i n : (∀ j, getJournalEntry runId j d' =
        getJournalEntry runId j (appendJournalEntry now runId n i d)) →
      (∀ t v, Replayed t v ∉ os) →
      (append_status i = "completed"%string → append_kind i = agent_entry →
        ∃ t, Answered t (append_result i) ∈ os ∧ t_seq t = n ∧ append_callHash i = hash (task_hash t)) →
      (append_kind i = workflow_entry → ∃ name, append_callHash i = hash (HashWorkflow name)) →
      journal_step d d' os.

Lemma begin_replays d (m m' : execution) t v : begin_leaf d m t = (m', Replay v) →
  ∃ e, getJournalEntry runId (t_seq t) d = Some e ∧ callHash e = hash (task_hash t) ∧
    entry_status e = "completed"%string ∧ result e = v.
Proof.
  unfold WorkflowEngine.begin_leaf, launch. intros Hb. repeat case_match; simplify_eq.
  eexists. split; [done|]. apply andb_true_iff in H1 as [?%bool_decide_eq_true ?%bool_decide_eq_true]. done.
Qed.

(** A replay comes from the journal as it is. *)
Definition from_journal (d : tables) (os : list (obs V)) : Prop :=
  ∀ t v, Replayed t v ∈ os → ∃ e, getJournalEntry runId (t_seq t) d = Some e ∧
    callHash e = hash (task_hash t) ∧ entry_status e = "completed"%string ∧ result e = v.

Definition no_replay (os : list (obs V)) : Prop :=
  Forall (λ o, match o with Replayed _ _ => False | _ => True end) os.

Lemma no_replay_from d os : no_replay os → from_journal d os.
Proof. intros Hn t v Hv. by apply (proj1 (Forall_forall _ _) Hn) in Hv. Qed.

Lemma no_replay_not os t v : no_replay os → Replayed t v ∉ os.
Proof. intros Hn Hv. by apply (proj1 (Forall_forall _ _) Hn) in Hv. Qed.

Ltac calm := by repeat constructor.

Lemma host_call_journal now lib d m c d' m' os :
  host_call load observe hash runId maxAgentsPerRun capabilities_persona now lib d m c = (d', m', os) →
  journal_step d d' os ∧ from_journal d os.
Proof.
  destruct c as [p o|p o|specs|name args|t|t| |name]; simpl; unfold answer;
    try by intros [= <- <- <-]; split; [apply js_same; [done|calm]|apply no_replay_from; calm].
  - unfold hostAgent. destruct (begin_leaf _ _ _) as [m1 [v|e|]] eqn:Hb; intros [= <- <- <-];
      (split; [apply js_same; [done|calm]|]); try (by apply no_replay_from; calm).
    intros t v' [[= -> ->]|[?|?%not_elem_of_nil]%elem_of_cons]%elem_of_cons; [|done..].
    by eapply begin_replays.
  - unfold hostParallel. destruct (toSpecArray _ _); intros [= <- <- <-];
      (split; [apply js_same; [done|calm]|apply no_replay_from; calm]).
  - unfold hostWorkflow. repeat case_match; intros [= <- <- <-];
      (split; [|apply no_replay_from; calm]); try (by apply js_same; [done|calm]).
    all: eapply js_write; [done|by intros ? ? [?|?%not_elem_of_nil]%elem_of_cons|done|by eexists].
Qed.

Lemma exec_step_journal now e d m d' m' os : exec_step now e d m = Some (d', m', os) →
  journal_step d d' os ∧ from_journal d os.
Proof.
  assert (∀ m v d' m' os, leave observe runId maxAgentsPerRun now d m v = (d', m', os) →
    journal_step d d' os ∧ from_journal d os) as Hleave.
  { unfold leave, finish. intros m0 v d0 m1 os0.
    destruct (suspended m0); intros [= <- <- <-];
      (split; [apply js_same; [done|calm]|apply no_replay_from; calm]). }
  destruct e as [lib| | | | |i v x y|i msg b|]; simpl.
  - unfold proceed. destruct (waiting m); [done|].
    destruct (observe (script (current m))); [..|done]; [by intros [= ?%Hleave]..|].
    destruct (host_call _ _ _ _ _ _ _ _ _ _ _) as [[? ?] ?] eqn:Hh. intros [= <- <- <-].
    by apply host_call_journal in Hh.
  - destruct (waiting m); [done|]. by intros [= ?%Hleave].
  - destruct (waiting m) as [[]|]; [done| |done].
    destruct (pull d m f) as [[[m1 f1] os1]|] eqn:Hp; [|done]. intros [= <- <- <-].
    unfold WorkflowEngine.pull in Hp. destruct (firstError f); [done|].
    destruct (tasks f !! cursor f) as [t|]; [|done]. destruct (_ <? _); [|done].
    destruct (begin_leaf d m t) as [m2 [v|e|]] eqn:Hb; simplify_eq/=;
      (split; [apply js_same; [done|calm]|]); try (by apply no_replay_from; calm).
    intros t' v' [[= -> ->]|?%not_elem_of_nil]%elem_of_cons; [|done]. by eapply begin_replays.
  - destruct (waiting m) as [[]|]; [done| |done]. unfold catch. destruct (thrown f); [done|]. cbn [mbind option_bind].
    intros [= <- <- <-]. destruct (bool_decide _); (split; [apply js_same; [done|calm]|apply no_replay_from; calm]).
  - destruct (waiting m) as [[]|]; [done| |done]. case_match; [|done].
    intros [= <- <- <-]. split; [apply js_same; [done|calm]|apply no_replay_from; calm].
  - unfold leaf_returns. destruct (waiting m) as [[t|f]|]; simpl; [| |done].
    + intros [= <- <- <-]. split; [|apply no_replay_from; calm].
      eapply js_write; [done|intros ? ?; apply no_replay_not; calm| |done].
      intros _ _. exists t. split; [by left|done].
    + destruct (tasks f !! i) as [t|]; [|done]. case_bool_decide; [|done]. intros [= <- <- <-].
      split; [|apply no_replay_from; calm].
      eapply js_write; [done|intros ? ?; apply no_replay_not; calm| |done].
      intros _ _. exists t. split; [by left|done].
  - unfold leaf_rejects, leaf_rejected, fan_settles.
    destruct (waiting m) as [[t|f]|]; simpl; [| |done].
    + destruct (_ || b); simpl; intros [= <- <- <-]; (split; [|apply no_replay_from; calm]).
      * apply js_same; [done|calm].
      * eapply js_write; [done|intros ? ?; apply no_replay_not; calm|done|done].
    + destruct (tasks f !! i) as [t|]; [|done]. case_bool_decide; [|done].
      destruct (_ || b); simpl; intros [= <- <- <-].
      * destruct (bool_decide _); (split; [apply js_same; [done|calm]|apply no_replay_from; calm]).
      * split; [|apply no_replay_from; calm].
        eapply js_write; [done|intros ? ?; apply no_replay_not; calm|done|done].
  - intros [= <- <- <-]. split; [apply js_same; [done|calm]|apply no_replay_from; calm].
Qed.

Lemma world_step_journal now e w w' os : world_step now e w = Some (w', os) →
  journal_step (db w) (db w') os ∧ from_journal (db w) os.
Proof.
  unfold WorkflowResume.world_step. destruct e as [|e| |]; destruct (process w) as [m|]; try done.
  - intros [= <- <-]. split; [|apply no_replay_from; calm]. apply js_same; [|calm]. simpl.
    intros n. unfold createRun, getRun. by destruct (workflow_runs (db w) !! runId).
  - destruct (exec_step now e (db w) m) as [[[d m'] os']|] eqn:He; [|done]. intros [= <- <-].
    by apply exec_step_journal in He.
  - intros [= <- <-]. split; [by apply js_same; [done|calm]|apply no_replay_from; calm].
  - intros [= <- <-]. split; [by apply js_same; [done|calm]|apply no_replay_from; calm].
  - intros [= <- <-]. split; [by apply js_same; [done|calm]|apply no_replay_from; calm].
Qed.

(** ** Replays are answers *)

Definition honest (os : list (obs V)) (d : tables) : Prop := ∀ n e,
  getJournalEntry runId n d = Some e → entry_status e = "completed"%string →
  match kind e with
  | agent_entry => ∃ t, Answered t (result e) ∈ os ∧ t_seq t = n ∧ callHash e = hash (task_hash t)
  | workflow_entry => ∃ name, callHash e = hash (HashWorkflow name)
  end.

Lemma honest_step os d d' os' : honest os d → journal_step d d' os' → honest (os ++ os') d'.
Proof.
  assert (∀ n e, match kind e with
      | agent_entry => ∃ t, Answered t (result e) ∈ os ∧ t_seq t = n ∧ callHash e = hash (task_hash t)
      | workflow_entry => ∃ name, callHash e = hash (HashWorkflow name) end →
    match kind e with
      | agent_entry => ∃ t, Answered t (result e) ∈ os ++ os' ∧ t_seq t = n ∧ callHash e = hash (task_hash t)
      | workflow_entry => ∃ name, callHash e = hash (HashWorkflow name) end) as Hmono.
  { intros n e. destruct (kind e); [|done]. intros (t & ? & ?). exists t. rw elem_of_app. auto. }
  intros Hh [Hd _|now i n Hd _ Ha Hw] j e.
  - rw Hd. intros He Hc. by apply Hmono, Hh.
  - rw Hd getJournalEntry_append. case_decide as Hj; [|by intros; apply Hmono, Hh].
    injection Hj as <-. intros [= <-] Hc. simpl in *. destruct (append_kind i); [|by apply Hw].
    destruct (Ha Hc eq_refl) as (t & ? & ? & ?). exists t. rw elem_of_app. auto.
Qed.

Lemma history_honest w os h w' os' : honest os (db w) → history w h = Some (w', os') →
  honest (os ++ os') (db w').
Proof.
  revert w os os'. induction h as [|[now e] h IH]; intros w os os' Hs.
  { intros [= <- <-]. by rw app_nil_r. }
  intros (w1 & os1 & os2 & Hw & Hh & ->)%history_cons. apply world_step_journal in Hw as [Hj _].
  rw app_assoc. eapply IH; [|exact Hh]. by eapply honest_step.
Qed.

(** A replay is an answer.  In every history, whatever failed, whatever the
    script asks and however often it was resumed, a value that is replayed to
    the script is one that the leaf runner returned before, at this sequence
    number, for a call with this hash. *)
Theorem replays_are_answers w h w1 os1 now e w2 os2 t v :
  (∀ u name, hash (task_hash u) ≠ hash (HashWorkflow name)) →
  fresh runId w → history w h = Some (w1, os1) → world_step now e w1 = Some (w2, os2) →
  Replayed t v ∈ os2 →
  ∃ t', Answered t' v ∈ os1 ∧ t_seq t' = t_seq t ∧ hash (task_hash t') = hash (task_hash t).
Proof.
  intros Hdis (_ & _ & Hj) Hh [_ Hf]%world_step_journal (x & Hx & Hhash & Hc & <-)%Hf.
  assert (honest os1 (db w1)) as Hon.
  { eapply (history_honest w []); [|done]. intros n y. by rw Hj. }
  specialize (Hon _ _ Hx Hc). destruct (kind x).
  - destruct Hon as (t' & ? & ? & ?). exists t'. split; [done|]. split; [done|congruence].
  - destruct Hon as (name & Hn). destruct (Hdis t name). congruence.
Qed.

(** ** The agent cap *)

Definition is_answer (o : obs V) : bool := match o with Answered _ _ => true | _ => false end.
Definition is_launch (o : obs V) : bool := match o with Launched _ => true | _ => false end.

Definition answers (os : list (obs V)) : Z := Z.of_nat (length (List.filter is_answer os)).
Definition launches (os : list (obs V)) : Z := Z.of_nat (length (List.filter is_launch os)).

Lemma answers_app os os' : answers (os ++ os') = answers os + answers os'.
Proof. unfold answers. rw List.filter_app length_app. lia. Qed.
Lemma launches_app os os' : launches (os ++ os') = launches os + launches os'.
Proof. unfold launches. rw List.filter_app length_app. lia. Qed.

(** The leaves a run waits for. *)
Definition flying (m : execution) : Z :=
  match waiting m with
  | None => 0
  | Some (OneLeaf _) => 1
  | Some (Fanout f) => Z.of_nat (length (in_flight f))
  end.

Definition cap : Z := Z.max 0 maxAgentsPerRun.

(** How a step moves the counters: a launch is counted in memory at once, and an
    answer takes the count to the row. *)
Record books (d d' : tables) (m : execution) (m' : option execution) (os : list (obs V)) : Prop := {
  bk_row r : getRun runId d = Some r → ∃ r', getRun runId d' = Some r' ∧
    (run_agentsSpawned r' = run_agentsSpawned r ∧ answers os = 0 ∨
     run_agentsSpawned r' = agentsSpawned m + launches os);
  bk_memory m1 : m' = Some m1 → agentsSpawned m1 = agentsSpawned m + launches os ∧
    flying m1 + answers os ≤ flying m + launches os ∧
    (launches os = 0 ∨ agentsSpawned m1 ≤ maxAgentsPerRun);
  bk_end : m' = None → launches os = 0 ∧ answers os = 0;
}.

Lemma begin_spawns d (m m' : execution) t b : begin_leaf d m t = (m', b) →
  waiting m' = waiting m ∧
  agentsSpawned m' = agentsSpawned m + (match b with Launch => 1 | _ => 0 end) ∧
  (b = Launch → agentsSpawned m' ≤ maxAgentsPerRun).
Proof.
  unfold WorkflowEngine.begin_leaf, launch. intros Hb.
  repeat case_match; simplify_eq/=; zify_bools; (split; [done|]); split; intros; try done; lia.
Qed.

Lemma books_quiet d d' m m1 os : (∀ r, getRun runId d = Some r → ∃ r', getRun runId d' = Some r' ∧
    run_agentsSpawned r' = run_agentsSpawned r) →
  agentsSpawned m1 = agentsSpawned m → answers os = 0 → launches os = 0 → flying m1 ≤ flying m →
  books d d' m (Some m1) os.
Proof.
  intros Hr Hs Ha Hl Hf. split; [|intros ? [= <-]; lia|done].
  intros r (r' & ? & ?)%Hr. exists r'. split; [done|]. by left.
Qed.

Lemma host_call_books now lib d m c d' m' os : waiting m = None →
  host_call load observe hash runId maxAgentsPerRun capabilities_persona now lib d m c = (d', m', os) →
  books d d' m (Some m') os.
Proof.
  intros Hw.
  assert (flying m = 0) as Hf by (unfold flying; by rw Hw).
  destruct c as [p o|p o|specs|name args|t|t| |name]; simpl; unfold answer;
    try by intros [= <- <- <-]; apply books_quiet; [by eauto|done|done|done|by rw Hf].
  - unfold hostAgent. destruct (begin_leaf _ _ _) as [m1 [v|e|]] eqn:Hb; intros [= <- <- <-];
      apply begin_spawns in Hb as (Hw1 & Hs & Hc); simpl in Hs.
    1, 2: apply books_quiet; [by eauto|simpl; lia|done|done|by rw Hf].
    split; [|intros ? [= <-]|done].
    + intros r Hr. exists r. split; [done|]. by left.
    + specialize (Hc eq_refl). unfold launches, answers. simpl. unfold flying at 1. simpl. lia.
  - unfold hostParallel. destruct (toSpecArray _ _); intros [= <- <- <-];
      (apply books_quiet; [by eauto|done|done|done|by rw Hf]).
  - unfold hostWorkflow. repeat case_match; intros [= <- <- <-];
      (apply books_quiet; [by eauto|done|done|done|by rw Hf]).
Qed.

Lemma pull_books d m f m1 f1 os : waiting m = Some (Fanout f) → pull d m f = Some (m1, f1, os) →
  books d d m (Some (set_waiting (Some (Fanout f1)) m1)) os.
Proof.
  intros Hw Hp. unfold WorkflowEngine.pull in Hp. destruct (firstError f); [done|].
  destruct (tasks f !! cursor f) as [t|]; [|done]. destruct (_ <? _); [|done].
  assert (flying m = Z.of_nat (length (in_flight f))) as Hf by (unfold flying; by rw Hw).
  destruct (begin_leaf d m t) as [m2 [v|e|]] eqn:Hb; apply begin_spawns in Hb as (Hw1 & Hs & Hc);
    simplify_eq/=.
  1, 2: apply books_quiet; [by eauto|simpl; lia|done|done|unfold flying at 1; simpl; lia].
  split; [|intros ? [= <-]|done].
  - intros r Hr. exists r. split; [done|]. by left.
  - specialize (Hc eq_refl). unfold launches, answers, flying at 1. simpl. rw length_app /=. lia.
Qed.

Lemma flight_shrinks i (l : list nat) : i ∈ l → (length (filter (λ j, j ≠ i) l) < length l)%nat.
Proof. intros Hi. apply length_filter_lt with i; [done|]. naive_solver. Qed.

Lemma leave_books now d m v d' m' os : waiting m = None →
  leave observe runId maxAgentsPerRun now d m v = (d', m', os) → books d d' m m' os.
Proof.
  intros Hw. unfold leave, finish. destruct (suspended m); intros [= <- <- <-].
  - split; [|done|done]. intros r Hr. unfold finishRun, flushCounters, updateRun.
    rw !getRun_same Hr /=. eexists. split; [done|]. right. simpl. unfold launches. simpl. lia.
  - apply books_quiet; [by eauto|done|done|done|]. unfold flying. by rw Hw.
Qed.

(** The row after an answer. *)
Lemma answer_row now (d : tables) (m : execution) t v x y d' m1 r :
  leaf_completed hash runId now d m t v x y = (d', m1) → getRun runId d = Some r →
  ∃ r', getRun runId d' = Some r' ∧ run_agentsSpawned r' = agentsSpawned m.
Proof.
  intros [= <- <-] Hr. unfold flushCounters, updateRun, appendJournalEntry, getRun. simpl.
  rw lookup_alter_eq. unfold getRun in Hr. rw Hr. by eexists.
Qed.

Lemma exec_step_books now e d m d' m' os : exec_step now e d m = Some (d', m', os) →
  books d d' m m' os.
Proof.
  destruct e as [lib| | | | |i v x y|i msg b|]; simpl.
  - unfold proceed. destruct (waiting m) eqn:Hw; [done|].
    destruct (observe (script (current m))); [..|done];
      [by intros [= Hl]; apply (leave_books _ _ _ _ _ _ _ Hw Hl)..|].
    destruct (host_call _ _ _ _ _ _ _ _ _ _ _) as [[? ?] ?] eqn:Hh. intros [= <- <- <-].
    by eapply host_call_books.
  - destruct (waiting m) eqn:Hw; [done|]. intros [= Hl]. by apply (leave_books _ _ _ _ _ _ _ Hw Hl).
  - destruct (waiting m) as [[]|] eqn:Hw; [done| |done].
    destruct (pull d m f) as [[[m1 f1] os1]|] eqn:Hp; [|done]. intros [= <- <- <-]. by eapply pull_books.
  - destruct (waiting m) as [[]|] eqn:Hw; [done| |done]. unfold catch. destruct (thrown f); [done|]. cbn [mbind option_bind].
    intros [= <- <- <-]. destruct (bool_decide _); (apply books_quiet; [by eauto|done|done|done|]);
      unfold flying; rw Hw; simpl; lia.
  - destruct (waiting m) as [[]|] eqn:Hw; [done| |done]. case_match; [|done].
    intros [= <- <- <-]. apply books_quiet; [by eauto|done|done|done|].
    unfold flying. rw Hw. simpl. lia.
  - unfold leaf_returns. destruct (waiting m) as [[t|f]|] eqn:Hw; [| |done].
    + destruct (leaf_completed _ _ _ _ _ _ _ _ _) as [d1 m1] eqn:Hl. intros [= <- <- <-].
      split; [|intros ? [= <-]|done].
      * intros r Hr. destruct (answer_row _ _ _ _ _ _ _ _ _ _ Hl Hr) as (r' & ? & ?).
        exists r'. split; [done|]. right. unfold launches. simpl. lia.
      * injection Hl as _ <-. unfold flying, launches, answers. rw Hw. simpl. lia.
    + destruct (tasks f !! i) as [t|]; [|done]. case_bool_decide as Hi; [|done].
      destruct (leaf_completed _ _ _ _ _ _ _ _ _) as [d1 m1] eqn:Hl. intros [= <- <- <-].
      split; [|intros ? [= <-]|done].
      * intros r Hr. destruct (answer_row _ _ _ _ _ _ _ _ _ _ Hl Hr) as (r' & ? & ?).
        exists r'. split; [done|]. right. unfold launches. simpl. lia.
      * injection Hl as _ <-. apply flight_shrinks in Hi.
        unfold flying, launches, answers. rw Hw. simpl. lia.
  - unfold leaf_rejects, leaf_rejected, fan_settles. destruct (waiting m) as [[t|f]|] eqn:Hw; [| |done].
    + destruct (_ || b); simpl; intros [= <- <- <-];
        (apply books_quiet; [by eauto|done|done|done|unfold flying; rw Hw; simpl; lia]).
    + destruct (tasks f !! i) as [t|]; [|done]. case_bool_decide as Hi; [|done].
      apply flight_shrinks in Hi.
      destruct (_ || b); simpl; intros [= <- <- <-]; [destruct (bool_decide _)|];
        (apply books_quiet; [by eauto|done|done|done|unfold flying; rw Hw; simpl; lia]).
  - intros [= <- <- <-]. apply books_quiet; [by eauto|done|done|done|]. unfold flying. simpl. lia.
Qed.

(** The invariant: [n] answers so far, [l] launches in [e] executions. *)
Record within (w : world) (n l e : Z) : Prop := {
  wi_executions : 0 ≤ e;
  wi_answers : 0 ≤ n;
  wi_row r : getRun runId (db w) = Some r → n ≤ run_agentsSpawned r ≤ cap;
  wi_none : getRun runId (db w) = None → n = 0 ∧ process w = None;
  wi_memory m : process w = Some m → n + flying m ≤ agentsSpawned m ≤ cap ∧
    l ≤ (e - 1) * cap + agentsSpawned m;
  wi_launches : l ≤ e * cap;
}.

Definition is_execution (e : world_event (V := V)) : Z := match e with Execute => 1 | _ => 0 end.

Definition executions (h : list (Z * world_event (V := V))) : Z :=
  foldr (λ '(_, e) n, is_execution e + n) 0 h.

Lemma flying_nonneg m : 0 ≤ flying m.
Proof. unfold flying. repeat case_match; lia. Qed.
Lemma answers_nonneg os : 0 ≤ answers os.
Proof. unfold answers. lia. Qed.
Lemma launches_nonneg os : 0 ≤ launches os.
Proof. unfold launches. lia. Qed.

Lemma within_execute now w n l x : process w = None → within w n l x →
  let '(d, m) := executeWorkflow load runId now input (db w) in
  within {| db := d; process := Some m |} n l (x + 1).
Proof.
  intros Hm Hi. destruct (getRun runId (db w)) as [r|] eqn:Hr; unfold executeWorkflow; rw Hr.
  - pose proof (wi_row _ _ _ _ Hi r Hr). pose proof (wi_launches _ _ _ _ Hi).
    pose proof (wi_answers _ _ _ _ Hi). pose proof (wi_executions _ _ _ _ Hi).
    split; simpl; [lia|lia| | | |].
    + intros r'. unfold updateRun. rw getRun_same Hr. by intros [= <-].
    + unfold updateRun. by rw getRun_same Hr.
    + intros ? [= <-]. simpl. unfold flying. simpl. lia.
    + unfold cap in *. lia.
  - destruct (wi_none _ _ _ _ Hi Hr) as [-> _]. pose proof (wi_launches _ _ _ _ Hi).
    pose proof (wi_executions _ _ _ _ Hi).
    unfold createRun. unfold getRun in Hr. rw Hr. split; simpl; [lia|lia| | | |].
    + intros r'. unfold getRun, with_run. simpl. rw lookup_insert_eq. intros [= <-]. simpl. unfold cap. lia.
    + unfold getRun, with_run. simpl. by rw lookup_insert_eq.
    + intros ? [= <-]. simpl. unfold flying, cap in *. simpl. lia.
    + unfold cap in *. lia.
Qed.

Lemma within_exec now e w m d m' os n l x : process w = Some m → within w n l x →
  exec_step now e (db w) m = Some (d, m', os) →
  within {| db := d; process := m' |} (n + answers os) (l + launches os) x.
Proof.
  intros Hm Hi [Hrow Hmem Hend]%exec_step_books.
  destruct (wi_memory _ _ _ _ Hi m Hm) as [Hs Hl]. pose proof (wi_launches _ _ _ _ Hi).
  pose proof (wi_answers _ _ _ _ Hi). pose proof (wi_executions _ _ _ _ Hi).
  pose proof (answers_nonneg os). pose proof (launches_nonneg os). pose proof (flying_nonneg m).
  destruct (getRun runId (db w)) as [r|] eqn:Hr;
    [|by destruct (wi_none _ _ _ _ Hi Hr) as [_ Hn]; congruence].
  pose proof (wi_row _ _ _ _ Hi r Hr). destruct (Hrow r eq_refl) as (r' & Hr' & Hr'').
  assert (agentsSpawned m + launches os ≤ cap ∧ n + answers os ≤ agentsSpawned m + launches os ∧
    l + launches os ≤ (x - 1) * cap + (agentsSpawned m + launches os)) as (Hcap & Hn & Hla).
  { destruct m' as [m1|].
    - destruct (Hmem m1 eq_refl) as (? & ? & ?). pose proof (flying_nonneg m1). unfold cap in *. lia.
    - destruct (Hend eq_refl). lia. }
  split; simpl; [lia|lia| | | |].
  - intros y. rw Hr'. intros [= <-]. unfold cap in *. lia.
  - by rw Hr'.
  - intros m1 [= ->]. destruct (Hmem m1 eq_refl) as (? & ? & ?). unfold cap in *. lia.
  - unfold cap in *. lia.
Qed.

Lemma within_rest w d n l x : (∀ r, getRun runId d = Some r → ∃ r0, getRun runId (db w) = Some r0 ∧
    run_agentsSpawned r = run_agentsSpawned r0) →
  (getRun runId d = None → getRun runId (db w) = None) →
  within w n l x → within {| db := d; process := None |} n l x.
Proof.
  intros Hr Hn Hi. split; simpl; [apply Hi|apply Hi| | |done|apply Hi].
  - intros r (r0 & Hr0 & ->)%Hr. by apply (wi_row _ _ _ _ Hi).
  - intros ?%Hn. split; [|done]. by destruct (wi_none _ _ _ _ Hi).
Qed.

Lemma within_step now e w w' os n l x : world_step now e w = Some (w', os) → within w n l x →
  within w' (n + answers os) (l + launches os) (x + is_execution e).
Proof.
  unfold WorkflowResume.world_step. intros Hstep Hi.
  destruct e as [|e| |]; destruct (process w) as [m|] eqn:Hm; try done; simpl.
  - pose proof (within_execute now w n l x Hm Hi) as Hx.
    destruct (executeWorkflow _ _ _ _ _) as [d m]. injection Hstep as <- <-. by rw !Z.add_0_r.
  - destruct (exec_step now e (db w) m) as [[[d m'] os']|] eqn:He; [|done].
    injection Hstep as <- <-. rw Z.add_0_r. by eapply within_exec.
  - injection Hstep as <- <-. rw !Z.add_0_r. apply (within_rest w); [by eauto|done|done].
  - injection Hstep as <- <-. rw !Z.add_0_r. apply (within_rest w); [by eauto|done|done].
  - injection Hstep as <- <-. rw !Z.add_0_r.
    assert (getRun runId (markRunningAsInterrupted now (db w)) = interrupt now <$> getRun runId (db w))
      as Hf by apply lookup_fmap.
    apply (within_rest w); [| |done]; rw Hf; destruct (getRun runId (db w)) as [r|]; try done.
    intros ? [= <-]. exists r. split; [done|]. unfold interrupt. by case_bool_decide.
Qed.

Lemma history_within w h w' os n l x : history w h = Some (w', os) → within w n l x →
  within w' (n + answers os) (l + launches os) (x + executions h).
Proof.
  revert w os n l x. induction h as [|[now e] h IH]; intros w os n l x.
  { intros [= <- <-]. simpl. by rw !Z.add_0_r. }
  intros (w1 & os1 & os2 & Hw & Hh & ->)%history_cons Hi. simpl.
  rw answers_app launches_app !Z.add_assoc. eapply IH; [done|]. by eapply within_step.
Qed.

(** The agent cap bounds a run.  Over all its executions a run is answered by
    at most [maxAgentsPerRun] leaves, whatever it crashes on; and it launches at
    most that many in each execution. *)
Theorem agent_cap_bounds_run w h w' os : fresh runId w → history w h = Some (w', os) →
  answers os ≤ Z.max 0 maxAgentsPerRun ∧
  launches os ≤ executions h * Z.max 0 maxAgentsPerRun.
Proof.
  intros (Hp & Hr & _) Hh.
  assert (within w 0 0 0) as Hi.
  { split; [done|done| | | |]; rewrite ?Hr ?Hp; done. }
  pose proof (history_within _ _ _ _ _ _ _ Hh Hi) as Hw.
  pose proof (wi_launches _ _ _ _ Hw) as Hl. unfold cap in Hl. split; [|lia].
  destruct (getRun runId (db w')) as [r|] eqn:Hr'.
  - pose proof (wi_row _ _ _ _ Hw r Hr'). unfold cap in *. lia.
  - destruct (wi_none _ _ _ _ Hw Hr'). lia.
Qed.

(** ** The worker pool *)

Local Notation width := (width (V := V) maxConcurrentLeaves).

Definition pool_ok (f : fanout) : Prop :=
  (∀ i, i ∈ in_flight f → (i < length (tasks f))%nat) ∧
  Z.of_nat (length (in_flight f) + length (thrown f)) ≤ width f.

Definition pools_ok (o : option execution) : Prop :=
  ∀ m f, o = Some m → waiting m = Some (Fanout f) → pool_ok f.

(** Two for a task that is to be pulled, one for a leaf in flight or an exception
    that is to be caught. *)
Definition pool_work (f : fanout) : nat :=
  2 * (length (tasks f) - cursor f) + length (in_flight f) + length (thrown f).

Lemma width_pos f : 1 ≤ width f.
Proof. unfold WorkflowEngine.width. lia. Qed.

Lemma pool_settles i f g : pool_ok f → i ∈ in_flight f → tasks g = tasks f → cursor g = cursor f →
  in_flight g = filter (λ j, j ≠ i) (in_flight f) → thrown g = thrown f → pool_ok g ∧ (pool_work g < pool_work f)%nat.
Proof.
  intros [Hr Hw] Hi Ht Hc Hg Hx. unfold pool_ok, pool_work, WorkflowEngine.width in *. rw Hg Ht Hc Hx.
  apply flight_shrinks in Hi. split; [|lia]. split; [|lia].
  intros j [_ Hj]%list_elem_of_filter. by apply Hr.
Qed.

Lemma pool_pulls d m f m1 g os : pool_ok f → pull d m f = Some (m1, g, os) →
  pool_ok g ∧ (pool_work g < pool_work f)%nat.
Proof.
  intros [Hr Hw] Hp. unfold WorkflowEngine.pull in Hp. destruct (firstError f); [done|].
  destruct (tasks f !! cursor f) as [t|] eqn:Ht; [|done]. apply lookup_lt_Some in Ht.
  destruct (Z.ltb_spec (Z.of_nat (length (in_flight f) + length (thrown f))) (width f)) as [Hlt|]; [|done].
  unfold pool_ok, pool_work, WorkflowEngine.width in *.
  destruct (begin_leaf d m t) as [m2 [v|e|]]; simplify_eq/=; rw ?length_app /=; (split; [|lia]); (split; [|lia]); [done..|].
  by intros i [?%Hr| ->%list_elem_of_singleton]%elem_of_app.
Qed.

(** A worker in its [catch] is done. *)
Lemma pool_catches f g os : pool_ok f → catch f = Some (g, os) → pool_ok g ∧ (pool_work g < pool_work f)%nat.
Proof.
  intros [Hr Hw]. unfold catch, pool_ok, pool_work, WorkflowEngine.width in *. destruct (thrown f) as [|e rest]; [done|].
  intros [= <- _]. simpl in *. split; [|lia]. by split; [|lia].
Qed.

Definition is_pool_event (e : @event V) : bool :=
  match e with Pull | Catch | Settle | LeafReturns _ _ _ _ | LeafRejects _ _ _ => true | _ => false end.

(** Every event of a pool ends it or leaves it less to do. *)
Lemma pool_step now e d m f d' m1 os : waiting m = Some (Fanout f) → pool_ok f →
  exec_step now e d m = Some (d', Some m1, os) → is_pool_event e = true →
  waiting m1 = None ∨ ∃ g, waiting m1 = Some (Fanout g) ∧ pool_ok g ∧ (pool_work g < pool_work f)%nat.
Proof.
  intros Hw Hf. destruct e as [lib| | | | |i v x y|i msg b|]; simpl; rw ?Hw; try done.
  - destruct (pull d m f) as [[[m2 g] os1]|] eqn:Hp; [|done]. intros [= <- <- <-] _. right.
    exists g. split; [done|]. by eapply pool_pulls.
  - destruct (catch f) as [[g os1]|] eqn:Hp; [|done]. intros [= <- <- <-] _. right.
    exists g. split; [done|]. by eapply pool_catches.
  - destruct (drained f); [|done]. intros [= <- <- <-] _. by left.
  - unfold leaf_returns. rw Hw. destruct (tasks f !! i); [|done]. case_bool_decide as Hi; [|done].
    intros [= <- <- <-] _. right. eexists. split; [done|]. by eapply (pool_settles i f).
  - unfold leaf_rejects, leaf_rejected, fan_settles. rw Hw.
    destruct (tasks f !! i); [|done]. case_bool_decide as Hi; [|done].
    destruct (_ || b); intros [= <- <- <-] _; right; eexists; (split; [done|]);
      by eapply (pool_settles i f).
Qed.

Lemma pools_ok_answer m r : pools_ok (Some (respond observe r m)).
Proof. by intros ? f [= <-]. Qed.

Lemma pools_ok_leaf m t : pools_ok (Some (set_waiting (Some (OneLeaf t)) m)).
Proof. by intros ? f [= <-]. Qed.

Lemma exec_step_pools now e d m d' m' os : pools_ok (Some m) →
  exec_step now e d m = Some (d', m', os) → pools_ok m'.
Proof.
  intros Hok He. destruct m' as [m1|]; [|done].
  destruct (waiting m) as [[t|f]|] eqn:Hw.
  - destruct e as [lib| | | | |i v x y|i msg b|]; simpl in He; rewrite ?Hw in He; try done.
    + unfold proceed in He. by rw Hw in He.
    + unfold leaf_returns in He. rw Hw in He. injection He as _ <- _. apply pools_ok_answer.
    + unfold leaf_rejects in He. rw Hw in He. destruct (leaf_rejected _ _ _ _ _ _ _ _).
      injection He as _ <- _. apply pools_ok_answer.
    + injection He as _ <- _. intros ? f [= <-]. simpl. by rw Hw.
  - pose proof (Hok m f eq_refl Hw) as Hf. destruct (is_pool_event e) eqn:Hp.
    + destruct (pool_step _ _ _ _ _ _ _ _ Hw Hf He Hp) as [Hn|(g & Hg & ? & _)];
        intros ? f' [= <-]; congruence.
    + destruct e; simpl in He; rewrite ?Hw in He; try done.
      * unfold proceed in He. by rw Hw in He.
      * injection He as _ <- _. intros ? f' [= <-]. simpl. rw Hw. by intros [= <-].
  - destruct e as [lib| | | | |i v x y|i msg b|]; simpl in He; rewrite ?Hw in He; try done.
    + unfold proceed in He. rw Hw in He. destruct (observe (script (current m))) as [v|x|c k|]; try done.
      1, 2: unfold leave in He; destruct (suspended m); simplify_eq/=; apply pools_ok_answer.
      destruct c as [p o|p o|specs|name args|t|t| |name]; simpl in He; unfold answer in He;
        try by injection He as _ <- _; apply pools_ok_answer.
      * injection He as _ <- _. unfold hostAgent.
        destruct (begin_leaf _ _ _) as [? []]; [apply pools_ok_answer..|apply pools_ok_leaf].
      * injection He as _ <- _. unfold hostParallel. destruct (toSpecArray _ _); [|apply pools_ok_answer].
        intros ? f [= <-] [= <-]. split; simpl; [by intros i ?%not_elem_of_nil|].
        pose proof (width_pos {| tasks := assign (nextSeq m) l; results := []; cursor := 0;
          in_flight := []; thrown := []; firstError := None |}). unfold WorkflowEngine.width in *. simpl in *. lia.
      * unfold hostWorkflow in He. repeat case_match; simplify_eq/=;
          solve [apply pools_ok_answer | by intros ? f [= <-]].
    + unfold leave in He. destruct (suspended m); simplify_eq/=. apply pools_ok_answer.
    + unfold leaf_returns in He. by rw Hw in He.
    + unfold leaf_rejects in He. by rw Hw in He.
    + injection He as _ <- _. intros ? f [= <-]. simpl. by rw Hw.
Qed.

Lemma history_pools w h w' os : pools_ok (process w) → history w h = Some (w', os) → pools_ok (process w').
Proof.
  revert w os. induction h as [|[now e] h IH]; intros w os Hok; [by intros [= <- <-]|].
  intros (w1 & os1 & os2 & Hw & Hh & ->)%history_cons. eapply IH; [|exact Hh].
  unfold WorkflowResume.world_step in Hw. destruct e as [|e| |]; destruct (process w) as [m|]; try done.
  - injection Hw as <- _. by intros ? f [= <-].
  - destruct (exec_step now e (db w) m) as [[[d m'] os']|] eqn:He; [|done].
    injection Hw as <- _. by eapply exec_step_pools.
  - by injection Hw as <- _.
  - by injection Hw as <- _.
  - by injection Hw as <- _.
Qed.

(** C32 — Every fan-out drains.  At any moment of any history at most
    [maxConcurrentLeaves] leaves of a [parallel] (or one) are in flight; each of
    them may settle; with none in flight a worker goes on (to the next task, or with
    the exception of a task that was refused) or the script gets its response; and
    every event of the pool ends it or leaves it less to do. *)
Theorem pools_drain w h w' os m f now : fresh runId w → history w h = Some (w', os) →
  process w' = Some m → waiting m = Some (Fanout f) →
  Z.of_nat (length (in_flight f)) ≤ Z.max 1 maxConcurrentLeaves ∧
  (∀ i v x y, i ∈ in_flight f → is_Some (exec_step now (LeafReturns i v x y) (db w') m)) ∧
  (in_flight f = [] →
    is_Some (exec_step now Pull (db w') m) ∨ is_Some (exec_step now Catch (db w') m) ∨
    is_Some (exec_step now Settle (db w') m)) ∧
  (∀ e d' m1 os', is_pool_event e = true → exec_step now e (db w') m = Some (d', Some m1, os') →
    waiting m1 = None ∨
    ∃ g, waiting m1 = Some (Fanout g) ∧ (pool_work g < pool_work f)%nat).
Proof.
  intros (Hp & _) Hh Hm Hw.
  assert (pool_ok f) as Hf.
  { eapply (history_pools w); [|exact Hh|exact Hm|exact Hw]. by rw Hp. }
  destruct (Hf) as [Hr Hwd]. split; [|split; [|split]].
  - unfold WorkflowEngine.width in Hwd. lia.
  - intros i v x y Hi. simpl. unfold leaf_returns. rw Hw.
    destruct (lookup_lt_is_Some_2 _ _ (Hr i Hi)) as [t ->]. by rw bool_decide_true.
  - intros Hnil. simpl. rw Hw. unfold WorkflowEngine.pull, catch, drained. rw Hnil. simpl.
    destruct (thrown f) as [|x rest]; [|right; left; by eexists]. simpl.
    destruct (firstError f); [right; right; by eexists|].
    destruct (tasks f !! cursor f) as [t|] eqn:Ht.
    + left. pose proof (width_pos f). rw (proj2 (Z.ltb_lt _ _)); [|lia].
      destruct (begin_leaf _ _ _) as [? []]; by eexists.
    + right; right. apply lookup_ge_None in Ht. rw (proj2 (Nat.leb_le _ _)); [by eexists|done].
  - intros e d' m1 os' He Hs.
    destruct (pool_step _ _ _ _ _ _ _ _ Hw Hf Hs He) as [?|(g & ? & _ & ?)]; [by left|right; by exists g].
Qed.
End budget.

(** ** Witnesses *)

Import Crashes.

Definition one_step (w : @world Sample.value unit Sample.vm) (e : @world_event Sample.value) :=
  world_step Sample.load Sample.observe Sample.hash "run" 10 2 false Sample.input 0 e w.

Lemma stepped w e : match one_step w e with Some _ => true | None => false end = true →
  one_step w e = Some (then_ w [(0, e)], seen w [(0, e)]).
Proof.
  unfold then_, seen, hist, one_step. simpl.
  destruct (world_step _ _ _ _ _ _ _ _ _ _ _) as [[w1 os1]|]; [|done]. simpl. by rw app_nil_r.
Qed.

Lemma replays_are_answers_witness :
  ∃ t', Answered t' (Sample.VText "code") ∈ seen nothing before ∧ t_seq t' = 0%nat ∧
    Sample.hash (task_hash t') = "leaf plan"%string.
Proof.
  eapply (replays_are_answers Sample.load Sample.observe Sample.hash "run" 10 2 false Sample.input
    nothing before (then_ nothing before) (seen nothing before) 0 (Step (Proceed Sample.lib))
    (then_ (then_ nothing before) [(0, Step (Proceed Sample.lib))])
    (seen (then_ nothing before) [(0, Step (Proceed Sample.lib))])
    {| t_seq := 0; t_prompt := "plan"; t_opts := no_opts |}).
  - by intros [? ? ?] ?.
  - exact nothing_fresh.
  - by apply ran; vm_compute.
  - apply (stepped (then_ nothing before) (Step (Proceed Sample.lib))). by vm_compute.
  - vm_compute. repeat constructor.
Defined.

Lemma agent_cap_bounds_run_witness :
  answers (seen nothing (before ++ after)) ≤ Z.max 0 10 ∧
  launches (seen nothing (before ++ after)) ≤ executions (before ++ after) * Z.max 0 10.
Proof.
  apply (agent_cap_bounds_run Sample.load Sample.observe Sample.hash "run" 10 2 false Sample.input
    nothing (before ++ after) (then_ nothing (before ++ after))).
  - exact nothing_fresh.
  - by apply ran; vm_compute.
Defined.

(** Both tasks of the pool are in flight. *)
Definition both : list (Z * @world_event Sample.value) := take 6 before.

Lemma pools_drain_witness : ∃ m f, process (then_ nothing both) = Some m ∧ waiting m = Some (Fanout f) ∧
  in_flight f = [0; 1]%nat ∧ Z.of_nat (length (in_flight f)) ≤ Z.max 1 2.
Proof.
  eexists _, _. split; [vm_compute; reflexivity|]. split; [reflexivity|]. split; [reflexivity|].
  eapply (pools_drain Sample.load Sample.observe Sample.hash "run" 10 2 false Sample.input
    nothing both (then_ nothing both) (seen nothing both) _ _ 0).
  - exact nothing_fresh.
  - by apply ran; vm_compute.
  - vm_compute. reflexivity.
  - reflexivity.
Defined.

(** ** What the guards do not cover *)

Module Meter.
Import Sample.

(** A script that asks how much it has used. *)
Inductive vm := First | Asked | Second (n : Z) | Third | Over (v : value).

Definition observe (s : vm) : observation value vm :=
  match s with
  | First => Call (agent "first" no_opts) (λ _, Asked)
  | Asked => Call usage (λ r, match r with UsageSnapshot n _ _ => Second n | _ => Third end)
  | Second n => Call (agent (String.append "second after " (pretty n)) no_opts) (λ _, Third)
  | Third => Call (agent "third" no_opts) (λ r, match r with Returned v => Over v | _ => Third end)
  | Over v => Return v
  end.

Definition load (source : string) (args : value) : vm := First.

Definition hist (cap : Z) := history load observe hash "run" cap 2 false input.
Definition nothing : @world value unit vm :=
  {| db := {| workflow_runs := ∅; workflow_journal := ∅ |}; process := None |}.

(** It dies while the third leaf runs. *)
Definition crashed : list (Z * @world_event value) :=
  (0, Execute) :: steps [Proceed lib; LeafReturns 0 (VText "one") 1 1; Proceed lib; Proceed lib;
    LeafReturns 0 (VText "two") 1 1; Proceed lib] ++ restart ++
  steps [Proceed lib; Proceed lib; Proceed lib].

Definition launched (os : list (obs value)) : list (nat * string) :=
  omap (λ o, match o with Launched t => Some (t_seq t, t_prompt t) | _ => None end) os.
End Meter.

(** Reading the accounting breaks the replay.  On a resumption the
    counters that [usage] reports are seeded with the totals of the executions
    before, while the script runs again from the top: a script that asks makes
    other calls than it made the first time, and a leaf that has answered is run
    again. *)
Theorem usage_breaks_replay : ∃ w os, Meter.hist 10 Meter.nothing Meter.crashed = Some (w, os) ∧
  Meter.launched os = [(0, "first"); (1, "second after 1"); (2, "third"); (1, "second after 2")]%nat%string ∧
  ∃ t, Answered t (Sample.VText "two") ∈ os ∧ t_seq t = 1%nat.
Proof.
  destruct (Meter.hist 10 Meter.nothing Meter.crashed) as [[w os]|] eqn:Hh; [|by vm_compute in Hh].
  exists w, os. split; [done|].
  assert (os = match Meter.hist 10 Meter.nothing Meter.crashed with Some (_, os) => os | None => [] end)
    as -> by by rewrite Hh.
  split; [by vm_compute|].
  exists {| t_seq := 1; t_prompt := "second after 1"; t_opts := no_opts |}. split; [|done].
  vm_compute. repeat constructor.
Qed.

Definition tight := history Sample.load Sample.observe Sample.hash "run" 1 2 false Sample.input.

(** Execute, launch the first leaf, die. *)
Definition cycle : list (Z * @world_event Sample.value) :=
  [(0, Execute); (0, Step (Proceed Sample.lib)); (0, Crash); (0, Reconcile)].

Definition nothing_counted (w : @world Sample.value unit Sample.vm) : Prop :=
  process w = None ∧ (∀ n, getJournalEntry "run" n (db w) = None) ∧
  ∀ r, getRun "run" (db w) = Some r → run_agentsSpawned r = 0.

Lemma cycle_counts_nothing w : nothing_counted w → ∃ w' t, tight w cycle = Some (w', [Launched t]) ∧
  nothing_counted w'.
Proof.
  intros (Hp & Hj & Hr). unfold tight, cycle. simpl. rw Hp.
  unfold executeWorkflow, open_execution. destruct (getRun "run" (db w)) as [r|] eqn:Hrun; simpl.
  - unfold hostAgent, begin_leaf. simpl. unfold getJournalEntry in *. simpl. rw Hj.
    unfold launch. simpl. rw (Hr r eq_refl). simpl. eexists _, _. split; [reflexivity|].
    split; [done|]. split; [exact Hj|]. unfold getRun. simpl. intros r'.
    rw lookup_fmap lookup_alter_eq. unfold getRun in Hrun. rw Hrun. simpl. intros [= <-].
    unfold interrupt. case_bool_decide; simpl; by apply Hr.
  - unfold createRun. unfold getRun in Hrun. rw Hrun. simpl.
    unfold hostAgent, begin_leaf. simpl. unfold getJournalEntry in *. simpl. rw Hj.
    simpl. eexists _, _. split; [reflexivity|].
    split; [done|]. split; [exact Hj|]. unfold getRun. simpl. intros r'.
    rw lookup_fmap lookup_insert_eq. simpl. by intros [= <-].
Qed.

(** Launches in flight at a crash are forgotten.  The count of launched
    leaves reaches the row with an answer; a run whose process dies before is
    resumed with the count of before, so under a cap of one leaf any number of
    leaves can be launched. *)
Theorem crashes_refund_the_cap (n : nat) : ∃ h w os, tight nothing h = Some (w, os) ∧
  launches os = Z.of_nat n ∧ answers os = 0.
Proof.
  assert (∀ w, nothing_counted w → ∃ h w' os, tight w h = Some (w', os) ∧
    launches os = Z.of_nat n ∧ answers os = 0) as H.
  { induction n as [|n IH]; intros w Hw; [by exists [], w, []|].
    destruct (cycle_counts_nothing w Hw) as (w1 & t & Hc & Hw1).
    destruct (IH w1 Hw1) as (h & w2 & os & Hh & Hl & Ha).
    exists (cycle ++ h), w2, (Launched t :: os).
    unfold tight in *. rw history_app Hc. simpl. rw Hh. split; [done|].
    unfold launches, answers in *. simpl. lia. }
  by apply H.
Qed.
