(* ===== verification/WorkflowRuns.v ===== *)
(** * The lifecycle of workflow runs

    [assistant/src/workflows/run-manager.ts]: launching, resuming and aborting
    runs over the engine of [WorkflowEngine], under a cap on concurrent runs.

    The manager of a process is its map of runs in flight; the tables survive it.
    A run stays in flight while its completion is announced, after the engine is
    done with it.  The script library, the tool registry, new ids and the outcome
    of [extractWorkflowMeta] are inputs of the operations; messages and wakes are
    returned in order, without the text of the summary. *)

From S2P Require Import Prelude MessageQueue WorkflowCapabilities WorkflowJournal WorkflowEngine.
Local Open Scope Z_scope.

(** [FALLBACK_TURN_TRUST] *)
Definition unattributed (sourceChannel trustClass : string) : TrustContext := {|
  sourceChannel := sourceChannel; trustClass := trustClass; guardianChatId := None;
  guardianExternalUserId := None; guardianPrincipalId := None; requesterIdentifier := None;
  requesterDisplayName := None; requesterSenderDisplayName := None; requesterMemberDisplayName := None;
  requesterTimezone := None; requesterTimezoneLabel := None; requesterTimezoneOffsetSeconds := None;
  requesterExternalUserId := None; requesterChatId := None; sourceMessageId := None;
  sourceThreadId := None; conversationType := None; requesterContactId := None;
  memberStatus := None; memberPolicy := None; requesterInteractionCount := None |}.

Definition FALLBACK_TURN_TRUST : TrustContext := unattributed "vellum" "unknown".

Definition VALID_TRUST_CLASSES : list string :=
  ["guardian"; "trusted_contact"; "unverified_contact"; "unknown"].

(** [reconstructResumeTrustContext(persisted)] *)
Definition reconstructResumeTrustContext (persisted : option TrustContext) : TrustContext :=
  match persisted with
  | Some candidate =>
      if bool_decide (trustClass candidate ∈ VALID_TRUST_CLASSES) then candidate else FALLBACK_TURN_TRUST
  | None => FALLBACK_TURN_TRUST
  end.

Inductive manager_error :=
  | WorkflowRunCapError (limit : Z)
  | ScriptNotFound (name : string)
  | CapabilityResolutionError (e : resolution_error * string)
  | BadMeta                          (* extractWorkflowMeta throws *)
  | RunExists                        (* the insert of the row fails *)
  | ResumeInFlight | ResumeNotFound | ResumeNotInterrupted (s : WorkflowRunStatus).

(** What the manager publishes. *)
Inductive message :=
  | workflow_started (runId conversationId : string) (toolUseId : option string) (label : string)
  | workflow_progress (runId : string) (conversationId : option string) (label : string) (agentsSpawned : Z)
      (is_phase : bool) (text : string)
  | workflow_leaf_started (runId conversationId : string) (seq : nat)
  | workflow_leaf_finished (runId conversationId : string) (seq : nat) (ok : bool)
  | workflow_completed (runId : string) (conversationId : option string) (s : WorkflowRunStatus)
  | wake (conversationId : string) (trust : TrustContext).

Section manager.
Context {V vm : Type} `{!JsonValue V}.
Context (load : string → V → vm) (observe : vm → observation V vm).
Context (hash : hashed V → string).
Context (maxAgentsPerRun maxConcurrentLeaves maxConcurrentRuns : Z).

Local Notation execution := (@execution V vm).
Local Notation tables := (tables V TrustContext).

(** A run in flight: the engine's execution until it is done, and the context of
    [runToCompletion]. *)
Record flight := {
  engine : option execution;
  run_label : string;
  run_grants : ResolvedCapabilities;
  ctx_conversationId : option string;
  ctx_trust : TrustContext;
}.

Record daemon := {
  store : tables;
  inflight : gmap string flight;
  booted : bool;                     (* orphaned runs have been reconciled *)
}.

Definition set_store (d : tables) (w : daemon) : daemon :=
  {| store := d; inflight := inflight w; booted := booted w |}.

Definition set_flight (runId : string) (f : flight) (w : daemon) : daemon :=
  {| store := store w; inflight := <[runId := f]> (inflight w); booted := booted w |}.

Definition with_engine (m : option execution) (f : flight) : flight :=
  {| engine := m; run_label := run_label f; run_grants := run_grants f;
     ctx_conversationId := ctx_conversationId f; ctx_trust := ctx_trust f |}.

(** [runToCompletion] up to its first suspension: the engine opens the run. *)
Definition run_to_completion (now : Z) (runId label source : string) (args : V)
    (caps : ResolvedCapabilities) (conversationId : option string) (trust : TrustContext)
    (w : daemon) : daemon :=
  let i := {| input_name := Some label; input_scriptSource := source; input_args := args;
              input_capabilities := None; input_status := running;
              input_conversationId := conversationId; input_trust := Some trust |} in
  let '(d, m) := executeWorkflow load runId now i (store w) in
  set_flight runId {| engine := Some m; run_label := label; run_grants := caps;
    ctx_conversationId := conversationId; ctx_trust := trust |} (set_store d w).

Record StartWorkflowOptions := {
  opt_source : string + string;      (* inline source, or the name of a saved workflow *)
  opt_args : V;
  opt_manifest : CapabilityManifest;
  opt_conversationId : option string;
  opt_toolUseId : option string;
  opt_label : option string;
  opt_trustContext : TrustContext;
}.

Definition full (w : daemon) : bool := maxConcurrentRuns <=? Z.of_nat (size (inflight w)).

(** [resolveScriptSource(opts)] *)
Definition resolveScriptSource (lib : string → option string) (o : StartWorkflowOptions) : option string :=
  match opt_source o with inl s => Some s | inr name => lib name end.

Definition is_named (o : StartWorkflowOptions) : string :=
  match opt_source o with inl _ => EmptyString | inr name => name end.

(** The row that [start] creates. *)
Definition launch_row (name source : string) (o : StartWorkflowOptions) : CreateRunInput V TrustContext := {|
  input_name := Some name; input_scriptSource := source; input_args := opt_args o;
  input_capabilities := Some (stored_of (opt_manifest o)); input_status := running;
  input_conversationId := opt_conversationId o; input_trust := Some (opt_trustContext o) |}.

(** [start(opts)]; [meta] is what [extractWorkflowMeta] finds in the source. *)
Definition start (now : Z) (r : registry) (lib : string → option string) (meta : string → option string)
    (newRunId : string) (o : StartWorkflowOptions) (w : daemon)
    : (daemon * string * list message) + manager_error :=
  if full w then inr (WorkflowRunCapError maxConcurrentRuns)
  else match resolveScriptSource lib o with
  | None => inr (ScriptNotFound (is_named o))
  | Some source =>
      match resolveCapabilities r (opt_manifest o) with
      | inr e => inr (CapabilityResolutionError e)
      | inl caps =>
          match meta source with
          | None => inr BadMeta
          | Some name =>
              let label := match opt_label o with Some l => l | None => name end in
              match createRun now newRunId (launch_row name source o) (store w) with
              | None => inr RunExists
              | Some d =>
                  inl (run_to_completion now newRunId label source (opt_args o) caps
                         (opt_conversationId o) (opt_trustContext o) (set_store d w),
                       newRunId,
                       match opt_conversationId o with
                       | Some c => if truthy (Some c)
                                   then [workflow_started newRunId c (opt_toolUseId o) label] else []
                       | None => []
                       end)
              end
          end
      end
  end.

(** [resume(runId)] *)
Definition resume (now : Z) (r : registry) (runId : string) (w : daemon)
    : (daemon * string) + manager_error :=
  match inflight w !! runId with
  | Some _ => inr ResumeInFlight
  | None =>
      match getRun runId (store w) with
      | None => inr ResumeNotFound
      | Some run =>
          if bool_decide (run_status run ≠ interrupted) then inr (ResumeNotInterrupted (run_status run))
          else if full w then inr (WorkflowRunCapError maxConcurrentRuns)
          else match resolveCapabilities r (normalizeCapabilityManifest (run_capabilities run)) with
          | inr e => inr (CapabilityResolutionError e)
          | inl caps =>
              let d := updateRun now runId {| set_status := Some running; set_counters := None |} (store w) in
              inl (run_to_completion now runId
                     (match run_name run with Some l => l | None => runId end)
                     (scriptSource run) (run_args run) caps (run_conversationId run)
                     (reconstructResumeTrustContext (run_trust run)) (set_store d w), runId)
          end
      end
  end.

(** [abort(runId)] *)
Definition abort_run (runId : string) (w : daemon) : daemon :=
  match inflight w !! runId with
  | Some f => set_flight runId (with_engine (abort <$> engine f) f) w
  | None => w
  end.

(** What the callbacks of [runToCompletion] make of an observation. *)
Definition announce (runId : string) (f : flight) (d : tables) (o : obs V) : list message :=
  let scoped m := match ctx_conversationId f with
                  | Some c => if truthy (Some c) then [m c] else []
                  | None => []
                  end in
  let conv := match ctx_conversationId f with
              | Some c => if truthy (Some c) then Some c else None
              | None => None
              end in
  match o with
  | Progress is_phase text =>
      [workflow_progress runId conv (run_label f)
         (match getRun runId d with Some r => run_agentsSpawned r | None => 0 end) is_phase text]
  | Launched t => scoped (λ c, workflow_leaf_started runId c (t_seq t))
  | Answered t _ => scoped (λ c, workflow_leaf_finished runId c (t_seq t) true)
  | LeafFailed t => scoped (λ c, workflow_leaf_finished runId c (t_seq t) false)
  | Finished s _ => workflow_completed runId conv s :: scoped (λ c, wake c (ctx_trust f))
  | _ => []
  end.

(** What comes out of the daemon: its messages, and what its runs do. *)
Inductive output := Said (m : message) | Seen (runId : string) (o : obs V).

Definition reported (runId : string) (f : flight) (d : tables) (o : obs V) : list output :=
  Seen runId o :: (Said <$> announce runId f d o).

(** The engine of a run takes a step. *)
Definition drive (now : Z) (runId : string) (e : @event V) (w : daemon) : option (daemon * list output) :=
  f ← inflight w !! runId;
  m ← engine f;
  '(d, m', os) ← exec_step load observe hash runId maxAgentsPerRun maxConcurrentLeaves
                   (WorkflowCapabilities.persona (run_grants f)) now e (store w) m;
  Some (set_flight runId (with_engine m' f) (set_store d w),
        concat (reported runId f (store w) <$> os)).

(** The wake has settled: [inflight.delete(runId)]. *)
Definition settle (runId : string) (w : daemon) : option daemon :=
  match inflight w !! runId with
  | Some f =>
      match engine f with
      | None => Some {| store := store w; inflight := delete runId (inflight w); booted := booted w |}
      | Some _ => None
      end
  | None => None
  end.

(** ** Histories of the daemon *)

Inductive operation :=
  | Start (r : registry) (lib meta : string → option string) (newRunId : string) (o : StartWorkflowOptions)
  | Resume (r : registry) (runId : string)
  | AbortRun (runId : string)
  | Drive (runId : string) (e : @event V)
  | Settled (runId : string)
  | Prune (retentionDays : Z)
  | Die
  | Boot.                            (* [reconcileOrphanedRuns()], before anything else *)

Definition perform (now : Z) (op : operation) (w : daemon) : option (daemon * list output) :=
  match op with
  | Boot =>
      if booted w then None
      else Some ({| store := markRunningAsInterrupted now (store w); inflight := ∅; booted := true |}, [])
  | Die => Some ({| store := store w; inflight := ∅; booted := false |}, [])
  | _ =>
      if booted w then
        match op with
        | Start r lib meta newRunId o =>
            match start now r lib meta newRunId o w with
            | inl (w, _, ms) => Some (w, Said <$> ms)
            | inr _ => Some (w, [])
            end
        | Resume r runId =>
            match resume now r runId w with
            | inl (w, _) => Some (w, [])
            | inr _ => Some (w, [])
            end
        | AbortRun runId => Some (abort_run runId w, [])
        | Drive runId e => drive now runId e w
        | Settled runId => w ← settle runId w; Some (w, [])
        | Prune days => Some (set_store (pruneRuns now days (store w)) w, [])
        | _ => None
        end
      else None
  end.

Fixpoint daemon_run (w : daemon) (h : list (Z * operation)) : option (daemon * list output) :=
  match h with
  | [] => Some (w, [])
  | (now, op) :: h =>
      '(w, ms) ← perform now op w;
      '(w, ms') ← daemon_run w h;
      Some (w, ms ++ ms')
  end.

(** ** What a step of a run writes *)

Local Notation WorkflowRun := (WorkflowRun V TrustContext).

Local Notation exec_step_of j p :=
  (exec_step (T := TrustContext) load observe hash j maxAgentsPerRun maxConcurrentLeaves p).

(** The tables after a step of run [j], by what becomes of its engine. *)
Inductive written (now : Z) (j : string) (d : tables) : option execution → tables → Prop :=
  | wr_nothing m : written now j d (Some m) d
  | wr_entry m n i : written now j d (Some m) (appendJournalEntry now j n i d)
  | wr_answer m n i c : written now j d (Some m)
      (appendJournalEntry now j n i (updateRun now j {| set_status := None; set_counters := Some c |} d))
  | wr_end s v e c : s ∈ TERMINAL_RUN_STATUSES → written now j d None
      (finishRun now j s v e (updateRun now j {| set_status := None; set_counters := Some c |} d)).

Hint Constructors written : core.

Lemma final_status_terminal (m : execution) b : final_status m b ∈ TERMINAL_RUN_STATUSES.
Proof.
  unfold final_status, TERMINAL_RUN_STATUSES. repeat case_match; rewrite !elem_of_cons; auto.
Qed.

Lemma leave_written j now d m v d' m' os :
  leave (T := TrustContext) observe j maxAgentsPerRun now d m v = (d', m', os) → written now j d m' d'.
Proof.
  unfold leave, finish. destruct (suspended m); intros [= <- <- <-]; [|by constructor].
  apply wr_end, final_status_terminal.
Qed.

Lemma host_call_written j p now lib d m c d' m' os :
  host_call (T := TrustContext) load observe hash j maxAgentsPerRun p now lib d m c = (d', m', os) →
  written now j d (Some m') d'.
Proof.
  destruct c; simpl; unfold answer; try by intros [= <- <- <-].
  unfold hostWorkflow. repeat case_match; by intros [= <- <- <-].
Qed.

Lemma exec_step_written j p now e d m d' m' os :
  exec_step_of j p now e d m = Some (d', m', os) → written now j d m' d'.
Proof.
  destruct e as [lib| | | | |i v x y|i msg b|]; simpl.
  - unfold proceed. destruct (waiting m); [done|].
    destruct (observe (script (current m))); [..|done]; [by intros [= ?%leave_written]..|].
    destruct (host_call _ _ _ _ _ _ _ _ _ _ _) as [[? ?] ?] eqn:Hh. intros [= <- <- <-].
    by eapply host_call_written.
  - destruct (waiting m); [done|]. by intros [= ?%leave_written].
  - destruct (waiting m) as [[]|]; [done| |done].
    destruct (pull _ _ _ _ _ _ _ _) as [[[? ?] ?]|]; [|done]. by intros [= <- <- <-].
  - destruct (waiting m) as [[]|]; [done| |done]. unfold catch. destruct (thrown f); [done|]. by intros [= <- <- <-].
  - destruct (waiting m) as [[]|]; [done| |done]. case_match; [|done]. by intros [= <- <- <-].
  - unfold leaf_returns. destruct (waiting m) as [[t|f]|]; simpl; [| |done].
    + intros [= <- <- <-]. apply wr_answer.
    + repeat case_match; try done. intros [= <- <- <-]. apply wr_answer.
  - unfold leaf_rejects, leaf_rejected, fan_settles.
    destruct (waiting m) as [[t|f]|]; simpl; [| |done].
    + destruct (_ || b); simpl; by intros [= <- <- <-].
    + destruct (_ !! i); [|done]. case_bool_decide; [|done].
      destruct (_ || b); simpl; by intros [= <- <- <-].
  - by intros [= <- <- <-].
Qed.

Lemma getRun_append now j n i k (d : tables) : getRun k (appendJournalEntry now j n i d) = getRun k d.
Proof. done. Qed.

Lemma getJournalEntry_on j f k n (d : tables) : getJournalEntry k n (on_run j f d) = getJournalEntry k n d.
Proof. done. Qed.

(** Other runs are not touched. *)
Lemma written_elsewhere now j d m d' k n : written now j d m d' → j ≠ k →
  getRun k d' = getRun k d ∧ getJournalEntry k n d' = getJournalEntry k n d.
Proof.
  intros Hw Hk. destruct Hw; rewrite ?getRun_append ?getJournalEntry_append;
    unfold finishRun, updateRun; rewrite ?getRun_on ?getJournalEntry_on;
    repeat case_decide; by simplify_eq.
Qed.

(** What launched the run stays in its row. *)
Record same_launch (r r' : WorkflowRun) : Prop := {
  sl_name : run_name r' = run_name r;
  sl_source : scriptSource r' = scriptSource r;
  sl_args : run_args r' = run_args r;
  sl_capabilities : run_capabilities r' = run_capabilities r;
  sl_conversation : run_conversationId r' = run_conversationId r;
  sl_trust : run_trust r' = run_trust r;
}.

#[global] Instance same_launch_preorder : PreOrder same_launch.
Proof. split; [by split|]. intros r1 r2 r3 [] []. split; congruence. Qed.

Lemma written_here now j d m d' r : written now j d m d' → getRun j d = Some r →
  ∃ r', getRun j d' = Some r' ∧ same_launch r r' ∧
    match m with Some _ => run_status r' = run_status r | None => run_status r' ∈ TERMINAL_RUN_STATUSES end.
Proof.
  intros Hw Hr. destruct Hw; unfold finishRun, updateRun;
    rewrite ?getRun_append ?getRun_same ?Hr; simpl; by eexists.
Qed.

Lemma written_nowhere now j d m d' : written now j d m d' → getRun j d = None → getRun j d' = None.
Proof.
  intros Hw Hr. destruct Hw; unfold finishRun, updateRun;
    by rewrite ?getRun_append ?getRun_same ?Hr.
Qed.

(** ** The order of the daemon *)

Definition live (w : daemon) (runId : string) (f : flight) (m : execution) : Prop :=
  inflight w !! runId = Some f ∧ engine f = Some m.

(** A run acts under the trust of its row, or under the fallback. *)
Definition trusted (r : WorkflowRun) (t : TrustContext) : Prop :=
  run_trust r = Some t ∨ t = FALLBACK_TURN_TRUST.

Record orderly (w : daemon) : Prop := {
  ord_cap : Z.of_nat (size (inflight w)) ≤ Z.max 0 maxConcurrentRuns;
  ord_live runId f m : live w runId f m →
    ∃ r, getRun runId (store w) = Some r ∧ run_status r = running ∧ trusted r (ctx_trust f);
  ord_running runId r : booted w = true → getRun runId (store w) = Some r → run_status r = running →
    ∃ f m, live w runId f m;
  ord_down : booted w = false → inflight w = ∅;
}.

Lemma size_set (runId : string) (f : flight) (i : gmap string flight) :
  Z.of_nat (size (<[runId := f]> i)) ≤ Z.of_nat (size i) + (if decide (is_Some (i !! runId)) then 0 else 1).
Proof.
  rw map_size_insert. destruct (i !! runId); simpl; lia.
Qed.

(** The run [runId] starts or resumes: its row is running and so is its engine. *)
Lemma launch_orderly w d runId r f m : orderly w → booted w = true → full w = false →
  (∀ i, i ≠ runId → getRun i d = getRun i (store w)) →
  getRun runId d = Some r → run_status r = running → engine f = Some m → trusted r (ctx_trust f) →
  orderly (set_flight runId f (set_store d w)).
Proof.
  intros Ho Hb Hfull Hd Hr Hs Hm Ht. split; simpl.
  - pose proof (size_set runId f (inflight w)) as Hsize. unfold full in Hfull.
    apply Z.leb_gt in Hfull. case_decide; lia.
  - intros i g n [Hi Hn]. simpl in Hi. apply lookup_insert_Some in Hi as [[<- <-]|[Hi Hg]]; [eauto|].
    destruct (ord_live _ Ho i g n) as (q & Hq & ? & ?); [by split|]. exists q. by rw Hd.
  - intros i q _ Hq Hrun. destruct (decide (i = runId)) as [->|Hi].
    + exists f, m. split; [|done]. simpl. apply lookup_insert_eq.
    + rw Hd // in Hq. destruct (ord_running _ Ho i q Hb Hq Hrun) as (g & n & Hg & Hn).
      exists g, n. split; [|done]. simpl. by rw lookup_insert_ne.
  - congruence.
Qed.

Lemma reopened now d runId i r : getRun runId d = Some r → run_status r = running →
  (executeWorkflow (T := TrustContext) (vm := vm) load runId now i d).1 =
    updateRun now runId {| set_status := Some running; set_counters := None |} d ∧
  ∃ r', getRun runId (executeWorkflow (T := TrustContext) (vm := vm) load runId now i d).1 = Some r' ∧
    run_status r' = running ∧ same_launch r r'.
Proof.
  intros Hr Hs. unfold executeWorkflow. rw Hr. split; [done|].
  simpl. unfold updateRun. rw getRun_same Hr. by eexists.
Qed.

Lemma completion_orderly now w d runId label source args caps c t r : orderly w → booted w = true →
  full w = false → (∀ i, i ≠ runId → getRun i d = getRun i (store w)) →
  getRun runId d = Some r → run_status r = running → trusted r t →
  orderly (run_to_completion now runId label source args caps c t (set_store d w)).
Proof.
  intros Ho Hb Hf Hd Hr Hs Ht. unfold run_to_completion.
  change (store (set_store d w)) with d.
  match goal with |- context [executeWorkflow load runId now ?x d] => set (i := x) end.
  destruct (reopened now d runId i r Hr Hs) as [He (r' & Hr' & Hs' & Hl)].
  destruct (executeWorkflow load runId now i d) as [d' m] eqn:Hx. simpl in *. subst d'.
  change (set_store ?x (set_store d w)) with (set_store x w).
  eapply (launch_orderly w); eauto; simpl.
  - intros j Hj. unfold updateRun. rw getRun_on decide_False //. by apply Hd.
  - unfold trusted. by rw (sl_trust _ _ Hl).
Qed.

Lemma start_orderly now rg lib meta runId o w w' k ms : orderly w → booted w = true →
  start now rg lib meta runId o w = inl (w', k, ms) → orderly w'.
Proof.
  intros Ho Hb. unfold start. destruct (full w) eqn:Hf; [done|].
  destruct (resolveScriptSource lib o) as [source|]; [|done].
  destruct (resolveCapabilities _ _) as [caps|]; [|done].
  destruct (meta source) as [name|]; [|done]. unfold createRun.
  destruct (workflow_runs (store w) !! runId) eqn:Hnone; [done|]. intros [= <- <- <-].
  eapply completion_orderly; [done..| | | |].
  - intros i Hi. unfold getRun, with_run. simpl. by rw lookup_insert_ne.
  - unfold getRun, with_run. simpl. apply lookup_insert_eq.
  - done.
  - by left.
Qed.

Lemma reconstructed r : trusted r (reconstructResumeTrustContext (run_trust r)).
Proof.
  unfold trusted, reconstructResumeTrustContext. destruct (run_trust r); [|by right].
  case_bool_decide; auto.
Qed.

Lemma resume_orderly now rg runId w w' k : orderly w → booted w = true →
  resume now rg runId w = inl (w', k) → orderly w'.
Proof.
  intros Ho Hb. unfold resume. destruct (inflight w !! runId); [done|].
  destruct (getRun runId (store w)) as [r|] eqn:Hr; [|done].
  case_bool_decide; [done|]. destruct (full w) eqn:Hf; [done|].
  destruct (resolveCapabilities _ _) as [caps|]; [|done]. intros [= <- <-].
  eapply completion_orderly; [done..| | | |].
  - intros i Hi. unfold updateRun. rw getRun_on. by rw decide_False.
  - unfold updateRun. by rw getRun_same Hr.
  - done.
  - apply (reconstructed r).
Qed.

(** Replacing the flight of a run that is in flight. *)
Lemma flight_orderly w d runId f g : orderly w → booted w = true → inflight w !! runId = Some f →
  ctx_trust g = ctx_trust f →
  (∀ i, i ≠ runId → getRun i d = getRun i (store w)) →
  (∀ r, getRun runId (store w) = Some r → ∃ r', getRun runId d = Some r' ∧ run_trust r' = run_trust r ∧
     (engine g = None → run_status r' ≠ running) ∧
     (is_Some (engine g) → is_Some (engine f) ∧ run_status r' = run_status r)) →
  (is_Some (engine g) → is_Some (engine f)) →
  (getRun runId (store w) = None → getRun runId d = None) →
  orderly (set_flight runId g (set_store d w)).
Proof.
  intros Ho Hb Hf Hc Hd Hrow Hengine Hnone. split; simpl.
  - pose proof (size_set runId g (inflight w)) as Hsize. pose proof (ord_cap _ Ho).
    rw decide_True in Hsize; [lia|by exists f].
  - intros i x n [Hi Hn]. simpl in Hi. apply lookup_insert_Some in Hi as [[<- <-]|[Hi Hx]].
    + destruct (Hengine (ex_intro _ n Hn)) as [n0 Hn0].
      destruct (ord_live _ Ho runId f n0) as (r & Hr & Hs & Ht); [by split|].
      destruct (Hrow _ Hr) as (r' & Hr' & Hrt & _ & Hsome). exists r'.
      destruct (Hsome (ex_intro _ n Hn)) as [_ Hst]. split_and!; [done|congruence|].
      unfold trusted. by rw Hrt Hc.
    + destruct (ord_live _ Ho i x n) as (r & Hr & ? & ?); [by split|]. exists r. by rw Hd.
  - intros i q _ Hq Hrun. destruct (decide (i = runId)) as [->|Hi].
    + exists g. destruct (engine g) as [n|] eqn:Hn.
      { exists n. split; [|done]. simpl. apply lookup_insert_eq. }
      destruct (getRun runId (store w)) as [r|] eqn:Hr; [|by rw Hnone in Hq].
      destruct (Hrow r eq_refl) as (r' & Hr' & _ & Hend & _). simplify_eq. by destruct Hend.
    + rw Hd // in Hq. destruct (ord_running _ Ho i q Hb Hq Hrun) as (x & n & Hx & Hn).
      exists x, n. split; [|done]. simpl. by rw lookup_insert_ne.
  - congruence.
Qed.

Lemma terminal_not_live (s : WorkflowRunStatus) : s ∈ TERMINAL_RUN_STATUSES → s ≠ running ∧ s ≠ interrupted.
Proof. intros Hs. by split; intros ->; apply (bool_decide_pack _) in Hs. Qed.

Lemma drive_orderly now runId e w w' out : orderly w → booted w = true →
  drive now runId e w = Some (w', out) → orderly w'.
Proof.
  intros Ho Hb. unfold drive. destruct (inflight w !! runId) as [f|] eqn:Hf; [|done]. simpl.
  destruct (engine f) as [m|] eqn:Hm; [|done]. simpl.
  destruct (exec_step_of runId _ now e (store w) m) as [[[d m'] os]|] eqn:He; [|done].
  intros [= <- <-]. apply exec_step_written in He as Hw. eapply flight_orderly; eauto; simpl.
  - intros i Hi. by eapply (written_elsewhere _ _ _ _ _ i 0).
  - intros r Hr. destruct (written_here _ _ _ _ _ _ Hw Hr) as (r' & Hr' & Hl & Hs).
    exists r'. split_and!; [done|apply Hl| |].
    + intros ->. by apply terminal_not_live in Hs as [? _].
    + intros [n ->]. eauto.
  - by apply (written_nowhere _ _ _ _ _ Hw).
Qed.

Lemma set_store_same (w : daemon) : set_store (store w) w = w.
Proof. by destruct w. Qed.

Lemma abort_orderly runId w : orderly w → booted w = true → orderly (abort_run runId w).
Proof.
  intros Ho Hb. unfold abort_run. destruct (inflight w !! runId) as [f|] eqn:Hf; [|done].
  rw -(set_store_same w). eapply flight_orderly; eauto.
  - simpl. intros r Hr. exists r. split_and!; [done..| |].
    + intros He Hs. destruct (ord_running _ Ho runId r Hb Hr Hs) as (g & n & Hg & Hn).
      rw Hf in Hg. simplify_eq. by rw Hn in He.
    + rw fmap_is_Some. auto.
  - simpl. by rw fmap_is_Some.
Qed.

Lemma settle_orderly runId w w' : orderly w → booted w = true → settle runId w = Some w' → orderly w'.
Proof.
  intros Ho Hb. unfold settle. destruct (inflight w !! runId) as [f|] eqn:Hf; [|done].
  destruct (engine f) eqn:He; [done|]. intros [= <-]. split; simpl.
  - pose proof (ord_cap _ Ho). rw map_size_delete Hf. simpl. lia.
  - intros i g m [Hi Hm]. simpl in Hi. apply lookup_delete_Some in Hi as [_ Hi].
    by apply (ord_live _ Ho i g m).
  - intros i r _ Hr Hs. destruct (ord_running _ Ho i r Hb Hr Hs) as (g & m & Hg & Hm).
    exists g, m. split; [|done]. simpl. apply lookup_delete_Some. split; [|done].
    intros <-. congruence.
  - congruence.
Qed.

Lemma getRun_prune now days i (d : tables) :
  getRun i (pruneRuns now days d) =
    match getRun i d with Some r => if prunable now days r then None else Some r | None => None end.
Proof.
  unfold getRun, pruneRuns. simpl. destruct (workflow_runs d !! i) as [r|] eqn:Hr.
  - destruct (prunable now days r) eqn:Hp.
    + apply map_lookup_filter_None. right. intros r' Hr'. simplify_eq. congruence.
    + by apply map_lookup_filter_Some.
  - apply map_lookup_filter_None. by left.
Qed.

Lemma prunable_terminal now days (r : WorkflowRun) : prunable now days r = true → run_status r ∈ TERMINAL_RUN_STATUSES.
Proof. unfold prunable. intros [Hs _]%andb_true_iff. by apply bool_decide_eq_true in Hs. Qed.

Lemma prune_orderly now days w : orderly w → booted w = true →
  orderly (set_store (pruneRuns now days (store w)) w).
Proof.
  intros Ho Hb. split; simpl.
  - apply Ho.
  - intros i f m Hl. destruct (ord_live _ Ho i f m) as (r & Hr & Hs & Ht); [by destruct Hl|].
    exists r. split; [|done]. rw getRun_prune Hr. destruct (prunable now days r) eqn:Hp; [|done].
    apply prunable_terminal in Hp. rw Hs in Hp. by apply terminal_not_live in Hp as [? _].
  - intros i r _. rw getRun_prune. destruct (getRun i (store w)) as [q|] eqn:Hq; [|done].
    destruct (prunable now days q); [done|]. intros [= ->]. by apply (ord_running _ Ho).
  - congruence.
Qed.

Lemma interrupt_status now (r : WorkflowRun) : run_status (interrupt now r) ≠ running.
Proof. unfold interrupt. by case_bool_decide. Qed.

Lemma idle_orderly d b : (b = true → ∀ i r, getRun i d = Some r → run_status r ≠ running) →
  orderly {| store := d; inflight := ∅; booted := b |}.
Proof.
  intros Hd. split; simpl; [rw map_size_empty; lia|by intros ? ? ? [? ?]| |done].
  intros i r Hb Hr Hs. by destruct (Hd Hb i r Hr).
Qed.

Lemma perform_orderly now op w w' out : orderly w → perform now op w = Some (w', out) → orderly w'.
Proof.
  intros Ho. unfold perform. destruct op; destruct (booted w) eqn:Hb; try done.
  - destruct (start _ _ _ _ _ _ _) as [[[w1 k] ms]|e] eqn:Hs; intros [= <- <-]; [|done].
    by eapply start_orderly.
  - destruct (resume _ _ _ _) as [[w1 k]|e] eqn:Hs; intros [= <- <-]; [|done].
    by eapply resume_orderly.
  - intros [= <- <-]. by apply abort_orderly.
  - by apply drive_orderly.
  - destruct (settle runId w) eqn:Hs; [|done]. intros [= <- <-]. by eapply settle_orderly.
  - intros [= <- <-]. by apply prune_orderly.
  - intros [= <- <-]. by apply idle_orderly.
  - intros [= <- <-]. by apply idle_orderly.
  - intros [= <- <-]. apply idle_orderly. intros _ i r. unfold getRun. simpl. rw lookup_fmap.
    destruct (workflow_runs (store w) !! i) as [q|]; [|done]. intros [= <-]. apply interrupt_status.
Qed.

Lemma daemon_run_cons w now op h w' out : daemon_run w ((now, op) :: h) = Some (w', out) ↔
  ∃ w1 out1 out2, perform now op w = Some (w1, out1) ∧ daemon_run w1 h = Some (w', out2) ∧
    out = out1 ++ out2.
Proof.
  simpl. destruct (perform now op w) as [[w1 out1]|]; simpl; [|naive_solver].
  destruct (daemon_run w1 h) as [[w2 out2]|] eqn:Hd; simpl; naive_solver.
Qed.

Lemma daemon_run_orderly w h w' out : orderly w → daemon_run w h = Some (w', out) → orderly w'.
Proof.
  revert w out. induction h as [|[now op] h IH]; intros w out Ho.
  { by intros [= <- <-]. }
  intros (w1 & out1 & out2 & Hp & Hd & ->)%daemon_run_cons. eapply IH; [|done].
  by eapply perform_orderly.
Qed.

(** A process that has just been born over the tables [d]. *)
Definition born (d : tables) : daemon := {| store := d; inflight := ∅; booted := false |}.

Lemma born_orderly d : orderly (born d).
Proof. by apply idle_orderly. Qed.

(** The rows tell the truth.  Over any tables and through any history of
    starts, resumptions, aborts, prunes, crashes and steps of runs, the daemon
    never holds more runs than its cap, and once it has reconciled the orphans a
    row says [running] exactly if the engine of that run is at work. *)
Theorem running_rows_are_live d h w out :
  daemon_run (born d) h = Some (w, out) →
  Z.of_nat (size (inflight w)) ≤ Z.max 0 maxConcurrentRuns ∧
  (booted w = true → ∀ runId,
     (∃ r, getRun runId (store w) = Some r ∧ run_status r = running) ↔ (∃ f m, live w runId f m)).
Proof.
  intros Hd. pose proof (daemon_run_orderly _ _ _ _ (born_orderly d) Hd) as Ho.
  split; [apply Ho|]. intros Hb runId. split.
  - intros (r & Hr & Hs). by eapply ord_running.
  - intros (f & m & Hl). destruct (ord_live _ Ho _ _ _ Hl) as (r & ? & ? & _). by exists r.
Qed.

(** ** What becomes of a row *)

Definition starts (runId : string) (op : operation) : Prop :=
  match op with Start _ _ _ newRunId _ => newRunId = runId | _ => False end.

(** The row [r] of a run, later. *)
Definition row_later (r : WorkflowRun) (later : option WorkflowRun) : Prop :=
  match later with
  | Some r' => same_launch r r' ∧ (run_status r ∈ TERMINAL_RUN_STATUSES → r' = r)
  | None => run_status r ∈ TERMINAL_RUN_STATUSES
  end.

Lemma row_same r : row_later r (Some r).
Proof. done. Qed.

Lemma row_patched now r s : run_status r ∉ TERMINAL_RUN_STATUSES →
  row_later r (Some (patched now {| set_status := s; set_counters := None |} r)).
Proof. intros Hs. by split. Qed.

Lemma completion_rows now w runId label source args caps c t i r : getRun runId (store w) = Some r →
  run_status r = running →
  getRun i (store (run_to_completion now runId label source args caps c t w)) =
    if decide (runId = i)
    then patched now {| set_status := Some running; set_counters := None |} <$> getRun i (store w)
    else getRun i (store w).
Proof.
  intros Hr Hs. unfold run_to_completion, executeWorkflow. rw Hr. simpl. unfold updateRun. apply getRun_on.
Qed.

Lemma perform_row now op w w' out i r : orderly w → perform now op w = Some (w', out) →
  getRun i (store w) = Some r → row_later r (getRun i (store w')).
Proof.
  intros Ho Hp Hr. unfold perform in Hp. destruct op; destruct (booted w) eqn:Hb; try done.
  - destruct (start _ _ _ _ _ _ _) as [[[w1 k] ms]|e] eqn:Hs; simplify_eq; [|by rw Hr].
    unfold start in Hs. destruct (full w); [done|].
    destruct (resolveScriptSource _ _); [|done]. destruct (resolveCapabilities _ _); [|done].
    destruct (meta _); [|done]. unfold createRun in Hs.
    destruct (workflow_runs (store w) !! newRunId) eqn:Hn; [done|].
    assert (newRunId ≠ i) as Hi by (intros ->; unfold getRun in Hr; congruence). simplify_eq.
    erewrite completion_rows; [|unfold getRun; simpl; apply lookup_insert_eq|done].
    rw decide_False //. unfold getRun. simpl. rw lookup_insert_ne //. fold (getRun i (store w)). by rw Hr.
  - destruct (resume _ _ _ _) as [[w1 k]|e] eqn:Hs; simplify_eq; [|by rw Hr].
    unfold resume in Hs. destruct (inflight w !! runId); [done|].
    destruct (getRun runId (store w)) as [q|] eqn:Hq; [|done].
    case_bool_decide as Hint; [done|]. destruct (full w); [done|].
    destruct (resolveCapabilities _ _); [|done]. simplify_eq.
    erewrite completion_rows; [|simpl; unfold updateRun; by rw getRun_same Hq|done].
    simpl. unfold updateRun. rw getRun_on. case_decide as Hi; [|by rw Hr].
    subst i. rw Hr. simplify_eq. simpl. split; [done|].
    intros Ht. by apply terminal_not_live in Ht as [_ ?].
  - simplify_eq. unfold abort_run. destruct (inflight w !! runId); simpl; by rw Hr.
  - unfold drive in Hp. destruct (inflight w !! runId) as [f|] eqn:Hf; [|done]. simpl in Hp.
    destruct (engine f) as [m|] eqn:Hm; [|done]. simpl in Hp.
    destruct (exec_step_of runId _ now e (store w) m) as [[[d m'] os]|] eqn:He; [|done].
    simplify_eq/=. apply exec_step_written in He as Hw. destruct (decide (runId = i)) as [->|Hi].
    + destruct (written_here _ _ _ _ _ _ Hw Hr) as (r' & -> & Hl & _). split; [done|].
      intros Ht. destruct (ord_live _ Ho i f m) as (q & Hq & Hs & _); [done|].
      simplify_eq. by apply terminal_not_live in Ht as [? _].
    + destruct (written_elsewhere _ _ _ _ _ i 0 Hw Hi) as [-> _]. by rw Hr.
  - unfold settle in Hp. repeat case_match; simplify_eq/=. by rw Hr.
  - simplify_eq/=. rw getRun_prune Hr. destruct (prunable _ _ r) eqn:Hpr; [|done].
    by apply prunable_terminal in Hpr.
  - simplify_eq/=. by rw Hr.
  - simplify_eq/=. by rw Hr.
  - simplify_eq/=. unfold getRun in *. simpl. rw lookup_fmap Hr. simpl. unfold interrupt.
    case_bool_decide as Hs; [|done]. apply row_patched. rw Hs. intros Ht.
    by apply terminal_not_live in Ht as [? _].
Qed.

(** Nothing but a start makes a row. *)
Lemma perform_gone now op w w' out i : perform now op w = Some (w', out) → ¬ starts i op →
  getRun i (store w) = None → getRun i (store w') = None.
Proof.
  intros Hp Hn Hr. unfold perform in Hp. destruct op; destruct (booted w) eqn:Hb; try done.
  - destruct (start _ _ _ _ _ _ _) as [[[w1 k] ms]|e] eqn:Hs; simplify_eq; [|done].
    unfold start in Hs. destruct (full w); [done|].
    destruct (resolveScriptSource _ _); [|done]. destruct (resolveCapabilities _ _); [|done].
    destruct (meta _); [|done]. unfold createRun in Hs.
    destruct (workflow_runs (store w) !! newRunId) eqn:Hnone; [done|].
    simpl in Hn. simplify_eq.
    erewrite completion_rows; [|unfold getRun; simpl; apply lookup_insert_eq|done].
    rw decide_False //. unfold getRun. simpl. by rw lookup_insert_ne.
  - destruct (resume _ _ _ _) as [[w1 k]|e] eqn:Hs; simplify_eq; [|done].
    unfold resume in Hs. destruct (inflight w !! runId); [done|].
    destruct (getRun runId (store w)) as [q|] eqn:Hq; [|done].
    case_bool_decide as Hint; [done|]. destruct (full w); [done|].
    destruct (resolveCapabilities _ _); [|done]. simplify_eq.
    erewrite completion_rows; [|simpl; unfold updateRun; by rw getRun_same Hq|done].
    simpl. unfold updateRun. rw getRun_on. by case_decide; rw Hr.
  - simplify_eq. unfold abort_run. by destruct (inflight w !! runId).
  - unfold drive in Hp. destruct (inflight w !! runId) as [f|] eqn:Hf; [|done]. simpl in Hp.
    destruct (engine f) as [m|] eqn:Hm; [|done]. simpl in Hp.
    destruct (exec_step_of runId _ now e (store w) m) as [[[d m'] os]|] eqn:He; [|done].
    simplify_eq/=. apply exec_step_written in He as Hw. destruct (decide (runId = i)) as [->|Hi].
    + by apply (written_nowhere _ _ _ _ _ Hw).
    + by destruct (written_elsewhere _ _ _ _ _ i 0 Hw Hi) as [-> _].
  - unfold settle in Hp. by repeat case_match; simplify_eq/=.
  - simplify_eq/=. by rw getRun_prune Hr.
  - by simplify_eq/=.
  - by simplify_eq/=.
  - simplify_eq/=. unfold getRun in *. simpl. by rw lookup_fmap Hr.
Qed.

Lemma daemon_run_gone w h w' out i : daemon_run w h = Some (w', out) →
  Forall (λ e, ¬ starts i e.2) h → getRun i (store w) = None → getRun i (store w') = None.
Proof.
  revert w out. induction h as [|[now op] h IH]; intros w out.
  { by intros [= <- <-]. }
  intros (w1 & out1 & out2 & Hp & Hd & ->)%daemon_run_cons [Hn Hf]%Forall_cons Hr.
  eapply IH; [done..|]. by eapply perform_gone.
Qed.

Lemma daemon_run_row w h w' out i r r' : orderly w → daemon_run w h = Some (w', out) →
  Forall (λ e, ¬ starts i e.2) h → getRun i (store w) = Some r → getRun i (store w') = Some r' →
  same_launch r r' ∧ (run_status r ∈ TERMINAL_RUN_STATUSES → r' = r).
Proof.
  revert w out r. induction h as [|[now op] h IH]; intros w out r Ho.
  { intros [= <- <-] _ Hr Hr'. by simplify_eq. }
  intros (w1 & out1 & out2 & Hp & Hd & ->)%daemon_run_cons [Hn Hf]%Forall_cons Hr Hr'.
  pose proof (perform_row _ _ _ _ _ _ _ Ho Hp Hr) as Hlater.
  destruct (getRun i (store w1)) as [r1|] eqn:Hr1.
  - destruct Hlater as [Hl Ht].
    destruct (IH w1 out2 r1) as [Hl' Ht']; [by eapply perform_orderly|done..|].
    split; [by transitivity r1|]. intros Hs. rw -(Ht Hs). apply Ht'. by rw Ht.
  - by rw (daemon_run_gone _ _ _ _ _ Hd Hf Hr1) in Hr'.
Qed.

(** A run keeps what launched it.  Between two moments of a history at
    which the row of a run exists, its script, arguments, grants, conversation and
    trust are the same, whatever was resumed, aborted or crashed; a row that says
    the run has ended is final; and a live run acts under the trust it was started
    with or, if that was unusable, under the fallback of an unknown requester —
    never under more. *)
Theorem launches_are_final d h1 w1 out1 h2 w2 out2 runId r1 r2 :
  daemon_run (born d) h1 = Some (w1, out1) → daemon_run w1 h2 = Some (w2, out2) →
  Forall (λ e, ¬ starts runId e.2) h2 →
  getRun runId (store w1) = Some r1 → getRun runId (store w2) = Some r2 →
  same_launch r1 r2 ∧ (run_status r1 ∈ TERMINAL_RUN_STATUSES → r2 = r1) ∧
  ∀ f m, live w2 runId f m → run_trust r1 = Some (ctx_trust f) ∨ trustClass (ctx_trust f) = "unknown"%string.
Proof.
  intros H1 H2 Hn Hr1 Hr2. pose proof (daemon_run_orderly _ _ _ _ (born_orderly d) H1) as Ho1.
  destruct (daemon_run_row _ _ _ _ _ _ _ Ho1 H2 Hn Hr1 Hr2) as [Hl Ht]. do 2 (split; [done|]).
  intros f m Hf. pose proof (daemon_run_orderly _ _ _ _ Ho1 H2) as Ho2.
  destruct (ord_live _ Ho2 _ _ _ Hf) as (r & Hr & _ & [Htr|Htr]); simplify_eq.
  - left. by rw -(sl_trust _ _ Hl).
  - right. by rw Htr.
Qed.
End manager.

Arguments operation : clear implicits.
Arguments output : clear implicits.
Arguments daemon : clear implicits.

(** ** A day of the daemon *)

Module Day.
Import WorkflowEngine.Sample.

Definition guardian : TrustContext := unattributed "slack" "guardian".

Definition options (label : option string) : StartWorkflowOptions := {|
  opt_source := inl "review"%string; opt_args := VNull; opt_manifest := declares ["bash"%string];
  opt_conversationId := Some "chat"%string; opt_toolUseId := None; opt_label := label;
  opt_trustContext := guardian |}.

Definition meta (source : string) : option string := Some "review"%string.
Definition start_run (runId : string) : operation value :=
  Start sample_registry (λ _, None) meta runId (options None).
Definition resume_run (runId : string) : operation value := Resume sample_registry runId.
Definition drives (runId : string) (l : list (@event value)) : list (operation value) := Drive runId <$> l.
Definition at_noon (l : list (operation value)) : list (Z * operation value) := (λ op, (0, op)) <$> l.

Definition day (w : daemon value vm) (l : list (operation value)) : option (daemon value vm * list (output value)) :=
  daemon_run load observe hash 10 2 1 w (at_noon l).

Definition dawn : daemon value vm := born {| workflow_runs := ∅; workflow_journal := ∅ |}.
Definition after (w : daemon value vm) l := match day w l with Some (w, _) => w | None => w end.
Definition said (w : daemon value vm) l := match day w l with Some (_, out) => out | None => [] end.

Lemma day_lived w l : match day w l with Some _ => true | None => false end = true →
  day w l = Some (after w l, said w l).
Proof. unfold after, said. by destruct (day w l) as [[? ?]|]. Qed.

(** A run is launched, a second one is refused; the process dies in the middle of
    its first leaf, the next one resumes it. *)
Definition morning : list (operation value) :=
  [Boot; start_run "run"; start_run "other"] ++ drives "run" [Proceed lib] ++ [Die; Boot].

Definition evening : list (operation value) :=
  [resume_run "run"] ++
  drives "run" [Proceed lib; LeafReturns 0 (VText "code") 5 5; Proceed lib; Pull; Pull;
    LeafReturns 0 (VText "good") 1 1; LeafReturns 1 (VText "fine") 3 3; Settle; Proceed lib;
    Proceed lib; LeafReturns 0 (VText "ship it") 1 1; Proceed lib; Proceed lib] ++ [Settled "run"].

Definition statuses (w : daemon value vm) : option WorkflowRunStatus * option WorkflowRunStatus :=
  (run_status <$> getRun "run" (store w), run_status <$> getRun "other" (store w)).

Example day_sample :
  statuses (after dawn morning) = (Some interrupted, None) ∧
  statuses (after (after dawn morning) evening) = (Some completed, None) ∧
  omap (λ o, match o with Said (wake c t) => Some (c, trustClass t) | _ => None end)
    (said (after dawn morning) evening) = [("chat", "guardian")]%string.
Proof. by vm_compute. Qed.

Lemma ends_well :
  run_status <$> getRun "run" (store (after (after dawn morning) evening)) = Some completed.
Proof. by vm_compute. Qed.
End Day.

Lemma running_rows_are_live_witness :
  Z.of_nat (size (inflight (Day.after Day.dawn Day.morning))) ≤ Z.max 0 1 ∧
  (booted (Day.after Day.dawn Day.morning) = true → ∀ runId,
     (∃ r, getRun runId (store (Day.after Day.dawn Day.morning)) = Some r ∧ run_status r = running) ↔
     (∃ f m, live (Day.after Day.dawn Day.morning) runId f m)).
Proof.
  eapply (running_rows_are_live Sample.load Sample.observe Sample.hash 10 2 1
    (store Day.dawn) (Day.at_noon Day.morning)).
  by apply Day.day_lived; vm_compute.
Defined.

Lemma launches_are_final_witness : ∃ r1 r2,
  getRun "run" (store (Day.after Day.dawn Day.morning)) = Some r1 ∧
  getRun "run" (store (Day.after (Day.after Day.dawn Day.morning) Day.evening)) = Some r2 ∧
  run_status r2 = completed ∧ same_launch r1 r2.
Proof.
  assert (∃ r1, getRun "run" (store (Day.after Day.dawn Day.morning)) = Some r1) as [r1 Hr1].
  { by apply is_Some_alt; vm_compute. }
  assert (∃ r2, getRun "run" (store (Day.after (Day.after Day.dawn Day.morning) Day.evening)) = Some r2 ∧
    run_status r2 = completed) as (r2 & Hr2 & Hs).
  { destruct (proj1 (fmap_Some _ _ _) Day.ends_well) as (r2 & Hr2 & Hs). exists r2.
    split; [exact Hr2|symmetry; exact Hs]. }
  exists r1, r2. split; [exact Hr1|]. split; [exact Hr2|]. split; [exact Hs|].
  eapply (launches_are_final Sample.load Sample.observe Sample.hash 10 2 1
    (store Day.dawn) (Day.at_noon Day.morning) _ _ (Day.at_noon Day.evening)).
  - by apply Day.day_lived; vm_compute.
  - by apply Day.day_lived; vm_compute.
  - repeat constructor; by intros [].
  - exact Hr1.
  - exact Hr2.
Defined.
