(* ===== verification/WorkflowIsolation.v ===== *)
(** * Runs do not interfere

    The daemon of [WorkflowRuns] interleaves the steps of many runs over shared
    tables.  Seen from one run it is a history of [WorkflowResume]: its rows and
    entries, its engine and what it does are those of the run alone. *)

From S2P Require Import Prelude MessageQueue WorkflowCapabilities WorkflowJournal.
From S2P Require Import WorkflowEngine WorkflowResume WorkflowRuns.
Local Open Scope Z_scope.

(** ** The part of the tables that belongs to one run *)

Section slices.
Context {V T : Type}.
Implicit Types d : tables V T.

Definition slice (runId : string) (d : tables V T) : tables V T := {|
  workflow_runs := filter (λ '(j, _), j = runId) (workflow_runs d);
  workflow_journal := filter (λ '((j, _), _), j = runId) (workflow_journal d) |}.

Lemma getRun_slice j k d : getRun k (slice j d) = if decide (k = j) then getRun k d else None.
Proof.
  unfold getRun, slice. simpl. case_decide as Hk.
  - destruct (workflow_runs d !! k) eqn:Hr.
    + by apply map_lookup_filter_Some.
    + apply map_lookup_filter_None. by left.
  - apply map_lookup_filter_None. by right.
Qed.

Lemma getJournalEntry_slice j k n d :
  getJournalEntry k n (slice j d) = if decide (k = j) then getJournalEntry k n d else None.
Proof.
  unfold getJournalEntry, slice. simpl. case_decide as Hk.
  - destruct (workflow_journal d !! (k, n)) eqn:Hr.
    + by apply map_lookup_filter_Some.
    + apply map_lookup_filter_None. by left.
  - apply map_lookup_filter_None. by right.
Qed.

Lemma getRun_slice_same j d : getRun j (slice j d) = getRun j d.
Proof. rw getRun_slice. by case_decide. Qed.

Lemma getJournalEntry_slice_same j n d : getJournalEntry j n (slice j d) = getJournalEntry j n d.
Proof. rw getJournalEntry_slice. by case_decide. Qed.

Lemma tables_ext d d' : (∀ k, getRun k d = getRun k d') →
  (∀ k n, getJournalEntry k n d = getJournalEntry k n d') → d = d'.
Proof.
  destruct d as [r e], d' as [r' e']. intros Hr He. f_equal.
  - apply map_eq. intros k. apply (Hr k).
  - apply map_eq. intros [k n]. apply (He k n).
Qed.

Lemma slice_ext j d d' : getRun j d = getRun j d' →
  (∀ n, getJournalEntry j n d = getJournalEntry j n d') → slice j d = slice j d'.
Proof.
  intros Hr He. apply tables_ext.
  - intros k. rw !getRun_slice. by case_decide; subst.
  - intros k n. rw !getJournalEntry_slice. by case_decide; subst.
Qed.

(** The operations on a run work on its slice. *)
Lemma slice_on j f d : slice j (on_run j f d) = on_run j f (slice j d).
Proof.
  apply tables_ext.
  - intros k. rw getRun_slice !getRun_on getRun_slice. by repeat case_decide; subst.
  - done.
Qed.

Lemma getRun_with j k r d : getRun k (with_run j r d) = if decide (j = k) then Some r else getRun k d.
Proof. unfold getRun. simpl. case_decide; [by subst; apply lookup_insert_eq|by apply lookup_insert_ne]. Qed.

Lemma slice_with_run j r d : slice j (with_run j r d) = with_run j r (slice j d).
Proof.
  apply tables_ext; [|done]. intros k. rw getRun_slice !getRun_with getRun_slice.
  by repeat case_decide; subst.
Qed.

Lemma on_run_with_run j f r d : on_run j f (with_run j r d) = with_run j (f r) d.
Proof. apply tables_ext; [|done]. intros k. rw getRun_on !getRun_with. by case_decide. Qed.

Lemma slice_append now j n i d :
  slice j (appendJournalEntry now j n i d) = appendJournalEntry now j n i (slice j d).
Proof.
  apply tables_ext; [done|]. intros k m.
  rw getJournalEntry_slice !getJournalEntry_append getJournalEntry_slice.
  repeat case_decide; simplify_eq; try done.
  - by rw getJournalEntry_slice_same.
  - by rw getJournalEntry_slice decide_False.
Qed.

Lemma slice_interrupted now j d :
  slice j (markRunningAsInterrupted now d) = markRunningAsInterrupted now (slice j d).
Proof.
  apply tables_ext; [|done]. intros k.
  assert (∀ e : tables V T, getRun k (markRunningAsInterrupted now e) = interrupt now <$> getRun k e) as Hm.
  { intros e. unfold getRun. simpl. apply lookup_fmap. }
  rw getRun_slice !Hm getRun_slice. by case_decide.
Qed.

Lemma slice_elsewhere j k f d : k ≠ j → slice j (on_run k f d) = slice j d.
Proof. intros Hk. apply slice_ext; [|done]. rw getRun_on. by case_decide. Qed.
End slices.

(** ** A step works on the slice of its run *)

Section isolation.
Context {V vm : Type} `{!JsonValue V}.
Context (load : string → V → vm) (observe : vm → observation V vm).
Context (hash : hashed V → string).
Context (maxAgentsPerRun maxConcurrentLeaves maxConcurrentRuns : Z).
Context (runId : string).

Local Notation execution := (@execution V vm).
Local Notation tables := (tables V TrustContext).
Local Notation daemon := (daemon V vm).
Local Notation output := (output V).
Implicit Types d : tables.

Section step.
Context (p : bool).

Definition sliced (r : tables * execution * list (obs V)) : tables * execution * list (obs V) :=
  (slice runId r.1.1, r.1.2, r.2).
Definition sliced_end (r : tables * option execution * list (obs V)) : tables * option execution * list (obs V) :=
  (slice runId r.1.1, r.1.2, r.2).

Local Notation begin_leaf := (begin_leaf (T := TrustContext) (vm := vm) hash runId maxAgentsPerRun p).
Local Notation exec_step :=
  (exec_step (T := TrustContext) load observe hash runId maxAgentsPerRun maxConcurrentLeaves p).

Lemma begin_leaf_slice d m t : begin_leaf (slice runId d) m t = begin_leaf d m t.
Proof. unfold WorkflowEngine.begin_leaf. by rw getJournalEntry_slice_same. Qed.

Lemma flush_slice now (m : execution) d :
  slice runId (flushCounters runId now m d) = flushCounters runId now m (slice runId d).
Proof. apply slice_on. Qed.

Lemma leave_slice now d (m : execution) v :
  leave observe runId maxAgentsPerRun now (slice runId d) m v =
    sliced_end (leave observe runId maxAgentsPerRun now d m v).
Proof.
  unfold leave, finish, finishRun, sliced_end. destruct (suspended m); simpl; [|done].
  by rw slice_on flush_slice.
Qed.

Lemma hostWorkflow_slice now lib d (m : execution) name args :
  hostWorkflow load observe hash runId now lib (slice runId d) m name args =
    sliced (hostWorkflow load observe hash runId now lib d m name args).
Proof.
  unfold hostWorkflow, sliced. rw getJournalEntry_slice_same.
  destruct (bool_decide _); [done|]. destruct (signal_aborted m); [done|].
  destruct (getJournalEntry runId (nextSeq m) d) as [c|].
  - destruct (_ && _); [destruct (source_of (result c)); [done|]|];
      destruct (lib name); by rewrite ?slice_append.
  - destruct (lib name); by rewrite ?slice_append.
Qed.

Lemma host_call_slice now lib d (m : execution) c :
  host_call load observe hash runId maxAgentsPerRun p now lib (slice runId d) m c =
    sliced (host_call load observe hash runId maxAgentsPerRun p now lib d m c).
Proof.
  destruct c; try done; simpl; [|apply hostWorkflow_slice].
  unfold hostAgent, sliced. by rw begin_leaf_slice.
Qed.

Lemma leaf_completed_slice now d (m : execution) t v i o :
  leaf_completed hash runId now (slice runId d) m t v i o =
    (slice runId (leaf_completed hash runId now d m t v i o).1,
     (leaf_completed hash runId now d m t v i o).2).
Proof. unfold leaf_completed. simpl. by rw slice_append flush_slice. Qed.

Lemma leaf_rejected_slice now d (m : execution) t e b :
  leaf_rejected hash runId now (slice runId d) m t e b =
    (slice runId (leaf_rejected hash runId now d m t e b).1,
     (leaf_rejected hash runId now d m t e b).2).
Proof. unfold leaf_rejected. destruct (_ || b); simpl; by rewrite ?slice_append. Qed.

Lemma exec_step_slice now e d m :
  exec_step now e (slice runId d) m = sliced_end <$> exec_step now e d m.
Proof.
  destruct e as [lib| | | | |i v x y|i msg b|]; simpl.
  - unfold proceed. destruct (waiting m); [done|]. destruct (observe (script (current m))); simpl.
    + by rw leave_slice.
    + by rw leave_slice.
    + rw host_call_slice. by destruct (host_call _ _ _ _ _ _ _ _ _ _ _) as [[? ?] ?].
    + done.
  - destruct (waiting m); [done|]. simpl. by rw leave_slice.
  - destruct (waiting m) as [[]|]; [done| |done]. unfold WorkflowEngine.pull.
    destruct (firstError f); [done|]. destruct (tasks f !! cursor f) as [t|]; [|done].
    rw begin_leaf_slice. destruct (_ <? _); [|done]. by destruct (begin_leaf d m t) as [? []].
  - destruct (waiting m) as [[]|]; [done| |done]. unfold catch. by destruct (thrown f).
  - destruct (waiting m) as [[]|]; [done| |done]. by case_match.
  - unfold leaf_returns. destruct (waiting m) as [[t|f]|]; [| |done].
    + rw leaf_completed_slice. by destruct (leaf_completed _ _ _ d _ _ _ _ _).
    + destruct (tasks f !! i) as [t|]; [|done]. destruct (bool_decide _); [|done].
      rw leaf_completed_slice. by destruct (leaf_completed _ _ _ d _ _ _ _ _).
  - unfold leaf_rejects. destruct (waiting m) as [[t|f]|]; [| |done].
    + rw leaf_rejected_slice. by destruct (leaf_rejected _ _ _ d _ _ _ _).
    + destruct (tasks f !! i) as [t|]; [|done]. destruct (bool_decide _); [|done].
      rw leaf_rejected_slice. by destruct (leaf_rejected _ _ _ d _ _ _ _) as [? []].
  - done.
Qed.
End step.

(** ** A run follows its own history *)

(** What a run is seen to do. *)
Definition seen (out : list output) : list (obs V) :=
  omap (λ x, match x with Seen j o => if decide (j = runId) then Some o else None | Said _ => None end) out.

Lemma seen_said ms : seen (Said <$> ms) = [].
Proof. induction ms; [done|]. done. Qed.

Lemma seen_app out out' : seen (out ++ out') = seen out ++ seen out'.
Proof. apply omap_app. Qed.

Lemma seen_reported j (f : @flight V vm) d os :
  seen (concat (reported j f d <$> os)) = if decide (j = runId) then os else [].
Proof.
  induction os as [|o os IH]; simpl; [by case_decide|]. unfold seen in *. simpl.
  rw omap_app IH. fold (seen (Said <$> announce j f d o)). rw seen_said. by case_decide.
Qed.

Section follows.
Context (input : CreateRunInput V TrustContext) (manifest : CapabilityManifest).
Context (stored : input_capabilities input = Some (stored_of manifest)).

Local Notation history := (history load observe hash runId maxAgentsPerRun maxConcurrentLeaves
  (manifest_persona manifest) input).
Local Notation perform := (perform load observe hash maxAgentsPerRun maxConcurrentLeaves maxConcurrentRuns).
Local Notation daemon_run := (daemon_run load observe hash maxAgentsPerRun maxConcurrentLeaves maxConcurrentRuns).
Local Notation orderly := (orderly (vm := vm) (V := V) maxConcurrentRuns).

Record follows (w : daemon) (sw : world) : Prop := {
  fl_db : db sw = slice runId (store w);
  fl_process : process sw = inflight w !! runId ≫= engine;
  fl_persona f : inflight w !! runId = Some f →
    WorkflowCapabilities.persona (run_grants f) = manifest_persona manifest;
  fl_row r : getRun runId (store w) = Some r → same_launch (new_run 0 input) r;
}.

(** The run can do in its own history what the daemon did. *)
Definition catches_up (sw : world) (w : daemon) (out : list output) : Prop :=
  ∃ h sw', history sw h = Some (sw', seen out) ∧ follows w sw'.

Lemma silent w w' sw out : follows w sw → seen out = [] →
  slice runId (store w') = slice runId (store w) → inflight w' !! runId = inflight w !! runId →
  catches_up sw w' out.
Proof.
  intros Hf Hout Hs Hi. exists [], sw. rw Hout. split; [done|]. split.
  - by rw Hs; apply Hf.
  - by rw Hi; apply Hf.
  - rw Hi. apply Hf.
  - intros r. rw -(getRun_slice_same runId (store w')) Hs getRun_slice_same. apply Hf.
Qed.

Lemma one_step now e w' sw sw' out :
  world_step load observe hash runId maxAgentsPerRun maxConcurrentLeaves (manifest_persona manifest) input
    now e sw = Some (sw', seen out) →
  follows w' sw' → catches_up sw w' out.
Proof. intros He Hf. exists [(now, e)], sw'. split; [|done]. simpl. rw He /=. by rw app_nil_r. Qed.

Lemma resolved_persona rg m caps : resolveCapabilities rg m = inl caps →
  WorkflowCapabilities.persona caps = manifest_persona m.
Proof. unfold resolveCapabilities. repeat case_match; by intros [= <-]. Qed.

Lemma on_run_twice j f g d : on_run j f (on_run j g d) = on_run j (f ∘ g) d.
Proof.
  apply tables_ext; [|done]. intros k. rw !getRun_on. case_decide; [|done]. by destruct (getRun k d).
Qed.

Lemma on_run_ext j f g d : (∀ r, getRun j d = Some r → f r = g r) → on_run j f d = on_run j g d.
Proof.
  intros Hfg. apply tables_ext; [|done]. intros k. rw !getRun_on. case_decide; [|done]. subst.
  destruct (getRun k d) eqn:Hr; [|done]. simpl. by rw Hfg.
Qed.

Lemma running_twice now j d :
  updateRun now j {| set_status := Some running; set_counters := None |}
    (updateRun now j {| set_status := Some running; set_counters := None |} d) =
  updateRun now j {| set_status := Some running; set_counters := None |} d.
Proof. unfold updateRun. rw on_run_twice. by apply on_run_ext. Qed.

(** The slice of a run that another run's launch leaves alone. *)
Lemma completion_elsewhere now j label source args caps c t w : j ≠ runId →
  slice runId (store (run_to_completion load now j label source args caps c t w)) = slice runId (store w) ∧
  inflight (run_to_completion load now j label source args caps c t w) !! runId = inflight w !! runId.
Proof.
  intros Hj. unfold run_to_completion, executeWorkflow.
  destruct (getRun j (store w)) as [r|] eqn:Hr; simpl.
  - split; [|by apply lookup_insert_ne]. by apply slice_elsewhere.
  - split; [|by apply lookup_insert_ne]. unfold createRun. fold (getRun j (store w)). rw Hr.
    apply slice_ext; [|done]. unfold getRun. simpl. by rw lookup_insert_ne.
Qed.

Lemma start_silent now rg lib meta j o w w' k ms sw : j ≠ runId → follows w sw →
  WorkflowRuns.start load maxConcurrentRuns now rg lib meta j o w = inl (w', k, ms) →
  catches_up sw w' (Said <$> ms).
Proof.
  intros Hj Hf Hs. unfold WorkflowRuns.start in Hs. destruct (full _ w); [done|].
  destruct (resolveScriptSource _ _) as [source|]; [|done]. destruct (resolveCapabilities _ _); [|done].
  destruct (meta _) as [name|]; [|done]. unfold createRun in Hs.
  destruct (workflow_runs (store w) !! j); [done|]. injection Hs as <- <- <-.
  match goal with |- catches_up _ (run_to_completion _ ?now ?j ?l ?s ?a ?c ?v ?t ?x) _ =>
    destruct (completion_elsewhere now j l s a c v t x Hj) as [Hslice Hfly] end.
  eapply silent; [done|apply seen_said| |by rw Hfly].
  rw Hslice. simpl. apply slice_ext; [|done]. unfold getRun. simpl. by rw lookup_insert_ne.
Qed.

Lemma completion_of now j label source args caps c t w r : getRun j (store w) = Some r →
  run_to_completion load now j label source args caps c t w =
    set_flight j {| engine := Some (open_execution load source args (Some r)); run_label := label;
        run_grants := caps; ctx_conversationId := c; ctx_trust := t |}
      (set_store (updateRun now j {| set_status := Some running; set_counters := None |} (store w)) w).
Proof. intros Hr. unfold run_to_completion, executeWorkflow. simpl. by rw Hr. Qed.

Lemma resume_follows now rg j w w' k sw : follows w sw →
  WorkflowRuns.resume load maxConcurrentRuns now rg j w = inl (w', k) → catches_up sw w' [].
Proof.
  intros Hf Hs. unfold WorkflowRuns.resume in Hs. destruct (inflight w !! j) eqn:Hfly; [done|].
  destruct (getRun j (store w)) as [r|] eqn:Hr; [|done]. case_bool_decide as Hst; [done|].
  destruct (full _ w); [done|]. destruct (resolveCapabilities _ _) as [caps|] eqn:Hcaps; [|done].
  destruct (decide (j = runId)) as [->|Hj].
  - injection Hs as <- <-. pose proof (fl_row _ _ Hf r Hr) as Hl.
    eapply (one_step now Execute).
    + unfold world_step. rw (fl_process _ _ Hf) Hfly. simpl. unfold executeWorkflow.
      rw (fl_db _ _ Hf) getRun_slice_same Hr. reflexivity.
    + erewrite completion_of by (simpl; unfold updateRun; by rw getRun_same Hr).
      split; simpl.
      * rw running_twice. unfold updateRun. by rw slice_on.
      * rw lookup_insert_eq. simpl. unfold open_execution. simpl.
        by rw (sl_source _ _ Hl) (sl_args _ _ Hl).
      * intros f. rw lookup_insert_eq. intros [= <-]. simpl.
        rw (resolved_persona _ _ _ Hcaps) (sl_capabilities _ _ Hl). simpl. rw stored.
        by rw stored_manifest_round_trip.
      * intros q. rw running_twice. unfold updateRun. rw getRun_same Hr. intros [= <-]. by destruct Hl.
  - injection Hs as <- <-.
    match goal with |- catches_up _ (run_to_completion _ ?now ?j ?l ?s ?a ?c ?v ?t ?x) _ =>
      destruct (completion_elsewhere now j l s a c v t x Hj) as [Hslice Hkeep] end.
    eapply silent; [done..| |by rw Hkeep]. rw Hslice. simpl. unfold updateRun. by apply slice_elsewhere.
Qed.

Lemma drive_follows now j e w w' out sw : follows w sw →
  drive load observe hash maxAgentsPerRun maxConcurrentLeaves now j e w = Some (w', out) →
  catches_up sw w' out.
Proof.
  intros Hf Hd. unfold drive in Hd. destruct (inflight w !! j) as [f|] eqn:Hfly; [|done]. simpl in Hd.
  destruct (engine f) as [m|] eqn:Hm; [|done]. simpl in Hd.
  destruct (exec_step _ _ _ _ _ _ _ _ _ _ _) as [[[d m'] os]|] eqn:He; [|done]. injection Hd as <- <-.
  apply exec_step_written in He as Hw. destruct (decide (j = runId)) as [->|Hj].
  - rw (fl_persona _ _ Hf f Hfly) in He. eapply (one_step now (Step e)).
    + unfold world_step. rw (fl_process _ _ Hf) Hfly. simpl. rw Hm. rw (fl_db _ _ Hf) exec_step_slice He.
      simpl. rw seen_reported. by rw decide_True.
    + split; simpl.
      * done.
      * by rw lookup_insert_eq.
      * intros g. rw lookup_insert_eq. intros [= <-]. exact (fl_persona _ _ Hf f Hfly).
      * intros r Hr. destruct (getRun runId (store w)) as [q|] eqn:Hq.
        -- destruct (written_here _ _ _ _ _ _ Hw Hq) as (q' & Hq' & Hl & _). simplify_eq.
           transitivity q; [by apply (fl_row _ _ Hf)|done].
        -- by rw (written_nowhere _ _ _ _ _ Hw Hq) in Hr.
  - eapply silent; [done| | |].
    + rw seen_reported. by rw decide_False.
    + apply slice_ext; [by eapply (written_elsewhere _ _ _ _ _ runId 0)|].
      intros n. by eapply (written_elsewhere _ _ _ _ _ runId n).
    + simpl. by apply lookup_insert_ne.
Qed.

Lemma abort_follows (now : Z) j w sw : follows w sw → catches_up sw (abort_run j w) [].
Proof.
  intros Hf. unfold abort_run. destruct (inflight w !! j) as [f|] eqn:Hfly; [|by eapply silent].
  destruct (decide (j = runId)) as [->|Hj].
  - destruct (engine f) as [m|] eqn:Hm.
    + eapply (one_step now (Step Abort)).
      * unfold world_step. rw (fl_process _ _ Hf) Hfly. simpl. by rw Hm.
      * split; simpl; [apply Hf|by rw lookup_insert_eq| |apply Hf].
        intros g. rw lookup_insert_eq. intros [= <-]. exact (fl_persona _ _ Hf f Hfly).
    + exists [], sw. split; [done|]. split; simpl; [apply Hf| | |apply Hf].
      * rw lookup_insert_eq. simpl. by rw (fl_process _ _ Hf) Hfly /= Hm.
      * intros g. rw lookup_insert_eq. intros [= <-]. exact (fl_persona _ _ Hf f Hfly).
  - eapply silent; [done..|]. simpl. by apply lookup_insert_ne.
Qed.

Lemma settle_follows j w w' sw : follows w sw → settle j w = Some w' → catches_up sw w' [].
Proof.
  intros Hf Hs. unfold settle in Hs. destruct (inflight w !! j) as [f|] eqn:Hfly; [|done].
  destruct (engine f) eqn:Hm; [done|]. injection Hs as <-. destruct (decide (j = runId)) as [->|Hj].
  - exists [], sw. split; [done|]. split; simpl; [apply Hf| | |apply Hf].
    + rw lookup_delete_eq. by rw (fl_process _ _ Hf) Hfly /= Hm.
    + intros g. by rw lookup_delete_eq.
  - eapply silent; [done..|]. simpl. by apply lookup_delete_ne.
Qed.

Lemma prune_silent now days w sw : follows w sw → is_Some (getRun runId (pruneRuns now days (store w))) →
  catches_up sw (set_store (pruneRuns now days (store w)) w) [].
Proof.
  intros Hf [r Hr]. eapply silent; [done..| |done]. simpl.
  pose proof Hr as Hr'. rw getRun_prune in Hr'. destruct (getRun runId (store w)) as [q|] eqn:Hq; [|done].
  destruct (prunable now days q) eqn:Hp; [done|]. apply slice_ext; [congruence|].
  intros n. unfold getJournalEntry, pruneRuns. simpl.
  destruct (workflow_journal (store w) !! (runId, n)) eqn:He.
  - apply map_lookup_filter_Some. split; [done|]. unfold getRun in Hq. by rw Hq.
  - apply map_lookup_filter_None. by left.
Qed.

Lemma perform_follows now op w w' out sw : orderly w → follows w sw →
  perform now op w = Some (w', out) → ¬ starts runId op → is_Some (getRun runId (store w')) →
  catches_up sw w' out.
Proof.
  intros Ho Hf Hp Hn Hr. unfold WorkflowRuns.perform in Hp. destruct op; destruct (booted w) eqn:Hb; try done.
  - destruct (WorkflowRuns.start _ _ _ _ _ _ _ _ _) as [[[w1 k] ms]|e] eqn:Hs; injection Hp as <- <-.
    + by eapply start_silent.
    + by eapply silent.
  - destruct (WorkflowRuns.resume _ _ _ _ _ _) as [[w1 k]|e] eqn:Hs; injection Hp as <- <-.
    + by eapply resume_follows.
    + by eapply silent.
  - injection Hp as <- <-. by apply (abort_follows now).
  - by eapply drive_follows.
  - destruct (settle _ w) eqn:Hs; [|done]. injection Hp as <- <-. by eapply settle_follows.
  - injection Hp as <- <-. by apply prune_silent.
  - injection Hp as <- <-. eapply (one_step now Crash); [by destruct (process sw)|].
    split; simpl; [apply Hf|done|done|apply Hf].
  - injection Hp as <- <-. eapply (one_step now Crash); [by destruct (process sw)|].
    split; simpl; [apply Hf|done|done|apply Hf].
  - injection Hp as <- <-. eapply (one_step now Reconcile).
    + unfold world_step. rw (fl_process _ _ Hf) (ord_down _ _ Ho Hb) lookup_empty. simpl. done.
    + split; simpl; [|done|done|].
      * by rw (fl_db _ _ Hf) slice_interrupted.
      * intros r. unfold getRun. simpl. rw lookup_fmap.
        destruct (workflow_runs (store w) !! runId) as [q|] eqn:Hq; [|done]. intros [= <-].
        transitivity q; [by apply (fl_row _ _ Hf)|]. unfold interrupt. by case_bool_decide.
Qed.

Lemma daemon_run_follows w h w' out sw : orderly w → follows w sw → daemon_run w h = Some (w', out) →
  Forall (λ e, ¬ starts runId e.2) h → is_Some (getRun runId (store w')) → catches_up sw w' out.
Proof.
  revert w out sw. induction h as [|[now op] h IH]; intros w out sw Ho Hf.
  { intros [= <- <-] _ _. by eapply silent. }
  intros (w1 & out1 & out2 & Hp & Hd & ->)%daemon_run_cons [Hn Hs]%Forall_cons Hr.
  assert (is_Some (getRun runId (store w1))) as Hr1.
  { destruct (getRun runId (store w1)) eqn:Hg; [done|].
    rw (daemon_run_gone _ _ _ _ _ _ _ _ _ _ _ Hd Hs Hg) in Hr. by apply is_Some_None in Hr. }
  destruct (perform_follows _ _ _ _ _ _ Ho Hf Hp Hn Hr1) as (h1 & sw1 & Hh1 & Hf1).
  destruct (IH w1 out2 sw1) as (h2 & sw2 & Hh2 & Hf2); [by eapply perform_orderly|done..|].
  exists (h1 ++ h2), sw2. rw history_app Hh1. simpl. rw Hh2. simpl. by rw seen_app.
Qed.
End follows.

(** ** The story of a run *)

(** Among whatever else the daemon does, the run is started under a new id with
    the options [o], and [out] is what the daemon puts out from then on. *)
Inductive story (o : StartWorkflowOptions) (name source : string) (w : daemon) (out : list output) : Prop :=
  Story d h0 w0 out0 now rg lib meta w1 out1 h :
    daemon_run load observe hash maxAgentsPerRun maxConcurrentLeaves maxConcurrentRuns (born d) h0
      = Some (w0, out0) →
    getRun runId (store w0) = None → (∀ n, getJournalEntry runId n (store w0) = None) →
    resolveScriptSource lib o = Some source → meta source = Some name →
    perform load observe hash maxAgentsPerRun maxConcurrentLeaves maxConcurrentRuns now
      (Start rg lib meta runId o) w0 = Some (w1, out1) →
    is_Some (getRun runId (store w1)) →
    daemon_run load observe hash maxAgentsPerRun maxConcurrentLeaves maxConcurrentRuns w1 h = Some (w, out) →
    Forall (λ e, ¬ starts runId e.2) h → is_Some (getRun runId (store w)) →
    story o name source w out.

Local Notation alone o name source :=
  (WorkflowResume.history (T := TrustContext) load observe hash runId maxAgentsPerRun maxConcurrentLeaves
    (manifest_persona (opt_manifest o)) (launch_row name source o)).

Definition nothing : world :=
  {| db := {| workflow_runs := ∅; workflow_journal := ∅ |} : tables; process := @None execution |}.

Lemma nothing_is_fresh : fresh runId nothing.
Proof. done. Qed.

Lemma slice_nothing d : getRun runId d = None → (∀ n, getJournalEntry runId n d = None) →
  slice runId d = db nothing.
Proof.
  intros Hr He. apply tables_ext.
  - intros k. rw getRun_slice. case_decide; [by subst; rw Hr|done].
  - intros k n. rw getJournalEntry_slice. case_decide; [by subst; rw He|done].
Qed.

Lemma start_follows now rg lib meta o source name w w1 out1 :
  getRun runId (store w) = None → (∀ n, getJournalEntry runId n (store w) = None) →
  resolveScriptSource lib o = Some source → meta source = Some name →
  perform load observe hash maxAgentsPerRun maxConcurrentLeaves maxConcurrentRuns now
    (Start rg lib meta runId o) w = Some (w1, out1) →
  is_Some (getRun runId (store w1)) →
  ∃ sw, alone o name source nothing [(now, Execute)] = Some (sw, []) ∧
    follows (launch_row name source o) (opt_manifest o) w1 sw.
Proof.
  intros Hr Hj Hsrc Hmeta Hp Hr1. unfold perform in Hp. destruct (booted w); [|done].
  destruct (WorkflowRuns.start _ _ _ _ _ _ _ _ _) as [[[w' k] ms]|e] eqn:Hs; injection Hp as <- <-;
    [|by rw Hr in Hr1; apply is_Some_None in Hr1].
  unfold WorkflowRuns.start in Hs. destruct (full _ w); [done|]. rw Hsrc in Hs.
  destruct (resolveCapabilities _ _) as [caps|] eqn:Hcaps; [|done]. rw Hmeta in Hs.
  unfold createRun in Hs. fold (getRun runId (store w)) in Hs. rw Hr in Hs. injection Hs as <- _ _.
  eexists. split; [reflexivity|].
  set (x := new_run now (launch_row name source o)) in *.
  erewrite completion_of by (simpl; rw getRun_with; by rw decide_True). split; simpl.
  - unfold updateRun. rw slice_on slice_with_run on_run_with_run.
    by rw (slice_nothing _ Hr Hj).
  - by rw lookup_insert_eq.
  - intros f. rw lookup_insert_eq. intros [= <-]. simpl. by eapply resolved_persona.
  - intros r. unfold updateRun. rw on_run_with_run getRun_with decide_True //. by intros [= <-].
Qed.

Lemma isolated o name source w out : story o name source w out → ∃ h sw,
  alone o name source nothing h = Some (sw, seen out) ∧
  db sw = slice runId (store w) ∧ process sw = inflight w !! runId ≫= engine.
Proof.
  intros [d h0 w0 out0 now rg lib meta w1 out1 h H0 Hr Hj Hsrc Hmeta Hp Hr1 Hd Hn Hr2].
  pose proof (daemon_run_orderly _ _ _ _ _ _ _ _ _ _ (born_orderly _ d) H0) as Ho.
  destruct (start_follows _ _ _ _ _ _ _ _ _ _ Hr Hj Hsrc Hmeta Hp Hr1) as (sw & Hh & Hf).
  pose proof (perform_orderly _ _ _ _ _ _ _ _ _ _ _ Ho Hp) as Ho1.
  destruct (daemon_run_follows (launch_row name source o) (opt_manifest o) eq_refl _ _ _ _ _
    Ho1 Hf Hd Hn Hr2) as (h2 & sw2 & Hh2 & Hf2).
  exists ([(now, Execute)] ++ h2), sw2. split; [|split; apply Hf2].
  rw history_app Hh. simpl. by rw Hh2.
Qed.

(** C3 — Runs do not interfere.  However the daemon interleaves runs over the
    shared tables, and whatever else is started, resumed, pruned or aborted, a run
    lives a history of its own, from empty tables and under the grants it declared:
    what it does, its row, its journal and its engine are those of that history. *)
Theorem runs_are_isolated o name source w out : story o name source w out →
  fresh runId nothing ∧ ∃ h sw, alone o name source nothing h = Some (sw, seen out) ∧
  db sw = slice runId (store w) ∧ process sw = inflight w !! runId ≫= engine.
Proof. intros Hs. split; [exact nothing_is_fresh|by apply isolated]. Qed.

(** C2 — The daemon resumes transparently. A run that completes among the other runs of
    the daemon, whatever was started, aborted or pruned besides it and through any number
    of crashes and resumptions, returns what its script returns in one uninterrupted run
    with the answers its leaves gave and the workflows it read, provided that none of its
    host calls threw, none of its leaves was refused or failed and its script does not
    read its own accounting ([usage]). *)
Theorem daemon_resumes_transparently o name source w out v :
  (∀ s k, observe s ≠ Call usage k) → story o name source w out →
  smooth (seen out) → Finished completed v ∈ seen out →
  ∃ x, v = Some x ∧
    returns load observe (launch_row name source o) (answered (seen out)) (saved_as (seen out)) x.
Proof.
  intros Hu (h & sw & Hh & _)%isolated Hs Hv.
  eapply (history_finished load observe hash runId) with (os := []); [done| |exact Hh|done..].
  apply fresh_sound, nothing_is_fresh.
Qed.
End isolation.

(** ** Two runs at once *)

Module Crowd.
Import WorkflowEngine.Sample.

Definition crowd (w : daemon value vm) (l : list (operation value)) :
    option (daemon value vm * list (output value)) :=
  daemon_run load observe hash 10 2 2 w (Day.at_noon l).

Definition after (w : daemon value vm) l := match crowd w l with Some (w, _) => w | None => w end.
Definition said (w : daemon value vm) l := match crowd w l with Some (_, out) => out | None => [] end.

Lemma crowd_lived w l : match crowd w l with Some _ => true | None => false end = true →
  crowd w l = Some (after w l, said w l).
Proof. unfold after, said. by destruct (crowd w l) as [[? ?]|]. Qed.

Definition morning : list (operation value) :=
  [Boot; Day.start_run "other"] ++ Day.drives "other" [Proceed lib].

(** The two interleave, the process dies, both are resumed and the other run is
    aborted. *)
Definition rest : list (operation value) :=
  Day.drives "run" [Proceed lib; LeafReturns 0 (VText "code") 5 5; Proceed lib; Pull] ++
  Day.drives "other" [LeafReturns 0 (VText "else") 2 2; Proceed lib; Pull] ++
  Day.drives "run" [Pull; LeafReturns 1 (VText "fine") 3 3] ++
  [Die; Boot; Day.resume_run "other"; Day.resume_run "run"] ++
  Day.drives "run" [Proceed lib; Proceed lib; Pull; Pull] ++
  [AbortRun "other"] ++ Day.drives "other" [Interrupt] ++ [Settled "other"] ++
  Day.drives "run" [LeafReturns 0 (VText "good") 1 1; Settle; Proceed lib;
    Proceed lib; LeafReturns 0 (VText "ship it") 1 1; Proceed lib; Proceed lib].

Definition before : daemon value vm := after Day.dawn morning.
Definition started : daemon value vm := after before [Day.start_run "run"].

Example crowd_sample :
  last (seen "run" (said started rest)) = Some (Finished completed (Some (VText "ship it"))) ∧
  last (seen "other" (said started rest)) = Some (Finished aborted None).
Proof. by vm_compute. Qed.

Lemma alone_perform w op w' out : crowd w [op] = Some (w', out) →
  perform load observe hash 10 2 2 0 op w = Some (w', out).
Proof.
  unfold crowd. simpl. destruct (perform _ _ _ _ _ _ _ _ _) as [[w1 out1]|]; [|done]. simpl.
  intros [= -> <-]. by rw app_nil_r.
Qed.

Lemma run_story :
  story load observe hash 10 2 2 "run" (Day.options None) "review" "review"
    (after started rest) (said started rest).
Proof.
  eapply (Story load observe hash 10 2 2 "run" (Day.options None) "review" "review" (after started rest)
    (said started rest) (store Day.dawn) (Day.at_noon morning) before (said Day.dawn morning) 0
    sample_registry (λ _, None) Day.meta started (said before [Day.start_run "run"]) (Day.at_noon rest)).
  - apply (crowd_lived Day.dawn morning). by vm_compute.
  - by vm_compute.
  - intros n. by vm_compute.
  - reflexivity.
  - reflexivity.
  - apply alone_perform, (crowd_lived before [Day.start_run "run"%string]). by vm_compute.
  - by apply is_Some_alt; vm_compute.
  - apply (crowd_lived started rest). by vm_compute.
  - vm_compute. repeat (apply Forall_cons_2; [by intros []|]). by apply Forall_nil_2.
  - by apply is_Some_alt; vm_compute.
Qed.
End Crowd.

Lemma runs_are_isolated_witness : ∃ h sw,
  WorkflowResume.history (T := TrustContext) Sample.load Sample.observe Sample.hash "run" 10 2 false
    (launch_row "review" "review" (Day.options None)) nothing h =
    Some (sw, seen "run" (Crowd.said Crowd.started Crowd.rest)) ∧
  db sw = slice "run" (store (Crowd.after Crowd.started Crowd.rest)) ∧
  process sw = inflight (Crowd.after Crowd.started Crowd.rest) !! "run"%string ≫= engine.
Proof. exact (proj2 (runs_are_isolated _ _ _ _ _ _ _ _ _ _ _ _ Crowd.run_story)). Defined.

Lemma daemon_resumes_transparently_witness : ∃ x, Some (Sample.VText "ship it") = Some x ∧
  let os := seen "run" (Crowd.said Crowd.started Crowd.rest) in
  returns Sample.load Sample.observe (launch_row "review" "review" (Day.options None))
    (answered os) (saved_as os) x.
Proof.
  eapply (daemon_resumes_transparently Sample.load Sample.observe Sample.hash 10 2 2 "run"
    (Day.options None) "review" "review" _ _ _ Crashes.no_usage Crowd.run_story).
  - vm_compute. repeat constructor.
  - vm_compute. repeat constructor.
Defined.
