(* ===== verification/Base64.v ===== *)
(** * base64url

    [Buffer.from(text, "base64url")] and [buffer.toString("base64url")], as the
    gateway's tokens use them: bytes as characters, no padding when writing, and
    characters outside of the alphabet (both alphabets are read) passed over. *)

From S2P Require Import Prelude JsText.

(** Six bits, the highest first. *)
Definition sextet : Type := bool * bool * bool * bool * bool * bool.

Definition sextet_value (x : sextet) : nat :=
  let '(a, b, c, d, e, f) := x in
  32 * Nat.b2n a + 16 * Nat.b2n b + 8 * Nat.b2n c + 4 * Nat.b2n d + 2 * Nat.b2n e + Nat.b2n f.

Definition ALPHABET : string := "ABCDEFGHIJKLMNOPQRSTUVWXYZabcdefghijklmnopqrstuvwxyz0123456789-_".

Definition char_of (x : sextet) : ascii :=
  match String.get (sextet_value x) ALPHABET with Some c => c | None => "A"%char end.

Definition bits : list bool := [false; true].

Definition sextets : list sextet :=
  a ← bits; b ← bits; c ← bits; d ← bits; e ← bits; f ← bits; mret (a, b, c, d, e, f).

(** The value of a character of either alphabet. *)
Definition sextet_of (c : ascii) : option sextet :=
  let c := if bool_decide (c = "+"%char) then "-"%char else if bool_decide (c = "/"%char) then "_"%char else c in
  list_find (λ x, char_of x = c) sextets ≫= λ p, Some p.2.

(** ** Writing *)

Fixpoint encode (s : string) : string :=
  match s with
  | EmptyString => EmptyString
  | String (Ascii a0 a1 a2 a3 a4 a5 a6 a7) EmptyString =>
      String (char_of (a7, a6, a5, a4, a3, a2)) (String (char_of (a1, a0, false, false, false, false)) EmptyString)
  | String (Ascii a0 a1 a2 a3 a4 a5 a6 a7) (String (Ascii b0 b1 b2 b3 b4 b5 b6 b7) EmptyString) =>
      String (char_of (a7, a6, a5, a4, a3, a2)) (String (char_of (a1, a0, b7, b6, b5, b4))
        (String (char_of (b3, b2, b1, b0, false, false)) EmptyString))
  | String (Ascii a0 a1 a2 a3 a4 a5 a6 a7) (String (Ascii b0 b1 b2 b3 b4 b5 b6 b7)
      (String (Ascii c0 c1 c2 c3 c4 c5 c6 c7) rest)) =>
      String (char_of (a7, a6, a5, a4, a3, a2)) (String (char_of (a1, a0, b7, b6, b5, b4))
        (String (char_of (b3, b2, b1, b0, c7, c6)) (String (char_of (c5, c4, c3, c2, c1, c0)) (encode rest))))
  end.

(** ** Reading *)

Fixpoint sextets_of (s : string) : list sextet :=
  match s with
  | EmptyString => []
  | String c s => match sextet_of c with Some x => x :: sextets_of s | None => sextets_of s end
  end.

Fixpoint bytes_of (l : list sextet) : string :=
  match l with
  | (a7, a6, a5, a4, a3, a2) :: (a1, a0, b7, b6, b5, b4) :: (b3, b2, b1, b0, c7, c6) :: (c5, c4, c3, c2, c1, c0) :: rest =>
      String (Ascii a0 a1 a2 a3 a4 a5 a6 a7) (String (Ascii b0 b1 b2 b3 b4 b5 b6 b7)
        (String (Ascii c0 c1 c2 c3 c4 c5 c6 c7) (bytes_of rest)))
  | [(a7, a6, a5, a4, a3, a2); (a1, a0, b7, b6, b5, b4); (b3, b2, b1, b0, _, _)] =>
      String (Ascii a0 a1 a2 a3 a4 a5 a6 a7) (String (Ascii b0 b1 b2 b3 b4 b5 b6 b7) EmptyString)
  | [(a7, a6, a5, a4, a3, a2); (a1, a0, _, _, _, _)] => String (Ascii a0 a1 a2 a3 a4 a5 a6 a7) EmptyString
  | _ => EmptyString
  end.

Definition decode (s : string) : string := bytes_of (sextets_of s).

(** ** Round trips *)

Lemma sextet_of_char x : sextet_of (char_of x) = Some x.
Proof. destruct x as [[[[[[] []] []] []] []] []]; by vm_compute. Qed.

(** Induction on three characters at a time. *)
Lemma string_ind3 (P : string → Prop) : P EmptyString → (∀ a, P (String a EmptyString)) →
  (∀ a b, P (String a (String b EmptyString))) →
  (∀ a b c s, P s → P (String a (String b (String c s)))) → ∀ s, P s.
Proof.
  intros H0 H1 H2 H3. fix IH 1. intros [|a [|b [|c s]]]; [exact H0|apply H1|apply H2|apply H3, IH].
Qed.

Lemma decode_encode s : decode (encode s) = s.
Proof.
  unfold decode. induction s as [|[]|[] []|[] [] [] s IH] using string_ind3; cbn [encode sextets_of].
  - done.
  - by rw !sextet_of_char.
  - by rw !sextet_of_char.
  - rw !sextet_of_char. cbn [bytes_of]. by rw IH.
Qed.

Lemma decode_app a b : Forall (λ c, sextet_of c = None) (String.list_ascii_of_string b) → decode (String.append a b) = decode a.
Proof.
  intros Hb. unfold decode. f_equal. assert (sextets_of b = []) as Hs.
  { induction b as [|c b IH]; [done|]. apply Forall_cons in Hb as [Hc Hb]. cbn [sextets_of]. rw Hc. by apply IH. }
  induction a as [|c a IH]; [done|]. rw append_cons. cbn [sextets_of]. by rw IH.
Qed.

(** What is written is read by its own characters alone. *)
Definition plain_char (a : ascii) : bool := bool_decide (is_Some (sextet_of a)).

Lemma encode_plain s : all_chars plain_char (encode s) = true.
Proof.
  assert (∀ x, plain_char (char_of x) = true) as Hc.
  { intros x. unfold plain_char. by rw sextet_of_char. }
  unfold all_chars. induction s as [|[]|[] []|[] [] [] s IH] using string_ind3; cbn; rewrite ?Hc; done.
Qed.

Example base64_samples :
  encode "Man" = "TWFu"%string ∧ encode "Ma" = "TWE"%string ∧ encode "M" = "TQ"%string ∧
  decode "TWFu" = "Man"%string ∧ decode "TW E=" = "Ma"%string ∧ decode "TQ==" = "M"%string ∧
  encode (decode "TR") = "TQ"%string.
Proof. by vm_compute. Qed.
