(* ===== verification/AuthTokens.v ===== *)
(** * The gateway's tokens

    [gateway/src/auth/token-service.ts], [subject.ts], [policy.ts] and
    [token-exchange.ts]: how a token is written, verified and exchanged, and the
    spelling under which [actor-token-revocation.ts] looks one up.  The keyed hash
    and the text of the claims are arguments; the clock is in milliseconds. *)

From S2P Require Import Prelude JsText Base64.
Local Open Scope string_scope.
Local Open Scope litt_scope.

Definition dot : ascii := ".".

(** ** Subjects *)

Inductive PrincipalType := actor | svc_gateway | svc_daemon | local.

Record Subject := {
  principalType : PrincipalType;
  assistantId : string;
  actorPrincipalId : option string;
  conversationId : option string;
}.

(** [None] where the parser gives a reason. *)
Definition parseSub (sub : string) : option Subject :=
  let named s := bool_decide (s ≠ EmptyString) in
  match split_on ":" sub with
  | [a; b; c] =>
      if bool_decide (a = "actor") then
        if named b && named c
        then Some {| principalType := actor; assistantId := b; actorPrincipalId := Some c; conversationId := None |} else None
      else if bool_decide (a = "svc") && bool_decide (b = "gateway") then
        if named c
        then Some {| principalType := svc_gateway; assistantId := c; actorPrincipalId := None; conversationId := None |} else None
      else if bool_decide (a = "svc") && bool_decide (b = "daemon") then
        if named c
        then Some {| principalType := svc_daemon; assistantId := c; actorPrincipalId := None; conversationId := None |} else None
      else if bool_decide (a = "local") then
        if named b && named c
        then Some {| principalType := local; assistantId := b; actorPrincipalId := None; conversationId := Some c |} else None
      else None
  | _ => None
  end.

Definition GATEWAY_SERVICE : string := "svc:gateway:self".

Definition toDaemonSubject (edgeSub : string) : string :=
  match parseSub edgeSub with
  | None => GATEWAY_SERVICE
  | Some parsed =>
      match principalType parsed with
      | actor => "actor:self:" +:+ (actorPrincipalId parsed otherwise EmptyString)
      | local => "local:self:" +:+ (conversationId parsed otherwise EmptyString)
      | _ => GATEWAY_SERVICE
      end
  end.

(** ** Claims *)

Inductive ScopeProfile :=
  actor_client_v1 | gateway_ingress_v1 | gateway_service_v1 | local_v1 | oauth_proxy_v1 | speech_relay_v1 | ui_page_v1.

Inductive TokenAudience := vellum_gateway | vellum_daemon.

#[export] Instance PrincipalType_eq_dec : EqDecision PrincipalType.
Proof. solve_decision. Defined.
#[export] Instance ScopeProfile_eq_dec : EqDecision ScopeProfile.
Proof. solve_decision. Defined.
#[export] Instance TokenAudience_eq_dec : EqDecision TokenAudience.
Proof. solve_decision. Defined.
#[export] Instance Subject_eq_dec : EqDecision Subject.
Proof. solve_decision. Defined.

Record TokenClaims := {
  aud : TokenAudience;
  sub : string;
  scope_profile : ScopeProfile;
  exp : Z;
  policy_epoch : Z;
  iat : Z;
  jti : string;
}.

Definition CURRENT_POLICY_EPOCH : Z := 1.
Definition isStaleEpoch (epoch : Z) : bool := (epoch <? CURRENT_POLICY_EPOCH)%Z.

(** The reasons of [verifyToken]. *)
Inductive verify_failure :=
  malformed_token | invalid_signature | malformed_claims | audience_mismatch | token_expired | stale_policy_epoch.

Section tokens.
(** The signature under the gateway's key, [Buffer.from(text, "base64url")], and
    [JSON.stringify] and [JSON.parse] of the claims. *)
Context (hmac decode : string → string).
Context (claims_text : TokenClaims → string) (parse_claims : string → option TokenClaims).

(** [base64urlEncode] of the header. *)
Definition JWT_HEADER : string := "eyJhbGciOiJIUzI1NiIsInR5cCI6IkpXVCJ9".

Definition signed_text (header payload : string) : string := header +:+ String dot payload.

Definition mintToken (audience : TokenAudience) (subject : string) (profile : ScopeProfile) (epoch ttlSeconds now : Z)
    (fresh : string) : string :=
  let now := (now / 1000)%Z in
  let claims := {| aud := audience; sub := subject; scope_profile := profile; exp := now + ttlSeconds;
                   policy_epoch := epoch; iat := now; jti := fresh |} in
  let sigInput := signed_text JWT_HEADER (encode (claims_text claims)) in
  signed_text sigInput (encode (hmac sigInput)).

Definition verifyToken (token : string) (expectedAud : TokenAudience) (allowExpired : bool) (now : Z)
    : TokenClaims + verify_failure :=
  match split_on dot token with
  | [headerPart; payloadPart; sigPart] =>
      if bool_decide (hmac (signed_text headerPart payloadPart) ≠ decode sigPart) then inr invalid_signature
      else
        match parse_claims (decode payloadPart) with
        | None => inr malformed_claims
        | Some claims =>
            if bool_decide (aud claims ≠ expectedAud) then inr audience_mismatch
            else if negb allowExpired && (exp claims <=? now / 1000)%Z then inr token_expired
            else if isStaleEpoch (policy_epoch claims) then inr stale_policy_epoch
            else inl claims
        end
  | _ => inr malformed_token
  end.

(** ** Exchange *)

Definition EXCHANGE_TOKEN_TTL_SECONDS : Z := 60.

Definition validateEdgeToken (token : string) (allowExpired : bool) (now : Z) : TokenClaims + verify_failure :=
  verifyToken token vellum_gateway allowExpired now.

Definition mintExchangeToken (edgeClaims : TokenClaims) (target : ScopeProfile) (now : Z) (fresh : string) : string :=
  mintToken vellum_daemon (toDaemonSubject (sub edgeClaims)) target CURRENT_POLICY_EPOCH EXCHANGE_TOKEN_TTL_SECONDS now fresh.

Definition mintIngressToken : Z → string → string :=
  mintToken vellum_daemon GATEWAY_SERVICE gateway_ingress_v1 CURRENT_POLICY_EPOCH EXCHANGE_TOKEN_TTL_SECONDS.
Definition mintServiceToken : Z → string → string :=
  mintToken vellum_daemon GATEWAY_SERVICE gateway_service_v1 CURRENT_POLICY_EPOCH EXCHANGE_TOKEN_TTL_SECONDS.
Definition mintRelayToken : Z → string → string :=
  mintToken vellum_gateway GATEWAY_SERVICE gateway_service_v1 CURRENT_POLICY_EPOCH EXCHANGE_TOKEN_TTL_SECONDS.
Definition mintUiPageToken : Z → string → string :=
  mintToken vellum_gateway GATEWAY_SERVICE ui_page_v1 CURRENT_POLICY_EPOCH 3600.

(** ** The spelling of a token *)

Definition canonicalizeTokenForHash (rawToken : string) : string :=
  let trimmed := js_trim rawToken in
  match split_on dot trimmed with
  | [a; b; c] => signed_text (signed_text (encode (decode a)) (encode (decode b))) (encode (decode c))
  | _ => trimmed
  end.
End tokens.

(** ** Laws of the parameters

    What is read back is what was written, and a reader passes over white space. *)
Class Reads (decode : string → string) := {
  reads_encoded s : decode (encode s) = s;
  reads_trimmed s : decode (trim_end s) = decode s;
}.

(** ** Splitting *)

Lemma split_three c s x y z : split_on c s = [x; y; z] → s = x +:+ String c (y +:+ String c z) ∧
  has_char c x = false ∧ has_char c y = false ∧ has_char c z = false.
Proof.
  intros Hs. destruct (join_split c s) as [Hj Hf]. rewrite Hs in Hj, Hf. split; [done|].
  by apply Forall_cons in Hf as [? [? [? _]%Forall_cons]%Forall_cons].
Qed.

Lemma split_of_three c x y z : has_char c x = false → has_char c y = false → has_char c z = false →
  split_on c (x +:+ String c (y +:+ String c z)) = [x; y; z].
Proof. intros. by rw !split_on_app // split_on_plain. Qed.

Lemma encode_no_dot s : has_char dot (encode s) = false.
Proof.
  pose proof (encode_plain s) as H. unfold all_chars in H. revert H. generalize (encode s). intros w.
  induction w as [|a w IH]; [done|]. cbn. intros [Ha Hw]%andb_true_iff. rw IH // orb_false_r.
  apply bool_decide_eq_false. intros ->. by vm_compute in Ha.
Qed.

Lemma trim_end_dot a b : trim_end (a +:+ String dot b) = a +:+ String dot (trim_end b).
Proof.
  induction a as [|x a IH].
  - rw !append_empty. cbn [trim_end]. destruct (trim_end b); reflexivity.
  - rw !append_cons. cbn [trim_end]. rw IH. by destruct a.
Qed.

Lemma trim_start_header s : trim_start (JWT_HEADER +:+ s) = JWT_HEADER +:+ s.
Proof. done. Qed.

Lemma no_dot_trim s : has_char dot s = false → has_char dot (trim_end s) = false.
Proof.
  induction s as [|a s IH]; [done|]. cbn [has_char trim_end]. intros [Ha Hs]%orb_false_iff. specialize (IH Hs).
  destruct (trim_end s); [destruct (is_space a); [done|]|]; cbn [has_char] in *; by rewrite Ha.
Qed.

Section laws.
Context (hmac decode : string → string) `{!Reads decode}.
Context (claims_text : TokenClaims → string) (parse_claims : string → option TokenClaims).
(** [JSON.parse] reads what [JSON.stringify] wrote of the claims. *)
Definition read_back (c : TokenClaims) : Prop := parse_claims (claims_text c) = Some c.
Local Abbreviation mint := (mintToken hmac claims_text).
Local Abbreviation verify := (verifyToken hmac decode parse_claims).

(** What the gateway signs. *)
Definition signing_input (c : TokenClaims) : string := signed_text JWT_HEADER (encode (claims_text c)).
Definition issued (c : TokenClaims) : string := signed_text (signing_input c) (encode (hmac (signing_input c))).

Lemma split_input c s : has_char dot s = false →
  split_on dot (signed_text (signing_input c) s) = [JWT_HEADER; encode (claims_text c); s].
Proof.
  intros Hs. unfold signing_input, signed_text. rw append_assoc append_cons.
  by apply split_of_three; [|apply encode_no_dot|].
Qed.

Lemma verify_input c s audience allow now : read_back c → verify (signed_text (signing_input c) s) audience allow now =
  if has_char dot s then inr malformed_token
  else if bool_decide (hmac (signing_input c) ≠ decode s) then inr invalid_signature
  else if bool_decide (aud c ≠ audience) then inr audience_mismatch
  else if negb allow && (exp c <=? now / 1000)%Z then inr token_expired
  else if isStaleEpoch (policy_epoch c) then inr stale_policy_epoch
  else inl c.
Proof.
  unfold read_back, verifyToken. intros parse_text. destruct (has_char dot s) eqn:Hs.
  - destruct (split_on dot (signed_text (signing_input c) s)) as [|x [|y [|z [|]]]] eqn:Hp; try done.
    exfalso. unfold signing_input, signed_text in Hp. rewrite append_assoc append_cons in Hp.
    rewrite !split_on_app in Hp; [|apply encode_no_dot|done]. injection Hp as _ _ Hp.
    destruct (join_split dot s) as [Hj Hf]. rewrite Hp in Hj, Hf. apply Forall_cons in Hf as [Hf _].
    cbn [join_on] in Hj. congruence.
  - rw split_input // reads_encoded parse_text. done.
Qed.

Lemma trim_input c s : js_trim (signed_text (signing_input c) s) = signed_text (signing_input c) (trim_end s).
Proof.
  unfold js_trim, signing_input, signed_text.
  trans (trim_end ((JWT_HEADER +:+ String dot (encode (claims_text c))) +:+ String dot s)); [done|apply trim_end_dot].
Qed.

(** C24 — Whatever way the signature of a token is spelled (padding, the other
    alphabet, trailing bits, white space), if the token is accepted then it is
    looked up under the text that was minted: a revoked record is found. *)
Theorem accepted_spellings_are_one c s audience allow now c' : read_back c →
  verify (signed_text (signing_input c) s) audience allow now = inl c' →
  canonicalizeTokenForHash decode (signed_text (signing_input c) s) = issued c.
Proof.
  intros Hr Hv. rewrite verify_input in Hv; [|done]. destruct (has_char dot s) eqn:Hs; [done|].
  case_bool_decide as Hd; [done|].
  unfold canonicalizeTokenForHash. rw trim_input split_input; [|by apply no_dot_trim].
  assert (JWT_HEADER = encode (Base64.decode JWT_HEADER)) as -> by (by vm_compute).
  rw !reads_encoded reads_trimmed -Hd. done.
Qed.

(** A minted token is accepted under its audience for exactly the seconds it
    was given, with what was asked for in it; under the other audience never. *)
Theorem minted_tokens_verify audience subject profile ttl now fresh expected allow later :
  read_back {| aud := audience; sub := subject; scope_profile := profile; exp := now / 1000 + ttl;
               policy_epoch := CURRENT_POLICY_EPOCH; iat := now / 1000; jti := fresh |} →
  verify (mint audience subject profile CURRENT_POLICY_EPOCH ttl now fresh) expected allow later =
  if bool_decide (audience ≠ expected) then inr audience_mismatch
  else if negb allow && (now / 1000 + ttl <=? later / 1000)%Z then inr token_expired
  else inl {| aud := audience; sub := subject; scope_profile := profile; exp := now / 1000 + ttl;
              policy_epoch := CURRENT_POLICY_EPOCH; iat := now / 1000; jti := fresh |}.
Proof.
  intros Hr. unfold mintToken. cbn zeta. set (c := {| aud := audience |}).
  change (signed_text JWT_HEADER (encode (claims_text c))) with (signing_input c).
  rw verify_input // encode_no_dot reads_encoded bool_decide_false; [done|]. by intros [].
Qed.
End laws.

(** [Buffer]'s reader is one. *)
#[export] Instance base64url_reads : Reads Base64.decode.
Proof.
  split; [apply decode_encode|]. intros s. unfold Base64.decode. f_equal.
  assert (∀ a, is_space a = true → sextet_of a = None) as Hsp.
  { intros [[] [] [] [] [] [] [] []]; by vm_compute. }
  induction s as [|a s IH]; [done|]. cbn [trim_end sextets_of]. rewrite <- IH.
  destruct (trim_end s); [|done]. destruct (is_space a) eqn:Ha; [|done]. by rw Hsp.
Qed.

(** A witness's key and claims: the signature is the reversal of the text. *)
Fixpoint reversed (s acc : string) : string :=
  match s with EmptyString => acc | String a s => reversed s (String a acc) end.
Definition sample_hmac (s : string) : string := substring 0 4 (reversed s EmptyString).
Definition sample_claims : TokenClaims :=
  {| aud := vellum_gateway; sub := "actor:self:p1"; scope_profile := actor_client_v1; exp := 1000 + 60;
     policy_epoch := 1; iat := 1000; jti := "j" |}.
Definition sample_text (_ : TokenClaims) : string := "claims".
Definition sample_parse (_ : string) : option TokenClaims := Some sample_claims.

Lemma accepted_spellings_are_one_witness :
  let spelled := signed_text (signing_input sample_text sample_claims) "ejFX YR==  " in
  verifyToken sample_hmac Base64.decode sample_parse spelled vellum_gateway false 1000000 = inl sample_claims ∧
  spelled ≠ issued sample_hmac sample_text sample_claims ∧
  canonicalizeTokenForHash Base64.decode spelled = issued sample_hmac sample_text sample_claims.
Proof.
  split; [by vm_compute|]. split; [by vm_compute|].
  apply (accepted_spellings_are_one sample_hmac Base64.decode sample_text sample_parse sample_claims "ejFX YR==  "
    vellum_gateway false 1000000 sample_claims); by vm_compute.
Defined.

Lemma minted_tokens_verify_witness :
  verifyToken sample_hmac Base64.decode sample_parse
    (mintToken sample_hmac sample_text vellum_gateway "actor:self:p1" actor_client_v1 1 60 1000000 "j")
    vellum_gateway false 1059999 = inl sample_claims ∧
  verifyToken sample_hmac Base64.decode sample_parse
    (mintToken sample_hmac sample_text vellum_gateway "actor:self:p1" actor_client_v1 1 60 1000000 "j")
    vellum_gateway false 1060000 = inr token_expired.
Proof. split; rewrite (minted_tokens_verify sample_hmac Base64.decode sample_text sample_parse); by vm_compute. Defined.

(** What the daemon is told names the same principal or conversation, under
    its own assistant, and is a service of the gateway otherwise: an exchange
    makes nobody an actor. *)
Theorem daemon_subject_keeps_the_principal s :
  parseSub (toDaemonSubject s) =
  Some match parseSub s with
       | Some {| principalType := actor; actorPrincipalId := p |} =>
           {| principalType := actor; assistantId := "self"; actorPrincipalId := p; conversationId := None |}
       | Some {| principalType := local; conversationId := c |} =>
           {| principalType := local; assistantId := "self"; actorPrincipalId := None; conversationId := c |}
       | _ => {| principalType := svc_gateway; assistantId := "self"; actorPrincipalId := None; conversationId := None |}
       end.
Proof.
  unfold toDaemonSubject. destruct (parseSub s) as [[p a ap cv]|] eqn:Hp; [|done].
  assert (∀ w, has_char ":" w = false → w ≠ EmptyString →
    parseSub ("actor:self:" +:+ w) = Some {| principalType := actor; assistantId := "self"; actorPrincipalId := Some w; conversationId := None |} ∧
    parseSub ("local:self:" +:+ w) = Some {| principalType := local; assistantId := "self"; actorPrincipalId := None; conversationId := Some w |}) as Hw.
  { intros w Hc Hne. assert (bool_decide (w ≠ EmptyString) = true) as Hn by (by apply bool_decide_true).
    split; unfold parseSub; [change ("actor:self:" +:+ w) with ("actor" +:+ String ":" ("self" +:+ String ":" w))|
      change ("local:self:" +:+ w) with ("local" +:+ String ":" ("self" +:+ String ":" w))];
    rewrite split_of_three; try done; cbn; by rewrite Hn. }
  unfold parseSub in Hp. destruct (split_on ":" s) as [|x [|y [|z [|]]]] eqn:Hs; try done.
  apply split_three in Hs as (_ & _ & _ & Hz).
  destruct (bool_decide (x = "actor")).
  { destruct (bool_decide (y ≠ EmptyString)), (bool_decide (z ≠ EmptyString)) eqn:Hn; try done.
    injection Hp as <- <- <- <-. apply bool_decide_eq_true in Hn. by apply Hw. }
  destruct (bool_decide (x = "svc")); cbn [andb] in Hp.
  { destruct (bool_decide (y = "gateway")); [by destruct (bool_decide (z ≠ EmptyString)); [injection Hp as <- <- <- <-|]|].
    destruct (bool_decide (y = "daemon")); [by destruct (bool_decide (z ≠ EmptyString)); [injection Hp as <- <- <- <-|]|].
    destruct (bool_decide (x = "local")); [|done].
    destruct (bool_decide (y ≠ EmptyString)), (bool_decide (z ≠ EmptyString)) eqn:Hn; try done.
    injection Hp as <- <- <- <-. apply bool_decide_eq_true in Hn. by apply Hw. }
  destruct (bool_decide (x = "local")); [|done].
  destruct (bool_decide (y ≠ EmptyString)), (bool_decide (z ≠ EmptyString)) eqn:Hn; try done.
  injection Hp as <- <- <- <-. apply bool_decide_eq_true in Hn. by apply Hw.
Qed.
