(* ===== verification/DeviceTokens.v ===== *)
(** * Device credentials of the gateway

    The two token tables ([gateway/src/db/schema.ts]) and what writes them:
    pairing ([auth/guardian-bootstrap.ts]), rotation ([auth/guardian-refresh.ts]),
    the device routes ([http/routes/devices.ts]), admission
    ([auth/actor-token-revocation.ts]) and the derived tokens of
    [http/routes/auth-token.ts].  Random bytes, ids and the clock are arguments of
    an operation; a constraint of a table that is broken throws. *)

From S2P Require Import Prelude JsText Base64 AuthTokens DedupCache.
From stdpp Require Import pretty.
Local Open Scope string_scope.
Local Open Scope Z_scope.
Local Open Scope litt_scope.

(** ** Identity text ([auth/device-identity-text.ts]) *)

Definition MAX_PAIRING_USER_AGENT_CHARS : nat := 512.
Definition MAX_CLIENT_REPORTED_NAME_CHARS : nat := 64.

(** The code points below 32 and 127 are bytes of their own. *)
Definition is_control (a : ascii) : bool := (nat_of_ascii a <=? 31)%nat || bool_decide (nat_of_ascii a = 127%nat).

Definition stripControlChars : string → string := string_filter (λ a, negb (is_control a)).

(** A byte that continues a code point. *)
Definition continues (a : ascii) : bool := (128 <=? nat_of_ascii a)%nat && (nat_of_ascii a <=? 191)%nat.

(** [Array.from(s).slice(0, n).join("")]: whole code points. *)
Fixpoint take_points (n : nat) (s : string) : string :=
  match s with
  | EmptyString => EmptyString
  | String a s =>
      if continues a then String a (take_points n s)
      else match n with O => EmptyString | S n => String a (take_points n s) end
  end.

Fixpoint points (s : string) : nat :=
  match s with
  | EmptyString => 0
  | String a s => if continues a then points s else S (points s)
  end.

Definition capDeviceIdentityText (value : option string) (maxChars : nat) : option string :=
  match value with
  | None => None
  | Some value =>
      let trimmed := js_trim (stripControlChars value) in
      if bool_decide (trimmed = EmptyString) then None else Some (take_points maxChars trimmed)
  end.

Record DeviceIdentityInput := { pairingUserAgent : option string; clientReportedName : option string }.

Definition capIdentity (identity : option DeviceIdentityInput) : DeviceIdentityInput :=
  {| pairingUserAgent := capDeviceIdentityText (identity ≫= pairingUserAgent) MAX_PAIRING_USER_AGENT_CHARS;
     clientReportedName := capDeviceIdentityText (identity ≫= clientReportedName) MAX_CLIENT_REPORTED_NAME_CHARS |}.

(** ** Tables *)

Module Access.
(** The values the program writes into the column [status]. *)
Inductive Status := active | derived | revoked.

#[global] Instance Status_eq_dec : EqDecision Status.
Proof. solve_decision. Defined.

(** A row of [actor_token_records]. *)
Record Row := Mk {
  id : string;
  tokenHash : string;
  guardianPrincipalId : string;
  hashedDeviceId : string;
  platform : string;
  identity : DeviceIdentityInput;
  status : Status;
  issuedAt : Z;
  expiresAt : option Z;
  lastUsedAt : option Z;
  createdAt : Z;
  updatedAt : Z;
}.

Definition set_status (s : Status) (now : Z) (r : Row) : Row :=
  Mk (id r) (tokenHash r) (guardianPrincipalId r) (hashedDeviceId r) (platform r) (identity r) s
     (issuedAt r) (expiresAt r) (lastUsedAt r) (createdAt r) now.

Definition set_lastUsedAt (t : option Z) (r : Row) : Row :=
  Mk (id r) (tokenHash r) (guardianPrincipalId r) (hashedDeviceId r) (platform r) (identity r) (status r)
     (issuedAt r) (expiresAt r) t (createdAt r) (updatedAt r).

Definition of_device (principal device : string) (r : Row) : bool :=
  bool_decide (guardianPrincipalId r = principal) && bool_decide (hashedDeviceId r = device).

Definition has (s : Status) (r : Row) : bool := bool_decide (status r = s).
End Access.

Module Refresh.
Inductive Status := active | rotated | revoked.

#[global] Instance Status_eq_dec : EqDecision Status.
Proof. solve_decision. Defined.

(** A row of [actor_refresh_token_records]. *)
Record Row := Mk {
  id : string;
  tokenHash : string;
  familyId : string;
  guardianPrincipalId : string;
  hashedDeviceId : string;
  platform : string;
  identity : DeviceIdentityInput;
  status : Status;
  issuedAt : Z;
  absoluteExpiresAt : Z;
  inactivityExpiresAt : Z;
  lastUsedAt : option Z;
  browserRefreshCookiePath : option string;
  createdAt : Z;
  updatedAt : Z;
}.

Definition set_status (s : Status) (used : option Z) (now : Z) (r : Row) : Row :=
  Mk (id r) (tokenHash r) (familyId r) (guardianPrincipalId r) (hashedDeviceId r) (platform r) (identity r) s
     (issuedAt r) (absoluteExpiresAt r) (inactivityExpiresAt r) used (browserRefreshCookiePath r) (createdAt r) now.

Definition of_device (principal device : string) (r : Row) : bool :=
  bool_decide (guardianPrincipalId r = principal) && bool_decide (hashedDeviceId r = device).

Definition has (s : Status) (r : Row) : bool := bool_decide (status r = s).
End Refresh.

Record DB := Tables { actorTokenRecords : list Access.Row; actorRefreshTokenRecords : list Refresh.Row }.

(** [UPDATE … SET f WHERE p] *)
Definition update_where {A} (p : A → bool) (f : A → A) : list A → list A := map (λ r, if p r then f r else r).

Definition on_access (f : list Access.Row → list Access.Row) (db : DB) : DB :=
  Tables (f (actorTokenRecords db)) (actorRefreshTokenRecords db).
Definition on_refresh (f : list Refresh.Row → list Refresh.Row) (db : DB) : DB :=
  Tables (actorTokenRecords db) (f (actorRefreshTokenRecords db)).

(** The primary key, and [idx_actor_tokens_active_device]: one active row of a
    device. *)
Definition access_conflict (r r' : Access.Row) : bool :=
  bool_decide (Access.id r = Access.id r') ||
  (Access.has Access.active r && Access.has Access.active r' &&
   Access.of_device (Access.guardianPrincipalId r) (Access.hashedDeviceId r) r').

Definition refresh_conflict (r r' : Refresh.Row) : bool :=
  bool_decide (Refresh.id r = Refresh.id r') ||
  (Refresh.has Refresh.active r && Refresh.has Refresh.active r' &&
   Refresh.of_device (Refresh.guardianPrincipalId r) (Refresh.hashedDeviceId r) r').

(** [INSERT]; [None] where a constraint throws. *)
Definition insert_access (r : Access.Row) (db : DB) : option DB :=
  if existsb (access_conflict r) (actorTokenRecords db) then None
  else Some (on_access (λ l, (l ++ [r])%list) db).

Definition insert_refresh (r : Refresh.Row) (db : DB) : option DB :=
  if existsb (refresh_conflict r) (actorRefreshTokenRecords db) then None
  else Some (on_refresh (λ l, (l ++ [r])%list) db).

(** [SELECT … WHERE token_hash = ?], the first row. *)
Definition findAccessByHash (tokenHash : string) (db : DB) : option Access.Row :=
  head (filter (λ r, Access.tokenHash r = tokenHash) (actorTokenRecords db)).
Definition findRefreshByHash (tokenHash : string) (db : DB) : option Refresh.Row :=
  head (filter (λ r, Refresh.tokenHash r = tokenHash) (actorRefreshTokenRecords db)).

(** ** Revocation ([auth/guardian-bootstrap.ts]) *)

Definition clearDeviceActivityStamp (principal device : string) : DB → DB :=
  on_access (update_where (Access.of_device principal device) (Access.set_lastUsedAt None)).

Definition revokeActorTokensByDevice (principal device : string) (now : Z) (db : DB) : DB :=
  clearDeviceActivityStamp principal device
    (on_access (update_where (λ r, Access.of_device principal device r && (Access.has Access.active r || Access.has Access.derived r))
                  (Access.set_status Access.revoked now)) db).

Definition revokeRefreshTokensByDevice (principal device : string) (now : Z) : DB → DB :=
  on_refresh (update_where (λ r, Refresh.of_device principal device r && Refresh.has Refresh.active r)
    (λ r, Refresh.set_status Refresh.revoked (Refresh.lastUsedAt r) now r)).

(** ** Lifetimes *)

Definition ACCESS_TOKEN_TTL_SECONDS : Z := 30 * 24 * 60 * 60.
Definition ACCESS_TOKEN_TTL_MS : Z := ACCESS_TOKEN_TTL_SECONDS * 1000.
Definition REFRESH_ABSOLUTE_TTL_MS : Z := 365 * 24 * 60 * 60 * 1000.
Definition REFRESH_INACTIVITY_TTL_MS : Z := 90 * 24 * 60 * 60 * 1000.
(** [Math.floor(ACCESS_TOKEN_TTL_MS * 0.8)] *)
Definition refresh_after_delay : Z := ACCESS_TOKEN_TTL_MS * 8 / 10.

(** What one operation draws: the ids of its rows, the [jti] of its token and the
    texts of its random tokens. *)
Record Entropy := {
  accessId : string; refreshId : string; fresh_jti : string;
  refreshText : string; familyText : string; bindingText : string;
}.

Record TokenPair := {
  accessToken : string; accessTokenExpiresAt : Z;
  refreshToken : string; refreshTokenExpiresAt : Z; refreshAfter : Z;
}.

Inductive RefreshErrorCode :=
  refresh_invalid | refresh_expired | refresh_reuse_detected | device_binding_mismatch | token_revoked
| guardian_repair_required.

Inductive outcome (A : Type) := done (a : A) | failed (e : RefreshErrorCode) | threw.
Arguments done {_} _. Arguments failed {_} _. Arguments threw {_}.

Inductive GuardianIntegrityState := ok | missing_guardian.

Section credentials.
(** The digest and the signature, and the claims as text. *)
Context (hashToken hmac decode : string → string).
Context (claims_text : TokenClaims → string) (parse_claims : string → option TokenClaims).
(** [getExternalAssistantId()] *)
Context (externalAssistantId : string).

Definition hashDeviceId (deviceId : string) : string := hashToken (js_trim deviceId).

(** ** Minting *)

Definition actor_token (principal : string) (now : Z) (e : Entropy) : string :=
  mintToken hmac claims_text vellum_gateway ("actor:" +:+ externalAssistantId +:+ ":" +:+ principal) actor_client_v1
    CURRENT_POLICY_EPOCH ACCESS_TOKEN_TTL_SECONDS now (fresh_jti e).

Definition access_row (principal device platform : string) (identity : DeviceIdentityInput) (now : Z) (e : Entropy)
    (token : string) : Access.Row :=
  Access.Mk (accessId e) (hashToken token) principal device platform identity Access.active now
    (Some (now + ACCESS_TOKEN_TTL_MS)) None now now.

Definition mintAccessToken (principal device platform : string) (identity : option DeviceIdentityInput) (now : Z)
    (e : Entropy) (db : DB) : option (DB * (string * Z)) :=
  let token := actor_token principal now e in
  db ← insert_access (access_row principal device platform (capIdentity identity) now e token) db;
  Some (db, (token, now + ACCESS_TOKEN_TTL_MS)).

Definition refresh_row (family principal device platform : string) (identity : DeviceIdentityInput) (absolute : Z)
    (cookiePath : option string) (now : Z) (e : Entropy) : Refresh.Row :=
  Refresh.Mk (refreshId e) (hashToken (refreshText e)) family principal device platform identity Refresh.active now
    absolute (now + REFRESH_INACTIVITY_TTL_MS) None cookiePath now now.

Definition mintRefreshToken (principal device platform : string) (cookiePath : option string)
    (identity : option DeviceIdentityInput) (now : Z) (e : Entropy) (db : DB) : option (DB * (string * Z * Z)) :=
  let absoluteExpiresAt := now + REFRESH_ABSOLUTE_TTL_MS in
  db ← insert_refresh
    (refresh_row (familyText e) principal device platform (capIdentity identity) absoluteExpiresAt cookiePath now e) db;
  Some (db, (refreshText e, absoluteExpiresAt `min` (now + REFRESH_INACTIVITY_TTL_MS), now + refresh_after_delay)).

Definition pair_of (access : string * Z) (refresh : string * Z * Z) : TokenPair :=
  {| accessToken := access.1; accessTokenExpiresAt := access.2; refreshToken := refresh.1.1;
     refreshTokenExpiresAt := refresh.1.2; refreshAfter := refresh.2 |}.

(** The second insert may throw after the first was made: no transaction. *)
Definition mint_pair (principal device platform : string) (cookiePath : option string)
    (identity : option DeviceIdentityInput) (now : Z) (e : Entropy) (db : DB) : DB * option TokenPair :=
  match mintAccessToken principal device platform identity now e db with
  | None => (db, None)
  | Some (db, access) =>
      match mintRefreshToken principal device platform cookiePath identity now e db with
      | None => (db, None)
      | Some (db, refresh) => (db, Some (pair_of access refresh))
      end
  end.

Definition mintAndRecordDeviceBoundTokenPair (principal deviceId platform : string)
    (identity : option DeviceIdentityInput) (now : Z) (e : Entropy) (db : DB) : DB * option TokenPair :=
  if bool_decide (js_trim deviceId = EmptyString) then (db, None)
  else
    let hashedDeviceId := hashDeviceId deviceId in
    mint_pair principal hashedDeviceId platform None identity now e
      (revokeRefreshTokensByDevice principal hashedDeviceId now (revokeActorTokensByDevice principal hashedDeviceId now db)).

Definition mintAndRecordBrowserTokenPair (principal platform cookiePath : string)
    (identity : option DeviceIdentityInput) (now : Z) (e : Entropy) (db : DB) : DB * option TokenPair :=
  mint_pair principal (hashToken (bindingText e)) platform (Some cookiePath) identity now e db.

(** ** Rotation ([auth/guardian-refresh.ts]) *)

(** Whether a row was marked. *)
Definition markRotated (tokenHash : string) (now : Z) (db : DB) : DB * bool :=
  let p r := bool_decide (Refresh.tokenHash r = tokenHash) && Refresh.has Refresh.active r in
  (on_refresh (update_where p (Refresh.set_status Refresh.rotated (Some now) now)) db, existsb p (actorRefreshTokenRecords db)).

Definition revokeFamily (familyId : string) (now : Z) : DB → DB :=
  on_refresh (update_where (λ r, bool_decide (Refresh.familyId r = familyId))
    (λ r, Refresh.set_status Refresh.revoked (Refresh.lastUsedAt r) now r)).

Definition revokeActiveActorTokensByDevice (principal device : string) (now : Z) : DB → DB :=
  on_access (update_where (λ r, Access.of_device principal device r && Access.has Access.active r)
    (Access.set_status Access.revoked now)).

Definition revokeAllActorTokensByDevice (principal device : string) (now : Z) (db : DB) : DB :=
  clearDeviceActivityStamp principal device
    (on_access (update_where (λ r, Access.of_device principal device r && (Access.has Access.active r || Access.has Access.derived r))
                  (Access.set_status Access.revoked now)) db).

(** The identity was capped when it was first stored. *)
Definition rotateAccessToken (principal device platform : string) (identity : DeviceIdentityInput) (now : Z)
    (e : Entropy) (db : DB) : option (DB * (string * Z)) :=
  let token := actor_token principal now e in
  db ← insert_access (access_row principal device platform identity now e token) db;
  Some (db, (token, now + ACCESS_TOKEN_TTL_MS)).

Definition mintRefreshTokenInFamily (family principal device platform : string) (identity : DeviceIdentityInput)
    (absoluteExpiresAt : Z) (cookiePath : option string) (now : Z) (e : Entropy) (db : DB)
    : option (DB * (string * Z * Z)) :=
  db ← insert_refresh (refresh_row family principal device platform identity absoluteExpiresAt cookiePath now e) db;
  Some (db, (refreshText e, absoluteExpiresAt `min` (now + REFRESH_INACTIVITY_TTL_MS), now + refresh_after_delay)).

Record RotateResult := {
  rotatedFor : string;
  pair : TokenPair;
  cookiePath : option string;
}.

(** The body of the transaction; [None] where it throws and is rolled back. *)
Definition rotation (refreshTokenHash : string) (record : Refresh.Row) (now : Z) (e : Entropy) (db : DB)
    : option (DB * outcome RotateResult) :=
  let principal := Refresh.guardianPrincipalId record in
  let device := Refresh.hashedDeviceId record in
  match markRotated refreshTokenHash now db with
  | (db, false) => Some (db, failed refresh_reuse_detected)
  | (db, true) =>
      '(db, access) ← rotateAccessToken principal device (Refresh.platform record) (Refresh.identity record) now e
        (revokeActiveActorTokensByDevice principal device now db);
      '(db, refresh) ← mintRefreshTokenInFamily (Refresh.familyId record) principal device (Refresh.platform record)
        (Refresh.identity record) (Refresh.absoluteExpiresAt record) (Refresh.browserRefreshCookiePath record) now e db;
      Some (db, done {| rotatedFor := principal; pair := pair_of access refresh;
                        cookiePath := Refresh.browserRefreshCookiePath record |})
  end.

(** [integrity] is what [guardianIntegrityState] gives, [None] where it throws. *)
Definition rotateRefreshTokenRecord (refreshTokenHash : string) (record : Refresh.Row)
    (integrity : option GuardianIntegrityState) (now : Z) (e : Entropy) (db : DB) : DB * outcome RotateResult :=
  match Refresh.status record with
  | Refresh.rotated =>
      (revokeAllActorTokensByDevice (Refresh.guardianPrincipalId record) (Refresh.hashedDeviceId record) now
         (revokeFamily (Refresh.familyId record) now db), failed refresh_reuse_detected)
  | Refresh.revoked => (db, failed token_revoked)
  | Refresh.active =>
      if Refresh.absoluteExpiresAt record <? now then (db, failed refresh_expired)
      else if Refresh.inactivityExpiresAt record <? now then (db, failed refresh_expired)
      else
        match integrity with
        | Some missing_guardian => (db, failed guardian_repair_required)
        | _ =>
            match rotation refreshTokenHash record now e db with
            | Some (db, r) => (db, r)
            | None => (db, threw)
            end
        end
  end.

Definition rotateCredentials (token hashedDeviceId : string) (integrity : option GuardianIntegrityState) (now : Z)
    (e : Entropy) (db : DB) : DB * outcome RotateResult :=
  let refreshTokenHash := hashToken token in
  match findRefreshByHash refreshTokenHash db with
  | None => (db, failed refresh_invalid)
  | Some record =>
      if bool_decide (Refresh.hashedDeviceId record ≠ hashedDeviceId) then (db, failed device_binding_mismatch)
      else rotateRefreshTokenRecord refreshTokenHash record integrity now e db
  end.

Definition rotateBrowserCredentialsByRefreshToken (token : string) (integrity : option GuardianIntegrityState) (now : Z)
    (e : Entropy) (db : DB) : DB * outcome RotateResult :=
  let refreshTokenHash := hashToken token in
  match findRefreshByHash refreshTokenHash db with
  | None => (db, failed refresh_invalid)
  | Some record =>
      if negb (truthy (Refresh.browserRefreshCookiePath record)) then (db, failed refresh_invalid)
      else rotateRefreshTokenRecord refreshTokenHash record integrity now e db
  end.

(** ** Admission ([auth/actor-token-revocation.ts]) *)

Definition STAMP_DEBOUNCE_MS : Z := 5 * 60 * 1000.
Definition MAX_TRACKED_TOKENS : nat := 5000.

Record World := { db : DB; stampDebounce : StringDedupCache.StringDedupCache }.

Definition no_stamps : StringDedupCache.StringDedupCache :=
  StringDedupCache.newStringDedupCache STAMP_DEBOUNCE_MS MAX_TRACKED_TOKENS.

(** Whether the tables answer a read and a write, which may throw. *)
Record Health := { reads : bool; writes : bool }.

Definition actorTokenRecordHash (rawToken : string) : string := hashToken (canonicalizeTokenForHash decode rawToken).

Definition stamp_device (record : Access.Row) (now : Z) : DB → DB :=
  on_access (update_where
    (λ r, Access.of_device (Access.guardianPrincipalId record) (Access.hashedDeviceId record) r && Access.has Access.active r)
    (Access.set_lastUsedAt (Some now))).

Definition is_actor (claims : TokenClaims) : bool :=
  match parseSub (sub claims) with Some s => bool_decide (principalType s = actor) | None => false end.

Definition admitActorToken (rawToken : string) (claims : TokenClaims) (h : Health) (now : Z) (w : World)
    : World * bool :=
  if negb (is_actor claims) then (w, true)
  else
    let tokenHash := actorTokenRecordHash rawToken in
    if negb (reads h) then (w, true)
    else
      let record := findAccessByHash tokenHash (db w) in
      if bool_decide ((Access.status <$> record) = Some Access.revoked) then (w, false)
      else
        let '(cache, fresh) := StringDedupCache.has tokenHash now (stampDebounce w) in
        if fresh then ({| db := db w; stampDebounce := cache |}, true)
        else
          match record with
          | None => ({| db := db w; stampDebounce := StringDedupCache.mark tokenHash now cache |}, true)
          | Some record =>
              if negb (writes h) then ({| db := db w; stampDebounce := cache |}, true)
              else ({| db := stamp_device record now (db w);
                       stampDebounce := StringDedupCache.mark tokenHash now cache |}, true)
          end.

(** ** Devices ([http/routes/devices.ts]), behind the loopback guards *)

(** [None] for a bad request. *)
Definition handleRevokeDevice (principal : string) (body : option string) (now : Z) (db : DB) : DB * option string :=
  let hashedDeviceId := js_trim (body otherwise EmptyString) in
  if bool_decide (hashedDeviceId = EmptyString) then (db, None)
  else
    (revokeRefreshTokensByDevice principal hashedDeviceId now (revokeActorTokensByDevice principal hashedDeviceId now db),
     Some hashedDeviceId).

(** [max] of SQL: of the values that are there. *)
Definition max_stamp (a b : option Z) : option Z :=
  match a, b with
  | Some a, Some b => Some (a `max` b)
  | Some a, None => Some a
  | None, b => b
  end.

Definition last_used (principal device : string) (db : DB) : option Z :=
  foldr max_stamp None
    (Access.lastUsedAt <$> filter (λ r, Access.of_device principal device r = true) (actorTokenRecords db)).

Record Device := {
  d_hashedDeviceId : string; d_platform : string; d_identity : DeviceIdentityInput;
  d_issuedAt : Z; d_expiresAt : option Z; d_lastUsedAt : option Z;
}.

Definition handleListDevices (principal : string) (db : DB) : list Device :=
  (λ t, {| d_hashedDeviceId := Access.hashedDeviceId t; d_platform := Access.platform t;
           d_identity := Access.identity t; d_issuedAt := Access.issuedAt t; d_expiresAt := Access.expiresAt t;
           d_lastUsedAt := last_used principal (Access.hashedDeviceId t) db |}) <$>
  filter (λ r, Access.guardianPrincipalId r = principal ∧ Access.status r = Access.active) (actorTokenRecords db).

(** ** Derived tokens ([http/routes/auth-token.ts]) *)

Definition TOKEN_TTL_SECONDS : Z := 30 * 24 * 60 * 60.

(** [s.slice(n)] *)
Definition slice (n : nat) (s : string) : string := substring n (String.length s - n) s.

(** [/^https?:\/\/(localhost|127\.0\.0\.1)(:\d+)?$/] *)
Definition web_origin (origin : string) : bool :=
  let port s := match s with
                | EmptyString => true
                | String ":" d => bool_decide (d ≠ EmptyString) && all_chars is_digit d
                | _ => false
                end in
  let behind p s k := starts_with p s && k (slice (String.length p) s) in
  let host s := existsb (λ h, behind h s port) ["localhost"; "127.0.0.1"] in
  existsb (λ scheme, behind scheme origin host) ["http://"; "https://"].

Definition findSourceActorTokenRecord (sourceToken : string) (h : Health) (db : DB) : option Access.Row :=
  if reads h then findAccessByHash (actorTokenRecordHash sourceToken) db else None.

Definition derived_row (source : Access.Row) (token : string) (now : Z) (e : Entropy) : Access.Row :=
  Access.Mk (accessId e) (actorTokenRecordHash token) (Access.guardianPrincipalId source) (Access.hashedDeviceId source)
    (Access.platform source) (Access.identity source) Access.derived now (Some (now + TOKEN_TTL_SECONDS * 1000)) None now now.

Definition recordDerivedActorToken (source : option Access.Row) (token : string) (h : Health) (now : Z) (e : Entropy)
    (db : DB) : DB :=
  match source with
  | None => db
  | Some source => if writes h then insert_access (derived_row source token now e) db otherwise db else db
  end.

Inductive CreateResponse := Forbidden | Unauthorized | guardianRepairRequired | Failed | Token (token : string) (expiresAt : Z).

(** What [ensureVellumGuardianBinding] does. *)
Inductive Ensured := bound (principal : string) | mint_refused | broke.

Definition handleCreateToken (loopbackPeer : bool) (origin authHeader : option string)
    (integrity : option GuardianIntegrityState) (ensured : Ensured) (h : Health) (now : Z) (e : Entropy) (w : World)
    : World * CreateResponse :=
  if negb loopbackPeer then (w, Forbidden)
  else if negb (truthy origin && web_origin (origin otherwise EmptyString)) then (w, Forbidden)
  else
    let authHeader := authHeader otherwise EmptyString in
    if negb (starts_with "bearer " (string_map to_lower authHeader)) then (w, Unauthorized)
    else
        let bearerToken := slice 7 authHeader in
        match verifyToken hmac decode parse_claims bearerToken vellum_gateway false now with
        | inr _ => (w, Unauthorized)
        | inl claims =>
            if bool_decide (scope_profile claims ≠ actor_client_v1) then (w, Unauthorized)
            else
              match admitActorToken bearerToken claims h now w with
              | (w, false) => (w, Unauthorized)
              | (w, true) =>
                  let source := findSourceActorTokenRecord bearerToken h (db w) in
                  let mint principal :=
                    let token := mintToken hmac claims_text vellum_gateway ("actor:self:" +:+ principal) actor_client_v1
                                   CURRENT_POLICY_EPOCH TOKEN_TTL_SECONDS now (fresh_jti e) in
                    ({| db := recordDerivedActorToken source token h now e (db w); stampDebounce := stampDebounce w |},
                     Token token (now / 1000 + TOKEN_TTL_SECONDS)) in
                  if truthy (Access.guardianPrincipalId <$> source) then
                    match integrity with
                    | Some missing_guardian => (w, guardianRepairRequired)
                    | _ => mint ((Access.guardianPrincipalId <$> source) otherwise EmptyString)
                    end
                  else
                    match ensured with
                    | bound principal => mint principal
                    | mint_refused => (w, guardianRepairRequired)
                    | broke => (w, Failed)
                    end
              end
        end.

(** ** Runs *)

Inductive op :=
| Pair (principal deviceId platform : string) (identity : option DeviceIdentityInput) (now : Z) (e : Entropy)
| PairBrowser (principal platform cookiePath : string) (identity : option DeviceIdentityInput) (now : Z) (e : Entropy)
| Rotate (token hashedDeviceId : string) (integrity : option GuardianIntegrityState) (now : Z) (e : Entropy)
| RotateBrowser (token : string) (integrity : option GuardianIntegrityState) (now : Z) (e : Entropy)
| Revoke (principal : string) (body : option string) (now : Z)
| Admit (rawToken : string) (claims : TokenClaims) (h : Health) (now : Z)
| Create (loopbackPeer : bool) (origin authHeader : option string) (integrity : option GuardianIntegrityState)
    (ensured : Ensured) (h : Health) (now : Z) (e : Entropy).

Definition with_db (d : DB) (w : World) : World := {| db := d; stampDebounce := stampDebounce w |}.

Definition apply (w : World) (o : op) : World :=
  match o with
  | Pair p d pl i now e => with_db (mintAndRecordDeviceBoundTokenPair p d pl i now e (db w)).1 w
  | PairBrowser p pl c i now e => with_db (mintAndRecordBrowserTokenPair p pl c i now e (db w)).1 w
  | Rotate t d g now e => with_db (rotateCredentials t d g now e (db w)).1 w
  | RotateBrowser t g now e => with_db (rotateBrowserCredentialsByRefreshToken t g now e (db w)).1 w
  | Revoke p b now => with_db (handleRevokeDevice p b now (db w)).1 w
  | Admit t c h now => (admitActorToken t c h now w).1
  | Create l o a g en h now e => (handleCreateToken l o a g en h now e w).1
  end.

Definition run (os : list op) (w : World) : World := foldl apply w os.

Definition no_rows : DB := Tables [] [].
Definition fresh_world : World := {| db := no_rows; stampDebounce := no_stamps |}.
End credentials.

(** ** Tables that grow

    Rows are changed in place and added at the end, so a row is found where it
    was. *)
Section grown.
Context {A : Type} (R : relation A) `{!PreOrder R}.

Definition grown (l l' : list A) : Prop := ∃ l1 l2, l' = (l1 ++ l2)%list ∧ Forall2 R l l1.

Lemma rows_refl l : Forall2 R l l.
Proof. induction l; by constructor. Qed.

Lemma grown_refl l : grown l l.
Proof. exists l, []. rw app_nil_r. split; [done|apply rows_refl]. Qed.

Lemma grown_trans l1 l2 l3 : grown l1 l2 → grown l2 l3 → grown l1 l3.
Proof.
  intros (a & b & -> & H1) (c & d & -> & H2). apply Forall2_app_inv_l in H2 as (c1 & c2 & Hc1 & Hc2 & ->).
  exists c1, (c2 ++ d)%list. rw app_assoc. split; [done|]. 
  clear -H1 Hc1 PreOrder0. revert c1 Hc1. induction H1 as [|x y l l' Hxy _ IH]; intros c1 Hc1; inversion Hc1; subst.
  { constructor. }
  constructor; [by trans y|by apply IH].
Qed.

Lemma grown_update p f l : (∀ r, p r = true → R r (f r)) → grown l (update_where p f l).
Proof.
  intros Hf. exists (update_where p f l), []. rw app_nil_r. split; [done|]. unfold update_where.
  induction l as [|r l IH]; [constructor|]. constructor; [|done]. destruct (p r) eqn:Hp; [by apply Hf|reflexivity].
Qed.

Lemma grown_snoc r l : grown l (l ++ [r])%list.
Proof. exists l, [r]. split; [done|apply rows_refl]. Qed.

Lemma grown_find (P : A → Prop) `{∀ x, Decision (P x)} l l' r :
  (∀ x y, R x y → P x ↔ P y) → grown l l' → head (filter P l) = Some r →
  ∃ r', head (filter P l') = Some r' ∧ R r r'.
Proof.
  intros HP (l1 & l2 & -> & Hl). induction Hl as [|x y l l1 Hxy Hl IH]; [done|]. rw filter_cons.
  change ((y :: l1) ++ l2)%list with (y :: (l1 ++ l2))%list. rewrite filter_cons.
  destruct (decide (P x)) as [Hx|Hx], (decide (P y)) as [Hy|Hy]; rewrite (HP x y) // in Hx.
  intros [= <-]. by exists y.
Qed.

Lemma grown_in l l' r : grown l l' → r ∈ l → ∃ r', r' ∈ l' ∧ R r r'.
Proof.
  intros (l1 & l2 & -> & Hl) (i & Hi)%list_elem_of_lookup. destruct (Forall2_lookup_l _ _ _ _ _ Hl Hi) as (r' & Hr' & HR).
  exists r'. split; [|done]. apply elem_of_app. left. by eapply list_elem_of_lookup_2.
Qed.
End grown.

(** What never changes of a row. *)
Definition access_key (r : Access.Row) :=
  (Access.id r, Access.tokenHash r, Access.guardianPrincipalId r, Access.hashedDeviceId r, Access.platform r,
   Access.identity r, Access.issuedAt r, Access.expiresAt r, Access.createdAt r).

Definition refresh_key (r : Refresh.Row) :=
  (Refresh.id r, Refresh.tokenHash r, Refresh.familyId r, Refresh.guardianPrincipalId r, Refresh.hashedDeviceId r,
   Refresh.platform r, Refresh.identity r, Refresh.issuedAt r, Refresh.absoluteExpiresAt r,
   Refresh.inactivityExpiresAt r, Refresh.browserRefreshCookiePath r, Refresh.createdAt r).

(** The life of a row: a credential is used up or revoked, and never comes back. *)
Definition access_later (r r' : Access.Row) : Prop :=
  access_key r' = access_key r ∧ (Access.status r' = Access.status r ∨ Access.status r' = Access.revoked).

Definition status_later (s s' : Refresh.Status) : Prop :=
  s' = s ∨ s = Refresh.active ∧ s' = Refresh.rotated ∨ s' = Refresh.revoked.

Definition refresh_later (r r' : Refresh.Row) : Prop :=
  refresh_key r' = refresh_key r ∧ status_later (Refresh.status r) (Refresh.status r').

#[export] Instance access_later_preorder : PreOrder access_later.
Proof.
  split; [intros r; split; auto|]. intros r r' r'' [Hk Hs] [Hk' Hs']. split; [by trans (access_key r')|].
  destruct Hs' as [->| ->]; auto.
Qed.

#[export] Instance refresh_later_preorder : PreOrder refresh_later.
Proof.
  split; [intros r; split; [done|by left]|]. intros r r' r'' [Hk Hs] [Hk' Hs']. split; [by trans (refresh_key r')|].
  revert Hs Hs'. unfold status_later. generalize (Refresh.status r), (Refresh.status r'), (Refresh.status r'').
  intros s s' s'' Hs Hs'. naive_solver congruence.
Qed.

Definition db_later (d d' : DB) : Prop :=
  grown access_later (actorTokenRecords d) (actorTokenRecords d') ∧
  grown refresh_later (actorRefreshTokenRecords d) (actorRefreshTokenRecords d').

#[export] Instance db_later_preorder : PreOrder db_later.
Proof.
  split; [intros d; split; apply grown_refl; apply _|].
  intros d d' d'' [Ha Hr] [Ha' Hr']. split; eapply grown_trans; try done; apply _.
Qed.

Lemma head_update {A} (P : A → Prop) `{∀ x, Decision (P x)} p f (l : list A) r :
  (∀ x, P (f x) ↔ P x) → head (filter P l) = Some r →
  head (filter P (update_where p f l)) = Some (if p r then f r else r).
Proof.
  intros Hf. induction l as [|x l IH]; [done|]. cbn [update_where map]. rw !filter_cons.
  destruct (decide (P x)) as [Hx|Hx].
  - intros [= ->]. rw decide_True; [done|]. destruct (p r); [by apply Hf|done].
  - intros Hr. rw decide_False; [by apply IH|]. destruct (p x); [by rewrite Hf|done].
Qed.

Lemma head_found {A} (P : A → Prop) `{∀ x, Decision (P x)} (l : list A) r : head (filter P l) = Some r → r ∈ l ∧ P r.
Proof.
  destruct (filter P l) as [|x l'] eqn:Hl; [done|]. intros [= ->].
  assert (r ∈ filter P l) as [? ?]%list_elem_of_filter by (rewrite Hl; apply list_elem_of_here). done.
Qed.

(** ** One active row of a key *)
Section actives.
Context {A K : Type} (key : A → K) (act : A → Prop) `{∀ x, Decision (act x)}.

Definition actives (l : list A) : list K := key <$> filter act l.

Lemma elem_of_actives k l : k ∈ actives l ↔ ∃ r, r ∈ l ∧ act r ∧ key r = k.
Proof.
  unfold actives. rw list_elem_of_fmap. split.
  - intros (r & -> & [Ha Hr]%list_elem_of_filter). by exists r.
  - intros (r & Hr & Ha & <-). exists r. split; [done|]. by apply list_elem_of_filter.
Qed.

Lemma actives_update_in p f l k : (∀ r, p r = true → key (f r) = key r ∧ (act (f r) → act r)) →
  k ∈ actives (update_where p f l) → k ∈ actives l.
Proof.
  intros Hf (r' & (r1 & -> & Hr1)%list_elem_of_fmap & Ha & <-)%elem_of_actives. apply elem_of_actives. exists r1.
  split; [done|]. destruct (p r1) eqn:Hp; [|done]. destruct (Hf r1 Hp) as [-> Hact]. auto.
Qed.

Lemma actives_update p f l : (∀ r, p r = true → key (f r) = key r ∧ (act (f r) → act r)) →
  NoDup (actives l) → NoDup (actives (update_where p f l)).
Proof.
  intros Hf. induction l as [|r l IH]; [done|]. unfold actives in *. cbn [update_where map]. rw !filter_cons.
  set (r' := if p r then f r else r).
  assert (key r' = key r ∧ (act r' → act r)) as [Hk Ha] by (unfold r'; destruct (p r) eqn:Hp; auto).
  destruct (decide (act r')) as [Hr'|Hr'].
  - rw decide_True; [|by apply Ha]. rw !fmap_cons Hk. intros [Hn Hd]%NoDup_cons. apply NoDup_cons. split; [|by apply IH].
    intros Hin. by eapply Hn, actives_update_in.
  - intros Hd. apply IH. destruct (decide (act r)); [|done]. by apply NoDup_cons in Hd as [_ ?].
Qed.

Lemma actives_snoc r l : (act r → key r ∉ actives l) → NoDup (actives l) → NoDup (actives (l ++ [r])%list).
Proof.
  intros Hr Hd. unfold actives. rw filter_app filter_cons filter_nil. destruct (decide (act r)) as [Ha|Ha].
  - rw fmap_app. apply NoDup_app. split; [done|]. split; [|apply NoDup_singleton].
    intros k Hk [->|[]%not_elem_of_nil]%elem_of_cons. by apply (Hr Ha).
  - by rw app_nil_r.
Qed.

Lemma actives_inj l x y : NoDup (actives l) → x ∈ l → y ∈ l → act x → act y → key x = key y → x = y.
Proof.
  intros Hd Hx Hy Hax Hay Hk. assert (x ∈ filter act l) as (i & Hi)%list_elem_of_lookup by by apply list_elem_of_filter.
  assert (y ∈ filter act l) as (j & Hj)%list_elem_of_lookup by by apply list_elem_of_filter.
  assert (i = j) as ->; [|congruence]. eapply (NoDup_lookup _ i j (key x) Hd); rw list_lookup_fmap ?Hi ?Hj /= ?Hk //.
Qed.
End actives.

(** ** What the tables undergo

    Every route is a sequence of four kinds of writes, and every claim about the
    tables is an induction on them. *)

(** Where the text that identifies a device comes from. *)
Definition stored_identity (i : DeviceIdentityInput) (d : DB) : Prop :=
  (∃ j, i = capIdentity j) ∨
  (∃ r, r ∈ actorTokenRecords d ∧ Access.identity r = i) ∨
  (∃ r, r ∈ actorRefreshTokenRecords d ∧ Refresh.identity r = i).

Inductive write : relation DB :=
| update_access p f d : (∀ r, p r = true → access_later r (f r)) → write d (on_access (update_where p f) d)
| update_refresh p f d : (∀ r, p r = true → refresh_later r (f r)) → write d (on_refresh (update_where p f) d)
| add_access r d d' : stored_identity (Access.identity r) d → insert_access r d = Some d' → write d d'
| add_refresh r d d' : stored_identity (Refresh.identity r) d → insert_refresh r d = Some d' → write d d'.

Definition wrote : relation DB := rtc write.

#[export] Instance wrote_preorder : PreOrder wrote.
Proof. unfold wrote. apply _. Qed.

Lemma write_later d d' : write d d' → db_later d d'.
Proof.
  destruct 1 as [p f d Hf|p f d Hf|r d d' _ Hi|r d d' _ Hi].
  - split; [by apply grown_update; [apply _|]|apply grown_refl; apply _].
  - split; [apply grown_refl; apply _|by apply grown_update; [apply _|]].
  - unfold insert_access in Hi. destruct (existsb _ _); [done|]. injection Hi as <-.
    split; [apply grown_snoc; apply _|apply grown_refl; apply _].
  - unfold insert_refresh in Hi. destruct (existsb _ _); [done|]. injection Hi as <-.
    split; [apply grown_refl; apply _|apply grown_snoc; apply _].
Qed.

Lemma wrote_later d d' : wrote d d' → db_later d d'.
Proof. induction 1 as [|d d1 d' H _ IH]; [done|]. trans d1; [by apply write_later|done]. Qed.

Lemma wrote_clear p d' d : wrote d (clearDeviceActivityStamp p d' d).
Proof. apply rtc_once, update_access. intros r _. split; [done|by left]. Qed.

Lemma wrote_revoke_access p d' now d : wrote d (revokeActorTokensByDevice p d' now d).
Proof. etransitivity; [|apply wrote_clear]. apply rtc_once, update_access. intros r _. split; [done|by right]. Qed.

Lemma wrote_revoke_refresh p d' now d : wrote d (revokeRefreshTokensByDevice p d' now d).
Proof. apply rtc_once, update_refresh. intros r _. split; [done|]. by right; right. Qed.

Lemma wrote_revoke_family f now d : wrote d (revokeFamily f now d).
Proof. apply rtc_once, update_refresh. intros r _. split; [done|]. by right; right. Qed.

Lemma wrote_revoke_active p d' now d : wrote d (revokeActiveActorTokensByDevice p d' now d).
Proof. apply rtc_once, update_access. intros r _. split; [done|by right]. Qed.

Lemma wrote_mark h now d : wrote d (markRotated h now d).1.
Proof.
  apply rtc_once, update_refresh. intros r [_ Hs%bool_decide_eq_true]%andb_true_iff. split; [done|]. right; left. by split.
Qed.

Lemma wrote_stamp r now d : wrote d (stamp_device r now d).
Proof. apply rtc_once, update_access. intros r' _. split; [done|by left]. Qed.

Lemma wrote_add_access r d d' : stored_identity (Access.identity r) d → insert_access r d = Some d' → wrote d d'.
Proof. intros. by eapply rtc_once, add_access. Qed.

Lemma wrote_add_refresh r d d' : stored_identity (Refresh.identity r) d → insert_refresh r d = Some d' → wrote d d'.
Proof. intros. by eapply rtc_once, add_refresh. Qed.

Lemma row_stays r d d' : wrote d d' → r ∈ actorRefreshTokenRecords d →
  ∃ r', r' ∈ actorRefreshTokenRecords d' ∧ refresh_later r r'.
Proof. intros [_ Hr]%wrote_later. by apply grown_in. Qed.

(** *** The indices *)

Definition access_device (r : Access.Row) : string * string := (Access.guardianPrincipalId r, Access.hashedDeviceId r).
Definition refresh_device (r : Refresh.Row) : string * string := (Refresh.guardianPrincipalId r, Refresh.hashedDeviceId r).
Definition access_actives : list Access.Row → _ := actives access_device (λ r, Access.status r = Access.active).
Definition refresh_actives : list Refresh.Row → _ := actives refresh_device (λ r, Refresh.status r = Refresh.active).

(** At most one active row of a device in each table. *)
Definition unique (d : DB) : Prop :=
  NoDup (access_actives (actorTokenRecords d)) ∧ NoDup (refresh_actives (actorRefreshTokenRecords d)).

Lemma access_conflict_false r l : existsb (access_conflict r) l = false ↔
  Access.id r ∉ Access.id <$> l ∧ (Access.status r = Access.active → access_device r ∉ access_actives l).
Proof.
  rw -not_true_iff_false existsb_elem list_elem_of_fmap elem_of_actives. unfold access_conflict, Access.has, Access.of_device, access_device.
  setoid_rewrite orb_true_iff. setoid_rewrite andb_true_iff. setoid_rewrite andb_true_iff. setoid_rewrite bool_decide_eq_true.
  split.
  - intros Hc. split; [intros (x & ? & ?); eauto|]. intros Ha (x & Hx & Hs & [= ? ?]). apply Hc. exists x. auto 10.
  - intros [Hi Ha] (x & Hx & [He|[[Hs Hs'] [Hp Hd]]]); [by apply Hi; exists x|]. apply Ha; [done|]. exists x. by rewrite Hp Hd.
Qed.

Lemma refresh_conflict_false r l : existsb (refresh_conflict r) l = false ↔
  Refresh.id r ∉ Refresh.id <$> l ∧ (Refresh.status r = Refresh.active → refresh_device r ∉ refresh_actives l).
Proof.
  rw -not_true_iff_false existsb_elem list_elem_of_fmap elem_of_actives. unfold refresh_conflict, Refresh.has, Refresh.of_device, refresh_device.
  setoid_rewrite orb_true_iff. setoid_rewrite andb_true_iff. setoid_rewrite andb_true_iff. setoid_rewrite bool_decide_eq_true.
  split.
  - intros Hc. split; [intros (x & ? & ?); eauto|]. intros Ha (x & Hx & Hs & [= ? ?]). apply Hc. exists x. auto 10.
  - intros [Hi Ha] (x & Hx & [He|[[Hs Hs'] [Hp Hd]]]); [by apply Hi; exists x|]. apply Ha; [done|]. exists x. by rewrite Hp Hd.
Qed.

Lemma write_unique d d' : write d d' → unique d → unique d'.
Proof.
  destruct 1 as [p f d Hf|p f d Hf|r d d' _ Hi|r d d' _ Hi]; intros [Ha Hr].
  - split; [|done]. apply actives_update; [|done]. intros r Hp. destruct (Hf r Hp) as [Hk Hs]. split; [unfold access_device; by injection Hk as _ _ -> -> _|].
    destruct Hs as [-> | ->]; done.
  - split; [done|]. apply actives_update; [|done]. intros r Hp. destruct (Hf r Hp) as [Hk Hs]. split; [unfold refresh_device; by injection Hk as _ _ _ -> -> _|].
    destruct Hs as [-> | [[_ ->]| ->]]; done.
  - unfold insert_access in Hi. destruct (existsb _ _) eqn:Hc; [done|]. injection Hi as <-. split; [|done].
    apply actives_snoc; [|done]. by apply access_conflict_false in Hc as [_ ?].
  - unfold insert_refresh in Hi. destruct (existsb _ _) eqn:Hc; [done|]. injection Hi as <-. split; [done|].
    apply actives_snoc; [|done]. by apply refresh_conflict_false in Hc as [_ ?].
Qed.

Lemma wrote_unique d d' : wrote d d' → unique d → unique d'.
Proof. induction 1 as [|d d1 d' H _ IH]; [done|]. intros Hu. by apply IH, (write_unique d d1). Qed.

(** *** The text of a device *)

Definition capped (i : DeviceIdentityInput) : Prop := ∃ j, i = capIdentity j.

Definition all_capped (d : DB) : Prop :=
  (∀ r, r ∈ actorTokenRecords d → capped (Access.identity r)) ∧
  (∀ r, r ∈ actorRefreshTokenRecords d → capped (Refresh.identity r)).

Lemma stored_capped i d : all_capped d → stored_identity i d → capped i.
Proof. intros [Ha Hr] [?|[(r & ? & <-)|(r & ? & <-)]]; auto. Qed.

Lemma write_capped d d' : write d d' → all_capped d → all_capped d'.
Proof.
  destruct 1 as [p f d Hf|p f d Hf|r d d' Hs Hi|r d d' Hs Hi]; intros Hc; pose proof Hc as [Ha Hr].
  - split; [|done]. intros r' (r & -> & Hin)%list_elem_of_fmap. destruct (p r) eqn:Hp; [|by apply Ha].
    destruct (Hf r Hp) as [Hk _]. injection Hk as _ _ _ _ _ -> _ _ _. by apply Ha.
  - split; [done|]. intros r' (r & -> & Hin)%list_elem_of_fmap. destruct (p r) eqn:Hp; [|by apply Hr].
    destruct (Hf r Hp) as [Hk _]. injection Hk as _ _ _ _ _ _ -> _ _ _ _ _. by apply Hr.
  - unfold insert_access in Hi. destruct (existsb _ _); [done|]. injection Hi as <-. split; [|done].
    intros r' [Hr'|[->|[]%not_elem_of_nil]%elem_of_cons]%elem_of_app; [by apply Ha|by eapply stored_capped].
  - unfold insert_refresh in Hi. destruct (existsb _ _); [done|]. injection Hi as <-. split; [done|].
    intros r' [Hr'|[->|[]%not_elem_of_nil]%elem_of_cons]%elem_of_app; [by apply Hr|by eapply stored_capped].
Qed.

Lemma wrote_capped d d' : wrote d d' → all_capped d → all_capped d'.
Proof. induction 1 as [|d d1 d' H _ IH]; [done|]. intros Hu. by apply IH, (write_capped d d1). Qed.

Lemma found_access h d r : findAccessByHash h d = Some r → r ∈ actorTokenRecords d.
Proof. by intros [? _]%head_found. Qed.
Lemma found_refresh h d r : findRefreshByHash h d = Some r → r ∈ actorRefreshTokenRecords d.
Proof. by intros [? _]%head_found. Qed.

Lemma unseen_update h p f d : (∀ r, p r = true → Refresh.tokenHash (f r) = Refresh.tokenHash r) →
  findRefreshByHash h d = None → findRefreshByHash h (on_refresh (update_where p f) d) = None.
Proof.
  intros Hf. unfold findRefreshByHash. cbn. induction (actorRefreshTokenRecords d) as [|r l IH]; [done|].
  cbn [update_where map]. rw !filter_cons. destruct (decide (Refresh.tokenHash r = h)) as [|Hr]; [done|].
  intros Hl. rw decide_False; [by apply IH|]. destruct (p r) eqn:Hp; [by rewrite Hf|done].
Qed.

Lemma inserted_access h r d d' : insert_access r d = Some d' → findRefreshByHash h d' = findRefreshByHash h d.
Proof. unfold insert_access. destruct (existsb _ _); [done|]. by intros [= <-]. Qed.

Lemma inserted_refresh r d d' : insert_refresh r d = Some d' → findRefreshByHash (Refresh.tokenHash r) d = None →
  findRefreshByHash (Refresh.tokenHash r) d' = Some r.
Proof.
  unfold insert_refresh, findRefreshByHash. destruct (existsb _ _); [done|]. intros [= <-] Hn%head_None. cbn.
  rw filter_app Hn filter_cons. by rw decide_True.
Qed.

Section life.
Context (hashToken hmac decode : string → string).
Context (claims_text : TokenClaims → string) (parse_claims : string → option TokenClaims).
Context (externalAssistantId : string).
Local Abbreviation apply := (apply hashToken hmac decode claims_text parse_claims externalAssistantId).
Local Abbreviation run := (run hashToken hmac decode claims_text parse_claims externalAssistantId).

Lemma wrote_mint_pair p d' pl c i now e d : wrote d (mint_pair hashToken hmac claims_text externalAssistantId p d' pl c i now e d).1.
Proof.
  unfold mint_pair, mintAccessToken, mintRefreshToken. destruct (insert_access _ d) as [d1|] eqn:Ha; cbn; [|done].
  assert (wrote d d1) as H1 by (eapply wrote_add_access; [|exact Ha]; left; by eexists).
  destruct (insert_refresh _ d1) as [d2|] eqn:Hr; cbn; [|done]. trans d1; [done|].
  eapply wrote_add_refresh; [|exact Hr]. left. by eexists.
Qed.

Lemma rotation_after_mark h r now e d d' o : r ∈ actorRefreshTokenRecords d →
  rotation hashToken hmac claims_text externalAssistantId h r now e d = Some (d', o) → wrote (markRotated h now d).1 d'.
Proof.
  intros Hin. unfold rotation. pose proof (row_stays _ _ _ (wrote_mark h now d) Hin) as (r1 & Hin1 & Hk1 & _).
  destruct (markRotated h now d) as [d1 [|]]; [|by intros [= <- _]].
  unfold rotateAccessToken, mintRefreshTokenInFamily. cbn in Hin1 |- *.
  destruct (insert_access _ _) as [d2|] eqn:Ha; cbn; [|done].
  destruct (insert_refresh _ d2) as [d3|] eqn:Hr; cbn; [|done]. intros [= <- _].
  unfold refresh_key in Hk1. injection Hk1 as _ _ _ _ _ _ Hi _ _ _ _ _.
  etransitivity; [apply wrote_revoke_active|]. trans d2.
  - eapply wrote_add_access; [|exact Ha]. right; right. by exists r1.
  - assert (r1 ∈ actorRefreshTokenRecords d2) as Hin2.
    { unfold insert_access in Ha. destruct (existsb _ _); [done|]. by injection Ha as <-. }
    eapply wrote_add_refresh; [|exact Hr]. right; right. by exists r1.
Qed.

Lemma wrote_rotation h r now e d d' o : r ∈ actorRefreshTokenRecords d →
  rotation hashToken hmac claims_text externalAssistantId h r now e d = Some (d', o) → wrote d d'.
Proof. intros Hin Hr%rotation_after_mark; [|done..]. etransitivity; [apply wrote_mark|exact Hr]. Qed.

Lemma wrote_rotate h r g now e d : r ∈ actorRefreshTokenRecords d →
  wrote d (rotateRefreshTokenRecord hashToken hmac claims_text externalAssistantId h r g now e d).1.
Proof.
  intros Hin. unfold rotateRefreshTokenRecord.
  destruct (Refresh.status r); [|etransitivity; [apply wrote_revoke_family|apply wrote_revoke_access]|done].
  destruct (Refresh.absoluteExpiresAt r <? now); [done|]. destruct (Refresh.inactivityExpiresAt r <? now); [done|].
  destruct (rotation _ _ _ _ h r now e d) as [[d' o]|] eqn:Hr; [apply wrote_rotation in Hr; [|done]|]; by destruct g as [[]|].
Qed.

Lemma wrote_record src tok h now e d : (∀ r, src = Some r → stored_identity (Access.identity r) d) →
  wrote d (recordDerivedActorToken hashToken decode src tok h now e d).
Proof.
  intros Hs. unfold recordDerivedActorToken. destruct src as [src|]; [|done]. destruct (writes h); [|done].
  destruct (insert_access _ d) as [d'|] eqn:Hi; cbn; [|reflexivity]. eapply wrote_add_access; [|exact Hi]. by apply (Hs src).
Qed.

Lemma wrote_admit tok c h now w : wrote (db w) (db (admitActorToken hashToken decode tok c h now w).1).
Proof. unfold admitActorToken. repeat (case_match; cbn; try done). apply wrote_stamp. Qed.

Lemma source_stored tok h d r : findSourceActorTokenRecord hashToken decode tok h d = Some r →
  stored_identity (Access.identity r) d.
Proof.
  unfold findSourceActorTokenRecord. destruct (reads h); [|done]. intros Hf%found_access. right; left. by exists r.
Qed.

(** Every route writes only that way. *)
Lemma wrote_apply w o : wrote (db w) (db (apply w o)).
Proof.
  destruct o; cbn.
  - unfold mintAndRecordDeviceBoundTokenPair. case_bool_decide; [done|].
    etransitivity; [apply wrote_revoke_access|]. etransitivity; [apply wrote_revoke_refresh|apply wrote_mint_pair].
  - apply wrote_mint_pair.
  - unfold rotateCredentials. cbn zeta. destruct (findRefreshByHash _ _) as [r|] eqn:Hf; [|done].
    case_bool_decide; [done|]. by apply wrote_rotate, (found_refresh _ _ _ Hf).
  - unfold rotateBrowserCredentialsByRefreshToken. cbn zeta. destruct (findRefreshByHash _ _) as [r|] eqn:Hf; [|done].
    destruct (negb _); [done|]. by apply wrote_rotate, (found_refresh _ _ _ Hf).
  - unfold handleRevokeDevice. case_bool_decide; cbn; [done|].
    etransitivity; [apply wrote_revoke_access|apply wrote_revoke_refresh].
  - apply wrote_admit.
  - unfold handleCreateToken. destruct loopbackPeer; [|done]. cbn [negb].
    destruct (negb _); [done|]. destruct (negb _); [done|]. destruct (verifyToken _ _ _ _ _ _ _) as [c|]; [|done].
    destruct (bool_decide _); [done|].
    pose proof (wrote_admit (slice 7 (authHeader otherwise "")) c h now w) as Ha.
    destruct (admitActorToken _ _ _ _ _ _ _) as [w' []]; [|done]. cbn in Ha. cbn zeta.
    destruct (findSourceActorTokenRecord _ _ _ _ _) as [r|] eqn:Hs.
    + assert (∀ tok, wrote (db w) (recordDerivedActorToken hashToken decode (Some r) tok h now e (db w'))) as Hw.
      { intros tok. etransitivity; [exact Ha|]. apply wrote_record. intros r' [= <-]. by eapply source_stored. }
      destruct (truthy _); [destruct integrity as [[]|]|destruct ensured]; cbn; try done; apply Hw.
    + destruct (truthy _); [destruct integrity as [[]|]|destruct ensured]; done.
Qed.

Lemma wrote_run os w : wrote (db w) (db (run os w)).
Proof.
  revert w. induction os as [|o os IH]; intros w; [done|]. trans (db (apply w o)); [apply wrote_apply|apply IH].
Qed.

Lemma later_run os w : db_later (db w) (db (run os w)).
Proof. apply wrote_later, wrote_run. Qed.

(** ** Used and revoked credentials *)

Local Abbreviation rotateCredentials := (rotateCredentials hashToken hmac claims_text externalAssistantId).
Local Abbreviation rotateBrowser := (rotateBrowserCredentialsByRefreshToken hashToken hmac claims_text externalAssistantId).
Local Abbreviation rotateRecord := (rotateRefreshTokenRecord hashToken hmac claims_text externalAssistantId).
Local Abbreviation admitting := (admitActorToken hashToken decode).
Local Abbreviation accessOf := (λ tok, findAccessByHash (actorTokenRecordHash hashToken decode tok)).

Lemma find_refresh_later h d d' r : db_later d d' → findRefreshByHash h d = Some r →
  ∃ r', findRefreshByHash h d' = Some r' ∧ refresh_later r r'.
Proof.
  intros [_ Hr]. apply (grown_find refresh_later); [|done].
  intros x y [Hk _]. unfold refresh_key in Hk. by injection Hk as _ -> _ _ _ _ _ _ _ _ _ _.
Qed.

Lemma find_access_later h d d' r : db_later d d' → findAccessByHash h d = Some r →
  ∃ r', findAccessByHash h d' = Some r' ∧ access_later r r'.
Proof.
  intros [Ha _]. apply (grown_find access_later); [|done].
  intros x y [Hk _]. unfold access_key in Hk. by injection Hk as _ -> _ _ _ _ _ _ _.
Qed.

(** A refresh token that has a row, and not an active one. *)
Definition spent (token : string) (d : DB) : Prop :=
  ∃ r, findRefreshByHash (hashToken token) d = Some r ∧ Refresh.status r ≠ Refresh.active.

Lemma spent_later token d d' : db_later d d' → spent token d → spent token d'.
Proof.
  intros Hl (r & Hf & Hs). destruct (find_refresh_later _ _ _ _ Hl Hf) as (r' & Hf' & _ & Hst). exists r'.
  split; [done|]. destruct Hst as [->|[[? ?]| ->]]; done.
Qed.

(** Neither route exchanges it. *)
Definition refused (token : string) (d : DB) : Prop := ∀ device g now e,
  (∃ err, (rotateCredentials token device g now e d).2 = failed err) ∧
  (∃ err, (rotateBrowser token g now e d).2 = failed err).

Lemma spent_refused token d : spent token d → refused token d.
Proof.
  intros (r & Hf & Hs) device g now e. unfold DeviceTokens.rotateCredentials, rotateBrowserCredentialsByRefreshToken.
  cbn zeta. rw Hf. unfold rotateRefreshTokenRecord.
  split; [case_bool_decide|destruct (negb _)]; destruct (Refresh.status r); try done; by eexists.
Qed.

Lemma rotated_result h r g now e d d' res : rotateRecord h r g now e d = (d', done res) →
  Refresh.status r = Refresh.active ∧ now ≤ Refresh.absoluteExpiresAt r ∧ now ≤ Refresh.inactivityExpiresAt r ∧
  rotation hashToken hmac claims_text externalAssistantId h r now e d = Some (d', done res).
Proof.
  unfold rotateRefreshTokenRecord. destruct (Refresh.status r); [|done..].
  destruct (Refresh.absoluteExpiresAt r <? now) eqn:Ha; [done|]. destruct (Refresh.inactivityExpiresAt r <? now) eqn:Hi; [done|].
  destruct (rotation _ _ _ _ _ _ _ _ _) as [[d1 o]|]; [|by destruct g as [[]|]].
  destruct g as [[]|]; intros [= <- Ho]; try done; rewrite Ho; split_and!; try done; lia.
Qed.

Lemma rotation_expiry h r now e d d' res :
  rotation hashToken hmac claims_text externalAssistantId h r now e d = Some (d', done res) →
  refreshTokenExpiresAt (pair res) = Refresh.absoluteExpiresAt r `min` (now + REFRESH_INACTIVITY_TTL_MS).
Proof.
  unfold rotation. destruct (markRotated h now d) as [d1 [|]]; [|done].
  unfold rotateAccessToken, mintRefreshTokenInFamily. cbn zeta. destruct (insert_access _ _) as [d2|]; cbn; [|done].
  destruct (insert_refresh _ d2) as [d3|]; cbn; [|done]. by intros [= _ <-].
Qed.

Lemma rotation_for h r now e d d' res :
  rotation hashToken hmac claims_text externalAssistantId h r now e d = Some (d', done res) →
  rotatedFor res = Refresh.guardianPrincipalId r.
Proof.
  unfold rotation. destruct (markRotated h now d) as [d1 [|]]; [|done].
  unfold rotateAccessToken, mintRefreshTokenInFamily. cbn zeta. destruct (insert_access _ _) as [d2|]; cbn; [|done].
  destruct (insert_refresh _ d2) as [d3|]; cbn; [|done]. by intros [= _ <-].
Qed.

Lemma rotation_spends token r g now e d d' res : findRefreshByHash (hashToken token) d = Some r →
  rotateRecord (hashToken token) r g now e d = (d', done res) → spent token d'.
Proof.
  intros Hf (Hs & Hn & _ & Hr)%rotated_result.
  eapply spent_later; [eapply wrote_later, rotation_after_mark, Hr; by eapply found_refresh|].
  pose proof (head_found _ _ _ Hf) as [_ Hh].
  eexists. split; [by apply head_update|]. unfold Refresh.has. by rewrite Hs !bool_decide_true.
Qed.

(** C27 — A refresh token works once: after it was exchanged, neither route
    exchanges it again, from any device, at any time and whatever happened in
    between. *)
Theorem refresh_tokens_work_once w token device g now e d' res os :
  rotateCredentials token device g now e (db w) = (d', done res) ∨
  rotateBrowser token g now e (db w) = (d', done res) →
  refused token (db (run os (with_db d' w))).
Proof.
  intros Hr. apply spent_refused. eapply spent_later; [apply later_run|]. cbn [db with_db].
  destruct (findRefreshByHash (hashToken token) (db w)) as [r|] eqn:Hf.
  - destruct Hr as [Hr|Hr]; unfold DeviceTokens.rotateCredentials, rotateBrowserCredentialsByRefreshToken in Hr;
      cbn zeta in Hr; rewrite Hf in Hr.
    + case_bool_decide; [done|]. by eapply rotation_spends.
    + destruct (negb _); [done|]. by eapply rotation_spends.
  - exfalso. destruct Hr as [Hr|Hr]; unfold DeviceTokens.rotateCredentials, rotateBrowserCredentialsByRefreshToken in Hr;
      cbn zeta in Hr; by rewrite Hf in Hr.
Qed.

(** An access token whose row is revoked is not let in, and nothing is written. *)
Definition shut_out (tok : string) (w : World) : Prop := ∀ claims h now,
  is_actor claims = true → reads h = true → admitting tok claims h now w = (w, false).

Lemma revoked_shut_out tok w a : accessOf tok (db w) = Some a → Access.status a = Access.revoked → shut_out tok w.
Proof. intros Hf Hs claims h now Hc Hr. unfold admitActorToken. rw Hc Hr Hf /= Hs. done. Qed.

Lemma revoked_later tok d w a : accessOf tok d = Some a → Access.status a = Access.revoked → db_later d (db w) →
  shut_out tok w.
Proof.
  intros Hf Hs Hl. destruct (find_access_later _ _ _ _ Hl Hf) as (a' & Hf' & _ & Hst).
  eapply revoked_shut_out; [done|]. destruct Hst; congruence.
Qed.

(** Every credential of a device, of an instant, is worthless at a later one. *)
Definition cut_off (principal device : string) (before : DB) (w : World) : Prop :=
  (∀ tok a, accessOf tok before = Some a → Access.of_device principal device a = true → shut_out tok w) ∧
  (∀ token r, findRefreshByHash (hashToken token) before = Some r → Refresh.of_device principal device r = true →
     refused token (db w)).

Lemma device_access_revoked tok p device now d a : accessOf tok d = Some a → Access.of_device p device a = true →
  ∃ a', accessOf tok (revokeActorTokensByDevice p device now d) = Some a' ∧ Access.status a' = Access.revoked.
Proof.
  intros Hf Hd. eexists. split.
  { apply head_update; [done|]. by apply head_update. }
  unfold Access.has. rewrite Hd. destruct (Access.status a) eqn:Hs; cbn; by destruct (Access.of_device _ _ _).
Qed.

Lemma device_refresh_spent token p device now d r : findRefreshByHash (hashToken token) d = Some r →
  Refresh.of_device p device r = true → spent token (revokeRefreshTokensByDevice p device now d).
Proof.
  intros Hf Hd. eexists. split; [by apply head_update|]. unfold Refresh.has. rewrite Hd.
  case_bool_decide as Hs; [done|]. exact Hs.
Qed.

(** C10 — Unpairing is final: every access token recorded for the device (the
    derived ones too) is turned away while the tables answer, and every refresh
    token is refused, whatever happens afterwards (pairing the device again
    included). *)
Theorem unpairing_is_final w principal body now device os d' :
  handleRevokeDevice principal body now (db w) = (d', Some device) →
  cut_off principal device (db w) (run os (with_db d' w)).
Proof.
  unfold handleRevokeDevice. case_bool_decide; [done|]. intros [= <- <-]. set (device := js_trim _).
  set (d1 := revokeActorTokensByDevice _ _ _ _). set (w1 := with_db _ w).
  pose proof (later_run os w1) as Hl. split.
  - intros tok a Hf Hd. destruct (device_access_revoked tok principal device now _ a Hf Hd) as (a' & Hf' & Hs).
    eapply revoked_later; [exact Hf'|done|]. etransitivity; [apply wrote_later, wrote_revoke_refresh|exact Hl].
  - intros token r Hf Hd. apply spent_refused. eapply spent_later; [exact Hl|].
    destruct (find_refresh_later _ _ d1 _ (wrote_later _ _ (wrote_revoke_access _ _ _ _)) Hf) as (r' & Hf' & Hk & _).
    eapply device_refresh_spent; [exact Hf'|]. revert Hd. unfold Refresh.of_device.
    unfold refresh_key in Hk. by injection Hk as _ _ _ -> -> _ _ _ _ _ _ _.
Qed.

(** C11 — Presenting a refresh token that was exchanged before is taken for theft.
    Let it be presented while its row is still marked as rotated, with the
    binding of its own device, or by the browser route with a token of that
    route: it is refused as reuse, and from then on, whatever happens, every
    refresh token that its family had is refused by both routes, and every access
    token that was recorded for its device is turned away by each check that the
    tables answer (a check that cannot read them lets everyone in). *)
Theorem reuse_ends_the_family w token device g now e r d' o os :
  findRefreshByHash (hashToken token) (db w) = Some r → Refresh.status r = Refresh.rotated →
  device = Refresh.hashedDeviceId r ∧ rotateCredentials token device g now e (db w) = (d', o) ∨
  truthy (Refresh.browserRefreshCookiePath r) = true ∧ rotateBrowser token g now e (db w) = (d', o) →
  o = failed refresh_reuse_detected ∧
  (let w' := run os (with_db d' w) in
   (∀ tok a, accessOf tok (db w) = Some a →
      Access.of_device (Refresh.guardianPrincipalId r) (Refresh.hashedDeviceId r) a = true → shut_out tok w') ∧
   (∀ token' r', findRefreshByHash (hashToken token') (db w) = Some r' → Refresh.familyId r' = Refresh.familyId r →
      refused token' (db w'))).
Proof.
  intros Hf Hs Hr. assert (rotateRecord (hashToken token) r g now e (db w) = (d', o)) as Hr'.
  { destruct Hr as [[-> Hr]|[Hp Hr]]; revert Hr; unfold DeviceTokens.rotateCredentials, rotateBrowserCredentialsByRefreshToken;
      cbn zeta; rw Hf; [by rw bool_decide_false; [|by intros []]|by rw Hp]. }
  clear Hr. unfold rotateRefreshTokenRecord in Hr'. rw Hs in Hr'. injection Hr' as <- <-. split; [done|].
  set (d1 := revokeFamily _ _ _). set (w1 := with_db _ w). pose proof (later_run os w1) as Hl. split.
  - intros tok a Ha Hd. assert (accessOf tok d1 = Some a) as Ha1 by exact Ha.
    destruct (device_access_revoked tok _ _ now _ a Ha1 Hd) as (a' & Hf' & Hst). by eapply revoked_later.
  - intros token' r' Hf' Hfam. apply spent_refused. eapply spent_later; [exact Hl|].
    eapply spent_later; [apply wrote_later, wrote_revoke_access|]. eexists. split; [by apply head_update|].
    by rewrite bool_decide_true.
Qed.

(** ** Tables that are reached *)

Lemma run_unique os : unique (db (run os fresh_world)).
Proof. eapply wrote_unique; [apply wrote_run|]. split; apply NoDup_nil_2. Qed.

(** The ids that are drawn are new. *)
Definition new_ids (e : Entropy) (d : DB) : Prop :=
  accessId e ∉ Access.id <$> actorTokenRecords d ∧ refreshId e ∉ Refresh.id <$> actorRefreshTokenRecords d.

Lemma update_ids {A} (id : A → string) p f (l : list A) : (∀ r, id (f r) = id r) → id <$> update_where p f l = id <$> l.
Proof. intros Hf. induction l as [|r l IH]; [done|]. cbn. rw IH. destruct (p r); [by rewrite Hf|done]. Qed.

Lemma access_freed l c p dv f : (∀ r, Access.status (f r) = Access.revoked) →
  (∀ r, Access.status r = Access.active → access_device r = (p, dv) → c r = true) →
  (p, dv) ∉ access_actives (update_where c f l).
Proof.
  intros Hf Hc (r' & (r & -> & _)%list_elem_of_fmap & Hs & Hk)%elem_of_actives. revert Hs Hk.
  destruct (c r) eqn:Hcr; [by rewrite Hf|]. intros Hs Hk. by rewrite Hc in Hcr.
Qed.

Lemma device_access_freed p dv now d :
  (p, dv) ∉ access_actives (actorTokenRecords (revokeActorTokensByDevice p dv now d)).
Proof.
  intros Hin%(actives_update_in _ _ _ _ _ _); [|done]. revert Hin. apply access_freed; [done|].
  intros r Hs [= Hp Hd]. unfold Access.of_device, Access.has.
  by rewrite Hs Hp Hd (bool_decide_true (p = p)) // (bool_decide_true (dv = dv)).
Qed.

Lemma device_refresh_freed p dv now d :
  (p, dv) ∉ refresh_actives (actorRefreshTokenRecords (revokeRefreshTokensByDevice p dv now d)).
Proof.
  intros (r' & (r & -> & _)%list_elem_of_fmap & Hs & Hk)%elem_of_actives. revert Hs Hk.
  destruct (_ && _) eqn:Hc; [done|]. intros Hs [= Hp Hd]. revert Hc. unfold Refresh.of_device, Refresh.has.
  by rewrite Hs Hp Hd !bool_decide_true.
Qed.

(** The one active refresh token of a device is the one that is exchanged. *)
Lemma rotated_freed h r now d : unique d → r ∈ actorRefreshTokenRecords d → Refresh.status r = Refresh.active →
  Refresh.tokenHash r = h → refresh_device r ∉ refresh_actives (actorRefreshTokenRecords (markRotated h now d).1).
Proof.
  intros [_ Hu] Hr Hs Hh (r' & (r1 & -> & Hr1)%list_elem_of_fmap & Hs' & Hk)%elem_of_actives. revert Hs' Hk.
  destruct (_ && _) eqn:Hc; [done|]. intros Hs' Hk.
  assert (r1 = r) as -> by (by eapply (actives_inj refresh_device (λ r, Refresh.status r = Refresh.active))).
  revert Hc. unfold Refresh.has. by rewrite Hs Hh !bool_decide_true.
Qed.

Lemma insert_access_ok r d : Access.id r ∉ Access.id <$> actorTokenRecords d →
  access_device r ∉ access_actives (actorTokenRecords d) → insert_access r d = Some (on_access (λ l, (l ++ [r])%list) d).
Proof.
  intros Hi Ha. unfold insert_access. by rewrite (proj2 (access_conflict_false r (actorTokenRecords d))).
Qed.

Lemma insert_refresh_ok r d : Refresh.id r ∉ Refresh.id <$> actorRefreshTokenRecords d →
  refresh_device r ∉ refresh_actives (actorRefreshTokenRecords d) →
  insert_refresh r d = Some (on_refresh (λ l, (l ++ [r])%list) d).
Proof.
  intros Hi Ha. unfold insert_refresh. by rewrite (proj2 (refresh_conflict_false r (actorRefreshTokenRecords d))).
Qed.

Lemma rotation_succeeds h r now e d : unique d → new_ids e d → findRefreshByHash h d = Some r →
  Refresh.status r = Refresh.active →
  ∃ d' res, rotation hashToken hmac claims_text externalAssistantId h r now e d = Some (d', done res).
Proof.
  intros Hu [Hia Hir] Hf Hs. pose proof (found_refresh _ _ _ Hf) as Hin. pose proof (head_found _ _ _ Hf) as [_ Hh].
  pose proof (rotated_freed h r now d Hu Hin Hs Hh) as Hfree. unfold rotation, markRotated in *. cbn [fst] in Hfree.
  rw (proj2 (existsb_elem _ _)); [|exists r; split; [done|]; unfold Refresh.has; by rewrite Hs Hh !bool_decide_true].
  unfold rotateAccessToken, mintRefreshTokenInFamily. cbn zeta.
  rewrite insert_access_ok.
  2: { cbn. by rewrite update_ids. }
  2: { apply access_freed; [done|]. intros r' Hs' [= Hp Hd]. unfold Access.of_device, Access.has.
       by rewrite Hs' Hp Hd !bool_decide_true. }
  cbn [mbind option_bind]. rewrite insert_refresh_ok.
  2: { cbn. by rewrite update_ids. }
  2: { exact Hfree. }
  cbn [mbind option_bind]. by eexists _, _.
Qed.

(** The unique indices never fire: with new row ids, pairing a device always
    gives credentials, and a rotation never throws. *)
Theorem constraints_never_fire os principal deviceId platform identity token device g now e :
  let d := db (run os fresh_world) in
  new_ids e d → js_trim deviceId ≠ EmptyString →
  (∃ p, (mintAndRecordDeviceBoundTokenPair hashToken hmac claims_text externalAssistantId
           principal deviceId platform identity now e d).2 = Some p) ∧
  (rotateCredentials token device g now e d).2 ≠ threw ∧
  (rotateBrowser token g now e d).2 ≠ threw.
Proof.
  cbn zeta. set (d := db _). assert (unique d) as Hu by apply run_unique. intros Hids Hdev.
  assert (∀ h r, findRefreshByHash h d = Some r → (rotateRecord h r g now e d).2 ≠ threw) as Hrot.
  { intros h r Hf. unfold rotateRefreshTokenRecord. destruct (Refresh.status r) eqn:Hs; [|done..].
    destruct (_ <? now); [done|]. destruct (_ <? now); [done|].
    destruct (rotation_succeeds h r now e d) as (d' & res & ->); try done. by destruct g as [[]|]. }
  split_and!.
  - destruct Hids as [Hia Hir]. unfold mintAndRecordDeviceBoundTokenPair. rw bool_decide_false //.
    set (dv := hashDeviceId _ _). unfold mint_pair, mintAccessToken, mintRefreshToken. cbn zeta.
    rewrite insert_access_ok.
    2: { cbn. by rewrite !update_ids. }
    2: { apply device_access_freed. }
    cbn [mbind option_bind]. rewrite insert_refresh_ok.
    2: { cbn. by rewrite update_ids. }
    2: { apply (device_refresh_freed principal dv). }
    by eexists.
  - unfold DeviceTokens.rotateCredentials. cbn zeta. destruct (findRefreshByHash _ _) as [r|] eqn:Hf; [|done].
    case_bool_decide; [done|]. by apply Hrot.
  - unfold rotateBrowserCredentialsByRefreshToken. cbn zeta. destruct (findRefreshByHash _ _) as [r|] eqn:Hf; [|done].
    destruct (negb _); [done|]. by apply Hrot.
Qed.

(** What a pairing gives works: for ninety days, and unless the guardian is
    known to be missing, the device exchanges its refresh token for new
    credentials of the same principal (the index never fires, the row is found,
    the binding matches). *)
Theorem pairing_can_be_refreshed principal deviceId platform identity now e d d' p g now' e' :
  unique d → findRefreshByHash (hashToken (refreshText e)) d = None →
  mintAndRecordDeviceBoundTokenPair hashToken hmac claims_text externalAssistantId
    principal deviceId platform identity now e d = (d', Some p) →
  now' ≤ now + REFRESH_INACTIVITY_TTL_MS → g ≠ Some missing_guardian → new_ids e' d' →
  ∃ d'' res, rotateCredentials (refreshToken p) (hashDeviceId hashToken deviceId) g now' e' d' = (d'', done res) ∧
    rotatedFor res = principal.
Proof.
  intros Hu Hnone Hm Hnow Hg Hids.
  assert (unique d') as Hu'.
  { eapply wrote_unique; [|exact Hu]. replace d' with (d', Some p).1 by done. rewrite <- Hm.
    exact (wrote_apply {| db := d; stampDebounce := no_stamps |} (Pair principal deviceId platform identity now e)). }
  revert Hm. unfold mintAndRecordDeviceBoundTokenPair. case_bool_decide; [done|].
  set (dv := hashDeviceId _ _). set (d1 := revokeRefreshTokensByDevice _ _ _ _).
  assert (findRefreshByHash (hashToken (refreshText e)) d1 = None) as Hnone1 by by apply unseen_update.
  unfold mint_pair, mintAccessToken, mintRefreshToken. cbn zeta.
  destruct (insert_access _ d1) as [d2|] eqn:Ha; cbn [mbind option_bind]; [|done].
  destruct (insert_refresh _ d2) as [d3|] eqn:Hr; cbn [mbind option_bind]; [|done]. intros [= <- <-].
  set (r := refresh_row _ _ _ _ _ _ _ _ _ _) in Hr.
  assert (findRefreshByHash (hashToken (refreshText e)) d3 = Some r) as Hf.
  { apply (inserted_refresh _ _ _ Hr). by rw (inserted_access _ _ _ _ Ha). }
  destruct (rotation_succeeds _ r now' e' d3 Hu' Hids Hf eq_refl) as (d4 & res & Hrot). exists d4, res.
  unfold DeviceTokens.rotateCredentials. cbn [refreshToken pair_of fst]. cbn zeta. rw Hf bool_decide_false; [|by intros []].
  unfold rotateRefreshTokenRecord. cbn [Refresh.status r refresh_row Refresh.absoluteExpiresAt Refresh.inactivityExpiresAt].
  rw (_ : (now + REFRESH_ABSOLUTE_TTL_MS <? now') = false); [|unfold REFRESH_ABSOLUTE_TTL_MS, REFRESH_INACTIVITY_TTL_MS in *; lia].
  rw (_ : (now + REFRESH_INACTIVITY_TTL_MS <? now') = false); [|lia]. fold r. rw Hrot.
  split; [by destruct g as [[]|]|]. apply (rotation_for _ _ _ _ _ _ _ Hrot).
Qed.

(** The paired devices are listed once each, as the handler relies on. *)
Theorem devices_are_listed_once os principal :
  NoDup (d_hashedDeviceId <$> handleListDevices principal (db (run os fresh_world))).
Proof.
  pose proof (run_unique os) as [Hu _]. revert Hu. unfold handleListDevices, access_actives, actives.
  generalize (last_used principal). intros last. induction (actorTokenRecords _) as [|r l IH]; [constructor|].
  rw !filter_cons. intros Hu. destruct (decide (Access.status r = Access.active)) as [Hs|Hs].
  - apply NoDup_cons in Hu as [Hn Hu]. case_decide as Hp; [|by apply IH]. rw !fmap_cons. apply NoDup_cons.
    split; [|by apply IH]. rw -list_fmap_compose. intros (r' & Hk & [[Hp' Hs'] Hr']%list_elem_of_filter)%list_elem_of_fmap.
    apply Hn, list_elem_of_fmap. exists r'. split; [|by apply list_elem_of_filter].
    unfold access_device. destruct Hp as [Hp _]. cbn in Hk. congruence.
  - rw decide_False; [|by intros [_ ?]]. by apply IH.
Qed.

(** The refresh text that an operation draws is new. *)
Definition unseen (e : Entropy) (w : World) : Prop := findRefreshByHash (hashToken (refreshText e)) (db w) = None.

(** The refresh token that a pairing at [t0] gave, or one it was exchanged for, on
    either route and again and again, whatever else happened before, in between
    and since. *)
Inductive heir (t0 : Z) : string → World → Prop :=
| heir_paired principal deviceId platform identity e w d p :
    unseen e w →
    mintAndRecordDeviceBoundTokenPair hashToken hmac claims_text externalAssistantId
      principal deviceId platform identity t0 e (db w) = (d, Some p) →
    heir t0 (refreshToken p) (with_db d w)
| heir_browser principal platform path identity e w d p :
    unseen e w →
    mintAndRecordBrowserTokenPair hashToken hmac claims_text externalAssistantId
      principal platform path identity t0 e (db w) = (d, Some p) →
    heir t0 (refreshToken p) (with_db d w)
| heir_rotated token device g now e w d res :
    heir t0 token w → unseen e w →
    rotateCredentials token device g now e (db w) = (d, done res) ∨ rotateBrowser token g now e (db w) = (d, done res) →
    heir t0 (refreshToken (pair res)) (with_db d w)
| heir_meanwhile token os w : heir t0 token w → heir t0 token (run os w).

Lemma minted_absolute principal device platform path identity now e d d' p :
  findRefreshByHash (hashToken (refreshText e)) d = None →
  mint_pair hashToken hmac claims_text externalAssistantId principal device platform path identity now e d = (d', Some p) →
  ∃ r, findRefreshByHash (hashToken (refreshToken p)) d' = Some r ∧ Refresh.absoluteExpiresAt r = now + REFRESH_ABSOLUTE_TTL_MS.
Proof.
  intros Hn. unfold mint_pair, mintAccessToken, mintRefreshToken. cbn zeta.
  destruct (insert_access _ d) as [d2|] eqn:Ha; cbn [mbind option_bind]; [|done].
  destruct (insert_refresh _ d2) as [d3|] eqn:Hr; cbn [mbind option_bind]; [|done]. intros [= <- <-].
  eexists. split; [apply (inserted_refresh _ _ _ Hr); by rw (inserted_access _ _ _ _ Ha)|done].
Qed.

(** A rotation that succeeds leaves a row with the bound of the one it used up. *)
Lemma rotation_absolute h r now e d d' res :
  findRefreshByHash (hashToken (refreshText e)) d = None →
  rotation hashToken hmac claims_text externalAssistantId h r now e d = Some (d', done res) →
  ∃ r', findRefreshByHash (hashToken (refreshToken (pair res))) d' = Some r' ∧
    Refresh.absoluteExpiresAt r' = Refresh.absoluteExpiresAt r.
Proof.
  intros Hn. unfold rotation. destruct (markRotated h now d) as [d1 [|]] eqn:Hm; [|done]. injection Hm as <- _.
  unfold rotateAccessToken, mintRefreshTokenInFamily. cbn zeta.
  destruct (insert_access _ _) as [d2|] eqn:Ha; cbn [mbind option_bind]; [|done].
  destruct (insert_refresh _ d2) as [d3|] eqn:Hr; cbn [mbind option_bind]; [|done]. intros [= <- <-].
  eexists. split; [apply (inserted_refresh _ _ _ Hr)|done]. rw (inserted_access _ _ _ _ Ha). by apply unseen_update.
Qed.

(** Both routes come down to a rotation of the row that the token finds. *)
Lemma exchanged token device g now e d d' res :
  rotateCredentials token device g now e d = (d', done res) ∨ rotateBrowser token g now e d = (d', done res) →
  ∃ r, findRefreshByHash (hashToken token) d = Some r ∧ now ≤ Refresh.absoluteExpiresAt r ∧
    rotation hashToken hmac claims_text externalAssistantId (hashToken token) r now e d = Some (d', done res).
Proof.
  intros Hr.
  assert (∃ r, findRefreshByHash (hashToken token) d = Some r ∧ rotateRecord (hashToken token) r g now e d = (d', done res))
    as (r & Hf & Hrot).
  { destruct Hr as [Hr|Hr]; unfold DeviceTokens.rotateCredentials, rotateBrowserCredentialsByRefreshToken in Hr;
      cbn zeta in Hr; destruct (findRefreshByHash _ _) as [r|]; try done; exists r; split; try done;
      [by case_bool_decide|by destruct (negb _)]. }
  exists r. apply rotated_result in Hrot as (_ & Hn & _ & Hrot). done.
Qed.

Lemma heir_absolute t0 token w : heir t0 token w →
  ∃ r, findRefreshByHash (hashToken token) (db w) = Some r ∧ Refresh.absoluteExpiresAt r = t0 + REFRESH_ABSOLUTE_TTL_MS.
Proof.
  induction 1 as [p dv pl i e w d pr Hn Hm|p pl c i e w d pr Hn Hm|token dv g now e w d res _ (r & Hf & <-) Hn Hr
                 |token os w _ (r & Hf & <-)].
  - revert Hm. unfold mintAndRecordDeviceBoundTokenPair. case_bool_decide; [done|]. intros Hm.
    eapply minted_absolute; [|exact Hm]. by apply unseen_update.
  - by eapply minted_absolute.
  - apply exchanged in Hr as (r1 & Hf1 & _ & Hr). rw Hf in Hf1. injection Hf1 as <-. by eapply rotation_absolute.
  - destruct (find_refresh_later _ _ _ _ (later_run os w) Hf) as (r' & Hf' & Hk & _). exists r'. split; [done|].
    unfold refresh_key in Hk. by injection Hk as _ _ _ _ _ _ _ _ -> _ _ _.
Qed.

(** C28 — Rotation does not prolong a pairing: however often its refresh token is
    exchanged, on either route and with whatever in between, an exchange succeeds
    only within a year of the pairing itself, and the refresh token it gives
    expires by then.  The texts that are drawn have digests that no row has. *)
Theorem refresh_chain_is_bounded t0 token w device g now e d' res :
  heir t0 token w →
  rotateCredentials token device g now e (db w) = (d', done res) ∨ rotateBrowser token g now e (db w) = (d', done res) →
  now ≤ t0 + REFRESH_ABSOLUTE_TTL_MS ∧ refreshTokenExpiresAt (pair res) ≤ t0 + REFRESH_ABSOLUTE_TTL_MS.
Proof.
  intros (r & Hf & <-)%heir_absolute (r1 & Hf1 & Hn & Hr)%exchanged. rw Hf in Hf1. injection Hf1 as <-.
  apply rotation_expiry in Hr. lia.
Qed.
End life.

(** ** The text that is stored *)

Lemma string_filter_all p s : all_chars p (string_filter p s) = true.
Proof. unfold all_chars. induction s as [|a s IH]; [done|]. cbn. destruct (p a) eqn:Ha; [|done]. cbn. by rewrite Ha. Qed.

Lemma all_chars_trim p s : all_chars p s = true → all_chars p (js_trim s) = true.
Proof.
  assert (∀ s, all_chars p s = true → all_chars p (trim_end s) = true) as He.
  { unfold all_chars. clear. induction s as [|a s IH]; [done|]. cbn [list_ascii_of_string forallb trim_end].
    intros [Ha Hs%IH]%andb_true_iff. destruct (trim_end s); [destruct (is_space a); [done|]|]; cbn in *; by rewrite Ha. }
  unfold js_trim. intros Hs. apply He. unfold all_chars in *. induction s as [|a s IH]; [done|]. cbn [trim_start].
  destruct (is_space a); [|done]. apply IH. by apply andb_true_iff in Hs as [_ ?].
Qed.

Lemma all_chars_take p n s : all_chars p s = true → all_chars p (take_points n s) = true.
Proof.
  unfold all_chars. revert n. induction s as [|a s IH]; intros n; [done|]. cbn. intros [Ha Hs]%andb_true_iff.
  destruct (continues a); [|destruct n]; cbn; rewrite ?Ha //=; by apply IH.
Qed.

Lemma points_take n s : (points (take_points n s) ≤ n)%nat.
Proof.
  revert n. induction s as [|a s IH]; intros n; cbn; [lia|]. destruct (continues a) eqn:Ha; [|destruct n]; cbn; rewrite ?Ha; [done|lia|].
  specialize (IH n). lia.
Qed.

(** Text that may be shown: no control characters, and not too long. *)
Definition presentable (max : nat) (o : option string) : Prop :=
  ∀ s, o = Some s → all_chars (λ a, negb (is_control a)) s = true ∧ (points s ≤ max)%nat.

Lemma cap_presentable v max : presentable max (capDeviceIdentityText v max).
Proof.
  intros s. unfold capDeviceIdentityText. destruct v as [v|]; [|done]. case_bool_decide; [done|]. intros [= <-].
  split; [|apply points_take]. apply all_chars_take, all_chars_trim, string_filter_all.
Qed.

Section stored.
Context (hashToken hmac decode : string → string).
Context (claims_text : TokenClaims → string) (parse_claims : string → option TokenClaims).
Context (externalAssistantId : string).
Local Abbreviation run := (run hashToken hmac decode claims_text parse_claims externalAssistantId).

(** Whatever a device says of itself, no row ever holds a control character
    or more than the allowed number of characters of it: rotations and derived
    tokens carry capped text on. *)
Theorem stored_identities_are_presentable os i :
  let d := db (run os fresh_world) in
  (∃ r, r ∈ actorTokenRecords d ∧ Access.identity r = i) ∨ (∃ r, r ∈ actorRefreshTokenRecords d ∧ Refresh.identity r = i) →
  presentable MAX_PAIRING_USER_AGENT_CHARS (pairingUserAgent i) ∧
  presentable MAX_CLIENT_REPORTED_NAME_CHARS (clientReportedName i).
Proof.
  cbn zeta. set (d := db _). intros Hi. assert (all_capped d) as [Ha Hr].
  { eapply wrote_capped; [apply wrote_run|]. by split; intros ? ?%not_elem_of_nil. }
  assert (capped i) as [j ->] by (destruct Hi as [(r & ? & <-)|(r & ? & <-)]; auto).
  split; apply cap_presentable.
Qed.
End stored.

(** ** Samples *)

Definition sample_entropy (n : nat) : Entropy :=
  let s := pretty n in
  {| accessId := "a" +:+ s; refreshId := "r" +:+ s; fresh_jti := "j" +:+ s; refreshText := "R" +:+ s;
     familyText := "F" +:+ s; bindingText := "B" +:+ s |}.

(** The claims of an actor's token, a field to a line. *)
Definition actor_text (c : TokenClaims) : string :=
  sub c +:+ "|" +:+ pretty (exp c) +:+ "|" +:+ pretty (iat c) +:+ "|" +:+ jti c.

Definition read_number (s : string) : Z :=
  foldl (λ n a, 10 * n + Z.of_nat (nat_of_ascii a - 48)) 0 (list_ascii_of_string s).

Definition actor_parse (s : string) : option TokenClaims :=
  match split_on "|" s with
  | [a; b; c; d] =>
      Some {| aud := vellum_gateway; sub := a; scope_profile := actor_client_v1; exp := read_number b;
              policy_epoch := CURRENT_POLICY_EPOCH; iat := read_number c; jti := d |}
  | _ => None
  end.

Definition plain_hash (s : string) : string := s.
Local Abbreviation run_ := (run plain_hash sample_hmac Base64.decode actor_text actor_parse "self").
Local Abbreviation rotate_ := (rotateCredentials plain_hash sample_hmac actor_text "self").
Local Abbreviation create_ := (handleCreateToken plain_hash sample_hmac Base64.decode actor_text actor_parse).
Local Abbreviation admit_ := (admitActorToken plain_hash Base64.decode).

Definition healthy : Health := {| reads := true; writes := true |}.
Definition day : Z := 24 * 60 * 60 * 1000.

Definition paired : World :=
  run_ [Pair "p" "dev" "macos" (Some {| pairingUserAgent := None; clientReportedName := Some " Mac " |}) 0 (sample_entropy 1)] fresh_world.
Definition rotated_once : World := run_ [Rotate "R1" "dev" (Some ok) 1000 (sample_entropy 2)] paired.
Definition token_of (n : nat) (now : Z) : string := actor_token sample_hmac actor_text "self" "p" now (sample_entropy n).
Definition claims_of (n : nat) (now : Z) : TokenClaims :=
  {| aud := vellum_gateway; sub := "actor:self:p"; scope_profile := actor_client_v1; exp := now / 1000 + ACCESS_TOKEN_TTL_SECONDS;
     policy_epoch := CURRENT_POLICY_EPOCH; iat := now / 1000; jti := "j" +:+ pretty n |}.

Lemma refresh_tokens_work_once_witness :
  refused plain_hash sample_hmac actor_text "self" "R1" (db (run_ [Revoke "p" (Some "dev") 2000] rotated_once)).
Proof.
  let o := eval vm_compute in (rotate_ "R1" "dev" (Some ok) 1000 (sample_entropy 2) (db paired)) in
  lazymatch o with (?d, done ?res) =>
    apply (refresh_tokens_work_once plain_hash sample_hmac Base64.decode actor_text actor_parse "self" paired "R1" "dev"
      (Some ok) 1000 (sample_entropy 2) d res [Revoke "p" (Some "dev") 2000])
  end.
  left. vm_compute. reflexivity.
Defined.

Lemma unpairing_is_final_witness :
  cut_off plain_hash sample_hmac Base64.decode actor_text "self" "p" "dev" (db rotated_once)
    (run_ [Pair "p" "dev" "macos" None 3000 (sample_entropy 3)]
       (with_db (handleRevokeDevice "p" (Some " dev ") 2000 (db rotated_once)).1 rotated_once)).
Proof.
  apply (unpairing_is_final plain_hash sample_hmac Base64.decode actor_text actor_parse "self" rotated_once "p" (Some " dev ") 2000 "dev").
  vm_compute. reflexivity.
Defined.

Lemma reuse_ends_the_family_witness :
  ∃ d, rotate_ "R1" "dev" (Some ok) 2000 (sample_entropy 3) (db rotated_once) = (d, failed refresh_reuse_detected) ∧
  refused plain_hash sample_hmac actor_text "self" "R2" (db (run_ [] (with_db d rotated_once))).
Proof.
  let o := eval vm_compute in (findRefreshByHash "R1" (db rotated_once)) in
  let x := eval vm_compute in (rotate_ "R1" "dev" (Some ok) 2000 (sample_entropy 3) (db rotated_once)) in
  lazymatch o with Some ?r => lazymatch x with (?d, ?o) =>
    exists d;
    destruct (reuse_ends_the_family plain_hash sample_hmac Base64.decode actor_text actor_parse "self" rotated_once "R1"
      "dev" (Some ok) 2000 (sample_entropy 3) r d o []) as [H1 [_ H2]]; [by vm_compute|done|left; split; [done|vm_compute; reflexivity]|]
  end end.
  split; [vm_compute; reflexivity|].
  let o := eval vm_compute in (findRefreshByHash "R2" (db rotated_once)) in
  lazymatch o with Some ?r => apply (H2 "R2" r); by vm_compute end.
Defined.

Lemma constraints_never_fire_witness :
  (∃ p, (mintAndRecordDeviceBoundTokenPair plain_hash sample_hmac actor_text "self"
           "p" "dev" "macos" None 2000 (sample_entropy 3) (db rotated_once)).2 = Some p) ∧
  (rotate_ "R2" "dev" (Some ok) 2000 (sample_entropy 3) (db rotated_once)).2 ≠ threw.
Proof.
  destruct (constraints_never_fire plain_hash sample_hmac Base64.decode actor_text actor_parse "self"
    [Pair "p" "dev" "macos" (Some {| pairingUserAgent := None; clientReportedName := Some " Mac " |}) 0 (sample_entropy 1);
     Rotate "R1" "dev" (Some ok) 1000 (sample_entropy 2)]
    "p" "dev" "macos" None "R2" "dev" (Some ok) 2000 (sample_entropy 3)) as (H1 & H2 & _).
  - split; (eapply bool_decide_eq_true_1; vm_compute; reflexivity).
  - done.
  - split; [exact H1|exact H2].
Defined.

Lemma pairing_can_be_refreshed_witness :
  ∃ d'' res, rotate_ "R1" (hashDeviceId plain_hash " dev ") None (80 * day) (sample_entropy 2)
    (mintAndRecordDeviceBoundTokenPair plain_hash sample_hmac actor_text "self" "p" " dev " "macos" None 0 (sample_entropy 1) no_rows).1
    = (d'', done res) ∧ rotatedFor res = "p".
Proof.
  let o := eval vm_compute in (mintAndRecordDeviceBoundTokenPair plain_hash sample_hmac actor_text "self" "p" " dev " "macos"
    None 0 (sample_entropy 1) no_rows) in
  lazymatch o with (?d, Some ?p) =>
    apply (pairing_can_be_refreshed plain_hash sample_hmac Base64.decode actor_text actor_parse "self" "p" " dev " "macos" None 0
      (sample_entropy 1) no_rows d p None (80 * day) (sample_entropy 2))
  end.
  - split; apply NoDup_nil_2.
  - done.
  - by vm_compute.
  - by vm_compute.
  - done.
  - split; (eapply bool_decide_eq_true_1; vm_compute; reflexivity).
Defined.

(** Paired at 0, exchanged at 1000, exchanged again at 2000. *)
Lemma refresh_chain_is_bounded_witness :
  2000 ≤ 0 + REFRESH_ABSOLUTE_TTL_MS.
Proof.
  let o := eval vm_compute in (rotate_ "R1" "dev" (Some ok) 1000 (sample_entropy 2) (db paired)) in
  lazymatch o with (?d1, done ?res1) =>
    let o := eval vm_compute in (rotate_ "R2" "dev" (Some ok) 2000 (sample_entropy 3) d1) in
    lazymatch o with (?d2, done ?res2) =>
      apply (refresh_chain_is_bounded plain_hash sample_hmac Base64.decode actor_text actor_parse "self"
        0 "R2" (with_db d1 paired) "dev" (Some ok) 2000 (sample_entropy 3) d2 res2);
      [apply (heir_rotated plain_hash sample_hmac Base64.decode actor_text actor_parse "self"
         0 "R1" "dev" (Some ok) 1000 (sample_entropy 2) paired d1 res1); [|by vm_compute|left; vm_compute; reflexivity]
      |left; vm_compute; reflexivity]
    end
  end.
  let o := eval vm_compute in (mintAndRecordDeviceBoundTokenPair plain_hash sample_hmac actor_text "self"
    "p" "dev" "macos" (Some {| pairingUserAgent := None; clientReportedName := Some " Mac " |}) 0 (sample_entropy 1) no_rows) in
  lazymatch o with (?d, Some ?p) =>
    apply (heir_paired plain_hash sample_hmac Base64.decode actor_text actor_parse "self" 0
      "p" "dev" "macos" (Some {| pairingUserAgent := None; clientReportedName := Some " Mac " |}) (sample_entropy 1)
      fresh_world d p); [by vm_compute|vm_compute; reflexivity]
  end.
Defined.

Lemma stored_identities_are_presentable_witness :
  presentable MAX_CLIENT_REPORTED_NAME_CHARS (Some "Mac").
Proof.
  apply (stored_identities_are_presentable plain_hash sample_hmac Base64.decode actor_text actor_parse "self"
    [Pair "p" "dev" "macos" (Some {| pairingUserAgent := None; clientReportedName := Some " Mac " |}) 0 (sample_entropy 1)]
    {| pairingUserAgent := None; clientReportedName := Some "Mac" |}).
  left. eexists. split; [apply list_elem_of_here|]. vm_compute. reflexivity.
Defined.

(** A replay reaches past its family: after the device was paired anew, the
    spent refresh token of the old pairing still ends the access token of the new
    one; its refresh token goes on working. *)
Theorem replay_reaches_a_newer_pairing :
  let again := run_ [Pair "p" "dev" "macos" None 2000 (sample_entropy 3)] rotated_once in
  let replayed := run_ [Rotate "R1" "dev" (Some ok) 3000 (sample_entropy 4)] again in
  (admit_ (token_of 3 2000) (claims_of 3 2000) healthy 4000 again).2 = true ∧
  (admit_ (token_of 3 2000) (claims_of 3 2000) healthy 4000 replayed).2 = false ∧
  ∃ res, (rotate_ "R3" "dev" (Some ok) 4000 (sample_entropy 5) (db replayed)).2 = done res.
Proof. cbn zeta. split; [by vm_compute|]. split; [by vm_compute|]. eexists. vm_compute. reflexivity. Qed.

(** A page on this machine that renews its token every 29 days. *)
Fixpoint renew (n : nat) (token : string) (now : Z) (w : World) : World * string :=
  match n with
  | O => (w, token)
  | S n =>
      match create_ true (Some "http://localhost:3000") (Some ("Bearer " +:+ token)) (Some ok) broke healthy now
              (sample_entropy (100 + n)) w with
      | (w, Token token _) => renew n token (now + 29 * day) w
      | (w, _) => (w, EmptyString)
      end
  end.

(** The year of a family does not bind what is derived from its access tokens:
    each derived token may derive the next, so after thirteen renewals one is let
    in on day 377, when the pairing's refresh token has long expired. *)
Theorem derived_tokens_outlive_their_family :
  let '(w, token) := renew 13 (token_of 1 0) (29 * day) paired in
  let now := 400 * day in
  ∃ claims, verifyToken sample_hmac Base64.decode actor_parse token vellum_gateway false now = inl claims ∧
    (admit_ token claims healthy now w).2 = true ∧
    (rotate_ "R1" "dev" (Some ok) now (sample_entropy 2) (db w)).2 = failed refresh_expired.
Proof.
  destruct (renew 13 (token_of 1 0) (29 * day) paired) as [w token] eqn:Hr. vm_compute in Hr. injection Hr as <- <-.
  eexists. split; [vm_compute; reflexivity|]. split; vm_compute; reflexivity.
Qed.
