(* ===== verification/GuardianBinding.v ===== *)
(** * The guardian's binding

    [gateway/src/auth/guardian-bootstrap.ts] and [guardian-integrity.ts]: who the
    gateway holds for its owner.  A binding is a contact of role [guardian] with a
    principal, and a channel of it; it is written by [applyGuardianBindingGatewayWrites],
    looked for by the trust decisions, rebuilt from the token tables of
    [DeviceTokens] when it was lost, and never minted over the traces of an earlier
    one unless the operator asks.  Ids that are drawn and the clock are arguments. *)

From S2P Require Import Prelude JsText Base64 AuthTokens DedupCache DeviceTokens.
From stdpp Require Import pretty.
Local Open Scope string_scope.
Local Open Scope Z_scope.
Local Open Scope litt_scope.

(** ** Tables ([gateway/src/db/schema.ts]) *)

Inductive ChannelStatus := ch_unverified | ch_pending | ch_active | ch_revoked | ch_blocked.

#[export] Instance ChannelStatus_eq_dec : EqDecision ChannelStatus.
Proof. solve_decision. Defined.

Module Contact.
Record Row := Mk {
  id : string;
  displayName : string;
  role : string;
  principalId : option string;
  autoApproveThreshold : option string;
  createdAt : Z;
  updatedAt : Z;
}.
End Contact.

Module Channel.
Record Row := Mk {
  id : string;
  contactId : string;
  type : string;
  address : string;
  isPrimary : bool;
  externalChatId : option string;
  status : ChannelStatus;
  policy : string;
  verifiedAt : option Z;
  verifiedVia : option string;
  inviteId : option string;
  revokedReason : option string;
  blockedReason : option string;
  lastSeenAt : option Z;
  interactionCount : Z;
  lastInteraction : option Z;
  createdAt : Z;
  updatedAt : option Z;
}.
End Channel.

Record Book := Contacts { contacts : list Contact.Row; channels : list Channel.Row }.

(** [COLLATE NOCASE] *)
Definition nocase (a b : string) : bool := bool_decide (string_map to_lower a = string_map to_lower b).

(** [ORDER BY … LIMIT 1] *)
Definition first_by {A} (le : A → A → bool) (l : list A) : option A := head (stable_sort le l).

(** [DESC] of a nullable column: NULL is the smallest. *)
Definition newer (a b : option Z) : bool :=
  match a, b with
  | Some a, Some b => b <=? a
  | _, None => true
  | None, Some _ => false
  end.

Definition is_guardian (c : Contact.Row) : bool := bool_decide (Contact.role c = "guardian").

(** The guardian contacts joined with their active channels of a type. *)
Definition active_guardians (channelType : string) (b : Book) : list (Contact.Row * Channel.Row) :=
  ch ← channels b;
  (λ c, (c, ch)) <$> filter (λ c, is_guardian c = true ∧ Contact.id c = Channel.contactId ch ∧
                                  Channel.type ch = channelType ∧ Channel.status ch = ch_active) (contacts b).

Definition principal_of (row : option (Contact.Row * Channel.Row)) : option string :=
  row ≫= λ r, if truthy (Contact.principalId r.1) then Contact.principalId r.1 else None.

Definition findVellumGuardian (b : Book) : option string :=
  principal_of (first_by (λ x y, newer (Channel.verifiedAt x.2) (Channel.verifiedAt y.2)) (active_guardians "vellum" b)).

Definition findGuardianForChannelActor (channelType externalUserId : string) (b : Book) : option string :=
  if bool_decide (channelType = EmptyString) || bool_decide (externalUserId = EmptyString) then None
  else principal_of (head (filter (λ r, nocase (Channel.address r.2) externalUserId = true) (active_guardians channelType b))).

(** ** Writing a binding *)

Record BindingParams := {
  channel : string;
  externalUserId : string;
  deliveryChatId : string;
  guardianPrincipalId : string;
  display : option string;
  via : option string;
  reactivateRevoked : bool;
}.

Record GatewayWrites := {
  w_contactId : string;
  w_channelId : string;
  claimedFromContactId : option string;
}.

Definition existing_guardian (principal : string) (b : Book) : option string :=
  Contact.id <$> head (filter (λ c, is_guardian c = true ∧ Contact.principalId c = Some principal) (contacts b)).

Definition status_rank (s : ChannelStatus) : nat :=
  match s with ch_active => 0 | ch_unverified => 1 | _ => 2 end.

(** The guardian's own first, then by status, then the newest. *)
Definition claim_le (existing : option string) (x y : Channel.Row) : bool :=
  let own ch := if bool_decide (Channel.contactId ch = (existing otherwise EmptyString)) then 0%nat else 1%nat in
  let rank ch := (3 * own ch + status_rank (Channel.status ch))%nat in
  (rank x <? rank y)%nat || (bool_decide (rank x = rank y) && newer (Channel.updatedAt x) (Channel.updatedAt y)).

Definition at_address (channelType externalUserId : string) (ch : Channel.Row) : bool :=
  bool_decide (Channel.type ch = channelType) && nocase (Channel.address ch) externalUserId.

Definition claimable (p : BindingParams) (existing : option string) (b : Book) : option Channel.Row :=
  first_by (claim_le existing)
    (filter (λ ch, at_address (channel p) (externalUserId p) ch = true ∧ Channel.status ch ≠ ch_blocked) (channels b)).

Definition upsert_contact (id displayName principal : string) (now : Z) (l : list Contact.Row) : list Contact.Row :=
  if existsb (λ c, bool_decide (Contact.id c = id)) l then
    update_where (λ c, bool_decide (Contact.id c = id))
      (λ c, Contact.Mk (Contact.id c) displayName "guardian" (Some principal) (Contact.autoApproveThreshold c)
              (Contact.createdAt c) now) l
  else (l ++ [Contact.Mk id displayName "guardian" (Some principal) None now now])%list.

(** [channelSet] over a row. *)
Definition bind_channel (contactId : string) (p : BindingParams) (now : Z) (ch : Channel.Row) : Channel.Row :=
  Channel.Mk (Channel.id ch) contactId (Channel.type ch) (externalUserId p) true (Some (deliveryChatId p)) ch_active "allow"
    (Some now) (Some (via p otherwise "challenge")) (Channel.inviteId ch) None None (Channel.lastSeenAt ch)
    (Channel.interactionCount ch) (Channel.lastInteraction ch) (Channel.createdAt ch) (Some now).

Definition new_channel (id contactId : string) (p : BindingParams) (now : Z) : Channel.Row :=
  bind_channel contactId p now
    (Channel.Mk id contactId (channel p) (externalUserId p) true None ch_active "allow" None None None None None None 0 None now None).

(** [idx_contact_channels_type_address_unique] after an update of the row [id]. *)
Definition address_taken (id channelType address : string) (l : list Channel.Row) : bool :=
  existsb (λ ch, bool_decide (Channel.id ch ≠ id) && bool_decide (Channel.type ch = channelType) &&
                 bool_decide (Channel.address ch = address)) l.

Definition is_protected (p : BindingParams) (s : ChannelStatus) : bool :=
  bool_decide (s = ch_blocked) || (bool_decide (s = ch_revoked) && negb (reactivateRevoked p)).

(** [None] where the unique index throws: the caller's transaction is rolled back. *)
Definition write_channel (p : BindingParams) (contactId channelId : string) (now : Z) (l : list Channel.Row)
    : option (list Channel.Row) :=
  match head (filter (λ ch, at_address (channel p) (externalUserId p) ch = true) l) with
  | Some existingGw =>
      if is_protected p (Channel.status existingGw) then Some l
      else if address_taken (Channel.id existingGw) (channel p) (externalUserId p) l then None
      else Some (update_where (λ ch, bool_decide (Channel.id ch = Channel.id existingGw)) (bind_channel contactId p now) l)
  | None =>
      if existsb (λ ch, bool_decide (Channel.id ch = channelId)) l then
        Some (update_where (λ ch, bool_decide (Channel.id ch = channelId)) (bind_channel contactId p now) l)
      else Some (l ++ [new_channel channelId contactId p now])%list
  end.

Definition applyGuardianBindingGatewayWrites (p : BindingParams) (fresh_contact fresh_channel : string) (now : Z) (b : Book)
    : option (Book * GatewayWrites) :=
  let displayName := display p otherwise externalUserId p in
  let existing := existing_guardian (guardianPrincipalId p) b in
  let claim := claimable p existing b in
  let contactId :=
    match existing, claim with
    | Some id, _ => id
    | None, Some ch => Channel.contactId ch
    | None, None => fresh_contact
    end in
  let existingChannel :=
    match claim, existing with
    | None, Some _ =>
        Channel.id <$> head (filter (λ ch, Channel.contactId ch = contactId ∧ Channel.type ch = channel p) (channels b))
    | _, _ => None
    end in
  let channelId :=
    match claim, existingChannel with
    | Some ch, _ => Channel.id ch
    | None, Some id => id
    | None, None => fresh_channel
    end in
  let contacts' := upsert_contact contactId displayName (guardianPrincipalId p) now (contacts b) in
  channels' ← write_channel p contactId channelId now (channels b);
  Some (Contacts contacts' channels',
        {| w_contactId := contactId; w_channelId := channelId;
           claimedFromContactId :=
             claim ≫= λ ch, if bool_decide (Channel.contactId ch ≠ contactId) then Some (Channel.contactId ch) else None |}).

(** ** The orphaned stub ([verification/contact-helpers.ts]) *)

Record Probe := {
  exists_ : bool; hasChannels : bool; notes : option string; userFile : option string; contactType : string;
  hasMetadata : bool;
}.

(** The assistant's mirror: no socket, an error, or what it holds. *)
Inductive Mirror := no_socket | mirror_error | mirror_probe (p : Probe).

Definition orphaned (contactId : string) (invited : bool) (b : Book) (c : Contact.Row) : bool :=
  bool_decide (Contact.id c = contactId) && bool_decide (Contact.role c = "contact") &&
  bool_decide (Contact.principalId c = None) && bool_decide (Contact.autoApproveThreshold c = None) &&
  negb (existsb (λ ch, bool_decide (Channel.contactId ch = contactId)) (channels b)) && negb invited.

Definition mirror_vetoes (m : Mirror) : bool :=
  match m with
  | no_socket => false
  | mirror_error => true
  | mirror_probe p =>
      hasChannels p ||
      (exists_ p && ((truthy (js_trim <$> notes p)) || (truthy (js_trim <$> userFile p)) ||
                     bool_decide (contactType p ≠ "human") || hasMetadata p))
  end.

(** [invited] is whether an invite names the contact. *)
Definition deleteContactIfOrphaned (contactId : string) (invited : bool) (m : Mirror) (b : Book) : Book :=
  if negb (existsb (orphaned contactId invited b) (contacts b)) then b
  else if mirror_vetoes m then b
  else Contacts (filter (λ c, orphaned contactId invited b c = false) (contacts b)) (channels b).

(** ** Integrity ([auth/guardian-integrity.ts]) *)

Definition STATE_TTL_MS : Z := 30000.

Record Gateway := {
  book : Book;
  tokens : DB;
  cached : option (GuardianIntegrityState * Z);
}.

Definition hasActorTokens (d : DB) : bool :=
  negb (bool_decide (actorTokenRecords d = [] ∧ actorRefreshTokenRecords d = [])).
Definition hasContacts (b : Book) : bool := match contacts b with [] => false | _ => true end.

Definition hasEvidenceOfPriorGuardian (g : Gateway) : bool := hasContacts (book g) || hasActorTokens (tokens g).
Definition hasGuardianContactRow (b : Book) : bool := existsb is_guardian (contacts b).
Definition hasGuardianContactWithPrincipal (b : Book) : bool :=
  existsb (λ c, is_guardian c && bool_decide (is_Some (Contact.principalId c))) (contacts b).

Definition computeState (g : Gateway) : GuardianIntegrityState :=
  if hasGuardianContactRow (book g) then ok
  else if hasEvidenceOfPriorGuardian g then missing_guardian else ok.

Definition guardianIntegrityState (now : Z) (g : Gateway) : Gateway * GuardianIntegrityState :=
  let compute :=
    let s := computeState g in ({| book := book g; tokens := tokens g; cached := Some (s, now) |}, s) in
  match cached g with
  | Some (s, t) => if now - t <? STATE_TTL_MS then (g, s) else compute
  | None => compute
  end.

(** ** The principal *)

(** What a binding draws, and what is found out while it is mirrored. *)
Record Draw := {
  fresh_contact : string; fresh_channel : string; fresh_principal : string;
  invited : bool; mirror : Mirror;
}.

(** [None] where a write throws. *)
Definition createGuardianBinding (p : BindingParams) (e : Draw) (now : Z) (g : Gateway) : option Gateway :=
  '(b, w) ← applyGuardianBindingGatewayWrites p (fresh_contact e) (fresh_channel e) now (book g);
  let b := match claimedFromContactId w with
           | Some id => if bool_decide (id = EmptyString) then b else deleteContactIfOrphaned id (invited e) (mirror e) b
           | None => b
           end in
  Some {| book := b; tokens := tokens g; cached := None |}.

Definition recoverGuardianPrincipalFromActorTokens (d : DB) : option string :=
  let access := Access.guardianPrincipalId <$>
    first_by (λ x y, Access.issuedAt y <=? Access.issuedAt x)
      (filter (λ r, Access.status r = Access.active) (actorTokenRecords d)) in
  if truthy access then access
  else Refresh.guardianPrincipalId <$>
    first_by (λ x y, Refresh.issuedAt y <=? Refresh.issuedAt x)
      (filter (λ r, Refresh.status r = Refresh.active) (actorRefreshTokenRecords d)).

Definition vellum_params (principal : string) (display : option string) (reactivate : bool) : BindingParams :=
  {| channel := "vellum"; externalUserId := principal; deliveryChatId := "local"; guardianPrincipalId := principal;
     display := display; via := Some "bootstrap"; reactivateRevoked := reactivate |}.

(** [Some None]: nothing to recover; [None]: a write throws. *)
Definition recoverAbsentVellumGuardianFromActorTokens (e : Draw) (now : Z) (g : Gateway) : option (Gateway * option string) :=
  if hasGuardianContactWithPrincipal (book g) then Some (g, None)
  else
    let recovered := recoverGuardianPrincipalFromActorTokens (tokens g) in
    if negb (truthy recovered) then Some (g, None)
    else
      let principal := recovered otherwise EmptyString in
      g ← createGuardianBinding (vellum_params principal None false) e now g;
      Some (g, Some principal).

Inductive resolution := resolved (principal : string) (isNew mintedOverPriorEvidence : bool) | refused | resolution_threw.

(** [ownerName] is what [fetchPlatformOwnerDisplayName] gives. *)
Definition resolveOrCreateVellumGuardian (allowMintWithEvidence recoverFromActorTokens : bool) (ownerName : option string)
    (e : Draw) (now : Z) (g : Gateway) : Gateway * resolution :=
  match findVellumGuardian (book g) with
  | Some principal => (g, resolved principal false false)
  | None =>
      match (if recoverFromActorTokens then recoverAbsentVellumGuardianFromActorTokens e now g else Some (g, None)) with
      | None => (g, resolution_threw)
      | Some (g, Some recovered) => (g, resolved recovered false false)
      | Some (g, None) =>
          let priorEvidence := hasEvidenceOfPriorGuardian g in
          if priorEvidence && negb allowMintWithEvidence then ((guardianIntegrityState now g).1, refused)
          else
            let principal := "vellum-principal-" +:+ fresh_principal e in
            let name := if truthy ownerName then ownerName else None in
            match createGuardianBinding (vellum_params principal name true) e now g with
            | None => (g, resolution_threw)
            | Some g => (g, resolved principal true priorEvidence)
            end
      end
  end.

Definition ensureVellumGuardianBinding (recoverFromActorTokens : bool) (ownerName : option string) (e : Draw) (now : Z)
    (g : Gateway) : Gateway * Ensured :=
  match resolveOrCreateVellumGuardian false recoverFromActorTokens ownerName e now g with
  | (g, resolved principal _ _) => (g, bound principal)
  | (g, refused) => (g, mint_refused)
  | (g, resolution_threw) => (g, broke)
  end.

Section bootstrap.
Context (hashToken hmac : string → string) (claims_text : TokenClaims → string) (externalAssistantId : string).

(** [hostName] is what [readHostReportedName] gives; [None]: an error is thrown. *)
Definition bootstrapGuardian (platform deviceId : string) (reportedName hostName ownerName : option string)
    (e : Draw) (n : Entropy) (now : Z) (g : Gateway) : Gateway * option (string * TokenPair * bool * bool) :=
  match resolveOrCreateVellumGuardian true false ownerName e now g with
  | (g, resolved principal isNew over) =>
      let name := match reportedName with Some s => Some s | None => hostName end in
      let '(d, pair) := mintAndRecordDeviceBoundTokenPair hashToken hmac claims_text externalAssistantId principal deviceId
        platform (Some {| pairingUserAgent := None; clientReportedName := name |}) now n (tokens g) in
      ({| book := book g; tokens := d; cached := cached g |},
       (λ p, (principal, p, isNew, over)) <$> pair)
  | (g, _) => (g, None)
  end.
End bootstrap.

(** ** Laws of a write *)

Lemma stable_sort_head {A} (le : A → A → bool) l x : head (stable_sort le l) = Some x → x ∈ l.
Proof. intros Hx. rw -(stable_sort_perm le l). by apply head_Some_elem_of. Qed.

Lemma first_by_elem {A} (le : A → A → bool) l x : first_by le l = Some x → x ∈ l.
Proof. apply stable_sort_head. Qed.

Lemma first_by_None {A} (le : A → A → bool) l : first_by le l = None ↔ l = [].
Proof.
  unfold first_by. split; [|by intros ->]. intros Hh. apply head_None in Hh.
  apply Permutation_nil_r. rewrite <- Hh. symmetry. apply stable_sort_perm.
Qed.

Lemma claim_nothing p existing b : (∀ ch, ch ∈ channels b → at_address (channel p) (externalUserId p) ch = false) →
  claimable p existing b = None.
Proof.
  intros Hno. apply first_by_None. destruct (filter _ _) as [|ch l] eqn:Hl; [done|].
  assert (ch ∈ filter (λ ch, at_address (channel p) (externalUserId p) ch = true ∧ Channel.status ch ≠ ch_blocked) (channels b))
    as [[Ha _] Hin]%list_elem_of_filter by (rewrite Hl; apply list_elem_of_here).
  by rewrite Hno in Ha.
Qed.

Lemma nobody_there p l : head (filter (λ ch, at_address (channel p) (externalUserId p) ch = true) l) = None →
  ∀ ch, ch ∈ l → at_address (channel p) (externalUserId p) ch = false.
Proof.
  intros Hn%head_None ch Hin. destruct (at_address _ _ ch) eqn:Ha; [|done].
  assert (ch ∈ filter (λ ch, at_address (channel p) (externalUserId p) ch = true) l) as Hf by by apply list_elem_of_filter.
  rewrite Hn in Hf. by apply not_elem_of_nil in Hf.
Qed.

Lemma ids_inj {A} (f : A → string) l x y : NoDup (f <$> l) → x ∈ l → y ∈ l → f x = f y → x = y.
Proof.
  intros Hd (i & Hi)%list_elem_of_lookup (j & Hj)%list_elem_of_lookup Hk.
  assert (i = j) as ->; [|congruence]. eapply (NoDup_lookup _ i j (f x) Hd); rw list_lookup_fmap ?Hi ?Hj /= ?Hk //.
Qed.

Lemma update_other {A} (f : A → string) g l i x : x ∈ l → f x ≠ i → x ∈ update_where (λ c, bool_decide (f c = i)) g l.
Proof.
  intros Hx Hi. apply list_elem_of_fmap. exists x. split; [|done]. by rewrite bool_decide_eq_false_2.
Qed.

Lemma head_found_at p l ex : head (filter (λ ch, at_address (channel p) (externalUserId p) ch = true) l) = Some ex →
  ex ∈ l ∧ at_address (channel p) (externalUserId p) ex = true.
Proof. intros Hh. by apply head_found in Hh. Qed.

(** The parts of a write. *)
Definition bound_contact (p : BindingParams) (fc : string) (b : Book) : string :=
  match existing_guardian (guardianPrincipalId p) b, claimable p (existing_guardian (guardianPrincipalId p) b) b with
  | Some id, _ => id
  | None, Some ch => Channel.contactId ch
  | None, None => fc
  end.

Lemma binding_writes p fc fch now b b' w : applyGuardianBindingGatewayWrites p fc fch now b = Some (b', w) →
  w_contactId w = bound_contact p fc b ∧
  contacts b' = upsert_contact (bound_contact p fc b) (display p otherwise externalUserId p) (guardianPrincipalId p) now (contacts b) ∧
  write_channel p (bound_contact p fc b) (w_channelId w) now (channels b) = Some (channels b') ∧
  ((∀ x, x ∈ channels b → at_address (channel p) (externalUserId p) x = false) →
   w_channelId w = fch ∨ ∃ own, own ∈ channels b ∧ Channel.id own = w_channelId w ∧ Channel.type own = channel p ∧
     existing_guardian (guardianPrincipalId p) b = Some (Channel.contactId own)).
Proof.
  unfold applyGuardianBindingGatewayWrites. cbn zeta. fold (bound_contact p fc b).
  destruct (write_channel _ _ _ _ _) as [l|] eqn:Hw; cbn [mbind option_bind]; [|done]. intros [= <- <-].
  cbn [w_contactId w_channelId contacts channels] in *. split_and!; try done. intros Hno.
  rw (claim_nothing p (existing_guardian (guardianPrincipalId p) b) b Hno) in Hw.
  rw (claim_nothing p (existing_guardian (guardianPrincipalId p) b) b Hno).
  destruct (existing_guardian (guardianPrincipalId p) b) as [id|] eqn:He; [|by left].
  destruct (head (filter _ (channels b))) as [own|] eqn:Hh; [|by left]. right. exists own.
  apply head_found in Hh as [Hin [Hc Ht]]. split_and!; try done. f_equal. rewrite Hc. unfold bound_contact. by rewrite He.
Qed.

(** The rows of a binding that may not be brought back. *)
Definition settled_against (p : BindingParams) (ch : Channel.Row) : Prop :=
  Channel.status ch = ch_blocked ∨ Channel.status ch = ch_revoked ∧ reactivateRevoked p = false.

Lemma protected_settled p ch : is_protected p (Channel.status ch) = true ↔ settled_against p ch.
Proof.
  unfold is_protected, settled_against. rw orb_true_iff andb_true_iff negb_true_iff !bool_decide_eq_true. done.
Qed.

(** A channel that is blocked, or revoked without a fresh verification, is not
    touched by a binding, whatever address is bound — with the one exception of
    the guardian's own channel of that type when nobody has the address yet. *)
Theorem governed_channels_stay p fc fch now b b' w ch :
  applyGuardianBindingGatewayWrites p fc fch now b = Some (b', w) →
  NoDup (Channel.id <$> channels b) → fch ∉ Channel.id <$> channels b →
  ch ∈ channels b → settled_against p ch →
  ch ∈ channels b' ∨
  (existing_guardian (guardianPrincipalId p) b = Some (Channel.contactId ch) ∧ Channel.type ch = channel p ∧
   ∀ x, x ∈ channels b → at_address (channel p) (externalUserId p) x = false).
Proof.
  intros (_ & _ & Hw & Hid)%binding_writes Hids Hfresh Hin Hs. unfold write_channel in Hw.
  destruct (head _) as [ex|] eqn:Hh.
  - left. apply head_found_at in Hh as [Hex _]. destruct (is_protected p (Channel.status ex)) eqn:Hp; [by injection Hw as <-|].
    destruct (address_taken _ _ _ _); [done|]. injection Hw as <-. apply update_other; [done|]. intros He.
    rewrite (ids_inj Channel.id (channels b) ch ex) // in Hs. apply protected_settled in Hs. congruence.
  - pose proof (nobody_there p _ Hh) as Hno. destruct (existsb _ _) eqn:He; injection Hw as <-.
    + destruct (decide (Channel.id ch = w_channelId w)) as [Hc|Hc]; [|by left; apply update_other]. right.
      destruct (Hid Hno) as [Hf|(own & Hown & Ho & Ht & Hg)]; [destruct Hfresh; apply list_elem_of_fmap; exists ch; by rewrite Hc Hf|].
      assert (ch = own) as -> by (apply (ids_inj Channel.id (channels b)); [done..|by rewrite Ho]). done.
    + left. apply elem_of_app. by left.
Qed.

(** The exception is real: when the guardian has a blocked channel of the
    type and binds an address nobody has, the blocked row itself becomes the
    active binding of the new address, and no row is left to say that the old
    address is blocked. *)
Theorem new_address_takes_a_blocked_row p fc fch now b own :
  existing_guardian (guardianPrincipalId p) b = Some (Channel.contactId own) →
  head (filter (λ ch, Channel.contactId ch = Channel.contactId own ∧ Channel.type ch = channel p) (channels b)) = Some own →
  Channel.status own = ch_blocked →
  (∀ x, x ∈ channels b → at_address (channel p) (externalUserId p) x = false) →
  ∃ b' w, applyGuardianBindingGatewayWrites p fc fch now b = Some (b', w) ∧
    bind_channel (Channel.contactId own) p now own ∈ channels b' ∧ own ∉ channels b'.
Proof.
  intros He Hh Hs Hno. pose proof (head_found _ _ _ Hh) as [Hin [_ Ht]].
  unfold applyGuardianBindingGatewayWrites. cbn zeta. rewrite He (claim_nothing p _ b Hno). rewrite Hh. cbn [fmap option_fmap option_map].
  unfold write_channel. destruct (head (filter (λ ch, at_address _ _ ch = true) (channels b))) as [ex|] eqn:Hex.
  { exfalso. apply head_found_at in Hex as [Hex Ha]. by rewrite Hno in Ha. }
  assert (existsb (λ ch, bool_decide (Channel.id ch = Channel.id own)) (channels b) = true) as ->.
  { apply existsb_elem. exists own. by rewrite bool_decide_eq_true. }
  eexists _, _. split; [reflexivity|]. cbn [channels]. split.
  - apply list_elem_of_fmap. exists own. split; [|done]. by rewrite bool_decide_eq_true_2.
  - intros (x & Hx & _)%list_elem_of_fmap. destruct (bool_decide _) eqn:Hi; [by rewrite Hx in Hs|].
    apply bool_decide_eq_false in Hi. by rewrite Hx in Hi.
Qed.

Lemma upsert_principal id name principal now l c : c ∈ upsert_contact id name principal now l → Contact.id c = id →
  Contact.principalId c = Some principal.
Proof.
  unfold upsert_contact. destruct (existsb _ l) eqn:He.
  - intros (x & -> & _)%list_elem_of_fmap. destruct (bool_decide _) eqn:Hi; [done|].
    by apply bool_decide_eq_false in Hi.
  - intros [Hin|[->|[]%not_elem_of_nil]%elem_of_cons]%elem_of_app; [|done]. intros Hi. exfalso.
    apply not_true_iff_false in He. apply He, existsb_elem. exists c. by rewrite bool_decide_eq_true.
Qed.

Lemma upsert_guardian id name principal now l :
  ∃ c, c ∈ upsert_contact id name principal now l ∧ Contact.id c = id ∧ is_guardian c = true.
Proof.
  unfold upsert_contact. destruct (existsb _ l) eqn:He.
  - apply existsb_elem in He as (c & Hc & Hi). eexists. split; [by apply list_elem_of_fmap; eexists; split|].
    rewrite Hi. apply bool_decide_eq_true in Hi. done.
  - eexists. split; [by apply elem_of_app; right; apply elem_of_cons; left|done].
Qed.

(** Which rows there are at the address afterwards. *)
Lemma written_rows p fc fch now b b' w :
  applyGuardianBindingGatewayWrites p fc fch now b = Some (b', w) →
  (∀ x, x ∈ channels b → at_address (channel p) (externalUserId p) x = true → ¬ settled_against p x) →
  (∀ x y, x ∈ channels b → y ∈ channels b → at_address (channel p) (externalUserId p) x = true →
     at_address (channel p) (externalUserId p) y = true → Channel.id x = Channel.id y) →
  fch ∉ Channel.id <$> channels b → NoDup (Channel.id <$> channels b) →
  (∀ x, x ∈ channels b' → at_address (channel p) (externalUserId p) x = true → Channel.contactId x = w_contactId w) ∧
  ∃ x, x ∈ channels b' ∧ at_address (channel p) (externalUserId p) x = true ∧ Channel.status x = ch_active ∧
    Channel.contactId x = w_contactId w ∧ Channel.verifiedAt x = Some now ∧ Channel.type x = channel p.
Proof.
  intros (Hc & _ & Hw & Hid)%binding_writes Hset Htwins Hfresh Hids. rw Hc. unfold write_channel in Hw.
  assert (∀ ch, Channel.type ch = channel p → at_address (channel p) (externalUserId p) (bind_channel (bound_contact p fc b) p now ch) = true) as Hat.
  { intros ch Ht. unfold at_address, nocase. cbn. by rewrite Ht !bool_decide_eq_true_2. }
  destruct (head _) as [ex|] eqn:Hh.
  - apply head_found_at in Hh as [Hex Ha].
    destruct (is_protected p (Channel.status ex)) eqn:Hp; [by destruct (Hset ex Hex Ha); apply protected_settled|].
    destruct (address_taken _ _ _ _); [done|]. injection Hw as <-. split.
    + intros x (y & -> & Hy)%list_elem_of_fmap. destruct (bool_decide _) eqn:Hi; [done|]. intros Hya.
      apply bool_decide_eq_false in Hi. by destruct Hi; apply Htwins.
    + exists (bind_channel (bound_contact p fc b) p now ex). split; [|].
      { apply list_elem_of_fmap. exists ex. by rewrite bool_decide_eq_true_2. }
      assert (Channel.type ex = channel p) as Ht by (by apply andb_true_iff in Ha as [Ht%bool_decide_eq_true _]).
      split_and!; try done. by apply Hat.
  - pose proof (nobody_there p _ Hh) as Hno. destruct (existsb _ _) eqn:He; injection Hw as <-.
    + destruct (Hid Hno) as [Hf|(own & Hown & Ho & Ht & _)].
      { exfalso. apply existsb_elem in He as (x & Hx & Hi%bool_decide_eq_true). apply Hfresh, list_elem_of_fmap. exists x. by rewrite -Hf. }
      split.
      * intros x (y & -> & Hy)%list_elem_of_fmap. destruct (bool_decide _); [done|]. by rewrite Hno.
      * exists (bind_channel (bound_contact p fc b) p now own). split.
        { apply list_elem_of_fmap. exists own. by rewrite bool_decide_eq_true_2. }
        split_and!; try done. by apply Hat.
    + split.
      * intros x [Hx|[->|[]%not_elem_of_nil]%elem_of_cons]%elem_of_app; [by rewrite Hno|done].
      * eexists. split; [by apply elem_of_app; right; apply elem_of_cons; left|]. split_and!; try done. by apply Hat.
Qed.

Lemma active_guardians_elem t b c ch : (c, ch) ∈ active_guardians t b ↔
  c ∈ contacts b ∧ ch ∈ channels b ∧ is_guardian c = true ∧ Contact.id c = Channel.contactId ch ∧
  Channel.type ch = t ∧ Channel.status ch = ch_active.
Proof.
  unfold active_guardians. rw list_elem_of_bind. setoid_rewrite list_elem_of_fmap. setoid_rewrite list_elem_of_filter. naive_solver.
Qed.

Lemma head_all {A} (P : A → Prop) (l : list A) x : x ∈ l → (∀ y, y ∈ l → P y) → ∃ y, head l = Some y ∧ P y.
Proof. intros Hx HP. destruct l as [|y l]; [by apply not_elem_of_nil in Hx|]. exists y. split; [done|]. apply HP, list_elem_of_here. Qed.

(** After a binding was written, whoever writes from that address (in any
    case of letters) is recognised as the guardian of the principal it was bound
    for. *)
Theorem bound_guardian_is_recognised p fc fch now b b' w sender :
  applyGuardianBindingGatewayWrites p fc fch now b = Some (b', w) →
  (∀ x, x ∈ channels b → at_address (channel p) (externalUserId p) x = true → ¬ settled_against p x) →
  (∀ x y, x ∈ channels b → y ∈ channels b → at_address (channel p) (externalUserId p) x = true →
     at_address (channel p) (externalUserId p) y = true → Channel.id x = Channel.id y) →
  fch ∉ Channel.id <$> channels b → NoDup (Channel.id <$> channels b) →
  channel p ≠ EmptyString → sender ≠ EmptyString → guardianPrincipalId p ≠ EmptyString →
  string_map to_lower sender = string_map to_lower (externalUserId p) →
  findGuardianForChannelActor (channel p) sender b' = Some (guardianPrincipalId p).
Proof.
  intros Happ Hset Htwins Hfresh Hids Hch Hsn Hgp Hcase.
  destruct (written_rows _ _ _ _ _ _ _ Happ Hset Htwins Hfresh Hids) as [Hall (x & Hx & Hxa & Hxs & Hxc & _ & Hxt)].
  apply binding_writes in Happ as (Hc & Hcs & _ & _). unfold findGuardianForChannelActor.
  rw !bool_decide_eq_false_2 //. cbn [orb].
  destruct (upsert_guardian (w_contactId w) (display p otherwise externalUserId p) (guardianPrincipalId p) now (contacts b))
    as (c & Hcin & Hcid & Hcg). rewrite Hc -Hcs in Hcin. rewrite Hc in Hcid.
  assert (nocase (Channel.address x) sender = true) as Hxn.
  { apply andb_true_iff in Hxa as [_ Hn%bool_decide_eq_true]. unfold nocase. by rewrite Hn Hcase bool_decide_eq_true_2. }
  destruct (head_all (λ r, Contact.principalId r.1 = Some (guardianPrincipalId p))
    (filter (λ r, nocase (Channel.address r.2) sender = true) (active_guardians (channel p) b')) (c, x)) as (r & -> & Hr).
  - apply list_elem_of_filter. split; [done|]. apply active_guardians_elem. split_and!; try done. by rewrite Hcid -Hc.
  - intros [c' x'] [Hn (Hc' & Hx' & _ & Hi & Ht & _)%active_guardians_elem]%list_elem_of_filter. cbn in *.
    apply (upsert_principal (bound_contact p fc b) (display p otherwise externalUserId p) _ now (contacts b)); [by rewrite -Hcs|].
    rewrite Hi -Hc. apply Hall; [done|]. unfold at_address, nocase in *. apply bool_decide_eq_true in Hn.
    by rewrite Ht Hn Hcase !bool_decide_eq_true_2.
  - unfold principal_of. cbn [mbind option_bind]. rw Hr. cbn. by destruct (guardianPrincipalId p).
Qed.

(** ** The guardian's principal *)

Lemma recovery_attempt (recover : bool) e now g :
  match (if recover then recoverAbsentVellumGuardianFromActorTokens e now g else Some (g, None)) with
  | None => True
  | Some (g1, None) => g1 = g
  | Some (_, Some q) => recover = true ∧ hasGuardianContactWithPrincipal (book g) = false ∧
      recoverGuardianPrincipalFromActorTokens (tokens g) = Some q ∧ q ≠ EmptyString
  end.
Proof.
  unfold recoverAbsentVellumGuardianFromActorTokens. destruct recover; [|done].
  destruct (hasGuardianContactWithPrincipal (book g)); [done|].
  destruct (recoverGuardianPrincipalFromActorTokens (tokens g)) as [q|]; [|done].
  destruct q as [|a q]; [done|]. cbn zeta. cbn [truthy negb]. by destruct (createGuardianBinding _ _ _ _) as [g1|].
Qed.

(** Nothing is minted next to a bound guardian, and what is minted is the drawn principal. *)
Lemma minted_unbound allow recover name e now g g' p over :
  resolveOrCreateVellumGuardian allow recover name e now g = (g', resolved p true over) →
  p = "vellum-principal-" +:+ fresh_principal e ∧ findVellumGuardian (book g) = None.
Proof.
  unfold resolveOrCreateVellumGuardian. destruct (findVellumGuardian (book g)) as [q|]; [done|].
  pose proof (recovery_attempt recover e now g) as Ha.
  destruct (if recover then _ else _) as [[g1 [q|]]|]; [done| |done]. cbn zeta.
  destruct (_ && _); [done|]. destruct (createGuardianBinding _ _ _ _); [|done]. by intros [= _ <- _].
Qed.

Lemma orphan_keeps id i m b c : Contact.role c = "guardian" → c ∈ contacts b → c ∈ contacts (deleteContactIfOrphaned id i m b).
Proof.
  intros Hr Hc. unfold deleteContactIfOrphaned. destruct (negb _); [done|]. destruct (mirror_vetoes m); [done|].
  apply list_elem_of_filter. split; [|done]. unfold orphaned. rw Hr. cbn. by rw andb_false_r.
Qed.

Lemma orphan_channels id i m b : channels (deleteContactIfOrphaned id i m b) = channels b.
Proof. unfold deleteContactIfOrphaned. by destruct (negb _); [|destruct (mirror_vetoes m)]. Qed.

Lemma orphan_contacts id i m b c : c ∈ contacts (deleteContactIfOrphaned id i m b) → c ∈ contacts b.
Proof.
  unfold deleteContactIfOrphaned. destruct (negb _); [done|]. destruct (mirror_vetoes m); [done|]. by intros [_ ?]%list_elem_of_filter.
Qed.

(** The book after a binding, up to a stub that was collected. *)
Lemma created_binding p e now g g' : createGuardianBinding p e now g = Some g' →
  ∃ b w, applyGuardianBindingGatewayWrites p (fresh_contact e) (fresh_channel e) now (book g) = Some (b, w) ∧
    channels (book g') = channels b ∧ tokens g' = tokens g ∧ cached g' = None ∧
    (∀ c, c ∈ contacts (book g') → c ∈ contacts b) ∧
    (∀ c, Contact.role c = "guardian" → c ∈ contacts b → c ∈ contacts (book g')).
Proof.
  unfold createGuardianBinding. destruct (applyGuardianBindingGatewayWrites _ _ _ _ _) as [[b w]|]; cbn [mbind option_bind]; [|done].
  intros [= <-]. exists b, w. cbn [book tokens cached]. destruct (claimedFromContactId w) as [id|]; [|done].
  destruct (bool_decide _); [done|]. split_and!; try done; [apply orphan_channels|intros c; apply orphan_contacts|intros c; apply orphan_keeps].
Qed.

Lemma binding_has_guardian p e now g g' : createGuardianBinding p e now g = Some g' →
  hasGuardianContactRow (book g') = true ∧ cached g' = None.
Proof.
  intros (b & w & Happ & _ & _ & Hn & _ & Hk)%created_binding. split; [|done].
  apply binding_writes in Happ as (_ & Hcs & _ & _).
  destruct (upsert_guardian (bound_contact p (fresh_contact e) (book g)) (display p otherwise externalUserId p)
    (guardianPrincipalId p) now (contacts (book g))) as (c & Hc & _ & Hcg).
  rewrite -Hcs in Hc. apply existsb_elem. exists c. split; [|done]. apply Hk; [|done].
  by apply bool_decide_eq_true in Hcg.
Qed.

Lemma integrity_ok g now : hasGuardianContactRow (book g) = true → cached g = None → (guardianIntegrityState now g).2 = ok.
Proof. intros Hg Hn. unfold guardianIntegrityState. rw Hn. cbn. unfold computeState. by rw Hg. Qed.

(** What [createGuardianBinding] makes of the gateway, and of the answer. *)
Definition binds (p : BindingParams) (answer : resolution) (e : Draw) (now : Z) (g : Gateway) : Gateway * resolution :=
  match createGuardianBinding p e now g with
  | Some g' => (g', answer)
  | None => (g, resolution_threw)
  end.

(** The principal that is taken back from the token tables: when it is asked for,
    and no guardian has a principal. *)
Definition recoverable (recover : bool) (g : Gateway) (p : string) : Prop :=
  recover = true ∧ (∀ c, c ∈ contacts (book g) → is_guardian c = true → Contact.principalId c = None) ∧
  recoverGuardianPrincipalFromActorTokens (tokens g) = Some p ∧ p ≠ EmptyString.

(** Something is left of an earlier guardian. *)
Definition traces (g : Gateway) : Prop :=
  contacts (book g) ≠ [] ∨ actorTokenRecords (tokens g) ≠ [] ∨ actorRefreshTokenRecords (tokens g) ≠ [].

Lemma evidence_spec g : hasEvidenceOfPriorGuardian g = true ↔ traces g.
Proof.
  unfold hasEvidenceOfPriorGuardian, hasContacts, hasActorTokens, traces. rw orb_true_iff negb_true_iff bool_decide_eq_false.
  destruct (contacts (book g)), (actorTokenRecords (tokens g)), (actorRefreshTokenRecords (tokens g)); naive_solver.
Qed.

Lemma no_principal_spec b : hasGuardianContactWithPrincipal b = false ↔
  ∀ c, c ∈ contacts b → is_guardian c = true → Contact.principalId c = None.
Proof.
  unfold hasGuardianContactWithPrincipal. rw -not_true_iff_false existsb_elem. split.
  - intros Hn c Hc Hg. apply eq_None_not_Some. intros Hs. apply Hn. exists c. by rewrite Hg bool_decide_true.
  - intros Hn (c & Hc & [Hg Hs%bool_decide_eq_true]%andb_true_iff). rewrite (Hn c Hc Hg) in Hs. by destruct Hs.
Qed.

(** The attempt to recover, decided. *)
Lemma recovery_decided (recover : bool) e now g :
  (∃ p, recoverable recover g p ∧
    (if recover then recoverAbsentVellumGuardianFromActorTokens e now g else Some (g, None)) =
      (λ g', (g', Some p)) <$> createGuardianBinding (vellum_params p None false) e now g) ∨
  (∀ p, ¬ recoverable recover g p) ∧
    (if recover then recoverAbsentVellumGuardianFromActorTokens e now g else Some (g, None)) = Some (g, None).
Proof.
  unfold recoverable. destruct recover; [|right; by split; [intros p []|]].
  unfold recoverAbsentVellumGuardianFromActorTokens.
  destruct (hasGuardianContactWithPrincipal (book g)) eqn:Hg.
  { right. split; [|done]. intros p (_ & Hn%no_principal_spec & _). congruence. }
  destruct (recoverGuardianPrincipalFromActorTokens (tokens g)) as [q|]; [|right; by split; [intros p (_ & _ & ? & _)|]].
  destruct (decide (q = EmptyString)) as [->|Hq].
  { right. split; [|done]. by intros p (_ & _ & [= <-] & []). }
  left. exists q. split; [by rewrite -no_principal_spec|].
  destruct q as [|a q]; [done|]. cbn. by destruct (createGuardianBinding _ _ _ _).
Qed.

(** A binding that is written has a contact of role guardian with the principal. *)
Lemma bound_principal p e now g g' : createGuardianBinding p e now g = Some g' →
  tokens g' = tokens g ∧
  ∃ c, c ∈ contacts (book g') ∧ is_guardian c = true ∧ Contact.principalId c = Some (guardianPrincipalId p).
Proof.
  intros (b & w & Happ & _ & Ht & _ & _ & Hk)%created_binding. split; [done|].
  apply binding_writes in Happ as (_ & Hcs & _ & _).
  destruct (upsert_guardian (bound_contact p (fresh_contact e) (book g)) (display p otherwise externalUserId p)
    (guardianPrincipalId p) now (contacts (book g))) as (c & Hc & Hid & Hcg).
  exists c. split_and!; [|done|by eapply upsert_principal].
  apply Hk; [by apply bool_decide_eq_true in Hcg|by rewrite Hcs].
Qed.

Lemma vellum_guardian_contact b p : findVellumGuardian b = Some p →
  ∃ c, c ∈ contacts b ∧ is_guardian c = true ∧ Contact.principalId c = Some p.
Proof.
  unfold findVellumGuardian. destruct (first_by _ _) as [[c ch]|] eqn:Hf; [|done].
  apply first_by_elem, active_guardians_elem in Hf as (Hc & _ & Hg & _).
  unfold principal_of. cbn [mbind option_bind fst]. destruct (truthy _); [|done]. intros Hp. by exists c.
Qed.

(** C29 — How the guardian's principal is resolved, decided in every case.  The
    binding that is there is answered, and nothing is written.  Without one, when
    recovery is asked for, no guardian contact has a principal and the active
    tokens name one, that principal is bound again.  Otherwise, when a contact or
    a token row is left of an earlier guardian and the operator has not allowed
    it, the answer is a refusal and no table is written; and else the fresh
    principal is bound, marked when it was minted over such traces.  An error is
    thrown only where the binding cannot be written, and then nothing has changed.
    Whoever is resolved has a guardian contact, and no token row is touched. *)
Theorem guardian_resolution_is_guarded allow recover name e now g :
  let '(g', r) := resolveOrCreateVellumGuardian allow recover name e now g in
  let fresh := "vellum-principal-" +:+ fresh_principal e in
  let mint := vellum_params fresh (if truthy name then name else None) true in
  (∀ p, findVellumGuardian (book g) = Some p → r = resolved p false false ∧ g' = g) ∧
  (findVellumGuardian (book g) = None →
    (∀ p, recoverable recover g p → (g', r) = binds (vellum_params p None false) (resolved p false false) e now g) ∧
    ((∀ p, ¬ recoverable recover g p) →
      (traces g → allow = false → r = refused ∧ book g' = book g ∧ tokens g' = tokens g) ∧
      (traces g → allow = true → (g', r) = binds mint (resolved fresh true true) e now g) ∧
      (¬ traces g → (g', r) = binds mint (resolved fresh true false) e now g))) ∧
  (∀ p new over, r = resolved p new over → tokens g' = tokens g ∧
    ∃ c, c ∈ contacts (book g') ∧ is_guardian c = true ∧ Contact.principalId c = Some p).
Proof.
  unfold resolveOrCreateVellumGuardian. destruct (findVellumGuardian (book g)) as [q|] eqn:Hf.
  { split_and!; [by intros p [= ->]|done|]. intros p new over [= <- _ _]. split; [done|by apply vellum_guardian_contact]. }
  cbn zeta. destruct (recovery_decided recover e now g) as [(q & Hq & ->)|[Hno ->]].
  - assert (∀ p, recoverable recover g p → p = q) as Huniq.
    { intros p (_ & _ & Hp & _). destruct Hq as (_ & _ & Hq & _). congruence. }
    assert (¬ ∀ p, ¬ recoverable recover g p) as Hsome by (intros Hn; by apply (Hn q)).
    unfold binds. destruct (createGuardianBinding (vellum_params q None false) e now g) as [g1|] eqn:Hc; cbn;
      (split_and!; [done|intros _; split; [intros p ->%Huniq; by rw Hc|done]|intros p new over; try done]).
    intros [= <- _ _]. by apply bound_principal in Hc.
  - set (mint := vellum_params _ _ true).
    destruct (hasEvidenceOfPriorGuardian g) eqn:He; [apply evidence_spec in He|rewrite -not_true_iff_false evidence_spec in He]; cbn [andb].
    + destruct allow; cbn [negb].
      * unfold binds. destruct (createGuardianBinding mint e now g) as [g1|] eqn:Hc;
          (split_and!; [done|intros _; split; [by intros p ?%Hno|done]|intros p new over; try done]).
        intros [= <- _ _]. by apply bound_principal in Hc.
      * assert (book (guardianIntegrityState now g).1 = book g ∧ tokens (guardianIntegrityState now g).1 = tokens g) as [Hb Ht].
        { unfold guardianIntegrityState. destruct (cached g) as [[s t]|]; [destruct (_ <? _)|]; done. }
        split_and!; [done|intros _; split; [by intros p ?%Hno|done]|done].
    + unfold binds. destruct (createGuardianBinding mint e now g) as [g1|] eqn:Hc;
        (split_and!; [done|intros _; split; [by intros p ?%Hno|done]|intros p new over; try done]).
      intros [= <- _ _]. by apply bound_principal in Hc.
Qed.

(** Right after any binding the integrity check finds a guardian, whatever it
    found, and cached, before. *)
Theorem binding_restores_integrity p e now g g' later : createGuardianBinding p e now g = Some g' →
  (guardianIntegrityState later g').2 = ok ∧
  ∀ later', (guardianIntegrityState later' (guardianIntegrityState later g').1).2 = ok.
Proof.
  intros [Hg Hn]%binding_has_guardian. split; [by apply integrity_ok|]. intros later'.
  unfold guardianIntegrityState. rw Hn. cbn [fst snd cached]. unfold computeState. rw Hg. by destruct (_ <? _).
Qed.

Lemma first_by_min {A} (le : A → A → bool) l x :
  (∀ a b, le a b = true ∨ le b a = true) → (∀ a b c, le a b = true → le b c = true → le a c = true) →
  first_by le l = Some x → ∀ y, y ∈ l → le x y = true.
Proof.
  intros Htot Htr. assert (∀ a, le a a = true) as Hrefl by (intros a; by destruct (Htot a a)). unfold first_by.
  revert x. induction l as [|a l IH]; intros x Hx y Hy; [by apply not_elem_of_nil in Hy|].
  cbn [stable_sort foldr] in Hx. fold (stable_sort le l) in Hx. pose proof (stable_sort_perm le l) as Hp.
  destruct (stable_sort le l) as [|h s]; cbn in Hx.
  { injection Hx as <-. apply Permutation_nil in Hp as ->. apply elem_of_cons in Hy as [->|[]%not_elem_of_nil]. done. }
  specialize (IH h eq_refl). destruct (le a h) eqn:Hah; injection Hx as <-.
  - apply elem_of_cons in Hy as [->|Hy]; [done|]. by apply (Htr a h y), IH.
  - apply elem_of_cons in Hy as [->|Hy]; [|by apply IH]. destruct (Htot a h) as [|]; [congruence|done].
Qed.

Lemma write_origin p ct id now l l' y : write_channel p ct id now l = Some l' → y ∈ l' →
  y ∈ l ∨ Channel.contactId y = ct ∧ Channel.verifiedAt y = Some now.
Proof.
  unfold write_channel. destruct (head _) as [ex|].
  - destruct (is_protected _ _); [intros [= <-]; by left|]. destruct (address_taken _ _ _ _); [done|]. intros [= <-].
    intros (x & -> & Hx)%list_elem_of_fmap. destruct (bool_decide _); [by right|by left].
  - destruct (existsb _ _); intros [= <-].
    + intros (x & -> & Hx)%list_elem_of_fmap. destruct (bool_decide _); [by right|by left].
    + intros [Hx|[->|[]%not_elem_of_nil]%elem_of_cons]%elem_of_app; [by left|by right].
Qed.

Lemma nothing_recovered (recover : bool) e now g g1 :
  (if recover then recoverAbsentVellumGuardianFromActorTokens e now g else Some (g, None)) = Some (g1, None) → g1 = g.
Proof.
  destruct recover; [|by intros [= <-]]. unfold recoverAbsentVellumGuardianFromActorTokens.
  destruct (hasGuardianContactWithPrincipal _); [by intros [= <-]|].
  destruct (negb _); [by intros [= <-]|]. by destruct (createGuardianBinding _ _ _ _).
Qed.

Lemma minted_by_binding allow recover name e now g g' p over :
  resolveOrCreateVellumGuardian allow recover name e now g = (g', resolved p true over) →
  ∃ n, createGuardianBinding (vellum_params p n true) e now g = Some g'.
Proof.
  unfold resolveOrCreateVellumGuardian. destruct (findVellumGuardian (book g)); [done|].
  destruct (if recover then _ else _) as [[g1 [q|]]|] eqn:Ha; [done| |done].
  apply nothing_recovered in Ha as ->.
  cbn zeta. destruct (_ && _); [done|]. set (n := if truthy name then name else None).
  destruct (createGuardianBinding _ e now g) as [g2|] eqn:Hc; [|done].
  intros [= <- <- _]. by exists n.
Qed.

(** A principal that is minted is the principal from then on: every later
    resolution, whatever it is asked to do, gives it and changes nothing. *)
Theorem minted_guardian_is_kept allow recover name e now g g' p over :
  resolveOrCreateVellumGuardian allow recover name e now g = (g', resolved p true over) →
  (∀ ch, ch ∈ channels (book g) → at_address "vellum" p ch = false) →
  (∀ ch t, ch ∈ channels (book g) → Channel.verifiedAt ch = Some t → t < now) →
  fresh_channel e ∉ Channel.id <$> channels (book g) → NoDup (Channel.id <$> channels (book g)) →
  ∀ allow' recover' name' e' now',
    resolveOrCreateVellumGuardian allow' recover' name' e' now' g' = (g', resolved p false false).
Proof.
  intros Hr Hno Hold Hfresh Hids allow' recover' name' e' now'.
  assert (findVellumGuardian (book g') = Some p) as Hf; [|unfold resolveOrCreateVellumGuardian; by rw Hf].
  pose proof (minted_unbound _ _ _ _ _ _ _ _ _ Hr) as [Hp Hnone].
  destruct (minted_by_binding _ _ _ _ _ _ _ _ _ Hr) as [n Hc].
  destruct (created_binding _ _ _ _ _ Hc) as (b & w & Happ & Hch & _ & _ & Hsub & Hkeep).
  destruct (written_rows _ _ _ _ _ _ _ Happ) as [Hall (x & Hx & Hxa & Hxs & Hxc & Hxv & Hxt)]; try done.
  { intros x Hx Hxa. cbn in Hxa. by rewrite Hno in Hxa. }
  { intros x y Hx _ Hxa. cbn in Hxa. by rewrite Hno in Hxa. }
  pose proof (binding_writes _ _ _ _ _ _ _ Happ) as (Hcid & Hcs & Hw & _).
  destruct (upsert_guardian (bound_contact (vellum_params p n true) (fresh_contact e) (book g))
    (n otherwise p) p now (contacts (book g))) as (c & Hc1 & Hc2 & Hc3).
  assert (Contact.role c = "guardian") as Hrole by by apply bool_decide_eq_true in Hc3.
  assert ((c, x) ∈ active_guardians "vellum" (book g')) as Hin.
  { apply active_guardians_elem. rw Hch. split_and!; try done; [apply Hkeep; [done|]; by rewrite Hcs|by rewrite Hc2 Hxc Hcid]. }
  unfold findVellumGuardian. destruct (first_by _ _) as [[c' y]|] eqn:Hfirst.
  2: { apply first_by_None in Hfirst. rewrite Hfirst in Hin. by apply not_elem_of_nil in Hin. }
  pose proof (first_by_elem _ _ _ Hfirst) as (Hc' & Hy & _ & Hi & Hyt & Hys)%active_guardians_elem. rewrite Hch in Hy.
  assert (newer (Channel.verifiedAt y) (Channel.verifiedAt x) = true) as Hmin.
  { apply (first_by_min _ _ _) with (y := (c, x)) in Hfirst; [done|..|done].
    - intros [? u] [? v]. cbn. unfold newer. destruct (Channel.verifiedAt u), (Channel.verifiedAt v); auto. zbool.
    - intros [? u] [? v] [? z]. cbn. unfold newer. destruct (Channel.verifiedAt u), (Channel.verifiedAt v), (Channel.verifiedAt z); try done. zbool. }
  rewrite Hxv in Hmin. destruct (write_origin _ _ _ _ _ _ _ Hw Hy) as [Hyo|[Hyc _]].
  - exfalso. destruct (Channel.verifiedAt y) as [t|] eqn:Ht; [|done]. specialize (Hold y t Hyo Ht). cbn in Hmin. lia.
  - unfold principal_of. cbn [mbind option_bind]. cbn [fst].
    assert (Contact.principalId c' = Some p) as ->.
    { apply (upsert_principal (bound_contact (vellum_params p n true) (fresh_contact e) (book g)) (n otherwise p) p now (contacts (book g)));
        [rewrite -Hcs; by apply Hsub|by rewrite Hi]. }
    cbn. by destruct p.
Qed.

Lemma vellum_guardian_has_row b p : findVellumGuardian b = Some p → hasGuardianContactRow b = true.
Proof.
  unfold findVellumGuardian. destruct (first_by _ _) as [[c ch]|] eqn:Hf; [|done]. intros _.
  apply first_by_elem, active_guardians_elem in Hf as (Hc & _ & Hg & _). apply existsb_elem. by exists c.
Qed.

Lemma guardian_resolved_usable allow recover name e now g : cached g = None →
  let '(g', r) := resolveOrCreateVellumGuardian allow recover name e now g in
  match r with resolved _ _ _ => hasGuardianContactRow (book g') = true ∧ cached g' = None ∧ tokens g' = tokens g | _ => True end.
Proof.
  intros Hn. unfold resolveOrCreateVellumGuardian.
  destruct (findVellumGuardian (book g)) as [q|] eqn:Hf; [by apply vellum_guardian_has_row in Hf|].
  assert (∀ p g', createGuardianBinding p e now g = Some g' →
    hasGuardianContactRow (book g') = true ∧ cached g' = None ∧ tokens g' = tokens g) as Hc.
  { intros p g' Hc. destruct (binding_has_guardian _ _ _ _ _ Hc). by destruct (created_binding _ _ _ _ _ Hc) as (b & w & _ & _ & ? & _). }
  destruct (if recover then _ else _) as [[g1 [q|]]|] eqn:Ha; [| |done].
  - destruct recover; [|done]. unfold recoverAbsentVellumGuardianFromActorTokens in Ha.
    destruct (hasGuardianContactWithPrincipal _); [done|]. destruct (negb _); [done|]. cbn zeta in Ha.
    destruct (createGuardianBinding _ _ _ _) as [g2|] eqn:Hg; [|done]. injection Ha as <- _. by eapply Hc.
  - apply nothing_recovered in Ha as ->. cbn zeta. destruct (_ && _); [done|]. destruct (createGuardianBinding _ e now g) as [g2|] eqn:Hg; [by eapply Hc|done].
Qed.

(** ** The two components together *)
Section together.
Context (hashToken hmac decode : string → string).
Context (claims_text : TokenClaims → string) (parse_claims : string → option TokenClaims).
Context (externalAssistantId : string).

(** C12 — What the guardian's bootstrap leaves is consistent. In the state right after it
    (the integrity cache empty before, the tables as their indices keep them, nothing done
    in between, row ids and the refresh text new), the device that was set up exchanges
    its refresh token, at any time within ninety days, for credentials of the same
    principal: the binding that the bootstrap left passes the integrity check, and its
    rows are the ones the rotation finds. *)
Theorem bootstrapped_device_can_refresh platform deviceId reportedName hostName ownerName e n now g g' principal p isNew over
    now' n' :
  bootstrapGuardian hashToken hmac claims_text externalAssistantId platform deviceId reportedName hostName ownerName e n now g
    = (g', Some (principal, p, isNew, over)) →
  cached g = None → unique (tokens g) → findRefreshByHash (hashToken (refreshText n)) (tokens g) = None →
  now' ≤ now + REFRESH_INACTIVITY_TTL_MS → new_ids n' (tokens g') →
  ∃ d'' res,
    rotateCredentials hashToken hmac claims_text externalAssistantId (refreshToken p) (hashDeviceId hashToken deviceId)
      (Some (guardianIntegrityState now' g').2) now' n' (tokens g') = (d'', done res) ∧ rotatedFor res = principal.
Proof.
  unfold bootstrapGuardian. intros Hb Hcache Hu Hnone Hnow Hids.
  pose proof (guardian_resolved_usable true false ownerName e now g Hcache) as Hr.
  destruct (resolveOrCreateVellumGuardian true false ownerName e now g) as [g1 [q new ov| |]]; [|done..].
  destruct Hr as (Hrow & Hc1 & Ht1).
  destruct (mintAndRecordDeviceBoundTokenPair _ _ _ _ _ _ _ _ _ _ _) as [d [pr|]] eqn:Hm; [|done].
  cbn in Hb. injection Hb as <- <- <- <- <-. cbn [tokens] in *. rewrite Ht1 in Hm.
  apply (pairing_can_be_refreshed hashToken hmac decode claims_text parse_claims externalAssistantId _ _ _ _ _ _ _ _ _ _ _ _ Hu Hnone Hm);
    [done| |done]. rw integrity_ok //.
Qed.
End together.

(** ** Samples *)

Definition sample_draw (n : nat) : Draw :=
  {| fresh_contact := "c" +:+ pretty n; fresh_channel := "h" +:+ pretty n; fresh_principal := "u" +:+ pretty n;
     invited := false; mirror := no_socket |}.

Definition empty_gateway : Gateway := {| book := Contacts [] []; tokens := no_rows; cached := None |}.

Definition telegram (address principal : string) (reactivate : bool) : BindingParams :=
  {| channel := "telegram"; externalUserId := address; deliveryChatId := address; guardianPrincipalId := principal;
     display := None; via := None; reactivateRevoked := reactivate |}.

Definition with_status (s : ChannelStatus) (ch : Channel.Row) : Channel.Row :=
  Channel.Mk (Channel.id ch) (Channel.contactId ch) (Channel.type ch) (Channel.address ch) (Channel.isPrimary ch)
    (Channel.externalChatId ch) s (Channel.policy ch) (Channel.verifiedAt ch) (Channel.verifiedVia ch) (Channel.inviteId ch)
    (Channel.revokedReason ch) (Channel.blockedReason ch) (Channel.lastSeenAt ch) (Channel.interactionCount ch)
    (Channel.lastInteraction ch) (Channel.createdAt ch) (Channel.updatedAt ch).

(** A guardian with a blocked telegram channel. *)
Definition blocked_book : Book :=
  let g := (resolveOrCreateVellumGuardian false false None (sample_draw 1) 0 empty_gateway).1 in
  match createGuardianBinding (telegram "Alice" "vellum-principal-u1" true) (sample_draw 2) 10 g with
  | Some g =>
      Contacts (contacts (book g))
        (update_where (λ ch, bool_decide (Channel.type ch = "telegram")) (with_status ch_blocked) (channels (book g)))
  | None => Contacts [] []
  end.

Definition blocked_row : option Channel.Row := head (filter (λ ch, Channel.type ch = "telegram") (channels blocked_book)).

(** Decides a membership or its absence in concrete lists. *)
Local Ltac decided := eapply bool_decide_eq_true_1; vm_compute; reflexivity.

Lemma governed_channels_stay_witness : ∃ ch b' w, blocked_row = Some ch ∧
  applyGuardianBindingGatewayWrites (telegram "alice" "someone" true) "c9" "h9" 20 blocked_book = Some (b', w) ∧
  (ch ∈ channels b' ∨
   (existing_guardian "someone" blocked_book = Some (Channel.contactId ch) ∧ Channel.type ch = "telegram" ∧
    ∀ x, x ∈ channels blocked_book → at_address "telegram" "alice" x = false)).
Proof.
  let r := eval vm_compute in blocked_row in
  let o := eval vm_compute in (applyGuardianBindingGatewayWrites (telegram "alice" "someone" true) "c9" "h9" 20 blocked_book) in
  lazymatch r with Some ?ch => lazymatch o with Some (?b', ?w) =>
    exists ch, b', w; split; [by vm_compute|]; split; [by vm_compute|];
    apply (governed_channels_stay (telegram "alice" "someone" true) "c9" "h9" 20 blocked_book b' w ch)
  end end.
  - by vm_compute.
  - vm_compute. repeat constructor; set_solver.
  - vm_compute. set_solver.
  - vm_compute. set_solver.
  - by left.
Defined.

Lemma new_address_takes_a_blocked_row_witness : ∃ own b' w, blocked_row = Some own ∧
  applyGuardianBindingGatewayWrites (telegram "Bob" "vellum-principal-u1" true) "c9" "h9" 20 blocked_book = Some (b', w) ∧
  own ∉ channels b'.
Proof.
  let r := eval vm_compute in blocked_row in
  lazymatch r with Some ?own =>
    destruct (new_address_takes_a_blocked_row (telegram "Bob" "vellum-principal-u1" true) "c9" "h9" 20 blocked_book own)
      as (b' & w & H1 & _ & H2);
    [by vm_compute|by vm_compute|done| |exists own, b', w; split; [by vm_compute|by split]]
  end.
  intros x Hx. vm_compute in Hx. repeat (apply elem_of_cons in Hx as [->|Hx]; [by vm_compute|]). by apply not_elem_of_nil in Hx.
Defined.

Lemma bound_guardian_is_recognised_witness :
  ∃ b w, applyGuardianBindingGatewayWrites (telegram "Alice" "p" false) "c1" "h1" 0 (Contacts [] []) = Some (b, w) ∧
    findGuardianForChannelActor "telegram" "ALICE" b = Some "p".
Proof.
  let o := eval vm_compute in (applyGuardianBindingGatewayWrites (telegram "Alice" "p" false) "c1" "h1" 0 (Contacts [] [])) in
  lazymatch o with Some (?b, ?w) => exists b, w; split; [by vm_compute|];
    apply (bound_guardian_is_recognised (telegram "Alice" "p" false) "c1" "h1" 0 (Contacts [] []) b w "ALICE") end; try done.
  - by intros ? ?%not_elem_of_nil.
  - by intros ? ? ?%not_elem_of_nil.
  - apply not_elem_of_nil.
  - apply NoDup_nil_2.
Defined.

Lemma binding_restores_integrity_witness :
  ∃ g', createGuardianBinding (telegram "Alice" "p" false) (sample_draw 1) 0
          {| book := Contacts [] []; tokens := no_rows; cached := Some (missing_guardian, 0) |} = Some g' ∧
    (guardianIntegrityState 1 g').2 = ok.
Proof.
  let o := eval vm_compute in (createGuardianBinding (telegram "Alice" "p" false) (sample_draw 1) 0
          {| book := Contacts [] []; tokens := no_rows; cached := Some (missing_guardian, 0) |}) in
  lazymatch o with Some ?g' => exists g'; split; [by vm_compute|];
    apply (binding_restores_integrity (telegram "Alice" "p" false) (sample_draw 1) 0
          {| book := Contacts [] []; tokens := no_rows; cached := Some (missing_guardian, 0) |} g' 1) end.
  by vm_compute.
Defined.

Lemma minted_guardian_is_kept_witness :
  let g' := (resolveOrCreateVellumGuardian false true None (sample_draw 1) 0 empty_gateway).1 in
  resolveOrCreateVellumGuardian true true (Some "Ann") (sample_draw 2) 50 g' = (g', resolved "vellum-principal-u1" false false).
Proof.
  apply (minted_guardian_is_kept false true None (sample_draw 1) 0 empty_gateway _ "vellum-principal-u1" false).
  - by vm_compute.
  - by intros ? ?%not_elem_of_nil.
  - by intros ? ? ?%not_elem_of_nil.
  - apply not_elem_of_nil.
  - apply NoDup_nil_2.
Defined.

Lemma bootstrapped_device_can_refresh_witness :
  let g' := (bootstrapGuardian plain_hash sample_hmac actor_text "self" "macos" "dev" None (Some "host") None (sample_draw 1)
               (sample_entropy 1) 0 empty_gateway).1 in
  ∃ d'' res, rotateCredentials plain_hash sample_hmac actor_text "self" "R1" (hashDeviceId plain_hash "dev")
      (Some (guardianIntegrityState (60 * day) g').2) (60 * day) (sample_entropy 2) (tokens g') = (d'', done res) ∧
    rotatedFor res = "vellum-principal-u1".
Proof.
  let o := eval vm_compute in (bootstrapGuardian plain_hash sample_hmac actor_text "self" "macos" "dev" None (Some "host") None
    (sample_draw 1) (sample_entropy 1) 0 empty_gateway) in
  lazymatch o with (?g', Some (?q, ?p, ?new, ?over)) =>
    apply (bootstrapped_device_can_refresh plain_hash sample_hmac Base64.decode actor_text actor_parse "self" "macos" "dev" None
      (Some "host") None (sample_draw 1) (sample_entropy 1) 0 empty_gateway g' q p new over (60 * day) (sample_entropy 2))
  end.
  - vm_compute. reflexivity.
  - done.
  - split; apply NoDup_nil_2.
  - done.
  - by vm_compute.
  - split; decided.
Defined.
