(* ===== verification/Identity.v ===== *)
(** * The identity of an inbound sender

    [gateway/src/verification/identity.ts] and its mirror in the daemon,
    [assistant/src/util/canonicalize-identity.ts] and [phone.ts]: the one spelling a
    raw sender id is looked up by; and [gateway/src/channels/plugin-inbound.ts]:
    the ids of plugins, prefixed with the plugin's name. *)

From S2P Require Import Prelude JsText.
Local Open Scope string_scope.
Local Open Scope litt_scope.

(** ** Phone numbers *)

(** [s.replace(/\(0\)/g, "")] *)
Fixpoint drop_trunk_zero (s : string) : string :=
  match s with
  | String a r =>
      match r with
      | String b (String c t) =>
          if bool_decide (a = "("%char ∧ b = "0"%char ∧ c = ")"%char) then drop_trunk_zero t
          else String a (drop_trunk_zero r)
      | _ => s
      end
  | EmptyString => EmptyString
  end.

Definition is_formatting (a : ascii) : bool :=
  is_space a || bool_decide (a = "-"%char) || bool_decide (a = "("%char) || bool_decide (a = ")"%char) ||
  bool_decide (a = "."%char).

(** [/^\d{10,15}$/] *)
Definition e164_digits (s : string) : bool :=
  all_chars is_digit s && (10 <=? String.length s)%nat && (String.length s <=? 15)%nat.

Definition normalizePhoneNumber (input : string) : option string :=
  let stripped := string_filter (λ a, negb (is_formatting a)) (drop_trunk_zero input) in
  match stripped with
  | EmptyString => None
  | String a digits =>
      if bool_decide (a = "+"%char) then if e164_digits digits then Some stripped else None
      else if negb (all_chars is_digit stripped) then None
      else if (String.length stripped =? 10)%nat then Some ("+1" +:+ stripped)
      else if (String.length stripped =? 11)%nat && bool_decide (a = "1"%char) then Some ("+" +:+ stripped)
      else None
  end.

(** ** The canonical spelling *)

Definition PHONE_CHANNELS : list string := ["phone"; "whatsapp"].
Definition EMAIL_CHANNELS : list string := ["email"].

Inductive IdentityKind := phone | email | opaque.

Definition identityKindFor (channel : string) : IdentityKind :=
  if bool_decide (channel ∈ PHONE_CHANNELS) then phone
  else if bool_decide (channel ∈ EMAIL_CHANNELS) then email
  else opaque.

Definition canonicalizeIdentityAs (kind : IdentityKind) (rawId : string) : option string :=
  let trimmed := js_trim rawId in
  if bool_decide (trimmed = EmptyString) then None
  else Some match kind with
            | phone => normalizePhoneNumber trimmed otherwise trimmed
            | email => string_map to_lower trimmed
            | opaque => trimmed
            end.

Definition canonicalizeInboundIdentity (channel rawId : string) : option string :=
  canonicalizeIdentityAs (identityKindFor channel) rawId.

Definition canonicalSenderIdFor (channel : string) (actorExternalId : option string) : option string :=
  let trimmed := js_trim <$> actorExternalId in
  if truthy trimmed then canonicalizeInboundIdentity channel (trimmed otherwise EmptyString) else None.

(** The daemon's own copy. *)
Definition daemon_canonicalizeInboundIdentity (channel rawId : string) : option string :=
  let trimmed := js_trim rawId in
  if bool_decide (trimmed = EmptyString) then None
  else if bool_decide (channel ∈ PHONE_CHANNELS) then Some (normalizePhoneNumber trimmed otherwise trimmed)
  else if bool_decide (channel ∈ EMAIL_CHANNELS) then Some (string_map to_lower trimmed)
  else Some trimmed.

(** ** Plugins *)

Definition pluginScopedId (plugin value : string) : string := plugin +:+ ":" +:+ value.

Definition unscopedPluginId (plugin scoped : string) : string :=
  let prefix := plugin +:+ ":" in
  if starts_with prefix scoped then String.substring (String.length prefix) (String.length scoped) scoped else scoped.

Record Member := MemberKey { type : string; address : string }.

Definition pluginMemberIdentity (sourceChannel actorExternalId : string) : Member :=
  let plain := MemberKey sourceChannel actorExternalId in
  if bool_decide (sourceChannel ≠ "plugin") then plain
  else match after_char ":" actorExternalId with
       | None => plain
       | Some address =>
           let type := before_char ":" actorExternalId in
           if bool_decide (type = EmptyString) || bool_decide (address = EmptyString) then plain
           else MemberKey type address
       end.

(** ** Trimming *)

Lemma trim_start_idem s : trim_start (trim_start s) = trim_start s.
Proof. induction s as [|a s IH]; [done|]. cbn [trim_start]. destruct (is_space a) eqn:Ha; [done|]. cbn [trim_start]. by rewrite Ha. Qed.

Lemma trim_end_idem s : trim_end (trim_end s) = trim_end s.
Proof.
  induction s as [|a s IH]; [done|]. cbn [trim_end]. destruct (trim_end s) as [|b t] eqn:Hs.
  - destruct (is_space a) eqn:Ha; [done|]. cbn. by rewrite Ha.
  - change (trim_end (String a (String b t))) with
      (match trim_end (String b t) with EmptyString => if is_space a then EmptyString else String a EmptyString | t' => String a t' end).
    by rewrite IH.
Qed.

(** What starts with a solid character still does when its end is trimmed. *)
Lemma trim_start_end s : trim_start s = s → trim_start (trim_end s) = trim_end s.
Proof.
  destruct s as [|a s]; [done|]. intros Hs. assert (is_space a = false) as Ha.
  { destruct (is_space a) eqn:Ha; [|done]. cbn in Hs. rewrite Ha in Hs. exfalso.
    assert (∀ t, (String.length (trim_start t) ≤ String.length t)%nat) as Hlen.
    { intros t. induction t as [|b t IH]; [done|]. cbn. destruct (is_space b); cbn; lia. }
    specialize (Hlen s). rewrite Hs in Hlen. cbn in Hlen. lia. }
  cbn [trim_end]. rewrite Ha. destruct (trim_end s); cbn; by rewrite Ha.
Qed.

Lemma js_trim_idem s : js_trim (js_trim s) = js_trim s.
Proof. unfold js_trim. rewrite (trim_start_end (trim_start s)) ?trim_start_idem //. apply trim_end_idem. Qed.

Lemma is_space_lower a : is_space (to_lower a) = is_space a.
Proof. by destruct a as [[] [] [] [] [] [] [] []]. Qed.

Lemma to_lower_idem a : to_lower (to_lower a) = to_lower a.
Proof. by destruct a as [[] [] [] [] [] [] [] []]. Qed.

Lemma js_trim_lower s : js_trim (string_map to_lower s) = string_map to_lower (js_trim s).
Proof.
  unfold js_trim. assert (∀ t, trim_start (string_map to_lower t) = string_map to_lower (trim_start t)) as ->.
  { intros t. induction t as [|a t IH]; [done|]. cbn. rewrite is_space_lower. by destruct (is_space a). }
  induction (trim_start s) as [|a t IH]; [done|]. cbn. rewrite IH. destruct (trim_end t); cbn; [|done].
  rewrite is_space_lower. by destruct (is_space a).
Qed.

Lemma lower_idem s : string_map to_lower (string_map to_lower s) = string_map to_lower s.
Proof. induction s as [|a s IH]; [done|]. cbn. by rewrite to_lower_idem IH. Qed.

Lemma js_trim_solid s : all_chars (λ a, negb (is_space a)) s = true → js_trim s = s.
Proof.
  intros Hs. unfold js_trim. assert (trim_start s = s) as ->.
  { destruct s as [|a s]; [done|]. rewrite all_chars_cons in Hs. apply andb_true_iff in Hs as [Ha _]. cbn.
    by apply negb_true_iff in Ha as ->. }
  induction s as [|a s IH]; [done|]. rewrite all_chars_cons in Hs. apply andb_true_iff in Hs as [Ha Hs]. cbn.
  rewrite IH //. destruct s; [|done]. by apply negb_true_iff in Ha as ->.
Qed.

(** ** Numbers in E.164 *)

(** A plus and ten to fifteen digits. *)
Definition e164 (s : string) : Prop := ∃ d, s = String "+" d ∧ e164_digits d = true.

(** Digits and the plus are no formatting. *)
Definition dialled (a : ascii) : bool := is_digit a || bool_decide (a = "+"%char).

Lemma dialled_solid a : dialled a = true → is_formatting a = false.
Proof. by destruct a as [[] [] [] [] [] [] [] []]. Qed.

Lemma drop_trunk_solid s : all_chars dialled s = true → drop_trunk_zero s = s.
Proof.
  induction s as [|a s IH]; [done|]. rewrite all_chars_cons andb_true_iff. intros [Ha Hs]. specialize (IH Hs).
  destruct s as [|b [|c t]]; try done. remember (String b (String c t)) as r eqn:Hr.
  assert (drop_trunk_zero (String a r) = String a (drop_trunk_zero r)) as ->; [|by rewrite IH].
  subst r. cbn [drop_trunk_zero]. rewrite bool_decide_eq_false_2; [done|by intros (-> & _)].
Qed.

Lemma filter_solid s : all_chars dialled s = true → string_filter (λ a, negb (is_formatting a)) s = s.
Proof.
  induction s as [|a s IH]; [done|]. rewrite all_chars_cons andb_true_iff. intros [Ha Hs]. cbn.
  by rewrite (dialled_solid a Ha) IH.
Qed.

Lemma e164_dialled s : e164 s → all_chars dialled s = true.
Proof.
  intros (d & -> & Hd). rewrite all_chars_cons. cbn [dialled]. apply (all_chars_impl is_digit).
  - intros a Ha. unfold dialled. by rewrite Ha.
  - unfold e164_digits in Hd. by apply andb_true_iff in Hd as [[? _]%andb_true_iff _].
Qed.

Lemma e164_normal s : e164 s → normalizePhoneNumber s = Some s ∧ js_trim s = s.
Proof.
  intros Hs. pose proof (e164_dialled s Hs) as Hd. split.
  - unfold normalizePhoneNumber. rewrite drop_trunk_solid // filter_solid //. destruct Hs as (d & -> & He). by rewrite /= He.
  - apply js_trim_solid. revert Hd. apply all_chars_impl. intros a Ha%dialled_solid. unfold is_formatting in Ha.
    by destruct (is_space a).
Qed.

Lemma normalized_e164 input s : normalizePhoneNumber input = Some s → e164 s.
Proof.
  unfold normalizePhoneNumber. destruct (string_filter _ _) as [|a d]; [done|]. cbn zeta. case_bool_decide as Ha.
  { subst a. destruct (e164_digits d) eqn:Hd; [|done]. intros [= <-]. by exists d. }
  destruct (all_chars is_digit (String a d)) eqn:Hd; [|done]. cbn [negb].
  destruct (_ =? 10)%nat eqn:H10.
  { intros [= <-]. apply Nat.eqb_eq in H10. exists (String "1" (String a d)). split; [done|]. unfold e164_digits.
    rewrite all_chars_cons Hd. cbn [String.length] in *. rewrite H10. done. }
  destruct (_ && _) eqn:H11; [|done]. intros [= <-]. apply andb_true_iff in H11 as [H11%Nat.eqb_eq _].
  exists (String a d). split; [done|]. unfold e164_digits. by rewrite Hd H11.
Qed.

(** The canonical spelling of a sender is a fixed point: canonicalising it again,
    under the same kind of channel, changes nothing; and a phone channel's spelling
    that a number was read from is a plus and ten to fifteen digits. *)
Theorem canonical_identities_are_stable channel raw x :
  canonicalizeInboundIdentity channel raw = Some x →
  x ≠ EmptyString ∧ canonicalizeInboundIdentity channel x = Some x ∧
  (channel ∈ PHONE_CHANNELS → x = js_trim raw ∨ e164 x).
Proof.
  unfold canonicalizeInboundIdentity, canonicalizeIdentityAs. case_bool_decide as Ht; [done|]. intros [= <-].
  unfold identityKindFor. case_bool_decide as Hp; [|case_bool_decide as He].
  - destruct (normalizePhoneNumber (js_trim raw)) as [s|] eqn:Hn.
    + apply normalized_e164 in Hn as Hs. destruct (e164_normal s Hs) as [Hs1 Hs2]. rewrite Hs2 Hs1.
      assert (s ≠ EmptyString) as Hne by by destruct Hs as (d & -> & _).
      rewrite bool_decide_eq_false_2 //. split_and!; [done|done|by right].
    + rewrite js_trim_idem Hn bool_decide_eq_false_2 //. split_and!; [done|done|by left].
  - rewrite js_trim_lower js_trim_idem lower_idem. assert (string_map to_lower (js_trim raw) ≠ EmptyString) as Hne.
    { by destruct (js_trim raw). }
    rewrite bool_decide_eq_false_2 //.
  - rewrite js_trim_idem bool_decide_eq_false_2 //.
Qed.

Lemma canonical_sender channel actor x : canonicalSenderIdFor channel actor = Some x → x ≠ EmptyString.
Proof.
  unfold canonicalSenderIdFor. destruct (truthy _); [|done]. unfold canonicalizeInboundIdentity, canonicalizeIdentityAs.
  case_bool_decide as Ht; [done|]. intros [= <-]. destruct (identityKindFor channel); [|by destruct (js_trim _)|done].
  destruct (normalizePhoneNumber _) as [s|] eqn:Hn; [|done]. by apply normalized_e164 in Hn as (d & -> & _).
Qed.

(** The two copies give one spelling. *)
Lemma copies_agree channel raw : daemon_canonicalizeInboundIdentity channel raw = canonicalizeInboundIdentity channel raw.
Proof.
  unfold daemon_canonicalizeInboundIdentity, canonicalizeInboundIdentity, canonicalizeIdentityAs, identityKindFor.
  repeat case_bool_decide; done.
Qed.

(** A plugin's sender is looked up under the plugin's own name and the vendor's id. *)
Lemma plugin_member_of_scoped plugin value :
  plugin ≠ EmptyString → has_char ":" plugin = false → value ≠ EmptyString →
  pluginMemberIdentity "plugin" (pluginScopedId plugin value) = MemberKey plugin value.
Proof.
  intros Hp Hc Hv. unfold pluginMemberIdentity, pluginScopedId. rewrite bool_decide_eq_false_2; [|by intros []].
  assert (after_char ":" (plugin +:+ ":" +:+ value) = Some value) as ->.
  { clear Hp. induction plugin as [|a p IH]; [done|]. cbn in Hc. apply orb_false_iff in Hc as [Ha%bool_decide_eq_false Hc].
    rewrite append_cons. cbn [after_char]. destruct (decide (a = ":"%char)); [done|]. by apply IH. }
  change (":" +:+ value) with (String ":" value). rewrite (before_char_append ":" plugin value Hc).
  by rewrite !bool_decide_eq_false_2.
Qed.

Lemma substring_more n v : (String.length v ≤ n)%nat → String.substring 0 n v = v.
Proof. revert n. induction v as [|a v IH]; intros [|n] Hn; try done; cbn in *; [lia|]. by rewrite IH; [|lia]. Qed.

(** The vendor's id comes back out of the scoped one. *)
Lemma plugin_unscoped plugin value : unscopedPluginId plugin (pluginScopedId plugin value) = value.
Proof.
  unfold unscopedPluginId, pluginScopedId. rewrite -(append_assoc plugin ":" value). set (p := plugin +:+ ":").
  assert (starts_with p (p +:+ value) = true) as -> by (apply starts_with_spec; by exists value).
  assert (∀ n, (String.length value ≤ n)%nat → String.substring (String.length p) n (p +:+ value) = value) as H.
  { intros n Hn. induction p as [|a p IH]; [by apply substring_more|]. by rewrite append_cons. }
  apply H. clear H. induction p as [|a p IH]; [done|]. rewrite append_cons. cbn. lia.
Qed.

Lemma canonical_identities_are_stable_witness :
  canonicalizeInboundIdentity "phone" " +44 (0)20 7946-0958 " = Some "+442079460958" ∧
  canonicalizeInboundIdentity "phone" "+442079460958" = Some "+442079460958".
Proof.
  split; [by vm_compute|]. apply (canonical_identities_are_stable "phone" " +44 (0)20 7946-0958 " "+442079460958"). by vm_compute.
Defined.
