(* ===== verification/AdmissionPolicies.v ===== *)
(** * The floors of the channels

    Who may reach the assistant on a channel: the ladder of policies and trust
    classes of [packages/gateway-client/src/admission-policy-contract.ts], the
    table of [gateway/src/db/admission-policy-store.ts] and its seed
    [seed-admission-policy.ts], the cache of [gateway/src/risk/admission-policy-cache.ts]
    that every inbound event asks, and the requests of
    [gateway/src/http/routes/channel-admission-policy.ts] that change them.

    A request's disk says which of its three accesses succeed.  The floors the
    cache answers refine [floors], a function from channels to policies that the
    accepted requests update. *)

From S2P Require Import Prelude.
From stdpp Require Import gmap finite.
Local Open Scope string_scope.
Local Open Scope Z_scope.
Local Open Scope litt_scope.

(** ** The ladder *)

Inductive AdmissionPolicy := no_one | guardian_only | trusted_contacts | any_contact | strangers.
Inductive TrustClass := guardian | trusted_contact | unverified_contact | unknown.

#[export] Instance AdmissionPolicy_eq_dec : EqDecision AdmissionPolicy.
Proof. solve_decision. Defined.
#[export] Instance TrustClass_eq_dec : EqDecision TrustClass.
Proof. solve_decision. Defined.

#[export] Program Instance AdmissionPolicy_finite : Finite AdmissionPolicy :=
  {| enum := [no_one; guardian_only; trusted_contacts; any_contact; strangers] |}.
Next Obligation. apply (bool_decide_unpack _). by vm_compute. Qed.
Next Obligation. intros []; apply (bool_decide_unpack _); by vm_compute. Qed.

#[export] Program Instance TrustClass_finite : Finite TrustClass :=
  {| enum := [guardian; trusted_contact; unverified_contact; unknown] |}.
Next Obligation. apply (bool_decide_unpack _). by vm_compute. Qed.
Next Obligation. intros []; apply (bool_decide_unpack _); by vm_compute. Qed.

Definition policy_text (p : AdmissionPolicy) : string :=
  match p with
  | no_one => "no_one"
  | guardian_only => "guardian_only"
  | trusted_contacts => "trusted_contacts"
  | any_contact => "any_contact"
  | strangers => "strangers"
  end.

Definition class_text (c : TrustClass) : string :=
  match c with
  | guardian => "guardian"
  | trusted_contact => "trusted_contact"
  | unverified_contact => "unverified_contact"
  | unknown => "unknown"
  end.

(** [isAdmissionPolicy] and [isTrustClass], with what they narrow to. *)
Definition isAdmissionPolicy (value : string) : option AdmissionPolicy :=
  head (filter (λ p, policy_text p = value) (enum AdmissionPolicy)).

Definition isTrustClass (value : string) : option TrustClass :=
  head (filter (λ c, class_text c = value) (enum TrustClass)).

Definition ADMISSION_POLICY_DEFAULT : AdmissionPolicy := trusted_contacts.

Definition ADMISSION_FLOOR (p : AdmissionPolicy) : nat :=
  match p with
  | no_one => 5
  | guardian_only => 4
  | trusted_contacts => 3
  | any_contact => 2
  | strangers => 1
  end.

Definition TRUST_CLASS_RANK (c : TrustClass) : nat :=
  match c with
  | guardian => 4
  | trusted_contact => 3
  | unverified_contact => 2
  | unknown => 1
  end.

Definition meetsAdmissionFloor (policy : AdmissionPolicy) (trustClass : TrustClass) : bool :=
  (ADMISSION_FLOOR policy <=? TRUST_CLASS_RANK trustClass)%nat.

Definition CHANNEL_IDS : list string :=
  ["telegram"; "phone"; "vellum"; "whatsapp"; "slack"; "email"; "a2a"; "discord"; "plugin"].

Definition isChannelId (value : string) : bool := bool_decide (value ∈ CHANNEL_IDS).

Definition ADMISSION_POLICY_EXEMPT_CHANNELS : list string := ["platform"; "a2a"].
Definition ADMISSION_POLICY_HIDDEN_CHANNELS : list string := ["vellum"; "whatsapp"].

Definition isAdmissionPolicyExemptChannel (ch : string) : bool := bool_decide (ch ∈ ADMISSION_POLICY_EXEMPT_CHANNELS).
Definition isAdmissionPolicyHiddenChannel (ch : string) : bool := bool_decide (ch ∈ ADMISSION_POLICY_HIDDEN_CHANNELS).

(** ** The table *)

Module PolicyRow.
Record Row := Mk { policy : string; note : option string; updatedAt : Z }.
End PolicyRow.

Module PolicyView.
Record View := Mk { channelType : string; policy : AdmissionPolicy; note : option string; updatedAt : option Z }.
End PolicyView.

(** [channel_admission_policy]; the channel is the primary key. *)
Definition Table := gmap string PolicyRow.Row.

Definition coercePolicy (value : string) : AdmissionPolicy := isAdmissionPolicy value otherwise ADMISSION_POLICY_DEFAULT.

Definition store_get (channelType : string) (t : Table) : AdmissionPolicy :=
  match t !! channelType with
  | None => ADMISSION_POLICY_DEFAULT
  | Some row => coercePolicy (PolicyRow.policy row)
  end.

Definition store_list (t : Table) : list PolicyView.View :=
  omap (λ '(ch, row),
    if isChannelId ch
    then Some (PolicyView.Mk ch (coercePolicy (PolicyRow.policy row)) (PolicyRow.note row) (Some (PolicyRow.updatedAt row)))
    else None) (map_to_list t).

Definition store_set (channelType : string) (p : AdmissionPolicy) (note : option string) (now : Z) (t : Table) : Table :=
  <[channelType := PolicyRow.Mk (policy_text p) note now]> t.

Definition store_remove (channelType : string) (t : Table) : Table :=
  match t !! channelType with
  | None => t
  | Some _ => delete channelType t
  end.

Definition seedDefault (channelType : string) (p : AdmissionPolicy) (now : Z) (t : Table) : Table :=
  match t !! channelType with
  | Some _ => t
  | None => <[channelType := PolicyRow.Mk (policy_text p) None now]> t
  end.

Definition CHANNEL_ADMISSION_DEFAULTS (ch : string) : option AdmissionPolicy :=
  if bool_decide (ch = "vellum") then Some guardian_only
  else if bool_decide (ch = "plugin") then Some guardian_only
  else None.

Definition seeded_policy (ch : string) : AdmissionPolicy := CHANNEL_ADMISSION_DEFAULTS ch otherwise ADMISSION_POLICY_DEFAULT.

(** One turn of the loop of [seedAdmissionPolicyDefaults]. *)
Definition seed_channel (now : Z) (t : Table) (ch : string) : Table :=
  if isAdmissionPolicyExemptChannel ch then t
  else
    let p := seeded_policy ch in
    let t := seedDefault ch p now t in
    if isAdmissionPolicyHiddenChannel ch && bool_decide (store_get ch t ≠ p) then store_set ch p None now t else t.

Definition seedAdmissionPolicyDefaults (now : Z) (t : Table) : Table := foldl (seed_channel now) t CHANNEL_IDS.

(** ** The cache *)

Definition Cache := gmap string AdmissionPolicy.

(** [null] before [initAdmissionPolicyCache]. *)
Record Policies := { table : Table; cache : option Cache }.

(** [new Map(entries)], or a [set] for each entry of a cleared map. *)
Definition map_of {V} (l : list (string * V)) : gmap string V := foldl (λ m kv, <[kv.1 := kv.2]> m) ∅ l.

Definition load (t : Table) : Cache := map_of ((λ v, (PolicyView.channelType v, PolicyView.policy v)) <$> store_list t).

(** The map is cleared before the rows are read. *)
Definition invalidateAdmissionPolicyCache (lists : bool) (g : Policies) : Policies * bool :=
  match cache g with
  | None => (g, true)
  | Some _ => ({| table := table g; cache := Some (if lists then load (table g) else ∅) |}, lists)
  end.

Definition cache_get (ch : string) (c : Cache) : AdmissionPolicy := (c !! ch) otherwise ADMISSION_POLICY_DEFAULT.

(** [None]: the cache was never initialised and the call throws. *)
Definition resolveAdmissionPolicy (flag : bool) (ch : string) (g : Policies) : option (option AdmissionPolicy) :=
  if negb flag then Some None
  else if isAdmissionPolicyExemptChannel ch then Some None
  else if negb (isChannelId ch) then Some None
  else match cache g with
       | None => None
       | Some c => Some (Some (cache_get ch c))
       end.

(** The database is seeded when it is opened, before the cache is filled. *)
Definition startup (now : Z) (t : Table) : Policies :=
  let t := seedAdmissionPolicyDefaults now t in {| table := t; cache := Some (load t) |}.

(** ** Requests *)

(** Which accesses succeed: the [SELECT] of [remove], the write, the [SELECT] of the list. *)
Record Disk := { selects : bool; writes : bool; lists : bool }.

(** What the schema reads: the policy's text if it is one; [None] for a note that
    is neither text nor null. *)
Record SetBody := { b_policy : option string; b_note : option (option string) }.

Inductive Request :=
  | list_policies
  | set_policy (channelType : string) (body : option SetBody)   (* None: not JSON *)
  | delete_policy (channelType : string).

Inductive Response :=
  | listed (policies : list PolicyView.View)
  | shown (policy : PolicyView.View)
  | refused_with (status : Z).

Definition defaultView (ch : string) : PolicyView.View := PolicyView.Mk ch ADMISSION_POLICY_DEFAULT None None.

Definition configurable (ch : string) : bool :=
  negb (isAdmissionPolicyExemptChannel ch) && negb (isAdmissionPolicyHiddenChannel ch).

Definition list_handler (d : Disk) (g : Policies) : Policies * Response :=
  if negb (lists d) then (g, refused_with 500)
  else
    let byChannel := map_of ((λ v, (PolicyView.channelType v, v)) <$> store_list (table g)) in
    (g, listed ((λ ch, (byChannel !! ch) otherwise (defaultView ch)) <$> filter (λ ch, configurable ch = true) CHANNEL_IDS)).

(** [SetPolicyBodySchema.safeParse] *)
Definition parse_body (b : SetBody) : option (AdmissionPolicy * option string) :=
  s ← b_policy b; p ← isAdmissionPolicy s; n ← b_note b; Some (p, n).

Definition set_handler (channelType : string) (body : option SetBody) (now : Z) (d : Disk) (g : Policies)
    : Policies * Response :=
  if isAdmissionPolicyExemptChannel channelType then (g, refused_with 403)
  else if isAdmissionPolicyHiddenChannel channelType then (g, refused_with 403)
  else if negb (isChannelId channelType) then (g, refused_with 400)
  else match body with
       | None => (g, refused_with 400)
       | Some body =>
           match parse_body body with
           | None => (g, refused_with 400)
           | Some (p, n) =>
               if negb (writes d) then (g, refused_with 500)
               else
                 let g := {| table := store_set channelType p n now (table g); cache := cache g |} in
                 let '(g, done_) := invalidateAdmissionPolicyCache (lists d) g in
                 (g, if done_ then shown (PolicyView.Mk channelType p n (Some now)) else refused_with 500)
           end
       end.

Definition delete_handler (channelType : string) (d : Disk) (g : Policies) : Policies * Response :=
  if negb (isChannelId channelType) then (g, refused_with 400)
  else if isAdmissionPolicyExemptChannel channelType then (g, refused_with 403)
  else if isAdmissionPolicyHiddenChannel channelType then (g, refused_with 403)
  else if negb (selects d) then (g, refused_with 500)
  else if bool_decide (is_Some (table g !! channelType)) && negb (writes d) then (g, refused_with 500)
  else
    let g := {| table := store_remove channelType (table g); cache := cache g |} in
    let '(g, done_) := invalidateAdmissionPolicyCache (lists d) g in
    (g, if done_ then shown (defaultView channelType) else refused_with 500).

Definition serve (now : Z) (d : Disk) (r : Request) (g : Policies) : Policies * Response :=
  match r with
  | list_policies => list_handler d g
  | set_policy ch body => set_handler ch body now d g
  | delete_policy ch => delete_handler ch d g
  end.

Definition serve_all (rs : list (Z * Disk * Request)) (g : Policies) : Policies :=
  foldl (λ g '(now, d, r), (serve now d r g).1) g rs.

(** ** The ladder, in order *)

Lemma parse_policy_text p : isAdmissionPolicy (policy_text p) = Some p.
Proof. by destruct p. Qed.

Lemma parse_class_text c : isTrustClass (class_text c) = Some c.
Proof. by destruct c. Qed.

Lemma isTrustClass_Some s c : isTrustClass s = Some c → s = class_text c.
Proof.
  unfold isTrustClass. intros H. apply head_Some_elem_of in H. by apply list_elem_of_filter in H as [? _].
Qed.

Lemma nobody_meets_no_one c : meetsAdmissionFloor no_one c = false.
Proof. by destruct c. Qed.

Lemma higher_ranks_pass p c c' :
  (TRUST_CLASS_RANK c ≤ TRUST_CLASS_RANK c')%nat → meetsAdmissionFloor p c = true → meetsAdmissionFloor p c' = true.
Proof. unfold meetsAdmissionFloor. rw !Nat.leb_le. lia. Qed.

(** ** Maps of entries *)

Section map_of.
Context {V : Type}.
Implicit Types (l : list (string * V)) (m : gmap string V).

Lemma fold_entries_other l m k : k ∉ l.*1 → foldl (λ m kv, <[kv.1 := kv.2]> m) m l !! k = m !! k.
Proof.
  revert m. induction l as [|[k' v] l IH]; intros m; [done|]. cbn. intros [Hk Hl]%not_elem_of_cons.
  rewrite IH //. by apply lookup_insert_ne.
Qed.

Lemma fold_entries_elem l m k v : NoDup l.*1 → (k, v) ∈ l → foldl (λ m kv, <[kv.1 := kv.2]> m) m l !! k = Some v.
Proof.
  revert m. induction l as [|[k' v'] l IH]; intros m; [by intros _ ?%not_elem_of_nil|]. cbn.
  intros [Hn Hl]%NoDup_cons [[= <- <-]|Hin]%elem_of_cons; [|by apply IH].
  rewrite fold_entries_other //. by apply lookup_insert_eq.
Qed.

Lemma map_of_elem l k v : NoDup l.*1 → (k, v) ∈ l → map_of l !! k = Some v.
Proof. apply fold_entries_elem. Qed.

Lemma map_of_other l k : k ∉ l.*1 → map_of l !! k = None.
Proof. intros H. unfold map_of. by rewrite fold_entries_other. Qed.
End map_of.

(** The view of a channel's row, where the list shows it. *)
Definition row_view (t : Table) (ch : string) : option PolicyView.View :=
  row ← t !! ch;
  if isChannelId ch
  then Some (PolicyView.Mk ch (coercePolicy (PolicyRow.policy row)) (PolicyRow.note row) (Some (PolicyRow.updatedAt row)))
  else None.

Lemma store_list_elem t v : v ∈ store_list t ↔ row_view t (PolicyView.channelType v) = Some v.
Proof.
  unfold store_list, row_view. rw list_elem_of_omap. split.
  - intros ([ch row] & Hin%elem_of_map_to_list & Hv). destruct (isChannelId ch) eqn:Hc; [|done].
    injection Hv as <-. cbn. by rewrite Hin /= Hc.
  - destruct (t !! PolicyView.channelType v) as [row|] eqn:Hrow; [|done]. intros Hv.
    exists (PolicyView.channelType v, row). split; [by apply elem_of_map_to_list|done].
Qed.

Lemma store_list_keys t : NoDup (PolicyView.channelType <$> store_list t).
Proof.
  unfold store_list, Table in *. pose proof (NoDup_fst_map_to_list t) as H. revert H. induction (map_to_list t) as [|[ch row] l IH]; intros H; [constructor|].
  rewrite fmap_cons in H. apply NoDup_cons in H as [Hn Hl]. cbn [omap list_omap].
  destruct (isChannelId ch); [|by apply IH]. rewrite fmap_cons. constructor; [|by apply IH].
  intros (v & Hv & Hin)%list_elem_of_fmap. cbn in Hv. apply list_elem_of_omap in Hin as ([ch' row'] & Hin & Hv').
  destruct (isChannelId ch'); [|done]. injection Hv' as <-. cbn in Hv. subst ch'. apply Hn. apply list_elem_of_fmap.
  by exists (ch, row').
Qed.

(** Looking a channel up in a map of the listed rows is looking it up in the table. *)
Lemma map_of_list {V} (f : PolicyView.View → V) t ch :
  map_of ((λ v, (PolicyView.channelType v, f v)) <$> store_list t) !! ch = f <$> row_view t ch.
Proof.
  assert (((λ v, (PolicyView.channelType v, f v)) <$> store_list t).*1 = PolicyView.channelType <$> store_list t) as Hk.
  { by rewrite -list_fmap_compose. }
  destruct (row_view t ch) as [v|] eqn:Hv.
  - assert (PolicyView.channelType v = ch) as <-.
    { unfold row_view in Hv. destruct (t !! ch); [|done]. cbn in Hv. destruct (isChannelId ch); [|done]. by injection Hv as <-. }
    apply map_of_elem; [rewrite Hk; apply store_list_keys|]. apply list_elem_of_fmap. exists v. split; [done|]. by apply store_list_elem.
  - apply map_of_other. rewrite Hk. intros (v & -> & Hin)%list_elem_of_fmap. apply store_list_elem in Hin. by rewrite Hin in Hv.
Qed.

(** What the cache answers is what the store would. *)
Lemma cache_of_table t ch : isChannelId ch = true → cache_get ch (load t) = store_get ch t.
Proof.
  intros Hch. unfold cache_get, load, store_get. rewrite (map_of_list PolicyView.policy) /row_view.
  destruct (t !! ch); [|done]. cbn. by rewrite Hch.
Qed.

(** ** The seed *)

Lemma store_get_set ch ch' p n now t :
  store_get ch' (store_set ch p n now t) = if bool_decide (ch = ch') then p else store_get ch' t.
Proof.
  unfold store_get, store_set. case_bool_decide as H.
  - subst. rewrite lookup_insert_eq. unfold coercePolicy. cbn. by rewrite parse_policy_text.
  - by rewrite lookup_insert_ne.
Qed.

Lemma seed_channel_other now t ch ch' : ch ≠ ch' → seed_channel now t ch !! ch' = t !! ch'.
Proof.
  intros H. unfold seed_channel, seedDefault, store_set. destruct (isAdmissionPolicyExemptChannel ch); [done|].
  cbn zeta. destruct (t !! ch) as [r|]; destruct (_ && _); by rewrite ?lookup_insert_ne.
Qed.

(** The floor a row gives once the seed has run. *)
Definition seeded_floor (t : Table) (ch : string) : AdmissionPolicy :=
  if isAdmissionPolicyHiddenChannel ch then seeded_policy ch
  else match t !! ch with
       | Some row => coercePolicy (PolicyRow.policy row)
       | None => seeded_policy ch
       end.

Lemma seed_channel_floor now t ch : isAdmissionPolicyExemptChannel ch = false →
  store_get ch (seed_channel now t ch) = seeded_floor t ch ∧ is_Some (seed_channel now t ch !! ch) ∧
  (is_Some (t !! ch) → isAdmissionPolicyHiddenChannel ch = false → seed_channel now t ch !! ch = t !! ch).
Proof.
  intros He. unfold seed_channel, seeded_floor. rewrite He. cbn zeta. set (t' := seedDefault _ _ _ _).
  assert (is_Some (t' !! ch) ∧ (is_Some (t !! ch) → t' !! ch = t !! ch)) as [Ht1 Ht2].
  { unfold t', seedDefault. destruct (t !! ch) as [r|] eqn:Hr; [by rewrite Hr; split; [by eexists|]|].
    rewrite lookup_insert_eq. by split; [eexists|intros []]. }
  assert (isAdmissionPolicyHiddenChannel ch = false →
    store_get ch t' = match t !! ch with Some row => coercePolicy (PolicyRow.policy row) | None => seeded_policy ch end) as Hg.
  { intros _. unfold t', seedDefault, store_get. destruct (t !! ch) as [r|] eqn:Hr; [by rewrite Hr|].
    rewrite lookup_insert_eq. unfold coercePolicy. cbn. by rewrite parse_policy_text. }
  destruct (isAdmissionPolicyHiddenChannel ch); cbn [andb].
  - case_bool_decide as Hd; [|by destruct (decide (store_get ch t' = seeded_policy ch))].
    split_and!; [by rewrite store_get_set bool_decide_eq_true_2|unfold store_set; rewrite lookup_insert_eq; by eexists|done].
  - split_and!; [by apply Hg|done|by intros ? _; apply Ht2].
Qed.

Lemma seeded_row now ch l t : ch ∈ l → NoDup l →
  foldl (seed_channel now) t l !! ch = seed_channel now t ch !! ch.
Proof.
  assert (∀ l t, ch ∉ l → foldl (seed_channel now) t l !! ch = t !! ch) as Hout.
  { clear. intros l. induction l as [|x l IH]; [done|]. intros t [Hx Hl]%not_elem_of_cons. cbn. rewrite IH //.
    by apply seed_channel_other. }
  revert t. induction l as [|x l IH]; intros t; [by intros ?%not_elem_of_nil|]. intros Hin [Hn Hl]%NoDup_cons. cbn.
  destruct (decide (x = ch)) as [->|Hne]; [by apply Hout|]. apply elem_of_cons in Hin as [->|Hin]; [done|].
  rewrite IH //. unfold seed_channel at 1 3, seedDefault, store_get. rewrite (seed_channel_other now t x ch Hne).
  destruct (isAdmissionPolicyExemptChannel ch); [by apply seed_channel_other|]. cbn zeta.
  destruct (t !! ch) as [r|] eqn:Hr.
  - rewrite (seed_channel_other now t x ch Hne) Hr. destruct (_ && _); [unfold store_set; by rewrite !lookup_insert_eq|].
    by rewrite (seed_channel_other now t x ch Hne).
  - rewrite !lookup_insert_eq. destruct (_ && _); [unfold store_set|]; by rewrite !lookup_insert_eq.
Qed.

Lemma channels_distinct : NoDup CHANNEL_IDS.
Proof. apply (bool_decide_unpack _). by vm_compute. Qed.

Lemma seeded_channel now t ch : isChannelId ch = true →
  seedAdmissionPolicyDefaults now t !! ch = seed_channel now t ch !! ch.
Proof. intros Hch%bool_decide_eq_true. apply seeded_row; [done|apply channels_distinct]. Qed.

(** Seeding leaves every enforced channel with a row, gives a hidden channel its
    default whatever was stored, never changes the row of a channel the guardian
    can configure, and changes nothing the second time. *)
Theorem seeding_fills_and_keeps now t ch :
  isChannelId ch = true → isAdmissionPolicyExemptChannel ch = false →
  let t' := seedAdmissionPolicyDefaults now t in
  is_Some (t' !! ch) ∧ store_get ch t' = seeded_floor t ch ∧
  (is_Some (t !! ch) → isAdmissionPolicyHiddenChannel ch = false → t' !! ch = t !! ch) ∧
  (∀ later, seedAdmissionPolicyDefaults later t' !! ch = t' !! ch).
Proof.
  intros Hch He. cbn zeta. destruct (seed_channel_floor now t ch He) as (Hf & Hrow & Hkeep).
  assert (store_get ch (seedAdmissionPolicyDefaults now t) = seeded_floor t ch) as Hg.
  { rewrite -Hf. unfold store_get. by rewrite seeded_channel. }
  split_and!; [by rewrite seeded_channel|done|by rewrite seeded_channel|]. intros later.
  rewrite seeded_channel // . set (t' := seedAdmissionPolicyDefaults now t) in *.
  assert (is_Some (t' !! ch)) as [r Hr] by (unfold t'; by rewrite seeded_channel).
  unfold seed_channel. rewrite He. cbn zeta. unfold seedDefault. rewrite Hr.
  destruct (isAdmissionPolicyHiddenChannel ch) eqn:Hh; cbn [andb]; [|by rewrite Hr].
  rewrite bool_decide_eq_false_2; [done|]. intros Hne. apply Hne. rewrite Hg. unfold seeded_floor. by rewrite Hh.
Qed.

(** ** What requests do *)

Definition set_floor (ch : string) (p : AdmissionPolicy) (f : string → AdmissionPolicy) (x : string) : AdmissionPolicy :=
  if bool_decide (ch = x) then p else f x.

(** The specification: a floor per channel, which the accepted requests change. *)
Definition update (r : Request) (f : string → AdmissionPolicy) : string → AdmissionPolicy :=
  match r with
  | list_policies => f
  | set_policy ch body =>
      match body ≫= parse_body with
      | Some (p, _) => if configurable ch && isChannelId ch then set_floor ch p f else f
      | None => f
      end
  | delete_policy ch => if configurable ch && isChannelId ch then set_floor ch ADMISSION_POLICY_DEFAULT f else f
  end.

Definition floors (rs : list (Z * Disk * Request)) (f : string → AdmissionPolicy) : string → AdmissionPolicy :=
  foldl (λ f '(_, _, r), update r f) f rs.

Definition healthy (d : Disk) : Prop := selects d = true ∧ writes d = true ∧ lists d = true.

(** The cache holds what the table says. *)
Definition coherent (g : Policies) : Prop := cache g = Some (load (table g)).

Lemma store_get_remove ch ch' t :
  store_get ch' (store_remove ch t) = if bool_decide (ch = ch') then ADMISSION_POLICY_DEFAULT else store_get ch' t.
Proof.
  unfold store_get, store_remove. destruct (t !! ch) as [r|] eqn:Hr.
  - case_bool_decide as H; [subst; by rewrite lookup_delete_eq|by rewrite lookup_delete_ne].
  - case_bool_decide as H; [subst; by rewrite Hr|done].
Qed.

Lemma set_floor_ext ch p f f' x : f x = f' x → set_floor ch p f x = set_floor ch p f' x.
Proof. unfold set_floor. by intros ->. Qed.

Lemma update_ext r f f' x : f x = f' x → update r f x = update r f' x.
Proof.
  intros H. destruct r as [|ch body|ch]; cbn [update]; [done| |].
  - destruct (body ≫= parse_body) as [[p n]|]; [|done]. destruct (_ && _); [by apply set_floor_ext|done].
  - destruct (_ && _); [by apply set_floor_ext|done].
Qed.

(** One request on a disk that works does to the table what [update] does to the floors. *)
Lemma serve_updates now d r g ch : healthy d → coherent g → isChannelId ch = true →
  coherent (serve now d r g).1 ∧ store_get ch (table (serve now d r g).1) = update r (λ ch, store_get ch (table g)) ch.
Proof.
  intros (Hs & Hw & Hl) Hg Hch. destruct r as [|c body|c]; cbn [serve update].
  - unfold list_handler. by rewrite Hl.
  - unfold set_handler, configurable. destruct (isAdmissionPolicyExemptChannel c); cbn [negb andb].
    { by destruct (body ≫= parse_body) as [[]|]. }
    destruct (isAdmissionPolicyHiddenChannel c); cbn [negb andb]; [by destruct (body ≫= parse_body) as [[]|]|].
    destruct (isChannelId c); cbn [negb]; [|by destruct (body ≫= parse_body) as [[]|]].
    destruct body as [body|]; cbn [mbind option_bind]; [|done]. destruct (parse_body body) as [[p n]|]; [|done].
    rewrite Hw. cbn [negb]. unfold invalidateAdmissionPolicyCache. cbn [cache table]. rewrite Hg Hl. cbn.
    split; [done|]. by rewrite store_get_set.
  - unfold delete_handler, configurable. destruct (isChannelId c); cbn [negb]; [|by rewrite andb_false_r].
    destruct (isAdmissionPolicyExemptChannel c); cbn [negb andb]; [done|].
    destruct (isAdmissionPolicyHiddenChannel c); cbn [negb andb]; [done|]. rewrite Hs Hw andb_false_r. cbn [negb].
    unfold invalidateAdmissionPolicyCache. cbn [cache table]. rewrite Hg Hl. cbn. split; [done|]. by rewrite store_get_remove.
Qed.

Lemma resolve_coherent ch g : coherent g → isChannelId ch = true → isAdmissionPolicyExemptChannel ch = false →
  resolveAdmissionPolicy true ch g = Some (Some (store_get ch (table g))).
Proof. intros Hg Hch He. unfold resolveAdmissionPolicy. rewrite He Hch Hg. cbn. by rewrite cache_of_table. Qed.

Lemma serve_all_floors rs g ch : Forall (λ x, healthy x.1.2) rs → coherent g → isChannelId ch = true →
  coherent (serve_all rs g) ∧ store_get ch (table (serve_all rs g)) = floors rs (λ ch, store_get ch (table g)) ch.
Proof.
  intros Hrs Hg Hch. assert (∀ f, f ch = store_get ch (table g) →
    coherent (serve_all rs g) ∧ store_get ch (table (serve_all rs g)) = floors rs f ch) as H; [|by apply H].
  revert g Hg. induction rs as [|[[now d] r] rs IH]; intros g Hg f Hf; [by split|].
  apply Forall_cons in Hrs as [Hd Hrs]. destruct (serve_updates now d r g ch Hd Hg Hch) as [Hc Hu].
  apply (IH Hrs _ Hc). rewrite Hu. by apply update_ext.
Qed.

(** C26 — As long as the disk answers at every request, the floor an inbound event meets
    on a channel that has one, floors being on, is after any requests what the
    specification says: the seed's, changed by each accepted request in turn; and a hidden
    channel's stays its default. (A reload that fails breaks both:
    [failed_reload_forgets_floors].) *)
Theorem floors_follow_the_requests started t rs ch :
  Forall (λ x, healthy x.1.2) rs → isChannelId ch = true → isAdmissionPolicyExemptChannel ch = false →
  resolveAdmissionPolicy true ch (serve_all rs (startup started t)) = Some (Some (floors rs (seeded_floor t) ch)) ∧
  (isAdmissionPolicyHiddenChannel ch = true → floors rs (seeded_floor t) ch = seeded_policy ch).
Proof.
  intros Hrs Hch He. assert (store_get ch (seedAdmissionPolicyDefaults started t) = seeded_floor t ch) as Hseed.
  { destruct (seed_channel_floor started t ch He) as [<- _]. unfold store_get. by rewrite seeded_channel. }
  destruct (serve_all_floors rs (startup started t) ch Hrs) as [Hc Hf]; [done|done|]. split.
  - rewrite resolve_coherent // Hf. do 2 f_equal. clear -Hseed. cbn [startup table].
    assert (∀ f f', f ch = f' ch → floors rs f ch = floors rs f' ch) as H; [|by apply H].
    induction rs as [|[[now d] r] rs IH]; intros f f' H; [done|]. apply IH. by apply update_ext.
  - intros Hh. clear Hf Hc Hrs Hseed. assert (∀ f, f ch = seeded_policy ch → floors rs f ch = seeded_policy ch) as H;
      [|apply H; unfold seeded_floor; by rewrite Hh].
    induction rs as [|[[now d] r] rs IH]; intros f Hf; [done|]. apply IH. rewrite -Hf.
    assert (∀ c p, configurable c && isChannelId c = true → set_floor c p f ch = f ch) as Hset.
    { intros c p Hc. unfold set_floor. case_bool_decide; [subst c|done]. unfold configurable in Hc. by rewrite Hh andb_false_r in Hc. }
    destruct r as [|c body|c]; cbn [update]; [done| |].
    + destruct (body ≫= parse_body) as [[p n]|]; [|done]. destruct (_ && _) eqn:Hc; [by apply Hset|done].
    + destruct (_ && _) eqn:Hc; [by apply Hset|done].
Qed.

(** Whatever fails, a request that cannot reload the cache has emptied it. *)
Definition loaded_or_empty (g : Policies) : Prop := coherent g ∨ cache g = Some ∅.

Lemma serve_keeps_loaded now d r g : loaded_or_empty g → loaded_or_empty (serve now d r g).1.
Proof.
  intros Hg. assert (∀ t, loaded_or_empty (invalidateAdmissionPolicyCache (lists d) {| table := t; cache := cache g |}).1) as Hi.
  { intros t. unfold invalidateAdmissionPolicyCache. cbn. destruct (cache g) as [c|] eqn:Hc; [|unfold loaded_or_empty, coherent in Hg; destruct Hg; congruence].
    destruct (lists d); [by left|by right]. }
  destruct r as [|c body|c]; cbn [serve].
  - unfold list_handler. destruct (lists d); exact Hg.
  - unfold set_handler. do 3 (case_match; [exact Hg|]). destruct body as [body|]; [|exact Hg].
    destruct (parse_body body) as [[p n]|]; [|exact Hg]. destruct (negb (writes d)); [exact Hg|].
    specialize (Hi (store_set c p n now (table g))). by destruct (invalidateAdmissionPolicyCache _ _).
  - unfold delete_handler. do 5 (case_match; [exact Hg|]). specialize (Hi (store_remove c (table g))).
    by destruct (invalidateAdmissionPolicyCache _ _).
Qed.

(** A change whose reload fails opens every channel to the default floor: one set
    to [no_one] in the table is resolved as [trusted_contacts] until a later change
    reloads the cache. *)
Theorem failed_reload_forgets_floors ch p n now d g other :
  configurable ch = true → isChannelId ch = true → writes d = true → lists d = false → is_Some (cache g) →
  isChannelId other = true → isAdmissionPolicyExemptChannel other = false →
  let '(g', r) := set_handler ch (Some {| b_policy := Some (policy_text p); b_note := Some n |}) now d g in
  r = refused_with 500 ∧ table g' !! other = (if bool_decide (ch = other) then Some (PolicyRow.Mk (policy_text p) n now) else table g !! other) ∧
  resolveAdmissionPolicy true other g' = Some (Some trusted_contacts).
Proof.
  intros Hc Hch Hw Hl [c Hg] Ho He. unfold configurable in Hc. apply andb_true_iff in Hc as [Hc1%negb_true_iff Hc2%negb_true_iff].
  unfold set_handler. rewrite Hc1 Hc2 Hch Hw. unfold parse_body. cbn. rewrite parse_policy_text. cbn.
  unfold invalidateAdmissionPolicyCache. cbn. rewrite Hg Hl. split_and!; [done| |].
  - unfold store_set. cbn. case_bool_decide; [subst; by rewrite lookup_insert_eq|by rewrite lookup_insert_ne].
  - unfold resolveAdmissionPolicy. rewrite He Ho. cbn. unfold cache_get. by rewrite lookup_empty.
Qed.

Lemma deleted_row c d g : healthy d → configurable c = true → isChannelId c = true →
  table (delete_handler c d g).1 !! c = None.
Proof.
  intros (Hs & Hw & _) Hc Hch. apply andb_true_iff in Hc as [He%negb_true_iff Hh%negb_true_iff].
  unfold delete_handler. rewrite Hch He Hh Hs Hw andb_false_r. cbn [negb].
  assert (∀ t, table (invalidateAdmissionPolicyCache (lists d) {| table := t; cache := cache g |}).1 = t) as Ht.
  { intros t. unfold invalidateAdmissionPolicyCache. cbn. by destruct (cache g). }
  specialize (Ht (store_remove c (table g))). destruct (invalidateAdmissionPolicyCache _ _) as [g' b]. cbn in *. rewrite Ht.
  unfold store_remove. destruct (table g !! c) eqn:Hr; [apply lookup_delete_eq|done].
Qed.

(** Deleting the floor of plugin channels lets trusted contacts in where the seed
    let in the guardian only, until the gateway restarts and seeds it again. *)
Theorem deleting_the_plugin_floor_widens_it started t now d :
  healthy d → t !! "plugin" = None →
  let g := (delete_handler "plugin" d (startup started t)).1 in
  resolveAdmissionPolicy true "plugin" (startup started t) = Some (Some guardian_only) ∧
  resolveAdmissionPolicy true "plugin" g = Some (Some trusted_contacts) ∧
  resolveAdmissionPolicy true "plugin" (startup now (table g)) = Some (Some guardian_only).
Proof.
  intros Hd Ht g. assert (isChannelId "plugin" = true) as Hch by done.
  assert (isAdmissionPolicyExemptChannel "plugin" = false) as He by done.
  assert (∀ started t, t !! "plugin" = None → resolveAdmissionPolicy true "plugin" (startup started t) = Some (Some guardian_only)) as Hs.
  { clear. intros started t Ht. rewrite resolve_coherent //. cbn [startup table]. do 2 f_equal. unfold store_get.
    rewrite seeded_channel // -/(store_get "plugin" (seed_channel started t "plugin")).
    destruct (seed_channel_floor started t "plugin") as [-> _]; [done|]. unfold seeded_floor. cbn. by rewrite Ht. }
  destruct (serve_updates now d (delete_policy "plugin") (startup started t) "plugin" Hd) as [Hc Hu]; [done|done|].
  split_and!; [by apply Hs| |].
  - rewrite resolve_coherent //. do 2 f_equal. exact Hu.
  - apply Hs. by apply deleted_row.
Qed.

(** The list of floors holds each channel the guardian can configure once, in the
    order of the channels, with the floor an inbound event there meets. *)
Theorem listed_floors_are_enforced started t rs :
  Forall (λ x, healthy x.1.2) rs →
  let g := serve_all rs (startup started t) in
  ∃ vs, list_handler {| selects := true; writes := true; lists := true |} g = (g, listed vs) ∧
    (PolicyView.channelType <$> vs) = ["telegram"; "phone"; "slack"; "email"; "discord"; "plugin"] ∧
    Forall (λ v, resolveAdmissionPolicy true (PolicyView.channelType v) g = Some (Some (PolicyView.policy v))) vs.
Proof.
  intros Hrs g. unfold list_handler. cbn [lists negb]. eexists. split; [done|].
  assert (∀ ch, isChannelId ch = true → coherent g) as Hc.
  { intros ch Hch. by apply (serve_all_floors rs (startup started t) ch Hrs). }
  set (visible := filter _ _). assert (visible = ["telegram"; "phone"; "slack"; "email"; "discord"; "plugin"]) as -> by by vm_compute.
  set (view_of := λ ch, _). assert (∀ ch, PolicyView.channelType (view_of ch) = ch ∧
    (isChannelId ch = true → PolicyView.policy (view_of ch) = store_get ch (table g))) as Hv.
  { intros ch. unfold view_of, store_get. rewrite (map_of_list (λ v, v)) /row_view. destruct (table g !! ch) as [r|]; [|done].
    cbn. by destruct (isChannelId ch). }
  split.
  - rewrite -list_fmap_compose. rewrite -{2}(list_fmap_id ["telegram"; "phone"; "slack"; "email"; "discord"; "plugin"]).
    apply list_fmap_ext. intros i ch _. apply Hv.
  - apply Forall_fmap. apply (Forall_impl (λ ch, isChannelId ch = true ∧ isAdmissionPolicyExemptChannel ch = false)).
    + by repeat constructor.
    + intros ch [Hch He]. cbn. destruct (Hv ch) as [-> Hp]. rewrite Hp //. apply resolve_coherent; [by eapply Hc|done|done].
Qed.

(** ** Instances *)

Definition working : Disk := {| selects := true; writes := true; lists := true |}.

Definition sample_body (p : string) : option SetBody := Some {| b_policy := Some p; b_note := Some None |}.

Lemma seeding_fills_and_keeps_witness :
  store_get "whatsapp" (seedAdmissionPolicyDefaults 5 {["whatsapp" := PolicyRow.Mk "no_one" None 1]}) = trusted_contacts.
Proof.
  destruct (seeding_fills_and_keeps 5 {["whatsapp" := PolicyRow.Mk "no_one" None 1]} "whatsapp") as (_ & -> & _); by vm_compute.
Defined.

Lemma floors_follow_the_requests_witness :
  resolveAdmissionPolicy true "slack"
    (serve_all [(1, working, set_policy "slack" (sample_body "strangers")); (2, working, set_policy "phone" (sample_body "no_one"))]
       (startup 0 ∅)) = Some (Some strangers).
Proof.
  destruct (floors_follow_the_requests 0 ∅
    [(1, working, set_policy "slack" (sample_body "strangers")); (2, working, set_policy "phone" (sample_body "no_one"))] "slack")
    as [-> _]; [by repeat constructor|by vm_compute|by vm_compute|by vm_compute].
Defined.

Lemma failed_reload_forgets_floors_witness :
  let g := (set_handler "slack" (sample_body "no_one") 1 working (startup 0 ∅)).1 in
  resolveAdmissionPolicy true "slack" g = Some (Some no_one) ∧
  resolveAdmissionPolicy true "slack"
    (set_handler "phone" (sample_body "strangers") 2 {| selects := true; writes := true; lists := false |} g).1 =
    Some (Some trusted_contacts).
Proof.
  split; [by vm_compute|].
  pose proof (failed_reload_forgets_floors "phone" strangers None 2 {| selects := true; writes := true; lists := false |}
    (set_handler "slack" (sample_body "no_one") 1 working (startup 0 ∅)).1 "slack" eq_refl eq_refl eq_refl eq_refl) as H.
  cbn [policy_text] in H. unfold sample_body in *. destruct (set_handler "phone" _ _ _ _) as [g' r].
  apply H; [by eexists|done|done].
Defined.

Lemma deleting_the_plugin_floor_widens_it_witness :
  resolveAdmissionPolicy true "plugin" (delete_handler "plugin" working (startup 0 ∅)).1 = Some (Some trusted_contacts).
Proof.
  pose proof (deleting_the_plugin_floor_widens_it 0 ∅ 1 working) as H. cbv zeta in H.
  refine (proj1 (proj2 (H _ _))); [done|apply lookup_empty].
Defined.

Lemma listed_floors_are_enforced_witness :
  ∃ vs, list_handler working (serve_all [(1, working, set_policy "slack" (sample_body "strangers"))] (startup 0 ∅)) =
    (serve_all [(1, working, set_policy "slack" (sample_body "strangers"))] (startup 0 ∅), listed vs) ∧
    length vs = 6%nat.
Proof.
  destruct (listed_floors_are_enforced 0 ∅ [(1, working, set_policy "slack" (sample_body "strangers"))]) as (vs & Hl & Hk & _);
    [by repeat constructor|].
  exists vs. split; [exact Hl|]. by rewrite -(length_fmap PolicyView.channelType) Hk.
Defined.
