(* ===== verification/InboundTrust.v ===== *)
(** * The verdict on a sender

    [gateway/src/risk/trust-verdict-resolver.ts]: the class of an inbound sender,
    from the contacts and channels of [GuardianBinding]; the contract of
    [packages/gateway-client/src/trust-verdict-contract.ts]; and the daemon's reader,
    [assistant/src/runtime/trust-verdict-consumer.ts], which trusts no verdict it
    cannot reassemble.

    The verdict travels as text, so its class, status and policy are strings here.
    Addresses are compared with the case of ASCII letters folded, as SQLite's NOCASE
    does; the resolver's own comparison of the guardian's address folds all of
    Unicode, which is the same for addresses of one-byte text only.
    [Reads] says which best-effort reads of a resolution succeed. *)

From S2P Require Import Prelude JsText DeviceTokens GuardianBinding Identity AdmissionPolicies.
Local Open Scope string_scope.
Local Open Scope Z_scope.
Local Open Scope litt_scope.

(** ** The verdict *)

Module Verdict.
Record TrustVerdict := Mk {
  trustClass : string;
  canonicalSenderId : option string;
  resolutionFailed : bool;
  guardianExternalUserId : option string;
  guardianDeliveryChatId : option string;
  guardianPrincipalId : option string;
  guardianDisplayName : option string;
  contactId : option string;
  channelId : option string;
  type : option string;
  address : option string;
  externalChatId : option string;
  status : option string;
  policy : option string;
  verifiedAt : option Z;
  memberDisplayName : option string;
  autoApproveThreshold : option string;
  interactionCount : option Z;
  hasInterceptableVerificationSession : option bool;
}.
End Verdict.

Definition plain_verdict (trustClass : TrustClass) (canonicalSenderId : option string) (failed : bool) (session : option bool)
    : Verdict.TrustVerdict :=
  Verdict.Mk (class_text trustClass) canonicalSenderId failed None None None None None None None None None None None None None
    None None session.

Definition makeResolutionFailedVerdict (canonicalSenderId : option string) := plain_verdict unknown canonicalSenderId true None.
Definition makeUnauthenticatedSenderVerdict (canonicalSenderId : option string) := plain_verdict unknown canonicalSenderId false None.

Definition status_text (s : ChannelStatus) : string :=
  match s with
  | ch_unverified => "unverified"
  | ch_pending => "pending"
  | ch_active => "active"
  | ch_revoked => "revoked"
  | ch_blocked => "blocked"
  end.

Definition RISK_THRESHOLDS : list string := ["none"; "low"; "medium"; "high"].

Definition parseContactAutoApproveThreshold (value : option string) : option string :=
  v ← value; if bool_decide (v ∈ RISK_THRESHOLDS) then Some v else None.

(** ** The gateway's resolver *)

(** [None] where the store of sessions throws. *)
Record Reads := { integrity_reads : bool; session : option bool }.

(** The rows at an address, each with its contact; the first is the member. *)
Definition members (channelType sender : string) (b : Book) : list (Contact.Row * Channel.Row) :=
  ch ← channels b;
  (λ c, (c, ch)) <$> filter (λ c, Contact.id c = Channel.contactId ch ∧ Channel.type ch = channelType ∧
                                  nocase (Channel.address ch) sender = true) (contacts b).

(** The guardian contact [id] joined with its active channels of any type. *)
Definition active_channels_of (id : string) (b : Book) : list (Contact.Row * Channel.Row) :=
  ch ← channels b;
  (λ c, (c, ch)) <$> filter (λ c, is_guardian c = true ∧ Contact.id c = Channel.contactId ch ∧ Contact.id c = id ∧
                                  Channel.status ch = ch_active) (contacts b).

Definition guardian_of_channel (channelType : string) (b : Book) : option (Contact.Row * Channel.Row) :=
  first_by (λ x y, newer (Channel.verifiedAt x.2) (Channel.verifiedAt y.2)) (active_guardians channelType b).

Definition denied_by_status (s : ChannelStatus) : bool :=
  bool_decide (s ≠ ch_active) && bool_decide (s ≠ ch_pending) && bool_decide (s ≠ ch_unverified).

Definition class_of_status (s : ChannelStatus) : TrustClass :=
  match s with
  | ch_active => trusted_contact
  | ch_unverified | ch_pending => unverified_contact
  | ch_revoked | ch_blocked => unknown
  end.

(** What the rows say of a sender. *)
Record Standing := {
  guardianRow : option (Contact.Row * Channel.Row);
  memberRow : option (Contact.Row * Channel.Row);
  isGuardian : bool;
  guardianIdentityMatch : option Contact.Row;
}.

Definition standing (channelType : string) (sender : option string) (b : Book) : Standing :=
  let guardianRow := guardian_of_channel channelType b in
  let memberRow := sender ≫= λ s, head (members channelType s b) in
  let isGuardian :=
    match guardianRow, sender with
    | Some r, Some s => nocase (Channel.address r.2) s
    | _, _ => false
    end in
  let denied := match memberRow with Some m => denied_by_status (Channel.status m.2) | None => false end in
  let match_ :=
    match memberRow with
    | Some m =>
        if negb isGuardian && negb denied && is_guardian m.1
        then fst <$> head (active_channels_of (Contact.id m.1) b) else None
    | None => None
    end in
  {| guardianRow := guardianRow; memberRow := memberRow; isGuardian := isGuardian; guardianIdentityMatch := match_ |}.

Definition class_of (st : Standing) : TrustClass :=
  if isGuardian st || bool_decide (is_Some (guardianIdentityMatch st)) then guardian
  else match memberRow st with
       | Some m => class_of_status (Channel.status m.2)
       | None => unknown
       end.

Definition stamp_guardian (st : Standing) (v : Verdict.TrustVerdict) : Verdict.TrustVerdict :=
  let put address chat principal name :=
    Verdict.Mk (Verdict.trustClass v) (Verdict.canonicalSenderId v) (Verdict.resolutionFailed v) address chat principal name
      (Verdict.contactId v) (Verdict.channelId v) (Verdict.type v) (Verdict.address v) (Verdict.externalChatId v)
      (Verdict.status v) (Verdict.policy v) (Verdict.verifiedAt v) (Verdict.memberDisplayName v)
      (Verdict.autoApproveThreshold v) (Verdict.interactionCount v) (Verdict.hasInterceptableVerificationSession v) in
  match guardianRow st with
  | Some (c, ch) =>
      put (Some (Channel.address ch)) (Channel.externalChatId ch)
        (if truthy (Contact.principalId c) then Contact.principalId c else None) (Some (Contact.displayName c))
  | None =>
      match guardianIdentityMatch st with
      | Some c =>
          put None None (if truthy (Contact.principalId c) then Contact.principalId c else None)
            (if bool_decide (Contact.displayName c = EmptyString) then None else Some (Contact.displayName c))
      | None => v
      end
  end.

Definition stamp_member (st : Standing) (v : Verdict.TrustVerdict) : Verdict.TrustVerdict :=
  match memberRow st with
  | None => v
  | Some (c, ch) =>
      Verdict.Mk (Verdict.trustClass v) (Verdict.canonicalSenderId v) (Verdict.resolutionFailed v)
        (Verdict.guardianExternalUserId v) (Verdict.guardianDeliveryChatId v) (Verdict.guardianPrincipalId v)
        (Verdict.guardianDisplayName v) (Some (Channel.contactId ch)) (Some (Channel.id ch)) (Some (Channel.type ch))
        (Some (Channel.address ch)) (Channel.externalChatId ch) (Some (status_text (Channel.status ch)))
        (Some (Channel.policy ch)) (Channel.verifiedAt ch) (Some (Contact.displayName c))
        (parseContactAutoApproveThreshold (Contact.autoApproveThreshold c)) (Some (Channel.interactionCount ch))
        (Verdict.hasInterceptableVerificationSession v)
  end.

(** The channel type and canonical id a sender is looked up by. *)
Definition member_key (channelType : string) (actorExternalId : option string) : string * option string :=
  let memberIdentity :=
    if truthy actorExternalId
    then let m := pluginMemberIdentity channelType (actorExternalId otherwise EmptyString) in (type m, Some (address m))
    else (channelType, actorExternalId) in
  (memberIdentity.1, canonicalSenderIdFor memberIdentity.1 memberIdentity.2).

Definition resolveTrustVerdict (r : Reads) (now : Z) (channelType : string) (actorExternalId : option string) (g : Gateway)
    : Gateway * Verdict.TrustVerdict :=
  let '(ty, canonicalSenderId) := member_key channelType actorExternalId in
  let st := standing ty canonicalSenderId (book g) in
  if match guardianIdentityMatch st with Some c => negb (truthy (Contact.principalId c)) | None => false end
  then (g, makeResolutionFailedVerdict canonicalSenderId)
  else
    let trustClass := class_of st in
    let '(g, unvouched) :=
      if integrity_reads r
      then let '(g, s) := guardianIntegrityState now g in (g, match s with missing_guardian => bool_decide (trustClass = unknown) | ok => false end)
      else (g, false) in
    (g, stamp_member st (stamp_guardian st (plain_verdict trustClass canonicalSenderId unvouched (session r)))).

(** ** The daemon's reader *)

(** [isChannelStatus] and [isChannelPolicy], with what they narrow to. *)
Definition CHANNEL_STATUS_VALUES : list ChannelStatus := [ch_active; ch_pending; ch_revoked; ch_blocked; ch_unverified].
Definition isChannelStatus (value : string) : option ChannelStatus :=
  head (filter (λ s, status_text s = value) CHANNEL_STATUS_VALUES).

Inductive ChannelPolicy := allow | deny.

#[export] Instance ChannelPolicy_eq_dec : EqDecision ChannelPolicy.
Proof. solve_decision. Defined.

Definition isChannelPolicy (value : string) : option ChannelPolicy :=
  if bool_decide (value = "allow") then Some allow else if bool_decide (value = "deny") then Some deny else None.

Record VerdictMember := {
  m_contactId : string;
  m_channelId : string;
  m_status : ChannelStatus;
  m_policy : ChannelPolicy;
  m_verifiedAt : option Z;
  m_displayName : option string;
}.

Definition verdictMemberFromVerdict (v : Verdict.TrustVerdict) : option VerdictMember :=
  if negb (truthy (Verdict.contactId v)) || negb (truthy (Verdict.channelId v)) then None
  else if negb (truthy (Verdict.status v)) || negb (truthy (Verdict.policy v)) then None
  else
    s ← Verdict.status v ≫= isChannelStatus;
    p ← Verdict.policy v ≫= isChannelPolicy;
    contact ← Verdict.contactId v;
    channel ← Verdict.channelId v;
    Some {| m_contactId := contact; m_channelId := channel; m_status := s; m_policy := p;
            m_verifiedAt := Verdict.verifiedAt v; m_displayName := Verdict.memberDisplayName v |}.

Definition verdictHasMemberIdentity (v : Verdict.TrustVerdict) : bool :=
  truthy (Verdict.contactId v) || truthy (Verdict.channelId v).

Definition verdictMemberUnresolvable (v : Verdict.TrustVerdict) : bool :=
  verdictHasMemberIdentity v && bool_decide (verdictMemberFromVerdict v = None).

Inductive VerdictUnusableReason := missing | resolution_failed | member_unresolvable | unrecognized_class | guardian_without_member.

Inductive Usability := usable (v : Verdict.TrustVerdict) (c : TrustClass) | unusable (reason : VerdictUnusableReason).

#[export] Instance VerdictMember_eq_dec : EqDecision VerdictMember.
Proof. solve_decision. Defined.

Definition verdictUsability (verdict : option Verdict.TrustVerdict) : Usability :=
  match verdict with
  | None => unusable missing
  | Some v =>
      if Verdict.resolutionFailed v then unusable resolution_failed
      else if verdictMemberUnresolvable v then unusable member_unresolvable
      else match isTrustClass (Verdict.trustClass v) with
           | None => unusable unrecognized_class
           | Some c =>
               if bool_decide (c = guardian) && bool_decide (verdictMemberFromVerdict v = None)
               then unusable guardian_without_member
               else usable v c
           end
  end.

(** ** Rows *)

Lemma members_elem t s b c ch : (c, ch) ∈ members t s b ↔
  c ∈ contacts b ∧ ch ∈ channels b ∧ Contact.id c = Channel.contactId ch ∧ Channel.type ch = t ∧
  nocase (Channel.address ch) s = true.
Proof.
  unfold members. rw list_elem_of_bind. setoid_rewrite list_elem_of_fmap. setoid_rewrite list_elem_of_filter. naive_solver.
Qed.

Lemma active_channels_elem i b c ch : (c, ch) ∈ active_channels_of i b ↔
  c ∈ contacts b ∧ ch ∈ channels b ∧ is_guardian c = true ∧ Contact.id c = Channel.contactId ch ∧ Contact.id c = i ∧
  Channel.status ch = ch_active.
Proof.
  unfold active_channels_of. rw list_elem_of_bind. setoid_rewrite list_elem_of_fmap. setoid_rewrite list_elem_of_filter. naive_solver.
Qed.

Lemma guardian_of_channel_elem t b c ch : guardian_of_channel t b = Some (c, ch) →
  c ∈ contacts b ∧ ch ∈ channels b ∧ is_guardian c = true ∧ Contact.id c = Channel.contactId ch ∧
  Channel.type ch = t ∧ Channel.status ch = ch_active.
Proof. intros H. apply active_guardians_elem. exact (first_by_elem _ _ _ H). Qed.

Lemma denied_status s : denied_by_status s = bool_decide (class_of_status s = unknown).
Proof. by destruct s. Qed.

Lemma not_denied s : denied_by_status s = false ↔ s ∉ [ch_revoked; ch_blocked].
Proof.
  unfold denied_by_status. destruct s; cbn; split; try done; try (intros _; set_solver); intros Hn; exfalso; apply Hn; set_solver.
Qed.

(** Primary keys, and one row for an address whatever its case. *)
Definition tidy (b : Book) : Prop :=
  NoDup (Contact.id <$> contacts b) ∧
  (∀ x y, x ∈ channels b → y ∈ channels b → Channel.type x = Channel.type y →
    nocase (Channel.address x) (Channel.address y) = true → x = y).

Lemma nocase_trans a b c : nocase a c = true → nocase b c = true → nocase a b = true.
Proof. unfold nocase. rw !bool_decide_eq_true. congruence. Qed.

Lemma tidy_member b t s c ch c' ch' : tidy b → (c, ch) ∈ members t s b → (c', ch') ∈ members t s b → c = c' ∧ ch = ch'.
Proof.
  intros [Hk Ht] (Hc & Hch & Hi & Hty & Ha)%members_elem (Hc' & Hch' & Hi' & Hty' & Ha')%members_elem.
  assert (ch = ch') as -> by (apply Ht; [done|done|by rewrite Hty|by eapply nocase_trans]).
  split; [|done]. apply (ids_inj Contact.id (contacts b)); [done|done|done|by rewrite Hi Hi'].
Qed.

(** ** The class, specified *)

(** A guardian is a sender whose row on this channel, neither blocked nor revoked,
    belongs to a guardian contact with an active channel somewhere. *)
Definition guardian_standing (m : Contact.Row * Channel.Row) (b : Book) : bool :=
  is_guardian m.1 && negb (denied_by_status (Channel.status m.2)) &&
  existsb (λ ch, bool_decide (Channel.contactId ch = Contact.id m.1) && bool_decide (Channel.status ch = ch_active)) (channels b).

Definition sender_class (t : string) (sender : option string) (b : Book) : TrustClass :=
  match sender ≫= λ s, head (members t s b) with
  | Some m => if guardian_standing m b then guardian else class_of_status (Channel.status m.2)
  | None => unknown
  end.

Lemma active_channels_iff c b : is_guardian c = true → c ∈ contacts b → NoDup (Contact.id <$> contacts b) →
  fst <$> head (active_channels_of (Contact.id c) b) =
  if existsb (λ ch, bool_decide (Channel.contactId ch = Contact.id c) && bool_decide (Channel.status ch = ch_active)) (channels b)
  then Some c else None.
Proof.
  intros Hg Hc Hk. destruct (existsb _ _) eqn:He.
  - apply existsb_elem in He as (ch & Hch & [Hi%bool_decide_eq_true Hs%bool_decide_eq_true]%andb_true_iff).
    destruct (head_all (λ r, r.1 = c) (active_channels_of (Contact.id c) b) (c, ch)) as (r & -> & Hr); [| |by cbn; rewrite Hr].
    + by apply active_channels_elem.
    + intros [c' ch'] (Hc' & _ & _ & _ & Hi' & _)%active_channels_elem. by apply (ids_inj Contact.id (contacts b)).
  - destruct (head _) as [[c' ch']|] eqn:Hh; [|done]. exfalso. apply head_Some_elem_of in Hh.
    apply active_channels_elem in Hh as (_ & Hch & _ & Hi & Hi' & Hs).
    assert (existsb (λ ch, bool_decide (Channel.contactId ch = Contact.id c) && bool_decide (Channel.status ch = ch_active)) (channels b) = true)
      as Ht; [|congruence].
    apply existsb_elem. exists ch'. split; [done|]. by rewrite -Hi Hi' Hs !bool_decide_eq_true_2.
Qed.

(** A sender at the address of the channel's active binding is the row of that binding. *)
Lemma bound_sender_row t s b c ch : tidy b → guardian_of_channel t b = Some (c, ch) → nocase (Channel.address ch) s = true →
  head (members t s b) = Some (c, ch).
Proof.
  intros Htidy Hg Ha. apply guardian_of_channel_elem in Hg as (Hc & Hch & _ & Hi & Ht & _).
  destruct (head_all (λ m, m = (c, ch)) (members t s b) (c, ch)) as (m & Hm & ->); [by apply members_elem| |done].
  intros [c' ch'] Hm. destruct (tidy_member b t s c' ch' c ch Htidy Hm) as [-> ->]; [by apply members_elem|done].
Qed.

Lemma class_of_standing t sender b : tidy b → class_of (standing t sender b) = sender_class t sender b.
Proof.
  intros Hb. unfold class_of, sender_class. cbn [standing isGuardian guardianIdentityMatch memberRow].
  destruct sender as [s|]; cbn [mbind option_bind]; [|by destruct (guardian_of_channel t b)].
  destruct (match guardian_of_channel t b with Some r => nocase (Channel.address r.2) s | None => false end) eqn:Hg.
  - destruct (guardian_of_channel t b) as [[c ch]|] eqn:Hrow; [|done]. rewrite (bound_sender_row t s b c ch) //.
    apply guardian_of_channel_elem in Hrow as (_ & Hch & Hgu & Hi & _ & Hs). unfold guardian_standing. cbn [fst snd].
    rewrite Hgu Hs. cbn [andb orb]. assert (existsb (λ ch, bool_decide (Channel.contactId ch = Contact.id c) &&
      bool_decide (Channel.status ch = ch_active)) (channels b) = true) as ->; [|done].
    apply existsb_elem. exists ch. split; [done|]. by rewrite Hi Hs !bool_decide_eq_true_2.
  - destruct (head (members t s b)) as [[c ch]|] eqn:Hm; [|done]. cbn [fst snd orb negb andb].
    apply head_Some_elem_of in Hm. apply members_elem in Hm as (Hc & _). unfold guardian_standing. cbn [fst snd].
    destruct (is_guardian c) eqn:Hgu; [|by rewrite andb_false_r]. rewrite andb_true_r.
    destruct (denied_by_status (Channel.status ch)); [done|]. cbn [negb andb].
    rewrite active_channels_iff //; [|by apply Hb]. by destruct (existsb _ _).
Qed.

(** ** What the daemon reads out of a verdict *)

Definition row_member (m : Contact.Row * Channel.Row) : option VerdictMember :=
  p ← isChannelPolicy (Channel.policy m.2);
  Some {| m_contactId := Channel.contactId m.2; m_channelId := Channel.id m.2; m_status := Channel.status m.2; m_policy := p;
          m_verifiedAt := Channel.verifiedAt m.2; m_displayName := Some (Contact.displayName m.1) |}.

(** Ids are not empty. *)
Definition named (b : Book) : Prop := ∀ ch, ch ∈ channels b → Channel.id ch ≠ EmptyString ∧ Channel.contactId ch ≠ EmptyString.

Lemma isChannelStatus_text s : isChannelStatus (status_text s) = Some s.
Proof. by destruct s. Qed.

Lemma truthy_text s : truthy (Some s) = true ↔ s ≠ EmptyString.
Proof. by destruct s. Qed.

Definition sender_row (t : string) (sender : option string) (b : Book) : option (Contact.Row * Channel.Row) :=
  sender ≫= λ s, head (members t s b).

Lemma sender_row_elem t sender b c ch : sender_row t sender b = Some (c, ch) →
  ∃ s, sender = Some s ∧ c ∈ contacts b ∧ ch ∈ channels b ∧ Contact.id c = Channel.contactId ch ∧ Channel.type ch = t ∧
       nocase (Channel.address ch) s = true.
Proof.
  unfold sender_row. destruct sender as [s|]; [|done]. cbn. intros H%head_Some_elem_of. apply members_elem in H. by exists s.
Qed.

(** The sender belongs to a guardian contact without a principal, found through a row
    that is not the channel's binding. *)
Definition unresolved_guardian (t : string) (sender : option string) (b : Book) : bool :=
  match guardianIdentityMatch (standing t sender b) with
  | Some c => negb (truthy (Contact.principalId c))
  | None => false
  end.

Definition lost_guardian (r : Reads) (now : Z) (g : Gateway) : bool :=
  integrity_reads r && match (guardianIntegrityState now g).2 with missing_guardian => true | ok => false end.

Lemma stamped_reading st c s f ses :
  let v := stamp_member st (stamp_guardian st (plain_verdict c s f ses)) in
  Verdict.trustClass v = class_text c ∧ Verdict.resolutionFailed v = f ∧ Verdict.canonicalSenderId v = s ∧
  Verdict.hasInterceptableVerificationSession v = ses ∧
  match memberRow st with
  | None => verdictMemberFromVerdict v = None ∧ verdictHasMemberIdentity v = false
  | Some m =>
      Channel.id m.2 ≠ EmptyString → Channel.contactId m.2 ≠ EmptyString →
      verdictMemberFromVerdict v = row_member m ∧ verdictHasMemberIdentity v = true
  end.
Proof.
  intros v. unfold v, stamp_member.
  assert (∀ v0, stamp_guardian st v0 = v0 ∨ ∃ a b p n, stamp_guardian st v0 =
    Verdict.Mk (Verdict.trustClass v0) (Verdict.canonicalSenderId v0) (Verdict.resolutionFailed v0) a b p n
      (Verdict.contactId v0) (Verdict.channelId v0) (Verdict.type v0) (Verdict.address v0) (Verdict.externalChatId v0)
      (Verdict.status v0) (Verdict.policy v0) (Verdict.verifiedAt v0) (Verdict.memberDisplayName v0)
      (Verdict.autoApproveThreshold v0) (Verdict.interactionCount v0) (Verdict.hasInterceptableVerificationSession v0)) as Hg.
  { intros v0. unfold stamp_guardian. destruct (guardianRow st) as [[? ?]|]; [right; by do 4 eexists|].
    destruct (guardianIdentityMatch st); [right; by do 4 eexists|by left]. }
  destruct (Hg (plain_verdict c s f ses)) as [->|(a & b & p & n & ->)]; destruct (memberRow st) as [[co ch]|];
    (do 4 (split; [done|])); try done; intros Hi Hc;
    unfold verdictMemberFromVerdict, verdictHasMemberIdentity, row_member; cbn in *;
    destruct (Channel.id ch); try done; destruct (Channel.contactId ch); try done; cbn;
    rewrite isChannelStatus_text; unfold isChannelPolicy; (destruct (Channel.policy ch); cbn; [by destruct (Channel.status ch)|]);
    by destruct (Channel.status ch).
Qed.

(** The verdict in terms of the rows of the sender's key. *)
Lemma resolved_reading r now t actor g :
  tidy (book g) → named (book g) →
  let '(g', v) := resolveTrustVerdict r now t actor g in
  let '(ty, sender) := member_key t actor in
  let c := sender_class ty sender (book g) in
  book g' = book g ∧
  Verdict.resolutionFailed v = unresolved_guardian ty sender (book g) || (lost_guardian r now g && bool_decide (c = unknown)) ∧
  (Verdict.resolutionFailed v = false →
   isTrustClass (Verdict.trustClass v) = Some c ∧
   verdictMemberFromVerdict v = sender_row ty sender (book g) ≫= row_member ∧
   verdictHasMemberIdentity v = bool_decide (is_Some (sender_row ty sender (book g))) ∧
   Verdict.hasInterceptableVerificationSession v = session r).
Proof.
  intros Htidy Hnamed. unfold resolveTrustVerdict. destruct (member_key t actor) as [ty sender]. cbn zeta.
  fold (unresolved_guardian ty sender (book g)). destruct (unresolved_guardian _ _ _) eqn:Hu; [done|].
  assert (∀ g1 f, (g1, f) = (if integrity_reads r then
      let '(g2, s) := guardianIntegrityState now g in
      (g2, match s with missing_guardian => bool_decide (class_of (standing ty sender (book g)) = unknown) | ok => false end)
    else (g, false)) →
    book g1 = book g ∧ f = lost_guardian r now g && bool_decide (sender_class ty sender (book g) = unknown)) as Hi.
  { intros g1 f. unfold lost_guardian. destruct (integrity_reads r); [|by intros [= -> ->]].
    assert (book (guardianIntegrityState now g).1 = book g) as Hb.
    { unfold guardianIntegrityState. destruct (cached g) as [[? ?]|]; [by destruct (_ <? _)|done]. }
    destruct (guardianIntegrityState now g) as [g2 s]. rewrite class_of_standing //. intros [= -> ->]. split; [done|].
    by destruct s. }
  destruct (if integrity_reads r then _ else _) as [g1 f] eqn:Hif. destruct (Hi g1 f) as [Hb Hf]; [by symmetry|]. clear Hif Hi.
  destruct (stamped_reading (standing ty sender (book g)) (class_of (standing ty sender (book g))) sender f (session r))
    as (Hc & Hr & _ & Hs & Hm).
  split_and!; [done|by rewrite Hr Hf|]. intros _. rewrite Hc Hs parse_class_text. rewrite class_of_standing // in Hm |- *.
  change (memberRow (standing ty sender (book g))) with (sender_row ty sender (book g)) in Hm.
  destruct (sender_row ty sender (book g)) as [[co ch]|] eqn:Hrow.
  - apply sender_row_elem in Hrow as (s & _ & _ & Hch & _). destruct (Hnamed ch Hch). by destruct Hm as [-> ->].
  - by destruct Hm as [-> ->].
Qed.

Lemma usable_reading v c : Verdict.resolutionFailed v = false → isTrustClass (Verdict.trustClass v) = Some c →
  (verdictHasMemberIdentity v = true ∨ c = guardian → verdictMemberFromVerdict v ≠ None) → verdictUsability (Some v) = usable v c.
Proof.
  intros Hf Hc Hm. unfold verdictUsability, verdictMemberUnresolvable. rewrite Hf Hc.
  destruct (decide (verdictMemberFromVerdict v = None)) as [Hn|Hn].
  - destruct (verdictHasMemberIdentity v); [exfalso; apply Hm; [by left|done]|]. cbn [andb].
    rewrite (bool_decide_eq_false_2 (c = guardian)); [done|]. intros ->. apply Hm; [by right|done].
  - by rewrite (bool_decide_eq_false_2 (verdictMemberFromVerdict v = None)) // !andb_false_r.
Qed.

(** C13 — The verdict on a sender is the one its row earns: a guardian is a row of this very
    channel, not kept out, of a guardian contact with an active channel; other
    members have the class of their status, strangers none; and the verdict is
    void exactly for a guardian without a principal found past the binding, and
    for those it holds unknown while the guardian's rows are lost. *)
Theorem verdicts_follow_the_rows r now t actor g :
  tidy (book g) → named (book g) →
  let '(g', v) := resolveTrustVerdict r now t actor g in
  let '(ty, sender) := member_key t actor in
  book g' = book g ∧
  Verdict.resolutionFailed v =
    unresolved_guardian ty sender (book g) || (lost_guardian r now g && bool_decide (sender_class ty sender (book g) = unknown)) ∧
  (Verdict.resolutionFailed v = false →
   match sender_row ty sender (book g) with
   | None => Verdict.trustClass v = "unknown" ∧ verdictMemberFromVerdict v = None
   | Some (c, ch) =>
       verdictMemberFromVerdict v = row_member (c, ch) ∧
       (Verdict.trustClass v = "guardian" ↔
         is_guardian c = true ∧ Channel.status ch ∉ [ch_revoked; ch_blocked] ∧
         ∃ ch', ch' ∈ channels (book g) ∧ Channel.contactId ch' = Contact.id c ∧ Channel.status ch' = ch_active) ∧
       (Verdict.trustClass v ≠ "guardian" → Verdict.trustClass v = class_text (class_of_status (Channel.status ch)))
   end).
Proof.
  intros Htidy Hnamed. pose proof (resolved_reading r now t actor g Htidy Hnamed) as H.
  destruct (resolveTrustVerdict r now t actor g) as [g' v], (member_key t actor) as [ty sender].
  destruct H as (Hb & Hf & H). split_and!; [done|done|]. intros Hok. destruct (H Hok) as (Hc & Hm & _).
  apply isTrustClass_Some in Hc. rewrite Hc Hm. unfold sender_class. fold (sender_row ty sender (book g)).
  destruct (sender_row ty sender (book g)) as [[c ch]|]; [|done]. split; [done|].
  assert (guardian_standing (c, ch) (book g) = true ↔ is_guardian c = true ∧ Channel.status ch ∉ [ch_revoked; ch_blocked] ∧
    ∃ ch', ch' ∈ channels (book g) ∧ Channel.contactId ch' = Contact.id c ∧ Channel.status ch' = ch_active) as Hg.
  { unfold guardian_standing. rewrite !andb_true_iff negb_true_iff existsb_elem. cbn [fst snd].
    setoid_rewrite andb_true_iff. setoid_rewrite bool_decide_eq_true.
    rewrite not_denied. naive_solver. }
  destruct (guardian_standing (c, ch) (book g)) eqn:Hs; cbn [class_text].
  - split; [|done]. split; [by intros _; apply Hg|done].
  - split; [|done]. cbn [snd]. split; [by destruct (Channel.status ch)|]. intros Hfacts. by apply Hg in Hfacts.
Qed.

(** A sender at the address of the channel's binding is vouched for as a guardian even
    when that guardian has no principal. *)
Theorem principalless_binding_is_vouched r now channelType sender g c ch :
  tidy (book g) → named (book g) →
  member_key channelType (Some sender) = (channelType, Some sender) →
  guardian_of_channel channelType (book g) = Some (c, ch) → nocase (Channel.address ch) sender = true →
  Contact.principalId c = None → Channel.policy ch = "allow" →
  let v := (resolveTrustVerdict r now channelType (Some sender) g).2 in
  verdictUsability (Some v) = usable v guardian ∧ Verdict.guardianExternalUserId v = Some (Channel.address ch) ∧
  Verdict.guardianPrincipalId v = None.
Proof.
  intros Htidy Hnamed Hk Hg Ha Hp Hpol. pose proof (resolved_reading r now channelType (Some sender) g Htidy Hnamed) as H.
  rewrite Hk in H. pose proof (bound_sender_row channelType sender (book g) c ch Htidy Hg Ha) as Hrow.
  pose proof (class_of_standing channelType (Some sender) (book g) Htidy) as Hcl.
  assert (isGuardian (standing channelType (Some sender) (book g)) = true) as Hi by by rewrite /= Hg.
  assert (unresolved_guardian channelType (Some sender) (book g) = false) as Hu.
  { unfold unresolved_guardian. cbn. by rewrite Hg Hrow Ha. }
  unfold class_of in Hcl. rewrite Hi in Hcl. cbn [orb] in Hcl. rewrite -Hcl Hu in H.
  unfold sender_row in H. cbn [mbind option_bind] in H. rewrite Hrow in H. cbn zeta.
  assert (∀ g' v, resolveTrustVerdict r now channelType (Some sender) g = (g', v) →
    Verdict.guardianExternalUserId v = Some (Channel.address ch) ∧ Verdict.guardianPrincipalId v = None) as Hput.
  { intros g' v. unfold resolveTrustVerdict. rewrite Hk. cbn zeta. fold (unresolved_guardian channelType (Some sender) (book g)). rewrite Hu. destruct (if integrity_reads r then _ else _) as [g1 f].
    intros [= <- <-]. unfold stamp_member, stamp_guardian. cbn [standing guardianRow memberRow]. rewrite Hg. cbn [mbind option_bind].
    rewrite Hrow Hp. done. }
  destruct (resolveTrustVerdict r now channelType (Some sender) g) as [g' v]. specialize (Hput g' v eq_refl).
  destruct H as (_ & Hf & H). rewrite bool_decide_eq_false_2 // andb_false_r in Hf. destruct (H Hf) as (Hc & Hm & Hid & _).
  cbn [snd]. split; [|done]. apply usable_reading; [done|done|]. intros _. rewrite Hm. unfold row_member.
  cbn [mbind option_bind fst snd]. by rewrite Hpol.
Qed.

(** ** Instances *)

Definition sample_contact (id role : string) (principal : option string) : Contact.Row := Contact.Mk id id role principal None 0 0.

Definition sample_channel (id contact type address : string) (s : ChannelStatus) (policy : string) : Channel.Row :=
  Channel.Mk id contact type address true None s policy (Some 1) None None None None None 0 None 0 None.

(** A guardian with a principal, a guardian from before principals, a contact. *)
Definition sample_book : Book := Contacts
  [sample_contact "g" "guardian" (Some "p"); sample_contact "old" "guardian" None; sample_contact "ann" "contact" None]
  [sample_channel "c1" "g" "vellum" "p" ch_active "allow"; sample_channel "c2" "g" "slack" "U1" ch_pending "allow";
   sample_channel "c3" "ann" "slack" "U2" ch_blocked "allow"; sample_channel "c4" "old" "telegram" "77" ch_active "allow";
   sample_channel "c5" "ann" "email" "ann@x.org" ch_active "allow"].

Definition sample_gateway : Gateway := {| book := sample_book; tokens := Tables [] []; cached := None |}.

Definition sample_reads : Reads := {| integrity_reads := true; session := Some false |}.

Lemma sample_tidy : tidy sample_book.
Proof.
  split; [by apply (bool_decide_unpack _); vm_compute|]. intros x y Hx Hy Ht Ha. cbn in Hx, Hy.
  repeat (apply elem_of_cons in Hx as [->|Hx]); try by apply not_elem_of_nil in Hx.
  all: repeat (apply elem_of_cons in Hy as [->|Hy]); try by apply not_elem_of_nil in Hy.
  all: done.
Qed.

Lemma sample_named : named sample_book.
Proof. intros ch Hch. cbn in Hch. repeat (apply elem_of_cons in Hch as [->|Hch]); try by apply not_elem_of_nil in Hch. all: done. Qed.

Lemma verdicts_follow_the_rows_witness :
  let v := (resolveTrustVerdict sample_reads 0 "slack" (Some "u1") sample_gateway).2 in
  Verdict.trustClass v = "guardian" ∧
  ∃ ch', ch' ∈ channels sample_book ∧ Channel.contactId ch' = "g" ∧ Channel.status ch' = ch_active.
Proof.
  intros v. assert (Verdict.trustClass v = "guardian") as Hv by by vm_compute. split; [done|].
  pose proof (verdicts_follow_the_rows sample_reads 0 "slack" (Some "u1") sample_gateway sample_tidy sample_named) as H.
  subst v. destruct (resolveTrustVerdict _ _ _ _ _) as [g' v] eqn:Hr.
  assert (member_key "slack" (Some "u1") = ("slack", Some "u1")) as Hk by by vm_compute. rewrite Hk in H.
  destruct H as (_ & _ & H). assert (Verdict.resolutionFailed v = false) as Hf.
  { change v with (g', v).2. by rewrite -Hr. }
  specialize (H Hf). apply H. exact Hv.
Defined.

Lemma principalless_binding_is_vouched_witness :
  let v := (resolveTrustVerdict sample_reads 0 "telegram" (Some "77") sample_gateway).2 in
  verdictUsability (Some v) = usable v guardian ∧ Verdict.guardianPrincipalId v = None.
Proof.
  intros v. destruct (principalless_binding_is_vouched sample_reads 0 "telegram" "77" sample_gateway
    (sample_contact "old" "guardian" None) (sample_channel "c4" "old" "telegram" "77" ch_active "allow")
    sample_tidy sample_named) as (Hu & _ & Hp); [by vm_compute|by vm_compute|by vm_compute|done|done|by split].
Defined.
