(* ===== verification/InboundAcl.v ===== *)
(** * Who gets through to the assistant

    The daemon's gates on an inbound event:
    [assistant/src/runtime/routes/inbound-stages/acl-enforcement.ts] decides on the
    member's row and asks the guardian about the ones it turns away,
    [admission-policy.ts] compares the class with the channel's floor, and
    [inbound-message-handler.ts] runs the two with what returns in between.  The
    gateway's side is [handlers/handle-inbound.ts] and, for plugins,
    [http/routes/plugin-webhook.ts]; telephone calls are routed by
    [assistant/src/calls/call-setup-router.ts].

    What other services answer is a [World]; what is sent to them is the list of
    effects, in order.  The wording of a name in a reply is [label]. *)

From S2P Require Import Prelude JsText DeviceTokens GuardianBinding Identity AdmissionPolicies InboundTrust.
Local Open Scope string_scope.
Local Open Scope Z_scope.
Local Open Scope litt_scope.

(** ** The floor ([admission-policy.ts]) *)

Inductive AdmissionDenyReason := member_blocked | member_revoked | below_floor (p : AdmissionPolicy).

Inductive AdmissionPolicyResult :=
  | floor_admits
  | floor_denies (reason : AdmissionDenyReason) (shouldChallenge : bool) (effectivePolicy : AdmissionPolicy).

Definition POLICIES_THAT_COULD_UPGRADE : list AdmissionPolicy := [any_contact; strangers].

Definition trustedContactPromotionClearsFloor (policy : AdmissionPolicy) : bool :=
  (ADMISSION_FLOOR policy <=? TRUST_CLASS_RANK trusted_contact)%nat.

Definition enforceAdmissionPolicy (sourceChannel : string) (trustClass : TrustClass) (memberStatus : option ChannelStatus)
    (policy : AdmissionPolicy) : AdmissionPolicyResult :=
  if isAdmissionPolicyExemptChannel sourceChannel then floor_admits
  else if bool_decide (memberStatus = Some ch_blocked) then floor_denies member_blocked false policy
  else if bool_decide (memberStatus = Some ch_revoked) then floor_denies member_revoked false policy
  else if (ADMISSION_FLOOR policy <=? TRUST_CLASS_RANK trustClass)%nat then floor_admits
  else floor_denies (below_floor policy) (bool_decide (policy ∈ POLICIES_THAT_COULD_UPGRADE)) policy.

Definition deny_text (r : AdmissionDenyReason) : string :=
  match r with
  | member_blocked => "member_blocked"
  | member_revoked => "member_revoked"
  | below_floor p => "admission_policy_" +:+ policy_text p
  end.

(** ** The members' rows ([acl-enforcement.ts], [contacts/member-status.ts]) *)

Definition channelStatusToMemberStatus (s : ChannelStatus) : ChannelStatus :=
  match s with ch_unverified => ch_pending | s => s end.

Definition isKeptOutStatus (s : ChannelStatus) : bool := bool_decide (s = ch_revoked) || bool_decide (s = ch_blocked).

Definition ACCESS_DENIED_NOT_APPROVED_REPLY : string := "Sorry, you haven't been approved to message this assistant.".

Definition composeAccessDenialReply (label : string) (guardianNotified handshakeInProgress : bool) : string :=
  if handshakeInProgress then
    "Your access request was approved! Reply here with the 6-digit verification code to finish connecting — if you don't have it, ask "
      +:+ label +:+ " for it."
  else if guardianNotified then
    "Hmm looks like you don't have access to talk to me. I'll let " +:+ label +:+ " know you tried talking to me and get back to you."
  else ACCESS_DENIED_NOT_APPROVED_REPLY.

(** What the other services answer. *)
Record World := {
  (* the status of the session a bootstrap token names; none, or unreachable *)
  bootstrap_status : option string;
  (* whether this sender has a pending challenge, an active session; unreachable *)
  session_reads : option (bool * bool);
  (* the session that was minted; a conflict, or a failure *)
  minted : option string;
  (* whether the guardian was notified, and why not; a failure *)
  access_request : option (bool * string);
  handshake_in_progress : bool;
  replies_arrive : bool;
}.

Inductive Effect :=
  | resolve_bootstrap (token : string)
  | read_sessions (sender : string)
  | mint_challenge (sender : string)
  | notify_guardian (previousMemberStatus : option ChannelStatus)
  | dm_requester (sender text : string)
  | probe_handshake (sender : string)
  | send_reply (text : string)
  | set_title
  | mark_processed.

Record AclParams := {
  canonicalSenderId : option string;
  hasSenderIdentityClaim : bool;
  rawSenderId : option string;
  sourceChannel : string;
  trustVerdict : option Verdict.TrustVerdict;
  isBot : bool;
  (* type and payload of [sourceMetadata.commandIntent] *)
  commandIntent : option (string * option string);
  replyCallbackUrl : bool;
  effectiveAdmissionPolicy : option AdmissionPolicy;
  isCallbackInteraction : bool;
  actorUnattributed : bool;
  label : string;
}.

Record Denial := { reason : string; verificationSessionId : option string; replyText : option string }.

Record AclResult := {
  resolvedMember : option VerdictMember;
  earlyResponse : option Denial;
  validatedBootstrapSession : bool;
}.

Definition denied (m : option VerdictMember) (d : Denial) : AclResult :=
  {| resolvedMember := m; earlyResponse := Some d; validatedBootstrapSession := false |}.
Definition because (reason : string) : Denial := {| reason := reason; verificationSessionId := None; replyText := None |}.

Definition failClosedDeny : AclResult := denied None (because "not_a_member").

Definition sender_of (p : AclParams) : option string :=
  match canonicalSenderId p with Some s => Some s | None => rawSenderId p end.

(** The challenge, if one was minted. *)
Definition initiateVerificationChallenge (w : World) (sender : string) (stamp : option bool) : option string * list Effect :=
  let mint := (minted w, [mint_challenge sender]) in
  if bool_decide (stamp = Some false) then mint
  else match session_reads w with
       | None => (None, [read_sessions sender])
       | Some (pending, active) =>
           if pending || active then (None, [read_sessions sender])
           else (mint.1, read_sessions sender :: mint.2)
       end.

Definition bootstrap_payload (p : AclParams) : option string :=
  match commandIntent p with
  | Some (t, Some payload) => if bool_decide (t = "start") && starts_with "gv_" payload then Some payload else None
  | _ => None
  end.

(** Whether the token resolves to a session in [pending_bootstrap]. *)
Definition try_bootstrap (w : World) (payload : option string) : bool * list Effect :=
  match payload with
  | None => (false, [])
  | Some payload => (bool_decide (bootstrap_status w = Some "pending_bootstrap"),
                     [resolve_bootstrap (String.substring 3 (String.length payload) payload)])
  end.

Definition challenge_dm (p : AclParams) (sender : string) : list Effect :=
  if replyCallbackUrl p then
    [dm_requester sender ("I don't recognize you yet! I've let " +:+ label p +:+ " know you're trying to reach me. They'll need to share a 6-digit verification code with you — ask them directly if you know them. Once you have the code, reply here with it.")]
  else [].

Definition challenged (m : option VerdictMember) (session : string) : AclResult :=
  denied m {| reason := "verification_challenge_sent"; verificationSessionId := Some session; replyText := None |}.

(** A challenge to the sender, if one may be sent on this channel and is. *)
Definition try_challenge (w : World) (p : AclParams) (stamp : option bool) (m : option VerdictMember) (channels : list string)
    (may : bool) : option AclResult * list Effect :=
  let sender := sender_of p in
  let s := sender otherwise EmptyString in
  if bool_decide (sourceChannel p ∈ channels) && truthy sender && may && negb (isCallbackInteraction p) &&
     negb (bool_decide (sourceChannel p = "slack") && isBot p)
  then
    let '(session, sent) := initiateVerificationChallenge w s stamp in
    match session with
    | Some id =>
        (Some (challenged m id),
         (sent ++ [notify_guardian (channelStatusToMemberStatus ∘ m_status <$> m)] ++
          (if bool_decide (sourceChannel p = "slack") then challenge_dm p s else []))%list)
    | None => (None, sent)
    end
  else (None, []).

(** The guardian is told of the attempt; for a callback the handshake is only looked
    up, for the wording. *)
Definition ask_guardian (w : World) (p : AclParams) (m : option VerdictMember) : (bool * bool) * list Effect :=
  let notify := notify_guardian (channelStatusToMemberStatus ∘ m_status <$> m) in
  if isCallbackInteraction p then ((false, handshake_in_progress w), [probe_handshake (sender_of p otherwise EmptyString)])
  else match access_request w with
       | Some (notified, why) => ((notified, negb notified && bool_decide (why = "approval_pending_verification")), [notify])
       | None => ((false, false), [notify])
       end.

(** The reply, and its text when it did not arrive. *)
Definition answer (w : World) (p : AclParams) (text : string) : option string * list Effect :=
  if replyCallbackUrl p then (if replies_arrive w then None else Some text, [send_reply text]) else (Some text, []).

Definition turn_away (w : World) (p : AclParams) (m : option VerdictMember) (reason : string) (ask : bool)
    : AclResult * list Effect :=
  let '((notified, handshake), asked) := if ask then ask_guardian w p m else ((false, false), []) in
  let '(undelivered, sent) := answer w p (composeAccessDenialReply (label p) notified handshake) in
  (denied m {| reason := reason; verificationSessionId := None; replyText := undelivered |}, (asked ++ sent)%list).

(** The denial of a sender without a row: Slack first, then email. *)
Definition deny_non_member (w : World) (p : AclParams) (stamp : option bool) : AclResult * list Effect :=
  let '(r, sent) := try_challenge w p stamp None ["slack"; "email"] true in
  match r with
  | Some r => (r, sent)
  | None => let '(r, asked) := turn_away w p None "not_a_member" true in (r, (sent ++ asked)%list)
  end.

Definition deny_inactive (w : World) (p : AclParams) (stamp : option bool) (m : VerdictMember) : AclResult * list Effect :=
  let keptOut := isKeptOutStatus (m_status m) in
  let '(r, sent) := try_challenge w p stamp (Some m) ["slack"] (negb keptOut) in
  match r with
  | Some r => (r, sent)
  | None =>
      let reason := "member_" +:+ status_text (channelStatusToMemberStatus (m_status m)) in
      let '(r, asked) := turn_away w p (Some m) reason (negb keptOut) in (r, (sent ++ asked)%list)
  end.

Definition deny_by_policy (w : World) (p : AclParams) (m : VerdictMember) : AclResult * list Effect :=
  let '(undelivered, sent) := answer w p ACCESS_DENIED_NOT_APPROVED_REPLY in
  (denied (Some m) {| reason := "policy_deny"; verificationSessionId := None; replyText := undelivered |}, sent).

Definition passes (m : option VerdictMember) (bootstrapped : bool) : AclResult :=
  {| resolvedMember := m; earlyResponse := None; validatedBootstrapSession := bootstrapped |}.

(** A guardian's own row. *)
Definition admit_guardian (m : option VerdictMember) : AclResult :=
  match m with
  | None => failClosedDeny
  | Some member =>
      if isKeptOutStatus (m_status member) then failClosedDeny
      else if bool_decide (m_policy member = deny) then denied m (because "policy_deny")
      else passes m false
  end.

(** The policies whose floor answers instead of the ACL. *)
Definition floor_answers_non_member (policy : option AdmissionPolicy) : bool :=
  bool_decide (policy = Some strangers) || bool_decide (policy = Some guardian_only).

Definition floor_answers_inactive (policy : option AdmissionPolicy) (s : ChannelStatus) : bool :=
  (bool_decide (policy = Some strangers) && bool_decide (s ≠ ch_revoked)) ||
  ((bool_decide (policy = Some any_contact) || bool_decide (policy = Some guardian_only)) &&
   (bool_decide (s = ch_pending) || bool_decide (s = ch_unverified))).

Definition enforceIngressAcl (w : World) (p : AclParams) : AclResult * list Effect :=
  if actorUnattributed p then (passes None false, [])
  else match verdictUsability (trustVerdict p) with
  | unusable _ => (failClosedDeny, [])
  | usable v c =>
      let m := verdictMemberFromVerdict v in
      let stamp := Verdict.hasInterceptableVerificationSession v in
      if bool_decide (c = guardian) then (admit_guardian m, [])
      else if negb (truthy (canonicalSenderId p) || hasSenderIdentityClaim p) then (passes m false, [])
      else match m with
      | None =>
          let '(bootstrapped, sent) := try_bootstrap w (bootstrap_payload p) in
          if bootstrapped || floor_answers_non_member (effectiveAdmissionPolicy p) then (passes None bootstrapped, sent)
          else let '(r, asked) := deny_non_member w p stamp in (r, (sent ++ asked)%list)
      | Some member =>
          let s := m_status member in
          let '(bootstrapped, sent) :=
            if bool_decide (s = ch_active) || bool_decide (s = ch_blocked) then (false, [])
            else try_bootstrap w (bootstrap_payload p) in
          if negb (bool_decide (s = ch_active)) && negb bootstrapped &&
             negb (negb (bool_decide (s = ch_blocked)) && floor_answers_inactive (effectiveAdmissionPolicy p) s)
          then let '(r, asked) := deny_inactive w p stamp member in (r, (sent ++ asked)%list)
          else if bool_decide (m_policy member = deny)
          then let '(r, asked) := deny_by_policy w p member in (r, (sent ++ asked)%list)
          else (passes m bootstrapped, sent)
      end
  end.

(** ** The handler ([inbound-message-handler.ts]) *)

Inductive InboundEventKind := k_message | k_edit | k_delete | k_reaction | k_button.

#[export] Instance InboundEventKind_eq_dec : EqDecision InboundEventKind.
Proof. solve_decision. Defined.

Definition kind_named (value : string) : option InboundEventKind :=
  if bool_decide (value = "message") then Some k_message
  else if bool_decide (value = "edit") then Some k_edit
  else if bool_decide (value = "delete") then Some k_delete
  else if bool_decide (value = "reaction") then Some k_reaction
  else if bool_decide (value = "button") then Some k_button
  else None.

Definition resolveInboundEventKind (eventKind : option string) (isEdit : bool) (callbackData callbackQueryId : option string)
    : InboundEventKind :=
  match eventKind ≫= kind_named with
  | Some k => k
  | None =>
      if isEdit then k_edit
      else match callbackData with
      | Some (String a cb) =>
          let cb := String a cb in
          if bool_decide (cb = "message_deleted") then k_delete
          else if starts_with "reaction:" cb || starts_with "reaction_removed:" cb then k_reaction
          else k_button
      | _ => if bool_decide (is_Some callbackQueryId) then k_button else k_message
      end
  end.

(** What the gateway forwards of an event. *)
Record Inbound := {
  kind : InboundEventKind;
  channel_ : string;
  actorExternalId : string;
  wireAdmissionPolicy : option string;
  wireVerdict : option Verdict.TrustVerdict;
  wireUnattributed : bool;
  fromBot : bool;
  command : option (string * option string);
  callbackUrl : bool;
  duplicate : bool;   (* what [recordInbound] finds *)
  guardianLabel : string;
}.

(** Where an event goes after the gates. *)
Inductive Gated :=
  | acl_denied (d : Denial)
  | floor_denied (reason : AdmissionDenyReason) (replyText : option string)
  | reaction_path
  | delete_path
  | edit_path (m : option VerdictMember)
  | agent_path (c : TrustClass) (m : option VerdictMember) (bootstrapped : bool).

Definition wire_policy (e : Inbound) : AdmissionPolicy :=
  (wireAdmissionPolicy e ≫= isAdmissionPolicy) otherwise ADMISSION_POLICY_DEFAULT.

Definition acl_params (flag : bool) (e : Inbound) : AclParams := {|
  canonicalSenderId := daemon_canonicalizeInboundIdentity (channel_ e) (actorExternalId e);
  hasSenderIdentityClaim := true;
  rawSenderId := Some (actorExternalId e);
  sourceChannel := channel_ e;
  trustVerdict := wireVerdict e;
  isBot := fromBot e;
  commandIntent := command e;
  replyCallbackUrl := callbackUrl e;
  effectiveAdmissionPolicy := if flag then Some (wire_policy e) else None;
  isCallbackInteraction := bool_decide (kind e = k_button) || bool_decide (kind e = k_reaction) || bool_decide (kind e = k_delete);
  actorUnattributed := bool_decide (kind e = k_delete) && wireUnattributed e;
  label := guardianLabel e;
|}.

(** [trustContextFromVerdict]: the class a turn runs under; a wire class that is none of
    the four never comes this far. *)
Definition turn_class (v : option Verdict.TrustVerdict) : TrustClass :=
  match v with
  | None => unknown
  | Some v => isTrustClass (Verdict.trustClass v) otherwise unknown
  end.

Definition deny_at_floor (w : World) (p : AclParams) (m : option VerdictMember) (duplicate : bool) (r : AdmissionDenyReason)
    : Gated * list Effect :=
  if duplicate then (floor_denied r None, [])
  else
    let '((notified, handshake), asked) :=
      if negb (isCallbackInteraction p) || truthy (sender_of p) then ask_guardian w p m else ((false, false), []) in
    let titled := if isCallbackInteraction p then [] else [set_title] in
    let '(undelivered, sent) := answer w p (composeAccessDenialReply (label p) notified handshake) in
    (floor_denied r undelivered, (asked ++ titled ++ sent ++ [mark_processed])%list).

Definition handleChannelInbound (flag : bool) (w : World) (e : Inbound) : Gated * list Effect :=
  if bool_decide (kind e = k_reaction) then (reaction_path, [])
  else
    let p := acl_params flag e in
    let '(acl, sent) := enforceIngressAcl w p in
    match earlyResponse acl with
    | Some d => (acl_denied d, sent)
    | None =>
        let m := resolvedMember acl in
        if bool_decide (kind e = k_delete) then (delete_path, sent)
        else if bool_decide (kind e = k_edit) then (edit_path m, sent)
        else
          let c := turn_class (wireVerdict e) in
          let admission :=
            if negb flag || validatedBootstrapSession acl then floor_admits
            else enforceAdmissionPolicy (channel_ e) c (m_status <$> m) (wire_policy e) in
          match admission with
          | floor_admits => (agent_path c m (validatedBootstrapSession acl), sent)
          | floor_denies r _ _ => let '(g, asked) := deny_at_floor w p m (duplicate e) r in (g, (sent ++ asked)%list)
          end
    end.

(** ** The gateway ([handle-inbound.ts]) *)

(** The stages whose outcome other modules decide: routing, the intercepts. *)
Record GatewayEvent := {
  g_channel : string;
  g_actor : option string;
  routing_rejection : option string;
  carriesUserText : bool;
  verificationIntercepted : bool;
  invite_redeemed : Verdict.TrustVerdict → bool;
  resolver_works : bool;
  senderAuthenticated : option bool;
  reads : Reads;
}.

Inductive InboundAdmission :=
  | rejected (reason : string)
  | intercepted
  | admitted (verdict : Verdict.TrustVerdict) (policy : option AdmissionPolicy)
  | gate_threw.

(** The sender-authentication downgrade. *)
Definition downgrade (authenticated : option bool) (v : Verdict.TrustVerdict) : Verdict.TrustVerdict :=
  if bool_decide (authenticated = Some false) then
    plain_verdict unknown (Verdict.canonicalSenderId v) (Verdict.resolutionFailed v) None
  else v.

Definition admitInbound (flag : bool) (policies : Policies) (now : Z) (e : GatewayEvent) (g : Gateway)
    : Gateway * InboundAdmission :=
  match resolveAdmissionPolicy flag (g_channel e) policies with
  | None => (g, gate_threw)
  | Some policy =>
      if bool_decide (policy = Some no_one) then (g, rejected "admission_no_one")
      else match routing_rejection e with
      | Some r => (g, rejected r)
      | None =>
          if carriesUserText e && verificationIntercepted e then (g, intercepted)
          else
            let '(g, v) :=
              if resolver_works e then resolveTrustVerdict (reads e) now (g_channel e) (g_actor e) g
              else (g, makeResolutionFailedVerdict (canonicalSenderIdFor (g_channel e) (g_actor e))) in
            let v := downgrade (senderAuthenticated e) v in
            if carriesUserText e && bool_decide (senderAuthenticated e ≠ Some false) && invite_redeemed e v then (g, intercepted)
            else (g, admitted v policy)
      end
  end.

(** What [forwardToRuntime] stamps of the admission. *)
Definition forwarded (e : Inbound) (v : Verdict.TrustVerdict) (policy : option AdmissionPolicy) : Inbound :=
  {| kind := kind e; channel_ := channel_ e; actorExternalId := actorExternalId e;
     wireAdmissionPolicy := policy_text <$> policy; wireVerdict := Some v; wireUnattributed := wireUnattributed e;
     fromBot := fromBot e; command := command e; callbackUrl := callbackUrl e; duplicate := duplicate e;
     guardianLabel := guardianLabel e |}.

(** The floor of a plugin's delivery ([plugin-webhook.ts]), after the same gate. *)
Definition plugin_delivers (v : Verdict.TrustVerdict) (policy : option AdmissionPolicy) : bool :=
  match policy with
  | None => true
  | Some p => match isTrustClass (Verdict.trustClass v) with
              | Some c => meetsAdmissionFloor p c
              | None => false
              end
  end.

(** ** Telephone calls ([call-setup-router.ts]) *)

Record CallSession := {
  initiatedFromConversationId : option string;
  callMode : option string;
  verificationSession : option string;
  inviteFriendName : option string;
}.

Record SetupContext := {
  call : option CallSession;
  from : string;
  to : string;
  verificationParam : option string;
  admissionPolicy : option AdmissionPolicy;
  callVerdict : option Verdict.TrustVerdict;
  verificationEnabled : bool;
  pendingSession : bool;                  (* what [getPendingSession("phone")] finds *)
  voiceInvite : option (option string);   (* the invitee's name *)
}.

Inductive SetupOutcome :=
  | normal_call (isInbound : bool)
  | verification
  | outbound_verification (session : string)
  | callee_verification
  | invite_redemption (fromNumber : string) (inviteeName : option string)
  | name_capture
  | unverified_caller (displayName : string) (guardianCaller : bool)
  | deny_call (message logReason : string).

Definition TRUST_UNAVAILABLE_DENY_MESSAGE : string :=
  "The assistant is unable to take this call right now. Please try again later.".
Definition NOT_AUTHORIZED : string := "This number is not authorized to use this assistant.".

Definition unusable_text (r : VerdictUnusableReason) : string :=
  match r with
  | missing => "missing"
  | resolution_failed => "resolution failed"
  | member_unresolvable => "member unresolvable"
  | unrecognized_class => "unrecognized trust class"
  | guardian_without_member => "guardian without member"
  end.

Definition floor_deny_call (p : AdmissionPolicy) : SetupOutcome :=
  deny_call "This number is not authorized to reach the assistant right now." ("Inbound voice admission floor: " +:+ policy_text p).

Definition route_unknown_caller (ctx : SetupContext) (c : TrustClass) (m : option VerdictMember) (floor : option AdmissionPolicyResult)
    : SetupOutcome :=
  let identify :=
    match m with
    | Some m =>
        if bool_decide (m_status m = ch_unverified) || bool_decide (m_status m = ch_pending)
        then unverified_caller (m_displayName m otherwise EmptyString) (bool_decide (c = guardian))
        else name_capture
    | None => name_capture
    end in
  if bool_decide (m_status <$> m = Some ch_blocked) then deny_call NOT_AUTHORIZED "Inbound voice ACL: caller blocked"
  else match voiceInvite ctx with
  | Some name => invite_redemption (from ctx) name
  | None =>
      match floor with
      | None => identify
      | Some floor_admits => normal_call true
      | Some (floor_denies r _ p) =>
          if negb (trustedContactPromotionClearsFloor p) then floor_deny_call p
          else match r with
               | below_floor _ => identify
               | _ => floor_deny_call p
               end
      end
  end.

(** An inbound call, once the verdict is usable. *)
Definition route_inbound_call (ctx : SetupContext) (v : Verdict.TrustVerdict) (c : TrustClass) : SetupOutcome :=
  let m := verdictMemberFromVerdict v in
  let pending := if bool_decide (Verdict.hasInterceptableVerificationSession v = Some false) then false else pendingSession ctx in
  let floor :=
    match admissionPolicy ctx with
    | Some p => if pending then None else Some (enforceAdmissionPolicy "phone" c (m_status <$> m) p)
    | None => None
    end in
  if bool_decide (m_policy <$> m = Some deny) then deny_call NOT_AUTHORIZED "Inbound voice ACL: member policy deny"
  else if (bool_decide (c = unknown) || bool_decide (c = unverified_contact)) && negb pending
  then route_unknown_caller ctx c m floor
  else if pending then verification
  else match floor with
       | Some (floor_denies _ _ p) => floor_deny_call p
       | _ => normal_call true
       end.

(** [None]: an outbound call without a usable verdict throws. *)
Definition routeSetup (ctx : SetupContext) : option SetupOutcome :=
  let isInbound := bool_decide ((call ctx ≫= initiatedFromConversationId) = None) in
  match verdictUsability (callVerdict ctx) with
  | unusable r =>
      if isInbound
      then Some (deny_call TRUST_UNAVAILABLE_DENY_MESSAGE
                   ("Inbound voice ACL: trust verdict unavailable (" +:+ unusable_text r +:+ ") — fail-closed deny"))
      else None
  | usable v c =>
      let mode := call ctx ≫= callMode in
      let vs := match call ctx ≫= verificationSession with Some s => Some s | None => verificationParam ctx end in
      Some (
        if bool_decide (mode = Some "invite") then invite_redemption (to ctx) (call ctx ≫= inviteFriendName)
        else if bool_decide (mode = Some "verification") && truthy vs then outbound_verification (vs otherwise EmptyString)
        else if negb (truthy mode) && truthy (verificationParam ctx)
        then outbound_verification (verificationParam ctx otherwise EmptyString)
        else if negb isInbound && verificationEnabled ctx then callee_verification
        else if negb isInbound then normal_call false
        else route_inbound_call ctx v c)
  end.

(** ** The gate, specified *)

Definition is_agent (g : Gated) : bool := match g with agent_path _ _ _ => true | _ => false end.

(** What a sender of class [c] with the row [m] may do under a floor. *)
Definition entitled (p : AdmissionPolicy) (c : TrustClass) (m : option VerdictMember) : bool :=
  meetsAdmissionFloor p c &&
  match m with
  | Some m => negb (isKeptOutStatus (m_status m)) && bool_decide (m_policy m = allow)
  | None => true
  end.

(** Who may finish a bootstrap: strangers and members that are not active, but no
    blocked one and none the guardian denied. *)
Definition may_bootstrap (c : TrustClass) (m : option VerdictMember) : bool :=
  bool_decide (c ≠ guardian) &&
  match m with
  | Some m => bool_decide (m_status m ≠ ch_active) && bool_decide (m_status m ≠ ch_blocked) && bool_decide (m_policy m = allow)
  | None => true
  end.

(** A verdict as the gateway makes them: the class is the one of the row's status, or
    guardian for a row that is not kept out. *)
Definition earned (c : TrustClass) (m : option VerdictMember) : Prop :=
  match m with
  | None => c = unknown
  | Some m => c = class_of_status (m_status m) ∨ c = guardian ∧ isKeptOutStatus (m_status m) = false
  end.

(** The token names a session waiting for its bootstrap. *)
Definition bootstraps (w : World) (p : AclParams) : bool :=
  match bootstrap_payload p with
  | Some _ => bool_decide (bootstrap_status w = Some "pending_bootstrap")
  | None => false
  end.

Lemma try_bootstrap_result w p : (try_bootstrap w (bootstrap_payload p)).1 = bootstraps w p.
Proof. unfold try_bootstrap, bootstraps. by destruct (bootstrap_payload p). Qed.

Definition denies (r : AclResult * list Effect) : Prop := ∃ m d, r.1 = denied m d.

Lemma turn_away_denies w p m why ask : denies (turn_away w p m why ask).
Proof.
  unfold turn_away, denies. destruct (if ask then _ else _) as [[? ?] ?], (answer _ _ _). by do 2 eexists.
Qed.

Lemma try_challenge_denies w p stamp m l may r sent : try_challenge w p stamp m l may = (Some r, sent) → ∃ d, r = denied m d.
Proof.
  unfold try_challenge. destruct (_ && _); [|done]. destruct (initiateVerificationChallenge _ _ _) as [[id|] s]; [|done].
  intros [= <- _]. by eexists.
Qed.

Lemma deny_non_member_denies w p stamp : denies (deny_non_member w p stamp).
Proof.
  unfold deny_non_member. destruct (try_challenge _ _ _ _ _ _) as [[r|] sent] eqn:H.
  - apply try_challenge_denies in H as [d ->]. by do 2 eexists.
  - destruct (turn_away_denies w p None "not_a_member" true) as (m & d & Hd). destruct (turn_away _ _ _ _ _). cbn in Hd.
    subst. by do 2 eexists.
Qed.

Lemma deny_inactive_denies w p stamp m : denies (deny_inactive w p stamp m).
Proof.
  unfold deny_inactive. destruct (try_challenge _ _ _ _ _ _) as [[r|] sent] eqn:H.
  - apply try_challenge_denies in H as [d ->]. by do 2 eexists.
  - set (why := "member_" +:+ _). destruct (turn_away_denies w p (Some m) why (negb (isKeptOutStatus (m_status m)))) as (m' & d & Hd).
    destruct (turn_away _ _ _ _ _). cbn in Hd. subst. by do 2 eexists.
Qed.

Lemma deny_by_policy_denies w p m : denies (deny_by_policy w p m).
Proof. unfold deny_by_policy. destruct (answer _ _ _). by do 2 eexists. Qed.

(** ** The ACL's decision *)

(** Whether the ACL lets a usable verdict on, and whether a bootstrap did it. *)
Definition acl_passes (policy : option AdmissionPolicy) (c : TrustClass) (m : option VerdictMember) (b : bool) : option bool :=
  if bool_decide (c = guardian) then
    match m with
    | Some m => if negb (isKeptOutStatus (m_status m)) && bool_decide (m_policy m = allow) then Some false else None
    | None => None
    end
  else match m with
  | None => if b || floor_answers_non_member policy then Some b else None
  | Some m =>
      let b := b && bool_decide (m_status m ≠ ch_active) && bool_decide (m_status m ≠ ch_blocked) in
      if bool_decide (m_policy m = allow) &&
         (bool_decide (m_status m = ch_active) || b || (bool_decide (m_status m ≠ ch_blocked) && floor_answers_inactive policy (m_status m)))
      then Some b else None
  end.

Lemma acl_decision w p v c : actorUnattributed p = false → verdictUsability (trustVerdict p) = usable v c →
  truthy (canonicalSenderId p) || hasSenderIdentityClaim p = true →
  let m := verdictMemberFromVerdict v in
  match acl_passes (effectiveAdmissionPolicy p) c m (bootstraps w p) with
  | Some b => (enforceIngressAcl w p).1 = passes m b
  | None => denies (enforceIngressAcl w p)
  end.
Proof.
  intros Hu Hv Hid m. unfold enforceIngressAcl, acl_passes. rewrite Hu Hv Hid. cbn [negb]. fold m.
  case_bool_decide as Hc.
  { destruct m as [m|]; cbn; [|by do 2 eexists]. destruct (isKeptOutStatus (m_status m)); [by do 2 eexists|].
    destruct (m_policy m) eqn:Hpol; cbn; [done|]. by do 2 eexists. }
  destruct m as [m|].
  - pose proof (deny_by_policy_denies w p m) as Hdp.
    pose proof (deny_inactive_denies w p (Verdict.hasInterceptableVerificationSession v) m) as Hdi.
    pose proof (try_bootstrap_result w p) as Hb. destruct (try_bootstrap w (bootstrap_payload p)) as [b sent]. cbn in Hb. subst b.
    destruct (deny_inactive w p _ m) as [r1 e1], (deny_by_policy w p m) as [r2 e2].
    unfold denies in *. cbn [fst] in *.
    destruct (m_status m) eqn:Hs; cbn; destruct (bootstraps w p), (m_policy m); cbn;
      try destruct (floor_answers_inactive _ _); cbn; done.
  - pose proof (deny_non_member_denies w p (Verdict.hasInterceptableVerificationSession v)) as Hdn.
    pose proof (try_bootstrap_result w p) as Hb. destruct (try_bootstrap w (bootstrap_payload p)) as [b sent]. cbn in Hb. subst b.
    destruct (deny_non_member w p _) as [r1 e1]. unfold denies in *. cbn [fst] in *.
    by destruct (bootstraps w p || floor_answers_non_member (effectiveAdmissionPolicy p)).
Qed.

(** ** The gate's decision *)

(** The kinds of event that can get as far as a turn. *)
Definition speaks (k : InboundEventKind) : Prop := k = k_message ∨ k = k_button.

Lemma usable_class v c x : verdictUsability v = usable x c → v = Some x ∧ isTrustClass (Verdict.trustClass x) = Some c ∧
  (c = guardian → verdictMemberFromVerdict x ≠ None).
Proof.
  unfold verdictUsability. destruct v as [v|]; [|done]. destruct (Verdict.resolutionFailed v); [done|].
  destruct (verdictMemberUnresolvable v); [done|]. destruct (isTrustClass (Verdict.trustClass v)) as [k|] eqn:Hk; [|done].
  destruct (bool_decide (k = guardian) && _) eqn:Hg; [done|]. intros [= <- <-]. split_and!; [done|done|]. intros ->.
  rewrite bool_decide_eq_true_2 // andb_true_l in Hg. by apply bool_decide_eq_false in Hg.
Qed.

(** An event gets past the gates exactly when the ACL lets it on and the floor, unless a
    bootstrap skipped it, does too. *)
Lemma gate_decision flag w e v c : speaks (kind e) → verdictUsability (wireVerdict e) = usable v c →
  let m := verdictMemberFromVerdict v in
  let p := acl_params flag e in
  match acl_passes (effectiveAdmissionPolicy p) c m (bootstraps w p) with
  | None => is_agent (handleChannelInbound flag w e).1 = false
  | Some b =>
      if negb flag || b || match enforceAdmissionPolicy (channel_ e) c (m_status <$> m) (wire_policy e) with
                           | floor_admits => true
                           | floor_denies _ _ _ => false
                           end
      then (handleChannelInbound flag w e).1 = agent_path c m b
      else is_agent (handleChannelInbound flag w e).1 = false
  end.
Proof.
  intros Hk Hv m p. assert (actorUnattributed p = false) as Hu by by destruct Hk as [Hk|Hk]; rewrite /p /= Hk.
  assert (truthy (canonicalSenderId p) || hasSenderIdentityClaim p = true) as Hid by apply orb_true_r.
  pose proof (acl_decision w p v c Hu Hv Hid) as Ha. cbv zeta in Ha. fold m in Ha. unfold handleChannelInbound. fold p.
  rewrite !(bool_decide_eq_false_2 (kind e = _)); try by destruct Hk as [-> | ->].
  destruct (enforceIngressAcl w p) as [acl sent]. destruct (usable_class _ _ _ Hv) as (Hw & Hc & _).
  destruct (acl_passes _ _ _ _) as [b|]; cbn [fst] in Ha.
  - subst acl. cbn [passes earlyResponse resolvedMember validatedBootstrapSession]. rewrite Hw. cbn [turn_class]. rewrite Hc.
    destruct flag; cbn [negb orb]; [|done]. destruct b; [done|]. cbn [orb].
    destruct (enforceAdmissionPolicy _ _ _ _) as [|r sc ep]; [done|]. unfold deny_at_floor. destruct (duplicate e); [done|].
    destruct (if negb (isCallbackInteraction p) || truthy (sender_of p) then ask_guardian w p m else ((false, false), [])) as [[n h] l].
    by destruct (answer _ _ _).
  - destruct Ha as (m' & d & Hd). cbn in Hd. by subst acl.
Qed.

(** Under the channels' floors an event gets past the gates exactly when its sender's row
    is neither kept out nor denied and its class meets the floor, or it finishes a
    bootstrap it may; it goes on under that class and that row. *)
Lemma gate_admits_the_entitled w e v c :
  speaks (kind e) → isAdmissionPolicyExemptChannel (channel_ e) = false →
  verdictUsability (wireVerdict e) = usable v c → earned c (verdictMemberFromVerdict v) →
  let m := verdictMemberFromVerdict v in
  let b := bootstraps w (acl_params true e) && may_bootstrap c m in
  is_agent (handleChannelInbound true w e).1 = entitled (wire_policy e) c m || b ∧
  (∀ c' m' b', (handleChannelInbound true w e).1 = agent_path c' m' b' → c' = c ∧ m' = m ∧ b' = b).
Proof.
  intros Hk He Hv Hearned m b. pose proof (gate_decision true w e v c Hk Hv) as H. cbv zeta in H. fold m in H, Hearned.
  change (effectiveAdmissionPolicy (acl_params true e)) with (Some (wire_policy e)) in H. unfold b, entitled, may_bootstrap, meetsAdmissionFloor.
  clearbody m. clear b. unfold acl_passes, enforceAdmissionPolicy, floor_answers_non_member, floor_answers_inactive, isKeptOutStatus in *.
  rewrite He in H. destruct (handleChannelInbound true w e) as [g sent]. cbn [fst] in *.
  assert (∀ b, g = agent_path c m b → is_agent g = true ∧
    ∀ c' m' b', g = agent_path c' m' b' → c' = c ∧ m' = m ∧ b' = b) as Hyes by (intros ? ->; split; [done|by intros ? ? ? [= <- <- <-]]).
  assert (∀ b, is_agent g = false → is_agent g = false ∧ ∀ c' m' b', g = agent_path c' m' b' → c' = c ∧ m' = m ∧ b' = b) as Hno
    by (intros ? Hg; split; [done|by intros ? ? ? ->]).
  destruct m as [[mi mc s pol mv mn]|]; cbn [m_status m_policy earned fmap option_fmap option_map] in *.
  - destruct (wire_policy e), (bootstraps w (acl_params true e)), s, pol, Hearned as [-> |[-> Hko]]; cbn in *; try done; auto.
  - subst c. destruct (wire_policy e), (bootstraps w (acl_params true e)); cbn in *; auto.
Qed.

Lemma acl_keeps_out policy c m b b' : acl_passes policy c (Some m) b = Some b' →
  m_status m ≠ ch_blocked ∧ m_policy m = allow ∧ (m_status m = ch_revoked → b' = true ∧ b = true).
Proof.
  unfold acl_passes, floor_answers_inactive, isKeptOutStatus. destruct m as [mi mc s pol mv mn]. cbn [m_status m_policy].
  case_bool_decide as Hc; intros H.
  - destruct s, pol; try done; by injection H as <-.
  - destruct b, s, pol, policy as [[]|]; cbn in H; try done; by injection H as <-.
Qed.


(** ** Between the ACL and the floor *)

(** C40 — The strictest floors open the way to edits: a stranger's edit, which the ACL
    turns away under [no_one], [trusted_contacts] and [any_contact], is handed to the edit
    stage under [guardian_only] as under [strangers], for the floor that would deny it
    runs only after that stage. *)
Theorem guardian_only_lets_strangers_edit w e v c :
  kind e = k_edit → verdictUsability (wireVerdict e) = usable v c → c ≠ guardian → verdictMemberFromVerdict v = None →
  bootstraps w (acl_params true e) = false →
  match wire_policy e with
  | guardian_only | strangers => (handleChannelInbound true w e).1 = edit_path None
  | no_one | trusted_contacts | any_contact => ∃ d, (handleChannelInbound true w e).1 = acl_denied d
  end.
Proof.
  intros Hk Hv Hc Hm Hb. assert (actorUnattributed (acl_params true e) = false) as Hu by by rewrite /= Hk.
  pose proof (acl_decision w (acl_params true e) v c Hu Hv (orb_true_r _)) as Ha. cbv zeta in Ha. rewrite Hm Hb in Ha.
  unfold acl_passes, floor_answers_non_member in Ha. rewrite bool_decide_eq_false_2 // in Ha.
  change (effectiveAdmissionPolicy (acl_params true e)) with (Some (wire_policy e)) in Ha.
  unfold handleChannelInbound. rewrite Hk. cbn [bool_decide]. destruct (enforceIngressAcl w (acl_params true e)) as [acl sent].
  unfold denies in Ha. cbn [fst] in Ha.
  destruct (wire_policy e); vm_compute in Ha; cbn.
  all: first [by subst acl|destruct Ha as (m & d & ->); by eexists].
Qed.

(** ** From the gateway to the turn *)

Lemma wire_policy_forwarded e v p : wire_policy (forwarded e v (Some p)) = p.
Proof. unfold wire_policy. cbn. by rewrite parse_policy_text. Qed.

(** The verdict's policy text is one the daemon knows. *)
Definition policies_known (b : Book) : Prop := ∀ ch, ch ∈ channels b → is_Some (isChannelPolicy (Channel.policy ch)).

Lemma sender_class_earned t sender b :
  match sender_row t sender b with
  | None => sender_class t sender b = unknown
  | Some m => sender_class t sender b = class_of_status (Channel.status m.2) ∨
              sender_class t sender b = guardian ∧ isKeptOutStatus (Channel.status m.2) = false
  end.
Proof.
  unfold sender_class. fold (sender_row t sender b). destruct (sender_row t sender b) as [m|]; [|done].
  destruct (guardian_standing m b) eqn:Hg; [|by left]. right. split; [done|]. unfold guardian_standing in Hg.
  apply andb_true_iff in Hg as [[_ Hd]%andb_true_iff _]. by destruct (Channel.status m.2).
Qed.

(** What the daemon makes of a verdict the gateway resolved. *)
Lemma resolved_usable r now t actor g ty sender g' v : tidy (book g) → named (book g) → policies_known (book g) →
  member_key t actor = (ty, sender) → resolveTrustVerdict r now t actor g = (g', v) →
  verdictUsability (Some v) =
    (if Verdict.resolutionFailed v then unusable resolution_failed else usable v (sender_class ty sender (book g))) ∧
  (Verdict.resolutionFailed v = false →
   verdictMemberFromVerdict v = sender_row ty sender (book g) ≫= row_member ∧
   earned (sender_class ty sender (book g)) (verdictMemberFromVerdict v)).
Proof.
  intros Htidy Hnamed Hpol Hk Hr. pose proof (resolved_reading r now t actor g Htidy Hnamed) as H. rewrite Hr Hk in H.
  destruct H as (_ & _ & H). destruct (Verdict.resolutionFailed v) eqn:Hf; [by rewrite /= Hf|].
  destruct (H eq_refl) as (Hc & Hm & Hid & _). pose proof (sender_class_earned ty sender (book g)) as He.
  assert (match sender_row ty sender (book g) with Some m => is_Some (row_member m) | None => True end) as Hsome.
  { destruct (sender_row ty sender (book g)) as [[c ch]|] eqn:Hrow; [|done].
    apply sender_row_elem in Hrow as (s & _ & _ & Hch & _). destruct (Hpol ch Hch) as [p Hp]. unfold row_member. cbn [fst snd].
    rewrite Hp. by eexists. }
  split.
  - apply usable_reading; [done|done|]. rewrite Hid Hm. destruct (sender_row ty sender (book g)) as [m|]; cbn [mbind option_bind].
    + intros _. destruct Hsome as [x ->]. done.
    + intros [Hb|Hb]; [done|]. by rewrite He in Hb.
  - intros _. split; [done|]. rewrite Hm. destruct (sender_row ty sender (book g)) as [m|]; [|done]. cbn [mbind option_bind].
    destruct Hsome as [x Hx]. unfold row_member in Hx |- *. destruct (isChannelPolicy (Channel.policy m.2)); [|done]. exact He.
Qed.

(** What the row of a sender entitles it to under a floor. *)
Definition row_entitled (p : AdmissionPolicy) (ty : string) (sender : option string) (b : Book) : bool :=
  meetsAdmissionFloor p (sender_class ty sender b) &&
  match sender_row ty sender b with
  | Some (c, ch) => negb (isKeptOutStatus (Channel.status ch)) && bool_decide (Channel.policy ch = "allow")
  | None => true
  end.

Lemma row_entitled_member p ty sender b : policies_known b →
  entitled p (sender_class ty sender b) (sender_row ty sender b ≫= row_member) = row_entitled p ty sender b.
Proof.
  intros Hpol. unfold entitled, row_entitled. destruct (sender_row ty sender b) as [[c ch]|] eqn:Hrow; [|done].
  apply sender_row_elem in Hrow as (s & _ & _ & Hch & _). destruct (Hpol ch Hch) as [x Hx]. cbn [mbind option_bind].
  unfold row_member. cbn [fst snd]. rewrite Hx. cbn [mbind option_bind m_status m_policy]. do 2 f_equal.
  unfold isChannelPolicy in Hx. destruct (decide (Channel.policy ch = "allow")) as [Ha|Ha].
  - rewrite bool_decide_eq_true_2 // in Hx. injection Hx as <-. by rewrite !bool_decide_eq_true_2.
  - rewrite bool_decide_eq_false_2 // in Hx. rewrite (bool_decide_eq_false_2 _ Ha).
    destruct (bool_decide (Channel.policy ch = "deny")); [|done]. by injection Hx as <-.
Qed.


(** An event that is admitted with a floor is on a channel that has one. *)
Lemma admitted_policy flag policies now ge g g' v p :
  admitInbound flag policies now ge g = (g', admitted v (Some p)) → isAdmissionPolicyExemptChannel (g_channel ge) = false.
Proof.
  unfold admitInbound, resolveAdmissionPolicy. destruct flag; cbn [negb].
  - destruct (isAdmissionPolicyExemptChannel (g_channel ge)); [|done]. cbn. destruct (routing_rejection ge); [done|].
    destruct (_ && _); [done|]. destruct (if resolver_works ge then _ else _). by destruct (_ && _).
  - cbn. destruct (routing_rejection ge); [done|].
    destruct (_ && _); [done|]. destruct (if resolver_works ge then _ else _). by destruct (_ && _).
Qed.

Lemma forged_verdict flag policies now ge g g' v p :
  admitInbound flag policies now ge g = (g', admitted v p) → senderAuthenticated ge = Some false →
  ∃ s f, v = plain_verdict unknown s f None.
Proof.
  intros Hadm Hauth. unfold admitInbound in Hadm. destruct (resolveAdmissionPolicy _ _ _); [|done].
  destruct (bool_decide (_ = Some no_one)); [done|]. destruct (routing_rejection ge); [done|].
  destruct (_ && verificationIntercepted ge); [done|]. destruct (if resolver_works ge then _ else _) as [g1 v1].
  assert (downgrade (senderAuthenticated ge) v1 = plain_verdict unknown (Verdict.canonicalSenderId v1) (Verdict.resolutionFailed v1) None)
    as Hd by by rewrite Hauth.
  rewrite Hd in Hadm. destruct (_ && invite_redeemed ge _); [done|]. injection Hadm as _ <- _. by do 2 eexists.
Qed.

(** C14 — A sender whose address the channel could not authenticate is a stranger whatever
    the tables say of that address: what gets past the gates does so as unknown and
    without a row, on a channel open to strangers or to finish a bootstrap. *)
Theorem forged_senders_are_strangers gflag policies now ge g g' v p flag w e c m b :
  admitInbound gflag policies now ge g = (g', admitted v p) → senderAuthenticated ge = Some false →
  channel_ e = g_channel ge → speaks (kind e) → (handleChannelInbound flag w (forwarded e v p)).1 = agent_path c m b →
  c = unknown ∧ m = None ∧ (b = true ∨ flag = true ∧ p = Some strangers).
Proof.
  intros Hadm Hauth Hch Hk Hg. destruct (forged_verdict _ _ _ _ _ _ _ _ Hadm Hauth) as (s & [] & ->).
  { exfalso. unfold handleChannelInbound, enforceIngressAcl in Hg. cbn in Hg. by destruct Hk as [Hk|Hk]; rewrite /= Hk in Hg. }
  pose proof (gate_decision flag w (forwarded e (plain_verdict unknown s false None) p) (plain_verdict unknown s false None) unknown
    Hk eq_refl) as H. cbv zeta in H.
  change (verdictMemberFromVerdict (plain_verdict unknown s false None)) with (@None VerdictMember) in H.
  unfold acl_passes in H. rewrite bool_decide_eq_false_2 // in H. destruct (bootstraps w _); cbn [orb] in H.
  - rewrite orb_true_r in H. rewrite H in Hg. injection Hg as <- <- <-. split_and!; [done|done|by left].
  - destruct (floor_answers_non_member _) eqn:Hf; [|by rewrite Hg in H].
    destruct flag; [|done]. destruct p as [p|]; [|done]. unfold floor_answers_non_member in Hf.
    change (effectiveAdmissionPolicy _) with (Some (wire_policy (forwarded e (plain_verdict unknown s false None) (Some p)))) in Hf.
    rewrite wire_policy_forwarded in H, Hf. apply admitted_policy in Hadm. rewrite -Hch in Hadm.
    unfold enforceAdmissionPolicy in H. change (channel_ (forwarded _ _ _)) with (channel_ e) in H. rewrite Hadm in H.
    destruct p; try done; cbn in H; [by rewrite Hg in H|]. rewrite H in Hg. injection Hg as <- <- <-. split_and!; [done|done|by right].
Qed.

(** ** A guardian that was bound *)

Lemma bound_policy p fc fch now b b' w x : applyGuardianBindingGatewayWrites p fc fch now b = Some (b', w) →
  x ∈ channels b' → Channel.verifiedAt x = Some now → (∀ y, y ∈ channels b → Channel.verifiedAt y ≠ Some now) →
  Channel.policy x = "allow".
Proof.
  intros (_ & _ & Hw & _)%binding_writes Hx Hv Hold. unfold write_channel in Hw.
  assert (∀ i l', l' = update_where (λ ch, bool_decide (Channel.id ch = i)) (bind_channel (bound_contact p fc b) p now) (channels b) →
    x ∈ l' → Channel.policy x = "allow") as Hupd.
  { intros i l' -> (y & -> & Hy)%list_elem_of_fmap. destruct (bool_decide _); [done|]. by destruct (Hold y Hy). }
  destruct (head _) as [ex|].
  - destruct (is_protected _ _); [injection Hw as Hw; rewrite -Hw in Hx; by destruct (Hold x Hx)|].
    destruct (address_taken _ _ _ _); [done|]. injection Hw as Hw. by eapply Hupd; [symmetry; exact Hw|].
  - destruct (existsb _ _); injection Hw as Hw; [by eapply Hupd; [symmetry; exact Hw|]|].
    rewrite -Hw in Hx. apply elem_of_app in Hx as [Hx|[->|[]%not_elem_of_nil]%elem_of_cons]; [by destruct (Hold x Hx)|done].
Qed.


(** ** Plugins *)

(** A plugin's delivery is compared with the floor and nothing else: it reaches the
    plugin for a blocked or denied member whose class meets the floor, and on a channel
    open to strangers even when the gateway could not vouch for the sender, though
    the daemon lets no event past its gates on any of these verdicts. *)
Theorem plugins_hear_the_kept_out v c m p :
  verdictUsability (Some v) = usable v c → verdictMemberFromVerdict v = Some m →
  m_status m = ch_blocked ∨ m_policy m = deny → meetsAdmissionFloor p c = true →
  plugin_delivers v (Some p) = true ∧ (∀ s, plugin_delivers (makeResolutionFailedVerdict s) (Some strangers) = true) ∧
  (∀ flag w e, speaks (kind e) → is_agent (handleChannelInbound flag w (forwarded e v (Some p))).1 = false).
Proof.
  intros Hv Hm Hrow Hp. destruct (usable_class _ _ _ Hv) as (_ & Hc & _). split_and!; [by rewrite /= Hc|done|].
  intros flag w e Hk. pose proof (gate_decision flag w (forwarded e v (Some p)) v c Hk Hv) as H. cbv zeta in H. rewrite Hm in H.
  destruct (acl_passes _ _ _ _) as [b|] eqn:Ha; [|done]. apply acl_keeps_out in Ha as (Hb & Hd & _). destruct Hrow; congruence.
Qed.

(** ** Calls *)

(** Not one of the outbound modes, no invite, no challenge pending. *)
Definition plain_inbound_call (ctx : SetupContext) (v : Verdict.TrustVerdict) : Prop :=
  (call ctx ≫= initiatedFromConversationId) = None ∧ (call ctx ≫= callMode) = None ∧ verificationParam ctx = None ∧
  voiceInvite ctx = None ∧ (Verdict.hasInterceptableVerificationSession v = Some false ∨ pendingSession ctx = false).

Lemma plain_call_routed ctx v c : plain_inbound_call ctx v → verdictUsability (callVerdict ctx) = usable v c →
  routeSetup ctx = Some (route_inbound_call ctx v c).
Proof. intros (Hi & Hm & Hp & _) Hv. unfold routeSetup. rewrite Hv Hi Hm Hp. done. Qed.


(** A blocked caller hears the denial, unless somebody's verification is pending on the
    telephone channel: then it is asked for the code. *)
Theorem pending_challenge_hides_the_block ctx v c m :
  (call ctx ≫= initiatedFromConversationId) = None → (call ctx ≫= callMode) = None → verificationParam ctx = None →
  verdictUsability (callVerdict ctx) = usable v c → earned c (Some m) → verdictMemberFromVerdict v = Some m →
  m_status m = ch_blocked → m_policy m = allow → Verdict.hasInterceptableVerificationSession v ≠ Some false →
  routeSetup ctx =
    Some (if pendingSession ctx then verification else deny_call NOT_AUTHORIZED "Inbound voice ACL: caller blocked").
Proof.
  intros Hi Hmode Hpar Hv Hearn Hm Hs Hpol Hses. unfold routeSetup. rewrite Hv Hi Hmode Hpar. cbn [truthy negb andb bool_decide].
  assert (c = unknown) as -> by (destruct Hearn as [-> |[_ H]]; [by rewrite Hs|by rewrite Hs in H]).
  unfold route_inbound_call, route_unknown_caller.
  rewrite (bool_decide_eq_false_2 (Verdict.hasInterceptableVerificationSession v = Some false)) //.
  rewrite Hm. cbn [fmap option_fmap option_map]. rewrite Hpol Hs. by destruct (pendingSession ctx).
Qed.

(** ** The floor's hint *)

(** The floor's hint that verification could help is given for [any_contact] alone,
    though a sender turned away under [trusted_contacts] would get in once trusted. *)
Theorem floor_hint_misses_the_default_floor ch c s p hint q :
  enforceAdmissionPolicy ch c s p = floor_denies (below_floor q) hint p →
  (hint = true ↔ p = any_contact) ∧ (trustedContactPromotionClearsFloor p = true ↔ p = any_contact ∨ p = trusted_contacts).
Proof.
  unfold enforceAdmissionPolicy. destruct (isAdmissionPolicyExemptChannel ch); [done|].
  do 2 (destruct (bool_decide _); [done|]). destruct p, c; cbn; intros [= <- <-]; split; split; naive_solver.
Qed.

(** ** What a denial sets off *)

Definition is_challenge (x : Effect) : bool := match x with mint_challenge _ => true | _ => false end.
Definition is_notice (x : Effect) : bool := match x with notify_guardian _ => true | _ => false end.
Definition count (f : Effect → bool) (es : list Effect) : nat := length (filter (λ x, f x = true) es).

Lemma count_app f es es' : count f (es ++ es')%list = (count f es + count f es')%nat.
Proof. unfold count. by rewrite filter_app length_app. Qed.

Lemma count_cons f x es : count f (x :: es) = ((if f x then 1 else 0) + count f es)%nat.
Proof. unfold count. rewrite filter_cons. destruct (f x); by case_decide. Qed.

Lemma count_nil f : count f [] = 0%nat.
Proof. done. Qed.

Ltac counts := rewrite ?count_app ?count_cons ?count_nil; cbn [is_challenge is_notice]; try lia.

(** No challenge and no notice. *)
Definition quiet (es : list Effect) : Prop := count is_challenge es = 0%nat ∧ count is_notice es = 0%nat.

(** At most one of each, and none if [hushed]. *)
Definition restrained (hushed : Prop) (es : list Effect) : Prop :=
  (count is_challenge es ≤ 1)%nat ∧ (count is_notice es ≤ 1)%nat ∧ (hushed → quiet es).

Lemma quiet_restrained h es : quiet es → restrained h es.
Proof. intros [Hc Hn]. split_and!; [lia|lia|done]. Qed.

Lemma restrained_app h es es' : quiet es → restrained h es' → restrained h (es ++ es')%list.
Proof.
  intros [Hc Hn] (Hc' & Hn' & Hq). unfold restrained, quiet. rewrite !count_app Hc Hn. split_and!; [lia|lia|done].
Qed.

Lemma challenge_counts w s stamp : let '(r, es) := initiateVerificationChallenge w s stamp in
  (count is_challenge es ≤ 1)%nat ∧ count is_notice es = 0%nat.
Proof.
  unfold initiateVerificationChallenge. destruct (bool_decide _); [split; by counts|].
  destruct (session_reads w) as [[a b]|]; [|split; by counts]. destruct (_ || _); split; by counts.
Qed.

Lemma try_challenge_counts w p stamp m l may : let '(r, es) := try_challenge w p stamp m l may in
  (count is_challenge es ≤ 1)%nat ∧ count is_notice es = (if r then 1 else 0)%nat ∧
  (may = false ∨ isCallbackInteraction p = true → r = None ∧ es = []).
Proof.
  unfold try_challenge. destruct (_ && _) eqn:Hif.
  - assert (¬ (may = false ∨ isCallbackInteraction p = true)) as Hn.
    { intros [H|H]; rewrite H ?andb_false_r in Hif; done. }
    pose proof (challenge_counts w (sender_of p otherwise EmptyString) stamp) as H.
    destruct (initiateVerificationChallenge _ _ _) as [[id|] es]; destruct H as [Hc Hnn]; [|split_and!; [lia|done|done]].
    split_and!; [| |done]; destruct (bool_decide (sourceChannel p = "slack")); unfold challenge_dm; destruct (replyCallbackUrl p); counts.
  - split_and!; by counts.
Qed.

Lemma turn_away_counts w p m why ask : let '(r, es) := turn_away w p m why ask in
  count is_challenge es = 0%nat ∧ count is_notice es = (if ask && negb (isCallbackInteraction p) then 1 else 0)%nat.
Proof.
  unfold turn_away, ask_guardian, answer. destruct ask; [|destruct (replyCallbackUrl p); split; by counts].
  destruct (isCallbackInteraction p); [destruct (replyCallbackUrl p); split; by counts|].
  destruct (access_request w) as [[n r]|], (replyCallbackUrl p); split; by counts.
Qed.

Lemma deny_inactive_restrained w p stamp m :
  restrained (isCallbackInteraction p = true ∨ isKeptOutStatus (m_status m) = true) (deny_inactive w p stamp m).2.
Proof.
  unfold deny_inactive, restrained, quiet.
  pose proof (try_challenge_counts w p stamp (Some m) ["slack"] (negb (isKeptOutStatus (m_status m)))) as Ht.
  set (why := "member_" +:+ _). pose proof (turn_away_counts w p (Some m) why (negb (isKeptOutStatus (m_status m)))) as Ha.
  destruct (turn_away _ _ _ _ _) as [r' e']. destruct (try_challenge _ _ _ _ _ _) as [[r|] e]; destruct Ht as (Hc & Hn & Hh), Ha as [Hc' Hn'];
    cbn [snd]; rewrite ?count_app ?Hc' ?Hn'.
  - split_and!; [lia|lia|]. intros Hq. assert (Some r = None ∧ e = []) as [? _]; [|done]. apply Hh. destruct Hq as [Hq|Hq]; [by right|left; by rewrite Hq].
  - split_and!; [lia|rewrite Hn; destruct (_ && _); lia|]. intros Hq. destruct Hh as [_ ->].
    + destruct Hq as [Hq|Hq]; [by right|left; by rewrite Hq].
    + rewrite !count_nil. destruct Hq as [-> | ->]; by rewrite ?andb_false_r.
Qed.

Lemma deny_non_member_restrained w p stamp : restrained (isCallbackInteraction p = true) (deny_non_member w p stamp).2.
Proof.
  unfold deny_non_member, restrained, quiet. pose proof (try_challenge_counts w p stamp None ["slack"; "email"] true) as Ht.
  pose proof (turn_away_counts w p None "not_a_member" true) as Ha.
  destruct (turn_away _ _ _ _ _) as [r' e']. destruct (try_challenge _ _ _ _ _ _) as [[r|] e]; destruct Ht as (Hc & Hn & Hh), Ha as [Hc' Hn'];
    cbn [snd]; rewrite ?count_app ?Hc' ?Hn'.
  - split_and!; [lia|lia|]. intros Hq. destruct Hh as [? _]; [by right|done].
  - split_and!; [lia|rewrite Hn; destruct (_ && _); lia|]. intros Hq. destruct Hh as [_ ->]; [by right|]. by rewrite !count_nil Hq.
Qed.

Lemma deny_by_policy_quiet w p m : quiet (deny_by_policy w p m).2.
Proof. unfold deny_by_policy, answer, quiet. by destruct (replyCallbackUrl p). Qed.

(** Lookups of a bootstrap's token alone. *)
Definition looks_up (x : Effect) : Prop := match x with resolve_bootstrap _ => True | _ => False end.

Lemma try_bootstrap_looks w payload : Forall looks_up (try_bootstrap w payload).2.
Proof. destruct payload; by repeat constructor. Qed.

Lemma looks_quiet es : Forall looks_up es → quiet es.
Proof. induction 1 as [|x es Hx _ [Hc Hn]]; [done|]. by destruct x. Qed.

(** C31 — What turning a sender away sets off: at most one challenge and one notice to the
    guardian; none for a callback, for a sender who is kept out, for the guardian or for
    a verdict that is void; and a sender that is let on sets off at most the lookup of
    its bootstrap. *)
Theorem denials_ask_within_bounds w p :
  let '(r, es) := enforceIngressAcl w p in
  (count is_challenge es ≤ 1)%nat ∧ (count is_notice es ≤ 1)%nat ∧
  (isCallbackInteraction p = true → quiet es) ∧
  (earlyResponse r = None → Forall looks_up es) ∧
  match verdictUsability (trustVerdict p) with
  | unusable _ => es = []
  | usable v c =>
      (c = guardian → es = []) ∧
      (∀ m, verdictMemberFromVerdict v = Some m → isKeptOutStatus (m_status m) = true → quiet es)
  end.
Proof.
  unfold enforceIngressAcl. destruct (actorUnattributed p).
  { split_and!; try done; try (by counts). by destruct (verdictUsability _). }
  destruct (verdictUsability (trustVerdict p)) as [v c|]; [|split_and!; try done; by counts].
  destruct (bool_decide (c = guardian)) eqn:Hc; [split_and!; try done; by counts|]. apply bool_decide_eq_false in Hc.
  destruct (negb _); [split_and!; try done; by counts|].
  pose proof (try_bootstrap_looks w (bootstrap_payload p)) as Hl.
  destruct (verdictMemberFromVerdict v) as [m|].
  - set (s := m_status m). set (looked := if bool_decide (s = ch_active) || bool_decide (s = ch_blocked) then (false, []) else _).
    assert (Forall looks_up looked.2) as Hlk by (unfold looked; by destruct (_ || _)). clear Hl. destruct looked as [b sent].
    pose proof (looks_quiet _ Hlk) as Hq. cbn [snd] in Hlk, Hq.
    pose proof (deny_inactive_restrained w p (Verdict.hasInterceptableVerificationSession v) m) as Hi.
    pose proof (deny_inactive_denies w p (Verdict.hasInterceptableVerificationSession v) m) as (mi & di & Hdi).
    pose proof (deny_by_policy_quiet w p m) as Hp. pose proof (deny_by_policy_denies w p m) as (mp & dp & Hdp).
    destruct (deny_inactive _ _ _ _) as [r1 e1], (deny_by_policy _ _ _) as [r2 e2]. cbn [fst snd] in *. subst r1 r2.
    destruct (_ && negb (_ && _)); [|destruct (bool_decide (m_policy m = deny))].
    + apply (restrained_app _ sent) in Hi as (H1 & H2 & H3); [|done]. split_and!; [done|done|by intros; apply H3; left|done|done|].
      intros m' [= <-] Hk. apply H3. by right.
    + destruct Hq as [Hq1 Hq2], Hp as [Hp1 Hp2]. unfold quiet. rewrite !count_app Hq1 Hq2 Hp1 Hp2. split_and!; by try lia.
    + destruct Hq as [Hq1 Hq2]. unfold quiet. rewrite Hq1 Hq2. split_and!; by try lia.
  - destruct (try_bootstrap w (bootstrap_payload p)) as [b sent]. pose proof (looks_quiet _ Hl) as Hq. cbn [snd] in Hl, Hq.
    pose proof (deny_non_member_restrained w p (Verdict.hasInterceptableVerificationSession v)) as Hn.
    pose proof (deny_non_member_denies w p (Verdict.hasInterceptableVerificationSession v)) as (mn & dn & Hdn).
    destruct (deny_non_member _ _ _) as [r e]. cbn [fst snd] in *. subst r. destruct (b || _).
    + destruct Hq as [Hq1 Hq2]. unfold quiet. rewrite Hq1 Hq2. split_and!; by try lia.
    + apply (restrained_app _ sent) in Hn as (H1 & H2 & H3); [|done]. by split_and!.
Qed.

(** ** Instances *)

Definition sample_world : World := {|
  bootstrap_status := None; session_reads := Some (false, false); minted := Some "session"; access_request := Some (true, EmptyString);
  handshake_in_progress := false; replies_arrive := true |}.

Definition sample_event (k : InboundEventKind) (ch actor : string) : Inbound := {|
  kind := k; channel_ := ch; actorExternalId := actor; wireAdmissionPolicy := None; wireVerdict := None; wireUnattributed := false;
  fromBot := false; command := None; callbackUrl := true; duplicate := false; guardianLabel := "Ann" |}.

Definition sample_arrival (ch actor : string) (authenticated : option bool) : GatewayEvent := {|
  g_channel := ch; g_actor := Some actor; routing_rejection := None; carriesUserText := true; verificationIntercepted := false;
  invite_redeemed := λ _, false; resolver_works := true; senderAuthenticated := authenticated; reads := sample_reads |}.

Definition sample_policies : Policies := startup 0 {["slack" := PolicyRow.Mk "any_contact" None 0; "email" := PolicyRow.Mk "strangers" None 0]}.

(** The verdict on a sender of the sample tables. *)
Definition sample_verdict (ch actor : string) : Verdict.TrustVerdict := (resolveTrustVerdict sample_reads 0 ch (Some actor) sample_gateway).2.

Lemma sample_policies_known : policies_known sample_book.
Proof. intros ch Hch. cbn in Hch. repeat (apply elem_of_cons in Hch as [->|Hch]); try by apply not_elem_of_nil in Hch. all: by eexists. Qed.



Lemma guardian_only_lets_strangers_edit_witness :
  (handleChannelInbound true sample_world
     (forwarded (sample_event k_edit "slack" "U9") (sample_verdict "slack" "U9") (Some guardian_only))).1 = edit_path None.
Proof.
  apply (guardian_only_lets_strangers_edit sample_world
    (forwarded (sample_event k_edit "slack" "U9") (sample_verdict "slack" "U9") (Some guardian_only)) (sample_verdict "slack" "U9") unknown);
    [done|by vm_compute|done|by vm_compute|done].
Defined.

Lemma forged_senders_are_strangers_witness :
  let v := downgrade (Some false) (sample_verdict "email" "ann@x.org") in
  ∃ c m b, (handleChannelInbound true sample_world (forwarded (sample_event k_message "email" "ann@x.org") v (Some strangers))).1 =
    agent_path c m b ∧ c = unknown ∧ m = None.
Proof.
  cbv zeta. destruct ((handleChannelInbound true sample_world (forwarded (sample_event k_message "email" "ann@x.org")
    (downgrade (Some false) (sample_verdict "email" "ann@x.org")) (Some strangers))).1) as [| | | | |c m b] eqn:Hg; try by vm_compute in Hg.
  exists c, m, b. split; [done|].
  destruct (forged_senders_are_strangers true sample_policies 0 (sample_arrival "email" "ann@x.org" (Some false)) sample_gateway
    (resolveTrustVerdict sample_reads 0 "email" (Some "ann@x.org") sample_gateway).1
    (downgrade (Some false) (sample_verdict "email" "ann@x.org")) (Some strangers) true sample_world
    (sample_event k_message "email" "ann@x.org") c m b) as (-> & -> & _); [by vm_compute|done|done|by left|exact Hg|done].
Defined.

Definition unvouched_verdict (s : ChannelStatus) (c : TrustClass) : Verdict.TrustVerdict :=
  Verdict.Mk (class_text c) (Some "+15550001111") false None None None None (Some "ann") (Some "c9") (Some "phone") (Some "+15550001111")
    None (Some (status_text s)) (Some "allow") None (Some "Ann") None (Some 0) None.

Lemma plugins_hear_the_kept_out_witness :
  plugin_delivers (unvouched_verdict ch_blocked unknown) (Some strangers) = true.
Proof.
  destruct (verdictMemberFromVerdict (unvouched_verdict ch_blocked unknown)) as [m|] eqn:Hm; [|by vm_compute in Hm].
  apply (plugins_hear_the_kept_out (unvouched_verdict ch_blocked unknown) unknown m strangers); [by vm_compute|done| |done].
  left. vm_compute in Hm. by injection Hm as <-.
Defined.

Definition sample_call (v : Verdict.TrustVerdict) (pending : bool) (p : option AdmissionPolicy) : SetupContext := {|
  call := None; from := "+15550001111"; to := "+15550002222"; verificationParam := None; admissionPolicy := p; callVerdict := Some v;
  verificationEnabled := true; pendingSession := pending; voiceInvite := None |}.


Lemma pending_challenge_hides_the_block_witness :
  routeSetup (sample_call (unvouched_verdict ch_blocked unknown) true (Some trusted_contacts)) = Some verification.
Proof.
  destruct (verdictMemberFromVerdict (unvouched_verdict ch_blocked unknown)) as [m|] eqn:Hm; [|by vm_compute in Hm].
  vm_compute in Hm. injection Hm as Hm.
  rewrite (pending_challenge_hides_the_block (sample_call (unvouched_verdict ch_blocked unknown) true (Some trusted_contacts))
    (unvouched_verdict ch_blocked unknown) unknown m); [done|done|done|done|by vm_compute|by rewrite -Hm; left|by rewrite -Hm|by rewrite -Hm|by rewrite -Hm|done].
Defined.

